(* ===== verification/_CoqProject ===== *)
-Q . S2P
Prelude.v
Bytes.v
Text.v
Io.v
Codec.v
Lease.v
CatalogKey.v
CatalogRow.v
Store.v
Catalog.v
SledMigrate.v
Formats.v
Cdc.v
Capabilities.v
OffsetStore.v
CopyWal.v
SegmentFile.v
Arrow.v
CdcReconcile.v
CatalogOutbox.v
CatalogCoordinator.v
SourceContract.v
WalSlice.v
WalHandle.v
WalDurability.v
Processor.v
ProcessorReplay.v
ProcessorView.v
CompactionIndex.v
CompactionInvariant.v
CompactionScheduler.v
Clients.v
IcebergCatalog.v
DynamoCatalog.v
DynamoTables.v
DynamoCommits.v
FsCatalog.v
Sql.v
CdcApply.v
CdcApplyMeaning.v
CdcApplyRegister.v
CdcApplyBulk.v
CdcApplyBatch.v
Tuner.v
