(* ===== verification/Prelude.v ===== *)
(** * A verification library for skipprd

    skipprd is a streamhouse engine: sources are ingested into a write-ahead log of
    segment files, a catalog in a key-value store records the segments and their
    compaction, offsets and checkpoints of the sources are published from committed log
    entries, and sinks apply the compacted slices.  This library models the durable core
    of it as executable functions and proves the properties that make it correct.

    ** The parts and how they interact

    - [Prelude], [Bytes], [Text], [Io], [Codec]: the language.  Results and stateful
      operations that may fail ([result], [st], loops with fuel), byte strings with their
      order and little-endian integers, UTF-8 text and decimal numbers, in-memory I/O
      cursors, and the two library interfaces everything uses: [Codec] for [bincode] and
      [Digest] for SHA-256.
    - [Lease] (crates/skippr-lease: identity.rs, paths.rs, error.rs): validated path
      components, pipeline keys, the directory layout, and [decide_wal_publish], the rule
      by which a committed log entry may move an offset.
    - [CatalogKey], [CatalogRow] (crates/skippr-wal-catalog: key.rs, row.rs, error.rs): the
      keys and rows of the WAL catalog, the slice bitmap, the conditional operations.
    - [Store] (kv.rs, memory_kv.rs, fjall_kv.rs): the store trait as the class
      [SkipprStore], what it promises as [StoreLaws] (and [StoreTotal] for stores whose I/O
      does not fail), and its two implementations, the memory store with its writer fence
      and the fjall store over the class [FjallDb].
    - [Catalog] (txn.rs, apply.rs, store.rs, memory_kv.rs): transactions, their evaluation
      and commit, queries, prefix deletion and reset, for any store.
    - [SledMigrate] (sled_migrate.rs): the resumable copy of an old sled database into the
      store, over the class [SledWorld] for sled and the file system.
    - [Formats] (src/pipeline_type.rs, src/serdes/input_format.rs, output_format.rs):
      pipeline types, formats and their resolution.
    - [Cdc], [Capabilities] (src/plugins/cdc.rs, src/connect_generated.rs): contracts,
      checkpoints, row metadata, and the capability tables with the guarantee derived from
      them.
    - [OffsetStore] (src/helpers/offset_store.rs, offsets.rs): publication of offsets and
      checkpoints under fences, on a store with a sled fallback, and the reading facade.
    - [CopyWal] (src/serdes/copy.rs, src/buffer/segment_file.rs): the rows of copy
      pipelines and their chunked gzip payload.
    - [SegmentFile] (src/buffer/segment_file.rs): the SEGF segment format, its encoder and
      its readers.
    - [Arrow], [CdcReconcile] (src/sqlrt/cdc_reconcile.rs, wal_table.rs,
      crates/skippr-query-plan): record batches over the class [Arrow], and the operator
      that merges uncompacted log rows into a lake snapshot: the fold to one winner per
      key, the anti-join, the sidecar columns, the projection and the plan bytes.
    - [CatalogOutbox] (src/catalog_outbox.rs, the intents of runtime_plugins/protocol.rs):
      the durable directory of catalog intents and its index.
    - [CatalogCoordinator] (src/catalog_coordinator.rs): the delivery of those intents to
      Glue over the class [GlueExecutor], with retries and batches.
    - [SourceContract] (src/plugins/source_contract.rs, the field-name cleaning of
      helpers/mod.rs): what a source declares of its namespaces and how the engine takes it
      into its configuration.
    - [WalSlice] (src/wal_slice_ref.rs, sink_apply_identity.rs,
      buffer/compaction_transaction.rs): references to slices of the log, the identity of a
      group a sink applies, and compaction transactions.
    - [WalHandle], [WalDurability] (src/buffer/wal_handle.rs, write_payload_atomically of
      segment_file.rs): the handle of a pipeline's log: persisting segments and control rows,
      publication, slice bits and reclaiming, compaction rows, the redo of acknowledged
      compactions and the republication at startup, over a store, a disk and an object store
      that may all fail; the second file is a program logic for it, the invariant and the
      theorems.
    - [Processor], [ProcessorReplay], [ProcessorView] (src/processor/mod.rs, the aggregates of
      helpers/configuration.rs): the stream processor, which folds the rows of the log into
      keyed sums and counts in the stream-state family of the store, over the classes
      [RowArrow], [Float64] and [ProcessorJson]; the second file shows that it applies every
      slice once, the third what its measures are.
    - [CompactionIndex], [CompactionInvariant] (src/buffer/compaction_index.rs): the index
      of slices that are not compacted yet, its queues, manifests and plans; the second file
      holds the invariant and the theorems.
    - [CompactionScheduler] (src/buffer/compaction_scheduler.rs): the loop that keeps the
      compaction workers busy, over a class for what a planner promises.
    - [Tuner] (src/ingest/tuner.rs): the limits of the flush pipeline, tuned from one sample a
      second, with their caps and the counters that sinks and plugins read, over the class
      [Float].
    - [Clients]: programs of requests whose clients interleave, with a rely-guarantee logic
      for them; what the catalogs of the lake are written in.
    - [IcebergCatalog] (crates/skippr-iceberg-catalog): warehouses, object stores, key names,
      the bounded cache of table metadata and the files a commit supersedes, over classes for
      the Iceberg library.
    - [DynamoCatalog], [DynamoTables], [DynamoCommits] (crates/skippr-iceberg-catalog-dynamodb):
      the catalog of the lake on DynamoDB, every call of its trait, over a class that states
      what the services promise, lost answers included; the second file is about namespaces and
      their counts, the third about commits.
    - [FsCatalog] (crates/skippr-iceberg-catalog-fs): the same trait on a file system.
    - [Sql]: the statements the warehouse sinks use, as syntax with a text and a meaning on
      tables, three-valued conditions included.
    - [CdcApply] (plugins/shared/cdc_apply_core.rs, the backends of the Redshift, Databricks,
      Snowflake, MotherDuck, Synapse and BigQuery sinks): batches of change events and the
      SQL texts that apply them, set-based with staging or guarded row by row.
      [CdcApplyMeaning] shows which statements those texts are, [CdcApplyRegister] and
      [CdcApplyBulk] what the guarded and the set-based ones do to the register of a business
      key, [CdcApplyBatch] puts them together.

    A segment is encoded ([SegmentFile]), its file is written and its row and index are
    committed in one catalog transaction ([WalHandle], [Catalog] over [Store]), and the
    offsets it covers are published ([OffsetStore], by the rule of [Lease]).  The migration
    ([SledMigrate]) fills the same store from an older database while readers fall back to it.  Readers of a table see the
    lake and the log merged by [CdcReconcile].  Slices of committed segments enter the
    [CompactionIndex]; its plans, which [CompactionScheduler] turns into running work within the limits of [Tuner], become
    transactions whose references ([WalSlice]) fence the slices until the sink has applied
    them and the handle reclaims the segment, once [Processor] has passed it; warehouse sinks
    apply change events with the statements of [CdcApply], in the order of the tokens that [Cdc]
    gives them; sinks that write partitions leave intents in
    [CatalogOutbox], which [CatalogCoordinator] drains.

    ** What the theorems show

    - Catalog: a commit refines an abstract transaction on a map of rows; it is atomic also
      when the store fails; concurrent replacements of one version do not both win; the
      sequence never goes back; paging is complete; deletion and reset are exact and end.
    - Store: the early-stopping scan of the memory store is the sorted, filtered listing; a
      fenced-out writer changes nothing; lawful stores are interchangeable.
    - Migration: the cursor never runs ahead of the copy whatever fails; on a healthy
      database it ends with everything copied; a damaged cursor stops it; fallback reads
      agree with it; a tree that holds only the empty key keeps it busy for ever.
    - Offsets: publication is idempotent, fences never regress, what is published is read
      back, a reset is exact; keys of partitions with dashes collide.
    - Segments: the reader accepts exactly the files of a declarative layout, ends on every
      input and refuses every truncation; encoding and reading round trip; the index is
      in bounds, without overlaps, and locates every payload and sidecar; the bytes do not
      depend on hash-map order; admission proves the catalog digest; copy rows round trip.
    - Reconciliation: its output is what applying every event in the order of its position
      leaves of the snapshot; its batches have the user schema; attached sidecars are read
      back; a null key on an append row fails the scan.
    - Outbox: whatever fails between calls or inside one, reopening the directory rebuilds
      the index that was maintained; what persist reports is durable; results of stale
      attempts change nothing.
    - Coordinator: an intent leaves the outbox only after the service confirmed it; on a
      healthy disk and service the drain ends with everything due delivered; retry delays
      are bounded; batch responses are attributed exactly when partition values differ,
      and wrongly when they do not.
    - Source contracts: a new set of contracts is taken over whole or not at all; two
      namespaces that clean to one storage name lose a contract.
    - Slice references and identities: their text round trips, the ancestry walk is exact
      below its ceiling, identity bytes determine the identity and do not depend on order.
    - Log handle: whatever fails, every segment row on the disk has its own payload with the
      digest of the row; an acknowledged segment is committed, published and in place; the
      redo of acknowledged compactions does not respect the hold of the stream processor,
      and a batch with too many segments is put off for ever.
    - Stream processor: through any interruptions, each slice of the log is applied exactly
      once; the measures are the sums over the rows that are there when updates meet the row
      they change; with several rows under a key, or entities that share their other columns,
      an update takes another row off; with two aggregates the second loses segments.
    - Scheduling: in a cycle no more jobs run than there are slots, none is started in a lane
      where one has failed and none is left behind; a cycle ends after a bounded number of jobs.
    - Tuning: in every state the limits are within the caps of the machine and the environment
      and the counters are those of the current snapshot; growth is earned by a history of
      samples, back-off takes one; a draining pipeline reaches its caps; on a small machine
      one ingest task is pressure.
    - Compaction: every call keeps the queues, counters and fences what the slices' states
      determine; a plan respects every limit and takes only free slices, once; nothing due
      is left out of a plan that has room; registration replaces a segment exactly.
    - Lake catalogs: on DynamoDB, whatever requests interleave and whichever answers are lost, an
      acknowledged commit is built on the metadata it replaces and is swapped in once, and the
      count of a namespace is the number of its tables; a listing stops at the first page, a
      rename can take a table that was created again, a commit can be reported as a conflict.
      On a file system a writer that is overtaken between its check and its create loses an
      acknowledged commit, and a load can meet an empty version hint.
    - Change events in warehouses: the set-based and the guarded statements of a batch are the
      texts the code builds and leave every business key in the same state; the same events in
      any order, grouping and repetition leave the state of the event with the greatest token;
      accepted batches keep the limits of their dialect; rows with a null key multiply, and the
      guarded statements for BigQuery name the token column with a string.
    - Keys, paths, formats and capabilities: codecs round trip, pipelines do not share
      directories, resolved formats are supported and legal, and the exactly-once pairs of
      the connector tables are the stated ones.

    ** Bounds and fuel

    Unsigned machine integers are [N]; operations that check, saturate or wrap are written
    out ([checked_add], [saturating_add], [wrapping_add64]), and layouts carry the bounds of
    their fields.  Lengths of byte strings are unbounded naturals; statements about files
    assume fewer than 2^64 bytes where a length is written as [u64].  [usize] has 64 bits.
    A loop that is not structural takes fuel and returns [None] when it runs out; theorems
    about such code give a bound (rows of a prefix for paging and deletion, keys of the
    trees for the migration, bytes of the file for the segment readers, undelivered intents
    for the drain, the limit on groups for a plan) and show that the loop has ended within it.

    The file system of the outbox and of the log is a map of files with a counter of steps: an oracle says
    which steps fail, what prefix a failed write leaves and what the clock shows at each
    step, so that a statement for all oracles covers every schedule of faults.  Concurrent
    look-ups of the coordinator complete in the order of an arbitrary permutation.  Calls of
    the log handle are steps, but between the read and the commit of an attempt of an
    optimistic loop an arbitrary function of the attempt changes the state.  The clients of a
    lake catalog interleave at every request.  Statements of a warehouse are steps on the
    tables, and a list of them in a transaction takes effect as a whole or not at all.

    ** What is not modelled

    I/O and concurrency proper: file locks, direct I/O,
    async tasks, object stores, mutexes (operations are atomic steps; a poisoned registry
    lock is part of the state), logging and metrics.  Arrow, DataFusion, gzip, JSON text,
    bincode, SHA-256, sled, fjall, the Iceberg library, the casts of a warehouse, DynamoDB and the Glue service are parameters with the laws the code
    relies on; each has a concrete instance here that satisfies them.  The row converter of
    Arrow is assumed to give equal keys equal bytes and different keys different bytes.
    The compaction workers and the service loop of the processor are async tasks around what is
    modelled; schema discovery and evolution, the ingest path, the Iceberg writer and the SQL runtime
    work on Arrow, Parquet and DataFusion values throughout; plugins and the command line are glue
    around vendor clients.  They are left out. *)

From Stdlib Require Export NArith.
From stdpp Require Export prelude gmap sorting.

#[global] Open Scope N_scope.
#[global] Open Scope nat_scope.

(** ** Results

    Rust's [Result<A, E>], its [?] operator and the traversals the code writes
    as loops that return early. *)

Inductive result (E A : Type) : Type :=
| Ok (a : A)
| Err (e : E).

Arguments Ok {E A} a.
Arguments Err {E A} e.

#[global] Instance result_eq_dec {E A} `{EqDecision E, EqDecision A} :
  EqDecision (result E A).
Proof. solve_decision. Defined.

Definition rbind {E A B} (m : result E A) (f : A → result E B) : result E B :=
  match m with
  | Ok a => f a
  | Err e => Err e
  end.

Definition map_err {E F A} (f : E → F) (m : result E A) : result F A :=
  match m with
  | Ok a => Ok a
  | Err e => Err (f e)
  end.

Definition rmap {E A B} (f : A → B) (m : result E A) : result E B :=
  match m with
  | Ok a => Ok (f a)
  | Err e => Err e
  end.

Definition ok_or {E A} (e : E) (o : option A) : result E A :=
  match o with
  | Some a => Ok a
  | None => Err e
  end.

Definition guard_or {E} (e : E) (c : bool) : result E unit :=
  if c then Ok tt else Err e.

Definition is_ok {E A} (m : result E A) : bool :=
  match m with Ok _ => true | Err _ => false end.

Declare Scope result_scope.
Delimit Scope result_scope with res.
#[global] Open Scope result_scope.

Notation "'let?' x ':=' e 'in' k" := (rbind e (λ x, k))
  (at level 10, x binder, e at level 200, k at level 200,
   format "'[v' 'let?'  x  ':='  e  'in' '/' k ']'") : result_scope.
Notation "e ';?' k" := (rbind e (λ _, k))
  (at level 100, k at level 200, right associativity) : result_scope.

Fixpoint rtraverse {E A B} (f : A → result E B) (l : list A) : result E (list B) :=
  match l with
  | [] => Ok []
  | x :: l' => let? y := f x in let? ys := rtraverse f l' in Ok (y :: ys)
  end.

(** A fold that threads a state through a loop body that may return early. *)
Fixpoint rfold {E A S} (f : S → A → result E S) (s : S) (l : list A) : result E S :=
  match l with
  | [] => Ok s
  | x :: l' => let? s' := f s x in rfold f s' l'
  end.

Lemma rbind_Ok {E A B} (m : result E A) (f : A → result E B) b :
  rbind m f = Ok b ↔ ∃ a, m = Ok a ∧ f a = Ok b.
Proof. destruct m; simpl; naive_solver. Qed.

Lemma rbind_Err {E A B} (m : result E A) (f : A → result E B) e :
  rbind m f = Err e ↔ m = Err e ∨ ∃ a, m = Ok a ∧ f a = Err e.
Proof. destruct m; simpl; naive_solver. Qed.

Lemma map_err_Ok {E F A} (f : E → F) (m : result E A) a :
  map_err f m = Ok a ↔ m = Ok a.
Proof. destruct m; simpl; naive_solver. Qed.

Lemma rmap_Ok {E A B} (f : A → B) (m : result E A) b :
  rmap f m = Ok b ↔ ∃ a, m = Ok a ∧ b = f a.
Proof. destruct m; simpl; naive_solver. Qed.

Lemma ok_or_Ok {E A} (e : E) (o : option A) a : ok_or e o = Ok a ↔ o = Some a.
Proof. destruct o; simpl; naive_solver. Qed.

Lemma guard_or_Ok {E} (e : E) c u : guard_or e c = Ok u ↔ c = true.
Proof. destruct c, u; simpl; naive_solver. Qed.

(** [inv_res] turns hypotheses "this chain of [?] returned [Ok]" into the
    equations of its steps. *)
Ltac inv_res :=
  repeat match goal with
  | H : rbind _ _ = Ok _ |- _ => apply rbind_Ok in H as (? & ? & H)
  | H : map_err _ _ = Ok _ |- _ => apply map_err_Ok in H
  | H : ok_or _ _ = Ok _ |- _ => apply ok_or_Ok in H
  | H : guard_or _ _ = Ok _ |- _ => apply guard_or_Ok in H
  | H : rmap _ _ = Ok _ |- _ => apply rmap_Ok in H as (? & H & ?)
  | H : Ok _ = Ok _ |- _ => injection H as H
  | H : Err _ = Ok _ |- _ => discriminate H
  | H : Ok _ = Err _ |- _ => discriminate H
  | H : Err _ = Err _ |- _ => injection H as H
  end; simplify_eq/=.

Lemma rtraverse_Ok {E A B} (f : A → result E B) l ys :
  rtraverse f l = Ok ys ↔ Forall2 (λ x y, f x = Ok y) l ys.
Proof.
  revert ys; induction l as [|x l IH]; intros ys; simpl.
  - split; [intros; inv_res; constructor|inversion 1; by subst].
  - split.
    + intros H. inv_res. constructor; [done|by apply IH].
    + inversion 1 as [|?? y ys' Hx Hl]; subst.
      rewrite Hx. simpl. apply IH in Hl. by rewrite Hl.
Qed.

Lemma rtraverse_fmap_Ok {E A B C} (g : A → B) (f : B → result E C) (h : A → C) l :
  (∀ x, x ∈ l → f (g x) = Ok (h x)) →
  rtraverse f (g <$> l) = Ok (h <$> l).
Proof.
  intros Hf. apply rtraverse_Ok. induction l as [|x l IH]; csimpl; constructor.
  - apply Hf. by left.
  - apply IH. intros y Hy. apply Hf. by right.
Qed.

Lemma rfold_app {E A S} (f : S → A → result E S) s l1 l2 :
  rfold f s (l1 ++ l2) = rbind (rfold f s l1) (λ s', rfold f s' l2).
Proof.
  revert s; induction l1 as [|x l1 IH]; intros s; simpl; [done|].
  destruct (f s x); simpl; [apply IH|done].
Qed.

(** A property of the state that every step keeps is kept by the loop. *)
Lemma rfold_inv {E A S} (P : S → Prop) (f : S → A → result E S) s l s' :
  P s → (∀ t x t', x ∈ l → P t → f t x = Ok t' → P t') →
  rfold f s l = Ok s' → P s'.
Proof.
  revert s; induction l as [|x l IH]; intros s Hs Hf Hr; simpl in Hr.
  - by inv_res.
  - inv_res. eapply (IH x0); [eapply (Hf s x); [by left|done|done]| |done].
    intros t y t' Hy. apply Hf. by right.
Qed.

(** ** Stateful operations

    An operation on a store of type [S] that may fail: it returns its result and
    the state it leaves behind, also when it fails, so that the partial effects of
    a sequence that stops in the middle are part of the model. *)

Definition st (S E A : Type) : Type := S → result E A * S.

Definition sret {S E A} (a : A) : st S E A := λ s, (Ok a, s).
Definition serr {S E A} (e : E) : st S E A := λ s, (Err e, s).
(** A pure step, and one that only reads the state. *)
Definition slift {S E A} (r : result E A) : st S E A := λ s, (r, s).
Definition sread {S E A} (f : S → result E A) : st S E A := λ s, (f s, s).

Definition sbind {S E A B} (m : st S E A) (f : A → st S E B) : st S E B :=
  λ s, match m s with
       | (Ok a, s') => f a s'
       | (Err e, s') => (Err e, s')
       end.

Definition smap_err {S E F A} (f : E → F) (m : st S E A) : st S F A :=
  λ s, let '(r, s') := m s in (map_err f r, s').

Notation "'do?' x ':=' e 'in' k" := (sbind e (λ x, k))
  (at level 10, x binder, e at level 200, k at level 200,
   format "'[v' 'do?'  x  ':='  e  'in' '/' k ']'") : result_scope.
Notation "e ';!' k" := (sbind e (λ _, k))
  (at level 100, k at level 200, right associativity) : result_scope.

(** A [for] loop whose body may fail. *)
Fixpoint sfor {S E A} (f : A → st S E unit) (l : list A) : st S E unit :=
  match l with
  | [] => sret tt
  | x :: l' => f x ;! sfor f l'
  end.

(** A [loop] with fuel: the body continues with a new loop state or returns.
    [None] means the fuel ran out. *)
Fixpoint rloop {E A X} (fuel : nat) (body : X → result E (X + A)) (x : X)
    : result E (option A) :=
  match fuel with
  | O => Ok None
  | S f => let? r := body x in
           match r with
           | inl x' => rloop f body x'
           | inr a => Ok (Some a)
           end
  end.

Fixpoint sloop {S E A X} (fuel : nat) (body : X → st S E (X + A)) (x : X)
    : st S E (option A) :=
  match fuel with
  | O => sret None
  | S f => do? r := body x in
           match r with
           | inl x' => sloop f body x'
           | inr a => sret (Some a)
           end
  end.

(** A [for] loop over bodies that contain loops of their own. *)
Fixpoint sfor_fuel {S E A} (f : A → st S E (option unit)) (l : list A)
    : st S E (option unit) :=
  match l with
  | [] => sret (Some tt)
  | x :: l' => do? r := f x in
               match r with
               | Some _ => sfor_fuel f l'
               | None => sret None
               end
  end.

Lemma sbind_Ok {S E A B} (m : st S E A) (f : A → st S E B) s b s' :
  sbind m f s = (Ok b, s') ↔ ∃ a s1, m s = (Ok a, s1) ∧ f a s1 = (Ok b, s').
Proof. unfold sbind. destruct (m s) as [[]]; naive_solver. Qed.

Lemma sbind_run {S E A B} (m : st S E A) (f : A → st S E B) s a s1 :
  m s = (Ok a, s1) → sbind m f s = f a s1.
Proof. unfold sbind. by intros ->. Qed.

Lemma st_run {S E A} (m : st S E A) s r : (m s).1 = r → m s = (r, (m s).2).
Proof. by destruct (m s); simpl; intros ->. Qed.

Lemma sbind_fail {S E A B} (m : st S E A) (f : A → st S E B) s e s1 :
  m s = (Err e, s1) → sbind m f s = (Err e, s1).
Proof. unfold sbind. by intros ->. Qed.

(** A relation between the states before and after that is a preorder and holds of
    every step holds of the sequence, whether or not it fails. *)
Lemma sbind_rel {S E A B} (R : S → S → Prop) `{!Transitive R}
    (m : st S E A) (f : A → st S E B) s :
  R s (m s).2 → (∀ a, R (m s).2 (f a (m s).2).2) → R s (sbind m f s).2.
Proof.
  unfold sbind. destruct (m s) as [[a|e] s1]; simpl; [|done].
  intros H1 H2. by trans s1.
Qed.

Lemma sfor_rel {S E A} (R : S → S → Prop) `{!PreOrder R} (f : A → st S E unit) l s :
  (∀ x t, x ∈ l → R t (f x t).2) → R s (sfor f l s).2.
Proof.
  revert s; induction l as [|x l IH]; intros s Hf; simpl; [reflexivity|].
  apply sbind_rel; [apply _|apply Hf; by left|]. intros _. apply IH.
  intros y t Hy. apply Hf. by right.
Qed.

Lemma sfor_fmap {S E A B} (g : A → B) (f : B → st S E unit) l s :
  sfor f (g <$> l) s = sfor (λ x, f (g x)) l s.
Proof.
  revert s; induction l as [|x l IH]; intros s; [done|]. csimpl. unfold sbind.
  destruct (f (g x) s) as [[u|e] s']; [apply IH|done].
Qed.

Lemma sfor_ext {S E A} (f g : A → st S E unit) l s :
  (∀ x t, f x t = g x t) → sfor f l s = sfor g l s.
Proof.
  intros H. revert s; induction l as [|x l IH]; intros s; [done|]. simpl. unfold sbind.
  rewrite H. destruct (g x s) as [[u|e] s']; [apply IH|done].
Qed.

Lemma sfor_app {S E A} (f : A → st S E unit) l1 l2 s :
  sfor f (l1 ++ l2) s = sbind (sfor f l1) (λ _, sfor f l2) s.
Proof.
  revert s; induction l1 as [|x l1 IH]; intros s; [done|]. simpl. unfold sbind.
  destruct (f x s) as [[u|e] s']; [|done]. rewrite IH. unfold sbind.
  by destruct (sfor f l1 s') as [[]].
Qed.

(** A property that every successful step keeps holds after a successful loop, and one
    that step [x] establishes and the others keep holds of every element. *)
Lemma sfor_each {S E A} (I : S → Prop) (P : A → S → Prop) (f : A → st S E unit) l s s' :
  (∀ x t t', x ∈ l → I t → f x t = (Ok tt, t') → I t' ∧ P x t' ∧ ∀ y, y ∈ l → P y t → P y t') →
  I s → sfor f l s = (Ok tt, s') → I s' ∧ ∀ x, x ∈ l → P x s'.
Proof.
  intros Hf Hs Hr.
  assert (∀ l0 l1 t, l = l0 ++ l1 → I t → (∀ x, x ∈ l0 → P x t) →
    sfor f l1 t = (Ok tt, s') → I s' ∧ ∀ x, x ∈ l → P x s') as Hgen.
  { intros l0 l1. revert l0; induction l1 as [|x l1 IH]; intros l0 t -> Ht Hl0 Hr1; simpl in Hr1.
    - injection Hr1 as <-. by rewrite app_nil_r in *.
    - apply sbind_Ok in Hr1 as ([] & t1 & H1 & H2).
      destruct (Hf x t t1) as (Ht1 & Hx & Hkeep); [set_solver|done|done|].
      apply (IH (l0 ++ [x]) t1); [by rewrite <- app_assoc|done| |done].
      intros y [Hy|Hy%list_elem_of_singleton]%elem_of_app; [|by subst].
      apply Hkeep; [set_solver|by apply Hl0]. }
  apply (Hgen [] l s); [done|done|set_solver|done].
Qed.

(** A loop whose every step is a no-op is one. *)
Lemma sfor_noop {S E A} (f : A → st S E unit) l s :
  (∀ x, x ∈ l → f x s = (Ok tt, s)) → sfor f l s = (Ok tt, s).
Proof.
  induction l as [|x l IH]; intros H; [done|]. simpl. unfold sbind.
  rewrite (H x) by (by left). apply IH. intros y Hy. apply H. by right.
Qed.

(** ** Machine integers

    Unsigned integers are [N]; every bound and every wrap, saturation or check
    the code relies on is written out. *)

Definition U32_MAX : N := 4294967295.
Definition U64_MAX : N := 18446744073709551615.

Definition checked_add (max x y : N) : option N :=
  if (x + y <=? max)%N then Some (x + y)%N else None.
Definition checked_mul (max x y : N) : option N :=
  if (x * y <=? max)%N then Some (x * y)%N else None.
Definition saturating_add (max x y : N) : N := N.min max (x + y).
(** [u64::saturating_sub] is truncated subtraction. *)
Definition saturating_sub (x y : N) : N := (x - y)%N.

Lemma checked_add_Some max x y z :
  checked_add max x y = Some z ↔ z = (x + y)%N ∧ (x + y ≤ max)%N.
Proof.
  unfold checked_add. destruct (N.leb_spec (x + y) max); naive_solver lia.
Qed.

Lemma checked_add_None max x y : checked_add max x y = None ↔ (max < x + y)%N.
Proof.
  unfold checked_add. destruct (N.leb_spec (x + y) max); naive_solver lia.
Qed.

(** ** Lists *)

Lemma Forall2_fmap_eq {A B} (f : A → B) (l : list A) (k : list B) :
  Forall2 (λ x y, f x = y) l k ↔ k = f <$> l.
Proof.
  split.
  - induction 1; csimpl; congruence.
  - intros ->. induction l; csimpl; by constructor.
Qed.

Lemma filter_all {A} (P : A → Prop) `{∀ x, Decision (P x)} (l : list A) :
  Forall P l → filter P l = l.
Proof.
  induction 1; [done|]. rewrite filter_cons_True by done. by f_equal.
Qed.

Lemma filter_none {A} (P : A → Prop) `{∀ x, Decision (P x)} (l : list A) :
  Forall (λ x, ¬ P x) l → filter P l = [].
Proof.
  induction 1; [done|]. by rewrite filter_cons_False by done.
Qed.

(** [take] with a binary counter: page limits go up to [usize::MAX]. *)
Fixpoint takeN {A} (n : N) (l : list A) : list A :=
  match l with
  | [] => []
  | x :: l' => if (n =? 0)%N then [] else x :: takeN (N.pred n) l'
  end.

Lemma takeN_take {A} n (l : list A) : takeN n l = take (N.to_nat n) l.
Proof.
  revert n; induction l as [|x l IH]; intros n; simpl; [by rewrite take_nil|].
  destruct (N.eqb_spec n 0) as [->|Hn]; [done|]. rewrite IH.
  destruct (N.to_nat n) eqn:E; [lia|]. simpl. do 2 f_equal. lia.
Qed.

Lemma takeN_all {A} n (l : list A) : (N.of_nat (length l) ≤ n)%N → takeN n l = l.
Proof. intros. rewrite takeN_take, take_ge by lia. done. Qed.

(** In a list sorted by a strict order, what lies after an element is what is
    greater than it. *)
Lemma filter_after_sorted {A} (R : A → A → Prop) `{!RelDecision R} l1 x l2 :
  (∀ y, ¬ R y y) → (∀ y z, R y z → R z y → False) →
  StronglySorted R (l1 ++ x :: l2) → filter (R x) (l1 ++ x :: l2) = l2.
Proof.
  intros Hirr Has Hs. rewrite filter_app, filter_cons_False by done.
  apply StronglySorted_app in Hs as (H12 & H1 & H2).
  inversion H2 as [|?? Hs2 Hf]; subst.
  rewrite (filter_none _ l1), (filter_all _ l2); [done|done|].
  apply Forall_forall. intros y Hy Hxy. eapply Has; [exact Hxy|].
  apply H12; [done|by left].
Qed.

Lemma Forall2_elem_of_l {A B} (P : A → B → Prop) l k x :
  Forall2 P l k → x ∈ l → ∃ y, y ∈ k ∧ P x y.
Proof.
  intros Hf [i Hi]%list_elem_of_lookup. destruct (Forall2_lookup_l _ _ _ _ _ Hf Hi) as (y & Hy & HP).
  exists y. split; [by eapply list_elem_of_lookup_2|done].
Qed.

Lemma Forall2_elem_of_r {A B} (P : A → B → Prop) l k y :
  Forall2 P l k → y ∈ k → ∃ x, x ∈ l ∧ P x y.
Proof.
  intros Hf [i Hi]%list_elem_of_lookup. destruct (Forall2_lookup_r _ _ _ _ _ Hf Hi) as (x & Hx & HP).
  exists x. split; [by eapply list_elem_of_lookup_2|done].
Qed.

Create HintDb skippr.
