(* ===== verification/Bytes.v ===== *)
(** * Bytes: byte strings, their order, little-endian integers and UTF-8

    [Vec<u8>], [&[u8]], [String] and [&str] are lists of bytes; a Rust string is
    one that satisfies [utf8_valid].  The order is the one [Vec<u8>] and [String]
    have (lexicographic), which is what fixes the iteration order of the ordered
    stores. *)

From Stdlib Require Export Strings.Byte.
From Stdlib Require Strings.String.
Export Strings.String.StringSyntax.
From S2P Require Import Prelude.

Notation bytes := (list byte).

#[global] Instance byte_eq_dec : EqDecision byte := Byte.byte_eq_dec.
#[global] Instance byte_countable : Countable byte :=
  inj_countable Byte.to_N Byte.of_N Byte.of_to_N.

(** Literals: [str "wal#seg#"] is the UTF-8 text of the Rust literal. *)
Definition str (s : String.string) : bytes := String.list_byte_of_string s.
Arguments str s%_string_scope.

Lemma byte_to_N_inj (x y : byte) : Byte.to_N x = Byte.to_N y → x = y.
Proof.
  intros H. apply (f_equal Byte.of_N) in H. rewrite !Byte.of_to_N in H. by simplify_eq.
Qed.

Lemma byte_to_N_lt (x : byte) : (Byte.to_N x < 256)%N.
Proof. pose proof (Byte.to_N_bounded x). lia. Qed.

(** [x as u8] for an integer [x]. *)
Definition byte_of_N (x : N) : byte := default x00 (Byte.of_N (x mod 256)).

Lemma byte_of_N_to_N x : Byte.to_N (byte_of_N x) = (x mod 256)%N.
Proof.
  unfold byte_of_N. destruct (Byte.of_N (x mod 256)) as [y|] eqn:E; simpl.
  - by apply Byte.to_of_N.
  - apply Byte.of_N_None_iff in E. pose proof (N.mod_upper_bound x 256). lia.
Qed.

Lemma byte_of_to_N b : byte_of_N (Byte.to_N b) = b.
Proof.
  apply byte_to_N_inj. rewrite byte_of_N_to_N.
  apply N.mod_small, byte_to_N_lt.
Qed.

(** ** Lexicographic order *)

Fixpoint bytes_leb (x y : bytes) : bool :=
  match x, y with
  | [], _ => true
  | _ :: _, [] => false
  | a :: x', c :: y' =>
      if (Byte.to_N a <? Byte.to_N c)%N then true
      else if (Byte.to_N c <? Byte.to_N a)%N then false
      else bytes_leb x' y'
  end.

Definition bytes_le (x y : bytes) : Prop := bytes_leb x y = true.
Definition bytes_lt (x y : bytes) : Prop := bytes_leb y x = false.

#[global] Instance bytes_le_dec : RelDecision bytes_le.
Proof. intros x y. unfold bytes_le. apply _. Defined.
#[global] Instance bytes_lt_dec : RelDecision bytes_lt.
Proof. intros x y. unfold bytes_lt. apply _. Defined.

#[global] Instance bytes_le_refl : Reflexive bytes_le.
Proof.
  intros x. unfold bytes_le. induction x as [|a x IH]; [done|]. simpl.
  by rewrite N.ltb_irrefl.
Qed.

#[global] Instance bytes_le_trans : Transitive bytes_le.
Proof.
  intros x y z. unfold bytes_le.
  revert y z; induction x as [|a x IH]; intros [|c y] [|d z]; simpl; try done.
  repeat match goal with
  | |- context [(?p <? ?q)%N] => destruct (N.ltb_spec p q)
  end; try done; try lia. apply IH.
Qed.

#[global] Instance bytes_le_antisymm : AntiSymm (=) bytes_le.
Proof.
  intros x y. unfold bytes_le.
  revert y; induction x as [|a x IH]; intros [|c y]; simpl; try done.
  destruct (N.ltb_spec (Byte.to_N a) (Byte.to_N c)),
    (N.ltb_spec (Byte.to_N c) (Byte.to_N a)); try done; try lia.
  intros H1 H2. f_equal; [apply byte_to_N_inj; lia|auto].
Qed.

#[global] Instance bytes_le_total : Total bytes_le.
Proof.
  intros x y. unfold bytes_le.
  revert y; induction x as [|a x IH]; intros [|c y]; simpl; auto.
  destruct (N.ltb_spec (Byte.to_N a) (Byte.to_N c)),
    (N.ltb_spec (Byte.to_N c) (Byte.to_N a)); auto; lia.
Qed.

Lemma bytes_lt_iff x y : bytes_lt x y ↔ bytes_le x y ∧ x ≠ y.
Proof.
  unfold bytes_lt. split.
  - intros H. destruct (total bytes_le x y) as [?|Hyx]; [|unfold bytes_le in *; congruence].
    split; [done|]. intros ->. pose proof (bytes_le_refl y). unfold bytes_le in *. congruence.
  - intros [Hle Hne]. destruct (bytes_leb y x) eqn:E; [|done].
    exfalso. apply Hne. by apply (anti_symm bytes_le).
Qed.

Lemma bytes_lt_irrefl x : ¬ bytes_lt x x.
Proof. rewrite bytes_lt_iff. naive_solver. Qed.

Lemma bytes_le_lt_trans x y z : bytes_le x y → bytes_lt y z → bytes_lt x z.
Proof.
  rewrite !bytes_lt_iff. intros Hxy [Hyz Hne]. split; [by trans y|].
  intros ->. apply Hne. by apply (anti_symm bytes_le).
Qed.

Lemma bytes_lt_le_trans x y z : bytes_lt x y → bytes_le y z → bytes_lt x z.
Proof.
  rewrite !bytes_lt_iff. intros [Hxy Hne] Hyz. split; [by trans y|].
  intros ->. apply Hne. by apply (anti_symm bytes_le).
Qed.

Lemma bytes_not_lt x y : ¬ bytes_lt x y ↔ bytes_le y x.
Proof. unfold bytes_lt, bytes_le. destruct (bytes_leb y x); naive_solver. Qed.

Lemma bytes_le_app_prefix p x y : bytes_leb (p ++ x) (p ++ y) = bytes_leb x y.
Proof. induction p as [|a p IH]; [done|]. simpl. by rewrite N.ltb_irrefl. Qed.

(** ** Prefixes *)

(** [slice::starts_with] and [str::strip_prefix]. *)
Fixpoint strip_prefix (p s : bytes) : option bytes :=
  match p, s with
  | [], _ => Some s
  | _ :: _, [] => None
  | a :: p', c :: s' => if decide (a = c) then strip_prefix p' s' else None
  end.

Definition starts_with (s p : bytes) : bool :=
  match strip_prefix p s with Some _ => true | None => false end.

Lemma strip_prefix_Some p s r : strip_prefix p s = Some r ↔ s = p ++ r.
Proof.
  revert s; induction p as [|a p IH]; intros s; simpl; [naive_solver|].
  destruct s as [|c s]; [naive_solver|]. case_decide as Hac; subst.
  - rewrite IH. naive_solver.
  - naive_solver.
Qed.

Lemma strip_prefix_app p r : strip_prefix p (p ++ r) = Some r.
Proof. by apply strip_prefix_Some. Qed.

Lemma starts_with_spec s p : starts_with s p = true ↔ p `prefix_of` s.
Proof.
  unfold starts_with. destruct (strip_prefix p s) as [r|] eqn:E.
  - apply strip_prefix_Some in E as ->. split; [intros _; by exists r|done].
  - split; [done|]. intros [r ->]. by rewrite strip_prefix_app in E.
Qed.

Lemma starts_with_app p r : starts_with (p ++ r) p = true.
Proof. apply starts_with_spec. by exists r. Qed.

Lemma bytes_le_prefix p s : p `prefix_of` s → bytes_le p s.
Proof.
  intros [r ->]. unfold bytes_le.
  rewrite <- (app_nil_r p) at 1. by rewrite bytes_le_app_prefix.
Qed.

(** Keys with a common prefix are contiguous in the order. *)
Lemma prefix_interval p x y z :
  p `prefix_of` x → p `prefix_of` z → bytes_le x y → bytes_le y z → p `prefix_of` y.
Proof.
  intros [x' ->] [z' ->]. unfold bytes_le. revert y.
  induction p as [|a p IH]; intros y; [intros; apply prefix_nil|].
  destruct y as [|c y]; simpl; [done|].
  destruct (N.ltb_spec (Byte.to_N a) (Byte.to_N c)),
    (N.ltb_spec (Byte.to_N c) (Byte.to_N a)); try done; try lia.
  intros H1 H2. assert (a = c) as -> by (apply byte_to_N_inj; lia).
  by apply prefix_cons, IH.
Qed.

(** ** Little-endian integers *)

(** [x.to_le_bytes()] of an [n]-byte integer, and [from_le_bytes]. *)
Fixpoint to_le_bytes (n : nat) (x : N) : bytes :=
  match n with
  | O => []
  | S n' => byte_of_N x :: to_le_bytes n' (x / 256)
  end.

Fixpoint from_le_bytes (s : bytes) : N :=
  match s with
  | [] => 0%N
  | c :: s' => (Byte.to_N c + 256 * from_le_bytes s')%N
  end.

Lemma length_to_le_bytes n x : length (to_le_bytes n x) = n.
Proof. revert x; induction n; intros; simpl; auto. Qed.

Lemma from_to_le_bytes n x :
  (x < 256 ^ N.of_nat n)%N → from_le_bytes (to_le_bytes n x) = x.
Proof.
  revert x; induction n as [|n IH]; intros x Hx; simpl.
  - change (256 ^ N.of_nat 0)%N with 1%N in Hx. lia.
  - rewrite Nat2N.inj_succ, N.pow_succ_r' in Hx.
    rewrite IH by (apply N.Div0.div_lt_upper_bound; lia).
    rewrite byte_of_N_to_N. pose proof (N.div_mod x 256). lia.
Qed.

Lemma to_from_le_bytes s : to_le_bytes (length s) (from_le_bytes s) = s.
Proof.
  induction s as [|c s IH]; [done|]. simpl.
  pose proof (byte_to_N_lt c). f_equal.
  - apply byte_to_N_inj. rewrite byte_of_N_to_N, N.mul_comm.
    rewrite N.Div0.mod_add. by apply N.mod_small.
  - rewrite N.mul_comm, N.div_add by done.
    by rewrite N.div_small.
Qed.

Lemma from_le_bytes_bound s : (from_le_bytes s < 256 ^ N.of_nat (length s))%N.
Proof.
  induction s as [|c s IH]; simpl length; [simpl; lia|].
  rewrite Nat2N.inj_succ, N.pow_succ_r'. simpl.
  pose proof (byte_to_N_lt c). lia.
Qed.

Definition u32_le : N → bytes := to_le_bytes 4.
Definition u64_le : N → bytes := to_le_bytes 8.

Lemma from_u32_le x : (x ≤ U32_MAX)%N → from_le_bytes (u32_le x) = x.
Proof. intros. apply from_to_le_bytes. unfold U32_MAX in *. simpl. lia. Qed.

Lemma from_u64_le x : (x ≤ U64_MAX)%N → from_le_bytes (u64_le x) = x.
Proof. intros. apply from_to_le_bytes. unfold U64_MAX in *. simpl. lia. Qed.

Lemma length_u32_le x : length (u32_le x) = 4.
Proof. apply length_to_le_bytes. Qed.
Lemma length_u64_le x : length (u64_le x) = 8.
Proof. apply length_to_le_bytes. Qed.

#[global] Arguments str : simpl never.
#[global] Arguments strip_prefix : simpl never.
#[global] Arguments u32_le : simpl never.
#[global] Arguments u64_le : simpl never.

#[export] Hint Rewrite length_u32_le length_u64_le length_to_le_bytes @length_app
  @length_cons @length_nil : skippr.
