(* ===== verification/Text.v ===== *)
(** * Text: UTF-8, splitting and decimal numbers

    The parts of [std::str] the program calls: [from_utf8], [contains],
    [split_once], [rsplit_once], [split], the [Display] of unsigned integers and
    their [FromStr]. *)

From S2P Require Import Prelude Bytes.

(** ** UTF-8

    The table of well-formed sequences that [str::from_utf8] accepts. *)

Definition in_range (lo hi : N) (c : byte) : bool :=
  ((lo <=? Byte.to_N c) && (Byte.to_N c <=? hi))%N.
Definition is_cont : byte → bool := in_range 128 191.
#[global] Arguments in_range : simpl never.
#[global] Arguments is_cont : simpl never.

Lemma in_range_true lo hi c :
  in_range lo hi c = true ↔ (lo ≤ Byte.to_N c ∧ Byte.to_N c ≤ hi)%N.
Proof. unfold in_range. rewrite andb_true_iff, !N.leb_le. done. Qed.

Lemma in_range_weaken lo hi lo' hi' c :
  (lo' ≤ lo)%N → (hi ≤ hi')%N → in_range lo hi c = true → in_range lo' hi' c = true.
Proof. rewrite !in_range_true. lia. Qed.

Lemma in_range_disjoint lo hi lo' hi' c :
  (hi < lo' ∨ hi' < lo)%N → in_range lo hi c = true → in_range lo' hi' c = false.
Proof.
  intros Hd H%in_range_true. apply not_true_iff_false. rewrite in_range_true. lia.
Qed.

Fixpoint utf8_valid (s : bytes) : bool :=
  match s with
  | [] => true
  | a :: s1 =>
    if in_range 0 127 a then utf8_valid s1 else
    match s1 with
    | [] => false
    | c :: s2 =>
      if in_range 194 223 a then is_cont c && utf8_valid s2 else
      match s2 with
      | [] => false
      | d :: s3 =>
        if in_range 224 239 a then
          (if in_range 224 224 a then in_range 160 191 c
           else if in_range 237 237 a then in_range 128 159 c
           else is_cont c) && is_cont d && utf8_valid s3
        else
        match s3 with
        | [] => false
        | e :: s4 =>
          if in_range 240 244 a then
            (if in_range 240 240 a then in_range 144 191 c
             else if in_range 244 244 a then in_range 128 143 c
             else is_cont c) && is_cont d && is_cont e && utf8_valid s4
          else false
        end
      end
    end
  end.

(** [std::str::from_utf8]; the text of [Utf8Error] is not modelled beyond its tag. *)
Definition from_utf8 (s : bytes) : result bytes bytes :=
  if utf8_valid s then Ok s else Err (str "invalid utf-8 sequence").

(** The four shapes a valid non-empty string starts with. *)
Lemma utf8_valid_cases a s :
  utf8_valid (a :: s) = true →
  (in_range 0 127 a = true ∧ utf8_valid s = true) ∨
  (∃ c r, s = c :: r ∧ is_cont c = true ∧ utf8_valid r = true ∧
     ∀ t, utf8_valid (a :: c :: t) = utf8_valid t) ∨
  (∃ c d r, s = c :: d :: r ∧ is_cont c = true ∧ is_cont d = true ∧ utf8_valid r = true ∧
     ∀ t, utf8_valid (a :: c :: d :: t) = utf8_valid t) ∨
  (∃ c d e r, s = c :: d :: e :: r ∧ is_cont c = true ∧ is_cont d = true ∧
     is_cont e = true ∧ utf8_valid r = true ∧
     ∀ t, utf8_valid (a :: c :: d :: e :: t) = utf8_valid t).
Proof.
  intros Hs. simpl in Hs. destruct (in_range 0 127 a) eqn:E1; [by left|]. right.
  destruct s as [|c s2]; [done|]. destruct (in_range 194 223 a) eqn:E2.
  { apply andb_true_iff in Hs as [Hc Hv]. left. exists c, s2. repeat split; try done.
    intros t. simpl. by rewrite E1, E2, Hc. }
  right. destruct s2 as [|d s3]; [done|]. destruct (in_range 224 239 a) eqn:E3.
  { apply andb_true_iff in Hs as [[Hc Hd]%andb_true_iff Hv]. left. exists c, d, s3.
    assert (is_cont c = true).
    { repeat case_match; try done; (eapply in_range_weaken; [| |done]; lia). }
    repeat split; try done. intros t. simpl. by rewrite E1, E2, E3, Hc, Hd. }
  right. destruct s3 as [|e s4]; [done|]. destruct (in_range 240 244 a) eqn:E4; [|done].
  apply andb_true_iff in Hs as [[[Hc Hd]%andb_true_iff He]%andb_true_iff Hv].
  exists c, d, e, s4. assert (is_cont c = true).
  { repeat case_match; try done; (eapply in_range_weaken; [| |done]; lia). }
  repeat split; try done. intros t. simpl. by rewrite E1, E2, E3, E4, Hc, Hd, He.
Qed.

Lemma utf8_valid_ascii a s : in_range 0 127 a = true → utf8_valid (a :: s) = utf8_valid s.
Proof. simpl. by intros ->. Qed.

(** Concatenation of a valid string does not change validity of the rest. *)
Lemma utf8_valid_app s t : utf8_valid s = true → utf8_valid (s ++ t) = utf8_valid t.
Proof.
  remember (length s) as n eqn:Hn. revert s Hn.
  induction (lt_wf n) as [n _ IH]; intros [|a s] -> Hs; [done|].
  destruct (utf8_valid_cases a s Hs) as
    [[Ha Hr]|[(c&r&->&Hc&Hr&E)|[(c&d&r&->&Hc&Hd&Hr&E)|(c&d&e&r&->&Hc&Hd&He&Hr&E)]]];
    cbn [app]; rewrite ?E, ?utf8_valid_ascii by done;
    (eapply IH; [|reflexivity|done]); simpl; lia.
Qed.

Lemma utf8_valid_app_ascii l a r :
  in_range 0 127 a = true →
  utf8_valid (l ++ a :: r) = true → utf8_valid l = true ∧ utf8_valid r = true.
Proof.
  intros Ha. assert (is_cont a = false) as Hna.
  { eapply in_range_disjoint; [|done]. lia. }
  remember (length l) as n eqn:Hn. revert l Hn.
  induction (lt_wf n) as [n _ IH]; intros [|x l] -> Hs.
  { split; [done|]. cbn [app] in Hs. by rewrite utf8_valid_ascii in Hs. }
  destruct (utf8_valid_cases x (l ++ a :: r) Hs) as
    [[Hx Hr]|[(c&r'&Heq&Hc&Hr&E)|[(c&d&r'&Heq&Hc&Hd&Hr&E)|(c&d&e&r'&Heq&Hc&Hd&He&Hr&E)]]].
  - rewrite utf8_valid_ascii by done. eapply IH; [|reflexivity|done]. simpl; lia.
  - destruct l as [|? l]; simplify_eq/=; [congruence|]. rewrite (E l).
    eapply IH; [|reflexivity|done]. simpl; lia.
  - destruct l as [|? [|? l]]; simplify_eq/=; try congruence. rewrite (E l).
    eapply IH; [|reflexivity|done]. simpl; lia.
  - destruct l as [|? [|? [|? l]]]; simplify_eq/=; try congruence. rewrite (E l).
    eapply IH; [|reflexivity|done]. simpl; lia.
Qed.

(** ** Splitting on a character *)

Definition contains (s : bytes) (c : byte) : bool := existsb (Byte.eqb c) s.

Fixpoint split_once (c : byte) (s : bytes) : option (bytes * bytes) :=
  match s with
  | [] => None
  | a :: s' =>
      if Byte.eqb a c then Some ([], s')
      else match split_once c s' with
           | Some (l, r) => Some (a :: l, r)
           | None => None
           end
  end.

Fixpoint rsplit_once (c : byte) (s : bytes) : option (bytes * bytes) :=
  match s with
  | [] => None
  | a :: s' =>
      match rsplit_once c s' with
      | Some (l, r) => Some (a :: l, r)
      | None => if Byte.eqb a c then Some ([], s') else None
      end
  end.

(** [str::split(c)]: always at least one piece. *)
Fixpoint split (c : byte) (s : bytes) : list bytes :=
  match s with
  | [] => [[]]
  | a :: s' =>
      if Byte.eqb a c then [] :: split c s'
      else match split c s' with
           | p :: ps => (a :: p) :: ps
           | [] => [[a]]
           end
  end.

Lemma byte_eqb_spec (x y : byte) : Byte.eqb x y = bool_decide (x = y).
Proof.
  destruct (Byte.eqb x y) eqn:E; symmetry.
  - apply bool_decide_eq_true. by apply Byte.byte_dec_bl.
  - apply bool_decide_eq_false. intros ->. by rewrite Byte.byte_dec_lb in E.
Qed.

Lemma contains_false s c : contains s c = false ↔ c ∉ s.
Proof.
  unfold contains. induction s as [|a s IH]; simpl.
  - split; [intros _; apply not_elem_of_nil|done].
  - rewrite orb_false_iff, IH, not_elem_of_cons, byte_eqb_spec, bool_decide_eq_false.
    naive_solver.
Qed.

Lemma split_once_app c l r : c ∉ l → split_once c (l ++ c :: r) = Some (l, r).
Proof.
  induction l as [|a l IH]; intros Hc; simpl; rewrite byte_eqb_spec.
  - by rewrite bool_decide_eq_true_2.
  - apply not_elem_of_cons in Hc as [??].
    rewrite bool_decide_eq_false_2 by congruence. by rewrite IH.
Qed.

Lemma split_once_Some c s l r : split_once c s = Some (l, r) → s = l ++ c :: r ∧ c ∉ l.
Proof.
  revert l; induction s as [|a s IH]; intros l; simpl; [done|].
  rewrite byte_eqb_spec. case_bool_decide as Hac; intros H; simplify_eq.
  - split; [done|apply not_elem_of_nil].
  - destruct (split_once c s) as [[l' r']|]; simplify_eq.
    destruct (IH l' eq_refl) as [-> ?]. split; [done|]. apply not_elem_of_cons. naive_solver.
Qed.

Lemma rsplit_once_None c s : c ∉ s → rsplit_once c s = None.
Proof.
  induction s as [|a s IH]; intros Hc; simpl; [done|].
  apply not_elem_of_cons in Hc as [??]. rewrite IH by done.
  by rewrite byte_eqb_spec, bool_decide_eq_false_2 by congruence.
Qed.

Lemma rsplit_once_app c l r : c ∉ r → rsplit_once c (l ++ c :: r) = Some (l, r).
Proof.
  intros Hc. induction l as [|a l IH]; simpl.
  - rewrite rsplit_once_None by done. by rewrite byte_eqb_spec, bool_decide_eq_true_2.
  - by rewrite IH.
Qed.

Lemma rsplit_once_Some c s l r : rsplit_once c s = Some (l, r) → s = l ++ c :: r.
Proof.
  revert l; induction s as [|a s IH]; intros l; simpl; [done|].
  destruct (rsplit_once c s) as [[l' r']|] eqn:E; intros H; simplify_eq.
  - by rewrite (IH l' eq_refl).
  - rewrite byte_eqb_spec in H. case_bool_decide; by simplify_eq.
Qed.

Lemma split_single c s : c ∉ s → split c s = [s].
Proof.
  induction s as [|a s IH]; intros Hc; simpl; [done|].
  apply not_elem_of_cons in Hc as [??].
  rewrite byte_eqb_spec, bool_decide_eq_false_2 by congruence. by rewrite IH.
Qed.

Lemma split_app c l r : c ∉ l → split c (l ++ c :: r) = l :: split c r.
Proof.
  induction l as [|a l IH]; intros Hc; simpl; rewrite byte_eqb_spec.
  - by rewrite bool_decide_eq_true_2.
  - apply not_elem_of_cons in Hc as [??].
    rewrite bool_decide_eq_false_2 by congruence. by rewrite IH.
Qed.

(** ** Decimal numbers *)

Definition digit (d : N) : byte := byte_of_N (48 + d).

Fixpoint display_digits (fuel : nat) (n : N) (acc : bytes) : bytes :=
  match fuel with
  | O => acc
  | S f =>
      let acc' := digit (n mod 10) :: acc in
      if (n / 10 =? 0)%N then acc' else display_digits f (n / 10) acc'
  end.

(** [Display] of an unsigned integer. *)
Definition display_N (n : N) : bytes := display_digits (S (N.size_nat n)) n [].

Definition digit_val (c : byte) : option N :=
  if in_range 48 57 c then Some (Byte.to_N c - 48)%N else None.

Fixpoint parse_digits (max acc : N) (s : bytes) : option N :=
  match s with
  | [] => Some acc
  | c :: s' =>
      match digit_val c with
      | None => None
      | Some d =>
          match checked_mul max acc 10 with
          | None => None
          | Some m => match checked_add max m d with
                      | None => None
                      | Some a => parse_digits max a s'
                      end
          end
      end
  end.

(** [FromStr] of an unsigned integer: an optional plus sign, at least one digit,
    every step checked for overflow. *)
Definition parse_N (max : N) (s : bytes) : option N :=
  match s with
  | [] => None
  | c :: s' =>
      if Byte.eqb c x2b
      then match s' with [] => None | _ => parse_digits max 0 s' end
      else parse_digits max 0 s
  end.

Lemma digit_to_N d : (d < 10)%N → Byte.to_N (digit d) = (48 + d)%N.
Proof.
  intros. unfold digit. rewrite byte_of_N_to_N. apply N.mod_small. lia.
Qed.

Lemma digit_val_digit d : (d < 10)%N → digit_val (digit d) = Some d.
Proof.
  intros Hd. unfold digit_val, in_range. rewrite digit_to_N by done.
  destruct (N.leb_spec 48 (48 + d)), (N.leb_spec (48 + d) 57); simpl; try lia.
  f_equal. lia.
Qed.

Lemma N_size_nat_bound n : (n < 2 ^ N.of_nat (N.size_nat n))%N.
Proof.
  destruct n as [|p]; simpl; [lia|].
  induction p as [p IH|p IH|]; simpl Pos.size_nat;
    rewrite Nat2N.inj_succ, N.pow_succ_r'; lia.
Qed.

Lemma parse_digits_step max m d s :
  (d < 10)%N → (m * 10 + d ≤ max)%N →
  parse_digits max m (digit d :: s) = parse_digits max (m * 10 + d) s.
Proof.
  intros Hd Hm. simpl. rewrite digit_val_digit by done.
  unfold checked_mul, checked_add.
  rewrite (proj2 (N.leb_le (m * 10) max)) by lia.
  by rewrite (proj2 (N.leb_le (m * 10 + d) max)) by lia.
Qed.

(** Printing prepends digits, and reading them back from any accumulator that
    does not overflow yields the number. *)
Lemma parse_display_digits max fuel n acc :
  (n < 2 ^ N.of_nat fuel)%N →
  ∃ k, ∀ a', (a' * 10 ^ k + n ≤ max)%N →
    parse_digits max a' (display_digits fuel n acc) =
    parse_digits max (a' * 10 ^ k + n) acc.
Proof.
  revert n acc; induction fuel as [|f IH]; intros n acc Hn.
  - change (2 ^ N.of_nat 0)%N with 1%N in Hn. exists 0%N.
    intros a' _. simpl. f_equal. lia.
  - rewrite Nat2N.inj_succ, N.pow_succ_r' in Hn. simpl.
    pose proof (N.div_mod n 10 ltac:(done)) as Hdm.
    pose proof (N.mod_upper_bound n 10 ltac:(done)) as Hmb.
    set (q := (n / 10)%N) in *. set (d := (n mod 10)%N) in *. clearbody q d.
    destruct (N.eqb_spec q 0) as [Hz|Hz].
    + exists 1%N. intros a' Ha. change (10 ^ 1)%N with 10%N in *.
      rewrite parse_digits_step by lia. f_equal. lia.
    + destruct (IH q (digit d :: acc) ltac:(lia)) as (k & Hk).
      exists (N.succ k). intros a' Ha.
      rewrite N.pow_succ_r' in *.
      replace (a' * (10 * 10 ^ k))%N with (10 * (a' * 10 ^ k))%N in * by ring.
      set (t := (a' * 10 ^ k)%N) in *.
      rewrite Hk by (fold t; lia). fold t. rewrite parse_digits_step by lia. f_equal. lia.
Qed.

Lemma display_digits_elem fuel n acc c :
  c ∈ display_digits fuel n acc → c ∈ acc ∨ ∃ d, (d < 10)%N ∧ c = digit d.
Proof.
  revert n acc; induction fuel as [|f IH]; intros n acc; simpl; [by left|].
  pose proof (N.mod_upper_bound n 10 ltac:(done)).
  case_match; [|intros Hc; apply IH in Hc as [Hc|?]; [|by right]; revert Hc];
    (intros [->|?]%elem_of_cons; [right; by exists (n mod 10)%N|by left]).
Qed.

Lemma display_N_elem n c : c ∈ display_N n → in_range 48 57 c = true.
Proof.
  intros [Hc|(d & Hd & ->)]%display_digits_elem; [by apply not_elem_of_nil in Hc|].
  apply in_range_true. rewrite digit_to_N by done. lia.
Qed.

Lemma display_digits_cons fuel n acc :
  ∃ c s, display_digits (S fuel) n acc = c :: s.
Proof.
  revert n acc; induction fuel as [|f IH]; intros n acc; cbn [display_digits].
  - case_match; eauto.
  - case_match; [eauto|]. apply IH.
Qed.

Lemma parse_display_N max n : (n ≤ max)%N → parse_N max (display_N n) = Some n.
Proof.
  intros Hn. pose proof (display_N_elem n) as Hel.
  unfold display_N in *. destruct (display_digits_cons (N.size_nat n) n []) as (c & s & E).
  rewrite E in *. unfold parse_N.
  assert (Byte.eqb c x2b = false) as ->.
  { rewrite byte_eqb_spec. apply bool_decide_eq_false. intros ->.
    specialize (Hel x2b ltac:(left)). done. }
  rewrite <- E. destruct (parse_display_digits max (S (N.size_nat n)) n []) as (k & Hk).
  { pose proof (N_size_nat_bound n). rewrite Nat2N.inj_succ, N.pow_succ_r'. lia. }
  rewrite Hk by lia. simpl. by rewrite N.add_0_l.
Qed.

Lemma utf8_valid_ascii_all s :
  (∀ c, c ∈ s → in_range 0 127 c = true) → utf8_valid s = true.
Proof.
  induction s as [|a s IH]; intros H; [done|].
  rewrite utf8_valid_ascii by (apply H; left). apply IH. intros c Hc. apply H. by right.
Qed.

Lemma display_N_utf8 n : utf8_valid (display_N n) = true.
Proof.
  apply utf8_valid_ascii_all. intros c Hc%display_N_elem.
  eapply in_range_weaken; [| |done]; lia.
Qed.

Lemma display_N_not_in n c : in_range 48 57 c = false → c ∉ display_N n.
Proof. intros Hc Hin%display_N_elem. congruence. Qed.

#[export] Hint Resolve display_N_utf8 : skippr.

Lemma parse_digits_bound max acc s n :
  (acc ≤ max)%N → parse_digits max acc s = Some n → (n ≤ max)%N.
Proof.
  revert acc; induction s as [|c s IH]; intros acc Ha; simpl; [by intros; simplify_eq|].
  destruct (digit_val c) as [d|]; [|done].
  destruct (checked_mul max acc 10) as [m|]; [|done].
  destruct (checked_add max m d) as [a|] eqn:E; [|done].
  apply checked_add_Some in E as [-> ?]. by apply IH.
Qed.

Lemma parse_N_bound max s n : parse_N max s = Some n → (n ≤ max)%N.
Proof.
  unfold parse_N. destruct s as [|c s]; [done|].
  destruct (Byte.eqb c x2b); [destruct s; [done|]|]; apply parse_digits_bound; lia.
Qed.

(** ** White space and case

    [str::trim] removes Unicode white space; [ws_len] is the length of a white-space
    character at the head of UTF-8 text, 0 when there is none. *)

Definition ws_len (s : bytes) : nat :=
  match s with
  | a :: r =>
      if in_range 9 13 a || in_range 32 32 a then 1
      else
        match r with
        | b :: r' =>
            if in_range 194 194 a && (in_range 133 133 b || in_range 160 160 b) then 2
            else
              match r' with
              | c :: _ =>
                  if (in_range 225 225 a && in_range 154 154 b && in_range 128 128 c)
                     || (in_range 226 226 a && in_range 128 128 b
                         && (in_range 128 138 c || in_range 168 169 c || in_range 175 175 c))
                     || (in_range 226 226 a && in_range 129 129 b && in_range 159 159 c)
                     || (in_range 227 227 a && in_range 128 128 b && in_range 128 128 c)
                  then 3 else 0
              | [] => 0
              end
        | [] => 0
        end
  | [] => 0
  end.

(** The same at the end of a text, given reversed. *)
Definition ws_len_end (r : bytes) : nat :=
  if ws_len (rev (take 1 r)) =? 1 then 1
  else if ws_len (rev (take 2 r)) =? 2 then 2
  else if ws_len (rev (take 3 r)) =? 3 then 3
  else 0.

Fixpoint strip_while (len : bytes → nat) (fuel : nat) (s : bytes) : bytes :=
  match fuel with
  | O => s
  | S f => match len s with
           | O => s
           | n => strip_while len f (drop n s)
           end
  end.

Definition trim_start (s : bytes) : bytes := strip_while ws_len (length s) s.
Definition trim_end (s : bytes) : bytes := rev (strip_while ws_len_end (length s) (rev s)).
Definition trim (s : bytes) : bytes := trim_end (trim_start s).

Definition to_ascii_lowercase (s : bytes) : bytes :=
  (λ c, if in_range 65 90 c then byte_of_N (Byte.to_N c + 32) else c) <$> s.

(** A [match] on a text with literal arms. *)
Fixpoint assoc_text {A} (s : bytes) (arms : list (bytes * A)) : option A :=
  match arms with
  | [] => None
  | (k, a) :: arms' => if decide (s = k) then Some a else assoc_text s arms'
  end.

Lemma assoc_text_Some {A} s (arms : list (bytes * A)) a :
  assoc_text s arms = Some a → (s, a) ∈ arms.
Proof.
  induction arms as [|[k b] arms IH]; simpl; [done|]. case_decide; [|right; auto].
  intros [= ->]. subst. by left.
Qed.

(** ** Joining and replacing *)

(** [join(", ")] and the like. *)
Fixpoint joins (sep : bytes) (parts : list bytes) : bytes :=
  match parts with
  | [] => []
  | [p] => p
  | p :: parts => p ++ sep ++ joins sep parts
  end.

(** [str::replace] of a character. *)
Fixpoint replace_byte (c : byte) (by_ : bytes) (s : bytes) : bytes :=
  match s with
  | [] => []
  | b :: s => (if Byte.eqb b c then by_ else [b]) ++ replace_byte c by_ s
  end.

(** The [Display] of signed integers. *)
Definition display_i64 (z : Z) : bytes := if (z <? 0)%Z then x2d :: display_N (Z.to_N (- z)) else display_N (Z.to_N z).

Lemma display_N_inj n m : display_N n = display_N m → n = m.
Proof.
  intros E. assert (parse_N (N.max n m) (display_N n) = parse_N (N.max n m) (display_N m)) as H by (by rewrite E).
  rewrite !parse_display_N in H by lia. by injection H.
Qed.

Lemma display_i64_inj z z' : display_i64 z = display_i64 z' → z = z'.
Proof.
  unfold display_i64. intros H. destruct (Z.ltb_spec z 0), (Z.ltb_spec z' 0).
  - injection H as H. apply display_N_inj in H. lia.
  - exfalso. apply (display_N_not_in (Z.to_N z') x2d); [done|]. rewrite <- H. left.
  - exfalso. apply (display_N_not_in (Z.to_N z) x2d); [done|]. rewrite H. left.
  - apply display_N_inj in H. lia.
Qed.

Lemma display_i64_not_in z c : in_range 48 57 c = false → c ≠ x2d → c ∉ display_i64 z.
Proof.
  intros Hc Hm. unfold display_i64. destruct (z <? 0)%Z; [apply not_elem_of_cons; split; [done|]|]; by apply display_N_not_in.
Qed.

(** Splitting and joining on a character are inverse. *)
Lemma joins_split c s : joins [c] (split c s) = s.
Proof.
  induction s as [|a s IH]; [done|]. cbn [split]. rewrite byte_eqb_spec. case_bool_decide as H.
  - subst. destruct (split c s) as [|p ps] eqn:E; [by destruct s as [|b s]; cbn in E; [|destruct (Byte.eqb b c); [|destruct (split c s)]]|].
    cbn [joins app] in *. by rewrite IH.
  - destruct (split c s) as [|p ps] eqn:E; [by destruct s as [|b s]; cbn in E; [|destruct (Byte.eqb b c); [|destruct (split c s)]]|].
    destruct ps; cbn in *; by rewrite <- IH.
Qed.

Lemma split_not_nil c s : split c s ≠ [].
Proof. destruct s as [|a s]; cbn; [done|]. destruct (Byte.eqb a c); [done|]. by destruct (split c s). Qed.

Lemma split_parts c s : Forall (λ p, c ∉ p) (split c s).
Proof.
  induction s as [|a s IH]; cbn; [constructor; [apply not_elem_of_nil|done]|]. rewrite byte_eqb_spec. case_bool_decide as H.
  - constructor; [apply not_elem_of_nil|done].
  - destruct (split c s) as [|p ps]; [constructor; [set_solver|done]|]. inversion_clear IH. constructor; [|done]. apply not_elem_of_cons. by split; [intros ->|].
Qed.

Lemma split_joins c ps : ps ≠ [] → Forall (λ p, c ∉ p) ps → split c (joins [c] ps) = ps.
Proof.
  intros Hne Hp. induction Hp as [|p ps Hp Hps IH]; [done|]. destruct ps as [|q ps].
  - cbn [joins]. by apply split_single.
  - cbn [joins app]. rewrite split_app by done. f_equal. by apply IH.
Qed.
