(* ===== verification/Io.v ===== *)
(** * Io: in-memory cursors and I/O errors

    [std::io::Cursor] over a byte buffer: the [Read], [Write] and [Seek] operations the
    segment reader and writer use, with the errors of [std::io].  A cursor may be moved
    past the end of its buffer; reading there fails with [UnexpectedEof] and writing
    there pads with zeroes. *)

From S2P Require Import Prelude Bytes Text.

Inductive IoErr : Type :=
| InvalidData (message : bytes)
| UnexpectedEof
| InvalidInput (message : bytes)
| OtherIo (message : bytes).

#[global] Instance IoErr_eq_dec : EqDecision IoErr.
Proof. solve_decision. Defined.

Record IoCursor : Type := { cur_bytes : bytes; cur_pos : N }.

Definition cursor_new (bs : bytes) : IoCursor := {| cur_bytes := bs; cur_pos := 0 |}.

Definition blen (bs : bytes) : N := N.of_nat (length bs).

(** The [n] bytes of [bs] that start at [pos]. *)
Definition slice (bs : bytes) (pos n : N) : bytes :=
  take (N.to_nat n) (drop (N.to_nat pos) bs).

Notation io := (st IoCursor IoErr).

Definition stream_position : io N := λ c, (Ok (cur_pos c), c).

Definition seek_start (p : N) : io unit :=
  λ c, (Ok tt, {| cur_bytes := cur_bytes c; cur_pos := p |}).

Definition seek_end : io N :=
  λ c, let n := blen (cur_bytes c) in (Ok n, {| cur_bytes := cur_bytes c; cur_pos := n |}).

Definition seek_current (n : N) : io unit :=
  λ c, match checked_add U64_MAX (cur_pos c) n with
       | Some p => (Ok tt, {| cur_bytes := cur_bytes c; cur_pos := p |})
       | None => (Err (InvalidInput (str "invalid seek to a negative or overflowing position")), c)
       end.

Definition read_exact (n : N) : io bytes :=
  λ c, let len := blen (cur_bytes c) in
       if (n <=? saturating_sub len (cur_pos c))%N
       then (Ok (slice (cur_bytes c) (cur_pos c) n),
             {| cur_bytes := cur_bytes c; cur_pos := cur_pos c + n |})
       else (Err UnexpectedEof, {| cur_bytes := cur_bytes c; cur_pos := len |}).

Definition write_all (bs : bytes) : io unit :=
  λ c, let pos := N.to_nat (cur_pos c) in
       let padded := cur_bytes c ++ replicate (pos - length (cur_bytes c)) x00 in
       (Ok tt, {| cur_bytes := take pos padded ++ bs ++ drop (pos + length bs) padded;
                  cur_pos := cur_pos c + blen bs |}).

Definition read_u32 : io N := do? bs := read_exact 4 in sret (from_le_bytes bs).
Definition read_u64 : io N := do? bs := read_exact 8 in sret (from_le_bytes bs).

(** ** Facts

    [at_cursor pre rest] stands at the end of [pre], with [rest] still to be read. *)

Definition at_cursor (pre rest : bytes) : IoCursor :=
  {| cur_bytes := pre ++ rest; cur_pos := blen pre |}.

Lemma blen_app x y : blen (x ++ y) = (blen x + blen y)%N.
Proof. unfold blen. rewrite length_app. lia. Qed.

Lemma blen_u32_le x : blen (u32_le x) = 4%N.
Proof. unfold blen. by rewrite length_u32_le. Qed.
Lemma blen_u64_le x : blen (u64_le x) = 8%N.
Proof. unfold blen. by rewrite length_u64_le. Qed.

Lemma cursor_new_at bs : cursor_new bs = at_cursor [] bs.
Proof. done. Qed.

Lemma slice_app pre bs rest : slice (pre ++ bs ++ rest) (blen pre) (blen bs) = bs.
Proof.
  unfold slice, blen. rewrite !Nat2N.id, drop_app_length. by rewrite take_app_length.
Qed.

Lemma read_exact_at n pre bs rest :
  n = blen bs → read_exact n (at_cursor pre (bs ++ rest)) = (Ok bs, at_cursor (pre ++ bs) rest).
Proof.
  intros ->. unfold read_exact, at_cursor; cbn [cur_bytes cur_pos].
  rewrite slice_app, !blen_app. rewrite (proj2 (N.leb_le _ _)) by (unfold saturating_sub; lia).
  by rewrite <- app_assoc.
Qed.

Lemma read_u32_at x pre rest :
  (x ≤ U32_MAX)%N → read_u32 (at_cursor pre (u32_le x ++ rest)) = (Ok x, at_cursor (pre ++ u32_le x) rest).
Proof.
  intros Hx. unfold read_u32. erewrite sbind_run by (apply read_exact_at; by rewrite blen_u32_le).
  by rewrite from_u32_le.
Qed.

Lemma read_u64_at x pre rest :
  (x ≤ U64_MAX)%N → read_u64 (at_cursor pre (u64_le x ++ rest)) = (Ok x, at_cursor (pre ++ u64_le x) rest).
Proof.
  intros Hx. unfold read_u64. erewrite sbind_run by (apply read_exact_at; by rewrite blen_u64_le).
  by rewrite from_u64_le.
Qed.

Lemma seek_start_at p pre bs rest :
  p = blen (pre ++ bs) →
  seek_start p (at_cursor pre (bs ++ rest)) = (Ok tt, at_cursor (pre ++ bs) rest).
Proof. intros ->. unfold seek_start, at_cursor; cbn. by rewrite <- app_assoc. Qed.

Lemma app_split (bs : bytes) (n : nat) :
  n ≤ length bs → ∃ x y, bs = x ++ y ∧ length x = n.
Proof.
  intros Hn. exists (take n bs), (drop n bs). rewrite take_drop, length_take. split; [done|lia].
Qed.

(** A read that succeeds splits off the bytes it returns. *)
Lemma read_exact_inv n pre rest bs c :
  read_exact n (at_cursor pre rest) = (Ok bs, c) →
  ∃ rest', rest = bs ++ rest' ∧ blen bs = n ∧ c = at_cursor (pre ++ bs) rest'.
Proof.
  unfold read_exact. cbn [cur_bytes cur_pos at_cursor]. rewrite blen_app.
  destruct (N.leb_spec n (saturating_sub (blen pre + blen rest) (blen pre))) as [Hn|]; [|done].
  intros [= Hbs Hc]. unfold saturating_sub in Hn.
  destruct (app_split rest (N.to_nat n)) as (x & y & -> & Hx); [unfold blen in *; lia|].
  assert (n = blen x) as -> by (unfold blen; lia).
  rewrite slice_app in Hbs. subst bs c. exists y. split_and!; [done|done|].
  unfold at_cursor. by rewrite <- app_assoc, blen_app.
Qed.

Lemma read_u64_inv pre rest x c :
  read_u64 (at_cursor pre rest) = (Ok x, c) →
  ∃ rest', rest = u64_le x ++ rest' ∧ (x ≤ U64_MAX)%N ∧ c = at_cursor (pre ++ u64_le x) rest'.
Proof.
  unfold read_u64. intros (bs & c' & (r & -> & Hl & ->)%read_exact_inv & [= <- <-])%sbind_Ok.
  assert (length bs = 8) as Hlen by (unfold blen in Hl; lia). exists r.
  assert (u64_le (from_le_bytes bs) = bs) as ->.
  { unfold u64_le. by rewrite <- Hlen, to_from_le_bytes. }
  split_and!; [done| |done]. pose proof (from_le_bytes_bound bs) as Hb.
  rewrite Hlen in Hb. unfold U64_MAX. change (256 ^ N.of_nat 8)%N with 18446744073709551616%N in Hb.
  lia.
Qed.

Lemma read_u32_inv pre rest x c :
  read_u32 (at_cursor pre rest) = (Ok x, c) →
  ∃ rest', rest = u32_le x ++ rest' ∧ (x ≤ U32_MAX)%N ∧ c = at_cursor (pre ++ u32_le x) rest'.
Proof.
  unfold read_u32. intros (bs & c' & (r & -> & Hl & ->)%read_exact_inv & [= <- <-])%sbind_Ok.
  assert (length bs = 4) as Hlen by (unfold blen in Hl; lia). exists r.
  assert (u32_le (from_le_bytes bs) = bs) as ->.
  { unfold u32_le. by rewrite <- Hlen, to_from_le_bytes. }
  split_and!; [done| |done]. pose proof (from_le_bytes_bound bs) as Hb.
  rewrite Hlen in Hb. unfold U32_MAX. change (256 ^ N.of_nat 4)%N with 4294967296%N in Hb.
  lia.
Qed.

(** Writing at the end appends; writing over a gap of the same length replaces it. *)
Lemma write_all_end pre bs :
  write_all bs (at_cursor pre []) = (Ok tt, at_cursor (pre ++ bs) []).
Proof.
  unfold write_all, at_cursor; cbn [cur_bytes cur_pos]. rewrite !app_nil_r.
  replace (N.to_nat (blen pre)) with (length pre) by (unfold blen; lia).
  rewrite Nat.sub_diag. cbn [replicate]. rewrite app_nil_r. rewrite take_ge, drop_ge, app_nil_r by lia. by rewrite blen_app.
Qed.

Lemma write_all_over pre old bs rest :
  length old = length bs →
  write_all bs (at_cursor pre (old ++ rest)) = (Ok tt, at_cursor (pre ++ bs) rest).
Proof.
  intros Hl. unfold write_all, at_cursor; cbn [cur_bytes cur_pos].
  replace (N.to_nat (blen pre)) with (length pre) by (unfold blen; lia).
  replace (length pre - length (pre ++ old ++ rest)) with 0 by (rewrite length_app; lia).
  cbn [replicate]. rewrite app_nil_r, take_app_length, <- Hl.
  replace (length pre + length old) with (length (pre ++ old)) by (rewrite length_app; lia).
  rewrite (app_assoc pre old rest), drop_app_length. f_equal. f_equal.
  - by rewrite <- !app_assoc.
  - rewrite blen_app. unfold blen. lia.
Qed.

(** A pure step that succeeds leaves the state alone. *)
Lemma slift_inv {S E A} (r : result E A) (c : S) a c' :
  slift r c = (Ok a, c') → r = Ok a ∧ c' = c.
Proof. unfold slift. by intros [= -> ->]. Qed.

Lemma sret_inv {S E A} (a b : A) (c c' : S) :
  @sret S E A a c = (Ok b, c') → b = a ∧ c' = c.
Proof. unfold sret. by intros [= -> ->]. Qed.
