(* ===== verification/Codec.v ===== *)
(** * Codec: the serializer and the digest the program links against

    [bincode] and [sha2] are not part of this repository: they are parameters of
    the model.  [Codec A] is what the code relies on of [bincode::serialize] and
    [bincode::deserialize] at a type [A] that derives [Serialize] and
    [Deserialize]; [Digest] is SHA-256 (32 bytes) and its lower-case hex text (64
    characters of valid text). *)

From S2P Require Import Prelude Bytes Text.

Class Codec (A : Type) : Type := {
  serialize : A → result bytes bytes;
  deserialize : bytes → result bytes A;
  deserialize_serialize : ∀ a bs, serialize a = Ok bs → deserialize bs = Ok a
}.

Class Digest : Type := {
  sha256 : bytes → bytes;
  sha256_hex : bytes → bytes;
  sha256_length : ∀ bs, length (sha256 bs) = 32;
  sha256_hex_length : ∀ bs, length (sha256_hex bs) = 64;
  sha256_hex_utf8 : ∀ bs, utf8_valid (sha256_hex bs) = true;
  sha256_hex_digits : ∀ bs c, c ∈ sha256_hex bs → in_range 48 57 c || in_range 97 102 c = true
}.

(** Two values with the same serialization are equal. *)
Lemma serialize_inj `{Codec A} (a a' : A) bs :
  serialize a = Ok bs → serialize a' = Ok bs → a = a'.
Proof. intros H1%deserialize_serialize H2%deserialize_serialize. congruence. Qed.

(** ** Concrete instances

    Every countable type has a codec, and there is a 32-byte digest: the laws above
    can hold, and statements that assume them can be evaluated. *)

Fixpoint pos_bytes (p : positive) : bytes :=
  match p with
  | xI q => x01 :: pos_bytes q
  | xO q => x00 :: pos_bytes q
  | xH => []
  end.

Fixpoint bytes_pos (s : bytes) : positive :=
  match s with
  | [] => xH
  | c :: r => if Byte.eqb c x01 then xI (bytes_pos r) else xO (bytes_pos r)
  end.

Lemma bytes_pos_bytes p : bytes_pos (pos_bytes p) = p.
Proof. induction p; simpl; by rewrite ?IHp. Qed.

Program Definition countable_codec {A} `{Countable A} : Codec A := {|
  serialize a := Ok (pos_bytes (encode a));
  deserialize bs := match decode (bytes_pos bs) with
                    | Some a => Ok a
                    | None => Err (str "bad encoding")
                    end
|}.
Next Obligation.
  intros A ?? a bs [= <-]. by rewrite bytes_pos_bytes, decode_encode.
Qed.

(** A codec for the values of a table: each is written as its index. *)
Definition table_serialize {A} {DE : EqDecision A} (tbl : list A) (a : A) : result bytes bytes :=
  match list_find (λ x, x = a) tbl with
  | Some (i, _) => if i <? 256 then Ok [byte_of_N (N.of_nat i)] else Err (str "table")
  | None => Err (str "not in the table")
  end.

Definition table_deserialize {A} (tbl : list A) (bs : bytes) : result bytes A :=
  match bs with
  | [c] => ok_or (str "index") (tbl !! N.to_nat (Byte.to_N c))
  | _ => Err (str "length")
  end.

Lemma table_roundtrip {A} {DE : EqDecision A} (tbl : list A) a bs :
  table_serialize tbl a = Ok bs → table_deserialize tbl bs = Ok a.
Proof.
  unfold table_serialize. destruct (list_find _ tbl) as [[i x]|] eqn:E; [|done].
  apply list_find_Some in E as (Hi & -> & _). destruct (Nat.ltb_spec i 256) as [Hlt|]; [|done].
  intros [= <-]. unfold table_deserialize. rewrite byte_of_N_to_N, N.mod_small, Nat2N.id by lia. by rewrite Hi.
Qed.

Definition table_codec {A} {DE : EqDecision A} (tbl : list A) : Codec A := {|
  serialize := table_serialize tbl;
  deserialize := table_deserialize tbl;
  deserialize_serialize := table_roundtrip tbl
|}.

Definition toy_sha256 (bs : bytes) : bytes := take 32 (bs ++ replicate 32 x00).

Lemma toy_sha256_length bs : length (toy_sha256 bs) = 32.
Proof. unfold toy_sha256. rewrite length_take, length_app, length_replicate. lia. Qed.

Definition toy_hex (bs : bytes) : bytes :=
  (λ c, if decide (c = x00) then x30 else x31) <$> take 64 (bs ++ replicate 64 x00).

Lemma toy_hex_length bs : length (toy_hex bs) = 64.
Proof.
  unfold toy_hex. rewrite length_fmap, length_take, length_app, length_replicate. lia.
Qed.

Lemma toy_hex_utf8 bs : utf8_valid (toy_hex bs) = true.
Proof.
  apply utf8_valid_ascii_all. intros c (x & -> & _)%list_elem_of_fmap. by case_decide.
Qed.

Lemma toy_hex_digits bs c : c ∈ toy_hex bs → in_range 48 57 c || in_range 97 102 c = true.
Proof. intros (x & -> & _)%list_elem_of_fmap. by case_decide. Qed.

Definition toy_digest : Digest := {|
  sha256 := toy_sha256;
  sha256_hex := toy_hex;
  sha256_length := toy_sha256_length;
  sha256_hex_length := toy_hex_length;
  sha256_hex_utf8 := toy_hex_utf8;
  sha256_hex_digits := toy_hex_digits
|}.
