(* ===== verification/Lease.v ===== *)
(** * Lease: pipeline identity, path components and the WAL publish decision

    Models crates/skippr-lease: [identity.rs], [paths.rs], [error.rs]. *)

From S2P Require Import Prelude Bytes Text.

(** ** Errors (error.rs) *)

Inductive PathError : Type :=
| InvalidComponent (detail : bytes)
| Overflow (detail : bytes).

(** ** Path components (paths.rs) *)

Definition validate_path_component (value : bytes) : result PathError unit :=
  match value with
  | [] => Err (InvalidComponent (str "path component must not be empty"))
  | _ =>
    if decide (value = str "." ∨ value = str "..")
    then Err (InvalidComponent (str "path component '" ++ value ++ str "' is not allowed"))
    else if contains value x2f || contains value x5c || contains value x00
            || contains value x23 || contains value x2c || contains value x40
    then Err (InvalidComponent
                (str "path component '" ++ value ++ str "' contains a reserved character"))
    else Ok tt
  end.

(** A valid component is a Rust string that passes the check. *)
Definition valid_component (value : bytes) : Prop :=
  validate_path_component value = Ok tt ∧ utf8_valid value = true.

Definition hex_digit (d : N) : byte :=
  if (d <? 10)%N then byte_of_N (48 + d) else byte_of_N (55 + d).

Definition safe_path_byte (c : byte) : bool :=
  in_range 65 90 c || in_range 97 122 c || in_range 48 57 c
  || Byte.eqb c x2d || Byte.eqb c x5f || Byte.eqb c x2e.

Fixpoint encode_path_component (value : bytes) : bytes :=
  match value with
  | [] => []
  | c :: rest =>
      (if safe_path_byte c then [c]
       else [x25; hex_digit (Byte.to_N c / 16); hex_digit (Byte.to_N c mod 16)])
      ++ encode_path_component rest
  end.

(** ** Identity (identity.rs) *)

Record LeaseEpoch : Type := { epoch_get : N }.

Definition SINGLE_NODE : LeaseEpoch := {| epoch_get := 0 |}.

Definition LeaseEpoch_next (e : LeaseEpoch) : result PathError LeaseEpoch :=
  match checked_add U64_MAX (epoch_get e) 1 with
  | Some v => Ok {| epoch_get := v |}
  | None => Err (Overflow (str "lease epoch overflow"))
  end.

(** A [Uuid] is 16 bytes; the nil UUID is all zeros. *)
Record NodeId : Type := { as_bytes : bytes }.

Definition single_node : NodeId := {| as_bytes := replicate 16 x00 |}.

#[global] Instance LeaseEpoch_eq_dec : EqDecision LeaseEpoch.
Proof. solve_decision. Defined.
#[global] Instance NodeId_eq_dec : EqDecision NodeId.
Proof. solve_decision. Defined.

Record SegmentId : Type := { segment_id_str : bytes }.

Definition SegmentId_new (raw : bytes) : result PathError SegmentId :=
  validate_path_component raw ;?
  Ok {| segment_id_str := raw |}.

#[global] Instance SegmentId_eq_dec : EqDecision SegmentId.
Proof. solve_decision. Defined.
#[global] Instance SegmentId_countable : Countable SegmentId.
Proof.
  apply (inj_countable' segment_id_str (λ s, {| segment_id_str := s |})). by intros [].
Defined.

Record PipelineKey : Type := {
  tenant : bytes;
  workspace : bytes;
  pipeline : bytes
}.

Definition PipelineKey_new (t w p : bytes) : result PathError PipelineKey :=
  validate_path_component t ;?
  validate_path_component w ;?
  validate_path_component p ;?
  Ok {| tenant := t; workspace := w; pipeline := p |}.

Definition dynamo_pk (k : PipelineKey) : bytes :=
  tenant k ++ x23 :: workspace k ++ x23 :: pipeline k.

Definition pipe_pk (k : PipelineKey) : bytes :=
  str "PIPE#" ++ tenant k ++ x23 :: workspace k ++ x23 :: pipeline k.

Definition parse_pipe_pk (pk : bytes) : result PathError PipelineKey :=
  let? rest := ok_or (InvalidComponent
    (str "pipeline META PK must start with PIPE#: " ++ pk)) (strip_prefix (str "PIPE#") pk) in
  let parts := split x23 rest in
  let t := default [] (parts !! 0) in
  let w := default [] (parts !! 1) in
  let p := default [] (parts !! 2) in
  match parts !! 3 with
  | Some _ => Err (InvalidComponent
      (str "pipeline META PK must be PIPE#tenant#workspace#name: " ++ pk))
  | None => PipelineKey_new t w p
  end.

Definition canonical_bytes (k : PipelineKey) : bytes :=
  tenant k ++ [x00] ++ workspace k ++ [x00] ++ pipeline k.

(** The keys [PipelineKey::new] can build. *)
Definition valid_pipeline (k : PipelineKey) : Prop :=
  PipelineKey_new (tenant k) (workspace k) (pipeline k) = Ok k.

(** ** Directory layout (paths.rs) *)

(** [Path::join] on Unix. *)
Definition path_join (base p : bytes) : bytes :=
  if decide (head p = Some x2f) then p
  else
    match last base with
    | None => p
    | Some c => if decide (c = x2f) then base ++ p else base ++ x2f :: p
    end.

#[global] Arguments path_join : simpl never.

Record PipelinePaths : Type := {
  root : bytes;
  segs : bytes;
  completions : bytes;
  compactions : bytes;
  durable : bytes;
  snapshots : bytes
}.

Definition from_pipeline_root (r : bytes) : PipelinePaths := {|
  root := r;
  segs := path_join r (str "segment_buffer/segs");
  completions := path_join r (str "segment_buffer/done");
  compactions := path_join r (str "segment_buffer/compactions");
  durable := path_join r (str "segment_buffer/durable");
  snapshots := path_join r (str "segment_buffer/durable/snapshots")
|}.

Definition PipelinePaths_new (data_root : bytes) (k : PipelineKey)
    : result PathError PipelinePaths :=
  validate_path_component (tenant k) ;?
  validate_path_component (workspace k) ;?
  validate_path_component (pipeline k) ;?
  Ok (from_pipeline_root
    (path_join (path_join (path_join (path_join data_root (str "clustered"))
      (encode_path_component (tenant k)))
      (encode_path_component (workspace k)))
      (encode_path_component (pipeline k)))).

Definition legacy_disk (data_root : bytes) : PipelinePaths := from_pipeline_root data_root.

Definition segment_path (p : PipelinePaths) (id : SegmentId) : bytes :=
  path_join (segs p) (segment_id_str id ++ str ".seg").

Definition wal_uri (k : PipelineKey) (id : SegmentId) : bytes :=
  str "wal://" ++ tenant k ++ x2f :: workspace k ++ x2f :: pipeline k
    ++ x2f :: segment_id_str id.

(** ** Error text and the publish decision (error.rs) *)

Definition DURABLE_ERROR_DISPLAY_CEILING : nat := 512.

(** [str::is_char_boundary] for an index inside the string. *)
Definition is_char_boundary (s : bytes) (i : nat) : bool :=
  match s !! i with
  | Some c => negb (is_cont c)
  | None => bool_decide (i = length s)
  end.

(** [None] is the panic of slicing a [str] off a character boundary. *)
Definition clip_error_detail (detail : bytes) : option bytes :=
  if decide (length detail ≤ DURABLE_ERROR_DISPLAY_CEILING) then Some detail
  else if is_char_boundary detail DURABLE_ERROR_DISPLAY_CEILING then
    Some (take DURABLE_ERROR_DISPLAY_CEILING detail ++ str "… (truncated, "
          ++ display_N (N.of_nat (length detail)) ++ str " bytes)")
  else None.

Inductive PublishMode : Type := Fresh | Republish.
Inductive PublishAction : Type := Commit | AlreadyApplied.
Inductive OffsetPublishError : Type :=
| Corrupt (detail : bytes)
| Transient (detail : bytes)
| FenceRegression.

#[global] Instance PublishMode_eq_dec : EqDecision PublishMode.
Proof. solve_decision. Defined.
#[global] Instance OffsetPublishError_eq_dec : EqDecision OffsetPublishError.
Proof. solve_decision. Defined.

(** The order of the tuple [(epoch, seq)]. *)
Definition fence_ltb (x y : N * N) : bool :=
  ((x.1 <? y.1) || ((x.1 =? y.1) && (x.2 <? y.2)))%N.

Definition decide_wal_publish (stored : option (N * N * bytes)) (epoch seq : N)
    (payload_sha256 : bytes) (mode : PublishMode) : result OffsetPublishError PublishAction :=
  match stored with
  | None => Ok Commit
  | Some (old_epoch, old_seq, old_hash) =>
    if ((old_epoch =? epoch) && (old_seq =? seq))%N then
      if decide (old_hash = payload_sha256) then Ok AlreadyApplied
      else Err (Corrupt (str "same WAL tuple with different hash"))
    else if fence_ltb (epoch, seq) (old_epoch, old_seq) then
      match mode with
      | Republish => Ok AlreadyApplied
      | Fresh => Err FenceRegression
      end
    else Ok Commit
  end.

(** ** Lemmas on components *)

Definition reserved_chars : list byte := [x2f; x5c; x00; x23; x2c; x40].

Lemma no_reserved w :
  contains w x2f || contains w x5c || contains w x00
    || contains w x23 || contains w x2c || contains w x40 = false ↔
  ∀ c, c ∈ reserved_chars → c ∉ w.
Proof.
  rewrite !orb_false_iff, !contains_false. unfold reserved_chars. split.
  - intros H c Hc. repeat (apply elem_of_cons in Hc as [->|Hc]; [apply H|]).
    by apply elem_of_nil in Hc.
  - intros H. repeat split; apply H; set_solver.
Qed.

Lemma validate_Ok v u :
  validate_path_component v = Ok u ↔
  v ≠ [] ∧ v ≠ str "." ∧ v ≠ str ".." ∧ ∀ c, c ∈ reserved_chars → c ∉ v.
Proof.
  rewrite <- no_reserved. destruct u. unfold validate_path_component.
  destruct v as [|a v]; [by split; [|intros [? _]]|].
  set (w := a :: v). assert (w ≠ []) by done. clearbody w.
  case_decide as Hd; [split; [done|]; intros (_&?&?&_); naive_solver|].
  match goal with |- context [if ?b then _ else _] => destruct b end.
  - split; [done|]. by intros (_&_&_&?).
  - split; [|done]. intros _. naive_solver.
Qed.

Lemma validate_no_hash v u : validate_path_component v = Ok u → x23 ∉ v.
Proof. intros H%validate_Ok. apply H. set_solver. Qed.

Lemma validate_nonempty v u : validate_path_component v = Ok u → v ≠ [].
Proof. intros H%validate_Ok. apply H. Qed.

Lemma SegmentId_new_Ok raw id :
  SegmentId_new raw = Ok id ↔ validate_path_component raw = Ok tt ∧ id = {| segment_id_str := raw |}.
Proof.
  unfold SegmentId_new. split.
  - intros H. inv_res. by destruct x.
  - intros [H ->]. by rewrite H.
Qed.

Lemma PipelineKey_new_Ok t w p k :
  PipelineKey_new t w p = Ok k ↔
  validate_path_component t = Ok tt ∧ validate_path_component w = Ok tt ∧
  validate_path_component p = Ok tt ∧ k = {| tenant := t; workspace := w; pipeline := p |}.
Proof.
  unfold PipelineKey_new. split.
  - intros H. inv_res. repeat match goal with u : unit |- _ => destruct u end. done.
  - intros (H1 & H2 & H3 & ->). by rewrite H1, H2, H3.
Qed.

Lemma valid_pipeline_iff k :
  valid_pipeline k ↔ validate_path_component (tenant k) = Ok tt ∧
    validate_path_component (workspace k) = Ok tt ∧ validate_path_component (pipeline k) = Ok tt.
Proof.
  unfold valid_pipeline. rewrite PipelineKey_new_Ok. destruct k; simpl. naive_solver.
Qed.

Lemma split_three c t w p :
  c ∉ t → c ∉ w → c ∉ p → split c (t ++ c :: w ++ c :: p) = [t; w; p].
Proof. intros. by rewrite !split_app, split_single. Qed.

Fixpoint join (c : byte) (ps : list bytes) : bytes :=
  match ps with
  | [] => []
  | [p] => p
  | p :: ps' => p ++ c :: join c ps'
  end.

Lemma join_split c s : join c (split c s) = s.
Proof.
  induction s as [|a s IH]; [done|]. cbn [split]. rewrite byte_eqb_spec.
  case_bool_decide as Hac; subst.
  - destruct (split c s) as [|p ps] eqn:E; simpl in *; [by subst|by rewrite <- IH].
  - destruct (split c s) as [|p [|q ps]]; simpl in *; by subst.
Qed.

(** [decode_path_component] is the inverse the injectivity proof uses. *)
Definition hex_val (c : byte) : N :=
  if (Byte.to_N c <? 58)%N then (Byte.to_N c - 48)%N else (Byte.to_N c - 55)%N.

Fixpoint decode_path_component (s : bytes) : bytes :=
  match s with
  | x25 :: h :: l :: r => byte_of_N (16 * hex_val h + hex_val l) :: decode_path_component r
  | c :: r => c :: decode_path_component r
  | [] => []
  end.

Lemma hex_val_digit d : (d < 16)%N → hex_val (hex_digit d) = d.
Proof.
  intros Hd. unfold hex_val, hex_digit.
  destruct (N.ltb_spec d 10); rewrite byte_of_N_to_N, N.mod_small by lia;
    [destruct (N.ltb_spec (48 + d) 58)|destruct (N.ltb_spec (55 + d) 58)]; lia.
Qed.

Lemma decode_cons_other c r :
  c ≠ x25 → decode_path_component (c :: r) = c :: decode_path_component r.
Proof. intros. destruct c; done. Qed.

Lemma decode_encode_path_component v : decode_path_component (encode_path_component v) = v.
Proof.
  induction v as [|c v IH]; [done|]. cbn [encode_path_component].
  destruct (safe_path_byte c) eqn:Hs.
  - cbn [app]. rewrite decode_cons_other, IH; [done|]. intros ->. by vm_compute in Hs.
  - cbn [app decode_path_component]. rewrite IH. f_equal.
    pose proof (byte_to_N_lt c) as Hlt. pose proof (N.div_mod (Byte.to_N c) 16 ltac:(done)) as Hdm.
    rewrite !hex_val_digit.
    + rewrite <- Hdm. apply byte_of_to_N.
    + by apply N.mod_upper_bound.
    + apply N.Div0.div_lt_upper_bound. lia.
Qed.

Lemma hex_digit_not_slash d : (d < 16)%N → hex_digit d ≠ x2f.
Proof.
  intros Hd E. apply (f_equal Byte.to_N) in E. unfold hex_digit in E.
  destruct (N.ltb_spec d 10); rewrite byte_of_N_to_N, N.mod_small in E by lia;
    change (Byte.to_N x2f) with 47%N in E; lia.
Qed.

Lemma encode_path_no_slash v : x2f ∉ encode_path_component v.
Proof.
  induction v as [|c v IH]; simpl; [apply not_elem_of_nil|].
  apply not_elem_of_app. split; [|done].
  destruct (safe_path_byte c) eqn:Hs.
  - intros Hc%list_elem_of_singleton. subst c. by vm_compute in Hs.
  - pose proof (byte_to_N_lt c).
    rewrite !not_elem_of_cons. split_and!; [done| | |apply not_elem_of_nil];
      intros E; eapply hex_digit_not_slash; try (symmetry; exact E).
    + apply N.Div0.div_lt_upper_bound. lia.
    + by apply N.mod_upper_bound.
Qed.

Lemma encode_path_nonempty v : v ≠ [] → encode_path_component v ≠ [].
Proof. destruct v as [|c v]; [done|]. simpl. by destruct (safe_path_byte c). Qed.

(** Joining a non-empty slash-free name below a directory that does not end in a
    slash is concatenation around one slash. *)
Definition plain_dir (d : bytes) : Prop := d ≠ [] ∧ last d ≠ Some x2f.

Lemma path_join_plain d p :
  plain_dir d → p ≠ [] → x2f ∉ p → path_join d p = d ++ x2f :: p ∧ plain_dir (path_join d p).
Proof.
  intros [Hd Hl] Hp Hs.
  assert (path_join d p = d ++ x2f :: p) as E.
  { unfold path_join. destruct p as [|a p]; [done|].
    assert (a ≠ x2f) by (intros ->; apply Hs; left).
    rewrite decide_False by (simpl; congruence).
    destruct (last d) as [z|] eqn:El; [|by apply last_None in El].
    by rewrite decide_False by congruence. }
  split; [done|]. rewrite E. split; [by destruct d|].
  rewrite last_app. destruct p as [|a p] using rev_ind; [done|].
  rewrite app_comm_cons, last_snoc. intros [= ->]. apply Hs. set_solver.
Qed.

Lemma path_join_inj d d' p p' :
  plain_dir d → plain_dir d' → p ≠ [] → p' ≠ [] → x2f ∉ p → x2f ∉ p' →
  path_join d p = path_join d' p' → d = d' ∧ p = p'.
Proof.
  intros Hd Hd' Hp Hp' Hs Hs' E.
  rewrite (proj1 (path_join_plain d p Hd Hp Hs)) in E.
  rewrite (proj1 (path_join_plain d' p' Hd' Hp' Hs')) in E.
  apply (f_equal (rsplit_once x2f)) in E. rewrite !rsplit_once_app in E by done.
  by simplify_eq.
Qed.

Lemma clustered_plain data_root : plain_dir (path_join data_root (str "clustered")).
Proof.
  unfold path_join. rewrite decide_False by done.
  destruct (last data_root) as [z|]; [|done].
  assert (plain_dir (data_root ++ str "clustered")) as H1.
  { split; [by destruct data_root|]. by rewrite last_app. }
  assert (plain_dir (data_root ++ x2f :: str "clustered")) as H2.
  { split; [by destruct data_root|]. by rewrite last_app. }
  by case_decide.
Qed.

Lemma display_digits_length k f n acc :
  (n < 10 ^ N.of_nat (S k))%N → length (display_digits f n acc) ≤ S k + length acc.
Proof.
  revert f n acc; induction k as [|k IH]; intros [|f] n acc Hn; try (simpl; lia);
    cbn [display_digits]; destruct (N.eqb_spec (n / 10) 0) as [?|Hz]; try (simpl; lia).
  - change (10 ^ N.of_nat 1)%N with 10%N in Hn. by rewrite N.div_small in Hz.
  - etrans; [apply IH|simpl; lia].
    rewrite Nat2N.inj_succ, N.pow_succ_r' in Hn.
    by apply N.Div0.div_lt_upper_bound.
Qed.

Lemma display_u64_length n : (n ≤ U64_MAX)%N → length (display_N n) ≤ 20.
Proof.
  intros Hn. unfold display_N. etrans; [apply (display_digits_length 19)|done].
  unfold U64_MAX in Hn. change (10 ^ N.of_nat 20)%N with 100000000000000000000%N. lia.
Qed.

(** ** Properties *)

(** The pipeline META key codec is exact: [parse_pipe_pk] accepts a text iff it
    is the [pipe_pk] of a key [PipelineKey::new] admits, and returns that key.  In
    particular no two accepted texts name the same pipeline and the reserved [#]
    cannot be smuggled into a component. *)
Theorem parse_pipe_pk_exact pk k :
  parse_pipe_pk pk = Ok k ↔ valid_pipeline k ∧ pk = pipe_pk k.
Proof.
  unfold parse_pipe_pk. split.
  - intros H. inv_res. rename x into rest. apply strip_prefix_Some in H0 as ->.
    pose proof (join_split x23 rest) as Hj.
    destruct (split x23 rest) as [|t [|w [|p [|q ps]]]]; simpl in *;
      try (apply PipelineKey_new_Ok in H as (Ht & Hw & Hp & ->); done); [|done].
    pose proof H as Hv. apply PipelineKey_new_Ok in H as (Ht & Hw & Hp & ->).
    split; [exact Hv|]. by rewrite <- Hj.
  - intros [Hv ->]. pose proof (proj1 (valid_pipeline_iff k) Hv) as (Ht & Hw & Hp).
    unfold pipe_pk. rewrite strip_prefix_app. cbn [ok_or rbind].
    rewrite split_three by eauto using validate_no_hash. exact Hv.
Qed.

(** Pipelines do not share directories: two keys that get a layout under the
    same data directory get the same root only if they are the same key, so the
    WAL, completion and snapshot directories of different tenants, workspaces or
    pipelines never coincide. *)
Theorem pipeline_roots_disjoint data_root k k' p p' :
  PipelinePaths_new data_root k = Ok p →
  PipelinePaths_new data_root k' = Ok p' →
  root p = root p' → k = k'.
Proof.
  unfold PipelinePaths_new. intros H H' E. inv_res.
  repeat match goal with
  | H : validate_path_component _ = Ok _ |- _ =>
      apply validate_nonempty, encode_path_nonempty in H
  end. simpl in E. destruct k as [t w p], k' as [t' w' p']; simpl in *.
  pose proof (clustered_plain data_root) as Hc.
  pose proof (encode_path_no_slash) as Hns.
  set (d := path_join data_root (str "clustered")) in *. clearbody d.
  assert (∀ e v, plain_dir e → encode_path_component v ≠ [] →
    plain_dir (path_join e (encode_path_component v))) as Hpl.
  { intros. by apply path_join_plain. }
  apply path_join_inj in E as [E Ep]; [|first [apply Hns | assumption | repeat apply Hpl; assumption]..].
  apply path_join_inj in E as [E Ew]; [|first [apply Hns | assumption | repeat apply Hpl; assumption]..].
  apply path_join_inj in E as [_ Et]; [|first [apply Hns | assumption | repeat apply Hpl; assumption]..].
  apply (f_equal decode_path_component) in Et, Ew, Ep.
  rewrite !decode_encode_path_component in *. by subst.
Qed.

Lemma pipeline_roots_disjoint_witness :
  ∃ p, PipelinePaths_new (str "/data") {| tenant := str "a b"; workspace := str "w";
         pipeline := str "p" |} = Ok p ∧ root p = str "/data/clustered/a%20b/w/p" ∧
  ∀ k', PipelinePaths_new (str "/data") k' = Ok p →
    {| tenant := str "a b"; workspace := str "w"; pipeline := str "p" |} = k'.
Proof.
  eexists. split; [reflexivity|]. split; [reflexivity|].
  intros k' H. eapply pipeline_roots_disjoint; [reflexivity|exact H|reflexivity].
Defined.

(** [clip_error_detail] bounds what an error may print: whenever it returns, the
    text is the detail itself or at most 64 bytes longer than the ceiling, for any
    detail whose length fits a [usize]. *)
Theorem clip_error_detail_bounded detail out :
  (N.of_nat (length detail) ≤ U64_MAX)%N →
  clip_error_detail detail = Some out →
  length out ≤ DURABLE_ERROR_DISPLAY_CEILING + 64.
Proof.
  unfold clip_error_detail. intros Hlen. case_decide as Hle; [intros; simplify_eq; lia|].
  case_match; [|done]. intros ?; simplify_eq.
  pose proof (display_u64_length _ Hlen) as Hd.
  rewrite !length_app, length_take.
  change (length (str "… (truncated, ")) with 16.
  change (length (str " bytes)")) with 7. lia.
Qed.

Lemma clip_error_detail_bounded_witness :
  length (default [] (clip_error_detail (replicate 600 x61))) ≤ 576.
Proof.
  eapply (clip_error_detail_bounded (replicate 600 x61));
    [vm_compute; congruence|vm_compute; reflexivity].
Defined.

(** [clip_error_detail] slices the text at byte 512 whatever is there: a detail
    longer than the ceiling whose 512th byte continues a multi-byte character makes
    it panic instead of clipping (511 ASCII letters followed by "é" is one). *)
Theorem clip_error_detail_panics detail c :
  detail !! DURABLE_ERROR_DISPLAY_CEILING = Some c → is_cont c = true →
  clip_error_detail detail = None.
Proof.
  intros Hl Hc. unfold clip_error_detail, is_char_boundary. rewrite Hl, Hc.
  apply lookup_lt_Some in Hl. rewrite decide_False by lia. done.
Qed.

Lemma clip_error_detail_panics_witness :
  let detail := replicate 511 x61 ++ str "é" in
  utf8_valid detail = true ∧ clip_error_detail detail = None.
Proof.
  split; [vm_compute; reflexivity|].
  eapply clip_error_detail_panics; vm_compute; reflexivity.
Defined.
