(* ===== verification/CatalogKey.v ===== *)
(** * CatalogKey: the key codec of the WAL catalog

    Models crates/skippr-wal-catalog/src/key.rs: the typed keys, their textual
    form (the sort key of the catalog family) and the prefixes of the scans. *)

From S2P Require Import Prelude Bytes Text Lease.

(** ** Data *)

Record CompactionId : Type := { compaction_id_str : bytes }.
Record CheckpointKey : Type := { checkpoint_key_str : bytes }.
Record OffsetHintKey : Type := { hint_namespace : bytes; hint_partition : bytes }.

Definition CompactionId_new (raw : bytes) : result PathError CompactionId :=
  validate_path_component raw ;?
  Ok {| compaction_id_str := raw |}.

Definition CheckpointKey_new (raw : bytes) : result PathError CheckpointKey :=
  validate_path_component raw ;?
  Ok {| checkpoint_key_str := raw |}.

Definition OffsetHintKey_new (namespace partition : bytes) : result PathError OffsetHintKey :=
  validate_path_component namespace ;?
  validate_path_component partition ;?
  Ok {| hint_namespace := namespace; hint_partition := partition |}.

Inductive CatalogPrefix : Type :=
| PSegment | PIndex | PLegacySlice | PCompaction | PCheckpoint | POffsetHint.

Definition CatalogPrefix_ALL : list CatalogPrefix :=
  [PSegment; PIndex; PLegacySlice; PCompaction; PCheckpoint; POffsetHint].

Definition prefix_str (p : CatalogPrefix) : bytes :=
  match p with
  | PSegment => str "wal#seg#"
  | PIndex => str "wal#idx#"
  | PLegacySlice => str "wal#slice#"
  | PCompaction => str "wal#cmp#"
  | PCheckpoint => str "wal#cp#"
  | POffsetHint => str "wal#hint#"
  end.

Inductive CatalogKey : Type :=
| KSegment (id : SegmentId)
| KIndex (id : SegmentId)
| KLegacySlice (segment_id : SegmentId) (ordinal : N)
| KCompaction (id : CompactionId)
| KCheckpoint (key : CheckpointKey)
| KOffsetHint (key : OffsetHintKey)
| KSeq
| KFormat.

(** ** Codec *)

Definition encode_key (k : CatalogKey) : bytes :=
  match k with
  | KSegment id => str "wal#seg#" ++ segment_id_str id
  | KIndex id => str "wal#idx#" ++ segment_id_str id
  | KLegacySlice id ordinal =>
      str "wal#slice#" ++ segment_id_str id ++ x23 :: display_N ordinal
  | KCompaction id => str "wal#cmp#" ++ compaction_id_str id
  | KCheckpoint key => str "wal#cp#" ++ checkpoint_key_str key
  | KOffsetHint key => str "wal#hint#" ++ hint_namespace key ++ x23 :: hint_partition key
  | KSeq => str "wal#seq"
  | KFormat => str "wal#format"
  end.

Definition decode_slice (sk rest : bytes) : result PathError CatalogKey :=
  match rsplit_once x23 rest with
  | None => Err (InvalidComponent (str "slice SK must be wal#slice#seg#ordinal: " ++ sk))
  | Some (segment, ordinal) =>
      match parse_N U32_MAX ordinal with
      | None => Err (InvalidComponent (str "slice ordinal is not u32: " ++ sk))
      | Some n => let? id := SegmentId_new segment in Ok (KLegacySlice id n)
      end
  end.

Definition decode_hint (sk rest : bytes) : result PathError CatalogKey :=
  match split_once x23 rest with
  | None => Err (InvalidComponent (str "offset hint SK must be wal#hint#ns#part: " ++ sk))
  | Some (namespace, partition) =>
      let? k := OffsetHintKey_new namespace partition in Ok (KOffsetHint k)
  end.

Definition decode_key (sk : bytes) : result PathError CatalogKey :=
  if decide (sk = str "wal#seq") then Ok KSeq
  else if decide (sk = str "wal#format") then Ok KFormat
  else match strip_prefix (str "wal#seg#") sk with
  | Some rest => let? id := SegmentId_new rest in Ok (KSegment id)
  | None =>
  match strip_prefix (str "wal#idx#") sk with
  | Some rest => let? id := SegmentId_new rest in Ok (KIndex id)
  | None =>
  match strip_prefix (str "wal#slice#") sk with
  | Some rest => decode_slice sk rest
  | None =>
  match strip_prefix (str "wal#cmp#") sk with
  | Some rest => let? id := CompactionId_new rest in Ok (KCompaction id)
  | None =>
  match strip_prefix (str "wal#cp#") sk with
  | Some rest => let? k := CheckpointKey_new rest in Ok (KCheckpoint k)
  | None =>
  match strip_prefix (str "wal#hint#") sk with
  | Some rest => decode_hint sk rest
  | None => Err (InvalidComponent (str "unknown catalog SK: " ++ sk))
  end end end end end end.

(** ** Instances *)

#[global] Instance CompactionId_eq_dec : EqDecision CompactionId.
Proof. solve_decision. Defined.
#[global] Instance CheckpointKey_eq_dec : EqDecision CheckpointKey.
Proof. solve_decision. Defined.
#[global] Instance OffsetHintKey_eq_dec : EqDecision OffsetHintKey.
Proof. solve_decision. Defined.
#[global] Instance CatalogPrefix_eq_dec : EqDecision CatalogPrefix.
Proof. solve_decision. Defined.
#[global] Instance CatalogKey_eq_dec : EqDecision CatalogKey.
Proof. solve_decision. Defined.

#[global] Instance CatalogKey_countable : Countable CatalogKey.
Proof.
  apply (inj_countable'
    (λ k, match k with
      | KSegment (Build_SegmentId s) => (0, s, [], 0%N)
      | KIndex (Build_SegmentId s) => (1, s, [], 0%N)
      | KLegacySlice (Build_SegmentId s) n => (2, s, [], n)
      | KCompaction (Build_CompactionId s) => (3, s, [], 0%N)
      | KCheckpoint (Build_CheckpointKey s) => (4, s, [], 0%N)
      | KOffsetHint (Build_OffsetHintKey n p) => (5, n, p, 0%N)
      | KSeq => (6, [], [], 0%N)
      | KFormat => (7, [], [], 0%N)
      end)
    (λ t, match t with
      | (0, s, _, _) => KSegment (Build_SegmentId s)
      | (1, s, _, _) => KIndex (Build_SegmentId s)
      | (2, s, _, n) => KLegacySlice (Build_SegmentId s) n
      | (3, s, _, _) => KCompaction (Build_CompactionId s)
      | (4, s, _, _) => KCheckpoint (Build_CheckpointKey s)
      | (5, n, p, _) => KOffsetHint (Build_OffsetHintKey n p)
      | (6, _, _, _) => KSeq
      | _ => KFormat
      end)).
  by intros [[]|[]|[]|[]|[]|[]| |].
Defined.

(** ** Well-formed keys: those the constructors of the crate can build *)

Definition wf_key (k : CatalogKey) : Prop :=
  match k with
  | KSegment id | KIndex id => valid_component (segment_id_str id)
  | KLegacySlice id n => valid_component (segment_id_str id) ∧ (n ≤ U32_MAX)%N
  | KCompaction id => valid_component (compaction_id_str id)
  | KCheckpoint key => valid_component (checkpoint_key_str key)
  | KOffsetHint key =>
      valid_component (hint_namespace key) ∧ valid_component (hint_partition key)
  | KSeq | KFormat => True
  end.

Definition key_prefix (k : CatalogKey) : option CatalogPrefix :=
  match k with
  | KSegment _ => Some PSegment
  | KIndex _ => Some PIndex
  | KLegacySlice _ _ => Some PLegacySlice
  | KCompaction _ => Some PCompaction
  | KCheckpoint _ => Some PCheckpoint
  | KOffsetHint _ => Some POffsetHint
  | KSeq | KFormat => None
  end.

(** ** Lemmas *)

(** A prefix that differs from the front of a literal cannot be stripped. *)
Lemma strip_prefix_none p q r :
  match strip_prefix p q with None => negb (starts_with p q) | Some _ => false end = true →
  strip_prefix p (q ++ r) = None.
Proof.
  revert q; induction p as [|a p IH]; intros [|c q]; simpl; try done.
  unfold strip_prefix; fold strip_prefix. unfold starts_with, strip_prefix; fold strip_prefix.
  intros H. case_decide as Hac; [|done]. subst. apply IH.
  destruct (strip_prefix p q); [done|].
  rewrite decide_True in H by done. done.
Qed.

Lemma decode_slice_encode sk id n :
  wf_key (KLegacySlice id n) →
  decode_slice sk (segment_id_str id ++ x23 :: display_N n) = Ok (KLegacySlice id n).
Proof.
  intros [[Hv _] Hn]. unfold decode_slice.
  rewrite rsplit_once_app by (by apply display_N_not_in).
  rewrite parse_display_N by done.
  rewrite (proj2 (SegmentId_new_Ok _ {| segment_id_str := segment_id_str id |})) by done.
  by destruct id.
Qed.

Lemma decode_hint_encode sk key :
  wf_key (KOffsetHint key) →
  decode_hint sk (hint_namespace key ++ x23 :: hint_partition key) = Ok (KOffsetHint key).
Proof.
  intros [[H1 _] [H2 _]]. unfold decode_hint.
  rewrite split_once_app by eauto using validate_no_hash.
  unfold OffsetHintKey_new. rewrite H1, H2. by destruct key.
Qed.

Lemma decode_encode_key k : wf_key k → decode_key (encode_key k) = Ok k.
Proof.
  intros Hw. destruct k as [id|id|id n|id|key|key| |]; unfold decode_key, encode_key;
    repeat (rewrite decide_False by (intros E; apply (f_equal (take 6)) in E;
      cbv -[app segment_id_str compaction_id_str checkpoint_key_str hint_namespace
            hint_partition display_N] in E; done));
    rewrite ?strip_prefix_none by done; rewrite ?strip_prefix_app; try done.
  - destruct Hw as [Hv _]. unfold SegmentId_new. rewrite Hv. by destruct id.
  - destruct Hw as [Hv _]. unfold SegmentId_new. rewrite Hv. by destruct id.
  - by apply decode_slice_encode.
  - destruct Hw as [Hv _]. unfold CompactionId_new. rewrite Hv. by destruct id.
  - destruct Hw as [Hv _]. unfold CheckpointKey_new. rewrite Hv. by destruct key.
  - by apply decode_hint_encode.
Qed.

Lemma encode_key_inj k k' : wf_key k → wf_key k' → encode_key k = encode_key k' → k = k'.
Proof.
  intros H H' E. apply decode_encode_key in H, H'. congruence.
Qed.

Lemma encode_key_utf8 k : wf_key k → utf8_valid (encode_key k) = true.
Proof.
  assert (∀ p v, utf8_valid p = true → valid_component v → utf8_valid (p ++ v) = true) as H1.
  { intros p v Hp [_ Hv]. by rewrite utf8_valid_app. }
  assert (∀ p v w, utf8_valid p = true → valid_component v → utf8_valid w = true →
    utf8_valid (p ++ v ++ x23 :: w) = true) as H2.
  { intros p v w Hp [_ Hv] Hw. by rewrite !utf8_valid_app, utf8_valid_ascii. }
  destruct k; unfold encode_key, wf_key; intros Hw; try done; try (by apply H1).
  - apply H2; [done|apply Hw|apply display_N_utf8].
  - destruct Hw as [? [_ ?]]. by apply H2.
Qed.

(** The textual prefix of a scan selects exactly the keys of its variant. *)
Lemma starts_with_prefix k p :
  starts_with (encode_key k) (prefix_str p) = bool_decide (key_prefix k = Some p).
Proof.
  unfold starts_with. destruct k, p; unfold encode_key, prefix_str, key_prefix;
    rewrite ?strip_prefix_app; rewrite ?strip_prefix_none by done;
    try (rewrite bool_decide_eq_true_2 by done; done);
    rewrite bool_decide_eq_false_2 by done; done.
Qed.

Lemma utf8_valid_strip p s r :
  utf8_valid p = true → strip_prefix p s = Some r → utf8_valid s = true → utf8_valid r = true.
Proof. intros Hp ->%strip_prefix_Some. by rewrite utf8_valid_app. Qed.

Lemma decode_slice_wf sk rest k :
  utf8_valid rest = true → decode_slice sk rest = Ok k → wf_key k.
Proof.
  unfold decode_slice. intros Hu H.
  destruct (rsplit_once x23 rest) as [[seg o]|] eqn:Es; [|done].
  destruct (parse_N U32_MAX o) as [n|] eqn:Ep; [|done]. inv_res.
  apply SegmentId_new_Ok in H0 as [Hv ->].
  apply rsplit_once_Some in Es as ->. apply utf8_valid_app_ascii in Hu as [Hu _]; [|done].
  split; [by split|]. by eapply parse_N_bound.
Qed.

Lemma decode_hint_wf sk rest k :
  utf8_valid rest = true → decode_hint sk rest = Ok k → wf_key k.
Proof.
  unfold decode_hint. intros Hu H.
  destruct (split_once x23 rest) as [[ns p]|] eqn:Es; [|done].
  unfold OffsetHintKey_new in H. inv_res.
  apply split_once_Some in Es as [-> _]. apply utf8_valid_app_ascii in Hu as [Hu1 Hu2]; [|done].
  repeat match goal with u : unit |- _ => destruct u end. by repeat split.
Qed.

(** ** Properties *)

(** The catalog key codec round trips on every key the crate can build: the
    text [encode] writes is decoded back to the same key, and it is a valid UTF-8
    string, so the store's byte keys can be read back as text. *)
Theorem catalog_key_roundtrip k :
  wf_key k → decode_key (encode_key k) = Ok k ∧ utf8_valid (encode_key k) = true.
Proof. intros H. split; [by apply decode_encode_key|by apply encode_key_utf8]. Qed.

Lemma catalog_key_roundtrip_witness :
  let k := KLegacySlice {| segment_id_str := str "live-seg" |} 4294967295 in
  encode_key k = str "wal#slice#live-seg#4294967295" ∧
  decode_key (encode_key k) = Ok k ∧ utf8_valid (encode_key k) = true.
Proof.
  split; [vm_compute; reflexivity|]. apply catalog_key_roundtrip.
  repeat split; vm_compute; congruence.
Defined.

(** [decode] only produces well-formed keys: whatever text it is given, an
    accepted key satisfies every check of the typed constructors (component
    alphabet, 32-bit ordinal), so decoding cannot forge a key [new] would refuse. *)
Theorem decode_key_wf sk k :
  utf8_valid sk = true → decode_key sk = Ok k → wf_key k.
Proof.
  unfold decode_key. intros Hu H. do 2 (case_decide; [by inv_res|]).
  repeat match type of H with
  | match strip_prefix ?p sk with _ => _ end = _ =>
      destruct (strip_prefix p sk) as [rest|] eqn:?;
      [assert (utf8_valid rest = true) as Hr by (by eapply (utf8_valid_strip p))|]
  end; try done;
    try (by eapply decode_slice_wf); try (by eapply decode_hint_wf);
    unfold SegmentId_new, CompactionId_new, CheckpointKey_new in H; inv_res;
    repeat match goal with u : unit |- _ => destruct u end; hnf; by split.
Qed.

Lemma decode_key_wf_witness :
  wf_key (KOffsetHint {| hint_namespace := str "ns"; hint_partition := str "p-1" |}).
Proof. apply (decode_key_wf (str "wal#hint#ns#p-1")); vm_compute; reflexivity. Defined.
