(* ===== verification/CatalogRow.v ===== *)
(** * CatalogRow: the rows of the WAL catalog

    Models crates/skippr-wal-catalog/src/row.rs and error.rs: the row types, the
    slice-completion bitmap, the row codec with its size ceiling, the conditions
    and operations of a catalog transaction. *)

From S2P Require Import Prelude Bytes Text Lease CatalogKey Codec.

(** ** Errors (error.rs) *)

Inductive CatalogError : Type :=
| TxnFull
| RowTooLarge (n : N)
| Fenced
| ConditionFailed
| VersionMustAdvance
| LegacyRowWrite
| Conflict
| CodecError (detail : bytes)
| IoError (detail : bytes)
| SeqOpOnNonSeqKey
| WrongPayloadLayer.

#[global] Instance CatalogError_eq_dec : EqDecision CatalogError.
Proof. solve_decision. Defined.

(** ** Sequence numbers and the writer fence *)

Definition ROW_MAX_BYTES : N := 4194304.
Definition FORMAT_VERSION : N := 3.

Record CatalogSeq : Type := { seq_get : N }.

Definition CatalogSeq_ZERO : CatalogSeq := {| seq_get := 0 |}.

Definition CatalogSeq_next (s : CatalogSeq) : result CatalogError CatalogSeq :=
  match checked_add U64_MAX (seq_get s) 1 with
  | Some v => Ok {| seq_get := v |}
  | None => Err (CodecError (str "catalog seq overflow"))
  end.

Record CatalogFence : Type := { fence_owner : NodeId; fence_epoch : LeaseEpoch }.

Definition CatalogFence_local : CatalogFence :=
  {| fence_owner := single_node; fence_epoch := SINGLE_NODE |}.

(** ** Row payloads *)

Record CommittedOffset : Type := {
  off_namespace : bytes;
  off_partition : bytes;
  off_filesize : N;
  off_position : N;
  off_closed : N
}.

Record CommittedCheckpoint : Type := { cp_logical_key : bytes; cp_envelope : bytes }.

Inductive PayloadLocation : Type :=
| Disk (path : bytes)
| S3 (bucket key : bytes).

(** ** Slice completion bitmap

    The byte vector is a list of 8-bit values; indexing past its end is the
    panic [None]. *)

Record SliceBitmap : Type := { bm_slice_count : N; bm_bytes : list N }.

Definition div_ceil (x y : N) : N := ((x + y - 1) / y)%N.

Definition SliceBitmap_new (slice_count : N) : SliceBitmap :=
  {| bm_slice_count := slice_count;
     bm_bytes := replicate (N.to_nat (div_ceil slice_count 8)) 0%N |}.

Definition bit_mask (i : N) : N := N.shiftl 1 (i mod 8).

Definition or_bit (bm : SliceBitmap) (ord : N) : option SliceBitmap :=
  if (bm_slice_count bm <=? ord)%N then Some bm
  else
    let i := N.to_nat (ord / 8) in
    match bm_bytes bm !! i with
    | None => None
    | Some b => Some {| bm_slice_count := bm_slice_count bm;
                        bm_bytes := <[i := N.lor b (bit_mask ord)]> (bm_bytes bm) |}
    end.

Fixpoint or_bits (bm : SliceBitmap) (ordinals : list N) : option SliceBitmap :=
  match ordinals with
  | [] => Some bm
  | ord :: rest => match or_bit bm ord with
                   | None => None
                   | Some bm' => or_bits bm' rest
                   end
  end.

Definition is_done (bm : SliceBitmap) (ordinal : N) : option bool :=
  if (bm_slice_count bm <=? ordinal)%N then Some false
  else match bm_bytes bm !! N.to_nat (ordinal / 8) with
       | None => None
       | Some b => Some (negb (N.land b (bit_mask ordinal) =? 0)%N)
       end.

Fixpoint all_done_from (bs : list N) (i : N) (n : nat) : option bool :=
  match n with
  | O => Some true
  | S n' => match bs !! N.to_nat (i / 8) with
            | None => None
            | Some b => if (N.land b (bit_mask i) =? 0)%N then Some false
                        else all_done_from bs (i + 1) n'
            end
  end.

Definition all_done (bm : SliceBitmap) : option bool :=
  if (bm_slice_count bm =? 0)%N then Some true
  else all_done_from (bm_bytes bm) 0 (N.to_nat (bm_slice_count bm)).

(** ** Rows *)

Record LegacySliceRow : Type := {
  ls_segment_id : SegmentId;
  ls_ordinal : N;
  ls_namespace : bytes;
  ls_partition : bytes;
  ls_start : N;
  ls_len : N;
  ls_codec : N;
  ls_part_meta_start : N;
  ls_part_meta_len : N;
  ls_version : N
}.

Record SliceDirEntry : Type := {
  sd_ordinal : N;
  sd_namespace : bytes;
  sd_partition : bytes;
  sd_event_time : option Z;
  sd_start : N;
  sd_len : N;
  sd_codec : N;
  sd_row_count : option N;
  sd_sink_ref : bytes;
  sd_schema_fingerprint : bytes;
  sd_cdc_meta_hash : option bytes;
  sd_part_meta_start : N;
  sd_part_meta_len : N
}.

Record SegmentIndexRow : Type := {
  si_segment_id : SegmentId;
  si_version : N;
  si_entries : list SliceDirEntry
}.

Record SegmentRow : Type := {
  sr_segment_id : SegmentId;
  sr_seq : CatalogSeq;
  sr_location : PayloadLocation;
  sr_payload_len : N;
  sr_payload_sha256 : bytes;
  sr_slice_count : N;
  sr_done : SliceBitmap;
  sr_offsets : list CommittedOffset;
  sr_checkpoints : list CommittedCheckpoint;
  sr_epoch : LeaseEpoch;
  sr_version : N
}.

Inductive CompactionState : Type := Pending | Sent | Acked.

Record CompactionRow : Type := {
  cr_id : CompactionId;
  cr_state : CompactionState;
  cr_body : bytes;
  cr_version : N
}.

Inductive ControlBody : Type :=
| CBCheckpoint (logical_key envelope : bytes)
| CBOffsetHint (position : N) (closed : bool).

Record ControlRow : Type := {
  ct_seq : CatalogSeq;
  ct_epoch : LeaseEpoch;
  ct_body : ControlBody;
  ct_version : N
}.

Record SeqRow : Type := { max_seq : CatalogSeq }.

Inductive FormatPhase : Type := Imported | Clean.

Record FormatRow : Type := {
  fr_version : N;
  fr_phase : FormatPhase;
  fr_row_version : N
}.

Inductive CatalogRow : Type :=
| RSegment (row : SegmentRow)
| RIndex (row : SegmentIndexRow)
| RLegacySlice (row : LegacySliceRow)
| RCompaction (row : CompactionRow)
| RControl (row : ControlRow)
| RSeq (row : SeqRow)
| RFormat (row : FormatRow).

Section row_codec.
Context {RC : Codec CatalogRow}.

Definition encode_row (row : CatalogRow) : result CatalogError bytes :=
  let? bs := map_err CodecError (serialize row) in
  if (ROW_MAX_BYTES <? N.of_nat (length bs))%N
  then Err (RowTooLarge (N.of_nat (length bs)))
  else Ok bs.

Definition decode_row (bs : bytes) : result CatalogError CatalogRow :=
  if (ROW_MAX_BYTES <? N.of_nat (length bs))%N
  then Err (RowTooLarge (N.of_nat (length bs)))
  else map_err CodecError (deserialize bs).
End row_codec.

Definition row_version_field (row : CatalogRow) : option N :=
  match row with
  | RSegment r => Some (sr_version r)
  | RIndex r => Some (si_version r)
  | RLegacySlice r => Some (ls_version r)
  | RCompaction r => Some (cr_version r)
  | RControl r => Some (ct_version r)
  | RFormat r => Some (fr_row_version r)
  | RSeq _ => None
  end.

(** ** Conditions and operations *)

Inductive PutCond : Type :=
| NotExists
| SameSha
| PVersion (expected : N)
| SeqAdvance.

Inductive DeleteCond : Type :=
| Exists_
| DVersion (expected : N).

Inductive CatalogOp : Type :=
| OpPut (key : CatalogKey) (row : CatalogRow) (cond : PutCond)
| OpDelete (key : CatalogKey) (cond : DeleteCond).

Definition encoded_len `{Codec CatalogRow} (op : CatalogOp) : result CatalogError N :=
  match op with
  | OpPut _ row _ => let? bs := encode_row row in Ok (N.of_nat (length bs))
  | OpDelete _ _ => Ok 0%N
  end.

(** ** Row codec lemmas *)

Section row_codec_facts.
Context {RC : Codec CatalogRow}.

Lemma decode_encode_row row bs : encode_row row = Ok bs → decode_row bs = Ok row.
Proof.
  unfold encode_row, decode_row. intros H. inv_res.
  case_match eqn:E; [done|]. inv_res. rewrite E.
  by rewrite (deserialize_serialize row).
Qed.

Lemma encode_row_inj row row' bs :
  encode_row row = Ok bs → encode_row row' = Ok bs → row = row'.
Proof. intros H1%decode_encode_row H2%decode_encode_row. congruence. Qed.
End row_codec_facts.

(** ** Decidable equality and countability of the rows *)

#[global] Instance CatalogSeq_eq_dec : EqDecision CatalogSeq.
Proof. solve_decision. Defined.
#[global] Instance CatalogFence_eq_dec : EqDecision CatalogFence.
Proof. solve_decision. Defined.
#[global] Instance CommittedOffset_eq_dec : EqDecision CommittedOffset.
Proof. solve_decision. Defined.
#[global] Instance CommittedCheckpoint_eq_dec : EqDecision CommittedCheckpoint.
Proof. solve_decision. Defined.
#[global] Instance PayloadLocation_eq_dec : EqDecision PayloadLocation.
Proof. solve_decision. Defined.
#[global] Instance SliceBitmap_eq_dec : EqDecision SliceBitmap.
Proof. solve_decision. Defined.
#[global] Instance LegacySliceRow_eq_dec : EqDecision LegacySliceRow.
Proof. solve_decision. Defined.
#[global] Instance SliceDirEntry_eq_dec : EqDecision SliceDirEntry.
Proof. solve_decision. Defined.
#[global] Instance SegmentIndexRow_eq_dec : EqDecision SegmentIndexRow.
Proof. solve_decision. Defined.
#[global] Instance SegmentRow_eq_dec : EqDecision SegmentRow.
Proof. solve_decision. Defined.
#[global] Instance CompactionState_eq_dec : EqDecision CompactionState.
Proof. solve_decision. Defined.
#[global] Instance CompactionRow_eq_dec : EqDecision CompactionRow.
Proof. solve_decision. Defined.
#[global] Instance ControlBody_eq_dec : EqDecision ControlBody.
Proof. solve_decision. Defined.
#[global] Instance ControlRow_eq_dec : EqDecision ControlRow.
Proof. solve_decision. Defined.
#[global] Instance SeqRow_eq_dec : EqDecision SeqRow.
Proof. solve_decision. Defined.
#[global] Instance FormatPhase_eq_dec : EqDecision FormatPhase.
Proof. solve_decision. Defined.
#[global] Instance FormatRow_eq_dec : EqDecision FormatRow.
Proof. solve_decision. Defined.
#[global] Instance CatalogRow_eq_dec : EqDecision CatalogRow.
Proof. solve_decision. Defined.

#[global] Instance CatalogSeq_countable : Countable CatalogSeq.
Proof. apply (inj_countable' seq_get Build_CatalogSeq). by intros []. Defined.
#[global] Instance LeaseEpoch_countable : Countable LeaseEpoch.
Proof. apply (inj_countable' epoch_get Build_LeaseEpoch). by intros []. Defined.
#[global] Instance CompactionId_countable : Countable CompactionId.
Proof. apply (inj_countable' compaction_id_str Build_CompactionId). by intros []. Defined.
#[global] Instance CommittedOffset_countable : Countable CommittedOffset.
Proof.
  apply (inj_countable'
    (λ o, (off_namespace o, off_partition o, off_filesize o, off_position o, off_closed o))
    (λ '(a, b, c, d, e), Build_CommittedOffset a b c d e)). by intros [].
Defined.
#[global] Instance CommittedCheckpoint_countable : Countable CommittedCheckpoint.
Proof.
  apply (inj_countable' (λ c, (cp_logical_key c, cp_envelope c))
    (λ '(a, b), Build_CommittedCheckpoint a b)). by intros [].
Defined.
#[global] Instance PayloadLocation_countable : Countable PayloadLocation.
Proof.
  apply (inj_countable'
    (λ l, match l with Disk p => inl p | S3 b k => inr (b, k) end)
    (λ s, match s with inl p => Disk p | inr (b, k) => S3 b k end)). by intros [].
Defined.
#[global] Instance SliceBitmap_countable : Countable SliceBitmap.
Proof.
  apply (inj_countable' (λ b, (bm_slice_count b, bm_bytes b))
    (λ '(a, b), Build_SliceBitmap a b)). by intros [].
Defined.
#[global] Instance LegacySliceRow_countable : Countable LegacySliceRow.
Proof.
  apply (inj_countable'
    (λ r, (ls_segment_id r, ls_ordinal r, ls_namespace r, ls_partition r, ls_start r, ls_len r,
           ls_codec r, ls_part_meta_start r, ls_part_meta_len r, ls_version r))
    (λ '(a, b, c, d, e, f, g, h, i, j), Build_LegacySliceRow a b c d e f g h i j)).
  by intros [].
Defined.
#[global] Instance SliceDirEntry_countable : Countable SliceDirEntry.
Proof.
  apply (inj_countable'
    (λ r, (sd_ordinal r, sd_namespace r, sd_partition r, sd_event_time r, sd_start r, sd_len r,
           sd_codec r, sd_row_count r, sd_sink_ref r, sd_schema_fingerprint r,
           sd_cdc_meta_hash r, sd_part_meta_start r, sd_part_meta_len r))
    (λ '(a, b, c, d, e, f, g, h, i, j, k, l, m),
       Build_SliceDirEntry a b c d e f g h i j k l m)).
  by intros [].
Defined.
#[global] Instance SegmentIndexRow_countable : Countable SegmentIndexRow.
Proof.
  apply (inj_countable' (λ r, (si_segment_id r, si_version r, si_entries r))
    (λ '(a, b, c), Build_SegmentIndexRow a b c)). by intros [].
Defined.
#[global] Instance SegmentRow_countable : Countable SegmentRow.
Proof.
  apply (inj_countable'
    (λ r, (sr_segment_id r, sr_seq r, sr_location r, sr_payload_len r, sr_payload_sha256 r,
           sr_slice_count r, sr_done r, sr_offsets r, sr_checkpoints r, sr_epoch r, sr_version r))
    (λ '(a, b, c, d, e, f, g, h, i, j, k), Build_SegmentRow a b c d e f g h i j k)).
  by intros [].
Defined.
#[global] Instance CompactionState_countable : Countable CompactionState.
Proof.
  apply (inj_countable' (λ s, match s with Pending => 0 | Sent => 1 | Acked => 2 end)
    (λ n, match n with 0 => Pending | 1 => Sent | _ => Acked end)). by intros [].
Defined.
#[global] Instance CompactionRow_countable : Countable CompactionRow.
Proof.
  apply (inj_countable' (λ r, (cr_id r, cr_state r, cr_body r, cr_version r))
    (λ '(a, b, c, d), Build_CompactionRow a b c d)). by intros [].
Defined.
#[global] Instance ControlBody_countable : Countable ControlBody.
Proof.
  apply (inj_countable'
    (λ b, match b with CBCheckpoint l e => inl (l, e) | CBOffsetHint p c => inr (p, c) end)
    (λ s, match s with inl (l, e) => CBCheckpoint l e | inr (p, c) => CBOffsetHint p c end)).
  by intros [].
Defined.
#[global] Instance ControlRow_countable : Countable ControlRow.
Proof.
  apply (inj_countable' (λ r, (ct_seq r, ct_epoch r, ct_body r, ct_version r))
    (λ '(a, b, c, d), Build_ControlRow a b c d)). by intros [].
Defined.
#[global] Instance SeqRow_countable : Countable SeqRow.
Proof. apply (inj_countable' max_seq Build_SeqRow). by intros []. Defined.
#[global] Instance FormatRow_countable : Countable FormatRow.
Proof.
  apply (inj_countable'
    (λ r, (fr_version r, bool_decide (fr_phase r = Clean), fr_row_version r))
    (λ '(a, b, c), Build_FormatRow a (if b : bool then Clean else Imported) c)).
  by intros [? [] ?].
Defined.
#[global] Instance CatalogRow_countable : Countable CatalogRow.
Proof.
  apply (inj_countable'
    (λ r, match r with
      | RSegment r => inl (inl r) | RIndex r => inl (inr r)
      | RLegacySlice r => inr (inl (inl r)) | RCompaction r => inr (inl (inr r))
      | RControl r => inr (inr (inl r)) | RSeq r => inr (inr (inr (inl r)))
      | RFormat r => inr (inr (inr (inr r))) end)
    (λ s, match s with
      | inl (inl r) => RSegment r | inl (inr r) => RIndex r
      | inr (inl (inl r)) => RLegacySlice r | inr (inl (inr r)) => RCompaction r
      | inr (inr (inl r)) => RControl r | inr (inr (inr (inl r))) => RSeq r
      | inr (inr (inr (inr r))) => RFormat r end)).
  by intros [].
Defined.

(** ** The bitmap as a set of finished ordinals *)

Definition wf_bitmap (bm : SliceBitmap) : Prop :=
  length (bm_bytes bm) = N.to_nat (div_ceil (bm_slice_count bm) 8).

Definition done_at (bm : SliceBitmap) (i : N) : bool :=
  (i <? bm_slice_count bm)%N &&
  match bm_bytes bm !! N.to_nat (i / 8) with
  | Some b => N.testbit b (i mod 8)
  | None => false
  end.

Lemma land_bit_mask b k : (N.land b (N.shiftl 1 k) =? 0)%N = negb (N.testbit b k).
Proof.
  rewrite N.shiftl_1_l. destruct (N.testbit b k) eqn:E; simpl.
  - apply N.eqb_neq. intros H. apply (f_equal (λ x, N.testbit x k)) in H.
    rewrite N.land_spec, N.pow2_bits_true, E, N.bits_0 in H. done.
  - apply N.eqb_eq, N.bits_inj. intros i. rewrite N.land_spec, N.bits_0.
    destruct (decide (i = k)) as [->|Hne]; [by rewrite E|].
    rewrite N.pow2_bits_false by congruence. by rewrite andb_false_r.
Qed.

Lemma lor_bit_mask b k i : N.testbit (N.lor b (N.shiftl 1 k)) i = N.testbit b i || (i =? k)%N.
Proof.
  rewrite N.shiftl_1_l, N.lor_spec. f_equal. destruct (N.eqb_spec i k) as [->|Hne].
  - apply N.pow2_bits_true.
  - by apply N.pow2_bits_false.
Qed.

Lemma wf_bitmap_lookup bm i :
  wf_bitmap bm → (i < bm_slice_count bm)%N → ∃ b, bm_bytes bm !! N.to_nat (i / 8) = Some b.
Proof.
  intros Hwf Hi. apply lookup_lt_is_Some_2. rewrite Hwf. unfold div_ceil.
  assert (i / 8 < (bm_slice_count bm + 8 - 1) / 8)%N; [|lia].
  apply (N.lt_le_trans _ ((i + 8) / 8)).
  - rewrite <- (N.mul_1_l 8) at 2. rewrite N.div_add by done. lia.
  - apply N.Div0.div_le_mono. lia.
Qed.

Lemma is_done_wf bm i : wf_bitmap bm → is_done bm i = Some (done_at bm i).
Proof.
  intros Hwf. unfold is_done, done_at.
  destruct (N.leb_spec (bm_slice_count bm) i) as [H|H];
    [by rewrite (proj2 (N.ltb_ge _ _))|].
  rewrite (proj2 (N.ltb_lt _ _)) by done.
  destruct (wf_bitmap_lookup bm i Hwf H) as [b ->].
  unfold bit_mask. by rewrite land_bit_mask, negb_involutive.
Qed.

Lemma N_div_mod_8_eq i j : (i / 8 = j / 8 → i mod 8 = j mod 8 → i = j)%N.
Proof.
  intros H1 H2. rewrite (N.div_mod i 8), (N.div_mod j 8) by done. by rewrite H1, H2.
Qed.

Lemma or_bit_spec bm ord :
  wf_bitmap bm → ∃ bm', or_bit bm ord = Some bm' ∧ wf_bitmap bm' ∧
    bm_slice_count bm' = bm_slice_count bm ∧
    ∀ i, done_at bm' i = done_at bm i || ((i <? bm_slice_count bm) && (i =? ord))%N.
Proof.
  intros Hwf. unfold or_bit. destruct (N.leb_spec (bm_slice_count bm) ord) as [H|H].
  { exists bm. split_and!; try done. intros i.
    destruct (N.ltb_spec i (bm_slice_count bm)), (N.eqb_spec i ord); try lia;
      by rewrite ?andb_false_r, orb_false_r. }
  destruct (wf_bitmap_lookup bm ord Hwf H) as [b Hb]. rewrite Hb.
  eexists. split_and!; [done| |done|].
  { unfold wf_bitmap. simpl. by rewrite length_insert. }
  intros i. unfold done_at. simpl.
  destruct (N.ltb_spec i (bm_slice_count bm)); simpl; [|done].
  destruct (decide (N.to_nat (ord / 8) = N.to_nat (i / 8))) as [E|E].
  - rewrite <- E, list_lookup_insert_eq, Hb by (by eapply lookup_lt_Some).
    unfold bit_mask. rewrite lor_bit_mask. f_equal.
    destruct (N.eqb_spec i ord) as [->|Hne]; [apply N.eqb_refl|].
    apply N.eqb_neq. intros Hm. apply Hne, N_div_mod_8_eq; [lia|done].
  - rewrite list_lookup_insert_ne by done.
    destruct (N.eqb_spec i ord) as [->|Hne]; [done|]. by rewrite orb_false_r.
Qed.

Lemma or_bits_spec ords bm :
  wf_bitmap bm → ∃ bm', or_bits bm ords = Some bm' ∧ wf_bitmap bm' ∧
    bm_slice_count bm' = bm_slice_count bm ∧
    ∀ i, done_at bm' i = done_at bm i || ((i <? bm_slice_count bm)%N && bool_decide (i ∈ ords)).
Proof.
  revert bm; induction ords as [|ord ords IH]; intros bm Hwf; cbn [or_bits].
  { exists bm. split_and!; try done. intros i.
    rewrite bool_decide_eq_false_2 by apply not_elem_of_nil.
    by rewrite andb_false_r, orb_false_r. }
  destruct (or_bit_spec bm ord Hwf) as (bm1 & -> & Hwf1 & Hc1 & H1).
  destruct (IH bm1 Hwf1) as (bm2 & -> & Hwf2 & Hc2 & H2).
  exists bm2. split_and!; try done; [congruence|]. intros i. rewrite H2, H1, Hc1.
  destruct (N.ltb_spec i (bm_slice_count bm)); simpl; [|by rewrite !orb_false_r].
  rewrite <- orb_assoc. f_equal. destruct (N.eqb_spec i ord) as [->|Hne]; simpl.
  - symmetry. apply bool_decide_eq_true. by left.
  - apply bool_decide_ext. rewrite elem_of_cons. naive_solver.
Qed.

Lemma all_done_from_spec bm i n :
  wf_bitmap bm → (i + N.of_nat n ≤ bm_slice_count bm)%N →
  ∃ b, all_done_from (bm_bytes bm) i n = Some b ∧
    (b = true ↔ ∀ j, (i ≤ j < i + N.of_nat n)%N → done_at bm j = true).
Proof.
  intros Hwf. revert i; induction n as [|n IH]; intros i Hi.
  { exists true. split; [done|]. split; [intros _ j ?; lia|done]. }
  cbn [all_done_from]. destruct (wf_bitmap_lookup bm i Hwf) as [b Hb]; [lia|]. rewrite Hb.
  unfold bit_mask. rewrite land_bit_mask.
  assert (done_at bm i = N.testbit b (i mod 8)) as Hd.
  { unfold done_at. rewrite Hb, (proj2 (N.ltb_lt _ _)) by lia. done. }
  destruct (N.testbit b (i mod 8)); simpl.
  - destruct (IH (i + 1)%N) as (b' & -> & Hb'); [lia|]. exists b'. split; [done|].
    rewrite Hb'. split; intros H j Hj.
    + destruct (decide (j = i)) as [->|]; [done|]. apply H. lia.
    + apply H. lia.
  - exists false. split; [done|]. split; [done|]. intros H. rewrite <- Hd. apply H. lia.
Qed.

(** ** Properties *)

(** Marking slices done is set union, at every byte boundary: on a bitmap of the
    right size [or_bits] does not panic, keeps the size, and afterwards exactly the
    previously finished ordinals and the given ones below [slice_count] are done
    (ordinals past the end are ignored). *)
Theorem slice_bitmap_or_bits_union bm ords :
  wf_bitmap bm →
  ∃ bm', or_bits bm ords = Some bm' ∧ wf_bitmap bm' ∧
    ∀ i, is_done bm' i = Some (default false (is_done bm i)
                               || ((i <? bm_slice_count bm)%N && bool_decide (i ∈ ords))).
Proof.
  intros Hwf. destruct (or_bits_spec ords bm Hwf) as (bm' & Ho & Hwf' & Hc & H).
  exists bm'. split_and!; try done. intros i.
  by rewrite !is_done_wf, H.
Qed.

Lemma slice_bitmap_or_bits_union_witness :
  ∃ bm', or_bits (SliceBitmap_new 10) [0; 9; 700]%N = Some bm' ∧
    is_done bm' 9 = Some true ∧ is_done bm' 8 = Some false.
Proof.
  destruct (slice_bitmap_or_bits_union (SliceBitmap_new 10) [0; 9; 700]%N eq_refl)
    as (bm' & Ho & _ & H).
  exists bm'. split; [exact Ho|]. split; rewrite H; vm_compute; reflexivity.
Defined.

(** [all_done] decides completion: it never panics on a well-sized bitmap and is
    true exactly when every ordinal below [slice_count] is done, so a segment is
    reported complete only when each of its slices has been marked. *)
Theorem slice_bitmap_all_done bm :
  wf_bitmap bm →
  ∃ b, all_done bm = Some b ∧
    (b = true ↔ ∀ i, (i < bm_slice_count bm)%N → is_done bm i = Some true).
Proof.
  intros Hwf. unfold all_done. setoid_rewrite is_done_wf; [|done].
  destruct (N.eqb_spec (bm_slice_count bm) 0) as [Hz|Hz].
  { exists true. split; [done|]. split; [intros _ i ?; lia|done]. }
  destruct (all_done_from_spec bm 0 (N.to_nat (bm_slice_count bm)) Hwf) as (b & Hb & Hiff);
    [lia|].
  exists b. split; [done|]. rewrite Hiff. split; intros H i Hi.
  - f_equal. apply H. lia.
  - assert (Some (done_at bm i) = Some true) by (apply H; lia). congruence.
Qed.

Lemma slice_bitmap_all_done_witness :
  ∃ b, all_done (SliceBitmap_new 3) = Some b ∧
    (b = true ↔ ∀ i, (i < 3)%N → is_done (SliceBitmap_new 3) i = Some true).
Proof. apply (slice_bitmap_all_done (SliceBitmap_new 3)). reflexivity. Defined.

(** The row codec is faithful and bounded: a row that [encode] accepts is at
    most [ROW_MAX_BYTES] long and decodes to itself, and bytes over the ceiling are
    refused by [decode] before they reach the deserializer. *)
Theorem catalog_row_codec {RC : Codec CatalogRow} row bs :
  (encode_row row = Ok bs →
    decode_row bs = Ok row ∧ (N.of_nat (length bs) ≤ ROW_MAX_BYTES)%N) ∧
  ((ROW_MAX_BYTES < N.of_nat (length bs))%N →
    decode_row bs = Err (RowTooLarge (N.of_nat (length bs)))).
Proof.
  split.
  - intros H. split; [by apply decode_encode_row|].
    unfold encode_row in H. inv_res. case_match eqn:E; [done|]. inv_res.
    by apply N.ltb_ge in E.
  - intros H. unfold decode_row. by rewrite (proj2 (N.ltb_lt _ _) H).
Qed.

Lemma catalog_row_codec_witness :
  let row := RSeq {| max_seq := {| seq_get := 7 |} |} in
  ∃ bs, @encode_row countable_codec row = Ok bs ∧ @decode_row countable_codec bs = Ok row.
Proof.
  eexists. split; [vm_compute; reflexivity|].
  apply (proj1 (catalog_row_codec (RC := countable_codec) _ _)). vm_compute. reflexivity.
Defined.
