(* ===== verification/Store.v ===== *)
(** * Store: the Skippr Store key-value interface and its implementations

    Models crates/skippr-wal-catalog/src/kv.rs (families, operations, the store
    traits), memory_kv.rs (the memory store) and the parts of fjall_kv.rs that are
    this repository's code (fence check, batch building, prefix scan); the fjall
    database itself is a parameter. *)

From S2P Require Import Prelude Bytes Text Lease CatalogKey Codec CatalogRow.

(** ** Families and operations (kv.rs) *)

Definition STORE_FORMAT_VERSION : N := 1.

Inductive StoreFamily : Type :=
| StoreMeta | Catalog | Offsets | StreamState | Schema | Journal.

#[global] Instance StoreFamily_eq_dec : EqDecision StoreFamily.
Proof. solve_decision. Defined.

Definition family_prefix (f : StoreFamily) : bytes :=
  match f with
  | StoreMeta => str "store_meta/"
  | Catalog => str "catalog/"
  | Offsets => str "offsets/"
  | StreamState => str "stream_state/"
  | Schema => str "schema/"
  | Journal => str "journal/"
  end.

Definition family_key (f : StoreFamily) (rest : bytes) : bytes := family_prefix f ++ rest.

Definition family_rest (f : StoreFamily) (key : bytes) : option bytes :=
  strip_prefix (family_prefix f) key.

Inductive KvOp : Type :=
| KvPut (key value : bytes)
| KvDelete (key : bytes).

(** The store traits: reads, and writes as stateful operations.  Pinning, which returns a
    reader over the rows of the moment, is an operation of the implementation. *)
Class SkipprStoreRead (S : Type) : Type := {
  kv_get : S → bytes → result CatalogError (option bytes);
  kv_query_prefix : S → bytes → option bytes → N → result CatalogError (list (bytes * bytes))
}.

Class SkipprStore (S : Type) : Type := {
  store_read :: SkipprStoreRead S;
  kv_commit : list KvOp → CatalogFence → st S CatalogError unit;
  kv_flush_durable : st S CatalogError unit
}.

(** ** The memory store (memory_kv.rs)

    [BTreeMap<Vec<u8>, Vec<u8>>] is a finite map together with its ascending
    iteration order. *)

Definition entry_le (e e' : bytes * bytes) : Prop := bytes_le e.1 e'.1.
Definition entry_lt (e e' : bytes * bytes) : Prop := bytes_lt e.1 e'.1.

#[global] Instance entry_le_dec : RelDecision entry_le.
Proof. intros e e'. unfold entry_le. apply _. Defined.
#[global] Instance entry_lt_dec : RelDecision entry_lt.
Proof. intros e e'. unfold entry_lt. apply _. Defined.

Definition entries (rows : gmap bytes bytes) : list (bytes * bytes) :=
  merge_sort entry_le (map_to_list rows).

(** [rows.range(from..)]. *)
Definition range_from (rows : gmap bytes bytes) (from : bytes) : list (bytes * bytes) :=
  filter (λ e, bytes_le from e.1) (entries rows).

Record MemoryInner : Type := {
  mem_rows : gmap bytes bytes;
  mem_fence : option CatalogFence;
  mem_released : bool
}.

Definition Memory_new : MemoryInner :=
  {| mem_rows := ∅; mem_fence := None; mem_released := false |}.

Definition set_writer_fence (o : NodeId) (e : LeaseEpoch) (s : MemoryInner) : MemoryInner :=
  {| mem_rows := mem_rows s;
     mem_fence := Some {| fence_owner := o; fence_epoch := e |};
     mem_released := false |}.

Definition Memory_open (fence : CatalogFence) : MemoryInner :=
  set_writer_fence (fence_owner fence) (fence_epoch fence) Memory_new.

Definition revoke_writer_fence (s : MemoryInner) : MemoryInner :=
  {| mem_rows := mem_rows s; mem_fence := mem_fence s; mem_released := true |}.

Definition check_fence (s : MemoryInner) (fence : CatalogFence) : result CatalogError unit :=
  match mem_fence s with
  | Some owned =>
      if bool_decide (fence_owner owned = fence_owner fence)
         && bool_decide (fence_epoch owned = fence_epoch fence) && negb (mem_released s)
      then Ok tt else Err Fenced
  | None => Err Fenced
  end.

Definition apply_kv_op (rows : gmap bytes bytes) (op : KvOp) : gmap bytes bytes :=
  match op with
  | KvPut key value => <[key := value]> rows
  | KvDelete key => delete key rows
  end.

Definition apply_kv_ops (ops : list KvOp) (rows : gmap bytes bytes) : gmap bytes bytes :=
  foldl apply_kv_op rows ops.

Definition Memory_commit (ops : list KvOp) (fence : CatalogFence)
    : st MemoryInner CatalogError unit :=
  λ s, match check_fence s fence with
       | Err e => (Err e, s)
       | Ok _ => (Ok tt, {| mem_rows := apply_kv_ops ops (mem_rows s);
                            mem_fence := mem_fence s;
                            mem_released := mem_released s |})
       end.

Definition skip_after (after : option bytes) (key : bytes) : bool :=
  match after with
  | Some a => bytes_leb key a
  | None => false
  end.

Fixpoint query_loop (prefix : bytes) (after : option bytes) (limit : N)
    (l : list (bytes * bytes)) (out : list (bytes * bytes)) : list (bytes * bytes) :=
  match l with
  | [] => out
  | (key, value) :: l' =>
      if negb (starts_with key prefix) then out
      else if skip_after after key then query_loop prefix after limit l' out
      else
        let out' := out ++ [(key, value)] in
        if (limit <=? N.of_nat (length out'))%N then out'
        else query_loop prefix after limit l' out'
  end.

Definition query_map (rows : gmap bytes bytes) (prefix : bytes) (after : option bytes)
    (limit : N) : list (bytes * bytes) :=
  query_loop prefix after limit (range_from rows prefix) [].

#[global] Instance Memory_read : SkipprStoreRead MemoryInner := {|
  kv_get s key := Ok (mem_rows s !! key);
  kv_query_prefix s prefix after limit := Ok (query_map (mem_rows s) prefix after limit)
|}.

#[global] Instance Memory_store : SkipprStore MemoryInner := {|
  kv_commit := Memory_commit;
  kv_flush_durable := sret tt
|}.

(** A pin is a copy of the rows at the time it is taken. *)
Record MemoryPin : Type := { pin_rows : gmap bytes bytes }.

Definition Memory_pin (s : MemoryInner) : MemoryPin := {| pin_rows := mem_rows s |}.

#[global] Instance MemoryPin_read : SkipprStoreRead MemoryPin := {|
  kv_get p key := Ok (pin_rows p !! key);
  kv_query_prefix p prefix after limit := Ok (query_map (pin_rows p) prefix after limit)
|}.

(** ** What a store promises

    [contents] is the map a store holds, [accepts] the fence check of its commits.
    Reads return what is there, commits are atomic and fenced. *)

Definition after_ok (after : option bytes) (key : bytes) : Prop :=
  match after with
  | Some a => bytes_lt a key
  | None => True
  end.

#[global] Instance after_ok_dec after key : Decision (after_ok after key).
Proof. destruct after; unfold after_ok; apply _. Defined.

(** The reference of a prefix scan: the first [limit] entries (at least one) whose
    key extends [prefix] and is past [after], in key order. *)
Definition scan (rows : gmap bytes bytes) (prefix : bytes) (after : option bytes) (limit : N)
    : list (bytes * bytes) :=
  takeN (N.max 1 limit)
    (filter (λ e, prefix `prefix_of` e.1 ∧ after_ok after e.1) (entries rows)).

Class StoreLaws (S : Type) `{SkipprStore S} : Type := {
  contents : S → gmap bytes bytes;
  accepts : S → CatalogFence → bool;
  kv_get_spec (s : S) key v : kv_get s key = Ok v → v = contents s !! key;
  kv_query_spec (s : S) prefix after limit l :
    kv_query_prefix s prefix after limit = Ok l → l = scan (contents s) prefix after limit;
  kv_commit_fenced ops fence (s : S) :
    accepts s fence = false → kv_commit ops fence s = (Err Fenced, s);
  kv_commit_Ok ops fence (s s' : S) :
    kv_commit ops fence s = (Ok tt, s') → contents s' = apply_kv_ops ops (contents s);
  kv_commit_Err ops fence (s : S) e s' :
    kv_commit ops fence s = (Err e, s') →
    contents s' = contents s ∨ contents s' = apply_kv_ops ops (contents s);
  kv_commit_accepts ops fence (s : S) : accepts (kv_commit ops fence s).2 = accepts s;
  kv_flush_contents (s : S) : contents (kv_flush_durable s).2 = contents s;
  kv_flush_accepts (s : S) : accepts (kv_flush_durable s).2 = accepts s
}.

(** A store whose medium does not fail. *)
Class StoreTotal (S : Type) `{StoreLaws S} : Prop := {
  kv_get_total (s : S) key : is_ok (kv_get s key) = true;
  kv_query_total (s : S) prefix after limit : is_ok (kv_query_prefix s prefix after limit) = true;
  kv_commit_total ops fence (s : S) :
    accepts s fence = true → is_ok (kv_commit ops fence s).1 = true;
  kv_flush_total (s : S) : is_ok (kv_flush_durable s).1 = true
}.

(** ** Ordered entries *)

#[global] Instance entry_le_trans : Transitive entry_le.
Proof. intros x y z. unfold entry_le. apply bytes_le_trans. Qed.
#[global] Instance entry_le_total : Total entry_le.
Proof. intros x y. unfold entry_le. apply bytes_le_total. Qed.

Lemma entries_perm rows : entries rows ≡ₚ map_to_list rows.
Proof. apply merge_sort_Permutation. Qed.

Lemma elem_of_entries rows k v : (k, v) ∈ entries rows ↔ rows !! k = Some v.
Proof. by rewrite entries_perm, elem_of_map_to_list. Qed.

Lemma NoDup_entries_keys rows : NoDup (entries rows).*1.
Proof. rewrite entries_perm. apply NoDup_fst_map_to_list. Qed.

Lemma StronglySorted_lt l :
  StronglySorted entry_le l → NoDup l.*1 → StronglySorted entry_lt l.
Proof.
  induction 1 as [|x l Hs IH Hf]; csimpl; [constructor|].
  rewrite NoDup_cons. intros [Hx Hnd]. constructor; [by apply IH|].
  apply Forall_forall. intros y Hy. rewrite Forall_forall in Hf.
  unfold entry_lt. rewrite bytes_lt_iff. split; [by apply Hf|].
  intros E. apply Hx. rewrite E. by apply list_elem_of_fmap_2.
Qed.

Lemma entries_sorted rows : StronglySorted entry_lt (entries rows).
Proof.
  apply StronglySorted_lt; [|apply NoDup_entries_keys].
  apply StronglySorted_merge_sort; apply _.
Qed.

Lemma StronglySorted_filter {A} (R : A → A → Prop) (P : A → Prop) `{∀ x, Decision (P x)}
    (l : list A) :
  StronglySorted R l → StronglySorted R (filter P l).
Proof.
  induction 1 as [|x l Hs IH Hf]; [constructor|].
  rewrite filter_cons. case_decide; [|done]. constructor; [done|].
  apply Forall_forall. intros y [_ Hy]%list_elem_of_filter.
  rewrite Forall_forall in Hf. by apply Hf.
Qed.

Lemma entry_lt_irrefl e : ¬ entry_lt e e.
Proof. apply bytes_lt_irrefl. Qed.
Lemma entry_lt_asymm e e' : entry_lt e e' → entry_lt e' e → False.
Proof.
  unfold entry_lt. rewrite !bytes_lt_iff. intros [H1 Hne] [H2 _].
  apply Hne. by apply (anti_symm bytes_le).
Qed.

(** ** The scan loop is the reference scan *)

Lemma filter_filter_and {A} (P Q : A → Prop) `{∀ x, Decision (P x)} `{∀ x, Decision (Q x)}
    (l : list A) :
  filter P (filter Q l) = filter (λ x, P x ∧ Q x) l.
Proof.
  induction l as [|x l IH]; [done|]. rewrite !filter_cons.
  repeat case_decide; rewrite ?filter_cons; repeat case_decide; naive_solver congruence.
Qed.

(** The loop may stop at the first key without the prefix: no later key has it. *)
Lemma filter_prefix_stop prefix (P : bytes * bytes → Prop) `{∀ x, Decision (P x)}
    k v (l : list (bytes * bytes)) :
  StronglySorted entry_lt ((k, v) :: l) → bytes_le prefix k → ¬ prefix `prefix_of` k →
  filter (λ e, prefix `prefix_of` e.1 ∧ P e) ((k, v) :: l) = [].
Proof.
  intros Hs Hle Hn. apply filter_none. inversion Hs as [|?? _ Hf]; subst.
  constructor; [naive_solver|]. eapply Forall_impl; [done|].
  intros [k' v'] Hlt [Hp _]. apply Hn. unfold entry_lt in Hlt. simpl in *.
  apply bytes_lt_iff in Hlt as [Hlt _].
  by eapply (prefix_interval prefix prefix k k').
Qed.

Lemma skip_after_ok after k : skip_after after k = bool_decide (¬ after_ok after k).
Proof.
  case_bool_decide as H; destruct after as [a|]; simpl in *; try done.
  apply bytes_not_lt in H. exact H.
Qed.

Lemma query_loop_spec prefix after limit l out :
  StronglySorted entry_lt l → Forall (λ e, bytes_le prefix e.1) l →
  (N.of_nat (length out) < N.max 1 limit)%N →
  query_loop prefix after limit l out =
  out ++ takeN (N.max 1 limit - N.of_nat (length out))
           (filter (λ e, prefix `prefix_of` e.1 ∧ after_ok after e.1) l).
Proof.
  revert out; induction l as [|[k v] l IH]; intros out Hs Hp Hout; simpl query_loop.
  { by rewrite app_nil_r. }
  pose proof Hs as Hs0. inversion Hs as [|?? Hs' Hf]; subst.
  inversion Hp as [|?? Hpk Hp']; subst. simpl in Hpk.
  destruct (starts_with k prefix) eqn:Esw; simpl.
  2:{ rewrite (filter_prefix_stop prefix (λ e, after_ok after e.1)); [|done|done|].
      - by rewrite app_nil_r.
      - rewrite <- starts_with_spec. congruence. }
  apply starts_with_spec in Esw. rewrite skip_after_ok.
  case_bool_decide as Hsk.
  { rewrite IH by done. rewrite filter_cons_False by naive_solver. done. }
  rewrite filter_cons_True by done.
  rewrite length_app; simpl length.
  destruct (N.max 1 limit - N.of_nat (length out))%N as [|q] eqn:Eq; [lia|].
  cbn [takeN]. change (N.pos q =? 0)%N with false. cbv iota.
  destruct (N.leb_spec limit (N.of_nat (length out + 1))) as [Hlim|Hlim].
  - replace (N.pred (N.pos q)) with 0%N by lia.
    by rewrite takeN_take.
  - rewrite IH; [|done|done|rewrite length_app; simpl; lia].
    rewrite <- app_assoc. simpl. do 3 f_equal. rewrite length_app. simpl. lia.
Qed.

Lemma query_map_scan rows prefix after limit :
  query_map rows prefix after limit = scan rows prefix after limit.
Proof.
  unfold query_map, range_from. rewrite query_loop_spec.
  - simpl. rewrite N.sub_0_r, filter_filter_and. unfold scan. f_equal.
    apply list_filter_iff. intros [k v]. simpl.
    split; [naive_solver|]. intros [??]. split; [done|]. by apply bytes_le_prefix.
  - apply StronglySorted_filter, entries_sorted.
  - apply Forall_forall. by intros e [??]%list_elem_of_filter.
  - simpl. lia.
Qed.

(** ** Applying operations *)

Lemma apply_kv_ops_app ops ops' rows :
  apply_kv_ops (ops ++ ops') rows = apply_kv_ops ops' (apply_kv_ops ops rows).
Proof. apply foldl_app. Qed.

Definition op_key (op : KvOp) : bytes :=
  match op with KvPut k _ => k | KvDelete k => k end.

(** Operations do not touch keys they do not name. *)
Lemma apply_kv_ops_other ops rows k :
  k ∉ op_key <$> ops → apply_kv_ops ops rows !! k = rows !! k.
Proof.
  revert rows; induction ops as [|op ops IH]; intros rows; [done|].
  csimpl. rewrite not_elem_of_cons. intros [Hne Hni]. cbn [apply_kv_ops foldl].
  change (apply_kv_ops ops (apply_kv_op rows op) !! k = rows !! k).
  rewrite IH by done. destruct op as [k' v|k']; simpl in *.
  - by rewrite lookup_insert_ne by congruence.
  - by rewrite lookup_delete_ne by congruence.
Qed.

(** ** The memory store keeps the promise *)

Definition memory_accepts (s : MemoryInner) (f : CatalogFence) : bool :=
  is_ok (check_fence s f).

Lemma check_fence_false s f : memory_accepts s f = false → check_fence s f = Err Fenced.
Proof.
  unfold memory_accepts, check_fence. by repeat case_match.
Qed.

Lemma Memory_commit_cases ops f s :
  Memory_commit ops f s =
  if memory_accepts s f
  then (Ok tt, {| mem_rows := apply_kv_ops ops (mem_rows s);
                  mem_fence := mem_fence s; mem_released := mem_released s |})
  else (Err Fenced, s).
Proof.
  unfold Memory_commit. destruct (memory_accepts s f) eqn:E.
  - unfold memory_accepts in E. by destruct (check_fence s f).
  - by rewrite check_fence_false.
Qed.

#[global] Program Instance Memory_laws : StoreLaws MemoryInner := {|
  contents := mem_rows;
  accepts := memory_accepts
|}.
Next Obligation. intros s key v H. simpl in H. by inv_res. Qed.
Next Obligation. intros s p a l r H. simpl in H. inv_res. apply query_map_scan. Qed.
Next Obligation. intros ops f s H. simpl. by rewrite Memory_commit_cases, H. Qed.
Next Obligation.
  intros ops f s s'. simpl. rewrite Memory_commit_cases.
  destruct (memory_accepts s f); naive_solver.
Qed.
Next Obligation.
  intros ops f s e s'. simpl. rewrite Memory_commit_cases.
  destruct (memory_accepts s f); naive_solver.
Qed.
Next Obligation.
  intros ops f s. simpl. rewrite Memory_commit_cases. by destruct (memory_accepts s f).
Qed.
Next Obligation. done. Qed.
Next Obligation. done. Qed.

#[global] Instance Memory_total : StoreTotal MemoryInner.
Proof.
  split; try done. intros ops f s H. simpl in *. by rewrite Memory_commit_cases, H.
Qed.

(** ** The fjall store (fjall_kv.rs)

    The fjall database is not part of this repository.  What the code relies on:
    point reads and prefix iteration return what is stored, in key order, or an I/O
    error; a batch commit is atomic; persisting does not change the contents. *)

Class FjallDb (Db : Type) : Type := {
  db_get : Db → bytes → result bytes (option bytes);
  db_prefix : Db → bytes → list (result bytes (bytes * bytes));
  db_batch_commit : list KvOp → st Db bytes unit;
  db_persist : st Db bytes unit;
  db_contents : Db → gmap bytes bytes;
  db_get_spec d key v : db_get d key = Ok v → v = db_contents d !! key;
  db_prefix_spec d prefix :
    Forall2 (λ r e, r = Ok e ∨ is_ok r = false) (db_prefix d prefix)
      (filter (λ e, prefix `prefix_of` e.1) (entries (db_contents d)));
  db_batch_Ok ops d d' :
    db_batch_commit ops d = (Ok tt, d') → db_contents d' = apply_kv_ops ops (db_contents d);
  db_batch_Err ops d e d' :
    db_batch_commit ops d = (Err e, d') →
    db_contents d' = db_contents d ∨ db_contents d' = apply_kv_ops ops (db_contents d);
  db_persist_contents d : db_contents (db_persist d).2 = db_contents d
}.

Section fjall.
Context {Db : Type} `{FjallDb Db}.

Record FjallInner : Type := { fj_db : Db; fj_fence : CatalogFence }.

Definition fjall_check_fence (s : FjallInner) (fence : CatalogFence)
    : result CatalogError unit :=
  if bool_decide (fence_owner (fj_fence s) = fence_owner fence)
     && bool_decide (fence_epoch (fj_fence s) = fence_epoch fence)
  then Ok tt else Err Fenced.

Definition fjall_commit (ops : list KvOp) (fence : CatalogFence)
    : st FjallInner CatalogError unit :=
  λ s, match fjall_check_fence s fence with
       | Err e => (Err e, s)
       | Ok _ =>
           let '(r, db') := db_batch_commit ops (fj_db s) in
           (map_err IoError r, {| fj_db := db'; fj_fence := fj_fence s |})
       end.

Definition fjall_flush_durable : st FjallInner CatalogError unit :=
  λ s, let '(r, db') := db_persist (fj_db s) in
       (map_err IoError r, {| fj_db := db'; fj_fence := fj_fence s |}).

Definition ks_get (s : FjallInner) (key : bytes) : result CatalogError (option bytes) :=
  map_err IoError (db_get (fj_db s) key).

Fixpoint query_prefix_iter (iter : list (result bytes (bytes * bytes))) (after : option bytes)
    (limit : N) (out : list (bytes * bytes)) : result CatalogError (list (bytes * bytes)) :=
  match iter with
  | [] => Ok out
  | guard :: iter' =>
      match guard with
      | Err e => Err (IoError e)
      | Ok (key, value) =>
          if skip_after after key then query_prefix_iter iter' after limit out
          else
            let out' := out ++ [(key, value)] in
            if (limit <=? N.of_nat (length out'))%N then Ok out'
            else query_prefix_iter iter' after limit out'
      end
  end.

#[global] Instance Fjall_read : SkipprStoreRead FjallInner := {|
  kv_get := ks_get;
  kv_query_prefix s prefix after limit :=
    query_prefix_iter (db_prefix (fj_db s) prefix) after limit []
|}.

#[global] Instance Fjall_store : SkipprStore FjallInner := {|
  kv_commit := fjall_commit;
  kv_flush_durable := fjall_flush_durable
|}.

Lemma query_prefix_iter_spec iter es after limit out l :
  Forall2 (λ (r : result bytes _) e, r = Ok e ∨ is_ok r = false) iter es →
  (N.of_nat (length out) < N.max 1 limit)%N →
  query_prefix_iter iter after limit out = Ok l →
  l = out ++ takeN (N.max 1 limit - N.of_nat (length out)) (filter (λ e, after_ok after e.1) es).
Proof.
  intros Hf. revert out; induction Hf as [|r [k v] iter es Hr Hf IH]; intros out Hout Hq.
  { simpl in Hq. inv_res. by rewrite app_nil_r. }
  cbn [query_prefix_iter] in Hq. destruct Hr as [->|Hr]; [|by destruct r].
  rewrite skip_after_ok in Hq. case_bool_decide as Hsk.
  { rewrite filter_cons_False by done. by apply IH. }
  rewrite filter_cons_True by done.
  destruct (N.max 1 limit - N.of_nat (length out))%N as [|q] eqn:Eq; [lia|].
  cbn [takeN]. change (N.pos q =? 0)%N with false. cbv iota.
  rewrite length_app in Hq; simpl length in Hq.
  destruct (N.leb_spec limit (N.of_nat (length out + 1))) as [Hlim|Hlim].
  - inv_res. replace (N.pred (N.pos q)) with 0%N by lia. by rewrite takeN_take.
  - apply IH in Hq; [|rewrite length_app; simpl; lia].
    rewrite Hq, <- app_assoc. simpl. do 3 f_equal. rewrite length_app. simpl. lia.
Qed.

Definition fjall_accepts (s : FjallInner) (f : CatalogFence) : bool :=
  is_ok (fjall_check_fence s f).

Lemma fjall_commit_cases ops f s :
  fjall_commit ops f s =
  if fjall_accepts s f
  then (map_err IoError (db_batch_commit ops (fj_db s)).1,
        {| fj_db := (db_batch_commit ops (fj_db s)).2; fj_fence := fj_fence s |})
  else (Err Fenced, s).
Proof.
  unfold fjall_commit, fjall_accepts.
  assert (fjall_check_fence s f = Ok tt ∨ fjall_check_fence s f = Err Fenced) as [->| ->].
  { unfold fjall_check_fence. case_match; auto. }
  - simpl. by destruct (db_batch_commit ops (fj_db s)).
  - done.
Qed.

#[global] Program Instance Fjall_laws : StoreLaws FjallInner := {|
  contents s := db_contents (fj_db s);
  accepts := fjall_accepts
|}.
Next Obligation. intros s key v E. simpl in E. unfold ks_get in E. inv_res. by apply db_get_spec. Qed.
Next Obligation.
  intros s prefix after limit l E. simpl in E.
  eapply query_prefix_iter_spec in E; [|apply db_prefix_spec|simpl; lia].
  rewrite E. unfold scan. simpl. rewrite N.sub_0_r, filter_filter_and. f_equal.
  apply list_filter_iff. intros e. tauto.
Qed.
Next Obligation. intros ops f s E. simpl. by rewrite fjall_commit_cases, E. Qed.
Next Obligation.
  intros ops f s s'. simpl. rewrite fjall_commit_cases.
  destruct (fjall_accepts s f); [|done].
  destruct (db_batch_commit ops (fj_db s)) as [[[]|e] d'] eqn:E; simpl; [|done].
  intros [= <-]. simpl. by apply db_batch_Ok.
Qed.
Next Obligation.
  intros ops f s e s'. simpl. rewrite fjall_commit_cases.
  destruct (fjall_accepts s f); [|intros [= _ <-]; by left].
  destruct (db_batch_commit ops (fj_db s)) as [[[]|e'] d'] eqn:E; simpl; [done|].
  intros [= _ <-]. simpl. by eapply db_batch_Err.
Qed.
Next Obligation.
  intros ops f s. simpl. rewrite fjall_commit_cases. by destruct (fjall_accepts s f).
Qed.
Next Obligation.
  intros s. simpl. unfold fjall_flush_durable.
  pose proof (db_persist_contents (fj_db s)). by destruct (db_persist (fj_db s)).
Qed.
Next Obligation.
  intros s. simpl. unfold fjall_flush_durable. by destruct (db_persist (fj_db s)).
Qed.
End fjall.
#[global] Arguments FjallInner : clear implicits.

(** A database that does what is asked of one: the map itself. *)
#[global] Program Instance map_fjall : FjallDb (gmap bytes bytes) := {|
  db_get d key := Ok (d !! key);
  db_prefix d prefix := Ok <$> filter (λ e, prefix `prefix_of` e.1) (entries d);
  db_batch_commit ops d := (Ok tt, apply_kv_ops ops d);
  db_persist d := (Ok tt, d);
  db_contents d := d
|}.
Next Obligation. intros d key v H. by inv_res. Qed.
Next Obligation.
  intros d prefix. apply Forall2_fmap_l. apply Forall_Forall2_diag, Forall_forall.
  intros e _. by left.
Qed.
Next Obligation. intros ops d d' H. simpl in H. by simplify_eq. Qed.
Next Obligation. intros ops d e d' H. simpl in H. by simplify_eq. Qed.
Next Obligation. done. Qed.

(** ** Properties *)

(** The paged prefix scan of the memory store (range from the prefix, stop at
    the first key outside it, skip up to [after], stop at [limit]) returns exactly
    the first entries, in key order, whose key extends the prefix and is past
    [after]: no matching key is missed and none is returned twice. *)
Theorem memory_query_is_scan (s : MemoryInner) prefix after limit :
  kv_query_prefix s prefix after limit = Ok (scan (mem_rows s) prefix after limit).
Proof. simpl. by rewrite query_map_scan. Qed.

(** A writer that lost the fence cannot change the store: once a different
    owner or epoch holds the fence, or the fence is revoked, any sequence of commits
    under the old fence is refused with [Fenced] and leaves every row in place. *)
Theorem stale_writer_harmless (s : MemoryInner) fence batches :
  memory_accepts s fence = false →
  Forall (λ r, r = Err Fenced)
    (imap (λ _ ops, (kv_commit ops fence s).1) batches) ∧
  foldl (λ t ops, (kv_commit ops fence t).2) s batches = s.
Proof.
  intros H. assert (∀ ops, kv_commit ops fence s = (Err Fenced, s)) as Hc.
  { intros ops. by apply kv_commit_fenced. }
  split.
  - apply Forall_forall. intros r (i & ops & -> & _)%elem_of_lookup_imap. by rewrite Hc.
  - induction batches as [|ops batches IH]; [done|]. simpl foldl.
    rewrite Hc. exact IH.
Qed.

Lemma stale_writer_harmless_witness :
  let old := {| fence_owner := single_node; fence_epoch := {| epoch_get := 1 |} |} in
  let s := set_writer_fence single_node {| epoch_get := 2 |}
             (Memory_commit [KvPut (str "a") (str "b")] old (Memory_open old)).2 in
  (kv_commit [KvDelete (str "a")] old s).2 = s ∧ mem_rows s !! str "a" = Some (str "b").
Proof.
  split; [|vm_compute; reflexivity].
  eapply (proj2 (stale_writer_harmless _ _ [[KvDelete (str "a")]] _)).
  Unshelve. vm_compute. reflexivity.
Defined.

(** The stores are interchangeable: two lawful stores (the memory store and the
    fjall store among them) that hold the same contents give the same answers to
    every read that succeeds, and hold the same contents again after the same
    commit succeeds on both. *)
Theorem stores_agree {S1 S2} `{StoreLaws S1} `{StoreLaws S2} (s1 : S1) (s2 : S2) :
  contents s1 = contents s2 →
  (∀ key v1 v2, kv_get s1 key = Ok v1 → kv_get s2 key = Ok v2 → v1 = v2) ∧
  (∀ prefix after limit l1 l2, kv_query_prefix s1 prefix after limit = Ok l1 →
     kv_query_prefix s2 prefix after limit = Ok l2 → l1 = l2) ∧
  (∀ ops f1 f2 s1' s2', kv_commit ops f1 s1 = (Ok tt, s1') →
     kv_commit ops f2 s2 = (Ok tt, s2') → contents s1' = contents s2').
Proof.
  intros E. split_and!.
  - intros key v1 v2 G1%kv_get_spec G2%kv_get_spec. congruence.
  - intros p a l l1 l2 G1%kv_query_spec G2%kv_query_spec. congruence.
  - intros ops f1 f2 s1' s2' G1%kv_commit_Ok G2%kv_commit_Ok. congruence.
Qed.

Lemma stores_agree_witness :
  let f := CatalogFence_local in
  let m := (kv_commit [KvPut (str "k") (str "v")] f (Memory_open f)).2 in
  let d := (kv_commit [KvPut (str "k") (str "v")] f
              {| fj_db := (∅ : gmap bytes bytes); fj_fence := f |}).2 in
  ∀ prefix after limit l1 l2, kv_query_prefix m prefix after limit = Ok l1 →
    kv_query_prefix d prefix after limit = Ok l2 → l1 = l2.
Proof.
  intros f m d. refine (proj1 (proj2 (stores_agree m d _))). vm_compute. reflexivity.
Defined.
