(* ===== verification/Catalog.v ===== *)
(** * Catalog: conditional transactions over the Skippr Store

    Models crates/skippr-wal-catalog/src/txn.rs, apply.rs, store.rs and the catalog
    functions of memory_kv.rs that every store implementation delegates to. *)

From S2P Require Import Prelude Bytes Text Lease CatalogKey Codec CatalogRow Store.

(** ** Transactions (txn.rs) *)

Definition TXN_MAX_OPS : nat := 99.

Record CatalogTxn : Type := { txn_ops : list CatalogOp }.

Definition txn_new : CatalogTxn := {| txn_ops := [] |}.

Inductive Applied : Type :=
| AppliedPut (key : CatalogKey) (bs : bytes)
| AppliedDelete (key : CatalogKey).

Section catalog.
Context {RC : Codec CatalogRow} {DG : Digest}.

Definition txn_push (txn : CatalogTxn) (op : CatalogOp) : result CatalogError CatalogTxn :=
  if decide (TXN_MAX_OPS ≤ length (txn_ops txn)) then Err TxnFull
  else
    match op with
    | OpPut KSeq _ SeqAdvance => Ok tt
    | OpPut _ _ SeqAdvance => Err SeqOpOnNonSeqKey
    | _ => Ok tt
    end ;?
    encoded_len op ;?
    Ok {| txn_ops := txn_ops txn ++ [op] |}.

Definition txn_put (txn : CatalogTxn) (key : CatalogKey) (row : CatalogRow) (cond : PutCond)
    : result CatalogError CatalogTxn := txn_push txn (OpPut key row cond).

Definition txn_delete (txn : CatalogTxn) (key : CatalogKey) (cond : DeleteCond)
    : result CatalogError CatalogTxn := txn_push txn (OpDelete key cond).

(** ** Evaluating a transaction (apply.rs) *)

Definition validate_put (op : CatalogOp) : result CatalogError unit :=
  match op with
  | OpDelete _ _ => Ok tt
  | OpPut _ row cond =>
      match row with
      | RLegacySlice _ => Err LegacyRowWrite
      | _ =>
          match cond with
          | PVersion expected =>
              match checked_add U64_MAX expected 1 with
              | None => Err VersionMustAdvance
              | Some next =>
                  match row_version_field row with
                  | Some got => if (got =? next)%N then Ok tt else Err VersionMustAdvance
                  | None => Err VersionMustAdvance
                  end
              end
          | _ => Ok tt
          end
      end
  end.

Definition row_version (bs : bytes) : result CatalogError N :=
  let? row := decode_row bs in
  ok_or (CodecError (str "SeqRow has no version; use SeqAdvance")) (row_version_field row).

Definition check_put (key : CatalogKey) (row : CatalogRow) (cond : PutCond) (incoming : bytes)
    (existing : option bytes) : result CatalogError unit :=
  match cond with
  | NotExists =>
      match existing with Some _ => Err ConditionFailed | None => Ok tt end
  | SameSha =>
      match existing with
      | None => Err ConditionFailed
      | Some bs => if decide (sha256 bs = sha256 incoming) then Ok tt else Err ConditionFailed
      end
  | PVersion expected =>
      match existing with
      | None => Err ConditionFailed
      | Some bs => let? v := row_version bs in
                   if (v =? expected)%N then Ok tt else Err ConditionFailed
      end
  | SeqAdvance =>
      if decide (key = KSeq) then
        match row with
        | RSeq r =>
            match existing with
            | None => Ok tt
            | Some bs =>
                let? old := decode_row bs in
                match old with
                | RSeq o => if (seq_get (max_seq o) <? seq_get (max_seq r))%N
                            then Ok tt else Err ConditionFailed
                | _ => Err ConditionFailed
                end
            end
        | _ => Err (CodecError (str "SeqAdvance requires SeqRow"))
        end
      else Err SeqOpOnNonSeqKey
  end.

Definition check_delete (cond : DeleteCond) (existing : option bytes)
    : result CatalogError unit :=
  match cond with
  | Exists_ => match existing with None => Err ConditionFailed | Some _ => Ok tt end
  | DVersion expected =>
      match existing with
      | None => Err ConditionFailed
      | Some bs => let? v := row_version bs in
                   if (v =? expected)%N then Ok tt else Err ConditionFailed
      end
  end.

Definition eval_op (get : CatalogKey → result CatalogError (option bytes)) (op : CatalogOp)
    : result CatalogError Applied :=
  validate_put op ;?
  match op with
  | OpPut key row cond =>
      let? incoming := encode_row row in
      let? existing := get key in
      check_put key row cond incoming existing ;?
      Ok (AppliedPut key incoming)
  | OpDelete key cond =>
      let? existing := get key in
      check_delete cond existing ;?
      Ok (AppliedDelete key)
  end.

Definition eval_ops (txn : CatalogTxn) (get : CatalogKey → result CatalogError (option bytes))
    : result CatalogError (list Applied) :=
  rtraverse (eval_op get) (txn_ops txn).

(** ** Catalog operations over any store (memory_kv.rs, store.rs) *)

Definition ckey (k : CatalogKey) : bytes := family_key Catalog (encode_key k).

Definition path_error_display (e : PathError) : bytes :=
  match e with
  | InvalidComponent d => str "invalid path component: " ++ d
  | Overflow d => d
  end.

Section store.
Context {S : Type} `{SkipprStore S}.

Definition catalog_get (s : S) (key : CatalogKey) : result CatalogError (option CatalogRow) :=
  let? bs := kv_get s (ckey key) in
  match bs with
  | None => Ok None
  | Some v => let? row := decode_row v in Ok (Some row)
  end.

Definition decode_entry (e : bytes * bytes) : result CatalogError (CatalogKey * CatalogRow) :=
  let '(key, bs) := e in
  let? rest := ok_or (CodecError (str "catalog key missing family prefix"))
                 (family_rest Catalog key) in
  let? sk := map_err CodecError (from_utf8 rest) in
  let? k := map_err (λ e, CodecError (path_error_display e)) (decode_key sk) in
  let? row := decode_row bs in
  Ok (k, row).

Definition catalog_query_prefix (s : S) (prefix : CatalogPrefix) (after : option CatalogKey)
    (limit : N) : result CatalogError (list (CatalogKey * CatalogRow)) :=
  let? page := kv_query_prefix s (family_key Catalog (prefix_str prefix)) (ckey <$> after) limit in
  rtraverse decode_entry page.

Definition kv_of_applied (a : Applied) : KvOp :=
  match a with
  | AppliedPut key bs => KvPut (ckey key) bs
  | AppliedDelete key => KvDelete (ckey key)
  end.

Definition catalog_commit (txn : CatalogTxn) (fence : CatalogFence) : st S CatalogError unit :=
  do? planned := sread (λ s, eval_ops txn (λ key, kv_get s (ckey key))) in
  kv_commit (kv_of_applied <$> planned) fence.

Definition catalog_commit_durable (txn : CatalogTxn) (fence : CatalogFence)
    : st S CatalogError unit :=
  catalog_commit txn fence ;! kv_flush_durable.

(** One round of [catalog_delete_prefix]: a page of keys, one transaction. *)
Definition delete_page (prefix : CatalogPrefix) (fence : CatalogFence)
    : st S CatalogError (unit + unit) :=
  do? page := sread (λ s, catalog_query_prefix s prefix None (N.of_nat TXN_MAX_OPS)) in
  match page with
  | [] => sret (inr tt)
  | _ =>
      do? txn := slift (rfold (λ txn e, txn_delete txn e.1 Exists_) txn_new page) in
      catalog_commit txn fence ;!
      sret (inl tt)
  end.

Definition catalog_delete_prefix (fuel : nat) (prefix : CatalogPrefix) (fence : CatalogFence)
    : st S CatalogError (option unit) :=
  sloop fuel (λ _, delete_page prefix fence) tt.

Definition QUERY_PAGE : nat := 100.

(** One round of [query_all]: the loop state is the rows so far and the last key. *)
Definition query_page (s : S) (prefix : CatalogPrefix)
    (x : list (CatalogKey * CatalogRow) * option CatalogKey)
    : result CatalogError ((list (CatalogKey * CatalogRow) * option CatalogKey)
                           + list (CatalogKey * CatalogRow)) :=
  let '(out, after) := x in
  let? page := catalog_query_prefix s prefix after (N.of_nat QUERY_PAGE) in
  match page with
  | [] => Ok (inr out)
  | _ =>
      let out' := out ++ page in
      if decide (length page < QUERY_PAGE) then Ok (inr out')
      else Ok (inl (out', fst <$> last page))
  end.

Definition query_all (fuel : nat) (s : S) (prefix : CatalogPrefix)
    : result CatalogError (option (list (CatalogKey * CatalogRow))) :=
  rloop fuel (query_page s prefix) ([], None).

Definition reset_key (fence : CatalogFence) (key : CatalogKey) : st S CatalogError unit :=
  do? row := sread (λ s, catalog_get s key) in
  match row with
  | None => sret tt
  | Some _ =>
      do? txn := slift (txn_delete txn_new key Exists_) in
      catalog_commit_durable txn fence
  end.

Definition reset_catalog (fuel : nat) (fence : CatalogFence) : st S CatalogError (option unit) :=
  do? r := sfor_fuel (λ prefix, catalog_delete_prefix fuel prefix fence) CatalogPrefix_ALL in
  match r with
  | None => sret None
  | Some _ =>
      sfor (reset_key fence) [KSeq; KFormat] ;!
      kv_flush_durable ;!
      sret (Some tt)
  end.
End store.
End catalog.

(** [seed_historical] of the memory store writes a row without a fence or a condition. *)
Definition seed_historical `{Codec CatalogRow} (key : CatalogKey) (row : CatalogRow)
    : st MemoryInner CatalogError unit :=
  do? bs := slift (encode_row row) in
  λ s, (Ok tt, {| mem_rows := <[ckey key := bs]> (mem_rows s);
                  mem_fence := mem_fence s; mem_released := mem_released s |}).

(** ** The abstract catalog

    What the catalog promises its clients: a finite map from keys to rows and
    transactions that check every condition against the map as it was before the
    transaction and then take effect together. *)

Section spec.
Context {RC : Codec CatalogRow} {DG : Digest}.

Definition op_ckey (op : CatalogOp) : CatalogKey :=
  match op with OpPut k _ _ => k | OpDelete k _ => k end.

Definition spec_version (existing : option CatalogRow) (expected : N)
    : result CatalogError unit :=
  match existing with
  | None => Err ConditionFailed
  | Some r =>
      let? v := ok_or (CodecError (str "SeqRow has no version; use SeqAdvance"))
                  (row_version_field r) in
      if (v =? expected)%N then Ok tt else Err ConditionFailed
  end.

Definition spec_put (key : CatalogKey) (row : CatalogRow) (cond : PutCond)
    (existing : option CatalogRow) : result CatalogError unit :=
  match cond with
  | NotExists => match existing with None => Ok tt | Some _ => Err ConditionFailed end
  | SameSha =>
      match existing with
      | None => Err ConditionFailed
      | Some r =>
          if decide (rmap sha256 (encode_row r) = rmap sha256 (encode_row row))
          then Ok tt else Err ConditionFailed
      end
  | PVersion expected => spec_version existing expected
  | SeqAdvance =>
      if decide (key = KSeq) then
        match row, existing with
        | RSeq r, None => Ok tt
        | RSeq r, Some (RSeq o) =>
            if (seq_get (max_seq o) <? seq_get (max_seq r))%N then Ok tt
            else Err ConditionFailed
        | RSeq _, Some _ => Err ConditionFailed
        | _, _ => Err (CodecError (str "SeqAdvance requires SeqRow"))
        end
      else Err SeqOpOnNonSeqKey
  end.

Definition spec_check (c : gmap CatalogKey CatalogRow) (op : CatalogOp)
    : result CatalogError unit :=
  validate_put op ;?
  match op with
  | OpPut key row cond => encode_row row ;? spec_put key row cond (c !! key)
  | OpDelete key Exists_ =>
      match c !! key with None => Err ConditionFailed | Some _ => Ok tt end
  | OpDelete key (DVersion expected) => spec_version (c !! key) expected
  end.

Definition spec_apply (c : gmap CatalogKey CatalogRow) (op : CatalogOp)
    : gmap CatalogKey CatalogRow :=
  match op with
  | OpPut key row _ => <[key := row]> c
  | OpDelete key _ => delete key c
  end.

Definition spec_commit (ops : list CatalogOp) (c : gmap CatalogKey CatalogRow)
    : result CatalogError (gmap CatalogKey CatalogRow) :=
  rtraverse (spec_check c) ops ;?
  Ok (foldl spec_apply c ops).
End spec.

(** ** Refinement

    [catalog_rel m c]: the byte store [m] represents the abstract catalog [c]. *)

Section refinement.
Context {RC : Codec CatalogRow} {DG : Digest}.
Implicit Types (m : gmap bytes bytes) (c : gmap CatalogKey CatalogRow).

Record catalog_rel m c : Prop := {
  rel_stored k r : c !! k = Some r →
    wf_key k ∧ ∃ v, encode_row r = Ok v ∧ m !! ckey k = Some v;
  rel_known key v : m !! key = Some v → family_prefix Catalog `prefix_of` key →
    ∃ k r, key = ckey k ∧ c !! k = Some r
}.

Lemma ckey_inj k k' : wf_key k → wf_key k' → ckey k = ckey k' → k = k'.
Proof.
  intros Hk Hk' E. unfold ckey, family_key in E. apply (inj (app _)) in E.
  by apply encode_key_inj.
Qed.

Lemma ckey_catalog k : family_prefix Catalog `prefix_of` ckey k.
Proof. by exists (encode_key k). Qed.

Lemma rel_lookup_Some m c k v :
  catalog_rel m c → wf_key k → m !! ckey k = Some v →
  ∃ r, c !! k = Some r ∧ encode_row r = Ok v.
Proof.
  intros Hr Hk Hm. destruct (rel_known _ _ Hr _ _ Hm (ckey_catalog k)) as (k' & r & E & Hc).
  destruct (rel_stored _ _ Hr _ _ Hc) as (Hk' & v' & He & Hm').
  apply ckey_inj in E as <-; [|done|done]. exists r. split; [done|]. congruence.
Qed.

Lemma rel_lookup_None m c k :
  catalog_rel m c → m !! ckey k = None → c !! k = None.
Proof.
  intros Hr Hm. destruct (c !! k) as [r|] eqn:E; [|done].
  destruct (rel_stored _ _ Hr _ _ E) as (_ & v & _ & Hm'). congruence.
Qed.

Lemma catalog_rel_empty : catalog_rel ∅ ∅.
Proof. split; intros ??; by rewrite lookup_empty. Qed.

(** A write outside the catalog family does not touch the catalog. *)
Lemma catalog_rel_other m m' c :
  (∀ key, family_prefix Catalog `prefix_of` key → m' !! key = m !! key) →
  catalog_rel m c → catalog_rel m' c.
Proof.
  intros Hm Hr. split.
  - intros k r Hc. destruct (rel_stored _ _ Hr _ _ Hc) as (Hk & v & He & Hv).
    split; [done|]. exists v. split; [done|]. rewrite Hm; [done|apply ckey_catalog].
  - intros key v Hv Hp. rewrite Hm in Hv by done. by eapply rel_known.
Qed.

Lemma row_version_decoded r v :
  encode_row r = Ok v →
  row_version v = ok_or (CodecError (str "SeqRow has no version; use SeqAdvance"))
                    (row_version_field r).
Proof. intros H%decode_encode_row. unfold row_version. by rewrite H. Qed.

Definition existing_rel (existing : option bytes) (r : option CatalogRow) : Prop :=
  match existing, r with
  | None, None => True
  | Some v, Some r => encode_row r = Ok v
  | _, _ => False
  end.

Lemma rel_existing m c k :
  catalog_rel m c → wf_key k → existing_rel (m !! ckey k) (c !! k).
Proof.
  intros Hr Hk. destruct (m !! ckey k) as [v|] eqn:E; simpl.
  - destruct (rel_lookup_Some _ _ _ _ Hr Hk E) as (r & -> & He). done.
  - by rewrite (rel_lookup_None _ _ _ Hr E).
Qed.

Lemma check_version_spec existing r expected :
  existing_rel existing r →
  match existing with
  | None => Err ConditionFailed
  | Some bs => let? v := row_version bs in
               if (v =? expected)%N then Ok tt else Err ConditionFailed
  end = spec_version r expected.
Proof.
  destruct existing as [v|], r as [r|]; simpl; try done.
  intros H. by rewrite (row_version_decoded _ _ H).
Qed.

Lemma check_put_spec key row cond incoming existing r :
  existing_rel existing r → encode_row row = Ok incoming →
  check_put key row cond incoming existing = spec_put key row cond r.
Proof.
  intros Hex Hin. destruct cond; simpl.
  - by destruct existing, r.
  - destruct existing as [v|], r as [r|]; try done. simpl in Hex. rewrite Hex, Hin. simpl.
    repeat case_decide; naive_solver congruence.
  - by apply check_version_spec.
  - case_decide; [|done]. destruct row; try done; destruct existing as [v|], r as [r|]; try done.
    simpl in Hex. rewrite (decode_encode_row _ _ Hex). simpl. by destruct r.
Qed.

Lemma check_delete_spec cond existing r :
  existing_rel existing r →
  check_delete cond existing =
  match cond with
  | Exists_ => match r with None => Err ConditionFailed | Some _ => Ok tt end
  | DVersion expected => spec_version r expected
  end.
Proof.
  intros Hex. destruct cond; simpl; [by destruct existing, r|by apply check_version_spec].
Qed.

Definition applied_rel (op : CatalogOp) (a : Applied) : Prop :=
  match op, a with
  | OpPut k r _, AppliedPut k' bs => k' = k ∧ encode_row r = Ok bs
  | OpDelete k _, AppliedDelete k' => k' = k
  | _, _ => False
  end.

Lemma eval_op_spec m c op :
  catalog_rel m c → wf_key (op_ckey op) →
  rmap (λ _, tt) (eval_op (λ k, Ok (m !! ckey k)) op) = spec_check c op.
Proof.
  intros Hr Hk. unfold eval_op, spec_check. destruct (validate_put op) as [?|e]; [|done].
  pose proof (rel_existing _ _ _ Hr Hk) as Hex. destruct op as [k r cond|k cond]; simpl in *.
  - destruct (encode_row r) as [bs|e] eqn:Ee; [|done]. simpl.
    rewrite (check_put_spec _ _ _ _ _ _ Hex Ee).
    by destruct (spec_put k r cond (c !! k)) as [[]|].
  - rewrite (check_delete_spec _ _ _ Hex). destruct cond.
    + by destruct (c !! k).
    + by destruct (spec_version (c !! k) expected) as [[]|].
Qed.

Lemma eval_op_applied get op a : eval_op get op = Ok a → applied_rel op a.
Proof. unfold eval_op. intros H. destruct op; inv_res; done. Qed.

Lemma catalog_rel_insert m c k r v :
  catalog_rel m c → wf_key k → encode_row r = Ok v →
  catalog_rel (<[ckey k := v]> m) (<[k := r]> c).
Proof.
  intros Hr Hk He. split.
  - intros k' r' [[-> ->]|[Hne Hc]]%lookup_insert_Some.
    { split; [done|]. exists v. by rewrite lookup_insert_eq. }
    destruct (rel_stored _ _ Hr _ _ Hc) as (Hk' & v' & He' & Hm). split; [done|].
    exists v'. split; [done|]. rewrite lookup_insert_ne; [done|].
    intros E. by apply ckey_inj in E.
  - intros key w [[<- <-]|[Hne Hm]]%lookup_insert_Some Hp.
    { exists k, r. by rewrite lookup_insert_eq. }
    destruct (rel_known _ _ Hr _ _ Hm Hp) as (k' & r' & -> & Hc). exists k', r'.
    split; [done|]. rewrite lookup_insert_ne; [done|]. congruence.
Qed.

Lemma catalog_rel_delete m c k :
  catalog_rel m c → wf_key k → catalog_rel (delete (ckey k) m) (delete k c).
Proof.
  intros Hr Hk. split.
  - intros k' r' [Hne Hc]%lookup_delete_Some.
    destruct (rel_stored _ _ Hr _ _ Hc) as (Hk' & v' & He' & Hm). split; [done|].
    exists v'. split; [done|]. rewrite lookup_delete_ne; [done|].
    intros E. by apply ckey_inj in E.
  - intros key w [Hne Hm]%lookup_delete_Some Hp.
    destruct (rel_known _ _ Hr _ _ Hm Hp) as (k' & r' & -> & Hc). exists k', r'.
    split; [done|]. rewrite lookup_delete_ne; [done|]. congruence.
Qed.

Lemma catalog_rel_apply ops planned m c :
  catalog_rel m c → Forall (λ op, wf_key (op_ckey op)) ops → Forall2 applied_rel ops planned →
  catalog_rel (apply_kv_ops (kv_of_applied <$> planned) m) (foldl spec_apply c ops).
Proof.
  intros Hr Hw Hf. revert m c Hr Hw; induction Hf as [|op a ops planned Ha Hf IH];
    intros m c Hr Hw; [done|]. inversion Hw as [|?? Hk Hw']; subst.
  csimpl. cbn [foldl]. apply IH; [|done].
  destruct op as [k r cond|k cond], a as [k' bs|k']; simpl in *; try done.
  - destruct Ha as [-> He]. by apply catalog_rel_insert.
  - subst. by apply catalog_rel_delete.
Qed.

(** The evaluation of a transaction is the specification's check, and the plan it
    returns writes what the specification writes. *)
Lemma eval_ops_spec m c txn :
  catalog_rel m c → Forall (λ op, wf_key (op_ckey op)) (txn_ops txn) →
  rmap (λ _, tt) (eval_ops txn (λ k, Ok (m !! ckey k))) =
  rmap (λ _, tt) (rtraverse (spec_check c) (txn_ops txn)).
Proof.
  intros Hr Hw. unfold eval_ops. induction Hw as [|op ops Hk Hw IH]; [done|]. simpl.
  pose proof (eval_op_spec _ _ _ Hr Hk) as Ho.
  destruct (eval_op _ op) as [a|e], (spec_check c op) as [u|e']; simpl in *; try done.
  destruct (rtraverse (eval_op _) ops), (rtraverse (spec_check c) ops); simpl in *;
    try done; by simplify_eq.
Qed.

Lemma eval_ops_applied txn get planned :
  eval_ops txn get = Ok planned → Forall2 applied_rel (txn_ops txn) planned.
Proof.
  unfold eval_ops. intros H%rtraverse_Ok.
  eapply Forall2_impl; [done|]. intros op a. apply eval_op_applied.
Qed.
End refinement.

(** ** Clients of a store that keeps its promise *)

Section client.
Context {RC : Codec CatalogRow} {DG : Digest} {S : Type} `{HT : StoreTotal S}.
Implicit Types c : gmap CatalogKey CatalogRow.

Lemma kv_get_Ok (s : S) key : kv_get s key = Ok (contents s !! key).
Proof.
  pose proof (kv_get_total s key) as Ht. destruct (kv_get s key) as [v|] eqn:E; [|done].
  by apply kv_get_spec in E as ->.
Qed.

Lemma kv_query_Ok (s : S) prefix after limit :
  kv_query_prefix s prefix after limit = Ok (scan (contents s) prefix after limit).
Proof.
  pose proof (kv_query_total s prefix after limit) as Ht.
  destruct (kv_query_prefix s prefix after limit) as [v|] eqn:E; [|done].
  by apply kv_query_spec in E as ->.
Qed.

Lemma kv_commit_accepted ops fence (s : S) :
  accepts s fence = true → ∃ s', kv_commit ops fence s = (Ok tt, s') ∧
    contents s' = apply_kv_ops ops (contents s) ∧ accepts s' = accepts s.
Proof.
  intros Ha. pose proof (kv_commit_total ops fence s Ha) as Ht.
  pose proof (kv_commit_accepts ops fence s) as Hacc.
  destruct (kv_commit ops fence s) as [[[]|] s'] eqn:E; [|done].
  exists s'. split_and!; [done|by eapply kv_commit_Ok|done].
Qed.

Lemma eval_ops_kv (s : S) txn :
  eval_ops txn (λ key, kv_get s (ckey key)) = eval_ops txn (λ k, Ok (contents s !! ckey k)).
Proof.
  unfold eval_ops. induction (txn_ops txn) as [|op ops IH]; [done|]. simpl. rewrite IH.
  f_equal. unfold eval_op. destruct op; by rewrite !kv_get_Ok.
Qed.

(** The simulation step: a commit under an accepted fence does what the
    specification does, error for error, and a refused one changes nothing. *)
Lemma catalog_commit_sim txn fence (s : S) c :
  catalog_rel (contents s) c → Forall (λ op, wf_key (op_ckey op)) (txn_ops txn) →
  accepts s fence = true →
  match spec_commit (txn_ops txn) c with
  | Ok c' => ∃ s', catalog_commit txn fence s = (Ok tt, s') ∧
                   catalog_rel (contents s') c' ∧ accepts s' = accepts s ∧
                   (∀ key, ¬ family_prefix Catalog `prefix_of` key →
                      contents s' !! key = contents s !! key)
  | Err e => catalog_commit txn fence s = (Err e, s)
  end.
Proof.
  intros Hr Hw Ha. pose proof (eval_ops_spec _ _ _ Hr Hw) as He.
  unfold spec_commit, catalog_commit, sbind, sread. rewrite eval_ops_kv.
  destruct (eval_ops txn _) as [planned|e] eqn:Ep;
    destruct (rtraverse (spec_check c) (txn_ops txn)) as [l|e']; simpl in *;
    try done; [|by simplify_eq].
  destruct (kv_commit_accepted (kv_of_applied <$> planned) fence s Ha)
    as (s' & Hc & Hcont & Hacc).
  exists s'. split_and!; [done| |done|].
  - rewrite Hcont. apply catalog_rel_apply; [done|done|]. by eapply eval_ops_applied.
  - intros key Hn. rewrite Hcont. apply apply_kv_ops_other. intros Hin. apply Hn.
    rewrite <- list_fmap_compose in Hin.
    apply list_elem_of_fmap in Hin as (a & -> & _). destruct a; apply ckey_catalog.
Qed.

Lemma catalog_commit_fenced txn fence (s : S) :
  accepts s fence = false → ∃ e, catalog_commit txn fence s = (Err e, s).
Proof.
  intros Ha. unfold catalog_commit, sbind, sread.
  destruct (eval_ops txn _) as [planned|e]; [|by eexists].
  rewrite kv_commit_fenced by done. by eexists.
Qed.

Lemma catalog_get_spec (s : S) c k :
  catalog_rel (contents s) c → wf_key k → catalog_get s k = Ok (c !! k).
Proof.
  intros Hr Hk. unfold catalog_get. rewrite kv_get_Ok. simpl.
  pose proof (rel_existing _ _ _ Hr Hk) as Hex.
  destruct (contents s !! ckey k) as [v|], (c !! k) as [r|]; simpl in *; try done.
  by rewrite (decode_encode_row _ _ Hex).
Qed.

(** ** Scans *)

(** The raw entries of a prefix, in key order. *)
Definition prefix_entries (m : gmap bytes bytes) (p : CatalogPrefix) : list (bytes * bytes) :=
  filter (λ e, family_key Catalog (prefix_str p) `prefix_of` e.1) (entries m).

Lemma prefix_entries_sorted m p : StronglySorted entry_lt (prefix_entries m p).
Proof. apply StronglySorted_filter, entries_sorted. Qed.

Lemma ckey_has_prefix k p :
  family_key Catalog (prefix_str p) `prefix_of` ckey k ↔ key_prefix k = Some p.
Proof.
  unfold ckey, family_key. rewrite <- (bool_decide_eq_true (key_prefix k = Some p)).
  rewrite <- starts_with_prefix, starts_with_spec. split.
  - apply prefix_app_inv.
  - apply prefix_app.
Qed.

Lemma scan_prefix_None m p limit :
  scan m (family_key Catalog (prefix_str p)) None limit =
  takeN (N.max 1 limit) (prefix_entries m p).
Proof.
  unfold scan, prefix_entries. f_equal. apply list_filter_iff. simpl. tauto.
Qed.

Lemma scan_prefix_after m p limit l1 x l2 :
  prefix_entries m p = l1 ++ x :: l2 →
  scan m (family_key Catalog (prefix_str p)) (Some x.1) limit = takeN (N.max 1 limit) l2.
Proof.
  intros E. unfold scan. f_equal.
  rewrite <- (filter_after_sorted entry_lt l1 x l2).
  - rewrite <- E. unfold prefix_entries. rewrite filter_filter_and.
    apply list_filter_iff. intros e. unfold entry_lt. simpl. tauto.
  - apply entry_lt_irrefl.
  - apply entry_lt_asymm.
  - rewrite <- E. apply prefix_entries_sorted.
Qed.

Lemma decode_entry_ckey k r v :
  wf_key k → encode_row r = Ok v → decode_entry (ckey k, v) = Ok (k, r).
Proof.
  intros Hk He. unfold decode_entry, family_rest, ckey, family_key.
  rewrite strip_prefix_app. cbn [ok_or rbind]. unfold from_utf8.
  rewrite (encode_key_utf8 _ Hk). cbn [map_err rbind].
  rewrite (decode_encode_key _ Hk). cbn [map_err rbind].
  by rewrite (decode_encode_row _ _ He).
Qed.

(** The rows of a prefix: the decoded entries. *)
Lemma decode_prefix_entries m c p :
  catalog_rel m c → ∃ rows, rtraverse decode_entry (prefix_entries m p) = Ok rows ∧
    Forall2 (λ e row, e.1 = ckey row.1 ∧ wf_key row.1 ∧ decode_entry e = Ok row)
      (prefix_entries m p) rows ∧
    (∀ k r, (k, r) ∈ rows ↔ c !! k = Some r ∧ key_prefix k = Some p).
Proof.
  intros Hr.
  assert (∀ e, e ∈ prefix_entries m p → ∃ k r, e.1 = ckey k ∧ wf_key k ∧ c !! k = Some r ∧
    key_prefix k = Some p ∧ decode_entry e = Ok (k, r)) as Hdec.
  { intros [key v] [Hp He%elem_of_entries]%list_elem_of_filter. simpl in Hp.
    destruct (rel_known _ _ Hr _ _ He) as (k & r & -> & Hc).
    { etrans; [|exact Hp]. by exists (prefix_str p). }
    destruct (rel_stored _ _ Hr _ _ Hc) as (Hk & v' & Hv & Hm).
    exists k, r. split_and!; try done; [by apply ckey_has_prefix|].
    apply (decode_entry_ckey); [done|congruence]. }
  assert (∀ k r, c !! k = Some r → key_prefix k = Some p →
    ∃ e, e ∈ prefix_entries m p ∧ decode_entry e = Ok (k, r)) as Henc.
  { intros k r Hc Hp. destruct (rel_stored _ _ Hr _ _ Hc) as (Hk & v & Hv & Hm).
    exists (ckey k, v). split; [|by apply (decode_entry_ckey)].
    apply list_elem_of_filter. split; [by apply ckey_has_prefix|by apply elem_of_entries]. }
  revert Hdec Henc. generalize (prefix_entries m p). intros l Hdec Henc.
  assert (∃ rows, Forall2 (λ e row, e.1 = ckey row.1 ∧ wf_key row.1 ∧
    c !! row.1 = Some row.2 ∧ key_prefix row.1 = Some p ∧ decode_entry e = Ok row) l rows)
    as [rows Hf].
  { clear Henc. induction l as [|e l IH]; [by exists []|].
    destruct (Hdec e ltac:(by left)) as (k & r & ? & ? & ? & ? & ?).
    destruct IH as [rows Hrows]; [intros e' He'; apply Hdec; by right|].
    exists ((k, r) :: rows). by constructor. }
  exists rows. split_and!.
  - apply rtraverse_Ok. eapply Forall2_impl; [done|]. naive_solver.
  - eapply Forall2_impl; [done|]. naive_solver.
  - intros k r. split.
    + intros Hin. destruct (Forall2_elem_of_r _ _ _ _ Hf Hin) as (e & _ & Hx). naive_solver.
    + intros [Hc Hp]. destruct (Henc _ _ Hc Hp) as (e & He & Hd).
      destruct (Forall2_elem_of_l _ _ _ _ Hf He) as ([k' r'] & Hin & Hx).
      assert ((k', r') = (k, r)) as [= -> ->] by (destruct_and!; congruence). done.
Qed.

(** [rows_of m p rows]: the decoded entries of a prefix, in key order. *)
Definition rows_of (m : gmap bytes bytes) (p : CatalogPrefix)
    (rows : list (CatalogKey * CatalogRow)) : Prop :=
  Forall2 (λ e row, e.1 = ckey row.1 ∧ wf_key row.1 ∧ decode_entry e = Ok row)
    (prefix_entries m p) rows.

Lemma decode_rows_of (s : S) c p limit after l rows :
  kv_query_prefix s (family_key Catalog (prefix_str p)) (ckey <$> after) limit = Ok l →
  Forall2 (λ e row, e.1 = ckey row.1 ∧ wf_key row.1 ∧ decode_entry e = Ok row) l rows →
  catalog_query_prefix s p after limit = Ok rows.
Proof.
  intros Hq Hf. unfold catalog_query_prefix. rewrite Hq. cbn [rbind].
  apply rtraverse_Ok. eapply Forall2_impl; [exact Hf|]. naive_solver.
Qed.

Lemma catalog_query_first (s : S) p limit rows :
  rows_of (contents s) p rows →
  catalog_query_prefix s p None limit = Ok (takeN (N.max 1 limit) rows).
Proof.
  intros Hr. eapply (decode_rows_of s ∅); [rewrite kv_query_Ok; simpl fmap; by rewrite scan_prefix_None|].
  rewrite !takeN_take. by apply Forall2_take.
Qed.

Lemma catalog_query_next (s : S) p limit r1 row r2 :
  rows_of (contents s) p (r1 ++ row :: r2) →
  catalog_query_prefix s p (Some row.1) limit = Ok (takeN (N.max 1 limit) r2).
Proof.
  intros Hr. apply Forall2_app_inv_r in Hr as (e1 & e2 & Hf1 & Hf2 & E).
  inversion Hf2 as [|e row' e3 r2' (He & _) Hf3]; subst. symmetry in E.
  eapply (decode_rows_of s ∅).
  - rewrite kv_query_Ok. simpl fmap. rewrite <- He. by erewrite scan_prefix_after.
  - rewrite !takeN_take. by apply Forall2_take.
Qed.

(** One page of [query_all] past the rows already read. *)
Lemma query_page_step (s : S) p r1 r2 :
  rows_of (contents s) p (r1 ++ r2) →
  query_page s p (r1, fst <$> last r1) =
  Ok (if decide (length r2 < QUERY_PAGE) then inr (r1 ++ r2)
      else inl (r1 ++ take QUERY_PAGE r2, fst <$> last (r1 ++ take QUERY_PAGE r2))).
Proof.
  intros Hr. unfold query_page.
  assert (catalog_query_prefix s p (fst <$> last r1) (N.of_nat QUERY_PAGE) =
    Ok (take QUERY_PAGE r2)) as ->.
  { assert (N.max 1 (N.of_nat QUERY_PAGE) = N.of_nat QUERY_PAGE) as Hm by done.
    destruct r1 as [|row r1' _] using rev_ind.
    - simpl. rewrite (catalog_query_first _ _ _ r2) by done.
      by rewrite Hm, takeN_take, Nat2N.id.
    - rewrite last_snoc. simpl. rewrite <- app_assoc in Hr.
      rewrite (catalog_query_next _ _ _ r1' row r2) by done.
      by rewrite Hm, takeN_take, Nat2N.id. }
  cbn [rbind]. destruct r2 as [|row r2].
  { rewrite take_nil, app_nil_r. by rewrite decide_True by (simpl; unfold QUERY_PAGE; lia). }
  case_decide as Hlt.
  - rewrite length_take in Hlt. rewrite (take_ge (row :: r2)) by lia.
    rewrite decide_True by lia. done.
  - rewrite length_take in Hlt. rewrite decide_False by lia.
    rewrite last_app. assert (is_Some (last (take QUERY_PAGE (row :: r2)))) as [x Hx]
      by (by apply last_is_Some).
    by rewrite Hx.
Qed.

Lemma query_all_loop (s : S) p fuel r1 r2 :
  rows_of (contents s) p (r1 ++ r2) → (length r2 < fuel) →
  rloop fuel (query_page s p) (r1, fst <$> last r1) = Ok (Some (r1 ++ r2)).
Proof.
  revert r1 r2; induction fuel as [|fuel IH]; intros r1 r2 Hr Hfuel; [lia|].
  cbn [rloop]. rewrite (query_page_step s p r1 r2) by done. cbn [rbind].
  case_decide as Hlt; [done|]. rewrite (IH _ (drop QUERY_PAGE r2)).
  - by rewrite <- app_assoc, take_drop.
  - by rewrite <- app_assoc, take_drop.
  - rewrite length_drop. unfold QUERY_PAGE in *. lia.
Qed.

Lemma query_all_rows (s : S) p fuel rows :
  rows_of (contents s) p rows → length rows < fuel →
  query_all fuel s p = Ok (Some rows).
Proof. intros. by apply (query_all_loop s p fuel [] rows). Qed.

Lemma rows_of_rel (s : S) c p :
  catalog_rel (contents s) c → ∃ rows, rows_of (contents s) p rows ∧ NoDup rows.*1 ∧
    (∀ k r, (k, r) ∈ rows ↔ c !! k = Some r ∧ key_prefix k = Some p).
Proof.
  intros Hr. destruct (decode_prefix_entries _ _ p Hr) as (rows & _ & Hf & Hin).
  exists rows. split_and!; [done| |done].
  assert (NoDup (prefix_entries (contents s) p).*1) as Hnd.
  { unfold prefix_entries. eapply sublist_NoDup; [apply NoDup_entries_keys|].
    apply fmap_sublist, sublist_filter. }
  clear Hin. induction Hf as [|e row l rows (He & Hw & _) Hf IH]; csimpl in *; [constructor|].
  apply NoDup_cons in Hnd as [Hni Hnd]. apply NoDup_cons. split; [|by apply IH].
  intros ([k r] & E & Hx)%list_elem_of_fmap. apply Hni.
  destruct (Forall2_elem_of_r _ _ _ _ Hf Hx) as (e' & He' & Hk & _).
  rewrite He, E. simpl in *. rewrite <- Hk. by apply list_elem_of_fmap_2.
Qed.

Lemma rows_of_length c p (rows : list (CatalogKey * CatalogRow)) :
  NoDup rows.*1 → (∀ k r, (k, r) ∈ rows ↔ c !! k = Some r ∧ key_prefix k = Some p) →
  length rows ≤ size c.
Proof.
  intros Hnd Hin. rewrite <- length_map_to_list. apply submseteq_length, NoDup_submseteq.
  - by apply NoDup_fmap_1 in Hnd.
  - intros [k r] Hx. apply elem_of_map_to_list. by apply Hin in Hx as [? _].
Qed.

Lemma rows_of_sorted m p rows :
  rows_of m p rows → StronglySorted (λ a b, bytes_lt (ckey a.1) (ckey b.1)) rows.
Proof.
  intros Hf. pose proof (prefix_entries_sorted m p) as Hs. unfold rows_of in Hf.
  induction Hf as [|e row l rows (He & _) Hf IH]; [constructor|].
  inversion Hs as [|?? Hs' Hall]; subst. constructor; [by apply IH|].
  apply Forall_forall. intros row' Hin.
  destruct (Forall2_elem_of_r _ _ _ _ Hf Hin) as (e' & Hin' & He' & _).
  rewrite Forall_forall in Hall. specialize (Hall _ Hin'). unfold entry_lt in Hall.
  by rewrite He, He' in Hall.
Qed.

(** ** Deleting a prefix *)

Lemma txn_deletes keys txn :
  length (txn_ops txn) + length keys ≤ TXN_MAX_OPS →
  rfold (λ t (e : CatalogKey * CatalogRow), txn_delete t e.1 Exists_) txn keys =
  Ok {| txn_ops := txn_ops txn ++ ((λ e, OpDelete e.1 Exists_) <$> keys) |}.
Proof.
  revert txn; induction keys as [|e keys IH]; intros txn Hlen; simpl in *.
  { rewrite app_nil_r. by destruct txn. }
  unfold txn_delete at 1, txn_push. rewrite decide_False by lia. simpl.
  rewrite IH by (simpl; rewrite length_app; simpl; lia). simpl. by rewrite <- app_assoc.
Qed.

Lemma spec_deletes c (rows : list (CatalogKey * CatalogRow)) :
  (∀ k r, (k, r) ∈ rows → c !! k = Some r) →
  ∃ c', spec_commit ((λ e, OpDelete e.1 Exists_) <$> rows) c = Ok c' ∧
    ∀ k, c' !! k = if decide (k ∈ rows.*1) then None else c !! k.
Proof.
  intros Hin. exists (foldl spec_apply c ((λ e, OpDelete e.1 Exists_) <$> rows)).
  unfold spec_commit. rewrite (rtraverse_fmap_Ok _ _ (λ _, tt)).
  2:{ intros [k r] Hx. unfold spec_check. simpl. by rewrite (Hin _ _ Hx). }
  split; [done|]. clear Hin. revert c; induction rows as [|[k r] rows IH]; intros c k'.
  { done. }
  cbn [fmap list_fmap foldl]. rewrite IH. clear IH. simpl spec_apply. repeat case_decide; try set_solver.
  - replace k' with k by set_solver. apply lookup_delete_eq.
  - rewrite lookup_delete_ne; [done|set_solver].
Qed.

(** One round deletes the first page of the prefix, if there is one. *)
Lemma delete_page_step (s : S) c p fence rows :
  catalog_rel (contents s) c → accepts s fence = true → rows_of (contents s) p rows →
  (∀ k r, (k, r) ∈ rows ↔ c !! k = Some r ∧ key_prefix k = Some p) →
  match rows with
  | [] => delete_page p fence s = (Ok (inr tt), s)
  | _ => ∃ s' c', delete_page p fence s = (Ok (inl tt), s') ∧
           catalog_rel (contents s') c' ∧ accepts s' = accepts s ∧
           (∀ k, c' !! k = if decide (k ∈ (take TXN_MAX_OPS rows).*1) then None else c !! k) ∧
           (∀ key, ¬ family_prefix Catalog `prefix_of` key →
              contents s' !! key = contents s !! key)
  end.
Proof.
  intros Hr Ha Hrows Hin. unfold delete_page.
  assert (sread (λ t : S, catalog_query_prefix t p None (N.of_nat TXN_MAX_OPS)) s =
    (Ok (take TXN_MAX_OPS rows), s)) as Hq.
  { unfold sread. by rewrite (catalog_query_first _ _ _ _ Hrows), takeN_take. }
  rewrite (sbind_run _ _ _ _ _ Hq). destruct rows as [|row rows]; [by rewrite take_nil|].
  assert (Forall (λ e : CatalogKey * CatalogRow, wf_key e.1 ∧ e ∈ row :: rows)
    (take TXN_MAX_OPS (row :: rows))) as Hpage.
  { apply Forall_take, Forall_forall. intros e He. split; [|done].
    destruct (Forall2_elem_of_r _ _ _ _ Hrows He) as (? & _ & _ & Hw & _). done. }
  assert (length (take TXN_MAX_OPS (row :: rows)) ≤ TXN_MAX_OPS) as Hlen
    by (rewrite length_take; lia).
  assert (take TXN_MAX_OPS (row :: rows) ≠ []) as Hne by done.
  revert Hpage Hlen Hne. generalize (take TXN_MAX_OPS (row :: rows)). clear Hq.
  intros page Hpage Hlen Hne. rewrite Forall_forall in Hpage.
  destruct (spec_deletes c page) as (c' & Hsc & Hc').
  { intros k r Hx. apply Hin. by apply Hpage. }
  pose proof (catalog_commit_sim {| txn_ops := (λ e, OpDelete e.1 Exists_) <$> page |}
    fence s c Hr) as Hsim. simpl in Hsim. rewrite Hsc in Hsim.
  destruct Hsim as (s' & Hcm & Hrel & Hacc & Hoth); [|done|].
  { apply Forall_fmap, Forall_forall. intros e He. by apply Hpage. }
  exists s', c'. split_and!; try done.
  destruct page as [|e page]; [done|]. unfold slift, sbind at 1.
  rewrite (txn_deletes (e :: page) txn_new) by done.
  simpl app. by rewrite (sbind_run _ _ _ _ _ Hcm).
Qed.

(** What a catalog keeps when a prefix is deleted. *)
Definition without_prefix (p : CatalogPrefix) c : gmap CatalogKey CatalogRow :=
  filter (λ kr, key_prefix kr.1 ≠ Some p) c.

Lemma lookup_without_prefix p c k :
  without_prefix p c !! k = if decide (key_prefix k = Some p) then None else c !! k.
Proof.
  unfold without_prefix. rewrite map_lookup_filter. destruct (c !! k) as [r|]; simpl.
  - case_decide as Hp; case_guard; naive_solver.
  - by case_decide.
Qed.

Lemma without_prefix_shrink p c c' (rows : list (CatalogKey * CatalogRow)) n k0 r0 :
  (∀ k r, (k, r) ∈ (k0, r0) :: rows ↔ c !! k = Some r ∧ key_prefix k = Some p) →
  (∀ k, c' !! k =
     if decide (k ∈ (take (Datatypes.S n) ((k0, r0) :: rows)).*1) then None else c !! k) →
  size c' < size c ∧ without_prefix p c' = without_prefix p c.
Proof.
  intros Hin Hc'. split.
  - apply map_subset_size, strict_spec. split.
    + apply map_subseteq_spec. intros k r. rewrite Hc'. by case_decide.
    + intros Hsub. destruct (proj1 (Hin k0 r0)) as [Hk0 _]; [by left|].
      pose proof (lookup_weaken _ _ _ _ Hk0 Hsub) as Hk. rewrite Hc' in Hk.
      rewrite decide_True in Hk; [done|]. simpl. by left.
  - apply map_eq. intros k. rewrite !lookup_without_prefix, Hc'.
    case_decide as Hp; [done|]. case_decide as Hk; [|done].
    apply list_elem_of_fmap in Hk as ([k' r] & -> & Hk).
    apply (subseteq_take (Datatypes.S n) ((k0, r0) :: rows)) in Hk.
    by apply Hin in Hk as [_ Hk].
Qed.

Lemma catalog_delete_prefix_sim fuel (s : S) c p fence :
  catalog_rel (contents s) c → accepts s fence = true → size c < fuel →
  ∃ s', catalog_delete_prefix fuel p fence s = (Ok (Some tt), s') ∧
    catalog_rel (contents s') (without_prefix p c) ∧ accepts s' = accepts s ∧
    (∀ key, ¬ family_prefix Catalog `prefix_of` key →
       contents s' !! key = contents s !! key).
Proof.
  revert s c; induction fuel as [|fuel IH]; intros s c Hr Ha Hfuel; [lia|].
  destruct (rows_of_rel s c p Hr) as (rows & Hrows & _ & Hin).
  pose proof (delete_page_step s c p fence rows Hr Ha Hrows Hin) as Hstep.
  unfold catalog_delete_prefix. cbn [sloop]. destruct rows as [|[k0 r0] rows].
  { rewrite (sbind_run _ _ _ _ _ Hstep). exists s. split_and!; try done.
    replace (without_prefix p c) with c; [done|]. apply map_eq. intros k.
    rewrite lookup_without_prefix. case_decide as Hp; [|done].
    destruct (c !! k) as [r|] eqn:E; [|done]. assert ((k, r) ∈ []) by by apply Hin.
    set_solver. }
  destruct Hstep as (s1 & c1 & Hd & Hr1 & Ha1 & Hc1 & Ho1).
  rewrite (sbind_run _ _ _ _ _ Hd).
  destruct (without_prefix_shrink p c c1 rows 98 k0 r0 Hin Hc1) as [Hsz Hw].
  destruct (IH s1 c1) as (s' & Hs' & Hr' & Ha' & Ho'); [done|congruence|lia|].
  exists s'. rewrite <- Hw. split_and!; [done|done|congruence|].
  intros key Hk. rewrite Ho' by done. by apply Ho1.
Qed.

Lemma delete_prefixes_sim fuel fence ps (s : S) c :
  catalog_rel (contents s) c → accepts s fence = true → size c < fuel →
  ∃ s', sfor_fuel (λ p, catalog_delete_prefix fuel p fence) ps s = (Ok (Some tt), s') ∧
    catalog_rel (contents s') (foldl (λ c p, without_prefix p c) c ps) ∧
    accepts s' = accepts s ∧
    (∀ key, ¬ family_prefix Catalog `prefix_of` key →
       contents s' !! key = contents s !! key).
Proof.
  revert s c; induction ps as [|p ps IH]; intros s c Hr Ha Hfuel; [by exists s|].
  destruct (catalog_delete_prefix_sim fuel s c p fence) as (s1 & Hs1 & Hr1 & Ha1 & Ho1);
    [done|done|done|].
  destruct (IH s1 (without_prefix p c)) as (s' & Hs' & Hr' & Ha' & Ho');
    [done|congruence| |].
  { eapply Nat.le_lt_trans; [|done]. apply map_subseteq_size, map_filter_subseteq. }
  exists s'. cbn [sfor_fuel]. rewrite (sbind_run _ _ _ _ _ Hs1).
  split_and!; [done|done|congruence|]. intros key Hk. rewrite Ho' by done. by apply Ho1.
Qed.

Lemma flush_run (s : S) :
  ∃ s', kv_flush_durable s = (Ok tt, s') ∧ contents s' = contents s ∧ accepts s' = accepts s.
Proof.
  pose proof (kv_flush_total s) as Ht. pose proof (kv_flush_contents s) as Hc.
  pose proof (kv_flush_accepts s) as Ha.
  destruct (kv_flush_durable s) as [[[]|e] s']; [by exists s'|done].
Qed.

Lemma reset_key_sim (s : S) c fence k :
  catalog_rel (contents s) c → wf_key k → accepts s fence = true →
  ∃ s', reset_key fence k s = (Ok tt, s') ∧ catalog_rel (contents s') (delete k c) ∧
    accepts s' = accepts s ∧
    (∀ key, ¬ family_prefix Catalog `prefix_of` key →
       contents s' !! key = contents s !! key).
Proof.
  intros Hr Hk Ha. unfold reset_key.
  assert (sread (λ t : S, catalog_get t k) s = (Ok (c !! k), s)) as Hg.
  { unfold sread. by rewrite (catalog_get_spec s c k). }
  rewrite (sbind_run _ _ _ _ _ Hg). destruct (c !! k) as [r|] eqn:E.
  2:{ exists s. by rewrite delete_id. }
  pose proof (catalog_commit_sim {| txn_ops := [OpDelete k Exists_] |} fence s c Hr) as Hsim.
  unfold spec_commit, spec_check in Hsim. simpl in Hsim. rewrite E in Hsim.
  destruct Hsim as (s1 & Hs1 & Hr1 & Ha1 & Ho1); [by constructor|done|].
  destruct (flush_run s1) as (s' & Hf & Hc' & Ha'). exists s'. split_and!.
  - assert (slift (txn_delete txn_new k Exists_) s =
      (Ok {| txn_ops := [OpDelete k Exists_] |}, s)) as Ht by done.
    rewrite (sbind_run _ _ _ _ _ Ht). unfold catalog_commit_durable.
    by rewrite (sbind_run _ _ _ _ _ Hs1).
  - by rewrite Hc'.
  - congruence.
  - intros key Hn. rewrite Hc'. by apply Ho1.
Qed.

(** Every key is under a prefix that [reset_catalog] deletes or is one of the two it
    deletes by name. *)
Lemma reset_covers c :
  delete KFormat (delete KSeq (foldl (λ c p, without_prefix p c) c CatalogPrefix_ALL)) = ∅.
Proof.
  apply map_empty. intros k. destruct (decide (k = KFormat)) as [->|Hf];
    [apply lookup_delete_eq|rewrite lookup_delete_ne by done].
  destruct (decide (k = KSeq)) as [->|Hs];
    [apply lookup_delete_eq|rewrite lookup_delete_ne by done].
  assert (∃ p, key_prefix k = Some p ∧ p ∈ CatalogPrefix_ALL) as (p & Hp & Hin).
  { destruct k; try done; eexists; (split; [done|]); unfold CatalogPrefix_ALL; set_solver. }
  revert c Hin. generalize CatalogPrefix_ALL as ps. intros ps. induction ps as [|q ps IH].
  { set_solver. }
  intros c. cbn [foldl]. destruct (decide (q = p)) as [->|Hne].
  - intros _. assert (without_prefix p c !! k = None) as Hn
      by (by rewrite lookup_without_prefix, decide_True).
    revert Hn. generalize (without_prefix p c). clear IH. intros c'. revert c'.
    induction ps as [|q ps IH]; intros c' Hn; [done|]. cbn [foldl]. apply IH.
    rewrite lookup_without_prefix, Hn. by case_decide.
  - intros Hin. apply IH. set_solver.
Qed.

Lemma reset_catalog_sim fuel (s : S) c fence :
  catalog_rel (contents s) c → accepts s fence = true → size c < fuel →
  ∃ s', reset_catalog fuel fence s = (Ok (Some tt), s') ∧ catalog_rel (contents s') ∅ ∧
    (∀ key, ¬ family_prefix Catalog `prefix_of` key →
       contents s' !! key = contents s !! key).
Proof.
  intros Hr Ha Hfuel. unfold reset_catalog.
  destruct (delete_prefixes_sim fuel fence CatalogPrefix_ALL s c)
    as (s1 & Hs1 & Hr1 & Ha1 & Ho1); [done..|].
  destruct (reset_key_sim s1 _ fence KSeq Hr1) as (s2 & Hs2 & Hr2 & Ha2 & Ho2);
    [done|congruence|].
  destruct (reset_key_sim s2 _ fence KFormat Hr2) as (s3 & Hs3 & Hr3 & Ha3 & Ho3);
    [done|congruence|].
  destruct (flush_run s3) as (s' & Hf & Hc' & Ha').
  exists s'. split_and!.
  - rewrite (sbind_run _ _ _ _ _ Hs1). cbn [sfor].
    erewrite sbind_run; [|erewrite sbind_run by done; by erewrite sbind_run by done].
    by erewrite sbind_run by done.
  - rewrite Hc'. by rewrite reset_covers in Hr3.
  - intros key Hn. rewrite Hc', Ho3, Ho2 by done. by apply Ho1.
Qed.
End client.

(** ** Commits over a store that may fail *)

Section fallible.
Context {RC : Codec CatalogRow} {DG : Digest} {S : Type} `{HL : StoreLaws S}.
Implicit Types c : gmap CatalogKey CatalogRow.

Lemma eval_ops_kv_Ok (s : S) txn planned :
  eval_ops txn (λ key, kv_get s (ckey key)) = Ok planned →
  eval_ops txn (λ k, Ok (contents s !! ckey k)) = Ok planned.
Proof.
  unfold eval_ops. rewrite !rtraverse_Ok. intros Hf. eapply Forall2_impl; [exact Hf|].
  intros op a. unfold eval_op. destruct (validate_put op); [|done]. cbn [rbind].
  destruct op as [k r cond|k cond].
  - destruct (encode_row r); [|done]. cbn [rbind].
    destruct (kv_get s (ckey k)) as [v|] eqn:E; [|done]. by apply kv_get_spec in E as <-.
  - destruct (kv_get s (ckey k)) as [v|] eqn:E; [|done]. by apply kv_get_spec in E as <-.
Qed.

Lemma planned_sim (s : S) c txn planned :
  catalog_rel (contents s) c → Forall (λ op, wf_key (op_ckey op)) (txn_ops txn) →
  eval_ops txn (λ key, kv_get s (ckey key)) = Ok planned →
  ∃ c', spec_commit (txn_ops txn) c = Ok c' ∧
    catalog_rel (apply_kv_ops (kv_of_applied <$> planned) (contents s)) c'.
Proof.
  intros Hr Hw Hp%eval_ops_kv_Ok. pose proof (eval_ops_spec _ _ _ Hr Hw) as He.
  rewrite Hp in He. unfold spec_commit.
  destruct (rtraverse (spec_check c) (txn_ops txn)) as [l|e]; [|done].
  eexists. split; [done|]. apply catalog_rel_apply; [done|done|by eapply eval_ops_applied].
Qed.

(** A durable commit leaves the catalog as it was or the whole transaction applied. *)
Lemma catalog_commit_fallible txn fence (s s' : S) c r :
  catalog_rel (contents s) c → Forall (λ op, wf_key (op_ckey op)) (txn_ops txn) →
  catalog_commit_durable txn fence s = (r, s') →
  (∃ c', spec_commit (txn_ops txn) c = Ok c' ∧ catalog_rel (contents s') c') ∨
  (is_ok r = false ∧ contents s' = contents s).
Proof.
  intros Hr Hw Hc. unfold catalog_commit_durable, catalog_commit, sbind, sread in Hc.
  destruct (eval_ops txn _) as [planned|e] eqn:Ep; [|right; by simplify_eq].
  destruct (planned_sim s c txn planned Hr Hw Ep) as (c' & Hsc & Hrel).
  destruct (kv_commit _ fence s) as [[[]|e] s1] eqn:Ek.
  - left. exists c'. split; [done|]. apply kv_commit_Ok in Ek. rewrite <- Ek in Hrel.
    pose proof (kv_flush_contents s1) as Hf. rewrite Hc in Hf. simpl in Hf. by rewrite Hf.
  - simplify_eq. apply kv_commit_Err in Ek as [->| ->]; [by right|left; eauto].
Qed.
End fallible.

(** ** Facts about the specification *)

Section spec_facts.
Context {RC : Codec CatalogRow} {DG : Digest}.
Implicit Types c : gmap CatalogKey CatalogRow.

Lemma spec_commit_Ok ops c c' :
  spec_commit ops c = Ok c' →
  Forall (λ op, spec_check c op = Ok tt) ops ∧ c' = foldl spec_apply c ops.
Proof.
  unfold spec_commit. intros H. apply rbind_Ok in H as (us & H & [= <-]). split; [|done].
  apply rtraverse_Ok in H. induction H as [|op u ops us Hop _ IH]; constructor; [|done].
  by destruct u.
Qed.

Lemma spec_commit_reject ops c op e :
  op ∈ ops → spec_check c op = Err e → ∃ e', spec_commit ops c = Err e'.
Proof.
  intros Hin He. destruct (spec_commit ops c) as [c'|e'] eqn:E; [|by eexists].
  apply spec_commit_Ok in E as [Hf _]. rewrite Forall_forall in Hf.
  specialize (Hf _ Hin). congruence.
Qed.

(** A transaction leaves at a key what its last operation on the key says. *)
Lemma foldl_spec_apply_only ops c k op0 :
  Forall (λ op, op_ckey op = k → op = op0) ops → op0 ∈ ops → op_ckey op0 = k →
  foldl spec_apply c ops !! k = match op0 with OpPut _ r _ => Some r | OpDelete _ _ => None end.
Proof.
  intros Hf Hin Hk. induction ops as [|op ops' IH] using rev_ind; [set_solver|].
  apply Forall_app in Hf as [Hf Hf1]. apply Forall_cons in Hf1 as [Hop _].
  rewrite foldl_app. cbn [foldl]. destruct (decide (op_ckey op = k)) as [E|E].
  - rewrite (Hop E). rewrite <- Hk. destruct op0; simpl;
      [apply lookup_insert_eq|apply lookup_delete_eq].
  - assert (spec_apply (foldl spec_apply c ops') op !! k = foldl spec_apply c ops' !! k) as ->.
    { destruct op; simpl in *; [by apply lookup_insert_ne|by apply lookup_delete_ne]. }
    apply IH; [done|]. apply elem_of_app in Hin as [Hin|Hin]; [done|].
    apply list_elem_of_singleton in Hin as ->. done.
Qed.

Lemma spec_apply_untouched ops c k :
  Forall (λ op, op_ckey op ≠ k) ops → foldl spec_apply c ops !! k = c !! k.
Proof.
  revert c; induction ops as [|op ops IH]; intros c Hf; [done|].
  inversion Hf; subst. cbn [foldl]. rewrite IH by done.
  destruct op; simpl in *; [by apply lookup_insert_ne|by apply lookup_delete_ne].
Qed.

(** A write that names the version it replaces stores the next version. *)
Lemma version_put_advances c k r v :
  spec_check c (OpPut k r (PVersion v)) = Ok tt →
  row_version_field r = Some (v + 1)%N.
Proof.
  unfold spec_check. intros H. apply rbind_Ok in H as (? & Hv & _). unfold validate_put in Hv.
  destruct (checked_add U64_MAX v 1) as [n|] eqn:En.
  2:{ by destruct r. }
  apply checked_add_Some in En as [-> _].
  destruct r; simpl in *; try done; case_match eqn:Hq; try done;
    apply N.eqb_eq in Hq; by rewrite Hq.
Qed.

(** The sequence row is what the catalog stores under the sequence key. *)
Definition seq_of c : option N :=
  match c !! KSeq with Some (RSeq r) => Some (seq_get (max_seq r)) | _ => None end.

Definition seq_by_advance (ops : list CatalogOp) : Prop :=
  Forall (λ op, op_ckey op = KSeq → ∃ r, op = OpPut KSeq r SeqAdvance) ops.

Lemma seq_advance_row c r :
  spec_check c (OpPut KSeq r SeqAdvance) = Ok tt →
  ∃ o, r = RSeq o ∧ ∀ n, seq_of c = Some n → (n < seq_get (max_seq o))%N.
Proof.
  unfold spec_check, seq_of. intros H. inv_res.
  destruct r; simpl in *; try done. eexists. split; [done|]. intros n Hn.
  destruct (c !! KSeq) as [[]|]; simplify_eq. case_match eqn:E; [|done].
  by apply N.ltb_lt.
Qed.

Lemma seq_monotone_step ops c c' n :
  seq_by_advance ops → spec_commit ops c = Ok c' → seq_of c = Some n →
  ∃ n', seq_of c' = Some n' ∧ (n ≤ n')%N ∧ (n = n' → c' !! KSeq = c !! KSeq).
Proof.
  intros Hs [Hf ->]%spec_commit_Ok Hn.
  assert (∀ ops', (∀ op, op ∈ ops' → op ∈ ops) →
    let c' := foldl spec_apply c ops' in
    c' !! KSeq = c !! KSeq ∨ ∃ o, c' !! KSeq = Some (RSeq o) ∧ (n < seq_get (max_seq o))%N)
    as Hinv.
  { induction ops' as [|op ops' IH] using rev_ind; intros Hsub; [by left|].
    cbv zeta. rewrite foldl_app. cbn [foldl]. unfold seq_by_advance in Hs.
    rewrite Forall_forall in Hs, Hf. destruct (decide (op_ckey op = KSeq)) as [E|E].
    - assert (op ∈ ops) as Hin by (apply Hsub; set_solver).
      destruct (Hs op Hin E) as [r ->]. destruct (seq_advance_row c r (Hf _ Hin)) as (o & -> & Ho).
      right. exists o. split; [apply lookup_insert_eq|by apply Ho].
    - assert (spec_apply (foldl spec_apply c ops') op !! KSeq =
              foldl spec_apply c ops' !! KSeq) as ->.
      { destruct op; simpl in *; [by apply lookup_insert_ne|by apply lookup_delete_ne]. }
      apply IH. intros op' Hop'. apply Hsub. set_solver. }
  destruct (Hinv ops ltac:(done)) as [E|(o & E & Ho)].
  - exists n. unfold seq_of in *. rewrite E. done.
  - exists (seq_get (max_seq o)). unfold seq_of. rewrite E. split_and!; [done|lia|lia].
Qed.
End spec_facts.

(** ** Properties *)

(** C1: The catalog is what its specification says: over any store that keeps the
    store contract and does not fail, a commit under the accepted fence succeeds
    exactly when every condition of the transaction holds of the abstract map before
    it, then all its operations take effect together and no other family of the store
    changes; otherwise it returns the specification's error and the store is
    untouched; under any other fence it fails and the store is untouched. *)
Theorem catalog_commit_refines {RC : Codec CatalogRow} {DG : Digest} {S} `{StoreTotal S}
    txn fence (s : S) c :
  catalog_rel (contents s) c → Forall (λ op, wf_key (op_ckey op)) (txn_ops txn) →
  (accepts s fence = true →
   match spec_commit (txn_ops txn) c with
   | Ok c' => ∃ s', catalog_commit txn fence s = (Ok tt, s') ∧ catalog_rel (contents s') c' ∧
       (∀ key, ¬ family_prefix Catalog `prefix_of` key →
          contents s' !! key = contents s !! key)
   | Err e => catalog_commit txn fence s = (Err e, s)
   end) ∧
  (accepts s fence = false → ∃ e, catalog_commit txn fence s = (Err e, s)).
Proof.
  intros Hr Hw. split; [|by apply catalog_commit_fenced].
  intros Ha. pose proof (catalog_commit_sim txn fence s c Hr Hw Ha) as Hsim.
  destruct (spec_commit (txn_ops txn) c); [|done].
  destruct Hsim as (s' & ? & ? & _ & ?). by exists s'.
Qed.

Definition seq_row (n : N) : CatalogRow := RSeq {| max_seq := {| seq_get := n |} |}.

Lemma catalog_commit_refines_witness :
  let RC := countable_codec in let DG := toy_digest in
  let f := CatalogFence_local in
  let txn := {| txn_ops := [OpPut KSeq (seq_row 4) SeqAdvance] |} in
  ∃ s', catalog_commit txn f (Memory_open f) = (Ok tt, s') ∧
    catalog_rel (contents s') (<[KSeq := seq_row 4]> ∅).
Proof.
  intros RC DG f txn.
  assert (spec_commit (txn_ops txn) ∅ = Ok (<[KSeq := seq_row 4]> ∅)) as E
    by (unfold spec_commit; assert (rtraverse (spec_check ∅) (txn_ops txn) = Ok [tt]) as ->
        by (vm_compute; reflexivity); reflexivity).
  pose proof (proj1 (catalog_commit_refines txn f (Memory_open f) ∅ catalog_rel_empty
    ltac:(repeat constructor)) eq_refl) as H.
  rewrite E in H. destruct H as (s' & H1 & H2 & _). by exists s'.
Defined.




(** Format rows of a given version, for the examples. *)
Definition format_row (v : N) : CatalogRow :=
  RFormat {| fr_version := 3; fr_phase := Clean; fr_row_version := v |}.

Definition format_state {RC : Codec CatalogRow} (v : N) : MemoryInner :=
  (seed_historical KFormat (format_row v) (Memory_open CatalogFence_local)).2.

Lemma seed_historical_rel {RC : Codec CatalogRow} (s s' : MemoryInner) c k r :
  catalog_rel (contents s) c → wf_key k → seed_historical k r s = (Ok tt, s') →
  catalog_rel (contents s') (<[k := r]> c).
Proof.
  intros Hr Hk. unfold seed_historical, sbind, slift.
  destruct (encode_row r) as [bs|] eqn:E; [|done]. intros [= <-]. simpl.
  by apply catalog_rel_insert.
Qed.


(** A writer that commits a sequence of transactions, going on after failures. *)
Definition run_commits {RC : Codec CatalogRow} {DG : Digest} {S} `{SkipprStore S}
    (fence : CatalogFence) (txns : list CatalogTxn) (s : S) : S :=
  foldl (λ t txn, (catalog_commit txn fence t).2) s txns.

(** The catalog sequence never goes back: through any run of transactions, some
    of which fail, whose writes to the sequence key all use the sequence condition,
    the sequence a reader gets at the end is at least the one at the start. *)
Theorem catalog_seq_monotone {RC : Codec CatalogRow} {DG : Digest} {S} `{StoreTotal S}
    fence txns (s : S) c n :
  catalog_rel (contents s) c → accepts s fence = true → seq_of c = Some n →
  Forall (λ txn, Forall (λ op, wf_key (op_ckey op)) (txn_ops txn) ∧
                 seq_by_advance (txn_ops txn)) txns →
  ∃ n', catalog_get (run_commits fence txns s) KSeq =
          Ok (Some (RSeq {| max_seq := {| seq_get := n' |} |})) ∧ (n ≤ n')%N.
Proof.
  revert s c n; induction txns as [|txn txns IH]; intros s c n Hr Ha Hn Hf; simpl.
  { exists n. rewrite (catalog_get_spec s c KSeq) by done. unfold seq_of in Hn.
    destruct (c !! KSeq) as [[| | | | |[[m]]|]|]; by simplify_eq/=. }
  inversion Hf as [|?? [Hw Hs] Hf']; subst.
  pose proof (catalog_commit_sim txn fence s c Hr Hw Ha) as Hsim.
  destruct (spec_commit (txn_ops txn) c) as [c'|e] eqn:E.
  - destruct Hsim as (s' & -> & Hr' & Ha' & _).
    destruct (seq_monotone_step _ _ _ _ Hs E Hn) as (n1 & Hn1 & Hle & _).
    destruct (IH s' c' n1 Hr' ltac:(congruence) Hn1 Hf') as (n' & Hg & Hle').
    exists n'. split; [exact Hg|lia].
  - rewrite Hsim. by apply (IH s c n).
Qed.

Lemma catalog_seq_monotone_witness :
  let RC := countable_codec in let DG := toy_digest in
  let f := CatalogFence_local in
  let s := (seed_historical KSeq (seq_row 5) (Memory_open f)).2 in
  let adv n := {| txn_ops := [OpPut KSeq (seq_row n) SeqAdvance] |} in
  ∃ n', catalog_get (run_commits f [adv 3; adv 9]%N s) KSeq =
          Ok (Some (RSeq {| max_seq := {| seq_get := n' |} |})) ∧ (5 ≤ n')%N.
Proof.
  intros RC DG f s adv.
  apply (catalog_seq_monotone f [adv 3; adv 9]%N s (<[KSeq := seq_row 5]> ∅)).
  - apply (seed_historical_rel (Memory_open f)); [apply catalog_rel_empty|exact I|].
    apply st_run. vm_compute. reflexivity.
  - reflexivity.
  - reflexivity.
  - repeat constructor; simpl; eauto.
Defined.

(** C31: [query_all] is complete: with more rounds than there are rows its paging
    loop ends, and it returns every row of the prefix exactly once, in key order,
    and nothing else. *)
Theorem query_all_complete {RC : Codec CatalogRow} {DG : Digest} {S} `{StoreTotal S}
    fuel (s : S) c p :
  catalog_rel (contents s) c → size c < fuel →
  ∃ rows, query_all fuel s p = Ok (Some rows) ∧ NoDup rows.*1 ∧
    StronglySorted (λ a b, bytes_lt (ckey a.1) (ckey b.1)) rows ∧
    (∀ k r, (k, r) ∈ rows ↔ c !! k = Some r ∧ key_prefix k = Some p).
Proof.
  intros Hr Hfuel. destruct (rows_of_rel s c p Hr) as (rows & Hrows & Hnd & Hin).
  exists rows. split_and!; [|done|by eapply rows_of_sorted|done].
  apply query_all_rows; [done|]. eapply Nat.le_lt_trans; [|exact Hfuel].
  by eapply rows_of_length.
Qed.

Lemma query_all_complete_witness :
  let RC := countable_codec in let DG := toy_digest in
  ∃ rows, query_all 2 (format_state 1) PSegment = Ok (Some rows) ∧ NoDup rows.*1 ∧
    StronglySorted (λ a b, bytes_lt (ckey a.1) (ckey b.1)) rows ∧
    (∀ k r, (k, r) ∈ rows ↔
       (<[KFormat := format_row 1]> ∅ : gmap CatalogKey CatalogRow) !! k = Some r ∧
       key_prefix k = Some PSegment).
Proof.
  intros RC DG. apply query_all_complete.
  - apply (seed_historical_rel (Memory_open CatalogFence_local));
      [apply catalog_rel_empty|exact I|]. apply st_run. vm_compute. reflexivity.
  - rewrite insert_empty, map_size_singleton. lia.
Defined.

(** Deleting a prefix terminates and is exact: with more rounds than there are
    rows, [catalog_delete_prefix] returns, every row of the prefix is gone, every
    other catalog row is still there and the other families of the store are as they
    were. *)
Theorem catalog_delete_prefix_exact {RC : Codec CatalogRow} {DG : Digest} {S} `{StoreTotal S}
    fuel (s : S) c p fence :
  catalog_rel (contents s) c → accepts s fence = true → size c < fuel →
  ∃ s', catalog_delete_prefix fuel p fence s = (Ok (Some tt), s') ∧
    catalog_rel (contents s') (without_prefix p c) ∧
    (∀ key, ¬ family_prefix Catalog `prefix_of` key →
       contents s' !! key = contents s !! key).
Proof.
  intros Hr Ha Hf. destruct (catalog_delete_prefix_sim fuel s c p fence Hr Ha Hf)
    as (s' & ? & ? & _ & ?). by exists s'.
Qed.

Lemma catalog_delete_prefix_exact_witness :
  let RC := countable_codec in let DG := toy_digest in
  ∃ s', catalog_delete_prefix 2 PSegment CatalogFence_local (format_state 1) =
          (Ok (Some tt), s') ∧
    catalog_rel (contents s') (without_prefix PSegment (<[KFormat := format_row 1]> ∅)).
Proof.
  intros RC DG.
  destruct (catalog_delete_prefix_exact 2 (format_state 1) (<[KFormat := format_row 1]> ∅)
    PSegment CatalogFence_local) as (s' & H1 & H2 & _).
  - apply (seed_historical_rel (Memory_open CatalogFence_local));
      [apply catalog_rel_empty|exact I|]. apply st_run. vm_compute. reflexivity.
  - reflexivity.
  - rewrite insert_empty, map_size_singleton. lia.
  - exists s'. split; [exact H1|exact H2].
Defined.

(** A catalog reset ends with an empty catalog: [reset_catalog] returns, no
    catalog key of any prefix is left, nor the sequence and format rows, and the
    offsets, schemas and other families keep every key. *)
Theorem reset_catalog_empties {RC : Codec CatalogRow} {DG : Digest} {S} `{StoreTotal S}
    fuel (s : S) c fence :
  catalog_rel (contents s) c → accepts s fence = true → size c < fuel →
  ∃ s', reset_catalog fuel fence s = (Ok (Some tt), s') ∧
    ∀ key, contents s' !! key =
      if decide (family_prefix Catalog `prefix_of` key) then None else contents s !! key.
Proof.
  intros Hr Ha Hf. destruct (reset_catalog_sim fuel s c fence Hr Ha Hf) as (s' & ? & Hr' & Ho).
  exists s'. split; [done|]. intros key. case_decide as Hp; [|by apply Ho].
  destruct (contents s' !! key) as [v|] eqn:E; [|done].
  destruct (rel_known _ _ Hr' _ _ E Hp) as (k & r & _ & Hk). by rewrite lookup_empty in Hk.
Qed.

Lemma reset_catalog_empties_witness :
  let RC := countable_codec in let DG := toy_digest in
  ∃ s', reset_catalog 2 CatalogFence_local (format_state 1) = (Ok (Some tt), s') ∧
    ∀ key, contents s' !! key = if decide (family_prefix Catalog `prefix_of` key)
      then None else contents (format_state 1) !! key.
Proof.
  intros RC DG. apply (reset_catalog_empties 2 (format_state 1) (<[KFormat := format_row 1]> ∅)).
  - apply (seed_historical_rel (Memory_open CatalogFence_local));
      [apply catalog_rel_empty|exact I|]. apply st_run. vm_compute. reflexivity.
  - reflexivity.
  - rewrite insert_empty, map_size_singleton. lia.
Defined.

(** What a transaction accepts of an operation. *)
Definition pushable {RC : Codec CatalogRow} (op : CatalogOp) : Prop :=
  match op with
  | OpPut key row cond => (cond = SeqAdvance → key = KSeq) ∧ is_ok (encode_row row) = true
  | OpDelete _ _ => True
  end.

Lemma txn_push_Ok {RC : Codec CatalogRow} txn op txn' :
  txn_push txn op = Ok txn' ↔
  txn' = {| txn_ops := txn_ops txn ++ [op] |} ∧ length (txn_ops txn) < TXN_MAX_OPS ∧ pushable op.
Proof.
  unfold txn_push. case_decide as Hd.
  { split; [done|]. intros (_ & ? & _). lia. }
  destruct op as [key row cond|key cond]; simpl.
  - destruct (encode_row row) as [bs|e]; simpl.
    + destruct key, cond; simpl; naive_solver lia.
    + destruct key, cond; simpl; naive_solver.
  - naive_solver lia.
Qed.

(** A transaction builder accepts exactly the operations that fit: pushing a list
    of operations succeeds if and only if there are at most 99 of them, every row
    encodes under the row ceiling, and the sequence condition is used on the sequence
    key alone; the transaction then holds the operations in the order pushed. *)
Theorem txn_build_exact {RC : Codec CatalogRow} ops txn :
  rfold txn_push txn_new ops = Ok txn ↔
  txn = {| txn_ops := ops |} ∧ length ops ≤ TXN_MAX_OPS ∧ Forall pushable ops.
Proof.
  revert txn; induction ops as [|op ops IH] using rev_ind; intros txn.
  { simpl. unfold txn_new. split; [intros; inv_res; split_and!; [done|lia|done]|naive_solver]. }
  rewrite rfold_app, rbind_Ok. setoid_rewrite IH. cbn [rfold]. setoid_rewrite rbind_Ok.
  setoid_rewrite txn_push_Ok. rewrite length_app, Forall_app, Forall_singleton. simpl.
  split.
  - intros (t & (-> & _ & Hf) & t' & (-> & Hlen & Hp) & [= <-]). simpl in *.
    split_and!; [done|lia|done|done].
  - intros (-> & Hlen & Hf & Hp). eexists. split; [split_and!; [done|lia|done]|].
    simpl. eexists. split; [split_and!; [done|lia|done]|done].
Qed.
