(* ===== verification/SledMigrate.v ===== *)
(** * SledMigrate: copying a leftover sled database into the Skippr Store

    Models crates/skippr-wal-catalog/src/sled_migrate.rs: the signed cursor, the copy
    loop with its batches, the archive step and the miss lookup.  sled and the file
    system are not part of this repository: they are the parameter [SledWorld]. *)

From S2P Require Import Prelude Bytes Text Lease CatalogKey Codec CatalogRow Store.

(** ** Paths

    [Path::file_name] and [Path::parent] on Unix, over the segments of the path. *)

(** Trailing empty and [.] segments are not components (the first segment is kept). *)
Fixpoint trim_right (rsegs : list bytes) : list bytes :=
  match rsegs with
  | s :: ((_ :: _) as rest) => if decide (s = [] ∨ s = str ".") then trim_right rest else rsegs
  | _ => rsegs
  end.

Definition path_segments (p : bytes) : list bytes := trim_right (rev (split x2f p)).

Definition file_name (p : bytes) : option bytes :=
  match path_segments p with
  | [] | [[]] => None
  | c :: _ => if decide (c = str ".." ∨ c = str ".") then None else Some c
  end.

Definition parent (p : bytes) : option bytes :=
  match path_segments p with
  | [] | [[]] => None
  | _ :: r =>
      match trim_right r with
      | [] => Some []
      | [[]] => Some (str "/")
      | r' => Some (join x2f (rev r'))
      end
  end.

(** ** sled and the file system

    What the code relies on: iteration returns what a tree holds, in key order, or an
    I/O error; an excluded range is the part past its bound; opening a database or a
    tree and reading it do not change it. *)

Definition items_of (items : list (result bytes (bytes * bytes))) (es : list (bytes * bytes))
    : Prop :=
  Forall2 (λ r e, r = Ok e ∨ is_ok r = false) items es.

Class SledWorld (W Db Tree : Type) : Type := {
  fs_exists : W → bytes → bool;
  fs_rename : bytes → bytes → st W bytes unit;
  sled_open : W → bytes → result bytes Db;
  tree_names : Db → list bytes;
  open_tree : Db → bytes → result bytes Tree;
  tree_iter : Tree → list (result bytes (bytes * bytes));
  tree_range_excluded : Tree → bytes → list (result bytes (bytes * bytes));
  tree_get : Tree → bytes → result bytes (option bytes);
  tree_contents : Tree → gmap bytes bytes;
  tree_iter_spec t : items_of (tree_iter t) (entries (tree_contents t));
  tree_range_spec t after :
    items_of (tree_range_excluded t after)
      (filter (λ e, bytes_lt after e.1) (entries (tree_contents t)));
  tree_get_spec t k v : tree_get t k = Ok v → v = tree_contents t !! k
}.

(** ** The cursor *)

Definition CURSOR_KEY : bytes := str "sled_migrate/cursor".
Definition FORMAT_KEY : bytes := str "format_version".
Definition COPY_BATCH : nat := 64.
Definition SLED_TREES : list bytes := [str "offsets"; str "wal_catalog"; str "stream_state"].

Inductive Drain : Type := OneBatch | UntilComplete.

#[global] Instance Drain_eq_dec : EqDecision Drain.
Proof. solve_decision. Defined.

Inductive MigrateStatus : Type :=
| NoSled
| InProgress (tree : bytes) (remaining_hint : N)
| Complete (archived_to : bytes).

Record Cursor : Type := {
  tree_index : N;
  last_key : bytes;
  keys_copied : N;
  checksum : bytes
}.

#[global] Instance Cursor_eq_dec : EqDecision Cursor.
Proof. solve_decision. Defined.
#[global] Instance Cursor_countable : Countable Cursor.
Proof.
  apply (inj_countable' (λ c, (tree_index c, last_key c, keys_copied c, checksum c))
    (λ '(a, b, c, d), Build_Cursor a b c d)). by intros [].
Defined.

(** A [u64] sum in a release build. *)
Definition wrapping_add64 (x y : N) : N := ((x + y) mod (U64_MAX + 1))%N.

Section migrate.
Context {RC : Codec Cursor} {DG : Digest}.
Context {S W Db Tree : Type} `{SkipprStore S} `{SledWorld W Db Tree}.

Definition cursor_checksum (i : N) (last : bytes) (n : N) : bytes :=
  sha256 (u64_le i ++ u64_le n ++ last).

Definition Cursor_signed (i : N) (last : bytes) (n : N) : Cursor :=
  {| tree_index := i; last_key := last; keys_copied := n;
     checksum := cursor_checksum i last n |}.

Definition Cursor_verify (c : Cursor) : result CatalogError unit :=
  if decide (cursor_checksum (tree_index c) (last_key c) (keys_copied c) = checksum c)
  then Ok tt
  else Err (IoError (str "sled migrate cursor checksum mismatch")).

Definition family_for_sled_key (tree key : bytes) : StoreFamily :=
  if decide (tree = str "offsets") then
    if starts_with key (str "migration#") then Journal else Offsets
  else if decide (tree = str "wal_catalog") then Catalog
  else if decide (tree = str "stream_state") then StreamState
  else StoreMeta.

(** The store is the first half of the state, sled and the file system the second. *)
Definition on_store {E A} (m : st S E A) : st (S * W) E A :=
  λ x, let '(r, s') := m x.1 in (r, (s', x.2)).
Definition on_world {E A} (m : st W E A) : st (S * W) E A :=
  λ x, let '(r, w') := m x.2 in (r, (x.1, w')).

Definition parse_cursor (o : option bytes) : result CatalogError Cursor :=
  match o with
  | None => Ok (Cursor_signed 0 [] 0)
  | Some bs =>
      let? cursor := map_err CodecError (deserialize bs) in
      Cursor_verify cursor ;?
      Ok cursor
  end.

Definition load_cursor (s : S) : result CatalogError Cursor :=
  let? o := kv_get s (family_key StoreMeta CURSOR_KEY) in
  parse_cursor o.

Definition persist_cursor (fence : CatalogFence) (cursor : Cursor) : st S CatalogError unit :=
  do? bs := slift (map_err CodecError (serialize cursor)) in
  kv_commit [KvPut (family_key StoreMeta CURSOR_KEY) bs] fence.

Definition ensure_format (fence : CatalogFence) : st S CatalogError unit :=
  let key := family_key StoreMeta FORMAT_KEY in
  do? o := sread (λ s, kv_get s key) in
  match o with
  | Some _ => sret tt
  | None => kv_commit [KvPut key (u32_le STORE_FORMAT_VERSION)] fence
  end.

Definition open_existing_tree (db : Db) (name : bytes) : result CatalogError (option Tree) :=
  if existsb (λ n, bool_decide (n = name)) (tree_names db)
  then map_err IoError (rmap Some (open_tree db name))
  else Ok None.

Definition range_after (tree : Tree) (after : bytes) : list (result bytes (bytes * bytes)) :=
  match after with
  | [] => tree_iter tree
  | _ => tree_range_excluded tree after
  end.

(** The [for] loop of one batch: the puts, how many, and the last key copied. *)
Fixpoint copy_loop (tree_name : bytes) (items : list (result bytes (bytes * bytes)))
    (ops : list KvOp) (copied : nat) (last : bytes)
    : result CatalogError (list KvOp * nat * bytes) :=
  match items with
  | [] => Ok (ops, copied, last)
  | item :: items' =>
      match item with
      | Err e => Err (IoError e)
      | Ok (key, value) =>
          let family := family_for_sled_key tree_name key in
          let ops' := ops ++ [KvPut (family_key family key) value] in
          let copied' := copied + 1 in
          if decide (COPY_BATCH ≤ copied') then Ok (ops', copied', key)
          else copy_loop tree_name items' ops' copied' key
      end
  end.

Definition archive_path (sled_path : bytes) (seq : N) : bytes :=
  path_join (default sled_path (parent sled_path)) (str "db.sled-migrated-" ++ display_N seq).

Definition archive_sled (sled_path : bytes) (seq : N) : st W CatalogError bytes :=
  let archived := archive_path sled_path seq in
  smap_err IoError (fs_rename sled_path archived) ;!
  sret archived.

(** [cursor = Cursor::signed(cursor.tree_index + 1, Vec::new(), 0)], persisted. *)
Definition next_tree (fence : CatalogFence) (cursor : Cursor)
    : st (S * W) CatalogError (Cursor + MigrateStatus) :=
  let cursor' := Cursor_signed (tree_index cursor + 1) [] 0 in
  on_store (persist_cursor fence cursor') ;!
  sret (inl cursor').

(** One round of the [loop]. *)
Definition migrate_round (fence : CatalogFence) (sled_path : bytes) (seq : N) (drain : Drain)
    (db : Db) (cursor : Cursor) : st (S * W) CatalogError (Cursor + MigrateStatus) :=
  match SLED_TREES !! N.to_nat (tree_index cursor) with
  | None =>
      on_store kv_flush_durable ;!
      do? archived := on_world (archive_sled sled_path seq) in
      sret (inr (Complete archived))
  | Some tree_name =>
      do? tree := slift (open_existing_tree db tree_name) in
      match tree with
      | None => next_tree fence cursor
      | Some t =>
          do? r := slift (copy_loop tree_name (range_after t (last_key cursor)) [] 0
                            (last_key cursor)) in
          let '(ops, copied, last) := r in
          match ops with
          | [] => next_tree fence cursor
          | _ =>
              on_store (kv_commit ops fence) ;!
              let cursor' := Cursor_signed (tree_index cursor) last
                               (wrapping_add64 (keys_copied cursor) (N.of_nat copied)) in
              on_store (persist_cursor fence cursor') ;!
              if decide (drain = OneBatch)
              then sret (inr (InProgress tree_name (N.of_nat copied)))
              else sret (inl cursor')
          end
      end
  end.

Definition archived_name (sled_path : bytes) : bool :=
  match file_name sled_path with
  | Some n => starts_with n (str "db.sled-migrated-")
  | None => false
  end.

Definition migrate_inner (fuel : nat) (fence : CatalogFence) (sled_path : bytes) (seq : N)
    (drain : Drain) : st (S * W) CatalogError (option MigrateStatus) :=
  on_store (ensure_format fence) ;!
  do? ex := sread (λ x, Ok (fs_exists x.2 sled_path)) in
  if negb ex then sret (Some NoSled)
  else if archived_name sled_path then sret (Some NoSled)
  else
    do? db := sread (λ x, map_err (λ e, IoError (str "unreadable sled at " ++ sled_path
                                                   ++ str ": " ++ e))
                            (sled_open x.2 sled_path)) in
    do? cursor := on_store (sread load_cursor) in
    sloop fuel (migrate_round fence sled_path seq drain db) cursor.

Definition migrate_sled_db (fuel : nat) (fence : CatalogFence) (sled_path : bytes) (seq : N) :=
  migrate_inner fuel fence sled_path seq UntilComplete.

Definition migrate_sled_db_step (fuel : nat) (fence : CatalogFence) (sled_path : bytes)
    (seq : N) :=
  migrate_inner fuel fence sled_path seq OneBatch.

Definition sled_tree_of (family : StoreFamily) : option bytes :=
  match family with
  | Offsets | Journal => Some (str "offsets")
  | Catalog => Some (str "wal_catalog")
  | StreamState => Some (str "stream_state")
  | _ => None
  end.

Definition lookup_miss_in_sled (w : W) (sled_path : bytes) (family : StoreFamily) (rest : bytes)
    : result CatalogError (option bytes) :=
  if negb (fs_exists w sled_path) then Ok None
  else
    match sled_tree_of family with
    | None => Ok None
    | Some tree_name =>
        let? db := map_err IoError (sled_open w sled_path) in
        let? tree := open_existing_tree db tree_name in
        match tree with
        | None => Ok None
        | Some t => map_err IoError (tree_get t rest)
        end
    end.
End migrate.

#[global] Arguments persist_cursor : simpl never.
#[global] Arguments ensure_format : simpl never.

(** ** Store keys

    Families do not overlap, so a key determines its family and its rest. *)

Lemma family_key_inj f f' k k' :
  family_key f k = family_key f' k' → f = f' ∧ k = k'.
Proof.
  intros E. destruct f, f'; try (by apply (inj (app _)) in E; split);
    exfalso; by apply (f_equal (take 7)) in E; vm_compute in E.
Qed.

Lemma meta_keys_distinct : family_key StoreMeta CURSOR_KEY ≠ family_key StoreMeta FORMAT_KEY.
Proof. by vm_compute. Qed.

(** Where a sled key goes. *)
Definition target (name k : bytes) : bytes := family_key (family_for_sled_key name k) k.

Definition sled_put (name : bytes) (e : bytes * bytes) : KvOp := KvPut (target name e.1) e.2.

Lemma SLED_TREES_cases name :
  name ∈ SLED_TREES → name = str "offsets" ∨ name = str "wal_catalog" ∨ name = str "stream_state".
Proof. unfold SLED_TREES. set_solver. Qed.

Lemma target_inj name name' k k' :
  name ∈ SLED_TREES → name' ∈ SLED_TREES → target name k = target name' k' →
  name = name' ∧ k = k'.
Proof.
  intros H1 H2 E. apply family_key_inj in E as [E ->]. split; [|done].
  unfold family_for_sled_key in E.
  destruct (SLED_TREES_cases _ H1) as [->|[->| ->]], (SLED_TREES_cases _ H2) as [->|[->| ->]];
    try done; repeat case_decide; try done; by destruct (starts_with _ _).
Qed.

Lemma target_not_meta name k rest : name ∈ SLED_TREES → target name k ≠ family_key StoreMeta rest.
Proof.
  intros Hn E. apply family_key_inj in E as [E _]. unfold family_for_sled_key in E.
  destruct (SLED_TREES_cases _ Hn) as [->|[->| ->]]; repeat case_decide; try done.
  by destruct (starts_with _ _).
Qed.

(** ** One batch *)

Section batch.
Context {W Db Tree : Type} `{SledWorld W Db Tree}.

Lemma copy_loop_spec name items es ops0 n0 last0 ops n last :
  items_of items es → n0 < COPY_BATCH →
  copy_loop name items ops0 n0 last0 = Ok (ops, n, last) →
  ∃ taken rest, es = taken ++ rest ∧ ops = ops0 ++ (sled_put name <$> taken) ∧
    n = n0 + length taken ∧ last = default last0 (fst <$> list.last taken) ∧
    (n < COPY_BATCH → rest = []).
Proof.
  intros Hi. revert ops0 n0 last0; induction Hi as [|item [k v] items es Hit Hi IH];
    intros ops0 n0 last0 Hn Hc; simpl in Hc.
  { injection Hc as <- <- <-. exists [], []. simpl. rewrite app_nil_r, Nat.add_0_r. done. }
  destruct item as [[k' v']|e]; [|done]. destruct Hit as [[= -> ->]|]; [|done].
  case_decide as Hd.
  - injection Hc as <- <- <-. exists [(k, v)], es. split_and!; [done|done|simpl; lia|done|lia].
  - apply IH in Hc as (taken & rest & -> & -> & -> & -> & Hr); [|lia].
    exists ((k, v) :: taken), rest. split_and!; [done| |simpl; lia| |done].
    + csimpl. by rewrite <- app_assoc.
    + rewrite last_cons. by destruct (list.last taken).
Qed.

Lemma copy_loop_total name es ops0 n0 last0 :
  is_ok (copy_loop name (Ok <$> es) ops0 n0 last0) = true.
Proof.
  revert ops0 n0 last0; induction es as [|[k v] es IH]; intros; simpl; [done|].
  case_decide; [done|apply IH].
Qed.

(** What a tree still has to give past the last key copied. *)
Definition pending (m : gmap bytes bytes) (after : bytes) : list (bytes * bytes) :=
  filter (λ e, after = [] ∨ bytes_lt after e.1) (entries m).

Lemma range_after_items t after : items_of (range_after t after) (pending (tree_contents t) after).
Proof.
  unfold range_after, pending. destruct after as [|c after].
  - rewrite filter_all; [apply tree_iter_spec|]. apply Forall_forall. auto.
  - rewrite (list_filter_iff _ (λ e, bytes_lt (c :: after) e.1)); [apply tree_range_spec|].
    naive_solver.
Qed.

Lemma elem_of_pending m after k v :
  (k, v) ∈ pending m after ↔ m !! k = Some v ∧ (after = [] ∨ bytes_lt after k).
Proof. unfold pending. rewrite list_elem_of_filter, elem_of_entries. simpl. tauto. Qed.

(** A batch takes the smallest pending keys: what is left is past its last key. *)
Lemma pending_rest m after taken x rest :
  pending m after = (taken ++ [x]) ++ rest → x.1 ≠ [] → pending m x.1 = rest.
Proof.
  intros E Hx. assert (StronglySorted entry_lt (pending m after)) as Hs
    by apply StronglySorted_filter, entries_sorted.
  rewrite E, <- app_assoc in Hs. simpl in Hs.
  rewrite <- (filter_after_sorted entry_lt taken x rest entry_lt_irrefl entry_lt_asymm Hs).
  rewrite <- (app_assoc taken [x] rest) in E. simpl in E. rewrite <- E. unfold pending.
  rewrite filter_filter_and. apply list_filter_iff. intros e. unfold entry_lt.
  split; [|naive_solver]. intros [?|Hlt]; [done|]. split; [done|].
  destruct (decide (after = [])) as [|Ha]; [by left|right].
  assert (x ∈ pending m after) as Hin by (rewrite E; set_solver).
  destruct x as [kx vx]. apply elem_of_pending in Hin as [_ [?|Hax]]; [done|].
  eapply bytes_le_lt_trans; [|exact Hlt]. by apply bytes_lt_iff in Hax as [? _].
Qed.
End batch.

(** ** What has been copied *)

Section copied.
Context {RC : Codec Cursor} {DG : Digest}.
Context {W Db Tree : Type} `{SledWorld W Db Tree}.
Implicit Types (m : gmap bytes bytes) (db : Db).

Definition tree_map db (name : bytes) : gmap bytes bytes :=
  match open_existing_tree db name with
  | Ok (Some t) => tree_contents t
  | _ => ∅
  end.

(** [copied_upto m db i last]: the store holds every pair of the trees before the
    [i]-th and those of the [i]-th up to the key [last]. *)
Definition copied_upto m db (i : N) (last : bytes) : Prop :=
  ∀ j name k v, SLED_TREES !! j = Some name → tree_map db name !! k = Some v →
    (j < N.to_nat i ∨ j = N.to_nat i ∧ last ≠ [] ∧ bytes_le k last) →
    m !! target name k = Some v.

(** A persisted cursor never runs ahead of the data. *)
Definition cursor_inv m db : Prop :=
  ∀ c, parse_cursor (m !! family_key StoreMeta CURSOR_KEY) = Ok c →
    copied_upto m db (tree_index c) (last_key c).

(** [sled_ext m m' db]: every sled pair the store held it still holds. *)
Definition sled_ext m m' db : Prop :=
  ∀ name k v, name ∈ SLED_TREES → tree_map db name !! k = Some v →
    m !! target name k = Some v → m' !! target name k = Some v.

Lemma SLED_TREES_elem j name : SLED_TREES !! j = Some name → name ∈ SLED_TREES.
Proof. apply list_elem_of_lookup_2. Qed.

Lemma copied_upto_ext m m' db i last :
  sled_ext m m' db → copied_upto m db i last → copied_upto m' db i last.
Proof.
  intros He Hc j name k v Hj Hk Hle. apply He; [by eapply SLED_TREES_elem|done|by eapply Hc].
Qed.

(** Writing sled pairs loses none of them and leaves the other keys. *)
Lemma sled_puts_lookup name es m key :
  apply_kv_ops (sled_put name <$> es) m !! key = m !! key ∨
  ∃ k v, (k, v) ∈ es ∧ key = target name k ∧
    apply_kv_ops (sled_put name <$> es) m !! key = Some v.
Proof.
  induction es as [|[k v] es IH] using rev_ind; [by left|].
  rewrite fmap_app, apply_kv_ops_app.
  change (apply_kv_ops (sled_put name <$> [(k, v)]) ?x) with (<[target name k := v]> x).
  destruct (decide (key = target name k)) as [->|Hne].
  - right. exists k, v. rewrite lookup_insert_eq. set_solver.
  - rewrite !lookup_insert_ne by done. destruct IH as [->|(k' & v' & Hin & -> & E)]; [by left|].
    right. exists k', v'. set_solver.
Qed.

Lemma sled_puts_ext name es m db :
  name ∈ SLED_TREES → (∀ k v, (k, v) ∈ es → tree_map db name !! k = Some v) →
  sled_ext m (apply_kv_ops (sled_put name <$> es) m) db.
Proof.
  intros Hn Hes name' k v Hn' Hk Hm.
  destruct (sled_puts_lookup name es m (target name' k)) as [->|(k' & v' & Hin & E & ->)]; [done|].
  apply target_inj in E as [-> ->]; [|done|done]. apply Hes in Hin. congruence.
Qed.

Lemma sled_puts_new name es m db k v :
  name ∈ SLED_TREES → (∀ k v, (k, v) ∈ es → tree_map db name !! k = Some v) → (k, v) ∈ es →
  apply_kv_ops (sled_put name <$> es) m !! target name k = Some v.
Proof.
  intros Hn Hes Hin.
  destruct (sled_puts_lookup name es m (target name k)) as [_|(k' & v' & Hin' & E & ->)].
  - apply list_elem_of_split in Hin as (l1 & l2 & ->).
    rewrite fmap_app, fmap_cons, apply_kv_ops_app.
    change (apply_kv_ops (sled_put name (k, v) :: (sled_put name <$> l2)) ?x)
      with (apply_kv_ops (sled_put name <$> l2) (<[target name k := v]> x)).
    destruct (sled_puts_lookup name l2
      (<[target name k := v]> (apply_kv_ops (sled_put name <$> l1) m)) (target name k))
      as [->|(k' & v' & Hin' & E & ->)]; [apply lookup_insert_eq|].
    apply target_inj in E as [_ ->]; [|done|done].
    assert (tree_map db name !! k' = Some v') as E1 by (apply Hes; set_solver).
    assert (tree_map db name !! k' = Some v) as E2 by (apply Hes; set_solver). congruence.
  - apply target_inj in E as [_ ->]; [|done|done]. f_equal.
    apply Hes in Hin, Hin'. congruence.
Qed.

Lemma sled_puts_meta name es m rest :
  name ∈ SLED_TREES →
  apply_kv_ops (sled_put name <$> es) m !! family_key StoreMeta rest =
  m !! family_key StoreMeta rest.
Proof.
  intros Hn. destruct (sled_puts_lookup name es m (family_key StoreMeta rest))
    as [->|(k & v & _ & E & _)]; [done|]. by apply eq_sym, target_not_meta in E.
Qed.

(** A write of the store's own metadata does not touch sled pairs. *)
Lemma meta_put_ext m db rest v : sled_ext m (<[family_key StoreMeta rest := v]> m) db.
Proof.
  intros name k v' Hn _ Hm. rewrite lookup_insert_ne; [done|].
  intros E. by apply eq_sym, target_not_meta in E.
Qed.

Lemma cursor_inv_ext m m' db :
  sled_ext m m' db →
  m' !! family_key StoreMeta CURSOR_KEY = m !! family_key StoreMeta CURSOR_KEY →
  cursor_inv m db → cursor_inv m' db.
Proof.
  intros He Hk Hi c Hp. rewrite Hk in Hp. eapply copied_upto_ext; [done|by apply Hi].
Qed.

Lemma parse_persisted i last n bs :
  serialize (Cursor_signed i last n) = Ok bs →
  parse_cursor (Some bs) = Ok (Cursor_signed i last n).
Proof.
  intros Hs. unfold parse_cursor. rewrite (deserialize_serialize _ _ Hs). simpl.
  unfold Cursor_verify. simpl. by rewrite decide_True.
Qed.

(** The batch just written brings the cursor forward. *)
Lemma copied_batch m db i name last0 taken rest :
  SLED_TREES !! N.to_nat i = Some name → copied_upto m db i last0 →
  pending (tree_map db name) last0 = taken ++ rest →
  copied_upto (apply_kv_ops (sled_put name <$> taken) m) db i
    (default last0 (fst <$> list.last taken)).
Proof.
  intros Hi Hc Hp. pose proof (SLED_TREES_elem _ _ Hi) as Hn.
  assert (∀ k v, (k, v) ∈ taken → tree_map db name !! k = Some v) as Hin.
  { intros k v Hx. assert ((k, v) ∈ pending (tree_map db name) last0) as Hy
      by (rewrite Hp; set_solver). by apply elem_of_pending in Hy as [? _]. }
  assert (sled_ext m (apply_kv_ops (sled_put name <$> taken) m) db) as He
    by by apply sled_puts_ext.
  intros j name' k v Hj Hk [Hlt|(-> & Hne & Hle)].
  { eapply copied_upto_ext; [done|exact Hc|done|done|by left]. }
  assert (name' = name) as -> by congruence.
  destruct (decide (last0 ≠ [] ∧ bytes_le k last0)) as [[Hl Hkl]|Hnl].
  { eapply copied_upto_ext; [done|exact Hc|done|done|by right]. }
  assert ((k, v) ∈ pending (tree_map db name) last0) as Hx.
  { apply elem_of_pending. split; [done|]. destruct (decide (last0 = [])); [by left|right].
    destruct (decide (bytes_lt last0 k)) as [|Hx]; [done|]. apply bytes_not_lt in Hx. naive_solver. }
  eapply sled_puts_new; [done|done|]. rewrite Hp in Hx. apply elem_of_app in Hx as [|Hx]; [done|].
  exfalso. destruct taken as [|[kl vl] taken _] using rev_ind; simpl in *.
  - apply Hnl. by rewrite ?last_nil in *.
  - rewrite last_snoc in Hle. simpl in Hle.
    assert (StronglySorted entry_lt (pending (tree_map db name) last0)) as Hs
      by apply StronglySorted_filter, entries_sorted.
    rewrite Hp, <- app_assoc in Hs. apply StronglySorted_app in Hs as (_ & _ & Hs).
    simpl in Hs. inversion Hs as [|?? _ Hf]; subst. rewrite Forall_forall in Hf.
    specialize (Hf _ Hx). unfold entry_lt in Hf. simpl in Hf.
    by apply bytes_lt_irrefl with k, (bytes_le_lt_trans _ kl).
Qed.

(** A tree with nothing pending is done. *)
Lemma copied_next_tree m db i last :
  (∀ name, SLED_TREES !! N.to_nat i = Some name → pending (tree_map db name) last = []) →
  copied_upto m db i last → copied_upto m db (i + 1) [].
Proof.
  intros Hp Hc j name k v Hj Hk [Hlt|(_ & ? & _)]; [|done].
  destruct (decide (j = N.to_nat i)) as [->|Hne]; [|eapply Hc; [done|done|left; lia]].
  eapply Hc; [done|done|right]. split; [done|].
  assert ((k, v) ∉ pending (tree_map db name) last) as Hn by (rewrite (Hp name) by done; set_solver).
  rewrite elem_of_pending in Hn. destruct (decide (last = [])); [naive_solver|]. split; [done|].
  apply bytes_not_lt. naive_solver.
Qed.
End copied.

(** ** The loop keeps the cursor behind the data, on any store *)

Section crash.
Context {RC : Codec Cursor} {DG : Digest}.
Context {S W Db Tree : Type} `{StoreLaws S} `{SledWorld W Db Tree}.
Implicit Types (db : Db) (s : S).

Lemma commit_cases ops fence s r s' :
  kv_commit ops fence s = (r, s') →
  contents s' = apply_kv_ops ops (contents s) ∨ (is_ok r = false ∧ contents s' = contents s).
Proof.
  destruct r as [[]|e]; intros E.
  - left. by apply kv_commit_Ok in E.
  - apply kv_commit_Err in E as [?|?]; auto.
Qed.

Lemma persist_cursor_inv fence db i last n s r s' :
  persist_cursor fence (Cursor_signed i last n) s = (r, s') →
  cursor_inv (contents s) db → copied_upto (contents s) db i last →
  cursor_inv (contents s') db ∧ copied_upto (contents s') db i last.
Proof.
  unfold persist_cursor, sbind, slift. intros Hp Hi Hc.
  destruct (serialize (Cursor_signed i last n)) as [bs|e] eqn:Es; [|by injection Hp as <- <-].
  cbn [map_err] in Hp. apply commit_cases in Hp as [E|[_ E]]; [|by rewrite E].
  assert (copied_upto (contents s') db i last) as Hc'.
  { rewrite E. eapply copied_upto_ext; [apply meta_put_ext|done]. }
  split; [|done]. intros c Hp.
  assert (contents s' !! family_key StoreMeta CURSOR_KEY = Some bs) as Hk
    by (rewrite E; apply lookup_insert_eq).
  rewrite Hk, (parse_persisted _ _ _ _ Es) in Hp. by injection Hp as <-.
Qed.

Definition loop_inv db (c : Cursor) (x : S * W) : Prop :=
  cursor_inv (contents x.1) db ∧ copied_upto (contents x.1) db (tree_index c) (last_key c).

Lemma next_tree_inv fence db c x r x' :
  loop_inv db c x →
  (∀ name, SLED_TREES !! N.to_nat (tree_index c) = Some name →
     pending (tree_map db name) (last_key c) = []) →
  next_tree fence c x = (r, x') →
  cursor_inv (contents x'.1) db ∧ ∀ c', r = Ok (inl c') → loop_inv db c' x'.
Proof.
  intros [Hi Hc] Hp. unfold next_tree, on_store, sbind. destruct x as [s w]. simpl in *.
  pose proof (copied_next_tree _ _ _ _ Hp Hc) as Hn.
  destruct (persist_cursor fence _ s) as [rp s'] eqn:Ep.
  pose proof (persist_cursor_inv _ _ _ _ _ _ _ _ Ep Hi Hn) as [Hi' Hc'].
  destruct rp as [[]|e]; intros E; injection E as <- <-; simpl; [|done].
  split; [done|]. intros c' [= <-]. done.
Qed.

Lemma tree_map_open db name t :
  open_existing_tree db name = Ok (Some t) → tree_map db name = tree_contents t.
Proof. unfold tree_map. by intros ->. Qed.

Lemma migrate_round_inv fence path seq drain db c x r x' :
  loop_inv db c x → migrate_round fence path seq drain db c x = (r, x') →
  cursor_inv (contents x'.1) db ∧ ∀ c', r = Ok (inl c') → loop_inv db c' x'.
Proof.
  intros Hinv. unfold migrate_round.
  destruct (SLED_TREES !! N.to_nat (tree_index c)) as [name|] eqn:En.
  2:{ unfold on_store, on_world, archive_sled, smap_err, sbind, sret. destruct x as [s w].
      destruct Hinv as [Hi _]. simpl in *. pose proof (kv_flush_contents s) as Hf.
      destruct (kv_flush_durable s) as [[[]|e] s1]; simpl in *.
      - destruct (fs_rename _ _ w) as [[[]|e] w1]; intros E; injection E as <- <-; simpl;
          by rewrite Hf.
      - intros E; injection E as <- <-. simpl. by rewrite Hf. }
  unfold sbind at 1, slift.
  destruct (open_existing_tree db name) as [[t|]|e] eqn:Et.
  3:{ intros E; injection E as <- <-. by destruct Hinv. }
  2:{ apply next_tree_inv; [done|]. intros name' Hn'. assert (name' = name) as -> by congruence.
      unfold tree_map. by rewrite Et. }
  unfold sbind at 1.
  destruct (copy_loop name (range_after t (last_key c)) [] 0 (last_key c))
    as [[[ops n] last]|e] eqn:Ec.
  2:{ intros E; injection E as <- <-. by destruct Hinv. }
  apply (copy_loop_spec _ _ (pending (tree_contents t) (last_key c))) in Ec
    as (taken & rest & Hp & -> & -> & -> & Hr); [|apply range_after_items|unfold COPY_BATCH; lia].
  rewrite <- (tree_map_open _ _ _ Et) in Hp. rewrite !app_nil_l, !Nat.add_0_l in *.
  destruct taken as [|e taken].
  { apply next_tree_inv; [done|]. intros name' Hn'. assert (name' = name) as -> by congruence.
    rewrite Hp. simpl. apply Hr. simpl. unfold COPY_BATCH. lia. }
  destruct (sled_put name <$> e :: taken) as [|op0 ops0] eqn:Eops; [done|].
  rewrite <- Eops. clear op0 ops0 Eops. revert Hp. generalize (e :: taken). clear e taken Hr. intros taken Hp.
  destruct x as [s w], Hinv as [Hi Hc]. simpl in Hi, Hc.
  pose proof (copied_batch _ _ _ _ _ _ _ En Hc Hp) as Hb.
  unfold on_store, sbind. simpl. destruct (kv_commit _ fence s) as [rc s1] eqn:Ek.
  assert (cursor_inv (apply_kv_ops (sled_put name <$> taken) (contents s)) db) as Hi1.
  { pose proof (SLED_TREES_elem _ _ En) as Hn.
    eapply cursor_inv_ext; [apply sled_puts_ext|by apply sled_puts_meta|done]; [done|].
    intros k v Hx. assert ((k, v) ∈ pending (tree_map db name) (last_key c)) as Hy
      by (rewrite Hp; set_solver). by apply elem_of_pending in Hy as [? _]. }
  apply commit_cases in Ek as [E1|[Herr E1]].
  2:{ destruct rc; [done|]. intros E; injection E as <- <-. simpl. by rewrite E1. }
  destruct rc as [[]|e]; [|intros E; injection E as <- <-; simpl; by rewrite E1].
  rewrite <- E1 in Hi1, Hb. simpl fst. simpl snd.
  destruct (persist_cursor fence _ s1) as [rp s2] eqn:Ep.
  pose proof (persist_cursor_inv _ _ _ _ _ _ _ _ Ep Hi1 Hb) as [Hi2 Hc2].
  destruct rp as [[]|e]; [|by intros E; injection E as <- <-].
  case_decide; intros E; injection E as <- <-; (split; [done|]); [done|].
  intros c' [= <-]. done.
Qed.

Lemma migrate_loop_inv fuel fence path seq drain db c x :
  loop_inv db c x →
  cursor_inv (contents (sloop fuel (migrate_round fence path seq drain db) c x).2.1) db.
Proof.
  revert c x; induction fuel as [|fuel IH]; intros c x Hinv; [by destruct Hinv|].
  cbn [sloop]. unfold sbind.
  destruct (migrate_round fence path seq drain db c x) as [r x'] eqn:Er.
  apply migrate_round_inv in Er as [Hi Hl]; [|done].
  destruct r as [[c'|st]|e]; [|done|done]. apply IH. by apply Hl.
Qed.

Lemma ensure_format_contents fence s r s' :
  ensure_format fence s = (r, s') →
  contents s' = contents s ∨
  contents s' = <[family_key StoreMeta FORMAT_KEY := u32_le STORE_FORMAT_VERSION]> (contents s).
Proof.
  unfold ensure_format, sbind, sread.
  destruct (kv_get s _) as [[v|]|e]; [intros [= _ <-]; auto| |intros [= _ <-]; auto].
  intros E. apply commit_cases in E as [->|[_ ->]]; auto.
Qed.

Lemma ensure_format_inv fence db s r s' :
  ensure_format fence s = (r, s') → cursor_inv (contents s) db → cursor_inv (contents s') db.
Proof.
  intros E Hi. apply ensure_format_contents in E as [->| ->]; [done|].
  eapply cursor_inv_ext; [apply meta_put_ext| |done]. apply lookup_insert_ne.
  apply not_eq_sym, meta_keys_distinct.
Qed.
End crash.

(** ** The loop ends, on a store and a sled database that work *)

Section complete.
Context {RC : Codec Cursor} {DG : Digest}.
Context {S W Db Tree : Type} `{HT : StoreTotal S} `{SledWorld W Db Tree}.
Implicit Types (db : Db) (s : S) (w : W).

Definition healthy_items (t : Tree) : Prop :=
  tree_iter t = Ok <$> entries (tree_contents t) ∧
  ∀ after, tree_range_excluded t after =
    Ok <$> filter (λ e, bytes_lt after e.1) (entries (tree_contents t)).

(** Every tree opens, iterates without I/O errors and has no empty key. *)
Record healthy_db db : Prop := {
  healthy_open name : name ∈ tree_names db →
    ∃ t, open_tree db name = Ok t ∧ healthy_items t;
  healthy_keys name : tree_map db name !! [] = None
}.

Definition total_keys db : nat :=
  list_sum ((λ name, size (tree_map db name)) <$> SLED_TREES).

(** The rounds left: a batch takes a key at least, a finished tree one round. *)
Definition todo db (names : list bytes) (after : bytes) : nat :=
  match names with
  | [] => 0
  | name :: names' =>
      1 + length (pending (tree_map db name) after) +
      list_sum ((λ n, 1 + size (tree_map db n)) <$> names')
  end.

Lemma pending_nil m : length (pending m []) = size m.
Proof.
  unfold pending. rewrite filter_all by (apply Forall_forall; auto).
  by rewrite entries_perm, length_map_to_list.
Qed.

Lemma pending_le m after : length (pending m after) ≤ size m.
Proof.
  rewrite <- (pending_nil m). unfold pending at 2.
  rewrite filter_all by (apply Forall_forall; auto). apply length_filter.
Qed.

Lemma todo_start db i last :
  todo db (drop i SLED_TREES) last ≤ 3 + total_keys db.
Proof.
  pose proof (λ n, pending_le (tree_map db n) last) as Hle.
  unfold todo, total_keys, SLED_TREES. destruct i as [|[|[|i]]]; csimpl; [| | |by rewrite drop_nil; lia].
  - specialize (Hle (str "offsets")). lia.
  - specialize (Hle (str "wal_catalog")). lia.
  - specialize (Hle (str "stream_state")). lia.
Qed.

Lemma todo_next db i name last :
  SLED_TREES !! i = Some name → pending (tree_map db name) last = [] →
  todo db (drop (Datatypes.S i) SLED_TREES) [] < todo db (drop i SLED_TREES) last.
Proof.
  intros Hi Hp. rewrite (drop_S SLED_TREES name i Hi). unfold todo at 2. rewrite Hp.
  generalize (drop (Datatypes.S i) SLED_TREES). intros names.
  destruct names as [|n names]; unfold todo; csimpl; [lia|]. rewrite pending_nil. lia.
Qed.

Lemma todo_batch db i name last taken x rest :
  SLED_TREES !! i = Some name →
  pending (tree_map db name) last = (taken ++ [x]) ++ rest → x.1 ≠ [] →
  todo db (drop i SLED_TREES) x.1 < todo db (drop i SLED_TREES) last.
Proof.
  intros Hi Hp Hx. rewrite (drop_S SLED_TREES name i Hi). unfold todo.
  rewrite (pending_rest _ _ _ _ _ Hp Hx), Hp, !length_app. simpl. lia.
Qed.

Lemma healthy_range t after :
  healthy_items t → range_after t after = Ok <$> pending (tree_contents t) after.
Proof.
  intros [Hi Hr]. unfold range_after, pending. destruct after as [|c after].
  - by rewrite Hi, filter_all by (apply Forall_forall; auto).
  - rewrite Hr. f_equal. apply list_filter_iff. naive_solver.
Qed.

Lemma open_existing_healthy db name :
  healthy_db db →
  (open_existing_tree db name = Ok None ∧ tree_map db name = ∅) ∨
  ∃ t, open_existing_tree db name = Ok (Some t) ∧ tree_map db name = tree_contents t ∧
    healthy_items t.
Proof.
  intros Hh. unfold tree_map, open_existing_tree.
  destruct (existsb _ (tree_names db)) eqn:E; [|by left]. right.
  apply existsb_exists in E as (n & Hin & Hn%bool_decide_eq_true). subst n.
  destruct (healthy_open _ Hh name) as (t & Ht & Hit); [by apply list_elem_of_In|].
  exists t. rewrite Ht. done.
Qed.

(** Keys the migration does not write. *)
Definition foreign db (key : bytes) : Prop :=
  key ≠ family_key StoreMeta CURSOR_KEY ∧ key ≠ family_key StoreMeta FORMAT_KEY ∧
  ∀ name k v, name ∈ SLED_TREES → tree_map db name !! k = Some v → key ≠ target name k.

Context (Hser : ∀ c : Cursor, is_ok (serialize c) = true).

Lemma persist_run fence c s :
  accepts s fence = true →
  ∃ s', persist_cursor fence c s = (Ok tt, s') ∧ accepts s' = accepts s ∧
    ∀ key, key ≠ family_key StoreMeta CURSOR_KEY → contents s' !! key = contents s !! key.
Proof.
  intros Ha. unfold persist_cursor, sbind, slift. specialize (Hser c).
  destruct (serialize c) as [bs|]; [|done]. cbn [map_err].
  pose proof (kv_commit_total [KvPut (family_key StoreMeta CURSOR_KEY) bs] fence s Ha) as Ht.
  pose proof (kv_commit_accepts [KvPut (family_key StoreMeta CURSOR_KEY) bs] fence s) as Hacc.
  destruct (kv_commit _ fence s) as [[[]|] s'] eqn:E; [|done]. exists s'. split_and!; [done|done|].
  intros key Hk. apply kv_commit_Ok in E. rewrite E. by apply lookup_insert_ne.
Qed.

Lemma next_tree_run fence c s w :
  accepts s fence = true →
  ∃ s', next_tree fence c (s, w) = (Ok (inl (Cursor_signed (tree_index c + 1) [] 0)), (s', w)) ∧
    accepts s' = accepts s ∧
    ∀ key, key ≠ family_key StoreMeta CURSOR_KEY → contents s' !! key = contents s !! key.
Proof.
  intros Ha. destruct (persist_run fence (Cursor_signed (tree_index c + 1) [] 0) s Ha)
    as (s' & Hp & ? & ?). exists s'. split_and!; [|done|done].
  unfold next_tree, on_store, sbind. simpl. by rewrite Hp.
Qed.

Lemma batch_nonempty_key db name last taken x rest :
  healthy_db db → pending (tree_map db name) last = (taken ++ [x]) ++ rest → x.1 ≠ [].
Proof.
  intros Hh Hp Hx. assert (x ∈ pending (tree_map db name) last) as Hin
    by (rewrite Hp; set_solver).
  destruct x as [k v]. simpl in Hx. subst k. apply elem_of_pending in Hin as [Hin _].
  by rewrite (healthy_keys _ Hh) in Hin.
Qed.

Lemma migrate_round_run fence path seq db c name s w :
  healthy_db db → accepts s fence = true →
  SLED_TREES !! N.to_nat (tree_index c) = Some name →
  ∃ c' s', migrate_round fence path seq UntilComplete db c (s, w) = (Ok (inl c'), (s', w)) ∧
    accepts s' = accepts s ∧
    todo db (drop (N.to_nat (tree_index c')) SLED_TREES) (last_key c') <
      todo db (drop (N.to_nat (tree_index c)) SLED_TREES) (last_key c) ∧
    ∀ key, foreign db key → contents s' !! key = contents s !! key.
Proof.
  intros Hh Ha En. unfold migrate_round. rewrite En. unfold sbind at 1, slift.
  assert (pending (tree_map db name) (last_key c) = [] →
    ∃ c' s', next_tree fence c (s, w) = (Ok (inl c'), (s', w)) ∧ accepts s' = accepts s ∧
    todo db (drop (N.to_nat (tree_index c')) SLED_TREES) (last_key c') <
      todo db (drop (N.to_nat (tree_index c)) SLED_TREES) (last_key c) ∧
    ∀ key, foreign db key → contents s' !! key = contents s !! key) as Hnext.
  { intros Hp. destruct (next_tree_run fence c s w Ha) as (s' & Hn & Ha' & Hk).
    eexists _, s'. split_and!; [exact Hn|done| |].
    - simpl. rewrite N2Nat.inj_add. rewrite Nat.add_1_r. by eapply todo_next.
    - intros key [? _]. by apply Hk. }
  destruct (open_existing_healthy db name Hh) as [[-> Hm]|(t & -> & Hm & Hit)].
  { apply Hnext. by rewrite Hm. }
  rewrite (healthy_range _ _ Hit). unfold sbind at 1.
  pose proof (copy_loop_total name (pending (tree_contents t) (last_key c)) [] 0 (last_key c)) as Ht.
  destruct (copy_loop name _ [] 0 (last_key c)) as [[[ops n] last]|e] eqn:Ec; [|done]. clear Ht.
  rewrite <- (healthy_range _ _ Hit) in Ec.
  apply (copy_loop_spec _ _ (pending (tree_contents t) (last_key c))) in Ec
    as (taken & rest & Hp & -> & -> & -> & Hr); [|apply range_after_items|unfold COPY_BATCH; lia].
  rewrite <- Hm in Hp. rewrite !app_nil_l, !Nat.add_0_l in *.
  destruct taken as [|x taken _] using rev_ind.
  { apply Hnext. rewrite Hp. apply Hr. simpl. unfold COPY_BATCH. lia. }
  assert (∀ k v, (k, v) ∈ taken ++ [x] → tree_map db name !! k = Some v) as Hin.
  { intros k v Hx. assert ((k, v) ∈ pending (tree_map db name) (last_key c)) as Hy
      by (rewrite Hp; set_solver). by apply elem_of_pending in Hy as [? _]. }
  pose proof (batch_nonempty_key _ _ _ _ _ _ Hh Hp) as Hx.
  destruct (sled_put name <$> taken ++ [x]) as [|op0 ops0] eqn:Eops.
  { by apply fmap_nil_inv, app_nil in Eops as [_ ?]. }
  rewrite <- Eops. clear op0 ops0 Eops. rewrite last_snoc. simpl default.
  pose proof (kv_commit_total (sled_put name <$> taken ++ [x]) fence s Ha) as Htc.
  pose proof (kv_commit_accepts (sled_put name <$> taken ++ [x]) fence s) as Hacc.
  unfold on_store, sbind. simpl fst. simpl snd.
  destruct (kv_commit _ fence s) as [[[]|] s1] eqn:Ek; [|done]. apply kv_commit_Ok in Ek.
  simpl fst. simpl snd in *.
  destruct (persist_run fence (Cursor_signed (tree_index c) x.1
    (wrapping_add64 (keys_copied c) (N.of_nat (length (taken ++ [x]))))) s1)
    as (s2 & Hs2 & Ha2 & Hk2); [congruence|].
  rewrite Hs2. eexists _, s2. split_and!; [done|congruence| |].
  - simpl. by eapply todo_batch.
  - intros key (Hck & _ & Hf). rewrite Hk2 by done. rewrite Ek.
    destruct (sled_puts_lookup name (taken ++ [x]) (contents s) key)
      as [->|(k & v & Hkv & -> & _)]; [done|].
    destruct (Hf name k v); [by eapply SLED_TREES_elem|by apply Hin|done].
Qed.

Lemma migrate_loop_run fuel fence path seq db c s w w' :
  healthy_db db → accepts s fence = true → loop_inv db c (s, w) →
  fs_rename path (archive_path path seq) w = (Ok tt, w') →
  todo db (drop (N.to_nat (tree_index c)) SLED_TREES) (last_key c) < fuel →
  ∃ s', sloop fuel (migrate_round fence path seq UntilComplete db) c (s, w) =
          (Ok (Some (Complete (archive_path path seq))), (s', w')) ∧
    copied_upto (contents s') db 3 [] ∧
    ∀ key, foreign db key → contents s' !! key = contents s !! key.
Proof.
  intros Hh Ha Hl Hren. revert c s Ha Hl; induction fuel as [|fuel IH]; intros c s Ha Hl Hf; [lia|].
  cbn [sloop]. destruct (SLED_TREES !! N.to_nat (tree_index c)) as [name|] eqn:En.
  - destruct (migrate_round_run fence path seq db c name s w Hh Ha En)
      as (c' & s1 & Hr & Ha1 & Ht & Hk).
    rewrite (sbind_run _ _ _ _ _ Hr). pose proof (migrate_round_inv _ _ _ _ _ _ _ _ _ Hl Hr) as [_ Hl'].
    destruct (IH c' s1) as (s' & Hs' & Hc' & Hk'); [congruence|by apply Hl'|lia|].
    exists s'. split_and!; [done|done|]. intros key Hkey. rewrite Hk' by done. by apply Hk.
  - pose proof (kv_flush_total s) as Hft. pose proof (kv_flush_contents s) as Hfc.
    destruct (kv_flush_durable s) as [[[]|] s1] eqn:Ef; [|done]. simpl in Hfc.
    exists s1. split_and!.
    + assert (migrate_round fence path seq UntilComplete db c (s, w) =
        (Ok (inr (Complete (archive_path path seq))), (s1, w'))) as Hr.
      { unfold migrate_round. rewrite En.
        unfold on_store, on_world, archive_sled, smap_err, sbind. simpl. rewrite Ef. simpl.
        by rewrite Hren. }
      by rewrite (sbind_run _ _ _ _ _ Hr).
    + rewrite Hfc. destruct Hl as [_ Hc]. intros j nm k v Hj Hk _.
      eapply Hc; [done|done|left]. apply lookup_lt_Some in Hj. apply lookup_ge_None in En. lia.
    + intros. by rewrite Hfc.
Qed.
End complete.

(** ** A sled database in memory

    The world of the examples: databases by path, trees by name. *)

Definition MapDb : Type := gmap bytes (gmap bytes bytes).
Definition MapWorld : Type := gmap bytes MapDb.

#[global] Program Instance map_sled : SledWorld MapWorld MapDb (gmap bytes bytes) := {|
  fs_exists w p := bool_decide (is_Some (w !! p));
  fs_rename p q w :=
    match w !! p with
    | Some db => (Ok tt, <[q := db]> (delete p w))
    | None => (Err (str "not found"), w)
    end;
  sled_open w p := ok_or (str "not found") (w !! p);
  tree_names db := (map_to_list db).*1;
  open_tree db name := ok_or (str "no tree") (db !! name);
  tree_iter t := Ok <$> entries t;
  tree_range_excluded t after := Ok <$> filter (λ e, bytes_lt after e.1) (entries t);
  tree_get t k := Ok (t !! k);
  tree_contents t := t
|}.
Next Obligation.
  intros t. unfold items_of. apply Forall2_fmap_l, Forall_Forall2_diag, Forall_forall. auto.
Qed.
Next Obligation.
  intros t after. unfold items_of. apply Forall2_fmap_l, Forall_Forall2_diag, Forall_forall. auto.
Qed.
Next Obligation. intros t k v E. by inv_res. Qed.

Lemma map_db_healthy (db : MapDb) :
  (∀ name t, db !! name = Some t → t !! [] = None) → healthy_db db.
Proof.
  intros Hk. split.
  - intros name ([n t] & -> & Hin%elem_of_map_to_list)%list_elem_of_fmap. exists t.
    split; [exact (f_equal (ok_or (str "no tree")) Hin)|done].
  - intros name. unfold tree_map, open_existing_tree. destruct (existsb _ _); [|done].
    specialize (Hk name). revert Hk. cbn. generalize (db !! name).
    intros [t|] Hk; simpl; [by apply Hk|done].
Qed.

(** A run on a database that is there. *)
Lemma migrate_inner_opened {RC : Codec Cursor} {DG : Digest} {S W Db Tree}
    `{SkipprStore S} `{SledWorld W Db Tree} fuel fence path seq drain (s s1 : S) (w : W) (db : Db) :
  ensure_format fence s = (Ok tt, s1) → fs_exists w path = true →
  archived_name path = false → sled_open w path = Ok db →
  migrate_inner fuel fence path seq drain (s, w) =
  match load_cursor s1 with
  | Ok c => sloop fuel (migrate_round fence path seq drain db) c (s1, w)
  | Err e => (Err e, (s1, w))
  end.
Proof.
  intros Hf He Hn Ho. unfold migrate_inner, on_store, sbind, sread. cbn [fst snd].
  rewrite Hf. cbn [fst snd]. rewrite He, Hn. cbn [negb fst snd]. rewrite Ho. cbn [map_err fst snd].
  by destruct (load_cursor s1).
Qed.

Lemma ensure_format_run {S} `{StoreTotal S} fence (s : S) :
  accepts s fence = true →
  ∃ s1, ensure_format fence s = (Ok tt, s1) ∧ accepts s1 = accepts s ∧
    (∀ key, key ≠ family_key StoreMeta FORMAT_KEY → contents s1 !! key = contents s !! key).
Proof.
  intros Ha. assert (∃ s1, ensure_format fence s = (Ok tt, s1) ∧ accepts s1 = accepts s)
    as (s1 & E & Hacc).
  { unfold ensure_format, sbind, sread.
    pose proof (kv_get_total s (family_key StoreMeta FORMAT_KEY)) as Hg.
    destruct (kv_get s _) as [[v|]|]; [by exists s| |done].
    pose proof (kv_commit_total [KvPut (family_key StoreMeta FORMAT_KEY)
      (u32_le STORE_FORMAT_VERSION)] fence s Ha) as Hc.
    pose proof (kv_commit_accepts [KvPut (family_key StoreMeta FORMAT_KEY)
      (u32_le STORE_FORMAT_VERSION)] fence s) as Hacc.
    destruct (kv_commit _ fence s) as [[[]|] s1]; [by exists s1|done]. }
  exists s1. split_and!; [done|done|]. intros key Hk.
  apply ensure_format_contents in E as [->| ->]; [done|]. by rewrite lookup_insert_ne.
Qed.

Lemma load_cursor_Ok {RC : Codec Cursor} {DG : Digest} {S} `{StoreTotal S} (s : S) :
  load_cursor s = parse_cursor (contents s !! family_key StoreMeta CURSOR_KEY).
Proof.
  unfold load_cursor. pose proof (kv_get_total s (family_key StoreMeta CURSOR_KEY)) as Hg.
  destruct (kv_get s _) as [v|] eqn:E; [|done]. by apply kv_get_spec in E as ->.
Qed.

(** ** Properties *)





(** A damaged cursor stops the migration: when the stored cursor does not decode
    or its checksum does not match, the run fails with that error before it copies or
    archives anything; sled and every store key but the format marker are as before. *)
Theorem migrate_corrupt_cursor {RC : Codec Cursor} {DG : Digest} {S W Db Tree}
    `{StoreTotal S} `{SledWorld W Db Tree} fuel fence path seq drain (s : S) (w : W) (db : Db) e :
  accepts s fence = true → fs_exists w path = true → archived_name path = false →
  sled_open w path = Ok db →
  parse_cursor (contents s !! family_key StoreMeta CURSOR_KEY) = Err e →
  ∃ s', migrate_inner fuel fence path seq drain (s, w) = (Err e, (s', w)) ∧
    ∀ key, key ≠ family_key StoreMeta FORMAT_KEY → contents s' !! key = contents s !! key.
Proof.
  intros Ha He Hn Ho Hp. destruct (ensure_format_run fence s Ha) as (s1 & Hf & Ha1 & Hk1).
  exists s1. split; [|done]. rewrite (migrate_inner_opened _ _ _ _ _ s s1 w db) by done.
  rewrite load_cursor_Ok, Hk1 by (apply meta_keys_distinct). by rewrite Hp.
Qed.

(** A cursor whose count was changed after it was signed, with a digest of the whole
    input (the first 32 bytes of it). *)
Lemma migrate_corrupt_cursor_witness :
  let RC := countable_codec in let DG := toy_digest in
  let f := CatalogFence_local in
  let bad := {| tree_index := 2; last_key := []; keys_copied := 5;
                checksum := cursor_checksum 2 [] 4 |} in
  let bs := match serialize bad with Ok bs => bs | Err _ => [] end in
  let s := (kv_commit [KvPut (family_key StoreMeta CURSOR_KEY) bs] f (Memory_open f)).2 in
  let w : MapWorld := {[ str "db" := ∅ ]} in
  ∃ e s', migrate_inner 10 f (str "db") 1 UntilComplete (s, w) = (Err e, (s', w)).
Proof.
  intros RC DG f bad bs s w.
  destruct (migrate_corrupt_cursor 10 f (str "db") 1 UntilComplete s w ∅
    (IoError (str "sled migrate cursor checksum mismatch"))) as (s' & E & _).
  - reflexivity.
  - reflexivity.
  - reflexivity.
  - reflexivity.
  - vm_compute. reflexivity.
  - eexists _, s'. exact E.
Defined.

(** Reads that miss the store find what the migration will write: for a key of the
    three trees, [lookup_miss_in_sled] with the family the migration gives the key
    returns exactly the value sled holds, or [None] when it holds none. *)
Theorem lookup_miss_agrees {DG : Digest} {W Db Tree} `{SledWorld W Db Tree}
    (w : W) path (db : Db) name k v :
  fs_exists w path = true → sled_open w path = Ok db → name ∈ SLED_TREES →
  lookup_miss_in_sled w path (family_for_sled_key name k) k = Ok v →
  v = tree_map db name !! k.
Proof.
  intros He Ho Hn. unfold lookup_miss_in_sled. rewrite He, Ho. cbn [negb].
  assert (sled_tree_of (family_for_sled_key name k) = Some name) as ->.
  { unfold family_for_sled_key. destruct (SLED_TREES_cases _ Hn) as [->|[->| ->]];
      repeat case_decide; try done. by destruct (starts_with _ _). }
  cbn [map_err rbind]. unfold tree_map.
  destruct (open_existing_tree db name) as [[t|]|e]; cbn [rbind]; intros E; [|by inv_res|done].
  inv_res. by apply tree_get_spec.
Qed.

Lemma lookup_miss_agrees_witness :
  let DG := toy_digest in
  let db : MapDb := {[ str "offsets" := {[ str "migration#1" := str "v" ]} ]} in
  let w : MapWorld := {[ str "db" := db ]} in
  lookup_miss_in_sled w (str "db") Journal (str "migration#1") =
    Ok (tree_map db (str "offsets") !! str "migration#1").
Proof.
  intros DG db w.
  destruct (lookup_miss_in_sled w (str "db") Journal (str "migration#1")) as [v|e] eqn:E.
  - f_equal. eapply (lookup_miss_agrees w (str "db") db (str "offsets") (str "migration#1")).
    + reflexivity.
    + reflexivity.
    + by left.
    + exact E.
  - by vm_compute in E.
Defined.

(** ** The empty key

    [range_after] reads an empty [last_key] as "no key copied yet", so a batch that
    ends at the empty key is not recorded. *)

Section empty_key.
Context {RC : Codec Cursor} {DG : Digest}.
Context {S W Db Tree : Type} `{HT : StoreTotal S} `{SledWorld W Db Tree}.
Context (Hser : ∀ c : Cursor, is_ok (serialize c) = true).

Lemma migrate_round_stuck fence path seq (db : Db) c t v (s : S) (w : W) :
  accepts s fence = true → open_existing_tree db (str "offsets") = Ok (Some t) →
  tree_iter t = [Ok ([], v)] → tree_index c = 0%N → last_key c = [] →
  ∃ c' s', migrate_round fence path seq UntilComplete db c (s, w) = (Ok (inl c'), (s', w)) ∧
    accepts s' fence = true ∧ tree_index c' = 0%N ∧ last_key c' = [].
Proof.
  intros Ha Ht Hi Hz Hl. unfold migrate_round. rewrite Hz. unfold slift, sbind at 1.
  change (SLED_TREES !! N.to_nat 0) with (Some (str "offsets")). cbv iota. rewrite Ht, Hl.
  unfold range_after. rewrite Hi. cbn [copy_loop]. unfold sbind at 1.
  rewrite decide_False by (unfold COPY_BATCH; lia). cbn [app].
  match goal with |- context [on_store (kv_commit ?ops fence)] =>
    pose proof (kv_commit_total ops fence s Ha) as Htc;
    pose proof (kv_commit_accepts ops fence s) as Hacc end.
  unfold on_store, sbind. cbn [fst snd].
  destruct (kv_commit _ fence s) as [[[]|] s1]; [|done]. cbn [fst snd] in *.
  destruct (persist_run Hser fence (Cursor_signed 0 [] (wrapping_add64 (keys_copied c) 1)) s1)
    as (s2 & Hs2 & Ha2 & _); [congruence|].
  change (N.of_nat (0 + 1)) with 1%N. rewrite Hs2. eexists _, s2. split_and!; [done|congruence|done|done].
Qed.
End empty_key.

(** A tree whose only key is the empty key keeps the migration busy for ever: the
    cursor written after its batch reads as a fresh start, so the batch is copied again
    and no number of rounds reaches the next tree or the archive. *)
Theorem migrate_empty_key_diverges {RC : Codec Cursor} {DG : Digest} {S W Db Tree}
    `{StoreTotal S} `{SledWorld W Db Tree} fuel fence path seq (s : S) (w : W) (db : Db) t v :
  (∀ c : Cursor, is_ok (serialize c) = true) →
  accepts s fence = true → fs_exists w path = true → archived_name path = false →
  sled_open w path = Ok db → open_existing_tree db (str "offsets") = Ok (Some t) →
  tree_iter t = [Ok ([], v)] → contents s !! family_key StoreMeta CURSOR_KEY = None →
  (migrate_sled_db fuel fence path seq (s, w)).1 = Ok None.
Proof.
  intros Hser Ha He Hn Ho Ht Hi Hc.
  destruct (ensure_format_run fence s Ha) as (s1 & Hf & Ha1 & Hk1).
  unfold migrate_sled_db. rewrite (migrate_inner_opened _ _ _ _ _ s s1 w db) by done.
  rewrite load_cursor_Ok, Hk1, Hc by (apply meta_keys_distinct). cbn [parse_cursor].
  assert (accepts s1 fence = true) as Ha' by congruence. clear Hf Hk1 Ha1.
  assert (tree_index (Cursor_signed 0 [] 0) = 0%N) as Hz by done.
  assert (last_key (Cursor_signed 0 [] 0) = []) as Hl by done. revert Hz Hl Ha'.
  generalize (Cursor_signed 0 [] 0). revert s1.
  induction fuel as [|fuel IH]; intros s1 c Hz Hl Ha'; [done|]. cbn [sloop].
  destruct (migrate_round_stuck Hser fence path seq db c t v s1 w Ha' Ht Hi Hz Hl)
    as (c' & s2 & Hr & Ha2 & Hz' & Hl'). rewrite (sbind_run _ _ _ _ _ Hr). by apply IH.
Qed.

Lemma migrate_empty_key_diverges_witness :
  let RC := countable_codec in let DG := toy_digest in
  let f := CatalogFence_local in
  let db : MapDb := {[ str "offsets" := {[ [] := str "v" ]} ]} in
  let w : MapWorld := {[ str "db" := db ]} in
  (migrate_sled_db 1000 f (str "db") 1 (Memory_open f, w)).1 = Ok None.
Proof.
  intros RC DG f db w.
  apply (migrate_empty_key_diverges 1000 f (str "db") 1 (Memory_open f) w db
    {[ [] := str "v" ]} (str "v")); try reflexivity.
Defined.
