(* ===== verification/Formats.v ===== *)
(** * Formats: pipeline types, input formats and output formats

    Models src/pipeline_type.rs, src/serdes/input_format.rs and
    src/serdes/output_format.rs (their configuration logic; encoding Arrow batches is
    another crate's work). *)

From S2P Require Import Prelude Bytes Text.

(** ** Pipeline types (pipeline_type.rs) *)

Inductive PipelineType : Type := Ingest | Copy | Cdc.

#[global] Instance PipelineType_eq_dec : EqDecision PipelineType.
Proof. solve_decision. Defined.

Definition PipelineType_ALL : list PipelineType := [Ingest; Copy; Cdc].

Definition PipelineType_as_str (p : PipelineType) : bytes :=
  match p with
  | Ingest => str "ingest"
  | Copy => str "copy"
  | Cdc => str "cdc"
  end.

Definition deadletter_format_mode : PipelineType := Ingest.

Definition PipelineType_parse (raw : bytes) : option PipelineType :=
  assoc_text (to_ascii_lowercase (trim raw))
    [(str "ingest", Ingest); (str "copy", Copy); (str "cdc", Cdc)].

(** The tag on the runtime wire ([wire] serializes the discriminant as [u32]). *)
Definition PipelineType_tag (p : PipelineType) : N :=
  match p with Ingest => 0 | Copy => 1 | Cdc => 2 end.

Definition PipelineType_from_tag (n : N) : option PipelineType :=
  if (n =? 0)%N then Some Ingest
  else if (n =? 1)%N then Some Copy
  else if (n =? 2)%N then Some Cdc
  else None.

Definition resolve_pipeline_type (declared : option PipelineType) (has_cdc_block : bool)
    : result bytes PipelineType :=
  match declared, has_cdc_block with
  | None, false => Ok Ingest
  | None, true => Ok Cdc
  | Some Ingest, true =>
      Err (str "type: ingest cannot include a cdc: block; set type: cdc or remove cdc:")
  | Some Copy, true => Err (str "type: copy cannot include a cdc: block")
  | Some kind, _ => Ok kind
  end.

(** ** Input formats (input_format.rs) *)

Inductive InputFormat : Type :=
| InArrowIpc | InParquet | InAvro | InCsv | InXml | InJson.

#[global] Instance InputFormat_eq_dec : EqDecision InputFormat.
Proof. solve_decision. Defined.

Definition InputFormat_as_str (f : InputFormat) : bytes :=
  match f with
  | InArrowIpc => str "arrow_ipc"
  | InParquet => str "parquet"
  | InAvro => str "avro"
  | InCsv => str "csv"
  | InXml => str "xml"
  | InJson => str "json"
  end.

Definition InputFormat_from (value : bytes) : InputFormat :=
  default InJson
    (assoc_text (to_ascii_lowercase (trim value))
       [(str "arrow", InArrowIpc); (str "arrow_ipc", InArrowIpc); (str "arrow-ipc", InArrowIpc);
        (str "ipc", InArrowIpc); (str "parquet", InParquet); (str "avro", InAvro);
        (str "csv", InCsv); (str "xml", InXml)]).

Definition InputFormat_from_option (value : option bytes) : InputFormat :=
  default InJson (InputFormat_from <$> value).

Definition default_for_source_plugin (plugin_name : bytes) : InputFormat :=
  if decide (plugin_name = str "Otlp") then InArrowIpc else InJson.

Definition requires_whole_payload (f : InputFormat) : bool :=
  match f with
  | InArrowIpc | InParquet | InAvro | InCsv | InXml => true
  | InJson => false
  end.

Definition is_text (f : InputFormat) : bool :=
  match f with InJson | InCsv | InXml => true | _ => false end.

Definition is_schema_arrow (f : InputFormat) : bool :=
  match f with InArrowIpc | InParquet | InAvro => true | _ => false end.

(** ** Output formats (output_format.rs) *)

Inductive OutputFormat : Type := Native | Parquet | Jsonl | Csv | Xml.

#[global] Instance OutputFormat_eq_dec : EqDecision OutputFormat.
Proof. solve_decision. Defined.

Inductive ObjectBody : Type := Grouped | Identity.

Definition is_native (f : OutputFormat) : bool :=
  match f with Native => true | _ => false end.

Definition is_native_set (supported : list OutputFormat) : bool :=
  match supported with
  | [] => false
  | _ => forallb is_native supported
  end.

Definition extension (f : OutputFormat) : bytes :=
  match f with
  | Parquet => str "parquet"
  | Jsonl => str "jsonl"
  | Csv => str "csv"
  | Xml => str "xml"
  | Native => []
  end.

Definition content_type (f : OutputFormat) : bytes :=
  match f with
  | Parquet => str "application/vnd.apache.parquet"
  | Jsonl => str "application/x-ndjson"
  | Csv => str "text/csv"
  | Xml => str "application/xml"
  | Native => str "application/octet-stream"
  end.

Definition is_gzip_body (f : OutputFormat) (body : ObjectBody) : bool :=
  match body, f with
  | Identity, Jsonl => true
  | _, _ => false
  end.

Definition object_extension (f : OutputFormat) (body : ObjectBody) : bytes :=
  if is_gzip_body f body then str "jsonl.gz" else extension f.

Definition object_content_type (f : OutputFormat) (body : ObjectBody) : bytes :=
  if is_gzip_body f body then str "application/gzip" else content_type f.

Definition OutputFormat_as_str (f : OutputFormat) : bytes :=
  match f with
  | Native => str "native"
  | Parquet => str "parquet"
  | Jsonl => str "jsonl"
  | Csv => str "csv"
  | Xml => str "xml"
  end.

Definition legal_for (f : OutputFormat) (p : PipelineType) : bool :=
  match p with
  | Copy => match f with Jsonl | Csv | Xml => true | _ => false end
  | Ingest | Cdc => match f with Parquet | Jsonl => true | _ => false end
  end.

Definition supports (supported : list OutputFormat) (f : OutputFormat) : bool :=
  bool_decide (f ∈ supported).

Definition supports_copy_identity (supported : list OutputFormat) : bool :=
  supports supported Csv && supports supported Xml.

Definition default_for_copy_source (source : InputFormat) : OutputFormat :=
  match source with
  | InJson | InArrowIpc | InParquet | InAvro => Jsonl
  | InCsv => Csv
  | InXml => Xml
  end.

Definition parse_output_format (value : bytes) : result bytes OutputFormat :=
  let v := to_ascii_lowercase (trim value) in
  match assoc_text v [(str "parquet", Parquet); (str "jsonl", Jsonl); (str "json", Jsonl);
                      (str "csv", Csv); (str "xml", Xml)] with
  | Some f => Ok f
  | None =>
      if decide (v ∈ [str "native"; str "n/a"; str "na"; str "null"])
      then Err (str "'" ++ value ++ str "' is not a file format. Use parquet, jsonl, csv, or xml for file sinks, or omit format on table sinks (Postgres, Snowflake, Iceberg lakes).")
      else Err (str "unknown output format '" ++ v ++ str "'. File sinks accept parquet, jsonl, csv, or xml.")
  end.

Definition table_sink_rejects_format (plugin_name configured : bytes) : bytes :=
  str "data sink '" ++ plugin_name ++ str "' writes rows into tables, not Parquet or JSON Lines files, so `format` does not apply. Remove `format: " ++ configured ++ str "` from the sink config.".

(** [configured.map(str::trim).filter(|value| !value.is_empty())]. *)
Definition configured_text (configured : option bytes) : option bytes :=
  match configured with
  | None => None
  | Some v => match trim v with [] => None | t => Some t end
  end.

Fixpoint join_comma (ss : list bytes) : bytes :=
  match ss with
  | [] => []
  | [s] => s
  | s :: ss' => s ++ str ", " ++ join_comma ss'
  end.

Definition resolve_output_format (plugin_name : bytes) (supported : list OutputFormat)
    (default_format : option OutputFormat) (configured : option bytes) (p : PipelineType)
    (source : option InputFormat) : result bytes (option OutputFormat) :=
  if is_native_set supported then
    if decide (p = Copy) then
      Err (str "type: copy cannot write to table sink '" ++ plugin_name ++ str "'")
    else
      match configured_text configured with
      | Some c => Err (table_sink_rejects_format plugin_name c)
      | None => Ok None
      end
  else if existsb is_native supported then
    Err (str "data sink '" ++ plugin_name ++ str "' listed both table encoding (writes rows, no files) and file encodings. Use only Native for table sinks, or only file encodings for file sinks.")
  else if bool_decide (supported = []) then
    Err (str "data sink '" ++ plugin_name ++ str "' declares no supported_formats")
  else if bool_decide (p = Copy) && negb (supports_copy_identity supported) then
    Err (str "type: copy cannot write to '" ++ plugin_name ++ str "'; use S3, GCS, AzureBlob, File, or SFTP")
  else
    let? resolved :=
      match configured_text configured with
      | Some raw => parse_output_format raw
      | None =>
          if decide (p = Copy) then
            let? src := ok_or (str "type: copy requires an explicit sink format on '" ++ plugin_name ++ str "' when the source format is unknown") source in
            let family := default_for_copy_source src in
            if supports supported family then Ok family
            else Err (str "type: copy default format '" ++ OutputFormat_as_str family ++ str "' is not supported by '" ++ plugin_name ++ str "'. Set format: to one of " ++ join_comma (OutputFormat_as_str <$> supported))
          else
            ok_or (str "data sink '" ++ plugin_name ++ str "' declares formats but has no default_format") default_format
      end in
    if negb (legal_for resolved p) then
      Err (str "pipeline type " ++ PipelineType_as_str p ++ str " does not allow format '" ++ OutputFormat_as_str resolved ++ str "' on '" ++ plugin_name ++ str "'")
    else if is_native resolved || negb (supports supported resolved) then
      Err (str "data sink '" ++ plugin_name ++ str "' does not support format '" ++ OutputFormat_as_str resolved ++ str "'. Supported: " ++ join_comma (OutputFormat_as_str <$> supported))
    else Ok (Some resolved).

(** ** Lemmas *)

Lemma supports_spec supported f : supports supported f = true ↔ f ∈ supported.
Proof. unfold supports. by rewrite bool_decide_eq_true. Qed.

Lemma configured_text_Some c t : configured_text c = Some t → t ≠ [].
Proof. destruct c as [v|]; simpl; [|done]. case_match; naive_solver. Qed.

(** ** Properties *)

(** A resolved output format is one the sink and the pipeline accept: whatever is
    configured, [resolve_output_format] returns a format only when the sink declares
    it, the pipeline type allows it and it is a file encoding; it returns "no format"
    only for a table sink (all its encodings native) of a pipeline that is not a copy
    and has none configured. *)
Theorem resolve_output_format_sound plugin supported dflt configured p source r :
  resolve_output_format plugin supported dflt configured p source = Ok r →
  match r with
  | Some f => f ∈ supported ∧ legal_for f p = true ∧ f ≠ Native ∧ Native ∉ supported
  | None => is_native_set supported = true ∧ p ≠ Copy ∧ configured_text configured = None
  end.
Proof.
  unfold resolve_output_format. destruct (is_native_set supported) eqn:Ens.
  { case_decide; [done|]. destruct (configured_text configured); [done|]. intros E. by inv_res. }
  destruct (existsb is_native supported) eqn:Eex; [done|].
  case_bool_decide; [done|]. destruct (_ && negb _); [done|]. intros E.
  apply rbind_Ok in E as (f & _ & E).
  destruct (legal_for f p) eqn:El; [|done]. simpl in E.
  destruct (is_native f || negb (supports supported f)) eqn:Es; [done|]. inv_res.
  apply orb_false_iff in Es as [Hn Hs%negb_false_iff]. apply supports_spec in Hs.
  split_and!; [done|done|by intros ->|]. intros Hin. assert (existsb is_native supported = true) as Hx.
  { apply existsb_exists. exists Native. by rewrite <- list_elem_of_In. }
  congruence.
Qed.

Lemma resolve_output_format_sound_witness :
  resolve_output_format (str "S3") [Parquet; Jsonl; Csv; Xml] (Some Parquet)
    (Some (str " CSV ")) Copy None = Ok (Some Csv) ∧ Csv ∈ [Parquet; Jsonl; Csv; Xml].
Proof.
  assert (resolve_output_format (str "S3") [Parquet; Jsonl; Csv; Xml] (Some Parquet)
    (Some (str " CSV ")) Copy None = Ok (Some Csv)) as E by (vm_compute; reflexivity).
  split; [exact E|]. exact (proj1 (resolve_output_format_sound _ _ _ _ _ _ (Some Csv) E)).
Defined.

(** Names and tags round-trip: a pipeline type, an input format and a file output
    format parse back from the text they print as, the native encoding's text is
    refused as a file format, and a wire tag is accepted exactly when it is the tag of
    the pipeline type it decodes to. *)
Theorem format_names_roundtrip :
  (∀ p, PipelineType_parse (PipelineType_as_str p) = Some p) ∧
  (∀ f, InputFormat_from (InputFormat_as_str f) = f) ∧
  (∀ f, is_ok (parse_output_format (OutputFormat_as_str f)) = negb (is_native f)) ∧
  (∀ f, f ≠ Native → parse_output_format (OutputFormat_as_str f) = Ok f) ∧
  (∀ n p, PipelineType_from_tag n = Some p ↔ PipelineType_tag p = n).
Proof.
  split_and!.
  - by intros [].
  - by intros [].
  - by intros [].
  - by intros [].
  - intros n p. unfold PipelineType_from_tag. split.
    + destruct (N.eqb_spec n 0), (N.eqb_spec n 1), (N.eqb_spec n 2); intros E; by simplify_eq.
    + intros <-. by destruct p.
Qed.
