(* ===== verification/Cdc.v ===== *)
(** * Cdc: change-data-capture contracts, checkpoints and capabilities

    Models src/plugins/cdc.rs up to its connector tables: business-key resolution and
    the per-pipeline contract registry, the checkpoint envelope, mutation and row
    metadata, capability descriptors, guarantee derivation and apply actions. *)

From S2P Require Import Prelude Bytes Text Lease Codec Formats.

(** ** Contracts *)

Inductive EffectiveGuarantee : Type := ExactOnceFinalState | CdcEncoded.
Inductive OrderTokenSemantics : Type := TotalOrder | KeyScopedOrder | SourceDefined.
Inductive NullKeyPolicy : Type := Reject | AllowEncodedOnly.

#[global] Instance EffectiveGuarantee_eq_dec : EqDecision EffectiveGuarantee.
Proof. solve_decision. Defined.
#[global] Instance OrderTokenSemantics_eq_dec : EqDecision OrderTokenSemantics.
Proof. solve_decision. Defined.
#[global] Instance NullKeyPolicy_eq_dec : EqDecision NullKeyPolicy.
Proof. solve_decision. Defined.

Record NamespaceContract : Type := {
  nc_namespace : bytes;
  business_key_columns : list bytes;
  effective_guarantee : EffectiveGuarantee;
  order_token_semantics : OrderTokenSemantics;
  null_key_policy : NullKeyPolicy;
  requires_skippr_system_columns : bool
}.

#[global] Instance NamespaceContract_eq_dec : EqDecision NamespaceContract.
Proof. solve_decision. Defined.

Definition with_namespace (ns : bytes) (c : NamespaceContract) : NamespaceContract := {|
  nc_namespace := ns;
  business_key_columns := business_key_columns c;
  effective_guarantee := effective_guarantee c;
  order_token_semantics := order_token_semantics c;
  null_key_policy := null_key_policy c;
  requires_skippr_system_columns := requires_skippr_system_columns c
|}.

Definition with_guarantee (g : EffectiveGuarantee) (c : NamespaceContract)
    : NamespaceContract := {|
  nc_namespace := nc_namespace c;
  business_key_columns := business_key_columns c;
  effective_guarantee := g;
  order_token_semantics := order_token_semantics c;
  null_key_policy := null_key_policy c;
  requires_skippr_system_columns := requires_skippr_system_columns c
|}.

Record CdcContracts : Type := {
  cc_default : option NamespaceContract;
  cc_namespaces : gmap bytes NamespaceContract
}.

Definition for_namespace (cs : CdcContracts) (ns : bytes) : option NamespaceContract :=
  match cc_namespaces cs !! ns with
  | Some c => Some c
  | None => with_namespace ns <$> cc_default cs
  end.

Definition CdcContracts_is_empty (cs : CdcContracts) : bool :=
  match cc_default cs with
  | None => bool_decide (cc_namespaces cs = ∅)
  | Some _ => false
  end.

Definition keys_contract (ns : bytes) (keys : list bytes) : NamespaceContract := {|
  nc_namespace := ns;
  business_key_columns := keys;
  effective_guarantee := CdcEncoded;
  order_token_semantics := SourceDefined;
  null_key_policy := Reject;
  requires_skippr_system_columns := true
|}.

(** The body of the loop over the named namespaces: a contract, or [continue]. *)
Definition named_contract (default_keys : list bytes) (source_keys : gmap bytes (list bytes))
    (ns : bytes) (yaml_keys : list bytes) : option NamespaceContract :=
  let keys := match yaml_keys with
              | [] => default default_keys (source_keys !! ns)
              | _ => yaml_keys
              end in
  match keys with
  | [] => None
  | _ => Some (keys_contract ns keys)
  end.

Definition resolve_business_keys (default_keys : list bytes)
    (named source_keys : gmap bytes (list bytes)) : CdcContracts := {|
  cc_default := match default_keys with
                | [] => None
                | _ => Some (keys_contract [] default_keys)
                end;
  cc_namespaces := map_imap (named_contract default_keys source_keys) named
|}.

(** ** The registry of a process

    [PIPELINE_CDC_CONTRACTS]: a map behind a lock that a panicking writer poisons. *)

Inductive CdcMapError : Type := Poisoned | EmptyContracts.

#[global] Instance PipelineKey_eq_dec : EqDecision PipelineKey.
Proof. solve_decision. Defined.
#[global] Instance PipelineKey_countable : Countable PipelineKey.
Proof.
  apply (inj_countable' (λ k, (tenant k, workspace k, pipeline k))
    (λ '(a, b, c), Build_PipelineKey a b c)). by intros [].
Defined.

Record Registry : Type := {
  reg_contracts : gmap PipelineKey CdcContracts;
  reg_poisoned : bool
}.

Definition install_pipeline_cdc_contracts (key : PipelineKey) (cs : CdcContracts)
    : st Registry CdcMapError unit :=
  λ r, if reg_poisoned r then (Err Poisoned, r)
       else (Ok tt, {| reg_contracts := <[key := cs]> (reg_contracts r);
                       reg_poisoned := reg_poisoned r |}).

Definition remove_pipeline_cdc_contracts (key : PipelineKey) : st Registry CdcMapError unit :=
  λ r, if reg_poisoned r then (Err Poisoned, r)
       else (Ok tt, {| reg_contracts := delete key (reg_contracts r);
                       reg_poisoned := reg_poisoned r |}).

Definition pipeline_cdc_contracts (r : Registry) (key : PipelineKey)
    : result CdcMapError (option CdcContracts) :=
  if reg_poisoned r then Err Poisoned else Ok (reg_contracts r !! key).

Definition stamp_guarantees (existing next : CdcContracts) : CdcContracts := {|
  cc_default :=
    match cc_default existing, cc_default next with
    | Some prev, Some cur => Some (with_guarantee (effective_guarantee prev) cur)
    | _, d => d
    end;
  cc_namespaces :=
    map_imap (λ ns c, Some match cc_namespaces existing !! ns with
                           | Some prev => with_guarantee (effective_guarantee prev) c
                           | None => c
                           end) (cc_namespaces next)
|}.

Definition reinstall_resolved_contracts (key : PipelineKey) (resolved : CdcContracts)
    : st Registry CdcMapError unit :=
  if CdcContracts_is_empty resolved then serr EmptyContracts
  else
    do? existing := sread (λ r, pipeline_cdc_contracts r key) in
    install_pipeline_cdc_contracts key
      match existing with
      | Some e => stamp_guarantees e resolved
      | None => resolved
      end.

(** ** Checkpoint envelopes *)

Inductive CheckpointAuthority : Type := WalOwnership | AdvisoryHint.
Inductive CheckpointKind : Type :=
| SourceResume | BootstrapProgress | BootstrapAnchor | AdvisoryProgress.

#[global] Instance CheckpointAuthority_eq_dec : EqDecision CheckpointAuthority.
Proof. solve_decision. Defined.
#[global] Instance CheckpointKind_eq_dec : EqDecision CheckpointKind.
Proof. solve_decision. Defined.

Record CheckpointEnvelope : Type := {
  ce_authority : CheckpointAuthority;
  ce_kind : CheckpointKind;
  ce_payload_version : N;
  ce_payload_bytes : bytes
}.

#[global] Instance CheckpointEnvelope_eq_dec : EqDecision CheckpointEnvelope.
Proof. solve_decision. Defined.

Record PostgresCheckpoint : Type := { pg_lsn : N; pg_slot_name : bytes }.
Record MysqlCheckpoint : Type := { my_binlog_file : bytes; my_binlog_position : N }.
Record MongodbCheckpoint : Type := { mo_resume_token : bytes }.
Record DynamodbCheckpoint : Type := {
  dy_table_name : bytes;
  dy_stream_arn : bytes;
  dy_shard_id : bytes;
  dy_sequence_number : bytes
}.
Record KafkaCheckpoint : Type := { ka_topic : bytes; ka_partition : Z; ka_offset : Z }.

Definition from_payload {T} `{Codec T} (a : CheckpointAuthority) (k : CheckpointKind)
    (version : N) (payload : T) : result bytes CheckpointEnvelope :=
  let? bs := serialize payload in
  Ok {| ce_authority := a; ce_kind := k; ce_payload_version := version;
        ce_payload_bytes := bs |}.

Definition wal_owned_source_resume {T} `{Codec T} (version : N) (payload : T) :=
  from_payload WalOwnership SourceResume version payload.

Definition bootstrap_anchor {T} `{Codec T} (version : N) (payload : T) :=
  from_payload AdvisoryHint BootstrapAnchor version payload.

Definition advisory_hint {T} `{Codec T} (kind : CheckpointKind) (version : N) (payload : T) :=
  from_payload AdvisoryHint kind version payload.

Definition into_payload {T} `{Codec T} (e : CheckpointEnvelope) : result bytes T :=
  deserialize (ce_payload_bytes e).

(** ** Mutations and row metadata *)

Inductive MutationKind : Type := Snapshot | Insert | Update | Delete.

#[global] Instance MutationKind_eq_dec : EqDecision MutationKind.
Proof. solve_decision. Defined.

Definition from_debezium_op (op : bytes) : MutationKind :=
  default Insert
    (assoc_text op [(str "c", Insert); (str "u", Update); (str "d", Delete); (str "r", Snapshot)]).

Inductive SourceOrderModel : Type :=
| GlobalTotalOrder | StableKeyScopedOrder | UnsupportedForFinalState.

#[global] Instance SourceOrderModel_eq_dec : EqDecision SourceOrderModel.
Proof. solve_decision. Defined.

Record WalRowMeta : Type := {
  mutation : MutationKind;
  event_id : bytes;
  order_token : bytes
}.

Inductive WalPartKind : Type := PartAppend | PartCdc.

#[global] Instance WalRowMeta_eq_dec : EqDecision WalRowMeta.
Proof. solve_decision. Defined.
#[global] Instance WalPartKind_eq_dec : EqDecision WalPartKind.
Proof. solve_decision. Defined.

Record WalPartMeta : Type := {
  pm_kind : WalPartKind;
  pm_row_count : N;
  pm_rows : list WalRowMeta
}.

#[global] Instance WalPartMeta_eq_dec : EqDecision WalPartMeta.
Proof. solve_decision. Defined.

Inductive WalPartMetaError : Type :=
| EmptyCdcRows
| RowCountMismatch (expected actual : N)
| CdcRowsOnAppend.

#[global] Instance WalPartMetaError_eq_dec : EqDecision WalPartMetaError.
Proof. solve_decision. Defined.

Definition WalPartMetaError_display (e : WalPartMetaError) : bytes :=
  match e with
  | EmptyCdcRows => str "CDC WAL partition requires at least one row"
  | RowCountMismatch expected actual =>
      str "CDC WAL metadata row count mismatch: expected " ++ display_N expected
        ++ str ", got " ++ display_N actual
  | CdcRowsOnAppend => str "append WAL partition must not carry CDC rows"
  end.

Definition WalPartMeta_cdc (rows : list WalRowMeta) (arrow_row_count : N)
    : result WalPartMetaError WalPartMeta :=
  match rows with
  | [] => Err EmptyCdcRows
  | _ =>
      let actual := N.of_nat (length rows) in
      if (actual =? arrow_row_count)%N
      then Ok {| pm_kind := PartCdc; pm_row_count := arrow_row_count; pm_rows := rows |}
      else Err (RowCountMismatch arrow_row_count actual)
  end.

Definition WalPartMeta_append (row_count : N) : WalPartMeta :=
  {| pm_kind := PartAppend; pm_row_count := row_count; pm_rows := [] |}.

Definition WalPartMeta_validate (m : WalPartMeta) : result WalPartMetaError unit :=
  match pm_kind m, pm_rows m with
  | PartAppend, [] => Ok tt
  | PartAppend, _ => Err CdcRowsOnAppend
  | PartCdc, [] => Err EmptyCdcRows
  | PartCdc, rows =>
      let actual := N.of_nat (length rows) in
      if (pm_row_count m =? actual)%N then Ok tt
      else Err (RowCountMismatch (pm_row_count m) actual)
  end.

Definition validate_arrow_row_count (m : WalPartMeta) (arrow_row_count : N)
    : result WalPartMetaError unit :=
  WalPartMeta_validate m ;?
  if (pm_row_count m =? arrow_row_count)%N then Ok tt
  else Err (RowCountMismatch (pm_row_count m) arrow_row_count).

(** ** Capabilities *)

Inductive SourceGuaranteeTier : Type :=
| SnapshotThenLogExactOnce | LogStreamExactOnce | EventIdentityEligible
| IncrementalOnly | UserSuppliedIdentityOnly | SourceUnsupported.
Inductive SourceCheckpointStyle : Type :=
| LogNative | CursorBased | ObjectIdentity | MessageIdentity | CheckpointNone.
Inductive SourceBootstrapStyle : Type :=
| AnchoredSnapshot | FullScan | StreamOnly | BootstrapNone.
Inductive EventIdSemantics : Type :=
| LogPosition | MessageId | ObjectPath | UserSupplied | EventIdNone.
Inductive SinkGuaranteeTier : Type :=
| ExactOnceCdcEligible | CdcEncodedOnly | AppendOnly | SinkUnsupported.

(** From src/buffer/compaction_transaction.rs. *)
Inductive SinkRetrySemantics : Type :=
| TransactionalIdempotent | DeterministicOverwrite | FinalStateIdempotent
| AtLeastOnce | NonRetryable.
Inductive SinkGroupingSupport : Type :=
| GroupingNone | AppendOnlyBatches | CdcEncodedBatches | FinalStateBatches.

#[global] Instance SourceGuaranteeTier_eq_dec : EqDecision SourceGuaranteeTier.
Proof. solve_decision. Defined.
#[global] Instance SinkGuaranteeTier_eq_dec : EqDecision SinkGuaranteeTier.
Proof. solve_decision. Defined.
#[global] Instance SinkRetrySemantics_eq_dec : EqDecision SinkRetrySemantics.
Proof. solve_decision. Defined.
#[global] Instance SinkGroupingSupport_eq_dec : EqDecision SinkGroupingSupport.
Proof. solve_decision. Defined.
#[global] Instance SourceCheckpointStyle_eq_dec : EqDecision SourceCheckpointStyle.
Proof. solve_decision. Defined.

Definition requires_idempotent_replay (r : SinkRetrySemantics) : bool :=
  match r with
  | TransactionalIdempotent | DeterministicOverwrite | FinalStateIdempotent => true
  | AtLeastOnce | NonRetryable => false
  end.

Definition grouped_writes_are_exact_once (r : SinkRetrySemantics) : bool :=
  match r with
  | TransactionalIdempotent | FinalStateIdempotent => true
  | DeterministicOverwrite | AtLeastOnce | NonRetryable => false
  end.

Record SourceCapability : Type := {
  source_name : bytes;
  source_tier : SourceGuaranteeTier;
  checkpoint_style : SourceCheckpointStyle;
  bootstrap_style : SourceBootstrapStyle;
  order_model : SourceOrderModel;
  supports_deletes : bool;
  event_id_semantics : EventIdSemantics
}.

Record SinkCapability : Type := {
  sink_name : bytes;
  max_sessions_per_child : N;
  sink_tier : SinkGuaranteeTier;
  can_manage_skippr_columns : bool;
  can_maintain_tombstone_tables : bool;
  can_compare_order_tokens : bool;
  supports_transactions : bool;
  retry_semantics : SinkRetrySemantics;
  grouping_support : SinkGroupingSupport;
  supported_formats : list OutputFormat;
  sink_default_format : option OutputFormat
}.

Definition resolve_format (s : SinkCapability) (configured : option bytes) (p : PipelineType)
    (source : option InputFormat) : result bytes (option OutputFormat) :=
  resolve_output_format (sink_name s) (supported_formats s) (sink_default_format s)
    configured p source.

(** ** Guarantee derivation *)

Inductive CompatibilityResult : Type :=
| Compatible (g : EffectiveGuarantee)
| Incompatible (reasons : list bytes).

Definition source_tier_debug (t : SourceGuaranteeTier) : bytes :=
  match t with
  | SnapshotThenLogExactOnce => str "SnapshotThenLogExactOnce"
  | LogStreamExactOnce => str "LogStreamExactOnce"
  | EventIdentityEligible => str "EventIdentityEligible"
  | IncrementalOnly => str "IncrementalOnly"
  | UserSuppliedIdentityOnly => str "UserSuppliedIdentityOnly"
  | SourceUnsupported => str "Unsupported"
  end.

Definition sink_tier_debug (t : SinkGuaranteeTier) : bytes :=
  match t with
  | ExactOnceCdcEligible => str "ExactOnceCdcEligible"
  | CdcEncodedOnly => str "CdcEncodedOnly"
  | AppendOnly => str "AppendOnly"
  | SinkUnsupported => str "Unsupported"
  end.

Definition source_can_cdc (s : SourceCapability) : bool :=
  match source_tier s with
  | SnapshotThenLogExactOnce | LogStreamExactOnce | EventIdentityEligible => true
  | _ => false
  end.

Definition sink_can_cdc (k : SinkCapability) : bool :=
  match sink_tier k with
  | ExactOnceCdcEligible | CdcEncodedOnly => true
  | _ => false
  end.

Definition source_exact_once (s : SourceCapability) : bool :=
  match source_tier s with
  | SnapshotThenLogExactOnce | LogStreamExactOnce => true
  | _ => false
  end.

Definition source_order_ok (s : SourceCapability) : bool :=
  negb (bool_decide (order_model s = UnsupportedForFinalState)).

Definition sink_exact_once (k : SinkCapability) : bool :=
  bool_decide (sink_tier k = ExactOnceCdcEligible) && can_manage_skippr_columns k
  && can_maintain_tombstone_tables k && can_compare_order_tokens k.

Definition derive_and_validate (s : SourceCapability) (k : SinkCapability) (ns : bytes)
    (keys : list bytes) : CompatibilityResult :=
  if negb (source_can_cdc s) then
    Incompatible [str "source '" ++ source_name s ++ str "' (tier " ++ source_tier_debug (source_tier s) ++ str ") cannot produce CDC metadata"]
  else if negb (sink_can_cdc k) then
    Incompatible [str "sink '" ++ sink_name k ++ str "' (tier " ++ sink_tier_debug (sink_tier k) ++ str ") cannot accept CDC payloads"]
  else if source_exact_once s && source_order_ok s && sink_exact_once k then
    match keys with
    | [] => Incompatible [str "namespace '" ++ ns ++ str "' requires business_key_columns for ExactOnceFinalState (source '" ++ source_name s ++ str "' + sink '" ++ sink_name k ++ str "' are both exact-once capable)"]
    | _ => Compatible ExactOnceFinalState
    end
  else Compatible CdcEncoded.

(** ** Apply actions *)

Record SyncContext : Type := {
  sync_part_meta : WalPartMeta;
  sync_contract : option NamespaceContract
}.

Inductive SinkApplyAction : Type :=
| UpsertIfNewer (business_key : list (bytes * bytes)) (token : bytes)
| DeleteIfNewer (business_key : list (bytes * bytes)) (token : bytes).

Definition resolve_apply_action (m : MutationKind) (business_key : list (bytes * bytes))
    (token : bytes) : SinkApplyAction :=
  match m with
  | Delete => DeleteIfNewer business_key token
  | Snapshot | Insert | Update => UpsertIfNewer business_key token
  end.

(** ** Lemmas *)

(** The keys a namespace ends up with: its own, else the source's, else the default;
    an empty list of source columns counts as none. *)
Definition effective_keys (default_keys : list bytes) (named source_keys : gmap bytes (list bytes))
    (ns : bytes) : list bytes :=
  match named !! ns with
  | Some (k :: ks) => k :: ks
  | Some [] =>
      match source_keys !! ns with
      | Some (k :: ks) => k :: ks
      | _ => default_keys
      end
  | None => default_keys
  end.

Lemma lookup_resolved_namespace dk named sk ns :
  cc_namespaces (resolve_business_keys dk named sk) !! ns =
  named !! ns ≫= named_contract dk sk ns.
Proof. simpl. by rewrite map_lookup_imap. Qed.

Lemma lookup_stamped existing next ns :
  cc_namespaces (stamp_guarantees existing next) !! ns =
  (λ c, match cc_namespaces existing !! ns with
        | Some prev => with_guarantee (effective_guarantee prev) c
        | None => c
        end) <$> cc_namespaces next !! ns.
Proof. simpl. rewrite map_lookup_imap. by destruct (cc_namespaces next !! ns). Qed.

Lemma reinstall_run key resolved r :
  reg_poisoned r = false → CdcContracts_is_empty resolved = false →
  reinstall_resolved_contracts key resolved r =
  (Ok tt, {| reg_contracts := <[key := match reg_contracts r !! key with
                                       | Some e => stamp_guarantees e resolved
                                       | None => resolved
                                       end]> (reg_contracts r);
             reg_poisoned := false |}).
Proof.
  intros Hp He. unfold reinstall_resolved_contracts. rewrite He.
  unfold sbind, sread, pipeline_cdc_contracts, install_pipeline_cdc_contracts. by rewrite Hp.
Qed.

(** When a pair derives exactly once. *)
Lemma derive_exact_iff s k ns keys :
  derive_and_validate s k ns keys = Compatible ExactOnceFinalState ↔
  source_exact_once s && source_order_ok s && sink_exact_once k = true ∧ keys ≠ [].
Proof.
  unfold derive_and_validate, source_can_cdc, sink_can_cdc, source_exact_once, sink_exact_once.
  destruct (source_tier s), (sink_tier k), (source_order_ok s), (can_manage_skippr_columns k),
    (can_maintain_tombstone_tables k), (can_compare_order_tokens k), keys; simpl; naive_solver.
Qed.

(** ** Properties *)

(** Business keys resolve by one precedence: the contract of a namespace has the
    keys configured for it, else the columns the source declares, else the default
    keys, and there is no contract exactly when all three are empty; so no contract
    ever has an empty business key. *)
Theorem resolve_business_keys_spec dk named sk ns :
  for_namespace (resolve_business_keys dk named sk) ns =
  match effective_keys dk named sk ns with
  | [] => None
  | keys => Some (keys_contract ns keys)
  end.
Proof.
  unfold for_namespace. rewrite lookup_resolved_namespace. unfold effective_keys.
  destruct (named !! ns) as [[|y ys]|]; simpl; [|done|by destruct dk].
  unfold named_contract. destruct (sk !! ns) as [[|k ks]|]; simpl; [by destruct dk|done|].
  by destruct dk.
Qed.

(** The guarantee of a pipeline is derived exactly from its capabilities: exactly
    once final state needs a source with an exact-once log and a comparable order, a
    sink that manages system columns, tombstones and order tokens, and business keys;
    the pair is refused when either side cannot do CDC, or when only the keys are
    missing; every other pair gets encoded CDC. *)
Theorem derive_and_validate_spec s k ns keys :
  let exact := source_exact_once s && source_order_ok s && sink_exact_once k in
  (derive_and_validate s k ns keys = Compatible ExactOnceFinalState ↔
     exact = true ∧ keys ≠ []) ∧
  (derive_and_validate s k ns keys = Compatible CdcEncoded ↔
     source_can_cdc s = true ∧ sink_can_cdc k = true ∧ exact = false) ∧
  ((∃ reasons, derive_and_validate s k ns keys = Incompatible reasons) ↔
     source_can_cdc s = false ∨ sink_can_cdc k = false ∨ exact = true ∧ keys = []).
Proof.
  assert (source_exact_once s = true → source_can_cdc s = true) as H1
    by (unfold source_exact_once, source_can_cdc; by destruct (source_tier s)).
  assert (sink_exact_once k = true → sink_can_cdc k = true) as H2.
  { unfold sink_exact_once, sink_can_cdc. rewrite !andb_true_iff, bool_decide_eq_true.
    intros [[[-> _] _] _]. done. }
  intros exact. subst exact. unfold derive_and_validate.
  destruct (source_can_cdc s), (sink_can_cdc k), (source_exact_once s), (source_order_ok s),
    (sink_exact_once k), keys; simpl in *; naive_solver.
Qed.

(** Re-resolving keeps what was promised: after new keys are reinstalled, the
    pipeline has exactly the newly resolved namespaces and default, with the new keys,
    and each that had a contract of its own before keeps its guarantee; other
    pipelines are untouched.  An empty resolution or a poisoned lock is refused and
    changes nothing. *)
Theorem reinstall_keeps_guarantees key resolved r :
  (reg_poisoned r = true ∨ CdcContracts_is_empty resolved = true →
     ∃ e, reinstall_resolved_contracts key resolved r = (Err e, r)) ∧
  (reg_poisoned r = false → CdcContracts_is_empty resolved = false →
   ∃ r' cs, reinstall_resolved_contracts key resolved r = (Ok tt, r') ∧
     reg_contracts r' !! key = Some cs ∧
     (∀ key', key' ≠ key → reg_contracts r' !! key' = reg_contracts r !! key') ∧
     (∀ ns c, cc_namespaces resolved !! ns = Some c →
        ∃ c', cc_namespaces cs !! ns = Some c' ∧
          business_key_columns c' = business_key_columns c ∧
          effective_guarantee c' =
            match reg_contracts r !! key ≫= (λ e, cc_namespaces e !! ns) with
            | Some prev => effective_guarantee prev
            | None => effective_guarantee c
            end) ∧
     (∀ ns, cc_namespaces resolved !! ns = None → cc_namespaces cs !! ns = None)).
Proof.
  split.
  { intros [Hp|He]; unfold reinstall_resolved_contracts, sbind, sread, pipeline_cdc_contracts.
    - destruct (CdcContracts_is_empty resolved); [by eexists|]. rewrite Hp. by eexists.
    - rewrite He. by eexists. }
  intros Hp He. rewrite (reinstall_run _ _ _ Hp He). eexists _, _.
  split; [done|]. cbn [reg_contracts]. rewrite lookup_insert_eq. split; [done|]. split_and!.
  - intros key' Hne. by rewrite lookup_insert_ne.
  - intros ns c Hc. destruct (reg_contracts r !! key) as [e|] eqn:E; cbn [mbind option_bind]; [|by exists c].
    rewrite lookup_stamped, Hc. simpl. destruct (cc_namespaces e !! ns); by eexists.
  - intros ns Hn. destruct (reg_contracts r !! key) as [e|]; [|done].
    by rewrite lookup_stamped, Hn.
Qed.

Definition registry_example : Registry := {|
  reg_contracts := {[ {| tenant := str "t"; workspace := str "w"; pipeline := str "p" |} :=
    {| cc_default := Some (with_guarantee ExactOnceFinalState (keys_contract [] [str "id"]));
       cc_namespaces := ∅ |} ]};
  reg_poisoned := false
|}.

Lemma reinstall_keeps_guarantees_witness :
  let key := {| tenant := str "t"; workspace := str "w"; pipeline := str "p" |} in
  ∃ r', reinstall_resolved_contracts key (resolve_business_keys [str "id"] ∅ ∅)
          registry_example = (Ok tt, r').
Proof.
  intros key.
  destruct (proj2 (reinstall_keeps_guarantees key (resolve_business_keys [str "id"] ∅ ∅)
    registry_example) eq_refl eq_refl) as (r' & _ & E & _). by exists r'.
Defined.

(** A namespace that leaves the default contract loses its guarantee: when its keys
    came from the default contract (the source declared no columns) and a new
    publication gives it columns of its own, the reinstalled contract is stamped
    [CdcEncoded], although the contract in force promised [ExactOnceFinalState]. *)
Theorem reinstall_downgrades_default_covered :
  let key := {| tenant := str "t"; workspace := str "w"; pipeline := str "p" |} in
  let named := {[ str "orders" := [] ]} in
  let before := resolve_business_keys [str "id"] named {[ str "orders" := [] ]} in
  let after := resolve_business_keys [str "id"] named {[ str "orders" := [str "order_id"] ]} in
  let r' := (reinstall_resolved_contracts key after registry_example).2 in
  for_namespace before (str "orders") = Some (keys_contract (str "orders") [str "id"]) ∧
  (effective_guarantee <$> (reg_contracts registry_example !! key ≫= λ cs,
     for_namespace cs (str "orders"))) = Some ExactOnceFinalState ∧
  (effective_guarantee <$> (reg_contracts r' !! key ≫= λ cs,
     for_namespace cs (str "orders"))) = Some CdcEncoded.
Proof. vm_compute. done. Qed.

(** Part metadata that is built is valid: [cdc] accepts exactly non-empty rows
    whose number is the Arrow row count, and what it returns passes validation against
    that count and against no other; append metadata is always valid. *)
Theorem wal_part_meta_valid rows n :
  (∀ m, WalPartMeta_cdc rows n = Ok m ↔
     m = {| pm_kind := PartCdc; pm_row_count := n; pm_rows := rows |} ∧
     rows ≠ [] ∧ N.of_nat (length rows) = n) ∧
  (∀ m k, WalPartMeta_cdc rows n = Ok m → (validate_arrow_row_count m k = Ok tt ↔ k = n)) ∧
  (∀ k, validate_arrow_row_count (WalPartMeta_append n) k = Ok tt ↔ k = n).
Proof.
  assert (∀ m, WalPartMeta_cdc rows n = Ok m ↔
     m = {| pm_kind := PartCdc; pm_row_count := n; pm_rows := rows |} ∧
     rows ≠ [] ∧ N.of_nat (length rows) = n) as Hc.
  { intros m. unfold WalPartMeta_cdc. destruct rows as [|x rows]; [naive_solver|].
    destruct (N.eqb_spec (N.of_nat (length (x :: rows))) n); naive_solver. }
  split_and!; [done| |].
  - intros m k (-> & Hne & Hn)%Hc. unfold validate_arrow_row_count, WalPartMeta_validate. simpl.
    destruct rows as [|x rows]; [done|]. rewrite (proj2 (N.eqb_eq n _)) by done. simpl.
    destruct (N.eqb_spec n k); naive_solver.
  - intros k. unfold validate_arrow_row_count. simpl. destruct (N.eqb_spec n k); naive_solver.
Qed.
Lemma wal_part_meta_valid_witness :
  let row := {| mutation := Insert; event_id := []; order_token := str "1" |} in
  ∃ m, WalPartMeta_cdc [row] 1 = Ok m ∧ validate_arrow_row_count m 1 = Ok tt.
Proof.
  intros row. eexists. split; [reflexivity|].
  by apply (proj1 (proj2 (wal_part_meta_valid [row] 1)) _ 1%N).
Defined.

(** A checkpoint payload comes back as it was stored: an envelope built from a
    payload keeps its authority, kind and version and yields the same payload; only
    [wal_owned_source_resume] claims WAL ownership. *)
Theorem checkpoint_envelope_roundtrip {T} `{Codec T} a k v (p : T) e :
  from_payload a k v p = Ok e →
  into_payload e = Ok p ∧ ce_authority e = a ∧ ce_kind e = k ∧ ce_payload_version e = v ∧
  (wal_owned_source_resume v p = Ok e ↔ a = WalOwnership ∧ k = SourceResume).
Proof.
  unfold wal_owned_source_resume, from_payload, into_payload. intros E. inv_res.
  split_and!; [by apply deserialize_serialize|done..|].
  match goal with Hs : serialize p = Ok _ |- _ => rewrite Hs end. simpl. naive_solver.
Qed.

Lemma checkpoint_envelope_roundtrip_witness :
  let C := countable_codec (A := N) in
  ∃ e, from_payload AdvisoryHint AdvisoryProgress 1 7%N = Ok e ∧ into_payload e = Ok 7%N.
Proof.
  intros C. destruct (from_payload AdvisoryHint AdvisoryProgress 1 7%N) as [e|] eqn:E; [|done].
  exists e. split; [reflexivity|]. exact (proj1 (checkpoint_envelope_roundtrip _ _ _ _ _ E)).
Defined.
