(* ===== verification/Capabilities.v ===== *)
(** * Capabilities: what each connector declares

    Models the connector kinds of src/connect_generated.rs and the capability tables of
    src/plugins/cdc.rs ([source_capabilities], [sink_capabilities]), constant by
    constant, with the lookups by kind and by name. *)

From S2P Require Import Prelude Bytes Text Formats Cdc.

(** ** Connector kinds *)

Inductive DataSource : Type :=
| SrcAdRollAds
| SrcAmqp
| SrcAppleSearchAds
| SrcBingWebmasterTools
| SrcClickhouse
| SrcDeltaLake
| SrcDynamodb
| SrcEventbridge
| SrcFile
| SrcGoogleAds
| SrcGoogleAnalytics
| SrcGooglePageSpeed
| SrcGoogleSearchConsole
| SrcHttpClient
| SrcHttpServer
| SrcHubspotCrm
| SrcKafka
| SrcKinesis
| SrcLinkedInAds
| SrcMetaAds
| SrcMetaInstagramAds
| SrcMongodb
| SrcMotherduck
| SrcMqtt
| SrcMssql
| SrcMysql
| SrcOtlp
| SrcPcap
| SrcPostgres
| SrcRedshift
| SrcRevolutBusiness
| SrcS3
| SrcSftp
| SrcShopifyAdmin
| SrcSns
| SrcSocket
| SrcSqs
| SrcStatsd
| SrcStdin
| SrcStripe
| SrcSumUp
| SrcWebsocket
| SrcXAds
| SrcXeroAccounting.

Inductive DataSink : Type :=
| SnkAmqp
| SnkAthena
| SnkAthenaIceberg
| SnkAzureBlob
| SnkBigquery
| SnkClickhouse
| SnkDatabricks
| SnkDuckdb
| SnkFile
| SnkGcs
| SnkMotherduck
| SnkPostgres
| SnkRedshift
| SnkS3
| SnkSftp
| SnkSkipprLake
| SnkSnowflake
| SnkStdout
| SnkSynapse.

#[global] Instance DataSource_eq_dec : EqDecision DataSource.
Proof. solve_decision. Defined.
#[global] Instance DataSink_eq_dec : EqDecision DataSink.
Proof. solve_decision. Defined.

Definition DataSource_ALL : list DataSource :=
  [SrcAdRollAds; SrcAmqp; SrcAppleSearchAds; SrcBingWebmasterTools; SrcClickhouse; SrcDeltaLake; SrcDynamodb; SrcEventbridge; SrcFile; SrcGoogleAds; SrcGoogleAnalytics; SrcGooglePageSpeed; SrcGoogleSearchConsole; SrcHttpClient; SrcHttpServer; SrcHubspotCrm; SrcKafka; SrcKinesis; SrcLinkedInAds; SrcMetaAds; SrcMetaInstagramAds; SrcMongodb; SrcMotherduck; SrcMqtt; SrcMssql; SrcMysql; SrcOtlp; SrcPcap; SrcPostgres; SrcRedshift; SrcRevolutBusiness; SrcS3; SrcSftp; SrcShopifyAdmin; SrcSns; SrcSocket; SrcSqs; SrcStatsd; SrcStdin; SrcStripe; SrcSumUp; SrcWebsocket; SrcXAds; SrcXeroAccounting].

Definition DataSink_ALL : list DataSink :=
  [SnkAmqp; SnkAthena; SnkAthenaIceberg; SnkAzureBlob; SnkBigquery; SnkClickhouse; SnkDatabricks; SnkDuckdb; SnkFile; SnkGcs; SnkMotherduck; SnkPostgres; SnkRedshift; SnkS3; SnkSftp; SnkSkipprLake; SnkSnowflake; SnkStdout; SnkSynapse].

Definition DataSource_parse (raw : bytes) : option DataSource :=
  assoc_text (to_ascii_lowercase (trim raw))
    [(str "adrollads", SrcAdRollAds);
     (str "amqp", SrcAmqp);
     (str "applesearchads", SrcAppleSearchAds);
     (str "bingwebmastertools", SrcBingWebmasterTools);
     (str "clickhouse", SrcClickhouse);
     (str "deltalake", SrcDeltaLake);
     (str "dynamodb", SrcDynamodb);
     (str "eventbridge", SrcEventbridge);
     (str "file", SrcFile);
     (str "googleads", SrcGoogleAds);
     (str "googleanalytics", SrcGoogleAnalytics);
     (str "googlepagespeed", SrcGooglePageSpeed);
     (str "googlesearchconsole", SrcGoogleSearchConsole);
     (str "httpclient", SrcHttpClient);
     (str "httpserver", SrcHttpServer);
     (str "hubspotcrm", SrcHubspotCrm);
     (str "kafka", SrcKafka);
     (str "kinesis", SrcKinesis);
     (str "linkedinads", SrcLinkedInAds);
     (str "metaads", SrcMetaAds);
     (str "metainstagramads", SrcMetaInstagramAds);
     (str "mongodb", SrcMongodb);
     (str "motherduck", SrcMotherduck);
     (str "mqtt", SrcMqtt);
     (str "mssql", SrcMssql);
     (str "mysql", SrcMysql);
     (str "otlp", SrcOtlp);
     (str "pcap", SrcPcap);
     (str "postgres", SrcPostgres);
     (str "redshift", SrcRedshift);
     (str "revolutbusiness", SrcRevolutBusiness);
     (str "s3", SrcS3);
     (str "sftp", SrcSftp);
     (str "shopifyadmin", SrcShopifyAdmin);
     (str "sns", SrcSns);
     (str "socket", SrcSocket);
     (str "sqs", SrcSqs);
     (str "statsd", SrcStatsd);
     (str "stdin", SrcStdin);
     (str "stripe", SrcStripe);
     (str "sumup", SrcSumUp);
     (str "websocket", SrcWebsocket);
     (str "xads", SrcXAds);
     (str "xeroaccounting", SrcXeroAccounting)].

Definition DataSink_parse (raw : bytes) : option DataSink :=
  assoc_text (to_ascii_lowercase (trim raw))
    [(str "amqp", SnkAmqp);
     (str "athena", SnkAthena);
     (str "athenaiceberg", SnkAthenaIceberg);
     (str "azureblob", SnkAzureBlob);
     (str "bigquery", SnkBigquery);
     (str "clickhouse", SnkClickhouse);
     (str "databricks", SnkDatabricks);
     (str "duckdb", SnkDuckdb);
     (str "file", SnkFile);
     (str "gcs", SnkGcs);
     (str "motherduck", SnkMotherduck);
     (str "postgres", SnkPostgres);
     (str "redshift", SnkRedshift);
     (str "s3", SnkS3);
     (str "sftp", SnkSftp);
     (str "skipprlake", SnkSkipprLake);
     (str "snowflake", SnkSnowflake);
     (str "stdout", SnkStdout);
     (str "synapse", SnkSynapse)].

(** ** The tables *)

Definition SRC_POSTGRES : SourceCapability := {|
  source_name := str "Postgres";
  source_tier := SnapshotThenLogExactOnce;
  checkpoint_style := LogNative;
  bootstrap_style := AnchoredSnapshot;
  order_model := GlobalTotalOrder;
  supports_deletes := true;
  event_id_semantics := LogPosition
|}.

Definition SRC_MYSQL : SourceCapability := {|
  source_name := str "Mysql";
  source_tier := SnapshotThenLogExactOnce;
  checkpoint_style := LogNative;
  bootstrap_style := AnchoredSnapshot;
  order_model := GlobalTotalOrder;
  supports_deletes := true;
  event_id_semantics := LogPosition
|}.

Definition SRC_MSSQL : SourceCapability := {|
  source_name := str "Mssql";
  source_tier := IncrementalOnly;
  checkpoint_style := CheckpointNone;
  bootstrap_style := FullScan;
  order_model := UnsupportedForFinalState;
  supports_deletes := false;
  event_id_semantics := EventIdNone
|}.

Definition SRC_MONGODB : SourceCapability := {|
  source_name := str "Mongodb";
  source_tier := SnapshotThenLogExactOnce;
  checkpoint_style := LogNative;
  bootstrap_style := AnchoredSnapshot;
  order_model := StableKeyScopedOrder;
  supports_deletes := true;
  event_id_semantics := LogPosition
|}.

Definition SRC_DYNAMODB : SourceCapability := {|
  source_name := str "Dynamodb";
  source_tier := SnapshotThenLogExactOnce;
  checkpoint_style := LogNative;
  bootstrap_style := AnchoredSnapshot;
  order_model := StableKeyScopedOrder;
  supports_deletes := true;
  event_id_semantics := LogPosition
|}.

Definition SRC_DELTA_LAKE : SourceCapability := {|
  source_name := str "DeltaLake";
  source_tier := SnapshotThenLogExactOnce;
  checkpoint_style := LogNative;
  bootstrap_style := AnchoredSnapshot;
  order_model := GlobalTotalOrder;
  supports_deletes := true;
  event_id_semantics := LogPosition
|}.

Definition SRC_KAFKA : SourceCapability := {|
  source_name := str "Kafka";
  source_tier := LogStreamExactOnce;
  checkpoint_style := LogNative;
  bootstrap_style := StreamOnly;
  order_model := StableKeyScopedOrder;
  supports_deletes := true;
  event_id_semantics := LogPosition
|}.

Definition SRC_KINESIS : SourceCapability := {|
  source_name := str "Kinesis";
  source_tier := LogStreamExactOnce;
  checkpoint_style := LogNative;
  bootstrap_style := StreamOnly;
  order_model := StableKeyScopedOrder;
  supports_deletes := false;
  event_id_semantics := LogPosition
|}.

Definition SRC_SQS : SourceCapability := {|
  source_name := str "Sqs";
  source_tier := EventIdentityEligible;
  checkpoint_style := MessageIdentity;
  bootstrap_style := StreamOnly;
  order_model := UnsupportedForFinalState;
  supports_deletes := false;
  event_id_semantics := MessageId
|}.

Definition SRC_SNS : SourceCapability := {|
  source_name := str "Sns";
  source_tier := EventIdentityEligible;
  checkpoint_style := MessageIdentity;
  bootstrap_style := StreamOnly;
  order_model := UnsupportedForFinalState;
  supports_deletes := false;
  event_id_semantics := MessageId
|}.

Definition SRC_EVENTBRIDGE : SourceCapability := {|
  source_name := str "Eventbridge";
  source_tier := EventIdentityEligible;
  checkpoint_style := MessageIdentity;
  bootstrap_style := StreamOnly;
  order_model := UnsupportedForFinalState;
  supports_deletes := false;
  event_id_semantics := MessageId
|}.

Definition SRC_FILE : SourceCapability := {|
  source_name := str "File";
  source_tier := IncrementalOnly;
  checkpoint_style := ObjectIdentity;
  bootstrap_style := FullScan;
  order_model := UnsupportedForFinalState;
  supports_deletes := false;
  event_id_semantics := ObjectPath
|}.

Definition SRC_S3 : SourceCapability := {|
  source_name := str "S3";
  source_tier := IncrementalOnly;
  checkpoint_style := ObjectIdentity;
  bootstrap_style := FullScan;
  order_model := UnsupportedForFinalState;
  supports_deletes := false;
  event_id_semantics := ObjectPath
|}.

Definition SRC_SFTP : SourceCapability := {|
  source_name := str "Sftp";
  source_tier := IncrementalOnly;
  checkpoint_style := ObjectIdentity;
  bootstrap_style := FullScan;
  order_model := UnsupportedForFinalState;
  supports_deletes := false;
  event_id_semantics := ObjectPath
|}.

Definition SRC_HTTP_CLIENT : SourceCapability := {|
  source_name := str "HttpClient";
  source_tier := IncrementalOnly;
  checkpoint_style := CursorBased;
  bootstrap_style := FullScan;
  order_model := UnsupportedForFinalState;
  supports_deletes := false;
  event_id_semantics := EventIdNone
|}.

Definition SRC_CLICKHOUSE : SourceCapability := {|
  source_name := str "Clickhouse";
  source_tier := IncrementalOnly;
  checkpoint_style := CursorBased;
  bootstrap_style := FullScan;
  order_model := UnsupportedForFinalState;
  supports_deletes := false;
  event_id_semantics := EventIdNone
|}.

Definition SRC_REDSHIFT : SourceCapability := {|
  source_name := str "Redshift";
  source_tier := IncrementalOnly;
  checkpoint_style := CursorBased;
  bootstrap_style := FullScan;
  order_model := UnsupportedForFinalState;
  supports_deletes := false;
  event_id_semantics := EventIdNone
|}.

Definition SRC_MOTHERDUCK : SourceCapability := {|
  source_name := str "Motherduck";
  source_tier := IncrementalOnly;
  checkpoint_style := CursorBased;
  bootstrap_style := FullScan;
  order_model := UnsupportedForFinalState;
  supports_deletes := false;
  event_id_semantics := EventIdNone
|}.

Definition SRC_AMQP : SourceCapability := {|
  source_name := str "Amqp";
  source_tier := UserSuppliedIdentityOnly;
  checkpoint_style := MessageIdentity;
  bootstrap_style := StreamOnly;
  order_model := UnsupportedForFinalState;
  supports_deletes := false;
  event_id_semantics := UserSupplied
|}.

Definition SRC_MQTT : SourceCapability := {|
  source_name := str "Mqtt";
  source_tier := UserSuppliedIdentityOnly;
  checkpoint_style := MessageIdentity;
  bootstrap_style := StreamOnly;
  order_model := UnsupportedForFinalState;
  supports_deletes := false;
  event_id_semantics := UserSupplied
|}.

Definition SRC_HTTP_SERVER : SourceCapability := {|
  source_name := str "HttpServer";
  source_tier := UserSuppliedIdentityOnly;
  checkpoint_style := CheckpointNone;
  bootstrap_style := StreamOnly;
  order_model := UnsupportedForFinalState;
  supports_deletes := false;
  event_id_semantics := UserSupplied
|}.

Definition SRC_OTLP : SourceCapability := {|
  source_name := str "Otlp";
  source_tier := UserSuppliedIdentityOnly;
  checkpoint_style := CheckpointNone;
  bootstrap_style := StreamOnly;
  order_model := UnsupportedForFinalState;
  supports_deletes := false;
  event_id_semantics := UserSupplied
|}.

Definition SRC_WEBSOCKET : SourceCapability := {|
  source_name := str "Websocket";
  source_tier := UserSuppliedIdentityOnly;
  checkpoint_style := CheckpointNone;
  bootstrap_style := StreamOnly;
  order_model := UnsupportedForFinalState;
  supports_deletes := false;
  event_id_semantics := UserSupplied
|}.

Definition SRC_SOCKET : SourceCapability := {|
  source_name := str "Socket";
  source_tier := UserSuppliedIdentityOnly;
  checkpoint_style := CheckpointNone;
  bootstrap_style := StreamOnly;
  order_model := UnsupportedForFinalState;
  supports_deletes := false;
  event_id_semantics := UserSupplied
|}.

Definition SRC_STDIN : SourceCapability := {|
  source_name := str "Stdin";
  source_tier := SourceUnsupported;
  checkpoint_style := CheckpointNone;
  bootstrap_style := BootstrapNone;
  order_model := UnsupportedForFinalState;
  supports_deletes := false;
  event_id_semantics := EventIdNone
|}.

Definition SRC_STATSD : SourceCapability := {|
  source_name := str "Statsd";
  source_tier := SourceUnsupported;
  checkpoint_style := CheckpointNone;
  bootstrap_style := BootstrapNone;
  order_model := UnsupportedForFinalState;
  supports_deletes := false;
  event_id_semantics := EventIdNone
|}.

Definition SRC_PCAP : SourceCapability := {|
  source_name := str "Pcap";
  source_tier := SourceUnsupported;
  checkpoint_style := CheckpointNone;
  bootstrap_style := BootstrapNone;
  order_model := UnsupportedForFinalState;
  supports_deletes := false;
  event_id_semantics := EventIdNone
|}.

Definition SNK_POSTGRES : SinkCapability := {|
  sink_name := str "Postgres";
  max_sessions_per_child := 1%N;
  sink_tier := ExactOnceCdcEligible;
  can_manage_skippr_columns := true;
  can_maintain_tombstone_tables := true;
  can_compare_order_tokens := true;
  supports_transactions := true;
  retry_semantics := FinalStateIdempotent;
  grouping_support := FinalStateBatches;
  supported_formats := [Native];
  sink_default_format := None
|}.

Definition SNK_SNOWFLAKE : SinkCapability := {|
  sink_name := str "Snowflake";
  max_sessions_per_child := 1%N;
  sink_tier := ExactOnceCdcEligible;
  can_manage_skippr_columns := true;
  can_maintain_tombstone_tables := true;
  can_compare_order_tokens := true;
  supports_transactions := true;
  retry_semantics := FinalStateIdempotent;
  grouping_support := FinalStateBatches;
  supported_formats := [Native];
  sink_default_format := None
|}.

Definition SNK_BIGQUERY : SinkCapability := {|
  sink_name := str "Bigquery";
  max_sessions_per_child := 1%N;
  sink_tier := ExactOnceCdcEligible;
  can_manage_skippr_columns := true;
  can_maintain_tombstone_tables := true;
  can_compare_order_tokens := true;
  supports_transactions := true;
  retry_semantics := FinalStateIdempotent;
  grouping_support := FinalStateBatches;
  supported_formats := [Native];
  sink_default_format := None
|}.

Definition SNK_REDSHIFT : SinkCapability := {|
  sink_name := str "Redshift";
  max_sessions_per_child := 1%N;
  sink_tier := ExactOnceCdcEligible;
  can_manage_skippr_columns := true;
  can_maintain_tombstone_tables := true;
  can_compare_order_tokens := true;
  supports_transactions := true;
  retry_semantics := FinalStateIdempotent;
  grouping_support := FinalStateBatches;
  supported_formats := [Native];
  sink_default_format := None
|}.

Definition SNK_DATABRICKS : SinkCapability := {|
  sink_name := str "Databricks";
  max_sessions_per_child := 1%N;
  sink_tier := ExactOnceCdcEligible;
  can_manage_skippr_columns := true;
  can_maintain_tombstone_tables := true;
  can_compare_order_tokens := true;
  supports_transactions := true;
  retry_semantics := FinalStateIdempotent;
  grouping_support := FinalStateBatches;
  supported_formats := [Native];
  sink_default_format := None
|}.

Definition SNK_MOTHERDUCK : SinkCapability := {|
  sink_name := str "Motherduck";
  max_sessions_per_child := 1%N;
  sink_tier := ExactOnceCdcEligible;
  can_manage_skippr_columns := true;
  can_maintain_tombstone_tables := true;
  can_compare_order_tokens := true;
  supports_transactions := true;
  retry_semantics := FinalStateIdempotent;
  grouping_support := FinalStateBatches;
  supported_formats := [Native];
  sink_default_format := None
|}.

Definition SNK_CLICKHOUSE : SinkCapability := {|
  sink_name := str "Clickhouse";
  max_sessions_per_child := 1%N;
  sink_tier := CdcEncodedOnly;
  can_manage_skippr_columns := true;
  can_maintain_tombstone_tables := true;
  can_compare_order_tokens := true;
  supports_transactions := false;
  retry_semantics := AtLeastOnce;
  grouping_support := CdcEncodedBatches;
  supported_formats := [Native];
  sink_default_format := None
|}.

Definition SNK_SYNAPSE : SinkCapability := {|
  sink_name := str "Synapse";
  max_sessions_per_child := 1%N;
  sink_tier := ExactOnceCdcEligible;
  can_manage_skippr_columns := true;
  can_maintain_tombstone_tables := true;
  can_compare_order_tokens := true;
  supports_transactions := true;
  retry_semantics := FinalStateIdempotent;
  grouping_support := FinalStateBatches;
  supported_formats := [Native];
  sink_default_format := None
|}.

Definition SNK_ATHENA : SinkCapability := {|
  sink_name := str "Athena";
  max_sessions_per_child := 4%N;
  sink_tier := CdcEncodedOnly;
  can_manage_skippr_columns := false;
  can_maintain_tombstone_tables := false;
  can_compare_order_tokens := false;
  supports_transactions := false;
  retry_semantics := DeterministicOverwrite;
  grouping_support := CdcEncodedBatches;
  supported_formats := [Parquet];
  sink_default_format := Some Parquet
|}.

Definition SNK_SKIPPRLAKE : SinkCapability := {|
  sink_name := str "SkipprLake";
  max_sessions_per_child := 1%N;
  sink_tier := ExactOnceCdcEligible;
  can_manage_skippr_columns := true;
  can_maintain_tombstone_tables := true;
  can_compare_order_tokens := true;
  supports_transactions := true;
  retry_semantics := TransactionalIdempotent;
  grouping_support := FinalStateBatches;
  supported_formats := [Native];
  sink_default_format := None
|}.

Definition SNK_ATHENA_ICEBERG : SinkCapability := {|
  sink_name := str "AthenaIceberg";
  max_sessions_per_child := 1%N;
  sink_tier := ExactOnceCdcEligible;
  can_manage_skippr_columns := true;
  can_maintain_tombstone_tables := true;
  can_compare_order_tokens := true;
  supports_transactions := true;
  retry_semantics := TransactionalIdempotent;
  grouping_support := FinalStateBatches;
  supported_formats := [Native];
  sink_default_format := None
|}.

Definition SNK_DUCKDB : SinkCapability := {|
  sink_name := str "Duckdb";
  max_sessions_per_child := 1%N;
  sink_tier := CdcEncodedOnly;
  can_manage_skippr_columns := false;
  can_maintain_tombstone_tables := false;
  can_compare_order_tokens := false;
  supports_transactions := true;
  retry_semantics := TransactionalIdempotent;
  grouping_support := FinalStateBatches;
  supported_formats := [Native];
  sink_default_format := None
|}.

Definition SNK_S3 : SinkCapability := {|
  sink_name := str "S3";
  max_sessions_per_child := 4%N;
  sink_tier := CdcEncodedOnly;
  can_manage_skippr_columns := false;
  can_maintain_tombstone_tables := false;
  can_compare_order_tokens := false;
  supports_transactions := false;
  retry_semantics := DeterministicOverwrite;
  grouping_support := CdcEncodedBatches;
  supported_formats := [Parquet; Jsonl; Csv; Xml];
  sink_default_format := Some Parquet
|}.

Definition SNK_GCS : SinkCapability := {|
  sink_name := str "Gcs";
  max_sessions_per_child := 4%N;
  sink_tier := CdcEncodedOnly;
  can_manage_skippr_columns := false;
  can_maintain_tombstone_tables := false;
  can_compare_order_tokens := false;
  supports_transactions := false;
  retry_semantics := DeterministicOverwrite;
  grouping_support := CdcEncodedBatches;
  supported_formats := [Parquet; Jsonl; Csv; Xml];
  sink_default_format := Some Parquet
|}.

Definition SNK_AZURE_BLOB : SinkCapability := {|
  sink_name := str "AzureBlob";
  max_sessions_per_child := 4%N;
  sink_tier := CdcEncodedOnly;
  can_manage_skippr_columns := false;
  can_maintain_tombstone_tables := false;
  can_compare_order_tokens := false;
  supports_transactions := false;
  retry_semantics := DeterministicOverwrite;
  grouping_support := CdcEncodedBatches;
  supported_formats := [Parquet; Jsonl; Csv; Xml];
  sink_default_format := Some Parquet
|}.

Definition SNK_FILE : SinkCapability := {|
  sink_name := str "File";
  max_sessions_per_child := 4%N;
  sink_tier := CdcEncodedOnly;
  can_manage_skippr_columns := false;
  can_maintain_tombstone_tables := false;
  can_compare_order_tokens := false;
  supports_transactions := false;
  retry_semantics := DeterministicOverwrite;
  grouping_support := CdcEncodedBatches;
  supported_formats := [Parquet; Jsonl; Csv; Xml];
  sink_default_format := Some Parquet
|}.

Definition SNK_SFTP : SinkCapability := {|
  sink_name := str "Sftp";
  max_sessions_per_child := 4%N;
  sink_tier := CdcEncodedOnly;
  can_manage_skippr_columns := false;
  can_maintain_tombstone_tables := false;
  can_compare_order_tokens := false;
  supports_transactions := false;
  retry_semantics := DeterministicOverwrite;
  grouping_support := CdcEncodedBatches;
  supported_formats := [Parquet; Jsonl; Csv; Xml];
  sink_default_format := Some Parquet
|}.

Definition SNK_AMQP : SinkCapability := {|
  sink_name := str "Amqp";
  max_sessions_per_child := 4%N;
  sink_tier := CdcEncodedOnly;
  can_manage_skippr_columns := false;
  can_maintain_tombstone_tables := false;
  can_compare_order_tokens := false;
  supports_transactions := false;
  retry_semantics := AtLeastOnce;
  grouping_support := CdcEncodedBatches;
  supported_formats := [Jsonl];
  sink_default_format := Some Jsonl
|}.

Definition SNK_STDOUT : SinkCapability := {|
  sink_name := str "Stdout";
  max_sessions_per_child := 4%N;
  sink_tier := CdcEncodedOnly;
  can_manage_skippr_columns := false;
  can_maintain_tombstone_tables := false;
  can_compare_order_tokens := false;
  supports_transactions := false;
  retry_semantics := AtLeastOnce;
  grouping_support := CdcEncodedBatches;
  supported_formats := [Jsonl];
  sink_default_format := Some Jsonl
|}.

Definition source_by_kind (kind : DataSource) : option SourceCapability :=
  match kind with
  | SrcPostgres => Some SRC_POSTGRES
  | SrcMysql => Some SRC_MYSQL
  | SrcMssql => Some SRC_MSSQL
  | SrcMongodb => Some SRC_MONGODB
  | SrcDynamodb => Some SRC_DYNAMODB
  | SrcDeltaLake => Some SRC_DELTA_LAKE
  | SrcKafka => Some SRC_KAFKA
  | SrcKinesis => Some SRC_KINESIS
  | SrcSqs => Some SRC_SQS
  | SrcSns => Some SRC_SNS
  | SrcEventbridge => Some SRC_EVENTBRIDGE
  | SrcFile => Some SRC_FILE
  | SrcS3 => Some SRC_S3
  | SrcSftp => Some SRC_SFTP
  | SrcHttpClient => Some SRC_HTTP_CLIENT
  | SrcClickhouse => Some SRC_CLICKHOUSE
  | SrcRedshift => Some SRC_REDSHIFT
  | SrcMotherduck => Some SRC_MOTHERDUCK
  | SrcAmqp => Some SRC_AMQP
  | SrcMqtt => Some SRC_MQTT
  | SrcHttpServer => Some SRC_HTTP_SERVER
  | SrcOtlp => Some SRC_OTLP
  | SrcWebsocket => Some SRC_WEBSOCKET
  | SrcSocket => Some SRC_SOCKET
  | SrcStdin => Some SRC_STDIN
  | SrcStatsd => Some SRC_STATSD
  | SrcPcap => Some SRC_PCAP
  | SrcAdRollAds | SrcAppleSearchAds | SrcBingWebmasterTools | SrcGoogleAds | SrcGoogleAnalytics | SrcGooglePageSpeed | SrcGoogleSearchConsole | SrcHubspotCrm | SrcLinkedInAds | SrcMetaAds | SrcMetaInstagramAds | SrcRevolutBusiness | SrcShopifyAdmin | SrcStripe | SrcSumUp | SrcXAds | SrcXeroAccounting => None
  end.

Definition source_by_name (name : bytes) : option SourceCapability :=
  DataSource_parse name ≫= source_by_kind.

Definition sink_by_kind (kind : DataSink) : option SinkCapability :=
  Some match kind with
  | SnkPostgres => SNK_POSTGRES
  | SnkSnowflake => SNK_SNOWFLAKE
  | SnkBigquery => SNK_BIGQUERY
  | SnkRedshift => SNK_REDSHIFT
  | SnkDatabricks => SNK_DATABRICKS
  | SnkMotherduck => SNK_MOTHERDUCK
  | SnkClickhouse => SNK_CLICKHOUSE
  | SnkSynapse => SNK_SYNAPSE
  | SnkAthena => SNK_ATHENA
  | SnkSkipprLake => SNK_SKIPPRLAKE
  | SnkAthenaIceberg => SNK_ATHENA_ICEBERG
  | SnkDuckdb => SNK_DUCKDB
  | SnkS3 => SNK_S3
  | SnkGcs => SNK_GCS
  | SnkAzureBlob => SNK_AZURE_BLOB
  | SnkFile => SNK_FILE
  | SnkSftp => SNK_SFTP
  | SnkAmqp => SNK_AMQP
  | SnkStdout => SNK_STDOUT
  end.

Definition sink_by_name (name : bytes) : option SinkCapability :=
  DataSink_parse name ≫= sink_by_kind.

(** ** Checks over the tables *)

Lemma DataSource_ALL_complete k : k ∈ DataSource_ALL.
Proof. destruct k; vm_compute; repeat (first [by left | right]). Qed.

Lemma DataSink_ALL_complete k : k ∈ DataSink_ALL.
Proof. destruct k; vm_compute; repeat (first [by left | right]). Qed.

(** A statement that a boolean test decides for every kind. *)
Lemma forall_source (P : DataSource → bool) :
  forallb P DataSource_ALL = true → ∀ k, P k = true.
Proof.
  intros H k. rewrite forallb_forall in H. apply H, list_elem_of_In, DataSource_ALL_complete.
Qed.

Lemma forall_sink (P : DataSink → bool) :
  forallb P DataSink_ALL = true → ∀ k, P k = true.
Proof.
  intros H k. rewrite forallb_forall in H. apply H, list_elem_of_In, DataSink_ALL_complete.
Qed.

(** A capability is found again under the name it carries. *)
Definition source_named (k : DataSource) : bool :=
  match source_by_kind k with
  | Some c => bool_decide (DataSource_parse (source_name c) = Some k)
  | None => true
  end.

Definition sink_named (k : DataSink) : bool :=
  match sink_by_kind k with
  | Some c => bool_decide (DataSink_parse (sink_name c) = Some k)
  | None => false
  end.

(** What an exact-once claim of a sink must come with, and what transactions mean for
    retries and batches. *)
Definition sink_coherent (c : SinkCapability) : bool :=
  implb (bool_decide (sink_tier c = ExactOnceCdcEligible))
    (sink_exact_once c && supports_transactions c) &&
  Bool.eqb (supports_transactions c) (grouped_writes_are_exact_once (retry_semantics c)) &&
  Bool.eqb (supports_transactions c) (bool_decide (grouping_support c = FinalStateBatches)) &&
  (1 <=? max_sessions_per_child c)%N.

Definition source_coherent (c : SourceCapability) : bool :=
  implb (source_exact_once c)
    (source_order_ok c && bool_decide (checkpoint_style c = LogNative)) &&
  implb (negb (source_can_cdc c)) (negb (source_order_ok c) && negb (supports_deletes c)).

Definition exact_once_sources : list DataSource :=
  [SrcPostgres; SrcMysql; SrcMongodb; SrcDynamodb; SrcDeltaLake; SrcKafka; SrcKinesis].

Definition exact_once_sinks : list DataSink :=
  [SnkPostgres; SnkSnowflake; SnkBigquery; SnkRedshift; SnkDatabricks; SnkMotherduck;
   SnkSynapse; SnkSkipprLake; SnkAthenaIceberg].

Definition copy_sinks : list DataSink := [SnkS3; SnkGcs; SnkAzureBlob; SnkFile; SnkSftp].

Definition source_is_exact (k : DataSource) : bool :=
  match source_by_kind k with
  | Some c => source_exact_once c && source_order_ok c
  | None => false
  end.

Definition sink_is_exact (k : DataSink) : bool :=
  match sink_by_kind k with Some c => sink_exact_once c | None => false end.

Lemma source_is_exact_list k : source_is_exact k = bool_decide (k ∈ exact_once_sources).
Proof.
  apply eqb_prop. revert k.
  apply (forall_source (λ k, Bool.eqb (source_is_exact k) (bool_decide (k ∈ exact_once_sources)))).
  vm_compute. reflexivity.
Qed.

Lemma sink_is_exact_list k : sink_is_exact k = bool_decide (k ∈ exact_once_sinks).
Proof.
  apply eqb_prop. revert k.
  apply (forall_sink (λ k, Bool.eqb (sink_is_exact k) (bool_decide (k ∈ exact_once_sinks)))).
  vm_compute. reflexivity.
Qed.

Definition formats_usable (kk : DataSink) : bool :=
  match sink_by_kind kk with
  | Some k =>
      is_ok (resolve_format k None Ingest None) && is_ok (resolve_format k None Cdc None)
      && forallb (λ src, Bool.eqb (is_ok (resolve_format k None Copy (Some src)))
                           (bool_decide (kk ∈ copy_sinks)))
           [InArrowIpc; InParquet; InAvro; InCsv; InXml; InJson]
  | None => false
  end.

(** ** Properties *)

(** The capability tables are coherent: every declared connector is found under its
    own name; a source that claims exactly once has a comparable order and a log-native
    checkpoint, and one that cannot do CDC claims neither order nor deletes; a sink
    that claims exactly once has the columns, tombstones, token comparison and
    transactions it takes, and a sink has transactions exactly when its grouped writes
    are exactly once and its batches are final state. *)
Theorem capability_tables_coherent :
  (∀ k c, source_by_kind k = Some c →
     source_by_name (source_name c) = Some c ∧ source_coherent c = true) ∧
  (∀ k c, sink_by_kind k = Some c →
     sink_by_name (sink_name c) = Some c ∧ sink_coherent c = true).
Proof.
  split; intros k c Hk.
  - assert (source_named k = true) as Hn by (apply forall_source; vm_compute; reflexivity).
    unfold source_named in Hn. rewrite Hk in Hn. apply bool_decide_eq_true in Hn.
    unfold source_by_name. rewrite Hn. split; [done|].
    assert (match source_by_kind k with Some c => source_coherent c | None => true end = true)
      as Hc by (apply (forall_source (λ k, match source_by_kind k with
                  Some c => source_coherent c | None => true end)); vm_compute; reflexivity).
    by rewrite Hk in Hc.
  - assert (sink_named k = true) as Hn by (apply forall_sink; vm_compute; reflexivity).
    unfold sink_named in Hn. rewrite Hk in Hn. apply bool_decide_eq_true in Hn.
    unfold sink_by_name. rewrite Hn. split; [done|].
    assert (match sink_by_kind k with Some c => sink_coherent c | None => true end = true)
      as Hc by (apply (forall_sink (λ k, match sink_by_kind k with
                  Some c => sink_coherent c | None => true end)); vm_compute; reflexivity).
    by rewrite Hk in Hc.
Qed.

Lemma capability_tables_coherent_witness :
  source_by_name (str "Kafka") = Some SRC_KAFKA ∧ sink_coherent SNK_POSTGRES = true.
Proof.
  split.
  - exact (proj1 (proj1 capability_tables_coherent SrcKafka SRC_KAFKA eq_refl)).
  - exact (proj2 (proj2 capability_tables_coherent SnkPostgres SNK_POSTGRES eq_refl)).
Defined.

(** Exactly the pairs of the seven log sources with the nine transactional sinks
    derive [ExactOnceFinalState] (when the namespace has business keys): no other pair
    of the tables does. *)
Theorem exact_once_pairs ks kk s k ns keys :
  source_by_kind ks = Some s → sink_by_kind kk = Some k → keys ≠ [] →
  derive_and_validate s k ns keys = Compatible ExactOnceFinalState ↔
  ks ∈ exact_once_sources ∧ kk ∈ exact_once_sinks.
Proof.
  intros Hs Hk Hkeys.
  rewrite <- (bool_decide_eq_true (ks ∈ _)), <- (bool_decide_eq_true (kk ∈ _)).
  rewrite <- source_is_exact_list, <- sink_is_exact_list.
  unfold source_is_exact, sink_is_exact. rewrite Hs, Hk.
  pose proof (derive_exact_iff s k ns keys) as ->. rewrite !andb_true_iff. tauto.
Qed.

Lemma exact_once_pairs_witness :
  derive_and_validate SRC_KAFKA SNK_SNOWFLAKE (str "orders") [str "id"] =
    Compatible ExactOnceFinalState.
Proof.
  apply (exact_once_pairs SrcKafka SnkSnowflake); [reflexivity|reflexivity|done|].
  split; apply (bool_decide_eq_true_1 _); vm_compute; reflexivity.
Defined.

(** Every sink of the tables has a usable format: with nothing configured an ingest
    or CDC pipeline always resolves one (or none, for table sinks), and a copy pipeline
    is accepted by exactly the five object sinks its error message names, for every
    known source format. *)
Theorem sink_formats_usable kk k :
  sink_by_kind kk = Some k →
  is_ok (resolve_format k None Ingest None) = true ∧
  is_ok (resolve_format k None Cdc None) = true ∧
  (∀ src, is_ok (resolve_format k None Copy (Some src)) = true ↔ kk ∈ copy_sinks).
Proof.
  intros Hk.
  assert (formats_usable kk = true) as H by (apply forall_sink; vm_compute; reflexivity).
  unfold formats_usable in H.
  rewrite Hk in H. apply andb_true_iff in H as [[Hi Hc]%andb_true_iff Ha].
  split_and!; [done|done|]. intros src. rewrite forallb_forall in Ha.
  rewrite <- (bool_decide_eq_true (kk ∈ copy_sinks)).
  rewrite (eqb_prop _ _ (Ha src ltac:(destruct src; simpl; tauto))). done.
Qed.

Lemma sink_formats_usable_witness : is_ok (resolve_format SNK_S3 None Copy (Some InXml)) = true.
Proof.
  apply (proj2 (proj2 (sink_formats_usable SnkS3 SNK_S3 eq_refl)) InXml).
  apply (bool_decide_eq_true_1 _). vm_compute. reflexivity.
Defined.
