(* ===== verification/OffsetStore.v ===== *)
(** * OffsetStore: published source offsets and checkpoints

    Models src/helpers/offset_store.rs (the [OffsetStore] trait, its Skippr Store
    implementation, publishing a WAL commit) and src/helpers/offsets.rs (the readers:
    snapshots, validation, listing, checkpoint loading). *)

From S2P Require Import Prelude Bytes Text Lease CatalogKey Codec CatalogRow Store SledMigrate.
From S2P Require Import Formats Cdc.

(** ** Values *)

Definition USIZE_MAX : N := U64_MAX.

Definition catalog_error_display (e : CatalogError) : bytes :=
  match e with
  | TxnFull => str "catalog transaction is full"
  | RowTooLarge n => str "catalog row exceeds size ceiling (" ++ display_N n ++ str " bytes)"
  | Fenced => str "catalog commit fenced"
  | ConditionFailed => str "catalog condition failed"
  | VersionMustAdvance => str "catalog put version must be expected plus one"
  | LegacyRowWrite => str "legacy catalog slice rows are read-only"
  | Conflict => str "catalog transaction conflict"
  | CodecError d => str "catalog codec: " ++ d
  | IoError d => str "catalog io: " ++ d
  | SeqOpOnNonSeqKey => str "SeqAdvance is only valid on CatalogKey::Seq"
  | WrongPayloadLayer => str "payload location does not match the configured layer"
  end.

Record OffsetKey : Type := { ok_namespace : bytes; ok_partition : bytes }.

#[global] Instance OffsetKey_eq_dec : EqDecision OffsetKey.
Proof. solve_decision. Defined.

Inductive OffsetTypes : Type := Filesize | Position | Closed.

Record OffsetValue : Type := { ov_filesize : N; ov_line : N; ov_closed : N }.

#[global] Instance OffsetValue_eq_dec : EqDecision OffsetValue.
Proof. solve_decision. Defined.

(** [AsBytes] of the packed little-endian struct. *)
Definition offset_value_bytes (v : OffsetValue) : bytes :=
  u64_le (ov_filesize v) ++ u64_le (ov_line v) ++ u64_le (ov_closed v).

(** [LayoutVerified::new_unaligned]: bytes of exactly the struct's size. *)
Definition offset_layout (bs : bytes) : option OffsetValue :=
  if decide (length bs = 24) then
    Some {| ov_filesize := from_le_bytes (take 8 bs);
            ov_line := from_le_bytes (take 8 (drop 8 bs));
            ov_closed := from_le_bytes (drop 16 bs) |}
  else None.

Definition apply_offset_field (existing : option bytes) (offset_type : OffsetTypes) (offset : N)
    (position_max : bool) : result bytes bytes :=
  let backing := default
    (offset_value_bytes {| ov_filesize := 0; ov_line := 0; ov_closed := 0 |}) existing in
  let? v := ok_or (str "offset bytes do not fit schema") (offset_layout backing) in
  Ok (offset_value_bytes
    match offset_type with
    | Filesize => {| ov_filesize := offset; ov_line := ov_line v; ov_closed := ov_closed v |}
    | Position =>
        {| ov_filesize := ov_filesize v;
           ov_line := if position_max then N.max (ov_line v) offset else offset;
           ov_closed := ov_closed v |}
    | Closed => {| ov_filesize := ov_filesize v; ov_line := ov_line v; ov_closed := offset |}
    end).

(** ** The trait *)

Class OffsetStore (O : Type) : Type := {
  get_bytes : O → bytes → result bytes (option bytes);
  get_offset : O → bytes → bytes → result bytes (option bytes);
  get_checkpoint : O → bytes → result bytes (option bytes);
  offset_flush : st O bytes unit;
  publish_wal_commit : bytes → bytes → N → N → bytes → PublishMode →
    st O OffsetPublishError unit;
  offset_publish_sk : O → bytes → bytes → bytes;
  checkpoint_publish_sk : O → bytes → bytes;
  reset_published_ingest : st O bytes unit
}.

Section publish.
Context {DG : Digest} {O : Type} `{OffsetStore O}.

Definition committed_offset_bytes (o : CommittedOffset) : bytes :=
  u64_le (off_filesize o) ++ u64_le (off_position o) ++ u64_le (off_closed o).

Definition publish_offset (epoch seq : N) (mode : PublishMode) (o : CommittedOffset)
    : st O OffsetPublishError unit :=
  do? sk := sread (λ s, Ok (offset_publish_sk s (off_namespace o) (off_partition o))) in
  let bs := committed_offset_bytes o in
  publish_wal_commit sk bs epoch seq (sha256_hex bs) mode.

Definition publish_checkpoint (epoch seq : N) (mode : PublishMode) (c : CommittedCheckpoint)
    : st O OffsetPublishError unit :=
  do? sk := sread (λ s, Ok (checkpoint_publish_sk s (cp_logical_key c))) in
  publish_wal_commit sk (cp_envelope c) epoch seq (sha256_hex (cp_envelope c)) mode.

Definition publish_committed (offsets : list CommittedOffset)
    (checkpoints : list CommittedCheckpoint) (epoch seq : N) (mode : PublishMode)
    : st O OffsetPublishError unit :=
  sfor (publish_offset epoch seq mode) offsets ;!
  sfor (publish_checkpoint epoch seq mode) checkpoints.
End publish.

(** ** The Skippr Store implementation *)

Definition offset_key (namespace partition : bytes) : bytes := namespace ++ x2d :: partition.
Definition checkpoint_key (key : bytes) : bytes := str "cdc_checkpoint:" ++ key.
Definition fence_key (sk : bytes) : bytes := str "fence#" ++ sk.

Definition encode_fence (epoch seq : N) (payload_sha256 : bytes) : bytes :=
  u64_le epoch ++ u64_le seq ++ payload_sha256.

Definition decode_fence (bs : bytes) : option (N * N * bytes) :=
  if decide (length bs < 16) then None
  else
    match from_utf8 (drop 16 bs) with
    | Ok hash => Some (from_le_bytes (take 8 bs), from_le_bytes (take 8 (drop 8 bs)), hash)
    | Err _ => None
    end.

Section store.
Context {DG : Digest} {S W Db Tree : Type} `{SkipprStore S} `{SledWorld W Db Tree}.

(** The store handle, its fence, and the sled database it falls back to. *)
Record StoreOffsetStore : Type := {
  so_store : S;
  so_fence : CatalogFence;
  so_sled_fallback : option bytes;
  so_world : W
}.

Definition StoreOffsetStore_new (s : S) (fence : CatalogFence) (w : W) : StoreOffsetStore :=
  {| so_store := s; so_fence := fence; so_sled_fallback := None; so_world := w |}.

Definition with_sled_fallback (path : bytes) (o : StoreOffsetStore) : StoreOffsetStore :=
  {| so_store := so_store o; so_fence := so_fence o; so_sled_fallback := Some path;
     so_world := so_world o |}.

Definition on_kv {E A} (m : st S E A) : st StoreOffsetStore E A :=
  λ o, let '(r, s') := m (so_store o) in
       (r, {| so_store := s'; so_fence := so_fence o;
              so_sled_fallback := so_sled_fallback o; so_world := so_world o |}).

Definition family_get (o : StoreOffsetStore) (family : StoreFamily) (rest : bytes)
    : result bytes (option bytes) :=
  let? v := map_err catalog_error_display (kv_get (so_store o) (family_key family rest)) in
  match v with
  | Some bs => Ok (Some bs)
  | None =>
      match so_sled_fallback o with
      | None => Ok None
      | Some path =>
          map_err catalog_error_display (lookup_miss_in_sled (so_world o) path family rest)
      end
  end.

Definition store_publish_wal_commit (sk bs : bytes) (epoch seq : N) (payload_sha256 : bytes)
    (mode : PublishMode) : st StoreOffsetStore OffsetPublishError unit :=
  do? v := sread (λ o, map_err Transient (family_get o Offsets (fence_key sk))) in
  let stored := v ≫= decode_fence in
  do? action := slift (decide_wal_publish stored epoch seq payload_sha256 mode) in
  match action with
  | AlreadyApplied => sret tt
  | Commit =>
      λ o, smap_err (λ e, Transient (catalog_error_display e))
             (on_kv (kv_commit [KvPut (family_key Offsets sk) bs;
                                KvPut (family_key Offsets (fence_key sk))
                                  (encode_fence epoch seq payload_sha256)] (so_fence o))) o
  end.

Definition store_flush : st StoreOffsetStore bytes unit :=
  smap_err catalog_error_display (on_kv kv_flush_durable).

Definition store_reset_published_ingest : st StoreOffsetStore bytes unit :=
  do? page := sread (λ o, map_err catalog_error_display
                (kv_query_prefix (so_store o) (family_prefix Offsets) None USIZE_MAX)) in
  let ops := (λ e, KvDelete e.1) <$> page in
  match ops with
  | [] => sret tt
  | _ => λ o, smap_err catalog_error_display (on_kv (kv_commit ops (so_fence o))) o
  end ;!
  store_flush.

#[global] Instance StoreOffsetStore_store : OffsetStore StoreOffsetStore := {|
  get_bytes o sk := family_get o Offsets sk;
  get_offset o ns p := family_get o Offsets (offset_key ns p);
  get_checkpoint o k := family_get o Offsets (checkpoint_key k);
  offset_flush := store_flush;
  publish_wal_commit := store_publish_wal_commit;
  offset_publish_sk _ ns p := offset_key ns p;
  checkpoint_publish_sk _ k := checkpoint_key k;
  reset_published_ingest := store_reset_published_ingest
|}.
End store.
#[global] Arguments StoreOffsetStore : clear implicits.

(** ** Readers (offsets.rs)

    The struct [Offsets] is [OffsetsDb] here: [Offsets] is the store family. *)

Inductive RuntimeOffsetOperation : Type :=
| OpValidate (key : OffsetKey) (offset_type : OffsetTypes) (offset_value : N)
| OpLoadCheckpointEnvelope (key : bytes).

Inductive RuntimeOffsetValue : Type :=
| ValValidate (v : option bool)
| ValLoadCheckpointEnvelope (e : option CheckpointEnvelope).

Inductive OffsetsError : Type :=
| AlreadyOpenError (detail : bytes)
| StoreError (detail : bytes).

(** [{:?}] of a remote value. *)
Definition debug_option {A} (f : A → bytes) (o : option A) : bytes :=
  match o with
  | None => str "None"
  | Some a => str "Some(" ++ f a ++ str ")"
  end.

Definition debug_envelope (e : CheckpointEnvelope) : bytes :=
  str "CheckpointEnvelope { authority: "
    ++ match ce_authority e with WalOwnership => str "WalOwnership" | AdvisoryHint => str "AdvisoryHint" end
    ++ str ", kind: "
    ++ match ce_kind e with
       | SourceResume => str "SourceResume"
       | BootstrapProgress => str "BootstrapProgress"
       | BootstrapAnchor => str "BootstrapAnchor"
       | AdvisoryProgress => str "AdvisoryProgress"
       end
    ++ str ", payload_version: " ++ display_N (ce_payload_version e)
    ++ str ", payload_bytes: [" ++ join_comma ((λ b, display_N (Byte.to_N b)) <$> ce_payload_bytes e)
    ++ str "] }".

Definition debug_value (v : RuntimeOffsetValue) : bytes :=
  match v with
  | ValValidate o =>
      str "Validate(" ++ debug_option (λ b : bool, if b then str "true" else str "false") o ++ str ")"
  | ValLoadCheckpointEnvelope o =>
      str "LoadCheckpointEnvelope(" ++ debug_option debug_envelope o ++ str ")"
  end.

Definition build_latest_key (key : OffsetKey) : bytes :=
  ok_namespace key ++ x2d :: ok_partition key ++ str "-latest".

Definition ends_with (s suffix : bytes) : bool := starts_with (rev s) (rev suffix).

(** One entry of the listing: [None] is [continue]. *)
Definition listed_offset (e : bytes * bytes) : option (OffsetKey * OffsetValue) :=
  match family_rest Offsets e.1 with
  | None => None
  | Some rest =>
      match from_utf8 rest with
      | Err _ => None
      | Ok key =>
          if starts_with key (str "cdc_checkpoint:") || ends_with key (str "-latest") then None
          else if negb (length e.2 =? 24) then None
          else
            match rsplit_once x2d key with
            | None => None
            | Some (namespace, partition) =>
                v ← offset_layout e.2;
                Some ({| ok_namespace := namespace; ok_partition := partition |}, v)
            end
      end
  end.

Definition listed_checkpoint (e : bytes * bytes) : option (bytes * bytes) :=
  rest ← family_rest Offsets e.1;
  match from_utf8 rest with
  | Err _ => None
  | Ok key => logical ← strip_prefix (str "cdc_checkpoint:") key; Some (logical, e.2)
  end.

Section offsets.
Context {DG : Digest} {S W Db Tree : Type} `{SkipprStore S} `{SledWorld W Db Tree}.

Record OffsetsDb : Type := {
  of_store : option (StoreOffsetStore S W);
  of_transport : option (RuntimeOffsetOperation → result bytes RuntimeOffsetValue)
}.

Definition remote_value (x : OffsetsDb) (op : RuntimeOffsetOperation)
    : result OffsetsError RuntimeOffsetValue :=
  let? call := ok_or (StoreError (str "remote offset operation has no authoritative transport"))
                 (of_transport x) in
  map_err (λ e, StoreError (str "Remote offset operation failed authoritatively: " ++ e))
    (call op).

Definition build_key (key : OffsetKey) : bytes :=
  ok_namespace key ++ x2d :: ok_partition key.

Definition try_get (x : OffsetsDb) (key : OffsetKey) : result OffsetsError (option bytes) :=
  match of_store x with
  | Some o => map_err StoreError (get_offset o (ok_namespace key) (ok_partition key))
  | None => Ok None
  end.

Definition snapshot_value (x : OffsetsDb) (key : OffsetKey)
    : result OffsetsError (option OffsetValue) :=
  let? bs := try_get x key in
  match bs with
  | None => Ok None
  | Some bs =>
      let? v := ok_or (StoreError (str "offset bytes do not fit schema")) (offset_layout bs) in
      Ok (Some v)
  end.

Definition iter_page (x : OffsetsDb) : list (bytes * bytes) :=
  match of_store x with
  | None => []
  | Some o =>
      match kv_query_prefix (so_store o) (family_prefix Offsets) None USIZE_MAX with
      | Ok page => page
      | Err _ => []
      end
  end.

Definition iter_local_offsets (x : OffsetsDb) : list (OffsetKey * OffsetValue) :=
  omap listed_offset (iter_page x).

Definition iter_local_checkpoints (x : OffsetsDb) : list (bytes * bytes) :=
  omap listed_checkpoint (iter_page x).

Definition field_matches (v : OffsetValue) (offset_type : OffsetTypes) (offset_value : N) : bool :=
  match offset_type with
  | Filesize => (ov_filesize v <? offset_value)%N
  | Position => (ov_line v <? offset_value)%N
  | Closed =>
      ((offset_value =? 0) && (ov_closed v =? 0))%N
      || (negb (offset_value =? 0) && negb (ov_closed v =? 0))%N
  end.

Definition validate (x : OffsetsDb) (key : OffsetKey) (offset_type : OffsetTypes)
    (offset_value : N) : result OffsetsError (option bool) :=
  match of_store x with
  | None =>
      let? v := remote_value x (OpValidate key offset_type offset_value) in
      match v with
      | ValValidate value => Ok value
      | other => Err (StoreError (str "remote validate returned unexpected response: "
                                    ++ debug_value other))
      end
  | Some _ =>
      let? o := try_get x key in
      match o with
      | None => Ok None
      | Some bs =>
          let? v := ok_or (StoreError (str "offset bytes do not fit schema")) (offset_layout bs) in
          Ok (Some (field_matches v offset_type offset_value))
      end
  end.

Definition load_checkpoint_envelope `{Codec CheckpointEnvelope} (x : OffsetsDb) (key : bytes)
    : result OffsetsError (option CheckpointEnvelope) :=
  match of_store x with
  | Some o =>
      let? value := map_err StoreError (get_checkpoint o key) in
      match value with
      | None => Ok None
      | Some bs =>
          map_err (λ e, StoreError (str "Failed to deserialize checkpoint envelope '" ++ key
                                      ++ str "': " ++ e))
            (rmap Some (deserialize bs))
      end
  | None =>
      let? v := remote_value x (OpLoadCheckpointEnvelope key) in
      match v with
      | ValLoadCheckpointEnvelope value => Ok value
      | other => Err (StoreError (str "Remote load_checkpoint_envelope returned unexpected response: "
                                    ++ debug_value other))
      end
  end.

Definition load_checkpoint_payload {T} `{Codec CheckpointEnvelope, Codec T} (x : OffsetsDb)
    (key : bytes) : result OffsetsError (option T) :=
  let? e := load_checkpoint_envelope x key in
  match e with
  | None => Ok None
  | Some envelope => map_err StoreError (rmap Some (into_payload envelope))
  end.

Definition Offsets_flush (x : OffsetsDb) : result OffsetsError unit * OffsetsDb :=
  match of_store x with
  | Some o =>
      let '(r, o') := offset_flush o in
      (map_err StoreError r, {| of_store := Some o'; of_transport := of_transport x |})
  | None =>
      match of_transport x with
      | Some _ => (Ok tt, x)
      | None => (Err (StoreError (str "offset flush requires an installed store")), x)
      end
  end.
End offsets.
#[global] Arguments OffsetsDb : clear implicits.

#[global] Arguments offset_key : simpl never.
#[global] Arguments checkpoint_key : simpl never.
#[global] Arguments fence_key : simpl never.
#[global] Arguments encode_fence : simpl never.
#[global] Arguments decode_fence : simpl never.
#[global] Arguments offset_layout : simpl never.
#[global] Arguments offset_value_bytes : simpl never.
#[global] Arguments family_get : simpl never.

(** Deleting a page of keys. *)
Lemma apply_deletes (page : list (bytes * bytes)) m key :
  apply_kv_ops ((λ e, KvDelete e.1) <$> page) m !! key =
  if decide (key ∈ page.*1) then None else m !! key.
Proof.
  revert m; induction page as [|[k v] page IH]; intros m; [done|].
  change (apply_kv_ops _ m)
    with (apply_kv_ops ((λ e : bytes * bytes, KvDelete e.1) <$> page) (delete k m)).
  rewrite IH. rewrite fmap_cons. cbn [fst]. repeat case_decide; try set_solver.
  - replace key with k by set_solver. apply lookup_delete_eq.
  - rewrite lookup_delete_ne; [done|set_solver].
Qed.

(** ** Layout lemmas *)

Definition wf_value (v : OffsetValue) : Prop :=
  (ov_filesize v ≤ U64_MAX)%N ∧ (ov_line v ≤ U64_MAX)%N ∧ (ov_closed v ≤ U64_MAX)%N.

Lemma length_offset_value_bytes v : length (offset_value_bytes v) = 24.
Proof. unfold offset_value_bytes. by rewrite !length_app, !length_u64_le. Qed.

Lemma take_u64_app x r : take 8 (u64_le x ++ r) = u64_le x.
Proof. apply take_app_length'. symmetry. apply length_u64_le. Qed.

Lemma drop_u64_app x r : drop 8 (u64_le x ++ r) = r.
Proof. apply drop_app_length'. symmetry. apply length_u64_le. Qed.

Lemma offset_layout_bytes v : wf_value v → offset_layout (offset_value_bytes v) = Some v.
Proof.
  intros (H1 & H2 & H3). unfold offset_layout.
  rewrite decide_True by apply length_offset_value_bytes. unfold offset_value_bytes.
  change 16 with (8 + 8). rewrite <- drop_drop, !drop_u64_app, !take_u64_app.
  rewrite !from_u64_le by done. by destruct v.
Qed.

Lemma offset_layout_wf bs v : offset_layout bs = Some v → wf_value v ∧ bs = offset_value_bytes v.
Proof.
  unfold offset_layout. case_decide as Hl; [|done]. intros [= <-].
  assert (∀ b : bytes, length b = 8 → (from_le_bytes b ≤ U64_MAX)%N ∧ u64_le (from_le_bytes b) = b) as Hb.
  { intros b Hb. split.
    - pose proof (from_le_bytes_bound b) as Hx. rewrite Hb in Hx.
      change (256 ^ N.of_nat 8)%N with (U64_MAX + 1)%N in Hx. lia.
    - unfold u64_le. rewrite <- Hb. apply to_from_le_bytes. }
  assert (length (take 8 bs) = 8) as L1 by (rewrite length_take; lia).
  assert (length (take 8 (drop 8 bs)) = 8) as L2 by (rewrite length_take, length_drop; lia).
  assert (length (drop 16 bs) = 8) as L3 by (rewrite length_drop; lia).
  split.
  - split_and!; cbn [ov_filesize ov_line ov_closed]; by apply Hb.
  - unfold offset_value_bytes. cbn [ov_filesize ov_line ov_closed]. rewrite (proj2 (Hb _ L1)), (proj2 (Hb _ L2)), (proj2 (Hb _ L3)).
    change 16 with (8 + 8). rewrite <- drop_drop, !take_drop. done.
Qed.

Lemma decode_encode_fence e q h :
  (e ≤ U64_MAX)%N → (q ≤ U64_MAX)%N → utf8_valid h = true →
  decode_fence (encode_fence e q h) = Some (e, q, h).
Proof.
  intros He Hq Hh. unfold decode_fence, encode_fence.
  rewrite decide_False by (rewrite !length_app, !length_u64_le; lia).
  change 16 with (8 + 8). rewrite <- drop_drop, !drop_u64_app, !take_u64_app.
  unfold from_utf8. rewrite Hh. by rewrite !from_u64_le by done.
Qed.

(** ** The fence order *)

Definition fence_le (x y : N * N) : Prop := fence_ltb y x = false.

Lemma fence_le_spec x y : fence_le x y ↔ (x.1 < y.1 ∨ x.1 = y.1 ∧ x.2 ≤ y.2)%N.
Proof.
  unfold fence_le, fence_ltb. destruct x as [a b], y as [c d]. simpl.
  destruct (N.ltb_spec c a), (N.eqb_spec c a), (N.ltb_spec d b); simpl; naive_solver lia.
Qed.

#[global] Instance fence_le_preorder : PreOrder fence_le.
Proof.
  split.
  - intros x. rewrite fence_le_spec. lia.
  - intros x y z. rewrite !fence_le_spec. lia.
Qed.

(** A stored fence that is ahead of, or equal to, what is asked. *)
Definition fence_covers (stored : option (N * N * bytes)) (epoch seq : N) : Prop :=
  match stored with
  | Some (e, q, _) => fence_le (epoch, seq) (e, q)
  | None => False
  end.

Lemma decide_already stored e q h mode :
  decide_wal_publish stored e q h mode = Ok AlreadyApplied →
  fence_covers stored e q ∧
  (stored = Some (e, q, h) ∨
   mode = Republish ∧ ∃ e' q' h', stored = Some (e', q', h') ∧ (e', q') ≠ (e, q)).
Proof.
  unfold decide_wal_publish, fence_covers, fence_le.
  destruct stored as [[[e' q'] h']|]; [|done].
  destruct (N.eqb_spec e' e), (N.eqb_spec q' q); simpl; subst.
  { case_decide; [|done]. subst. intros _. split; [|by left].
    unfold fence_ltb. simpl. by rewrite !N.ltb_irrefl, andb_false_r. }
  all: destruct (fence_ltb (e, q) _) eqn:El; [|done]; destruct mode; [done|]; intros _.
  all: split; [|right; split; [done|]; eexists _, _, _; split; [done|congruence]].
  all: apply fence_le_spec; revert El; unfold fence_ltb; simpl;
    rewrite orb_true_iff, andb_true_iff, !N.ltb_lt, N.eqb_eq; lia.
Qed.

Lemma decide_commit stored e q h mode :
  decide_wal_publish stored e q h mode = Ok Commit →
  match stored with
  | None => True
  | Some (e', q', _) => fence_le (e', q') (e, q) ∧ (e', q') ≠ (e, q)
  end.
Proof.
  unfold decide_wal_publish, fence_le. destruct stored as [[[e' q'] h']|]; [|done].
  destruct (N.eqb_spec e' e), (N.eqb_spec q' q); simpl; subst; [by case_decide|..];
    destruct (fence_ltb (e, q) _) eqn:El; [by destruct mode|..|by destruct mode|
      |by destruct mode|]; intros _; (split; [done|congruence]).
Qed.

Lemma decide_settled e q h mode : decide_wal_publish (Some (e, q, h)) e q h mode = Ok AlreadyApplied.
Proof. unfold decide_wal_publish. rewrite !N.eqb_refl. simpl. by rewrite decide_True. Qed.

(** ** What an offset store promises its publishers

    [os_ok]: reads and writes work; [os_view], [os_fence]: the value and the fence a
    sort key has; [os_sk]: the keys that are not fences themselves. *)

Class OffsetStoreLaws (O : Type) `{OffsetStore O} : Type := {
  os_ok : O → Prop;
  os_view : O → bytes → option bytes;
  os_fence : O → bytes → option (N * N * bytes);
  os_sk : bytes → Prop;
  os_offset_sk : bytes → bytes → bytes;
  os_checkpoint_sk : bytes → bytes;
  os_offset_sk_spec (o : O) ns p : offset_publish_sk o ns p = os_offset_sk ns p;
  os_checkpoint_sk_spec (o : O) k : checkpoint_publish_sk o k = os_checkpoint_sk k;
  os_publish (o : O) sk bs e q h mode :
    os_ok o → os_sk sk → (e ≤ U64_MAX)%N → (q ≤ U64_MAX)%N → utf8_valid h = true →
    match decide_wal_publish (os_fence o sk) e q h mode with
    | Err x => publish_wal_commit sk bs e q h mode o = (Err x, o)
    | Ok AlreadyApplied => publish_wal_commit sk bs e q h mode o = (Ok tt, o)
    | Ok Commit =>
        ∃ o', publish_wal_commit sk bs e q h mode o = (Ok tt, o') ∧ os_ok o' ∧
          ∀ k, os_sk k →
            os_view o' k = (if decide (k = sk) then Some bs else os_view o k) ∧
            os_fence o' k = (if decide (k = sk) then Some (e, q, h) else os_fence o k)
    end
}.

(** ** The implementation keeps the promise *)

Section impl.
Context {DG : Digest} {S W Db Tree : Type} `{HT : StoreTotal S} `{SledWorld W Db Tree}.
Implicit Types o : StoreOffsetStore S W.

Definition sled_view o (k : bytes) : option bytes :=
  match so_sled_fallback o with
  | None => None
  | Some path =>
      match lookup_miss_in_sled (so_world o) path Offsets k with
      | Ok v => v
      | Err _ => None
      end
  end.

Definition view o (k : bytes) : option bytes :=
  match contents (so_store o) !! family_key Offsets k with
  | Some v => Some v
  | None => sled_view o k
  end.

Definition fence_view o (sk : bytes) : option (N * N * bytes) :=
  view o (fence_key sk) ≫= decode_fence.

(** The sled database, if one is configured, reads without I/O errors, and the handle
    holds the store's fence. *)
Record healthy o : Prop := {
  healthy_sled path : so_sled_fallback o = Some path →
    ∀ k, is_ok (lookup_miss_in_sled (so_world o) path Offsets k) = true;
  healthy_fence : accepts (so_store o) (so_fence o) = true
}.

Definition plain_sk (k : bytes) : Prop := ¬ str "fence#" `prefix_of` k.

Lemma fence_key_inj sk sk' : fence_key sk = fence_key sk' → sk = sk'.
Proof. apply (inj (app _)). Qed.

Lemma plain_not_fence k sk : plain_sk k → k ≠ fence_key sk.
Proof. intros Hp ->. apply Hp. by exists sk. Qed.

Lemma family_get_view o k : healthy o → family_get o Offsets k = Ok (view o k).
Proof.
  intros [Hs _]. unfold family_get, view.
  pose proof (kv_get_total (so_store o) (family_key Offsets k)) as Hg.
  destruct (kv_get (so_store o) _) as [v|] eqn:E; [|done]. apply kv_get_spec in E as ->.
  cbn [map_err rbind]. destruct (contents (so_store o) !! _); [done|]. unfold sled_view.
  destruct (so_sled_fallback o) as [path|] eqn:Ep; [|done].
  specialize (Hs path eq_refl k). by destruct (lookup_miss_in_sled _ _ _ _).
Qed.

Lemma on_kv_commit_run ops o :
  healthy o →
  ∃ o', on_kv (kv_commit ops (so_fence o)) o = (Ok tt, o') ∧ healthy o' ∧
    contents (so_store o') = apply_kv_ops ops (contents (so_store o)) ∧
    (∀ k, sled_view o' k = sled_view o k).
Proof.
  intros Hh. unfold on_kv.
  pose proof (kv_commit_total ops (so_fence o) (so_store o) (healthy_fence _ Hh)) as Ht.
  pose proof (kv_commit_accepts ops (so_fence o) (so_store o)) as Ha.
  destruct (kv_commit ops (so_fence o) (so_store o)) as [[[]|] s'] eqn:E; [|done].
  eexists. split; [done|]. simpl in Ha. split_and!.
  - split; [apply (healthy_sled _ Hh)|]. simpl. rewrite Ha. apply (healthy_fence _ Hh).
  - simpl. by eapply kv_commit_Ok.
  - done.
Qed.

Lemma flush_run_offsets o :
  healthy o → ∃ o', store_flush o = (Ok tt, o') ∧
    contents (so_store o') = contents (so_store o).
Proof.
  intros _. unfold store_flush, smap_err, on_kv.
  pose proof (kv_flush_total (so_store o)) as Ht. pose proof (kv_flush_contents (so_store o)) as Hc.
  destruct (kv_flush_durable (so_store o)) as [[[]|] s']; [|done]. by eexists.
Qed.

Lemma family_key_offsets_inj k k' : family_key Offsets k = family_key Offsets k' → k = k'.
Proof. intros E. by apply family_key_inj in E as [_ ?]. Qed.

Lemma store_publish_spec o sk bs e q h mode :
  healthy o → plain_sk sk → (e ≤ U64_MAX)%N → (q ≤ U64_MAX)%N → utf8_valid h = true →
  match decide_wal_publish (fence_view o sk) e q h mode with
  | Err x => store_publish_wal_commit sk bs e q h mode o = (Err x, o)
  | Ok AlreadyApplied => store_publish_wal_commit sk bs e q h mode o = (Ok tt, o)
  | Ok Commit =>
      ∃ o', store_publish_wal_commit sk bs e q h mode o = (Ok tt, o') ∧ healthy o' ∧
        ∀ k, plain_sk k →
          view o' k = (if decide (k = sk) then Some bs else view o k) ∧
          fence_view o' k = (if decide (k = sk) then Some (e, q, h) else fence_view o k)
  end.
Proof.
  intros Hh Hp He Hq Hu. unfold store_publish_wal_commit, sbind, sread, slift.
  rewrite (family_get_view _ _ Hh). cbn [map_err].
  change (view o (fence_key sk) ≫= decode_fence) with (fence_view o sk).
  destruct (decide_wal_publish (fence_view o sk) e q h mode) as [[]|x]; [|done|done].
  destruct (on_kv_commit_run [KvPut (family_key Offsets sk) bs;
    KvPut (family_key Offsets (fence_key sk)) (encode_fence e q h)] o Hh)
    as (o' & Hc & Hh' & Hcont & Hs).
  exists o'. unfold smap_err. rewrite Hc. split_and!; [done|done|].
  assert (∀ k, view o' k = if decide (k = fence_key sk) then Some (encode_fence e q h)
    else if decide (k = sk) then Some bs else view o k) as Hv.
  { intros k. unfold view. rewrite Hcont, Hs. cbn [apply_kv_ops foldl apply_kv_op].
    case_decide as Hk; [subst; by rewrite lookup_insert_eq|].
    rewrite lookup_insert_ne by (intros E; by apply family_key_offsets_inj in E).
    case_decide as Hk'; [subst; by rewrite lookup_insert_eq|].
    by rewrite lookup_insert_ne by (intros E; by apply family_key_offsets_inj in E). }
  intros k Hk. unfold fence_view. rewrite !Hv. split.
  - by rewrite decide_False by (by apply plain_not_fence).
  - destruct (decide (k = sk)) as [->|Hne].
    + rewrite decide_True by done. by apply decode_encode_fence.
    + rewrite decide_False by (intros E; by apply fence_key_inj in E).
      rewrite decide_False; [done|]. intros E. by apply (plain_not_fence sk k).
Qed.

#[global] Program Instance StoreOffsetStore_laws : OffsetStoreLaws (StoreOffsetStore S W) := {|
  os_ok := healthy;
  os_view := view;
  os_fence := fence_view;
  os_sk := plain_sk;
  os_offset_sk := offset_key;
  os_checkpoint_sk := checkpoint_key;
  os_publish := store_publish_spec
|}.
Next Obligation. done. Qed.
Next Obligation. done. Qed.

(** A checkpoint key is never a fence; an offset key is one only when its namespace
    begins like one. *)
Lemma checkpoint_key_plain k : plain_sk (checkpoint_key k).
Proof. intros [r E]. by apply (f_equal (take 6)) in E; vm_compute in E. Qed.


Lemma offset_key_plain ns p : plain_sk ns → plain_sk (offset_key ns p).
Proof.
  intros Hn [r E]. unfold offset_key in E.
  change (str "fence#") with [x66; x65; x6e; x63; x65; x23] in E.
  destruct ns as [|a [|b [|c [|d [|e [|f ns]]]]]]; simpl in E; try discriminate E.
  injection E as -> -> -> -> -> -> _. apply Hn. by exists ns.
Qed.
End impl.

(** ** Publishing, against the interface *)

Section publishers.
Context {DG : Digest} {O : Type} `{HL : OffsetStoreLaws O}.
Implicit Types o : O.

(** A publication as the list of its sort keys and payloads. *)
Definition publish_items (offsets : list CommittedOffset) (cps : list CommittedCheckpoint)
    : list (bytes * bytes) :=
  ((λ x, (os_offset_sk (off_namespace x) (off_partition x), committed_offset_bytes x)) <$> offsets)
  ++ ((λ c, (os_checkpoint_sk (cp_logical_key c), cp_envelope c)) <$> cps).

Definition publish_item (e q : N) (mode : PublishMode) (x : bytes * bytes)
    : st O OffsetPublishError unit :=
  publish_wal_commit x.1 x.2 e q (sha256_hex x.2) mode.

Lemma publish_committed_items offsets cps e q mode o :
  publish_committed offsets cps e q mode o =
  sfor (publish_item e q mode) (publish_items offsets cps) o.
Proof.
  unfold publish_committed, publish_items. rewrite sfor_app. unfold sbind.
  rewrite sfor_fmap. rewrite (sfor_ext (publish_offset e q mode)
    (λ x, publish_item e q mode (os_offset_sk (off_namespace x) (off_partition x),
                                 committed_offset_bytes x))).
  2:{ intros x t. unfold publish_offset, publish_item, sbind, sread. simpl.
      by rewrite os_offset_sk_spec. }
  destruct (sfor _ offsets o) as [[u|err] o']; [|done].
  rewrite sfor_fmap. apply sfor_ext. intros c t.
  unfold publish_checkpoint, publish_item, sbind, sread. simpl. by rewrite os_checkpoint_sk_spec.
Qed.

Lemma publish_item_cases e q mode x o r o' :
  os_ok o → os_sk x.1 → (e ≤ U64_MAX)%N → (q ≤ U64_MAX)%N →
  publish_item e q mode x o = (r, o') →
  match decide_wal_publish (os_fence o x.1) e q (sha256_hex x.2) mode with
  | Err err => r = Err err ∧ o' = o
  | Ok AlreadyApplied => r = Ok tt ∧ o' = o
  | Ok Commit => r = Ok tt ∧ os_ok o' ∧ ∀ k, os_sk k →
      os_view o' k = (if decide (k = x.1) then Some x.2 else os_view o k) ∧
      os_fence o' k = (if decide (k = x.1) then Some (e, q, sha256_hex x.2) else os_fence o k)
  end.
Proof.
  intros Ho Hsk He Hq Hp. unfold publish_item in Hp.
  pose proof (os_publish o x.1 x.2 e q (sha256_hex x.2) mode Ho Hsk He Hq (sha256_hex_utf8 _)) as Hs.
  destruct (decide_wal_publish _ _ _ _ _) as [[]|err].
  - destruct Hs as (o1 & Hs & Ho1 & Hv). rewrite Hs in Hp. by simplify_eq.
  - rewrite Hs in Hp. by simplify_eq.
  - rewrite Hs in Hp. by simplify_eq.
Qed.

(** A key is settled when publishing it again is a no-op. *)
Definition settled (e q : N) (mode : PublishMode) (x : bytes * bytes) o : Prop :=
  decide_wal_publish (os_fence o x.1) e q (sha256_hex x.2) mode = Ok AlreadyApplied.

Lemma settled_commit_absurd e q mode x y o :
  settled e q mode y o → x.1 = y.1 →
  decide_wal_publish (os_fence o x.1) e q (sha256_hex x.2) mode = Ok Commit → False.
Proof.
  unfold settled. intros Hs Hxy Hc%decide_commit. rewrite Hxy in Hc.
  apply decide_already in Hs as [Hcov _]. unfold fence_covers in Hcov.
  destruct (os_fence o y.1) as [[[e' q'] h']|]; [|done]. destruct Hc as [H1 H2].
  rewrite fence_le_spec in H1, Hcov. simpl in *. apply H2. f_equal; lia.
Qed.

Lemma publish_item_settles e q mode x o o' :
  os_ok o → os_sk x.1 → (e ≤ U64_MAX)%N → (q ≤ U64_MAX)%N →
  publish_item e q mode x o = (Ok tt, o') →
  os_ok o' ∧ settled e q mode x o' ∧
  ∀ y, os_sk y.1 → settled e q mode y o → settled e q mode y o'.
Proof.
  intros Ho Hsk He Hq Hp. apply publish_item_cases in Hp; [|done..].
  destruct (decide_wal_publish (os_fence o x.1) e q (sha256_hex x.2) mode) as [[]|err] eqn:Ed.
  - destruct Hp as (_ & Ho' & Hv). split_and!; [done| |].
    + unfold settled. rewrite (proj2 (Hv _ Hsk)), decide_True by done. apply decide_settled.
    + intros y Hy Hs. unfold settled. rewrite (proj2 (Hv _ Hy)).
      case_decide as Hk; [|done]. exfalso. by eapply settled_commit_absurd.
  - destruct Hp as [_ ->]. done.
  - by destruct Hp.
Qed.

(** ** Fences only grow *)

Definition fence_grows (x y : option (N * N * bytes)) : Prop :=
  match x, y with
  | None, _ => True
  | Some (e, q, _), Some (e', q', _) => fence_le (e, q) (e', q')
  | Some _, None => False
  end.

#[global] Instance fence_grows_preorder : PreOrder fence_grows.
Proof.
  split.
  - intros [[[e q] h]|]; [|done]. simpl. reflexivity.
  - intros [[[e q] h]|] [[[e' q'] h']|] [[[e'' q''] h'']|]; simpl; try done. apply fence_le_preorder.
Qed.

Definition store_grows o o' : Prop :=
  os_ok o → os_ok o' ∧ ∀ k, os_sk k → fence_grows (os_fence o k) (os_fence o' k).

#[global] Instance store_grows_preorder : PreOrder store_grows.
Proof.
  split.
  - intros o Ho. split; [done|]. intros k _. reflexivity.
  - intros o1 o2 o3 H12 H23 Ho1. destruct (H12 Ho1) as [Ho2 Hg12].
    destruct (H23 Ho2) as [Ho3 Hg23]. split; [done|]. intros k Hk.
    etrans; [by apply Hg12|by apply Hg23].
Qed.

Lemma publish_item_grows e q mode x o :
  os_sk x.1 → (e ≤ U64_MAX)%N → (q ≤ U64_MAX)%N →
  store_grows o (publish_item e q mode x o).2.
Proof.
  intros Hsk He Hq Ho. destruct (publish_item e q mode x o) as [r o'] eqn:E.
  apply publish_item_cases in E; [|done..]. simpl.
  destruct (decide_wal_publish (os_fence o x.1) e q (sha256_hex x.2) mode) as [[]|err] eqn:Ed.
  - destruct E as (_ & Ho' & Hv). split; [done|]. intros k Hk. rewrite (proj2 (Hv _ Hk)).
    case_decide as Hx; [|reflexivity]. subst k. apply decide_commit in Ed.
    destruct (os_fence o x.1) as [[[e' q'] h']|]; [|done]. by destruct Ed.
  - destruct E as [_ ->]. split; [done|]. reflexivity.
  - destruct E as [_ ->]. split; [done|]. reflexivity.
Qed.

(** ** The stored hash is the hash of the stored value *)

Definition honest o : Prop :=
  ∀ k e q h, os_sk k → os_fence o k = Some (e, q, h) →
    ∃ v, os_view o k = Some v ∧ sha256_hex v = h.

Lemma publish_item_honest e q mode x o r o' :
  os_ok o → os_sk x.1 → (e ≤ U64_MAX)%N → (q ≤ U64_MAX)%N →
  publish_item e q mode x o = (r, o') → honest o → honest o'.
Proof.
  intros Ho Hsk He Hq Hp Hh. apply publish_item_cases in Hp; [|done..].
  destruct (decide_wal_publish _ _ _ _ _) as [[]|err].
  - destruct Hp as (_ & _ & Hv). intros k e' q' h' Hk. rewrite (proj2 (Hv _ Hk)), (proj1 (Hv _ Hk)).
    case_decide; [|by apply Hh]. intros [= <- <- <-]. by eexists.
  - by destruct Hp as [_ ->].
  - by destruct Hp as [_ ->].
Qed.

Definition wf_publication (offsets : list CommittedOffset) (cps : list CommittedCheckpoint)
    (e q : N) : Prop :=
  (e ≤ U64_MAX)%N ∧ (q ≤ U64_MAX)%N ∧
  Forall (λ x : bytes * bytes, os_sk x.1) (publish_items offsets cps).

Lemma publish_committed_grows offsets cps e q mode o :
  wf_publication offsets cps e q → store_grows o (publish_committed offsets cps e q mode o).2.
Proof.
  intros (He & Hq & Hsk). rewrite publish_committed_items. rewrite Forall_forall in Hsk.
  apply sfor_rel; [apply _|]. intros x t Hx. apply publish_item_grows; [by apply Hsk|done|done].
Qed.
End publishers.

(** ** Properties *)

(** C22: Publishing a WAL commit again is a no-op: once a publication has succeeded, the
    same offsets and checkpoints at the same epoch and sequence are accepted again, in
    either mode, and the store is not written. *)
Theorem publish_committed_idempotent {DG : Digest} {O} `{OffsetStoreLaws O}
    offsets cps e q mode (o o' : O) :
  os_ok o → wf_publication offsets cps e q →
  publish_committed offsets cps e q mode o = (Ok tt, o') →
  publish_committed offsets cps e q mode o' = (Ok tt, o').
Proof.
  intros Ho (He & Hq & Hsk). rewrite !publish_committed_items. intros Hp.
  rewrite Forall_forall in Hsk.
  destruct (sfor_each os_ok (settled e q mode) (publish_item e q mode)
    (publish_items offsets cps) o o') as [Ho' Hset]; [|done|done|].
  { intros x t t' Hx Ht Hr.
    destruct (publish_item_settles e q mode x t t') as (Ht' & Hx' & Hkeep);
      [done|by apply Hsk|done|done|done|].
    split_and!; [done|done|]. intros y Hy. apply Hkeep. by apply Hsk. }
  apply sfor_noop. intros x Hx. specialize (Hset x Hx). unfold settled in Hset.
  pose proof (os_publish o' x.1 x.2 e q (sha256_hex x.2) mode Ho' (Hsk _ Hx) He Hq
    (sha256_hex_utf8 _)) as Hpub. rewrite Hset in Hpub. exact Hpub.
Qed.

(** Fences never regress: through any sequence of publications, fresh or replayed,
    successful or not, the (epoch, sequence) a key was published at never decreases. *)
Theorem publish_fences_monotone {DG : Digest} {O} `{OffsetStoreLaws O} pubs (o : O) k :
  os_ok o → os_sk k →
  Forall (λ '(offsets, cps, e, q, mode), wf_publication offsets cps e q) pubs →
  fence_grows (os_fence o k)
    (os_fence (foldl (λ t '(offsets, cps, e, q, mode),
                       (publish_committed offsets cps e q mode t).2) o pubs) k).
Proof.
  intros Ho Hk Hf. enough (store_grows o (foldl (λ t '(offsets, cps, e, q, mode),
    (publish_committed offsets cps e q mode t).2) o pubs)) as Hg by by apply Hg.
  clear Ho. revert o; induction Hf as [|[[[[offs cps] e] q] mode] pubs Hw Hf IH]; intros o;
    simpl; [reflexivity|].
  etrans; [by apply (publish_committed_grows offs cps e q mode)|apply IH].
Qed.

(** A fresh publication that succeeds is readable: every offset and checkpoint of it
    then has the publication's fence and a value with exactly the published hash, even
    when part of it had been published before. *)
Theorem publish_fresh_visible {DG : Digest} {O} `{OffsetStoreLaws O}
    offsets cps e q (o o' : O) :
  os_ok o → honest o → wf_publication offsets cps e q →
  publish_committed offsets cps e q Fresh o = (Ok tt, o') →
  ∀ sk bs, (sk, bs) ∈ publish_items offsets cps →
    os_fence o' sk = Some (e, q, sha256_hex bs) ∧
    ∃ v, os_view o' sk = Some v ∧ sha256_hex v = sha256_hex bs.
Proof.
  intros Ho Hh (He & Hq & Hsk). rewrite publish_committed_items. intros Hp sk bs Hin.
  rewrite Forall_forall in Hsk.
  destruct (sfor_each (λ t, os_ok t ∧ honest t) (settled e q Fresh) (publish_item e q Fresh)
    (publish_items offsets cps) o o') as [[Ho' Hh'] Hset]; [|done|done|].
  { intros x t t' Hx [Ht Hht] Hr.
    destruct (publish_item_settles e q Fresh x t t') as (Ht' & Hx' & Hkeep);
      [done|by apply Hsk|done|done|done|].
    split_and!; [done| |done|intros y Hy; apply Hkeep; by apply Hsk].
    eapply (publish_item_honest e q Fresh x t); [exact Ht|by apply Hsk|done|done|done|done]. }
  specialize (Hset _ Hin). apply decide_already in Hset as [_ [Hf|[? _]]]; [|done].
  split; [exact Hf|]. exact (Hh' _ _ _ _ (Hsk _ Hin) Hf).
Qed.

(** An empty store on an empty world, and one committed offset. *)
Definition fresh_offsets : StoreOffsetStore MemoryInner MapWorld :=
  StoreOffsetStore_new (Memory_open CatalogFence_local) CatalogFence_local ∅.

Definition example_offset (position : N) : CommittedOffset :=
  {| off_namespace := str "ns"; off_partition := str "p"; off_filesize := 9;
     off_position := position; off_closed := 0 |}.

Lemma fresh_offsets_ok : healthy fresh_offsets.
Proof. split; [done|reflexivity]. Qed.

Lemma fresh_offsets_view k : view fresh_offsets k = None.
Proof. unfold view. simpl. by rewrite lookup_empty. Qed.

Lemma example_publication {DG : Digest} n :
  wf_publication (O := StoreOffsetStore MemoryInner MapWorld) [example_offset n] [] 1 1.
Proof.
  split_and!; [done|done|]. constructor; [|constructor]. apply offset_key_plain.
  intros [r E]. by apply (f_equal (take 2)) in E; vm_compute in E.
Qed.

Lemma publish_committed_idempotent_witness :
  let DG := toy_digest in
  let r := publish_committed [example_offset 5] [] 1 1 Fresh fresh_offsets in
  publish_committed [example_offset 5] [] 1 1 Fresh r.2 = (Ok tt, r.2).
Proof.
  intros DG r. apply (publish_committed_idempotent _ _ _ _ _ fresh_offsets r.2).
  - exact fresh_offsets_ok.
  - apply example_publication.
  - apply st_run. vm_compute. reflexivity.
Defined.

Lemma publish_fences_monotone_witness :
  let DG := toy_digest in
  fence_grows (Some (1%N, 1%N, []))
    (os_fence (foldl (λ t '(offsets, cps, e, q, mode),
        (publish_committed offsets cps e q mode t).2)
        (publish_committed [example_offset 5] [] 1 1 Fresh fresh_offsets).2
        [([example_offset 4], [], 1%N, 1%N, Republish)]) (offset_key (str "ns") (str "p"))).
Proof.
  intros DG.
  pose proof (publish_fences_monotone [([example_offset 4], [], 1%N, 1%N, Republish)]
    (publish_committed [example_offset 5] [] 1 1 Fresh fresh_offsets).2
    (offset_key (str "ns") (str "p"))) as H.
  assert (os_fence (publish_committed [example_offset 5] [] 1 1 Fresh fresh_offsets).2
    (offset_key (str "ns") (str "p")) =
    Some (1%N, 1%N, sha256_hex (committed_offset_bytes (example_offset 5)))) as E
    by (vm_compute; reflexivity).
  rewrite E in H. apply H.
  - split; [done|reflexivity].
  - apply offset_key_plain. intros [r E']. by apply (f_equal (take 2)) in E'; vm_compute in E'.
  - constructor; [apply example_publication|constructor].
Defined.

Lemma publish_fresh_visible_witness :
  let DG := toy_digest in
  let r := publish_committed [example_offset 5] [] 1 1 Fresh fresh_offsets in
  ∃ v, os_view r.2 (offset_key (str "ns") (str "p")) = Some v ∧
    sha256_hex v = sha256_hex (committed_offset_bytes (example_offset 5)).
Proof.
  intros DG r.
  eapply (publish_fresh_visible [example_offset 5] [] 1 1 fresh_offsets r.2).
  - exact fresh_offsets_ok.
  - intros k e q h _ E. exfalso. revert E. change (fence_view fresh_offsets k = Some (e, q, h) → False).
    unfold fence_view. by rewrite fresh_offsets_view.
  - apply example_publication.
  - apply st_run. vm_compute. reflexivity.
  - by left.
Defined.

(** What is published is what is read: when the stored fence is absent or older, the
    publication commits, and a reader then gets exactly the published file size,
    position and closed flag; it is told that a later position is new and that this one
    and any earlier one are not. *)
Theorem publish_then_read {DG : Digest} {S W Db Tree} `{StoreTotal S} `{SledWorld W Db Tree}
    (o : StoreOffsetStore S W) ns p x e q mode tr :
  healthy o → plain_sk ns → off_namespace x = ns → off_partition x = p →
  wf_value {| ov_filesize := off_filesize x; ov_line := off_position x;
              ov_closed := off_closed x |} →
  (e ≤ U64_MAX)%N → (q ≤ U64_MAX)%N →
  match fence_view o (offset_key ns p) with
  | None => True
  | Some (e', q', _) => fence_ltb (e', q') (e, q) = true
  end →
  ∃ o', publish_committed [x] [] e q mode o = (Ok tt, o') ∧
    let db := {| of_store := Some o'; of_transport := tr |} in
    let key := {| ok_namespace := ns; ok_partition := p |} in
    snapshot_value db key =
      Ok (Some {| ov_filesize := off_filesize x; ov_line := off_position x;
                  ov_closed := off_closed x |}) ∧
    ∀ n, validate db key Position n = Ok (Some (off_position x <? n)%N).
Proof.
  intros Hh Hn Hns Hpt Hw He Hq Hf. rewrite publish_committed_items.
  assert (plain_sk (offset_key ns p)) as Hpl by by apply offset_key_plain.
  assert (decide_wal_publish (fence_view o (offset_key ns p)) e q
    (sha256_hex (committed_offset_bytes x)) mode = Ok Commit) as Hd.
  { unfold decide_wal_publish. destruct (fence_view o _) as [[[e' q'] h']|]; [|done].
    revert Hf. unfold fence_ltb. cbn [fst snd].
    destruct (N.ltb_spec e' e), (N.eqb_spec e' e), (N.ltb_spec q' q), (N.eqb_spec q' q),
      (N.ltb_spec e e'), (N.eqb_spec e e'), (N.ltb_spec q q'); simpl; intros; try done; lia. }
  pose proof (store_publish_spec o (offset_key ns p) (committed_offset_bytes x) e q
    (sha256_hex (committed_offset_bytes x)) mode Hh Hpl He Hq (sha256_hex_utf8 _)) as Hs.
  rewrite Hd in Hs. destruct Hs as (o' & Hpub & Hh' & Hv). exists o'.
  assert (view o' (offset_key ns p) = Some (committed_offset_bytes x)) as Hview
    by (rewrite (proj1 (Hv _ Hpl)); by rewrite decide_True).
  assert (try_get {| of_store := Some o'; of_transport := tr |}
    {| ok_namespace := ns; ok_partition := p |} = Ok (Some (committed_offset_bytes x))) as Hg.
  { unfold try_get. simpl. by rewrite (family_get_view _ _ Hh'), Hview. }
  pose proof (offset_layout_bytes _ Hw) as Hl. unfold offset_value_bytes in Hl. cbn [ov_filesize ov_line ov_closed] in Hl.
  split; [|split].
  - cbn [publish_items sfor fmap list_fmap app]. unfold sbind, publish_item. simpl.
    rewrite Hns, Hpt. by rewrite Hpub.
  - unfold snapshot_value. rewrite Hg. cbn [rbind]. unfold committed_offset_bytes. by rewrite Hl.
  - intros n. unfold validate. cbn [of_store]. rewrite Hg. cbn [rbind].
    unfold committed_offset_bytes. by rewrite Hl.
Qed.

Lemma publish_then_read_witness :
  let DG := toy_digest in
  ∃ o', publish_committed [example_offset 5] [] 1 1 Fresh fresh_offsets = (Ok tt, o') ∧
    validate {| of_store := Some o'; of_transport := None |}
      {| ok_namespace := str "ns"; ok_partition := str "p" |} Position 5 = Ok (Some false).
Proof.
  intros DG.
  destruct (publish_then_read fresh_offsets (str "ns") (str "p") (example_offset 5) 1 1 Fresh None)
    as (o' & H1 & _ & H2).
  - exact fresh_offsets_ok.
  - intros [r E]. by apply (f_equal (take 2)) in E; vm_compute in E.
  - reflexivity.
  - reflexivity.
  - done.
  - done.
  - done.
  - unfold fence_view. by rewrite fresh_offsets_view.
  - exists o'. split; [exact H1|exact (H2 5%N)].
Defined.

(** Resetting published progress removes exactly the offsets family: afterwards no
    offset, checkpoint or fence key is left in the store and every key of the catalog,
    the journal and the other families is as it was. *)
Theorem reset_published_exact {DG : Digest} {S W Db Tree} `{StoreTotal S} `{SledWorld W Db Tree}
    (o : StoreOffsetStore S W) :
  healthy o → (N.of_nat (size (contents (so_store o))) ≤ USIZE_MAX)%N →
  ∃ o', reset_published_ingest o = (Ok tt, o') ∧
    ∀ key, contents (so_store o') !! key =
      if decide (family_prefix Offsets `prefix_of` key) then None
      else contents (so_store o) !! key.
Proof.
  intros Hh Hsz. cbn [reset_published_ingest StoreOffsetStore_store].
  unfold store_reset_published_ingest.
  set (page := filter (λ e, family_prefix Offsets `prefix_of` e.1) (entries (contents (so_store o)))).
  assert (sread (λ o0 : StoreOffsetStore S W, map_err catalog_error_display
    (kv_query_prefix (so_store o0) (family_prefix Offsets) None USIZE_MAX)) o = (Ok page, o)) as Hq.
  { unfold sread. pose proof (kv_query_total (so_store o) (family_prefix Offsets) None USIZE_MAX) as Ht.
    destruct (kv_query_prefix _ _ _ _) as [l|] eqn:E; [|done]. apply kv_query_spec in E as ->.
    unfold scan. rewrite takeN_all.
    - simpl. repeat f_equal. apply list_filter_iff. simpl. tauto.
    - assert (length (entries (contents (so_store o))) = size (contents (so_store o))) as Hlen
        by (by rewrite entries_perm, length_map_to_list).
      pose proof (length_filter (λ e : bytes * bytes, family_prefix Offsets `prefix_of` e.1 ∧
        after_ok None e.1) (entries (contents (so_store o)))) as Hle.
      change (N.max 1 USIZE_MAX) with USIZE_MAX. lia. }
  rewrite (sbind_run _ _ _ _ _ Hq).
  assert (∃ o1, (match (λ e : bytes * bytes, KvDelete e.1) <$> page with
      | [] => sret tt
      | _ => λ o0, smap_err catalog_error_display
               (on_kv (kv_commit ((λ e : bytes * bytes, KvDelete e.1) <$> page) (so_fence o0))) o0
      end) o = (Ok tt, o1) ∧ healthy o1 ∧
      contents (so_store o1) = apply_kv_ops ((λ e, KvDelete e.1) <$> page) (contents (so_store o)))
    as (o1 & Ho1 & Hh1 & Hc1).
  { generalize ((λ e : bytes * bytes, KvDelete e.1) <$> page). intros ops.
    destruct (on_kv_commit_run ops o Hh) as (o1 & Hr & Hh1 & Hc1 & _).
    destruct ops as [|op0 ops0]; [exists o; done|]. exists o1. unfold smap_err.
    by rewrite Hr. }
  destruct (flush_run_offsets o1 Hh1) as (o' & Hf & Hcf). exists o'. split.
  { by rewrite (sbind_run _ _ _ _ _ Ho1). }
  intros key. rewrite Hcf, Hc1. rewrite (apply_deletes page).
  assert (key ∈ page.*1 ↔ is_Some (contents (so_store o) !! key) ∧ family_prefix Offsets `prefix_of` key)
    as Hin.
  { rewrite list_elem_of_fmap. split.
    - intros ([k v] & -> & [Hp He%elem_of_entries]%list_elem_of_filter). simpl in *.
      by rewrite He.
    - intros [[v Hv] Hp]. exists (key, v). split; [done|].
      apply list_elem_of_filter. split; [done|by apply elem_of_entries]. }
  repeat case_decide; try tauto. destruct (contents (so_store o) !! key) eqn:E; [|done].
  exfalso. naive_solver.
Qed.

Lemma reset_published_exact_witness :
  let DG := toy_digest in
  let o := (publish_committed [example_offset 5] [] 1 1 Fresh fresh_offsets).2 in
  ∃ o', reset_published_ingest o = (Ok tt, o') ∧
    contents (so_store o') !! family_key Offsets (offset_key (str "ns") (str "p")) = None.
Proof.
  intros DG o. destruct (reset_published_exact o) as (o' & H1 & H2).
  - split; [done|reflexivity].
  - apply N.leb_le. vm_compute. reflexivity.
  - exists o'. split; [exact H1|]. rewrite H2. rewrite decide_True; [done|].
    by exists (offset_key (str "ns") (str "p")).
Defined.

(** Updating one field of a stored offset keeps the others: the result has the
    layout of an offset again, only the named field changes, a position with the
    maximum rule never goes back, and stored bytes of any other length are refused. *)
Theorem apply_offset_field_spec existing ty n pmax :
  (n ≤ U64_MAX)%N →
  match existing with
  | Some bs => length bs ≠ 24 →
      apply_offset_field existing ty n pmax = Err (str "offset bytes do not fit schema")
  | None => True
  end ∧
  (∀ v, match existing with
        | Some bs => offset_layout bs = Some v
        | None => v = {| ov_filesize := 0; ov_line := 0; ov_closed := 0 |}
        end →
   ∃ bs' v', apply_offset_field existing ty n pmax = Ok bs' ∧ offset_layout bs' = Some v' ∧
     ov_filesize v' = match ty with Filesize => n | _ => ov_filesize v end ∧
     ov_line v' = match ty with
                  | Position => if pmax then N.max (ov_line v) n else n
                  | _ => ov_line v
                  end ∧
     ov_closed v' = match ty with Closed => n | _ => ov_closed v end).
Proof.
  intros Hn. split.
  { destruct existing as [bs|]; [|done]. intros Hl. unfold apply_offset_field. simpl.
    unfold offset_layout. by rewrite decide_False. }
  intros v Hv. set (zero := {| ov_filesize := 0; ov_line := 0; ov_closed := 0 |}) in *.
  assert (offset_layout (default (offset_value_bytes zero) existing) = Some v ∧ wf_value v)
    as [Hl Hw].
  { destruct existing as [bs|]; simpl.
    - split; [done|]. by apply offset_layout_wf in Hv as [? _].
    - subst v. assert (wf_value zero) as Hz by (split_and!; simpl; lia).
      split; [by apply offset_layout_bytes|done]. }
  destruct Hw as (Hw1 & Hw2 & Hw3). unfold apply_offset_field. fold zero. rewrite Hl.
  cbn [ok_or rbind]. eexists _, _. split; [done|]. rewrite offset_layout_bytes.
  - split; [done|]. by destruct ty.
  - destruct ty; split_and!; simpl; try done. destruct pmax; lia.
Qed.

Lemma apply_offset_field_spec_witness :
  ∃ bs v, apply_offset_field None Position 7 true = Ok bs ∧ offset_layout bs = Some v ∧
    ov_line v = 7%N.
Proof.
  destruct (proj2 (apply_offset_field_spec None Position 7 true ltac:(vm_compute; discriminate))
    _ eq_refl) as (bs & v & H1 & H2 & _ & H3 & _).
  exists bs, v. split; [exact H1|]. split; [exact H2|exact H3].
Defined.

(** The offset key is injective on partitions without a dash, and the listing of
    local offsets gives such a key back as it was published. *)
Theorem offset_key_listing ns p v :
  x2d ∉ p → wf_value v → utf8_valid (offset_key ns p) = true →
  starts_with (offset_key ns p) (str "cdc_checkpoint:") = false →
  p ≠ str "latest" →
  (∀ ns' p', x2d ∉ p' → offset_key ns p = offset_key ns' p' → ns = ns' ∧ p = p') ∧
  listed_offset (family_key Offsets (offset_key ns p), offset_value_bytes v) =
    Some ({| ok_namespace := ns; ok_partition := p |}, v).
Proof.
  intros Hd Hw Hu Hc Hl. split.
  { intros ns' p' Hd' E. apply (f_equal (rsplit_once x2d)) in E. unfold offset_key in E.
    rewrite !rsplit_once_app in E by done. by simplify_eq. }
  unfold listed_offset. cbn [fst snd]. unfold family_rest, family_key.
  rewrite strip_prefix_app. unfold from_utf8. rewrite Hu, Hc.
  assert (ends_with (offset_key ns p) (str "-latest") = false) as ->.
  { destruct (ends_with _ _) eqn:E; [|done]. exfalso.
    apply starts_with_spec in E as [r E]. apply (f_equal (rev (A := byte))) in E.
    rewrite rev_app_distr, !rev_involutive in E. unfold offset_key in E.
    change (str "-latest") with (x2d :: str "latest") in E.
    apply (f_equal (rsplit_once x2d)) in E. rewrite !rsplit_once_app in E; [by simplify_eq| |done].
    vm_compute. set_solver. }
  rewrite length_offset_value_bytes. cbn [Nat.eqb negb orb]. unfold offset_key.
  rewrite rsplit_once_app by done. by rewrite (offset_layout_bytes _ Hw).
Qed.

Lemma offset_key_listing_witness :
  listed_offset (family_key Offsets (offset_key (str "a-b") (str "c")),
                 offset_value_bytes {| ov_filesize := 0; ov_line := 3; ov_closed := 0 |}) =
    Some ({| ok_namespace := str "a-b"; ok_partition := str "c" |},
          {| ov_filesize := 0; ov_line := 3; ov_closed := 0 |}).
Proof.
  apply offset_key_listing.
  - vm_compute. set_solver.
  - split_and!; vm_compute; discriminate.
  - vm_compute. reflexivity.
  - vm_compute. reflexivity.
  - vm_compute. discriminate.
Defined.


(** Partitions with a dash share keys: the namespace ["a-b"], partition ["c"] and the
    namespace ["a"], partition ["b-c"] are different sources with one key, so progress
    published for the first is read as the second's, whose events up to that position
    are then reported as already seen. *)
Theorem offset_keys_collide {DG : Digest} {S W Db Tree} `{StoreTotal S} `{SledWorld W Db Tree}
    (o : StoreOffsetStore S W) a b c n tr :
  healthy o → plain_sk a → fence_view o (offset_key (a ++ x2d :: b) c) = None →
  (n ≤ U64_MAX)%N →
  let x := {| off_namespace := a ++ x2d :: b; off_partition := c; off_filesize := 0;
              off_position := n; off_closed := 0 |} in
  let other := {| ok_namespace := a; ok_partition := b ++ x2d :: c |} in
  ∃ o', publish_committed [x] [] 1 1 Fresh o = (Ok tt, o') ∧
    ∀ m, (m ≤ n)%N →
      validate {| of_store := Some o'; of_transport := tr |} other Position m = Ok (Some false).
Proof.
  intros Hh Ha Hf Hn x other.
  assert (offset_key a (b ++ x2d :: c) = offset_key (a ++ x2d :: b) c) as Ek.
  { unfold offset_key. rewrite <- app_assoc. done. }
  assert (plain_sk (offset_key (a ++ x2d :: b) c)) as Hpl
    by (rewrite <- Ek; by apply offset_key_plain).
  pose proof (store_publish_spec o (offset_key (a ++ x2d :: b) c) (committed_offset_bytes x) 1 1
    (sha256_hex (committed_offset_bytes x)) Fresh Hh Hpl ltac:(done) ltac:(done)
    (sha256_hex_utf8 _)) as Hs.
  rewrite Hf in Hs. destruct Hs as (o' & Hpub & Hh' & Hv). exists o'. split.
  { rewrite publish_committed_items. cbn [publish_items sfor fmap list_fmap app].
    unfold sbind, publish_item. simpl. by rewrite Hpub. }
  intros m Hm. unfold validate, try_get. cbn [of_store]. cbn [get_offset StoreOffsetStore_store].
  rewrite (family_get_view _ _ Hh'). cbn [ok_namespace ok_partition other].
  rewrite Ek, (proj1 (Hv _ Hpl)), decide_True by done. cbn [map_err rbind].
  assert (wf_value {| ov_filesize := 0; ov_line := n; ov_closed := 0 |}) as Hw
    by (split_and!; simpl; unfold U64_MAX in *; lia).
  pose proof (offset_layout_bytes _ Hw) as Hl. unfold offset_value_bytes in Hl.
  cbn [ov_filesize ov_line ov_closed] in Hl. unfold committed_offset_bytes.
  cbn [off_filesize off_position off_closed x]. rewrite Hl. cbn [ok_or rbind]. do 2 f_equal.
  apply N.ltb_ge. exact Hm.
Qed.

Lemma offset_keys_collide_witness :
  let DG := toy_digest in
  ∃ o', publish_committed
      [{| off_namespace := str "orders-eu"; off_partition := str "0"; off_filesize := 0;
          off_position := 100; off_closed := 0 |}] [] 1 1 Fresh fresh_offsets = (Ok tt, o') ∧
    validate {| of_store := Some o'; of_transport := None |}
      {| ok_namespace := str "orders"; ok_partition := str "eu-0" |} Position 50 =
      Ok (Some false).
Proof.
  intros DG.
  destruct (offset_keys_collide fresh_offsets (str "orders") (str "eu") (str "0") 100 None)
    as (o' & H1 & H2).
  - exact fresh_offsets_ok.
  - intros [r E]. by apply (f_equal (take 2)) in E; vm_compute in E.
  - unfold fence_view. by rewrite fresh_offsets_view.
  - vm_compute. discriminate.
  - exists o'. split; [exact H1|]. apply H2. vm_compute. discriminate.
Defined.
