(* ===== verification/CopyWal.v ===== *)
(** * CopyWal: the rows of copy pipelines in the write-ahead log

    Models the record type and its size estimate of [src/serdes/copy.rs] and, of
    [src/buffer/segment_file.rs], [CopyPart], [CopyFrame] and [decode_copy_part].  JSON
    text ([serde_json]) and gzip ([flate2]) are not part of the repository: [JsonText] and
    [Gzip] are what the code relies on of them. *)

From S2P Require Import Prelude Bytes Text Codec Io.

(** ** JSON values and their size *)

Inductive JsonNumber : Type :=
| PosInt (n : N)
| NegInt (z : Z)
| Float (text : bytes).

Inductive Value : Type :=
| Null
| Bool (b : bool)
| Number (n : JsonNumber)
| JString (text : bytes)
| Array (items : list Value)
| Object (fields : list (bytes * Value)).

Definition I64_MAX : Z := 9223372036854775807.

(** [Number::as_i64] and [Number::as_u64]. *)
Definition as_i64 (n : JsonNumber) : option Z :=
  match n with
  | PosInt n => if (Z.of_N n <=? I64_MAX)%Z then Some (Z.of_N n) else None
  | NegInt z => Some z
  | Float _ => None
  end.

Definition as_u64 (n : JsonNumber) : option N :=
  match n with PosInt n => Some n | _ => None end.

(** [while rest > 0 { digits += 1; rest /= 10 }]: a [u64] has at most 64 bits, so
    [N.size_nat] rounds are enough. *)
Fixpoint count_digits (fuel : nat) (rest digits : N) : N :=
  match fuel with
  | O => digits
  | S f => if (0 <? rest)%N then count_digits f (rest / 10) (digits + 1) else digits
  end.

Definition signed_digit_bytes (value : Z) : N :=
  if (value =? 0)%Z then 1
  else let rest := Z.abs_N value in
       count_digits (N.size_nat rest) rest (if (value <? 0)%Z then 1 else 0).

Definition unsigned_digit_bytes (value : N) : N :=
  if (value =? 0)%N then 1 else count_digits (N.size_nat value) value 0.

Definition json_number_bytes (n : JsonNumber) : N :=
  match as_i64 n with
  | Some signed => signed_digit_bytes signed
  | None => match as_u64 n with
            | Some unsigned => unsigned_digit_bytes unsigned
            | None => 24
            end
  end.

Definition sum_N (l : list N) : N := foldr N.add 0%N l.

Fixpoint json_value_bytes (value : Value) : N :=
  match value with
  | Null => 4
  | Bool true => 4
  | Bool false => 5
  | Number n => json_number_bytes n
  | JString text => blen text + 2
  | Array items =>
      2 + sum_N (map json_value_bytes items) + (N.of_nat (length items) - 1)
  | Object fields =>
      2 + sum_N (map (λ kv, blen kv.1 + 3 + json_value_bytes kv.2) fields)
        + (N.of_nat (length fields) - 1)
  end%N.

(** ** Records *)

Record CopyWalRecord : Type := { cr_value : Value; cr_identity : option bytes }.

Definition estimated_wal_bytes (r : CopyWalRecord) : N :=
  (json_value_bytes (cr_value r) + match cr_identity r with Some bs => blen bs | None => 0 end)%N.

Record LegacyCopyWalFrame : Type := { lf_value : bytes; lf_identity : option bytes }.

Inductive CopyFrame : Type := Identity (line : bytes) | Json (json : bytes).

Class JsonText : Type := {
  json_to_vec : Value → result bytes bytes;
  json_from_slice : bytes → result bytes Value
}.

(** One gzip member of the given bytes; the first member of a stream; all of them. *)
Class Gzip : Type := {
  gz_encode : bytes → result IoErr bytes;
  gz_decode : bytes → result IoErr bytes;
  gz_decode_multi : bytes → result IoErr bytes;
  gz_decode_member x m rest : gz_encode x = Ok m → gz_decode (m ++ rest) = Ok x;
  gz_decode_members xs ms :
    Forall2 (λ x m, gz_encode x = Ok m) xs ms → ms ≠ [] →
    gz_decode_multi (concat ms) = Ok (concat xs)
}.

(** [bincode::deserialize_from] a cursor: the value and the number of bytes it took.  Every
    [Vec] starts with its length, so some bytes are taken. *)
Class StreamCodec (A : Type) `{Codec A} : Type := {
  deserialize_from : bytes → result bytes (A * nat);
  deserialize_from_serialize a bs rest :
    serialize a = Ok bs → deserialize_from (bs ++ rest) = Ok (a, length bs);
  deserialize_from_pos bs a n : deserialize_from bs = Ok (a, n) → 0 < n ≤ length bs
}.

Record CopyPart : Type := {
  cp_chunks : list bytes;
  cp_rows : N;
  cp_estimated_bytes : N
}.

Definition CopyPart_default : CopyPart :=
  {| cp_chunks := []; cp_rows := 0; cp_estimated_bytes := 0 |}.

Definition CopyPart_extend (self other : CopyPart) : CopyPart := {|
  cp_chunks := cp_chunks self ++ cp_chunks other;
  cp_rows := saturating_add U64_MAX (cp_rows self) (cp_rows other);
  cp_estimated_bytes :=
    saturating_add U64_MAX (cp_estimated_bytes self) (cp_estimated_bytes other)
|}.

Definition PART_CODEC_ARROW : N := 0.
Definition PART_CODEC_COPY : N := 1.
Definition PART_CODEC_COPY_CHUNKED : N := 2.

Definition is_copy_codec (codec : N) : bool :=
  (codec =? PART_CODEC_COPY)%N || (codec =? PART_CODEC_COPY_CHUNKED)%N.

Section copy.
Context `{JsonText, Gzip, StreamCodec (list CopyFrame), Codec (list LegacyCopyWalFrame)}.

Definition from_record (r : CopyWalRecord) : result IoErr CopyFrame :=
  match cr_identity r with
  | Some line => Ok (Identity line)
  | None => map_err (λ e, InvalidData (str "encode copy WAL value: " ++ e))
              (rmap Json (json_to_vec (cr_value r)))
  end.

Definition parse_copy_json (bs : bytes) : result IoErr Value :=
  map_err (λ e, InvalidData (str "decode copy WAL value: " ++ e)) (json_from_slice bs).

Definition into_record (f : CopyFrame) : result IoErr CopyWalRecord :=
  match f with
  | Identity line =>
      let? v := parse_copy_json line in Ok {| cr_value := v; cr_identity := Some line |}
  | Json json =>
      let? v := parse_copy_json json in Ok {| cr_value := v; cr_identity := None |}
  end.

Definition CopyPart_encode (records : list CopyWalRecord) : result IoErr CopyPart :=
  match records with
  | [] => Ok CopyPart_default
  | _ =>
      let? frames := rtraverse from_record records in
      let? raw := map_err (λ e, InvalidData (str "encode copy WAL: " ++ e)) (serialize frames) in
      let? chunk := gz_encode raw in
      Ok {| cp_chunks := [chunk];
            cp_rows := N.of_nat (length records);
            cp_estimated_bytes := sum_N (map estimated_wal_bytes records) |}
  end.

Definition legacy_record (f : LegacyCopyWalFrame) : result IoErr CopyWalRecord :=
  let? v := parse_copy_json (lf_value f) in
  Ok {| cr_value := v; cr_identity := lf_identity f |}.

(** One round of the loop over the decompressed frames; the cursor is the rest of [raw]. *)
Definition decode_frames (x : bytes * list CopyWalRecord)
    : result IoErr ((bytes * list CopyWalRecord) + list CopyWalRecord) :=
  match x.1 with
  | [] => Ok (inr x.2)
  | _ =>
      let? r := map_err (λ e, InvalidData (str "decode copy WAL: " ++ e)) (deserialize_from x.1) in
      let? recs := rtraverse into_record r.1 in
      Ok (inl (drop r.2 x.1, x.2 ++ recs))
  end.

Definition decode_copy_part (codec : N) (bs : bytes) : result IoErr (option (list CopyWalRecord)) :=
  if (codec =? PART_CODEC_COPY)%N then
    let? raw := gz_decode bs in
    let? frames := map_err (λ e, InvalidData (str "decode copy WAL: " ++ e)) (deserialize raw) in
    rmap Some (rtraverse legacy_record frames)
  else if (codec =? PART_CODEC_COPY_CHUNKED)%N then
    let? raw := gz_decode_multi bs in
    rloop (S (length raw)) decode_frames (raw, [])
  else Err (InvalidData (str "not a copy WAL PART codec " ++ display_N codec)).

(** ** What a chunked part holds

    A record is exact when reading back what is stored of it gives it again: the identity
    line parses to its value, or its JSON text does. *)

Definition exact_record (r : CopyWalRecord) : Prop :=
  match cr_identity r with
  | Some line => json_from_slice line = Ok (cr_value r)
  | None => ∃ js, json_to_vec (cr_value r) = Ok js ∧ json_from_slice js = Ok (cr_value r)
  end.

(** A part filled by appending encoded batches, as the WAL writer does. *)
Definition appended (parts : list CopyPart) : CopyPart :=
  foldl CopyPart_extend CopyPart_default parts.

Lemma into_from_record r f : exact_record r → from_record r = Ok f → into_record f = Ok r.
Proof.
  unfold exact_record, from_record. destruct r as [v [line|]]; cbn [cr_identity cr_value].
  - intros Hv [= <-]. cbn [into_record]. unfold parse_copy_json. by rewrite Hv.
  - intros (js & Hjs & Hv). rewrite Hjs. intros [= <-]. cbn [into_record].
    unfold parse_copy_json. by rewrite Hv.
Qed.

Lemma into_from_records rs fs :
  Forall exact_record rs → rtraverse from_record rs = Ok fs → rtraverse into_record fs = Ok rs.
Proof.
  intros Hrs Hfs%rtraverse_Ok. revert Hrs. induction Hfs as [|r f rs fs Hf _ IH]; [done|].
  intros [Hr Hrs]%Forall_cons. cbn [rtraverse].
  rewrite (into_from_record r f Hr Hf). cbn [rbind]. by rewrite (IH Hrs).
Qed.

(** The frames the loop reads from a concatenation of serialized batches. *)
Lemma decode_frames_run raws fss fuel acc (rss : list (list CopyWalRecord)) :
  Forall2 (λ fs raw, serialize fs = Ok raw) fss raws →
  Forall2 (λ fs rs, rtraverse into_record fs = Ok rs) fss rss →
  length (concat raws) < fuel →
  rloop fuel decode_frames (concat raws, acc) = Ok (Some (acc ++ concat rss)).
Proof.
  intros Hs. revert rss fuel acc. induction Hs as [|fs raw fss raws Hfs _ IH]; intros rss fuel acc Hr Hfuel.
  - inversion Hr; subst. destruct fuel as [|fuel]; [simpl in Hfuel; lia|]. cbn. by rewrite app_nil_r.
  - inversion Hr as [|? rs ? rss' Hrs Hrss]; subst. cbn [concat].
    pose proof (deserialize_from_serialize _ _ (concat raws) Hfs) as Hd.
    destruct (deserialize_from_pos _ _ _ Hd) as [Hpos _].
    destruct fuel as [|fuel]; [lia|]. cbn [rloop].
    assert (decode_frames (raw ++ concat raws, acc) = Ok (inl (concat raws, acc ++ rs))) as ->.
    { unfold decode_frames. cbn [fst snd]. rewrite Hd. cbn [map_err rbind fst snd].
      rewrite Hrs. cbn [rbind]. rewrite drop_app_length.
      destruct (raw ++ concat raws) eqn:E; [|done].
      apply (f_equal length) in E. rewrite length_app in E. simpl in E. lia. }
    cbn [rbind]. cbn [concat] in Hfuel. rewrite length_app in Hfuel.
    rewrite (IH rss' fuel (acc ++ rs)) by (done || lia). by rewrite <- app_assoc.
Qed.

Lemma appended_chunks_from p parts :
  cp_chunks (foldl CopyPart_extend p parts) = cp_chunks p ++ concat (map cp_chunks parts).
Proof.
  revert p; induction parts as [|q parts IH]; intros p; cbn [foldl map concat]; [by rewrite app_nil_r|].
  rewrite IH. cbn [CopyPart_extend cp_chunks]. by rewrite <- app_assoc.
Qed.

Lemma CopyPart_encode_inv rs p :
  Forall exact_record rs → CopyPart_encode rs = Ok p →
  (rs = [] ∧ cp_chunks p = []) ∨
  ∃ fs raw m, rtraverse into_record fs = Ok rs ∧ serialize fs = Ok raw ∧ gz_encode raw = Ok m ∧
    cp_chunks p = [m].
Proof.
  intros Hrs. destruct rs as [|r rs]; [intros [= <-]; by left|]. unfold CopyPart_encode.
  intros (fs & Hfs & (raw & Hraw%map_err_Ok & (m & Hm & [= <-])%rbind_Ok)%rbind_Ok)%rbind_Ok.
  right. exists fs, raw, m. split_and!; [by apply into_from_records|done|done|done].
Qed.

(** The members, raw batches and frames behind a list of encoded batches; an empty batch
    contributes nothing. *)
Lemma encode_batches_inv batches parts :
  Forall2 (λ rs p, CopyPart_encode rs = Ok p) batches parts →
  Forall (Forall exact_record) batches →
  ∃ fss raws ms rss,
    concat (map cp_chunks parts) = ms ∧ concat batches = concat rss ∧
    Forall2 (λ fs rs, rtraverse into_record fs = Ok rs) fss rss ∧
    Forall2 (λ fs raw, serialize fs = Ok raw) fss raws ∧
    Forall2 (λ raw m, gz_encode raw = Ok m) raws ms ∧
    (concat batches ≠ [] → ms ≠ []).
Proof.
  induction 1 as [|rs p batches parts Hp _ IH]; intros Hex.
  { exists [], [], [], []. split_and!; done. }
  apply Forall_cons in Hex as [Hrs Hex].
  destruct (IH Hex) as (fss & raws & ms & rss & Hms & Hc & Hi & Hs & Hg & Hne).
  destruct (CopyPart_encode_inv rs p Hrs Hp) as [[-> Hch]|(fs & raw & m & Hfs & Hraw & Hm & Hch)].
  - exists fss, raws, ms, rss. cbn [map concat]. rewrite Hch. split_and!; done.
  - exists (fs :: fss), (raw :: raws), (m :: ms), (rs :: rss). cbn [map concat].
    rewrite Hch, Hms, Hc. split_and!; [done|done|by constructor|by constructor|by constructor|done].
Qed.

(** Copy rows survive the log.  Batches of records are encoded one by one, each into a
    gzip member, and the parts are appended; reading the chunked payload back gives the
    records of all the batches, in order, provided there is at least one record. *)
Theorem copy_part_roundtrip (batches : list (list CopyWalRecord)) (parts : list CopyPart)
    (Henc : Forall2 (λ rs p, CopyPart_encode rs = Ok p) batches parts)
    (Hex : Forall (Forall exact_record) batches)
    (Hne : concat batches ≠ []) :
  decode_copy_part PART_CODEC_COPY_CHUNKED (concat (cp_chunks (appended parts)))
  = Ok (Some (concat batches)).
Proof.
  destruct (encode_batches_inv batches parts Henc Hex)
    as (fss & raws & ms & rss & Hms & Hc & Hi & Hs & Hg & Hne').
  unfold decode_copy_part, appended. rewrite appended_chunks_from, Hms, Hc.
  cbn [N.eqb PART_CODEC_COPY_CHUNKED PART_CODEC_COPY Pos.eqb CopyPart_default cp_chunks app].
  rewrite (gz_decode_members raws ms) by auto. cbn [rbind].
  by rewrite (decode_frames_run raws fss _ [] rss) by (done || lia).
Qed.
End copy.

(** ** The size estimate

    [compact] writes a value without spaces and without escapes: for values whose strings
    need no escape it is the text [serde_json] writes. *)

Fixpoint intersperse (sep : bytes) (l : list bytes) : bytes :=
  match l with
  | [] => []
  | [x] => x
  | x :: l' => x ++ sep ++ intersperse sep l'
  end.

Definition quoted (s : bytes) : bytes := x22 :: s ++ [x22].

Definition compact_number (n : JsonNumber) : bytes :=
  match n with
  | PosInt n => display_N n
  | NegInt z => x2d :: display_N (Z.abs_N z)
  | Float text => text
  end.

Fixpoint compact (v : Value) : bytes :=
  match v with
  | Null => str "null"
  | Bool true => str "true"
  | Bool false => str "false"
  | Number n => compact_number n
  | JString text => quoted text
  | Array items => x5b :: intersperse [x2c] (map compact items) ++ [x5d]
  | Object fields =>
      x7b :: intersperse [x2c] (map (λ kv, quoted kv.1 ++ x3a :: compact kv.2) fields) ++ [x7d]
  end.

Definition integer (n : JsonNumber) : Prop :=
  match n with PosInt _ => True | NegInt z => (z < 0)%Z | Float _ => False end.

(** No floating-point numbers: their estimate is a flat 24 bytes. *)
Fixpoint no_float (v : Value) : Prop :=
  match v with
  | Number n => integer n
  | Array items => foldr (λ v P, no_float v ∧ P) True items
  | Object fields => foldr (λ kv P, no_float kv.2 ∧ P) True fields
  | _ => True
  end.

Section value_ind.
Context (P : Value → Prop)
  (HNull : P Null) (HBool : ∀ b, P (Bool b)) (HNumber : ∀ n, P (Number n))
  (HString : ∀ s, P (JString s))
  (HArray : ∀ items, Forall P items → P (Array items))
  (HObject : ∀ fields, Forall (λ kv, P kv.2) fields → P (Object fields)).

(** Induction over values, through the lists inside them. *)
Fixpoint value_rect (v : Value) : P v :=
  match v with
  | Null => HNull
  | Bool b => HBool b
  | Number n => HNumber n
  | JString s => HString s
  | Array items =>
      HArray items ((fix go l : Forall P l :=
        match l with
        | [] => Forall_nil_2 P
        | x :: l' => Forall_cons_2 P x l' (value_rect x) (go l')
        end) items)
  | Object fields =>
      HObject fields ((fix go l : Forall (λ kv : bytes * Value, P kv.2) l :=
        match l with
        | [] => Forall_nil_2 _
        | x :: l' => Forall_cons_2 _ x l' (value_rect x.2) (go l')
        end) fields)
  end.
End value_ind.

Lemma count_digits_zero fuel d : count_digits fuel 0 d = d.
Proof. by destruct fuel. Qed.

Lemma count_digits_display fuel n acc d :
  n ≠ 0%N → (n < 2 ^ N.of_nat fuel)%N →
  (count_digits fuel n d + blen acc = d + blen (display_digits (S fuel) n acc))%N.
Proof.
  revert n acc d; induction fuel as [|f IH]; intros n acc d Hn Hb.
  { change (2 ^ N.of_nat 0)%N with 1%N in Hb. lia. }
  rewrite Nat2N.inj_succ, N.pow_succ_r' in Hb. cbn [count_digits].
  rewrite (proj2 (N.ltb_lt 0 n)) by lia.
  change (display_digits (S (S f)) n acc) with
    (let acc' := digit (n mod 10) :: acc in
     if (n / 10 =? 0)%N then acc' else display_digits (S f) (n / 10) acc').
  cbv zeta. destruct (N.eqb_spec (n / 10) 0) as [->|Hq].
  - rewrite count_digits_zero. unfold blen. cbn [length]. lia.
  - assert (n / 10 < 2 ^ N.of_nat f)%N as Hb' by (apply N.Div0.div_lt_upper_bound; lia).
    specialize (IH (n / 10)%N (digit (n mod 10) :: acc) (d + 1)%N Hq Hb').
    unfold blen in *. cbn [length] in IH. lia.
Qed.

Lemma unsigned_digit_bytes_display n : unsigned_digit_bytes n = blen (display_N n).
Proof.
  unfold unsigned_digit_bytes. destruct (N.eqb_spec n 0) as [->|Hn]; [done|].
  pose proof (count_digits_display (N.size_nat n) n [] 0 Hn (N_size_nat_bound n)) as H.
  unfold display_N. unfold blen in *. cbn [length] in H. lia.
Qed.

Lemma json_number_bytes_compact n : integer n → json_number_bytes n = blen (compact_number n).
Proof.
  assert (∀ z, (0 < Z.abs_N z)%N → ∀ d,
    count_digits (N.size_nat (Z.abs_N z)) (Z.abs_N z) d = (d + blen (display_N (Z.abs_N z)))%N) as Hd.
  { intros z Hz d.
    pose proof (count_digits_display _ _ [] d (N.neq_sym _ _ (N.lt_neq _ _ Hz))
                  (N_size_nat_bound (Z.abs_N z))) as H.
    unfold display_N. unfold blen in *. cbn [length] in H. lia. }
  destruct n as [n|z|t]; cbn [integer compact_number]; intros Hn; [| |done].
  - unfold json_number_bytes. cbn [as_i64 as_u64].
    destruct (Z.of_N n <=? I64_MAX)%Z; [|apply unsigned_digit_bytes_display]. unfold signed_digit_bytes.
    destruct (Z.eqb_spec (Z.of_N n) 0) as [Hz|Hz]; [assert (n = 0%N) as -> by lia; reflexivity|].
    rewrite Hd by lia. rewrite (proj2 (Z.ltb_ge _ _)) by lia. by rewrite Zabs2N.id.
  - unfold json_number_bytes. cbn [as_i64]. unfold signed_digit_bytes.
    rewrite (proj2 (Z.eqb_neq _ _)) by lia. rewrite Hd by lia.
    rewrite (proj2 (Z.ltb_lt _ _)) by lia. unfold blen. cbn [length]. lia.
Qed.

Lemma blen_intersperse (l : list bytes) :
  blen (intersperse [x2c] l) = (sum_N (map blen l) + (N.of_nat (length l) - 1))%N.
Proof.
  induction l as [|x [|y l] IH]; [done|cbn [intersperse map sum_N foldr length]; lia|].
  change (intersperse [x2c] (x :: y :: l)) with (x ++ [x2c] ++ intersperse [x2c] (y :: l)).
  rewrite !blen_app, IH. cbn [map sum_N foldr length]. unfold blen at 2. cbn [length]. lia.
Qed.

Lemma sum_N_ext {A} (f g : A → N) l :
  Forall (λ x, f x = g x) l → sum_N (map f l) = sum_N (map g l).
Proof. induction 1 as [|x l H _ IH]; cbn; [done|]. unfold sum_N in IH. by rewrite H, IH. Qed.

(** The size estimate of a copy row.  For a value without floating-point numbers the
    number computed without printing it is the length of its compact JSON text. *)
Theorem json_value_bytes_compact (v : Value) (Hv : no_float v) :
  json_value_bytes v = blen (compact v).
Proof.
  revert Hv. induction v as [|[]|n|s|items IH|fields IH] using value_rect; cbn [no_float]; intros Hv.
  - done.
  - done.
  - done.
  - by apply json_number_bytes_compact.
  - cbn [json_value_bytes compact]. unfold quoted, blen. cbn [length]. rewrite length_app. cbn. lia.
  - cbn [json_value_bytes compact]. change (x5b :: ?x) with ([x5b] ++ x).
    rewrite !blen_app, blen_intersperse, !length_map, map_map.
    rewrite (sum_N_ext json_value_bytes (λ x, blen (compact x)) items); [unfold blen; cbn [length]; lia|].
    clear -IH Hv. induction IH as [|x l Hx _ IHl]; constructor; cbn in Hv; naive_solver.
  - cbn [json_value_bytes compact]. change (x7b :: ?x) with ([x7b] ++ x).
    rewrite !blen_app, blen_intersperse, !length_map, map_map.
    rewrite (sum_N_ext (λ kv, blen kv.1 + 3 + json_value_bytes kv.2)%N
      (λ kv, blen (quoted kv.1 ++ x3a :: compact kv.2)) fields); [unfold blen; cbn [length]; lia|].
    clear -IH Hv. induction IH as [|x l Hx _ IHl]; constructor; cbn in Hv; [|naive_solver].
    rewrite Hx by naive_solver. unfold quoted, blen. cbn [length]. rewrite !length_app. cbn [length].
    rewrite !length_app. cbn. lia.
Qed.

(** The array of minus twelve and an empty string takes eight bytes. *)
Lemma json_value_bytes_compact_witness :
  json_value_bytes (Array [Number (NegInt (-12)); JString []]) = 8%N ∧
  json_value_bytes (Array [Number (NegInt (-12)); JString []])
  = blen (compact (Array [Number (NegInt (-12)); JString []])).
Proof.
  split; [reflexivity|]. apply json_value_bytes_compact. split; [done|]. split; done.
Defined.

(** ** Concrete instances

    A length-prefixed frame stands for a gzip member and for a serialized vector; the JSON
    instance knows one text. *)

Definition frame (x : bytes) : option bytes :=
  if (blen x <=? U64_MAX)%N then Some (u64_le (blen x) ++ x) else None.

Definition unframe (bs : bytes) : option (bytes * bytes) :=
  if length bs <? 8 then None
  else let n := from_le_bytes (take 8 bs) in
       let r := drop 8 bs in
       if (n <=? blen r)%N then Some (take (N.to_nat n) r, drop (N.to_nat n) r) else None.

Lemma unframe_frame x m rest : frame x = Some m → unframe (m ++ rest) = Some (x, rest).
Proof.
  unfold frame. destruct (N.leb_spec (blen x) U64_MAX) as [Hx|]; [|done]. intros Hm%(inj Some). subst m.
  unfold unframe. rewrite <- app_assoc.
  rewrite (proj2 (Nat.ltb_ge _ _)) by (rewrite length_app, length_u64_le; lia).
  rewrite take_app_length', drop_app_length' by (by rewrite length_u64_le). rewrite from_u64_le by done.
  rewrite (proj2 (N.leb_le _ _)) by (rewrite blen_app; lia).
  unfold blen. rewrite Nat2N.id. by rewrite take_app_length, drop_app_length.
Qed.

Lemma frame_length x m : frame x = Some m → length m = 8 + length x.
Proof.
  unfold frame. case_match; [|done]. intros Hm%(inj Some). subst m. by rewrite length_app, length_u64_le.
Qed.

Lemma unframe_length bs x r : unframe bs = Some (x, r) → length bs = 8 + length x + length r.
Proof.
  unfold unframe. destruct (Nat.ltb_spec (length bs) 8); [done|]. cbv zeta.
  destruct (N.leb_spec (from_le_bytes (take 8 bs)) (blen (drop 8 bs))) as [Hn|]; [|done].
  intros [= <- <-]. unfold blen in Hn. rewrite length_drop in Hn.
  rewrite length_take, !length_drop. lia.
Qed.

Definition gz_error : IoErr := InvalidData (str "corrupt gzip stream").

Fixpoint unframe_all (fuel : nat) (bs : bytes) : result IoErr bytes :=
  match fuel with
  | O => Err gz_error
  | S f =>
      match unframe bs with
      | None => Err gz_error
      | Some (x, []) => Ok x
      | Some (x, r) => let? y := unframe_all f r in Ok (x ++ y)
      end
  end.

Program Definition toy_gzip : Gzip := {|
  gz_encode x := ok_or gz_error (frame x);
  gz_decode bs := ok_or gz_error (fst <$> unframe bs);
  gz_decode_multi bs := unframe_all (length bs) bs
|}.
Next Obligation.
  intros x m rest Hm%ok_or_Ok. cbn. by rewrite (unframe_frame x m rest Hm).
Qed.
Next Obligation.
  intros xs ms Hms Hne. cbn.
  assert (∀ fuel, length ms ≤ fuel → unframe_all fuel (concat ms) = Ok (concat xs)) as Hrun.
  { induction Hms as [|x m xs ms Hm%ok_or_Ok Hms IH]; [done|]. intros [|fuel] Hf; [simpl in Hf; lia|].
    cbn [concat unframe_all]. rewrite (unframe_frame x m _ Hm).
    destruct Hms as [|x' m' xs ms Hm' Hms].
    - cbn. by rewrite app_nil_r.
    - destruct (concat (m' :: ms)) eqn:E.
      + apply ok_or_Ok, frame_length in Hm'. apply (f_equal length) in E. cbn [concat] in E.
        rewrite length_app in E. simpl in E. lia.
      + rewrite IH by (done || (simpl in *; lia)). done. }
  apply Hrun. clear Hrun Hne.
  induction Hms as [|x m xs ms Hm%ok_or_Ok%frame_length _ IH]; [done|].
  cbn [concat length]. rewrite length_app. lia.
Qed.

#[global] Instance CopyFrame_eq_dec : EqDecision CopyFrame.
Proof. solve_decision. Defined.
#[global] Instance CopyFrame_countable : Countable CopyFrame.
Proof.
  apply (inj_countable' (λ f, match f with Identity l => inl l | Json j => inr j end)
    (λ s, match s with inl l => Identity l | inr j => Json j end)). by intros [].
Defined.
#[global] Instance LegacyCopyWalFrame_eq_dec : EqDecision LegacyCopyWalFrame.
Proof. solve_decision. Defined.
#[global] Instance LegacyCopyWalFrame_countable : Countable LegacyCopyWalFrame.
Proof.
  apply (inj_countable' (λ f, (lf_value f, lf_identity f))
    (λ p, {| lf_value := p.1; lf_identity := p.2 |})). by intros [].
Defined.

Program Definition framed_codec {A} `{Countable A} : Codec A := {|
  serialize a := ok_or (str "too long") (frame (pos_bytes (encode a)));
  deserialize bs := ok_or (str "bad encoding")
                      (p ← unframe bs; decode (bytes_pos p.1))
|}.
Next Obligation.
  intros A ? ? a bs Hbs%ok_or_Ok. pose proof (unframe_frame _ _ [] Hbs) as Hu.
  rewrite app_nil_r in Hu. cbn beta. rewrite Hu.
  cbn. by rewrite bytes_pos_bytes, decode_encode.
Qed.

Program Definition framed_stream {A} `{Countable A} : @StreamCodec A framed_codec := {|
  deserialize_from bs := ok_or (str "bad encoding")
    (p ← unframe bs; a ← decode (bytes_pos p.1); Some (a, length bs - length p.2))
|}.
Next Obligation.
  intros A ? ? a bs rest Hbs%ok_or_Ok. cbn beta. rewrite (unframe_frame _ _ _ Hbs). cbn.
  rewrite bytes_pos_bytes, decode_encode. cbn. do 2 f_equal. rewrite length_app. lia.
Qed.
Next Obligation.
  intros A ? ? bs a n Hn%ok_or_Ok.
  apply bind_Some in Hn as ([x r] & Hu%unframe_length & Hn).
  apply bind_Some in Hn as (a' & _ & [= <- <-]). cbn. lia.
Qed.

Definition toy_json : JsonText := {|
  json_to_vec v := Ok (str "null");
  json_from_slice bs := if decide (bs = str "null") then Ok Null else Err (str "not null")
|}.

(** Two batches, the second with an identity line: the three rows come back. *)
Lemma copy_part_roundtrip_witness :
  let J := toy_json in let G := toy_gzip in
  let C := @framed_codec (list CopyFrame) _ _ in
  let K := @framed_stream (list CopyFrame) _ _ in
  let L := @framed_codec (list LegacyCopyWalFrame) _ _ in
  let row := {| cr_value := Null; cr_identity := None |} in
  let line := {| cr_value := Null; cr_identity := Some (str "null") |} in
  ∃ p q, CopyPart_encode [row; row] = Ok p ∧ CopyPart_encode [line] = Ok q ∧
    decode_copy_part PART_CODEC_COPY_CHUNKED (concat (cp_chunks (appended [p; q])))
    = Ok (Some [row; row; line]).
Proof.
  intros J G C K L row line.
  destruct (CopyPart_encode [row; row]) as [p|e] eqn:Ep; [|vm_compute in Ep; discriminate].
  destruct (CopyPart_encode [line]) as [q|e] eqn:Eq; [|vm_compute in Eq; discriminate].
  exists p, q. split; [reflexivity|]. split; [reflexivity|].
  apply (copy_part_roundtrip [[row; row]; [line]] [p; q]).
  - constructor; [exact Ep|]. constructor; [exact Eq|constructor].
  - assert (exact_record row) by (exists (str "null"); split; reflexivity).
    assert (exact_record line) by reflexivity.
    constructor; [constructor; [done|constructor; [done|constructor]]|].
    constructor; [constructor; [done|constructor]|constructor].
  - discriminate.
Defined.
