(* ===== verification/SegmentFile.v ===== *)
(** * SegmentFile: the SEGF segment format of the write-ahead log

    Models [src/buffer/segment_file.rs]: the encoder that lays a snapshot of the buffered
    partitions out as one byte string ([encode_snapshot]), the metadata reader that scans
    it without touching the payloads ([read_metadata_from_reader]), the checksum and
    admission checks, and the readers of the metadata sidecars.  The Arrow IPC writer is a
    parameter ([ArrowIpc]); serialization and SHA-256 are those of [Codec]. *)

From S2P Require Import Prelude Bytes Text Codec Io CopyWal Cdc SledMigrate OffsetStore.

(** ** Data *)

Definition SEGF_VERSION_V3 : N := 3.
Definition VERSION : N := 4.
Definition MAGIC : bytes := str "SEGF".
Definition PART : bytes := str "PART".
Definition FOOT : bytes := str "FOOT".
Definition FOOTER_LEN : N := 40.

Definition accepted_segf_version (version : N) : bool :=
  (version =? SEGF_VERSION_V3)%N || (version =? VERSION)%N.

Record PartitionKey : Type := {
  pk_sink_ref : bytes;
  pk_namespace : bytes;
  pk_partition : bytes;
  pk_time : option Z;
  pk_schema_fingerprint : bytes
}.

#[global] Instance PartitionKey_eq_dec : EqDecision PartitionKey.
Proof. solve_decision. Defined.
#[global] Instance PartitionKey_countable : Countable PartitionKey.
Proof.
  apply (inj_countable'
    (λ k, (pk_sink_ref k, pk_namespace k, pk_partition k, pk_time k, pk_schema_fingerprint k))
    (λ '(a, b, c, d, e), {| pk_sink_ref := a; pk_namespace := b; pk_partition := c;
                            pk_time := d; pk_schema_fingerprint := e |})). by intros [].
Defined.
#[global] Instance OffsetKey_countable : Countable OffsetKey.
Proof.
  apply (inj_countable' (λ k, (ok_namespace k, ok_partition k))
    (λ p, {| ok_namespace := p.1; ok_partition := p.2 |})). by intros [].
Defined.

(** The derived [Ord] of [PartitionKey]: field by field, [None] before [Some]. *)
Definition time_leb (x y : option Z) : bool :=
  match x, y with
  | None, _ => true
  | Some _, None => false
  | Some a, Some b => (a <=? b)%Z
  end.

Definition lexb {A B} `{EqDecision A} (la : A → A → bool) (lb : B → B → bool) (x y : A * B) : bool :=
  if decide (x.1 = y.1) then lb x.2 y.2 else la x.1 y.1.

Definition pk_fields (k : PartitionKey) : bytes * (bytes * (bytes * (option Z * bytes))) :=
  (pk_sink_ref k, (pk_namespace k, (pk_partition k, (pk_time k, pk_schema_fingerprint k)))).

Definition pk_leb (x y : PartitionKey) : bool :=
  lexb bytes_leb (lexb bytes_leb (lexb bytes_leb (lexb time_leb bytes_leb)))
    (pk_fields x) (pk_fields y).

Inductive SegmentPartMetaSummary : Type :=
| SumAppend
| SumCdc (row_count : N) (canonical_hash : bytes).

#[global] Instance SegmentPartMetaSummary_eq_dec : EqDecision SegmentPartMetaSummary.
Proof. solve_decision. Defined.

Definition summary_is_cdc (s : SegmentPartMetaSummary) : bool :=
  match s with SumCdc _ _ => true | SumAppend => false end.

Definition summary_row_count (s : SegmentPartMetaSummary) : option N :=
  match s with SumAppend => None | SumCdc row_count _ => Some row_count end.

Definition summary_canonical_hash (s : SegmentPartMetaSummary) : option bytes :=
  match s with SumAppend => None | SumCdc _ canonical_hash => Some canonical_hash end.

Record SegmentPartitionIndexEntry : Type := {
  ie_key : PartitionKey;
  ie_bytes : N;
  ie_updated_at_secs : N;
  ie_slice_ordinal : N;
  ie_part_meta_start : N;
  ie_part_meta_len : N;
  ie_part_meta_summary : SegmentPartMetaSummary;
  ie_codec : N;
  ie_start : N;
  ie_len : N
}.

Record SegmentFileMetadata : Type := {
  sm_created_at_secs : N;
  sm_total_bytes : N;
  sm_num_partitions : N;
  sm_offsets : gmap OffsetKey N;
  sm_index : list SegmentPartitionIndexEntry;
  sm_body_sha256 : bytes
}.

Record EncodedSnapshot : Type := {
  es_bytes : bytes;
  es_meta : SegmentFileMetadata;
  es_total_rows : N;
  es_sha256 : bytes
}.

(** Arrow record batches and their IPC stream: [StreamWriter] over the schema of the first
    batch, every batch written, then finished. *)
Class ArrowIpc (RecordBatch Schema : Type) : Type := {
  num_rows : RecordBatch → N;
  array_memory_size : RecordBatch → N;
  batch_schema : RecordBatch → Schema;
  ipc_stream : Schema → list RecordBatch → result bytes bytes
}.

Inductive WalPayload (RecordBatch : Type) : Type :=
| ArrowPayload (batches : list RecordBatch)
| CopyPayload (part : CopyPart).
Arguments ArrowPayload {RecordBatch} batches.
Arguments CopyPayload {RecordBatch} part.

(** A [SystemTime] is its distance from the epoch in nanoseconds;
    [duration_since(UNIX_EPOCH).unwrap_or_default().as_secs()]. *)
Definition unix_secs (t : Z) : N := Z.to_N (Z.max 0 t / 1000000000).

Definition payload_is_empty {RB} (p : WalPayload RB) : bool :=
  match p with
  | ArrowPayload batches => match batches with [] => true | _ => false end
  | CopyPayload part => (cp_rows part =? 0)%N
  end.

Definition payload_codec {RB} (p : WalPayload RB) : N :=
  match p with
  | ArrowPayload _ => PART_CODEC_ARROW
  | CopyPayload _ => PART_CODEC_COPY_CHUNKED
  end.

Definition payload_estimated_bytes {RB Sc} `{ArrowIpc RB Sc} (p : WalPayload RB) : N :=
  match p with
  | ArrowPayload batches => sum_N (map array_memory_size batches)
  | CopyPayload part => cp_estimated_bytes part
  end.

Definition payload_row_count {RB Sc} `{ArrowIpc RB Sc} (p : WalPayload RB) : N :=
  match p with
  | ArrowPayload batches => sum_N (map num_rows batches)
  | CopyPayload part => cp_rows part
  end.

Definition payload_extend {RB} (self other : WalPayload RB) : result bytes (WalPayload RB) :=
  match self, other with
  | ArrowPayload dst, ArrowPayload src => Ok (ArrowPayload (dst ++ src))
  | CopyPayload dst, CopyPayload src => Ok (CopyPayload (CopyPart_extend dst src))
  | _, _ => Err (str "WAL partition mixed Arrow and copy payloads")
  end.

(** ** Length checks *)

Definition claimed_len_capped_by_remaining (claimed pos file_len : N) (what : bytes)
    : result IoErr N :=
  let remaining := saturating_sub file_len pos in
  if (remaining <? claimed)%N then
    Err (InvalidData (what ++ str " length " ++ display_N claimed ++ str " exceeds remaining "
                        ++ display_N remaining))
  else if (claimed <=? USIZE_MAX)%N then Ok claimed
  else Err (InvalidData (what ++ str " is too large")).

Definition read_len_capped_by_remaining (file_len : N) (what : bytes) : io N :=
  do? claimed := read_u64 in
  do? pos := stream_position in
  slift (claimed_len_capped_by_remaining claimed pos file_len what).

Definition read_blob_capped_by_remaining (file_len : N) (what : bytes) : io bytes :=
  do? len := read_len_capped_by_remaining file_len what in
  read_exact len.

Definition skip_claimed_len (file_len : N) (what : bytes) : io unit :=
  do? len := read_len_capped_by_remaining file_len what in
  do? pos := stream_position in
  do? stop := slift (ok_or (InvalidData (what ++ str " range overflow"))
                       (checked_add U64_MAX pos len)) in
  seek_start stop.

Definition skip_payload (data_len file_len : N) : io unit :=
  do? start := stream_position in
  do? stop := slift (ok_or (InvalidData (str "WAL PART payload range overflow"))
                       (checked_add U64_MAX start data_len)) in
  if (file_len <? stop)%N then
    serr (InvalidData (str "Compactor: partition length beyond segment end start="
            ++ display_N start ++ str " len=" ++ display_N data_len ++ str " file_len="
            ++ display_N file_len))
  else seek_start stop.

Definition read_part_codec_and_len (version : N) : io (N * N) :=
  do? codec := (if (VERSION <=? version)%N
                then do? bs := read_exact 1 in sret (from_le_bytes bs)
                else sret PART_CODEC_ARROW) in
  if negb (codec =? PART_CODEC_ARROW)%N && negb (is_copy_codec codec)
  then serr (InvalidData (str "unknown WAL PART codec " ++ display_N codec))
  else do? len := read_u64 in sret (codec, len).

Section segment.
Context {RB Sc : Type} {AI : ArrowIpc RB Sc} {CK : Codec PartitionKey} {CM : Codec WalPartMeta}
  {CO : Codec (gmap OffsetKey N)} {DG : Digest}.

(** ** Metadata sidecars *)

Definition parse_part_meta_blob (blob : bytes)
    : result IoErr (WalPartMeta * SegmentPartMetaSummary) :=
  let? meta := map_err (λ e, InvalidData (str "invalid WAL PART metadata: " ++ e))
                 (deserialize blob) in
  map_err (λ e, InvalidData (str "invalid WAL PART metadata: " ++ WalPartMetaError_display e))
    (WalPartMeta_validate meta) ;?
  let? summary :=
    match pm_kind meta with
    | PartAppend => Ok SumAppend
    | PartCdc =>
        let? canonical := map_err (λ e, InvalidData (str "serialize WAL PART metadata: " ++ e))
                            (serialize meta) in
        Ok (SumCdc (pm_row_count meta) (sha256 canonical))
    end in
  Ok (meta, summary).

Definition summarize_part_meta_blob (blob : bytes) : result IoErr SegmentPartMetaSummary :=
  match blob with
  | [] => Ok SumAppend
  | _ => rmap snd (parse_part_meta_blob blob)
  end.

(** ** Reading *)

Definition verify_body_checksum (bs : bytes) : result IoErr bytes :=
  if (blen bs <? FOOTER_LEN)%N then Err (InvalidData (str "segment too short for FOOT"))
  else
    let prefix_len := (blen bs - FOOTER_LEN)%N in
    let footer := drop (N.to_nat prefix_len) bs in
    if negb (bool_decide (take 4 footer = FOOT)) then Err (InvalidData (str "missing FOOT"))
    else
      let claimed := take 32 (drop 8 footer) in
      if bool_decide (sha256 (take (N.to_nat prefix_len) bs) = claimed) then Ok claimed
      else Err (InvalidData (str "FOOT sha256 does not match body")).

(** The tag of the next part; the end of the file is an error of its own here. *)
Definition read_tag : io bytes :=
  λ c, match read_exact 4 c with
       | (Err UnexpectedEof, c') => (Err (InvalidData (str "WAL segment missing FOOT")), c')
       | r => r
       end.

(** The sidecar of a part: where it starts, its length and its summary. *)
Definition read_sidecar (file_len : N) : io (N * N * SegmentPartMetaSummary) :=
  do? meta_len := read_u64 in
  do? part_meta_start := stream_position in
  let remaining := saturating_sub file_len part_meta_start in
  if (remaining <? meta_len)%N then
    serr (InvalidData (str "WAL PART metadata length " ++ display_N meta_len
            ++ str " exceeds remaining " ++ display_N remaining))
  else
  do? part_meta_summary :=
    (if (meta_len =? 0)%N then sret SumAppend
     else if (meta_len <=? USIZE_MAX)%N
     then do? meta_blob := read_exact meta_len in slift (summarize_part_meta_blob meta_blob)
     else serr (InvalidData (str "WAL PART metadata is too large"))) in
  (if (0 <? meta_len)%N then
     do? expected_position :=
       slift (ok_or (InvalidData (str "WAL PART metadata range overflow"))
                (checked_add U64_MAX part_meta_start meta_len)) in
     do? pos := stream_position in
     if (pos =? expected_position)%N then sret tt
     else serr (InvalidData (str "WAL PART metadata length mismatch"))
   else sret tt) ;!
  sret (part_meta_start, meta_len, part_meta_summary).

(** One part after its tag. *)
Definition read_part (file_len version : N) (index_len : nat) : io SegmentPartitionIndexEntry :=
  do? key_blob := read_blob_capped_by_remaining file_len (str "WAL partition key") in
  do? key := slift (map_err (λ e, InvalidData (str "invalid WAL partition key: " ++ e))
                      (deserialize key_blob)) in
  do? part_bytes := read_u64 in
  do? upd_secs := read_u64 in
  do? sidecar := read_sidecar file_len in
  do? cl := read_part_codec_and_len version in
  do? start := stream_position in
  skip_payload cl.2 file_len ;!
  do? slice_ordinal :=
    slift (if (N.of_nat index_len <=? U32_MAX)%N then Ok (N.of_nat index_len)
           else Err (InvalidData (str "WAL segment contains too many partitions"))) in
  sret {| ie_key := key; ie_bytes := part_bytes; ie_updated_at_secs := upd_secs;
          ie_slice_ordinal := slice_ordinal; ie_part_meta_start := sidecar.1.1;
          ie_part_meta_len := sidecar.1.2; ie_part_meta_summary := sidecar.2;
          ie_codec := cl.1; ie_start := start; ie_len := cl.2 |}.

(** One round of the loop over the parts: the index so far and the total payload bytes. *)
Definition read_round (file_len version : N) (x : list SegmentPartitionIndexEntry * N)
    : io ((list SegmentPartitionIndexEntry * N) + (list SegmentPartitionIndexEntry * N)) :=
  do? tag := read_tag in
  if bool_decide (tag = FOOT) then sret (inr x)
  else if negb (bool_decide (tag = PART))
  then serr (InvalidData (str "WAL segment expected PART or FOOT"))
  else
    do? e := read_part file_len version (length x.1) in
    sret (inl (x.1 ++ [e], saturating_add U64_MAX x.2 (ie_len e))).

Definition read_header (file_len : N) : io (N * N * gmap OffsetKey N) :=
  do? magic := read_exact 4 in
  if negb (bool_decide (magic = MAGIC))
  then serr (InvalidData (str "Compactor: bad segment magic"))
  else
  do? version := read_u32 in
  if negb (accepted_segf_version version)
  then serr (InvalidData (str "Compactor: read refused version=" ++ display_N version))
  else
  do? created_at_secs := read_u64 in
  do? offsets_blob := read_blob_capped_by_remaining file_len (str "WAL offsets blob") in
  do? offsets := slift (map_err (λ e, InvalidData (str "invalid WAL offsets metadata: " ++ e))
                          (deserialize offsets_blob)) in
  sret (version, created_at_secs, offsets).

Definition read_footer (file_len created_at_secs : N) (offsets : gmap OffsetKey N)
    (x : list SegmentPartitionIndexEntry * N) : io SegmentFileMetadata :=
  do? footer_parts := read_u32 in
  do? body_sha256 := read_exact 32 in
  do? pos := stream_position in
  if negb (pos =? file_len)%N
  then serr (InvalidData (str "WAL segment has trailing bytes after FOOT"))
  else
  do? num_partitions :=
    slift (if (N.of_nat (length x.1) <=? U32_MAX)%N then Ok (N.of_nat (length x.1))
           else Err (InvalidData (str "WAL segment contains too many partitions"))) in
  if negb (footer_parts =? num_partitions)%N
  then serr (InvalidData (str "FOOT parts_count " ++ display_N footer_parts
               ++ str " does not match index " ++ display_N num_partitions))
  else sret {| sm_created_at_secs := created_at_secs; sm_total_bytes := x.2;
               sm_num_partitions := num_partitions; sm_offsets := offsets;
               sm_index := x.1; sm_body_sha256 := body_sha256 |}.

(** Every round takes at least the four bytes of its tag, so the length of the file is
    enough fuel; [None] would be a loop that did not end. *)
Definition read_metadata_from_reader (fuel : nat) : io (option SegmentFileMetadata) :=
  do? file_len := seek_end in
  seek_start 0 ;!
  do? h := read_header file_len in
  let '(version, created_at_secs, offsets) := h in
  do? x := sloop fuel (read_round file_len version) ([], 0%N) in
  match x with
  | None => sret None
  | Some x => do? m := read_footer file_len created_at_secs offsets x in sret (Some m)
  end.

Definition read_metadata_from_bytes (bs : bytes) : result IoErr (option SegmentFileMetadata) :=
  (read_metadata_from_reader (S (length bs)) (cursor_new bs)).1.

(** [admit_payload_path] after it has read the file. *)
Definition admit_payload (body : bytes) (expected_sha : bytes)
    : result IoErr (option SegmentFileMetadata) :=
  let? claimed := verify_body_checksum body in
  if negb (bool_decide (claimed = expected_sha))
  then Err (InvalidData (str "payload sha256 does not match catalog row"))
  else
  let? meta := read_metadata_from_bytes body in
  match meta with
  | None => Ok None
  | Some m =>
      if bool_decide (claimed = sm_body_sha256 m) then Ok (Some m)
      else Err (InvalidData (str "FOOT digest disagrees with metadata scan"))
  end.

(** One sidecar, straight from its indexed range. *)
Definition read_part_meta_from_reader (e : SegmentPartitionIndexEntry)
    : io (option WalPartMeta) :=
  if (ie_part_meta_len e =? 0)%N then
    if bool_decide (ie_part_meta_summary e = SumAppend) then sret None
    else serr (InvalidData (str "CDC WAL PART metadata summary has an empty sidecar"))
  else if negb (ie_part_meta_len e <=? USIZE_MAX)%N
  then serr (InvalidData (str "WAL PART metadata is too large"))
  else
    seek_start (ie_part_meta_start e) ;!
    do? blob := read_exact (ie_part_meta_len e) in
    do? ms := slift (parse_part_meta_blob blob) in
    if bool_decide (ms.2 = ie_part_meta_summary e) then sret (Some ms.1)
    else serr (InvalidData (str "WAL PART metadata summary mismatch at slice ordinal "
                 ++ display_N (ie_slice_ordinal e))).

Definition read_part_meta_from_bytes (bs : bytes) (e : SegmentPartitionIndexEntry)
    : result IoErr (option WalPartMeta) :=
  let? stop := ok_or (InvalidData (str "WAL PART metadata range overflow"))
                 (checked_add U64_MAX (ie_part_meta_start e) (ie_part_meta_len e)) in
  if (blen bs <? stop)%N then
    Err (InvalidData (str "WAL PART metadata range beyond segment end start="
           ++ display_N (ie_part_meta_start e) ++ str " len=" ++ display_N (ie_part_meta_len e)
           ++ str " file_len=" ++ display_N (blen bs)))
  else (read_part_meta_from_reader e (cursor_new bs)).1.

(** One round of the full scan for the sidecars: [inr] is the end of the loop. *)
Definition blobs_round (file_len version : N) (acc : gmap PartitionKey bytes)
    : io (gmap PartitionKey bytes + gmap PartitionKey bytes) :=
  λ c, match read_exact 4 c with
       | (Err UnexpectedEof, c') => (Ok (inr acc), c')
       | (Err e, c') => (Err e, c')
       | (Ok tag, c') =>
           if negb (bool_decide (tag = PART)) then (Ok (inr acc), c')
           else
             (do? key_blob := read_blob_capped_by_remaining file_len (str "WAL partition key") in
              do? key := slift (map_err (λ e, InvalidData
                                  (str "invalid WAL partition key in part-meta scan: " ++ e))
                                  (deserialize key_blob)) in
              seek_current 16 ;!
              do? meta_len := read_u64 in
              do? pos := stream_position in
              let remaining := saturating_sub file_len pos in
              if (remaining <? meta_len)%N then
                serr (InvalidData (str "WAL PART metadata length " ++ display_N meta_len
                        ++ str " exceeds remaining " ++ display_N remaining))
              else
              do? acc' :=
                (if (0 <? meta_len)%N then
                   if (meta_len <=? USIZE_MAX)%N
                   then do? meta_blob := read_exact meta_len in sret (<[key := meta_blob]> acc)
                   else serr (InvalidData (str "WAL PART metadata is too large"))
                 else sret acc) in
              do? cl := read_part_codec_and_len version in
              skip_payload cl.2 file_len ;!
              sret (inl acc')) c'
       end.

Definition read_part_meta_blobs_from_reader (fuel : nat)
    : io (option (gmap PartitionKey bytes)) :=
  do? file_len := seek_end in
  seek_start 0 ;!
  do? magic := read_exact 4 in
  if negb (bool_decide (magic = MAGIC)) then sret (Some ∅)
  else
  do? version := read_u32 in
  if negb (accepted_segf_version version)
  then serr (InvalidData (str "read_part_meta_blobs: refused version=" ++ display_N version))
  else
  seek_current 8 ;!
  skip_claimed_len file_len (str "WAL offsets blob") ;!
  sloop fuel (blobs_round file_len version) ∅.

(** ** Writing *)

Definition part_le (x y : PartitionKey * WalPayload RB) : Prop := pk_leb x.1 y.1 = true.

#[global] Instance part_le_dec : RelDecision part_le.
Proof. intros x y. unfold part_le. apply _. Defined.

(** [batches.iter().collect()] sorted by key: the order of the map's iteration is lost. *)
Definition sorted_parts (batches : list (PartitionKey * WalPayload RB))
    : list (PartitionKey * WalPayload RB) := merge_sort part_le batches.

(** The payload of one part and the new row total. *)
Definition write_payload (p : WalPayload RB) (total_rows : N) : io N :=
  match p with
  | ArrowPayload rbatches =>
      match rbatches with
      | [] => serr (OtherIo (str "index out of bounds")) (* a panic: empty payloads are skipped *)
      | first :: _ =>
          do? bs := slift (map_err (λ e, OtherIo (str "arrow: " ++ e))
                             (ipc_stream (batch_schema first) rbatches)) in
          write_all bs ;!
          sret (foldl (λ t b, wrapping_add64 t (num_rows b)) total_rows rbatches)
      end
  | CopyPayload part =>
      sfor write_all (cp_chunks part) ;!
      sret (saturating_add U64_MAX total_rows (cp_rows part))
  end.

Record EncodeAcc : Type := {
  ea_total_rows : N;
  ea_total_bytes : N;
  ea_parts_count : N;
  ea_index : list SegmentPartitionIndexEntry
}.

Section encode.
Variables (partitions_meta : gmap PartitionKey (N * Z)) (part_meta_blobs : gmap PartitionKey bytes)
  (created_at : Z).

Definition encode_part (acc : EncodeAcc) (kp : PartitionKey * WalPayload RB) : io EncodeAcc :=
  let '(key, payload) := kp in
  if payload_is_empty payload then sret acc
  else
  let parts_count := saturating_add U32_MAX (ea_parts_count acc) 1 in
  write_all PART ;!
  do? key_blob := slift (map_err (λ e, InvalidData (str "encode WAL key: " ++ e))
                           (serialize key)) in
  write_all (u64_le (blen key_blob)) ;!
  write_all key_blob ;!
  let '(p_bytes, p_updated) := default (0%N, created_at) (partitions_meta !! key) in
  let updated_secs := unix_secs p_updated in
  write_all (u64_le p_bytes) ;!
  write_all (u64_le updated_secs) ;!
  let meta_blob := default [] (part_meta_blobs !! key) in
  do? part_meta_summary := slift (summarize_part_meta_blob meta_blob) in
  let meta_len := blen meta_blob in
  write_all (u64_le meta_len) ;!
  do? part_meta_start := stream_position in
  (if (0 <? meta_len)%N then write_all meta_blob else sret tt) ;!
  let codec := payload_codec payload in
  write_all [byte_of_N codec] ;!
  do? data_len_pos := stream_position in
  write_all (u64_le 0) ;!
  do? start := stream_position in
  do? total_rows := write_payload payload (ea_total_rows acc) in
  do? stop := stream_position in
  let len := (stop - start)%N in
  seek_start data_len_pos ;!
  write_all (u64_le len) ;!
  seek_start stop ;!
  sret {| ea_total_rows := total_rows;
          ea_total_bytes := saturating_add U64_MAX (ea_total_bytes acc) len;
          ea_parts_count := parts_count;
          ea_index := ea_index acc ++
            [{| ie_key := key; ie_bytes := p_bytes; ie_updated_at_secs := updated_secs;
                ie_slice_ordinal := (parts_count - 1)%N; ie_part_meta_start := part_meta_start;
                ie_part_meta_len := meta_len; ie_part_meta_summary := part_meta_summary;
                ie_codec := codec; ie_start := start; ie_len := len |}] |}.

Fixpoint encode_parts (acc : EncodeAcc) (parts : list (PartitionKey * WalPayload RB))
    : io EncodeAcc :=
  match parts with
  | [] => sret acc
  | kp :: parts' => do? acc' := encode_part acc kp in encode_parts acc' parts'
  end.

Definition acc_zero : EncodeAcc :=
  {| ea_total_rows := 0; ea_total_bytes := 0; ea_parts_count := 0; ea_index := [] |}.

Definition encode_writer (offsets : gmap OffsetKey N)
    (batches : list (PartitionKey * WalPayload RB)) : io EncodedSnapshot :=
  write_all MAGIC ;!
  write_all (u32_le VERSION) ;!
  let created_at_secs := unix_secs created_at in
  write_all (u64_le created_at_secs) ;!
  do? offsets_blob := slift (map_err (λ e, InvalidData (str "encode WAL offsets: " ++ e))
                               (serialize offsets)) in
  write_all (u64_le (blen offsets_blob)) ;!
  write_all offsets_blob ;!
  do? acc := encode_parts acc_zero (sorted_parts batches) in
  do? end_before_footer := stream_position in
  do? body := sread (λ c, Ok (take (N.to_nat end_before_footer) (cur_bytes c))) in
  let sha_bytes := sha256 body in
  write_all FOOT ;!
  write_all (u32_le (ea_parts_count acc)) ;!
  write_all sha_bytes ;!
  do? out := sread (λ c, Ok (cur_bytes c)) in
  sret {| es_bytes := out;
          es_meta := {| sm_created_at_secs := created_at_secs;
                        sm_total_bytes := ea_total_bytes acc;
                        sm_num_partitions := ea_parts_count acc; sm_offsets := offsets;
                        sm_index := ea_index acc; sm_body_sha256 := sha_bytes |};
          es_total_rows := ea_total_rows acc;
          es_sha256 := sha_bytes |}.

Definition encode_snapshot (offsets : gmap OffsetKey N)
    (batches : gmap PartitionKey (WalPayload RB)) : result IoErr EncodedSnapshot :=
  (encode_writer offsets (map_to_list batches) (cursor_new [])).1.
End encode.

(** ** The format

    A part as it lies in the file, and the file as a header, parts and a footer.  The
    reader is compared with this layout. *)

Record PartImage : Type := {
  pi_key : PartitionKey;
  pi_key_blob : bytes;
  pi_bytes : N;
  pi_updated : N;
  pi_meta : bytes;
  pi_summary : SegmentPartMetaSummary;
  pi_codec : N;
  pi_payload : bytes
}.

Definition blob_image (b : bytes) : bytes := u64_le (blen b) ++ b.

Definition codec_image (version : N) (codec : N) : bytes :=
  if (VERSION <=? version)%N then [byte_of_N codec] else [].

Definition part_pre (p : PartImage) : bytes :=
  PART ++ blob_image (pi_key_blob p) ++ u64_le (pi_bytes p) ++ u64_le (pi_updated p)
    ++ u64_le (blen (pi_meta p)).

Definition part_mid (version : N) (p : PartImage) : bytes :=
  codec_image version (pi_codec p) ++ u64_le (blen (pi_payload p)).

Definition part_image (version : N) (p : PartImage) : bytes :=
  part_pre p ++ pi_meta p ++ part_mid version p ++ pi_payload p.

Definition known_codec (codec : N) : bool :=
  (codec =? PART_CODEC_ARROW)%N || is_copy_codec codec.

Record part_wf (version : N) (p : PartImage) : Prop := {
  wf_key : deserialize (pi_key_blob p) = Ok (pi_key p);
  wf_key_len : (blen (pi_key_blob p) ≤ U64_MAX)%N;
  wf_bytes : (pi_bytes p ≤ U64_MAX)%N;
  wf_updated : (pi_updated p ≤ U64_MAX)%N;
  wf_meta_len : (blen (pi_meta p) ≤ U64_MAX)%N;
  wf_summary : summarize_part_meta_blob (pi_meta p) = Ok (pi_summary p);
  wf_codec : known_codec (pi_codec p) = true;
  wf_codec_v3 : (version < VERSION)%N → pi_codec p = PART_CODEC_ARROW;
  wf_payload_len : (blen (pi_payload p) ≤ U64_MAX)%N
}.

Definition part_entry (version base : N) (ordinal : nat) (p : PartImage)
    : SegmentPartitionIndexEntry :=
  {| ie_key := pi_key p; ie_bytes := pi_bytes p; ie_updated_at_secs := pi_updated p;
     ie_slice_ordinal := N.of_nat ordinal;
     ie_part_meta_start := base + blen (part_pre p);
     ie_part_meta_len := blen (pi_meta p);
     ie_part_meta_summary := pi_summary p;
     ie_codec := pi_codec p;
     ie_start := base + blen (part_pre p ++ pi_meta p ++ part_mid version p);
     ie_len := blen (pi_payload p) |}.

Fixpoint part_entries (version base : N) (ordinal : nat) (ps : list PartImage)
    : list SegmentPartitionIndexEntry :=
  match ps with
  | [] => []
  | p :: ps' =>
      part_entry version base ordinal p
        :: part_entries version (base + blen (part_image version p)) (S ordinal) ps'
  end.

Definition parts_image (version : N) (ps : list PartImage) : bytes :=
  concat (map (part_image version) ps).

Definition header_image (version created_at_secs : N) (offsets_blob : bytes) : bytes :=
  MAGIC ++ u32_le version ++ u64_le created_at_secs ++ blob_image offsets_blob.

Definition footer_image (parts_count : N) (sha : bytes) : bytes :=
  FOOT ++ u32_le parts_count ++ sha.

Definition payload_total (ps : list PartImage) (total : N) : N :=
  foldl (λ t p, saturating_add U64_MAX t (blen (pi_payload p))) total ps.

(** [segf bs m]: the bytes are a SEGF file and [m] is its metadata. *)
Record segf_layout (bs : bytes) (m : SegmentFileMetadata) (version : N) (offsets_blob : bytes)
    (ps : list PartImage) : Prop := {
  sl_bytes : bs = header_image version (sm_created_at_secs m) offsets_blob
                    ++ parts_image version ps
                    ++ footer_image (N.of_nat (length ps)) (sm_body_sha256 m);
  sl_version : accepted_segf_version version = true;
  sl_created : (sm_created_at_secs m ≤ U64_MAX)%N;
  sl_offsets_len : (blen offsets_blob ≤ U64_MAX)%N;
  sl_offsets : deserialize offsets_blob = Ok (sm_offsets m);
  sl_parts : Forall (part_wf version) ps;
  sl_count : (N.of_nat (length ps) ≤ U32_MAX)%N;
  sl_num : sm_num_partitions m = N.of_nat (length ps);
  sl_index : sm_index m
    = part_entries version (blen (header_image version (sm_created_at_secs m) offsets_blob)) 0 ps;
  sl_total : sm_total_bytes m = payload_total ps 0;
  sl_sha : length (sm_body_sha256 m) = 32
}.

Definition segf (bs : bytes) (m : SegmentFileMetadata) : Prop :=
  ∃ version offsets_blob ps, segf_layout bs m version offsets_blob ps.

(** *** Steps that succeed on well-formed input *)

Lemma stream_position_at pre rest :
  stream_position (at_cursor pre rest) = (Ok (blen pre), at_cursor pre rest).
Proof. done. Qed.

Lemma read_blob_at file_len what b pre rest :
  (blen b ≤ U64_MAX)%N → (blen (pre ++ blob_image b) ≤ file_len)%N →
  read_blob_capped_by_remaining file_len what (at_cursor pre (blob_image b ++ rest))
  = (Ok b, at_cursor (pre ++ blob_image b) rest).
Proof.
  intros Hb Hl. unfold read_blob_capped_by_remaining, read_len_capped_by_remaining, blob_image in *.
  rewrite <- app_assoc. rewrite !blen_app, blen_u64_le in Hl.
  erewrite sbind_run.
  2:{ erewrite sbind_run by (by apply read_u64_at). erewrite sbind_run by apply stream_position_at.
      unfold slift, claimed_len_capped_by_remaining, saturating_sub.
      rewrite blen_app, blen_u64_le, (proj2 (N.ltb_ge _ _)) by lia.
      rewrite (proj2 (N.leb_le _ _)) by (unfold USIZE_MAX; lia). reflexivity. }
  rewrite read_exact_at by done. by rewrite <- app_assoc.
Qed.

Lemma skip_payload_at file_len d pre rest :
  (file_len ≤ U64_MAX)%N → (blen (pre ++ d) ≤ file_len)%N →
  skip_payload (blen d) file_len (at_cursor pre (d ++ rest)) = (Ok tt, at_cursor (pre ++ d) rest).
Proof.
  intros Hf Hl. unfold skip_payload. rewrite blen_app in Hl.
  erewrite sbind_run by apply stream_position_at.
  erewrite sbind_run.
  2:{ unfold slift, checked_add. rewrite (proj2 (N.leb_le _ _)) by lia. reflexivity. }
  rewrite (proj2 (N.ltb_ge _ _)) by lia. apply seek_start_at. by rewrite blen_app.
Qed.

Lemma known_codec_small codec : known_codec codec = true → (codec < 256)%N.
Proof.
  unfold known_codec, is_copy_codec, PART_CODEC_ARROW, PART_CODEC_COPY, PART_CODEC_COPY_CHUNKED.
  intros H. repeat (apply orb_true_iff in H as [H|H]); apply N.eqb_eq in H; lia.
Qed.

Lemma codec_at version codec len pre rest :
  known_codec codec = true → ((version < VERSION)%N → codec = PART_CODEC_ARROW) →
  (len ≤ U64_MAX)%N →
  read_part_codec_and_len version
    (at_cursor pre (codec_image version codec ++ u64_le len ++ rest))
  = (Ok (codec, len), at_cursor (pre ++ codec_image version codec ++ u64_le len) rest).
Proof.
  intros Hk Hv Hl. unfold read_part_codec_and_len, codec_image.
  assert (from_le_bytes [byte_of_N codec] = codec) as Hb.
  { cbn [from_le_bytes]. rewrite byte_of_N_to_N, N.mod_small by (by apply known_codec_small). lia. }
  assert (negb (codec =? PART_CODEC_ARROW)%N && negb (is_copy_codec codec) = false) as Hn.
  { rewrite <- negb_orb. unfold known_codec in Hk. by rewrite Hk. }
  destruct (N.leb_spec VERSION version) as [Hge|Hlt].
  - erewrite sbind_run.
    2:{ erewrite sbind_run by (by apply (read_exact_at 1 pre [byte_of_N codec])). unfold sret.
        rewrite Hb. reflexivity. }
    rewrite Hn. erewrite sbind_run by (by apply read_u64_at). unfold sret.
    by rewrite <- app_assoc.
  - rewrite (Hv Hlt) in *. cbn [app]. erewrite sbind_run by reflexivity. rewrite Hn.
    erewrite sbind_run by (by apply read_u64_at). done.
Qed.

Lemma read_sidecar_at file_len meta summary pre rest :
  (blen meta ≤ U64_MAX)%N → (file_len ≤ U64_MAX)%N →
  (blen (pre ++ blob_image meta) ≤ file_len)%N →
  summarize_part_meta_blob meta = Ok summary →
  read_sidecar file_len (at_cursor pre (blob_image meta ++ rest))
  = (Ok (blen pre + 8, blen meta, summary)%N, at_cursor (pre ++ blob_image meta) rest).
Proof.
  intros Hm Hf Hl Hs. unfold read_sidecar, blob_image in *. rewrite <- app_assoc.
  rewrite !blen_app, blen_u64_le in Hl.
  erewrite sbind_run by (by apply read_u64_at). erewrite sbind_run by apply stream_position_at.
  rewrite blen_app, blen_u64_le. cbv zeta. unfold saturating_sub.
  rewrite (proj2 (N.ltb_ge _ _)) by lia.
  destruct meta as [|b meta].
  - injection Hs as <-. erewrite sbind_run by reflexivity. erewrite sbind_run by reflexivity.
    unfold sret. by rewrite app_nil_r.
  - assert (blen (b :: meta) ≠ 0%N) as Hne by (unfold blen; simpl; lia).
    erewrite sbind_run.
    2:{ rewrite (proj2 (N.eqb_neq _ _)) by done. rewrite (proj2 (N.leb_le _ _)) by (unfold USIZE_MAX; lia).
        erewrite sbind_run by (by apply read_exact_at). unfold slift. rewrite Hs. reflexivity. }
    rewrite (proj2 (N.ltb_lt _ _)) by lia.
    erewrite sbind_run.
    2:{ erewrite sbind_run.
        2:{ unfold slift, checked_add. rewrite (proj2 (N.leb_le _ _)) by lia. reflexivity. }
        erewrite sbind_run by apply stream_position_at.
        rewrite !blen_app, blen_u64_le, N.eqb_refl. reflexivity. }
    unfold sret. by rewrite <- app_assoc.
Qed.

Lemma read_tag_at tag pre rest :
  length tag = 4 → read_tag (at_cursor pre (tag ++ rest)) = (Ok tag, at_cursor (pre ++ tag) rest).
Proof.
  intros Hl. unfold read_tag. rewrite read_exact_at; [done|]. unfold blen. by rewrite Hl.
Qed.

Lemma read_round_part_at file_len version (x : list SegmentPartitionIndexEntry * N) p pre rest :
  part_wf version p → (N.of_nat (length x.1) ≤ U32_MAX)%N → (file_len ≤ U64_MAX)%N →
  (blen (pre ++ part_image version p) ≤ file_len)%N →
  read_round file_len version x (at_cursor pre (part_image version p ++ rest))
  = (Ok (inl (x.1 ++ [part_entry version (blen pre) (length x.1) p],
              saturating_add U64_MAX x.2 (blen (pi_payload p)))),
     at_cursor (pre ++ part_image version p) rest).
Proof.
  intros [Hk Hkl Hb Hu Hml Hs Hc Hc3 Hpl] Hn Hf Hl.
  unfold part_image, part_pre, part_mid in *.
  assert (∀ y, (blen y ≤ blen (pre ++ (PART ++ blob_image (pi_key_blob p) ++ u64_le (pi_bytes p)
    ++ u64_le (pi_updated p) ++ u64_le (blen (pi_meta p))) ++ pi_meta p ++
    (codec_image version (pi_codec p) ++ u64_le (blen (pi_payload p))) ++ pi_payload p))%N →
    (blen y ≤ file_len)%N) as Hle by (intros; lia). clear Hl.
  unfold read_round. rewrite <- !app_assoc.
  erewrite sbind_run by (by apply read_tag_at). cbn [bool_decide negb].
  rewrite bool_decide_false by done. rewrite bool_decide_true by done. cbn [negb].
  unfold read_part. erewrite sbind_run.
  2:{ erewrite sbind_run by (apply read_blob_at; [done|apply Hle; rewrite !blen_app; lia]).
      erewrite sbind_run by (unfold slift; rewrite Hk; reflexivity).
      erewrite sbind_run by (by apply read_u64_at).
      erewrite sbind_run by (by apply read_u64_at).
      erewrite sbind_run.
      2:{ rewrite (app_assoc (u64_le (blen (pi_meta p)))). apply read_sidecar_at; [done|done| |done].
          apply Hle. unfold blob_image. rewrite !blen_app. lia. }
      erewrite sbind_run by (by apply codec_at).
      erewrite sbind_run by apply stream_position_at. cbn [fst snd].
      erewrite sbind_run.
      2:{ apply skip_payload_at; [done|]. apply Hle. unfold blob_image. rewrite !blen_app. lia. }
      erewrite sbind_run by (unfold slift; rewrite (proj2 (N.leb_le _ _)) by done; reflexivity).
      reflexivity. }
  unfold sret. cbn [ie_len]. f_equal.
  - do 5 f_equal. unfold part_entry, part_pre, part_mid, blob_image. f_equal; rewrite !blen_app, ?blen_u64_le; lia.
  - f_equal. unfold blob_image. by rewrite <- !app_assoc.
Qed.

(** Running the whole scan on a laid-out file, with [rest] after the footer tag. *)
Lemma read_parts_at file_len version ps (x : list SegmentPartitionIndexEntry * N) pre rest fuel :
  Forall (part_wf version) ps → (N.of_nat (length x.1 + length ps) ≤ U32_MAX + 1)%N →
  (file_len ≤ U64_MAX)%N → (blen (pre ++ parts_image version ps) ≤ file_len)%N →
  length ps < fuel →
  sloop fuel (read_round file_len version) x
    (at_cursor pre (parts_image version ps ++ FOOT ++ rest))
  = (Ok (Some (x.1 ++ part_entries version (blen pre) (length x.1) ps, payload_total ps x.2)),
     at_cursor (pre ++ parts_image version ps ++ FOOT) rest).
Proof.
  unfold parts_image. intros Hps. revert x pre fuel.
  induction Hps as [|p ps Hp Hps IH]; intros x pre fuel Hn Hf Hl Hfuel;
    (destruct fuel as [|fuel]; [lia|]); cbn [sloop map concat app].
  - erewrite sbind_run.
    2:{ unfold read_round. erewrite sbind_run by (by apply read_tag_at).
        rewrite bool_decide_true by done. reflexivity. }
    cbn. unfold sret. rewrite app_nil_r. by destruct x.
  - rewrite <- app_assoc. cbn [map concat] in Hl. cbn [length] in Hn, Hfuel.
    rewrite !blen_app in Hl.
    erewrite sbind_run by (apply read_round_part_at; [done|lia|done|rewrite blen_app; lia]).
    cbn beta iota. rewrite IH; [|cbn [fst]; rewrite length_app; cbn [length]; lia|done| |lia].
    2:{ rewrite !blen_app. lia. }
    cbn [fst snd]. rewrite length_app, blen_app, Nat.add_1_r. cbn [part_entries].
    by rewrite <- !app_assoc.
Qed.

Lemma read_header_at file_len version created ob offsets pre rest :
  accepted_segf_version version = true → (created ≤ U64_MAX)%N → (blen ob ≤ U64_MAX)%N →
  deserialize ob = Ok offsets → (blen (pre ++ header_image version created ob) ≤ file_len)%N →
  read_header file_len (at_cursor pre (header_image version created ob ++ rest))
  = (Ok (version, created, offsets), at_cursor (pre ++ header_image version created ob) rest).
Proof.
  intros Hv Hc Ho Hd Hl. unfold read_header, header_image in *. rewrite <- !app_assoc.
  erewrite sbind_run by (by apply read_exact_at). rewrite bool_decide_true by done. cbn [negb].
  erewrite sbind_run.
  2:{ apply read_u32_at. unfold accepted_segf_version, SEGF_VERSION_V3, VERSION in Hv.
      apply orb_true_iff in Hv as [Hv%N.eqb_eq|Hv%N.eqb_eq]; subst; unfold U32_MAX; lia. }
  rewrite Hv. cbn [negb]. erewrite sbind_run by (by apply read_u64_at).
  erewrite sbind_run.
  2:{ apply read_blob_at; [done|]. rewrite !blen_app in *. lia. }
  erewrite sbind_run by (unfold slift; rewrite Hd; reflexivity).
  unfold sret. by rewrite <- !app_assoc.
Qed.

Lemma read_footer_at file_len created offsets (x : list SegmentPartitionIndexEntry * N) sha pre rest :
  (N.of_nat (length x.1) ≤ U32_MAX)%N → length sha = 32 →
  read_footer file_len created offsets x
    (at_cursor pre (u32_le (N.of_nat (length x.1)) ++ sha ++ rest))
  = (if (blen (pre ++ u32_le (N.of_nat (length x.1)) ++ sha) =? file_len)%N
     then Ok {| sm_created_at_secs := created; sm_total_bytes := x.2;
                sm_num_partitions := N.of_nat (length x.1); sm_offsets := offsets;
                sm_index := x.1; sm_body_sha256 := sha |}
     else Err (InvalidData (str "WAL segment has trailing bytes after FOOT")),
     at_cursor (pre ++ u32_le (N.of_nat (length x.1)) ++ sha) rest).
Proof.
  intros Hn Hs. unfold read_footer. erewrite sbind_run by (by apply read_u32_at).
  erewrite sbind_run by (apply read_exact_at; unfold blen; by rewrite Hs).
  erewrite sbind_run by apply stream_position_at. rewrite <- app_assoc.
  destruct (blen _ =? file_len)%N; cbn [negb]; [|done].
  erewrite sbind_run by (unfold slift; rewrite (proj2 (N.leb_le _ _)) by done; reflexivity).
  by rewrite N.eqb_refl.
Qed.

(** The scan of a laid-out file followed by [ext] reads the file's metadata and then finds
    the footer where the file ends, or complains about what follows. *)
Lemma read_metadata_at bs m ext fuel :
  segf bs m → (blen (bs ++ ext) ≤ U64_MAX)%N → length bs < fuel →
  (read_metadata_from_reader fuel (cursor_new (bs ++ ext))).1
  = match ext with
    | [] => Ok (Some m)
    | _ => Err (InvalidData (str "WAL segment has trailing bytes after FOOT"))
    end.
Proof.
  intros (version & ob & ps & [-> Hv Hc Hol Ho Hps Hcount Hnum Hindex Htotal Hsha]) Hlen Hfuel.
  set (hd := header_image version (sm_created_at_secs m) ob) in *.
  unfold read_metadata_from_reader. unfold sbind at 1 2. cbn [seek_end seek_start cursor_new cur_bytes cur_pos].
  set (file_len := blen _) in Hlen |- *.
  assert (file_len = blen hd + blen (parts_image version ps)
    + blen (footer_image (N.of_nat (length ps)) (sm_body_sha256 m)) + blen ext)%N as Hfl.
  { unfold file_len. rewrite !blen_app. lia. }
  clearbody file_len.
  change {| cur_bytes := ?b; cur_pos := 0 |} with (at_cursor [] b). rewrite <- !app_assoc.
  erewrite sbind_run by (apply read_header_at; [done|done|done|done|fold hd; cbn [app]; lia]).
  cbn iota beta. fold hd. cbn [app]. unfold footer_image. rewrite <- !app_assoc.
  erewrite sbind_run.
  2:{ apply read_parts_at; [done|cbn [fst length]; lia|lia|rewrite blen_app; lia|].
      revert Hfuel. rewrite !length_app. unfold parts_image. clear. intros Hfuel.
      assert (length ps ≤ length (concat (map (part_image version) ps))); [|lia]. clear.
      induction ps as [|p ps IH]; [done|]. cbn [map concat length]. rewrite length_app.
      unfold part_image at 1, part_pre, PART. cbn [length app str]. rewrite !length_app.
      change (length (str "PART")) with 4. lia. }
  cbn [fst snd app length]. unfold sbind.
  assert (length ps = length (part_entries version (blen hd) 0 ps)) as Hlp.
  { clear. generalize (blen hd) 0. induction ps as [|p ps IH]; intros b n; [done|].
    cbn [part_entries length]. by rewrite <- IH. }
  rewrite Hlp at 1. rewrite read_footer_at; cbn [fst]; [|by rewrite <- Hlp|done].
  rewrite <- Hlp. 
  replace (blen _ =? file_len)%N with (blen ext =? 0)%N.
  2:{ apply eq_true_iff_eq. rewrite !N.eqb_eq, Hfl. unfold footer_image. rewrite !blen_app. lia. }
  destruct ext as [|b ext]; [|done]. cbn. destruct m; cbn in *. by subst.
Qed.

(** *** What a successful step has read *)

Lemma read_blob_inv file_len what pre rest b c :
  read_blob_capped_by_remaining file_len what (at_cursor pre rest) = (Ok b, c) →
  ∃ rest', rest = blob_image b ++ rest' ∧ (blen b ≤ U64_MAX)%N ∧
    c = at_cursor (pre ++ blob_image b) rest'.
Proof.
  unfold read_blob_capped_by_remaining, read_len_capped_by_remaining.
  intros (n & c1 & (x & c2 & (r & -> & Hx & ->)%read_u64_inv
    & (y & c3 & [= <- <-] & [Hn ->]%slift_inv)%sbind_Ok)%sbind_Ok & Hr)%sbind_Ok.
  assert (n = x) as ->.
  { unfold claimed_len_capped_by_remaining in Hn. repeat case_match; congruence. }
  apply read_exact_inv in Hr as (r' & -> & <- & ->). exists r'. unfold blob_image.
  by rewrite <- !app_assoc.
Qed.

Lemma skip_payload_inv file_len n pre rest c :
  file_len = blen (pre ++ rest) →
  skip_payload n file_len (at_cursor pre rest) = (Ok tt, c) →
  ∃ d rest', rest = d ++ rest' ∧ blen d = n ∧ c = at_cursor (pre ++ d) rest'.
Proof.
  intros Hf. unfold skip_payload.
  intros (x & c1 & [= <- <-] & (stop & c2 & [Hs%ok_or_Ok ->]%slift_inv & Hk)%sbind_Ok)%sbind_Ok.
  apply checked_add_Some in Hs as [Hs _].
  destruct (N.ltb_spec file_len stop) as [|Hle]; [done|]. injection Hk as Hk.
  cbn [cur_pos at_cursor] in *. rewrite blen_app in Hf.
  destruct (app_split rest (N.to_nat n)) as (d & r & -> & Hd); [unfold blen in *; lia|].
  exists d, r. assert (blen d = n) as Hdn by (unfold blen; lia). split_and!; [done|done|].
  subst c. unfold at_cursor; cbn. rewrite <- app_assoc, blen_app. f_equal. lia.
Qed.

Lemma codec_inv version pre rest codec len c :
  read_part_codec_and_len version (at_cursor pre rest) = (Ok (codec, len), c) →
  ∃ rest', rest = codec_image version codec ++ u64_le len ++ rest' ∧
    known_codec codec = true ∧ ((version < VERSION)%N → codec = PART_CODEC_ARROW) ∧
    (len ≤ U64_MAX)%N ∧
    c = at_cursor (pre ++ codec_image version codec ++ u64_le len) rest'.
Proof.
  unfold read_part_codec_and_len. intros (k & c1 & Hk & Hr)%sbind_Ok.
  assert (∃ rest1, rest = codec_image version k ++ rest1 ∧
    ((version < VERSION)%N → k = PART_CODEC_ARROW) ∧
    c1 = at_cursor (pre ++ codec_image version k) rest1) as (rest1 & -> & Hv & ->).
  { unfold codec_image. destruct (N.leb_spec VERSION version) as [Hge|Hlt].
    - apply sbind_Ok in Hk as (bs & c2 & (r & -> & Hl & ->)%read_exact_inv & [= <- <-]).
      destruct bs as [|b [|b' bs]]; [done| |unfold blen in Hl; cbn in Hl; lia].
      exists r. assert (byte_of_N (from_le_bytes [b]) = b) as ->.
      { cbn [from_le_bytes]. rewrite N.mul_0_r, N.add_0_r. apply byte_of_to_N. }
      split_and!; [done|lia|done].
    - injection Hk as <- <-. exists rest. cbn [app]. rewrite app_nil_r. done. }
  destruct (negb (k =? PART_CODEC_ARROW)%N && negb (is_copy_codec k)) eqn:E; [done|].
  apply sbind_Ok in Hr as (n & c2 & (r & -> & Hn & ->)%read_u64_inv & [= <- <- <-]).
  exists r. rewrite <- negb_orb, negb_false_iff in E. split_and!; try done.
  by rewrite <- app_assoc.
Qed.

Lemma read_sidecar_inv file_len pre rest start len summary c :
  read_sidecar file_len (at_cursor pre rest) = (Ok (start, len, summary), c) →
  ∃ meta rest', rest = blob_image meta ++ rest' ∧ start = (blen pre + 8)%N ∧ len = blen meta ∧
    (blen meta ≤ U64_MAX)%N ∧ summarize_part_meta_blob meta = Ok summary ∧
    c = at_cursor (pre ++ blob_image meta) rest'.
Proof.
  unfold read_sidecar.
  intros (n & c1 & (r & -> & Hn & ->)%read_u64_inv & (x & c2 & [= <- <-] & Hr)%sbind_Ok)%sbind_Ok.
  cbv zeta in Hr. destruct (N.ltb_spec (saturating_sub file_len (blen (pre ++ u64_le n))) n) as [|Hle]; [done|].
  apply sbind_Ok in Hr as (s & c3 & Hs & Hr).
  assert (∃ meta r', r = meta ++ r' ∧ blen meta = n ∧ summarize_part_meta_blob meta = Ok s ∧
    c3 = at_cursor ((pre ++ u64_le n) ++ meta) r') as (meta & r' & -> & <- & Hsum & ->).
  { destruct (N.eqb_spec n 0) as [->|Hne].
    - injection Hs as <- <-. exists [], r. by rewrite app_nil_r.
    - destruct (n <=? USIZE_MAX)%N; [|done].
      apply sbind_Ok in Hs as (b & c4 & (r' & -> & <- & ->)%read_exact_inv & [Hs ->]%slift_inv).
      by exists b, r'. }
  apply sbind_Ok in Hr as ([] & c4 & Hcheck & [= <- <- <- <-]).
  exists meta, r'. unfold blob_image. rewrite blen_app, blen_u64_le.
  split_and!; [by rewrite <- app_assoc|done|done|done|done|].
  assert (c4 = at_cursor ((pre ++ u64_le (blen meta)) ++ meta) r') as ->; [|by rewrite <- app_assoc].
  destruct (0 <? blen meta)%N; [|by injection Hcheck].
  apply sbind_Ok in Hcheck as (p & c5 & [_ ->]%slift_inv & (q & c6 & [= _ <-] & Hq)%sbind_Ok).
  by destruct (q =? p)%N; [injection Hq|].
Qed.

Lemma read_part_inv file_len version n pre rest e c :
  file_len = blen ((pre ++ PART) ++ rest) →
  read_part file_len version n (at_cursor (pre ++ PART) rest) = (Ok e, c) →
  ∃ p rest', part_wf version p ∧ PART ++ rest = part_image version p ++ rest' ∧
    e = part_entry version (blen pre) n p ∧ (N.of_nat n ≤ U32_MAX)%N ∧
    c = at_cursor (pre ++ part_image version p) rest'.
Proof.
  intros Hf. unfold read_part.
  intros (kb & c1 & (r1 & -> & Hkb & ->)%read_blob_inv
    & (key & c2 & [Hkey%map_err_Ok ->]%slift_inv
    & (pb & c3 & (r2 & -> & Hpb & ->)%read_u64_inv
    & (up & c4 & (r3 & -> & Hup & ->)%read_u64_inv
    & ([[ms ml] sm] & c5 & (meta & r4 & -> & -> & -> & Hml & Hsum & ->)%read_sidecar_inv
    & ([codec len] & c6 & (r5 & -> & Hk & Hv & Hlen & ->)%codec_inv
    & (start & c7 & [= <- <-] & Hr)%sbind_Ok)%sbind_Ok)%sbind_Ok)%sbind_Ok)%sbind_Ok)%sbind_Ok)%sbind_Ok.
  apply sbind_Ok in Hr as ([] & c8 & Hskip & Hr). cbn [fst snd] in *.
  apply skip_payload_inv in Hskip as (d & r6 & -> & <- & ->).
  2:{ rewrite Hf, !blen_app. lia. }
  apply sbind_Ok in Hr as (o & c9 & [Ho ->]%slift_inv & [= <- <-]).
  destruct (N.leb_spec (N.of_nat n) U32_MAX) as [Hn|]; [|done]. injection Ho as <-.
  exists {| pi_key := key; pi_key_blob := kb; pi_bytes := pb; pi_updated := up; pi_meta := meta;
            pi_summary := sm; pi_codec := codec; pi_payload := d |}, r6.
  split_and!; [done| | |done|].
  - unfold part_image, part_pre, part_mid, blob_image; cbn. by rewrite <- !app_assoc.
  - unfold part_entry, part_pre, part_mid, blob_image; cbn.
    f_equal; rewrite !blen_app, ?blen_u64_le; lia.
  - unfold part_image, part_pre, part_mid, blob_image; cbn. by rewrite <- !app_assoc.
Qed.

Lemma read_tag_inv pre rest tag c :
  read_tag (at_cursor pre rest) = (Ok tag, c) →
  ∃ rest', rest = tag ++ rest' ∧ c = at_cursor (pre ++ tag) rest'.
Proof.
  unfold read_tag. destruct (read_exact 4 (at_cursor pre rest)) as [[t|e] c'] eqn:E.
  - intros [= <- <-]. apply read_exact_inv in E as (r & -> & _ & ->). eauto.
  - destruct e; done.
Qed.

Lemma read_round_inv file_len version x pre rest r c :
  file_len = blen (pre ++ rest) →
  read_round file_len version x (at_cursor pre rest) = (Ok r, c) →
  (r = inr x ∧ ∃ rest', rest = FOOT ++ rest' ∧ c = at_cursor (pre ++ FOOT) rest') ∨
  ∃ p rest', part_wf version p ∧ rest = part_image version p ++ rest' ∧
    (N.of_nat (length x.1) ≤ U32_MAX)%N ∧
    r = inl (x.1 ++ [part_entry version (blen pre) (length x.1) p],
             saturating_add U64_MAX x.2 (blen (pi_payload p))) ∧
    c = at_cursor (pre ++ part_image version p) rest'.
Proof.
  intros Hf. unfold read_round.
  intros (tag & c1 & (r1 & -> & ->)%read_tag_inv & Hr)%sbind_Ok.
  destruct (bool_decide_reflect (tag = FOOT)) as [->|_].
  { injection Hr as <- <-. left. eauto. }
  destruct (bool_decide_reflect (tag = PART)) as [->|_]; [|done]. cbn [negb] in Hr.
  apply sbind_Ok in Hr as (e & c2 & He & [= <- <-]).
  apply read_part_inv in He as (p & r2 & Hp & Himg & -> & Hn & ->).
  2:{ by rewrite <- app_assoc. }
  right. exists p, r2. by split_and!.
Qed.

Lemma part_image_length version p : 4 ≤ length (part_image version p).
Proof.
  unfold part_image, part_pre. rewrite <- app_assoc, length_app.
  change (length PART) with 4. lia.
Qed.

Lemma read_parts_inv file_len version fuel x pre rest y c :
  file_len = blen (pre ++ rest) →
  sloop fuel (read_round file_len version) x (at_cursor pre rest) = (Ok (Some y), c) →
  ∃ ps rest', Forall (part_wf version) ps ∧ rest = parts_image version ps ++ FOOT ++ rest' ∧
    y = (x.1 ++ part_entries version (blen pre) (length x.1) ps, payload_total ps x.2) ∧
    c = at_cursor (pre ++ parts_image version ps ++ FOOT) rest'.
Proof.
  unfold parts_image. revert x pre rest; induction fuel as [|fuel IH]; intros x pre rest Hf; [done|].
  cbn [sloop]. intros (r & c1 & Hr & Hrun)%sbind_Ok.
  apply read_round_inv in Hr as [(-> & r1 & -> & ->)|(p & r1 & Hp & -> & Hn & -> & ->)]; [| |done].
  - injection Hrun as <- <-. exists [], r1. cbn. rewrite app_nil_r. by destruct x.
  - apply IH in Hrun as (ps & r2 & Hps & -> & -> & ->); [|by rewrite <- app_assoc].
    exists (p :: ps), r2. cbn [map concat part_entries fst snd].
    rewrite length_app, Nat.add_1_r, blen_app, <- !app_assoc. split_and!; [by constructor|done|done|done].
Qed.

(** The loop ends: every round takes bytes. *)
Lemma read_parts_total file_len version fuel x pre rest c :
  file_len = blen (pre ++ rest) → length rest < fuel →
  sloop fuel (read_round file_len version) x (at_cursor pre rest) ≠ (Ok None, c).
Proof.
  revert x pre rest; induction fuel as [|fuel IH]; intros x pre rest Hf Hl; [lia|].
  cbn [sloop]. intros (r & c1 & Hr & Hrun)%sbind_Ok.
  apply read_round_inv in Hr as [(-> & r1 & -> & ->)|(p & r1 & Hp & -> & Hn & -> & ->)]; [done| |done].
  apply IH in Hrun; [done|by rewrite <- app_assoc|].
  rewrite length_app in Hl. pose proof (part_image_length version p). lia.
Qed.

Lemma read_header_inv file_len pre rest version created offsets c :
  read_header file_len (at_cursor pre rest) = (Ok (version, created, offsets), c) →
  ∃ ob rest', rest = header_image version created ob ++ rest' ∧
    accepted_segf_version version = true ∧ (created ≤ U64_MAX)%N ∧ (blen ob ≤ U64_MAX)%N ∧
    deserialize ob = Ok offsets ∧ c = at_cursor (pre ++ header_image version created ob) rest'.
Proof.
  unfold read_header. intros (mg & c1 & (r1 & -> & _ & ->)%read_exact_inv & Hr)%sbind_Ok.
  destruct (bool_decide_reflect (mg = MAGIC)) as [->|_]; [|done]. cbn [negb] in Hr.
  apply sbind_Ok in Hr as (v & c2 & (r2 & -> & _ & ->)%read_u32_inv & Hr).
  destruct (accepted_segf_version v) eqn:Hv; [|done]. cbn [negb] in Hr.
  apply sbind_Ok in Hr as (cr & c3 & (r3 & -> & Hcr & ->)%read_u64_inv
    & (ob & c4 & (r4 & -> & Hob & ->)%read_blob_inv
    & (offs & c5 & [Hof%map_err_Ok ->]%slift_inv & [= <- <- <- <-])%sbind_Ok)%sbind_Ok).
  exists ob, r4. unfold header_image. rewrite <- !app_assoc. by split_and!.
Qed.

Lemma read_footer_inv file_len created offsets x pre rest m c :
  file_len = blen (pre ++ rest) →
  read_footer file_len created offsets x (at_cursor pre rest) = (Ok m, c) →
  ∃ sha, rest = u32_le (N.of_nat (length x.1)) ++ sha ∧ length sha = 32 ∧
    (N.of_nat (length x.1) ≤ U32_MAX)%N ∧
    m = {| sm_created_at_secs := created; sm_total_bytes := x.2;
           sm_num_partitions := N.of_nat (length x.1); sm_offsets := offsets;
           sm_index := x.1; sm_body_sha256 := sha |}.
Proof.
  intros Hf. unfold read_footer.
  intros (n & c1 & (r1 & -> & Hn & ->)%read_u32_inv
    & (sha & c2 & (r2 & -> & Hsha & ->)%read_exact_inv
    & (pos & c3 & [= <- <-] & Hr)%sbind_Ok)%sbind_Ok)%sbind_Ok.
  cbn [cur_pos at_cursor] in Hr.
  destruct (N.eqb_spec (blen ((pre ++ u32_le n) ++ sha)) file_len) as [Hp|_]; [|done].
  cbn [negb] in Hr. apply sbind_Ok in Hr as (k & c4 & [Hk ->]%slift_inv & Hr).
  destruct (N.leb_spec (N.of_nat (length x.1)) U32_MAX) as [Hle|]; [|done]. injection Hk as <-.
  destruct (N.eqb_spec n (N.of_nat (length x.1))) as [->|]; [|done]. injection Hr as <- <-.
  exists sha. rewrite Hf, !blen_app in Hp.
  assert (r2 = []) as -> by (apply length_zero_iff_nil; unfold blen in Hp; lia).
  rewrite app_nil_r. split_and!; [done|unfold blen in Hsha; lia|done|done].
Qed.

Lemma length_part_entries version base n ps : length (part_entries version base n ps) = length ps.
Proof. revert base n; induction ps as [|p ps IH]; intros; cbn; [done|]. by rewrite IH. Qed.

Lemma read_metadata_inv bs fuel m :
  (read_metadata_from_reader fuel (cursor_new bs)).1 = Ok (Some m) → segf bs m.
Proof.
  destruct (read_metadata_from_reader fuel (cursor_new bs)) as [r cend] eqn:Hrun.
  cbn [fst]. intros ->. unfold read_metadata_from_reader in Hrun.
  apply sbind_Ok in Hrun as (file_len & c0 & Hend & Hrun). injection Hend as <- <-.
  apply sbind_Ok in Hrun as ([] & c1 & Hseek & Hrun). injection Hseek as <-.
  apply sbind_Ok in Hrun as ([[version created] offsets] & c2 & Hh & Hrun).
  change (read_header (blen bs) (at_cursor [] bs) = (Ok (version, created, offsets), c2)) in Hh.
  apply read_header_inv in Hh as (ob & r1 & -> & Hv & Hc & Hob & Hof & ->). cbn [app] in Hrun.
  apply sbind_Ok in Hrun as ([y|] & c3 & Hloop & Hrun); [|done].
  apply read_parts_inv in Hloop as (ps & r2 & Hps & -> & -> & ->); [|done].
  cbn [fst snd app length] in Hrun. apply sbind_Ok in Hrun as (m' & c4 & Hfoot & [= -> ->]).
  apply read_footer_inv in Hfoot as (sha & -> & Hsha & Hn & ->).
  2:{ rewrite !blen_app. lia. }
  cbn [fst snd] in *. rewrite length_part_entries in Hn.
  exists version, ob, ps. split; cbn; rewrite ?length_part_entries; done.
Qed.

(** ** The reader *)

(** C26: the scan accepts exactly the SEGF files.  For files shorter than 2^64 bytes it
    returns metadata [m] if and only if the bytes are a header of a known version, parts
    whose keys and sidecars decode and whose codec is known, and a footer with their count,
    and [m] is the metadata of that layout. *)
Theorem read_metadata_exact (bs : bytes) (m : SegmentFileMetadata)
    (Hlen : (blen bs ≤ U64_MAX)%N) :
  read_metadata_from_bytes bs = Ok (Some m) ↔ segf bs m.
Proof.
  split; [apply read_metadata_inv|]. intros Hm.
  pose proof (read_metadata_at bs m [] (S (length bs)) Hm) as Hrun.
  rewrite app_nil_r in Hrun. apply Hrun; [done|lia].
Qed.

Lemma read_metadata_ends bs : read_metadata_from_bytes bs ≠ Ok None.
Proof.
  unfold read_metadata_from_bytes.
  destruct (read_metadata_from_reader _ (cursor_new bs)) as [r cend] eqn:Hrun.
  cbn [fst]. intros ->. unfold read_metadata_from_reader in Hrun.
  apply sbind_Ok in Hrun as (file_len & c0 & Hend & Hrun). injection Hend as <- <-.
  apply sbind_Ok in Hrun as ([] & c1 & Hseek & Hrun). injection Hseek as <-.
  apply sbind_Ok in Hrun as ([[version created] offsets] & c2 & Hh & Hrun).
  change (read_header (blen bs) (at_cursor [] bs) = (Ok (version, created, offsets), c2)) in Hh.
  apply read_header_inv in Hh as (ob & r1 & -> & _ & _ & _ & _ & ->). cbn [app] in Hrun.
  apply sbind_Ok in Hrun as ([y|] & c3 & Hloop & Hrun).
  - by apply sbind_Ok in Hrun as (m' & c4 & _ & [=]).
  - apply read_parts_total in Hloop; [done|done|]. rewrite length_app. lia.
Qed.

(** The scan ends on every input: its loop never needs more rounds than the file has
    bytes, so it returns metadata or an error. *)
Theorem read_metadata_total (bs : bytes) :
  (∃ m, read_metadata_from_bytes bs = Ok (Some m)) ∨ (∃ e, read_metadata_from_bytes bs = Err e).
Proof.
  pose proof (read_metadata_ends bs) as Hn.
  destruct (read_metadata_from_bytes bs) as [[m|]|e]; eauto. done.
Qed.

(** A truncated segment is refused.  When a file scans, none of its proper prefixes
    does: a write that was cut short is never taken for a shorter segment. *)
Theorem truncated_segment_refused (bs ext : bytes) (m : SegmentFileMetadata)
    (Hlen : (blen (bs ++ ext) ≤ U64_MAX)%N)
    (Hm : read_metadata_from_bytes (bs ++ ext) = Ok (Some m))
    (Hext : ext ≠ []) :
  ∃ e, read_metadata_from_bytes bs = Err e.
Proof.
  destruct (read_metadata_from_bytes bs) as [[m'|]|e] eqn:E; [| |eauto].
  - apply read_metadata_inv in E.
    pose proof (read_metadata_at bs m' ext (S (length (bs ++ ext))) E Hlen) as Hrun.
    unfold read_metadata_from_bytes in Hm. rewrite Hm, length_app in Hrun.
    destruct ext; [done|]. discriminate Hrun. lia.
  - by apply read_metadata_ends in E.
Qed.

Lemma part_entries_lookup version base n ps i e :
  part_entries version base n ps !! i = Some e →
  ∃ p ps1 ps2, ps = ps1 ++ p :: ps2 ∧ length ps1 = i ∧
    e = part_entry version (base + blen (parts_image version ps1)) (n + i) p.
Proof.
  revert base n i; induction ps as [|p ps IH]; intros base n i; [done|].
  destruct i as [|i]; cbn.
  - intros [= <-]. exists p, [], ps. split_and!; [done|done|].
    unfold parts_image, blen. cbn. by rewrite N.add_0_r, Nat.add_0_r.
  - intros (q & ps1 & ps2 & -> & <- & ->)%IH. exists q, (p :: ps1), ps2. split_and!; [done|done|].
    unfold parts_image. cbn [map concat length]. rewrite blen_app, N.add_assoc. f_equal. lia.
Qed.

Lemma parts_image_app version ps1 ps2 :
  parts_image version (ps1 ++ ps2) = parts_image version ps1 ++ parts_image version ps2.
Proof. unfold parts_image. by rewrite map_app, concat_app. Qed.

(** Where an indexed part lies in the file. *)
Lemma segf_entry bs m i e :
  segf bs m → sm_index m !! i = Some e →
  ∃ version p pre rest, part_wf version p ∧ bs = pre ++ part_image version p ++ rest ∧
    e = part_entry version (blen pre) i p ∧ 40 ≤ length rest.
Proof.
  intros (version & ob & ps & [-> _ _ _ _ Hps _ _ -> _ Hsha]) Hi.
  apply part_entries_lookup in Hi as (p & ps1 & ps2 & -> & <- & ->).
  apply Forall_app in Hps as [_ Hps]. apply Forall_cons in Hps as [Hp _].
  exists version, p, (header_image version (sm_created_at_secs m) ob ++ parts_image version ps1),
    (parts_image version ps2 ++ footer_image (N.of_nat (length (ps1 ++ p :: ps2))) (sm_body_sha256 m)).
  split_and!; [done| | |].
  - rewrite parts_image_app. unfold parts_image at 2. cbn [map concat].
    fold (parts_image version ps2). by rewrite <- !app_assoc.
  - by rewrite blen_app.
  - unfold footer_image. rewrite !length_app, Hsha, length_u32_le. change (length FOOT) with 4. lia.
Qed.

Lemma segf_entry_order bs m i j e e' :
  segf bs m → i < j → sm_index m !! i = Some e → sm_index m !! j = Some e' →
  (ie_start e + ie_len e ≤ ie_part_meta_start e')%N.
Proof.
  intros (version & ob & ps & [_ _ _ _ _ _ _ _ -> _ _]) Hij Hi Hj.
  apply part_entries_lookup in Hi as (p & ps1 & ps2 & -> & <- & ->).
  apply part_entries_lookup in Hj as (q & qs1 & qs2 & Hq & <- & ->).
  assert (∃ rs, qs1 = ps1 ++ p :: rs) as (rs & ->).
  { exists (drop (S (length ps1)) qs1).
    assert (take (S (length ps1)) qs1 = ps1 ++ [p]) as Ht.
    { apply (f_equal (take (S (length ps1)))) in Hq. rewrite (take_app_le qs1) in Hq by lia.
      rewrite <- Hq. rewrite take_app_ge by lia. by rewrite Nat.sub_succ_l, Nat.sub_diag by lia. }
    rewrite <- (take_drop (S (length ps1)) qs1) at 1. rewrite Ht. by rewrite <- app_assoc. }
  cbn [ie_start ie_len ie_part_meta_start part_entry].
  rewrite (parts_image_app version ps1 (p :: rs)).
  change (parts_image version (p :: rs)) with (part_image version p ++ parts_image version rs).
  unfold part_image. rewrite !blen_app. lia.
Qed.

(** C33: the index of an accepted segment is sound.  Ordinals count the parts, the sidecar
    and the payload of a part lie inside the file before its 40 footer bytes, the payload
    follows the sidecar, and different parts do not overlap. *)
Theorem segment_index_sound (bs : bytes) (m : SegmentFileMetadata)
    (Hm : read_metadata_from_bytes bs = Ok (Some m)) :
  sm_num_partitions m = N.of_nat (length (sm_index m)) ∧
  (∀ i e, sm_index m !! i = Some e →
    ie_slice_ordinal e = N.of_nat i ∧
    (ie_part_meta_start e + ie_part_meta_len e ≤ ie_start e)%N ∧
    (ie_start e + ie_len e + FOOTER_LEN ≤ blen bs)%N) ∧
  (∀ i j e e', i < j → sm_index m !! i = Some e → sm_index m !! j = Some e' →
    (ie_start e + ie_len e ≤ ie_part_meta_start e')%N).
Proof.
  apply read_metadata_inv in Hm. split_and!.
  - destruct Hm as (version & ob & ps & [_ _ _ _ _ _ _ -> -> _ _]). by rewrite length_part_entries.
  - intros i e Hi. destruct (segf_entry bs m i e Hm Hi) as (v & p & pre & rest & _ & -> & -> & Hr).
    cbn [part_entry ie_slice_ordinal ie_part_meta_start ie_part_meta_len ie_start ie_len].
    split_and!; [done|rewrite !blen_app; lia|].
    unfold part_image, FOOTER_LEN. rewrite !blen_app. assert (40 ≤ blen rest)%N by (unfold blen; lia).
    lia.
  - intros i j e e' Hij Hi Hj. by apply (segf_entry_order bs m i j).
Qed.

Lemma parse_part_meta_blob_valid blob meta s :
  parse_part_meta_blob blob = Ok (meta, s) →
  deserialize blob = Ok meta ∧ WalPartMeta_validate meta = Ok tt.
Proof.
  unfold parse_part_meta_blob.
  intros (x & Hx%map_err_Ok & ([] & Hv%map_err_Ok & (y & _ & [= <- <-])%rbind_Ok)%rbind_Ok)%rbind_Ok.
  done.
Qed.

(** A sidecar is read straight from the index.  For every part of an accepted segment
    reading the indexed range succeeds: nothing for a part without sidecar, else the valid
    metadata that the bytes of the range decode to. *)
Theorem read_part_meta_indexed (bs : bytes) (m : SegmentFileMetadata)
    (e : SegmentPartitionIndexEntry)
    (Hlen : (blen bs ≤ U64_MAX)%N)
    (Hm : read_metadata_from_bytes bs = Ok (Some m))
    (He : e ∈ sm_index m) :
  if (ie_part_meta_len e =? 0)%N then read_part_meta_from_bytes bs e = Ok None
  else ∃ meta, read_part_meta_from_bytes bs e = Ok (Some meta) ∧
    deserialize (slice bs (ie_part_meta_start e) (ie_part_meta_len e)) = Ok meta ∧
    WalPartMeta_validate meta = Ok tt.
Proof.
  apply read_metadata_inv in Hm. apply list_elem_of_lookup in He as [i Hi].
  destruct (segf_entry bs m i e Hm Hi) as (v & p & pre & rest & Hp & -> & -> & _).
  unfold part_image in *. rewrite <- !app_assoc, (app_assoc pre) in *.
  set (before := pre ++ part_pre p) in *. set (after := part_mid v p ++ pi_payload p ++ rest) in *.
  assert (blen pre + blen (part_pre p) = blen before)%N as Hbefore by (unfold before; by rewrite blen_app).
  unfold read_part_meta_from_bytes. cbn [part_entry ie_part_meta_start ie_part_meta_len].
  rewrite Hbefore. rewrite !blen_app in Hlen. unfold checked_add.
  rewrite (proj2 (N.leb_le _ _)) by lia. cbn [ok_or rbind].
  rewrite (proj2 (N.ltb_ge _ _)) by (rewrite !blen_app; lia).
  pose proof (wf_summary v p Hp) as Hs. unfold read_part_meta_from_reader.
  cbn [part_entry ie_part_meta_start ie_part_meta_len ie_part_meta_summary ie_slice_ordinal].
  rewrite Hbefore, slice_app. unfold summarize_part_meta_blob in Hs.
  destruct (pi_meta p) as [|b meta] eqn:Emeta.
  - injection Hs as <-. done.
  - assert (blen (b :: meta) ≠ 0%N) as Hne by (unfold blen; simpl; lia).
    rewrite (proj2 (N.eqb_neq _ _)) by done.
    rewrite (proj2 (N.leb_le _ _)) by (unfold USIZE_MAX; lia). cbn [negb].
    apply rmap_Ok in Hs as ([mt s] & Hparse & Hs). cbn in Hs. subst s.
    exists mt. split; [|by apply parse_part_meta_blob_valid in Hparse].
    rewrite cursor_new_at. unfold sbind at 1. unfold seek_start.
    change {| cur_bytes := _; cur_pos := blen before |} with (at_cursor before ((b :: meta) ++ after)).
    erewrite sbind_run by (by apply read_exact_at).
    erewrite sbind_run by (unfold slift; rewrite Hparse; reflexivity).
    cbn [snd fst]. by rewrite bool_decide_true.
Qed.

(** What is admitted is what the catalog row names.  Admission succeeds only on a SEGF
    file whose body, everything before the 40 footer bytes, has the expected digest, which
    is also the digest the metadata carries. *)
Theorem admit_payload_sound (body sha : bytes) (m : SegmentFileMetadata)
    (Hadmit : admit_payload body sha = Ok (Some m)) :
  segf body m ∧ sm_body_sha256 m = sha ∧
  sha256 (take (length body - 40) body) = sha.
Proof.
  unfold admit_payload in Hadmit. apply rbind_Ok in Hadmit as (claimed & Hv & Hr).
  destruct (bool_decide_reflect (claimed = sha)) as [->|]; [|done]. cbn [negb] in Hr.
  apply rbind_Ok in Hr as ([m'|] & Hm & Hr); [|done].
  destruct (bool_decide_reflect (sha = sm_body_sha256 m')) as [Heq|]; [|done].
  injection Hr as ->. split_and!; [by apply read_metadata_inv in Hm|done|].
  unfold verify_body_checksum in Hv. destruct (blen body <? FOOTER_LEN)%N; [done|]. cbv zeta in Hv.
  destruct (negb _); [done|]. case_bool_decide as Hd; [|done]. injection Hv as Hv.
  rewrite Hv in Hd. rewrite <- Hd. do 2 f_equal. unfold FOOTER_LEN, blen. lia.
Qed.

(** ** The encoder *)

(** The bytes a payload contributes. *)
Definition payload_image (p : WalPayload RB) : result IoErr bytes :=
  match p with
  | ArrowPayload [] => Err (OtherIo (str "index out of bounds"))
  | ArrowPayload ((first :: _) as rbatches) =>
      map_err (λ e, OtherIo (str "arrow: " ++ e)) (ipc_stream (batch_schema first) rbatches)
  | CopyPayload part => Ok (concat (cp_chunks part))
  end.

Lemma write_chunks_end chunks pre :
  sfor write_all chunks (at_cursor pre []) = (Ok tt, at_cursor (pre ++ concat chunks) []).
Proof.
  revert pre; induction chunks as [|x chunks IH]; intros pre; cbn [sfor concat].
  - by rewrite app_nil_r.
  - erewrite sbind_run by apply write_all_end. rewrite IH. by rewrite <- app_assoc.
Qed.

Lemma write_payload_inv p rows pre r c :
  write_payload p rows (at_cursor pre []) = (Ok r, c) →
  ∃ d, payload_image p = Ok d ∧ c = at_cursor (pre ++ d) [].
Proof.
  destruct p as [[|b bs]|part]; cbn [write_payload payload_image]; [done| |].
  - intros (d & c1 & [Hd ->]%slift_inv & Hr)%sbind_Ok.
    erewrite sbind_run in Hr by apply write_all_end. injection Hr as _ <-. by exists d.
  - intros Hr. erewrite sbind_run in Hr by apply write_chunks_end. injection Hr as _ <-. eauto.
Qed.

Lemma known_payload_codec (p : WalPayload RB) : known_codec (payload_codec p) = true.
Proof. by destruct p. Qed.

Section encode_facts.
Variables (partitions_meta : gmap PartitionKey (N * Z)) (part_meta_blobs : gmap PartitionKey bytes)
  (created_at : Z).

(** What the map entries say of a key. *)
Definition part_bytes_of (key : PartitionKey) : N := (default (0%N, created_at) (partitions_meta !! key)).1.
Definition part_secs_of (key : PartitionKey) : N :=
  unix_secs (default (0%N, created_at) (partitions_meta !! key)).2.

(** [p] is the part of this key and payload. *)
Record part_of (key : PartitionKey) (payload : WalPayload RB) (p : PartImage) : Prop := {
  po_key : pi_key p = key;
  po_blob : serialize key = Ok (pi_key_blob p);
  po_bytes : pi_bytes p = part_bytes_of key;
  po_updated : pi_updated p = part_secs_of key;
  po_meta : pi_meta p = default [] (part_meta_blobs !! key);
  po_summary : summarize_part_meta_blob (pi_meta p) = Ok (pi_summary p);
  po_codec : pi_codec p = payload_codec payload;
  po_payload : payload_image payload = Ok (pi_payload p)
}.

Lemma write_meta_end meta pre :
  (if (0 <? blen meta)%N then write_all meta else sret tt) (at_cursor pre [])
  = (Ok tt, at_cursor (pre ++ meta) []).
Proof.
  destruct (N.ltb_spec 0 (blen meta)) as [|Hz]; [apply write_all_end|].
  assert (meta = []) as -> by (apply length_zero_iff_nil; unfold blen in Hz; lia).
  by rewrite app_nil_r.
Qed.

(** Going back to the length field of a part, and forward again to its end. *)
Lemma seek_back pre x y :
  seek_start (blen pre) (at_cursor ((pre ++ x) ++ y) []) = (Ok tt, at_cursor pre (x ++ y)).
Proof. unfold seek_start, at_cursor; cbn. by rewrite app_nil_r, <- app_assoc. Qed.

Lemma seek_forward n pre d :
  n = blen (pre ++ d) → seek_start n (at_cursor pre d) = (Ok tt, at_cursor (pre ++ d) []).
Proof. intros ->. unfold seek_start, at_cursor; cbn. by rewrite app_nil_r. Qed.

Lemma encode_part_inv acc key payload pre acc' c :
  payload_is_empty payload = false →
  encode_part partitions_meta part_meta_blobs created_at acc (key, payload) (at_cursor pre [])
    = (Ok acc', c) →
  ∃ p, part_of key payload p ∧ c = at_cursor (pre ++ part_image VERSION p) [] ∧
    ea_parts_count acc' = saturating_add U32_MAX (ea_parts_count acc) 1 ∧
    ea_total_bytes acc' = saturating_add U64_MAX (ea_total_bytes acc) (blen (pi_payload p)) ∧
    ((ea_parts_count acc < U32_MAX)%N →
     ea_index acc' = ea_index acc
       ++ [part_entry VERSION (blen pre) (N.to_nat (ea_parts_count acc)) p]).
Proof.
  intros Hne. unfold encode_part. rewrite Hne. cbv zeta. intros Hr.
  erewrite sbind_run in Hr by apply write_all_end.
  apply sbind_Ok in Hr as (kb & c1 & [Hkb%map_err_Ok ->]%slift_inv & Hr).
  do 2 erewrite sbind_run in Hr by apply write_all_end.
  destruct (default (0%N, created_at) (partitions_meta !! key)) as [pb pu] eqn:Epm.
  do 2 erewrite sbind_run in Hr by apply write_all_end.
  apply sbind_Ok in Hr as (sm & c2 & [Hsm ->]%slift_inv & Hr).
  set (meta := default [] (part_meta_blobs !! key)) in *.
  erewrite sbind_run in Hr by apply write_all_end.
  erewrite sbind_run in Hr by apply stream_position_at.
  set (pre1 := (((((pre ++ PART) ++ u64_le (blen kb)) ++ kb) ++ u64_le pb) ++ u64_le (unix_secs pu))
    ++ u64_le (blen meta)) in *.
  erewrite sbind_run in Hr by apply write_meta_end.
  erewrite sbind_run in Hr by apply write_all_end.
  erewrite sbind_run in Hr by apply stream_position_at.
  erewrite sbind_run in Hr by apply write_all_end.
  erewrite sbind_run in Hr by apply stream_position_at.
  set (pre2 := (pre1 ++ meta) ++ [byte_of_N (payload_codec payload)]) in *.
  apply sbind_Ok in Hr as (rows & c3 & (d & Hd & ->)%write_payload_inv & Hr).
  erewrite sbind_run in Hr by apply stream_position_at.
  set (stop := blen ((pre2 ++ u64_le 0) ++ d)) in *.
  assert (stop - blen (pre2 ++ u64_le 0) = blen d)%N as Hlen by (unfold stop; rewrite !blen_app; lia).
  rewrite Hlen in Hr.
  erewrite sbind_run in Hr by apply seek_back.
  erewrite sbind_run in Hr by (apply write_all_over; by rewrite !length_u64_le).
  erewrite sbind_run in Hr by (apply seek_forward; unfold stop; by rewrite !blen_app, !blen_u64_le).
  injection Hr as <- <-.
  exists {| pi_key := key; pi_key_blob := kb; pi_bytes := pb; pi_updated := unix_secs pu;
            pi_meta := meta; pi_summary := sm; pi_codec := payload_codec payload; pi_payload := d |}.
  cbn [ea_parts_count ea_total_bytes ea_index pi_payload]. split_and!; [|..|done|done|].
  - split; cbn; try done; unfold part_bytes_of, part_secs_of; by rewrite Epm.
  - f_equal. unfold pre2, pre1, part_image, part_pre, part_mid, blob_image; cbn. by rewrite <- !app_assoc.
  - intros Hc. do 2 f_equal. unfold part_entry, pre2, pre1, part_pre, part_mid, blob_image; cbn.
    unfold saturating_add. f_equal; rewrite ?blen_app, ?blen_u64_le; unfold blen; cbn; rewrite ?length_u64_le; lia.
Qed.

Definition non_empty (kp : PartitionKey * WalPayload RB) : Prop := payload_is_empty kp.2 = false.

#[local] Instance non_empty_dec kp : Decision (non_empty kp).
Proof. unfold non_empty. apply _. Defined.

Lemma encode_parts_inv l acc pre acc' c :
  (ea_parts_count acc + N.of_nat (length l) ≤ U32_MAX)%N →
  encode_parts partitions_meta part_meta_blobs created_at acc l (at_cursor pre []) = (Ok acc', c) →
  ∃ ps, Forall2 (λ kp p, part_of kp.1 kp.2 p) (filter non_empty l) ps ∧
    c = at_cursor (pre ++ parts_image VERSION ps) [] ∧
    ea_parts_count acc' = (ea_parts_count acc + N.of_nat (length ps))%N ∧
    ea_total_bytes acc' = payload_total ps (ea_total_bytes acc) ∧
    ea_index acc' = ea_index acc
      ++ part_entries VERSION (blen pre) (N.to_nat (ea_parts_count acc)) ps.
Proof.
  revert acc pre; induction l as [|[key payload] l IH]; intros acc pre Hn; cbn [encode_parts].
  - intros [= <- <-]. exists []. cbn. rewrite !app_nil_r. split_and!; try done. lia.
  - intros (acc1 & c1 & Hp & Hr)%sbind_Ok. cbn [length] in Hn.
    rewrite filter_cons. destruct (decide (non_empty (key, payload))) as [Hne|Hemp].
    + apply encode_part_inv in Hp as (p & Hp & -> & Hc & Ht & Hi); [|done].
      specialize (Hi ltac:(lia)). unfold saturating_add in Hc.
      apply IH in Hr as (ps & Hps & -> & Hc' & Ht' & Hi'); [|lia].
      exists (p :: ps). unfold parts_image. cbn [map concat part_entries length].
      rewrite Hc', Ht', Hi', Hi, Ht, blen_app, <- !app_assoc.
      replace (N.to_nat (ea_parts_count acc1)) with (S (N.to_nat (ea_parts_count acc))) by lia.
      split_and!; [by constructor|done|lia|done|done].
    + unfold encode_part in Hp. unfold non_empty in Hemp. cbn [snd] in Hemp.
      apply not_false_is_true in Hemp. rewrite Hemp in Hp. injection Hp as <- <-.
      by apply IH in Hr; [|lia].
Qed.

(** The values that are written as [u64] and [u32] fit their fields. *)
Record encodable (batches : gmap PartitionKey (WalPayload RB)) : Prop := {
  en_created : (unix_secs created_at ≤ U64_MAX)%N;
  en_meta key b t : partitions_meta !! key = Some (b, t) → (b ≤ U64_MAX)%N ∧ (unix_secs t ≤ U64_MAX)%N;
  en_count : (N.of_nat (size batches) ≤ U32_MAX)%N
}.

Lemma part_of_wf batches key payload p :
  encodable batches → part_of key payload p → (blen (part_image VERSION p) ≤ U64_MAX)%N →
  part_wf VERSION p.
Proof.
  intros [Hc Hm _] [Hk Hkb Hb Hu Hmt Hs Hcd Hp] Hl.
  unfold part_image, part_pre, part_mid, blob_image in Hl. rewrite !blen_app in Hl.
  assert (part_bytes_of key ≤ U64_MAX ∧ part_secs_of key ≤ U64_MAX)%N as [Hpb Hps].
  { unfold part_bytes_of, part_secs_of. destruct (partitions_meta !! key) as [[b t]|] eqn:E; cbn.
    - by apply Hm in E.
    - split; [lia|done]. }
  split; rewrite ?Hb, ?Hu; try done; try lia.
  - apply deserialize_serialize in Hkb. by subst.
  - rewrite Hcd. apply known_payload_codec.
Qed.

Lemma parts_of_wf batches l ps :
  encodable batches → Forall2 (λ kp p, part_of kp.1 kp.2 p) l ps →
  (blen (parts_image VERSION ps) ≤ U64_MAX)%N → Forall (part_wf VERSION) ps.
Proof.
  intros Hen Hps. induction Hps as [|kp p l ps Hp _ IH]; [done|].
  change (parts_image VERSION (p :: ps)) with (part_image VERSION p ++ parts_image VERSION ps).
  rewrite blen_app. intros Hl. constructor; [|apply IH; lia].
  apply (part_of_wf batches kp.1 kp.2); [done|done|lia].
Qed.

Lemma sorted_parts_length (l : list (PartitionKey * WalPayload RB)) :
  length (sorted_parts l) = length l.
Proof. unfold sorted_parts. by rewrite merge_sort_Permutation. Qed.

Lemma take_blen (x : bytes) : take (N.to_nat (blen x)) x = x.
Proof. unfold blen. by rewrite Nat2N.id, take_ge. Qed.

(** The whole run of the encoder. *)
Lemma encode_snapshot_inv offsets batches enc :
  encodable batches →
  encode_snapshot partitions_meta part_meta_blobs created_at offsets batches = Ok enc →
  (blen (es_bytes enc) ≤ U64_MAX)%N →
  ∃ ob ps, serialize offsets = Ok ob ∧
    Forall2 (λ kp p, part_of kp.1 kp.2 p)
      (filter non_empty (sorted_parts (map_to_list batches))) ps ∧
    sm_offsets (es_meta enc) = offsets ∧
    segf_layout (es_bytes enc) (es_meta enc) VERSION ob ps ∧
    es_sha256 enc = sm_body_sha256 (es_meta enc) ∧
    es_sha256 enc = sha256 (header_image VERSION (sm_created_at_secs (es_meta enc)) ob
                              ++ parts_image VERSION ps).
Proof.
  intros Hen. unfold encode_snapshot.
  destruct (encode_writer _ _ _ _ _ _) as [r cend] eqn:Hr. cbn [fst]. intros -> Hlen.
  unfold encode_writer in Hr. rewrite cursor_new_at in Hr. cbv zeta in Hr.
  do 3 erewrite sbind_run in Hr by apply write_all_end.
  apply sbind_Ok in Hr as (ob & c1 & [Hob%map_err_Ok ->]%slift_inv & Hr).
  do 2 erewrite sbind_run in Hr by apply write_all_end.
  apply sbind_Ok in Hr as (acc & c2 & Hacc & Hr).
  apply encode_parts_inv in Hacc as (ps & Hps & -> & Hc & Ht & Hi).
  2:{ cbn. rewrite sorted_parts_length, length_map_to_list. apply Hen. }
  erewrite sbind_run in Hr by apply stream_position_at.
  erewrite sbind_run in Hr by (unfold sread; reflexivity).
  cbn [at_cursor cur_bytes] in Hr. rewrite app_nil_r, !take_blen in Hr.
  assert ((((([] ++ MAGIC) ++ u32_le VERSION) ++ u64_le (unix_secs created_at)) ++ u64_le (blen ob)) ++ ob
    = header_image VERSION (unix_secs created_at) ob) as Hhd.
  { unfold header_image, blob_image. by rewrite <- !app_assoc. }
  rewrite Hhd in *. set (hd := header_image VERSION (unix_secs created_at) ob) in *.
  do 3 erewrite sbind_run in Hr by apply write_all_end.
  erewrite sbind_run in Hr by (unfold sread; reflexivity).
  apply sret_inv in Hr as [-> _]. cbn [es_bytes es_meta es_sha256 sm_offsets sm_body_sha256
    sm_created_at_secs cur_bytes at_cursor] in *. rewrite app_nil_r in *.
  cbn [acc_zero ea_parts_count ea_total_bytes ea_index app N.add N.to_nat] in Hc, Ht, Hi.
  assert (length ps ≤ size batches) as Hle.
  { rewrite <- (Forall2_length _ _ _ Hps). etrans; [apply length_filter|].
    by rewrite sorted_parts_length, length_map_to_list. }
  pose proof (en_count batches Hen) as Hcount.
  exists ob, ps. split_and!; [done|done|done| |done|by fold hd].
  split; cbn [sm_created_at_secs sm_body_sha256 sm_num_partitions sm_offsets sm_index sm_total_bytes].
  - unfold footer_image. rewrite Hc. fold hd. by rewrite <- !app_assoc.
  - done.
  - apply Hen.
  - unfold hd, header_image, blob_image in Hlen. rewrite !blen_app in Hlen. lia.
  - by apply deserialize_serialize.
  - apply (parts_of_wf batches _ _ Hen Hps). rewrite !blen_app in Hlen. lia.
  - lia.
  - done.
  - by fold hd.
  - done.
  - apply sha256_length.
Qed.

Lemma verify_footer body n sha :
  sha256 body = sha → verify_body_checksum (body ++ footer_image n sha) = Ok sha.
Proof.
  intros Hsha. assert (length sha = 32) as Hl by (rewrite <- Hsha; apply sha256_length).
  assert (blen (footer_image n sha) = 40)%N as Hf.
  { unfold footer_image. rewrite !blen_app, blen_u32_le. unfold blen. rewrite Hl. done. }
  unfold verify_body_checksum, FOOTER_LEN. rewrite blen_app, Hf.
  rewrite (proj2 (N.ltb_ge _ _)) by lia. cbv zeta.
  replace (N.to_nat (blen body + 40 - 40)) with (length body) by (unfold blen; lia).
  rewrite drop_app_length, take_app_length. unfold footer_image.
  rewrite (take_app_length' FOOT) by done. rewrite bool_decide_true by done. cbn [negb].
  replace (drop 8 (FOOT ++ u32_le n ++ sha)) with sha.
  2:{ rewrite app_assoc. rewrite drop_app_length'; [done|]. by rewrite length_app, length_u32_le. }
  rewrite take_ge by lia. by rewrite bool_decide_true.
Qed.

Lemma encoded_verifies (offsets : gmap OffsetKey N) (batches : gmap PartitionKey (WalPayload RB)) (enc : EncodedSnapshot) :
  encodable batches → encode_snapshot partitions_meta part_meta_blobs created_at offsets batches = Ok enc →
  (blen (es_bytes enc) ≤ U64_MAX)%N → verify_body_checksum (es_bytes enc) = Ok (es_sha256 enc).
Proof.
  intros Hen Henc Hlen. destruct (encode_snapshot_inv offsets batches enc Hen Henc Hlen)
    as (ob & ps & _ & _ & _ & Hl & Hsha & Hbody).
  rewrite (sl_bytes _ _ _ _ _ Hl), app_assoc, <- Hsha. apply verify_footer. by rewrite Hbody.
Qed.

(** C20: what is encoded is read back.  Encoding a snapshot and scanning the bytes gives the
    metadata the encoder returned, the body checksum holds, and admission against the
    digest the encoder returned succeeds with that metadata. *)
Theorem encode_then_read (offsets : gmap OffsetKey N)
    (batches : gmap PartitionKey (WalPayload RB)) (enc : EncodedSnapshot)
    (Hen : encodable batches)
    (Henc : encode_snapshot partitions_meta part_meta_blobs created_at offsets batches = Ok enc)
    (Hlen : (blen (es_bytes enc) ≤ U64_MAX)%N) :
  read_metadata_from_bytes (es_bytes enc) = Ok (Some (es_meta enc)) ∧
  verify_body_checksum (es_bytes enc) = Ok (es_sha256 enc) ∧
  admit_payload (es_bytes enc) (es_sha256 enc) = Ok (Some (es_meta enc)) ∧
  sm_offsets (es_meta enc) = offsets.
Proof.
  destruct (encode_snapshot_inv offsets batches enc Hen Henc Hlen)
    as (ob & ps & _ & _ & Hoff & Hl & Hsha & Hbody).
  assert (read_metadata_from_bytes (es_bytes enc) = Ok (Some (es_meta enc))) as Hread.
  { pose proof (read_metadata_at (es_bytes enc) (es_meta enc) [] (S (length (es_bytes enc)))) as Hrun.
    rewrite app_nil_r in Hrun. apply Hrun; [by exists VERSION, ob, ps|done|lia]. }
  pose proof (encoded_verifies offsets batches enc Hen Henc Hlen) as Hver.
  split_and!; [done|done| |done]. unfold admit_payload. rewrite Hver. cbn [rbind].
  rewrite bool_decide_true by done. cbn [negb]. rewrite Hread. cbn [rbind].
  by rewrite bool_decide_true.
Qed.

Lemma slice_mid pre d rest n s : n = blen pre → s = blen d → slice (pre ++ d ++ rest) n s = d.
Proof. intros -> ->. apply slice_app. Qed.

Lemma part_entries_elem version base ps e :
  e ∈ part_entries version base 0 ps →
  ∃ p ps1 ps2 i, ps = ps1 ++ p :: ps2 ∧
    e = part_entry version (base + blen (parts_image version ps1)) i p.
Proof.
  intros (i & (p & ps1 & ps2 & -> & _ & ->)%part_entries_lookup)%list_elem_of_lookup. eauto 6.
Qed.

Lemma part_entries_has version base n ps p :
  p ∈ ps → ∃ e, e ∈ part_entries version base n ps ∧ ie_key e = pi_key p.
Proof.
  revert base n; induction ps as [|q ps IH]; intros base n Hp; [by apply not_elem_of_nil in Hp|].
  cbn [part_entries]. apply elem_of_cons in Hp as [->|Hp].
  - eexists. split; [by left|done].
  - destruct (IH (base + blen (part_image version q))%N (S n) Hp) as (e & He & Hk).
    exists e. split; [by right|done].
Qed.

(** The bytes of a part inside the file. *)
Lemma entry_slices version hd ps1 p ps2 ft i :
  let e := part_entry version (blen hd + blen (parts_image version ps1)) i p in
  let bs := hd ++ parts_image version (ps1 ++ p :: ps2) ++ ft in
  slice bs (ie_start e) (ie_len e) = pi_payload p ∧
  slice bs (ie_part_meta_start e) (ie_part_meta_len e) = pi_meta p.
Proof.
  cbv zeta. cbn [part_entry ie_start ie_len ie_part_meta_start ie_part_meta_len].
  rewrite parts_image_app.
  change (parts_image version (p :: ps2)) with (part_image version p ++ parts_image version ps2).
  unfold part_image. split.
  - replace (hd ++ _ ++ ft) with ((hd ++ parts_image version ps1 ++ part_pre p ++ pi_meta p
      ++ part_mid version p) ++ pi_payload p ++ parts_image version ps2 ++ ft)
      by (by rewrite <- !app_assoc).
    apply slice_mid; [|done]. rewrite !blen_app. lia.
  - replace (hd ++ _ ++ ft) with ((hd ++ parts_image version ps1 ++ part_pre p) ++ pi_meta p
      ++ part_mid version p ++ pi_payload p ++ parts_image version ps2 ++ ft)
      by (by rewrite <- !app_assoc).
    apply slice_mid; [|done]. rewrite !blen_app. lia.
Qed.

(** The index locates every payload.  In an encoded snapshot the index has one entry
    for each non-empty partition and no other, and the entry's ranges of the file hold the
    payload bytes and the sidecar of that partition. *)
Theorem encode_payloads_located (offsets : gmap OffsetKey N)
    (batches : gmap PartitionKey (WalPayload RB)) (enc : EncodedSnapshot)
    (Hen : encodable batches)
    (Henc : encode_snapshot partitions_meta part_meta_blobs created_at offsets batches = Ok enc)
    (Hlen : (blen (es_bytes enc) ≤ U64_MAX)%N) :
  (∀ key payload, batches !! key = Some payload → payload_is_empty payload = false →
     ∃ e, e ∈ sm_index (es_meta enc) ∧ ie_key e = key) ∧
  (∀ e, e ∈ sm_index (es_meta enc) →
     ∃ payload, batches !! ie_key e = Some payload ∧ payload_is_empty payload = false ∧
       ie_codec e = payload_codec payload ∧
       payload_image payload = Ok (slice (es_bytes enc) (ie_start e) (ie_len e)) ∧
       slice (es_bytes enc) (ie_part_meta_start e) (ie_part_meta_len e)
         = default [] (part_meta_blobs !! ie_key e)).
Proof.
  destruct (encode_snapshot_inv offsets batches enc Hen Henc Hlen)
    as (ob & ps & _ & Hps & _ & Hl & _ & _).
  rewrite (sl_index _ _ _ _ _ Hl). split.
  - intros key payload Hk Hne.
    assert ((key, payload) ∈ filter non_empty (sorted_parts (map_to_list batches))) as Hin.
    { apply list_elem_of_filter. split; [done|]. unfold sorted_parts.
      rewrite merge_sort_Permutation. by apply elem_of_map_to_list. }
    destruct (Forall2_elem_of_l _ _ _ _ Hps Hin) as (p & Hp & Hpo).
    destruct (part_entries_has VERSION
      (blen (header_image VERSION (sm_created_at_secs (es_meta enc)) ob)) 0 ps p Hp) as (e & He & Hke).
    exists e. split; [done|]. rewrite Hke. apply (po_key _ _ _ Hpo).
  - intros e He. apply part_entries_elem in He as (p & ps1 & ps2 & i & -> & ->).
    destruct (Forall2_elem_of_r _ _ _ p Hps) as ([key payload] & Hin & Hpo); [set_solver|].
    apply list_elem_of_filter in Hin as [Hne Hin]. unfold sorted_parts in Hin.
    rewrite merge_sort_Permutation in Hin. apply elem_of_map_to_list in Hin.
    destruct Hpo as [Hk _ _ _ Hm _ Hc Hp]. cbn [fst snd] in *.
    destruct (entry_slices VERSION (header_image VERSION (sm_created_at_secs (es_meta enc)) ob)
      ps1 p ps2 (footer_image (N.of_nat (length (ps1 ++ p :: ps2))) (sm_body_sha256 (es_meta enc))) i)
      as [Hs1 Hs2].
    rewrite (sl_bytes _ _ _ _ _ Hl). exists payload. rewrite Hs1, Hs2.
    cbn [part_entry ie_key ie_codec]. rewrite Hk. by split_and!.
Qed.
End encode_facts.

(** *** The order of the parts *)

Record linear {A} (le : A → A → bool) : Prop := {
  lin_total x y : le x y = true ∨ le y x = true;
  lin_trans x y z : le x y = true → le y z = true → le x z = true;
  lin_antisym x y : le x y = true → le y x = true → x = y
}.

Lemma linear_bytes : linear bytes_leb.
Proof.
  split.
  - apply (total bytes_le).
  - intros x y z. apply (transitivity (R := bytes_le)).
  - apply (anti_symm bytes_le).
Qed.

Lemma linear_time : linear time_leb.
Proof.
  split.
  - intros [x|] [y|]; cbn; auto. rewrite !Z.leb_le. lia.
  - intros [x|] [y|] [z|]; cbn; try done. rewrite !Z.leb_le. lia.
  - intros [x|] [y|]; cbn; try done. rewrite !Z.leb_le. intros. f_equal. lia.
Qed.

Lemma linear_lexb {A B} `{EqDecision A} (la : A → A → bool) (lb : B → B → bool) :
  linear la → linear lb → linear (lexb la lb).
Proof.
  intros [Ta Ra Aa] [Tb Rb Ab]. unfold lexb. split.
  - intros [a b] [a' b']; cbn. repeat case_decide; try congruence; auto.
  - intros [a b] [a' b'] [a'' b'']; cbn. repeat case_decide; subst; try congruence; eauto;
      intros H1 H2; pose proof (Aa _ _ H1 H2); congruence.
  - intros [a b] [a' b']; cbn. repeat case_decide; subst; try congruence; intros H1 H2;
      [f_equal; eauto|pose proof (Aa _ _ H1 H2); congruence].
Qed.

Lemma linear_pk : linear pk_leb.
Proof.
  pose proof (linear_lexb _ _ linear_bytes (linear_lexb _ _ linear_bytes (linear_lexb _ _ linear_bytes
    (linear_lexb _ _ linear_time linear_bytes)))) as [T R S]. split.
  - intros x y. apply T.
  - intros x y z. apply R.
  - intros [] [] Hxy Hyx. pose proof (S _ _ Hxy Hyx) as E. unfold pk_fields in E. cbn in E. congruence.
Qed.

#[local] Instance part_le_trans : Transitive part_le.
Proof. intros x y z. apply (lin_trans _ linear_pk). Qed.
#[local] Instance part_le_total : Total part_le.
Proof. intros x y. apply (lin_total _ linear_pk). Qed.

Lemma sorted_parts_perm (l l' : list (PartitionKey * WalPayload RB)) :
  l ≡ₚ l' → NoDup l.*1 → sorted_parts l = sorted_parts l'.
Proof.
  intros Hp Hnd. unfold sorted_parts.
  apply (StronglySorted_unique_strong part_le).
  - intros [k v] [k' v'] Hx Hy Hle Hge. rewrite merge_sort_Permutation in Hx.
    rewrite merge_sort_Permutation, <- Hp in Hy.
    assert (k = k') as <- by (by apply (lin_antisym _ linear_pk)). f_equal.
    apply list_elem_of_lookup in Hx as [i Hi]. apply list_elem_of_lookup in Hy as [j Hj].
    assert (i = j) as ->; [|congruence].
    apply (NoDup_lookup l.*1 i j k); [done|by rewrite list_lookup_fmap, Hi|by rewrite list_lookup_fmap, Hj].
  - apply StronglySorted_merge_sort; apply _.
  - apply StronglySorted_merge_sort; apply _.
  - by rewrite !merge_sort_Permutation.
Qed.

(** The bytes of a segment do not depend on the iteration order of the hash map that
    holds the partitions: any two orders of the same entries give the same run of the
    encoder, so disk and object storage persist the same bytes. *)
Theorem encode_order_independent (partitions_meta : gmap PartitionKey (N * Z))
    (part_meta_blobs : gmap PartitionKey bytes) (created_at : Z) (offsets : gmap OffsetKey N)
    (batches : gmap PartitionKey (WalPayload RB)) (l : list (PartitionKey * WalPayload RB))
    (Hl : l ≡ₚ map_to_list batches) :
  (encode_writer partitions_meta part_meta_blobs created_at offsets l (cursor_new [])).1
  = encode_snapshot partitions_meta part_meta_blobs created_at offsets batches.
Proof.
  unfold encode_snapshot, encode_writer. rewrite (sorted_parts_perm l (map_to_list batches) Hl); [done|].
  rewrite Hl. apply NoDup_fst_map_to_list.
Qed.

(** *** The full scan for sidecars *)

Lemma seek_current_at n pre bs rest :
  n = blen bs → (blen (pre ++ bs) ≤ U64_MAX)%N →
  seek_current n (at_cursor pre (bs ++ rest)) = (Ok tt, at_cursor (pre ++ bs) rest).
Proof.
  intros -> Hl. unfold seek_current, at_cursor, checked_add; cbn. rewrite blen_app in Hl.
  rewrite (proj2 (N.leb_le _ _)) by lia. by rewrite blen_app, <- app_assoc.
Qed.

Definition add_sidecar (acc : gmap PartitionKey bytes) (p : PartImage) : gmap PartitionKey bytes :=
  if (0 <? blen (pi_meta p))%N then <[pi_key p := pi_meta p]> acc else acc.

Lemma read_sidecar_blob acc p pre rest :
  (blen (pi_meta p) ≤ U64_MAX)%N →
  (if (0 <? blen (pi_meta p))%N then
     if (blen (pi_meta p) <=? USIZE_MAX)%N
     then do? meta_blob := read_exact (blen (pi_meta p)) in sret (<[pi_key p := meta_blob]> acc)
     else serr (InvalidData (str "WAL PART metadata is too large"))
   else sret acc) (at_cursor pre (pi_meta p ++ rest))
  = (Ok (add_sidecar acc p), at_cursor (pre ++ pi_meta p) rest).
Proof.
  intros Hl. unfold add_sidecar. destruct (N.ltb_spec 0 (blen (pi_meta p))) as [Hp|Hz].
  - rewrite (proj2 (N.leb_le _ _)) by (unfold USIZE_MAX; lia).
    erewrite sbind_run by (by apply read_exact_at). reflexivity.
  - assert (pi_meta p = []) as -> by (apply length_zero_iff_nil; unfold blen in Hz; lia).
    by rewrite app_nil_r.
Qed.

Lemma blobs_round_part_at file_len version acc p pre rest :
  part_wf version p → (file_len ≤ U64_MAX)%N → (blen (pre ++ part_image version p) ≤ file_len)%N →
  blobs_round file_len version acc (at_cursor pre (part_image version p ++ rest))
  = (Ok (inl (add_sidecar acc p)), at_cursor (pre ++ part_image version p) rest).
Proof.
  intros [Hk Hkl Hb Hu Hml Hs Hc Hc3 Hpl] Hf Hl.
  unfold part_image, part_pre, part_mid in *.
  assert (∀ y, (blen y ≤ blen (pre ++ (PART ++ blob_image (pi_key_blob p) ++ u64_le (pi_bytes p)
    ++ u64_le (pi_updated p) ++ u64_le (blen (pi_meta p))) ++ pi_meta p ++
    (codec_image version (pi_codec p) ++ u64_le (blen (pi_payload p))) ++ pi_payload p))%N →
    (blen y ≤ file_len)%N) as Hle by (intros; lia).
  unfold blobs_round. rewrite <- !app_assoc. rewrite (read_exact_at 4 pre PART) by done.
  rewrite bool_decide_true by done. cbn [negb].
  erewrite sbind_run by (apply read_blob_at; [done|apply Hle; rewrite !blen_app; lia]).
  erewrite sbind_run by (unfold slift; rewrite Hk; reflexivity).
  rewrite (app_assoc (u64_le (pi_bytes p))).
  erewrite sbind_run.
  2:{ apply seek_current_at; [by rewrite blen_app, !blen_u64_le|]. transitivity file_len; [|done].
      apply Hle. rewrite !blen_app. lia. }
  erewrite sbind_run by (by apply read_u64_at). erewrite sbind_run by apply stream_position_at.
  cbv zeta. unfold saturating_sub. clear Hle. unfold blob_image in *. rewrite !blen_app in Hl.
  rewrite (proj2 (N.ltb_ge _ _)) by (rewrite !blen_app; lia).
  erewrite sbind_run.
  2:{ apply read_sidecar_blob; lia. }
  erewrite sbind_run by (by apply codec_at). cbn [snd].
  erewrite sbind_run.
  2:{ apply skip_payload_at; [done|]. rewrite !blen_app. lia. }
  unfold sret. by rewrite <- !app_assoc.
Qed.

Lemma blobs_run file_len version ps acc pre rest fuel :
  Forall (part_wf version) ps → (file_len ≤ U64_MAX)%N →
  (blen (pre ++ parts_image version ps) ≤ file_len)%N → length ps < fuel →
  (sloop fuel (blobs_round file_len version) acc
    (at_cursor pre (parts_image version ps ++ FOOT ++ rest))).1
  = Ok (Some (foldl add_sidecar acc ps)).
Proof.
  unfold parts_image. intros Hps. revert acc pre fuel.
  induction Hps as [|p ps Hp Hps IH]; intros acc pre fuel Hf Hl Hfuel;
    (destruct fuel as [|fuel]; [lia|]); cbn [sloop map concat app foldl].
  - erewrite sbind_run.
    2:{ unfold blobs_round. rewrite (read_exact_at 4 pre FOOT) by done.
        rewrite bool_decide_false by done. reflexivity. }
    done.
  - rewrite <- app_assoc. cbn [map concat] in Hl. cbn [length] in Hfuel. rewrite !blen_app in Hl.
    erewrite sbind_run by (apply blobs_round_part_at; [done|done|rewrite blen_app; lia]).
    cbn beta iota. apply IH; [done|rewrite !blen_app; lia|lia].
Qed.

(** The sidecars the index points at, later parts over earlier ones. *)
Definition indexed_sidecars (bs : bytes) (m : SegmentFileMetadata) : gmap PartitionKey bytes :=
  foldl (λ acc e, if (0 <? ie_part_meta_len e)%N
                  then <[ie_key e := slice bs (ie_part_meta_start e) (ie_part_meta_len e)]> acc
                  else acc) ∅ (sm_index m).

Lemma indexed_sidecars_parts version hd ps ft acc n :
  foldl (λ acc e, if (0 <? ie_part_meta_len e)%N
                  then <[ie_key e := slice (hd ++ parts_image version ps ++ ft)
                                       (ie_part_meta_start e) (ie_part_meta_len e)]> acc
                  else acc) acc (part_entries version (blen hd) n ps)
  = foldl add_sidecar acc ps.
Proof.
  revert hd acc n; induction ps as [|p ps IH]; intros hd acc n; [done|].
  cbn [part_entries foldl].
  destruct (entry_slices version hd [] p ps ft n) as [_ Hs]. cbn [app] in Hs.
  change (blen (parts_image version [])) with 0%N in Hs. rewrite N.add_0_r in Hs. rewrite Hs. fold (add_sidecar acc p).
  change (parts_image version (p :: ps)) with (part_image version p ++ parts_image version ps).
  rewrite <- app_assoc, (app_assoc hd), <- blen_app. apply IH.
Qed.

Lemma parts_image_length version ps : length ps ≤ length (parts_image version ps).
Proof.
  induction ps as [|p ps IH]; [done|].
  change (parts_image version (p :: ps)) with (part_image version p ++ parts_image version ps).
  rewrite length_app. cbn [length]. pose proof (part_image_length version p). lia.
Qed.

(** The two readers of the sidecars agree.  On an accepted segment the full scan for
    sidecars returns exactly the ranges that the index of the metadata scan points at. *)
Theorem sidecar_scans_agree (bs : bytes) (m : SegmentFileMetadata)
    (Hlen : (blen bs ≤ U64_MAX)%N)
    (Hm : read_metadata_from_bytes bs = Ok (Some m)) :
  (read_part_meta_blobs_from_reader (S (length bs)) (cursor_new bs)).1
  = Ok (Some (indexed_sidecars bs m)).
Proof.
  apply read_metadata_inv in Hm as (version & ob & ps & [-> Hv Hc Hol Ho Hps Hcount _ Hindex _ Hsha]).
  unfold indexed_sidecars. rewrite Hindex, indexed_sidecars_parts. clear Hindex.
  set (fuel := S _). unfold read_part_meta_blobs_from_reader. unfold sbind at 1 2.
  cbn [seek_end seek_start cursor_new cur_bytes cur_pos].
  change {| cur_bytes := ?b; cur_pos := 0 |} with (at_cursor [] b).
  assert (length ps < fuel) as Hfuel.
  { unfold fuel. rewrite !length_app. pose proof (parts_image_length version ps). lia. }
  set (file_len := blen _) in Hlen |- *.
  assert (blen (header_image version (sm_created_at_secs m) ob ++ parts_image version ps) ≤ file_len)%N
    as Hfl by (unfold file_len; rewrite !blen_app; lia).
  clearbody file_len fuel. unfold header_image, footer_image in *. rewrite <- !app_assoc.
  erewrite sbind_run by (by apply read_exact_at). rewrite bool_decide_true by done. cbn [negb].
  erewrite sbind_run.
  2:{ apply read_u32_at. unfold accepted_segf_version, SEGF_VERSION_V3, VERSION in Hv.
      apply orb_true_iff in Hv as [Hv%N.eqb_eq|Hv%N.eqb_eq]; subst; unfold U32_MAX; lia. }
  rewrite Hv. cbn [negb]. rewrite !blen_app in Hfl. unfold blob_image in *. rewrite blen_app in Hfl.
  erewrite sbind_run.
  2:{ apply seek_current_at; [by rewrite blen_u64_le|]. rewrite !blen_app. change (blen []) with 0%N. lia. }
  rewrite <- app_assoc. erewrite sbind_run.
  2:{ unfold skip_claimed_len, read_len_capped_by_remaining. erewrite sbind_run.
      2:{ erewrite sbind_run by (by apply read_u64_at). erewrite sbind_run by apply stream_position_at.
          unfold slift, claimed_len_capped_by_remaining, saturating_sub.
          rewrite (proj2 (N.ltb_ge _ _)) by (rewrite !blen_app; change (blen []) with 0%N; lia).
          rewrite (proj2 (N.leb_le _ _)) by (unfold USIZE_MAX; lia). reflexivity. }
      erewrite sbind_run by apply stream_position_at. erewrite sbind_run.
      2:{ unfold slift, checked_add.
          rewrite (proj2 (N.leb_le _ _)) by (rewrite !blen_app; change (blen []) with 0%N; lia).
          reflexivity. }
      apply seek_start_at. by rewrite (blen_app _ ob). }
  apply blobs_run; [done|done| |done]. rewrite !blen_app. change (blen []) with 0%N. lia.
Qed.
End segment.

(** ** A concrete snapshot

    Two partitions, one of them empty, with a sidecar and one source offset; record batches
    are byte strings and their stream is the concatenation. *)

#[global] Instance MutationKind_countable : Countable MutationKind.
Proof.
  apply (inj_countable' (λ m, match m with Snapshot => 0%N | Insert => 1%N | Update => 2%N | Delete => 3%N end)
    (λ n, if (n =? 0)%N then Snapshot else if (n =? 1)%N then Insert
          else if (n =? 2)%N then Update else Delete)). by intros [].
Defined.
#[global] Instance WalPartKind_countable : Countable WalPartKind.
Proof.
  apply (inj_countable' (λ k, match k with PartAppend => true | PartCdc => false end)
    (λ b : bool, if b then PartAppend else PartCdc)). by intros [].
Defined.
#[global] Instance WalRowMeta_countable : Countable WalRowMeta.
Proof.
  apply (inj_countable' (λ r, (mutation r, event_id r, order_token r))
    (λ '(a, b, c), {| mutation := a; event_id := b; order_token := c |})). by intros [].
Defined.
#[global] Instance WalPartMeta_countable : Countable WalPartMeta.
Proof.
  apply (inj_countable' (λ m, (pm_kind m, pm_row_count m, pm_rows m))
    (λ '(a, b, c), {| pm_kind := a; pm_row_count := b; pm_rows := c |})). by intros [].
Defined.

#[local] Instance demo_arrow : ArrowIpc bytes unit := {|
  num_rows _ := 1%N;
  array_memory_size := blen;
  batch_schema _ := tt;
  ipc_stream _ bs := Ok (concat bs)
|}.
#[local] Instance demo_key_codec : Codec PartitionKey := countable_codec.
#[local] Instance demo_meta_codec : Codec WalPartMeta := countable_codec.
#[local] Instance demo_offsets_codec : Codec (gmap OffsetKey N) := countable_codec.
#[local] Instance demo_digest : Digest := toy_digest.

Definition demo_key (p : bytes) : PartitionKey :=
  {| pk_sink_ref := str "s"; pk_namespace := str "n"; pk_partition := p; pk_time := None;
     pk_schema_fingerprint := str "f" |}.

Definition demo_meta : WalPartMeta :=
  {| pm_kind := PartCdc; pm_row_count := 1;
     pm_rows := [{| mutation := Insert; event_id := []; order_token := [] |}] |}.

Definition demo_batches : gmap PartitionKey (WalPayload bytes) :=
  <[demo_key (str "a") := ArrowPayload [str "row"]]>
    (<[demo_key (str "b") := ArrowPayload []]> ∅).

Definition demo_blobs : gmap PartitionKey bytes :=
  {[ demo_key (str "a") := pos_bytes (encode demo_meta) ]}.

Definition demo_offsets : gmap OffsetKey N :=
  {[ {| ok_namespace := str "n"; ok_partition := str "a" |} := 5%N ]}.

Definition demo_encoded : result IoErr EncodedSnapshot :=
  encode_snapshot ∅ demo_blobs 1000000000 demo_offsets demo_batches.

Definition demo_bytes : bytes :=
  match demo_encoded with Ok enc => es_bytes enc | Err _ => [] end.

Lemma demo_encodable : encodable ∅ 1000000000 demo_batches.
Proof.
  split.
  - by vm_compute.
  - intros key b t. by rewrite lookup_empty.
  - unfold demo_batches.
    rewrite !map_size_insert. repeat case_match; rewrite map_size_empty; by vm_compute.
Qed.

(** The scan of the snapshot, and what is known of it. *)
Lemma demo_read :
  ∃ m, read_metadata_from_bytes demo_bytes = Ok (Some m) ∧ length (sm_index m) = 1.
Proof.
  assert (match read_metadata_from_bytes demo_bytes with
          | Ok (Some m) => length (sm_index m) =? 1 | _ => false end = true) as H by by vm_compute.
  destruct (read_metadata_from_bytes demo_bytes) as [[m|]|e]; [|done|done].
  exists m. split; [done|]. by apply Nat.eqb_eq.
Qed.

Lemma demo_len : (blen demo_bytes ≤ U64_MAX)%N.
Proof. apply N.leb_le. by vm_compute. Qed.

Lemma demo_encoded_ok : ∃ enc, demo_encoded = Ok enc ∧ es_bytes enc = demo_bytes.
Proof.
  assert (is_ok demo_encoded = true) as H by by vm_compute. unfold demo_bytes.
  destruct demo_encoded as [enc|e]; [by exists enc|done].
Qed.

(** The 483 bytes of the snapshot are a SEGF file. *)
Lemma read_metadata_exact_witness :
  ∃ m, length demo_bytes = 483 ∧ (read_metadata_from_bytes demo_bytes = Ok (Some m) ↔ segf demo_bytes m) ∧
    segf demo_bytes m.
Proof.
  destruct demo_read as (m & Hm & _). exists m. split; [by vm_compute|].
  pose proof (read_metadata_exact demo_bytes m demo_len) as Hex. split; [exact Hex|].
  apply Hex. exact Hm.
Defined.

(** Without its last byte it is refused. *)
Lemma truncated_segment_refused_witness :
  ∃ e, read_metadata_from_bytes (take 482 demo_bytes) = Err e.
Proof.
  destruct demo_read as (m & Hm & _).
  apply (truncated_segment_refused (take 482 demo_bytes) (drop 482 demo_bytes) m).
  - rewrite take_drop. exact demo_len.
  - rewrite take_drop. exact Hm.
  - intros H. apply (f_equal length) in H. vm_compute in H. discriminate.
Defined.

Lemma segment_index_sound_witness :
  ∃ m e, read_metadata_from_bytes demo_bytes = Ok (Some m) ∧ sm_index m !! 0 = Some e ∧
    (ie_start e + ie_len e + 40 ≤ blen demo_bytes)%N.
Proof.
  destruct demo_read as (m & Hm & Hl).
  destruct (sm_index m) as [|e l] eqn:He; [discriminate|].
  exists m, e. rewrite He. split; [exact Hm|]. split; [reflexivity|].
  destruct (segment_index_sound demo_bytes m Hm) as (_ & Hs & _).
  apply (Hs 0 e). rewrite He. reflexivity.
Defined.

Lemma read_part_meta_indexed_witness :
  ∃ m e, sm_index m !! 0 = Some e ∧
    if (ie_part_meta_len e =? 0)%N then read_part_meta_from_bytes demo_bytes e = Ok None
    else ∃ meta, read_part_meta_from_bytes demo_bytes e = Ok (Some meta) ∧
      deserialize (slice demo_bytes (ie_part_meta_start e) (ie_part_meta_len e)) = Ok meta ∧
      WalPartMeta_validate meta = Ok tt.
Proof.
  destruct demo_read as (m & Hm & Hl).
  destruct (sm_index m) as [|e l] eqn:He; [discriminate|].
  exists m, e. rewrite He. split; [reflexivity|].
  apply (read_part_meta_indexed demo_bytes m e demo_len Hm). rewrite He. left.
Defined.

(** The snapshot is admitted under its own digest, and that is all it is admitted under. *)
Lemma admit_payload_sound_witness :
  ∃ sha m, admit_payload demo_bytes sha = Ok (Some m) ∧ segf demo_bytes m ∧
    sha256 (take (length demo_bytes - 40) demo_bytes) = sha.
Proof.
  destruct (admit_payload demo_bytes (sha256 (take 443 demo_bytes))) as [[m|]|e] eqn:Ha.
  - exists (sha256 (take 443 demo_bytes)), m. split; [exact Ha|].
    destruct (admit_payload_sound demo_bytes _ m Ha) as (Hs & _ & Hd). split; [exact Hs|exact Hd].
  - exfalso. apply (f_equal (λ r, match r with Ok (Some _) => true | _ => false end)) in Ha.
    vm_compute in Ha. discriminate.
  - exfalso. apply (f_equal is_ok) in Ha. vm_compute in Ha. discriminate.
Defined.

Lemma encode_then_read_witness :
  ∃ enc, demo_encoded = Ok enc ∧
    read_metadata_from_bytes (es_bytes enc) = Ok (Some (es_meta enc)) ∧
    verify_body_checksum (es_bytes enc) = Ok (es_sha256 enc) ∧
    admit_payload (es_bytes enc) (es_sha256 enc) = Ok (Some (es_meta enc)) ∧
    sm_offsets (es_meta enc) = demo_offsets.
Proof.
  destruct demo_encoded_ok as (enc & He & Hb). exists enc. split; [exact He|].
  apply (encode_then_read ∅ demo_blobs 1000000000 demo_offsets demo_batches enc demo_encodable He).
  rewrite Hb. exact demo_len.
Defined.

(** The only entry is that of partition [a]; the empty partition [b] has none. *)
Lemma encode_payloads_located_witness :
  ∃ enc e, demo_encoded = Ok enc ∧ e ∈ sm_index (es_meta enc) ∧ ie_key e = demo_key (str "a").
Proof.
  destruct demo_encoded_ok as (enc & He & Hb).
  destruct (encode_payloads_located ∅ demo_blobs 1000000000 demo_offsets demo_batches enc
    demo_encodable He) as [Hl _].
  - rewrite Hb. exact demo_len.
  - destruct (Hl (demo_key (str "a")) (ArrowPayload [str "row"])) as (e & Hin & Hk).
    + unfold demo_batches. apply lookup_insert_eq.
    + reflexivity.
    + exists enc, e. split; [exact He|]. split; [exact Hin|exact Hk].
Defined.

(** Both orders of the two entries. *)
Lemma encode_order_independent_witness :
  (encode_writer ∅ demo_blobs 1000000000 demo_offsets (reverse (map_to_list demo_batches))
    (cursor_new [])).1 = demo_encoded.
Proof.
  apply (encode_order_independent ∅ demo_blobs 1000000000 demo_offsets demo_batches).
  apply reverse_Permutation.
Defined.

Lemma sidecar_scans_agree_witness :
  ∃ m, read_metadata_from_bytes demo_bytes = Ok (Some m) ∧
    (read_part_meta_blobs_from_reader (S (length demo_bytes)) (cursor_new demo_bytes)).1
    = Ok (Some (indexed_sidecars demo_bytes m)).
Proof.
  destruct demo_read as (m & Hm & _). exists m. split; [exact Hm|].
  apply (sidecar_scans_agree demo_bytes m demo_len Hm).
Defined.
