(* ===== verification/Arrow.v ===== *)
(** * Arrow: the columnar library the query runtime links against

    [arrow] is not part of this repository: arrays, the [take] kernel, the row converter
    and the validating constructors of record batches are parameters of the model.
    [Arrow] is what the code relies on of them: a record batch that [RecordBatch::try_new]
    accepts has one column of the declared type and of the common length per field;
    [take] picks rows; two rows of converters made for the same list of types are equal
    exactly when their values are (a converter is a function of its types).
    The lookups of a field or a column by its name are those of [Schema] and
    [RecordBatch]: the first match. *)

From S2P Require Import Prelude Bytes Text Codec.

Inductive DFErr : Type :=
| PlanErr (message : bytes)
| InternalErr (message : bytes)
| ExecutionErr (message : bytes)
| ArrowErr (message : bytes)
| ResourcesErr (message : bytes).

#[global] Instance DFErr_eq_dec : EqDecision DFErr.
Proof. solve_decision. Defined.

(** A field of a schema, over the library's data types. *)
Record Field {T : Type} : Type := {
  f_name : bytes;
  f_type : T;
  f_nullable : bool;
  f_metadata : list (bytes * bytes)
}.
Arguments Field : clear implicits.

#[global] Instance Field_eq_dec {T} `{EqDecision T} : EqDecision (Field T).
Proof. solve_decision. Defined.

(** A batch as its accessors show it: [schema()], [columns()] and [num_rows()]. *)
Record Batch {T A : Type} : Type := {
  b_schema : list (Field T);
  b_columns : list A;
  b_rows : nat
}.
Arguments Batch : clear implicits.

(** What a column of [n] rows must satisfy to stand under a field. *)
Definition column_fits {T A C} (ty : A → T) (len : A → nat) (cell : A → nat → option C)
    (n : nat) (f : Field T) (a : A) : Prop :=
  ty a = f_type f ∧ len a = n ∧ (f_nullable f = false → ∀ i, i < n → cell a i ≠ None).

Class Arrow : Type := {
  DataType : Type;
  datatype_eq_dec : EqDecision DataType;
  ArrayRef : Type;
  Cell : Type;
  cell_eq_dec : EqDecision Cell;
  (** [Array::data_type], [Array::len]; the value at a row, [None] where [is_null]. *)
  data_type : ArrayRef → DataType;
  array_len : ArrayRef → nat;
  cell : ArrayRef → nat → option Cell;
  (** The typed arrays of the sidecar columns: their type, their values after the
      downcast, and the array built from a vector of values. *)
  UInt8 : DataType; UInt32 : DataType; UInt64 : DataType; Binary : DataType;
  as_uint8 : ArrayRef → option (list N);
  as_uint32 : ArrayRef → option (list N);
  as_uint64 : ArrayRef → option (list N);
  as_binary : ArrayRef → option (list bytes);
  uint8_array : list N → ArrayRef;
  uint32_array : list N → ArrayRef;
  uint64_array : list N → ArrayRef;
  binary_array : list bytes → ArrayRef;
  (** [arrow::compute::take], [new_null_array], [RecordBatch::try_new] and
      [try_new_with_options] with a row count. *)
  take_kernel : ArrayRef → list N → result bytes ArrayRef;
  new_null_array : DataType → nat → ArrayRef;
  try_new : list (Field DataType) → list ArrayRef → result bytes (Batch DataType ArrayRef);
  try_new_rows : list (Field DataType) → list ArrayRef → nat →
    result bytes (Batch DataType ArrayRef);
  (** [RowConverter::new] and [RowConverter::convert_columns], rows by their bytes. *)
  RowConverter : Type;
  row_converter_new : list DataType → result bytes RowConverter;
  convert_columns : RowConverter → list ArrayRef → result bytes (list bytes);

  typed_len : ∀ a,
    (∀ l, as_uint8 a = Some l → length l = array_len a) ∧
    (∀ l, as_uint32 a = Some l → length l = array_len a) ∧
    (∀ l, as_uint64 a = Some l → length l = array_len a) ∧
    (∀ l, as_binary a = Some l → length l = array_len a);
  downcast_spec : ∀ a,
    (data_type a = UInt8 → is_Some (as_uint8 a)) ∧ (data_type a = UInt32 → is_Some (as_uint32 a)) ∧
    (data_type a = UInt64 → is_Some (as_uint64 a)) ∧ (data_type a = Binary → is_Some (as_binary a));
  uint8_array_spec : ∀ l, as_uint8 (uint8_array l) = Some l ∧ data_type (uint8_array l) = UInt8 ∧
    ∀ i, i < length l → cell (uint8_array l) i ≠ None;
  uint32_array_spec : ∀ l, as_uint32 (uint32_array l) = Some l ∧ data_type (uint32_array l) = UInt32 ∧
    ∀ i, i < length l → cell (uint32_array l) i ≠ None;
  uint64_array_spec : ∀ l, as_uint64 (uint64_array l) = Some l ∧ data_type (uint64_array l) = UInt64 ∧
    ∀ i, i < length l → cell (uint64_array l) i ≠ None;
  binary_array_spec : ∀ l, as_binary (binary_array l) = Some l ∧ data_type (binary_array l) = Binary ∧
    ∀ i, i < length l → cell (binary_array l) i ≠ None;
  take_spec : ∀ a idx, Forall (λ i, (N.to_nat i < array_len a)%nat) idx →
    ∃ a', take_kernel a idx = Ok a' ∧ data_type a' = data_type a ∧
      array_len a' = length idx ∧
      ∀ j i, idx !! j = Some i → cell a' j = cell a (N.to_nat i);
  null_array_spec : ∀ ty n, data_type (new_null_array ty n) = ty ∧
    array_len (new_null_array ty n) = n ∧ ∀ i, cell (new_null_array ty n) i = None;
  try_new_rows_Ok : ∀ schema cols n b, try_new_rows schema cols n = Ok b ↔
    Forall2 (column_fits data_type array_len cell n) schema cols ∧
    b = {| b_schema := schema; b_columns := cols; b_rows := n |};
  (** Without a row count the first column gives it: there must be one. *)
  try_new_Ok : ∀ schema cols b, try_new schema cols = Ok b ↔
    cols ≠ [] ∧ ∃ n, Forall2 (column_fits data_type array_len cell n) schema cols ∧
    b = {| b_schema := schema; b_columns := cols; b_rows := n |};
  convert_spec : ∀ tys conv cols n, row_converter_new tys = Ok conv →
    data_type <$> cols = tys → cols ≠ [] → (∀ c, c ∈ cols → array_len c = n) →
    ∃ rows, convert_columns conv cols = Ok rows ∧ length rows = n;
  convert_inj : ∀ conv cols1 rows1 cols2 rows2 i j r1 r2,
    convert_columns conv cols1 = Ok rows1 → convert_columns conv cols2 = Ok rows2 →
    rows1 !! i = Some r1 → rows2 !! j = Some r2 →
    (r1 = r2 ↔ (λ c, cell c i) <$> cols1 = (λ c, cell c j) <$> cols2)
}.

#[global] Existing Instance datatype_eq_dec.
#[global] Existing Instance cell_eq_dec.

Section Arrow.
Context {AR : Arrow}.

Notation RecordBatch := (Batch DataType ArrayRef).

(** [Array::is_null]. *)
Definition is_null (a : ArrayRef) (i : nat) : bool := bool_decide (cell a i = None).

(** [Schema::field_with_name] and [RecordBatch::column_by_name]. *)
Definition field_with_name (schema : list (Field DataType)) (n : bytes)
    : option (Field DataType) :=
  snd <$> list_find (λ f, f_name f = n) schema.

Definition column_by_name (b : RecordBatch) (n : bytes) : option ArrayRef :=
  '(i, _) ← list_find (λ f, f_name f = n) (b_schema b); b_columns b !! i.

(** The invariant of every batch the library hands out, and the values of a row. *)
Definition batch_wf (b : RecordBatch) : Prop :=
  Forall2 (column_fits data_type array_len cell (b_rows b)) (b_schema b) (b_columns b).

Definition row (b : RecordBatch) (i : nat) : list (option Cell) :=
  (λ c, cell c i) <$> b_columns b.

Definition batch_rows (b : RecordBatch) : list (list (option Cell)) :=
  row b <$> seq 0 (b_rows b).

(** The rows of a stream of batches. *)
Definition stream_rows (bs : list RecordBatch) : list (list (option Cell)) :=
  concat (batch_rows <$> bs).

(** A column found under a name has the declared type and the length of the batch. *)
Lemma column_by_name_wf b n c :
  batch_wf b → column_by_name b n = Some c →
  ∃ f, field_with_name (b_schema b) n = Some f ∧
    column_fits data_type array_len cell (b_rows b) f c ∧ c ∈ b_columns b.
Proof.
  intros Hwf. unfold column_by_name, field_with_name.
  destruct (list_find _ _) as [[i f]|] eqn:Hf; [|done]. simpl. intros Hc.
  apply list_find_Some in Hf as (Hi & _ & _). exists f. split_and!; [done| |].
  - eapply Forall2_lookup_lr; eauto.
  - by eapply list_elem_of_lookup_2.
Qed.

Lemma column_by_name_some b n f :
  batch_wf b → field_with_name (b_schema b) n = Some f →
  ∃ c, column_by_name b n = Some c.
Proof.
  intros Hwf. unfold column_by_name, field_with_name.
  destruct (list_find _ _) as [[i f']|] eqn:Hf; [|done]. intros _. simpl.
  apply list_find_Some in Hf as (Hi & _ & _).
  destruct (Forall2_lookup_l _ _ _ _ _ Hwf Hi) as (c & Hc & _). eauto.
Qed.

(** Batches of one schema find a name in the same column. *)
Lemma column_by_name_index b b' n i :
  b_schema b' = b_schema b →
  column_by_name b n = (b_columns b !! i) →
  fst <$> list_find (λ f, f_name f = n) (b_schema b) = Some i →
  column_by_name b' n = b_columns b' !! i.
Proof.
  unfold column_by_name. intros -> _. destruct (list_find _ _) as [[k f]|]; [|done].
  simpl. by intros [= ->].
Qed.

Lemma length_batch_rows b : length (batch_rows b) = b_rows b.
Proof. unfold batch_rows. by rewrite length_fmap, length_seq. Qed.

Lemma batch_rows_lookup b i : i < b_rows b → batch_rows b !! i = Some (row b i).
Proof.
  intros Hi. unfold batch_rows. rewrite list_lookup_fmap, lookup_seq_lt by done. done.
Qed.

Lemma stream_rows_app bs bs' : stream_rows (bs ++ bs') = stream_rows bs ++ stream_rows bs'.
Proof. unfold stream_rows. by rewrite fmap_app, concat_app. Qed.
End Arrow.

Notation RecordBatch := (Batch DataType ArrayRef).

(** ** A concrete instance

    Arrays as a type tag and a list of nullable values: the laws of [Arrow] can hold,
    and statements about batches can be evaluated. *)

Module ToyArrow.

Inductive Ty : Type := TU8 | TU32 | TU64 | TBin | TText | TLong.

#[global] Instance Ty_eq_dec : EqDecision Ty.
Proof. solve_decision. Defined.

Notation Val := (N + bytes)%type.

Record Arr : Type := { arr_ty : Ty; arr_cells : list (option Val) }.

Definition arr_len (a : Arr) : nat := length (arr_cells a).
Definition arr_cell (a : Arr) (i : nat) : option Val := mjoin (arr_cells a !! i).

Definition num (o : option Val) : N := match o with Some (inl n) => n | _ => 0%N end.
Definition raw (o : option Val) : bytes := match o with Some (inr s) => s | _ => [] end.

Definition nums (t : Ty) (a : Arr) : option (list N) :=
  if decide (arr_ty a = t) then Some (num <$> arr_cells a) else None.
Definition raws (a : Arr) : option (list bytes) :=
  if decide (arr_ty a = TBin) then Some (raw <$> arr_cells a) else None.
Definition of_nums (t : Ty) (l : list N) : Arr :=
  {| arr_ty := t; arr_cells := (λ n, Some (inl n)) <$> l |}.
Definition of_raws (l : list bytes) : Arr :=
  {| arr_ty := TBin; arr_cells := (λ s, Some (inr s)) <$> l |}.

Definition take_arr (a : Arr) (idx : list N) : result bytes Arr :=
  if forallb (λ i, N.to_nat i <? arr_len a) idx
  then Ok {| arr_ty := arr_ty a; arr_cells := (λ i, arr_cell a (N.to_nat i)) <$> idx |}
  else Err (str "take index out of bounds").

Definition null_arr (t : Ty) (n : nat) : Arr :=
  {| arr_ty := t; arr_cells := replicate n None |}.

Definition fits_b (n : nat) (f : Field Ty) (a : Arr) : bool :=
  bool_decide (arr_ty a = f_type f) && (arr_len a =? n) &&
  (f_nullable f || forallb (λ o, negb (bool_decide (o = None))) (arr_cells a)).

Fixpoint all_fit (n : nat) (fs : list (Field Ty)) (l : list Arr) : bool :=
  match fs, l with
  | [], [] => true
  | f :: fs', a :: l' => fits_b n f a && all_fit n fs' l'
  | _, _ => false
  end.

Definition new_rows (fs : list (Field Ty)) (l : list Arr) (n : nat) : result bytes (Batch Ty Arr) :=
  if all_fit n fs l then Ok {| b_schema := fs; b_columns := l; b_rows := n |}
  else Err (str "columns do not match schema").

Definition new (fs : list (Field Ty)) (l : list Arr) : result bytes (Batch Ty Arr) :=
  match l with
  | [] => Err (str "must either specify a row count or at least one column")
  | a :: _ => new_rows fs l (arr_len a)
  end.

Definition enc_row (l : list Arr) (i : nat) : bytes :=
  pos_bytes (encode ((λ c, arr_cell c i) <$> l)).

Definition convert (_ : unit) (l : list Arr) : result bytes (list bytes) :=
  match l with
  | [] => Err (str "no columns")
  | a :: _ => if forallb (λ c, arr_len c =? arr_len a) l
              then Ok (enc_row l <$> seq 0 (arr_len a))
              else Err (str "length mismatch")
  end.

Notation fits := (column_fits arr_ty arr_len arr_cell).

Lemma fits_b_spec n f a : fits_b n f a = true ↔ fits n f a.
Proof.
  unfold fits_b, column_fits. rewrite !andb_true_iff, orb_true_iff, bool_decide_eq_true, Nat.eqb_eq,
    forallb_forall.
  assert ((∀ x, In x (arr_cells a) → negb (bool_decide (x = None)) = true) ↔
          (∀ i, i < arr_len a → arr_cell a i ≠ None)) as ->.
  { split.
    - intros H i [x Hx]%lookup_lt_is_Some. unfold arr_cell. rewrite Hx. simpl.
      specialize (H x). rewrite negb_true_iff, bool_decide_eq_false in H.
      intros ->. apply H; [|done]. rewrite <- list_elem_of_In. by eapply list_elem_of_lookup_2.
    - intros H x [i Hi]%list_elem_of_In%list_elem_of_lookup. rewrite negb_true_iff, bool_decide_eq_false.
      specialize (H i). unfold arr_cell in H. rewrite Hi in H. simpl in H.
      apply H. by eapply lookup_lt_Some. }
  destruct (f_nullable f); naive_solver.
Qed.

Lemma all_fit_spec n fs l : all_fit n fs l = true ↔ Forall2 (fits n) fs l.
Proof.
  revert l; induction fs as [|f fs IH]; intros [|a l]; simpl.
  - split; [constructor|done].
  - split; [done|by inversion 1].
  - split; [done|by inversion 1].
  - rewrite andb_true_iff, fits_b_spec, IH. split; [intros []; by constructor|by inversion 1].
Qed.

Lemma pos_bytes_inj p q : pos_bytes p = pos_bytes q → p = q.
Proof. intros H%(f_equal bytes_pos). by rewrite !bytes_pos_bytes in H. Qed.

Lemma enc_row_inj l1 l2 i j :
  enc_row l1 i = enc_row l2 j ↔ (λ c, arr_cell c i) <$> l1 = (λ c, arr_cell c j) <$> l2.
Proof.
  unfold enc_row. split; [by intros ?%pos_bytes_inj%encode_inj|by intros ->].
Qed.

Lemma nums_of_nums t l : nums t (of_nums t l) = Some l ∧ arr_ty (of_nums t l) = t ∧
  ∀ i, i < length l → arr_cell (of_nums t l) i ≠ None.
Proof.
  unfold nums, of_nums, arr_cell; simpl. rewrite decide_True by done. split_and!; [|done|].
  - f_equal. rewrite <- list_fmap_compose. by apply list_fmap_id.
  - intros i [x Hx]%lookup_lt_is_Some. by rewrite list_lookup_fmap, Hx.
Qed.

Lemma new_rows_Ok fs l n b :
  new_rows fs l n = Ok b ↔
  Forall2 (fits n) fs l ∧ b = {| b_schema := fs; b_columns := l; b_rows := n |}.
Proof.
  unfold new_rows. rewrite <- all_fit_spec. destruct (all_fit n fs l); naive_solver.
Qed.

Lemma new_Ok fs l b :
  new fs l = Ok b ↔
  l ≠ [] ∧ ∃ n, Forall2 (fits n) fs l ∧ b = {| b_schema := fs; b_columns := l; b_rows := n |}.
Proof.
  unfold new. destruct l as [|a l]; [naive_solver|]. rewrite new_rows_Ok. split.
  - intros [? ->]. eauto.
  - intros (_ & n & H & ->). inversion H as [|???? (_ & <- & _)]; subst. done.
Qed.

Lemma take_arr_spec a idx :
  Forall (λ i, N.to_nat i < arr_len a) idx →
  ∃ a', take_arr a idx = Ok a' ∧ arr_ty a' = arr_ty a ∧ arr_len a' = length idx ∧
    ∀ j i, idx !! j = Some i → arr_cell a' j = arr_cell a (N.to_nat i).
Proof.
  intros H. unfold take_arr.
  assert (forallb (λ i, N.to_nat i <? arr_len a) idx = true) as ->.
  { apply forallb_forall. intros x Hx%list_elem_of_In. apply Nat.ltb_lt.
    rewrite Forall_forall in H. by apply H. }
  eexists; split_and!; [done|done| |].
  - unfold arr_len; simpl. by rewrite length_fmap.
  - intros j i Hj. unfold arr_cell at 1; simpl. by rewrite list_lookup_fmap, Hj.
Qed.

Lemma convert_ok l n :
  l ≠ [] → (∀ c, c ∈ l → arr_len c = n) →
  convert tt l = Ok (enc_row l <$> seq 0 n).
Proof.
  intros Hl Hn. destruct l as [|a l]; [done|]. simpl. rewrite (Hn a) by (by left).
  rewrite Nat.eqb_refl. simpl. rewrite (proj2 (forallb_forall _ _)); [done|].
  intros c Hc%list_elem_of_In. apply Nat.eqb_eq. apply Hn. by right.
Qed.

Lemma convert_row u l rows i r :
  convert u l = Ok rows → rows !! i = Some r → r = enc_row l i.
Proof.
  destruct l as [|a l]; [done|]. unfold convert. destruct (forallb _ _); [|done].
  intros [= <-]. rewrite list_lookup_fmap. destruct (seq _ _ !! i) as [k|] eqn:Hk; [|done].
  intros [= <-]. by apply lookup_seq in Hk as [-> _].
Qed.

Program Definition arrow : Arrow := {|
  DataType := Ty; ArrayRef := Arr; Cell := Val;
  data_type := arr_ty; array_len := arr_len; cell := arr_cell;
  UInt8 := TU8; UInt32 := TU32; UInt64 := TU64; Binary := TBin;
  as_uint8 := nums TU8; as_uint32 := nums TU32; as_uint64 := nums TU64; as_binary := raws;
  uint8_array := of_nums TU8; uint32_array := of_nums TU32; uint64_array := of_nums TU64;
  binary_array := of_raws;
  take_kernel := take_arr; new_null_array := null_arr;
  try_new := new; try_new_rows := new_rows;
  RowConverter := unit; row_converter_new := λ _, Ok tt; convert_columns := convert
|}.
Next Obligation.
  intros a. unfold nums, raws, arr_len. split_and!; intros l; case_decide; intros [= <-];
    by rewrite length_fmap.
Qed.
Next Obligation.
  intros a. unfold nums, raws. split_and!; intros H; rewrite decide_True by done; eauto.
Qed.
Next Obligation. apply (nums_of_nums TU8). Qed.
Next Obligation. apply (nums_of_nums TU32). Qed.
Next Obligation. apply (nums_of_nums TU64). Qed.
Next Obligation.
  intros l. unfold raws, of_raws, arr_cell; simpl. split_and!; [|done|].
  - f_equal. rewrite <- list_fmap_compose. by apply list_fmap_id.
  - intros i [x Hx]%lookup_lt_is_Some. by rewrite list_lookup_fmap, Hx.
Qed.
Next Obligation. apply take_arr_spec. Qed.
Next Obligation.
  intros ty n. unfold arr_len, arr_cell; simpl. split_and!; [done|by rewrite length_replicate|].
  intros i. destruct (replicate n None !! i) as [x|] eqn:E; [|done]. simpl.
  by apply lookup_replicate in E as [-> _].
Qed.
Next Obligation. apply new_rows_Ok. Qed.
Next Obligation. apply new_Ok. Qed.
Next Obligation.
  intros tys [] cols n _ _ Hc Hn. rewrite (convert_ok _ n) by done. eexists; split; [done|].
  by rewrite length_fmap, length_seq.
Qed.
Next Obligation.
  intros conv c1 rs1 c2 rs2 i j r1 r2 H1 H2 Hi Hj. simpl.
  rewrite (convert_row _ _ _ _ _ H1 Hi), (convert_row _ _ _ _ _ H2 Hj). apply enc_row_inj.
Qed.

End ToyArrow.
