(* ===== verification/CdcReconcile.v ===== *)
(** * CdcReconcile: collapse of the uncompacted WAL onto a pinned lake snapshot

    Models src/sqlrt/cdc_reconcile.rs and the projection of src/sqlrt/wal_table.rs it ends
    with.  A WAL batch carries the user's columns and a sidecar of five columns (mutation
    code, order token, segment sequence, ordinal, row).  [collapse_wal_batches] keeps, per
    business key, the row with the greatest (order token, sequence, ordinal, row), drops
    keys whose last mutation is a delete, and keeps every append row; [anti_join_lake]
    removes the lake rows of the changed keys; [execute] is their union, projected onto the
    user's schema.  The specification is sequential: the mutations applied to the lake one
    at a time, from the oldest to the newest. *)

From S2P Require Import Prelude Bytes Text Codec Cdc Arrow.

Definition CDC_MUTATION_COL : bytes := str "_skippr_cdc_mutation".
Definition CDC_ORDER_COL : bytes := str "_skippr_cdc_order".
Definition CDC_SEQ_COL : bytes := str "_skippr_cdc_seq".
Definition CDC_ORD_COL : bytes := str "_skippr_cdc_ord".
Definition CDC_ROW_COL : bytes := str "_skippr_cdc_row".

Definition MUT_NONE : N := 0.
Definition MUT_SNAPSHOT : N := 1.
Definition MUT_INSERT : N := 2.
Definition MUT_UPDATE : N := 3.
Definition MUT_DELETE : N := 4.

Definition mutation_to_u8 (kind : MutationKind) : N :=
  match kind with
  | Snapshot => MUT_SNAPSHOT
  | Insert => MUT_INSERT
  | Update => MUT_UPDATE
  | Delete => MUT_DELETE
  end.

Definition decode_mutation (code : N) : result DFErr (option MutationKind) :=
  if (code =? MUT_NONE)%N then Ok None
  else if (code =? MUT_SNAPSHOT)%N then Ok (Some Snapshot)
  else if (code =? MUT_INSERT)%N then Ok (Some Insert)
  else if (code =? MUT_UPDATE)%N then Ok (Some Update)
  else if (code =? MUT_DELETE)%N then Ok (Some Delete)
  else Err (InternalErr (str "unknown CDC mutation code " ++ display_N code)).

Definition is_cdc_sidecar_field (name : bytes) : bool :=
  bool_decide (name ∈ [CDC_MUTATION_COL; CDC_ORDER_COL; CDC_SEQ_COL; CDC_ORD_COL; CDC_ROW_COL]).

Inductive NullKey : Type := NkReject | NkPassThrough.

(** The order of [TieBreak] is derived: fields from the first to the last. *)
Record TieBreak : Type := {
  tie_order_token : bytes;
  tie_seq : N;
  tie_ordinal : N;
  tie_row : N
}.

#[global] Instance TieBreak_eq_dec : EqDecision TieBreak.
Proof. solve_decision. Defined.

Definition tie_leb (x y : TieBreak) : bool :=
  if negb (bytes_leb (tie_order_token y) (tie_order_token x)) then true
  else if negb (bytes_leb (tie_order_token x) (tie_order_token y)) then false
  else if (tie_seq x <? tie_seq y)%N then true
  else if (tie_seq y <? tie_seq x)%N then false
  else if (tie_ordinal x <? tie_ordinal y)%N then true
  else if (tie_ordinal y <? tie_ordinal x)%N then false
  else (tie_row x <=? tie_row y)%N.

Record Winner : Type := {
  w_tie : TieBreak;
  w_mutation : MutationKind;
  w_batch_idx : nat;
  w_row : nat
}.

(** Lexicographic order of row positions [(batch, row)], as [sort_unstable] compares them. *)
Definition pos_le (p q : nat * nat) : Prop :=
  p.1 < q.1 ∨ (p.1 = q.1 ∧ p.2 ≤ q.2).

#[global] Instance pos_le_dec : RelDecision pos_le.
Proof. intros p q. unfold pos_le. apply _. Defined.

(** [BTreeMap::entry(k).or_default().push(v)], the map in key order. *)
Fixpoint entry_push (k : nat) (v : N) (m : list (nat * list N)) : list (nat * list N) :=
  match m with
  | [] => [(k, [v])]
  | (k', vs) :: m' =>
      if k <? k' then (k, [v]) :: m
      else if k =? k' then (k', vs ++ [v]) :: m'
      else (k', vs) :: entry_push k v m'
  end.

(** [lo..hi] over [u64], and the wrapping sum of its upper end. *)
Definition u64_range (lo hi : N) : list N :=
  (λ i, (lo + N.of_nat i)%N) <$> seq 0 (N.to_nat (hi - lo)).
Definition wrapping_add_u64 (x y : N) : N := ((x + y) mod (U64_MAX + 1))%N.

Section Reconcile.
Context {AR : Arrow}.

Notation Schema := (list (Field DataType)).

Definition cdc_sidecar_fields : Schema :=
  (λ '(n, t), {| f_name := n; f_type := t; f_nullable := false; f_metadata := [] |}) <$>
    [(CDC_MUTATION_COL, UInt8); (CDC_ORDER_COL, Binary); (CDC_SEQ_COL, UInt64);
     (CDC_ORD_COL, UInt32); (CDC_ROW_COL, UInt64)].

Definition cdc_sidecar_schema (user : Schema) : Schema := user ++ cdc_sidecar_fields.

(** ** Business keys *)

Record KeyEncoder : Type := { ke_converter : RowConverter; ke_columns : list bytes }.

Definition missing_key (c : bytes) : DFErr :=
  PlanErr (str "CDC business key column '" ++ c ++ str "' is missing").

Definition key_encoder_new (schema : Schema) (columns : list bytes) : result DFErr KeyEncoder :=
  let? fields := rtraverse (λ c, rmap f_type (ok_or (missing_key c) (field_with_name schema c)))
                           columns in
  let? converter := map_err ArrowErr (row_converter_new fields) in
  Ok {| ke_converter := converter; ke_columns := columns |}.

Definition null_business_key : DFErr := ExecutionErr (str "CDC WAL row has a null business key").

Definition key_encode (ke : KeyEncoder) (b : RecordBatch) (nulls : NullKey)
    : result DFErr (list (option bytes)) :=
  let? cols := rtraverse (λ c, ok_or (missing_key c) (column_by_name b c)) (ke_columns ke) in
  let? rows := map_err ArrowErr (convert_columns (ke_converter ke) cols) in
  rtraverse (λ i, match existsb (λ c, is_null c i) cols, nulls with
                  | true, NkReject => Err null_business_key
                  | true, NkPassThrough => Ok None
                  | false, _ => Ok (rows !! i)
                  end) (seq 0 (b_rows b)).

(** The encoder is made from the first batch and reused. *)
Definition encoder_for (encoder : option KeyEncoder) (b : RecordBatch) (columns : list bytes)
    : result DFErr KeyEncoder :=
  match encoder with
  | Some enc => Ok enc
  | None => key_encoder_new (b_schema b) columns
  end.

(** ** Rows picked from batches *)

Definition take_batch (schema : Schema) (batch : RecordBatch) (idx : list N)
    : result DFErr RecordBatch :=
  let? cols := rtraverse (λ col, map_err ArrowErr (take_kernel col idx)) (b_columns batch) in
  map_err ArrowErr (try_new schema cols).

Definition index_panic : DFErr := InternalErr (str "index out of bounds").

Definition take_rows (batches : list RecordBatch) (keep : list (nat * nat))
    : result DFErr (list RecordBatch) :=
  match keep, batches with
  | [], _ | _, [] => Ok []
  | _, b0 :: _ =>
      let grouped := foldl (λ g '(batch_idx, r), entry_push batch_idx (N.of_nat r mod (U32_MAX + 1))%N g)
                           [] keep in
      rtraverse (λ '(batch_idx, idx),
        let? batch := ok_or index_panic (batches !! batch_idx) in
        take_batch (b_schema b0) batch idx) grouped
  end.

(** ** The sidecar columns of a batch *)

Record Sidecar : Type := {
  sc_mutation : list N;
  sc_order : list bytes;
  sc_seq : list N;
  sc_ord : list N;
  sc_row : list N
}.

Definition typed_col {V} (downcast : ArrayRef → option (list V)) (b : RecordBatch) (name : bytes)
    : result DFErr (list V) :=
  ok_or (InternalErr (str "missing CDC column " ++ name)) (column_by_name b name ≫= downcast).

Definition uint8_col := typed_col as_uint8.
Definition binary_col := typed_col as_binary.
Definition uint64_col := typed_col as_uint64.
Definition uint32_col := typed_col as_uint32.

Definition read_cdc_columns (b : RecordBatch) : result DFErr Sidecar :=
  let? mutation := uint8_col b CDC_MUTATION_COL in
  let? order := binary_col b CDC_ORDER_COL in
  let? seq := uint64_col b CDC_SEQ_COL in
  let? ord := uint32_col b CDC_ORD_COL in
  let? row_idx := uint64_col b CDC_ROW_COL in
  Ok {| sc_mutation := mutation; sc_order := order; sc_seq := seq; sc_ord := ord;
        sc_row := row_idx |}.

(** [array.value(row)]: the columns of a batch have its length, so a row is in range. *)
Definition value {V} (d : V) (l : list V) (i : nat) : V := default d (l !! i).

Definition tie_at (sc : Sidecar) (i : nat) : TieBreak := {|
  tie_order_token := value [] (sc_order sc) i;
  tie_seq := value 0%N (sc_seq sc) i;
  tie_ordinal := value 0%N (sc_ord sc) i;
  tie_row := value 0%N (sc_row sc) i
|}.

(** ** Collapse *)

Record CollapseResult : Type := {
  changed_keys : gset bytes;
  survivor_batches : list RecordBatch
}.

Record Collapse : Type := {
  winners : gmap bytes Winner;
  append_rows : list (nat * nat);
  encoder : option KeyEncoder
}.

Definition contend (ws : gmap bytes Winner) (key : bytes) (candidate : Winner)
    : gmap bytes Winner :=
  match ws !! key with
  | Some existing => if tie_leb (w_tie candidate) (w_tie existing) then ws
                     else <[key := candidate]> ws
  | None => <[key := candidate]> ws
  end.

Definition collapse_row (batch_idx : nat) (sc : Sidecar) (keys : list (option bytes))
    (s : Collapse) (i : nat) : result DFErr Collapse :=
  let? m := decode_mutation (value 0%N (sc_mutation sc) i) in
  match m with
  | None => Ok {| winners := winners s; append_rows := append_rows s ++ [(batch_idx, i)];
                  encoder := encoder s |}
  | Some kind =>
      match value None keys i with
      | None => Err null_business_key
      | Some key =>
          let candidate := {| w_tie := tie_at sc i; w_mutation := kind;
                              w_batch_idx := batch_idx; w_row := i |} in
          Ok {| winners := contend (winners s) key candidate;
                append_rows := append_rows s; encoder := encoder s |}
      end
  end.

Definition collapse_batch (columns : list bytes) (s : Collapse) (ib : nat * RecordBatch)
    : result DFErr Collapse :=
  let '(batch_idx, batch) := ib in
  let? sc := read_cdc_columns batch in
  let? enc := encoder_for (encoder s) batch columns in
  let? keys := key_encode enc batch NkReject in
  rfold (collapse_row batch_idx sc keys)
    {| winners := winners s; append_rows := append_rows s; encoder := Some enc |}
    (seq 0 (b_rows batch)).

Definition survivor (w : Winner) : option (nat * nat) :=
  match w_mutation w with
  | Snapshot | Insert | Update => Some (w_batch_idx w, w_row w)
  | Delete => None
  end.

Definition collapse_wal_batches (batches : list RecordBatch) (business_key_columns : list bytes)
    : result DFErr CollapseResult :=
  match business_key_columns with
  | [] => Err (PlanErr (str "collapse_wal_batches requires business_key_columns"))
  | _ =>
      let? s := rfold (collapse_batch business_key_columns)
                  {| winners := ∅; append_rows := []; encoder := None |}
                  (imap pair batches) in
      let keep := append_rows s ++ omap (λ kw, survivor kw.2) (map_to_list (winners s)) in
      let? kept := take_rows batches (merge_sort pos_le keep) in
      Ok {| changed_keys := dom (winners s); survivor_batches := kept |}
  end.

(** ** Anti-join of the lake *)

Definition lake_keeps (changed : gset bytes) (key : option bytes) : bool :=
  match key with
  | Some key => negb (bool_decide (key ∈ changed))
  | None => true
  end.

Definition anti_join_batch (changed : gset bytes) (columns : list bytes)
    (s : option KeyEncoder * list RecordBatch) (batch : RecordBatch)
    : result DFErr (option KeyEncoder * list RecordBatch) :=
  let? enc := encoder_for s.1 batch columns in
  let? keys := key_encode enc batch NkPassThrough in
  let keep := filter (λ i, lake_keeps changed (value None keys i) = true)
                     (seq 0 (b_rows batch)) in
  if length keep =? b_rows batch then Ok (Some enc, s.2 ++ [batch])
  else match keep with
       | [] => Ok (Some enc, s.2)
       | _ => let? kept := take_rows [batch] (pair 0 <$> keep) in
              Ok (Some enc, s.2 ++ kept)
       end.

Definition anti_join_lake (lake : list RecordBatch) (changed : gset bytes)
    (business_key_columns : list bytes) : result DFErr (list RecordBatch) :=
  match business_key_columns with
  | [] => Err (PlanErr (str "anti_join_lake requires business_key_columns"))
  | _ =>
      if decide (changed = ∅) then Ok lake
      else rmap snd (rfold (anti_join_batch changed business_key_columns) (None, []) lake)
  end.

(** ** Sidecars attached to decoded WAL parts *)

Definition append_sidecar_none (seq ordinal row_base : N) (rows : nat) : list ArrayRef :=
  [ uint8_array (replicate rows MUT_NONE);
    binary_array (replicate rows []);
    uint64_array (replicate rows seq);
    uint32_array (replicate rows ordinal);
    uint64_array (u64_range row_base (wrapping_add_u64 row_base (N.of_nat rows))) ].

Definition attach_cdc_sidecar (batch : RecordBatch) (mutations : list MutationKind)
    (order_tokens : list bytes) (seq ordinal row_base : N) : result DFErr RecordBatch :=
  let rows := b_rows batch in
  if negb (length mutations =? rows) || negb (length order_tokens =? rows)
  then Err (InternalErr (str "CDC sidecar row count does not match Arrow batch"))
  else
    let cols := b_columns batch ++
      [ uint8_array (mutation_to_u8 <$> mutations);
        binary_array order_tokens;
        uint64_array (replicate rows seq);
        uint32_array (replicate rows ordinal);
        uint64_array (u64_range row_base (wrapping_add_u64 row_base (N.of_nat rows))) ] in
    map_err ArrowErr (try_new (cdc_sidecar_schema (b_schema batch)) cols).

Definition attach_append_sidecar (batch : RecordBatch) (seq ordinal row_base : N)
    : result DFErr RecordBatch :=
  let cols := b_columns batch ++ append_sidecar_none seq ordinal row_base (b_rows batch) in
  map_err ArrowErr (try_new (cdc_sidecar_schema (b_schema batch)) cols).

(** ** Projection onto the user's schema *)

Fixpoint metadata_get (k : bytes) (l : list (bytes * bytes)) : option bytes :=
  match l with
  | [] => None
  | (k', v) :: l' => if decide (k' = k) then Some v else metadata_get k l'
  end.

Definition field_id (f : Field DataType) : option bytes :=
  match metadata_get (str "PARQUET:field_id") (f_metadata f) with
  | Some v => Some v
  | None => metadata_get (str "iceberg.field-id") (f_metadata f)
  end.

Definition field_id_or_name (src target : Field DataType) : bool :=
  if decide (f_name src = f_name target) then true
  else match field_id src, field_id target with
       | Some a, Some b => bool_decide (a = b)
       | _, _ => false
       end.

Definition project_column (batch : RecordBatch) (f : Field DataType) : ArrayRef :=
  match list_find (λ src, field_id_or_name src f = true) (b_schema batch) with
  | Some (idx, _) => default (new_null_array (f_type f) (b_rows batch)) (b_columns batch !! idx)
  | None => new_null_array (f_type f) (b_rows batch)
  end.

Definition project_batch (batch : RecordBatch) (schema : Schema) : result DFErr RecordBatch :=
  map_err ArrowErr (try_new_rows schema (project_column batch <$> schema) (b_rows batch)).

(** ** The serving-node operator

    A child plan is its schema, its partition count and the items each partition
    streams; [CoalescePartitionsExec], the memory pool and the size of a batch are
    DataFusion's and Arrow's. *)

Record Plan : Type := {
  plan_schema : Schema;
  partition_count : nat;
  plan_execute : nat → result DFErr (list (result DFErr RecordBatch))
}.

Record CdcReconcileExec : Type := {
  cr_schema : Schema;
  cr_iceberg : Plan;
  cr_wal : Plan;
  cr_business_key_columns : list bytes
}.

Class DataFusion : Type := {
  coalesce_partitions : Plan → Plan;
  MemoryPool : Type;
  try_grow : MemoryPool → N → result DFErr MemoryPool;
  array_memory_size : RecordBatch → N;
  (** A schema written and read as an Arrow IPC stream without batches. *)
  ipc_write : Schema → result bytes bytes;
  ipc_read : bytes → result bytes Schema;
  coalesce_schema : ∀ p, plan_schema (coalesce_partitions p) = plan_schema p;
  coalesce_count : ∀ p, partition_count (coalesce_partitions p) = 1;
  ipc_roundtrip : ∀ s bs, ipc_write s = Ok bs → ipc_read bs = Ok s
}.

Context {DF : DataFusion}.

Definition schema_to_ipc (schema : Schema) : result DFErr bytes :=
  map_err InternalErr (ipc_write schema).

Definition schema_from_ipc (bs : bytes) : result DFErr Schema :=
  map_err InternalErr (ipc_read bs).

Definition coalesce_single (plan : Plan) : Plan :=
  if partition_count plan <=? 1 then plan else coalesce_partitions plan.

Definition cdc_reconcile_try_new (iceberg wal : Plan) (business_key_columns : list bytes)
    (schema : Schema) : result DFErr CdcReconcileExec :=
  if decide (business_key_columns = [])
  then Err (PlanErr (str "CdcReconcileExec requires business_key_columns"))
  else if negb (bool_decide (plan_schema iceberg = schema))
  then Err (PlanErr (str "CdcReconcileExec lake child schema must equal the user schema"))
  else if negb (bool_decide (plan_schema wal = cdc_sidecar_schema schema))
  then Err (PlanErr (str "CdcReconcileExec WAL child schema must equal cdc_sidecar_schema(user)"))
  else Ok {| cr_schema := schema; cr_iceberg := coalesce_single iceberg;
             cr_wal := coalesce_single wal;
             cr_business_key_columns := business_key_columns |}.

(** [bincode] of [CdcReconcileNode { arrow_schema_ipc, business_key_columns }]. *)
Context {NC : Codec (bytes * list bytes)}.

Definition encode_bytes (e : CdcReconcileExec) : result DFErr bytes :=
  let? ipc := schema_to_ipc (cr_schema e) in
  map_err (λ err, InternalErr (str "encode CdcReconcileExec: " ++ err))
    (serialize (ipc, cr_business_key_columns e)).

Definition from_bytes (buf : bytes) (children : list Plan) : result DFErr CdcReconcileExec :=
  match children with
  | [iceberg; wal] =>
      let? node := map_err (λ err, InternalErr (str "decode CdcReconcileExec: " ++ err))
                     (deserialize buf) in
      let? schema := schema_from_ipc node.1 in
      cdc_reconcile_try_new iceberg wal node.2 schema
  | _ => Err (InternalErr (str "CdcReconcileExec expects iceberg and WAL children"))
  end.

Definition with_new_children (e : CdcReconcileExec) (children : list Plan)
    : result DFErr CdcReconcileExec :=
  match children with
  | [iceberg; wal] =>
      cdc_reconcile_try_new iceberg wal (cr_business_key_columns e) (cr_schema e)
  | _ => Err (InternalErr (str "CdcReconcileExec expects two children"))
  end.

(** [try_collect]: the batches of a stream up to its first error. *)
Definition try_collect (items : list (result DFErr RecordBatch)) : result DFErr (list RecordBatch) :=
  rtraverse id items.

Definition reserve (pool : MemoryPool) (batches : list RecordBatch) : result DFErr MemoryPool :=
  rfold (λ p b, try_grow p (array_memory_size b)) pool batches.

Definition project_all (schema : Schema) (batches : list RecordBatch)
    : result DFErr (list RecordBatch) :=
  let? projected := rtraverse (λ b, project_batch b schema) batches in
  Ok (filter (λ b, 0 < b_rows b ∨ schema = []) projected).

Definition reconcile (e : CdcReconcileExec) (pool : MemoryPool)
    (wal iceberg : list (result DFErr RecordBatch)) : result DFErr (list RecordBatch) :=
  let? wal_batches := try_collect wal in
  let? pool := reserve pool wal_batches in
  let? collapsed := collapse_wal_batches wal_batches (cr_business_key_columns e) in
  let? lake_batches := try_collect iceberg in
  let? _ := reserve pool lake_batches in
  let? lake_kept := anti_join_lake lake_batches (changed_keys collapsed)
                      (cr_business_key_columns e) in
  project_all (cr_schema e) (lake_kept ++ survivor_batches collapsed).

(** The stream: the batches of the merge, or its error as the only item. *)
Definition execute (e : CdcReconcileExec) (pool : MemoryPool)
    : result DFErr (list (result DFErr RecordBatch)) :=
  let? wal := plan_execute (cr_wal e) 0 in
  let? iceberg := plan_execute (cr_iceberg e) 0 in
  match reconcile e pool wal iceberg with
  | Ok batches => Ok (Ok <$> batches)
  | Err err => Ok [Err err]
  end.

End Reconcile.

(** ** Orders *)

Definition tie_le (x y : TieBreak) : Prop := tie_leb x y = true.
Definition tie_lt (x y : TieBreak) : Prop := tie_leb y x = false.

#[global] Instance tie_le_dec : RelDecision tie_le.
Proof. intros x y. unfold tie_le. apply _. Defined.
#[global] Instance tie_lt_dec : RelDecision tie_lt.
Proof. intros x y. unfold tie_lt. apply _. Defined.

Lemma lex3_iff (a a' b b' c c' : N) :
  (if (a <? a')%N then true else if (a' <? a)%N then false
   else if (b <? b')%N then true else if (b' <? b)%N then false
   else (c <=? c')%N) = true ↔
  ((a < a')%N ∨ (a = a' ∧ ((b < b')%N ∨ (b = b' ∧ (c ≤ c')%N)))).
Proof.
  destruct (N.ltb_spec a a'); [split; [by left|done]|].
  destruct (N.ltb_spec a' a); [split; [done|lia]|].
  destruct (N.ltb_spec b b'); [split; [lia|done]|].
  destruct (N.ltb_spec b' b); [split; [done|lia]|].
  rewrite N.leb_le. lia.
Qed.

(** [tie_leb] as a comparison of tokens, then of the three numbers. *)
Lemma tie_le_iff x y :
  tie_le x y ↔
  bytes_lt (tie_order_token x) (tie_order_token y) ∨
  (tie_order_token x = tie_order_token y ∧
   ((tie_seq x < tie_seq y)%N ∨ (tie_seq x = tie_seq y ∧
    ((tie_ordinal x < tie_ordinal y)%N ∨ (tie_ordinal x = tie_ordinal y ∧
     (tie_row x ≤ tie_row y)%N))))).
Proof.
  unfold tie_le, tie_leb, bytes_lt.
  destruct (bytes_leb (tie_order_token y) (tie_order_token x)) eqn:Eyx; cbn [negb];
    [|split; [by left|done]].
  destruct (bytes_leb (tie_order_token x) (tie_order_token y)) eqn:Exy; cbn [negb].
  - assert (tie_order_token x = tie_order_token y) as He by by apply (anti_symm bytes_le).
    rewrite lex3_iff. split; [by right|by intros [?|[_ ?]]].
  - split; [done|]. intros [?|[He _]]; [done|]. rewrite He in *. congruence.
Qed.

Lemma tie_le_refl x : tie_le x x.
Proof. apply tie_le_iff. right. split; [done|]. lia. Qed.

Lemma tie_le_trans x y z : tie_le x y → tie_le y z → tie_le x z.
Proof.
  rewrite !tie_le_iff. intros [H1|[H1 H1']] [H2|[H2 H2']].
  - left. apply bytes_lt_iff in H1 as [H1 _]. by eapply bytes_le_lt_trans.
  - left. by rewrite <- H2.
  - left. by rewrite H1.
  - right. split; [congruence|lia].
Qed.

Lemma tie_lt_iff x y : tie_lt x y ↔ tie_le x y ∧ ¬ tie_le y x.
Proof.
  unfold tie_lt. split.
  - intros H. split; [|unfold tie_le; congruence].
    assert (¬ tie_le y x) as Hn by (unfold tie_le; congruence). rewrite tie_le_iff in Hn |- *.
    destruct (decide (tie_order_token x = tie_order_token y)) as [He|Hne].
    + right. split; [done|]. apply dec_stable. intros Hc. apply Hn. right. split; [done|lia].
    + left. apply bytes_lt_iff. split; [|done]. apply bytes_not_lt. intros Hc. apply Hn. by left.
  - intros [_ H]. unfold tie_le in H. by destruct (tie_leb y x).
Qed.

Lemma tie_not_le x y : ¬ tie_le x y ↔ tie_lt y x.
Proof. unfold tie_le, tie_lt. destruct (tie_leb x y); naive_solver. Qed.

Lemma tie_lt_irrefl x : ¬ tie_lt x x.
Proof. rewrite tie_lt_iff. naive_solver. Qed.

Lemma tie_lt_le_trans x y z : tie_lt x y → tie_le y z → tie_lt x z.
Proof.
  rewrite !tie_lt_iff. intros [H1 H2] H3. split; [by eapply tie_le_trans|].
  intros H. apply H2. by eapply tie_le_trans.
Qed.

Lemma tie_le_lt_trans x y z : tie_le x y → tie_lt y z → tie_lt x z.
Proof.
  rewrite !tie_lt_iff. intros H1 [H2 H3]. split; [by eapply tie_le_trans|].
  intros H. apply H3. by eapply tie_le_trans.
Qed.

Definition pos_lt (p q : nat * nat) : Prop := p.1 < q.1 ∨ (p.1 = q.1 ∧ p.2 < q.2).

#[global] Instance pos_lt_dec : RelDecision pos_lt.
Proof. intros p q. unfold pos_lt. apply _. Defined.

Ltac pos_lia := repeat intros [? ?]; unfold pos_le, pos_lt in *; simpl in *; lia.

#[global] Instance pos_le_trans : Transitive pos_le.
Proof. pos_lia. Qed.
#[global] Instance pos_le_total : Total pos_le.
Proof. pos_lia. Qed.
Lemma pos_le_lt p q : pos_le p q → p ≠ q → pos_lt p q.
Proof.
  destruct p as [a b], q as [c d]. unfold pos_le, pos_lt; simpl. intros H Hne.
  destruct (decide (a = c)) as [->|]; [|lia]. destruct (decide (b = d)) as [->|]; [done|lia].
Qed.
Lemma pos_lt_irrefl p : ¬ pos_lt p p.
Proof. destruct p. unfold pos_lt; simpl. lia. Qed.
Lemma pos_lt_trans p q r : pos_lt p q → pos_lt q r → pos_lt p r.
Proof. destruct p, q, r. pos_lia. Qed.
Lemma pos_lt_total p q : pos_lt p q ∨ p = q ∨ pos_lt q p.
Proof.
  destruct (total pos_le p q) as [H|H]; destruct (decide (p = q)) as [|Hne]; auto.
  - left. by apply pos_le_lt.
  - right; right. apply pos_le_lt; [done|congruence].
Qed.

(** ** Picking rows *)

Definition flat_groups (m : list (nat * list N)) : list (nat * N) :=
  m ≫= λ '(k, vs), (k,.) <$> vs.

(** The groups in increasing batch order, none beyond [k] and none empty. *)
Definition groups_upto (k : nat) (m : list (nat * list N)) : Prop :=
  StronglySorted lt m.*1 ∧ Forall (λ j, j ≤ k) m.*1 ∧ Forall (λ g, g.2 ≠ []) m.

Lemma flat_groups_cons k vs m : flat_groups ((k, vs) :: m) = ((k,.) <$> vs) ++ flat_groups m.
Proof. done. Qed.

Lemma entry_push_keys (P : nat → Prop) k v m :
  P k → Forall P m.*1 → Forall P (entry_push k v m).*1.
Proof.
  intros Hk. induction m as [|[k' vs] m IH]; intros Hm; csimpl in *; [by repeat constructor|].
  inversion Hm; subst. destruct (k <? k'); csimpl; [by repeat constructor|].
  destruct (k =? k'); csimpl; constructor; auto.
Qed.

Lemma entry_push_nonempty k v m :
  Forall (λ g, g.2 ≠ []) m → Forall (λ g, g.2 ≠ []) (entry_push k v m).
Proof.
  induction m as [|[k' vs] m IH]; intros Hm; simpl; [by repeat constructor|].
  inversion Hm; subst. destruct (k <? k'); [by repeat constructor|].
  destruct (k =? k'); constructor; auto. simpl. by destruct vs.
Qed.

Lemma entry_push_last k v m :
  groups_upto k m →
  flat_groups (entry_push k v m) = flat_groups m ++ [(k, v)] ∧ groups_upto k (entry_push k v m).
Proof.
  intros (Hs & Hf & Hn). unfold groups_upto.
  cut (flat_groups (entry_push k v m) = flat_groups m ++ [(k, v)] ∧
       StronglySorted lt (entry_push k v m).*1).
  { intros [H1 H2]. split_and!; [done|done|by apply entry_push_keys|by apply entry_push_nonempty]. }
  clear Hn. induction m as [|[k' vs] m IH]; csimpl in *; [by repeat constructor|].
  inversion Hs as [|?? Hs' Hlt]; inversion Hf as [|?? Hk Hf']; subst.
  destruct (Nat.ltb_spec k k'); [lia|]. destruct (Nat.eqb_spec k k') as [->|].
  - destruct m as [|[k'' vs'] m].
    + rewrite !flat_groups_cons, fmap_app. change (flat_groups []) with (@nil (nat * N)).
      rewrite !app_nil_r. split; [done|]. csimpl; repeat constructor.
    + csimpl in *. inversion Hlt; inversion Hf'; subst; lia.
  - destruct (IH Hs' Hf') as [IH1 IH2].
    rewrite !flat_groups_cons, IH1, app_assoc. split; [done|]. csimpl.
    constructor; [done|]. apply entry_push_keys; [lia|done].
Qed.

Lemma groups_upto_mono k k' m : k ≤ k' → groups_upto k m → groups_upto k' m.
Proof. intros ? (? & Hf & ?). split_and!; [done| |done]. eapply Forall_impl; [exact Hf|]. simpl. lia. Qed.

Lemma group_rows (f : nat → N) keep acc k :
  StronglySorted pos_le keep → Forall (λ p, k ≤ p.1) keep → groups_upto k acc →
  ∃ k', let g := foldl (λ g '(b, r), entry_push b (f r) g) acc keep in
  groups_upto k' g ∧ flat_groups g = flat_groups acc ++ ((λ p, (p.1, f p.2)) <$> keep).
Proof.
  revert acc k; induction keep as [|[b r] keep IH]; intros acc k Hs Hk Ha; simpl.
  - exists k. by rewrite app_nil_r.
  - inversion Hs as [|?? Hs' Hle]; inversion Hk as [|?? Hb Hk']; subst. simpl in *.
    destruct (entry_push_last b (f r) acc) as [H1 H2]; [by eapply groups_upto_mono|].
    destruct (IH (entry_push b (f r) acc) b Hs') as (k' & Hg & Hfl); [|done|].
    { eapply Forall_impl; [exact Hle|]. intros [c d]. unfold pos_le; simpl. lia. }
    exists k'. split; [done|]. by rewrite Hfl, H1, <- app_assoc.
Qed.

Section TakeRows.
Context {AR : Arrow}.

(** A stream the runtime hands out: well-formed batches of one schema, each with fewer
    rows than a [u32] index can address. *)
Definition stream_wf (schema : list (Field DataType)) (bs : list RecordBatch) : Prop :=
  Forall (λ b, batch_wf b ∧ b_schema b = schema ∧ (N.of_nat (b_rows b) ≤ U32_MAX + 1)%N) bs.

Definition row_at (bs : list RecordBatch) (p : nat * nat) : list (option Cell) :=
  match bs !! p.1 with
  | Some b => row b p.2
  | None => []
  end.

Definition in_stream (bs : list RecordBatch) (p : nat * nat) : Prop :=
  ∃ b, bs !! p.1 = Some b ∧ p.2 < b_rows b.

Lemma take_column idx n f c :
  column_fits data_type array_len cell n f c → Forall (λ i, N.to_nat i < n) idx →
  ∃ c', take_kernel c idx = Ok c' ∧ column_fits data_type array_len cell (length idx) f c' ∧
    ∀ j i, idx !! j = Some i → cell c' j = cell c (N.to_nat i).
Proof.
  intros (Hty & Hlen & Hnull) Hidx.
  destruct (take_spec c idx) as (c' & H1 & H2 & H3 & H4); [by rewrite Hlen|].
  exists c'. split_and!; [done| |done]. split_and!; [congruence|done|].
  intros Hf j [i Hi]%lookup_lt_is_Some. rewrite (H4 j i Hi). apply Hnull; [done|].
  rewrite Forall_forall in Hidx. apply Hidx. by eapply list_elem_of_lookup_2.
Qed.

Lemma take_batch_spec schema b idx :
  schema ≠ [] → b_schema b = schema → batch_wf b → Forall (λ i, N.to_nat i < b_rows b) idx →
  ∃ b', take_batch schema b idx = Ok b' ∧ batch_wf b' ∧ b_schema b' = schema ∧
    b_rows b' = length idx ∧ batch_rows b' = (λ i, row b (N.to_nat i)) <$> idx.
Proof.
  intros Hne <- Hwf Hidx. unfold take_batch.
  assert (∃ cols, rtraverse (λ col, map_err ArrowErr (take_kernel col idx)) (b_columns b) = Ok cols ∧
    Forall2 (column_fits data_type array_len cell (length idx)) (b_schema b) cols ∧
    Forall2 (λ c c', ∀ j i, idx !! j = Some i → cell c' j = cell c (N.to_nat i)) (b_columns b) cols)
    as (cols & Hc & Hfit & Hcell).
  { unfold batch_wf in Hwf. clear Hne.
    induction Hwf as [|f c fs cs Hfc _ (cols & H1 & H2 & H3)]; [exists []; by repeat constructor|].
    destruct (take_column idx _ _ _ Hfc Hidx) as (c' & Hc & Hf & Hcell).
    exists (c' :: cols). simpl. rewrite Hc, H1. split; [done|]. split; by constructor. }
  rewrite Hc. simpl. exists {| b_schema := b_schema b; b_columns := cols; b_rows := length idx |}.
  rewrite map_err_Ok, try_new_Ok. split; [|split; [done|split; [done|split; [done|]]]].
  - split; [|by eexists]. intros ->. apply Hne. by inversion Hfit.
  - unfold batch_rows, row; simpl. apply list_eq. intros j. rewrite !list_lookup_fmap.
    destruct (idx !! j) as [i|] eqn:Hj; simpl.
    + rewrite lookup_seq_lt by (by eapply lookup_lt_Some). simpl. f_equal. clear -Hcell Hj.
      induction Hcell as [|c c' cs cs' H _ IH]; csimpl; [done|]. f_equal; [by apply H|done].
    + rewrite lookup_seq_ge; [done|]. by apply lookup_ge_None.
Qed.

Lemma take_groups schema bs g :
  schema ≠ [] → stream_wf schema bs → Forall (λ p, p.2 ≠ []) g →
  Forall (λ p, in_stream bs (p.1, N.to_nat p.2)) (flat_groups g) →
  ∃ out, rtraverse (λ '(batch_idx, idx),
      let? batch := ok_or index_panic (bs !! batch_idx) in
      take_batch schema batch idx) g = Ok out ∧
    Forall (λ b, batch_wf b ∧ b_schema b = schema) out ∧
    stream_rows out = (λ p, row_at bs (p.1, N.to_nat p.2)) <$> flat_groups g.
Proof.
  intros Hne Hwf. induction g as [|[k idx] g IH]; intros Hnil Hin; [by exists []|].
  inversion Hnil as [|?? Hidx Hnil']; subst. simpl in Hidx. rewrite flat_groups_cons in *.
  apply Forall_app in Hin as [Hk Hin]. destruct (IH Hnil' Hin) as (out & H1 & H2 & H3).
  assert (∃ b, bs !! k = Some b ∧ Forall (λ i, N.to_nat i < b_rows b) idx) as (b & Hb & Hi).
  { destruct idx as [|i0 idx']; [done|].
    assert (∃ b, bs !! k = Some b) as [b Hb] by (inversion Hk as [|?? (b & Hb & _)]; eauto).
    exists b. split; [done|]. rewrite Forall_fmap in Hk. eapply Forall_impl; [exact Hk|].
    intros i (b' & Hb' & ?). simpl in *. by simplify_eq. }
  unfold stream_wf in Hwf. rewrite Forall_forall in Hwf.
  destruct (Hwf b) as (Hbw & Hbs & _); [by eapply list_elem_of_lookup_2|].
  destruct (take_batch_spec schema b idx) as (b' & Ht & Hw & Hs & Hr & Hrows); [done..|].
  exists (b' :: out). cbn [rtraverse]. rewrite Hb. simpl. rewrite Ht, H1. simpl.
  split_and!; [done|by constructor|]. unfold stream_rows in *. csimpl. rewrite H3, Hrows, fmap_app.
  f_equal. rewrite <- list_fmap_compose. apply list_fmap_ext. intros j i _. unfold row_at. simpl.
  by rewrite Hb.
Qed.

Lemma take_rows_spec schema bs keep :
  schema ≠ [] → stream_wf schema bs → StronglySorted pos_le keep → Forall (in_stream bs) keep →
  ∃ out, take_rows bs keep = Ok out ∧ Forall (λ b, batch_wf b ∧ b_schema b = schema) out ∧
    stream_rows out = row_at bs <$> keep.
Proof.
  intros Hne Hwf Hs Hin. unfold take_rows.
  destruct keep as [|p0 keep0] eqn:Hkeep; [by exists []|]. rewrite <- Hkeep in *. clear p0 keep0 Hkeep.
  destruct bs as [|b0 bs0] eqn:Hbs.
  { destruct keep; [by exists []|]. inversion Hin as [|?? (b & Hb & _)]; subst. done. }
  rewrite <- Hbs in *. assert (b_schema b0 = schema) as ->.
  { subst bs. by inversion Hwf as [|?? (_ & ? & _)]. }
  set (f := λ r : nat, (N.of_nat r mod (U32_MAX + 1))%N).
  destruct (group_rows f keep [] 0) as (k' & (Hg1 & Hg2 & Hg3) & Hg).
  { done. } { apply Forall_forall. lia. } { split_and!; constructor. }
  assert (∀ p, in_stream bs p → N.to_nat (f p.2) = p.2) as Hf.
  { intros p (b & Hb & Hr). unfold f. rewrite N.mod_small; [lia|].
    unfold stream_wf in Hwf. rewrite Forall_forall in Hwf.
    destruct (Hwf b) as (_ & _ & ?); [by eapply list_elem_of_lookup_2|]. lia. }
  destruct (take_groups schema bs _ Hne Hwf Hg3) as (out & Ho & Hw & Hrows).
  { rewrite Hg. simpl. rewrite Forall_fmap. eapply Forall_impl; [exact Hin|].
    intros p Hp. simpl. rewrite (Hf p Hp). by destruct p. }
  exists out. split_and!; [|done|].
  - destruct keep as [|p0 keep0]; [|done]. simpl in Ho. by injection Ho as <-.
  - rewrite Hrows, Hg. simpl. rewrite <- list_fmap_compose. apply list_fmap_ext.
    intros j p Hp. simpl. rewrite Forall_forall in Hin.
    rewrite (Hf p); [by destruct p|]. apply Hin. by eapply list_elem_of_lookup_2.
Qed.
End TakeRows.

(** ** The WAL as a sequence of events

    What the collapse reads of a row: its position and, unless it is an append row, the
    business key, the tie break and the kind of its mutation. *)

Record Mutation : Type := { m_key : bytes; m_tie : TieBreak; m_kind : MutationKind }.

Notation WalEvent := ((nat * nat) * option Mutation)%type.

#[global] Instance Mutation_eq_dec : EqDecision Mutation.
Proof. solve_decision. Defined.

Definition winner_of (p : nat * nat) (m : Mutation) : Winner :=
  {| w_tie := m_tie m; w_mutation := m_kind m; w_batch_idx := p.1; w_row := p.2 |}.

Definition absorb (s : gmap bytes Winner * list (nat * nat)) (e : WalEvent)
    : gmap bytes Winner * list (nat * nat) :=
  match e with
  | (p, None) => (s.1, s.2 ++ [p])
  | (p, Some m) => (contend s.1 (m_key m) (winner_of p m), s.2)
  end.

(** [(p, m)] is at least as recent as [(p', m')]: by the tie break, then the earlier
    position. *)
Definition recent (p : nat * nat) (t : TieBreak) (p' : nat * nat) (t' : TieBreak) : Prop :=
  tie_lt t' t ∨ (tie_le t' t ∧ pos_le p p').

#[global] Instance recent_dec p t p' t' : Decision (recent p t p' t').
Proof. unfold recent. apply _. Defined.

(** No event of the same key is more recent. *)
Definition latest (evs : list WalEvent) (p : nat * nat) (m : Mutation) : Prop :=
  Forall (λ e : WalEvent, match e with
                          | (p', Some m') => m_key m' = m_key m → recent p (m_tie m) p' (m_tie m')
                          | (_, None) => True
                          end) evs.

Definition survives (evs : list WalEvent) (e : WalEvent) : Prop :=
  match e with
  | (_, None) => True
  | (p, Some m) => m_kind m ≠ Delete ∧ latest evs p m
  end.

#[global] Instance latest_dec evs p m : Decision (latest evs p m).
Proof.
  unfold latest. apply Forall_dec. intros [p' [m'|]]; apply _.
Defined.
#[global] Instance survives_dec evs e : Decision (survives evs e).
Proof. destruct e as [p [m|]]; simpl; apply _. Defined.

(** Positions in increasing order. *)
Notation in_order evs := (StronglySorted (λ e e' : WalEvent, pos_lt e.1 e'.1) evs).

Lemma in_order_inj evs p o o' : in_order evs → (p, o) ∈ evs → (p, o') ∈ evs → o = o'.
Proof.
  induction 1 as [|[q r] evs _ IH Hall]; [by intros ?%elem_of_nil|].
  rewrite Forall_forall in Hall.
  intros [H1|H1]%elem_of_cons [H2|H2]%elem_of_cons; simplify_eq; auto.
  - by apply Hall, pos_lt_irrefl in H2.
  - by apply Hall, pos_lt_irrefl in H1.
Qed.

Lemma recent_trans p t p' t' p'' t'' :
  recent p t p' t' → recent p' t' p'' t'' → recent p t p'' t''.
Proof.
  unfold recent. intros [H1|[H1 H1']] [H2|[H2 H2']].
  - left. apply (tie_lt_le_trans _ t'); [done|]. by apply tie_lt_iff in H1 as [? _].
  - left. by eapply tie_le_lt_trans.
  - left. by eapply tie_lt_le_trans.
  - right. split; [by eapply tie_le_trans|by etrans].
Qed.

Lemma recent_antisym p t p' t' : recent p t p' t' → recent p' t' p t → p = p'.
Proof.
  unfold recent. intros [H1|[H1 H1']] [H2|[H2 H2']].
  - destruct (tie_lt_irrefl t). apply (tie_lt_le_trans _ t'); [done|]. by apply tie_lt_iff in H1 as [? _].
  - apply tie_lt_iff in H1 as []. done.
  - apply tie_lt_iff in H2 as []. done.
  - destruct p, p'. unfold pos_le in *; simpl in *. f_equal; lia.
Qed.

Lemma recent_refl p t : recent p t p t.
Proof. right. split; [apply tie_le_refl|]. right. done. Qed.

Lemma latest_snoc evs e p m :
  latest (evs ++ [e]) p m ↔ latest evs p m ∧
    match e with
    | (p', Some m') => m_key m' = m_key m → recent p (m_tie m) p' (m_tie m')
    | (_, None) => True
    end.
Proof. unfold latest. by rewrite Forall_app, Forall_singleton. Qed.

Lemma latest_elem evs p m p' m' :
  latest evs p m → (p', Some m') ∈ evs → m_key m' = m_key m → recent p (m_tie m) p' (m_tie m').
Proof. unfold latest. rewrite Forall_forall. intros H Hin. by apply (H (p', Some m')). Qed.

(** The winner of a key is its latest event; a key without a winner has no event. *)
Definition winner_inv (evs : list WalEvent) (k : bytes) (o : option Winner) : Prop :=
  match o with
  | None => ∀ p m, (p, Some m) ∈ evs → m_key m ≠ k
  | Some w => ∃ p m, (p, Some m) ∈ evs ∧ m_key m = k ∧ w = winner_of p m ∧ latest evs p m
  end.

Lemma winner_inv_other evs e k o :
  winner_inv evs k o → (∀ m, e.2 = Some m → m_key m ≠ k) → winner_inv (evs ++ [e]) k o.
Proof.
  intros H He. destruct o as [w|]; simpl in *.
  - destruct H as (p & m & Hin & Hk & -> & Hl). exists p, m.
    split_and!; [apply elem_of_app; by left|done|done|]. apply latest_snoc. split; [done|].
    destruct e as [q [n|]]; [|done]. intros Hkn. destruct (He n); [done|congruence].
  - intros p m [Hin|Hin%list_elem_of_singleton]%elem_of_app; [by eapply H|]. subst e. by apply He.
Qed.

Lemma winner_inv_contend evs q n W :
  (∀ e, e ∈ evs → pos_lt e.1 q) → (∀ k, winner_inv evs k (W !! k)) →
  ∀ k, winner_inv (evs ++ [(q, Some n)]) k (contend W (m_key n) (winner_of q n) !! k).
Proof.
  intros Hq HW k. destruct (decide (m_key n = k)) as [Hk|Hk].
  2:{ assert (contend W (m_key n) (winner_of q n) !! k = W !! k) as ->.
      { unfold contend. destruct (W !! m_key n); [case_match; [done|]|]; by rewrite lookup_insert_ne. }
      apply winner_inv_other; [done|]. by intros m [= <-]. }
  subst k. specialize (HW (m_key n)). unfold contend.
  destruct (W !! m_key n) as [w|] eqn:Hw; simpl in HW.
  - destruct HW as (p & m & Hin & Hk & -> & Hl).
    destruct (tie_leb (w_tie (winner_of q n)) (w_tie (winner_of p m))) eqn:Ht; simpl in Ht.
    + rewrite Hw. simpl. exists p, m. split_and!; [apply elem_of_app; by left|done|done|].
      apply latest_snoc. split; [done|]. intros _. right. split; [done|].
      specialize (Hq _ Hin). simpl in Hq. destruct p, q. unfold pos_lt, pos_le in *; simpl in *; lia.
    + rewrite lookup_insert_eq. simpl. exists q, n.
      split_and!; [apply elem_of_app; right; by left|done|done|].
      apply latest_snoc. split; [|intros _; apply recent_refl].
      apply Forall_forall. intros [p' [m'|]] Hin'; [|done]. intros Hk'. left.
      destruct (latest_elem _ _ _ _ _ Hl Hin') as [H1|[H1 _]]; [congruence| |].
      * apply (tie_lt_le_trans _ (m_tie m)); [done|]. by apply tie_lt_iff in Ht as [? _].
      * by eapply tie_le_lt_trans.
  - rewrite lookup_insert_eq. simpl. exists q, n.
    split_and!; [apply elem_of_app; right; by left|done|done|].
    apply latest_snoc. split; [|intros _; apply recent_refl].
    apply Forall_forall. intros [p' [m'|]] Hin'; [|done]. intros Hk'. by destruct (HW p' m').
Qed.

(** The state of the loop after the events of a prefix. *)
Lemma absorb_spec evs :
  in_order evs →
  let s := foldl absorb (∅, []) evs in
  (∀ k, winner_inv evs k (s.1 !! k)) ∧
  s.2 = omap (λ e : WalEvent, if e.2 then None else Some e.1) evs.
Proof.
  induction evs as [|e evs IH] using rev_ind; intros Hs; simpl.
  { split; [|done]. intros k. rewrite lookup_empty. simpl. by intros ?? ?%elem_of_nil. }
  rewrite foldl_app. simpl. apply StronglySorted_app in Hs as (Hlt & Hs & _).
  destruct (IH Hs) as [IH1 IH2]. rewrite omap_app. destruct e as [q [n|]]; simpl.
  - split; [|by rewrite app_nil_r]. apply winner_inv_contend; [|done].
    intros e He. apply (Hlt e (q, Some n)); [done|by left].
  - split; [|by rewrite IH2]. intros k. by apply winner_inv_other.
Qed.

(** The positions kept are those of the surviving events. *)
Lemma keep_spec evs p :
  in_order evs →
  let s := foldl absorb (∅, []) evs in
  p ∈ s.2 ++ omap (λ kw, survivor kw.2) (map_to_list s.1) ↔
  ∃ o, (p, o) ∈ evs ∧ survives evs (p, o).
Proof.
  intros Hs s. destruct (absorb_spec evs Hs) as [Hw Ha]. fold s in Hw, Ha.
  rewrite elem_of_app, Ha, !list_elem_of_omap. split.
  - intros [([q [m|]] & Hin & [= <-])|([k w] & Hin & Hsv)]; [by exists None|].
    apply elem_of_map_to_list in Hin. specialize (Hw k). rewrite Hin in Hw.
    destruct Hw as (q & m & Hq & <- & -> & Hl). exists (Some m).
    simpl in Hsv. unfold survivor in Hsv. simpl in Hsv.
    destruct (m_kind m) eqn:Hk; simplify_eq; destruct q; (split; [done|]); simpl; by rewrite Hk.
  - intros ([m|] & Hin & Hsv); [right|by left; exists (p, None)].
    destruct Hsv as [Hd Hl]. exists (m_key m, winner_of p m). split.
    + apply elem_of_map_to_list. specialize (Hw (m_key m)).
      destruct (s.1 !! m_key m) as [w|]; simpl in Hw; [|by destruct (Hw _ _ Hin)].
      destruct Hw as (q & n & Hq & Hk & -> & Hl'). f_equal.
      assert (q = p) as ->.
      { eapply recent_antisym; [eapply (latest_elem _ _ _ _ _ Hl' Hin)|eapply (latest_elem _ _ _ _ _ Hl Hq)]; done. }
      by pose proof (in_order_inj _ _ _ _ Hs Hin Hq) as [= ->].
    + unfold survivor. simpl. destruct p. by destruct (m_kind m).
Qed.

Lemma NoDup_omap_strong {A B} (f : A → option B) l :
  NoDup l → (∀ x y z, x ∈ l → y ∈ l → f x = Some z → f y = Some z → x = y) → NoDup (omap f l).
Proof.
  induction 1 as [|x l Hx Hl IH]; intros Hf; simpl; [constructor|].
  assert (NoDup (omap f l)) as IH'.
  { apply IH. intros y1 y2 z H1 H2. apply Hf; by right. }
  destruct (f x) as [z|] eqn:Hz; [|done]. constructor; [|done].
  intros (y & Hy & Hyz)%list_elem_of_omap. apply Hx.
  rewrite (Hf x y z); [done|by left|by right|done|done].
Qed.

Lemma in_order_sorted evs : in_order evs → StronglySorted pos_le evs.*1 ∧ NoDup evs.*1.
Proof.
  induction 1 as [|e evs _ [IH1 IH2] Hall]; csimpl; [split; constructor|]. split; constructor; try done.
  - rewrite Forall_fmap. eapply Forall_impl; [exact Hall|]. intros [[a b] o] H. simpl in *.
    destruct e as [[c d] ?]. unfold pos_lt, pos_le in *; simpl in *. lia.
  - intros (e' & He' & Hin)%list_elem_of_fmap. rewrite Forall_forall in Hall.
    apply Hall in Hin. rewrite He' in Hin. by apply pos_lt_irrefl in Hin.
Qed.

Lemma in_order_filter (P : WalEvent → Prop) `{!∀ e, Decision (P e)} evs :
  in_order evs → in_order (filter P evs).
Proof.
  induction 1 as [|e evs _ IH Hall]; [constructor|]. rewrite filter_cons. case_decide; [|done].
  constructor; [done|]. apply Forall_forall. intros e' [_ He']%list_elem_of_filter.
  rewrite Forall_forall in Hall. by apply Hall.
Qed.

#[global] Instance pos_le_antisym : AntiSymm (=) pos_le.
Proof. intros [a b] [c d]. unfold pos_le; simpl. intros. f_equal; lia. Qed.

Lemma keep_nodup evs :
  in_order evs →
  let s := foldl absorb (∅, []) evs in
  NoDup (s.2 ++ omap (λ kw, survivor kw.2) (map_to_list s.1)).
Proof.
  intros Hs s. destruct (absorb_spec evs Hs) as [Hw Ha]. fold s in Hw, Ha.
  destruct (in_order_sorted _ Hs) as [_ Hnd].
  assert (∀ k w p, s.1 !! k = Some w → survivor w = Some p → ∃ m, (p, Some m) ∈ evs ∧ m_key m = k) as Hsurv.
  { intros k w p Hk Hp. specialize (Hw k). rewrite Hk in Hw. destruct Hw as (q & m & Hq & <- & -> & _).
    exists m. split; [|done]. unfold survivor in Hp. simpl in Hp. destruct q.
    by destruct (m_kind m); simplify_eq. }
  apply NoDup_app. split_and!.
  - rewrite Ha. apply NoDup_omap_strong; [by eapply NoDup_fmap_1|].
    intros [p1 [m1|]] [p2 [m2|]] z H1 H2 [= <-] [= <-]. done.
  - intros p Hp. rewrite Ha, list_elem_of_omap in Hp. destruct Hp as ([q [n|]] & Hq & [= ->]).
    intros ([k w] & Hk%elem_of_map_to_list & Hp)%list_elem_of_omap.
    destruct (Hsurv k w p Hk Hp) as (m & Hm & _). by pose proof (in_order_inj _ _ _ _ Hs Hq Hm).
  - apply NoDup_omap_strong; [apply NoDup_map_to_list|].
    intros [k1 w1] [k2 w2] p H1%elem_of_map_to_list H2%elem_of_map_to_list Hp1 Hp2. simpl in *.
    destruct (Hsurv _ _ _ H1 Hp1) as (m1 & Hm1 & Hk1), (Hsurv _ _ _ H2 Hp2) as (m2 & Hm2 & Hk2).
    pose proof (in_order_inj _ _ _ _ Hs Hm1 Hm2) as [= ->]. congruence.
Qed.

Lemma keep_sorted evs :
  in_order evs →
  let s := foldl absorb (∅, []) evs in
  merge_sort pos_le (s.2 ++ omap (λ kw, survivor kw.2) (map_to_list s.1)) =
  (filter (survives evs) evs).*1.
Proof.
  intros Hs s. destruct (in_order_sorted _ (in_order_filter (survives evs) _ Hs)) as [Hsf Hnf].
  apply (StronglySorted_unique pos_le); [apply (StronglySorted_merge_sort pos_le)|done|].
  etrans; [apply merge_sort_Permutation|]. apply NoDup_Permutation; [by apply keep_nodup|done|].
  intros p. etrans; [apply (keep_spec evs p Hs)|]. rewrite list_elem_of_fmap. split.
  - intros (o & Hin & Hsv). exists (p, o). split; [done|]. by apply list_elem_of_filter.
  - intros ([q o] & -> & [Hsv Hin]%list_elem_of_filter). by exists o.
Qed.

(** ** The loop of the collapse reads the events *)

Lemma rfold_rtraverse {E A B S} (f : S → A → result E S) (g : A → result E B) (h : S → B → S) l s :
  (∀ t x, f t x = rmap (h t) (g x)) → rfold f s l = rmap (foldl h s) (rtraverse g l).
Proof.
  intros Hf. revert s; induction l as [|x l IH]; intros s; simpl; [done|]. rewrite Hf.
  destruct (g x); simpl; [|done]. rewrite IH. by destruct (rtraverse g l).
Qed.

Lemma rmap_rmap {E A B C} (f : A → B) (g : B → C) (m : result E A) :
  rmap g (rmap f m) = rmap (λ a, g (f a)) m.
Proof. by destruct m. Qed.

Section Events.
Context {AR : Arrow}.

Definition row_event (sc : Sidecar) (keys : list (option bytes)) (i : nat)
    : result DFErr (option Mutation) :=
  let? m := decode_mutation (value 0%N (sc_mutation sc) i) in
  match m with
  | None => Ok None
  | Some kind =>
      match value None keys i with
      | None => Err null_business_key
      | Some key => Ok (Some {| m_key := key; m_tie := tie_at sc i; m_kind := kind |})
      end
  end.

Definition batch_events (bi : nat) (sc : Sidecar) (keys : list (option bytes)) (n : nat)
    : result DFErr (list WalEvent) :=
  rtraverse (λ i, rmap (pair (bi, i)) (row_event sc keys i)) (seq 0 n).

Fixpoint wal_events (columns : list bytes) (enc : option KeyEncoder)
    (l : list (nat * RecordBatch)) : result DFErr (list WalEvent) :=
  match l with
  | [] => Ok []
  | (bi, b) :: l' =>
      let? sc := read_cdc_columns b in
      let? e := encoder_for enc b columns in
      let? keys := key_encode e b NkReject in
      let? evs := batch_events bi sc keys (b_rows b) in
      let? rest := wal_events columns (Some e) l' in
      Ok (evs ++ rest)
  end.

Definition absorb_state (s : Collapse) (e : WalEvent) : Collapse :=
  let '(w, a) := absorb (winners s, append_rows s) e in
  {| winners := w; append_rows := a; encoder := encoder s |}.

Lemma absorb_state_all s evs :
  let s' := foldl absorb_state s evs in
  (winners s', append_rows s') = foldl absorb (winners s, append_rows s) evs ∧
  encoder s' = encoder s.
Proof.
  revert s; induction evs as [|e evs IH]; intros s; simpl; [done|].
  destruct (IH (absorb_state s e)) as [-> ->]. unfold absorb_state.
  destruct (absorb (winners s, append_rows s) e). done.
Qed.

Lemma collapse_row_event bi sc keys s i :
  collapse_row bi sc keys s i =
  rmap (absorb_state s) (rmap (pair (bi, i)) (row_event sc keys i)).
Proof.
  unfold collapse_row, row_event.
  destruct (decode_mutation _) as [[kind|]|]; simpl; [|done..].
  destruct (value None keys i); done.
Qed.

Lemma collapse_loop columns s l :
  rmap (λ s', (winners s', append_rows s')) (rfold (collapse_batch columns) s l) =
  rmap (foldl absorb (winners s, append_rows s)) (wal_events columns (encoder s) l).
Proof.
  revert s; induction l as [|[bi b] l IH]; intros s; simpl; [done|].
  destruct (read_cdc_columns b) as [sc|]; simpl; [|done].
  destruct (encoder_for (encoder s) b columns) as [e|]; simpl; [|done].
  destruct (key_encode e b NkReject) as [keys|]; simpl; [|done].
  rewrite (rfold_rtraverse _ (λ i, rmap (pair (bi, i)) (row_event sc keys i)) absorb_state)
    by apply collapse_row_event.
  unfold batch_events. destruct (rtraverse _ _) as [evs|]; simpl; [|done].
  set (s0 := {| winners := winners s; append_rows := append_rows s; encoder := Some e |}).
  destruct (absorb_state_all s0 evs) as [H1 H2]. rewrite IH, H2, H1. simpl.
  destruct (wal_events columns (Some e) l); simpl; [|done]. by rewrite foldl_app.
Qed.

(** ** Positions *)

Definition positions_from (k : nat) (bs : list RecordBatch) : list (nat * nat) :=
  concat (imap (λ i b, (k + i,.) <$> seq 0 (b_rows b)) bs).

Lemma positions_from_cons k b bs :
  positions_from k (b :: bs) = ((k,.) <$> seq 0 (b_rows b)) ++ positions_from (S k) bs.
Proof.
  unfold positions_from. simpl. rewrite Nat.add_0_r. do 2 f_equal.
  apply imap_ext. intros i b' _. simpl. by rewrite Nat.add_succ_r.
Qed.

Lemma positions_from_elem k bs p :
  p ∈ positions_from k bs ↔ ∃ i b, bs !! i = Some b ∧ p.1 = k + i ∧ p.2 < b_rows b.
Proof.
  revert k; induction bs as [|b bs IH]; intros k.
  - split; [by intros ?%elem_of_nil|by intros (? & ? & ? & _)].
  - rewrite positions_from_cons, elem_of_app, IH, list_elem_of_fmap. split.
    + intros [(j & -> & Hj%elem_of_seq)|(i & b' & Hi & -> & Hp)].
      * exists 0, b. simpl. split_and!; [done|lia|lia].
      * exists (S i), b'. split_and!; [done|lia|done].
    + intros ([|i] & b' & Hi & Hp & Hl); simpl in Hi.
      * left. simplify_eq. exists p.2. split; [|apply elem_of_seq; lia]. destruct p; simpl in *.
        f_equal; lia.
      * right. exists i, b'. split_and!; [done|lia|done].
Qed.

Lemma seq_pos_sorted k a n : StronglySorted pos_lt ((k,.) <$> seq a n).
Proof.
  revert a; induction n as [|n IH]; intros a; csimpl; constructor; [apply IH|].
  apply Forall_forall. intros [c d] (j & [= -> ->] & Hj%elem_of_seq)%list_elem_of_fmap.
  right. simpl. lia.
Qed.

Lemma positions_from_sorted k bs : StronglySorted pos_lt (positions_from k bs).
Proof.
  revert k; induction bs as [|b bs IH]; intros k; [constructor|].
  rewrite positions_from_cons. apply StronglySorted_app. split_and!; [|apply seq_pos_sorted|apply IH].
  intros [c d] [c' d'] (j & [= -> ->] & _)%list_elem_of_fmap (i & ? & _ & Hp & _)%positions_from_elem.
  left. simpl in *. lia.
Qed.

Lemma StronglySorted_fmap_1 {A B} (R : B → B → Prop) (f : A → B) l :
  StronglySorted R (f <$> l) → StronglySorted (λ x y, R (f x) (f y)) l.
Proof.
  induction l as [|x l IH]; csimpl; [constructor|]. inversion 1 as [|?? Hl Hf]; subst.
  constructor; [by apply IH|]. by rewrite Forall_fmap in Hf.
Qed.

Lemma batch_events_pos bi sc keys n evs :
  batch_events bi sc keys n = Ok evs → evs.*1 = (bi,.) <$> seq 0 n.
Proof.
  unfold batch_events. rewrite rtraverse_Ok. generalize 0.
  revert evs; induction n as [|n IH]; intros evs a; simpl; inversion 1; subst; csimpl; [done|].
  inv_res. f_equal. by apply IH.
Qed.

Lemma wal_events_pos columns enc k bs evs :
  wal_events columns enc (imap (λ i b, (k + i, b)) bs) = Ok evs → evs.*1 = positions_from k bs.
Proof.
  revert k enc evs; induction bs as [|b bs IH]; intros k enc evs.
  - by intros [= <-].
  - rewrite positions_from_cons. cbn [imap wal_events]. intros H. inv_res.
    rewrite fmap_app. erewrite (batch_events_pos (k + 0)) by done. rewrite Nat.add_0_r. f_equal.
    apply (IH (S k) (Some x0)). match goal with H : wal_events _ _ _ = Ok _ |- _ => rewrite <- H end.
    f_equal. apply imap_ext. intros i b' _. simpl. by rewrite Nat.add_succ_r.
Qed.

Lemma wal_events_order columns enc bs evs :
  wal_events columns enc (imap pair bs) = Ok evs → in_order evs.
Proof.
  intros H%(wal_events_pos columns enc 0). apply StronglySorted_fmap_1.
  rewrite H. apply positions_from_sorted.
Qed.

(** What the collapse computes, over the events it reads. *)
Lemma collapse_events bs columns :
  columns ≠ [] →
  collapse_wal_batches bs columns =
  (let? evs := wal_events columns None (imap pair bs) in
   let? kept := take_rows bs (filter (survives evs) evs).*1 in
   Ok {| changed_keys := dom (foldl absorb (∅, []) evs).1; survivor_batches := kept |}).
Proof.
  intros Hc. unfold collapse_wal_batches. destruct columns as [|c cs]; [done|].
  pose proof (collapse_loop (c :: cs) {| winners := ∅; append_rows := []; encoder := None |}
                (imap pair bs)) as Hl. simpl encoder in Hl. simpl winners in Hl. simpl append_rows in Hl.
  destruct (rfold _ _ _) as [s|err]; simpl in *.
  - destruct (wal_events _ _ _) as [evs|] eqn:He; simpl in Hl; [|done].
    injection Hl as Hl. simpl. pose proof (keep_sorted evs (wal_events_order _ _ _ _ He)) as Hk.
    cbn zeta in Hk. rewrite <- Hl in Hk |- *. simpl in *. by rewrite Hk.
  - destruct (wal_events _ _ _); simpl in *; [done|]. by injection Hl as <-.
Qed.

Lemma changed_keys_spec columns enc bs evs k :
  wal_events columns enc (imap pair bs) = Ok evs →
  k ∈ dom (foldl absorb (∅, []) evs).1 ↔ ∃ p m, (p, Some m) ∈ evs ∧ m_key m = k.
Proof.
  intros He%wal_events_order. destruct (absorb_spec evs He) as [Hw _]. specialize (Hw k).
  rewrite elem_of_dom. destruct (_ !! k) as [w|]; simpl in Hw.
  - split; [|by eexists]. intros _. destruct Hw as (p & m & ? & ? & _). eauto.
  - split; [by intros []|]. intros (p & m & Hin & Hk). by destruct (Hw p m).
Qed.
End Events.

(** ** Keys by value *)

Section Keys.
Context {AR : Arrow}.

Notation Schema := (list (Field DataType)).
Notation Row := (list (option Cell)).

Definition name_index (schema : Schema) (n : bytes) : option nat :=
  fst <$> list_find (λ f, f_name f = n) schema.

(** The business key of a row: its cells under the key columns. *)
Definition row_key (schema : Schema) (columns : list bytes) (r : Row) : Row :=
  (λ c, name_index schema c ≫= λ i, mjoin (r !! i)) <$> columns.

Definition has_columns (schema : Schema) (columns : list bytes) : Prop :=
  Forall (λ c, is_Some (field_with_name schema c)) columns.

Lemma column_by_name_cell b c col i :
  column_by_name b c = Some col →
  (name_index (b_schema b) c ≫= λ k, mjoin (row b i !! k)) = cell col i.
Proof.
  unfold column_by_name, name_index, row. destruct (list_find _ _) as [[k f]|]; simpl; [|done].
  intros Hk. by rewrite list_lookup_fmap, Hk.
Qed.

Lemma key_columns_cells b columns cols i :
  rtraverse (λ c, ok_or (missing_key c) (column_by_name b c)) columns = Ok cols →
  row_key (b_schema b) columns (row b i) = (λ c, cell c i) <$> cols.
Proof.
  rewrite rtraverse_Ok. unfold row_key.
  induction 1 as [|c col columns cols Hc _ IH]; csimpl; [done|]. f_equal; [|done].
  apply ok_or_Ok in Hc. by apply column_by_name_cell.
Qed.

(** The encoded key of a row. *)
Definition key_at (ke : KeyEncoder) (b : RecordBatch) (i : nat) (key : bytes) : Prop :=
  ∃ cols rows, rtraverse (λ c, ok_or (missing_key c) (column_by_name b c)) (ke_columns ke) = Ok cols ∧
    convert_columns (ke_converter ke) cols = Ok rows ∧ rows !! i = Some key.

Lemma key_at_inj ke b i k b' i' k' :
  key_at ke b i k → key_at ke b' i' k' →
  k = k' ↔ row_key (b_schema b) (ke_columns ke) (row b i) =
           row_key (b_schema b') (ke_columns ke) (row b' i').
Proof.
  intros (cols & rows & Hc & Hr & Hi) (cols' & rows' & Hc' & Hr' & Hi').
  rewrite (key_columns_cells _ _ _ _ Hc), (key_columns_cells _ _ _ _ Hc').
  by eapply convert_inj.
Qed.

Lemma existsb_null_row_key b columns cols i :
  rtraverse (λ c, ok_or (missing_key c) (column_by_name b c)) columns = Ok cols →
  existsb (λ c, is_null c i) cols = true ↔ None ∈ row_key (b_schema b) columns (row b i).
Proof.
  intros H. rewrite (key_columns_cells _ _ _ _ H), existsb_exists, list_elem_of_fmap.
  unfold is_null. setoid_rewrite bool_decide_eq_true. setoid_rewrite <- list_elem_of_In. naive_solver.
Qed.

Lemma value_lookup {V} (d : V) l i x : l !! i = Some x → value d l i = x.
Proof. unfold value. by intros ->. Qed.

(** A row has an encoded key exactly when no cell of its key is null. *)
Lemma key_encode_at ke b nulls keys i :
  key_encode ke b nulls = Ok keys → i < b_rows b →
  match value None keys i with
  | Some key => key_at ke b i key ∧ None ∉ row_key (b_schema b) (ke_columns ke) (row b i)
  | None => (∃ cols rows, rtraverse (λ c, ok_or (missing_key c) (column_by_name b c))
                            (ke_columns ke) = Ok cols ∧
             convert_columns (ke_converter ke) cols = Ok rows ∧ rows !! i = None) ∨
            (nulls = NkPassThrough ∧ None ∈ row_key (b_schema b) (ke_columns ke) (row b i))
  end.
Proof.
  unfold key_encode. intros H Hi. inv_res.
  match goal with H : rtraverse _ (ke_columns ke) = Ok ?c |- _ => rename H into Hcols, c into cols end.
  match goal with H : convert_columns _ _ = Ok ?r |- _ => rename H into Hrows, r into rows end.
  match goal with H : rtraverse _ (seq _ _) = Ok _ |- _ => apply rtraverse_Ok in H as Hk end.
  destruct (Forall2_lookup_l _ _ _ i i Hk) as (o & Ho & Hv).
  { rewrite lookup_seq_lt by done. done. }
  rewrite (value_lookup _ _ _ _ Ho). pose proof (existsb_null_row_key _ _ _ i Hcols) as Hn.
  destruct (existsb _ cols) eqn:He.
  - destruct nulls; [done|]. injection Hv as <-. right. split; [done|]. by apply Hn.
  - injection Hv as <-. destruct (rows !! i) as [key|] eqn:Hki.
    + split; [by exists cols, rows|]. intros Hc. apply Hn in Hc. done.
    + left. by exists cols, rows.
Qed.

Lemma encoder_columns b columns ke :
  columns ≠ [] → batch_wf b → key_encoder_new (b_schema b) columns = Ok ke →
  ke_columns ke = columns ∧
  ∃ cols rows, rtraverse (λ c, ok_or (missing_key c) (column_by_name b c)) columns = Ok cols ∧
    convert_columns (ke_converter ke) cols = Ok rows ∧ length rows = b_rows b.
Proof.
  intros Hne Hwf H. unfold key_encoder_new in H. inv_res. split; [done|].
  match goal with H : rtraverse _ columns = Ok ?t |- _ => rename H into Htys, t into tys end.
  match goal with H : row_converter_new _ = Ok _ |- _ => rename H into Hconv end.
  assert (∃ cols, rtraverse (λ c, ok_or (missing_key c) (column_by_name b c)) columns = Ok cols ∧
    data_type <$> cols = tys ∧ ∀ c, c ∈ cols → array_len c = b_rows b) as (cols & Hcols & Hty & Hlen).
  { apply rtraverse_Ok in Htys. clear Hne Hconv.
    induction Htys as [|c ty columns tys Hc _ (cols & IH1 & IH2 & IH3)].
    - exists []. split_and!; [done|done|]. by intros ? ?%elem_of_nil.
    - inv_res. match goal with H : field_with_name _ _ = Some ?f |- _ => rename H into Hf end.
      destruct (column_by_name_some _ _ _ Hwf Hf) as [col Hcol].
      destruct (column_by_name_wf _ _ _ Hwf Hcol) as (f' & Hf' & (Ht & Hl & _) & _).
      exists (col :: cols). simpl. rewrite Hcol, IH1. simpl. csimpl. split_and!; [done| |].
      + f_equal; congruence.
      + intros c' [->|Hc']%elem_of_cons; auto. }
  destruct (convert_spec tys x0 cols (b_rows b)) as (rows & Hr & Hlr); [done|done| |done|].
  { intros ->. by inversion Hty; subst tys; apply rtraverse_Ok in Hcols; inversion Hcols. }
  by exists cols, rows.
Qed.

Lemma key_encode_value b columns ke nulls keys i :
  columns ≠ [] → batch_wf b → key_encoder_new (b_schema b) columns = Ok ke →
  key_encode ke b nulls = Ok keys → i < b_rows b →
  match value None keys i with
  | Some key => key_at ke b i key ∧ None ∉ row_key (b_schema b) columns (row b i)
  | None => nulls = NkPassThrough ∧ None ∈ row_key (b_schema b) columns (row b i)
  end.
Proof.
  intros Hne Hwf Hke Hk Hi. destruct (encoder_columns b columns ke) as (Hcs & cols & rows & Hc & Hr & Hl); try done.
  pose proof (key_encode_at _ _ _ _ i Hk Hi) as H. rewrite Hcs in H.
  destruct (value None keys i); [done|]. destruct H as [(cols' & rows' & Hc' & Hr' & Hi')|]; [|done].
  rewrite Hc in Hc'. injection Hc' as <-. rewrite Hr in Hr'. injection Hr' as <-.
  apply lookup_ge_None in Hi'. lia.
Qed.

Lemma key_encode_total b columns ke nulls :
  columns ≠ [] → batch_wf b → key_encoder_new (b_schema b) columns = Ok ke →
  (nulls = NkPassThrough ∨ ∀ i, i < b_rows b → None ∉ row_key (b_schema b) columns (row b i)) →
  ∃ keys, key_encode ke b nulls = Ok keys.
Proof.
  intros Hne Hwf Hke Hn. destruct (encoder_columns b columns ke) as (Hcs & cols & rows & Hc & Hr & Hl); try done.
  unfold key_encode. rewrite Hcs, Hc. simpl. rewrite Hr. simpl.
  assert (∀ i, i < b_rows b → nulls = NkPassThrough ∨ existsb (λ c, is_null c i) cols = false) as Hn'.
  { intros i Hi. destruct Hn as [Hn|Hn]; [by left|right]. apply not_true_iff_false.
    rewrite (existsb_null_row_key _ _ _ i Hc). by apply Hn. }
  exists ((λ i, if existsb (λ c, is_null c i) cols then None else rows !! i) <$> seq 0 (b_rows b)).
  apply rtraverse_Ok, Forall2_fmap_r, Forall_Forall2_diag, Forall_forall.
  intros i [_ Hi]%elem_of_seq. unfold compose. cbn beta. destruct (Hn' i Hi) as [->|Hf]; [by destruct (existsb (λ c, is_null c i) cols)|by rewrite Hf].
Qed.
End Keys.

(** ** The anti-join keeps the rows of unchanged keys *)

Lemma filter_fmap_iff {A B} (P : B → Prop) (Q : A → Prop) {DP : ∀ x, Decision (P x)} {DQ : ∀ x, Decision (Q x)}
    (f : A → B) (l : list A) :
  (∀ x, x ∈ l → Q x ↔ P (f x)) → filter P (f <$> l) = f <$> filter Q l.
Proof.
  induction l as [|x l IH]; intros H; csimpl; [done|]. rewrite !filter_cons.
  rewrite IH by (intros y Hy; apply H; by right). specialize (H x).
  destruct (decide (P (f x))), (decide (Q x)); set_solver.
Qed.

Lemma filter_concat {A} (P : A → Prop) `{!∀ x, Decision (P x)} (ls : list (list A)) :
  filter P (concat ls) = concat (filter P <$> ls).
Proof. induction ls as [|l ls IH]; csimpl; [done|]. by rewrite filter_app, IH. Qed.

Lemma filter_seq_sorted (P : nat → Prop) `{!∀ x, Decision (P x)} a n :
  StronglySorted pos_le (pair 0 <$> filter P (seq a n)).
Proof.
  revert a; induction n as [|n IH]; intros a; csimpl; [constructor|]. rewrite filter_cons.
  case_decide; [|apply IH]. csimpl. constructor; [apply IH|]. apply Forall_forall.
  intros p (j & -> & [_ Hj%elem_of_seq]%list_elem_of_filter)%list_elem_of_fmap. right. simpl. lia.
Qed.

Section AntiJoin.
Context {AR : Arrow}.
Context (schema : list (Field DataType)) (columns : list bytes) (ke : KeyEncoder).
Context (changed : gset bytes) (P : list (option Cell) → Prop) {DP : ∀ r, Decision (P r)}.
Context (Hschema : schema ≠ []) (Hcolumns : columns ≠ []).
Context (Hke : key_encoder_new schema columns = Ok ke).

(** [P] holds of the rows whose key has not changed. *)
Definition unchanged_rows (b : RecordBatch) : Prop :=
  ∀ i, i < b_rows b →
    (∀ key, key_at ke b i key → (key ∉ changed ↔ P (row b i))) ∧
    (None ∈ row_key schema columns (row b i) → P (row b i)).

Lemma anti_join_batch_spec s b :
  (s.1 = None ∨ s.1 = Some ke) → batch_wf b → b_schema b = schema →
  (N.of_nat (b_rows b) ≤ U32_MAX + 1)%N → unchanged_rows b →
  ∃ out, anti_join_batch changed columns s b = Ok (Some ke, s.2 ++ out) ∧
    Forall (λ b, batch_wf b ∧ b_schema b = schema) out ∧
    stream_rows out = filter P (batch_rows b).
Proof.
  intros Hs Hwf Hbs Hsz HP. unfold anti_join_batch.
  assert (encoder_for s.1 b columns = Ok ke) as ->.
  { unfold encoder_for. destruct Hs as [->| ->]; [by rewrite Hbs|done]. }
  simpl. rewrite <- Hbs in Hke.
  destruct (key_encode_total b columns ke NkPassThrough) as [keys Hk]; [done|done|done|by left|].
  rewrite Hk. simpl.
  set (Q := λ i, lake_keeps changed (value None keys i) = true).
  assert (filter P (batch_rows b) = row b <$> filter Q (seq 0 (b_rows b))) as Hrows.
  { unfold batch_rows. apply filter_fmap_iff. intros i [_ Hi]%elem_of_seq. unfold Q, lake_keeps.
    destruct (HP i Hi) as [H1 H2].
    pose proof (key_encode_value b columns ke _ keys i Hcolumns Hwf Hke Hk Hi) as Hv.
    destruct (value None keys i) as [key|].
    - destruct Hv as [Hv _]. rewrite <- (H1 key Hv), negb_true_iff, bool_decide_eq_false. done.
    - destruct Hv as [_ Hv]. rewrite Hbs in Hv. split; [by intros _; apply H2|done]. }
  rewrite Hrows. destruct (Nat.eqb_spec (length (filter Q (seq 0 (b_rows b)))) (b_rows b)) as [Hlen|Hlen].
  - exists [b]. split_and!; [done|by repeat constructor|]. unfold stream_rows; simpl.
    rewrite app_nil_r. unfold batch_rows. f_equal. symmetry.
    apply filter_all, Forall_forall.
    intros i Hi. apply dec_stable. intros Hq.
    pose proof (length_filter_lt Q _ i Hi Hq). rewrite length_seq in *. lia.
  - destruct (take_rows_spec schema [b] (pair 0 <$> filter Q (seq 0 (b_rows b)))) as (out & Ho & Hw & Hr).
    + done.
    + by repeat constructor.
    + apply filter_seq_sorted.
    + apply Forall_forall. intros p (i & -> & [_ Hi%elem_of_seq]%list_elem_of_filter)%list_elem_of_fmap.
      exists b. simpl. split; [done|lia].
    + assert (stream_rows out = row b <$> filter Q (seq 0 (b_rows b))) as Hr'.
      { rewrite Hr, <- list_fmap_compose. done. }
      destruct (filter Q _) as [|i0 keep] eqn:Hkeep.
      * exists []. by rewrite app_nil_r.
      * rewrite Ho. simpl. by exists out.
Qed.

Lemma anti_join_loop lake s :
  (s.1 = None ∨ s.1 = Some ke) → stream_wf schema lake → Forall unchanged_rows lake →
  ∃ e out, rfold (anti_join_batch changed columns) s lake = Ok (e, s.2 ++ out) ∧
    Forall (λ b, batch_wf b ∧ b_schema b = schema) out ∧
    stream_rows out = filter P (stream_rows lake).
Proof.
  revert s; induction lake as [|b lake IH]; intros s Hs Hwf HP.
  { exists s.1, []. rewrite app_nil_r. by destruct s. }
  inversion Hwf as [|?? (Hb & Hbs & Hsz) Hwf']; inversion HP as [|?? Hb' HP']; subst.
  destruct (anti_join_batch_spec s b) as (o1 & H1 & H2 & H3); try done.
  destruct (IH (Some ke, s.2 ++ o1)) as (e & o2 & H4 & H5 & H6); [by right|done..|].
  exists e, (o1 ++ o2). cbn [rfold]. rewrite H1. simpl. rewrite H4. simpl.
  split_and!; [by rewrite app_assoc|by apply Forall_app|].
  unfold stream_rows in *. csimpl. rewrite fmap_app, concat_app, H3, H6, filter_app. done.
Qed.
End AntiJoin.

(** ** Projection onto the user's columns *)

Section Project.
Context {AR : Arrow}.

Notation Schema := (list (Field DataType)).
Notation Row := (list (option Cell)).

(** No field matches another by its name or its field id. *)
Definition distinct_fields (schema : Schema) : Prop :=
  ∀ i j f g, schema !! i = Some f → schema !! j = Some g → field_id_or_name f g = true → i = j.

Lemma field_id_or_name_refl f : field_id_or_name f f = true.
Proof. unfold field_id_or_name. by rewrite decide_True. Qed.

Lemma project_column_prefix schema extra b k f :
  distinct_fields schema → b_schema b = schema ++ extra → batch_wf b → schema !! k = Some f →
  b_columns b !! k = Some (project_column b f).
Proof.
  intros Hd Hs Hwf Hk. unfold project_column.
  assert (b_schema b !! k = Some f) as Hk' by (rewrite Hs; by apply lookup_app_l_Some).
  assert (list_find (λ src, field_id_or_name src f = true) (b_schema b) = Some (k, f)) as ->.
  { apply list_find_Some. split_and!; [done|apply field_id_or_name_refl|].
    intros j g Hj Hlt Hm. rewrite Hs, lookup_app_l in Hj by (apply lookup_lt_Some in Hk; lia).
    pose proof (Hd j k g f Hj Hk Hm). lia. }
  destruct (Forall2_lookup_l _ _ _ _ _ Hwf Hk') as (c & Hc & _). by rewrite Hc.
Qed.

Lemma project_columns schema extra b :
  distinct_fields schema → b_schema b = schema ++ extra → batch_wf b →
  project_column b <$> schema = take (length schema) (b_columns b).
Proof.
  intros Hd Hs Hwf. apply list_eq. intros k. rewrite list_lookup_fmap.
  destruct (schema !! k) as [f|] eqn:Hk; simpl.
  - rewrite lookup_take_lt by (by eapply lookup_lt_Some). symmetry. by eapply project_column_prefix.
  - apply lookup_ge_None in Hk. by rewrite lookup_take_ge.
Qed.

Lemma project_batch_spec schema extra b :
  distinct_fields schema → b_schema b = schema ++ extra → batch_wf b →
  ∃ b', project_batch b schema = Ok b' ∧ b_rows b' = b_rows b ∧
    batch_rows b' = take (length schema) <$> batch_rows b.
Proof.
  intros Hd Hs Hwf. unfold project_batch. rewrite (project_columns schema extra b) by done.
  exists {| b_schema := schema; b_columns := take (length schema) (b_columns b); b_rows := b_rows b |}.
  split_and!; [|done|].
  - rewrite map_err_Ok, try_new_rows_Ok. split; [|done].
    assert (schema = take (length schema) (b_schema b)) as Hsc by (by rewrite Hs, take_app_length).
    rewrite Hsc at 1. by apply Forall2_take.
  - unfold batch_rows. simpl. rewrite <- list_fmap_compose. apply list_fmap_ext.
    intros _ i _. unfold row; simpl. by rewrite fmap_take.
Qed.

Lemma filter_nonempty_rows (schema : Schema) bs :
  stream_rows (filter (λ b, 0 < b_rows b ∨ schema = []) bs) = stream_rows bs.
Proof.
  unfold stream_rows. induction bs as [|b bs IH]; csimpl; [done|]. rewrite filter_cons.
  case_decide as Hb; csimpl; rewrite IH; [done|].
  assert (b_rows b = 0) as H0 by lia. unfold batch_rows. by rewrite H0.
Qed.

Lemma project_all_spec schema bs :
  distinct_fields schema →
  Forall (λ b, batch_wf b ∧ ∃ extra, b_schema b = schema ++ extra) bs →
  ∃ out, project_all schema bs = Ok out ∧ stream_rows out = take (length schema) <$> stream_rows bs.
Proof.
  intros Hd Hbs. unfold project_all.
  assert (∃ out, rtraverse (λ b, project_batch b schema) bs = Ok out ∧
    stream_rows out = take (length schema) <$> stream_rows bs) as (out & Ho & Hr).
  { induction Hbs as [|b bs (Hwf & extra & Hs) _ (out & IH1 & IH2)]; [by exists []|].
    destruct (project_batch_spec schema extra b) as (b' & H1 & H2 & H3); [done..|].
    exists (b' :: out). simpl. rewrite H1, IH1. split; [done|].
    unfold stream_rows in *. csimpl. by rewrite H3, IH2, fmap_app. }
  rewrite Ho. simpl. eexists. split; [done|]. by rewrite filter_nonempty_rows.
Qed.

Lemma length_row b i : batch_wf b → length (row b i) = length (b_schema b).
Proof. intros H%Forall2_length. unfold row. by rewrite length_fmap. Qed.

(** A projection onto the whole schema changes nothing. *)
Lemma take_stream_rows schema bs :
  Forall (λ b, batch_wf b ∧ b_schema b = schema) bs →
  take (length schema) <$> stream_rows bs = stream_rows bs.
Proof.
  unfold stream_rows. induction 1 as [|b bs [Hwf <-] _ IH]; csimpl; [done|].
  rewrite fmap_app, IH. f_equal. unfold batch_rows. rewrite <- list_fmap_compose.
  apply list_fmap_ext. intros _ i _. simpl. rewrite take_ge; [done|]. by rewrite length_row.
Qed.
End Project.

(** ** The sequential specification *)

Section Sequential.
Context {AR : Arrow}.
Context (schema : list (Field DataType)) (columns : list bytes).

Notation Row := (list (option Cell)).
Notation key := (row_key schema columns).

(** One mutation: the rows of its key go, an after-image comes. *)
Definition apply_mutation (T : list Row) (m : Row * MutationKind) : list Row :=
  filter (λ r, key r ≠ key m.1) T ++ (if decide (m.2 = Delete) then [] else [m.1]).

Definition untouched (ms : list (Row * MutationKind)) (r : Row) : Prop :=
  Forall (λ m, key r ≠ key m.1) ms.

#[global] Instance untouched_dec ms r : Decision (untouched ms r).
Proof. unfold untouched. apply _. Defined.

Fixpoint last_images (ms : list (Row * MutationKind)) : list Row :=
  match ms with
  | [] => []
  | m :: ms' => (if decide (m.2 ≠ Delete ∧ untouched ms' m.1) then [m.1] else []) ++ last_images ms'
  end.

Lemma apply_all T ms :
  foldl apply_mutation T ms = filter (untouched ms) T ++ last_images ms.
Proof.
  revert T; induction ms as [|m ms IH]; intros T; simpl.
  - rewrite app_nil_r. symmetry. apply filter_all, Forall_forall. constructor.
  - rewrite IH. unfold apply_mutation. rewrite filter_app, <- app_assoc. f_equal.
    + rewrite list_filter_filter. apply list_filter_iff. intros r. unfold untouched.
      rewrite Forall_cons. naive_solver.
    + f_equal. destruct (decide (m.2 = Delete)) as [Hd|Hd].
      * rewrite decide_False by naive_solver. done.
      * rewrite filter_cons, filter_nil. destruct (decide (untouched ms m.1)) as [Hu|Hu];
          [by rewrite decide_True|rewrite decide_False; [done|by intros []]].
Qed.
End Sequential.

(** ** Reconciliation applies the WAL to the lake in order *)

Definition mutations (evs : list WalEvent) : list ((nat * nat) * Mutation) :=
  omap (λ e : WalEvent, pair e.1 <$> e.2) evs.

Definition appends (evs : list WalEvent) : list (nat * nat) :=
  omap (λ e : WalEvent, if e.2 then None else Some e.1) evs.

(** [b] is at least as recent as [a]: the order in which mutations take effect. *)
Definition older (a b : (nat * nat) * Mutation) : Prop :=
  recent b.1 (m_tie b.2) a.1 (m_tie a.2).

Lemma mutations_elem evs p m : (p, m) ∈ mutations evs ↔ (p, Some m) ∈ evs.
Proof.
  unfold mutations. rewrite list_elem_of_omap. split.
  - intros ([q [n|]] & Hin & Hq); simplify_eq/=. done.
  - intros H. by exists (p, Some m).
Qed.

Lemma latest_mutations evs p m :
  latest evs p m ↔ ∀ p' m', (p', m') ∈ mutations evs → m_key m' = m_key m → recent p (m_tie m) p' (m_tie m').
Proof.
  unfold latest. rewrite Forall_forall. split.
  - intros H p' m' Hin%mutations_elem. by apply (H (p', Some m')).
  - intros H [p' [m'|]] Hin; [|done]. apply H. by apply mutations_elem.
Qed.

(** The survivors: every append row, and the latest non-deleting mutations. *)
Lemma survivors_split (S : WalEvent → Prop) {DS : ∀ e, Decision (S e)} evs :
  (∀ p, S (p, None)) →
  (filter S evs).*1 ≡ₚ appends evs ++ (filter (λ pm, S (pm.1, Some pm.2)) (mutations evs)).*1.
Proof.
  intros Hn. induction evs as [|[p [m|]] evs IH]; [done| |].
  - unfold mutations, appends in *. csimpl. rewrite !filter_cons. simpl.
    destruct (decide (S (p, Some m))); csimpl; rewrite IH; [|done]. by rewrite Permutation_middle.
  - unfold mutations, appends in *. csimpl. rewrite !filter_cons. rewrite decide_True by apply Hn.
    csimpl. by rewrite IH.
Qed.

(** In age order the latest mutation of a key is the one no later entry touches. *)
Lemma images_of_sorted {AR : Arrow} schema columns (img : nat * nat → list (option Cell)) evs ms pre :
  in_order evs → pre ++ ms ≡ₚ mutations evs → StronglySorted older (pre ++ ms) →
  (∀ p m p' m', (p, m) ∈ mutations evs → (p', m') ∈ mutations evs →
     m_key m = m_key m' ↔ row_key schema columns (img p) = row_key schema columns (img p')) →
  last_images schema columns ((λ pm, (img pm.1, m_kind pm.2)) <$> ms) =
  (λ pm, img pm.1) <$> filter (λ pm, survives evs (pm.1, Some pm.2)) ms.
Proof.
  intros Ho Hperm Hs Hk. revert pre Hperm Hs. induction ms as [|[p m] ms IH]; intros pre Hperm Hs; [done|].
  csimpl. rewrite filter_cons, (IH (pre ++ [(p, m)])) by (by rewrite <- app_assoc).
  assert (∀ x, x ∈ pre ++ (p, m) :: ms ↔ x ∈ mutations evs) as Hel by (intros x; by rewrite Hperm).
  assert ((p, m) ∈ mutations evs) as Hpm by (apply Hel; set_solver).
  assert (latest evs p m ↔ untouched schema columns ((λ pm, (img pm.1, m_kind pm.2)) <$> ms) (img p)) as Hl.
  { apply StronglySorted_app in Hs as (Hpre & _ & Hs). inversion Hs as [|?? _ Hall]; subst.
    rewrite latest_mutations. unfold untouched. rewrite Forall_fmap, !Forall_forall in *. split.
    - intros H [p' m'] Hin. simpl. intros He.
      assert ((p', m') ∈ mutations evs) as Hin' by (apply Hel; set_solver).
      assert (recent p (m_tie m) p' (m_tie m')) as Hr by (apply H; [done|]; symmetry; by apply (Hk p m p' m')).
      specialize (Hall _ Hin). unfold older in Hall. simpl in Hall.
      assert (p = p') as <- by by eapply recent_antisym.
      apply mutations_elem in Hpm, Hin'. pose proof (in_order_inj _ _ _ _ Ho Hpm Hin') as [= <-].
      assert (NoDup (pre ++ (p, m) :: ms)) as Hnd.
      { rewrite Hperm. apply NoDup_omap_strong; [|intros [? [?|]] [? [?|]] ??? ??; naive_solver].
        eapply NoDup_fmap_1. by apply in_order_sorted. }
      apply NoDup_app in Hnd as (_ & _ & Hnd). inversion Hnd; done.
    - intros H p' m' Hin' Hkey. assert ((p', m') ∈ pre ++ (p, m) :: ms) as Hin by by apply Hel.
      apply elem_of_app in Hin as [Hin|[Hin|Hin]%elem_of_cons].
      + apply (Hpre (p', m') (p, m)); [done|by left].
      + simplify_eq. apply recent_refl.
      + exfalso. apply (H _ Hin). simpl. symmetry. by apply (Hk p' m' p m). }
  simpl. destruct (decide (m_kind m ≠ Delete ∧ untouched _ _ _ _)) as [[H1 H2]|Hn];
    destruct (decide (m_kind m ≠ Delete ∧ latest evs p m)) as [[H3 H4]|Hn']; try done; naive_solver.
Qed.

Section Refinement.
Context {AR : Arrow}.
Context (schema : list (Field DataType)) (columns : list bytes).
Context (Hcolumns : columns ≠ []) (Hhas : has_columns schema columns).

Notation sidecar := (cdc_sidecar_schema schema).

Definition user_row (wal : list RecordBatch) (p : nat * nat) : list (option Cell) :=
  take (length schema) (row_at wal p).

Lemma list_find_app_l {A} (P : A → Prop) {DP : ∀ x, Decision (P x)} l1 l2 x :
  list_find P l1 = Some x → list_find P (l1 ++ l2) = Some x.
Proof.
  destruct x as [i x]. rewrite !list_find_Some. intros (Hi & Hx & Hmin).
  split_and!; [by apply lookup_app_l_Some|done|]. intros j y Hj Hlt.
  rewrite lookup_app_l in Hj by (apply lookup_lt_Some in Hi; lia). by eapply Hmin.
Qed.

(** The key columns are the user's: the sidecar does not shadow them. *)
Lemma sidecar_name c :
  c ∈ columns → field_with_name sidecar c = field_with_name schema c ∧
    name_index sidecar c = name_index schema c ∧
    ∃ i, name_index schema c = Some i ∧ i < length schema.
Proof.
  intros Hc. unfold has_columns in Hhas. rewrite Forall_forall in Hhas.
  destruct (Hhas c Hc) as [f Hf]. unfold field_with_name, name_index, cdc_sidecar_schema in *.
  destruct (list_find (λ f, f_name f = c) schema) as [[i f']|] eqn:E; [|done].
  rewrite (list_find_app_l _ _ _ _ E). split_and!; [done|done|]. exists i. split; [done|].
  apply list_find_Some in E as (E & _). by eapply lookup_lt_Some.
Qed.

Lemma sidecar_encoder : key_encoder_new sidecar columns = key_encoder_new schema columns.
Proof.
  unfold key_encoder_new. f_equal. assert (∀ l, (∀ c, c ∈ l → c ∈ columns) →
    rtraverse (λ c, rmap f_type (ok_or (missing_key c) (field_with_name sidecar c))) l =
    rtraverse (λ c, rmap f_type (ok_or (missing_key c) (field_with_name schema c))) l) as H; [|by apply H].
  induction l as [|c l IH]; intros Hl; simpl; [done|].
  destruct (sidecar_name c) as (-> & _); [apply Hl; by left|]. rewrite IH; [done|]. set_solver.
Qed.

Lemma user_row_key r : row_key schema columns (take (length schema) r) = row_key sidecar columns r.
Proof.
  unfold row_key. apply list_fmap_ext. intros k c Hc%list_elem_of_lookup_2.
  destruct (sidecar_name c Hc) as (_ & -> & i & -> & Hi). simpl. by rewrite lookup_take_lt.
Qed.

(** Every mutation carries the encoded key of its row, without a null. *)
Lemma wal_events_keys ke enc k bs evs p m :
  key_encoder_new sidecar columns = Ok ke → (enc = None ∨ enc = Some ke) → stream_wf sidecar bs →
  wal_events columns enc (imap (λ i b, (k + i, b)) bs) = Ok evs → (p, Some m) ∈ evs →
  ∃ i b, p.1 = k + i ∧ bs !! i = Some b ∧ p.2 < b_rows b ∧ key_at ke b p.2 (m_key m) ∧
    None ∉ row_key sidecar columns (row b p.2).
Proof.
  intros Hke. revert k enc evs; induction bs as [|b bs IH]; intros k enc evs Henc Hwf He Hin.
  { injection He as <-. by apply elem_of_nil in Hin. }
  inversion Hwf as [|?? (Hb & Hbs & _) Hwf']; subst.
  cbn [imap wal_events] in He. inv_res.
  match goal with H : encoder_for _ _ _ = Ok ?e |- _ => assert (e = ke) as -> end.
  { unfold encoder_for in *. destruct Henc as [->| ->]; [|by inv_res]. congruence. }
  match goal with H : key_encode _ _ _ = Ok ?x |- _ => rename H into Hk, x into keys end.
  match goal with H : batch_events _ _ _ _ = Ok ?x |- _ => rename H into Hev, x into evs1 end.
  match goal with H : wal_events _ _ _ = Ok ?x |- _ => rename H into Hrest, x into evs2 end.
  apply elem_of_app in Hin as [Hin|Hin].
  - unfold batch_events in Hev. rewrite rtraverse_Ok in Hev.
    destruct (Forall2_elem_of_r _ _ _ _ Hev Hin) as (j & [_ Hj]%elem_of_seq & Hrow).
    inv_res. unfold row_event in *. inv_res. case_match; [|done].
    destruct (value None keys j) as [key|] eqn:Hv; [|done]. inv_res.
    exists 0, b. simpl. rewrite <- Hbs in Hke.
    pose proof (key_encode_value b columns ke _ keys j Hcolumns Hb Hke Hk Hj) as Hval.
    rewrite Hv in Hval. destruct Hval as [Hat Hnull]. rewrite Hbs in Hnull. by split_and!.
  - destruct (IH (S k) (Some ke) evs2) as (i & b' & Hp & Hrest'); [by right|done| |done|].
    { rewrite <- Hrest. f_equal. apply imap_ext. intros i b' _. simpl. by rewrite Nat.add_succ_r. }
    exists (S i), b'. split; [lia|done].
Qed.

(** The encoder exists as soon as there is a batch. *)
Lemma wal_events_encoder bs evs p o :
  stream_wf sidecar bs → wal_events columns None (imap pair bs) = Ok evs → (p, o) ∈ evs →
  ∃ ke, key_encoder_new sidecar columns = Ok ke ∧ ke_columns ke = columns.
Proof.
  destruct bs as [|b bs]; [by intros _ [= <-] ?%elem_of_nil|].
  intros Hwf He _. inversion Hwf as [|?? (Hb & Hbs & _) Hwf']; subst.
  cbn [imap wal_events encoder_for] in He. inv_res. rewrite Hbs in *.
  eexists; split; [done|]. unfold key_encoder_new in *. by inv_res.
Qed.

Lemma mutation_keys wal evs p m p' m' :
  stream_wf sidecar wal → wal_events columns None (imap pair wal) = Ok evs →
  (p, m) ∈ mutations evs → (p', m') ∈ mutations evs →
  m_key m = m_key m' ↔ row_key schema columns (user_row wal p) = row_key schema columns (user_row wal p').
Proof.
  intros Hwf He H1%mutations_elem H2%mutations_elem.
  destruct (wal_events_encoder _ _ _ _ Hwf He H1) as (ke & Hke & Hkc).
  unfold user_row. rewrite !user_row_key. unfold row_at.
  destruct (wal_events_keys ke None 0 wal evs p m) as (i & b & Hi & Hb & _ & Hk & _); [auto..|].
  destruct (wal_events_keys ke None 0 wal evs p' m') as (i' & b' & Hi' & Hb' & _ & Hk' & _); [auto..|].
  simpl in *. rewrite Hi, Hb, Hi', Hb'. rewrite (key_at_inj ke b p.2 _ b' p'.2 _) by done.
  rewrite Hkc. unfold stream_wf in Hwf. rewrite Forall_forall in Hwf.
  destruct (Hwf b) as (_ & -> & _); [by eapply list_elem_of_lookup_2|].
  destruct (Hwf b') as (_ & -> & _); [by eapply list_elem_of_lookup_2|]. done.
Qed.

Lemma anti_join_lake_unfold lake changed cols :
  cols ≠ [] → anti_join_lake lake changed cols =
  if decide (changed = ∅) then Ok lake
  else rmap snd (rfold (anti_join_batch changed cols) (None, []) lake).
Proof. by destruct cols. Qed.

Notation images wal ms := ((λ pm, (user_row wal pm.1, m_kind pm.2)) <$> ms).

(** The anti-join keeps the lake rows no mutation touches. *)
Lemma anti_join_untouched wal lake evs ms :
  schema ≠ [] → stream_wf sidecar wal → stream_wf schema lake →
  wal_events columns None (imap pair wal) = Ok evs → ms ≡ₚ mutations evs →
  ∃ out, anti_join_lake lake (dom (foldl absorb (∅, []) evs).1) columns = Ok out ∧
    Forall (λ b, batch_wf b ∧ b_schema b = schema) out ∧
    stream_rows out = filter (untouched schema columns (images wal ms)) (stream_rows lake).
Proof.
  intros Hne Hw Hl He Hms. rewrite anti_join_lake_unfold by done.
  set (changed := dom (foldl absorb (∅, []) evs).1).
  assert (∀ k, k ∈ changed ↔ ∃ p m, (p, Some m) ∈ evs ∧ m_key m = k) as Hch
    by (intros k; by apply (changed_keys_spec columns None wal)).
  assert (∀ r, untouched schema columns (images wal ms) r ↔
    ∀ p m, (p, Some m) ∈ evs → row_key schema columns r ≠ row_key schema columns (user_row wal p)) as Hun.
  { intros r. unfold untouched. rewrite Forall_fmap, Forall_forall. split.
    - intros H p m Hin. apply (H (p, m)). rewrite Hms. by apply mutations_elem.
    - intros H [p m] Hin. apply (H p m). apply mutations_elem. by rewrite <- Hms. }
  case_decide as Hempty.
  - exists lake. split_and!; [done| |].
    + eapply Forall_impl; [exact Hl|]. naive_solver.
    + symmetry. apply filter_all, Forall_forall. intros r _. apply Hun. intros p m Hin.
      exfalso. assert (m_key m ∈ changed) as Hc by (apply Hch; eauto). rewrite Hempty in Hc. set_solver.
  - apply set_choose_L in Hempty as (k & (p & m & Hin & _)%Hch).
    destruct (wal_events_encoder _ _ _ _ Hw He Hin) as (ke & Hke & Hkc).
    assert (key_encoder_new schema columns = Ok ke) as Hke' by (by rewrite <- sidecar_encoder).
    destruct (anti_join_loop schema columns ke changed (untouched schema columns (images wal ms))
                Hne Hcolumns Hke' lake (None, [])) as (e & out & H1 & H2 & H3); [by left|done| |].
    2:{ exists out. rewrite H1. done. }
    eapply Forall_impl; [exact Hl|]. intros b (Hb & Hbs & _) i Hi. setoid_rewrite Hun.
    assert (∀ q n, (q, Some n) ∈ evs → ∃ b', key_at ke b' q.2 (m_key n) ∧
      None ∉ row_key sidecar columns (row b' q.2) ∧ b_schema b' = sidecar ∧ row_at wal q = row b' q.2) as Hq.
    { intros q n Hqn. destruct (wal_events_keys ke None 0 wal evs q n) as (i' & b' & Hi' & Hb' & _ & Hk' & Hn'); [auto..|].
      exists b'. unfold stream_wf in Hw. rewrite Forall_forall in Hw.
      destruct (Hw b') as (_ & Hs' & _); [by eapply list_elem_of_lookup_2|].
      split_and!; [done|done|done|]. unfold row_at. simpl in Hi'. by rewrite Hi', Hb'. }
    split.
    + intros key Hkey. split.
      * intros Hnot q n Hqn Heq. apply Hnot, Hch. exists q, n. split; [done|].
        destruct (Hq q n Hqn) as (b' & Hk' & _ & Hs' & Hr').
        apply (key_at_inj ke b' q.2 _ b i _ Hk' Hkey). rewrite Hkc, Hs', Hbs, <- Hr'.
        unfold user_row in Heq. by rewrite user_row_key in Heq.
      * intros Hall (q & n & Hqn & <-)%Hch. apply (Hall q n Hqn).
        destruct (Hq q n Hqn) as (b' & Hk' & _ & Hs' & Hr').
        pose proof (proj1 (key_at_inj ke b i _ b' q.2 _ Hkey Hk') eq_refl) as Heq.
        rewrite Hkc, Hs', Hbs, <- Hr' in Heq. unfold user_row. by rewrite user_row_key.
    + intros Hnull q n Hqn Heq. destruct (Hq q n Hqn) as (b' & _ & Hn' & Hs' & Hr').
      apply Hn'. rewrite <- Hr', <- user_row_key. unfold user_row in Heq. by rewrite <- Heq.
Qed.
End Refinement.

(** A stream whose every item arrived. *)
Lemma try_collect_ok {AR : Arrow} (bs : list RecordBatch) : try_collect (Ok <$> bs) = Ok bs.
Proof. unfold try_collect. induction bs as [|b bs IH]; csimpl; [done|]. by rewrite IH. Qed.

Lemma has_columns_schema {AR : Arrow} schema columns : columns ≠ [] → has_columns schema columns → schema ≠ [].
Proof. intros Hc Hh ->. destruct columns as [|c cs]; [done|]. inversion Hh as [|?? [f Hf]]; done. Qed.

(** Positions that events carry are rows of the stream. *)
Lemma events_in_stream {AR : Arrow} columns wal evs :
  wal_events columns None (imap pair wal) = Ok evs → Forall (in_stream wal) evs.*1.
Proof.
  intros He%(wal_events_pos columns None 0). rewrite He. apply Forall_forall.
  intros p (i & b & Hb & Hp & Hl)%positions_from_elem. exists b. split; [|done]. by rewrite Hp.
Qed.

Lemma collapse_rows {AR : Arrow} schema columns wal evs :
  columns ≠ [] → schema ≠ [] → stream_wf schema wal → wal_events columns None (imap pair wal) = Ok evs →
  ∃ kept, collapse_wal_batches wal columns =
      Ok {| changed_keys := dom (foldl absorb (∅, []) evs).1; survivor_batches := kept |} ∧
    Forall (λ b, batch_wf b ∧ b_schema b = schema) kept ∧
    stream_rows kept = row_at wal <$> (filter (survives evs) evs).*1.
Proof.
  intros Hc Hne Hwf He. rewrite collapse_events, He by done. simpl.
  pose proof (in_order_filter (survives evs) _ (wal_events_order _ _ _ _ He)) as Hs.
  destruct (take_rows_spec schema wal (filter (survives evs) evs).*1) as (kept & H1 & H2 & H3); try done.
  - by apply in_order_sorted.
  - eapply Forall_forall. intros p (e & -> & [_ Hin]%list_elem_of_filter)%list_elem_of_fmap.
    pose proof (events_in_stream _ _ _ He) as Hf. rewrite Forall_forall in Hf.
    apply Hf, list_elem_of_fmap. eauto.
  - exists kept. rewrite H1. by split_and!.
Qed.

(** C2: reconciling a WAL stream with a lake snapshot yields, up to the order of rows, the
    table obtained by applying the WAL's mutations to the lake one after the other from the
    oldest to the newest (by order token, then sequence, ordinal and row; of equal ones the
    first position takes effect last), plus every append row; and it does return. *)
Theorem reconcile_applies_in_order {AR : Arrow} {DF : DataFusion} e pool wal lake evs pool' :
  cr_business_key_columns e ≠ [] →
  has_columns (cr_schema e) (cr_business_key_columns e) → distinct_fields (cr_schema e) →
  stream_wf (cdc_sidecar_schema (cr_schema e)) wal → stream_wf (cr_schema e) lake →
  wal_events (cr_business_key_columns e) None (imap pair wal) = Ok evs →
  (let? p := reserve pool wal in reserve p lake) = Ok pool' →
  ∃ out, reconcile e pool (Ok <$> wal) (Ok <$> lake) = Ok out ∧
    ∀ ms, ms ≡ₚ mutations evs → StronglySorted older ms →
      stream_rows out ≡ₚ
        foldl (apply_mutation (cr_schema e) (cr_business_key_columns e)) (stream_rows lake)
          ((λ pm, (user_row (cr_schema e) wal pm.1, m_kind pm.2)) <$> ms)
        ++ (user_row (cr_schema e) wal <$> appends evs).
Proof.
  set (schema := cr_schema e). set (columns := cr_business_key_columns e).
  intros Hc Hh Hd Hw Hl He Hres. pose proof (has_columns_schema _ _ Hc Hh) as Hne.
  destruct (collapse_rows (cdc_sidecar_schema schema) columns wal evs) as (kept & Hcol & Hkw & Hkr);
    [done|by destruct schema|done..|].
  destruct (anti_join_untouched schema columns Hc Hh wal lake evs (mutations evs)) as (lk & Haj & Hlw & Hlr);
    [done..|].
  destruct (project_all_spec schema (lk ++ kept)) as (out & Hp & Hr); [done| |].
  { apply Forall_app. split.
    - eapply Forall_impl; [exact Hlw|]. intros b [? ?]. split; [done|]. exists []. by rewrite app_nil_r.
    - eapply Forall_impl; [exact Hkw|]. intros b [? ?]. split; [done|]. by exists cdc_sidecar_fields. }
  exists out. split.
  - unfold reconcile. rewrite !try_collect_ok. inv_res.
    match goal with H : reserve pool wal = Ok _ |- _ => rewrite H end. cbn [rbind]. fold columns schema.
    rewrite Hcol. cbn [rbind changed_keys survivor_batches].
    match goal with H : reserve _ lake = Ok _ |- _ => rewrite H end. cbn [rbind]. by rewrite Haj.
  - intros ms Hms Hs. rewrite Hr, apply_all.
    rewrite (images_of_sorted schema columns (user_row schema wal) evs ms []);
      [|by eapply wal_events_order|done|done|by intros; eapply mutation_keys].
    rewrite stream_rows_app, fmap_app.
    rewrite (take_stream_rows schema lk Hlw), Hlr, Hkr, <- app_assoc.
    assert (filter (untouched schema columns ((λ pm, (user_row schema wal pm.1, m_kind pm.2)) <$> mutations evs)) (stream_rows lake) =
            filter (untouched schema columns ((λ pm, (user_row schema wal pm.1, m_kind pm.2)) <$> ms)) (stream_rows lake)) as ->.
    { apply list_filter_iff. intros r. unfold untouched. by rewrite Hms. }
    apply Permutation_app_head.
    rewrite (survivors_split (survives evs)) by done. rewrite !fmap_app, Permutation_app_comm.
    rewrite Hms. unfold user_row. rewrite <- !list_fmap_compose. done.
Qed.

(** ** Sidecars: what is attached is what the collapse reads *)

Lemma u64_range_spec base n :
  (base + N.of_nat n ≤ U64_MAX)%N →
  u64_range base (wrapping_add_u64 base (N.of_nat n)) = (λ i, (base + N.of_nat i)%N) <$> seq 0 n.
Proof.
  intros H. unfold u64_range, wrapping_add_u64. rewrite N.mod_small by lia.
  by replace (N.to_nat (base + N.of_nat n - base)) with n by lia.
Qed.

Section Attach.
Context {AR : Arrow}.

Definition no_sidecar_names (schema : list (Field DataType)) : Prop :=
  Forall (λ f, is_cdc_sidecar_field (f_name f) = false) schema.

Lemma sidecar_column schema b n k :
  no_sidecar_names schema → b_schema b = cdc_sidecar_schema schema → is_cdc_sidecar_field n = true →
  name_index cdc_sidecar_fields n = Some k → length (b_columns b) = length (b_schema b) →
  column_by_name b n = b_columns b !! (length schema + k).
Proof.
  intros Hns Hs Hn Hk _. unfold column_by_name. rewrite Hs. unfold cdc_sidecar_schema, name_index in *.
  destruct (list_find (λ f, f_name f = n) cdc_sidecar_fields) as [[j f]|] eqn:Hf; [|done].
  injection Hk as ->.
  assert (list_find (λ f, f_name f = n) (schema ++ cdc_sidecar_fields) = Some (length schema + k, f)) as ->; [|done].
  apply list_find_Some in Hf as (Hf1 & Hf2 & Hf3). apply list_find_Some. split_and!; [|done|].
  - rewrite lookup_app_r by lia. by replace (length schema + k - length schema) with k by lia.
  - intros i g Hi Hlt Hg. destruct (decide (i < length schema)) as [Hsm|Hbig].
    + rewrite lookup_app_l in Hi by done. unfold no_sidecar_names in Hns. rewrite Forall_forall in Hns.
      pose proof (Hns g (list_elem_of_lookup_2 _ _ _ Hi)) as Hf. simpl in Hg. rewrite Hg in Hf.
      congruence.
    + rewrite lookup_app_r in Hi by lia. eapply (Hf3 (i - length schema) g); [done|lia|done].
Qed.

(** A typed array without nulls stands under a sidecar field of its type. *)
Lemma sidecar_fits {V} (down : ArrayRef → option (list V)) (a : ArrayRef) ty name (l : list V) n :
  (∀ l', down a = Some l' → length l' = array_len a) →
  down a = Some l ∧ data_type a = ty ∧ (∀ i, i < length l → cell a i ≠ None) → length l = n →
  column_fits data_type array_len cell n
    {| f_name := name; f_type := ty; f_nullable := false; f_metadata := [] |} a.
Proof.
  intros Hd (Ha & Ht & Hc) Hn. split; [done|]. simpl. rewrite <- (Hd l Ha). split; [done|].
  intros _ i Hi. apply Hc. lia.
Qed.

Lemma attach_columns b schema (muts : list N) toks seqs ords idx :
  batch_wf b → b_schema b = schema → no_sidecar_names schema →
  length muts = b_rows b → length toks = b_rows b → length seqs = b_rows b →
  length ords = b_rows b → length idx = b_rows b →
  let cols := b_columns b ++ [uint8_array muts; binary_array toks; uint64_array seqs;
                              uint32_array ords; uint64_array idx] in
  ∃ b', try_new (cdc_sidecar_schema schema) cols = Ok b' ∧ batch_wf b' ∧
    b_schema b' = cdc_sidecar_schema schema ∧ b_rows b' = b_rows b ∧
    (∀ i, take (length schema) (row b' i) = row b i) ∧
    read_cdc_columns b' = Ok {| sc_mutation := muts; sc_order := toks; sc_seq := seqs;
                            sc_ord := ords; sc_row := idx |}.
Proof.
  intros Hwf <- Hns H1 H2 H3 H4 H5 cols.
  pose proof (Forall2_length _ _ _ Hwf) as Hlen.
  assert (Forall2 (column_fits data_type array_len cell (b_rows b))
            (cdc_sidecar_schema (b_schema b)) cols) as Hfit.
  { apply Forall2_app; [done|]. repeat first [apply Forall2_nil_2|apply Forall2_cons_2];
      (eapply sidecar_fits;
       [|first [apply uint8_array_spec|apply uint32_array_spec|apply uint64_array_spec|apply binary_array_spec]|done];
       apply typed_len). }
  exists {| b_schema := cdc_sidecar_schema (b_schema b); b_columns := cols; b_rows := b_rows b |}.
  split; [apply try_new_Ok; split; [by destruct (b_columns b)|eauto]|].
  split; [done|]. split; [done|]. split; [done|]. split.
  - intros i. unfold row; simpl. unfold cols. rewrite fmap_app, take_app_le, take_ge; [done|..];
      rewrite length_fmap; lia.
  - unfold read_cdc_columns, uint8_col, binary_col, uint64_col, uint32_col, typed_col.
    set (b' := {| b_schema := _; b_columns := cols; b_rows := _ |}).
    assert (∀ k n, name_index cdc_sidecar_fields n = Some k → is_cdc_sidecar_field n = true →
      column_by_name b' n = cols !! (length (b_columns b) + k)) as Hcol.
    { intros k n Hk Hn. rewrite <- Hlen. apply (sidecar_column (b_schema b)); try done.
      by apply Forall2_length in Hfit. }
    rewrite (Hcol 0 CDC_MUTATION_COL), (Hcol 1 CDC_ORDER_COL), (Hcol 2 CDC_SEQ_COL),
      (Hcol 3 CDC_ORD_COL), (Hcol 4 CDC_ROW_COL) by reflexivity.
    unfold cols. rewrite !lookup_app_r by lia.
    replace (length (b_columns b) + 0 - length (b_columns b)) with 0 by lia.
    replace (length (b_columns b) + 1 - length (b_columns b)) with 1 by lia.
    replace (length (b_columns b) + 2 - length (b_columns b)) with 2 by lia.
    replace (length (b_columns b) + 3 - length (b_columns b)) with 3 by lia.
    replace (length (b_columns b) + 4 - length (b_columns b)) with 4 by lia. simpl.
    rewrite (proj1 (uint8_array_spec muts)), (proj1 (binary_array_spec toks)),
      (proj1 (uint64_array_spec seqs)), (proj1 (uint32_array_spec ords)), (proj1 (uint64_array_spec idx)).
    done.
Qed.
End Attach.

Lemma decode_encode_mutation k : decode_mutation (mutation_to_u8 k) = Ok (Some k).
Proof. by destruct k. Qed.

Lemma row_event_mutation {AR : Arrow} sc keys i kind key :
  sc_mutation sc !! i = Some (mutation_to_u8 kind) → value None keys i = Some key →
  row_event sc keys i = Ok (Some {| m_key := key; m_tie := tie_at sc i; m_kind := kind |}).
Proof.
  intros Hm Hk. unfold row_event. rewrite (value_lookup _ _ _ _ Hm), decode_encode_mutation. simpl.
  by rewrite Hk.
Qed.

Lemma batch_events_total {AR : Arrow} bi sc keys n :
  (∀ i, i < n → ∃ ev, row_event sc keys i = Ok ev) →
  ∃ evs, batch_events bi sc keys n = Ok evs ∧ length evs = n ∧
    ∀ i ev, i < n → row_event sc keys i = Ok ev → evs !! i = Some ((bi, i), ev).
Proof.
  intros H. unfold batch_events.
  assert (∃ evs, rtraverse (λ i, rmap (pair (bi, i)) (row_event sc keys i)) (seq 0 n) = Ok evs) as [evs He].
  { assert (∀ l, (∀ i, i ∈ l → i < n) → ∃ evs, rtraverse (λ i, rmap (pair (bi, i)) (row_event sc keys i)) l = Ok evs) as Hl.
    { induction l as [|i l IH]; intros Hl; [by exists []|]. simpl.
      destruct (H i) as [ev ->]; [apply Hl; by left|]. destruct IH as [evs ->]; [|by eexists].
      intros j Hj. apply Hl. by right. }
    apply Hl. intros i Hi%elem_of_seq. lia. }
  exists evs. apply rtraverse_Ok in He as Hf. split_and!; [done| |].
  - apply Forall2_length in Hf. by rewrite length_seq in Hf.
  - intros i ev Hi Hev. destruct (Forall2_lookup_l _ _ _ i i Hf) as (y & Hy & Hr).
    { by rewrite lookup_seq_lt. }
    rewrite Hev in Hr. simpl in Hr. by injection Hr as <-.
Qed.

(** A sidecar that is attached is the one the collapse reads: each row's event carries
    its kind, its order token, and the segment's sequence, ordinal and row number. *)
Theorem attach_then_events {AR : Arrow} b muts toks sq ord base columns ke :
  batch_wf b → no_sidecar_names (b_schema b) → columns ≠ [] → has_columns (b_schema b) columns →
  key_encoder_new (b_schema b) columns = Ok ke →
  (∀ i, i < b_rows b → None ∉ row_key (b_schema b) columns (row b i)) →
  length muts = b_rows b → length toks = b_rows b → (base + N.of_nat (b_rows b) ≤ U64_MAX)%N →
  ∃ b' evs, attach_cdc_sidecar b muts toks sq ord base = Ok b' ∧
    b_schema b' = cdc_sidecar_schema (b_schema b) ∧
    (∀ i, take (length (b_schema b)) (row b' i) = row b i) ∧
    wal_events columns None (imap pair [b']) = Ok evs ∧ length evs = b_rows b ∧
    ∀ i kind tok, muts !! i = Some kind → toks !! i = Some tok →
      ∃ key, evs !! i = Some ((0, i), Some {| m_key := key; m_kind := kind;
        m_tie := {| tie_order_token := tok; tie_seq := sq; tie_ordinal := ord;
                    tie_row := base + N.of_nat i |} |}).
Proof.
  intros Hwf Hns Hc Hh Hke Hnn Hm Ht Hb. unfold attach_cdc_sidecar.
  rewrite Hm, Ht, !Nat.eqb_refl. cbn [negb orb]. rewrite u64_range_spec by done.
  destruct (attach_columns b (b_schema b) (mutation_to_u8 <$> muts) toks (replicate (b_rows b) sq)
    (replicate (b_rows b) ord) ((λ i, (base + N.of_nat i)%N) <$> seq 0 (b_rows b)))
    as (b' & Hb' & Hwf' & Hs' & Hr' & Hrow' & Hsc); [done|done|done|..]; try by rewrite ?length_fmap, ?length_replicate, ?length_seq.
  exists b'. rewrite Hb'. simpl.
  rewrite <- (sidecar_encoder (b_schema b) columns), <- Hs' in Hke by done.
  destruct (key_encode_total b' columns ke NkReject) as [keys Hk]; [done..| |].
  { right. intros i Hi. rewrite Hs', <- user_row_key, Hrow' by done. apply Hnn. lia. }
  rewrite Hsc, Hke. simpl. rewrite Hk. simpl.
  set (sc := {| sc_mutation := _ |}) in *.
  assert (∀ i, i < b_rows b' → ∃ key kind, value None keys i = Some key ∧ muts !! i = Some kind ∧
    row_event sc keys i = Ok (Some {| m_key := key; m_tie := tie_at sc i; m_kind := kind |})) as Hev.
  { intros i Hi. destruct (lookup_lt_is_Some_2 muts i) as [kind Hkind]; [lia|].
    pose proof (key_encode_value b' columns ke _ keys i Hc Hwf' Hke Hk Hi) as Hv.
    destruct (value None keys i) as [key|] eqn:Hval; [|by destruct Hv]. exists key, kind.
    split_and!; [done|done|]. apply row_event_mutation; [|done]. simpl. by rewrite list_lookup_fmap, Hkind. }
  destruct (batch_events_total 0 sc keys (b_rows b')) as (evs & Hevs & Hlen & Hat).
  { intros i Hi. destruct (Hev i Hi) as (? & ? & _ & _ & ?). eauto. }
  rewrite Hevs. simpl. exists (evs ++ []). rewrite app_nil_r. split_and!; [done|done|done|done|lia|].
  intros i kind tok Hki Hti. assert (i < b_rows b') as Hi by (apply lookup_lt_Some in Hki; lia).
  destruct (Hev i Hi) as (key & kind' & Hval & Hk' & Hre). simplify_eq.
  exists key. rewrite (Hat i _ Hi Hre). do 4 f_equal. unfold tie_at, value. simpl.
  rewrite Hti, !lookup_replicate_2, list_lookup_fmap, lookup_seq_lt by lia. done.
Qed.

(** ** The type of the output *)


(** ** Null keys on append rows *)

Lemma rtraverse_Err {E A B} (f : A → result E B) e l x :
  (∀ y, y ∈ l → (∃ b, f y = Ok b) ∨ f y = Err e) → x ∈ l → f x = Err e → rtraverse f l = Err e.
Proof.
  induction l as [|y l IH]; intros Hf Hx He; [by apply elem_of_nil in Hx|]. simpl.
  destruct (Hf y) as [[b Hb]|Hb]; [by left| |by rewrite Hb].
  rewrite Hb. simpl. apply elem_of_cons in Hx as [->|Hx]; [congruence|].
  rewrite IH; [done| |done|done]. intros z Hz. apply Hf. by right.
Qed.

Lemma key_encode_reject {AR : Arrow} b columns ke i :
  columns ≠ [] → batch_wf b → key_encoder_new (b_schema b) columns = Ok ke → i < b_rows b →
  None ∈ row_key (b_schema b) columns (row b i) → key_encode ke b NkReject = Err null_business_key.
Proof.
  intros Hc Hwf Hke Hi Hn. destruct (encoder_columns b columns ke) as (Hcs & cols & rows & Hcol & Hr & Hl); try done.
  unfold key_encode. rewrite Hcs, Hcol. simpl. rewrite Hr. simpl.
  apply (rtraverse_Err _ _ _ i).
  - intros j _. destruct (existsb (λ c, is_null c j) cols); eauto.
  - apply elem_of_seq. lia.
  - by rewrite (proj2 (existsb_null_row_key _ _ _ i Hcol)).
Qed.

(** A row with a null business key fails the whole collapse, whatever its mutation
    code: also an append row, which has no key to suppress. *)
Theorem append_null_key_rejected {AR : Arrow} b columns ke sc i :
  columns ≠ [] → batch_wf b → key_encoder_new (b_schema b) columns = Ok ke →
  read_cdc_columns b = Ok sc →
  i < b_rows b → None ∈ row_key (b_schema b) columns (row b i) →
  collapse_wal_batches [b] columns = Err null_business_key.
Proof.
  intros Hc Hwf Hke Hsc Hi Hn. rewrite collapse_events by done. simpl.
  rewrite Hsc, Hke. simpl. by rewrite (key_encode_reject b columns ke i).
Qed.

(** ** The plan's wire form *)

(** A reconcile node that is encoded and decoded with its own children is the same
    node: the schema, the business keys and the single-partition children survive. *)
Theorem plan_bytes_roundtrip {AR : Arrow} {DF : DataFusion} {NC : Codec (bytes * list bytes)}
    iceberg wal columns schema e buf :
  cdc_reconcile_try_new iceberg wal columns schema = Ok e → encode_bytes e = Ok buf →
  from_bytes buf [cr_iceberg e; cr_wal e] = Ok e.
Proof.
  unfold cdc_reconcile_try_new. intros H Hb. repeat case_match; try done.
  injection H as <-. unfold encode_bytes in Hb. cbn [cr_schema cr_business_key_columns] in Hb. inv_res.
  match goal with H : serialize _ = Ok _ |- _ => apply deserialize_serialize in H as Hd end.
  unfold schema_to_ipc in *. inv_res.
  match goal with H : ipc_write _ = Ok _ |- _ => apply ipc_roundtrip in H as Hi end.
  unfold from_bytes. rewrite Hd. cbn [map_err rbind fst snd]. unfold schema_from_ipc. rewrite Hi.
  cbn [map_err rbind]. unfold cdc_reconcile_try_new. rewrite decide_False by done.
  assert (∀ p, plan_schema (coalesce_single p) = plan_schema p) as Hs.
  { intros p. unfold coalesce_single. case_match; [done|apply coalesce_schema]. }
  assert (∀ p, coalesce_single (coalesce_single p) = coalesce_single p) as Hcc.
  { intros p. unfold coalesce_single at 2 3. destruct (partition_count p <=? 1) eqn:Hp.
    - unfold coalesce_single. by rewrite Hp.
    - unfold coalesce_single. by rewrite coalesce_count. }
  cbn [cr_iceberg cr_wal]. rewrite !Hs, !Hcc.
  repeat match goal with H : negb _ = false |- _ => rewrite H end. done.
Qed.

(** ** A concrete lake and WAL

    The lake holds rows 1 and 2; the WAL updates 1, deletes 2, and inserts and then updates
    3, the two mutations of 3 in the reverse order of their tokens. *)

Module Example.
Import ToyArrow.

#[local] Existing Instance ToyArrow.arrow.

Definition fld (n : bytes) (t : Ty) : Field Ty :=
  {| f_name := n; f_type := t; f_nullable := true; f_metadata := [] |}.
Definition schema : list (Field DataType) := [fld (str "id") TLong; fld (str "v") TText].

Definition user (ids : list (option Val)) (vs : list (option Val)) : RecordBatch :=
  {| b_schema := schema; b_rows := length ids;
     b_columns := [{| arr_ty := TLong; arr_cells := ids |}; {| arr_ty := TText; arr_cells := vs |}] |}.

Definition n (x : N) : option Val := Some (inl x).
Definition t (s : bytes) : option Val := Some (inr s).

Definition lake : RecordBatch := user [n 1; n 2] [t (str "a"); t (str "b")].
Definition changes : RecordBatch :=
  user [n 1; n 2; n 3; n 3] [t (str "c"); None; t (str "late"); t (str "early")].

Definition sidecar_of (r : result DFErr RecordBatch) : RecordBatch :=
  match r with Ok b => b | Err _ => lake end.

Definition wal : RecordBatch :=
  sidecar_of (attach_cdc_sidecar changes [Update; Delete; Update; Insert]
                [[x01]; [x01]; [x03]; [x02]] 7 0 0).

Definition null_append : RecordBatch :=
  sidecar_of (attach_append_sidecar (user [None] [t (str "z")]) 7 0 0).

#[local] Program Instance datafusion : DataFusion := {|
  coalesce_partitions p :=
    {| plan_schema := plan_schema p; partition_count := 1; plan_execute := plan_execute p |};
  MemoryPool := N;
  try_grow free n := if (n <=? free)%N then Ok (free - n)%N else Err (ResourcesErr []);
  array_memory_size _ := 1%N;
  ipc_write s := if decide (s = schema) then Ok [] else Err [];
  ipc_read _ := Ok schema;
  coalesce_schema _ := eq_refl;
  coalesce_count _ := eq_refl
|}.
Next Obligation. intros s bs. simpl. case_decide; by subst. Qed.

#[local] Instance node_codec : Codec (bytes * list bytes) := countable_codec.

Definition plan_of (s : list (Field DataType)) (b : RecordBatch) : Plan :=
  {| plan_schema := s; partition_count := 2; plan_execute := λ _, Ok [Ok b] |}.

Definition exec : CdcReconcileExec := {|
  cr_schema := schema;
  cr_iceberg := coalesce_single (plan_of schema lake);
  cr_wal := coalesce_single (plan_of (cdc_sidecar_schema schema) wal);
  cr_business_key_columns := [str "id"]
|}.

Definition id_encoder : @KeyEncoder arrow := @Build_KeyEncoder arrow tt [str "id"].

Definition events : list WalEvent :=
  match wal_events [str "id"] None (imap pair [wal]) with Ok evs => evs | Err _ => [] end.

Lemma batch_wf_dec (b : RecordBatch) : all_fit (b_rows b) (b_schema b) (b_columns b) = true → batch_wf b.
Proof. by intros ?%all_fit_spec. Qed.

Lemma lake_wf : stream_wf schema [lake].
Proof. apply Forall_singleton. split; [by apply batch_wf_dec|done]. Qed.
Lemma wal_wf : stream_wf (cdc_sidecar_schema schema) [wal].
Proof. apply Forall_singleton. split; [apply batch_wf_dec; by vm_compute|split; by vm_compute]. Qed.

Lemma distinct : distinct_fields schema.
Proof.
  intros [|[|i]] [|[|j]] f g; simpl; intros; simplify_eq/=; done.
Qed.

(** C witness *)
Lemma reconcile_applies_in_order_witness :
  ∃ out, reconcile (DF := datafusion) exec 10%N [Ok wal] [Ok lake] = Ok out ∧
    stream_rows out ≡ₚ [[n 1; t (str "c")]; [n 3; t (str "late")]].
Proof.
  destruct (reconcile_applies_in_order (DF := datafusion) exec 10%N [wal] [lake] events 8%N) as (out & Ho & Hms).
  - done.
  - repeat constructor; by eexists.
  - apply distinct.
  - apply wal_wf.
  - apply lake_wf.
  - by vm_compute.
  - by vm_compute.
  - exists out. split; [done|].
    set (ms := mutations events). assert (ms ≡ₚ mutations events) as Hp by done.
    assert (∃ a b c d, ms = [a; b; c; d]) as (a & b & c & d & Hm).
    { unfold ms. vm_compute. by eexists _, _, _, _. }
    rewrite Hm in Hp. specialize (Hms [a; b; d; c]).
    etrans; [apply Hms|].
    + rewrite <- Hp. apply perm_skip, perm_skip, perm_swap.
    + vm_compute in Hm. injection Hm as <- <- <- <-.
      repeat constructor; vm_compute; tauto.
    + vm_compute in Hm. injection Hm as <- <- <- <-. by vm_compute.
Defined.


Lemma attach_then_events_witness :
  ∃ b' evs key, attach_cdc_sidecar changes [Update; Delete; Update; Insert]
      [[x01]; [x01]; [x03]; [x02]] 7 0 0 = Ok b' ∧
    wal_events [str "id"] None (imap pair [b']) = Ok evs ∧
    evs !! 2 = Some ((0, 2), Some {| m_key := key; m_kind := Update;
      m_tie := {| tie_order_token := [x03]; tie_seq := 7; tie_ordinal := 0; tie_row := 2 |} |}).
Proof.
  destruct (attach_then_events changes [Update; Delete; Update; Insert] [[x01]; [x01]; [x03]; [x02]]
    7 0 0 [str "id"] id_encoder)
    as (b' & evs & H1 & _ & _ & H2 & _ & H3).
  - by apply batch_wf_dec.
  - repeat constructor.
  - done.
  - repeat constructor; by eexists.
  - done.
  - intros [|[|[|[|i]]]]; vm_compute; [intros _; set_solver..|lia].
  - done.
  - done.
  - done.
  - destruct (H3 2 Update [x03]) as [key Hk]; [done|done|]. by exists b', evs, key.
Defined.

Lemma append_null_key_rejected_witness :
  read_cdc_columns null_append = Ok {| sc_mutation := [MUT_NONE]; sc_order := [[]]; sc_seq := [7%N];
                                   sc_ord := [0%N]; sc_row := [0%N] |} ∧
  collapse_wal_batches [null_append] [str "id"] = Err null_business_key.
Proof.
  split; [by vm_compute|].
  apply (append_null_key_rejected null_append [str "id"] id_encoder
    {| sc_mutation := [MUT_NONE]; sc_order := [[]]; sc_seq := [7%N]; sc_ord := [0%N]; sc_row := [0%N] |} 0).
  - done.
  - apply batch_wf_dec. by vm_compute.
  - by vm_compute.
  - by vm_compute.
  - vm_compute. lia.
  - vm_compute. by left.
Defined.

Lemma plan_bytes_roundtrip_witness :
  ∃ buf, encode_bytes (DF := datafusion) exec = Ok buf ∧
    from_bytes (DF := datafusion) buf [cr_iceberg exec; cr_wal exec] = Ok exec.
Proof.
  eexists. split; [by vm_compute|].
  apply (plan_bytes_roundtrip (DF := datafusion) (plan_of schema lake)
           (plan_of (cdc_sidecar_schema schema) wal) [str "id"] schema); [done|].
  by vm_compute.
Defined.
End Example.
