(* ===== verification/CatalogOutbox.v ===== *)
(** * CatalogOutbox: the durable outbox of catalog intents

    Models src/catalog_outbox.rs and the intent types of src/runtime_plugins/protocol.rs.
    The outbox is a directory of JSON envelopes, one per intent identity, and an index of
    their metadata behind a mutex.  The directory is a map from file names to contents; a
    file operation may fail at any step ([faults]), a failed write may leave any prefix of
    its bytes ([torn]) and the clock is arbitrary ([clock]).  The specification of the index
    is a function of the directory: recovery rebuilds the index the operations maintain. *)

From S2P Require Import Prelude Bytes Text Io Codec.

(** ** Intents *)

Definition CATALOG_INTENT_VERSION : N := 2.
Definition GLUE_PARTITION_CATALOG_INTENT_VERSION : N := 1.

Inductive CatalogIntentKind : Type := UpsertPartition.

Record CatalogIntentIdentity : Type := {
  ci_sink_ref : bytes;
  ci_namespace : bytes;
  ci_kind : CatalogIntentKind;
  ci_key : bytes
}.

Record GlueColumnIntent : Type := {
  gc_name : bytes;
  gc_type : bytes;
  gc_comment : option bytes
}.

Record GluePartitionCatalogIntentV1 : Type := {
  gp_version : N;
  gp_region : option bytes;
  gp_catalog_id : option bytes;
  gp_database : bytes;
  gp_table : bytes;
  gp_partition_values : list bytes;
  gp_location : bytes;
  gp_storage_columns : list GlueColumnIntent;
  gp_partition_columns : list GlueColumnIntent;
  gp_input_format : bytes;
  gp_output_format : bytes;
  gp_serde_library : bytes;
  gp_schema_namespace : bytes;
  gp_schema_version : N
}.

Record CatalogIntent : Type := {
  ci_version : N;
  ci_identity : CatalogIntentIdentity;
  ci_payload : GluePartitionCatalogIntentV1
}.

#[global] Instance CatalogIntentKind_eq_dec : EqDecision CatalogIntentKind.
Proof. solve_decision. Defined.
#[global] Instance CatalogIntentIdentity_eq_dec : EqDecision CatalogIntentIdentity.
Proof. solve_decision. Defined.
#[global] Instance GlueColumnIntent_eq_dec : EqDecision GlueColumnIntent.
Proof. solve_decision. Defined.
#[global] Instance GluePartition_eq_dec : EqDecision GluePartitionCatalogIntentV1.
Proof. solve_decision. Defined.
#[global] Instance CatalogIntent_eq_dec : EqDecision CatalogIntent.
Proof. solve_decision. Defined.

Definition from_glue_fields (name : bytes) (ty comment : option bytes) : GlueColumnIntent :=
  {| gc_name := name; gc_type := default (str "string") ty; gc_comment := comment |}.

(** [s.trim().is_empty()]. *)
Definition blank (s : bytes) : bool := bool_decide (trim s = []).

Definition is_admissible (i : CatalogIntent) : bool :=
  let p := ci_payload i in
  (ci_version i =? CATALOG_INTENT_VERSION)%N &&
  negb (blank (ci_namespace (ci_identity i))) &&
  negb (blank (ci_key (ci_identity i))) &&
  (gp_version p =? GLUE_PARTITION_CATALOG_INTENT_VERSION)%N &&
  negb (blank (gp_database p)) &&
  negb (blank (gp_table p)) &&
  negb (blank (gp_location p)) &&
  bool_decide (gp_schema_namespace p = ci_namespace (ci_identity i)) &&
  negb (bool_decide (gp_partition_values p = [])) &&
  (length (gp_partition_values p) =? length (gp_partition_columns p)) &&
  forallb (λ v, negb (blank v)) (gp_partition_values p) &&
  forallb (λ c, negb (blank (gc_name c))) (gp_partition_columns p).

(** ** Entries *)

Definition CATALOG_OUTBOX_FORMAT_VERSION : N := 2.
Definition MAX_ENTRY_BYTES : N := 1048576.

Record CatalogOutboxPersistSummary : Type := {
  inserted : N;
  coalesced : N;
  updated : N
}.

Inductive ConditionalMutationResult : Type := Applied | Stale.

#[global] Instance ConditionalMutationResult_eq_dec : EqDecision ConditionalMutationResult.
Proof. solve_decision. Defined.

Record PendingCatalogIntent : Type := {
  p_id : bytes;
  p_intent : CatalogIntent;
  p_created_at_ms : N;
  p_updated_at_ms : N;
  p_attempts : N;
  p_next_attempt_at_ms : N;
  p_last_error : option bytes;
  p_terminal : bool
}.

#[global] Instance PendingCatalogIntent_eq_dec : EqDecision PendingCatalogIntent.
Proof. solve_decision. Defined.

Record CatalogOutboxEnvelope : Type := {
  env_version : N;
  env_checksum_sha256 : bytes;
  env_entry : PendingCatalogIntent
}.

Record IndexedIntentMetadata : Type := {
  im_created_at_ms : N;
  im_updated_at_ms : N;
  im_next_attempt_at_ms : N;
  im_terminal : bool;
  im_generation_sha256 : bytes;
  im_intent_sha256 : bytes
}.

(** ** Files *)

Inductive FsErr : Type :=
| NotFound
| AlreadyExists
| FsInvalidData (message : bytes)
| FsInvalidInput (message : bytes)
| FsOther (message : bytes).

#[global] Instance FsErr_eq_dec : EqDecision FsErr.
Proof. solve_decision. Defined.

(** [Path::file_stem] and [Path::extension] of a file name: split at the last dot. *)
Definition file_parts (name : bytes) : bytes * option bytes :=
  if decide (name = str "..") then (name, None)
  else match rsplit_once x2e name with
       | None | Some ([], _) => (name, None)
       | Some (before, after) => (before, Some after)
       end.

(** The pending directory, and a counter of the steps taken: each file operation and each
    reading of the clock is one. *)
Record Disk : Type := { d_files : gmap bytes bytes; d_step : N }.

(** ** The index *)

Record OutboxIndex : Type := {
  oi_entries : gmap bytes IndexedIntentMetadata;
  oi_due : gset (N * bytes);
  oi_created : gset (N * bytes);
  oi_terminal_count : N;
  oi_oldest_created_at_ms : option N;
  oi_directory_sync_required : bool
}.

Definition index_default : OutboxIndex := {|
  oi_entries := ∅; oi_due := ∅; oi_created := ∅; oi_terminal_count := 0;
  oi_oldest_created_at_ms := None; oi_directory_sync_required := false
|}.

(** The order of [(u64, String)], in which a [BTreeSet] iterates. *)
Definition stamp_leb (x y : N * bytes) : bool :=
  if (x.1 <? y.1)%N then true
  else if (y.1 <? x.1)%N then false
  else bytes_leb x.2 y.2.

Definition stamp_le (x y : N * bytes) : Prop := stamp_leb x y = true.

#[global] Instance stamp_le_dec : RelDecision stamp_le.
Proof. intros x y. unfold stamp_le. apply _. Defined.

Definition in_stamp_order (s : gset (N * bytes)) : list (N * bytes) :=
  merge_sort stamp_le (elements s).

(** [created.first().map(|(created, _)| *created)]. *)
Definition first_created (s : gset (N * bytes)) : option N := fst <$> head (in_stamp_order s).

Definition index_remove (id : bytes) (i : OutboxIndex) : OutboxIndex :=
  match oi_entries i !! id with
  | None => i
  | Some existing =>
      let created := oi_created i ∖ {[(im_created_at_ms existing, id)]} in
      {| oi_entries := delete id (oi_entries i);
         oi_due := if im_terminal existing then oi_due i
                   else oi_due i ∖ {[(im_next_attempt_at_ms existing, id)]};
         oi_created := created;
         oi_terminal_count := if im_terminal existing
                              then saturating_sub (oi_terminal_count i) 1
                              else oi_terminal_count i;
         oi_oldest_created_at_ms := first_created created;
         oi_directory_sync_required := oi_directory_sync_required i |}
  end.

Definition index_upsert (id : bytes) (m : IndexedIntentMetadata) (i : OutboxIndex) : OutboxIndex :=
  let i := index_remove id i in
  let created := {[(im_created_at_ms m, id)]} ∪ oi_created i in
  {| oi_entries := <[id := m]> (oi_entries i);
     oi_due := if im_terminal m then oi_due i
               else {[(im_next_attempt_at_ms m, id)]} ∪ oi_due i;
     oi_created := created;
     oi_terminal_count := if im_terminal m then (oi_terminal_count i + 1)%N else oi_terminal_count i;
     oi_oldest_created_at_ms := first_created created;
     oi_directory_sync_required := oi_directory_sync_required i |}.

(** [String::from(char::MAX)]. *)
Definition CHAR_MAX : bytes := [xf4; x8f; xbf; xbf].

(** [due.range(..=(now_ms, char::MAX))]. *)
Definition due_range (i : OutboxIndex) (now_ms : N) : list (N * bytes) :=
  filter (λ d, stamp_le d (now_ms, CHAR_MAX)) (in_stamp_order (oi_due i)).

Definition due_ids (i : OutboxIndex) (now_ms limit : N) : list bytes :=
  snd <$> takeN limit (due_range i now_ms).

Definition set_sync (b : bool) (i : OutboxIndex) : OutboxIndex := {|
  oi_entries := oi_entries i; oi_due := oi_due i; oi_created := oi_created i;
  oi_terminal_count := oi_terminal_count i;
  oi_oldest_created_at_ms := oi_oldest_created_at_ms i;
  oi_directory_sync_required := b
|}.

Record CatalogOutboxMetadataSnapshot : Type := {
  ms_pending_count : N;
  ms_due_count : N;
  ms_deferred_count : N;
  ms_terminal_count : N;
  ms_oldest_created_at_ms : option N
}.

(** The outbox: the index behind the lock and the directory on disk. *)
Record Outbox : Type := { ob_index : OutboxIndex; ob_disk : Disk }.

Section Outbox.
Context {DG : Digest}.
Context {JI : Codec CatalogIntentIdentity} {JC : Codec CatalogIntent}
  {JP : Codec PendingCatalogIntent} {JE : Codec CatalogOutboxEnvelope}.
(** The environment: faults and clock readings by step, what a failed write leaves, and
    the process id in the names of temporary files. *)
Context (faults : N → option FsErr) (clock : N → N) (torn : N → nat) (pid : N).

Notation ob A := (st Outbox FsErr A).

Definition json {A} {J : Codec A} (a : A) : result FsErr bytes := map_err FsInvalidData (serialize a).

Definition stable_intent_id (identity : CatalogIntentIdentity) : result FsErr bytes :=
  let? bs := json identity in Ok (sha256_hex bs).

Definition entry_generation (entry : PendingCatalogIntent) : result FsErr bytes :=
  let? bs := json entry in Ok (sha256 bs).

Definition intent_generation (intent : CatalogIntent) : result FsErr bytes :=
  let? bs := json intent in Ok (sha256 bs).

Definition checksum (entry : PendingCatalogIntent) : result FsErr bytes :=
  let? bs := json entry in Ok (sha256_hex bs).

Definition metadata_from_entry (entry : PendingCatalogIntent) : result FsErr IndexedIntentMetadata :=
  let? generation := entry_generation entry in
  let? intent := intent_generation (p_intent entry) in
  Ok {| im_created_at_ms := p_created_at_ms entry;
        im_updated_at_ms := p_updated_at_ms entry;
        im_next_attempt_at_ms := p_next_attempt_at_ms entry;
        im_terminal := p_terminal entry;
        im_generation_sha256 := generation;
        im_intent_sha256 := intent |}.

Definition entry_path (id : bytes) : bytes := id ++ str ".json".

(** ** Steps of the environment *)

Definition on_disk {A} (f : Disk → result FsErr A * Disk) : ob A :=
  λ s, let '(r, d) := f (ob_disk s) in (r, {| ob_index := ob_index s; ob_disk := d |}).

Definition update_index (f : OutboxIndex → OutboxIndex) : ob unit :=
  λ s, (Ok tt, {| ob_index := f (ob_index s); ob_disk := ob_disk s |}).

Definition get_index : ob OutboxIndex := λ s, (Ok (ob_index s), s).

Definition tick (d : Disk) : Disk := {| d_files := d_files d; d_step := d_step d + 1 |}.

Definition set_files (fs : gmap bytes bytes) (d : Disk) : Disk :=
  {| d_files := fs; d_step := d_step d + 1 |}.

(** One file operation: it fails without an effect where the environment says so. *)
Definition fs_op {A} (f : gmap bytes bytes → result FsErr A * gmap bytes bytes) (d : Disk)
    : result FsErr A * Disk :=
  match faults (d_step d) with
  | Some e => (Err e, tick d)
  | None => let '(r, fs) := f (d_files d) in (r, set_files fs d)
  end.

Definition now_ms : ob N := on_disk (λ d, (Ok (clock (d_step d)), tick d)).

Definition fs_read (name : bytes) : ob bytes :=
  on_disk (fs_op (λ fs, (ok_or NotFound (fs !! name), fs))).

Definition fs_remove (name : bytes) : ob unit :=
  on_disk (fs_op (λ fs, match fs !! name with
                        | Some _ => (Ok tt, delete name fs)
                        | None => (Err NotFound, fs)
                        end)).

Definition fs_create_new (name : bytes) : ob unit :=
  on_disk (fs_op (λ fs, match fs !! name with
                        | Some _ => (Err AlreadyExists, fs)
                        | None => (Ok tt, <[name := []]> fs)
                        end)).

(** A write that fails may have stored a prefix. *)
Definition fs_write (name : bytes) (bs : bytes) : ob unit :=
  on_disk (λ d, match faults (d_step d) with
                | Some e => (Err e, set_files (<[name := take (torn (d_step d)) bs]> (d_files d)) d)
                | None => (Ok tt, set_files (<[name := bs]> (d_files d)) d)
                end).

Definition fs_sync : ob unit := on_disk (fs_op (λ fs, (Ok tt, fs))).

Definition fs_rename (from to : bytes) : ob unit :=
  on_disk (fs_op (λ fs, match fs !! from with
                        | Some bs => (Ok tt, <[to := bs]> (delete from fs))
                        | None => (Err NotFound, fs)
                        end)).

(** ** Reading and writing entries *)

Definition parse_envelope (name : bytes) (bs : bytes) : result FsErr PendingCatalogIntent :=
  let? env := map_err (λ err, FsInvalidData (str "corrupt catalog outbox entry '" ++ name ++
                                             str "': " ++ err)) (deserialize bs) in
  let entry := env_entry env in
  let invalid := FsInvalidData (str "catalog outbox entry '" ++ name ++
                                str "' failed version, checksum, or identity validation") in
  if negb (env_version env =? CATALOG_OUTBOX_FORMAT_VERSION)%N then Err invalid
  else let? sum := checksum entry in
  if negb (bool_decide (sum = env_checksum_sha256 env)) then Err invalid
  else let? id := stable_intent_id (ci_identity (p_intent entry)) in
  if negb (bool_decide (id = p_id entry)) then Err invalid
  else if negb (bool_decide ((file_parts name).1 = p_id entry)) then Err invalid
  else Ok entry.

(** The size check, the read and the validation; the two file operations see one file. *)
Definition read_entry (name : bytes) : ob PendingCatalogIntent :=
  do? meta := fs_read name in
  if (MAX_ENTRY_BYTES <? N.of_nat (length meta))%N
  then serr (FsInvalidData (str "catalog outbox entry '" ++ name ++ str "' exceeds " ++
                            display_N MAX_ENTRY_BYTES ++ str " bytes"))
  else do? bs := fs_read name in
       slift (parse_envelope name (takeN (MAX_ENTRY_BYTES + 1) bs)).

Definition read_indexed_entry (id : bytes) : ob PendingCatalogIntent := read_entry (entry_path id).

Definition encode_entry (entry : PendingCatalogIntent) : result FsErr bytes :=
  let? sum := checksum entry in
  let? bs := json {| env_version := CATALOG_OUTBOX_FORMAT_VERSION; env_checksum_sha256 := sum;
                     env_entry := entry |} in
  if (MAX_ENTRY_BYTES <? N.of_nat (length bs))%N
  then Err (FsInvalidInput (str "catalog outbox entry exceeds durable format limit"))
  else Ok bs.

(** [path.with_extension(format!("json.tmp-{pid}-{now}"))] of [<id>.json]. *)
Definition tmp_path (name : bytes) (now : N) : bytes :=
  (file_parts name).1 ++ str ".json.tmp-" ++ display_N pid ++ str "-" ++ display_N now.

(** The result of the closure is inspected: on an error the temporary file is removed, and
    a failure of the removal is ignored. *)
Definition try_or_cleanup (m : ob unit) (cleanup : ob unit) : ob unit :=
  λ s, match m s with
       | (Ok u, s') => (Ok u, s')
       | (Err e, s') => (Err e, (cleanup s').2)
       end.

Definition write_entry_atomic_rename (name : bytes) (entry : PendingCatalogIntent) : ob unit :=
  do? bs := slift (encode_entry entry) in
  do? now := now_ms in
  let tmp := tmp_path name now in
  fs_create_new tmp ;!
  try_or_cleanup (fs_write tmp bs ;! fs_sync ;! fs_rename tmp name) (fs_remove tmp).

Definition sync_pending_directory : ob unit := fs_sync.

(** ** Operations *)

Definition fresh_entry (id : bytes) (intent : CatalogIntent) (created now : N)
    : PendingCatalogIntent := {|
  p_id := id; p_intent := intent; p_created_at_ms := created; p_updated_at_ms := now;
  p_attempts := 0; p_next_attempt_at_ms := 0; p_last_error := None; p_terminal := false
|}.

Definition summary_default : CatalogOutboxPersistSummary :=
  {| inserted := 0; coalesced := 0; updated := 0 |}.

Definition store_entry (id : bytes) (entry : PendingCatalogIntent) : ob unit :=
  write_entry_atomic_rename (entry_path id) entry ;!
  update_index (set_sync true) ;!
  do? m := slift (metadata_from_entry entry) in
  update_index (index_upsert id m).

Definition persist_intent (summary : CatalogOutboxPersistSummary) (intent : CatalogIntent)
    : ob CatalogOutboxPersistSummary :=
  do? id := slift (stable_intent_id (ci_identity intent)) in
  do? now := now_ms in
  do? sha := slift (intent_generation intent) in
  do? index := get_index in
  match oi_entries index !! id with
  | Some existing =>
      if decide (im_intent_sha256 existing = sha)
      then sret {| inserted := inserted summary; coalesced := coalesced summary + 1;
                   updated := updated summary |}
      else store_entry id (fresh_entry id intent (im_created_at_ms existing) now) ;!
           sret {| inserted := inserted summary; coalesced := coalesced summary;
                   updated := updated summary + 1 |}
  | None =>
      store_entry id (fresh_entry id intent now now) ;!
      sret {| inserted := inserted summary + 1; coalesced := coalesced summary;
              updated := updated summary |}
  end.

Fixpoint persist_all (intents : list CatalogIntent) (summary : CatalogOutboxPersistSummary)
    : ob CatalogOutboxPersistSummary :=
  match intents with
  | [] => sret summary
  | i :: rest => do? s := persist_intent summary i in persist_all rest s
  end.

Definition persist (intents : list CatalogIntent) : ob CatalogOutboxPersistSummary :=
  do? summary := persist_all intents summary_default in
  do? index := get_index in
  (if oi_directory_sync_required index
   then sync_pending_directory ;! update_index (set_sync false)
   else sret tt) ;!
  sret summary.

Fixpoint read_all (ids : list bytes) : ob (list PendingCatalogIntent) :=
  match ids with
  | [] => sret []
  | id :: rest => do? e := read_indexed_entry id in
                  do? es := read_all rest in
                  sret (e :: es)
  end.

(** The keys of a [BTreeMap] in order. *)
Definition keys_in_order {A} (m : gmap bytes A) : list bytes :=
  merge_sort bytes_le (map_to_list m).*1.

Definition scan_pending (limit : N) : ob (list PendingCatalogIntent) :=
  do? index := get_index in
  read_all (takeN limit (keys_in_order (oi_entries index))).

Definition scan_eligible_pending (now limit : N) : ob (list PendingCatalogIntent) :=
  do? index := get_index in
  read_all (due_ids index now limit).

Definition metadata_snapshot : ob CatalogOutboxMetadataSnapshot :=
  do? index := get_index in
  do? now := now_ms in
  let due_count := N.of_nat (length (due_range index now)) in
  let pending := N.of_nat (size (oi_due index)) in
  sret {| ms_pending_count := pending;
          ms_due_count := due_count;
          ms_deferred_count := saturating_sub pending due_count;
          ms_terminal_count := oi_terminal_count index;
          ms_oldest_created_at_ms := oi_oldest_created_at_ms index |}.

(** The current entry, if the index and the file still hold the generation expected. *)
Definition current_if (expected : PendingCatalogIntent) : ob (option PendingCatalogIntent) :=
  do? generation := slift (entry_generation expected) in
  do? index := get_index in
  match oi_entries index !! p_id expected with
  | None => sret None
  | Some m =>
      if negb (bool_decide (im_generation_sha256 m = generation)) then sret None
      else λ s, match read_indexed_entry (p_id expected) s with
                | (Ok current, s') =>
                    (Ok (if decide (current = expected) then Some current else None), s')
                | (Err NotFound, s') => (Ok None, s')
                | (Err e, s') => (Err e, s')
                end
  end.

Definition mark_delivered_if (expected : PendingCatalogIntent) : ob ConditionalMutationResult :=
  do? current := current_if expected in
  match current with
  | None => sret Stale
  | Some _ =>
      fs_remove (entry_path (p_id expected)) ;!
      update_index (index_remove (p_id expected)) ;!
      update_index (set_sync true) ;!
      sync_pending_directory ;!
      update_index (set_sync false) ;!
      sret Applied
  end.

(** [retry_after] in milliseconds. *)
Definition failed_entry (entry : PendingCatalogIntent) (now : N) (error : bytes)
    (retry_after : option N) (terminal : bool) : PendingCatalogIntent := {|
  p_id := p_id entry;
  p_intent := p_intent entry;
  p_created_at_ms := p_created_at_ms entry;
  p_updated_at_ms := now;
  p_attempts := saturating_add U32_MAX (p_attempts entry) 1;
  p_next_attempt_at_ms := match retry_after with
                          | Some delay => saturating_add U64_MAX now delay
                          | None => 0
                          end;
  p_last_error := Some error;
  p_terminal := terminal
|}.

Definition record_failure_if (expected : PendingCatalogIntent) (error : bytes)
    (retry_after : option N) (terminal : bool) : ob ConditionalMutationResult :=
  do? current := current_if expected in
  match current with
  | None => sret Stale
  | Some entry =>
      do? now := now_ms in
      let entry := failed_entry entry now error retry_after terminal in
      write_entry_atomic_rename (entry_path (p_id expected)) entry ;!
      do? m := slift (metadata_from_entry entry) in
      update_index (index_upsert (p_id expected) m) ;!
      update_index (set_sync true) ;!
      sync_pending_directory ;!
      update_index (set_sync false) ;!
      sret Applied
  end.

(** ** Recovery

    [listing] is the order in which [read_dir] names the files. *)

Definition recover_file (index : OutboxIndex) (name : bytes) : ob OutboxIndex :=
  if negb (bool_decide ((file_parts name).2 = Some (str "json"))) then sret index
  else do? entry := read_entry name in
       if bool_decide (is_Some (oi_entries index !! p_id entry))
       then serr (FsInvalidData (str "duplicate catalog outbox identity '" ++ p_id entry ++ str "'"))
       else do? m := slift (metadata_from_entry entry) in
            sret (index_upsert (p_id entry) m index).

Fixpoint recover_from (listing : list bytes) (index : OutboxIndex) : ob OutboxIndex :=
  match listing with
  | [] => sret index
  | name :: rest => do? index' := recover_file index name in recover_from rest index'
  end.

Definition recover_index (listing : list bytes) : ob OutboxIndex :=
  recover_from listing index_default.

(** [CatalogOutbox::open] on an existing directory: the index is rebuilt from it. *)
Definition outbox_open (listing : list bytes) : ob unit :=
  fs_sync ;!
  do? index := recover_index listing in
  update_index (λ _, index).

End Outbox.

(** ** The index is a function of its entries *)

Definition due_of (m : gmap bytes IndexedIntentMetadata) : gset (N * bytes) :=
  list_to_set (omap (λ kx : bytes * IndexedIntentMetadata,
    if im_terminal kx.2 then None else Some (im_next_attempt_at_ms kx.2, kx.1)) (map_to_list m)).

Definition created_of (m : gmap bytes IndexedIntentMetadata) : gset (N * bytes) :=
  list_to_set ((λ kx : bytes * IndexedIntentMetadata, (im_created_at_ms kx.2, kx.1)) <$> map_to_list m).

Definition terminal_of (m : gmap bytes IndexedIntentMetadata) : N :=
  N.of_nat (size (filter (λ kx : bytes * IndexedIntentMetadata, im_terminal kx.2 = true) m)).

Definition index_wf (i : OutboxIndex) : Prop :=
  oi_due i = due_of (oi_entries i) ∧ oi_created i = created_of (oi_entries i) ∧
  oi_terminal_count i = terminal_of (oi_entries i) ∧
  oi_oldest_created_at_ms i = first_created (oi_created i).

Lemma elem_of_due_of m n id :
  (n, id) ∈ due_of m ↔ ∃ x, m !! id = Some x ∧ im_terminal x = false ∧ im_next_attempt_at_ms x = n.
Proof.
  unfold due_of. rewrite elem_of_list_to_set, list_elem_of_omap. split.
  - intros ([k x] & Hk%elem_of_map_to_list & Hx). simpl in Hx. destruct (im_terminal x) eqn:Ht; naive_solver.
  - intros (x & Hx & Ht & <-). exists (id, x). rewrite elem_of_map_to_list. simpl. by rewrite Ht.
Qed.

Lemma elem_of_created_of m n id :
  (n, id) ∈ created_of m ↔ ∃ x, m !! id = Some x ∧ im_created_at_ms x = n.
Proof.
  unfold created_of. rewrite elem_of_list_to_set, list_elem_of_fmap. split.
  - intros ([k x] & [= -> ->] & Hk%elem_of_map_to_list). eauto.
  - intros (x & Hx & <-). exists (id, x). by rewrite elem_of_map_to_list.
Qed.

Lemma due_of_delete m id x :
  m !! id = Some x →
  due_of (delete id m) = if im_terminal x then due_of m else due_of m ∖ {[(im_next_attempt_at_ms x, id)]}.
Proof.
  intros Hx. apply set_eq. intros [n k]. rewrite elem_of_due_of.
  destruct (decide (k = id)) as [->|Hk].
  - rewrite lookup_delete_eq. split; [naive_solver|]. destruct (im_terminal x) eqn:Ht.
    + rewrite elem_of_due_of. intros (y & Hy & ? & ?). congruence.
    + rewrite elem_of_difference, elem_of_due_of, elem_of_singleton.
      intros [(y & Hy & ? & ?) Hne]. destruct Hne. congruence.
  - rewrite lookup_delete_ne by done. destruct (im_terminal x);
      rewrite ?elem_of_difference, elem_of_due_of, ?elem_of_singleton; naive_solver.
Qed.

Lemma created_of_delete m id x :
  m !! id = Some x → created_of (delete id m) = created_of m ∖ {[(im_created_at_ms x, id)]}.
Proof.
  intros Hx. apply set_eq. intros [n k]. rewrite elem_of_difference, !elem_of_created_of, elem_of_singleton.
  destruct (decide (k = id)) as [->|Hk]; [rewrite lookup_delete_eq|rewrite lookup_delete_ne by done]; naive_solver.
Qed.

Lemma terminal_of_delete m id x :
  m !! id = Some x →
  terminal_of (delete id m) = if im_terminal x then saturating_sub (terminal_of m) 1 else terminal_of m.
Proof.
  intros Hx. unfold terminal_of, saturating_sub. rewrite map_filter_delete.
  destruct (im_terminal x) eqn:Ht.
  - rewrite map_size_delete_Some; [lia|]. exists x. by apply map_lookup_filter_Some.
  - rewrite map_size_delete_None; [done|]. apply map_lookup_filter_None. right. intros y Hy. simplify_eq/=. congruence.
Qed.

Lemma index_remove_wf id i : index_wf i → index_wf (index_remove id i).
Proof.
  intros (H1 & H2 & H3 & H4). unfold index_remove. destruct (oi_entries i !! id) as [x|] eqn:Hx; [|done].
  unfold index_wf; cbn -[first_created saturating_sub]. split_and!; [| | |done].
  - by rewrite (due_of_delete _ _ x), H1.
  - by rewrite (created_of_delete _ _ x), H2.
  - by rewrite (terminal_of_delete _ _ x), H3.
Qed.

Lemma index_remove_entries id i : oi_entries (index_remove id i) = delete id (oi_entries i).
Proof. unfold index_remove. destruct (_ !! id) eqn:Hx; [done|]. by rewrite delete_id. Qed.

Lemma due_of_insert m id x :
  m !! id = None →
  due_of (<[id := x]> m) =
  if im_terminal x then due_of m else {[(im_next_attempt_at_ms x, id)]} ∪ due_of m.
Proof.
  intros Hn. apply set_eq. intros [n k]. destruct (im_terminal x) eqn:Ht.
  - rewrite !elem_of_due_of. destruct (decide (k = id)) as [->|Hk]; [|by rewrite lookup_insert_ne].
    rewrite lookup_insert_eq, Hn. split; intros (y & Hy & Ht' & _); simplify_eq; congruence.
  - rewrite elem_of_union, elem_of_singleton, !elem_of_due_of. destruct (decide (k = id)) as [->|Hk].
    + rewrite lookup_insert_eq, Hn. split; [intros (y & Hy & _ & <-); injection Hy as <-; by left|].
      intros [Heq|(y & Hy & _)]; [injection Heq as ->; eauto|done].
    + rewrite lookup_insert_ne by done. split; [by right|]. intros [Heq|]; [by injection Heq|done].
Qed.

Lemma created_of_insert m id x :
  m !! id = None → created_of (<[id := x]> m) = {[(im_created_at_ms x, id)]} ∪ created_of m.
Proof.
  intros Hn. apply set_eq. intros [n k]. rewrite elem_of_union, !elem_of_created_of, elem_of_singleton.
  destruct (decide (k = id)) as [->|Hk].
  - rewrite lookup_insert_eq, Hn. split; [intros (y & Hy & <-); injection Hy as <-; by left|].
    intros [Heq|(y & Hy & _)]; [injection Heq as ->; eauto|done].
  - rewrite lookup_insert_ne by done. split; [by right|]. intros [Heq|]; [by injection Heq|done].
Qed.

Lemma terminal_of_insert m id x :
  m !! id = None → terminal_of (<[id := x]> m) = if im_terminal x then (terminal_of m + 1)%N else terminal_of m.
Proof.
  intros Hn. unfold terminal_of. destruct (im_terminal x) eqn:Ht.
  - rewrite map_filter_insert_True by done. rewrite map_size_insert_None; [lia|].
    apply map_lookup_filter_None. by left.
  - rewrite map_filter_insert_False by (simpl; congruence). by rewrite delete_id.
Qed.

Lemma index_upsert_wf id m i : index_wf i → index_wf (index_upsert id m i).
Proof.
  intros Hwf%(index_remove_wf id). unfold index_upsert.
  pose proof (index_remove_entries id i) as He. set (j := index_remove id i) in *.
  destruct Hwf as (H1 & H2 & H3 & H4).
  assert (oi_entries j !! id = None) as Hn by (rewrite He; apply lookup_delete_eq).
  unfold index_wf; cbn -[first_created].
  by rewrite due_of_insert, created_of_insert, terminal_of_insert, H1, H2, H3.
Qed.

(** Every entry is counted once: as pending or as terminal. *)
Lemma due_of_size m : (N.of_nat (size (due_of m)) + terminal_of m)%N = N.of_nat (size m).
Proof.
  induction m as [|id x m Hn IH] using map_ind; [done|].
  rewrite due_of_insert, terminal_of_insert, map_size_insert_None by done.
  destruct (im_terminal x); [lia|]. rewrite size_union, size_singleton; [lia|].
  intros [n k] [= -> ->]%elem_of_singleton (y & Hy & _)%elem_of_due_of. congruence.
Qed.

Lemma index_upsert_entries id m i : oi_entries (index_upsert id m i) = <[id := m]> (oi_entries i).
Proof.
  unfold index_upsert; cbn. rewrite index_remove_entries. apply insert_delete_eq.
Qed.

(** Two indexes of the same entries differ at most in the pending sync. *)
Lemma index_wf_unique i j :
  index_wf i → index_wf j → oi_entries i = oi_entries j → set_sync false i = set_sync false j.
Proof.
  intros (H1 & H2 & H3 & H4) (H1' & H2' & H3' & H4') He. unfold set_sync.
  rewrite H4, H4', H1, H1', H2, H2', H3, H3', He. done.
Qed.

Lemma index_default_wf : index_wf index_default.
Proof. split_and!; reflexivity. Qed.

(** ** File names *)

Definition is_json (name : bytes) : Prop := (file_parts name).2 = Some (str "json").

#[global] Instance is_json_dec name : Decision (is_json name).
Proof. unfold is_json. apply _. Defined.

Lemma file_parts_split before after :
  before ≠ [] → x2e ∉ after → before ++ x2e :: after ≠ str ".." →
  file_parts (before ++ x2e :: after) = (before, Some after).
Proof.
  intros Hb Ha Hd. unfold file_parts. rewrite decide_False by done.
  rewrite rsplit_once_app by done. by destruct before.
Qed.

Lemma is_json_name name : is_json name → name = (file_parts name).1 ++ str ".json".
Proof.
  unfold is_json, file_parts. case_decide; [done|].
  destruct (rsplit_once x2e name) as [[[|c b] a]|] eqn:E; simpl; [done| |done].
  intros [= ->]. by apply rsplit_once_Some in E.
Qed.

Section Names.
Context {DG : Digest} {JI : Codec CatalogIntentIdentity}.

(** An identifier: the hex digest of an identity. *)
Definition is_id (id : bytes) : Prop := ∃ identity, stable_intent_id identity = Ok id.

Lemma is_id_hex id : is_id id → length id = 64 ∧ ∀ c, c ∈ id → in_range 48 57 c || in_range 97 102 c = true.
Proof.
  intros [i Hi]. unfold stable_intent_id in Hi. inv_res.
  split; [apply sha256_hex_length|apply sha256_hex_digits].
Qed.

Lemma is_id_no_dot id : is_id id → x2e ∉ id.
Proof. intros [_ H]%is_id_hex Hc. by apply H in Hc. Qed.

Lemma entry_path_split id : id ≠ [] → file_parts (entry_path id) = (id, Some (str "json")).
Proof.
  intros Hid. unfold entry_path. apply (file_parts_split id (str "json")); [done| |].
  - vm_compute. intros H. repeat (apply elem_of_cons in H as [H|H]; [done|]). by apply elem_of_nil in H.
  - intros H%(f_equal length). rewrite length_app in H. simpl in H. lia.
Qed.

Lemma entry_path_parts id : is_id id → file_parts (entry_path id) = (id, Some (str "json")).
Proof. intros [Hl _]%is_id_hex. apply entry_path_split. by intros ->. Qed.

Lemma entry_path_json id : is_id id → is_json (entry_path id).
Proof. intros H. unfold is_json. by rewrite entry_path_parts. Qed.

Lemma entry_path_inj id id' : entry_path id = entry_path id' → id = id'.
Proof. unfold entry_path. apply app_inj_2. done. Qed.
End Names.

(** A temporary name ends in an extension that recovery skips. *)
Lemma tmp_path_not_json pid name now : (file_parts name).1 ≠ [] → ¬ is_json (tmp_path pid name now).
Proof.
  intros Hne. unfold is_json, tmp_path.
  set (stem := (file_parts name).1) in *.
  assert (stem ++ str ".json.tmp-" ++ display_N pid ++ str "-" ++ display_N now =
    (stem ++ str ".json") ++ x2e :: (str "tmp-" ++ display_N pid ++ str "-" ++ display_N now)) as ->
    by (rewrite <- app_assoc; reflexivity).
  rewrite file_parts_split.
  - simpl. intros H. injection H as H. discriminate H.
  - intros [Hs _]%app_nil. done.
  - rewrite !elem_of_app. intros [H|[H|[H|H]]].
    + by vm_compute in H; repeat (apply elem_of_cons in H as [H|H]; [done|]); apply elem_of_nil in H.
    + by apply display_N_not_in in H.
    + by vm_compute in H; repeat (apply elem_of_cons in H as [H|H]; [done|]); apply elem_of_nil in H.
    + by apply display_N_not_in in H.
  - intros H%(f_equal length). rewrite length_app in H. simpl in H. rewrite !length_app in H. simpl in H. lia.
Qed.

(** ** Entries on disk *)

Section Entries.
Context {DG : Digest}.
Context {JI : Codec CatalogIntentIdentity} {JC : Codec CatalogIntent}
  {JP : Codec PendingCatalogIntent} {JE : Codec CatalogOutboxEnvelope}.

(** What a reader of the file [name] with contents [bs] gets. *)
Definition entry_file (name bs : bytes) : result FsErr PendingCatalogIntent :=
  if (MAX_ENTRY_BYTES <? N.of_nat (length bs))%N
  then Err (FsInvalidData (str "catalog outbox entry '" ++ name ++ str "' exceeds " ++
                           display_N MAX_ENTRY_BYTES ++ str " bytes"))
  else parse_envelope name bs.

Definition entry_wf (e : PendingCatalogIntent) : Prop :=
  stable_intent_id (ci_identity (p_intent e)) = Ok (p_id e).

Lemma decode_entry_Ok name bs e :
  parse_envelope name bs = Ok e → entry_wf e ∧ (file_parts name).1 = p_id e.
Proof.
  unfold parse_envelope. intros H. apply rbind_Ok in H as (env & _ & H).
  destruct (negb (env_version env =? _)%N); [done|].
  apply rbind_Ok in H as (sum & _ & H). destruct (negb (bool_decide (sum = _))); [done|].
  apply rbind_Ok in H as (id & Hid & H).
  destruct (negb (bool_decide (id = p_id (env_entry env)))) eqn:E1; [done|].
  destruct (negb (bool_decide ((file_parts name).1 = p_id (env_entry env)))) eqn:E2; [done|].
  injection H as <-. rewrite negb_false_iff, bool_decide_eq_true in E1, E2.
  unfold entry_wf. by rewrite Hid, E1.
Qed.

Lemma entry_file_Ok name bs e :
  entry_file name bs = Ok e → entry_wf e ∧ (file_parts name).1 = p_id e.
Proof. unfold entry_file. destruct (_ <? _)%N; [done|]. apply decode_entry_Ok. Qed.

(** An entry that was encoded is the one a reader gets. *)
Lemma entry_file_encode e bs :
  entry_wf e → encode_entry e = Ok bs → entry_file (entry_path (p_id e)) bs = Ok e.
Proof.
  intros Hwf H. unfold encode_entry in H. apply rbind_Ok in H as (sum & Hsum & H).
  apply rbind_Ok in H as (bs' & Hbs & H). unfold json in Hbs. apply map_err_Ok in Hbs.
  destruct (_ <? _)%N eqn:Hlen; [done|]. injection H as <-. unfold entry_file. rewrite Hlen.
  unfold parse_envelope. rewrite (deserialize_serialize _ _ Hbs). cbn [map_err rbind env_version env_entry env_checksum_sha256].
  rewrite N.eqb_refl, Hsum. cbn [negb rbind]. rewrite bool_decide_eq_true_2 by done. cbn [negb].
  rewrite Hwf. cbn [rbind]. rewrite bool_decide_eq_true_2 by done. cbn [negb].
  rewrite entry_path_parts by (by eexists). cbn [fst]. by rewrite bool_decide_eq_true_2.
Qed.

Lemma entry_wf_id e : entry_wf e → is_id (p_id e).
Proof. intros H. by eexists. Qed.

(** The entries a directory holds, and the index agrees with them. *)
Definition disk_agrees (fs : gmap bytes bytes) (entries : gmap bytes IndexedIntentMetadata) : Prop :=
  (∀ name bs, fs !! name = Some bs → is_json name →
     ∃ e m, entry_file name bs = Ok e ∧ metadata_from_entry e = Ok m ∧ entries !! p_id e = Some m) ∧
  (∀ id m, entries !! id = Some m →
     ∃ bs e, fs !! entry_path id = Some bs ∧ entry_file (entry_path id) bs = Ok e ∧ p_id e = id ∧
       metadata_from_entry e = Ok m).

Definition outbox_inv (s : Outbox) : Prop :=
  index_wf (ob_index s) ∧ disk_agrees (d_files (ob_disk s)) (oi_entries (ob_index s)).

(** Only the files recovery looks at matter. *)
Definition same_json (fs fs' : gmap bytes bytes) : Prop := ∀ name, is_json name → fs !! name = fs' !! name.

#[global] Instance same_json_equiv : Equivalence same_json.
Proof.
  split.
  - by intros ???.
  - intros x y H n Hn. symmetry. by apply H.
  - intros x y z H1 H2 n Hn. by rewrite H1, H2.
Qed.

Lemma disk_agrees_ids fs entries id m : disk_agrees fs entries → entries !! id = Some m → is_id id.
Proof.
  intros [_ H2] Hid. destruct (H2 id m Hid) as (bs & e & _ & [Hwf _]%entry_file_Ok & <- & _).
  by apply entry_wf_id.
Qed.

Lemma disk_agrees_same fs fs' entries : same_json fs fs' → disk_agrees fs entries → disk_agrees fs' entries.
Proof.
  intros Hs Hd. split.
  - intros name bs Hn Hj. rewrite <- (Hs name Hj) in Hn. by apply (proj1 Hd).
  - intros id m Hid. rewrite <- (Hs (entry_path id)).
    + by apply (proj2 Hd).
    + apply entry_path_json. by eapply disk_agrees_ids.
Qed.

Lemma disk_agrees_insert fs entries e m bs :
  entry_wf e → encode_entry e = Ok bs → metadata_from_entry e = Ok m → disk_agrees fs entries →
  disk_agrees (<[entry_path (p_id e) := bs]> fs) (<[p_id e := m]> entries).
Proof.
  intros Hwf Hbs Hm [H1 H2]. pose proof (entry_file_encode _ _ Hwf Hbs) as Hf. split.
  - intros name bs' Hn Hj. destruct (decide (name = entry_path (p_id e))) as [->|Hne].
    + rewrite lookup_insert_eq in Hn. injection Hn as <-. exists e, m. by rewrite lookup_insert_eq.
    + rewrite lookup_insert_ne in Hn by done. destruct (H1 name bs' Hn Hj) as (e' & m' & He' & Hm' & Hi).
      exists e', m'. split_and!; [done|done|]. rewrite lookup_insert_ne; [done|]. intros Heq.
      apply Hne. apply entry_file_Ok in He' as [_ Hstem]. apply is_json_name in Hj.
      rewrite Hj, Hstem, <- Heq. done.
  - intros id m' Hid. destruct (decide (id = p_id e)) as [->|Hne].
    + rewrite lookup_insert_eq in Hid. injection Hid as <-. exists bs, e. by rewrite lookup_insert_eq.
    + rewrite lookup_insert_ne in Hid by done. rewrite lookup_insert_ne; [by apply H2|].
      intros Heq%entry_path_inj. congruence.
Qed.

Lemma disk_agrees_delete fs entries id :
  is_id id → disk_agrees fs entries → disk_agrees (delete (entry_path id) fs) (delete id entries).
Proof.
  intros Hid [H1 H2]. split.
  - intros name bs [Hne Hn]%lookup_delete_Some Hj. destruct (H1 name bs Hn Hj) as (e & m & He & Hm & Hi).
    exists e, m. split_and!; [done|done|]. rewrite lookup_delete_ne; [done|]. intros ->.
    apply Hne. apply entry_file_Ok in He as [_ Hstem]. apply is_json_name in Hj.
    rewrite Hj, Hstem. done.
  - intros id' m [Hne Hi]%lookup_delete_Some. rewrite lookup_delete_ne; [by apply H2|].
    intros Heq%entry_path_inj. congruence.
Qed.
End Entries.

(** ** Operations keep the index and the directory in step *)

Section Invariant.
Context {DG : Digest}.
Context {JI : Codec CatalogIntentIdentity} {JC : Codec CatalogIntent}
  {JP : Codec PendingCatalogIntent} {JE : Codec CatalogOutboxEnvelope}.
Context (faults : N → option FsErr) (clock : N → N) (torn : N → nat) (pid : N).

Notation ob A := (st Outbox FsErr A).
Notation files s := (d_files (ob_disk s)).

(** An operation that changes neither the index nor a file. *)
Definition quiet {A} (m : ob A) : Prop := ∀ s, ob_index (m s).2 = ob_index s ∧ files (m s).2 = files s.

Lemma quiet_bind {A B} (m : ob A) (f : A → ob B) : quiet m → (∀ a, quiet (f a)) → quiet (sbind m f).
Proof.
  intros Hm Hf s. unfold sbind. specialize (Hm s). destruct (m s) as [[a|e] s1]; simpl in *; [|done].
  destruct (Hf a s1) as [-> ->]. done.
Qed.
Lemma quiet_ret {A} (a : A) : quiet (sret a).
Proof. done. Qed.
Lemma quiet_err {A} e : quiet (@serr Outbox FsErr A e).
Proof. done. Qed.
Lemma quiet_lift {A} (r : result FsErr A) : quiet (slift r).
Proof. done. Qed.
Lemma quiet_get_index : quiet get_index.
Proof. done. Qed.
Lemma quiet_now : quiet (now_ms clock).
Proof. done. Qed.
Lemma quiet_read name : quiet (fs_read faults name).
Proof. intros s. unfold fs_read, on_disk, fs_op. destruct (faults _); [done|]. by destruct (_ !! name). Qed.
Lemma quiet_sync : quiet (fs_sync faults).
Proof. intros s. unfold fs_sync, on_disk, fs_op. by destruct (faults _). Qed.

Lemma quiet_read_entry name : quiet (read_entry faults name).
Proof.
  unfold read_entry. apply quiet_bind; [apply quiet_read|]. intros bs.
  destruct (_ <? _)%N; [apply quiet_err|]. apply quiet_bind; [apply quiet_read|]. intros. apply quiet_lift.
Qed.

Lemma quiet_read_all ids : quiet (read_all faults ids).
Proof.
  induction ids as [|id ids IH]; simpl; [apply quiet_ret|].
  apply quiet_bind; [apply quiet_read_entry|]. intros e. apply quiet_bind; [done|]. intros es. apply quiet_ret.
Qed.

(** Reading a file gives what [entry_file] says, unless the environment fails. *)
Lemma read_entry_Ok name s e s' :
  read_entry faults name s = (Ok e, s') → ∃ bs, files s !! name = Some bs ∧ entry_file name bs = Ok e.
Proof.
  unfold read_entry. intros (bs & s1 & H1 & H)%sbind_Ok.
  assert (files s !! name = Some bs ∧ files s1 = files s) as [Hbs Hs1].
  { pose proof (quiet_read name s) as [_ Hq]. rewrite H1 in Hq. simpl in Hq. split; [|done].
    unfold fs_read, on_disk, fs_op in H1. destruct (faults _); [done|].
    destruct (files s !! name); simpl in H1; [|done]. by injection H1 as -> _. }
  exists bs. split; [done|]. unfold entry_file. destruct (_ <? _)%N eqn:Hl; [done|].
  apply sbind_Ok in H as (bs' & s2 & H2 & [H3 _]%slift_inv).
  unfold fs_read, on_disk, fs_op in H2. destruct (faults _); [done|]. rewrite Hs1, Hbs in H2. simpl in H2.
  injection H2 as <- _. apply N.ltb_ge in Hl. by rewrite takeN_all in H3 by lia.
Qed.

(** Operations on files recovery skips. *)
Definition hidden {A} (m : ob A) : Prop :=
  ∀ s, ob_index (m s).2 = ob_index s ∧ same_json (files (m s).2) (files s).

Lemma quiet_hidden {A} (m : ob A) : quiet m → hidden m.
Proof. intros H s. destruct (H s) as [-> ->]. done. Qed.

Lemma same_json_insert name bs fs : ¬ is_json name → same_json (<[name := bs]> fs) fs.
Proof. intros Hn n Hj. rewrite lookup_insert_ne; [done|congruence]. Qed.
Lemma same_json_delete name fs : ¬ is_json name → same_json (delete name fs) fs.
Proof. intros Hn n Hj. rewrite lookup_delete_ne; [done|congruence]. Qed.

Lemma hidden_create name : ¬ is_json name → hidden (fs_create_new faults name).
Proof.
  intros Hn s. unfold fs_create_new, on_disk, fs_op. destruct (faults _); [done|].
  destruct (_ !! name); [done|]. split; [done|]. simpl. by apply same_json_insert.
Qed.
Lemma hidden_write name bs : ¬ is_json name → hidden (fs_write faults torn name bs).
Proof.
  intros Hn s. unfold fs_write, on_disk. destruct (faults _); (split; [done|]; simpl; by apply same_json_insert).
Qed.
Lemma hidden_remove name : ¬ is_json name → hidden (fs_remove faults name).
Proof.
  intros Hn s. unfold fs_remove, on_disk, fs_op. destruct (faults _); [done|].
  destruct (_ !! name); [|done]. split; [done|]. simpl. by apply same_json_delete.
Qed.

Definition installs (name : bytes) (bs : bytes) (s : Outbox) (r : result FsErr unit * Outbox) : Prop :=
  ob_index r.2 = ob_index s ∧
  match r.1 with
  | Ok _ => same_json (files r.2) (<[name := bs]> (files s))
  | Err _ => same_json (files r.2) (files s)
  end.

(** The closure of the writer: the new contents are visible all at once, or not at all. *)
Lemma rename_installs tmp name bs s :
  ¬ is_json tmp → is_json name →
  installs name bs s ((fs_write faults torn tmp bs ;! fs_sync faults ;! fs_rename faults tmp name) s).
Proof.
  intros Ht Hn. assert (tmp ≠ name) as Hne by congruence. unfold installs.
  destruct (fs_write faults torn tmp bs s) as [[[]|e1] s1] eqn:E1.
  2:{ rewrite (sbind_fail _ _ _ _ _ E1). pose proof (hidden_write tmp bs Ht s) as H. by rewrite E1 in H. }
  rewrite (sbind_run _ _ _ _ _ E1).
  assert (ob_index s1 = ob_index s ∧ files s1 = <[tmp := bs]> (files s)) as [Hi1 Hf1].
  { unfold fs_write, on_disk in E1. destruct (faults _); [done|]. by injection E1 as <-. }
  destruct (fs_sync faults s1) as [[[]|e2] s2] eqn:E2; pose proof (quiet_sync s1) as [Hi2 Hf2];
    rewrite E2 in Hi2, Hf2; simpl in Hi2, Hf2.
  2:{ rewrite (sbind_fail _ _ _ _ _ E2). simpl. rewrite Hi2, Hf2, Hf1, Hi1. split; [done|].
      by apply same_json_insert. }
  rewrite (sbind_run _ _ _ _ _ E2). unfold fs_rename, on_disk, fs_op.
  destruct (faults _); simpl; [rewrite Hi2, Hf2, Hf1, Hi1; split; [done|by apply same_json_insert]|].
  rewrite Hf2, Hf1, lookup_insert_eq. simpl. rewrite Hi2, Hi1. split; [done|].
  intros n Hj. rewrite delete_insert_eq. destruct (decide (n = name)) as [->|Hnn].
  - by rewrite !lookup_insert_eq.
  - rewrite !lookup_insert_ne by done. apply lookup_delete_ne. congruence.
Qed.

Lemma write_entry_spec name e s :
  is_json name → (file_parts name).1 ≠ [] →
  let r := write_entry_atomic_rename faults clock torn pid name e s in
  match encode_entry e with
  | Ok bs => installs name bs s r
  | Err _ => ob_index r.2 = ob_index s ∧ same_json (files r.2) (files s) ∧ is_ok r.1 = false
  end.
Proof.
  intros Hn Hst. unfold write_entry_atomic_rename. destruct (encode_entry e) as [bs|err] eqn:Eb; [|done].
  rewrite (sbind_run _ _ s bs s) by done.
  destruct (now_ms clock s) as [[now|] s0] eqn:En; [|done]. rewrite (sbind_run _ _ _ _ _ En).
  injection En as En <-. set (tmp := tmp_path pid name now).
  assert (¬ is_json tmp) as Ht by by apply tmp_path_not_json.
  match goal with |- installs _ _ _ (sbind _ _ ?x) => set (s0 := x) end.
  assert (ob_index s0 = ob_index s ∧ files s0 = files s) as [Hi0 Hf0] by done.
  pose proof (hidden_create tmp Ht s0) as [Hi1 Hf1].
  destruct (fs_create_new faults tmp s0) as [[[]|e1] s1] eqn:E1; simpl in Hi1, Hf1.
  2:{ rewrite (sbind_fail _ _ _ _ _ E1). split; simpl; [by rewrite Hi1|by rewrite <- Hf0]. }
  rewrite (sbind_run _ _ _ _ _ E1). unfold try_or_cleanup.
  pose proof (rename_installs tmp name bs s1 Ht Hn) as [Hi2 Hr2].
  destruct ((_ ;! _) s1) as [[[]|e2] s2]; simpl in Hi2, Hr2.
  - split; simpl; [by rewrite Hi2, Hi1|]. intros n Hj. rewrite (Hr2 n Hj).
    destruct (decide (n = name)) as [->|]; [by rewrite !lookup_insert_eq|].
    rewrite !lookup_insert_ne by done. apply (Hf1 n Hj).
  - pose proof (hidden_remove tmp Ht s2) as [Hi3 Hf3]. split; simpl; [by rewrite Hi3, Hi2, Hi1|].
    intros n Hj. by rewrite (Hf3 n Hj), (Hr2 n Hj), (Hf1 n Hj).
Qed.

Definition keeps {A} (m : ob A) : Prop := ∀ s, outbox_inv s → outbox_inv (m s).2.

Lemma keeps_bind {A B} (m : ob A) (f : A → ob B) :
  keeps m → (∀ a, keeps (f a)) → keeps (sbind m f).
Proof.
  intros Hm Hf s Hs. unfold sbind. specialize (Hm s Hs). destruct (m s) as [[a|e] s1]; simpl in *; [|done].
  by apply Hf.
Qed.

Lemma quiet_keeps {A} (m : ob A) : quiet m → keeps m.
Proof.
  intros Hq s [H1 H2]. destruct (Hq s) as [Hi Hf]. unfold outbox_inv. by rewrite Hi, Hf.
Qed.

Lemma set_sync_wf b i : index_wf i → index_wf (set_sync b i).
Proof. done. Qed.

Lemma keeps_set_sync b : keeps (update_index (set_sync b)).
Proof. intros s [H1 H2]. split; simpl; [by apply set_sync_wf|done]. Qed.

Lemma keeps_sync_directory b : keeps (sync_pending_directory faults ;! update_index (set_sync b)).
Proof. apply keeps_bind; [apply quiet_keeps, quiet_sync|]. intros []. apply keeps_set_sync. Qed.

Lemma metadata_total e bs sha :
  encode_entry e = Ok bs → intent_generation (p_intent e) = Ok sha →
  ∃ m, metadata_from_entry e = Ok m ∧ im_intent_sha256 m = sha.
Proof.
  unfold encode_entry, checksum, metadata_from_entry, entry_generation. intros H Hi.
  destruct (json e) as [j|]; simpl in *; [|done]. rewrite Hi. simpl. by eexists.
Qed.

(** Writing an entry and indexing it, as one step: [pre] and [post] are the flag updates
    around it. *)
Lemma write_and_index e sha s :
  entry_wf e → intent_generation (p_intent e) = Ok sha → outbox_inv s →
  let r := write_entry_atomic_rename faults clock torn pid (entry_path (p_id e)) e s in
  match r.1 with
  | Ok _ => ∃ m, metadata_from_entry e = Ok m ∧ index_wf (ob_index r.2) ∧
      ob_index r.2 = ob_index s ∧
      disk_agrees (files r.2) (<[p_id e := m]> (oi_entries (ob_index s)))
  | Err _ => outbox_inv r.2
  end.
Proof.
  intros Hwf Hi [H1 H2] r. pose proof (entry_wf_id e Hwf) as Hid.
  pose proof (write_entry_spec (entry_path (p_id e)) e s) as Hw. fold r in Hw.
  specialize (Hw (entry_path_json _ Hid)). rewrite entry_path_parts in Hw by done. simpl in Hw.
  assert (p_id e ≠ []) as Hne by (intros E; apply is_id_hex in Hid as [Hl _]; by rewrite E in Hl).
  specialize (Hw Hne). destruct (encode_entry e) as [bs|err] eqn:Eb.
  - destruct Hw as [Hix Hr]. destruct r as [[[]|err] s']; simpl in *.
    + destruct (metadata_total _ _ _ Eb Hi) as (m & Hm & _). exists m. rewrite Hix. split_and!; [done|done|done|].
      apply (disk_agrees_same (<[entry_path (p_id e) := bs]> (files s))); [by symmetry|].
      by apply disk_agrees_insert.
    + split; simpl; rewrite Hix; [done|]. apply (disk_agrees_same (files s)); [by symmetry|done].
  - destruct Hw as (Hix & Hs & Hf). destruct r as [[[]|err'] s']; simpl in *; [done|].
    split; rewrite Hix; [done|]. apply (disk_agrees_same (files s)); [by symmetry|done].
Qed.

Lemma store_entry_keeps e sha :
  entry_wf e → intent_generation (p_intent e) = Ok sha →
  keeps (store_entry faults clock torn pid (p_id e) e).
Proof.
  intros Hwf Hi s Hs. unfold store_entry.
  pose proof (write_and_index e sha s Hwf Hi Hs) as Hw. cbn zeta in Hw. unfold sbind at 1.
  destruct (write_entry_atomic_rename _ _ _ _ _ _ s) as [[[]|err] s1]; simpl in Hw; [|done].
  destruct Hw as (m & Hm & Hwf1 & Hix & Hd). unfold sbind, update_index, slift. rewrite Hm. cbn [fst snd].
  split; cbn [ob_index ob_disk]; [by apply index_upsert_wf|]. rewrite index_upsert_entries. simpl. by rewrite Hix.
Qed.

Lemma fresh_entry_wf id intent created now :
  stable_intent_id (ci_identity intent) = Ok id → entry_wf (fresh_entry id intent created now).
Proof. done. Qed.

Lemma persist_intent_keeps summary intent : keeps (persist_intent faults clock torn pid summary intent).
Proof.
  unfold persist_intent. intros s Hs. unfold sbind at 1. unfold slift at 1.
  destruct (stable_intent_id (ci_identity intent)) as [id|] eqn:Hid; [|done].
  revert s Hs. apply keeps_bind; [by apply quiet_keeps, quiet_now|]. intros now s Hs.
  unfold sbind at 1. unfold slift at 1. destruct (intent_generation intent) as [sha|] eqn:Hg; [|done].
  unfold sbind at 1. unfold get_index. destruct (oi_entries (ob_index s) !! id) as [existing|].
  - case_decide; [done|]. revert s Hs. apply keeps_bind; [|by intros []; apply quiet_keeps, quiet_ret].
    by apply (store_entry_keeps (fresh_entry id intent (im_created_at_ms existing) now) sha).
  - revert s Hs. apply keeps_bind; [|by intros []; apply quiet_keeps, quiet_ret].
    by apply (store_entry_keeps (fresh_entry id intent now now) sha).
Qed.

Lemma persist_all_keeps intents summary : keeps (persist_all faults clock torn pid intents summary).
Proof.
  revert summary; induction intents as [|i intents IH]; intros summary; simpl.
  - apply quiet_keeps, quiet_ret.
  - apply keeps_bind; [apply persist_intent_keeps|]. intros a. apply IH.
Qed.

Lemma persist_keeps intents : keeps (persist faults clock torn pid intents).
Proof.
  unfold persist. apply keeps_bind; [apply persist_all_keeps|]. intros summary.
  apply keeps_bind; [apply quiet_keeps, quiet_get_index|]. intros index.
  apply keeps_bind; [|intros []; apply quiet_keeps, quiet_ret].
  destruct (oi_directory_sync_required index); [apply keeps_sync_directory|apply quiet_keeps, quiet_ret].
Qed.

(** ** Conditional mutations *)

Lemma quiet_current_if expected : quiet (current_if faults expected).
Proof.
  unfold current_if. apply quiet_bind; [apply quiet_lift|]. intros g.
  apply quiet_bind; [apply quiet_get_index|]. intros index.
  destruct (oi_entries index !! p_id expected); [|apply quiet_ret].
  destruct (negb _); [apply quiet_ret|]. intros s.
  pose proof (quiet_read_entry (entry_path (p_id expected)) s) as Hq. unfold read_indexed_entry.
  destruct (read_entry faults (entry_path (p_id expected)) s) as [[cur|[]] s']; done.
Qed.

(** The current entry is returned only when it is the expected one, byte for byte. *)
Lemma current_if_Some expected s cur s' :
  outbox_inv s → current_if faults expected s = (Ok (Some cur), s') →
  cur = expected ∧ ∃ bs m, files s !! entry_path (p_id expected) = Some bs ∧
    entry_file (entry_path (p_id expected)) bs = Ok expected ∧
    metadata_from_entry expected = Ok m ∧ oi_entries (ob_index s) !! p_id expected = Some m.
Proof.
  intros [_ [_ H2]]. unfold current_if. intros (g & s1 & [_ ->]%slift_inv & H)%sbind_Ok.
  apply sbind_Ok in H as (index & s2 & Hg & H). unfold get_index in Hg. injection Hg as <- <-.
  destruct (oi_entries (ob_index s) !! p_id expected) as [m|] eqn:Hm; [|done].
  destruct (negb _); [done|]. unfold read_indexed_entry in H.
  destruct (read_entry faults (entry_path (p_id expected)) s) as [[e|err] s3] eqn:Hr; [|by destruct err].
  apply read_entry_Ok in Hr as (bs & Hbs & He). destruct (decide (e = expected)) as [->|]; [|done].
  injection H as <- _. split; [done|]. exists bs, m. split_and!; try done.
  destruct (H2 _ _ Hm) as (bs' & e' & Hbs' & He' & _ & Hm'). congruence.
Qed.

Lemma mark_delivered_keeps expected : keeps (mark_delivered_if faults expected).
Proof.
  intros s Hs. unfold mark_delivered_if.
  pose proof (quiet_current_if expected s) as [Hi Hf]. unfold sbind at 1.
  destruct (current_if faults expected s) as [[[cur|]|err] s1] eqn:Hc; simpl in Hi, Hf.
  2,3: by unfold outbox_inv; simpl; rewrite Hi, Hf.
  pose proof (current_if_Some _ _ _ _ Hs Hc) as (-> & bs & m & Hbs & He & _ & _).
  assert (outbox_inv s1) as Hs1 by (unfold outbox_inv; by rewrite Hi, Hf).
  unfold sbind at 1. destruct (fs_remove faults (entry_path (p_id expected)) s1) as [[[]|err] s2] eqn:Hr.
  2:{ simpl. unfold fs_remove, on_disk, fs_op in Hr. destruct (faults _); [by injection Hr as _ <-|].
      rewrite Hf, Hbs in Hr. discriminate Hr. }
  assert (ob_index s2 = ob_index s ∧ files s2 = delete (entry_path (p_id expected)) (files s)) as [Hi2 Hf2].
  { unfold fs_remove, on_disk, fs_op in Hr. destruct (faults _); [done|].
    rewrite Hf, Hbs in Hr. injection Hr as <-. simpl. by rewrite Hi. }
  cut (outbox_inv {| ob_index := index_remove (p_id expected) (ob_index s2); ob_disk := ob_disk s2 |}).
  { intros Hinv. unfold sbind at 1. unfold update_index at 1. revert Hinv.
    generalize ({| ob_index := index_remove (p_id expected) (ob_index s2); ob_disk := ob_disk s2 |}).
    apply keeps_bind; [apply keeps_set_sync|]. intros [].
    apply keeps_bind; [apply quiet_keeps, quiet_sync|]. intros [].
    apply keeps_bind; [apply keeps_set_sync|]. intros []. apply quiet_keeps, quiet_ret. }
  destruct Hs as [H1 H2]. split; cbn [ob_index ob_disk]; rewrite Hi2; [by apply index_remove_wf|].
  rewrite index_remove_entries, Hf2. apply disk_agrees_delete; [|done].
  apply entry_file_Ok in He as [Hwf _]. by apply entry_wf_id.
Qed.

Lemma metadata_intent e m : metadata_from_entry e = Ok m → intent_generation (p_intent e) = Ok (im_intent_sha256 m).
Proof. unfold metadata_from_entry. intros H. inv_res. done. Qed.

Lemma record_failure_keeps expected error retry terminal :
  keeps (record_failure_if faults clock torn pid expected error retry terminal).
Proof.
  intros s Hs. unfold record_failure_if.
  pose proof (quiet_current_if expected s) as [Hi Hf]. unfold sbind at 1.
  destruct (current_if faults expected s) as [[[cur|]|err] s1] eqn:Hc; simpl in Hi, Hf.
  2,3: by unfold outbox_inv; simpl; rewrite Hi, Hf.
  pose proof (current_if_Some _ _ _ _ Hs Hc) as (-> & bs & m & Hbs & He & Hm & _).
  assert (outbox_inv s1) as Hs1 by (unfold outbox_inv; by rewrite Hi, Hf).
  revert s1 Hs1 Hi Hf Hc. intros s1 Hs1 _ _ _. revert s1 Hs1.
  apply keeps_bind; [by apply quiet_keeps, quiet_now|]. intros now s1 Hs1.
  set (entry := failed_entry expected now error retry terminal).
  apply entry_file_Ok in He as [Hwf _].
  pose proof (write_and_index entry (im_intent_sha256 m) s1 Hwf (metadata_intent _ _ Hm) Hs1) as Hw.
  cbn zeta in Hw. change (p_id entry) with (p_id expected) in Hw. unfold sbind at 1.
  destruct (write_entry_atomic_rename _ _ _ _ _ _ s1) as [[[]|err] s2]; simpl in Hw; [|done].
  destruct Hw as (m' & Hm' & Hwf1 & Hix & Hd). unfold sbind at 1. unfold slift at 1.
  change (metadata_from_entry _) with (metadata_from_entry entry). rewrite Hm'.
  cut (outbox_inv {| ob_index := index_upsert (p_id expected) m' (ob_index s2); ob_disk := ob_disk s2 |}).
  { intros Hinv. unfold sbind at 1. unfold update_index at 1. revert Hinv.
    generalize ({| ob_index := index_upsert (p_id expected) m' (ob_index s2); ob_disk := ob_disk s2 |}).
    apply keeps_bind; [apply keeps_set_sync|]. intros [].
    apply keeps_bind; [apply quiet_keeps, quiet_sync|]. intros [].
    apply keeps_bind; [apply keeps_set_sync|]. intros []. apply quiet_keeps, quiet_ret. }
  split; cbn [ob_index ob_disk]; [by apply index_upsert_wf|].
  rewrite index_upsert_entries. by rewrite Hix.
Qed.
End Invariant.

(** ** Recovery *)

Section Recovery.
Context {DG : Digest}.
Context {JI : Codec CatalogIntentIdentity} {JC : Codec CatalogIntent}
  {JP : Codec PendingCatalogIntent} {JE : Codec CatalogOutboxEnvelope}.
Context (faults : N → option FsErr).

Notation files s := (d_files (ob_disk s)).

(** The outcome of an operation that can fail only through the environment. *)
Definition unless_fault {A} (P : A → Prop) (r : result FsErr A) : Prop :=
  match r with
  | Ok a => P a
  | Err e => ∃ n, faults n = Some e
  end.

Lemma fs_read_run name bs s :
  files s !! name = Some bs → unless_fault (λ x, x = bs) (fs_read faults name s).1.
Proof.
  intros H. unfold fs_read, on_disk, fs_op. destruct (faults _) eqn:E; simpl; [by eexists|].
  by rewrite H.
Qed.

Lemma unless_fault_bind {A B} (m : st Outbox FsErr A) (f : A → st Outbox FsErr B) P Q s :
  unless_fault P (m s).1 → (∀ a, P a → unless_fault Q (f a (m s).2).1) → unless_fault Q (sbind m f s).1.
Proof. intros H1 H2. unfold sbind. destruct (m s) as [[a|e] s1]; simpl in *; [by apply H2|done]. Qed.

Lemma read_entry_run name bs e s :
  files s !! name = Some bs → entry_file name bs = Ok e →
  unless_fault (λ x, x = e) (read_entry faults name s).1.
Proof.
  intros Hbs He. unfold read_entry. eapply unless_fault_bind; [by apply fs_read_run|].
  intros ? ->. unfold entry_file in He. destruct (_ <? _)%N eqn:Hl; [done|].
  eapply unless_fault_bind; [apply (fs_read_run name bs)|].
  - pose proof (quiet_read faults name s) as [_ ->]. done.
  - intros ? ->. apply N.ltb_ge in Hl. rewrite takeN_all by lia. simpl. by rewrite He.
Qed.

(** The part of the index that the files named so far account for. *)
Definition recovered (entries : gmap bytes IndexedIntentMetadata) (names : list bytes) (i : OutboxIndex) : Prop :=
  index_wf i ∧ oi_directory_sync_required i = false ∧
  ∀ id, oi_entries i !! id = if decide (entry_path id ∈ names) then entries !! id else None.

Lemma quiet_recover_file index name : quiet (recover_file faults index name).
Proof.
  unfold recover_file. destruct (negb _); [apply quiet_ret|].
  apply quiet_bind; [apply quiet_read_entry|]. intros e. case_bool_decide; [apply quiet_err|].
  apply quiet_bind; [apply quiet_lift|]. intros. apply quiet_ret.
Qed.

Lemma quiet_recover_from listing index : quiet (recover_from faults listing index).
Proof.
  revert index; induction listing as [|n l IH]; intros index; simpl; [apply quiet_ret|].
  apply quiet_bind; [apply quiet_recover_file|]. intros. apply IH.
Qed.

Lemma recover_file_run entries names index name s :
  disk_agrees (files s) entries → is_Some (files s !! name) → name ∉ names → recovered entries names index →
  unless_fault (recovered entries (names ++ [name])) (recover_file faults index name s).1.
Proof.
  intros [H1 H2] [bs Hbs] Hnew (Hwf & Hsync & He). unfold recover_file.
  destruct (decide (is_json name)) as [Hj|Hj].
  2:{ unfold is_json in Hj. rewrite bool_decide_eq_false_2 by done. simpl. split_and!; [done|done|].
      intros id. rewrite He. destruct (decide (entry_path id ∈ names ++ [name])) as [Hin|Hin].
      - apply elem_of_app in Hin as [Hin|Hin%list_elem_of_singleton]; [by rewrite decide_True|].
        rewrite decide_False by (by rewrite Hin). destruct (entries !! id) as [m|] eqn:Hm; [|done].
        exfalso. apply Hj. rewrite <- Hin. apply entry_path_json.
        destruct (H2 id m Hm) as (? & e & _ & [Hw _]%entry_file_Ok & <- & _). by apply entry_wf_id.
      - rewrite decide_False; [done|]. intros Hin'. apply Hin. apply elem_of_app. by left. }
  pose proof Hj as Hj'. unfold is_json in Hj'. rewrite bool_decide_eq_true_2 by done. simpl.
  destruct (H1 name bs Hbs Hj) as (e & m & Hef & Hm & Hidx).
  eapply unless_fault_bind; [by apply (read_entry_run name bs e)|]. intros ? ->.
  assert (name = entry_path (p_id e)) as Hname.
  { apply entry_file_Ok in Hef as [_ <-]. by apply is_json_name. }
  rewrite bool_decide_eq_false_2; [|rewrite He, decide_False; [by intros []|by rewrite <- Hname]].
  eapply (unless_fault_bind _ _ (λ x, x = m)); [simpl; by rewrite Hm|]. intros ? ->. simpl.
  split_and!; [by apply index_upsert_wf| |].
  - unfold index_upsert, index_remove. simpl. by destruct (oi_entries index !! p_id e).
  - intros id. rewrite index_upsert_entries. destruct (decide (id = p_id e)) as [->|Hne].
    + rewrite lookup_insert_eq, decide_True; [done|]. apply elem_of_app. right. rewrite Hname. by left.
    + rewrite lookup_insert_ne, He by done. destruct (decide (entry_path id ∈ names)) as [Hin|Hin].
      * rewrite decide_True; [done|]. apply elem_of_app. by left.
      * rewrite decide_False; [done|]. intros [?|Heq%list_elem_of_singleton]%elem_of_app; [done|].
        apply Hne. rewrite Hname in Heq. by apply entry_path_inj.
Qed.

Lemma recover_from_run entries names listing index s :
  disk_agrees (files s) entries → (∀ n, n ∈ listing → is_Some (files s !! n)) →
  NoDup (names ++ listing) → recovered entries names index →
  unless_fault (recovered entries (names ++ listing)) (recover_from faults listing index s).1.
Proof.
  revert names index s; induction listing as [|n listing IH]; intros names index s Hd Hin Hnd Hr; simpl.
  { by rewrite app_nil_r. }
  eapply unless_fault_bind.
  - apply (recover_file_run entries names); [done|apply Hin; by left| |done].
    apply NoDup_app in Hnd as (_ & Hd2 & _). intros Hc. apply (Hd2 n Hc). by left.
  - intros index' Hr'. destruct (quiet_recover_file index n s) as [_ Hf].
    replace (names ++ n :: listing) with ((names ++ [n]) ++ listing) by (by rewrite <- app_assoc).
    apply IH; [by rewrite Hf| |by rewrite <- app_assoc|done].
    intros k Hk. rewrite Hf. apply Hin. by right.
Qed.

(** Opening the directory of an outbox rebuilds its index. *)
Lemma outbox_open_run listing s :
  outbox_inv s → listing ≡ₚ elements (dom (files s)) →
  let r := outbox_open faults listing s in
  outbox_inv r.2 ∧ unless_fault (λ _, ob_index r.2 = set_sync false (ob_index s)) r.1.
Proof.
  intros [Hwf Hd] Hl. unfold outbox_open.
  destruct (fs_sync faults s) as [[[]|e0] s0] eqn:E0; pose proof (quiet_sync faults s) as [Hi0 Hf0];
    rewrite E0 in Hi0, Hf0; simpl in Hi0, Hf0.
  2:{ rewrite (sbind_fail _ _ _ _ _ E0). simpl. split; [unfold outbox_inv; by rewrite Hi0, Hf0|].
      unfold fs_sync, on_disk, fs_op in E0. destruct (faults _) eqn:Ef; [|done]. injection E0 as <- _. by eexists. }
  rewrite (sbind_run _ _ _ _ _ E0).
  pose proof (quiet_recover_from listing index_default s0) as [Hi1 Hf1].
  assert (unless_fault (recovered (oi_entries (ob_index s)) ([] ++ listing))
    (recover_from faults listing index_default s0).1) as Hr.
  { apply recover_from_run.
    - by rewrite Hf0.
    - intros n Hn. rewrite Hf0. rewrite Hl, elem_of_elements, elem_of_dom in Hn. done.
    - simpl. rewrite Hl. apply NoDup_elements.
    - split_and!; [apply index_default_wf|done|]. intros id.
      rewrite decide_False by (by intros ?%elem_of_nil). done. }
  unfold recover_index, sbind. destruct (recover_from faults listing index_default s0) as [[i|e] s1]; simpl in *.
  2:{ split; [unfold outbox_inv; by rewrite Hi1, Hf1, Hi0, Hf0|done]. }
  destruct Hr as (Hwf' & Hs' & He').
  assert (oi_entries i = oi_entries (ob_index s)) as Hent.
  { apply map_eq. intros id. rewrite He'. destruct (decide (entry_path id ∈ listing)) as [|Hn]; [done|].
    destruct (oi_entries (ob_index s) !! id) as [m|] eqn:Hm; [|done]. exfalso. apply Hn.
    rewrite Hl, elem_of_elements, elem_of_dom. destruct (proj2 Hd id m Hm) as (bs & ? & -> & _). by eexists. }
  split.
  - split; simpl; [done|]. by rewrite Hf1, Hf0, Hent.
  - rewrite <- (index_wf_unique i (ob_index s)) by done. unfold set_sync. destruct i; simpl in *. by subst.
Qed.
End Recovery.

(** ** Sequences of calls *)

Inductive OutboxCall : Type :=
| CallPersist (intents : list CatalogIntent)
| CallMarkDelivered (expected : PendingCatalogIntent)
| CallRecordFailure (expected : PendingCatalogIntent) (error : bytes) (retry : option N) (terminal : bool)
| CallScanPending (limit : N)
| CallScanEligible (now limit : N)
| CallSnapshot
| CallReopen.

Section Calls.
Context {DG : Digest}.
Context {JI : Codec CatalogIntentIdentity} {JC : Codec CatalogIntent}
  {JP : Codec PendingCatalogIntent} {JE : Codec CatalogOutboxEnvelope}.
Context (faults : N → option FsErr) (clock : N → N) (torn : N → nat) (pid : N).

Notation files s := (d_files (ob_disk s)).

(** The state a call leaves behind, whether it succeeds or fails. *)
Definition run_call (c : OutboxCall) (s : Outbox) : Outbox :=
  match c with
  | CallPersist intents => (persist faults clock torn pid intents s).2
  | CallMarkDelivered e => (mark_delivered_if faults e s).2
  | CallRecordFailure e err retry term => (record_failure_if faults clock torn pid e err retry term s).2
  | CallScanPending limit => (scan_pending faults limit s).2
  | CallScanEligible now limit => (scan_eligible_pending faults now limit s).2
  | CallSnapshot => (metadata_snapshot clock s).2
  | CallReopen => (outbox_open faults (elements (dom (files s))) s).2
  end.

Definition run_calls (cs : list OutboxCall) (s : Outbox) : Outbox := foldl (λ s c, run_call c s) s cs.

Definition empty_outbox : Outbox :=
  {| ob_index := index_default; ob_disk := {| d_files := ∅; d_step := 0 |} |}.

Lemma empty_outbox_inv : outbox_inv empty_outbox.
Proof. split; [apply index_default_wf|]. split; intros ?? H; cbn in H; by rewrite lookup_empty in H. Qed.

Lemma run_call_keeps c s : outbox_inv s → outbox_inv (run_call c s).
Proof.
  intros Hs. destruct c; cbn [run_call].
  - by apply persist_keeps.
  - by apply mark_delivered_keeps.
  - by apply record_failure_keeps.
  - revert s Hs. apply quiet_keeps. apply quiet_bind; [apply quiet_get_index|]. intros. apply quiet_read_all.
  - revert s Hs. apply quiet_keeps. apply quiet_bind; [apply quiet_get_index|]. intros. apply quiet_read_all.
  - revert s Hs. apply quiet_keeps. apply quiet_bind; [apply quiet_get_index|]. intros.
    apply quiet_bind; [apply quiet_now|]. intros. apply quiet_ret.
  - by apply outbox_open_run.
Qed.

Lemma run_calls_keeps cs s : outbox_inv s → outbox_inv (run_calls cs s).
Proof.
  unfold run_calls. revert s; induction cs as [|c cs IH]; intros s Hs; simpl; [done|].
  by apply IH, run_call_keeps.
Qed.
End Calls.

Section OutboxTheorems.
Context {DG : Digest}.
Context {JI : Codec CatalogIntentIdentity} {JC : Codec CatalogIntent}
  {JP : Codec PendingCatalogIntent} {JE : Codec CatalogOutboxEnvelope}.

Notation files s := (d_files (ob_disk s)).

(** The intent pending under an identifier, as the directory holds it. *)
Definition pending (s : Outbox) (id : bytes) : option PendingCatalogIntent :=
  match files s !! entry_path id with
  | Some bs => match entry_file (entry_path id) bs with Ok e => Some e | Err _ => None end
  | None => None
  end.

Lemma pending_entries s id :
  outbox_inv s →
  match pending s id with
  | Some e => ∃ m, metadata_from_entry e = Ok m ∧ oi_entries (ob_index s) !! id = Some m ∧ p_id e = id
  | None => oi_entries (ob_index s) !! id = None
  end.
Proof.
  intros [_ [H1 H2]]. unfold pending. destruct (oi_entries (ob_index s) !! id) as [m|] eqn:Hm.
  - destruct (H2 id m Hm) as (bs & e & -> & -> & <- & Hme). eauto.
  - destruct (files s !! entry_path id) as [bs|] eqn:Hb; [|done].
    destruct (entry_file (entry_path id) bs) as [e|] eqn:He; [|done].
    pose proof (entry_file_Ok _ _ _ He) as [Hwf Hst].
    destruct (decide (id = [])) as [->|Hne].
    { apply entry_wf_id, is_id_hex in Hwf as [Hl _]. rewrite <- Hst in Hl. done. }
    rewrite entry_path_split in Hst by done. simpl in Hst. subst id.
    destruct (H1 _ _ Hb) as (e' & m' & He' & _ & Hm'); [by apply entry_path_json, entry_wf_id|].
    rewrite He in He'. injection He' as <-. congruence.
Qed.

Lemma pending_same_json s s' :
  same_json (files s) (files s') → ∀ id, pending s id = pending s' id.
Proof.
  intros H id. unfold pending. destruct (decide (id = [])) as [->|Hne].
  - assert (∀ bs, ∃ e, entry_file (entry_path []) bs = Err e) as Herr.
    { intros bs. destruct (entry_file (entry_path []) bs) as [e|] eqn:E; [|eauto].
      apply entry_file_Ok in E as [Hwf Hst]. apply entry_wf_id, is_id_hex in Hwf as [Hl _].
      rewrite <- Hst in Hl. done. }
    destruct (files s !! entry_path []) as [b1|], (files s' !! entry_path []) as [b2|]; try done;
      repeat match goal with |- context [entry_file ?n ?b] => destruct (Herr b) as [? ->] end; done.
  - rewrite H; [done|]. unfold is_json. by rewrite entry_path_split.
Qed.

Lemma pending_insert s s' e bs :
  entry_wf e → encode_entry e = Ok bs →
  same_json (files s') (<[entry_path (p_id e) := bs]> (files s)) →
  ∀ id, pending s' id = if decide (id = p_id e) then Some e else pending s id.
Proof.
  intros Hwf Hbs Hs id.
  set (t := {| ob_index := ob_index s; ob_disk := {| d_files := <[entry_path (p_id e) := bs]> (files s);
                                                     d_step := 0 |} |}).
  rewrite (pending_same_json s' t) by done. unfold pending; simpl. case_decide as Hid.
  - subst id. by rewrite lookup_insert_eq, entry_file_encode.
  - rewrite lookup_insert_ne; [done|]. intros Heq%entry_path_inj. congruence.
Qed.

Lemma pending_delete s s' id0 :
  files s' = delete (entry_path id0) (files s) →
  ∀ id, pending s' id = if decide (id = id0) then None else pending s id.
Proof.
  intros Hf id. unfold pending. rewrite Hf. case_decide as Hid.
  - subst id. by rewrite lookup_delete_eq.
  - rewrite lookup_delete_ne; [done|]. intros Heq%entry_path_inj. congruence.
Qed.
End OutboxTheorems.

Section OutboxEffects.
Context {DG : Digest}.
Context {JI : Codec CatalogIntentIdentity} {JC : Codec CatalogIntent}
  {JP : Codec PendingCatalogIntent} {JE : Codec CatalogOutboxEnvelope}.
Context (faults : N → option FsErr) (clock : N → N) (torn : N → nat) (pid : N).

Notation files s := (d_files (ob_disk s)).

Lemma quiet_pending {A} (m : st Outbox FsErr A) s id : quiet m → pending (m s).2 id = pending s id.
Proof. intros H. destruct (H s) as [_ Hf]. unfold pending. by rewrite Hf. Qed.

(** What a write does to the pending intents. *)
Lemma write_entry_effect e s :
  entry_wf e →
  let r := write_entry_atomic_rename faults clock torn pid (entry_path (p_id e)) e s in
  ob_index r.2 = ob_index s ∧
  ∀ id, pending r.2 id = if decide (id = p_id e) then (if is_ok r.1 then Some e else pending s id)
                         else pending s id.
Proof.
  intros Hwf r. pose proof (entry_wf_id e Hwf) as Hid.
  pose proof (write_entry_spec faults clock torn pid (entry_path (p_id e)) e s) as Hw. fold r in Hw.
  specialize (Hw (entry_path_json _ Hid)). rewrite entry_path_parts in Hw by done. simpl in Hw.
  assert (p_id e ≠ []) as Hne by (intros E; apply is_id_hex in Hid as [Hl _]; by rewrite E in Hl).
  specialize (Hw Hne). destruct (encode_entry e) as [bs|err] eqn:Eb.
  - destruct Hw as [Hix Hr]. split; [done|]. intros id. destruct r as [[[]|err] s']; simpl in *.
    + by eapply pending_insert.
    + rewrite (pending_same_json s' s) by done. by case_decide.
  - destruct Hw as (Hix & Hs & Hf). split; [done|]. intros id. rewrite Hf, (pending_same_json r.2 s) by done.
    by case_decide.
Qed.

(** The two conditional mutations act on the entry they expect or not at all. *)

Lemma current_if_pending expected s cur s' :
  outbox_inv s → current_if faults expected s = (Ok (Some cur), s') →
  cur = expected ∧ pending s (p_id expected) = Some expected ∧ entry_wf expected.
Proof.
  intros Hs H. destruct (current_if_Some faults _ _ _ _ Hs H) as (-> & bs & m & Hbs & He & _ & _).
  split_and!; [done| |by eapply entry_file_Ok]. unfold pending. by rewrite Hbs, He.
Qed.

Lemma mark_delivered_Ok expected s r s' :
  outbox_inv s → mark_delivered_if faults expected s = (Ok r, s') →
  (r = Stale ∧ ob_index s' = ob_index s ∧ ∀ id, pending s' id = pending s id) ∨
  (r = Applied ∧ pending s (p_id expected) = Some expected ∧
   ∀ id, pending s' id = if decide (id = p_id expected) then None else pending s id).
Proof.
  intros Hs. unfold mark_delivered_if. intros (o & s1 & Hc & H)%sbind_Ok.
  pose proof (quiet_current_if faults expected s) as [Hi Hf]. rewrite Hc in Hi, Hf. simpl in Hi, Hf.
  destruct o as [cur|].
  2:{ apply sret_inv in H as [-> ->]. left. split_and!; [done|done|]. intros id. unfold pending. by rewrite Hf. }
  right. destruct (current_if_pending _ _ _ _ Hs Hc) as (-> & Hp & Hwf).
  apply sbind_Ok in H as ([] & s2 & Hr & H).
  assert (files s2 = delete (entry_path (p_id expected)) (files s)) as Hf2.
  { unfold fs_remove, on_disk, fs_op in Hr. destruct (faults _); [done|].
    destruct (_ !! entry_path (p_id expected)); [|done]. injection Hr as <-. simpl. by rewrite Hf. }
  apply sbind_Ok in H as ([] & s3 & H3 & H). injection H3 as <-.
  apply sbind_Ok in H as ([] & s4 & H4 & H). injection H4 as <-.
  apply sbind_Ok in H as ([] & s5 & H5 & H).
  match type of H5 with sync_pending_directory _ ?x = _ => pose proof (quiet_sync faults x) as [_ Hf5] end.
  unfold sync_pending_directory in H5. rewrite H5 in Hf5. simpl in Hf5.
  apply sbind_Ok in H as ([] & s6 & H6 & H). injection H6 as <-. apply sret_inv in H as [-> ->].
  split_and!; [done|done|]. apply pending_delete. simpl. by rewrite Hf5.
Qed.

Lemma record_failure_Ok expected error retry terminal s r s' :
  outbox_inv s → record_failure_if faults clock torn pid expected error retry terminal s = (Ok r, s') →
  (r = Stale ∧ ob_index s' = ob_index s ∧ ∀ id, pending s' id = pending s id) ∨
  (r = Applied ∧ pending s (p_id expected) = Some expected ∧
   ∃ n, ∀ id, pending s' id =
     if decide (id = p_id expected)
     then Some (failed_entry expected (clock n) error retry terminal) else pending s id).
Proof.
  intros Hs. unfold record_failure_if. intros (o & s1 & Hc & H)%sbind_Ok.
  pose proof (quiet_current_if faults expected s) as [Hi Hf]. rewrite Hc in Hi, Hf. simpl in Hi, Hf.
  destruct o as [cur|].
  2:{ apply sret_inv in H as [-> ->]. left. split_and!; [done|done|]. intros id. unfold pending. by rewrite Hf. }
  right. destruct (current_if_pending _ _ _ _ Hs Hc) as (-> & Hp & Hwf).
  apply sbind_Ok in H as (now & s2 & Hn & H). injection Hn as <- <-.
  set (entry := failed_entry expected (clock (d_step (ob_disk s1))) error retry terminal) in *.
  apply sbind_Ok in H as ([] & s3 & Hw & H).
  match type of Hw with _ ?x = _ => set (s2 := x) in * end.
  pose proof (write_entry_effect entry s2 Hwf) as [Hi3 Hp3]. change (p_id entry) with (p_id expected) in *.
  rewrite Hw in Hi3, Hp3. simpl in Hi3, Hp3.
  apply sbind_Ok in H as (m & s4 & [_ ->]%slift_inv & H).
  apply sbind_Ok in H as ([] & s5 & H5 & H). injection H5 as <-.
  apply sbind_Ok in H as ([] & s6 & H6 & H). injection H6 as <-.
  apply sbind_Ok in H as ([] & s7 & H7 & H).
  match type of H7 with sync_pending_directory _ ?x = _ => pose proof (quiet_sync faults x) as [_ Hf7] end.
  unfold sync_pending_directory in H7. rewrite H7 in Hf7. simpl in Hf7.
  apply sbind_Ok in H as ([] & s8 & H8 & H). injection H8 as <-. apply sret_inv in H as [-> ->].
  split_and!; [done|done|]. exists (d_step (ob_disk s1)). intros id.
  assert (pending {| ob_index := set_sync false (ob_index s7); ob_disk := ob_disk s7 |} id = pending s3 id) as ->
    by (unfold pending; simpl; by rewrite Hf7).
  rewrite Hp3. case_decide; [done|]. unfold s2, pending. simpl. by rewrite Hf.
Qed.

Lemma current_if_stale expected s cur :
  outbox_inv s → pending s (p_id expected) ≠ Some expected →
  (current_if faults expected s).1 ≠ Ok (Some cur).
Proof.
  intros Hs Hp H. destruct (current_if faults expected s) as [r s'] eqn:E. simpl in H. subst r.
  by destruct (current_if_pending _ _ _ _ Hs E) as (_ & ? & _).
Qed.

(** A delivery or a failure reported for an entry that is no longer the pending one is
    refused: nothing of the outbox changes, whatever the environment does. *)
Theorem stale_result_ignored expected s error retry terminal :
  outbox_inv s → pending s (p_id expected) ≠ Some expected →
  (let r := mark_delivered_if faults expected s in
   r.1 ≠ Ok Applied ∧ ob_index r.2 = ob_index s ∧ ∀ id, pending r.2 id = pending s id) ∧
  (let r := record_failure_if faults clock torn pid expected error retry terminal s in
   r.1 ≠ Ok Applied ∧ ob_index r.2 = ob_index s ∧ ∀ id, pending r.2 id = pending s id).
Proof.
  intros Hs Hp. pose proof (λ cur, current_if_stale expected s cur Hs Hp) as Hc.
  pose proof (quiet_current_if faults expected s) as [Hi Hf].
  unfold mark_delivered_if, record_failure_if, sbind, pending.
  destruct (current_if faults expected s) as [[[cur|]|e] s1]; simpl in *;
    [by destruct (Hc cur)|by rewrite Hi, Hf..].
Qed.

(** ** Persisting *)

Lemma store_entry_Ok e s s' :
  entry_wf e → store_entry faults clock torn pid (p_id e) e s = (Ok tt, s') →
  ∀ id, pending s' id = if decide (id = p_id e) then Some e else pending s id.
Proof.
  intros Hwf. unfold store_entry. intros ([] & s1 & Hw & H)%sbind_Ok.
  pose proof (write_entry_effect e s Hwf) as [_ Hp]. rewrite Hw in Hp. simpl in Hp.
  apply sbind_Ok in H as ([] & s2 & H2 & H). injection H2 as <-.
  apply sbind_Ok in H as (m & s3 & [_ ->]%slift_inv & H). injection H as <-. apply Hp.
Qed.

Lemma persist_intent_Ok summary i s sm s' :
  outbox_inv s → persist_intent faults clock torn pid summary i s = (Ok sm, s') →
  ∃ id e, stable_intent_id (ci_identity i) = Ok id ∧ pending s' id = Some e ∧
    intent_generation (p_intent e) = intent_generation i ∧
    (∀ e0, pending s id = Some e0 → intent_generation (p_intent e0) = intent_generation i → e = e0) ∧
    ∀ id', id' ≠ id → pending s' id' = pending s id'.
Proof.
  intros Hs. unfold persist_intent. intros (id & s1 & [Hid ->]%slift_inv & H)%sbind_Ok.
  apply sbind_Ok in H as (now & s2 & Hn & H). injection Hn as Hnow <-.
  apply sbind_Ok in H as (sha & s3 & [Hsha ->]%slift_inv & H).
  apply sbind_Ok in H as (index & s4 & Hg & H). injection Hg as <- <-. simpl in H.
  pose proof (pending_entries s id Hs) as Hpe. exists id.
  match type of H with context [match _ with Some _ => _ | None => _ end ?x = _] => set (s2 := x) in * end.
  assert (∀ k, pending s2 k = pending s k) as Hs2 by done.
  destruct (oi_entries (ob_index s) !! id) as [m|] eqn:Hm.
  - destruct (pending s id) as [e0|] eqn:He0; [|done]. destruct Hpe as (m' & Hm' & Heq & Hide).
    injection Heq as <-. apply metadata_intent in Hm' as Hg0. case_decide as Hc.
    + apply sret_inv in H as [-> ->]. exists e0. split_and!; [done|by rewrite Hs2|congruence| |done].
      by intros e1 [= ->].
    + apply sbind_Ok in H as ([] & s5 & Hst & [_ ->]%sret_inv).
      pose proof (store_entry_Ok (fresh_entry id i (im_created_at_ms m) now) s2 s5 Hid Hst) as Hp. simpl in Hp.
      eexists. rewrite Hp, decide_True by done. split_and!; [done|done|done| |].
      * intros e1 [= <-] Hg1. congruence.
      * intros id' Hne. rewrite Hp, decide_False by done. apply Hs2.
  - destruct (pending s id) as [e0|] eqn:He0; [by destruct Hpe as (? & ? & ? & _)|].
    apply sbind_Ok in H as ([] & s5 & Hst & [_ ->]%sret_inv).
    pose proof (store_entry_Ok (fresh_entry id i now now) s2 s5 Hid Hst) as Hp. simpl in Hp.
    eexists. rewrite Hp, decide_True by done. split_and!; [done|done|done|done|].
    intros id' Hne. rewrite Hp, decide_False by done. apply Hs2.
Qed.

Lemma persist_all_other intents summary s sm s' id :
  outbox_inv s → persist_all faults clock torn pid intents summary s = (Ok sm, s') →
  (∀ j, j ∈ intents → stable_intent_id (ci_identity j) ≠ Ok id) → pending s' id = pending s id.
Proof.
  revert summary s; induction intents as [|x intents IH]; intros summary s Hs H Hj; simpl in H.
  { by apply sret_inv in H as [_ ->]. }
  apply sbind_Ok in H as (sm1 & s1 & H1 & H2).
  pose proof (persist_intent_keeps faults clock torn pid summary x s Hs) as Hs1. rewrite H1 in Hs1.
  destruct (persist_intent_Ok _ _ _ _ _ Hs H1) as (id' & e & Hid & _ & _ & _ & Hother).
  rewrite (IH sm1 s1 Hs1 H2); [apply Hother|].
  - intros ->. apply (Hj x); [by left|done].
  - intros j Hin. apply Hj. by right.
Qed.

Lemma persist_all_Ok intents summary s sm s' :
  outbox_inv s → persist_all faults clock torn pid intents summary s = (Ok sm, s') →
  ∀ pre i post, intents = pre ++ i :: post →
    (∀ j, j ∈ post → stable_intent_id (ci_identity j) ≠ stable_intent_id (ci_identity i)) →
    ∃ id e, stable_intent_id (ci_identity i) = Ok id ∧ pending s' id = Some e ∧
      intent_generation (p_intent e) = intent_generation i.
Proof.
  revert summary s; induction intents as [|x intents IH]; intros summary s Hs H pre i post Heq Hpost;
    [by destruct pre|]. simpl in H.
  apply sbind_Ok in H as (sm1 & s1 & H1 & H2).
  pose proof (persist_intent_keeps faults clock torn pid summary x s Hs) as Hs1. rewrite H1 in Hs1. simpl in Hs1.
  destruct pre as [|y pre]; simpl in Heq; injection Heq as -> ->; [|by eapply IH].
  destruct (persist_intent_Ok _ _ _ _ _ Hs H1) as (id & e & Hid & Hp & Hg & _).
  exists id, e. split_and!; [done| |done].
  rewrite (persist_all_other _ _ _ _ _ id Hs1 H2); [done|]. intros j Hj Hc. apply (Hpost j Hj). congruence.
Qed.

(** When persisting a batch of intents succeeds, each of them that no later one of the
    batch replaces is pending under its identity (with the digest of that intent), and the
    intents of other identities are untouched. *)
Theorem persist_durable intents s summary s' :
  outbox_inv s → persist faults clock torn pid intents s = (Ok summary, s') →
  (∀ pre i post, intents = pre ++ i :: post →
    (∀ j, j ∈ post → stable_intent_id (ci_identity j) ≠ stable_intent_id (ci_identity i)) →
    ∃ id e, stable_intent_id (ci_identity i) = Ok id ∧ pending s' id = Some e ∧
      intent_generation (p_intent e) = intent_generation i) ∧
  (∀ id, (∀ j, j ∈ intents → stable_intent_id (ci_identity j) ≠ Ok id) → pending s' id = pending s id).
Proof.
  intros Hs. unfold persist. intros (sm & s1 & Hall & H)%sbind_Ok.
  assert (∀ id, pending s' id = pending s1 id) as Hp.
  { apply sbind_Ok in H as (index & s2 & Hg & H). injection Hg as <- <-.
    apply sbind_Ok in H as ([] & s3 & H3 & [_ ->]%sret_inv). intros id.
    destruct (oi_directory_sync_required (ob_index s1)); [|by apply sret_inv in H3 as [_ ->]].
    apply sbind_Ok in H3 as ([] & s4 & H4 & H5). injection H5 as <-.
    pose proof (quiet_sync faults s1) as [_ Hf]. unfold sync_pending_directory in H4. rewrite H4 in Hf.
    unfold pending. simpl in *. by rewrite Hf. }
  split.
  - intros pre i post Heq Hpost.
    destruct (persist_all_Ok _ _ _ _ _ Hs Hall pre i post Heq Hpost) as (id & e & ? & ? & ?).
    exists id, e. by rewrite Hp.
  - intros id Hj. rewrite Hp. by eapply persist_all_other.
Qed.

(** ** Due intents *)

Lemma stamp_le_iff x y : stamp_le x y ↔ (x.1 < y.1)%N ∨ (x.1 = y.1 ∧ bytes_le x.2 y.2).
Proof.
  unfold stamp_le, stamp_leb. destruct (N.ltb_spec x.1 y.1); [split; [by left|done]|].
  destruct (N.ltb_spec y.1 x.1); [split; [done|lia]|]. unfold bytes_le. split; [intros; right; split; [lia|done]|].
  intros [|[]]; [lia|done].
Qed.

#[local] Instance stamp_le_trans : Transitive stamp_le.
Proof.
  intros x y z. rewrite !stamp_le_iff. intros [H1|[H1 H1']] [H2|[H2 H2']]; [left; lia..|].
  right. split; [congruence|by etrans].
Qed.
#[local] Instance stamp_le_total : Total stamp_le.
Proof.
  intros x y. rewrite !stamp_le_iff. destruct (N.lt_trichotomy x.1 y.1) as [|[|]]; [by left; left| |by right; left].
  destruct (total bytes_le x.2 y.2); [left|right]; right; split; done || lia.
Qed.

Lemma in_stamp_order_elem s x : x ∈ in_stamp_order s ↔ x ∈ s.
Proof. unfold in_stamp_order. by rewrite merge_sort_Permutation, elem_of_elements. Qed.

Lemma in_stamp_order_sorted s : StronglySorted stamp_le (in_stamp_order s).
Proof. apply StronglySorted_merge_sort; apply _. Qed.

Lemma in_stamp_order_nodup s : NoDup (in_stamp_order s).
Proof. unfold in_stamp_order. rewrite merge_sort_Permutation. apply NoDup_elements. Qed.

(** Every identifier is below the last character, so the range bound cuts by time alone. *)
Lemma id_below_char_max id : is_id id → bytes_le id CHAR_MAX.
Proof.
  intros [Hl Hd]%is_id_hex. destruct id as [|c id]; [done|]. unfold bytes_le, CHAR_MAX. simpl.
  assert (Byte.to_N c < 244)%N as Hc.
  { specialize (Hd c (list_elem_of_here _ _)). unfold in_range in Hd. apply orb_true_iff in Hd as [Hd|Hd];
      apply andb_true_iff in Hd as [_ Hd%N.leb_le]; lia. }
  change (Byte.to_N xf4) with 244%N. by rewrite (proj2 (N.ltb_lt _ _)).
Qed.

Lemma due_range_elem s now n id :
  outbox_inv s →
  (n, id) ∈ due_range (ob_index s) now ↔
    ∃ e, pending s id = Some e ∧ p_terminal e = false ∧ p_next_attempt_at_ms e = n ∧ (n ≤ now)%N.
Proof.
  intros Hs. pose proof Hs as [(Hdue & _) Hd].
  unfold due_range. rewrite list_elem_of_filter, in_stamp_order_elem, Hdue, elem_of_due_of.
  pose proof (pending_entries s id Hs) as Hpe. rewrite stamp_le_iff. simpl. split.
  - intros [Hle (m & Hm & Ht & Hn)]. destruct (pending s id) as [e|]; [|congruence].
    destruct Hpe as (m' & Hm' & Hm'' & _). rewrite Hm in Hm''. injection Hm'' as <-.
    unfold metadata_from_entry in Hm'. inv_res. exists e. split_and!; [done|done|done|lia].
  - intros (e & He & Ht & <- & Hle). rewrite He in Hpe. destruct Hpe as (m & Hm & Hm' & Hid). split.
    + destruct (N.lt_trichotomy (p_next_attempt_at_ms e) now) as [|[|]]; [by left| |lia]. right.
      split; [done|]. apply id_below_char_max. by eapply disk_agrees_ids.
    + exists m. unfold metadata_from_entry in Hm. inv_res. done.
Qed.

Lemma due_range_nodup s now : outbox_inv s → NoDup (due_range (ob_index s) now).*2.
Proof.
  intros Hs. apply NoDup_fmap_2_strong.
  - intros [n1 i1] [n2 i2] H1 H2 Heq. simpl in Heq. subst i2.
    apply (due_range_elem s now n1 i1 Hs) in H1 as (e1 & He1 & _ & <- & _).
    apply (due_range_elem s now n2 i1 Hs) in H2 as (e2 & He2 & _ & <- & _).
    rewrite He1 in He2. by injection He2 as <-.
  - apply NoDup_filter, in_stamp_order_nodup.
Qed.

Lemma due_ids_range (i : OutboxIndex) now limit : due_ids i now limit = takeN limit (due_range i now).*2.
Proof. unfold due_ids. rewrite !takeN_take. by rewrite fmap_take. Qed.

(** The identifiers a scan for due work visits are, in order of their next attempt, the
    first [limit] of exactly the non-terminal pending intents whose next attempt is not in
    the future, each once. *)
Theorem due_ids_exact s now limit :
  outbox_inv s →
  ∃ due : list (N * bytes), due_ids (ob_index s) now limit = takeN limit due.*2 ∧ NoDup due.*2 ∧
    StronglySorted stamp_le due ∧
    ∀ n id, (n, id) ∈ due ↔
      ∃ e, pending s id = Some e ∧ p_terminal e = false ∧ p_next_attempt_at_ms e = n ∧ (n ≤ now)%N.
Proof.
  intros Hs. exists (due_range (ob_index s) now). split_and!.
  - apply due_ids_range.
  - by apply due_range_nodup.
  - unfold due_range. pose proof (in_stamp_order_sorted (oi_due (ob_index s))) as Hso.
    induction Hso as [|x l _ IH Hall]; [constructor|]. rewrite filter_cons. case_decide; [|done].
    constructor; [done|]. apply Forall_forall. intros y [_ Hy]%list_elem_of_filter.
    rewrite Forall_forall in Hall. by apply Hall.
  - intros n id. by apply due_range_elem.
Qed.

End OutboxEffects.

(** ** Restart and snapshot *)

Section Restart.
Context {DG : Digest}.
Context {JI : Codec CatalogIntentIdentity} {JC : Codec CatalogIntent}
  {JP : Codec PendingCatalogIntent} {JE : Codec CatalogOutboxEnvelope}.
Context (faults : N → option FsErr) (clock : N → N) (torn : N → nat) (pid : N).

Notation files s := (d_files (ob_disk s)).

(** C19: after any sequence of calls, each of which may fail at any file operation, opening
    the directory again succeeds and rebuilds exactly the index that was in memory, in
    whatever order the directory lists its files. *)
Theorem restart_rebuilds_index calls listing :
  let s := run_calls faults clock torn pid calls empty_outbox in
  listing ≡ₚ elements (dom (files s)) →
  ∃ s', outbox_open (λ _, None) listing s = (Ok tt, s') ∧ ob_index s' = set_sync false (ob_index s).
Proof.
  intros s Hl. pose proof (run_calls_keeps faults clock torn pid calls empty_outbox empty_outbox_inv) as Hs.
  fold s in Hs. destruct (outbox_open_run (λ _, None) listing s Hs Hl) as [_ Hr].
  destruct (outbox_open (λ _, None) listing s) as [[[]|e] s']; simpl in Hr; [by eexists|].
  by destruct Hr.
Qed.

End Restart.

Section Snapshot.
Context {DG : Digest}.
Context {JI : Codec CatalogIntentIdentity} {JC : Codec CatalogIntent}
  {JP : Codec PendingCatalogIntent} {JE : Codec CatalogOutboxEnvelope}.
Context (clock : N → N).

Lemma first_created_spec c :
  match first_created c with
  | None => c = ∅
  | Some t => (∃ id, (t, id) ∈ c) ∧ ∀ n id, (n, id) ∈ c → (t ≤ n)%N
  end.
Proof.
  unfold first_created. pose proof (in_stamp_order_sorted c) as Hs.
  pose proof (in_stamp_order_elem c) as He. destruct (in_stamp_order c) as [|[t i] l]; simpl.
  - apply set_eq. intros x. rewrite <- He. set_solver.
  - split; [exists i; apply He; by left|]. intros n id Hin%He.
    apply elem_of_cons in Hin as [[= -> ->]|Hin]; [done|].
    inversion Hs as [|?? _ Hall]; subst. rewrite Forall_forall in Hall. specialize (Hall _ Hin).
    rewrite stamp_le_iff in Hall. simpl in Hall. lia.
Qed.

(** The counts of a snapshot are those of the directory: every pending file is counted
    once, as due, deferred or terminal, and the oldest creation time is the least of all
    pending intents. *)
Theorem snapshot_counts s snap s' :
  outbox_inv s → metadata_snapshot clock s = (Ok snap, s') →
  (ms_due_count snap + ms_deferred_count snap)%N = ms_pending_count snap ∧
  (ms_pending_count snap + ms_terminal_count snap)%N = N.of_nat (size (oi_entries (ob_index s))) ∧
  match ms_oldest_created_at_ms snap with
  | None => ∀ id, pending s id = None
  | Some t => (∃ id e, pending s id = Some e ∧ p_created_at_ms e = t) ∧
      ∀ id e, pending s id = Some e → (t ≤ p_created_at_ms e)%N
  end.
Proof.
  intros Hs. unfold metadata_snapshot. intros (i & s1 & Hg & H)%sbind_Ok. injection Hg as <- <-.
  apply sbind_Ok in H as (now & s2 & Hn & [-> _]%sret_inv). injection Hn as <- _.
  pose proof Hs as [(Hdue & Hcr & Hterm & Hold) _]. cbn [ms_due_count ms_deferred_count ms_pending_count
    ms_terminal_count ms_oldest_created_at_ms]. split_and!.
  - unfold saturating_sub, due_range.
    pose proof (length_filter (λ d, stamp_le d (clock (d_step (ob_disk s)), CHAR_MAX))
      (in_stamp_order (oi_due (ob_index s)))) as Hle.
    unfold in_stamp_order at 2 in Hle. rewrite merge_sort_Permutation in Hle.
    change (length (elements (oi_due (ob_index s)))) with (size (oi_due (ob_index s))) in Hle. lia.
  - rewrite Hdue, Hterm. apply due_of_size.
  - rewrite Hold. pose proof (first_created_spec (oi_created (ob_index s))) as Hf.
    assert (∀ id e, pending s id = Some e → (p_created_at_ms e, id) ∈ oi_created (ob_index s)) as H1.
    { intros id e He. pose proof (pending_entries s id Hs) as Hpe. rewrite He in Hpe.
      destruct Hpe as (m & Hm & Hm' & _). rewrite Hcr, elem_of_created_of. exists m. split; [done|].
      unfold metadata_from_entry in Hm. inv_res. done. }
    destruct (first_created _) as [t|].
    + destruct Hf as [(id & Hid) Hmin]. split.
      * rewrite Hcr, elem_of_created_of in Hid. destruct Hid as (m & Hm & Ht).
        pose proof (pending_entries s id Hs) as Hpe. exists id. destruct (pending s id) as [e|]; [|congruence].
        destruct Hpe as (m' & Hm' & Hm'' & _). exists e. split; [done|].
        rewrite Hm in Hm''. injection Hm'' as <-. unfold metadata_from_entry in Hm'. inv_res. done.
      * intros id' e' He'. eapply Hmin. by apply H1.
    + intros id. destruct (pending s id) as [e|] eqn:He; [|done]. apply H1 in He. rewrite Hf in He. set_solver.
Qed.
End Snapshot.

(** ** What the conditional mutations can remove, whatever their result *)

Section Removals.
Context {DG : Digest}.
Context {JI : Codec CatalogIntentIdentity} {JC : Codec CatalogIntent}
  {JP : Codec PendingCatalogIntent} {JE : Codec CatalogOutboxEnvelope}.
Context (faults : N → option FsErr) (clock : N → N) (torn : N → nat) (pid : N).

Notation files s := (d_files (ob_disk s)).

Lemma record_failure_removes expected error retry terminal s id :
  outbox_inv s →
  pending (record_failure_if faults clock torn pid expected error retry terminal s).2 id = None →
  pending s id = None.
Proof.
  intros Hs. unfold record_failure_if, sbind at 1.
  pose proof (quiet_current_if faults expected s) as [_ Hf].
  destruct (current_if faults expected s) as [[[cur|]|err] s1] eqn:Hc; simpl in Hf;
    [|by unfold pending; simpl; rewrite Hf..].
  destruct (current_if_pending faults _ _ _ _ Hs Hc) as (-> & Hp & Hwf).
  unfold sbind at 1. unfold now_ms at 1, on_disk at 1.
  set (entry := failed_entry expected (clock (d_step (ob_disk s1))) error retry terminal).
  match goal with |- context [sbind _ _ ?x] => set (s2 := x) end.
  pose proof (write_entry_effect faults clock torn pid entry s2 Hwf) as [_ Hp3].
  change (p_id entry) with (p_id expected) in Hp3. unfold sbind at 1.
  assert (∀ k, pending s2 k = pending s k) as Hs2 by (intros k; unfold pending; simpl; by rewrite Hf).
  destruct (write_entry_atomic_rename _ _ _ _ _ _ s2) as [r3 s3] eqn:Hw. simpl in Hp3.
  assert (pending s3 id = None → pending s id = None) as Hgoal.
  { rewrite Hp3. case_decide; [subst|by rewrite Hs2]. by destruct (is_ok r3); [|rewrite Hs2]. }
  destruct r3 as [[]|err]; [|done]. unfold sbind at 1. unfold slift at 1.
  destruct (metadata_from_entry _) as [m|]; [|done]. unfold sbind, update_index. simpl.
  match goal with |- context [sync_pending_directory faults ?x] =>
    pose proof (quiet_sync faults x) as [_ Hq]; unfold sync_pending_directory;
    destruct (fs_sync faults x) as [[[]|e5] s5] end; simpl in *;
    intros Hn; apply Hgoal; unfold pending in *; simpl in Hn; rewrite Hq in Hn; done.
Qed.

Lemma mark_delivered_removes expected s id :
  outbox_inv s → pending (mark_delivered_if faults expected s).2 id = None →
  pending s id = None ∨ (id = p_id expected ∧ pending s id = Some expected).
Proof.
  intros Hs. unfold mark_delivered_if, sbind at 1.
  pose proof (quiet_current_if faults expected s) as [_ Hf].
  destruct (current_if faults expected s) as [[[cur|]|err] s1] eqn:Hc; simpl in Hf;
    [|by unfold pending; simpl; rewrite Hf; left..].
  destruct (current_if_pending faults _ _ _ _ Hs Hc) as (-> & Hp & Hwf).
  unfold sbind at 1. destruct (fs_remove faults (entry_path (p_id expected)) s1) as [[[]|err] s2] eqn:Hr.
  - assert (files s2 = delete (entry_path (p_id expected)) (files s)) as Hf2.
    { unfold fs_remove, on_disk, fs_op in Hr. destruct (faults _); [done|].
      destruct (_ !! entry_path (p_id expected)); [|done]. injection Hr as <-. simpl. by rewrite Hf. }
    unfold sbind, update_index. simpl.
    match goal with |- context [sync_pending_directory faults ?x] =>
      pose proof (quiet_sync faults x) as [_ Hq]; unfold sync_pending_directory;
      destruct (fs_sync faults x) as [[[]|e5] s5] end; simpl in *; intros Hn;
      (destruct (decide (id = p_id expected)) as [->|Hne]; [by right|left];
       rewrite Hf2 in Hq; rewrite (pending_delete s _ (p_id expected)), decide_False in Hn by done; done).
  - simpl. unfold fs_remove, on_disk, fs_op in Hr. intros Hn. left. revert Hn. unfold pending.
    destruct (faults _); [injection Hr as _ <-; simpl; by rewrite Hf|].
    destruct (_ !! entry_path (p_id expected)); [done|]. injection Hr as _ <-. simpl. by rewrite Hf.
Qed.

Lemma entry_file_id id bs e : entry_file (entry_path id) bs = Ok e → p_id e = id.
Proof.
  intros H. apply entry_file_Ok in H as [Hwf Hst]. destruct (decide (id = [])) as [->|Hne].
  - apply entry_wf_id, is_id_hex in Hwf as [Hl _]. rewrite <- Hst in Hl. done.
  - by rewrite entry_path_split in Hst.
Qed.

(** A scan returns the pending intents of the identifiers it visits. *)
Lemma read_all_Ok ids s es s' :
  read_all faults ids s = (Ok es, s') → Forall2 (λ id e, pending s id = Some e ∧ p_id e = id) ids es.
Proof.
  revert s es s'; induction ids as [|id ids IH]; intros s es s'; cbn [read_all].
  { intros [-> _]%sret_inv. constructor. }
  intros (e & s1 & H1 & H)%sbind_Ok. apply sbind_Ok in H as (es' & s2 & H2 & [-> _]%sret_inv).
  pose proof (quiet_read_entry faults (entry_path id) s) as [_ Hf]. unfold read_indexed_entry in H1.
  rewrite H1 in Hf. simpl in Hf. apply read_entry_Ok in H1 as (bs & Hbs & He). constructor.
  - split; [unfold pending; by rewrite Hbs, He|by eapply entry_file_id].
  - specialize (IH s1 es' s2 H2). eapply Forall2_impl; [exact IH|]. intros id' e' [Hp ?]. split; [|done].
    unfold pending in *. by rewrite Hf in Hp.
Qed.

Lemma quiet_scan_eligible now limit : quiet (scan_eligible_pending faults now limit).
Proof. apply quiet_bind; [apply quiet_get_index|]. intros. apply quiet_read_all. Qed.
End Removals.

(** ** Without faults *)

Section Healthy.
Context {DG : Digest}.
Context {JI : Codec CatalogIntentIdentity} {JC : Codec CatalogIntent}
  {JP : Codec PendingCatalogIntent} {JE : Codec CatalogOutboxEnvelope}.
Context (faults : N → option FsErr) (Hfaults : ∀ n, faults n = None).

Notation files s := (d_files (ob_disk s)).

Lemma read_indexed_run id e s :
  pending s id = Some e → ∃ s', read_indexed_entry faults id s = (Ok e, s').
Proof using Hfaults.
  unfold pending, read_indexed_entry. destruct (files s !! entry_path id) as [bs|] eqn:Hb; [|done].
  destruct (entry_file (entry_path id) bs) as [e'|] eqn:He; [|done]. intros [= ->].
  pose proof (read_entry_run faults _ _ _ s Hb He) as Hr.
  destruct (read_entry faults (entry_path id) s) as [[x|err] s']; simpl in Hr; [subst; eauto|].
  destruct Hr as [n Hn]. by rewrite Hfaults in Hn.
Qed.

Lemma current_if_run e s :
  outbox_inv s → pending s (p_id e) = Some e → ∃ s', current_if faults e s = (Ok (Some e), s').
Proof using Hfaults.
  intros Hs Hp. pose proof (pending_entries s (p_id e) Hs) as Hpe. rewrite Hp in Hpe.
  destruct Hpe as (m & Hm & Hi & _). unfold current_if.
  unfold metadata_from_entry in Hm. destruct (entry_generation e) as [gen|] eqn:Hg; [|done].
  cbn [rbind] in Hm. inv_res.
  unfold sbind, slift, get_index. rewrite Hi. cbn [im_generation_sha256]. rewrite bool_decide_eq_true_2 by done. cbn [negb].
  destruct (read_indexed_run _ _ _ Hp) as [s' Hr]. rewrite Hr. rewrite decide_True by done. by eexists.
Qed.

Lemma sync_run s : ∃ s', fs_sync faults s = (Ok tt, s').
Proof using Hfaults. unfold fs_sync, on_disk, fs_op. rewrite Hfaults. simpl. by eexists. Qed.

(** A current entry is delivered: exactly it goes. *)
Lemma mark_delivered_run e s :
  outbox_inv s → pending s (p_id e) = Some e →
  ∃ s', mark_delivered_if faults e s = (Ok Applied, s') ∧ outbox_inv s' ∧
    ∀ id, pending s' id = if decide (id = p_id e) then None else pending s id.
Proof using Hfaults.
  intros Hs Hp.
  assert (∃ r s', mark_delivered_if faults e s = (Ok r, s') ∧ r = Applied) as (r & s' & Hr & ->).
  { destruct (current_if_run e s Hs Hp) as [s1 Hc]. unfold mark_delivered_if.
    rewrite (sbind_run _ _ _ _ _ Hc).
    pose proof (quiet_current_if faults e s) as [_ Hf]. rewrite Hc in Hf. simpl in Hf.
    assert (∃ s2, fs_remove faults (entry_path (p_id e)) s1 = (Ok tt, s2)) as [s2 H2].
    { unfold fs_remove, on_disk, fs_op. rewrite Hfaults, Hf. unfold pending in Hp.
      destruct (files s !! entry_path (p_id e)); [|done]. simpl. by eexists. }
    rewrite (sbind_run _ _ _ _ _ H2).
    do 2 (erewrite sbind_run; [|reflexivity]).
    match goal with |- context [sbind (sync_pending_directory faults) _ ?x] => destruct (sync_run x) as [s3 H3] end.
    unfold sync_pending_directory. rewrite (sbind_run _ _ _ _ _ H3).
    erewrite sbind_run; [|reflexivity]. by eexists _, _. }
  exists s'. split; [done|]. split.
  - pose proof (mark_delivered_keeps faults e s Hs) as H. by rewrite Hr in H.
  - by destruct (mark_delivered_Ok faults e s _ _ Hs Hr) as [[? _]|(_ & _ & H)].
Qed.

Lemma read_all_run ids s :
  (∀ id, id ∈ ids → is_Some (pending s id)) → ∃ es s', read_all faults ids s = (Ok es, s').
Proof using Hfaults.
  revert s; induction ids as [|id ids IH]; intros s H; cbn [read_all]; [by eexists _, _|].
  destruct (H id) as [e He]; [by left|]. destruct (read_indexed_run id e s He) as [s1 H1].
  rewrite (sbind_run _ _ _ _ _ H1). destruct (IH s1) as (es & s2 & H2).
  { intros id' Hid. pose proof (quiet_read_entry faults (entry_path id) s) as [_ Hf].
    unfold read_indexed_entry in H1. rewrite H1 in Hf. unfold pending. simpl in Hf. rewrite Hf.
    apply H. by right. }
  rewrite (sbind_run _ _ _ _ _ H2). by eexists _, _.
Qed.
End Healthy.

(** ** A concrete outbox *)

Module OutboxExample.

#[local] Instance digest : Digest := toy_digest.

Definition ident : CatalogIntentIdentity :=
  {| ci_sink_ref := str "primary"; ci_namespace := str "events"; ci_kind := UpsertPartition;
     ci_key := str "day=1" |}.

Definition intent (location : bytes) : CatalogIntent := {|
  ci_version := 2;
  ci_identity := ident;
  ci_payload := {|
    gp_version := 1; gp_region := None; gp_catalog_id := None; gp_database := str "db";
    gp_table := str "t"; gp_partition_values := [str "1"]; gp_location := location;
    gp_storage_columns := []; gp_partition_columns := [from_glue_fields (str "day") None None];
    gp_input_format := []; gp_output_format := []; gp_serde_library := [];
    gp_schema_namespace := str "events"; gp_schema_version := 1 |}
|}.

#[local] Instance json_identity : Codec CatalogIntentIdentity := table_codec [ident].
#[local] Instance json_intent : Codec CatalogIntent := table_codec [intent (str "a"); intent (str "b")].

Definition ident_id : bytes := sha256_hex [x00].

(** At time 5: the first location, its replacement, and the first after a failure. *)
Definition first_entry : PendingCatalogIntent := fresh_entry ident_id (intent (str "a")) 5 5.
Definition second_entry : PendingCatalogIntent := fresh_entry ident_id (intent (str "b")) 5 5.
Definition retried_entry : PendingCatalogIntent := failed_entry first_entry 5 (str "throttled") (Some 250%N) false.

#[local] Instance json_pending : Codec PendingCatalogIntent :=
  table_codec [first_entry; second_entry; retried_entry].

Definition envelope (e : PendingCatalogIntent) : CatalogOutboxEnvelope :=
  {| env_version := 2; env_entry := e;
     env_checksum_sha256 := match checksum e with Ok c => c | Err _ => [] end |}.

#[local] Instance envelope_eq_dec : EqDecision CatalogOutboxEnvelope.
Proof. solve_decision. Defined.

#[local] Instance json_envelope : Codec CatalogOutboxEnvelope :=
  table_codec (envelope <$> [first_entry; second_entry; retried_entry]).

Definition no_faults (_ : N) : option FsErr := None.
Definition at_five (_ : N) : N := 5.

Definition calls1 : list OutboxCall := [CallPersist [intent (str "a")]].
Definition calls2 : list OutboxCall := calls1 ++ [CallPersist [intent (str "b")]].

Definition outbox1 : Outbox := run_calls no_faults at_five (λ _, 0) 1 calls1 empty_outbox.
Definition outbox2 : Outbox := run_calls no_faults at_five (λ _, 0) 1 calls2 empty_outbox.

Lemma outbox1_inv : outbox_inv outbox1.
Proof. apply run_calls_keeps, empty_outbox_inv. Qed.
Lemma outbox2_inv : outbox_inv outbox2.
Proof. apply run_calls_keeps, empty_outbox_inv. Qed.

(** A delivery of the first location that arrives after the second was persisted. *)
Lemma stale_result_ignored_witness :
  pending outbox2 ident_id = Some second_entry ∧
  pending (mark_delivered_if no_faults first_entry outbox2).2 ident_id = Some second_entry.
Proof.
  split; [by vm_compute|].
  rewrite (proj2 (proj2 (proj1 (stale_result_ignored no_faults at_five (λ _, 0) 1 first_entry outbox2 [] None true
    outbox2_inv ltac:(by vm_compute))))).
  by vm_compute.
Defined.

Lemma persist_durable_witness :
  ∃ summary s', persist no_faults at_five (λ _, 0) 1 [intent (str "b")] outbox1 = (Ok summary, s') ∧
    ∃ e, pending s' ident_id = Some e ∧ intent_generation (p_intent e) = intent_generation (intent (str "b")).
Proof.
  destruct (persist no_faults at_five (λ _, 0) 1 [intent (str "b")] outbox1) as [[summary|err] s'] eqn:E.
  - exists summary, s'. split; [reflexivity|].
    pose proof (persist_durable no_faults at_five (λ _, 0) 1 _ _ _ _ outbox1_inv E) as [H _].
    clear E. destruct (H [] (intent (str "b")) [] eq_refl) as (id & e & Hid & Hp & Hg).
    { intros j Hj. destruct (not_elem_of_nil _ Hj). }
    exists e. split; [|exact Hg]. assert (Ok id = Ok (E := FsErr) ident_id) as Heq; [|injection Heq as <-; exact Hp].
    rewrite <- Hid. vm_compute. reflexivity.
  - exfalso. apply (f_equal (λ r, is_ok r.1)) in E. vm_compute in E. discriminate E.
Defined.

Lemma due_ids_exact_witness :
  ∃ due : list (N * bytes), due_ids (ob_index outbox1) 7 10 = takeN 10 due.*2 ∧ (0%N, ident_id) ∈ due.
Proof.
  destruct (due_ids_exact outbox1 7 10 outbox1_inv) as (due & H1 & _ & _ & H2).
  exists due. split; [exact H1|]. apply H2. exists first_entry.
  split; [vm_compute; reflexivity|split_and!; [reflexivity|reflexivity|vm_compute; discriminate]].
Defined.

Lemma restart_rebuilds_index_witness :
  ∃ s', outbox_open (λ _, None) (elements (dom (d_files (ob_disk outbox2)))) outbox2 = (Ok tt, s') ∧
    ob_index s' = set_sync false (ob_index outbox2).
Proof.
  apply (restart_rebuilds_index no_faults at_five (λ _, 0) 1 calls2). done.
Defined.

Lemma snapshot_counts_witness :
  ∃ snap s', metadata_snapshot at_five outbox1 = (Ok snap, s') ∧
    (ms_pending_count snap + ms_terminal_count snap)%N = 1%N ∧ ms_due_count snap = 1%N.
Proof.
  destruct (metadata_snapshot at_five outbox1) as [[snap|err] s'] eqn:E.
  - exists snap, s'. split; [reflexivity|].
    pose proof (snapshot_counts at_five outbox1 snap s' outbox1_inv E) as (_ & H & _).
    rewrite H. split; [vm_compute; reflexivity|].
    apply (f_equal (λ r, match r.1 with Ok x => ms_due_count x | Err _ => 9%N end)) in E.
    vm_compute in E. symmetry. exact E.
  - exfalso. apply (f_equal (λ r, is_ok r.1)) in E. vm_compute in E. discriminate E.
Defined.
End OutboxExample.
