(* ===== verification/CatalogCoordinator.v ===== *)
(** * CatalogCoordinator: delivery of catalog intents to Glue

    Models src/catalog_coordinator.rs: the classification of Glue errors, the retry delay,
    the grouping of due intents by table, and the drain of the outbox: every due intent is
    checked against the live table layout and the current partition, updated or created in
    batches, and marked delivered, deferred or terminal through the conditional mutations
    of the outbox.  The Glue service is a parameter (the trait [GlueExecutor] with a state
    of its own); so are the scheduling of concurrent look-ups ([sched], any permutation), the
    jitter and the deadline.  The mapping of a batch response to outcomes is the one of
    [AwsGlueExecutor]. *)

From S2P Require Import Prelude Bytes Text Io Codec CatalogOutbox.

Definition GLUE_BATCH_CREATE_LIMIT : nat := 100.
Definition RECOVERY_SCAN_LIMIT : N := 10000.

Record DecodedIntent : Type := {
  di_pending : PendingCatalogIntent;
  di_payload : GluePartitionCatalogIntentV1
}.

Record GlueTarget : Type := {
  gt_region : option bytes;
  gt_catalog_id : option bytes;
  gt_database : bytes;
  gt_table : bytes
}.

Record GlueTableLayout : Type := {
  gl_partition_columns : list GlueColumnIntent;
  gl_storage_columns : list GlueColumnIntent
}.

Record GluePartitionSpec : Type := {
  gs_values : list bytes;
  gs_location : bytes;
  gs_storage_columns : list GlueColumnIntent;
  gs_input_format : bytes;
  gs_output_format : bytes;
  gs_serde_library : bytes
}.

Inductive GlueApiErrorKind : Type := GkTransient | GkNotFound | GkAlreadyExists | GkTerminal.

#[global] Instance GlueApiErrorKind_eq_dec : EqDecision GlueApiErrorKind.
Proof. solve_decision. Defined.

Record GlueApiError : Type := { ge_kind : GlueApiErrorKind; ge_message : bytes }.

Inductive GlueBatchCreateOutcome : Type :=
| GoCreated
| GoAlreadyExists
| GoFailed (error : GlueApiError).

#[global] Instance GlueTarget_eq_dec : EqDecision GlueTarget.
Proof. solve_decision. Defined.
#[global] Instance GluePartitionSpec_eq_dec : EqDecision GluePartitionSpec.
Proof. solve_decision. Defined.

(** ** Classification of errors *)

(** [str::contains] of a substring. *)
Fixpoint contains_str (needle : bytes) (s : bytes) : bool :=
  starts_with s needle ||
  match s with
  | [] => false
  | _ :: s' => contains_str needle s'
  end.

Definition glue_exceptions : list bytes :=
  [ str "EntityNotFoundException"; str "AlreadyExistsException"; str "InvalidInputException";
    str "ThrottlingException"; str "ThrottledException"; str "InternalServiceException";
    str "OperationTimeoutException"; str "ConcurrentModificationException";
    str "ResourceNumberLimitExceededException"; str "FederationSourceRetryableException";
    str "ResourceNotReadyException" ].

Definition glue_exception_code (message : bytes) : option bytes :=
  snd <$> list_find (λ name, contains_str name message = true) glue_exceptions.

Definition is_transient_transport (error : bytes) : bool :=
  let error := to_ascii_lowercase error in
  existsb (λ needle, contains_str needle error)
    [ str "throttl"; str "timeout"; str "temporar"; str "service unavailable"; str "connection" ].

Definition transient_codes : list bytes :=
  [ str "InvalidInputException"; str "ThrottlingException"; str "ThrottledException";
    str "InternalServiceException"; str "OperationTimeoutException";
    str "ConcurrentModificationException"; str "ResourceNumberLimitExceededException";
    str "FederationSourceRetryableException"; str "ResourceNotReadyException" ].

Definition classify_glue_code (code : option bytes) (message : bytes) : GlueApiError :=
  let known := match code with
               | Some c => if decide (c = str "UnknownGlueError") then None else Some c
               | None => None
               end in
  let inferred := match known with
                  | Some c => Some c
                  | None => glue_exception_code message
                  end in
  let fallback := if is_transient_transport message then GkTransient else GkTerminal in
  let kind := match inferred with
              | Some c => if decide (c = str "EntityNotFoundException") then GkNotFound
                          else if decide (c = str "AlreadyExistsException") then GkAlreadyExists
                          else if decide (c ∈ transient_codes) then GkTransient
                          else fallback
              | None => fallback
              end in
  {| ge_kind := kind; ge_message := message |}.

(** ** Retry delays, in milliseconds

    [1u64 << attempts.min(8)]; the jitter is uniform in [0..=base/4]. *)

Definition retry_base_ms (attempts : N) : N :=
  N.min U64_MAX (250 * N.shiftl 1 (N.min attempts 8)).

Definition retry_delay (jitter : N) (attempts : N) : N :=
  let base_ms := retry_base_ms attempts in
  N.min (base_ms + jitter mod (base_ms / 4 + 1)) 60000.

(** ** Partitions *)

Definition partition_spec (payload : GluePartitionCatalogIntentV1) : GluePartitionSpec := {|
  gs_values := gp_partition_values payload;
  gs_location := gp_location payload;
  gs_storage_columns := gp_storage_columns payload;
  gs_input_format := gp_input_format payload;
  gs_output_format := gp_output_format payload;
  gs_serde_library := gp_serde_library payload
|}.

Definition column_layout (c : GlueColumnIntent) : bytes * bytes := (gc_name c, gc_type c).

Definition same_column_layout (left right : list GlueColumnIntent) : bool :=
  bool_decide (column_layout <$> left = column_layout <$> right).

Definition with_storage_columns (cols : list GlueColumnIntent) (p : GluePartitionCatalogIntentV1)
    : GluePartitionCatalogIntentV1 := {|
  gp_version := gp_version p; gp_region := gp_region p; gp_catalog_id := gp_catalog_id p;
  gp_database := gp_database p; gp_table := gp_table p;
  gp_partition_values := gp_partition_values p; gp_location := gp_location p;
  gp_storage_columns := cols; gp_partition_columns := gp_partition_columns p;
  gp_input_format := gp_input_format p; gp_output_format := gp_output_format p;
  gp_serde_library := gp_serde_library p; gp_schema_namespace := gp_schema_namespace p;
  gp_schema_version := gp_schema_version p
|}.

(** ** The response of BatchCreatePartition

    An error names the values of its partition; [HashMap::collect] keeps the last index of
    equal values.  [fmt_code] renders [{code:?}], [fmt_values] the values of an error. *)

Record SdkPartitionError : Type := {
  pe_values : list bytes;
  pe_code : option bytes;
  pe_message : option bytes
}.

Definition last_index (values : list bytes) (partitions : list GluePartitionSpec) : option nat :=
  last (omap (λ '(i, p), if decide (gs_values p = values) then Some i else None)
             (imap pair partitions)).

Definition batch_error_outcome (fmt_code : option bytes → bytes) (e : SdkPartitionError)
    : GlueBatchCreateOutcome :=
  let message := match pe_message e with
                 | Some m => m
                 | None => default (str "UnknownGlueError") (pe_code e)
                 end in
  let error := classify_glue_code (pe_code e) (fmt_code (pe_code e) ++ str ": " ++ message) in
  match ge_kind error with
  | GkAlreadyExists => GoAlreadyExists
  | _ => GoFailed error
  end.

Definition batch_outcome_step (fmt_code : option bytes → bytes) (fmt_values : list bytes → bytes)
    (partitions : list GluePartitionSpec)
    (outcomes : list GlueBatchCreateOutcome) (e : SdkPartitionError)
    : result GlueApiError (list GlueBatchCreateOutcome) :=
  match last_index (pe_values e) partitions with
  | Some i => Ok (<[i := batch_error_outcome fmt_code e]> outcomes)
  | None => Err {| ge_kind := GkTransient;
                   ge_message := str "BatchCreatePartition returned an error for unknown values " ++
                                 fmt_values (pe_values e) |}
  end.

Definition batch_outcomes (fmt_code : option bytes → bytes) (fmt_values : list bytes → bytes)
    (partitions : list GluePartitionSpec) (errors : list SdkPartitionError) : result GlueApiError (list GlueBatchCreateOutcome) :=
  rfold (batch_outcome_step fmt_code fmt_values partitions) (replicate (length partitions) GoCreated) errors.

(** ** The Glue service *)

Class GlueExecutor (G : Type) : Type := {
  glue_table_layout : GlueTarget → G → result GlueApiError GlueTableLayout * G;
  glue_get_partition : GlueTarget → list bytes → G → result GlueApiError (option bytes) * G;
  glue_batch_create : GlueTarget → list GluePartitionSpec → G →
    result GlueApiError (list GlueBatchCreateOutcome) * G;
  glue_update : GlueTarget → GluePartitionSpec → G → result GlueApiError unit * G
}.

(** ** Groups by table, in the order of a [BTreeMap] *)

Definition opt_leb (x y : option bytes) : bool :=
  match x, y with
  | None, _ => true
  | Some _, None => false
  | Some a, Some b => bytes_leb a b
  end.

Definition target_leb (x y : GlueTarget) : bool :=
  if decide (gt_region x = gt_region y) then
    if decide (gt_catalog_id x = gt_catalog_id y) then
      if decide (gt_database x = gt_database y) then bytes_leb (gt_table x) (gt_table y)
      else bytes_leb (gt_database x) (gt_database y)
    else opt_leb (gt_catalog_id x) (gt_catalog_id y)
  else opt_leb (gt_region x) (gt_region y).

Definition target_of (p : GluePartitionCatalogIntentV1) : GlueTarget := {|
  gt_region := gp_region p; gt_catalog_id := gp_catalog_id p;
  gt_database := gp_database p; gt_table := gp_table p
|}.

Fixpoint group_push (i : DecodedIntent) (gs : list (GlueTarget * list DecodedIntent))
    : list (GlueTarget * list DecodedIntent) :=
  let k := target_of (di_payload i) in
  match gs with
  | [] => [(k, [i])]
  | (k', ds) :: gs' =>
      if decide (k = k') then (k', ds ++ [i]) :: gs'
      else if target_leb k k' then (k, [i]) :: gs
      else (k', ds) :: group_push i gs'
  end.

Definition group_intents (l : list DecodedIntent) : list (GlueTarget * list DecodedIntent) :=
  foldl (λ gs i, group_push i gs) [] l.

(** [slice::chunks(n)]. *)
Fixpoint chunks_fuel {A} (fuel n : nat) (l : list A) : list (list A) :=
  match fuel, l with
  | O, _ | _, [] => []
  | S f, _ => take n l :: chunks_fuel f n (drop n l)
  end.

Definition chunks {A} (n : nat) (l : list A) : list (list A) := chunks_fuel (length l) n l.

(** ** The coordinator *)

Section Coordinator.
Context {DG : Digest}.
Context {JI : Codec CatalogIntentIdentity} {JC : Codec CatalogIntent}
  {JP : Codec PendingCatalogIntent} {JE : Codec CatalogOutboxEnvelope}.
Context (faults : N → option FsErr) (clock : N → N) (torn : N → nat) (pid : N).
Context {G : Type} {GE : GlueExecutor G}.
(** The order in which concurrent look-ups complete, and the random numbers of the jitter
    by step of the environment. *)
Context (sched : list DecodedIntent → list DecodedIntent) (rng : N → N).

Notation co A := (st (Outbox * G) FsErr A).

Definition on_outbox {A} (m : st Outbox FsErr A) : co A :=
  λ s, let '(r, o) := m s.1 in (r, (o, s.2)).

Definition on_glue {A} (f : G → result GlueApiError A * G) : co (result GlueApiError A) :=
  λ s, let '(r, g) := f s.2 in (Ok r, (s.1, g)).

Definition gen_jitter : co N := λ s, (Ok (rng (d_step (ob_disk s.1))), s).

Definition mark_delivered (p : PendingCatalogIntent) : co ConditionalMutationResult :=
  on_outbox (mark_delivered_if faults p).

Definition record_failure_durable (p : PendingCatalogIntent) (error : bytes) (retry_after : option N)
    (terminal : bool) : co ConditionalMutationResult :=
  on_outbox (record_failure_if faults clock torn pid p error retry_after terminal).

Definition is_transient (k : GlueApiErrorKind) : bool :=
  match k with
  | GkTransient | GkNotFound | GkAlreadyExists => true
  | GkTerminal => false
  end.

Definition record_glue_failure (p : PendingCatalogIntent) (error : GlueApiError) : co unit :=
  let transient := is_transient (ge_kind error) in
  do? jitter := gen_jitter in
  let delay := if transient then Some (retry_delay jitter (p_attempts p)) else None in
  record_failure_durable p (ge_message error) delay (negb transient) ;!
  sret tt.

Definition record_terminal_invalid (p : PendingCatalogIntent) (error : bytes) : co unit :=
  record_failure_durable p error None true ;! sret tt.

Definition update_partition (target : GlueTarget) (i : DecodedIntent) : co unit :=
  do? r := on_glue (glue_update target (partition_spec (di_payload i))) in
  match r with
  | Ok _ => mark_delivered (di_pending i) ;! sret tt
  | Err error => record_glue_failure (di_pending i) error
  end.

(** [layout_mismatch] renders the two layouts in the message. *)
Context (layout_mismatch : GlueTarget → list GlueColumnIntent → list GlueColumnIntent → bytes).

(** Intents whose partition columns are not the table's are deferred; the others take the
    table's storage columns. *)
Fixpoint check_layouts (target : GlueTarget) (layout : GlueTableLayout) (l : list DecodedIntent)
    : co (list DecodedIntent) :=
  match l with
  | [] => sret []
  | i :: rest =>
      if negb (same_column_layout (gl_partition_columns layout) (gp_partition_columns (di_payload i)))
      then record_glue_failure (di_pending i)
             {| ge_kind := GkTransient;
                ge_message := layout_mismatch target (gl_partition_columns layout)
                                (gp_partition_columns (di_payload i)) |} ;!
           check_layouts target layout rest
      else do? valid := check_layouts target layout rest in
           sret ({| di_pending := di_pending i;
                    di_payload := with_storage_columns (gl_storage_columns layout) (di_payload i) |}
                 :: valid)
  end.

Fixpoint inspect_all (target : GlueTarget) (l : list DecodedIntent)
    : co (list (DecodedIntent * result GlueApiError (option bytes))) :=
  match l with
  | [] => sret []
  | i :: rest =>
      do? r := on_glue (glue_get_partition target (gp_partition_values (di_payload i))) in
      do? rs := inspect_all target rest in
      sret ((i, r) :: rs)
  end.

Fixpoint settle (target : GlueTarget)
    (inspected : list (DecodedIntent * result GlueApiError (option bytes)))
    (missing : list DecodedIntent) : co (list DecodedIntent) :=
  match inspected with
  | [] => sret missing
  | (i, Ok (Some current)) :: rest =>
      (if decide (current = gp_location (di_payload i))
       then mark_delivered (di_pending i) ;! sret tt
       else update_partition target i) ;!
      settle target rest missing
  | (i, Ok None) :: rest => settle target rest (missing ++ [i])
  | (i, Err error) :: rest =>
      record_glue_failure (di_pending i) error ;! settle target rest missing
  end.

Definition already_exists_recheck : GlueApiError :=
  {| ge_kind := GkAlreadyExists; ge_message := str "AlreadyExistsException: recheck partition" |}.

Definition apply_outcome (io : DecodedIntent * GlueBatchCreateOutcome) : co unit :=
  match io.2 with
  | GoCreated => mark_delivered (di_pending io.1) ;! sret tt
  | GoAlreadyExists => record_glue_failure (di_pending io.1) already_exists_recheck
  | GoFailed error => record_glue_failure (di_pending io.1) error
  end.

Definition create_batch (target : GlueTarget) (batch : list DecodedIntent) : co unit :=
  do? r := on_glue (glue_batch_create target ((λ i, partition_spec (di_payload i)) <$> batch)) in
  match r with
  | Ok outcomes =>
      if length outcomes =? length batch
      then sfor apply_outcome (zip batch outcomes)
      else sfor (λ i, record_glue_failure (di_pending i)
             {| ge_kind := GkTransient;
                ge_message := str "BatchCreatePartition returned " ++
                              display_N (N.of_nat (length outcomes)) ++ str " outcomes for " ++
                              display_N (N.of_nat (length batch)) ++ str " inputs" |}) batch
  | Err error => sfor (λ i, record_glue_failure (di_pending i) error) batch
  end.

Definition drain_group (group : GlueTarget * list DecodedIntent) : co unit :=
  let '(target, intents) := group in
  do? layout := on_glue (glue_table_layout target) in
  match layout with
  | Err error => sfor (λ i, record_glue_failure (di_pending i) error) intents
  | Ok live =>
      do? valid := check_layouts target live intents in
      do? inspected := inspect_all target (sched valid) in
      do? missing := settle target inspected [] in
      sfor (create_batch target) (chunks GLUE_BATCH_CREATE_LIMIT missing)
  end.

(** Intents that are not admissible become terminal; the others are decoded. *)
Fixpoint decode_due (due : list PendingCatalogIntent) : co (list DecodedIntent) :=
  match due with
  | [] => sret []
  | p :: rest =>
      if is_admissible (p_intent p)
      then do? ds := decode_due rest in
           sret ({| di_pending := p; di_payload := ci_payload (p_intent p) |} :: ds)
      else record_terminal_invalid p (str "terminal invalid Glue partition intent") ;!
           decode_due rest
  end.

Definition drain_once : co unit :=
  do? now := on_outbox (now_ms clock) in
  do? due := on_outbox (scan_eligible_pending faults now RECOVERY_SCAN_LIMIT) in
  do? decoded := decode_due due in
  sfor drain_group (group_intents decoded).

(** [drain_until_idle] with the rounds it may take; [deadline n] says whether the time left
    at round [n] is zero.  [Some true] is an idle outbox, [Some false] the deadline. *)
Fixpoint drain_until_idle (fuel : nat) (deadline : nat → bool) (round : nat) : co (option bool) :=
  match fuel with
  | O => sret None
  | S f =>
      do? snapshot := on_outbox (metadata_snapshot clock) in
      if (ms_due_count snapshot =? 0)%N then sret (Some true)
      else if deadline round then sret (Some false)
      else drain_once ;! drain_until_idle f deadline (S round)
  end.

End Coordinator.

(** ** Retry delays *)

(** A retry is never sooner than the exponential base (capped at a minute) and never
    later than a quarter above it (capped at a minute); the base doubles from 250 ms up to
    the ninth attempt, and the computation does not saturate. *)
Theorem retry_delay_bounds jitter attempts :
  let base := (250 * 2 ^ N.min attempts 8)%N in
  (N.min base 60000 ≤ retry_delay jitter attempts ≤ N.min (base + base / 4) 60000)%N ∧
  (250 ≤ retry_delay jitter attempts)%N.
Proof.
  intros base. assert (retry_base_ms attempts = base) as Hb.
  { unfold retry_base_ms, base. rewrite N.shiftl_mul_pow2, N.mul_1_l. apply N.min_r.
    assert (2 ^ N.min attempts 8 ≤ 2 ^ 8)%N by (apply N.pow_le_mono_r; lia). unfold U64_MAX. lia. }
  assert (250 ≤ base)%N.
  { unfold base. pose proof (N.pow_nonzero 2 (N.min attempts 8)). lia. }
  unfold retry_delay. rewrite Hb. clearbody base.
  assert (jitter mod (base / 4 + 1) < base / 4 + 1)%N as Hj by (apply N.mod_upper_bound; rewrite N.add_1_r; apply N.neq_succ_0).
  generalize dependent (base / 4)%N. intros q Hj. generalize dependent (jitter mod (q + 1))%N.
  intros j Hj. lia.
Qed.

(** ** Batch responses *)

Lemma last_index_Some values partitions i :
  last_index values partitions = Some i →
  ∃ p, partitions !! i = Some p ∧ gs_values p = values.
Proof.
  unfold last_index. intros H%last_Some_elem_of. apply list_elem_of_omap in H as ([j p] & Hin & Hj).
  apply elem_of_lookup_imap in Hin as (k & q & [= -> ->] & Hk). simpl in Hj.
  case_decide; simplify_eq. eauto.
Qed.

Lemma last_index_nodup partitions i p :
  NoDup (gs_values <$> partitions) → partitions !! i = Some p →
  last_index (gs_values p) partitions = Some i.
Proof.
  intros Hnd Hi. destruct (last_index (gs_values p) partitions) as [j|] eqn:Hj.
  - apply last_index_Some in Hj as (q & Hq & Hv). f_equal.
    eapply (NoDup_lookup _ j i (gs_values p) Hnd); rewrite list_lookup_fmap, ?Hq, ?Hi; simpl; by rewrite ?Hv.
  - exfalso. unfold last_index in Hj. apply last_None in Hj.
    assert (i ∈ omap (λ '(j, q), if decide (gs_values q = gs_values p) then Some j else None) (imap pair partitions)) as Hin.
    { apply list_elem_of_omap. exists (i, p). split; [|by rewrite decide_True].
      apply elem_of_lookup_imap. eauto. }
    rewrite Hj in Hin. by apply elem_of_nil in Hin.
Qed.

(** The outcome the response gives a partition: that of the last error that names it. *)
Definition reported (fmt_code : option bytes → bytes) (errors : list SdkPartitionError)
    (p : GluePartitionSpec) : GlueBatchCreateOutcome :=
  match last (filter (λ e, pe_values e = gs_values p) errors) with
  | Some e => batch_error_outcome fmt_code e
  | None => GoCreated
  end.

(** When the partitions of a batch have different values and every error names one of
    them, each partition gets the outcome of the last error that names it, and is created
    if no error does. *)
Theorem batch_outcomes_exact fmt_code fmt_values partitions errors :
  NoDup (gs_values <$> partitions) →
  (∀ e, e ∈ errors → pe_values e ∈ gs_values <$> partitions) →
  batch_outcomes fmt_code fmt_values partitions errors = Ok (reported fmt_code errors <$> partitions).
Proof.
  intros Hnd. unfold batch_outcomes. induction errors as [|e errors IH] using rev_ind; intros He.
  - simpl. f_equal. clear. induction partitions as [|p l IH]; [done|]. csimpl. by rewrite IH.
  - rewrite rfold_app, IH by (intros x Hx; apply He; set_solver). simpl. unfold batch_outcome_step.
    assert (pe_values e ∈ gs_values <$> partitions) as Hin by (apply He; set_solver).
    apply list_elem_of_fmap in Hin as (p & Hv & [i Hi]%list_elem_of_lookup).
    rewrite Hv, (last_index_nodup _ i p) by done. simpl. f_equal. apply list_eq. intros k.
    rewrite list_lookup_fmap. destruct (decide (k = i)) as [->|Hne].
    + rewrite list_lookup_insert_eq by (rewrite length_fmap; by eapply lookup_lt_Some).
      rewrite Hi. simpl. unfold reported. rewrite filter_app, filter_cons_True, filter_nil, last_snoc by done. done.
    + rewrite list_lookup_insert_ne, list_lookup_fmap by done.
      destruct (partitions !! k) as [q|] eqn:Hq; simpl; [|done]. f_equal. unfold reported.
      rewrite filter_app, filter_cons_False, filter_nil, app_nil_r; [done|].
      intros Heq. apply Hne. eapply (NoDup_lookup _ k i (gs_values q) Hnd); rewrite list_lookup_fmap, ?Hq, ?Hi; simpl; congruence.
Qed.

(** Two partitions of a batch with the same values share one slot of the response: the
    first is reported as created whatever errors Glue returned for those values. *)
Theorem batch_duplicate_reported_created fmt_code fmt_values p q errors :
  gs_values p = gs_values q → (∀ e, e ∈ errors → pe_values e = gs_values q) →
  ∃ o, batch_outcomes fmt_code fmt_values [p; q] errors = Ok [GoCreated; o].
Proof.
  intros Hv. unfold batch_outcomes. induction errors as [|e errors IH] using rev_ind; intros He.
  - by exists GoCreated.
  - destruct IH as [o Ho]; [intros x Hx; apply He; set_solver|]. rewrite rfold_app, Ho. simpl.
    unfold batch_outcome_step, last_index. simpl. rewrite (He e) by set_solver.
    rewrite !decide_True by done. simpl. by eexists.
Qed.

(** ** Nothing leaves the outbox unconfirmed

    The service with a log of its confirmations: a partition found at a location, updated,
    or reported as created. *)

Inductive GlueEvent : Type :=
| EvFound (target : GlueTarget) (values : list bytes) (location : bytes)
| EvUpdated (target : GlueTarget) (spec : GluePartitionSpec)
| EvCreated (target : GlueTarget) (spec : GluePartitionSpec).

Definition created_events (target : GlueTarget) (specs : list GluePartitionSpec)
    (r : result GlueApiError (list GlueBatchCreateOutcome)) : list GlueEvent :=
  match r with
  | Ok outcomes => omap (λ so : GluePartitionSpec * GlueBatchCreateOutcome,
                     match so.2 with GoCreated => Some (EvCreated target so.1) | _ => None end)
                   (zip specs outcomes)
  | Err _ => []
  end.

Definition logged {G} (GE : GlueExecutor G) : GlueExecutor (G * list GlueEvent) := {|
  glue_table_layout t s := let '(r, g) := glue_table_layout t s.1 in (r, (g, s.2));
  glue_get_partition t v s :=
    let '(r, g) := glue_get_partition t v s.1 in
    (r, (g, s.2 ++ match r with Ok (Some loc) => [EvFound t v loc] | _ => [] end));
  glue_batch_create t specs s :=
    let '(r, g) := glue_batch_create t specs s.1 in (r, (g, s.2 ++ created_events t specs r));
  glue_update t spec s :=
    let '(r, g) := glue_update t spec s.1 in
    (r, (g, s.2 ++ match r with Ok _ => [EvUpdated t spec] | Err _ => [] end))
|}.

(** An event that confirms the delivery of an intent. *)
Definition confirms (ev : GlueEvent) (e : PendingCatalogIntent) : Prop :=
  let p := ci_payload (p_intent e) in
  match ev with
  | EvFound t v loc => t = target_of p ∧ v = gp_partition_values p ∧ loc = gp_location p
  | EvUpdated t spec | EvCreated t spec =>
      t = target_of p ∧ gs_values spec = gp_partition_values p ∧ gs_location spec = gp_location p
  end.

Lemma concat_chunks_fuel {A} fuel n (l : list A) :
  0 < n → length l ≤ fuel → concat (chunks_fuel fuel n l) = l.
Proof.
  intros Hn. revert l; induction fuel as [|f IH]; intros l Hl; [by destruct l; [|simpl in Hl; lia]|].
  destruct l as [|x l]; [done|]. cbn [chunks_fuel]. rewrite concat_cons, IH, take_drop; [done|].
  rewrite length_drop. simpl in *. lia.
Qed.

Lemma concat_chunks {A} n (l : list A) : 0 < n → concat (chunks n l) = l.
Proof. intros. by apply concat_chunks_fuel. Qed.

Lemma chunks_elem {A} n (l : list A) c x : 0 < n → c ∈ chunks n l → x ∈ c → x ∈ l.
Proof.
  intros Hn Hc Hx. rewrite <- (concat_chunks n l) by done. apply list_elem_of_In, in_concat.
  exists c. rewrite <- !list_elem_of_In. done.
Qed.

Section Confirmed.
Context {DG : Digest}.
Context {JI : Codec CatalogIntentIdentity} {JC : Codec CatalogIntent}
  {JP : Codec PendingCatalogIntent} {JE : Codec CatalogOutboxEnvelope}.
Context (faults : N → option FsErr) (clock : N → N) (torn : N → nat) (pid : N).
Context {G : Type} {GE : GlueExecutor G}.
Context (sched : list DecodedIntent → list DecodedIntent) (rng : N → N).
Context (layout_mismatch : GlueTarget → list GlueColumnIntent → list GlueColumnIntent → bytes).
Context (Hsched : ∀ l, sched l ≡ₚ l).
(** The outbox at the start of the drain. *)
Context (o0 : Outbox).

#[local] Instance LG : GlueExecutor (G * list GlueEvent) := logged GE.

Notation State := (Outbox * (G * list GlueEvent))%type.
Notation log s := (s.2.2).

Definition safe (s : State) : Prop :=
  outbox_inv s.1 ∧
  ∀ id e, pending o0 id = Some e → pending s.1 id = None → ∃ ev, ev ∈ log s ∧ confirms ev e.

(** [m] keeps the state safe and only adds to the log. *)
Definition safely {A} (m : st State FsErr A) (s : State) : Prop :=
  safe (m s).2 ∧ log s ⊆ log (m s).2.

Lemma safely_bind {A B} (m : st State FsErr A) (f : A → st State FsErr B) s :
  safely m s → (∀ a s', m s = (Ok a, s') → safely (f a) s') → safely (sbind m f) s.
Proof.
  unfold safely, sbind. destruct (m s) as [[a|e] s1]; simpl; [|done].
  intros [H1 H2] Hf. destruct (Hf a s1 eq_refl) as [H3 H4]. split; [done|set_solver].
Qed.

Lemma safely_ret {A} (a : A) s : safe s → safely (sret a) s.
Proof. by split. Qed.

Lemma safely_sfor {A} (f : A → st State FsErr unit) l s :
  safe s → (∀ x t, x ∈ l → safe t → log s ⊆ log t → safely (f x) t) → safely (sfor f l) s.
Proof.
  revert s; induction l as [|x l IH]; intros s Hs Hf; simpl; [by apply safely_ret|].
  pose proof (Hf x s (list_elem_of_here _ _) Hs (reflexivity _)) as Hx.
  apply safely_bind; [done|]. intros [] s' Heq. destruct Hx as [H1 H2]. rewrite Heq in H1, H2. simpl in *.
  apply IH; [done|]. intros y t Hy Ht Hl. apply Hf; [by right|done|set_solver].
Qed.

Lemma safely_record p error retry terminal s :
  safe s → safely (record_failure_durable faults clock torn pid p error retry terminal) s.
Proof.
  intros [Hinv Hs]. unfold safely, record_failure_durable, on_outbox.
  pose proof (record_failure_keeps faults clock torn pid p error retry terminal s.1 Hinv) as Hk.
  pose proof (λ id, record_failure_removes faults clock torn pid p error retry terminal s.1 id Hinv) as Hr.
  destruct (record_failure_if _ _ _ _ _ _ _ _ s.1) as [r o]. simpl in *. split; [|done].
  split; [done|]. intros id e He Hn. apply (Hs id e He). by apply Hr.
Qed.

Lemma safely_glue_failure p error s : safe s → safely (record_glue_failure faults clock torn pid rng p error) s.
Proof.
  intros Hs. unfold record_glue_failure. apply safely_bind; [by split|]. intros j s' [= _ <-].
  apply safely_bind; [by apply safely_record|]. intros r s'' Hr. apply safely_ret.
  pose proof (safely_record p (ge_message error)
    (if is_transient (ge_kind error) then Some (retry_delay j (p_attempts p)) else None)
    (negb (is_transient (ge_kind error))) s Hs) as [H _]. by rewrite Hr in H.
Qed.

(** A decoded intent as the drain read it. *)
Definition genuine (target : GlueTarget) (d : DecodedIntent) : Prop :=
  let p := ci_payload (p_intent (di_pending d)) in
  pending o0 (p_id (di_pending d)) = Some (di_pending d) ∧ target = target_of p ∧
  gp_partition_values (di_payload d) = gp_partition_values p ∧ gp_location (di_payload d) = gp_location p.

Lemma safely_mark target d s :
  safe s → genuine target d → (∃ ev, ev ∈ log s ∧ confirms ev (di_pending d)) →
  safely (mark_delivered faults (di_pending d) ;! sret tt) s.
Proof.
  intros [Hinv Hs] (Hg & _) Hc.
  assert (safely (mark_delivered faults (di_pending d)) s) as Hm.
  { unfold safely, mark_delivered, on_outbox.
    pose proof (mark_delivered_keeps faults (di_pending d) s.1 Hinv) as Hk.
    pose proof (λ id, mark_delivered_removes faults (di_pending d) s.1 id Hinv) as Hr.
    destruct (mark_delivered_if faults (di_pending d) s.1) as [r o]. simpl in *. split; [|done].
    split; [done|]. intros id e He Hn. destruct (Hr id Hn) as [Hn'|[-> Hp]]; [by apply (Hs id e He)|].
    simpl. assert (e = di_pending d) as -> by congruence. done. }
  apply safely_bind; [done|]. intros r s' Heq. apply safely_ret. destruct Hm as [Hm _]. by rewrite Heq in Hm.
Qed.

Lemma safely_update target d s :
  safe s → genuine target d → safely (update_partition faults clock torn pid rng target d) s.
Proof.
  intros Hs Hg. unfold update_partition. unfold safely, sbind. unfold on_glue. simpl.
  destruct (glue_update target (partition_spec (di_payload d)) s.2.1) as [r g] eqn:Hr. simpl.
  set (s1 := (s.1, (g, log s ++ _))). assert (safe s1 ∧ log s ⊆ log s1) as [Hs1 Hl1].
  { split; [|set_solver]. destruct Hs as [H1 H2]. split; [done|]. intros id e He Hn.
    destruct (H2 id e He Hn) as (ev & Hev & Hc). exists ev. set_solver. }
  destruct r as [[]|error].
  - destruct (safely_mark target d s1) as [H1 H2]; [done|done| |split; [done|set_solver]].
    exists (EvUpdated target (partition_spec (di_payload d))). split; [set_solver|].
    destruct Hg as (_ & -> & Hv & Hl). simpl. by rewrite Hv, Hl.
  - destruct (safely_glue_failure (di_pending d) error s1 Hs1) as [H1 H2]. split; [done|set_solver].
Qed.

Lemma safely_check_layouts target layout l s :
  safe s → Forall (genuine target) l →
  let r := check_layouts faults clock torn pid rng layout_mismatch target layout l s in
  safe r.2 ∧ log s ⊆ log r.2 ∧ ∀ valid, r.1 = Ok valid → Forall (genuine target) valid.
Proof.
  revert s; induction l as [|d l IH]; intros s Hs Hg; simpl.
  { split_and!; [done|done|]. by intros valid [= <-]. }
  inversion Hg as [|?? Hd Hl]; subst. destruct (negb _).
  - unfold sbind. match goal with |- context [record_glue_failure _ _ _ _ _ ?p ?e s] =>
      pose proof (safely_glue_failure p e s Hs) as [H1 H2];
      destruct (record_glue_failure faults clock torn pid rng p e s) as [[[]|err] s1] end; simpl in *; [|by split_and!].
    destruct (IH s1 H1 Hl) as (H3 & H4 & H5). split_and!; [done|set_solver|done].
  - unfold sbind. destruct (IH s Hs Hl) as (H3 & H4 & H5).
    destruct (check_layouts _ _ _ _ _ _ target layout l s) as [[v|err] s1]; simpl in *; [|by split_and!].
    split_and!; [done|done|]. intros valid [= <-]. constructor; [|by apply H5]. done.
Qed.

(** What the look-ups recorded. *)
Definition inspected_ok (target : GlueTarget) (lg : list GlueEvent)
    (ir : DecodedIntent * result GlueApiError (option bytes)) : Prop :=
  genuine target ir.1 ∧
  ∀ loc, ir.2 = Ok (Some loc) → EvFound target (gp_partition_values (di_payload ir.1)) loc ∈ lg.

Lemma inspected_mono target lg lg' l :
  lg ⊆ lg' → Forall (inspected_ok target lg) l → Forall (inspected_ok target lg') l.
Proof.
  intros Hsub Hf. eapply Forall_impl; [exact Hf|]. intros [d r] [H1 H2]. split; [done|]. intros loc Hloc. by apply Hsub, H2.
Qed.

Lemma safely_inspect target l s :
  safe s → Forall (genuine target) l →
  let r := inspect_all target l s in
  safe r.2 ∧ log s ⊆ log r.2 ∧ ∀ ins, r.1 = Ok ins → Forall (inspected_ok target (log r.2)) ins.
Proof.
  revert s; induction l as [|d l IH]; intros s Hs Hg; simpl.
  { split_and!; [done|done|]. by intros ins [= <-]. }
  inversion Hg as [|?? Hd Hl]; subst. unfold sbind. unfold on_glue. simpl.
  destruct (glue_get_partition target (gp_partition_values (di_payload d)) s.2.1) as [r g]. simpl.
  set (s1 := (s.1, (g, log s ++ _))). assert (safe s1 ∧ log s ⊆ log s1) as [Hs1 Hl1].
  { split; [|set_solver]. destruct Hs as [H1 H2]. split; [done|]. intros id e He Hn.
    destruct (H2 id e He Hn) as (ev & Hev & Hc). exists ev. set_solver. }
  destruct (IH s1 Hs1 Hl) as (H3 & H4 & H5). unfold sbind.
  destruct (inspect_all target l s1) as [[ins|err] s2]; simpl in *; [|split_and!; [done|set_solver|intros ? [=]]].
  split_and!; [done|set_solver|]. intros ? [= <-]. constructor; [|by apply H5]. split; [done|]. simpl.
  intros loc ->. apply H4. set_solver.
Qed.

Lemma safely_settle target ins missing s :
  safe s → Forall (inspected_ok target (log s)) ins → Forall (genuine target) missing →
  let r := settle faults clock torn pid rng target ins missing s in
  safe r.2 ∧ log s ⊆ log r.2 ∧ ∀ m, r.1 = Ok m → Forall (genuine target) m.
Proof.
  revert missing s; induction ins as [|[d r] ins IH]; intros missing s Hs Hi Hm; simpl.
  { split_and!; [done|done|]. by intros m [= <-]. }
  inversion Hi as [|?? [Hd Hf] Hi']; subst. simpl in Hd, Hf.
  assert (∀ (m : st State FsErr unit), safely m s →
    let r := (m ;! settle faults clock torn pid rng target ins missing) s in
    safe r.2 ∧ log s ⊆ log r.2 ∧ ∀ m, r.1 = Ok m → Forall (genuine target) m) as Hstep.
  { intros m [H1 H2]. unfold sbind. destruct (m s) as [[[]|err] s1]; simpl in *; [|by split_and!].
    destruct (IH missing s1 H1) as (H3 & H4 & H5); [by eapply inspected_mono|done|].
    split_and!; [done|set_solver|done]. }
  destruct r as [[cur|]|error].
  - apply Hstep. case_decide as Hc.
    + eapply safely_mark; [done|done|]. exists (EvFound target (gp_partition_values (di_payload d)) cur).
      split; [by apply Hf|]. destruct Hd as (_ & -> & Hv & Hl). simpl. by rewrite Hv, Hc, Hl.
    + by apply safely_update.
  - apply IH; [done|done|]. apply Forall_app. split; [done|]. by constructor.
  - apply Hstep. by apply safely_glue_failure.
Qed.

Lemma safely_create_batch target batch s :
  safe s → Forall (genuine target) batch → safely (create_batch faults clock torn pid rng target batch) s.
Proof.
  intros Hs Hg. unfold create_batch. unfold safely, sbind, on_glue. simpl.
  set (specs := (λ i, partition_spec (di_payload i)) <$> batch).
  destruct (glue_batch_create target specs s.2.1) as [r g]. simpl.
  set (s1 := (s.1, (g, log s ++ _))). assert (safe s1 ∧ log s ⊆ log s1) as [Hs1 Hl1].
  { split; [|set_solver]. destruct Hs as [H1 H2]. split; [done|]. intros id e He Hn.
    destruct (H2 id e He Hn) as (ev & Hev & Hc). exists ev. set_solver. }
  cut (safely (match r with
    | Ok outcomes => if length outcomes =? length batch
        then sfor (apply_outcome faults clock torn pid rng) (zip batch outcomes)
        else sfor (λ i, record_glue_failure faults clock torn pid rng (di_pending i)
               {| ge_kind := GkTransient;
                  ge_message := str "BatchCreatePartition returned " ++
                    display_N (N.of_nat (length outcomes)) ++ str " outcomes for " ++
                    display_N (N.of_nat (length batch)) ++ str " inputs" |}) batch
    | Err error => sfor (λ i, record_glue_failure faults clock torn pid rng (di_pending i) error) batch
    end) s1).
  { intros [H1 H2]. split; [done|set_solver]. }
  destruct r as [outcomes|error]; [destruct (Nat.eqb_spec (length outcomes) (length batch)) as [Hlen|]|];
    (apply safely_sfor; [done|]); [|by intros; apply safely_glue_failure..].
  intros [d o] t Hin Ht Hlt. unfold apply_outcome. simpl.
  assert (genuine target d) as Hd.
  { rewrite Forall_forall in Hg. apply Hg. by eapply elem_of_zip_l. }
  destruct o; [|by apply safely_glue_failure..].
  eapply safely_mark; [done|done|]. exists (EvCreated target (partition_spec (di_payload d))). split.
  - apply Hlt. unfold s1. simpl. apply elem_of_app. right. apply list_elem_of_omap.
    exists (partition_spec (di_payload d), GoCreated). split; [|done]. unfold specs.
    apply elem_of_lookup_zip_with in Hin as (i & x & y & [= <- <-] & Hx & Hy).
    apply elem_of_lookup_zip_with. exists i, (partition_spec (di_payload d)), GoCreated.
    by rewrite list_lookup_fmap, Hx.
  - destruct Hd as (_ & -> & Hv & Hl). simpl. by rewrite Hv, Hl.
Qed.

Lemma safely_drain_group target l s :
  safe s → Forall (genuine target) l →
  safely (drain_group faults clock torn pid sched rng layout_mismatch (target, l)) s.
Proof.
  intros Hs Hg. unfold drain_group, safely. unfold sbind. unfold on_glue. simpl.
  destruct (glue_table_layout target s.2.1) as [[live|error] g]; simpl;
    set (s1 := (s.1, (g, log s))); (assert (safe s1) as Hs1 by done).
  2:{ by apply (safely_sfor _ l s1); [|intros; apply safely_glue_failure]. }
  unfold sbind. destruct (safely_check_layouts target live l s1 Hs1 Hg) as (H1 & H2 & H3).
  destruct (check_layouts _ _ _ _ _ _ target live l s1) as [[valid|err] s2]; simpl in *; [|done].
  unfold sbind. destruct (safely_inspect target (sched valid) s2) as (H4 & H5 & H6); [done| |].
  { rewrite Hsched. by apply H3. }
  destruct (inspect_all target (sched valid) s2) as [[ins|err] s3]; simpl in *; [|split; [done|set_solver]].
  unfold sbind. destruct (safely_settle target ins [] s3) as (H7 & H8 & H9); [done|by apply H6|constructor|].
  destruct (settle _ _ _ _ _ target ins [] s3) as [[missing|err] s4]; simpl in *; [|split; [done|set_solver]].
  destruct (safely_sfor (create_batch faults clock torn pid rng target)
    (chunks GLUE_BATCH_CREATE_LIMIT missing) s4) as [H10 H11]; [done| |split; [done|set_solver]].
  intros batch t Hb Ht _. apply safely_create_batch; [done|]. apply Forall_forall. intros d Hd.
  specialize (H9 missing eq_refl). rewrite Forall_forall in H9. apply H9.
  eapply chunks_elem; [|done|done]. unfold GLUE_BATCH_CREATE_LIMIT. lia.
Qed.

Lemma safely_decode due s :
  safe s → Forall (λ e, pending o0 (p_id e) = Some e) due →
  let r := decode_due faults clock torn pid due s in
  safe r.2 ∧ log s ⊆ log r.2 ∧
  ∀ ds, r.1 = Ok ds → Forall (λ d, genuine (target_of (di_payload d)) d) ds.
Proof.
  revert s; induction due as [|p due IH]; intros s Hs Hd; simpl.
  { split_and!; [done|done|]. by intros ds [= <-]. }
  inversion Hd as [|?? Hp Hd']; subst. destruct (is_admissible (p_intent p)).
  - unfold sbind. destruct (IH s Hs Hd') as (H1 & H2 & H3).
    destruct (decode_due _ _ _ _ due s) as [[ds|err] s1]; simpl in *; [|by split_and!].
    split_and!; [done|done|]. intros ? [= <-]. constructor; [done|by apply H3].
  - unfold sbind, record_terminal_invalid.
    assert (safely (record_failure_durable faults clock torn pid p
      (str "terminal invalid Glue partition intent") None true ;! sret tt) s) as [H1 H2].
    { pose proof (safely_record p (str "terminal invalid Glue partition intent") None true s Hs) as Hr.
      apply safely_bind; [done|]. intros r s' Heq. apply safely_ret. destruct Hr as [Hr _]. by rewrite Heq in Hr. }
    destruct ((_ ;! _) s) as [[[]|err] s1]; simpl in *; [|by split_and!].
    destruct (IH s1 H1 Hd') as (H3 & H4 & H5). split_and!; [done|set_solver|done].
Qed.

Lemma group_push_spec (P : DecodedIntent → Prop) i gs :
  P i → Forall (λ g, Forall (λ d, target_of (di_payload d) = g.1 ∧ P d) g.2) gs →
  Forall (λ g, Forall (λ d, target_of (di_payload d) = g.1 ∧ P d) g.2) (group_push i gs).
Proof.
  intros Hi. induction gs as [|[k ds] gs IH]; intros H; simpl; [by repeat constructor|].
  inversion H as [|?? Hk Hgs]; subst. repeat case_match; simpl in *.
  - constructor; [|done]. apply Forall_app. split; [done|]. by repeat constructor.
  - constructor; [by repeat constructor|done].
  - constructor; [done|auto].
Qed.

Lemma group_intents_spec (P : DecodedIntent → Prop) l :
  Forall P l → Forall (λ g, Forall (λ d, target_of (di_payload d) = g.1 ∧ P d) g.2) (group_intents l).
Proof.
  unfold group_intents. intros Hl.
  assert (∀ gs, Forall (λ g, Forall (λ d, target_of (di_payload d) = g.1 ∧ P d) g.2) gs →
    Forall (λ g, Forall (λ d, target_of (di_payload d) = g.1 ∧ P d) g.2) (foldl (λ gs i, group_push i gs) gs l)) as H.
  { induction Hl as [|i l Hi _ IH]; intros gs Hgs; simpl; [done|]. apply IH. by apply group_push_spec. }
  by apply H.
Qed.

Lemma safely_drain_once g0 :
  outbox_inv o0 →
  safe (drain_once faults clock torn pid sched rng layout_mismatch (o0, (g0, []))).2.
Proof.
  intros Ho. unfold drain_once. unfold sbind at 1. unfold on_outbox at 1, now_ms at 1, on_disk at 1. simpl.
  set (o1 := {| ob_index := ob_index o0; ob_disk := tick (ob_disk o0) |}).
  assert (safe (o1, (g0, []))) as Hs1.
  { split; [done|]. intros id e He Hn. simpl in Hn. change (pending o1 id) with (pending o0 id) in Hn. congruence. }
  unfold sbind at 1. unfold on_outbox at 1. simpl.
  pose proof (quiet_scan_eligible faults (clock (d_step (ob_disk o0))) RECOVERY_SCAN_LIMIT o1) as [Hi Hf].
  destruct (scan_eligible_pending faults (clock (d_step (ob_disk o0))) RECOVERY_SCAN_LIMIT o1)
    as [[due|err] o2] eqn:Hscan; simpl in *.
  2:{ split; [|].
      - destruct Hs1 as [[H1 H2] _]. split; simpl; [by rewrite Hi|by rewrite Hi, Hf].
      - intros id e He Hn. simpl in Hn. unfold pending in *. simpl in *. rewrite Hf in Hn. simpl in Hn. congruence. }
  assert (∀ id, pending o2 id = pending o0 id) as Hp2 by (intros id; unfold pending; by rewrite Hf).
  assert (safe (o2, (g0, []))) as Hs2.
  { split.
    - destruct Hs1 as [[H1 H2] _]. split; simpl; [by rewrite Hi|by rewrite Hi, Hf].
    - intros id e He Hn. simpl in Hn. rewrite Hp2 in Hn. congruence. }
  assert (Forall (λ e, pending o0 (p_id e) = Some e) due) as Hdue.
  { unfold scan_eligible_pending in Hscan. apply sbind_Ok in Hscan as (i & o3 & Hg & Hr). injection Hg as <- <-.
    apply read_all_Ok in Hr. apply Forall_forall. intros e He.
    destruct (Forall2_elem_of_r _ _ _ _ Hr He) as (id & _ & Hp & <-). done. }
  unfold sbind. destruct (safely_decode due (o2, (g0, [])) Hs2 Hdue) as (H1 & H2 & H3).
  destruct (decode_due _ _ _ _ due _) as [[ds|err] s3]; simpl in *; [|done].
  destruct (safely_sfor (drain_group faults clock torn pid sched rng layout_mismatch) (group_intents ds) s3)
    as [H _]; [done| |done].
  intros [t l] s Hg Hs _. apply safely_drain_group; [done|].
  pose proof (group_intents_spec _ _ (H3 ds eq_refl)) as Hgs. rewrite Forall_forall in Hgs.
  specialize (Hgs _ Hg). simpl in Hgs. eapply Forall_impl; [exact Hgs|]. intros d [<- Hd]. done.
Qed.
End Confirmed.


(** ** A healthy drain delivers every due intent *)

Record healthy {G} (GE : GlueExecutor G) (layout : GlueTarget → GlueTableLayout) : Prop := {
  h_layout : ∀ t g, (glue_table_layout t g).1 = Ok (layout t);
  h_get : ∀ t v g, ∃ o, (glue_get_partition t v g).1 = Ok o;
  h_update : ∀ t s g, (glue_update t s g).1 = Ok tt;
  h_create : ∀ t specs g, (glue_batch_create t specs g).1 = Ok (replicate (length specs) GoCreated)
}.

(** An intent Glue will take. *)
Definition deliverable (layout : GlueTarget → GlueTableLayout) (e : PendingCatalogIntent) : Prop :=
  is_admissible (p_intent e) = true ∧
  same_column_layout (gl_partition_columns (layout (target_of (ci_payload (p_intent e)))))
    (gp_partition_columns (ci_payload (p_intent e))) = true.

Notation ids_of l := ((λ d, p_id (di_pending d)) <$> l).

(** Steps only count up, so that later readings of a monotone clock are later times. *)
Section Advance.
Context {DG : Digest}.
Context {JI : Codec CatalogIntentIdentity} {JC : Codec CatalogIntent}
  {JP : Codec PendingCatalogIntent} {JE : Codec CatalogOutboxEnvelope}.
Context (faults : N → option FsErr).

Definition advances {A} (m : st Outbox FsErr A) : Prop :=
  ∀ s, (d_step (ob_disk s) ≤ d_step (ob_disk (m s).2))%N.

Lemma advances_bind {A B} (m : st Outbox FsErr A) (f : A → st Outbox FsErr B) :
  advances m → (∀ a, advances (f a)) → advances (sbind m f).
Proof.
  intros Hm Hf s. unfold sbind. specialize (Hm s). destruct (m s) as [[a|e] s1]; simpl in *; [|done].
  specialize (Hf a s1). lia.
Qed.

Lemma advances_fs_op {A} (f : gmap bytes bytes → result FsErr A * gmap bytes bytes) :
  advances (on_disk (fs_op faults f)).
Proof. intros s. unfold on_disk, fs_op. destruct (faults _); [|destruct (f _)]; simpl; lia. Qed.

Lemma advances_ret {A} (a : A) : advances (sret a).
Proof. intros s. done. Qed.

Lemma advances_lift {A} (r : result FsErr A) : advances (slift r).
Proof. intros s. by destruct r. Qed.

Lemma advances_index f : advances (update_index f).
Proof. intros s. done. Qed.

Lemma advances_get : advances get_index.
Proof. intros s. done. Qed.

Lemma advances_read_entry name : advances (read_entry faults name).
Proof.
  apply advances_bind; [apply advances_fs_op|]. intros meta. case_match; [intros s; done|].
  apply advances_bind; [apply advances_fs_op|]. intros bs. apply advances_lift.
Qed.

Lemma advances_read_all ids : advances (read_all faults ids).
Proof.
  induction ids as [|i ids IH]; [apply advances_ret|]. apply advances_bind; [apply advances_read_entry|].
  intros e. apply advances_bind; [done|]. intros es. apply advances_ret.
Qed.

Lemma advances_current_if e : advances (current_if faults e).
Proof.
  apply advances_bind; [apply advances_lift|]. intros gen. apply advances_bind; [apply advances_get|].
  intros index. repeat case_match; try apply advances_ret. intros s.
  pose proof (advances_read_entry (entry_path (p_id e)) s) as Hr. unfold read_indexed_entry.
  by destruct (read_entry _ _ s) as [[|[]] ?].
Qed.

Lemma advances_mark_delivered e : advances (mark_delivered_if faults e).
Proof.
  apply advances_bind; [apply advances_current_if|]. intros [cur|]; [|apply advances_ret].
  repeat (apply advances_bind; [first [apply advances_fs_op | apply advances_index]|intros ?]). apply advances_ret.
Qed.
End Advance.

Section Live.
Context {DG : Digest}.
Context {JI : Codec CatalogIntentIdentity} {JC : Codec CatalogIntent}
  {JP : Codec PendingCatalogIntent} {JE : Codec CatalogOutboxEnvelope}.
Context (faults : N → option FsErr) (clock : N → N) (torn : N → nat) (pid : N).
Context {G : Type} {GE : GlueExecutor G}.
Context (rng : N → N).
Context (layout_mismatch : GlueTarget → list GlueColumnIntent → list GlueColumnIntent → bytes).
Context (layout : GlueTarget → GlueTableLayout).
Context (Hfaults : ∀ n, faults n = None) (Hglue : healthy GE layout).

Notation State := (Outbox * G)%type.

(** [s'] is [s] without the intents [ids]. *)
Definition without (ids : list bytes) (s s' : State) : Prop :=
  outbox_inv s'.1 ∧ (d_step (ob_disk s.1) ≤ d_step (ob_disk s'.1))%N ∧
  ∀ id, pending s'.1 id = if decide (id ∈ ids) then None else pending s.1 id.

Lemma without_nil s g : outbox_inv s.1 → without [] s (s.1, g).
Proof. intros H. split_and!; [done|done|]. intros id. by rewrite decide_False by (by intros ?%elem_of_nil). Qed.

Lemma without_trans ids1 ids2 s1 s2 s3 :
  without ids1 s1 s2 → without ids2 s2 s3 → without (ids1 ++ ids2) s1 s3.
Proof.
  intros (_ & Hs1 & H1) (H2 & Hs2 & H3). split_and!; [done|lia|]. intros id. rewrite H3, H1.
  repeat case_decide; set_solver.
Qed.

Lemma without_perm ids ids' s s' : ids ≡ₚ ids' → without ids s s' → without ids' s s'.
Proof. intros Hp (H1 & Hs & H2). split_and!; [done|done|]. intros id. rewrite H2.
  assert (id ∈ ids ↔ id ∈ ids') as Hiff by (by rewrite Hp). repeat case_decide; tauto.
Qed.

Definition ready (s : State) (d : DecodedIntent) : Prop :=
  pending s.1 (p_id (di_pending d)) = Some (di_pending d).

Lemma ready_without ids s s' d :
  without ids s s' → p_id (di_pending d) ∉ ids → ready s d → ready s' d.
Proof. intros (_ & _ & Hw) Hn Hr. unfold ready in *. by rewrite Hw, decide_False. Qed.

Lemma ready_after d l s s' :
  without [p_id (di_pending d)] s s' → p_id (di_pending d) ∉ ids_of l → Forall (ready s) l → Forall (ready s') l.
Proof.
  rewrite !Forall_forall. intros Hw Hd Hr x Hx. eapply ready_without; [exact Hw| |by apply Hr].
  rewrite list_elem_of_singleton. intros Heq. apply Hd. rewrite <- Heq.
  apply list_elem_of_fmap. by exists x.
Qed.

Lemma deliver_one d s :
  outbox_inv s.1 → ready s d →
  ∃ s', (mark_delivered faults (di_pending d) ;! sret tt) s = (Ok tt, s') ∧
    without [p_id (di_pending d)] s s'.
Proof using Hfaults.
  intros Hs Hr. destruct (mark_delivered_run faults Hfaults _ _ Hs Hr) as (o & H1 & H2 & H3).
  exists (o, s.2). split.
  - erewrite sbind_run; [reflexivity|]. unfold mark_delivered, on_outbox. by rewrite H1.
  - pose proof (advances_mark_delivered faults (di_pending d) s.1) as Ha. rewrite H1 in Ha.
    split_and!; [done|done|]. intros id. simpl. rewrite H3. clear -H3.
    pose proof (list_elem_of_singleton id (p_id (di_pending d))). repeat case_decide; tauto.
Qed.

Lemma update_one target d s :
  outbox_inv s.1 → ready s d →
  ∃ s', update_partition faults clock torn pid rng target d s = (Ok tt, s') ∧
    without [p_id (di_pending d)] s s'.
Proof using Hfaults Hglue.
  intros Hs Hr. unfold update_partition. unfold sbind at 1. unfold on_glue.
  pose proof (h_update _ _ Hglue target (partition_spec (di_payload d)) s.2) as Hu.
  destruct (glue_update target (partition_spec (di_payload d)) s.2) as [r g]. simpl in Hu. subst r.
  destruct (deliver_one d (s.1, g)) as (s' & H1 & H2); [done|done|]. by exists s'.
Qed.

Lemma check_layouts_run target l (s : State) :
  Forall (λ d, same_column_layout (gl_partition_columns (layout target)) (gp_partition_columns (di_payload d)) = true) l →
  ∃ valid, check_layouts faults clock torn pid rng layout_mismatch target (layout target) l s = (Ok valid, s) ∧
    di_pending <$> valid = di_pending <$> l.
Proof.
  induction 1 as [|d l Hd _ (valid & IH1 & IH2)]; simpl; [by exists []|]. rewrite Hd. simpl.
  rewrite (sbind_run _ _ _ _ _ IH1). eexists. split; [done|]. csimpl. by rewrite IH2.
Qed.

Lemma inspect_run target l (s : State) :
  ∃ ins g, inspect_all target l s = (Ok ins, (s.1, g)) ∧ ins.*1 = l ∧
    Forall (λ ir : DecodedIntent * result GlueApiError (option bytes), ∃ o, ir.2 = Ok o) ins.
Proof using Hglue.
  revert s; induction l as [|d l IH]; intros s; simpl; [exists [], s.2; by destruct s|].
  unfold sbind at 1. unfold on_glue.
  destruct (h_get _ _ Hglue target (gp_partition_values (di_payload d)) s.2) as [o Ho].
  destruct (glue_get_partition target (gp_partition_values (di_payload d)) s.2) as [r g]. simpl in Ho. subst r.
  destruct (IH (s.1, g)) as (ins & g' & H1 & H2 & H3). rewrite (sbind_run _ _ _ _ _ H1).
  eexists ((d, Ok o) :: ins), g'. split; [done|]. csimpl. split; [by rewrite H2|]. constructor; [by eexists|done].
Qed.

(** Found partitions are settled, missing ones collected. *)
Lemma settle_run target ins missing s :
  outbox_inv s.1 → NoDup (ids_of ins.*1) → Forall (ready s) ins.*1 →
  Forall (λ ir : DecodedIntent * result GlueApiError (option bytes), ∃ o, ir.2 = Ok o) ins →
  ∃ dn miss s', settle faults clock torn pid rng target ins missing s = (Ok (missing ++ miss), s') ∧
    dn ++ miss ≡ₚ ins.*1 ∧ without (ids_of dn) s s'.
Proof using Hfaults Hglue.
  revert missing s; induction ins as [|[d r] ins IH]; intros missing s Hs Hnd Hr Hok; simpl.
  { exists [], [], s. rewrite app_nil_r. split_and!; [done|done|]. destruct s. by apply without_nil. }
  csimpl in *. apply NoDup_cons in Hnd as [Hd Hnd]. inversion Hr as [|?? Hrd Hr']; subst.
  inversion Hok as [|?? [o Ho] Hok']; subst. simpl in Ho. subst r.
  assert (∀ m : st State FsErr unit,
    (∃ s1, m s = (Ok tt, s1) ∧ without [p_id (di_pending d)] s s1) →
    ∃ dn miss s', (m ;! settle faults clock torn pid rng target ins missing) s = (Ok (missing ++ miss), s') ∧
      dn ++ miss ≡ₚ d :: ins.*1 ∧ without (ids_of dn) s s') as Hstep.
  { intros m (s1 & Hm & Hw). rewrite (sbind_run _ _ _ _ _ Hm).
    destruct (IH missing s1) as (dn & miss & s' & H1 & H2 & H3); [by destruct Hw as (? & _)|done| |done|].
    { by eapply ready_after. }
    exists (d :: dn), miss, s'. split_and!; [done|simpl; by rewrite <- H2|].
    csimpl. by apply (without_trans [_] (ids_of dn) s s1). }
  destruct o as [cur|].
  - apply Hstep. case_decide; [by apply deliver_one|by apply update_one].
  - destruct (IH (missing ++ [d]) s) as (dn & miss & s' & H1 & H2 & H3); [done..|].
    exists dn, (d :: miss), s'. rewrite H1, <- app_assoc. split_and!; [done| |done].
    rewrite <- Permutation_middle. by rewrite H2.
Qed.

Lemma created_run l s :
  outbox_inv s.1 → NoDup (ids_of l) → Forall (ready s) l →
  ∃ s', sfor (apply_outcome faults clock torn pid rng) (zip l (replicate (length l) GoCreated)) s = (Ok tt, s') ∧
    without (ids_of l) s s'.
Proof using Hfaults Hglue.
  revert s; induction l as [|d l IH]; intros s Hs Hnd Hr; simpl.
  { exists s. split; [done|]. destruct s. by apply without_nil. }
  csimpl in Hnd. apply NoDup_cons in Hnd as [Hd Hnd]. inversion Hr as [|?? Hrd Hr']; subst.
  destruct (deliver_one d s Hs Hrd) as (s1 & Hm & Hw). unfold apply_outcome at 1. simpl.
  rewrite (sbind_run _ _ _ _ _ Hm). destruct (IH s1) as (s' & H1 & H2); [by destruct Hw as (? & _)|done|by eapply ready_after|].
  exists s'. split; [done|]. csimpl. by apply (without_trans [_] (ids_of l) s s1).
Qed.

Lemma create_batch_run target l s :
  outbox_inv s.1 → NoDup (ids_of l) → Forall (ready s) l →
  ∃ s', create_batch faults clock torn pid rng target l s = (Ok tt, s') ∧ without (ids_of l) s s'.
Proof using Hfaults Hglue.
  intros Hs Hnd Hr. unfold create_batch. unfold sbind, on_glue.
  set (specs := (λ i, partition_spec (di_payload i)) <$> l).
  pose proof (h_create _ _ Hglue target specs s.2) as Hc.
  destruct (glue_batch_create target specs s.2) as [r g]. simpl in Hc. subst r.
  assert (length specs = length l) as Hlen by apply length_fmap.
  rewrite length_replicate, Hlen, Nat.eqb_refl.
  by destruct (created_run l (s.1, g) Hs Hnd Hr) as (s' & H1 & H2); exists s'.
Qed.

(** A step for each list of a partition of the intents. *)
Lemma sfor_run {A} (f : A → st State FsErr unit) (lists : A → list DecodedIntent) (xs : list A) :
  (∀ x s, x ∈ xs → outbox_inv s.1 → NoDup (ids_of (lists x)) → Forall (ready s) (lists x) →
    ∃ s', f x s = (Ok tt, s') ∧ without (ids_of (lists x)) s s') →
  ∀ s, outbox_inv s.1 → NoDup (ids_of (concat (lists <$> xs))) → Forall (ready s) (concat (lists <$> xs)) →
  ∃ s', sfor f xs s = (Ok tt, s') ∧ without (ids_of (concat (lists <$> xs))) s s'.
Proof.
  induction xs as [|x xs IH]; intros Hf s Hs Hnd Hr; csimpl in *.
  { exists s. split; [done|]. destruct s. by apply without_nil. }
  rewrite fmap_app in Hnd. apply NoDup_app in Hnd as (Hnd1 & Hdis & Hnd2). apply Forall_app in Hr as [Hr1 Hr2].
  destruct (Hf x s) as (s1 & Hm & Hw); [by left|done..|]. rewrite (sbind_run _ _ _ _ _ Hm).
  destruct (IH (λ y t Hy, Hf y t (list_elem_of_further _ _ _ Hy)) s1) as (s' & H1 & H2);
    [by destruct Hw as (? & _)|done| |].
  { rewrite Forall_forall in *. intros d Hd. eapply ready_without; [exact Hw| |by apply Hr2].
    intros Hin. apply (Hdis _ Hin). apply list_elem_of_fmap. by exists d. }
  exists s'. split; [done|]. rewrite fmap_app. by eapply without_trans.
Qed.

Context (sched : list DecodedIntent → list DecodedIntent) (Hsched : ∀ l, sched l ≡ₚ l).

Lemma drain_group_run target l s :
  Forall (λ d, same_column_layout (gl_partition_columns (layout target)) (gp_partition_columns (di_payload d)) = true) l →
  outbox_inv s.1 → NoDup (ids_of l) → Forall (ready s) l →
  ∃ s', drain_group faults clock torn pid sched rng layout_mismatch (target, l) s = (Ok tt, s') ∧
    without (ids_of l) s s'.
Proof using Hfaults Hglue Hsched.
  intros Hl Hs Hnd Hr. unfold drain_group. unfold sbind at 1. unfold on_glue.
  pose proof (h_layout _ _ Hglue target s.2) as Hc.
  destruct (glue_table_layout target s.2) as [r g]. simpl in Hc. subst r.
  destruct (check_layouts_run target l (s.1, g) Hl) as (valid & Hv & Hvp).
  rewrite (sbind_run _ _ _ _ _ Hv).
  destruct (inspect_run target (sched valid) (s.1, g)) as (ins & g' & Hi & Hil & Hok).
  rewrite (sbind_run _ _ _ _ _ Hi). simpl.
  assert (di_pending <$> ins.*1 ≡ₚ di_pending <$> l) as Hp by (by rewrite Hil, Hsched, Hvp).
  assert (∀ x y : list DecodedIntent, di_pending <$> x ≡ₚ di_pending <$> y → ids_of x ≡ₚ ids_of y) as Hids.
  { intros x y Hxy. apply (fmap_Permutation p_id) in Hxy. by rewrite <- !list_fmap_compose in Hxy. }
  destruct (settle_run target ins [] (s.1, g')) as (dn & miss & s1 & Hset & Hdm & Hw1); [done| | |done|].
  { by rewrite (Hids _ _ Hp). }
  { rewrite Forall_forall in *. intros d Hd. apply (list_elem_of_fmap_2 di_pending) in Hd. rewrite Hp in Hd.
    apply list_elem_of_fmap in Hd as (d' & Heq & Hd'). unfold ready in *. rewrite Heq. by apply Hr. }
  rewrite (sbind_run _ _ _ _ _ Hset). simpl.
  assert (NoDup (ids_of (dn ++ miss))) as Hnd' by (by rewrite Hdm, (Hids _ _ Hp)).
  rewrite fmap_app in Hnd'. apply NoDup_app in Hnd' as (_ & Hdis & Hnd2).
  assert (concat (id <$> chunks GLUE_BATCH_CREATE_LIMIT miss) = miss) as Hcc.
  { rewrite list_fmap_id. apply concat_chunks. unfold GLUE_BATCH_CREATE_LIMIT. lia. }
  destruct (sfor_run (create_batch faults clock torn pid rng target) id
    (chunks GLUE_BATCH_CREATE_LIMIT miss)) with (s := s1) as (s2 & H1 & H2).
  { intros x t _. apply create_batch_run. }
  { by destruct Hw1 as (? & _). }
  { by rewrite Hcc. }
  { rewrite Hcc. rewrite Forall_forall in *. intros d Hd. eapply ready_without; [exact Hw1| |].
    - intros Hin. apply (Hdis _ Hin). apply list_elem_of_fmap. by exists d.
    - assert (di_pending d ∈ di_pending <$> ins.*1) as Hin.
      { rewrite <- Hdm, fmap_app. apply elem_of_app. right. apply list_elem_of_fmap. by exists d. }
      rewrite Hp in Hin. apply list_elem_of_fmap in Hin as (d' & Heq & Hd'). unfold ready in *. rewrite Heq. by apply Hr. }
  rewrite Hcc in H2. exists s2. split; [exact H1|]. apply (without_perm (ids_of dn ++ ids_of miss)).
  - rewrite <- fmap_app, Hdm. by apply Hids.
  - by apply (without_trans _ _ s s1).
Qed.

Lemma group_push_perm i gs : concat (group_push i gs).*2 ≡ₚ i :: concat gs.*2.
Proof using.
  induction gs as [|[k ds] gs IH]; simpl; [done|]. repeat case_match; simpl.
  - rewrite <- (assoc_L app). simpl. by rewrite <- Permutation_middle.
  - done.
  - rewrite IH. by rewrite <- Permutation_middle.
Qed.

Lemma group_intents_perm l : concat (group_intents l).*2 ≡ₚ l.
Proof using.
  unfold group_intents. assert (∀ gs, concat (foldl (λ gs i, group_push i gs) gs l).*2 ≡ₚ concat gs.*2 ++ l) as H.
  { induction l as [|i l IH]; intros gs; simpl; [by rewrite app_nil_r|].
    rewrite IH, group_push_perm. by rewrite <- Permutation_middle. }
  by rewrite H.
Qed.

Lemma decode_due_run due (s : State) :
  Forall (λ e, is_admissible (p_intent e) = true) due →
  decode_due faults clock torn pid due s =
    (Ok ((λ p, {| di_pending := p; di_payload := ci_payload (p_intent p) |}) <$> due), s).
Proof using.
  induction 1 as [|p due Hp _ IH]; simpl; [done|]. rewrite Hp. by rewrite (sbind_run _ _ _ _ _ IH).
Qed.

(** The due intents of the outbox at a time, as a scan takes them. *)
Definition due_now (s : State) (now : N) : list bytes := due_ids (ob_index s.1) now RECOVERY_SCAN_LIMIT.

Lemma due_now_pending s now i :
  outbox_inv s.1 → i ∈ due_now s now → ∃ e, pending s.1 i = Some e ∧ p_terminal e = false.
Proof using.
  intros Hs Hi. unfold due_now in Hi. rewrite due_ids_range, takeN_take in Hi.
  assert (i ∈ (due_range (ob_index s.1) now).*2) as Hj.
  { rewrite <- (take_drop (N.to_nat RECOVERY_SCAN_LIMIT) _.*2). apply elem_of_app. by left. }
  apply list_elem_of_fmap in Hj as ([n i'] & -> & Hin).
  apply (due_range_elem s.1 now n i' Hs) in Hin as (e & He & Ht & _). eauto.
Qed.

Lemma due_now_nodup s now : outbox_inv s.1 → NoDup (due_now s now).
Proof using.
  intros Hs. unfold due_now. rewrite due_ids_range, takeN_take.
  pose proof (due_range_nodup s.1 now Hs) as Hnd.
  rewrite <- (take_drop (N.to_nat RECOVERY_SCAN_LIMIT) _.*2) in Hnd. by apply NoDup_app in Hnd as [? _].
Qed.

Lemma scan_run s now :
  outbox_inv s.1 →
  ∃ es o, scan_eligible_pending faults now RECOVERY_SCAN_LIMIT s.1 = (Ok es, o) ∧ outbox_inv o ∧
    (d_step (ob_disk s.1) ≤ d_step (ob_disk o))%N ∧ (∀ i, pending o i = pending s.1 i) ∧ p_id <$> es = due_now s now ∧
    Forall (λ e, pending s.1 (p_id e) = Some e ∧ p_terminal e = false) es.
Proof using Hfaults.
  intros Hs. destruct (read_all_run faults Hfaults (due_now s now) s.1) as (es & o & Hread).
  { intros i (e & He & _)%due_now_pending; [|done]. by exists e. }
  assert (scan_eligible_pending faults now RECOVERY_SCAN_LIMIT s.1 = (Ok es, o)) as Hscan by exact Hread.
  pose proof (read_all_Ok faults _ _ _ _ Hread) as Hes.
  pose proof (quiet_scan_eligible faults now RECOVERY_SCAN_LIMIT s.1) as [Hqi Hqf].
  rewrite Hscan in Hqi, Hqf. simpl in Hqi, Hqf. exists es, o. split_and!; [done| | | | |].
  - destruct Hs as [H1 H2]. split; [by rewrite Hqi|by rewrite Hqi, Hqf].
  - pose proof (advances_read_all faults (due_now s now) s.1) as Ha. by rewrite Hread in Ha.
  - intros i. unfold pending. by rewrite Hqf.
  - clear -Hes. induction Hes as [|i e ids es [_ <-] _ IH]; [done|]. csimpl. by rewrite IH.
  - apply Forall_forall. intros e He. destruct (Forall2_elem_of_r _ _ _ _ Hes He) as (i & Hi & Hpe & Heq).
    subst i. split; [done|]. apply due_now_pending in Hi as (e' & He' & Ht); [|done]. by assert (e' = e) as -> by congruence.
Qed.

Lemma drain_once_run s :
  outbox_inv s.1 →
  (∀ id e, pending s.1 id = Some e → p_terminal e = false → deliverable layout e) →
  ∃ s', drain_once faults clock torn pid sched rng layout_mismatch s = (Ok tt, s') ∧
    without (due_now s (clock (d_step (ob_disk s.1)))) s s'.
Proof using Hfaults Hglue Hsched.
  intros Hs Hdel. unfold drain_once. erewrite sbind_run; [|reflexivity]. simpl.
  set (o1 := {| ob_index := ob_index s.1; ob_disk := tick (ob_disk s.1) |}).
  set (now := clock (d_step (ob_disk s.1))).
  destruct (scan_run (o1, s.2) now) as (es & o2 & Hscan & Ho2 & Hst & Hp2 & Hids & Hall); [done|].
  change (due_now (o1, s.2) now) with (due_now s now) in Hids. simpl in Hscan, Hp2, Hall.
  erewrite sbind_run; [|unfold on_outbox; simpl; by rewrite Hscan]. erewrite sbind_run.
  2:{ apply decode_due_run. eapply Forall_impl; [exact Hall|]. intros e (H & Ht). by destruct (Hdel _ e H Ht). }
  set (ds := _ <$> es). pose proof (group_intents_perm ds) as Hgp.
  assert (ids_of ds = due_now s now) as Hdids by (unfold ds; rewrite <- Hids, <- list_fmap_compose; done).
  assert (Forall (λ d, pending s.1 (p_id (di_pending d)) = Some (di_pending d) ∧
    same_column_layout (gl_partition_columns (layout (target_of (di_payload d)))) (gp_partition_columns (di_payload d)) = true) ds) as Hds.
  { unfold ds. apply Forall_fmap. eapply Forall_impl; [exact Hall|]. intros e (H & Ht).
    by destruct (Hdel _ e H Ht). }
  pose proof (group_intents_spec _ _ Hds) as Hgs.
  destruct (sfor_run (drain_group faults clock torn pid sched rng layout_mismatch) snd (group_intents ds))
    with (s := (o2, s.2)) as (s' & H1 & H2).
  { intros [t l] s0 Hin. apply drain_group_run. rewrite Forall_forall in Hgs. specialize (Hgs _ Hin). simpl in Hgs.
    eapply Forall_impl; [exact Hgs|]. intros d (<- & _ & H). done. }
  { done. }
  { rewrite Hgp, Hdids. by apply due_now_nodup. }
  { rewrite Hgp. eapply Forall_impl; [exact Hds|]. intros d [H _]. unfold ready. simpl. by rewrite Hp2. }
  exists s'. split; [exact H1|]. apply (without_perm (ids_of (concat (group_intents ds).*2))).
  { rewrite Hgp. by rewrite Hdids. }
  destruct H2 as (H2 & Hst' & H3). split_and!; [done|simpl in *; lia|]. intros i. rewrite H3. simpl. by rewrite Hp2.
Qed.

Context (Hclock : ∀ n m, (n ≤ m)%N → (clock n ≤ clock m)%N).

(** The undelivered intents are all in a list of [n] names. *)
Definition at_most (n : nat) (s : State) : Prop :=
  ∃ names : list bytes, length names ≤ n ∧
    ∀ id e, pending s.1 id = Some e → p_terminal e = false → id ∈ names.

Lemma at_most_due s : outbox_inv s.1 → at_most (size (oi_due (ob_index s.1))) s.
Proof using.
  intros Hs. exists (elements (oi_due (ob_index s.1))).*2. split; [by rewrite length_fmap|].
  intros id e He Ht. apply list_elem_of_fmap. exists (p_next_attempt_at_ms e, id). split; [done|].
  assert ((p_next_attempt_at_ms e, id) ∈ due_range (ob_index s.1) (p_next_attempt_at_ms e)) as Hin.
  { apply due_range_elem; [done|]. by exists e. }
  unfold due_range in Hin. apply list_elem_of_filter in Hin as [_ Hin].
  apply in_stamp_order_elem in Hin. by apply elem_of_elements.
Qed.

Lemma at_most_without n ids i s s' :
  without ids s s' → i ∈ ids → (∃ e, pending s.1 i = Some e ∧ p_terminal e = false) →
  at_most (S n) s → at_most n s'.
Proof using.
  intros (_ & _ & Hw) Hi (e & He & Ht) (names & Hlen & Hn).
  exists (filter (λ x, x ∉ ids) names). split.
  - enough (length (filter (λ x, x ∉ ids) names) < length names) by lia.
    apply (length_filter_lt _ _ i); [by eapply Hn|]. intros Hni. by apply Hni.
  - intros id' e' He' Ht'. rewrite Hw in He'. case_decide; [done|]. apply list_elem_of_filter. split; [done|]. by eapply Hn.
Qed.

(** An outbox with due work has due work at any later time. *)
Lemma due_now_some s t now :
  outbox_inv s.1 → due_range (ob_index s.1) t ≠ [] → (t ≤ now)%N → ∃ i, i ∈ due_now s now.
Proof using.
  intros Hs Hne Ht. unfold due_now. rewrite due_ids_range.
  destruct (due_range (ob_index s.1) t) as [|[n i] l] eqn:Hl; [done|].
  assert ((n, i) ∈ due_range (ob_index s.1) t) as Hin by (rewrite Hl; by left).
  apply (due_range_elem s.1 t n i Hs) in Hin as (e & He & Hte & Hn & Hle).
  assert ((n, i) ∈ due_range (ob_index s.1) now) as Hin.
  { apply due_range_elem; [done|]. exists e. split_and!; [done..|lia]. }
  destruct (due_range (ob_index s.1) now) as [|[n' i'] l']; [by apply elem_of_nil in Hin|].
  exists i'. rewrite fmap_cons. cbn [takeN]. change (RECOVERY_SCAN_LIMIT =? 0)%N with false. by left.
Qed.

Lemma due_now_live s now i e :
  outbox_inv s.1 → i ∈ due_now s now → pending s.1 i = Some e → p_terminal e = false.
Proof using.
  intros Hs Hi He. apply due_now_pending in Hi as (e' & He' & Ht); [|done]. by assert (e' = e) as <- by congruence.
Qed.

Lemma drain_until_idle_run n fuel round s :
  n < fuel → at_most n s → outbox_inv s.1 →
  (∀ id e, pending s.1 id = Some e → p_terminal e = false → deliverable layout e) →
  ∃ s' ids t, drain_until_idle faults clock torn pid sched rng layout_mismatch fuel (λ _, false) round s
      = (Ok (Some true), s') ∧ without ids s s' ∧
    (clock (d_step (ob_disk s.1)) ≤ t)%N ∧
    (∀ id e, id ∈ ids → pending s.1 id = Some e → p_terminal e = false) ∧
    ∀ id e, pending s'.1 id = Some e → p_terminal e = false → (t < p_next_attempt_at_ms e)%N.
Proof using Hfaults Hglue Hsched Hclock.
  revert n round s; induction fuel as [|f IH]; intros n round s Hfuel Hn Hs Hdel; [lia|]. cbn [drain_until_idle].
  erewrite sbind_run; [|reflexivity]. cbn [ms_due_count].
  set (s0 := (_, s.2)). set (t := clock (d_step (ob_disk s.1))).
  assert (outbox_inv s0.1) as Hs0 by done.
  destruct (N.eqb_spec (N.of_nat (length (due_range (ob_index s.1) t))) 0) as [H0|H0].
  { exists s0, [], t. split_and!; [done| |done|by intros ?? ?%elem_of_nil|].
    - split_and!; [done|simpl; lia|]. intros i. by rewrite decide_False by (by intros ?%elem_of_nil).
    - intros i e He Ht. destruct (N.lt_ge_cases t (p_next_attempt_at_ms e)) as [|Hle]; [done|].
      assert ((p_next_attempt_at_ms e, i) ∈ due_range (ob_index s.1) t) as Hin by (apply due_range_elem; [done|by exists e]).
      destruct (due_range _ t); [by apply elem_of_nil in Hin|simpl in H0; lia]. }
  destruct (drain_once_run s0 Hs0 Hdel) as (s1 & H1 & Hw). rewrite (sbind_run _ _ _ _ _ H1).
  set (now := clock (d_step (ob_disk s0.1))) in *.
  destruct (due_now_some s0 t now Hs0) as (i & Hi); [intros E; simpl in E; by rewrite E in H0|apply Hclock; simpl; lia|].
  pose proof (due_now_pending s0 now i Hs0 Hi) as He. destruct n as [|n].
  { destruct Hn as (names & Hlen & Hn), He as (e & He & Ht). specialize (Hn i e He Ht).
    destruct names; [by apply elem_of_nil in Hn|simpl in Hlen; lia]. }
  pose proof Hw as (Hs1 & Hstep & Hp1).
  destruct (IH n (S round) s1) as (s' & ids & t' & H2 & Hw' & Ht' & Hids & Hidle); [lia|by eapply at_most_without|done| |].
  { intros id' e' He' Hte'. rewrite Hp1 in He'. case_decide; [done|]. by eapply Hdel. }
  exists s', (due_now s0 now ++ ids), t'. split_and!; [done| | | |done].
  - destruct (without_trans _ _ _ _ _ Hw Hw') as (H3 & H4 & H5). split_and!; [done|simpl in H4; lia|done].
  - etrans; [|exact Ht']. apply Hclock. simpl in Hstep. lia.
  - intros id' e' Hin He'. destruct (decide (id' ∈ due_now s0 now)) as [Hd|Hd]; [by eapply (due_now_live s0)|].
    apply elem_of_app in Hin as [|Hin]; [done|]. apply (Hids id' e' Hin). by rewrite Hp1, decide_False.
Qed.
End Live.


(** ** A concrete coordinator *)

Module CoordinatorExample.
Import OutboxExample.

#[local] Existing Instances digest json_identity json_intent json_pending json_envelope.

(** A table partitioned by [day] that holds no partition, and accepts everything. *)
Definition live_layout (_ : GlueTarget) : GlueTableLayout :=
  {| gl_partition_columns := [from_glue_fields (str "day") None None]; gl_storage_columns := [] |}.

Definition accepting : GlueExecutor unit := {|
  glue_table_layout t g := (Ok (live_layout t), g);
  glue_get_partition t v g := (Ok None, g);
  glue_batch_create t specs g := (Ok (replicate (length specs) GoCreated), g);
  glue_update t s g := (Ok tt, g)
|}.

Lemma accepting_healthy : healthy accepting live_layout.
Proof. split; intros; simpl; eauto. Qed.

Definition serialized : bytes :=
  match encode_entry first_entry with Ok bs => bs | Err _ => [] end.

Definition mismatch (_ : GlueTarget) (_ _ : list GlueColumnIntent) : bytes := [].

(** The first outbox holds one intent. *)
Lemma outbox1_only i e : pending outbox1 i = Some e → e = first_entry.
Proof.
  assert (map_to_list (d_files (ob_disk outbox1)) = [(entry_path ident_id, serialized)]) as Hfs
    by (vm_compute; reflexivity).
  unfold pending. destruct (_ !! entry_path i) as [bs|] eqn:Hb; [|discriminate].
  apply elem_of_map_to_list in Hb. rewrite Hfs in Hb. apply list_elem_of_singleton in Hb.
  injection Hb as Hb ->. rewrite Hb.
  assert (entry_file (entry_path ident_id) serialized = Ok first_entry) as -> by (vm_compute; reflexivity).
  intros [= <-]. reflexivity.
Qed.



Definition spec (values : list bytes) (location : bytes) : GluePartitionSpec := {|
  gs_values := values; gs_location := location; gs_storage_columns := [];
  gs_input_format := []; gs_output_format := []; gs_serde_library := []
|}.

Definition throttled (values : list bytes) : SdkPartitionError := {|
  pe_values := values; pe_code := Some (str "ThrottlingException"); pe_message := None
|}.

Lemma batch_outcomes_exact_witness :
  ∃ err, batch_outcomes (default []) (λ vs, concat vs) [spec [str "1"] []; spec [str "2"] []] [throttled [str "2"]] =
    Ok [GoCreated; GoFailed err] ∧ ge_kind err = GkTransient.
Proof.
  eexists. split; [|].
  - rewrite batch_outcomes_exact.
    + vm_compute. reflexivity.
    + apply (bool_decide_eq_true_1 _). vm_compute. reflexivity.
    + intros e He. apply list_elem_of_singleton in He as ->. right. left.
  - reflexivity.
Defined.

Lemma batch_duplicate_reported_created_witness :
  ∃ o, batch_outcomes (default []) (λ vs, concat vs) [spec [str "1"] (str "a"); spec [str "1"] (str "b")] [throttled [str "1"]] =
    Ok [GoCreated; o].
Proof.
  apply batch_duplicate_reported_created; [reflexivity|]. intros e He. apply list_elem_of_singleton in He as ->. reflexivity.
Defined.
End CoordinatorExample.
