(* ===== verification/SourceContract.v ===== *)
(** * SourceContract: contracts of API sources

    Models src/plugins/source_contract.rs, with the namespace cleaning it relies on
    (src/ingest_work.rs [storage_namespace], src/helpers/mod.rs [clean_field_name]).  A
    contract declares the keys, the cursor and the write policy of a namespace; a set of
    contracts is validated, checked against the sink and replaces the stored set.  Unicode
    lower-casing is the parameter [to_lowercase]; the cache of cleaned names returns what
    it would compute and is left out. *)

From S2P Require Import Prelude Bytes Text Lease Cdc.

(** ** Field paths *)

Record FieldPath : Type := { fp_segments : list bytes }.

#[global] Instance FieldPath_eq_dec : EqDecision FieldPath.
Proof. solve_decision. Defined.

Definition single (column : bytes) : FieldPath := {| fp_segments := [column] |}.

(** [Vec::join]. *)
Fixpoint join_with (sep : bytes) (l : list bytes) : bytes :=
  match l with
  | [] => []
  | [x] => x
  | x :: l' => x ++ sep ++ join_with sep l'
  end.

Definition dotted (p : FieldPath) : bytes := join_with (str ".") (fp_segments p).

Inductive WritePolicy : Type := WpAppend | WpMergeByKey | WpReplaceTable | WpReplacePartition.

Inductive SourceSemantics : Type := EventStream | EntityState | MutableReport.

#[global] Instance WritePolicy_eq_dec : EqDecision WritePolicy.
Proof. solve_decision. Defined.
#[global] Instance SourceSemantics_eq_dec : EqDecision SourceSemantics.
Proof. solve_decision. Defined.

Record SourceNamespaceContract : Type := {
  sc_namespace : bytes;
  sc_primary_key : list FieldPath;
  sc_cursor : option FieldPath;
  sc_partition_key : list FieldPath;
  sc_write_policy : WritePolicy;
  sc_refresh_window : option N;
  sc_description : bytes;
  sc_semantics : option SourceSemantics
}.

#[global] Instance SourceNamespaceContract_eq_dec : EqDecision SourceNamespaceContract.
Proof. solve_decision. Defined.

Inductive SourceContractError : Type :=
| EmptyNamespace
| EmptyFieldPath
| EmptyFieldPathSegment
| MergeByKeyRequiresPrimaryKey
| ReplacePartitionRequiresPartitionKey
| DuplicateNamespace (namespace : bytes)
| SinkPolicyUnsupported (message : bytes)
| CdcContractsError (message : bytes).

#[global] Instance SourceContractError_eq_dec : EqDecision SourceContractError.
Proof. solve_decision. Defined.

Definition blank_text (s : bytes) : bool := bool_decide (trim s = []).

Fixpoint check_segments (l : list bytes) : result SourceContractError unit :=
  match l with
  | [] => Ok tt
  | s :: l' => if blank_text s then Err EmptyFieldPathSegment else check_segments l'
  end.

Definition FieldPath_validate (p : FieldPath) : result SourceContractError unit :=
  match fp_segments p with
  | [] => Err EmptyFieldPath
  | l => check_segments l
  end.

(** ** Support of the sink *)

Record SinkWritePolicySupport : Type := {
  supports_merge_by_key : bool;
  supports_replace_partition : bool;
  supports_replace_table : bool
}.

Record WritePolicyUnsupportedError : Type := {
  wu_namespace : bytes;
  wu_policy : WritePolicy;
  wu_sink_name : bytes
}.

(** The [Debug] form of a policy. *)
Definition policy_name (p : WritePolicy) : bytes :=
  match p with
  | WpAppend => str "Append"
  | WpMergeByKey => str "MergeByKey"
  | WpReplaceTable => str "ReplaceTable"
  | WpReplacePartition => str "ReplacePartition"
  end.

Definition unsupported_display (e : WritePolicyUnsupportedError) : bytes :=
  str "sink '" ++ wu_sink_name e ++ str "' does not support write policy " ++
  policy_name (wu_policy e) ++ str " for namespace '" ++ wu_namespace e ++ str "'".

Definition policy_unsupported (p : WritePolicy) (support : SinkWritePolicySupport) : bool :=
  match p with
  | WpAppend => false
  | WpMergeByKey => negb (supports_merge_by_key support)
  | WpReplacePartition => negb (supports_replace_partition support)
  | WpReplaceTable => negb (supports_replace_table support)
  end.

Definition validate_write_policy_for_sink (c : SourceNamespaceContract) (sink_name : bytes)
    (support : SinkWritePolicySupport) : result WritePolicyUnsupportedError unit :=
  if policy_unsupported (sc_write_policy c) support
  then Err {| wu_namespace := sc_namespace c; wu_policy := sc_write_policy c;
              wu_sink_name := sink_name |}
  else Ok tt.

Definition contract_error_display (e : SourceContractError) : bytes :=
  match e with
  | EmptyNamespace => str "namespace must not be empty"
  | EmptyFieldPath => str "field path must not be empty"
  | EmptyFieldPathSegment => str "field path segment must not be empty"
  | MergeByKeyRequiresPrimaryKey => str "MergeByKey requires a non-empty primary_key"
  | ReplacePartitionRequiresPartitionKey =>
      str "ReplacePartition requires a non-empty partition_key"
  | DuplicateNamespace ns => str "duplicate namespace contract: " ++ ns
  | SinkPolicyUnsupported msg => msg
  | CdcContractsError msg => msg
  end.

(** ** Validation *)

Fixpoint validate_paths (l : list FieldPath) : result SourceContractError unit :=
  match l with
  | [] => Ok tt
  | p :: l' => FieldPath_validate p ;? validate_paths l'
  end.

Definition contract_validate (c : SourceNamespaceContract) : result SourceContractError unit :=
  if blank_text (sc_namespace c) then Err EmptyNamespace
  else validate_paths (sc_primary_key c ++ sc_partition_key c ++ option_list (sc_cursor c)) ;?
       match sc_write_policy c, sc_primary_key c, sc_partition_key c with
       | WpMergeByKey, [], _ => Err MergeByKeyRequiresPrimaryKey
       | WpReplacePartition, _, [] => Err ReplacePartitionRequiresPartitionKey
       | _, _, _ => Ok tt
       end.

Definition business_key_column_names (c : SourceNamespaceContract) : list bytes :=
  dotted <$> sc_primary_key c.

Fixpoint validate_contracts_from (seen : gset bytes) (l : list SourceNamespaceContract)
    : result SourceContractError unit :=
  match l with
  | [] => Ok tt
  | c :: l' =>
      contract_validate c ;?
      if decide (sc_namespace c ∈ seen) then Err (DuplicateNamespace (sc_namespace c))
      else validate_contracts_from ({[sc_namespace c]} ∪ seen) l'
  end.

Definition validate_namespace_contracts : list SourceNamespaceContract → result SourceContractError unit :=
  validate_contracts_from ∅.

Definition to_cdc_namespace_contract (c : SourceNamespaceContract) (guarantee : EffectiveGuarantee)
    (order : OrderTokenSemantics) (null_keys : NullKeyPolicy) (system_columns : bool)
    : NamespaceContract := {|
  nc_namespace := sc_namespace c;
  business_key_columns := business_key_column_names c;
  effective_guarantee := guarantee;
  order_token_semantics := order;
  null_key_policy := null_keys;
  requires_skippr_system_columns := system_columns
|}.

Definition cdc_source_key_columns (m : gmap bytes SourceNamespaceContract) : gmap bytes (list bytes) :=
  business_key_column_names <$> m.

(** ** Names of namespaces in storage *)

(** [field.parse::<i32>().is_ok()]. *)
Definition parses_i32 (s : bytes) : bool :=
  match s with
  | x2d :: rest => match rest with
                   | x2b :: _ => false
                   | _ => bool_decide (is_Some (parse_N 2147483648 rest))
                   end
  | _ => bool_decide (is_Some (parse_N 2147483647 s))
  end.

Definition field_char (c : byte) : bool :=
  Byte.eqb c x5f || in_range 48 57 c || in_range 97 122 c || in_range 65 90 c.

(** [CLEAN_FIELD_INVALID_RE.replace_all(_, "_")]: one underscore per character, so the
    continuation bytes of a character go with its first byte. *)
Fixpoint replace_invalid (s : bytes) : bytes :=
  match s with
  | [] => []
  | c :: s' => if field_char c then c :: replace_invalid s'
               else if is_cont c then replace_invalid s'
               else x5f :: replace_invalid s'
  end.

(** [CLEAN_FIELD_UNDERSCORE_RE.replace_all(_, "_")]. *)
Fixpoint collapse_underscores (s : bytes) : bytes :=
  match s with
  | [] => []
  | c :: s' => match collapse_underscores s' with
               | d :: r => if Byte.eqb c x5f && Byte.eqb d x5f then d :: r else c :: d :: r
               | [] => [c]
               end
  end.

(** [trim_start_matches] and [trim_matches] of a set of characters. *)
Fixpoint trim_start_bytes (p : byte → bool) (s : bytes) : bytes :=
  match s with
  | c :: s' => if p c then trim_start_bytes p s' else s
  | [] => []
  end.

Definition trim_matches (p : byte → bool) (s : bytes) : bytes :=
  rev (trim_start_bytes p (rev (trim_start_bytes p s))).

Section Storage.
Context (to_lowercase : bytes → bytes).
(** [config.get_transform_flatten_events()]. *)
Context (flatten_events : bool).

Definition clean_field_name (field : bytes) : bytes :=
  let clean := if parses_i32 field && negb flatten_events then str "item_" ++ field else field in
  let clean := collapse_underscores (replace_invalid (to_lowercase clean)) in
  trim_matches (Byte.eqb x5f) (trim_start_bytes (in_range 49 57) clean).

Definition storage_namespace (namespace : bytes) : bytes := clean_field_name namespace.

Definition with_storage_namespace (c : SourceNamespaceContract) : SourceNamespaceContract := {|
  sc_namespace := storage_namespace (sc_namespace c);
  sc_primary_key := sc_primary_key c;
  sc_cursor := sc_cursor c;
  sc_partition_key := sc_partition_key c;
  sc_write_policy := sc_write_policy c;
  sc_refresh_window := sc_refresh_window c;
  sc_description := sc_description c;
  sc_semantics := sc_semantics c
|}.

(** [collect] into a [HashMap]: the last entry of a key stays. *)
Definition collect_contracts (l : list SourceNamespaceContract) : gmap bytes SourceNamespaceContract :=
  foldl (λ m c, <[sc_namespace c := c]> m) ∅ l.

Definition replace_source_contracts_authoritative (stored : gmap bytes SourceNamespaceContract)
    (contracts : list SourceNamespaceContract)
    : result SourceContractError (bool * gmap bytes SourceNamespaceContract) :=
  validate_namespace_contracts contracts ;?
  let next := collect_contracts (with_storage_namespace <$> contracts) in
  Ok (if decide (stored = next) then (false, stored) else (true, next)).

(** ** The handler of a contracts update

    The pipeline's stored contracts, the registry of resolved CDC contracts and what the
    configuration and the plugin registry say: how the sink's manifest resolves (its name
    and support, when it declares them), the pipeline's key, its type and its CDC keys. *)

Record PipelineState : Type := {
  ps_source_contracts : gmap bytes SourceNamespaceContract;
  ps_registry : Registry
}.

Record ContractEnv : Type := {
  env_output_plugin : bytes;
  env_sink_manifest : result bytes (option (bytes * SinkWritePolicySupport));
  env_pipeline_key : result bytes PipelineKey;
  env_is_cdc : bool;
  env_default_keys : list bytes;
  env_named_keys : gmap bytes (list bytes)
}.

Context (env : ContractEnv) (display_map_error : CdcMapError → bytes).

Fixpoint check_policies (sink_name : bytes) (support : SinkWritePolicySupport)
    (l : list SourceNamespaceContract) : result SourceContractError unit :=
  match l with
  | [] => Ok tt
  | c :: l' =>
      map_err (λ e, SinkPolicyUnsupported (unsupported_display e))
        (validate_write_policy_for_sink c sink_name support) ;?
      check_policies sink_name support l'
  end.

Definition validate_active_sink_supports_contracts (contracts : list SourceNamespaceContract)
    : result SourceContractError unit :=
  match contracts with
  | [] => Ok tt
  | _ =>
      validate_namespace_contracts contracts ;?
      match env_sink_manifest env with
      | Err err => Err (SinkPolicyUnsupported
          (str "failed to resolve output sink manifest for write-policy validation: " ++ err))
      | Ok None => Err (SinkPolicyUnsupported
          (str "output sink '" ++ env_output_plugin env ++
           str "' does not declare sink_capability metadata required for write-policy validation"))
      | Ok (Some (name, support)) => check_policies name support contracts
      end
  end.

Definition on_registry {A} (m : st Registry CdcMapError A) : st PipelineState SourceContractError A :=
  λ s, let '(r, reg) := m (ps_registry s) in
       (map_err (λ e, CdcContractsError (display_map_error e)) r,
        {| ps_source_contracts := ps_source_contracts s; ps_registry := reg |}).

Definition persist_pipeline_metadata (m : gmap bytes SourceNamespaceContract)
    : st PipelineState SourceContractError unit :=
  λ s, (Ok tt, {| ps_source_contracts := m; ps_registry := ps_registry s |}).

Definition apply_runtime_source_namespace_contracts (contracts : list SourceNamespaceContract)
    : st PipelineState SourceContractError bool :=
  slift (validate_active_sink_supports_contracts contracts) ;!
  do? changed := sread (λ s, replace_source_contracts_authoritative (ps_source_contracts s) contracts) in
  let '(changed, next) := changed in
  (if (changed : bool)
   then (if env_is_cdc env
         then do? key := slift (map_err CdcContractsError (env_pipeline_key env)) in
              on_registry (reinstall_resolved_contracts key
                (resolve_business_keys (env_default_keys env) (env_named_keys env)
                   (cdc_source_key_columns next)))
         else sret tt) ;!
        persist_pipeline_metadata next
   else sret tt) ;!
  sret changed.
End Storage.

(** ** Policies at the sink *)

Definition resolved_write_policy_for_namespace (stored : gmap bytes SourceNamespaceContract)
    (namespace : bytes) (ctx_contract : option SourceNamespaceContract)
    : WritePolicy * option SourceNamespaceContract :=
  match ctx_contract with
  | Some c => (sc_write_policy c, Some c)
  | None => match stored !! namespace with
            | Some c => (sc_write_policy c, Some c)
            | None => (WpAppend, None)
            end
  end.

Definition ensure_source_contract_for_policy (stored : gmap bytes SourceNamespaceContract)
    (namespace : bytes) (policy : WritePolicy) (contract : option SourceNamespaceContract)
    : result bytes unit :=
  if decide (policy = WpAppend) then Ok tt
  else if bool_decide (is_Some contract) then Ok tt
  else if bool_decide (is_Some (stored !! namespace)) then Ok tt
  else Err (str "namespace '" ++ namespace ++
            str "' requires a source namespace contract for write policy " ++ policy_name policy).

(** ** What a valid contract is *)

Definition path_ok (p : FieldPath) : Prop :=
  fp_segments p ≠ [] ∧ Forall (λ s, trim s ≠ []) (fp_segments p).

Definition contract_ok (c : SourceNamespaceContract) : Prop :=
  trim (sc_namespace c) ≠ [] ∧
  Forall path_ok (sc_primary_key c ++ sc_partition_key c ++ option_list (sc_cursor c)) ∧
  (sc_write_policy c = WpMergeByKey → sc_primary_key c ≠ []) ∧
  (sc_write_policy c = WpReplacePartition → sc_partition_key c ≠ []).

Lemma blank_text_false s : blank_text s = false ↔ trim s ≠ [].
Proof. unfold blank_text. by rewrite bool_decide_eq_false. Qed.

Lemma FieldPath_validate_Ok p : FieldPath_validate p = Ok tt ↔ path_ok p.
Proof.
  assert (∀ l, check_segments l = Ok tt ↔ Forall (λ s, trim s ≠ []) l) as Hseg.
  { induction l as [|s l IH]; simpl; [done|]. rewrite Forall_cons, <- blank_text_false, <- IH.
    destruct (blank_text s); [|tauto]. split; [done|by intros []]. }
  unfold FieldPath_validate, path_ok. rewrite <- Hseg. destruct (fp_segments p); [|naive_solver].
  split; [done|by intros []].
Qed.

Lemma validate_paths_Ok l : validate_paths l = Ok tt ↔ Forall path_ok l.
Proof.
  induction l as [|p l IH]; simpl; [done|]. rewrite Forall_cons, <- IH, <- FieldPath_validate_Ok.
  destruct (FieldPath_validate p) as [[]|e]; simpl; [tauto|]. split; [done|by intros []].
Qed.

Lemma contract_validate_Ok c : contract_validate c = Ok tt ↔ contract_ok c.
Proof.
  unfold contract_validate, contract_ok. rewrite <- validate_paths_Ok, <- blank_text_false.
  destruct (blank_text (sc_namespace c)); [split; [done|by intros []]|].
  destruct (validate_paths _) as [[]|e]; simpl; [|split; [done|by intros (_ & ? & _)]].
  destruct (sc_write_policy c), (sc_primary_key c), (sc_partition_key c); split; naive_solver.
Qed.

Lemma validate_contracts_from_Ok seen l :
  validate_contracts_from seen l = Ok tt ↔
  Forall contract_ok l ∧ NoDup (sc_namespace <$> l) ∧ ∀ c, c ∈ l → sc_namespace c ∉ seen.
Proof.
  revert seen; induction l as [|c l IH]; intros seen; simpl.
  { split; [|done]. intros _. split_and!; [done|constructor|by intros c ?%elem_of_nil]. }
  rewrite Forall_cons, NoDup_cons, <- contract_validate_Ok.
  destruct (contract_validate c) as [[]|e]; simpl; [|split; [done|by intros ([? _] & _)]].
  case_decide as Hs.
  { split; [done|]. intros (_ & _ & H). exfalso. apply (H c); [by left|done]. }
  rewrite IH. setoid_rewrite elem_of_cons. split.
  - intros (H1 & H2 & H3). split_and!; [done|done| |done|].
    + intros (c' & Heq & Hc')%list_elem_of_fmap. apply (H3 c' Hc'). rewrite <- Heq. set_solver.
    + intros c' [->|Hc']; [done|]. specialize (H3 c' Hc'). set_solver.
  - intros ((_ & H1) & (H2 & H3) & H4). split_and!; [done..|]. intros c' Hc' [Heq|Hin]%elem_of_union; [|by apply (H4 c'); [right|]].
    apply elem_of_singleton in Heq. apply H2. rewrite <- Heq. apply list_elem_of_fmap. by exists c'.
Qed.

(** A set of contracts is accepted exactly when each is well formed and no namespace is
    declared twice. *)
Lemma validate_namespace_contracts_Ok l :
  validate_namespace_contracts l = Ok tt ↔ Forall contract_ok l ∧ NoDup (sc_namespace <$> l).
Proof. unfold validate_namespace_contracts. rewrite validate_contracts_from_Ok. set_solver. Qed.

Lemma check_policies_Ok name support l :
  check_policies name support l = Ok tt ↔ Forall (λ c, policy_unsupported (sc_write_policy c) support = false) l.
Proof.
  induction l as [|c l IH]; simpl; [done|]. rewrite Forall_cons, <- IH. unfold validate_write_policy_for_sink.
  destruct (policy_unsupported _ _); simpl; naive_solver.
Qed.

(** ** A contracts update *)

Section Update.
Context (to_lowercase : bytes → bytes) (flatten_events : bool) (env : ContractEnv)
  (display_map_error : CdcMapError → bytes).

Notation apply_update := (apply_runtime_source_namespace_contracts to_lowercase flatten_events env display_map_error).
Notation stored_set cs := (collect_contracts (with_storage_namespace to_lowercase flatten_events <$> cs)).

Lemma reinstall_Err key resolved r e r' :
  reinstall_resolved_contracts key resolved r = (Err e, r') → r' = r.
Proof.
  unfold reinstall_resolved_contracts, sbind, sread, serr, pipeline_cdc_contracts, install_pipeline_cdc_contracts.
  destruct (CdcContracts_is_empty resolved); [by intros [= _ <-]|]. destruct (reg_poisoned r) eqn:Hp; [by intros [= _ <-]|].
  done.
Qed.

Lemma sink_supports cs :
  validate_active_sink_supports_contracts env cs = Ok tt → cs ≠ [] →
  ∃ name support, env_sink_manifest env = Ok (Some (name, support)) ∧
    Forall (λ c, policy_unsupported (sc_write_policy c) support = false) cs.
Proof.
  intros Hv Hne. unfold validate_active_sink_supports_contracts in Hv. destruct cs as [|c cs']; [done|]. apply rbind_Ok in Hv as (? & _ & Hv).
  destruct (env_sink_manifest env) as [[[name support]|]|]; [|done..]. apply check_policies_Ok in Hv. eauto.
Qed.

Lemma update_again cs s :
  validate_active_sink_supports_contracts env cs = Ok tt → validate_namespace_contracts cs = Ok tt →
  ps_source_contracts s = stored_set cs → apply_update cs s = (Ok false, s).
Proof.
  intros Hv Hn Hs. unfold apply_runtime_source_namespace_contracts, slift, sread, sbind. rewrite Hv.
  unfold replace_source_contracts_authoritative. rewrite Hn. cbn [rbind]. by rewrite decide_True.
Qed.

End Update.

(** ** Storage names *)

Section Names.
Context (to_lowercase : bytes → bytes) (flatten_events : bool).

(** [str::to_lowercase] leaves no ASCII capital. *)
Definition lowers : Prop := ∀ s c, c ∈ to_lowercase s → in_range 65 90 c = false.

Definition name_char (c : byte) : bool := Byte.eqb c x5f || in_range 48 57 c || in_range 97 122 c.

Lemma replace_invalid_chars s :
  (∀ c, c ∈ s → in_range 65 90 c = false) → Forall (λ c, name_char c = true) (replace_invalid s).
Proof.
  induction s as [|a s IH]; intros Hs; simpl; [constructor|].
  assert (Forall (λ c, name_char c = true) (replace_invalid s)) as Hr by (apply IH; intros; apply Hs; by right).
  destruct (field_char a) eqn:Ha; [|destruct (is_cont a); [done|by constructor]]. constructor; [|done].
  unfold field_char in Ha. by rewrite (Hs a (list_elem_of_here _ _)), orb_false_r in Ha.
Qed.

Lemma collapse_sub s c : c ∈ collapse_underscores s → c ∈ s.
Proof.
  revert c; induction s as [|a s IH]; intros c; simpl; [done|].
  destruct (collapse_underscores s) as [|d r]; [|destruct (_ && _)]; rewrite ?elem_of_cons; intros H.
  - destruct H as [->|H]; [by left|by apply elem_of_nil in H].
  - right. apply IH. by rewrite elem_of_cons.
  - destruct H as [->|H]; [by left|]. right. apply IH. by rewrite elem_of_cons.
Qed.

Lemma trim_start_suffix p s : ∃ l, s = l ++ trim_start_bytes p s ∧
  match trim_start_bytes p s with c :: _ => p c = false | [] => True end.
Proof.
  induction s as [|a s (l & IH1 & IH2)]; simpl; [by exists []|].
  destruct (p a) eqn:Hp; [|by exists []]. exists (a :: l). simpl. by rewrite <- IH1.
Qed.

Lemma trim_matches_spec p s : ∃ l r, s = l ++ trim_matches p s ++ r ∧
  (∀ c, head (trim_matches p s) = Some c → p c = false) ∧
  (∀ c, last (trim_matches p s) = Some c → p c = false).
Proof.
  unfold trim_matches. destruct (trim_start_suffix p s) as (l & H1 & H2). set (t := trim_start_bytes p s) in *.
  destruct (trim_start_suffix p (rev t)) as (r & H3 & H4). set (u := trim_start_bytes p (rev t)) in *.
  assert (t = rev u ++ rev r) as Ht by (by rewrite <- rev_app_distr, <- H3, rev_involutive).
  exists l, (rev r). split_and!.
  - by rewrite <- Ht.
  - intros c Hc. destruct (rev u) as [|d v] eqn:Hu; [done|]. simpl in Hc. injection Hc as ->.
    rewrite Ht in H2. simpl in H2. done.
  - intros c Hc. destruct u as [|d v]; [done|]. simpl in Hc. rewrite last_snoc in Hc. by injection Hc as ->.
Qed.

(** A storage name has lower-case letters, digits and underscores only, and no underscore at
    either end. *)
Lemma storage_namespace_clean ns :
  lowers →
  Forall (λ c, name_char c = true) (storage_namespace to_lowercase flatten_events ns) ∧
  head (storage_namespace to_lowercase flatten_events ns) ≠ Some x5f ∧
  last (storage_namespace to_lowercase flatten_events ns) ≠ Some x5f.
Proof.
  intros Hl. unfold storage_namespace, clean_field_name.
  generalize (if parses_i32 ns && negb flatten_events then str "item_" ++ ns else ns). intros f.
  set (t := trim_start_bytes _ _).
  destruct (trim_matches_spec (Byte.eqb x5f) t) as (l & r & H1 & H2 & H3). split_and!.
  - apply Forall_forall. intros c Hc.
    assert (c ∈ replace_invalid (to_lowercase f)) as Hin.
    { apply collapse_sub. destruct (trim_start_suffix (in_range 49 57) (collapse_underscores (replace_invalid (to_lowercase f))))
        as (l' & Hl' & _). rewrite Hl'. fold t. apply elem_of_app. right. rewrite H1. rewrite !elem_of_app. auto. }
    assert (Forall (λ c, name_char c = true) (replace_invalid (to_lowercase f))) as Hall
      by (apply replace_invalid_chars, Hl).
    rewrite Forall_forall in Hall. by apply Hall.
  - intros H. by apply H2 in H.
  - intros H. by apply H3 in H.
Qed.

(** Namespaces are compared before they are cleaned: two valid contracts whose names
    differ but have one storage name are both accepted, and only the second is stored. *)
Theorem colliding_contract_dropped c1 c2 stored :
  contract_ok c1 → contract_ok c2 → sc_namespace c1 ≠ sc_namespace c2 →
  storage_namespace to_lowercase flatten_events (sc_namespace c1) =
    storage_namespace to_lowercase flatten_events (sc_namespace c2) →
  ∃ changed, replace_source_contracts_authoritative to_lowercase flatten_events stored [c1; c2] =
    Ok (changed, {[ storage_namespace to_lowercase flatten_events (sc_namespace c2) :=
                    with_storage_namespace to_lowercase flatten_events c2 ]}).
Proof.
  intros H1 H2 Hne Heq. unfold replace_source_contracts_authoritative.
  assert (validate_namespace_contracts [c1; c2] = Ok tt) as ->.
  { apply validate_namespace_contracts_Ok. split; [by rewrite !Forall_cons|]. csimpl.
    apply NoDup_cons. split; [|apply NoDup_singleton]. by rewrite list_elem_of_singleton. }
  cbn [rbind]. unfold collect_contracts. simpl. rewrite Heq, insert_insert_eq, insert_empty.
  case_decide as Hd; [|by eexists]. rewrite Hd. by eexists.
Qed.
End Names.

(** ** Concrete contracts *)

Module ContractExample.

Definition contract (ns : bytes) (policy : WritePolicy) : SourceNamespaceContract := {|
  sc_namespace := ns; sc_primary_key := [single (str "id")]; sc_cursor := None; sc_partition_key := [];
  sc_write_policy := policy; sc_refresh_window := None; sc_description := []; sc_semantics := None
|}.

Lemma contract_is_ok ns policy :
  contract_validate (contract ns policy) = Ok tt → contract_ok (contract ns policy).
Proof. apply contract_validate_Ok. Qed.

Lemma colliding_contract_dropped_witness :
  ∃ changed, replace_source_contracts_authoritative to_ascii_lowercase false (∅ : gmap bytes SourceNamespaceContract)
      [contract (str "shop.orders") WpMergeByKey; contract (str "shop-orders") WpAppend] =
    Ok (changed, {[ str "shop_orders" :=
      with_storage_namespace to_ascii_lowercase false (contract (str "shop-orders") WpAppend) ]}).
Proof.
  apply (colliding_contract_dropped to_ascii_lowercase false
    (contract (str "shop.orders") WpMergeByKey) (contract (str "shop-orders") WpAppend)).
  - apply contract_is_ok. vm_compute. reflexivity.
  - apply contract_is_ok. vm_compute. reflexivity.
  - vm_compute. discriminate.
  - vm_compute. reflexivity.
Defined.

(** Cleaning twice is not cleaning once. *)
Example clean_twice :
  clean_field_name to_ascii_lowercase false (str "1_2a") = str "2a" ∧
  clean_field_name to_ascii_lowercase false (str "2a") = str "a" ∧
  clean_field_name to_ascii_lowercase false (str "42") = str "item_42" ∧
  clean_field_name to_ascii_lowercase false (str "My-Stream/v2") = str "my_stream_v2".
Proof. vm_compute. done. Qed.
End ContractExample.
