(* ===== verification/WalSlice.v ===== *)
(** * WalSlice: references to slices of the log

    Models src/wal_slice_ref.rs (the set of slices an Iceberg snapshot contains, as a
    property of the snapshot), src/sink_apply_identity.rs (canonical identity of the log
    parts a sink applies) and the transactions of src/buffer/compaction_transaction.rs with
    their deterministic identifiers. *)

From S2P Require Import Prelude Bytes Text Codec Lease SegmentFile SourceContract.

(** ** Slice references of a snapshot *)

Definition ANCESTRY_WALK_CEILING : nat := 10000.

Record WalSliceRef : Type := { ws_segment_id : SegmentId; ws_start : N }.

#[global] Instance WalSliceRef_eq_dec : EqDecision WalSliceRef.
Proof. solve_decision. Defined.
#[global] Instance WalSliceRef_countable : Countable WalSliceRef.
Proof.
  apply (inj_countable' (λ r, (ws_segment_id r, ws_start r))
    (λ '(a, b), {| ws_segment_id := a; ws_start := b |})). by intros [].
Defined.

Inductive WalSliceRefError : Type :=
| Malformed (part : bytes)
| InvalidSegment (segment : bytes)
| AncestryTooLong.

#[global] Instance WalSliceRefError_eq_dec : EqDecision WalSliceRefError.
Proof. solve_decision. Defined.

Definition try_from_parts (segment_id : bytes) (start : N) : result WalSliceRefError WalSliceRef :=
  let? id := map_err (λ _, InvalidSegment segment_id) (SegmentId_new segment_id) in
  Ok {| ws_segment_id := id; ws_start := start |}.

Definition WalSliceRef_display (r : WalSliceRef) : bytes :=
  segment_id_str (ws_segment_id r) ++ str "@" ++ display_N (ws_start r).

(** The derived order: the segment, then the start. *)
Definition wsref_leb (x y : WalSliceRef) : bool :=
  let a := segment_id_str (ws_segment_id x) in
  let b := segment_id_str (ws_segment_id y) in
  if decide (a = b) then (ws_start x <=? ws_start y)%N else bytes_leb a b.

Definition wsref_le (x y : WalSliceRef) : Prop := wsref_leb x y = true.

#[global] Instance wsref_le_dec : RelDecision wsref_le.
Proof. intros x y. unfold wsref_le. apply _. Defined.

(** Iteration of a [BTreeSet]. *)
Definition in_order (refs : gset WalSliceRef) : list WalSliceRef := merge_sort wsref_le (elements refs).

Definition encode_wal_slices (refs : gset WalSliceRef) : bytes :=
  join_with (str ",") (WalSliceRef_display <$> in_order refs).

Definition decode_part (part : bytes) : result WalSliceRefError WalSliceRef :=
  match rsplit_once x40 part with
  | None => Err (Malformed part)
  | Some (seg, start) =>
      if decide (seg = []) then Err (Malformed part)
      else match parse_N U64_MAX start with
           | None => Err (Malformed part)
           | Some start => try_from_parts seg start
           end
  end.

Definition decode_wal_slices (value : bytes) : result WalSliceRefError (gset WalSliceRef) :=
  if decide (value = []) then Ok ∅
  else let? refs := rtraverse decode_part (filter (λ p, p ≠ []) (split x2c value)) in
       Ok (list_to_set refs).

(** The walk over the ancestors of a snapshot; [lookup] gives the parent and the property
    of a snapshot that still exists. *)
Fixpoint walk_from (fuel : nat) (lookup : Z → option (option Z * option bytes)) (next : option Z)
    (out : gset WalSliceRef) : result WalSliceRefError (gset WalSliceRef) :=
  match fuel with
  | O => Err AncestryTooLong
  | S f =>
      match next with
      | None => Ok out
      | Some id =>
          match lookup id with
          | None => Ok out
          | Some (parent, None) => walk_from f lookup parent out
          | Some (parent, Some value) =>
              let? refs := decode_wal_slices value in
              walk_from f lookup parent (out ∪ refs)
          end
      end
  end.

Definition walk_ancestry_wal_slices (start : Z) (lookup : Z → option (option Z * option bytes))
    : result WalSliceRefError (gset WalSliceRef) :=
  walk_from ANCESTRY_WALK_CEILING lookup (Some start) ∅.

(** ** Log parts and their identity *)

Inductive SegmentSourceDescriptor : Type :=
| SdDisk (path : bytes)
| SdS3 (bucket key : bytes)
| SdWal (uri : bytes).

#[global] Instance SegmentSourceDescriptor_eq_dec : EqDecision SegmentSourceDescriptor.
Proof. solve_decision. Defined.

(** Paths are UTF-8 text, on which [to_string_lossy] is the identity. *)
Definition stable_id (d : SegmentSourceDescriptor) : bytes :=
  match d with
  | SdDisk path => path
  | SdS3 bucket key => str "s3://" ++ bucket ++ str "/" ++ key
  | SdWal uri => uri
  end.

Inductive SinkWriteSemantics : Type := SwExactOnce | SwIdempotentAtLeastOnce | SwAtLeastOnce.

Inductive CompactionTransactionState : Type := TxPending | TxSent | TxAcked.

#[global] Instance SinkWriteSemantics_eq_dec : EqDecision SinkWriteSemantics.
Proof. solve_decision. Defined.
#[global] Instance CompactionTransactionState_eq_dec : EqDecision CompactionTransactionState.
Proof. solve_decision. Defined.

Record WalPartRef : Type := {
  wr_segment_id : bytes;
  wr_source : SegmentSourceDescriptor;
  wr_start : N;
  wr_len : N;
  wr_key : PartitionKey;
  wr_cdc_meta_hash : option bytes;
  wr_ordinal : option N
}.

#[global] Instance WalPartRef_eq_dec : EqDecision WalPartRef.
Proof. solve_decision. Defined.

Record RuntimeWalPartRef : Type := {
  rr_segment_id : bytes;
  rr_source : bytes;
  rr_start : N;
  rr_len : N;
  rr_sink_ref : bytes;
  rr_namespace : bytes;
  rr_partition : bytes;
  rr_time : option Z;
  rr_schema_fingerprint : bytes;
  rr_cdc_meta_hash : option bytes
}.

#[global] Instance RuntimeWalPartRef_eq_dec : EqDecision RuntimeWalPartRef.
Proof. solve_decision. Defined.

Definition to_runtime_ref (r : WalPartRef) : RuntimeWalPartRef := {|
  rr_segment_id := wr_segment_id r;
  rr_source := stable_id (wr_source r);
  rr_start := wr_start r;
  rr_len := wr_len r;
  rr_sink_ref := pk_sink_ref (wr_key r);
  rr_namespace := pk_namespace (wr_key r);
  rr_partition := pk_partition (wr_key r);
  rr_time := pk_time (wr_key r);
  rr_schema_fingerprint := pk_schema_fingerprint (wr_key r);
  rr_cdc_meta_hash := wr_cdc_meta_hash r
|}.

(** The trait: the fields that make one part distinct. *)
Class WalRefIdentity (T : Type) : Type := {
  wi_segment_id : T → bytes;
  wi_source : T → bytes;
  wi_start : T → N;
  wi_len : T → N;
  wi_sink_ref : T → bytes;
  wi_namespace : T → bytes;
  wi_partition : T → bytes;
  wi_time : T → option Z;
  wi_schema_fingerprint : T → bytes;
  wi_cdc_meta_hash : T → option bytes
}.

#[global] Instance RuntimeWalPartRef_identity : WalRefIdentity RuntimeWalPartRef := {|
  wi_segment_id := rr_segment_id; wi_source := rr_source; wi_start := rr_start; wi_len := rr_len;
  wi_sink_ref := rr_sink_ref; wi_namespace := rr_namespace; wi_partition := rr_partition;
  wi_time := rr_time; wi_schema_fingerprint := rr_schema_fingerprint;
  wi_cdc_meta_hash := rr_cdc_meta_hash
|}.

#[global] Instance WalPartRef_identity : WalRefIdentity WalPartRef := {|
  wi_segment_id := wr_segment_id; wi_source r := stable_id (wr_source r);
  wi_start := wr_start; wi_len := wr_len;
  wi_sink_ref r := pk_sink_ref (wr_key r); wi_namespace r := pk_namespace (wr_key r);
  wi_partition r := pk_partition (wr_key r); wi_time r := pk_time (wr_key r);
  wi_schema_fingerprint r := pk_schema_fingerprint (wr_key r);
  wi_cdc_meta_hash := wr_cdc_meta_hash
|}.

(** [i64::to_le_bytes]: two's complement. *)
Definition i64_le (z : Z) : bytes := u64_le (Z.to_N (z mod 2 ^ 64)).

Definition wal_ref_identity_bytes {T} {WI : WalRefIdentity T} (r : T) : bytes :=
  wi_segment_id r ++ [x00] ++ wi_source r ++ [x00] ++
  u64_le (wi_start r) ++ u64_le (wi_len r) ++
  wi_sink_ref r ++ [x00] ++ wi_namespace r ++ [x00] ++ wi_partition r ++ [x00] ++
  i64_le (default 0%Z (wi_time r)) ++ wi_schema_fingerprint r ++
  default [] (wi_cdc_meta_hash r).

Definition canonical_sorted_wal_ref_identity_bytes {T} {WI : WalRefIdentity T} (refs : list T)
    : list bytes :=
  merge_sort bytes_le (wal_ref_identity_bytes <$> refs).

(** What the hasher is fed after its prefix. *)
Definition hashed_identities {T} {WI : WalRefIdentity T} (refs : list T) : bytes :=
  concat ((λ identity, identity ++ [xff]) <$> canonical_sorted_wal_ref_identity_bytes refs).

Definition canonical_wal_refs_fingerprint {DG : Digest} {T} {WI : WalRefIdentity T} (refs : list T)
    : bytes :=
  sha256_hex (str "grouped-wal-refs-v2" ++ hashed_identities refs).

Definition deterministic_compaction_id {DG : Digest} (sink_ref namespace schema_fingerprint : bytes)
    (write_policy : WritePolicy) (refs : list WalPartRef) : bytes :=
  sha256_hex (str "grouped-wal-compaction-v1" ++ sink_ref ++ [x00] ++ namespace ++ [x00] ++
              schema_fingerprint ++ [x00] ++ policy_name write_policy ++ hashed_identities refs).

(** ** Apply envelopes *)

Definition SINK_APPLY_ENVELOPE_V2 : N := 2.

(** [CanonicalWalPartRef] has the fields of the runtime reference. *)
Record CanonicalWalPartRef : Type := {
  cr_segment_id : bytes;
  cr_source : bytes;
  cr_start : N;
  cr_len : N;
  cr_sink_ref : bytes;
  cr_namespace : bytes;
  cr_partition : bytes;
  cr_time : option Z;
  cr_schema_fingerprint : bytes;
  cr_cdc_meta_hash : option bytes
}.

Definition canonical_from (r : RuntimeWalPartRef) : CanonicalWalPartRef := {|
  cr_segment_id := rr_segment_id r; cr_source := rr_source r; cr_start := rr_start r;
  cr_len := rr_len r; cr_sink_ref := rr_sink_ref r; cr_namespace := rr_namespace r;
  cr_partition := rr_partition r; cr_time := rr_time r;
  cr_schema_fingerprint := rr_schema_fingerprint r; cr_cdc_meta_hash := rr_cdc_meta_hash r
|}.

#[global] Instance CanonicalWalPartRef_identity : WalRefIdentity CanonicalWalPartRef := {|
  wi_segment_id := cr_segment_id; wi_source := cr_source; wi_start := cr_start; wi_len := cr_len;
  wi_sink_ref := cr_sink_ref; wi_namespace := cr_namespace; wi_partition := cr_partition;
  wi_time := cr_time; wi_schema_fingerprint := cr_schema_fingerprint;
  wi_cdc_meta_hash := cr_cdc_meta_hash
|}.

Inductive SinkApplyGroupKind : Type := GroupAppend | GroupCdc.

Record SinkApplyGroupingIdentity : Type := {
  ag_sink_ref : bytes;
  ag_namespace : bytes;
  ag_partition : bytes;
  ag_time : option Z;
  ag_kind : SinkApplyGroupKind
}.

Definition grouping_from_wal_refs (refs : list RuntimeWalPartRef) (is_cdc : bool)
    : SinkApplyGroupingIdentity :=
  let first := head refs in {|
  ag_sink_ref := default [] (rr_sink_ref <$> first);
  ag_namespace := default [] (rr_namespace <$> first);
  ag_partition := default [] (rr_partition <$> first);
  ag_time := first ≫= rr_time;
  ag_kind := if is_cdc then GroupCdc else GroupAppend
|}.

Record SinkApplyEnvelopeV2 : Type := {
  ae_version : N;
  ae_compaction_id : bytes;
  ae_idempotency_key : bytes;
  ae_wal_refs : list CanonicalWalPartRef;
  ae_wal_refs_fingerprint : bytes;
  ae_grouping : SinkApplyGroupingIdentity;
  ae_write_policy : WritePolicy;
  ae_write_semantics : SinkWriteSemantics;
  ae_schema_fingerprint : option bytes;
  ae_schema_version : option N;
  ae_source_contract : option SourceNamespaceContract
}.

(** [sort_by_key]: stable. *)
Fixpoint insert_by_identity (r : CanonicalWalPartRef) (l : list CanonicalWalPartRef)
    : list CanonicalWalPartRef :=
  match l with
  | [] => [r]
  | x :: l' => if bytes_leb (wal_ref_identity_bytes r) (wal_ref_identity_bytes x) then r :: l
               else x :: insert_by_identity r l'
  end.

Definition sort_by_identity (l : list CanonicalWalPartRef) : list CanonicalWalPartRef :=
  foldr insert_by_identity [] l.

Definition SinkApplyEnvelopeV2_new {DG : Digest} (compaction_id idempotency_key : bytes)
    (refs : list RuntimeWalPartRef) (is_cdc : bool) (write_policy : WritePolicy)
    (write_semantics : SinkWriteSemantics) (schema_fingerprint : option bytes)
    (schema_version : option N) (source_contract : option SourceNamespaceContract)
    : SinkApplyEnvelopeV2 := {|
  ae_version := SINK_APPLY_ENVELOPE_V2;
  ae_compaction_id := compaction_id;
  ae_idempotency_key := idempotency_key;
  ae_wal_refs := sort_by_identity (canonical_from <$> refs);
  ae_wal_refs_fingerprint := canonical_wal_refs_fingerprint refs;
  ae_grouping := grouping_from_wal_refs refs is_cdc;
  ae_write_policy := write_policy;
  ae_write_semantics := write_semantics;
  ae_schema_fingerprint := schema_fingerprint;
  ae_schema_version := schema_version;
  ae_source_contract := source_contract
|}.

Definition has_cdc_metadata (e : SinkApplyEnvelopeV2) : bool :=
  existsb (λ r, bool_decide (is_Some (cr_cdc_meta_hash r))) (ae_wal_refs e).

(** ** Transactions *)

Record CompactionTransaction : Type := {
  tx_id : bytes;
  tx_sink_ref : bytes;
  tx_namespace : bytes;
  tx_schema_fingerprint : bytes;
  tx_write_policy : WritePolicy;
  tx_semantics : SinkWriteSemantics;
  tx_refs : list WalPartRef;
  tx_target_filename : bytes;
  tx_created_at_secs : N;
  tx_updated_at_secs : N;
  tx_attempts : N;
  tx_state : CompactionTransactionState
}.

#[global] Instance CompactionTransaction_eq_dec : EqDecision CompactionTransaction.
Proof. solve_decision. Defined.

Definition CompactionTransaction_new {DG : Digest} (now : N) (sink_ref namespace fingerprint : bytes)
    (write_policy : WritePolicy) (semantics : SinkWriteSemantics) (refs : list WalPartRef)
    (target_filename : bytes) : CompactionTransaction := {|
  tx_id := deterministic_compaction_id sink_ref namespace fingerprint write_policy refs;
  tx_sink_ref := sink_ref;
  tx_namespace := namespace;
  tx_schema_fingerprint := fingerprint;
  tx_write_policy := write_policy;
  tx_semantics := semantics;
  tx_refs := refs;
  tx_target_filename := target_filename;
  tx_created_at_secs := now;
  tx_updated_at_secs := now;
  tx_attempts := 0;
  tx_state := TxPending
|}.

Definition with_state_at (now attempts : N) (state : CompactionTransactionState)
    (t : CompactionTransaction) : CompactionTransaction := {|
  tx_id := tx_id t; tx_sink_ref := tx_sink_ref t; tx_namespace := tx_namespace t;
  tx_schema_fingerprint := tx_schema_fingerprint t; tx_write_policy := tx_write_policy t;
  tx_semantics := tx_semantics t; tx_refs := tx_refs t; tx_target_filename := tx_target_filename t;
  tx_created_at_secs := tx_created_at_secs t;
  tx_updated_at_secs := now; tx_attempts := attempts; tx_state := state
|}.

Definition with_state (now : N) (state : CompactionTransactionState) (t : CompactionTransaction) :=
  with_state_at now (tx_attempts t) state t.

Definition mark_sent (now : N) (t : CompactionTransaction) : CompactionTransaction :=
  with_state_at now (saturating_add U32_MAX (tx_attempts t) 1) TxSent t.

Definition mark_acked (now : N) (t : CompactionTransaction) : CompactionTransaction :=
  with_state_at now (tx_attempts t) TxAcked t.

(** ** Slice sets round trip *)

Lemma split_join_with c l :
  l ≠ [] → Forall (λ p, c ∉ p) l → split c (join_with [c] l) = l.
Proof.
  intros Hne H. induction H as [|p l Hp Hl IH]; [done|]. destruct l as [|q l].
  - by apply split_single.
  - change (join_with [c] (p :: q :: l)) with (p ++ c :: join_with [c] (q :: l)).
    rewrite split_app by done. by rewrite IH.
Qed.

Definition ref_valid (r : WalSliceRef) : Prop :=
  validate_path_component (segment_id_str (ws_segment_id r)) = Ok tt ∧ (ws_start r ≤ U64_MAX)%N.

Lemma display_no_comma r : ref_valid r → x2c ∉ WalSliceRef_display r.
Proof.
  intros [Hv%validate_Ok _]. unfold WalSliceRef_display. rewrite !elem_of_app. intros [H|[H|H]].
  - apply Hv in H; [done|]. unfold reserved_chars. set_solver.
  - change (str "@") with [x40] in H. set_solver.
  - by apply (display_N_not_in (ws_start r) x2c) in H.
Qed.

Lemma decode_display r : ref_valid r → decode_part (WalSliceRef_display r) = Ok r.
Proof.
  intros [Hv Hs]. unfold decode_part, WalSliceRef_display. change (str "@") with [x40]. simpl.
  rewrite rsplit_once_app by by apply display_N_not_in.
  rewrite decide_False by by eapply validate_nonempty.
  rewrite parse_display_N by done. unfold try_from_parts, SegmentId_new. rewrite Hv. simpl.
  by destruct r as [[]].
Qed.

(** The set of slices written into a snapshot is the set read back from it. *)
Theorem wal_slices_roundtrip (refs : gset WalSliceRef) :
  (∀ r, r ∈ refs → ref_valid r) → decode_wal_slices (encode_wal_slices refs) = Ok refs.
Proof.
  intros Hv. unfold encode_wal_slices, decode_wal_slices.
  set (l := in_order refs). assert (∀ r, r ∈ l ↔ r ∈ refs) as Hl.
  { intros r. unfold l, in_order. by rewrite merge_sort_Permutation, elem_of_elements. }
  destruct (decide (l = [])) as [Hnil|Hne].
  { rewrite Hnil. simpl. f_equal. apply set_eq. intros r. rewrite <- Hl, Hnil. set_solver. }
  assert (WalSliceRef_display <$> l ≠ []) as Hne' by (by destruct l).
  assert (Forall (λ p, p ≠ []) (WalSliceRef_display <$> l)) as Hparts.
  { apply Forall_fmap, Forall_forall. intros r Hr%Hl%Hv. unfold compose, WalSliceRef_display.
    destruct Hr as [Hr%validate_nonempty _]. by destruct (segment_id_str _). }
  rewrite decide_False.
  2:{ destruct (WalSliceRef_display <$> l) as [|p [|q ps]]; [done|..]; inversion Hparts; subst;
      cbn [join_with]; [done|by destruct p]. }
  change (str ",") with [x2c]. rewrite split_join_with; [|done|].
  2:{ apply Forall_fmap, Forall_forall. intros r Hr%Hl%Hv. by apply display_no_comma. }
  rewrite filter_all by done.
  assert (rtraverse decode_part (WalSliceRef_display <$> l) = Ok l) as ->.
  { assert (∀ r, r ∈ l → ref_valid r) as Hlv by (intros r Hr; by apply Hv, Hl). clear -Hlv.
    induction l as [|r l IH]; [done|]. csimpl. rewrite decode_display by (apply Hlv; by left). simpl.
    rewrite IH; [done|]. intros x Hx. apply Hlv. by right. }
  simpl. f_equal. apply set_eq. intros r. rewrite elem_of_list_to_set. apply Hl.
Qed.

(** ** The ancestry walk *)

(** The properties of the snapshots from [next] to the oldest that still exists. *)
Inductive ancestry (lookup : Z → option (option Z * option bytes)) : option Z → list (option bytes) → Prop :=
| anc_root : ancestry lookup None []
| anc_expired id : lookup id = None → ancestry lookup (Some id) []
| anc_step id parent prop chain :
    lookup id = Some (parent, prop) → ancestry lookup parent chain →
    ancestry lookup (Some id) (prop :: chain).

Definition prop_slices (out : gset WalSliceRef) (prop : option bytes)
    : result WalSliceRefError (gset WalSliceRef) :=
  match prop with
  | None => Ok out
  | Some value => let? refs := decode_wal_slices value in Ok (out ∪ refs)
  end.

Lemma walk_from_chain lookup next chain fuel out :
  ancestry lookup next chain →
  walk_from fuel lookup next out =
  (let? out := rfold prop_slices out (take fuel chain) in
   if length chain <? fuel then Ok out else Err AncestryTooLong).
Proof.
  intros H. revert fuel out. induction H as [|id Hid|id parent prop chain Hid _ IH]; intros [|f] out; simpl; try done.
  - by rewrite Hid.
  - rewrite Hid. destruct prop as [value|]; simpl; [|by rewrite IH].
    destruct (decode_wal_slices value) as [refs|e]; simpl; [|done]. by rewrite IH.
Qed.

(** C30: the walk over a snapshot's ancestors returns the union of the slices their
    properties name, fails on the first property that does not decode, and fails when
    there are as many ancestors as the ceiling or more. *)
Theorem walk_ancestry_exact lookup start chain :
  ancestry lookup (Some start) chain →
  walk_ancestry_wal_slices start lookup =
  (let? out := rfold prop_slices ∅ (take ANCESTRY_WALK_CEILING chain) in
   if length chain <? ANCESTRY_WALK_CEILING then Ok out else Err AncestryTooLong).
Proof. apply walk_from_chain. Qed.

(** ** What the identity of a part determines *)

Section Identity.
Context {T U : Type} {WT : WalRefIdentity T} {WU : WalRefIdentity U}.

Lemma nul_app_inj (a b r s : bytes) :
  x00 ∉ a → x00 ∉ b → a ++ [x00] ++ r = b ++ [x00] ++ s → a = b ∧ r = s.
Proof.
  intros Ha Hb Heq. pose proof (split_once_app x00 a r Ha) as H1.
  pose proof (split_once_app x00 b s Hb) as H2. simpl in Heq. rewrite Heq in H1. rewrite H1 in H2. by simplify_eq.
Qed.

Lemma u64_app_inj x y (r s : bytes) :
  (x ≤ U64_MAX)%N → (y ≤ U64_MAX)%N → u64_le x ++ r = u64_le y ++ s → x = y ∧ r = s.
Proof.
  intros Hx Hy Heq. apply app_inj_1 in Heq as [H1 H2]; [|by rewrite !length_u64_le]. split; [|done].
  rewrite <- (from_u64_le x Hx), <- (from_u64_le y Hy). by rewrite H1.
Qed.

Lemma i64_le_inj a b :
  (- 2 ^ 63 ≤ a < 2 ^ 63)%Z → (- 2 ^ 63 ≤ b < 2 ^ 63)%Z → i64_le a = i64_le b → a = b.
Proof.
  intros Ha Hb Heq. unfold i64_le in Heq.
  assert (∀ z, Z.to_N (z mod 2 ^ 64) ≤ U64_MAX)%N as Hm.
  { intros z. pose proof (Z.mod_pos_bound z (2 ^ 64)). unfold U64_MAX. lia. }
  destruct (u64_app_inj (Z.to_N (a mod 2 ^ 64)) (Z.to_N (b mod 2 ^ 64)) [] []) as [H _]; [apply Hm..|by rewrite !app_nil_r|].
  pose proof (Z.mod_pos_bound a (2 ^ 64)). pose proof (Z.mod_pos_bound b (2 ^ 64)).
  assert (a mod 2 ^ 64 = b mod 2 ^ 64)%Z as Hab by lia.
  pose proof (Z.div_mod a (2 ^ 64)). pose proof (Z.div_mod b (2 ^ 64)). nia.
Qed.

(** Fields as the engine fills them: text without NUL, 64-bit numbers. *)
Definition ref_fields {V} {WV : WalRefIdentity V} (r : V) : Prop :=
  x00 ∉ wi_segment_id r ∧ x00 ∉ wi_source r ∧ (wi_start r ≤ U64_MAX)%N ∧ (wi_len r ≤ U64_MAX)%N ∧
  x00 ∉ wi_sink_ref r ∧ x00 ∉ wi_namespace r ∧ x00 ∉ wi_partition r ∧
  (- 2 ^ 63 ≤ default 0%Z (wi_time r) < 2 ^ 63)%Z.

(** Two parts have one identity exactly when they agree on segment, source, range, sink,
    namespace, partition and time, where a missing time counts as zero, and their
    fingerprints followed by their metadata hashes are the same bytes. *)
Theorem identity_bytes_determine (r : T) (s : U) :
  ref_fields r → ref_fields s →
  wal_ref_identity_bytes r = wal_ref_identity_bytes s ↔
    wi_segment_id r = wi_segment_id s ∧ wi_source r = wi_source s ∧ wi_start r = wi_start s ∧
    wi_len r = wi_len s ∧ wi_sink_ref r = wi_sink_ref s ∧ wi_namespace r = wi_namespace s ∧
    wi_partition r = wi_partition s ∧ default 0%Z (wi_time r) = default 0%Z (wi_time s) ∧
    wi_schema_fingerprint r ++ default [] (wi_cdc_meta_hash r) =
      wi_schema_fingerprint s ++ default [] (wi_cdc_meta_hash s).
Proof.
  intros (R1 & R2 & R3 & R4 & R5 & R6 & R7 & R8) (S1 & S2 & S3 & S4 & S5 & S6 & S7 & S8).
  unfold wal_ref_identity_bytes. split.
  - intros H. apply nul_app_inj in H as [? H]; [|done..]. apply nul_app_inj in H as [? H]; [|done..].
    apply u64_app_inj in H as [? H]; [|done..]. apply u64_app_inj in H as [? H]; [|done..].
    do 3 (apply nul_app_inj in H as [? H]; [|done..]).
    apply app_inj_1 in H as [Ht ?]; [|unfold i64_le; by rewrite !length_u64_le]. apply i64_le_inj in Ht; [|done..]. done.
  - intros (-> & -> & -> & -> & -> & -> & -> & -> & H). by rewrite H.
Qed.
End Identity.

(** ** Identifiers do not depend on order *)

Lemma sorted_identities_perm {T} {WT : WalRefIdentity T} (refs refs' : list T) :
  refs ≡ₚ refs' →
  canonical_sorted_wal_ref_identity_bytes refs = canonical_sorted_wal_ref_identity_bytes refs'.
Proof.
  intros Hp. unfold canonical_sorted_wal_ref_identity_bytes.
  apply (StronglySorted_unique bytes_le); [apply (StronglySorted_merge_sort bytes_le)..|].
  rewrite !(merge_sort_Permutation bytes_le). by rewrite Hp.
Qed.

Lemma insert_by_identity_perm r l : insert_by_identity r l ≡ₚ r :: l.
Proof.
  induction l as [|x l IH]; simpl; [done|]. destruct (bytes_leb _ _); [done|]. rewrite IH. apply Permutation_swap.
Qed.

Definition identity_le (x y : CanonicalWalPartRef) : Prop :=
  bytes_le (wal_ref_identity_bytes x) (wal_ref_identity_bytes y).

Lemma sort_by_identity_spec l :
  sort_by_identity l ≡ₚ l ∧ StronglySorted identity_le (sort_by_identity l).
Proof.
  induction l as [|r l [IH1 IH2]]; simpl; [split; [done|constructor]|]. split.
  - by rewrite insert_by_identity_perm, IH1.
  - clear IH1. revert IH2. generalize (sort_by_identity l). clear l. intros l Hl.
    induction Hl as [|x l Hl IH Hx]; simpl; [by repeat constructor|].
    destruct (bytes_leb (wal_ref_identity_bytes r) (wal_ref_identity_bytes x)) eqn:Hrx.
    + constructor; [by constructor|]. constructor; [done|]. eapply Forall_impl; [exact Hx|]. intros y Hy. unfold identity_le in *.
      by transitivity (wal_ref_identity_bytes x).
    + constructor; [done|]. rewrite insert_by_identity_perm. constructor; [|done].
      unfold identity_le. destruct (total bytes_le (wal_ref_identity_bytes r) (wal_ref_identity_bytes x)) as [H|H]; [|done].
      unfold bytes_le in H. congruence.
Qed.

(** Sorted lists with the same elements are equal when the key tells the elements apart. *)
Lemma identity_sorted_unique l l' :
  l ≡ₚ l' → StronglySorted identity_le l → StronglySorted identity_le l' →
  (∀ x y, x ∈ l → y ∈ l → wal_ref_identity_bytes x = wal_ref_identity_bytes y → x = y) → l = l'.
Proof.
  intros Hp Hl. revert l' Hp. induction Hl as [|x l Hl IH Hx]; intros l' Hp Hl' Hinj.
  { by apply Permutation_nil_l in Hp. }
  destruct l' as [|y l']; [by apply Permutation_nil_r in Hp|]. inversion Hl' as [|?? Hl'' Hy]; subst.
  assert (x = y) as <-.
  { apply Hinj; [by left|by rewrite Hp; left|]. apply (anti_symm bytes_le).
    - assert (y ∈ x :: l) as Hin by (rewrite Hp; by left). apply elem_of_cons in Hin as [->|Hin]; [done|].
      rewrite Forall_forall in Hx. by apply Hx.
    - assert (x ∈ y :: l') as Hin by (rewrite <- Hp; by left). apply elem_of_cons in Hin as [->|Hin]; [done|].
      rewrite Forall_forall in Hy. by apply Hy. }
  f_equal. apply IH; [by eapply Permutation_cons_inv|done|]. intros a b Ha Hb. apply Hinj; by right.
Qed.

(** C29: a retry that lists the same parts in another order has the same compaction id and
    the same fingerprint, and for parts of one group told apart by their identities, the
    same apply envelope, so the sink recognises it. *)
Theorem apply_identity_order_independent {DG : Digest} (refs refs' : list WalPartRef) :
  refs ≡ₚ refs' →
  (∀ sink namespace fp policy,
    deterministic_compaction_id sink namespace fp policy refs =
    deterministic_compaction_id sink namespace fp policy refs') ∧
  canonical_wal_refs_fingerprint refs = canonical_wal_refs_fingerprint refs' ∧
  ((∀ r s, r ∈ refs → s ∈ refs →
      pk_sink_ref (wr_key r) = pk_sink_ref (wr_key s) ∧ pk_namespace (wr_key r) = pk_namespace (wr_key s) ∧
      pk_partition (wr_key r) = pk_partition (wr_key s) ∧ pk_time (wr_key r) = pk_time (wr_key s)) →
   (∀ r s, r ∈ refs → s ∈ refs → wal_ref_identity_bytes r = wal_ref_identity_bytes s →
      to_runtime_ref r = to_runtime_ref s) →
   ∀ id key is_cdc policy semantics fp version contract,
     SinkApplyEnvelopeV2_new id key (to_runtime_ref <$> refs) is_cdc policy semantics fp version contract =
     SinkApplyEnvelopeV2_new id key (to_runtime_ref <$> refs') is_cdc policy semantics fp version contract).
Proof.
  intros Hp. split_and!.
  - intros. unfold deterministic_compaction_id, hashed_identities. by rewrite (sorted_identities_perm refs refs' Hp).
  - unfold canonical_wal_refs_fingerprint, hashed_identities. by rewrite (sorted_identities_perm refs refs' Hp).
  - intros Hgroup Hinj *. unfold SinkApplyEnvelopeV2_new. f_equal.
    + apply identity_sorted_unique.
      * by rewrite !(proj1 (sort_by_identity_spec _)), Hp.
      * apply sort_by_identity_spec.
      * apply sort_by_identity_spec.
      * intros x y Hx Hy. rewrite (proj1 (sort_by_identity_spec _)) in Hx, Hy.
        apply list_elem_of_fmap in Hx as (r & -> & Hr). apply list_elem_of_fmap in Hr as (r0 & -> & Hr).
        apply list_elem_of_fmap in Hy as (s & -> & Hs). apply list_elem_of_fmap in Hs as (s0 & -> & Hs).
        intros Heq. f_equal. by apply Hinj.
    + unfold canonical_wal_refs_fingerprint, hashed_identities. do 2 f_equal. f_equal. f_equal.
      apply sorted_identities_perm. by rewrite Hp.
    + destruct refs as [|r refs]; [by apply Permutation_nil_l in Hp as ->|].
      destruct refs' as [|r' refs']; [by apply Permutation_nil_r in Hp|].
      assert (r' ∈ r :: refs) as Hr' by (rewrite Hp; by left).
      destruct (Hgroup r r' (list_elem_of_here _ _) Hr') as (H1 & H2 & H3 & H4).
      unfold grouping_from_wal_refs. simpl. by rewrite H1, H2, H3, H4.
Qed.

(** ** Concrete slices *)

Module SliceExample.

#[local] Instance digest : Digest := toy_digest.

Definition slice (seg : bytes) (start : N) : WalSliceRef :=
  {| ws_segment_id := {| segment_id_str := seg |}; ws_start := start |}.

Lemma wal_slices_roundtrip_witness :
  decode_wal_slices (encode_wal_slices {[slice (str "seg-1") 64; slice (str "seg-2") 128]}) =
  Ok {[slice (str "seg-1") 64; slice (str "seg-2") 128]}.
Proof.
  apply wal_slices_roundtrip. intros r Hr.
  apply elem_of_union in Hr as [Hr|Hr]; apply elem_of_singleton in Hr as ->; split; vm_compute;
    [reflexivity|discriminate|reflexivity|discriminate].
Defined.

(** Three snapshots, the parent of the oldest expired. *)
Definition snapshots (id : Z) : option (option Z * option bytes) :=
  if decide (id = 3%Z) then Some (Some 2%Z, Some (str "seg-2@128"))
  else if decide (id = 2%Z) then Some (Some 1%Z, None)
  else if decide (id = 1%Z) then Some (Some 0%Z, Some (str "seg-1@64"))
  else None.

Lemma walk_ancestry_exact_witness :
  walk_ancestry_wal_slices 3 snapshots = Ok {[slice (str "seg-1") 64; slice (str "seg-2") 128]}.
Proof.
  rewrite (walk_ancestry_exact snapshots 3 [Some (str "seg-2@128"); None; Some (str "seg-1@64")]).
  - refine (bool_decide_eq_true_1 _ _). vm_compute. reflexivity.
  - eapply anc_step; [vm_compute; reflexivity|]. eapply anc_step; [vm_compute; reflexivity|].
    eapply anc_step; [vm_compute; reflexivity|]. apply anc_expired. vm_compute. reflexivity.
Defined.

Definition part (start : N) (time : option Z) : WalPartRef := {|
  wr_segment_id := str "seg-1"; wr_source := SdS3 (str "wal") (str "k"); wr_start := start; wr_len := 10;
  wr_key := {| pk_sink_ref := str "primary"; pk_namespace := str "orders"; pk_partition := []; pk_time := time;
               pk_schema_fingerprint := str "f" |};
  wr_cdc_meta_hash := None; wr_ordinal := Some 0%N
|}.

Lemma part_fields start time :
  (start ≤ U64_MAX)%N → (- 2 ^ 63 ≤ default 0%Z time < 2 ^ 63)%Z → ref_fields (part start time).
Proof.
  intros Hs Ht. split_and!; simpl; try done;
    try (apply contains_false; vm_compute; reflexivity); lia.
Qed.

(** A part without a time and one at time zero share their identity. *)
Lemma identity_bytes_determine_witness :
  wal_ref_identity_bytes (part 64 None) = wal_ref_identity_bytes (part 64 (Some 0%Z)) ∧
  wal_ref_identity_bytes (part 64 None) ≠ wal_ref_identity_bytes (part 65 None).
Proof.
  split.
  - apply (identity_bytes_determine (part 64 None) (part 64 (Some 0%Z))).
    + apply part_fields; vm_compute; repeat split; discriminate.
    + apply part_fields; vm_compute; repeat split; discriminate.
    + repeat split.
  - intros H. apply (identity_bytes_determine (part 64 None) (part 65 None)) in H.
    + destruct H as (_ & _ & H & _). vm_compute in H. discriminate H.
    + apply part_fields; vm_compute; repeat split; discriminate.
    + apply part_fields; vm_compute; repeat split; discriminate.
Defined.

Lemma apply_identity_order_independent_witness :
  deterministic_compaction_id [] [] [] WpAppend [part 64 None; part 65 None] =
    deterministic_compaction_id [] [] [] WpAppend [part 65 None; part 64 None] ∧
  SinkApplyEnvelopeV2_new [] [] (to_runtime_ref <$> [part 64 None; part 65 None]) false WpAppend SwExactOnce None None None =
    SinkApplyEnvelopeV2_new [] [] (to_runtime_ref <$> [part 65 None; part 64 None]) false WpAppend SwExactOnce None None None.
Proof.
  destruct (apply_identity_order_independent [part 64 None; part 65 None] [part 65 None; part 64 None]) as (H1 & _ & H2).
  - apply Permutation_swap.
  - split; [apply H1|]. apply H2.
    + intros r s Hr Hs. repeat (apply elem_of_cons in Hr as [->|Hr]; [|]); try (apply elem_of_nil in Hr; destruct Hr);
        repeat (apply elem_of_cons in Hs as [->|Hs]; [|]); try (apply elem_of_nil in Hs; destruct Hs); repeat split.
    + intros r s Hr Hs. repeat (apply elem_of_cons in Hr as [->|Hr]; [|]); try (apply elem_of_nil in Hr; destruct Hr);
        repeat (apply elem_of_cons in Hs as [->|Hs]; [|]); try (apply elem_of_nil in Hs; destruct Hs);
        try reflexivity; vm_compute; discriminate.
Defined.
End SliceExample.
