(* ===== verification/WalHandle.v ===== *)
(** * WalHandle: the write-ahead log of a pipeline

    Models src/buffer/wal_handle.rs and the atomic payload write of
    src/buffer/segment_file.rs.  The handle writes a segment's payload, commits its row and
    its slice index in one catalog transaction, publishes the offsets it covers, records
    compactions, marks slices done, and reclaims segments that are done.

    The state holds the store (catalog and offsets share it), the payload files with their
    faults as in [CatalogOutbox], the object store, the counters of the handle and its bits
    in memory.  Metrics, logging and the failpoints of the tests are left out; a lock is
    never poisoned.  Tasks of the handle interleave at its catalog commits: an attempt of an
    optimistic loop reads, then the other tasks run ([others]), then it commits. *)

From S2P Require Import CatalogOutbox.
From S2P Require Import Prelude Bytes Text Io Codec Lease CatalogKey CatalogRow Store Catalog SledMigrate.
From S2P Require Import Cdc OffsetStore CopyWal SegmentFile SourceContract WalSlice.

(** ** Errors *)

Inductive DurableError : Type :=
| DFenced
| FencedAfterCommit
| CorruptOffset (detail : bytes)
| DIo (detail : bytes)
| ProtocolMismatch (detail : bytes)
| CatalogConflict
| StaleEpoch
| DiskFull.

#[global] Instance DurableError_eq_dec : EqDecision DurableError.
Proof. solve_decision. Defined.

(** How an operation may fail to return a value: an error, a panic (an index past the end
    of a bitmap, a text cut inside a character), or a loop that outran its fuel. *)
Inductive failure : Type := Raised (e : DurableError) | Panicked | OutOfFuel.

#[global] Instance failure_eq_dec : EqDecision failure.
Proof. solve_decision. Defined.

Definition io_error {A} (detail : bytes) : result failure A := Err (Raised (DIo detail)).

(** [.map_err(|err| DurableError::Io(err.to_string()))] on catalog and path errors. *)
Definition catalog_io {A} (r : result CatalogError A) : result failure A :=
  map_err (λ e, Raised (DIo (catalog_error_display e))) r.
Definition path_io {A} (r : result PathError A) : result failure A :=
  map_err (λ e, Raised (DIo (path_error_display e))) r.

Definition io_err_display (e : IoErr) : bytes :=
  match e with
  | InvalidData m | InvalidInput m | OtherIo m => m
  | UnexpectedEof => str "failed to fill whole buffer"
  end.

(** [DurableError::from] of an error that is not a full disk. *)
Definition durable_from_seg (e : IoErr) : failure :=
  match clip_error_detail (io_err_display e) with
  | Some d => Raised (DIo d)
  | None => Panicked
  end.

Definition catalog_durable_err (e : CatalogError) : DurableError :=
  match e with
  | ConditionFailed | Conflict => CatalogConflict
  | Fenced => DFenced
  | other => DIo (catalog_error_display other)
  end.

Definition next_catalog_version (expected : N) : result failure N :=
  ok_or (Raised (ProtocolMismatch (str "catalog row version overflow"))) (checked_add U64_MAX expected 1).

Definition no_panic {A} (o : option A) : result failure A := ok_or Panicked o.

(** ** Constants *)

Definition UNPUBLISHED_COMMIT_CEILING : N := 32.
Definition REDO_ACKED_BATCH : nat := 32.
Definition RECLAIM_OCC_ATTEMPTS : nat := 8.

(** ** The object store, a service *)

Class ObjectStore (B : Type) : Type := {
  objects : B → gmap (bytes * bytes) bytes;
  get_object_bytes : B → bytes → bytes → result bytes bytes;
  head_etag : B → bytes → bytes → result bytes (option bytes);
  delete_object : bytes → bytes → st B bytes unit;
  get_object_spec b bucket key bs : get_object_bytes b bucket key = Ok bs → objects b !! (bucket, key) = Some bs;
  delete_object_spec bucket key b k :
    k ≠ (bucket, key) → objects (delete_object bucket key b).2 !! k = objects b !! k
}.

(** ** Rows and metadata *)

Definition slice_dir_entry (idx : SegmentPartitionIndexEntry) : SliceDirEntry := {|
  sd_ordinal := ie_slice_ordinal idx;
  sd_namespace := pk_namespace (ie_key idx);
  sd_partition := pk_partition (ie_key idx);
  sd_event_time := pk_time (ie_key idx);
  sd_start := ie_start idx;
  sd_len := ie_len idx;
  sd_codec := ie_codec idx;
  sd_row_count := summary_row_count (ie_part_meta_summary idx);
  sd_sink_ref := pk_sink_ref (ie_key idx);
  sd_schema_fingerprint := pk_schema_fingerprint (ie_key idx);
  sd_cdc_meta_hash := summary_canonical_hash (ie_part_meta_summary idx);
  sd_part_meta_start := ie_part_meta_start idx;
  sd_part_meta_len := ie_part_meta_len idx
|}.

Definition slice_dir_entries (meta : SegmentFileMetadata) : list SliceDirEntry :=
  slice_dir_entry <$> sm_index meta.

Definition index_entry_of (entry : SliceDirEntry) : SegmentPartitionIndexEntry := {|
  ie_key := {| pk_sink_ref := sd_sink_ref entry; pk_namespace := sd_namespace entry;
               pk_partition := sd_partition entry; pk_time := sd_event_time entry;
               pk_schema_fingerprint := sd_schema_fingerprint entry |};
  ie_bytes := sd_len entry;
  ie_updated_at_secs := 0;
  ie_slice_ordinal := sd_ordinal entry;
  ie_part_meta_start := sd_part_meta_start entry;
  ie_part_meta_len := sd_part_meta_len entry;
  ie_part_meta_summary :=
    match sd_cdc_meta_hash entry, sd_row_count entry with
    | Some canonical_hash, Some row_count => SumCdc row_count canonical_hash
    | Some canonical_hash, None => SumCdc 0 canonical_hash
    | _, _ => SumAppend
    end;
  ie_codec := sd_codec entry;
  ie_start := sd_start entry;
  ie_len := sd_len entry
|}.

Definition meta_from_index_row (row : SegmentRow) (index : SegmentIndexRow) : SegmentFileMetadata := {|
  sm_created_at_secs := 0;
  sm_total_bytes := sr_payload_len row;
  sm_num_partitions := (N.of_nat (length (si_entries index)) mod 2 ^ 32)%N;
  sm_offsets := ∅;
  sm_index := index_entry_of <$> si_entries index;
  sm_body_sha256 := sr_payload_sha256 row
|}.

Definition with_done (done_bits : SliceBitmap) (version : N) (r : SegmentRow) : SegmentRow := {|
  sr_segment_id := sr_segment_id r; sr_seq := sr_seq r; sr_location := sr_location r;
  sr_payload_len := sr_payload_len r; sr_payload_sha256 := sr_payload_sha256 r;
  sr_slice_count := sr_slice_count r; sr_done := done_bits; sr_offsets := sr_offsets r;
  sr_checkpoints := sr_checkpoints r; sr_epoch := sr_epoch r; sr_version := version
|}.

Definition with_payload (location : PayloadLocation) (len : N) (sha : bytes) (version : N) (r : SegmentRow)
    : SegmentRow := {|
  sr_segment_id := sr_segment_id r; sr_seq := sr_seq r; sr_location := location;
  sr_payload_len := len; sr_payload_sha256 := sha;
  sr_slice_count := sr_slice_count r; sr_done := sr_done r; sr_offsets := sr_offsets r;
  sr_checkpoints := sr_checkpoints r; sr_epoch := sr_epoch r; sr_version := version
|}.

Definition offset_row_leb (a b : CommittedOffset) : bool :=
  lexb bytes_leb bytes_leb (off_namespace a, off_partition a) (off_namespace b, off_partition b).
Definition offset_row_le (a b : CommittedOffset) : Prop := offset_row_leb a b = true.
#[global] Instance offset_row_le_dec : RelDecision offset_row_le.
Proof. intros a b. unfold offset_row_le. apply _. Defined.

Definition checkpoint_le (a b : CommittedCheckpoint) : Prop := bytes_leb (cp_logical_key a) (cp_logical_key b) = true.
#[global] Instance checkpoint_le_dec : RelDecision checkpoint_le.
Proof. intros a b. unfold checkpoint_le. apply _. Defined.

(** [sort_by_key], which is stable. *)
Fixpoint insert_by_key {A} (key : A → N) (x : A) (l : list A) : list A :=
  match l with
  | [] => [x]
  | y :: l' => if (key x <=? key y)%N then x :: l else y :: insert_by_key key x l'
  end.
Definition sort_by_key {A} (key : A → N) (l : list A) : list A := foldr (insert_by_key key) [] l.

Inductive SegmentWriteLocation : Type :=
| WriteDisk (path : bytes)
| WriteS3 (key bucket : bytes).

Record SegmentWriteResult : Type := {
  wres_meta : SegmentFileMetadata;
  wres_total_rows : N;
  wres_sha256 : bytes;
  wres_location : SegmentWriteLocation;
  wres_offsets_published : bool
}.

Definition write_location (l : PayloadLocation) : SegmentWriteLocation :=
  match l with
  | CatalogRow.Disk path => WriteDisk path
  | S3 bucket key => WriteS3 key bucket
  end.

(** ** The handle *)

Section Handle.
Context {RC : Codec CatalogRow} {DG : Digest} {S W Db Tree : Type} {HK : SkipprStore S}
  {SW : SledWorld W Db Tree}.
Context {RB Sc : Type} {AI : ArrowIpc RB Sc} {CK : Codec PartitionKey} {CM : Codec WalPartMeta}
  {CO : Codec (gmap OffsetKey N)} {CE : Codec CheckpointEnvelope}.
(** The JSON of a compaction's body. *)
Context {CT : Codec CompactionTransaction}.
Context {B : Type} {OB : ObjectStore B}.
(** The texts and the kind of operating system errors, and which file operations fail. *)
Context (fs_display : FsErr → bytes) (is_enospc : FsErr → bool).
Context (faults : N → option FsErr) (torn : N → nat).
(** The directories of the pipeline, the writer's fence, the lowest sequence the stream
    processor still needs, and the bound on pages and retries. *)
Context (paths : PipelinePaths) (fence : CatalogFence) (min_unconsumed_seq : N) (fuel : nat).

Record Handle : Type := {
  h_store : StoreOffsetStore S W;
  h_max_committed : CatalogSeq;
  h_max_published : CatalogSeq;
  h_in_memory_done : gmap bytes SliceBitmap;
  h_disk : CatalogOutbox.Disk;
  h_objects : B;
  (** Segments the buffers were told to forget, the last first. *)
  h_forgotten : list bytes
}.

Notation hop := (st Handle failure).

Definition catalog_of (h : Handle) : S := so_store (h_store h).

Definition set_store (s : StoreOffsetStore S W) (h : Handle) : Handle := {|
  h_store := s; h_max_committed := h_max_committed h; h_max_published := h_max_published h;
  h_in_memory_done := h_in_memory_done h; h_disk := h_disk h; h_objects := h_objects h;
  h_forgotten := h_forgotten h |}.
Definition set_committed (q : CatalogSeq) (h : Handle) : Handle := {|
  h_store := h_store h; h_max_committed := q; h_max_published := h_max_published h;
  h_in_memory_done := h_in_memory_done h; h_disk := h_disk h; h_objects := h_objects h;
  h_forgotten := h_forgotten h |}.
Definition set_published (q : CatalogSeq) (h : Handle) : Handle := {|
  h_store := h_store h; h_max_committed := h_max_committed h; h_max_published := q;
  h_in_memory_done := h_in_memory_done h; h_disk := h_disk h; h_objects := h_objects h;
  h_forgotten := h_forgotten h |}.
Definition set_done (d : gmap bytes SliceBitmap) (h : Handle) : Handle := {|
  h_store := h_store h; h_max_committed := h_max_committed h; h_max_published := h_max_published h;
  h_in_memory_done := d; h_disk := h_disk h; h_objects := h_objects h; h_forgotten := h_forgotten h |}.
Definition set_payloads (d : CatalogOutbox.Disk) (b : B) (h : Handle) : Handle := {|
  h_store := h_store h; h_max_committed := h_max_committed h; h_max_published := h_max_published h;
  h_in_memory_done := h_in_memory_done h; h_disk := d; h_objects := b; h_forgotten := h_forgotten h |}.
Definition set_forgotten (l : list bytes) (h : Handle) : Handle := {|
  h_store := h_store h; h_max_committed := h_max_committed h; h_max_published := h_max_published h;
  h_in_memory_done := h_in_memory_done h; h_disk := h_disk h; h_objects := h_objects h; h_forgotten := l |}.

Definition modify (f : Handle → Handle) : hop unit := λ h, (Ok tt, f h).

(** Operations of the shared store and of the offset store. *)
Definition on_offsets {E A} (m : st (StoreOffsetStore S W) E A) (f : E → failure) : hop A :=
  λ h, let '(r, s') := m (h_store h) in (map_err f r, set_store s' h).

Definition get_row (key : CatalogKey) : hop (option CatalogRow) :=
  sread (λ h, catalog_io (catalog_get (catalog_of h) key)).

Definition query_rows (prefix : CatalogPrefix) : hop (list (CatalogKey * CatalogRow)) :=
  sread (λ h, let? rows := catalog_io (query_all fuel (catalog_of h) prefix) in ok_or OutOfFuel rows).

Definition flushing_commit (txn : CatalogTxn) : hop unit :=
  on_offsets (on_kv (catalog_commit_durable txn fence)) (λ e, Raised (catalog_durable_err e)).

Definition commit_durable (txn : CatalogTxn) : hop unit := flushing_commit txn.

(** ** Payload files and objects *)

Definition on_files {A} (m : CatalogOutbox.Disk → result FsErr A * CatalogOutbox.Disk) (f : FsErr → failure) : hop A :=
  λ h, let '(r, d) := m (h_disk h) in (map_err f r, set_payloads d (h_objects h) h).

Definition durable_from_io (e : FsErr) : failure :=
  if is_enospc e then Raised DiskFull
  else match clip_error_detail (fs_display e) with
       | Some d => Raised (DIo d)
       | None => Panicked
       end.

Definition io_text (e : FsErr) : failure := Raised (DIo (fs_display e)).

Definition file_remove (name : bytes) (d : CatalogOutbox.Disk) : result FsErr unit * CatalogOutbox.Disk :=
  fs_op faults (λ fs, match fs !! name with
                      | Some _ => (Ok tt, delete name fs)
                      | None => (Err NotFound, fs)
                      end) d.

Definition file_create_new (name : bytes) (d : CatalogOutbox.Disk) : result FsErr unit * CatalogOutbox.Disk :=
  fs_op faults (λ fs, match fs !! name with
                      | Some _ => (Err AlreadyExists, fs)
                      | None => (Ok tt, <[name := []]> fs)
                      end) d.

(** A write that fails may have stored a prefix. *)
Definition file_write (name bs : bytes) (d : CatalogOutbox.Disk) : result FsErr unit * CatalogOutbox.Disk :=
  match faults (d_step d) with
  | Some e => (Err e, set_files (<[name := take (torn (d_step d)) bs]> (d_files d)) d)
  | None => (Ok tt, set_files (<[name := bs]> (d_files d)) d)
  end.

(** Syncing a file or a directory, or making sure that a directory exists. *)
Definition file_sync (d : CatalogOutbox.Disk) : result FsErr unit * CatalogOutbox.Disk :=
  fs_op faults (λ fs, (Ok tt, fs)) d.

Definition file_rename (from to : bytes) (d : CatalogOutbox.Disk) : result FsErr unit * CatalogOutbox.Disk :=
  fs_op faults (λ fs, match fs !! from with
                      | Some bs => (Ok tt, <[to := bs]> (delete from fs))
                      | None => (Err NotFound, fs)
                      end) d.

Definition file_read (name : bytes) (d : CatalogOutbox.Disk) : result FsErr bytes * CatalogOutbox.Disk :=
  fs_op faults (λ fs, (ok_or NotFound (fs !! name), fs)) d.

(** [SegmentFile::new]'s path and [path.with_extension("seg.tmp")] of it. *)
Definition seg_path (snapshot_id : bytes) : bytes := path_join (segs paths) (snapshot_id ++ str ".seg").
Definition seg_tmp_path (snapshot_id : bytes) : bytes :=
  path_join (segs paths) ((file_parts (snapshot_id ++ str ".seg")).1 ++ str ".seg.tmp").

Definition write_payload_atomically (path tmp bs : bytes) : hop unit :=
  do? stale := sread (λ h, Ok (bool_decide (is_Some (d_files (h_disk h) !! tmp)))) in
  (if stale : bool then on_files (file_remove tmp) durable_from_io else sret tt) ;!
  on_files (file_create_new tmp) durable_from_io ;!
  on_files (file_write tmp bs) durable_from_io ;!
  on_files file_sync durable_from_io ;!
  on_files (file_rename tmp path) durable_from_io ;!
  on_files file_sync durable_from_io.

(** Errors of the removal are logged. *)
Definition delete_payload (location : PayloadLocation) : hop unit :=
  match location with
  | CatalogRow.Disk path => λ h, (Ok tt, set_payloads (file_remove path (h_disk h)).2 (h_objects h) h)
  | S3 bucket key => λ h, (Ok tt, set_payloads (h_disk h) (delete_object bucket key (h_objects h)).2 h)
  end.

Definition object_bytes (bucket key : bytes) : hop bytes :=
  sread (λ h, map_err (λ e, Raised (DIo e)) (get_object_bytes (h_objects h) bucket key)).

Definition payload_bytes (location : PayloadLocation) (expected_sha : bytes) : hop bytes :=
  do? bs := match location with
            | CatalogRow.Disk path => on_files (file_read path) io_text
            | S3 bucket key => object_bytes bucket key
            end in
  do? claimed := slift (map_err (λ e, Raised (DIo (io_err_display e))) (verify_body_checksum bs)) in
  if bool_decide (claimed = expected_sha) then sret bs
  else serr (Raised (ProtocolMismatch (str "payload sha256 does not match catalog row"))).

Definition parse_segment (bs : bytes) : hop SegmentFileMetadata :=
  slift (let? m := map_err (λ e, Raised (DIo (io_err_display e))) (read_metadata_from_bytes bs) in
         ok_or OutOfFuel m).

Definition read_index_path (path : bytes) : hop SegmentFileMetadata :=
  do? bs := on_files (file_read path) io_text in parse_segment bs.

Definition read_index_location (location : PayloadLocation) : hop SegmentFileMetadata :=
  match location with
  | CatalogRow.Disk path => read_index_path path
  | S3 bucket key => do? bs := object_bytes bucket key in parse_segment bs
  end.

Definition payload_present (location : PayloadLocation) (h : Handle) : bool :=
  match location with
  | CatalogRow.Disk path => bool_decide (is_Some (d_files (h_disk h) !! path))
  | S3 bucket key => match head_etag (h_objects h) bucket key with
                     | Ok (Some _) => true
                     | _ => false
                     end
  end.

Definition admit_payload_at (location : PayloadLocation) (expected_sha : bytes) : hop SegmentFileMetadata :=
  match location with
  | CatalogRow.Disk path =>
      do? body := on_files (file_read path) io_text in
      slift (let? m := map_err (λ e, Raised (DIo (io_err_display e))) (admit_payload body expected_sha) in
             ok_or OutOfFuel m)
  | S3 _ _ =>
      do? bs := payload_bytes location expected_sha in
      do? meta := parse_segment bs in
      if bool_decide (sm_body_sha256 meta = expected_sha) then sret meta
      else serr (Raised (ProtocolMismatch (str "FOOT digest disagrees with metadata scan")))
  end.

(** ** Reading the catalog *)

Definition segment_id (raw : bytes) : hop SegmentId := slift (path_io (SegmentId_new raw)).

Definition not_a_segment {A} : hop A := serr (Raised (ProtocolMismatch (str "wal#seg is not a SegmentRow"))).
Definition not_a_seq {A} : hop A := serr (Raised (ProtocolMismatch (str "wal#seq is not a SeqRow"))).

Definition segment_row (id : SegmentId) : hop (option SegmentRow) :=
  do? row := get_row (KSegment id) in
  match row with
  | Some (RSegment row) => sret (Some row)
  | Some _ => not_a_segment
  | None => sret None
  end.

Definition catalog_seq_seen : hop N :=
  do? row := get_row KSeq in
  match row with
  | Some (RSeq row) => sret (seq_get (max_seq row))
  | Some _ => not_a_seq
  | None => sret 0%N
  end.

Definition hydrate_seq : hop CatalogSeq :=
  do? row := get_row KSeq in
  match row with
  | Some (RSeq row) => sret (max_seq row)
  | _ => sret CatalogSeq_ZERO
  end.

Definition as_segment (e : CatalogKey * CatalogRow) : option SegmentRow :=
  match e.2 with RSegment seg => Some seg | _ => None end.

Definition live_segment_rows : hop (list SegmentRow) :=
  do? rows := query_rows PSegment in sret (omap as_segment rows).

Definition catalog_segment_ids : hop (list bytes) :=
  do? rows := live_segment_rows in sret ((λ seg, segment_id_str (sr_segment_id seg)) <$> rows).

Definition live_disk_payload_paths : hop (list bytes) :=
  do? rows := live_segment_rows in
  sret (omap (λ seg, match sr_location seg with CatalogRow.Disk path => Some path | S3 _ _ => None end) rows).

Definition payload_ready : hop bool :=
  do? rows := live_segment_rows in
  sread (λ h, Ok (forallb (λ seg, payload_present (sr_location seg) h) rows)).

(** The result only; an error reads as unreadable, a panic is one. *)
Definition payload_unreadable (raw : bytes) : hop bool :=
  λ h, match (do? id := segment_id raw in get_row (KSegment id)) h with
       | (Ok (Some (RSegment seg)), h') =>
           let '(r, h'') := admit_payload_at (sr_location seg) (sr_payload_sha256 seg) h' in
           (match r with Ok _ => Ok false | Err Panicked => Err Panicked | Err OutOfFuel => Err OutOfFuel | Err _ => Ok true end, h'')
       | (Err Panicked, h') => (Err Panicked, h')
       | (Err OutOfFuel, h') => (Err OutOfFuel, h')
       | (_, h') => (Ok true, h')
       end.

Definition slice_is_done (raw : bytes) (ordinal : N) : hop bool :=
  do? mem := sread (λ h, match h_in_memory_done h !! raw with
                         | Some bits => no_panic (is_done bits ordinal)
                         | None => Ok false
                         end) in
  if mem : bool then sret true
  else
    do? id := segment_id raw in
    do? row := segment_row id in
    match row with
    | Some row => slift (no_panic (is_done (sr_done row) ordinal))
    | None => sret true
    end.

Definition hydrate_in_memory_done : hop unit :=
  do? rows := live_segment_rows in
  modify (set_done (foldl (λ m seg, <[segment_id_str (sr_segment_id seg) := sr_done seg]> m) ∅ rows)).

Definition mark_acked_ordinals_in_memory (raw : bytes) (ordinals : list N) (slice_count : N) : hop unit :=
  λ h, let bits := default (SliceBitmap_new slice_count) (h_in_memory_done h !! raw) in
       match or_bits bits ordinals with
       | Some bits => (Ok tt, set_done (<[raw := bits]> (h_in_memory_done h)) h)
       | None => (Err Panicked, h)
       end.

Definition forget_in_memory_segment (raw : bytes) : hop unit :=
  modify (λ h, set_done (delete raw (h_in_memory_done h)) h).

Definition transaction_state (s : CompactionState) : CompactionTransactionState :=
  match s with Pending => TxPending | Sent => TxSent | Acked => TxAcked end.

Definition with_tx_state (s : CompactionTransactionState) (t : CompactionTransaction) : CompactionTransaction :=
  with_state_at (tx_updated_at_secs t) (tx_attempts t) s t.

Definition compaction_of (e : CatalogKey * CatalogRow) : result failure (option CompactionTransaction) :=
  match e.2 with
  | RCompaction compaction =>
      let? txn := map_err (λ e, Raised (DIo e)) (deserialize (cr_body compaction)) in
      Ok (Some (with_tx_state (transaction_state (cr_state compaction)) txn))
  | _ => Ok None
  end.

Definition compaction_transactions : hop (list CompactionTransaction) :=
  do? rows := query_rows PCompaction in
  do? txns := slift (rtraverse compaction_of rows) in
  sret (omap (λ t, t) txns).

(** ** Publishing offsets *)

(** One turn of the loop; the delays between turns are not modelled. *)
Definition publish_once (seq : CatalogSeq) (offsets : list CommittedOffset) (checkpoints : list CommittedCheckpoint)
    : hop (unit + unit) :=
  λ h, let '(r, s') := publish_committed offsets checkpoints (epoch_get (fence_epoch fence)) (seq_get seq) Fresh (h_store h) in
       let h := set_store s' h in
       match r with
       | Ok _ => (on_offsets offset_flush (λ e, Raised (DIo e)) ;! modify (set_published seq) ;! sret (inr tt)) h
       | Err (Corrupt e) => (Err (Raised (CorruptOffset e)), h)
       | Err FenceRegression => (Err (Raised FencedAfterCommit), h)
       | Err (Transient _) => (Ok (inl tt), h)
       end.

Definition publish_seq (seq : CatalogSeq) (offsets : list CommittedOffset) (checkpoints : list CommittedCheckpoint)
    : hop unit :=
  do? r := sloop fuel (λ _, publish_once seq offsets checkpoints) tt in slift (ok_or OutOfFuel r).

Definition stored_filesize (existing : option bytes) : N :=
  match existing with
  | Some bs => if length bs =? 24 then from_le_bytes (take 8 bs) else 0%N
  | None => 0%N
  end.

Definition committed_offset_of (h : Handle) (e : OffsetKey * N) : result failure CommittedOffset :=
  let '(key, position) := e in
  let? existing := map_err (λ e, Raised (DIo e)) (get_offset (h_store h) (ok_namespace key) (ok_partition key)) in
  Ok {| off_namespace := ok_namespace key; off_partition := ok_partition key;
        off_filesize := stored_filesize existing; off_position := position; off_closed := 1 |}.

Definition committed_offsets_from (offsets : gmap OffsetKey N) : hop (list CommittedOffset) :=
  sread (λ h, rmap (merge_sort offset_row_le) (rtraverse (committed_offset_of h) (map_to_list offsets))).

Definition checkpoint_of (e : bytes * CheckpointEnvelope) : result failure CommittedCheckpoint :=
  let? bs := map_err (λ e, Raised (DIo e)) (serialize e.2) in
  Ok {| cp_logical_key := e.1; cp_envelope := bs |}.

Definition checkpoints_from (updates : gmap bytes CheckpointEnvelope) : hop (list CommittedCheckpoint) :=
  slift (rmap (merge_sort checkpoint_le) (rtraverse checkpoint_of (map_to_list updates))).

(** ** Persisting segments *)

Definition txn_io (r : result CatalogError CatalogTxn) : hop CatalogTxn := slift (catalog_io r).

Definition put_slice_index (txn : CatalogTxn) (id : SegmentId) (meta : SegmentFileMetadata) : hop CatalogTxn :=
  match slice_dir_entries meta with
  | [] => sret txn
  | entries =>
      txn_io (txn_put txn (KIndex id)
        (RIndex {| si_segment_id := id; si_version := 0; si_entries := entries |}) NotExists)
  end.

Definition below_ceiling : hop unit :=
  do? behind := sread (λ h, Ok (saturating_sub (seq_get (h_max_committed h)) (seq_get (h_max_published h)))) in
  if (UNPUBLISHED_COMMIT_CEILING <=? behind)%N
  then serr (Raised (DIo (str "unpublished WAL catalog commit ceiling reached")))
  else sret tt.

Definition next_seq : hop CatalogSeq :=
  do? row := get_row KSeq in
  do? max := match row with
             | Some (RSeq row) => sret (max_seq row)
             | Some _ => not_a_seq
             | None => sret CatalogSeq_ZERO
             end in
  slift (catalog_io (CatalogSeq_next max)).

Definition new_segment_row (id : SegmentId) (seq : CatalogSeq) (encoded : EncodedSnapshot)
    (location : PayloadLocation) (slice_count : N) (offsets : list CommittedOffset)
    (checkpoints : list CommittedCheckpoint) : SegmentRow := {|
  sr_segment_id := id; sr_seq := seq; sr_location := location;
  sr_payload_len := sm_total_bytes (es_meta encoded); sr_payload_sha256 := es_sha256 encoded;
  sr_slice_count := slice_count; sr_done := SliceBitmap_new slice_count; sr_offsets := offsets;
  sr_checkpoints := checkpoints; sr_epoch := fence_epoch fence; sr_version := 0
|}.

(** The row, its index and the sequence, in one transaction. *)
Definition new_segment_txn (id : SegmentId) (row : SegmentRow) (meta : SegmentFileMetadata) : hop CatalogTxn :=
  do? txn := txn_io (txn_put txn_new (KSegment id) (RSegment row) NotExists) in
  do? txn := put_slice_index txn id meta in
  txn_io (txn_put txn KSeq (RSeq {| max_seq := sr_seq row |}) SeqAdvance).

Definition commit_new_segment (id : SegmentId) (encoded : EncodedSnapshot) (location : PayloadLocation)
    (slice_count : N) (offsets : list CommittedOffset) (checkpoints : list CommittedCheckpoint) : hop CatalogSeq :=
  below_ceiling ;!
  do? seq := next_seq in
  let row := new_segment_row id seq encoded location slice_count offsets checkpoints in
  do? txn := new_segment_txn id row (es_meta encoded) in
  commit_durable txn ;!
  modify (set_committed seq) ;!
  sret seq.

Definition reused_id {A} : hop A :=
  serr (Raised (ProtocolMismatch (str "segment_id reuse with different payload sha"))).

Definition write_result (encoded : EncodedSnapshot) (location : SegmentWriteLocation) : SegmentWriteResult := {|
  wres_meta := es_meta encoded; wres_total_rows := es_total_rows encoded; wres_sha256 := es_sha256 encoded;
  wres_location := location; wres_offsets_published := true
|}.

Definition slices_of (encoded : EncodedSnapshot) : N := N.max (sm_num_partitions (es_meta encoded)) 1.

Definition persist_segment (snapshot_id : bytes) (offsets : gmap OffsetKey N)
    (batches : gmap PartitionKey (WalPayload RB)) (partitions_meta : gmap PartitionKey (N * Z))
    (part_meta_blobs : gmap PartitionKey bytes) (checkpoint_updates : gmap bytes CheckpointEnvelope)
    (created_at : Z) : hop SegmentWriteResult :=
  do? id := segment_id snapshot_id in
  do? encoded := slift (map_err durable_from_seg
                   (encode_snapshot partitions_meta part_meta_blobs created_at offsets batches)) in
  do? committed_offsets := committed_offsets_from offsets in
  do? checkpoints := checkpoints_from checkpoint_updates in
  do? existing := segment_row id in
  match existing with
  | Some row =>
      if bool_decide (sr_payload_sha256 row = es_sha256 encoded)
      then publish_seq (sr_seq row) committed_offsets checkpoints ;!
           sret (write_result encoded (write_location (sr_location row)))
      else reused_id
  | None =>
      on_files file_sync durable_from_io ;!
      on_files file_sync durable_from_io ;!
      write_payload_atomically (seg_path snapshot_id) (seg_tmp_path snapshot_id) (es_bytes encoded) ;!
      do? seq := commit_new_segment id encoded (CatalogRow.Disk (seg_path snapshot_id)) (slices_of encoded)
                   committed_offsets checkpoints in
      publish_seq seq committed_offsets checkpoints ;!
      sret (write_result encoded (WriteDisk (seg_path snapshot_id)))
  end.

(** The object was uploaded by the caller. *)
Definition persist_s3_segment (snapshot_id : bytes) (encoded : EncodedSnapshot) (bucket object_key : bytes)
    (offsets : gmap OffsetKey N) (checkpoint_updates : gmap bytes CheckpointEnvelope) : hop SegmentWriteResult :=
  do? id := segment_id snapshot_id in
  do? committed_offsets := committed_offsets_from offsets in
  do? checkpoints := checkpoints_from checkpoint_updates in
  do? existing := get_row (KSegment id) in
  do? seq := match existing with
             | Some (RSegment row) =>
                 if bool_decide (sr_payload_sha256 row = es_sha256 encoded) then sret (sr_seq row) else reused_id
             | _ => commit_new_segment id encoded (S3 bucket object_key) (slices_of encoded) committed_offsets checkpoints
             end in
  publish_seq seq committed_offsets checkpoints ;!
  sret (write_result encoded (WriteS3 object_key bucket)).

(** ** Control rows *)

Definition commit_control_row (key : CatalogKey) (body : ControlBody) (existing_version : option N) : hop CatalogSeq :=
  below_ceiling ;!
  do? seq := next_seq in
  do? version := match existing_version with
                 | Some v => slift (next_catalog_version v)
                 | None => sret 0%N
                 end in
  let cond := match existing_version with Some v => PVersion v | None => NotExists end in
  let row := {| ct_seq := seq; ct_epoch := fence_epoch fence; ct_body := body; ct_version := version |} in
  do? txn := txn_io (txn_put txn_new key (RControl row) cond) in
  do? txn := txn_io (txn_put txn KSeq (RSeq {| max_seq := seq |}) SeqAdvance) in
  commit_durable txn ;!
  modify (set_committed seq) ;!
  sret seq.

Definition persist_control (key : CatalogKey) (body : ControlBody) (offsets : list CommittedOffset)
    (checkpoints : list CommittedCheckpoint) : hop unit :=
  do? existing := get_row key in
  do? seq := match existing with
             | Some (RControl row) =>
                 if decide (ct_body row = body) then sret (ct_seq row)
                 else commit_control_row key body (Some (ct_version row))
             | _ => commit_control_row key body None
             end in
  publish_seq seq offsets checkpoints.

Definition persist_checkpoint (logical_key : bytes) (envelope : CheckpointEnvelope) : hop unit :=
  do? bs := slift (map_err (λ e, Raised (DIo e)) (serialize envelope)) in
  do? key := slift (path_io (CheckpointKey_new logical_key)) in
  persist_control (KCheckpoint key) (CBCheckpoint logical_key bs) []
    [{| cp_logical_key := logical_key; cp_envelope := bs |}].

Definition persist_offset_hint (namespace partition : bytes) (position : N) (closed : bool) : hop unit :=
  do? key := slift (path_io (OffsetHintKey_new namespace partition)) in
  do? existing := sread (λ h, map_err (λ e, Raised (DIo e)) (get_offset (h_store h) namespace partition)) in
  persist_control (KOffsetHint key) (CBOffsetHint position closed)
    [{| off_namespace := namespace; off_partition := partition; off_filesize := stored_filesize existing;
        off_position := position; off_closed := if closed then 1 else 0 |}] [].

Definition replace_payload_location (raw : bytes) (location : PayloadLocation) (payload_len : N)
    (payload_sha256 : bytes) : hop unit :=
  do? id := segment_id raw in
  do? existing := get_row (KSegment id) in
  match existing with
  | Some (RSegment row) =>
      do? version := slift (next_catalog_version (sr_version row)) in
      do? txn := txn_io (txn_put txn_new (KSegment id)
                   (RSegment (with_payload location payload_len payload_sha256 version row)) (PVersion (sr_version row))) in
      commit_durable txn
  | _ => serr (Raised (DIo (str "missing SegmentRow for payload replace " ++ raw)))
  end.

(** ** The slice index of older segments *)

Definition index_exists (id : SegmentId) : hop bool :=
  do? row := get_row (KIndex id) in sret (bool_decide (is_Some row)).

Definition persist_missing_index (id : SegmentId) (meta : SegmentFileMetadata) : hop unit :=
  do? present := index_exists id in
  if present : bool then sret tt
  else
    do? txn := put_slice_index txn_new id meta in
    match txn_ops txn with
    | [] => sret tt
    | _ => λ h, match commit_durable txn h with
                | (Err (Raised CatalogConflict), h') =>
                    (do? present := index_exists id in
                     if present : bool then sret tt else serr (Raised CatalogConflict)) h'
                | other => other
                end
    end.

Definition load_or_build_index_meta (row : SegmentRow) : hop SegmentFileMetadata :=
  do? existing := get_row (KIndex (sr_segment_id row)) in
  match existing with
  | Some (RIndex index) => sret (meta_from_index_row row index)
  | _ =>
      do? meta := read_index_location (sr_location row) in
      persist_missing_index (sr_segment_id row) meta ;!
      sret meta
  end.

Definition entry_matches (r : WalPartRef) (start len : N) (namespace partition : bytes) : bool :=
  (start =? wr_start r)%N && (len =? wr_len r)%N
  && bool_decide (namespace = pk_namespace (wr_key r)) && bool_decide (partition = pk_partition (wr_key r)).

Definition find_entry (r : WalPartRef) (entries : list SliceDirEntry) : option N :=
  sd_ordinal <$> List.find (λ e, entry_matches r (sd_start e) (sd_len e) (sd_namespace e) (sd_partition e)) entries.

Definition find_part (r : WalPartRef) (index : list SegmentPartitionIndexEntry) : option N :=
  ie_slice_ordinal <$>
  List.find (λ e, entry_matches r (ie_start e) (ie_len e) (pk_namespace (ie_key e)) (pk_partition (ie_key e))) index.

Definition resolve_from_payload (r : WalPartRef) (id : SegmentId) : hop (option N) :=
  do? row := get_row (KSegment id) in
  match row with
  | Some (RSegment seg) =>
      match sr_location seg with
      | CatalogRow.Disk path =>
          do? meta := read_index_path path in
          persist_missing_index id meta ;!
          sret (find_part r (sm_index meta))
      | S3 _ _ => sret None
      end
  | _ => sret None
  end.

Definition resolve_ordinal (r : WalPartRef) : hop (option N) :=
  match wr_ordinal r with
  | Some ordinal => sret (Some ordinal)
  | None =>
      do? id := segment_id (wr_segment_id r) in
      do? index := get_row (KIndex id) in
      match index with
      | Some (RIndex index) =>
          match find_entry r (si_entries index) with
          | Some ordinal => sret (Some ordinal)
          | None => resolve_from_payload r id
          end
      | _ => resolve_from_payload r id
      end
  end.

Fixpoint all_refs_done (refs : list WalPartRef) : hop bool :=
  match refs with
  | [] => sret true
  | r :: refs =>
      do? ordinal := resolve_ordinal r in
      match ordinal with
      | None => sret false
      | Some ordinal =>
          do? slice_done := slice_is_done (wr_segment_id r) ordinal in
          if slice_done : bool then all_refs_done refs else sret false
      end
  end.

Definition all_refs_already_done (txn : CompactionTransaction) : hop bool := all_refs_done (tx_refs txn).

(** ** Compaction rows *)

Definition compaction_id (raw : bytes) : hop CompactionId := slift (path_io (CompactionId_new raw)).

Definition put_compaction (raw : bytes) (state : CompactionState) (body : bytes) : hop unit :=
  do? id := compaction_id raw in
  do? existing := get_row (KCompaction id) in
  do? cv := match existing with
            | Some (RCompaction row) =>
                do? v := slift (next_catalog_version (cr_version row)) in sret (PVersion (cr_version row), v)
            | _ => sret (NotExists, 0%N)
            end in
  do? txn := txn_io (txn_put txn_new (KCompaction id)
               (RCompaction {| cr_id := id; cr_state := state; cr_body := body; cr_version := cv.2 |}) cv.1) in
  commit_durable txn.

Definition delete_compaction (raw : bytes) : hop unit :=
  do? id := compaction_id raw in
  do? txn := txn_io (txn_delete txn_new (KCompaction id) Exists_) in
  commit_durable txn.

(** ** Reclaiming *)

Definition allows_reclaim (seq : N) : bool := (seq <? min_unconsumed_seq)%N.

Definition after_reclaim (location : PayloadLocation) (raw : bytes) : hop unit :=
  delete_payload location ;!
  forget_in_memory_segment raw ;!
  modify (λ h, set_forgotten (raw :: h_forgotten h) h).

(** The operations that remove a segment: its row and, if there is one, its index. *)
Definition delete_segment (txn : CatalogTxn) (id : SegmentId) (version : N) : hop CatalogTxn :=
  do? txn := txn_io (txn_delete txn (KSegment id) (DVersion version)) in
  do? indexed := index_exists id in
  if indexed : bool then txn_io (txn_delete txn (KIndex id) Exists_) else sret txn.

(** The first half of an attempt: the row with its new bits, and the transaction. *)
Definition plan_reclaim (id : SegmentId) (ordinals : list N) : hop (option (SegmentRow * bool * CatalogTxn)) :=
  do? row := segment_row id in
  match row with
  | None => sret None
  | Some row =>
      do? bits := slift (no_panic (or_bits (sr_done row) ordinals)) in
      do? finished := slift (no_panic (all_done bits)) in
      let can_reclaim := finished && allows_reclaim (seq_get (sr_seq row)) in
      do? version := slift (next_catalog_version (sr_version row)) in
      do? txn := if can_reclaim : bool
                 then delete_segment txn_new id (sr_version row)
                 else txn_io (txn_put txn_new (KSegment id) (RSegment (with_done bits version row)) (PVersion (sr_version row))) in
      sret (Some (row, can_reclaim, txn))
  end.

(** The second half, when the commit succeeded. *)
Definition reclaim_committed (raw : bytes) (ordinals : list N) (row : SegmentRow) (can_reclaim : bool) : hop bool :=
  mark_acked_ordinals_in_memory raw ordinals (sr_slice_count row) ;!
  (if can_reclaim : bool then after_reclaim (sr_location row) raw else sret tt) ;!
  sret can_reclaim.

(** What the other tasks of the process do between the read and the commit of an attempt,
    by the number of attempts that are left. *)
Context (others : nat → Handle → Handle).

Fixpoint reclaim_attempts (n : nat) (raw : bytes) (id : SegmentId) (ordinals : list N) : hop bool :=
  match n with
  | O => serr (Raised CatalogConflict)
  | Datatypes.S n =>
      do? plan := plan_reclaim id ordinals in
      match plan with
      | None => sret true
      | Some (row, can_reclaim, txn) =>
          λ h, match commit_durable txn (others n h) with
               | (Ok _, h') => reclaim_committed raw ordinals row can_reclaim h'
               | (Err (Raised CatalogConflict), h') => reclaim_attempts n raw id ordinals h'
               | (Err e, h') => (Err e, h')
               end
      end
  end.

Definition complete_slices_and_reclaim (raw : bytes) (ordinals : list N) : hop bool :=
  do? id := segment_id raw in reclaim_attempts RECLAIM_OCC_ATTEMPTS raw id ordinals.

Fixpoint reclaim_rows (rows : list SegmentRow) (min_seq reclaimed : N) : hop N :=
  match rows with
  | [] => sret reclaimed
  | row :: rows =>
      do? finished := slift (no_panic (all_done (sr_done row))) in
      if negb finished || (min_seq <=? seq_get (sr_seq row))%N then reclaim_rows rows min_seq reclaimed
      else
        do? gone := complete_slices_and_reclaim (segment_id_str (sr_segment_id row)) [] in
        reclaim_rows rows min_seq (if gone : bool then (reclaimed + 1)%N else reclaimed)
  end.

Definition reclaim_fully_done_before (min_seq : N) : hop N :=
  do? rows := live_segment_rows in reclaim_rows rows min_seq 0.

(** ** Redoing acknowledged compactions *)

Definition add_ordinal (m : gmap bytes (list N)) (raw : bytes) (ordinal : N) : gmap bytes (list N) :=
  <[raw := default [] (m !! raw) ++ [ordinal]]> m.

Fixpoint group_refs (refs : list WalPartRef) (m : gmap bytes (list N)) : hop (gmap bytes (list N)) :=
  match refs with
  | [] => sret m
  | r :: refs =>
      do? ordinal := resolve_ordinal r in
      group_refs refs (match ordinal with Some o => add_ordinal m (wr_segment_id r) o | None => m end)
  end.

(** What the commit of a batch is followed by. *)
Record BatchPlan : Type := {
  bp_txn : CatalogTxn;
  bp_reclaim_after : list (bytes * PayloadLocation);
  bp_memory_bits : list (bytes * list N * N)
}.

Definition plan_segment (p : BatchPlan) (g : bytes * list N) : hop BatchPlan :=
  let '(raw, ordinals) := g in
  do? id := segment_id raw in
  do? existing := get_row (KSegment id) in
  match existing with
  | Some (RSegment row) =>
      do? bits := slift (no_panic (or_bits (sr_done row) ordinals)) in
      do? finished := slift (no_panic (all_done bits)) in
      do? version := slift (next_catalog_version (sr_version row)) in
      do? txn := if finished : bool
                 then delete_segment (bp_txn p) id (sr_version row)
                 else txn_io (txn_put (bp_txn p) (KSegment id) (RSegment (with_done bits version row)) (PVersion (sr_version row))) in
      sret {| bp_txn := txn;
              bp_reclaim_after := if finished then bp_reclaim_after p ++ [(raw, sr_location row)] else bp_reclaim_after p;
              bp_memory_bits := bp_memory_bits p ++ [(raw, ordinals, sr_slice_count row)] |}
  | _ => sret p
  end.

Fixpoint plan_segments (groups : list (bytes * list N)) (p : BatchPlan) : hop BatchPlan :=
  match groups with
  | [] => sret p
  | g :: groups => do? p := plan_segment p g in plan_segments groups p
  end.

Fixpoint plan_deletes (batch : list CompactionTransaction) (txn : CatalogTxn) : hop CatalogTxn :=
  match batch with
  | [] => sret txn
  | t :: batch =>
      do? id := compaction_id (tx_id t) in
      do? existing := get_row (KCompaction id) in
      do? txn := match existing with
                 | Some _ => txn_io (txn_delete txn (KCompaction id) Exists_)
                 | None => sret txn
                 end in
      plan_deletes batch txn
  end.

Definition plan_batch (groups : list (bytes * list N)) (batch : list CompactionTransaction) : hop BatchPlan :=
  do? p := plan_segments groups {| bp_txn := txn_new; bp_reclaim_after := []; bp_memory_bits := [] |} in
  do? txn := plan_deletes batch (bp_txn p) in
  sret {| bp_txn := txn; bp_reclaim_after := bp_reclaim_after p; bp_memory_bits := bp_memory_bits p |}.

Definition batch_committed (p : BatchPlan) : hop unit :=
  sfor (λ '(raw, ordinals, slice_count), mark_acked_ordinals_in_memory raw ordinals slice_count) (bp_memory_bits p) ;!
  sfor (λ '(raw, location), after_reclaim location raw) (bp_reclaim_after p).

Fixpoint flush_attempts (n : nat) (groups : list (bytes * list N)) (batch : list CompactionTransaction) : hop N :=
  match n with
  | O => serr (Raised CatalogConflict)
  | Datatypes.S n =>
      do? p := plan_batch groups batch in
      match txn_ops (bp_txn p) with
      | [] => sret (N.of_nat (length batch))
      | _ =>
          λ h, match commit_durable (bp_txn p) (others n h) with
               | (Ok _, h') => (batch_committed p ;! sret (N.of_nat (length batch))) h'
               | (Err (Raised CatalogConflict), h') => flush_attempts n groups batch h'
               | (Err e, h') => (Err e, h')
               end
      end
  end.

(** The order in which a hash map of ordinals by segment iterates. *)
Context (iter_groups : list (bytes * list N) → list (bytes * list N)).

Definition flush_acked_batch (batch : list CompactionTransaction) : hop N :=
  do? grouped := group_refs (concat (tx_refs <$> batch)) ∅ in
  flush_attempts RECLAIM_OCC_ATTEMPTS (iter_groups (map_to_list grouped)) batch.

(** Errors other than a conflict leave the batch for the next time. *)
Definition flush_or_defer (batch : list CompactionTransaction) : hop unit :=
  λ h, match flush_acked_batch batch h with
       | (Ok _, h') => (Ok tt, h')
       | (Err (Raised CatalogConflict), h') => (Err (Raised CatalogConflict), h')
       | (Err (Raised _), h') => (Ok tt, h')
       | (Err e, h') => (Err e, h')
       end.

Fixpoint redo_batches (txns : list CompactionTransaction) (batch : list CompactionTransaction) : hop unit :=
  match txns with
  | [] => match batch with [] => sret tt | _ => flush_or_defer batch end
  | t :: txns =>
      let batch := batch ++ [t] in
      if length batch <? REDO_ACKED_BATCH then redo_batches txns batch
      else flush_or_defer batch ;! redo_batches txns []
  end.

Definition redo_acked_durable_batches (acked_ids : list bytes) : hop unit :=
  do? txns := compaction_transactions in
  redo_batches (filter (λ t, tx_id t ∈ acked_ids) txns) [].

Definition done_or_unknown (txn : CompactionTransaction) : hop bool :=
  λ h, match all_refs_already_done txn h with
       | (Err (Raised _), h') => (Ok false, h')
       | other => other
       end.

Fixpoint acked_of (txns : list CompactionTransaction) : hop (list bytes) :=
  match txns with
  | [] => sret []
  | t :: txns =>
      do? bits_done := done_or_unknown t in
      do? rest := acked_of txns in
      sret (if negb (bool_decide (tx_state t = TxAcked)) && negb bits_done then rest else tx_id t :: rest)
  end.

Definition apply_acked_in_memory : hop (list bytes) :=
  hydrate_in_memory_done ;!
  do? txns := compaction_transactions in
  acked_of txns.

Definition redo_acked_compactions : hop unit :=
  do? acked := apply_acked_in_memory in
  match acked with
  | [] => sret tt
  | _ => redo_acked_durable_batches acked
  end.

(** ** Republishing at startup *)

Definition publish_error_display (e : OffsetPublishError) : bytes :=
  match e with
  | Corrupt d => str "corrupt offset payload: " ++ d
  | Transient d => str "transient offset publish error: " ++ d
  | FenceRegression => str "offset fence regression"
  end.

Definition publish_io (offsets : list CommittedOffset) (checkpoints : list CommittedCheckpoint) (seq : CatalogSeq)
    : hop unit :=
  on_offsets (publish_committed offsets checkpoints (epoch_get (fence_epoch fence)) (seq_get seq) Republish)
    (λ e, Raised (DIo (publish_error_display e))).

Definition republish_segment (row : SegmentRow) : hop unit :=
  publish_io (sr_offsets row) (sr_checkpoints row) (sr_seq row).

Definition as_control (e : CatalogKey * CatalogRow) : option (CatalogKey * ControlRow) :=
  match e.2 with RControl row => Some (e.1, row) | _ => None end.

Definition republish_control (e : CatalogKey * ControlRow) : hop unit :=
  match ct_body e.2 with
  | CBCheckpoint logical_key envelope =>
      publish_io [] [{| cp_logical_key := logical_key; cp_envelope := envelope |}] (ct_seq e.2)
  | CBOffsetHint position closed =>
      match e.1 with
      | KOffsetHint hint =>
          publish_io [{| off_namespace := hint_namespace hint; off_partition := hint_partition hint;
                         off_filesize := 0; off_position := position; off_closed := if closed then 1 else 0 |}]
            [] (ct_seq e.2)
      | _ => sret tt
      end
  end.

Definition republish_all : hop unit :=
  do? rows := query_rows PSegment in
  sfor republish_segment (sort_by_key (λ r, seq_get (sr_seq r)) (omap as_segment rows)) ;!
  do? checkpoints := query_rows PCheckpoint in
  do? hints := query_rows POffsetHint in
  let controls := omap as_control checkpoints ++ omap as_control hints in
  sfor republish_control (sort_by_key (λ e, seq_get (ct_seq e.2)) controls) ;!
  on_offsets offset_flush (λ e, Raised (DIo e)).

Definition ensure_format_clean : hop unit :=
  do? row := get_row KFormat in
  match row with
  | Some (RFormat _) => sret tt
  | Some _ => serr (Raised (ProtocolMismatch (str "wal#format is not a FormatRow")))
  | None =>
      do? txn := txn_io (txn_put txn_new KFormat
                   (RFormat {| fr_version := FORMAT_VERSION; fr_phase := Clean; fr_row_version := 0 |}) NotExists) in
      flushing_commit txn
  end.
End Handle.
#[global] Arguments Handle : clear implicits.
