(* ===== verification/WalDurability.v ===== *)
(** * WalDurability: a live segment has its payload, an acknowledged one is committed

    A small program logic for the operations of [WalHandle] over a store whose reads,
    commits and syncs may fail and a disk whose every step may fail, and the invariant that
    every segment row on the disk points to its own file with the digest of the row. *)

From S2P Require Import CatalogOutbox.
From S2P Require Import Prelude Bytes Text Io Codec Lease CatalogKey CatalogRow Store Catalog SledMigrate.
From S2P Require Import Cdc OffsetStore CopyWal SegmentFile SourceContract WalSlice WalHandle.

(** ** Triples

    [triple P m Q E]: from a state with [P], [m] returns a value and a state with [Q], or
    fails in a state with [E]. *)
Definition triple {H A} (P : H → Prop) (m : st H failure A) (Q : A → H → Prop) (E : H → Prop) : Prop :=
  ∀ h, P h → match m h with (Ok a, h') => Q a h' | (Err _, h') => E h' end.

Lemma triple_bind {H A B} P (m : st H failure A) (f : A → st H failure B) R Q E :
  triple P m R E → (∀ a, triple (R a) (f a) Q E) → triple P (sbind m f) Q E.
Proof.
  intros Hm Hf h Hp. unfold sbind. specialize (Hm h Hp). destruct (m h) as [[a|e] h']; [|done]. by apply Hf.
Qed.

Lemma triple_ret {H A} (P : H → Prop) (a : A) (Q : A → H → Prop) E : (∀ h, P h → Q a h) → triple P (sret a) Q E.
Proof. intros Hq h Hp. by apply Hq. Qed.

Lemma triple_err {H A} (P : H → Prop) e (Q : A → H → Prop) E : (∀ h, P h → E h) → triple P (serr e) Q E.
Proof. intros Hq h Hp. by apply Hq. Qed.

Lemma triple_conseq {H A} (P P' : H → Prop) m (Q Q' : A → H → Prop) (E E' : H → Prop) :
  triple P' m Q' E' → (∀ h, P h → P' h) → (∀ a h, Q' a h → Q a h) → (∀ h, E' h → E h) → triple P m Q E.
Proof. intros Ht HP HQ HE h Hp. specialize (Ht h (HP h Hp)). destruct (m h) as [[a|e] h']; auto. Qed.

Lemma triple_lift {H A} (P : H → Prop) (r : result failure A) (Q : A → H → Prop) (E : H → Prop) :
  (∀ h, P h → E h) → (∀ a h, r = Ok a → P h → Q a h) → triple P (slift r) Q E.
Proof. intros HE HQ h Hp. unfold slift. destruct r as [a|e]; auto. Qed.

Lemma triple_read {H A} (P : H → Prop) (f : H → result failure A) (Q : A → H → Prop) (E : H → Prop) :
  (∀ h, P h → E h) → (∀ a h, f h = Ok a → P h → Q a h) → triple P (sread f) Q E.
Proof. intros HE HQ h Hp. unfold sread. destruct (f h) as [a|e] eqn:Ef; auto. Qed.

Lemma triple_pure {H A} (X : Prop) (P : H → Prop) m (Q : A → H → Prop) (E : H → Prop) :
  (X → triple P m Q E) → triple (λ h, X ∧ P h) m Q E.
Proof. intros Ht h [Hx Hp]. by apply (Ht Hx). Qed.

Lemma triple_ex {H A X} (P : X → H → Prop) m (Q : A → H → Prop) (E : H → Prop) :
  (∀ x, triple (P x) m Q E) → triple (λ h, ∃ x, P x h) m Q E.
Proof. intros Ht h [x Hp]. by apply (Ht x). Qed.

Lemma triple_sfor {H A} (P : H → Prop) (f : A → st H failure unit) (l : list A) (E : H → Prop) :
  (∀ x, x ∈ l → triple P (f x) (λ _, P) E) → triple P (sfor f l) (λ _, P) E.
Proof.
  induction l as [|x l IH]; intros Hf; [by apply triple_ret|]. simpl. eapply triple_bind; [apply Hf; by left|].
  intros []. apply IH. intros y Hy. apply Hf. by right.
Qed.

Section Durability.
Context {RC : Codec CatalogRow} {DG : Digest} {S W Db Tree : Type} `{HL : StoreLaws S} {SW : SledWorld W Db Tree}.
Context {RB Sc : Type} {AI : ArrowIpc RB Sc} {CK : Codec PartitionKey} {CM : Codec WalPartMeta}
  {CO : Codec (gmap OffsetKey N)} {CE : Codec CheckpointEnvelope} {CT : Codec CompactionTransaction}.
Context {B : Type} {OB : ObjectStore B}.
Context (fs_display : FsErr → bytes) (is_enospc : FsErr → bool) (faults : N → option FsErr) (torn : N → nat).
Context (paths : PipelinePaths) (fence : CatalogFence) (min_unconsumed_seq : N) (fuel : nat).
Notation hst := (Handle S W B).
Notation cat := (gmap CatalogKey CatalogRow).
Implicit Types (h : hst) (c : cat).

(** ** Views of a state *)

Definition files (h : hst) : gmap bytes bytes := d_files (h_disk h).

(** The catalog of a state. *)
Definition cview (h : hst) (c : cat) : Prop := catalog_rel (contents (catalog_of h)) c.

(** The same payloads. *)
Definition payloads_kept (h h' : hst) : Prop := files h' = files h.

(** ** The operations on the store *)

Lemma get_row_run k h : (get_row k h).2 = h.
Proof. done. Qed.

Lemma get_row_Ok k h c v : cview h c → CatalogKey.wf_key k → (get_row k h).1 = Ok v → v = c !! k.
Proof.
  intros Hv Hk. unfold get_row, sread, catalog_io. simpl. intros Hg%map_err_Ok.
  unfold catalog_get in Hg. destruct (kv_get (catalog_of h) (ckey k)) as [bs|] eqn:E; [|done].
  apply kv_get_spec in E as ->. simpl in Hg. pose proof (rel_existing _ _ _ Hv Hk) as Hex.
  destruct (contents (catalog_of h) !! ckey k) as [x|], (c !! k) as [r|]; simpl in *; try done.
  - rewrite (decode_encode_row _ _ Hex) in Hg. simpl in Hg. congruence.
  - congruence.
Qed.

Lemma flushing_commit_run txn h c :
  cview h c → Forall (λ op, CatalogKey.wf_key (op_ckey op)) (txn_ops txn) →
  let '(r, h') := flushing_commit fence txn h in
  files h' = files h ∧
  ((∃ c', spec_commit (txn_ops txn) c = Ok c' ∧ cview h' c') ∨ (is_ok r = false ∧ cview h' c)).
Proof.
  intros Hv Hw. unfold flushing_commit, on_offsets, on_kv.
  destruct (catalog_commit_durable txn fence (so_store (h_store h))) as [r s'] eqn:E.
  pose proof (catalog_commit_fallible txn fence _ s' c r Hv Hw E) as Hf. simpl. split; [done|].
  destruct Hf as [(c' & Hc & Hr)|[Hr Hc]]; [left; by exists c'|right].
  split; [by destruct r|]. unfold cview, catalog_of. simpl. by rewrite Hc.
Qed.

(** Publishing writes to the offsets only. *)
Lemma kv_offsets_only ops fence0 (s : S) c :
  Forall (λ op, ¬ family_prefix Catalog `prefix_of` op_key op) ops →
  catalog_rel (contents s) c → catalog_rel (contents (kv_commit ops fence0 s).2) c.
Proof.
  intros Ho Hr.
  assert (catalog_rel (apply_kv_ops ops (contents s)) c) as Ha.
  { eapply catalog_rel_other; [|exact Hr]. intros key Hp. apply apply_kv_ops_other. intros Hin.
    apply list_elem_of_fmap in Hin as (op & -> & Hop). rewrite Forall_forall in Ho. by apply (Ho op). }
  destruct (kv_commit ops fence0 s) as [[[]|e] s'] eqn:E; simpl.
  - by rewrite (kv_commit_Ok _ _ _ _ E).
  - by destruct (kv_commit_Err _ _ _ _ _ E) as [->| ->].
Qed.

Lemma offsets_not_catalog k : ¬ family_prefix Catalog `prefix_of` family_key Offsets k.
Proof. intros [r E]. by apply (f_equal (take 8)) in E; vm_compute in E. Qed.

Definition store_view (o : StoreOffsetStore S W) (c : cat) : Prop := catalog_rel (contents (so_store o)) c.

Lemma publish_item_view sk bs e q sha mode (o : StoreOffsetStore S W) c :
  store_view o c → store_view (store_publish_wal_commit sk bs e q sha mode o).2 c.
Proof.
  intros Hv. unfold store_publish_wal_commit, sbind, sread, slift.
  destruct (map_err Transient (family_get o Offsets (fence_key sk))) as [v|err]; [|done].
  destruct (decide_wal_publish _ _ _ _ _) as [[]|err]; [|done|done]. unfold smap_err, on_kv.
  pose proof (kv_offsets_only [KvPut (family_key Offsets sk) bs; KvPut (family_key Offsets (fence_key sk)) (encode_fence e q sha)]
    (so_fence o) (so_store o) c) as Hk.
  destruct (kv_commit _ (so_fence o) (so_store o)) as [r s']. simpl in *. apply Hk; [|done].
  repeat constructor; apply offsets_not_catalog.
Qed.

Lemma publish_committed_view offsets cps e q mode (o : StoreOffsetStore S W) c :
  store_view o c → store_view (publish_committed offsets cps e q mode o).2 c.
Proof.
  pose (R := λ o o' : StoreOffsetStore S W, store_view o c → store_view o' c).
  assert (PreOrder R) as HR by (split; [intros x Hx; exact Hx|intros x y z H1 H2 Hx; by apply H2, H1]).
  change (R o (publish_committed offsets cps e q mode o).2). unfold publish_committed.
  apply sbind_rel; [apply _| |intros _]; apply (sfor_rel R); intros x t _; unfold R; intros Ht;
    unfold publish_offset, publish_checkpoint, sbind, sread; simpl; by apply publish_item_view.
Qed.

Lemma offset_flush_view (o : StoreOffsetStore S W) c : store_view o c → store_view (store_flush o).2 c.
Proof.
  intros Hv. unfold store_flush, smap_err, on_kv, store_view in *. pose proof (kv_flush_contents (so_store o)) as Hf.
  destruct (kv_flush_durable (so_store o)) as [r s']. simpl in *. by rewrite Hf.
Qed.

(** ** The invariant *)

(** A payload on the disk is the file of its segment, and the file has the digest. *)
Definition payload_at (fs : gmap bytes bytes) (id : SegmentId) (location : PayloadLocation) (sha : bytes) : Prop :=
  ∀ path, location = CatalogRow.Disk path →
    path = seg_path paths (segment_id_str id) ∧
    ∃ bs, fs !! path = Some bs ∧ verify_body_checksum bs = Ok sha.

Definition row_ok (fs : gmap bytes bytes) (id : SegmentId) (row : SegmentRow) : Prop :=
  payload_at fs id (sr_location row) (sr_payload_sha256 row).

Definition payloads_ok (c : cat) (fs : gmap bytes bytes) : Prop :=
  ∀ id row, c !! KSegment id = Some (RSegment row) → row_ok fs id row.

Definition sound (c : cat) (h : hst) : Prop := cview h c ∧ payloads_ok c (files h).

Definition inv (h : hst) : Prop := ∃ c, sound c h.

Lemma sound_inv c h : sound c h → inv h.
Proof. by exists c. Qed.

Lemma triple_inv {A} (m : st hst failure A) Q E : (∀ c, triple (sound c) m Q E) → triple inv m Q E.
Proof. apply triple_ex. Qed.

(** Paths of segments. *)
Hypothesis segs_dir : segs paths ≠ [].

Lemma seg_path_inj x y : valid_component x → valid_component y → seg_path paths x = seg_path paths y → x = y.
Proof.
  assert (∀ x, valid_component x → head (x ++ str ".seg") ≠ Some x2f) as Hh.
  { intros z [Hv _]. destruct z as [|c z]; [done|]. simpl. intros [= ->].
    unfold validate_path_component in Hv. case_decide; [done|]. unfold contains in Hv. simpl in Hv. done. }
  intros Hx Hy. unfold seg_path, path_join. rewrite !decide_False by auto.
  destruct (last (segs paths)) as [c|] eqn:E; [|by apply last_None in E].
  case_decide; intros Heq; apply (inj (app _)) in Heq; [|injection Heq as Heq]; by apply app_inj_2 in Heq as [-> _].
Qed.

Lemma path_join_suffix b p : ∃ pre, path_join b p = pre ++ p.
Proof.
  unfold path_join. case_decide; [by exists []|]. destruct (last b); [|by exists []].
  case_decide; [by exists b|]. exists (b ++ [x2f]). by rewrite <- app_assoc.
Qed.

Lemma seg_tmp_other x y : seg_tmp_path paths x ≠ seg_path paths y.
Proof.
  unfold seg_tmp_path, seg_path. intros Heq.
  destruct (path_join_suffix (segs paths) ((file_parts (x ++ str ".seg")).1 ++ str ".seg.tmp")) as [p1 E1].
  destruct (path_join_suffix (segs paths) (y ++ str ".seg")) as [p2 E2].
  rewrite E1, E2 in Heq. apply (f_equal last) in Heq. rewrite !last_app in Heq. by vm_compute in Heq.
Qed.

(** ** Operations on the catalog *)

Definition op_safe (fs : gmap bytes bytes) (op : CatalogOp) : Prop :=
  match op with
  | OpPut (KSegment id) (RSegment row) _ => row_ok fs id row
  | _ => True
  end.

Lemma payloads_ok_apply fs ops c :
  payloads_ok c fs → Forall (op_safe fs) ops → payloads_ok (foldl spec_apply c ops) fs.
Proof.
  intros Hc Hf. revert c Hc. induction Hf as [|op ops Ho Hf IH]; intros c Hc; [done|]. simpl. apply IH.
  intros id row. destruct op as [k r cond|k cond]; simpl.
  - destruct (decide (k = KSegment id)) as [->|Hne]; [|rewrite lookup_insert_ne by done; apply Hc].
    rewrite lookup_insert_eq. intros [= ->]. exact Ho.
  - intros [_ Hr]%lookup_delete_Some. by apply Hc.
Qed.

Lemma commit_sound (txn : CatalogTxn) c (X : gmap bytes bytes → Prop) :
  Forall (λ op, CatalogKey.wf_key (op_ckey op)) (txn_ops txn) →
  (∀ fs, payloads_ok c fs → X fs → Forall (op_safe fs) (txn_ops txn)) →
  triple (λ h, sound c h ∧ X (files h)) (commit_durable fence txn)
    (λ _ h, ∃ c', spec_commit (txn_ops txn) c = Ok c' ∧ sound c' h ∧ X (files h)) inv.
Proof.
  intros Hw Hs h [[Hv Hp] HX]. unfold commit_durable. pose proof (flushing_commit_run txn h c Hv Hw) as Hr.
  destruct (flushing_commit fence txn h) as [r h']. destruct Hr as [Hf [(c' & Hc & Hv')|[Hr Hv']]].
  - assert (sound c' h') as Hsd.
    { split; [done|]. rewrite Hf. apply spec_commit_Ok in Hc as [_ ->]. apply payloads_ok_apply; auto. }
    destruct r as [[]|e]; [exists c'; by rewrite Hf|by exists c'].
  - destruct r as [[]|e]; [done|]. exists c. split; [done|]. by rewrite Hf.
Qed.

Lemma get_row_sound k c :
  CatalogKey.wf_key k → triple (sound c) (get_row k) (λ v h, v = c !! k ∧ sound c h) inv.
Proof.
  intros Hk h Hs. pose proof (get_row_run k h) as Hh. pose proof (get_row_Ok k h c) as Hv.
  destruct (get_row k h) as [[v|e] h']; simpl in *; subst h'; [|by exists c]. split; [|done].
  apply Hv; [apply Hs|done|done].
Qed.

Lemma on_offsets_sound {E A} (m : st (StoreOffsetStore S W) E A) f c :
  (∀ o, store_view o c → store_view (m o).2 c) →
  triple (sound c) (on_offsets m f) (λ _, sound c) inv.
Proof.
  intros Hm h [Hv Hp]. unfold on_offsets. specialize (Hm (h_store h) Hv).
  destruct (m (h_store h)) as [[a|e] s']; simpl in *; [done|]. by exists c.
Qed.

(** A state that differs in its counters, its bits or its forgotten segments only. *)
Lemma modify_sound f c : (∀ h, h_store (f h) = h_store h ∧ h_disk (f h) = h_disk h) →
  triple (sound c) (modify f) (λ _, sound c) inv.
Proof.
  intros Hf h [Hv Hp]. unfold modify. destruct (Hf h) as [H1 H2]. unfold sound, cview, catalog_of, files in *.
  by rewrite H1, H2.
Qed.

(** ** Writing a payload *)

(** The store is [s], and the files are [fs] but for the temporary file and the target. *)
Definition writing (s : StoreOffsetStore S W) (fs : gmap bytes bytes) (tmp path : bytes) (h : hst) : Prop :=
  h_store h = s ∧ ∀ p, p ≠ tmp → p ≠ path → files h !! p = fs !! p.

Lemma on_files_step {A} (m : CatalogOutbox.Disk → result FsErr A * CatalogOutbox.Disk) f (P : hst → Prop) (Q : A → hst → Prop) :
  (∀ h, P h → let '(r, d) := m (h_disk h) in
     let h' := set_payloads d (h_objects h) h in
     match r with Ok a => Q a h' | Err _ => P h' end) →
  triple P (on_files m f) Q P.
Proof.
  intros Hm h Hp. unfold on_files. specialize (Hm h Hp). destruct (m (h_disk h)) as [[a|e] d]; done.
Qed.

Lemma sync_writing s fs tmp path p bs f :
  triple (λ h, writing s fs tmp path h ∧ files h !! p = Some bs) (on_files (file_sync faults) f)
    (λ _ h, writing s fs tmp path h ∧ files h !! p = Some bs) (writing s fs tmp path).
Proof.
  eapply triple_conseq; [eapply (on_files_step (file_sync faults) _ (λ h, writing s fs tmp path h ∧ files h !! p = Some bs))
    |done| |by intros ? []].
  - intros h Hh. unfold file_sync, fs_op. destruct (faults _); [exact Hh|].
    instantiate (1 := λ _ h, writing s fs tmp path h ∧ files h !! p = Some bs). exact Hh.
  - done.
Qed.

Lemma write_payload_sound s fs tmp path bs :
  tmp ≠ path →
  triple (writing s fs tmp path) (write_payload_atomically fs_display is_enospc faults torn path tmp bs)
    (λ _ h, writing s fs tmp path h ∧ files h !! path = Some bs) (writing s fs tmp path).
Proof.
  intros Hne. unfold write_payload_atomically. set (P := writing s fs tmp path).
  eapply (triple_bind _ _ _ (λ _, P)); [by apply triple_read|]. intros stale.
  eapply (triple_bind _ _ _ (λ _, P)); [|intros []; eapply (triple_bind _ _ _ (λ _, P)); [|intros []]].
  - destruct stale; [|by apply triple_ret]. apply on_files_step. intros h [H1 H2]. unfold file_remove, fs_op.
    destruct (faults _); [done|]. destruct (d_files (h_disk h) !! tmp); [|done]. split; [done|].
    intros p Hp1 Hp2. unfold files in *. simpl. rewrite lookup_delete_ne by done. auto.
  - apply on_files_step. intros h [H1 H2]. unfold file_create_new, fs_op.
    destruct (faults _); [done|]. destruct (d_files (h_disk h) !! tmp); [done|]. split; [done|].
    intros p Hp1 Hp2. unfold files in *. simpl. rewrite lookup_insert_ne by done. auto.
  - eapply (triple_bind _ _ _ (λ _ h, P h ∧ files h !! tmp = Some bs)); [|intros []].
    { apply on_files_step. intros h [H1 H2]. unfold file_write. destruct (faults _).
      - split; [done|]. intros p Hp1 Hp2. unfold files in *. simpl. rewrite lookup_insert_ne by done. auto.
      - split; [split; [done|]|unfold files; simpl; by rewrite lookup_insert_eq].
        intros p Hp1 Hp2. unfold files in *. simpl. rewrite lookup_insert_ne by done. auto. }
    eapply (triple_bind _ _ _ (λ _ h, P h ∧ files h !! tmp = Some bs)); [by apply sync_writing|intros []].
    eapply (triple_bind _ _ _ (λ _ h, P h ∧ files h !! path = Some bs)); [|intros []; by apply sync_writing].
    eapply triple_conseq; [apply (on_files_step (file_rename faults tmp path) _ (λ h, P h ∧ files h !! tmp = Some bs)
      (λ _ h, P h ∧ files h !! path = Some bs))|done|done|by intros ? []].
    intros h [[H1 H2] Ht]. unfold file_rename, fs_op. destruct (faults _); [done|].
    unfold files in Ht. rewrite Ht. split; [split; [done|]|unfold files; simpl; by rewrite lookup_insert_eq].
    intros p Hp1 Hp2. unfold files in *. simpl. rewrite lookup_insert_ne, lookup_delete_ne by done. auto.
Qed.

(** Writing the payload of a segment that has no row. *)
Lemma write_new_payload c raw bs :
  c !! KSegment {| segment_id_str := raw |} = None → valid_component raw →
  triple (sound c) (write_payload_atomically fs_display is_enospc faults torn (seg_path paths raw) (seg_tmp_path paths raw) bs)
    (λ _ h, sound c h ∧ files h !! seg_path paths raw = Some bs) inv.
Proof.
  intros Hn Hraw h [Hv Hp].
  pose proof (write_payload_sound (h_store h) (files h) (seg_tmp_path paths raw) (seg_path paths raw) bs (seg_tmp_other raw raw) h) as Hw.
  assert (∀ h', writing (h_store h) (files h) (seg_tmp_path paths raw) (seg_path paths raw) h' → sound c h') as Hs.
  { intros h' [H1 H2]. split; [unfold cview, catalog_of in *; by rewrite H1|]. intros id row Hr path Hpath.
    destruct (Hp id row Hr path Hpath) as (-> & x & Hx & Hsha). split; [done|]. exists x. split; [|done].
    assert (id ≠ {| segment_id_str := raw |}) as Hne by congruence.
    destruct (rel_stored _ _ Hv _ _ Hr) as [Hid _]. rewrite H2; [done|apply not_eq_sym, seg_tmp_other|].
    intros Heq%seg_path_inj; [|done|done]. apply Hne. by destruct id; simpl in *; subst. }
  specialize (Hw ltac:(done)). destruct (write_payload_atomically _ _ _ _ _ _ _ _) as [[[]|e] h'].
  - destruct Hw as [Hw ?]. split; [by apply Hs|done].
  - exists c. by apply Hs.
Qed.

(** ** Publishing, counters and sequence numbers keep the state sound *)

Lemma triple_sloop {A X} (P : hst → Prop) n (body : X → st hst failure (X + A)) x E :
  (∀ x, triple P (body x) (λ _, P) E) → triple P (sloop n body x) (λ _, P) E.
Proof.
  intros Hb. revert x. induction n as [|n IH]; intros x; [by apply triple_ret|]. simpl.
  eapply triple_bind; [apply Hb|]. intros [x'|a]; simpl; [apply IH|by apply triple_ret].
Qed.

(** Operations that may change the offsets, the counters and the bits in memory only. *)
Definition quiet {A} (m : st hst failure A) : Prop :=
  ∀ c, triple (sound c) m (λ _, sound c) inv.

Lemma wal_quiet_bind {A B'} (m : st hst failure A) (f : A → st hst failure B') :
  quiet m → (∀ a, quiet (f a)) → quiet (sbind m f).
Proof. intros Hm Hf c. eapply triple_bind; [apply Hm|]. intros a. apply Hf. Qed.

Lemma wal_quiet_lift {A} (r : result failure A) : quiet (slift r).
Proof. intros c. apply triple_lift; [apply sound_inv|done]. Qed.
Lemma wal_quiet_read {A} (f : hst → result failure A) : quiet (sread f).
Proof. intros c. apply triple_read; [apply sound_inv|done]. Qed.
Lemma wal_quiet_ret {A} (a : A) : quiet (sret a).
Proof. intros c. by apply triple_ret. Qed.
Lemma wal_quiet_err {A} e : quiet (serr e : st hst failure A).
Proof. intros c. apply triple_err. apply sound_inv. Qed.
Lemma quiet_get k : quiet (get_row k).
Proof. apply wal_quiet_read. Qed.
Lemma quiet_query p : quiet (query_rows fuel p).
Proof. apply wal_quiet_read. Qed.
Lemma quiet_modify f : (∀ h, h_store (f h) = h_store h ∧ h_disk (f h) = h_disk h) → quiet (modify f).
Proof. intros Hf c. by apply modify_sound. Qed.
Lemma quiet_sfor {A} (f : A → st hst failure unit) l : (∀ x, quiet (f x)) → quiet (sfor f l).
Proof. intros Hf c. apply triple_sfor. intros x _. apply Hf. Qed.
Lemma quiet_flush f : quiet (on_offsets offset_flush f).
Proof. intros c. apply on_offsets_sound. intros o. apply offset_flush_view. Qed.

Create HintDb wal_quiet.
#[local] Hint Resolve wal_quiet_bind wal_quiet_lift wal_quiet_read wal_quiet_ret wal_quiet_err quiet_get quiet_query quiet_flush quiet_sfor : wal_quiet.
#[local] Hint Extern 1 (quiet (modify _)) => apply quiet_modify; done : wal_quiet.
#[local] Hint Extern 1 (quiet (if ?b then _ else _)) => destruct b : wal_quiet.
#[local] Hint Extern 1 (quiet (match ?b with _ => _ end)) => destruct b : wal_quiet.
Ltac quiet_steps := solve [repeat (first [apply wal_quiet_bind; [|intros] | progress auto with wal_quiet])].

Lemma quiet_publish_once seq offsets cps : quiet (publish_once fence seq offsets cps).
Proof.
  intros c h [Hv Hp]. unfold publish_once.
  pose proof (publish_committed_view offsets cps (epoch_get (fence_epoch fence)) (seq_get seq) Fresh (h_store h) c Hv) as Hs.
  destruct (publish_committed _ _ _ _ _ (h_store h)) as [r s']. simpl in Hs.
  assert (sound c (set_store s' h)) as Hh by (split; done).
  destruct r as [u|[d|d| ]]; [|by exists c|done|by exists c].
  assert (quiet (on_offsets offset_flush (λ e, Raised (DIo e)) ;! modify (set_published seq) ;! sret (A := unit + unit) (inr tt))) as Hq
    by quiet_steps.
  exact (Hq c _ Hh).
Qed.

Lemma quiet_publish_seq seq offsets cps : quiet (publish_seq fence fuel seq offsets cps).
Proof.
  unfold publish_seq. apply wal_quiet_bind; [|intros; apply wal_quiet_lift]. intros c. apply triple_sloop. intros _.
  apply quiet_publish_once.
Qed.

Lemma quiet_republish_all : quiet (republish_all fence fuel).
Proof.
  assert (∀ o k q, quiet (publish_io fence o k q)) as Hio.
  { intros o k q c. apply on_offsets_sound. intros x. apply publish_committed_view. }
  assert (∀ r, quiet (republish_segment fence r)) as H1 by (intros r; apply Hio).
  assert (∀ e, quiet (republish_control fence e)) as H2.
  { intros e. unfold republish_control. destruct (ct_body e.2); [apply Hio|]. destruct e.1; try apply wal_quiet_ret. apply Hio. }
  unfold republish_all. quiet_steps.
Qed.

Lemma quiet_live : quiet (live_segment_rows fuel).
Proof. unfold live_segment_rows. quiet_steps. Qed.

Lemma quiet_hydrate : quiet (hydrate_in_memory_done fuel).
Proof. unfold hydrate_in_memory_done. apply wal_quiet_bind; [apply quiet_live|]. intros rows. quiet_steps. Qed.

Lemma quiet_mark raw ordinals n : quiet (mark_acked_ordinals_in_memory raw ordinals n).
Proof.
  intros c h Hs. unfold mark_acked_ordinals_in_memory. cbv zeta. destruct (or_bits _ _); [exact Hs|by exists c].
Qed.

Lemma quiet_compaction_transactions : quiet (compaction_transactions fuel).
Proof. unfold compaction_transactions. quiet_steps. Qed.

(** ** Operations that keep the invariant *)

Definition safe {A} (m : st hst failure A) : Prop := triple inv m (λ _, inv) inv.

Lemma quiet_safe {A} (m : st hst failure A) : quiet m → safe m.
Proof. intros Hq. apply triple_inv. intros c. eapply triple_conseq; [apply Hq|done|intros a; apply sound_inv|done]. Qed.

Lemma safe_bind {A B'} (m : st hst failure A) (f : A → st hst failure B') : safe m → (∀ a, safe (f a)) → safe (sbind m f).
Proof. intros Hm Hf. eapply triple_bind; [apply Hm|]. intros a. apply Hf. Qed.

Lemma safe_lift_bind {A B'} (r : result failure A) (f : A → st hst failure B') :
  (∀ a, r = Ok a → safe (f a)) → safe (sbind (slift r) f).
Proof.
  intros Hf h Hi. unfold sbind, slift. destruct r as [a|e]; [|done]. by apply (Hf a).
Qed.

Definition plain_op (op : CatalogOp) : Prop :=
  CatalogKey.wf_key (op_ckey op) ∧ ∀ fs, op_safe fs op.

Lemma commit_plain (txn : CatalogTxn) : Forall plain_op (txn_ops txn) → safe (commit_durable fence txn).
Proof.
  intros Hf. apply triple_inv. intros c. eapply triple_conseq; [apply (commit_sound txn c (λ _, True))| | |done].
  - eapply Forall_impl; [exact Hf|]. by intros op [? _].
  - intros fs _ _. eapply Forall_impl; [exact Hf|]. intros op [_ ?]. auto.
  - done.
  - intros _ h (c' & _ & Hs & _). by exists c'.
Qed.

Lemma txn_io_bind {B'} r (f : CatalogTxn → st hst failure B') :
  (∀ txn, r = Ok txn → safe (f txn)) → safe (sbind (txn_io r) f).
Proof.
  intros Hf. unfold txn_io. apply safe_lift_bind. intros txn Ht. apply Hf.
  unfold catalog_io in Ht. by apply map_err_Ok in Ht.
Qed.

Lemma txn_put_ops txn k r cond txn' : txn_put txn k r cond = Ok txn' → txn_ops txn' = txn_ops txn ++ [OpPut k r cond].
Proof. unfold txn_put. by intros (-> & _ & _)%txn_push_Ok. Qed.

Lemma txn_delete_ops txn k cond txn' : txn_delete txn k cond = Ok txn' → txn_ops txn' = txn_ops txn ++ [OpDelete k cond].
Proof. unfold txn_delete. by intros (-> & _ & _)%txn_push_Ok. Qed.

Lemma component_ok {A} (r : result PathError A) a : path_io r = Ok a → r = Ok a.
Proof. unfold path_io. by intros ?%map_err_Ok. Qed.

Lemma quiet_below_ceiling : quiet (below_ceiling (S := S) (W := W) (B := B)).
Proof. unfold below_ceiling. quiet_steps. Qed.

Lemma quiet_next_seq : quiet (next_seq (S := S) (W := W) (B := B)).
Proof. unfold next_seq, not_a_seq. apply wal_quiet_bind; [quiet_steps|]. intros [[]|]; quiet_steps. Qed.

Lemma put_compaction_safe raw state body : utf8_valid raw = true → safe (put_compaction fence raw state body).
Proof.
  intros Hu. unfold put_compaction, compaction_id. apply safe_lift_bind. intros id Hid%component_ok.
  unfold CompactionId_new in Hid. inv_res. apply safe_bind; [apply quiet_safe, quiet_get|]. intros existing.
  apply safe_bind; [apply quiet_safe; quiet_steps; destruct existing as [[]|]; quiet_steps|]. intros cv.
  apply txn_io_bind. intros txn Ht%txn_put_ops. apply commit_plain. rewrite Ht. repeat constructor; simpl; [by destruct x|done].
Qed.

Lemma delete_compaction_safe raw : utf8_valid raw = true → safe (delete_compaction fence raw).
Proof.
  intros Hu. unfold delete_compaction, compaction_id. apply safe_lift_bind. intros id Hid%component_ok.
  unfold CompactionId_new in Hid. inv_res. apply txn_io_bind. intros txn Ht%txn_delete_ops. apply commit_plain.
  rewrite Ht. repeat constructor; simpl; [by destruct x|done].
Qed.

Lemma commit_control_safe key body v :
  CatalogKey.wf_key key → (∀ id, key ≠ KSegment id) → safe (commit_control_row fence key body v).
Proof.
  intros Hk Hn. unfold commit_control_row. apply safe_bind; [apply quiet_safe, quiet_below_ceiling|]. intros [].
  apply safe_bind; [apply quiet_safe, quiet_next_seq|]. intros seq.
  apply safe_bind; [apply quiet_safe; destruct v; quiet_steps|]. intros version. cbv zeta.
  apply txn_io_bind. intros t1 H1%txn_put_ops. apply txn_io_bind. intros t2 H2%txn_put_ops.
  apply safe_bind; [|intros []; apply quiet_safe; quiet_steps].
  apply commit_plain. rewrite H2, H1. simpl. apply Forall_cons_2; [split; [done|by destruct key]|]. by apply Forall_singleton.
Qed.

Lemma persist_control_safe key body offsets cps :
  CatalogKey.wf_key key → (∀ id, key ≠ KSegment id) → safe (persist_control fence fuel key body offsets cps).
Proof.
  intros Hk Hn. unfold persist_control. apply safe_bind; [apply quiet_safe, quiet_get|]. intros existing.
  apply safe_bind; [|intros seq; apply quiet_safe, quiet_publish_seq].
  destruct existing as [[]|]; try (by apply commit_control_safe). case_decide; [apply quiet_safe; quiet_steps|by apply commit_control_safe].
Qed.

Lemma persist_checkpoint_safe logical_key envelope :
  utf8_valid logical_key = true → safe (persist_checkpoint fence fuel logical_key envelope).
Proof.
  intros Hu. unfold persist_checkpoint. apply safe_lift_bind. intros bs _. apply safe_lift_bind. intros key Hk%component_ok.
  unfold CheckpointKey_new in Hk. inv_res. apply persist_control_safe; [|done]. split; [by destruct x|done].
Qed.

Lemma persist_offset_hint_safe ns p position closed :
  utf8_valid ns = true → utf8_valid p = true → safe (persist_offset_hint fence fuel ns p position closed).
Proof.
  intros Hu1 Hu2. unfold persist_offset_hint. apply safe_lift_bind. intros key Hk%component_ok.
  unfold OffsetHintKey_new in Hk. inv_res. apply safe_bind; [apply quiet_safe, wal_quiet_read|]. intros existing.
  apply persist_control_safe; [|done]. repeat match goal with u : unit |- _ => destruct u end. done.
Qed.

Lemma ensure_format_clean_safe : safe (ensure_format_clean (S := S) (W := W) (B := B) fence).
Proof.
  unfold ensure_format_clean. apply safe_bind; [apply quiet_safe, quiet_get|]. intros row.
  destruct row as [[]|]; try (apply quiet_safe; quiet_steps; fail).
  apply txn_io_bind. intros t Ht%txn_put_ops. apply commit_plain. rewrite Ht. by apply Forall_singleton.
Qed.

(** ** Slice indexes *)

Lemma put_slice_index_plain (txn : CatalogTxn) id meta t : ∀ h h' : hst,
  valid_component (segment_id_str id) → put_slice_index txn id meta h = (Ok t, h') →
  h' = h ∧ ∃ extra, txn_ops t = txn_ops txn ++ extra ∧ Forall plain_op extra ∧ Forall (λ op, op_ckey op = KIndex id) extra.
Proof.
  intros h h' Hid. unfold put_slice_index. destruct (slice_dir_entries meta) as [|e l] eqn:E.
  - intros [= -> ->]. split; [done|]. exists []. by rewrite app_nil_r.
  - unfold txn_io, slift. intros [= Ht <-]. split; [done|]. unfold catalog_io in Ht. apply map_err_Ok, txn_put_ops in Ht.
    eexists. split; [exact Ht|]. split; by apply Forall_singleton.
Qed.

Lemma put_slice_index_bind {B'} (txn : CatalogTxn) id meta (f : CatalogTxn → st hst failure B') :
  valid_component (segment_id_str id) →
  (∀ t extra, txn_ops t = txn_ops txn ++ extra → Forall plain_op extra → safe (f t)) →
  safe (sbind (put_slice_index txn id meta) f).
Proof.
  intros Hid Hf h Hi. unfold sbind. destruct (put_slice_index txn id meta h) as [[t|e] h'] eqn:E.
  - destruct (put_slice_index_plain txn id meta t h h' Hid E) as (-> & extra & H1 & H2 & _). by apply (Hf t extra).
  - unfold put_slice_index in E. destruct (slice_dir_entries meta); [done|]. unfold txn_io, slift in E. by injection E as _ <-.
Qed.

Lemma persist_missing_index_safe id meta :
  valid_component (segment_id_str id) → safe (persist_missing_index (S := S) (W := W) (B := B) fence id meta).
Proof.
  intros Hid. unfold persist_missing_index, index_exists.
  apply safe_bind; [apply quiet_safe; quiet_steps|]. intros [|]; [apply quiet_safe; quiet_steps|].
  apply put_slice_index_bind; [done|]. intros t extra Ht Hp. simpl in Ht.
  destruct (txn_ops t) as [|op ops] eqn:E; [apply quiet_safe; quiet_steps|]. intros h Hi.
  pose proof (commit_plain t ltac:(rewrite E, Ht; done) h Hi) as Hc.
  destruct (commit_durable fence t h) as [[[]|[[]| |]] h']; try done. revert h' Hc.
  change (safe (do? present := (do? row := get_row (KIndex id) in sret (bool_decide (is_Some row))) in
                if present : bool then sret tt else serr (Raised CatalogConflict))).
  apply quiet_safe. quiet_steps.
Qed.

Lemma on_files_read_sound {A} (m : CatalogOutbox.Disk → result FsErr A * CatalogOutbox.Disk) f :
  (∀ d, d_files (m d).2 = d_files d) → quiet (on_files m f).
Proof.
  intros Hm c h [Hv Hp]. unfold on_files. specialize (Hm (h_disk h)). destruct (m (h_disk h)) as [r d]. simpl in Hm.
  assert (sound c (set_payloads d (h_objects h) h)) as Hs by (split; [done|]; unfold files; simpl; by rewrite Hm).
  destruct r; [done|by exists c].
Qed.

Lemma quiet_file_read path f : quiet (on_files (file_read faults path) f).
Proof. apply on_files_read_sound. intros d. unfold file_read, fs_op. by destruct (faults _). Qed.

Lemma quiet_file_sync f : quiet (on_files (file_sync faults) f).
Proof. apply on_files_read_sound. intros d. unfold file_sync, fs_op. by destruct (faults _). Qed.

#[local] Hint Resolve quiet_file_read quiet_file_sync : wal_quiet.

Lemma quiet_read_index location : quiet (read_index_location fs_display faults location).
Proof.
  unfold read_index_location, read_index_path, object_bytes, parse_segment. destruct location; quiet_steps.
Qed.

Lemma load_or_build_safe row :
  valid_component (segment_id_str (sr_segment_id row)) → safe (load_or_build_index_meta fs_display faults fence row).
Proof.
  intros Hid. unfold load_or_build_index_meta. apply safe_bind; [apply quiet_safe, quiet_get|]. intros existing.
  assert (safe (do? meta := read_index_location fs_display faults (sr_location row) in
                persist_missing_index fence (sr_segment_id row) meta ;! sret meta)) as Hb.
  { apply safe_bind; [apply quiet_safe, quiet_read_index|]. intros meta.
    apply safe_bind; [by apply persist_missing_index_safe|]. intros []. apply quiet_safe. quiet_steps. }
  destruct existing as [[]|]; try exact Hb. apply quiet_safe. quiet_steps.
Qed.

Lemma resolve_from_payload_safe r id :
  valid_component (segment_id_str id) → safe (resolve_from_payload fs_display faults fence r id).
Proof.
  intros Hid. unfold resolve_from_payload. apply safe_bind; [apply quiet_safe, quiet_get|].
  intros [[seg| | | | | |]|]; try (apply quiet_safe; quiet_steps; fail).
  destruct (sr_location seg); [|apply quiet_safe; quiet_steps].
  apply safe_bind; [apply quiet_safe, (quiet_read_index (CatalogRow.Disk path))|]. intros meta.
  apply safe_bind; [by apply persist_missing_index_safe|]. intros []. apply quiet_safe. quiet_steps.
Qed.

Lemma resolve_ordinal_safe r : utf8_valid (wr_segment_id r) = true → safe (resolve_ordinal fs_display faults fence r).
Proof.
  intros Hu. unfold resolve_ordinal. destruct (wr_ordinal r); [apply quiet_safe; quiet_steps|]. unfold segment_id.
  apply safe_lift_bind. intros id [Hid ->]%component_ok%SegmentId_new_Ok.
  assert (safe (resolve_from_payload fs_display faults fence r {| segment_id_str := wr_segment_id r |})) as Hb
    by (by apply resolve_from_payload_safe).
  apply safe_bind; [apply quiet_safe, quiet_get|]. intros [[|index| | | | |]|]; try exact Hb.
  destruct (find_entry r (si_entries index)); [apply quiet_safe; quiet_steps|exact Hb].
Qed.

Lemma quiet_slice_is_done raw o : quiet (slice_is_done (S := S) (W := W) (B := B) raw o).
Proof.
  unfold slice_is_done, segment_id, segment_row, not_a_segment. apply wal_quiet_bind; [quiet_steps|]. intros [|]; quiet_steps.
Qed.

Lemma all_refs_done_safe refs :
  Forall (λ r, utf8_valid (wr_segment_id r) = true) refs → safe (all_refs_done fs_display faults fence refs).
Proof.
  induction 1 as [|r refs Hr Hf IH]; [apply quiet_safe, wal_quiet_ret|]. cbn [all_refs_done].
  apply safe_bind; [by apply resolve_ordinal_safe|]. intros [o|]; [|apply quiet_safe; quiet_steps].
  apply safe_bind; [apply quiet_safe, quiet_slice_is_done|]. intros [|]; [exact IH|apply quiet_safe; quiet_steps].
Qed.

(** ** Persisting a segment *)

(** What [commit_new_segment] has committed when it returns. *)
Definition committed (id : SegmentId) (encoded : EncodedSnapshot) (location : PayloadLocation)
    (offsets : list CommittedOffset) (cps : list CommittedCheckpoint) (seq : CatalogSeq) (c : cat) : Prop :=
  c !! KSegment id = Some (RSegment (new_segment_row fence id seq encoded location (slices_of encoded) offsets cps)) ∧
  c !! KSeq = Some (RSeq {| max_seq := seq |}) ∧
  match slice_dir_entries (es_meta encoded) with
  | [] => True
  | entries => c !! KIndex id = Some (RIndex {| si_segment_id := id; si_version := 0; si_entries := entries |})
  end.

(** The operations of that transaction. *)
Definition index_ops (id : SegmentId) (meta : SegmentFileMetadata) : list CatalogOp :=
  match slice_dir_entries meta with
  | [] => []
  | entries => [OpPut (KIndex id) (RIndex {| si_segment_id := id; si_version := 0; si_entries := entries |}) NotExists]
  end.

Definition new_segment_ops (id : SegmentId) (row : SegmentRow) (meta : SegmentFileMetadata) : list CatalogOp :=
  OpPut (KSegment id) (RSegment row) NotExists :: index_ops id meta ++ [OpPut KSeq (RSeq {| max_seq := sr_seq row |}) SeqAdvance].

Lemma put_slice_index_ops (txn : CatalogTxn) id meta : ∀ h : hst,
  (put_slice_index txn id meta h).2 = h ∧
  ∀ t, (put_slice_index txn id meta h).1 = Ok t → txn_ops t = txn_ops txn ++ index_ops id meta.
Proof.
  intros h. unfold put_slice_index, index_ops. destruct (slice_dir_entries meta) as [|e l].
  - split; [done|]. intros t [= ->]. by rewrite app_nil_r.
  - split; [done|]. simpl. intros t Ht. by apply map_err_Ok, txn_put_ops in Ht.
Qed.

Lemma new_segment_txn_ops (id : SegmentId) (row : SegmentRow) (meta : SegmentFileMetadata) : ∀ h : hst,
  (new_segment_txn id row meta h).2 = h ∧
  ∀ t, (new_segment_txn id row meta h).1 = Ok t → txn_ops t = new_segment_ops id row meta.
Proof.
  intros h. unfold new_segment_txn, sbind, txn_io, slift, catalog_io.
  destruct (txn_put txn_new _ _ _) as [t1|e] eqn:E1; [|done]. apply txn_put_ops in E1. simpl.
  pose proof (put_slice_index_ops t1 id meta h) as [H1 H2]. destruct (put_slice_index t1 id meta h) as [[t2|e] h']; simpl in *; [|done].
  subst h'. split; [done|]. intros t Ht%map_err_Ok%txn_put_ops. rewrite Ht, (H2 t2 eq_refl), E1.
  done.
Qed.

Lemma index_ops_plain id meta : valid_component (segment_id_str id) → Forall plain_op (index_ops id meta).
Proof. intros Hid. unfold index_ops. destruct (slice_dir_entries meta); [done|]. by apply Forall_singleton. Qed.

Lemma committed_ops id encoded location offsets cps seq c :
  let row := new_segment_row fence id seq encoded location (slices_of encoded) offsets cps in
  committed id encoded location offsets cps seq (foldl spec_apply c (new_segment_ops id row (es_meta encoded))).
Proof.
  cbv zeta. unfold new_segment_ops. simpl. rewrite foldl_app. simpl.
  unfold committed. rewrite lookup_insert_eq. rewrite !lookup_insert_ne by done. unfold index_ops.
  destruct (slice_dir_entries (es_meta encoded)) as [|e l]; simpl.
  - by rewrite lookup_insert_eq.
  - by rewrite lookup_insert_ne, !lookup_insert_eq by done.
Qed.

Lemma read_only {A} (P : hst → Prop) (m : st hst failure A) E :
  (∀ h, (m h).2 = h) → (∀ h, P h → E h) → triple P m (λ _, P) E.
Proof.
  intros Hm HE h Hh. specialize (Hm h). destruct (m h) as [[a|e] h']; simpl in *; subst; [done|by apply HE].
Qed.

Lemma commit_new_segment_sound (id : SegmentId) (encoded : EncodedSnapshot) (location : PayloadLocation)
    (offsets : list CommittedOffset) (cps : list CommittedCheckpoint) (X : gmap bytes bytes → Prop) :
  valid_component (segment_id_str id) → (∀ fs, X fs → payload_at fs id location (es_sha256 encoded)) →
  triple (λ h, inv h ∧ X (files h)) (commit_new_segment fence id encoded location (slices_of encoded) offsets cps)
    (λ seq h, ∃ c, sound c h ∧ X (files h) ∧ committed id encoded location offsets cps seq c) inv.
Proof.
  intros Hid HX. unfold commit_new_segment.
  eapply triple_bind; [apply read_only; [|by intros h []]|].
  { intros h. unfold below_ceiling, sbind, sread. by destruct (_ <=? _)%N. }
  intros []. eapply triple_bind; [apply read_only; [|by intros h []]|].
  { intros h. unfold next_seq, sbind. pose proof (get_row_run KSeq h) as Hg.
    destruct (get_row KSeq h) as [[[[]|]|] h']; simpl in *; by subst. }
  intros seq. cbv zeta. set (row := new_segment_row _ _ _ _ _ _ _ _).
  eapply (triple_bind _ _ _ (λ t h, txn_ops t = new_segment_ops id row (es_meta encoded) ∧ inv h ∧ X (files h))).
  { intros h Hh. pose proof (new_segment_txn_ops id row (es_meta encoded) h) as [H1 H2].
    destruct (new_segment_txn id row (es_meta encoded) h) as [[t|e] h']; simpl in *; subst; [by auto|by destruct Hh]. }
  intros t. apply triple_pure. intros Ht.
  eapply (triple_bind _ _ _ (λ _ h, ∃ c, sound c h ∧ X (files h) ∧ committed id encoded location offsets cps seq c)).
  2:{ intros []. eapply (triple_bind _ _ _ (λ _ h, ∃ c, sound c h ∧ X (files h) ∧ committed id encoded location offsets cps seq c)).
      - intros h Hh. exact Hh.
      - intros []. by apply triple_ret. }
  intros h [[c0 Hs] Hx]. pose proof (commit_sound t c0 X) as Hc. rewrite Ht in Hc.
  specialize (Hc ltac:(apply Forall_cons_2; [exact Hid|apply Forall_app_2;
    [apply (Forall_impl plain_op); [by apply index_ops_plain|by intros ? []]|by apply Forall_singleton]])).
  specialize (Hc ltac:(intros fs Hp Hxx; apply Forall_cons_2; [exact (HX fs Hxx)|apply Forall_app_2;
    [apply (Forall_impl plain_op); [by apply index_ops_plain|intros ? [_ ?]; auto]|by apply Forall_singleton]])).
  specialize (Hc h (conj Hs Hx)). destruct (commit_durable fence t h) as [[[]|e] h']; [|done].
  destruct Hc as (c' & Hsc & Hs' & Hx'). exists c'. split_and!; [done|done|].
  apply spec_commit_Ok in Hsc as [_ ->]. apply committed_ops.
Qed.

Lemma publish_once_published seq offsets cps c :
  triple (sound c) (publish_once fence seq offsets cps) (λ r h, sound c h ∧ (r = inr tt → h_max_published h = seq)) inv.
Proof.
  intros h Hs. pose proof (quiet_publish_once seq offsets cps c h Hs) as Hq. revert Hq. unfold publish_once.
  destruct (publish_committed _ _ _ _ _ (h_store h)) as [r s']. destruct r as [u|[d|d| ]]; [|done|by intros ?; split|done].
  unfold sbind at 1 3. destruct (on_offsets offset_flush _ (set_store s' h)) as [[[]|e] h']; [|done].
  simpl. intros Hq. by split.
Qed.

Lemma publish_seq_sound seq offsets cps c :
  triple (sound c) (publish_seq fence fuel seq offsets cps) (λ _ h, sound c h ∧ h_max_published h = seq) inv.
Proof.
  unfold publish_seq. eapply (triple_bind _ _ _ (λ r h, sound c h ∧ (is_Some r → h_max_published h = seq))).
  - generalize fuel as n. induction n as [|n IH]; [apply triple_ret; intros h Hs; split; [done|by intros []]|]. cbn [sloop].
    eapply triple_bind; [apply publish_once_published|]. intros [[]|[]].
    + eapply triple_conseq; [apply IH|by intros h []|done|done].
    + apply triple_ret. intros h [Hs Hp]. split; [done|]. intros _. by apply Hp.
  - intros [[]|]; apply triple_lift; [intros h []; by eapply sound_inv| |intros h []; by eapply sound_inv|done].
    intros [] h _ [Hs Hp]. split; [done|]. apply Hp. by eexists.
Qed.

(** What a caller may rely on when a segment was persisted: the catalog has its row, with
    the digest that is returned and the location that is returned, and the sequence of the
    row is published. *)
Definition durable (raw : bytes) (res : SegmentWriteResult) (h : hst) : Prop :=
  ∃ c row, sound c h ∧ c !! KSegment {| segment_id_str := raw |} = Some (RSegment row) ∧
    sr_payload_sha256 row = wres_sha256 res ∧ write_location (sr_location row) = wres_location res ∧
    h_max_published h = sr_seq row.

Lemma segment_row_sound id c :
  valid_component (segment_id_str id) →
  triple (sound c) (segment_row id)
    (λ r h, sound c h ∧ match r with Some row => c !! KSegment id = Some (RSegment row) | None => c !! KSegment id = None end) inv.
Proof.
  intros Hid. unfold segment_row. eapply triple_bind; [by apply get_row_sound|]. intros v.
  apply triple_pure. intros ->. destruct (c !! KSegment id) as [[]|]; try (apply triple_err, sound_inv); apply triple_ret; done.
Qed.

Lemma quiet_committed_offsets offsets : quiet (committed_offsets_from (W := W) (B := B) offsets).
Proof. apply wal_quiet_read. Qed.

Lemma quiet_checkpoints updates : quiet (checkpoints_from (S := S) (W := W) (B := B) updates).
Proof. apply wal_quiet_lift. Qed.

Lemma republished_durable (raw : bytes) (enc : EncodedSnapshot) (row : SegmentRow) c offsets cps :
  c !! KSegment {| segment_id_str := raw |} = Some (RSegment row) → sr_payload_sha256 row = es_sha256 enc →
  triple (sound c) (publish_seq fence fuel (sr_seq row) offsets cps ;! sret (write_result enc (write_location (sr_location row))))
    (λ res h, durable raw res h) inv.
Proof.
  intros Hr Hsha. eapply triple_bind; [apply publish_seq_sound|]. intros []. apply triple_ret. intros h [Hs Hp].
  exists c, row. done.
Qed.

Lemma persist_segment_sound (raw : bytes) (offsets : gmap OffsetKey N) (batches : gmap PartitionKey (WalPayload RB))
    (partitions_meta : gmap PartitionKey (N * Z)) (part_meta_blobs : gmap PartitionKey bytes)
    (updates : gmap bytes CheckpointEnvelope) (created_at : Z) :
  utf8_valid raw = true → encodable partitions_meta created_at batches →
  (∀ enc, encode_snapshot partitions_meta part_meta_blobs created_at offsets batches = Ok enc → (blen (es_bytes enc) ≤ U64_MAX)%N) →
  triple inv (persist_segment fs_display is_enospc faults torn paths fence fuel raw offsets batches partitions_meta part_meta_blobs updates created_at)
    (λ res h, durable raw res h) inv.
Proof.
  intros Hu Hen Hlen. unfold persist_segment, segment_id. apply triple_inv. intros c.
  eapply triple_bind; [apply (triple_lift _ _ (λ id h, (id = {| segment_id_str := raw |} ∧ valid_component raw) ∧ sound c h));
    [apply sound_inv|by intros id h [Hid ->]%component_ok%SegmentId_new_Ok]|].
  intros id. apply triple_pure. intros [-> Hid].
  eapply triple_bind; [apply (triple_lift _ _ (λ enc h, verify_body_checksum (es_bytes enc) = Ok (es_sha256 enc) ∧ sound c h));
    [apply sound_inv|]|].
  { intros enc h Henc%map_err_Ok Hs. split; [|done]. by eapply encoded_verifies, Hlen. }
  intros enc. apply triple_pure. intros Hver.
  eapply triple_bind; [apply quiet_committed_offsets|]. intros os.
  eapply triple_bind; [apply quiet_checkpoints|]. intros cps.
  eapply triple_bind; [by apply segment_row_sound|]. intros [row|].
  - intros h [Hs Hr]. revert h Hs. case_bool_decide as Hsha; [by apply republished_durable|apply triple_err, sound_inv].
  - intros h [Hs Hr]. revert h Hs. change (triple (sound c)
      (on_files (file_sync faults) (durable_from_io fs_display is_enospc) ;! on_files (file_sync faults) (durable_from_io fs_display is_enospc) ;!
       write_payload_atomically fs_display is_enospc faults torn (seg_path paths raw) (seg_tmp_path paths raw) (es_bytes enc) ;!
       do? seq := commit_new_segment fence {| segment_id_str := raw |} enc (CatalogRow.Disk (seg_path paths raw)) (slices_of enc) os cps in
       publish_seq fence fuel seq os cps ;! sret (write_result enc (WriteDisk (seg_path paths raw)))) (λ res h, durable raw res h) inv).
    eapply triple_bind; [apply quiet_file_sync|]. intros []. eapply triple_bind; [apply quiet_file_sync|]. intros [].
    eapply triple_bind; [by apply write_new_payload|]. intros [].
    eapply triple_bind; [eapply triple_conseq; [apply (commit_new_segment_sound {| segment_id_str := raw |} enc
      (CatalogRow.Disk (seg_path paths raw)) os cps (λ fs, fs !! seg_path paths raw = Some (es_bytes enc)))| | |]|].
    + done.
    + intros fs Hfs path [= <-]. split; [done|]. by eexists.
    + intros h [Hs Hf]. split; [by exists c|done].
    + intros seq h Hh. exact Hh.
    + done.
    + intros seq. apply triple_ex. intros c'. intros h (Hs & _ & Hc & _).
      exact (republished_durable raw enc _ c' os cps Hc eq_refl h Hs).
Qed.

Lemma persist_s3_segment_safe (raw : bytes) (encoded : EncodedSnapshot) (bucket key : bytes)
    (offsets : gmap OffsetKey N) (updates : gmap bytes CheckpointEnvelope) :
  utf8_valid raw = true → safe (persist_s3_segment fence fuel raw encoded bucket key offsets updates).
Proof.
  intros Hu. unfold persist_s3_segment, segment_id. apply safe_lift_bind. intros id [Hid ->]%component_ok%SegmentId_new_Ok.
  apply safe_bind; [apply quiet_safe, quiet_committed_offsets|]. intros os.
  apply safe_bind; [apply quiet_safe, quiet_checkpoints|]. intros cps.
  apply safe_bind; [apply quiet_safe, quiet_get|]. intros existing.
  assert (safe (commit_new_segment fence {| segment_id_str := raw |} encoded (S3 bucket key) (slices_of encoded) os cps)) as Hc.
  { eapply triple_conseq; [apply (commit_new_segment_sound _ encoded (S3 bucket key) os cps (λ _, True))|done| |done]; [done|done|].
    intros seq h (c & Hs & _). by exists c. }
  apply safe_bind; [|intros seq; apply safe_bind; [apply quiet_safe, quiet_publish_seq|intros []; apply quiet_safe, wal_quiet_ret]].
  destruct existing as [[row| | | | | |]|]; try exact Hc. case_bool_decide; [apply quiet_safe, wal_quiet_ret|apply quiet_safe, wal_quiet_err].
Qed.

(** The caller of a replacement has put the new payload in its place. *)
Lemma replace_payload_location_sound (raw : bytes) (location : PayloadLocation) (len : N) (sha : bytes) :
  utf8_valid raw = true →
  triple (λ h, inv h ∧ payload_at (files h) {| segment_id_str := raw |} location sha)
    (replace_payload_location fence raw location len sha) (λ _, inv) inv.
Proof.
  intros Hu. unfold replace_payload_location, segment_id. set (X := λ fs, payload_at fs {| segment_id_str := raw |} location sha).
  change (triple (λ h : hst, inv h ∧ X (files h)) (do? id := slift (path_io (SegmentId_new raw)) in
    do? existing := get_row (KSegment id) in
    match existing with
    | Some (RSegment row) =>
        do? version := slift (next_catalog_version (sr_version row)) in
        do? txn := txn_io (txn_put txn_new (KSegment id) (RSegment (with_payload location len sha version row)) (PVersion (sr_version row))) in
        commit_durable fence txn
    | _ => serr (Raised (DIo (str "missing SegmentRow for payload replace " ++ raw)))
    end) (λ _, inv) inv).
  eapply triple_bind; [apply (triple_lift _ _ (λ id h, (id = {| segment_id_str := raw |} ∧ valid_component raw) ∧ inv h ∧ X (files h)));
    [by intros h []|by intros id h [Hid ->]%component_ok%SegmentId_new_Ok]|].
  intros id. apply triple_pure. intros [-> Hid].
  eapply triple_bind; [apply read_only; [apply get_row_run|by intros h []]|].
  intros [[row| | | | | |]|]; try (apply triple_err; by intros h []).
  eapply triple_bind; [apply read_only; [done|by intros h []]|]. intros version.
  eapply triple_bind; [apply (triple_lift _ _ (λ t h, txn_ops t = [OpPut (KSegment {| segment_id_str := raw |})
    (RSegment (with_payload location len sha version row)) (PVersion (sr_version row))] ∧ inv h ∧ X (files h)));
    [by intros h []|by intros t h Ht%map_err_Ok%txn_put_ops]|].
  intros t. apply triple_pure. intros Ht h [[c Hs] HX].
  pose proof (commit_sound t c X) as Hc. rewrite Ht in Hc. specialize (Hc ltac:(by apply Forall_singleton)).
  specialize (Hc ltac:(intros fs _ Hx; by apply Forall_singleton) h (conj Hs HX)).
  destruct (commit_durable fence t h) as [[[]|e] h']; [|done]. destruct Hc as (c' & _ & Hs' & _). by exists c'.
Qed.

(** ** Reclaiming next to other tasks *)

(** Other tasks keep the invariant, and a row they left at its version is the row they
    found. *)
Definition versions_name (c c1 : cat) : Prop :=
  ∀ k r r' v, c !! k = Some r → c1 !! k = Some r' → row_version_field r = Some v → row_version_field r' = Some v → r' = r.

Definition rely (h h' : hst) : Prop := ∀ c, sound c h → ∃ c1, sound c1 h' ∧ versions_name c c1.

Lemma rely_id h : rely h h.
Proof. intros c Hs. exists c. split; [done|]. intros k r r' v ???. congruence. Qed.

(** An operation that was planned against [c]: a deletion, or new bits for a row of [c]
    under the version it has there. *)
Definition planned_op (c : cat) (op : CatalogOp) : Prop :=
  CatalogKey.wf_key (op_ckey op) ∧
  match op with
  | OpDelete _ _ => True
  | OpPut (KSegment id) r cond => ∃ row bits v, c !! KSegment id = Some (RSegment row) ∧
      r = RSegment (with_done bits v row) ∧ cond = PVersion (sr_version row)
  | OpPut _ _ _ => False
  end.

Lemma planned_commit_sound (txn : CatalogTxn) c : ∀ h1 : hst, ∀ c1,
  Forall (planned_op c) (txn_ops txn) → sound c1 h1 → versions_name c c1 →
  match commit_durable fence txn h1 with
  | (Ok _, h') => ∃ c', spec_commit (txn_ops txn) c1 = Ok c' ∧ sound c' h'
  | (Err _, h') => inv h'
  end.
Proof.
  intros h1 c1 Hops [Hv Hp] Hn. unfold commit_durable.
  assert (Forall (λ op, CatalogKey.wf_key (op_ckey op)) (txn_ops txn)) as Hw.
  { eapply Forall_impl; [exact Hops|]. by intros op []. }
  pose proof (flushing_commit_run txn h1 c1 Hv Hw) as Hr.
  destruct (flushing_commit fence txn h1) as [r h']. destruct Hr as [Hf [(c' & Hc & Hv')|[Hr Hv']]].
  - assert (sound c' h') as Hsd; [|destruct r as [[]|e]; [by exists c'|by exists c']].
    split; [done|]. rewrite Hf. pose proof Hc as Hc0. apply spec_commit_Ok in Hc as [Hck ->]. apply payloads_ok_apply; [done|].
    rewrite Forall_forall in *. intros op Hop. destruct (Hops op Hop) as [_ Hpl]. specialize (Hck op Hop).
    destruct op as [[id| | | | | | |] r' cond|]; try done. destruct Hpl as (row & bits & v & Hcr & -> & ->). simpl.
    unfold spec_check in Hck. inv_res. unfold spec_version in *.
    destruct (c1 !! KSegment id) as [r1|] eqn:E1; [|done]. simpl in *.
    destruct (row_version_field r1) as [v1|] eqn:E2; [|done]. simpl in *.
    destruct (N.eqb_spec v1 (sr_version row)) as [->|]; [|done].
    assert (r1 = RSegment row) as -> by (by eapply (Hn (KSegment id))).
    intros path Hpath. destruct (Hp id row E1 path Hpath) as (? & ?). done.
  - destruct r as [[]|e]; [done|]. exists c1. split; [done|]. by rewrite Hf.
Qed.

(** The payload of a segment without a row may go. *)
Definition released (c : cat) (raw : bytes) (location : PayloadLocation) : Prop :=
  valid_component raw ∧ (∀ path, location = CatalogRow.Disk path → path = seg_path paths raw) ∧
  ∀ row, c !! KSegment {| segment_id_str := raw |} ≠ Some (RSegment row).

Lemma after_reclaim_sound c raw location :
  released c raw location → triple (sound c) (after_reclaim faults location raw) (λ _, sound c) inv.
Proof.
  intros (Hraw & Hloc & Hno). unfold after_reclaim. eapply (triple_bind _ _ _ (λ _, sound c)).
  - destruct location as [path|bucket key]; intros h [Hv Hp]; simpl; [|done]. split; [done|].
    intros id row Hr p Hpath. destruct (Hp id row Hr p Hpath) as (-> & bs & Hbs & Hsha). split; [done|]. exists bs.
    split; [|done]. unfold files, file_remove, fs_op in *. simpl. destruct (faults _); [done|].
    destruct (d_files (h_disk h) !! path); [|done]. simpl. rewrite (Hloc path eq_refl) in *.
    destruct (rel_stored _ _ Hv _ _ Hr) as [Hid _].
    rewrite lookup_delete_ne; [done|]. intros Heq%seg_path_inj; [|done|done]. subst raw. destruct id. by eapply Hno.
  - intros []. eapply (triple_bind _ _ _ (λ _, sound c)); [by apply modify_sound|]. intros []. by apply modify_sound.
Qed.

Lemma delete_segment_ops (txn : CatalogTxn) id v : ∀ h : hst,
  (delete_segment txn id v h).2 = h ∧
  ∀ t, (delete_segment txn id v h).1 = Ok t → ∃ extra,
    txn_ops t = txn_ops txn ++ OpDelete (KSegment id) (DVersion v) :: extra ∧
    Forall (λ op, op = OpDelete (KIndex id) Exists_) extra.
Proof.
  intros h. unfold delete_segment, index_exists, sbind, txn_io, slift, catalog_io.
  destruct (txn_delete txn _ _) as [t1|e] eqn:E1; [|done]. apply txn_delete_ops in E1. cbn [map_err].
  unfold get_row, sread. destruct (catalog_io _) as [v'|e]; [|done]. unfold sret. case_bool_decide; simpl.
  - split; [done|]. intros t Ht%map_err_Ok%txn_delete_ops. exists [OpDelete (KIndex id) Exists_]. split; [|by constructor].
    by rewrite Ht, E1, <- app_assoc.
  - split; [done|]. intros t [= <-]. by exists [].
Qed.

(** What the first half of an attempt has found and planned. *)
Definition plan_ok (c : cat) (id : SegmentId) (p : option (SegmentRow * bool * CatalogTxn)) : Prop :=
  match p with
  | None => c !! KSegment id = None
  | Some (row, can_reclaim, txn) =>
      c !! KSegment id = Some (RSegment row) ∧ Forall (planned_op c) (txn_ops txn) ∧
      (can_reclaim = true → ∃ extra, txn_ops txn = OpDelete (KSegment id) (DVersion (sr_version row)) :: extra ∧
         Forall (λ op, op = OpDelete (KIndex id) Exists_) extra)
  end.

Lemma planned_delete c id v extra :
  valid_component (segment_id_str id) → Forall (λ op, op = OpDelete (KIndex id) Exists_) extra →
  Forall (planned_op c) (OpDelete (KSegment id) (DVersion v) :: extra).
Proof.
  intros Hid Hex. apply Forall_cons_2; [by split|]. eapply Forall_impl; [exact Hex|]. intros op ->. by split.
Qed.

Lemma plan_reclaim_sound id ordinals c :
  valid_component (segment_id_str id) →
  triple (sound c) (plan_reclaim min_unconsumed_seq id ordinals) (λ p h, sound c h ∧ plan_ok c id p) inv.
Proof.
  intros Hid. unfold plan_reclaim. eapply triple_bind; [by apply segment_row_sound|].
  intros [row|]; [|by apply triple_ret]. intros h [Hs Hr]. revert h Hs.
  eapply triple_bind; [apply wal_quiet_lift|]. intros bits. eapply triple_bind; [apply wal_quiet_lift|]. intros finished. cbv zeta.
  eapply triple_bind; [apply wal_quiet_lift|]. intros version.
  set (can := finished && allows_reclaim min_unconsumed_seq (seq_get (sr_seq row))).
  eapply (triple_bind _ _ _ (λ t h, sound c h ∧ plan_ok c id (Some (row, can, t)))).
  2:{ intros t. apply triple_ret. done. }
  destruct can.
  - intros h Hs. pose proof (delete_segment_ops txn_new id (sr_version row) h) as [H1 H2].
    destruct (delete_segment txn_new id (sr_version row) h) as [[t|e] h']; simpl in *; subst; [|by exists c].
    destruct (H2 t eq_refl) as (extra & Ht & Hex). split; [done|]. simpl. rewrite Ht. split_and!; [done|by apply planned_delete|]. intros _. by exists extra.
  - unfold txn_io. apply triple_lift; [apply sound_inv|]. intros t h Ht%map_err_Ok%txn_put_ops Hs. simpl in Ht.
    split; [done|]. simpl. rewrite Ht. split_and!; [done| |done]. apply Forall_singleton. split; [done|]. by exists row, bits, version.
Qed.

Lemma reclaim_attempts_safe others raw ordinals n :
  utf8_valid raw = true → validate_path_component raw = Ok tt → (∀ n h, rely h (others n h)) →
  safe (reclaim_attempts faults fence min_unconsumed_seq others n raw {| segment_id_str := raw |} ordinals).
Proof.
  intros Hu Hval Hrely. assert (valid_component raw) as Hid by done.
  induction n as [|n IH]; [apply triple_err; done|]. cbn [reclaim_attempts]. apply triple_inv. intros c.
  eapply triple_bind; [by apply plan_reclaim_sound|]. intros [[[row can] t]|]; [|apply triple_ret; intros h [Hs _]; by exists c].
  intros h [Hs (Hr & Hops & Hcan)]. destruct (Hrely n h c Hs) as (c1 & Hs1 & Hn).
  pose proof (planned_commit_sound t c (others n h) c1 Hops Hs1 Hn) as Hc.
  destruct (commit_durable fence t (others n h)) as [[[]|e] h'].
  2:{ destruct e as [[]| |]; try done. exact (IH h' Hc). }
  destruct Hc as (c' & Hsc & Hs'). revert h' Hs'.
  change (triple (sound c') (reclaim_committed faults raw ordinals row can) (λ _, inv) inv).
  unfold reclaim_committed. eapply triple_bind; [apply quiet_mark|]. intros [].
  eapply (triple_bind _ _ _ (λ _, sound c')); [|intros []; apply triple_ret, sound_inv].
  destruct can; [|by apply triple_ret]. apply after_reclaim_sound. destruct (Hcan eq_refl) as (extra & Ht & Hex).
  split_and!; [done| |].
  - intros path Hpath. by destruct (proj2 Hs _ _ Hr path Hpath).
  - intros row'. apply spec_commit_Ok in Hsc as [_ ->]. rewrite Ht. simpl.
    rewrite spec_apply_untouched; [by rewrite lookup_delete_eq|]. eapply Forall_impl; [exact Hex|]. by intros op ->.
Qed.

Lemma complete_slices_safe others raw ordinals :
  utf8_valid raw = true → (∀ n h, rely h (others n h)) →
  safe (complete_slices_and_reclaim faults fence min_unconsumed_seq others raw ordinals).
Proof.
  intros Hu Hrely. unfold complete_slices_and_reclaim, segment_id. apply safe_lift_bind.
  intros id [Hid ->]%component_ok%SegmentId_new_Ok. by apply reclaim_attempts_safe.
Qed.

Lemma reclaim_rows_safe others rows min_seq n :
  Forall (λ row, utf8_valid (segment_id_str (sr_segment_id row)) = true) rows → (∀ n h, rely h (others n h)) →
  safe (reclaim_rows faults fence min_unconsumed_seq others rows min_seq n).
Proof.
  intros Hu Hrely. revert n. induction Hu as [|row rows Hrow Hrows IH]; intros n; [apply quiet_safe, wal_quiet_ret|].
  cbn [reclaim_rows]. apply safe_lift_bind. intros finished _. destruct (_ || _); [apply IH|].
  apply safe_bind; [by apply complete_slices_safe|]. intros gone. apply IH.
Qed.

(** ** Batches of acknowledged compactions *)

(** Every operation on [k] is a deletion, and there is one. *)
Definition deletes (k : CatalogKey) (ops : list CatalogOp) : Prop :=
  (∃ cond, OpDelete k cond ∈ ops) ∧ ∀ op, op ∈ ops → op_ckey op = k → ∃ cond, op = OpDelete k cond.

Lemma deletes_lookup k ops c : deletes k ops → foldl spec_apply c ops !! k = None.
Proof.
  intros [[cond Hin] Hall].
  assert (∀ ops0, (∀ op, op ∈ ops0 → op_ckey op = k → ∃ cond, op = OpDelete k cond) → ∀ c0,
    (c0 !! k = None ∨ ∃ cond, OpDelete k cond ∈ ops0) → foldl spec_apply c0 ops0 !! k = None) as Hg.
  { clear. induction ops0 as [|op ops0 IH]; intros Hall c0 Hc.
    - destruct Hc as [?|[? ?%elem_of_nil]]; done.
    - simpl. apply IH; [intros op' Hin; apply Hall; by right|]. destruct (decide (op_ckey op = k)) as [E|E].
      + left. destruct (Hall op ltac:(by left) E) as [cond ->]. simpl. apply lookup_delete_eq.
      + destruct Hc as [Hc|[cond [<-|Hin]%elem_of_cons]]; [|done|right; by exists cond].
        left. destruct op; simpl in *; [by rewrite lookup_insert_ne|by rewrite lookup_delete_ne]. }
  apply Hg; [done|right; by exists cond].
Qed.

Record batch_ok (c : cat) (seen : list bytes) (p : BatchPlan) : Prop := {
  bo_ops : Forall (planned_op c) (txn_ops (bp_txn p));
  bo_seen op id : op ∈ txn_ops (bp_txn p) → op_ckey op = KSegment id → segment_id_str id ∈ seen;
  bo_reclaim raw location : (raw, location) ∈ bp_reclaim_after p →
    raw ∈ seen ∧ valid_component raw ∧ (∀ path, location = CatalogRow.Disk path → path = seg_path paths raw) ∧
    deletes (KSegment {| segment_id_str := raw |}) (txn_ops (bp_txn p))
}.

(** Adding the operations of a segment that is not in the batch. *)
Lemma batch_ok_add c seen p raw ops bits after location :
  batch_ok c seen p → raw ∉ seen → Forall (planned_op c) ops →
  (∀ op id, op ∈ ops → op_ckey op = KSegment id → id = {| segment_id_str := raw |}) →
  after = bp_reclaim_after p ∨
    after = bp_reclaim_after p ++ [(raw, location)] ∧ valid_component raw ∧
    (∀ path, location = CatalogRow.Disk path → path = seg_path paths raw) ∧ deletes (KSegment {| segment_id_str := raw |}) ops →
  batch_ok c (raw :: seen) {| bp_txn := {| txn_ops := txn_ops (bp_txn p) ++ ops |}; bp_reclaim_after := after; bp_memory_bits := bits |}.
Proof.
  intros [H1 H2 H3] Hraw Hops Hkey Hafter. split; simpl.
  - by apply Forall_app_2.
  - intros op id [Hin|Hin]%elem_of_app Hk; [right; by eapply H2|]. rewrite (Hkey op id Hin Hk). by left.
  - intros raw' loc' Hin.
    assert ((raw', loc') ∈ bp_reclaim_after p ∨ (raw', loc') = (raw, location) ∧ valid_component raw ∧
      (∀ path, location = CatalogRow.Disk path → path = seg_path paths raw) ∧ deletes (KSegment {| segment_id_str := raw |}) ops) as [Hold|(Hnew & Hv & Hl & Hd)].
    { destruct Hafter as [->|(-> & ?)]; [by left|]. apply elem_of_app in Hin as [?|?%list_elem_of_singleton]; [by left|by right]. }
    + destruct (H3 _ _ Hold) as (Hs & Hv & Hl & [Hex Hall]). split_and!; [by right|done|done|]. split.
      * destruct Hex as [cond Hc]. exists cond. apply elem_of_app. by left.
      * intros op [Ho|Ho]%elem_of_app Hk; [by apply Hall|]. specialize (Hkey op _ Ho Hk). injection Hkey as ->. done.
    + injection Hnew as -> ->. split_and!; [by left|done|done|]. destruct Hd as [[cond Hc] Hall]. split.
      * exists cond. apply elem_of_app. by right.
      * intros op [Ho|Ho]%elem_of_app Hk; [|by apply Hall]. specialize (H2 op _ Ho Hk). done.
Qed.

Lemma batch_ok_seen c seen raw p : batch_ok c seen p → batch_ok c (raw :: seen) p.
Proof.
  intros [H1 H2 H3]. split; [done| |].
  - intros op id Hin Hk. right. by eapply H2.
  - intros raw' loc Hin. destruct (H3 _ _ Hin) as (? & ?). split; [by right|done].
Qed.

Lemma plan_segment_sound c seen p raw ordinals :
  utf8_valid raw = true → raw ∉ seen → batch_ok c seen p →
  triple (sound c) (plan_segment p (raw, ordinals)) (λ p' h, sound c h ∧ batch_ok c (raw :: seen) p') inv.
Proof.
  intros Hu Hraw Hb. unfold plan_segment, segment_id.
  eapply triple_bind; [apply (triple_lift _ _ (λ id h, (id = {| segment_id_str := raw |} ∧ valid_component raw) ∧ sound c h));
    [apply sound_inv|by intros id h [Hid ->]%component_ok%SegmentId_new_Ok]|].
  intros id. apply triple_pure. intros [-> Hid]. eapply triple_bind; [by apply get_row_sound|]. intros v.
  apply triple_pure. intros ->. destruct (c !! KSegment {| segment_id_str := raw |}) as [[row| | | | | |]|] eqn:Hr;
    try (apply triple_ret; intros h Hs; split; [done|by apply batch_ok_seen]).
  eapply triple_bind; [apply wal_quiet_lift|]. intros bits. eapply triple_bind; [apply wal_quiet_lift|]. intros finished.
  eapply triple_bind; [apply wal_quiet_lift|]. intros version. destruct finished.
  - eapply (triple_bind _ _ _ (λ t h, (∃ extra, t = {| txn_ops := txn_ops (bp_txn p) ++ OpDelete (KSegment {| segment_id_str := raw |}) (DVersion (sr_version row)) :: extra |} ∧
       Forall (λ op, op = OpDelete (KIndex {| segment_id_str := raw |}) Exists_) extra) ∧ sound c h)).
    { intros h Hs. pose proof (delete_segment_ops (bp_txn p) {| segment_id_str := raw |} (sr_version row) h) as [H1 H2].
      destruct (delete_segment _ _ _ h) as [[t|e] h']; simpl in *; subst; [|by exists c]. split; [|done].
      destruct (H2 t eq_refl) as (extra & Ht & Hex). exists extra. split; [|done]. destruct t; simpl in *; by rewrite Ht. }
    intros t. apply triple_pure. intros (extra & -> & Hex). apply triple_ret. intros h Hs. split; [done|].
    eapply (batch_ok_add c seen p raw _ _ _ (sr_location row)); [done|done|by apply planned_delete| |].
    + intros op id [->|Hin]%elem_of_cons Hk; [by injection Hk|]. rewrite Forall_forall in Hex. by rewrite (Hex op Hin) in Hk.
    + right. split_and!; [done|done| |].
      * intros path Hpath. by destruct (proj2 Hs _ _ Hr path Hpath).
      * split; [eexists; by left|]. intros op [->|Hin]%elem_of_cons Hk; [by eexists|]. rewrite Forall_forall in Hex. by rewrite (Hex op Hin) in Hk.
  - eapply (triple_bind _ _ _ (λ t h, t = {| txn_ops := txn_ops (bp_txn p) ++ [OpPut (KSegment {| segment_id_str := raw |})
       (RSegment (with_done bits version row)) (PVersion (sr_version row))] |} ∧ sound c h)).
    { unfold txn_io. apply triple_lift; [apply sound_inv|]. intros t h Ht%map_err_Ok%txn_put_ops Hs. split; [|done]. destruct t; simpl in *; by rewrite Ht. }
    intros t. apply triple_pure. intros ->. apply triple_ret. intros h Hs. split; [done|].
    eapply (batch_ok_add c seen p raw _ _ _ (sr_location row)); [done|done| | |by left].
    + apply Forall_singleton. split; [done|]. by exists row, bits, version.
    + intros op id ->%list_elem_of_singleton Hk. by injection Hk.
Qed.

Lemma plan_segments_sound c groups : ∀ seen p,
  NoDup groups.*1 → (∀ raw, raw ∈ groups.*1 → utf8_valid raw = true ∧ raw ∉ seen) → batch_ok c seen p →
  triple (sound c) (plan_segments groups p) (λ p' h, sound c h ∧ ∃ seen', batch_ok c seen' p') inv.
Proof.
  induction groups as [|[raw ordinals] groups IH]; intros seen p Hnd Hg Hb; [apply triple_ret; intros h Hs; eauto|].
  simpl in Hnd. apply NoDup_cons in Hnd as [Hraw Hnd]. cbn [plan_segments]. destruct (Hg raw ltac:(by left)) as [Hu Hs].
  eapply triple_bind; [by apply plan_segment_sound|]. intros p' h [Hsd Hb']. revert h Hsd. apply (IH (raw :: seen)); [done| |done].
  intros x Hx. destruct (Hg x ltac:(by right)) as [? Hxs]. split; [done|]. rewrite not_elem_of_cons. split; [by intros ->|done].
Qed.

Lemma batch_ok_delete c seen p id :
  valid_component (compaction_id_str id) → batch_ok c seen p →
  batch_ok c seen {| bp_txn := {| txn_ops := txn_ops (bp_txn p) ++ [OpDelete (KCompaction id) Exists_] |};
                     bp_reclaim_after := bp_reclaim_after p; bp_memory_bits := bp_memory_bits p |}.
Proof.
  intros Hid [H1 H2 H3]. split; simpl.
  - apply Forall_app_2; [done|]. by apply Forall_singleton.
  - intros op i [Hin| ->%list_elem_of_singleton]%elem_of_app Hk; [by eapply H2|done].
  - intros raw loc Hin. destruct (H3 raw loc Hin) as (? & ? & ? & [[cond Hc] Hall]). split_and!; [done..|]. split.
    + exists cond. apply elem_of_app. by left.
    + intros op [Ho| ->%list_elem_of_singleton]%elem_of_app Hk; [by apply Hall|done].
Qed.

Lemma plan_deletes_sound c seen batch after bits : ∀ txn,
  Forall (λ t, utf8_valid (tx_id t) = true) batch →
  batch_ok c seen {| bp_txn := txn; bp_reclaim_after := after; bp_memory_bits := bits |} →
  triple (sound c) (plan_deletes batch txn)
    (λ t h, sound c h ∧ batch_ok c seen {| bp_txn := t; bp_reclaim_after := after; bp_memory_bits := bits |}) inv.
Proof.
  induction batch as [|x batch IH]; intros txn Hu Hb; [by apply triple_ret|]. apply Forall_cons in Hu as [Hx Hu].
  cbn [plan_deletes]. unfold compaction_id.
  eapply triple_bind; [apply (triple_lift _ _ (λ id h, valid_component (compaction_id_str id) ∧ sound c h)); [apply sound_inv|]|].
  { intros id h Hid%component_ok Hs. unfold CompactionId_new in Hid. inv_res. split; [|done]. split; [by destruct x0|done]. }
  intros id. apply triple_pure. intros Hid. eapply triple_bind; [apply quiet_get|]. intros existing.
  eapply (triple_bind _ _ _ (λ t h, batch_ok c seen {| bp_txn := t; bp_reclaim_after := after; bp_memory_bits := bits |} ∧ sound c h)).
  - destruct existing; [|by apply triple_ret]. unfold txn_io. apply triple_lift; [apply sound_inv|].
    intros t h Ht%map_err_Ok%txn_delete_ops Hs. split; [|done]. destruct t as [ops]. simpl in Ht. subst ops.
    exact (batch_ok_delete c seen _ id Hid Hb).
  - intros t. apply triple_pure. intros Hb'. by apply IH.
Qed.

Lemma plan_batch_sound c groups batch :
  NoDup groups.*1 → (∀ raw, raw ∈ groups.*1 → utf8_valid raw = true) → Forall (λ t, utf8_valid (tx_id t) = true) batch →
  triple (sound c) (plan_batch groups batch) (λ p h, sound c h ∧ ∃ seen, batch_ok c seen p) inv.
Proof.
  intros Hnd Hg Hu. unfold plan_batch. eapply triple_bind; [apply (plan_segments_sound c groups [])|].
  - done.
  - intros raw Hraw. split; [by apply Hg|apply not_elem_of_nil].
  - split; simpl; [by constructor|intros op id ?%elem_of_nil; done|intros raw loc ?%elem_of_nil; done].
  - intros p h [Hs [seen Hb]]. revert h Hs. eapply triple_bind; [apply (plan_deletes_sound c seen batch (bp_reclaim_after p) (bp_memory_bits p)); [done|by destruct p]|].
    intros t. apply triple_ret. intros h [Hs Hb']. eauto.
Qed.

Lemma flush_attempts_safe others n groups batch :
  NoDup groups.*1 → (∀ raw, raw ∈ groups.*1 → utf8_valid raw = true) → Forall (λ t, utf8_valid (tx_id t) = true) batch →
  (∀ n h, rely h (others n h)) → safe (flush_attempts faults fence others n groups batch).
Proof.
  intros Hnd Hg Hu Hrely. induction n as [|n IH]; [apply triple_err; done|]. cbn [flush_attempts]. apply triple_inv. intros c.
  eapply triple_bind; [by apply plan_batch_sound|]. intros p h [Hs [seen [Hops Hseen Hrec]]].
  destruct (txn_ops (bp_txn p)) as [|op ops] eqn:E; [by exists c|]. rewrite <- E in *. clear E.
  destruct (Hrely n h c Hs) as (c1 & Hs1 & Hn). pose proof (planned_commit_sound (bp_txn p) c (others n h) c1 Hops Hs1 Hn) as Hc.
  destruct (commit_durable fence (bp_txn p) (others n h)) as [[[]|e] h'].
  2:{ destruct e as [[]| |]; try done. exact (IH h' Hc). }
  destruct Hc as (c' & Hsc & Hs'). revert h' Hs'.
  change (triple (sound c') (batch_committed faults p ;! sret (N.of_nat (length batch))) (λ _, inv) inv).
  eapply (triple_bind _ _ _ (λ _, sound c')); [|intros []; apply triple_ret, sound_inv]. unfold batch_committed.
  eapply (triple_bind _ _ _ (λ _, sound c')); [apply triple_sfor; intros [[raw o] k] _; apply quiet_mark|]. intros [].
  apply triple_sfor. intros [raw loc] Hin. destruct (Hrec raw loc Hin) as (_ & Hv & Hl & Hd). apply after_reclaim_sound.
  split_and!; [done|done|]. intros row. apply spec_commit_Ok in Hsc as [_ ->]. by rewrite deletes_lookup.
Qed.

(** The strings of a transaction are text. *)
Definition tx_text (t : CompactionTransaction) : Prop :=
  utf8_valid (tx_id t) = true ∧ Forall (λ r, utf8_valid (wr_segment_id r) = true) (tx_refs t).

Lemma group_refs_safe refs : ∀ m, Forall (λ r, utf8_valid (wr_segment_id r) = true) refs →
  (∀ raw, is_Some (m !! raw) → utf8_valid raw = true) →
  triple inv (group_refs fs_display faults fence refs m) (λ m' h, inv h ∧ ∀ raw, is_Some (m' !! raw) → utf8_valid raw = true) inv.
Proof.
  induction refs as [|r refs IH]; intros m Hr Hm; [by apply triple_ret|]. apply Forall_cons in Hr as [Hr Hrs]. cbn [group_refs].
  eapply triple_bind; [by apply resolve_ordinal_safe|]. intros o. apply IH; [done|]. destruct o as [o|]; [|done].
  intros raw Hs. unfold add_ordinal in Hs. destruct (decide (raw = wr_segment_id r)) as [->|Hne]; [done|].
  rewrite lookup_insert_ne in Hs by done. auto.
Qed.

Lemma flush_acked_batch_safe others iter_groups batch :
  Forall tx_text batch → (∀ l, iter_groups l ≡ₚ l) → (∀ n h, rely h (others n h)) →
  safe (flush_acked_batch fs_display faults fence others iter_groups batch).
Proof.
  intros Ht Hiter Hrely. unfold flush_acked_batch. eapply triple_bind; [apply group_refs_safe|].
  - apply Forall_concat, Forall_fmap. eapply Forall_impl; [exact Ht|]. by intros t [_ ?].
  - intros raw [x Hx]. by rewrite lookup_empty in Hx.
  - intros m h [Hi Hm]. revert h Hi. apply flush_attempts_safe; [| | |done].
    + rewrite Hiter. apply NoDup_fst_map_to_list.
    + intros raw Hin. rewrite Hiter in Hin. apply list_elem_of_fmap in Hin as ([k o] & -> & Hko%elem_of_map_to_list). apply Hm. eauto.
    + eapply Forall_impl; [exact Ht|]. by intros t [? _].
Qed.

(** ** Redoing, startup and queries *)

(** Strings of decoded values are text. *)
Class TextCodecs : Prop := {
  row_text bs row : decode_row bs = Ok (RSegment row) → utf8_valid (segment_id_str (sr_segment_id row)) = true;
  txn_text bs t : deserialize bs = Ok t → tx_text t
}.
Context {TX : TextCodecs}.

Lemma compactions_text rows txns : rtraverse compaction_of rows = Ok txns → Forall tx_text (omap (λ t, t) txns).
Proof.
  intros Hf%rtraverse_Ok. apply Forall_forall. intros t Ht. apply list_elem_of_omap in Ht as ([t'|] & Hin & [= ->]).
  apply list_elem_of_lookup in Hin as [i Hi]. destruct (Forall2_lookup_r _ _ _ _ _ Hf Hi) as ([k r] & _ & Hc).
  unfold compaction_of in Hc. destruct r; simpl in Hc; try done. inv_res. destruct (txn_text _ _ H0) as [H1 H2]. done.
Qed.

Lemma compaction_transactions_sound :
  triple inv (compaction_transactions (S := S) (W := W) (B := B) fuel) (λ txns h, inv h ∧ Forall tx_text txns) inv.
Proof.
  unfold compaction_transactions. eapply triple_bind; [apply quiet_safe, quiet_query|]. intros rows.
  eapply triple_bind; [apply (triple_lift _ _ (λ txns h, rtraverse compaction_of rows = Ok txns ∧ inv h)); done|].
  intros txns. apply triple_pure. intros Ht. apply triple_ret. intros h Hi. split; [done|]. by eapply compactions_text.
Qed.

Lemma redo_batches_safe others iter_groups txns : ∀ batch,
  Forall tx_text txns → Forall tx_text batch → (∀ l, iter_groups l ≡ₚ l) → (∀ n h, rely h (others n h)) →
  safe (redo_batches fs_display faults fence others iter_groups txns batch).
Proof.
  assert (∀ batch, Forall tx_text batch → (∀ l, iter_groups l ≡ₚ l) → (∀ n h, rely h (others n h)) →
    safe (flush_or_defer fs_display faults fence others iter_groups batch)) as Hfl.
  { intros batch Hb Hi Hr h Hinv. pose proof (flush_acked_batch_safe others iter_groups batch Hb Hi Hr h Hinv) as Hf.
    unfold flush_or_defer. destruct (flush_acked_batch _ _ _ _ _ _ h) as [[n|[[]| |]] h']; done. }
  induction txns as [|t txns IH]; intros batch Ht Hb Hi Hr; cbn [redo_batches].
  - destruct batch; [apply quiet_safe, wal_quiet_ret|by apply Hfl].
  - apply Forall_cons in Ht as [Ht Hts]. assert (Forall tx_text (batch ++ [t])) as Hbt by (apply Forall_app_2; [done|by constructor]).
    cbv zeta. destruct (_ <? _); [by apply IH|]. apply safe_bind; [by apply Hfl|]. intros []. by apply IH.
Qed.

Lemma redo_acked_durable_batches_safe others iter_groups ids :
  (∀ l, iter_groups l ≡ₚ l) → (∀ n h, rely h (others n h)) →
  safe (redo_acked_durable_batches fs_display faults fence fuel others iter_groups ids).
Proof.
  intros Hi Hr. unfold redo_acked_durable_batches. eapply triple_bind; [apply compaction_transactions_sound|].
  intros txns h [Hinv Ht]. revert h Hinv. apply redo_batches_safe; [|by constructor|done|done].
  apply Forall_forall. intros t [_ Hin]%list_elem_of_filter. rewrite Forall_forall in Ht. auto.
Qed.

Lemma apply_acked_in_memory_safe : safe (apply_acked_in_memory fs_display faults fence fuel).
Proof.
  unfold apply_acked_in_memory. apply safe_bind; [apply quiet_safe, quiet_hydrate|]. intros [].
  eapply triple_bind; [apply compaction_transactions_sound|]. intros txns h [Hinv Ht]. revert h Hinv.
  change (safe (acked_of fs_display faults fence txns)). induction Ht as [|t txns [_ Ht] Hts IH]; [apply quiet_safe, wal_quiet_ret|].
  cbn [acked_of]. apply safe_bind; [|intros b; apply safe_bind; [exact IH|intros rest; apply quiet_safe, wal_quiet_ret]].
  intros h Hinv. pose proof (all_refs_done_safe (tx_refs t) Ht h Hinv) as Ha. unfold done_or_unknown, all_refs_already_done.
  destruct (all_refs_done _ _ _ _ h) as [[b|[]] h']; done.
Qed.

Lemma redo_acked_compactions_safe others iter_groups :
  (∀ l, iter_groups l ≡ₚ l) → (∀ n h, rely h (others n h)) →
  safe (redo_acked_compactions fs_display faults fence fuel others iter_groups).
Proof.
  intros Hi Hr. unfold redo_acked_compactions. apply safe_bind; [apply apply_acked_in_memory_safe|].
  intros [|id ids]; [apply quiet_safe, wal_quiet_ret|]. by apply redo_acked_durable_batches_safe.
Qed.

Lemma query_all_decoded n (s : S) p : ∀ acc rows,
  Forall (λ e, ∃ bs, decode_row bs = Ok e.2) acc.1 → rloop n (query_page s p) acc = Ok (Some rows) →
  Forall (λ e : CatalogKey * CatalogRow, ∃ bs, decode_row bs = Ok e.2) rows.
Proof.
  induction n as [|n IH]; intros [out after] rows Hacc Hq; [done|]. cbn [rloop] in Hq. apply rbind_Ok in Hq as (r & Hp & Hq).
  unfold query_page in Hp. apply rbind_Ok in Hp as (page & Hpage & Hp).
  assert (Forall (λ e : CatalogKey * CatalogRow, ∃ bs, decode_row bs = Ok e.2) (out ++ page)) as Hall.
  { apply Forall_app_2; [exact Hacc|]. unfold catalog_query_prefix in Hpage. apply rbind_Ok in Hpage as (l & _ & Ht%rtraverse_Ok).
    apply Forall_forall. intros [k r0] [i Hi]%list_elem_of_lookup. destruct (Forall2_lookup_r _ _ _ _ _ Ht Hi) as ([key bs] & _ & Hd).
    unfold decode_entry in Hd. inv_res. by exists bs. }
  destruct page as [|e page]; [injection Hp as <-; injection Hq as <-; by rewrite app_nil_r in Hall|].
  case_decide; injection Hp as <-; [by injection Hq as <-|]. by eapply (IH (out ++ e :: page, _)).
Qed.

Lemma reclaim_fully_done_before_safe others min_seq :
  (∀ n h, rely h (others n h)) → safe (reclaim_fully_done_before faults fence min_unconsumed_seq fuel others min_seq).
Proof.
  intros Hr. unfold reclaim_fully_done_before.
  eapply (triple_bind _ _ _ (λ rows h, inv h ∧ Forall (λ row, utf8_valid (segment_id_str (sr_segment_id row)) = true) rows)).
  - unfold live_segment_rows. eapply triple_bind; [apply (triple_read _ _ (λ rows h, Forall (λ e, ∃ bs, decode_row bs = Ok e.2) rows ∧ inv h)); [done|]|].
    { intros rows h Hq Hi. split; [|done]. apply rbind_Ok in Hq as (l & Hq%map_err_Ok & Hl%ok_or_Ok). subst l. by eapply (query_all_decoded fuel _ _ ([], None)). }
    intros rows. apply triple_pure. intros Hd. apply triple_ret. intros h Hi. split; [done|]. apply Forall_forall. intros row Hrow.
    apply list_elem_of_omap in Hrow as ([k r] & Hin & Hs). rewrite Forall_forall in Hd. destruct (Hd _ Hin) as [bs Hbs].
    unfold as_segment in Hs. destruct r; simplify_eq/=. by eapply row_text.
  - intros rows h [Hi Ht]. revert h Hi. by apply reclaim_rows_safe.
Qed.
End Durability.

(** ** The life of a log *)

Lemma catalog_rel_unique {RC : Codec CatalogRow} {DG : Digest} m c c' : catalog_rel m c → catalog_rel m c' → c = c'.
Proof.
  assert (∀ c c' k r, catalog_rel m c → catalog_rel m c' → c !! k = Some r → c' !! k = Some r) as Hle.
  { intros c1 c2 k r H1 H2 Hk. destruct (rel_stored _ _ H1 _ _ Hk) as (Hw & v & He & Hm).
    destruct (rel_lookup_Some _ _ _ _ H2 Hw Hm) as (r' & Hr' & He'). rewrite Hr'. f_equal.
    apply decode_encode_row in He, He'. congruence. }
  intros H1 H2. apply map_eq. intros k. destruct (c !! k) as [r|] eqn:E; [by rewrite (Hle c c' k r H1 H2 E)|].
  destruct (c' !! k) as [r|] eqn:E'; [|done]. by rewrite (Hle c' c k r H2 H1 E') in E.
Qed.

Section Life.
Context {RC : Codec CatalogRow} {DG : Digest} {S W Db Tree : Type} `{HL : StoreLaws S} {SW : SledWorld W Db Tree}.
Context {RB Sc : Type} {AI : ArrowIpc RB Sc} {CK : Codec PartitionKey} {CM : Codec WalPartMeta}
  {CO : Codec (gmap OffsetKey N)} {CE : Codec CheckpointEnvelope} {CT : Codec CompactionTransaction} {TX : TextCodecs}.
Context {B : Type} {OB : ObjectStore B}.
Context (fs_display : FsErr → bytes) (is_enospc : FsErr → bool) (faults : N → option FsErr) (torn : N → nat).
Context (paths : PipelinePaths).
Notation hst := (Handle S W B).

(** One call, by whatever writer, or a restart, which loses what is only in memory.  A call
    may fail at any step; the other tasks of an optimistic loop keep to [rely]. *)
Inductive wal_step : hst → hst → Prop :=
| step_persist fence fuel raw offsets batches partitions_meta part_meta_blobs updates created_at h :
    utf8_valid raw = true → encodable partitions_meta created_at batches →
    (∀ enc, encode_snapshot partitions_meta part_meta_blobs created_at offsets batches = Ok enc → (blen (es_bytes enc) ≤ U64_MAX)%N) →
    wal_step h (persist_segment (RB := RB) fs_display is_enospc faults torn paths fence fuel raw offsets batches
                  partitions_meta part_meta_blobs updates created_at h).2
| step_persist_s3 fence fuel raw encoded bucket key offsets updates h :
    utf8_valid raw = true → wal_step h (persist_s3_segment fence fuel raw encoded bucket key offsets updates h).2
| step_checkpoint fence fuel key envelope h :
    utf8_valid key = true → wal_step h (persist_checkpoint fence fuel key envelope h).2
| step_hint fence fuel ns p position closed h :
    utf8_valid ns = true → utf8_valid p = true → wal_step h (persist_offset_hint fence fuel ns p position closed h).2
| step_replace fence raw location len sha h :
    utf8_valid raw = true → payload_at paths (files h) {| segment_id_str := raw |} location sha →
    wal_step h (replace_payload_location fence raw location len sha h).2
| step_put_compaction fence raw state body h :
    utf8_valid raw = true → wal_step h (put_compaction fence raw state body h).2
| step_delete_compaction fence raw h :
    utf8_valid raw = true → wal_step h (delete_compaction fence raw h).2
| step_complete fence min_seq others raw ordinals h :
    utf8_valid raw = true → (∀ n h, rely paths h (others n h)) →
    wal_step h (complete_slices_and_reclaim faults fence min_seq others raw ordinals h).2
| step_reclaim fence min_seq fuel others seq h :
    (∀ n h, rely paths h (others n h)) →
    wal_step h (reclaim_fully_done_before faults fence min_seq fuel others seq h).2
| step_redo fence fuel others iter_groups h :
    (∀ l, iter_groups l ≡ₚ l) → (∀ n h, rely paths h (others n h)) →
    wal_step h (redo_acked_compactions fs_display faults fence fuel others iter_groups h).2
| step_apply_acked fence fuel h : wal_step h (apply_acked_in_memory fs_display faults fence fuel h).2
| step_republish fence fuel h : wal_step h (republish_all fence fuel h).2
| step_format fence h : wal_step h (ensure_format_clean fence h).2
| step_load_index fence row h :
    valid_component (segment_id_str (sr_segment_id row)) →
    wal_step h (load_or_build_index_meta fs_display faults fence row h).2
| step_restart h h' : h_store h' = h_store h → files h' = files h → wal_step h h'.

Lemma safe_result {A} (m : st hst failure A) (Q : A → hst → Prop) h :
  triple (inv paths) m Q (inv paths) → (∀ a h, Q a h → inv paths h) → inv paths h → inv paths (m h).2.
Proof. intros Hm HQ Hi. specialize (Hm h Hi). destruct (m h) as [[a|e] h']; simpl; [by eapply HQ|done]. Qed.

Lemma durable_inv raw res (h : hst) : durable paths raw res h → inv paths h.
Proof. intros (c & row & Hs & _). by exists c. Qed.

Lemma wal_step_inv h h' : segs paths ≠ [] → wal_step h h' → inv paths h → inv paths h'.
Proof.
  intros Hd Hs Hi.
  assert (∀ A (m : st hst failure A) h, safe paths m → inv paths h → inv paths (m h).2) as Hsafe
    by (intros A m h0 Hm; by eapply safe_result).
  destruct Hs.
  - eapply safe_result; [by apply persist_segment_sound|intros ? ?; apply durable_inv|done].
  - apply Hsafe; [by apply persist_s3_segment_safe|done].
  - apply Hsafe; [by apply persist_checkpoint_safe|done].
  - apply Hsafe; [by apply persist_offset_hint_safe|done].
  - pose proof (replace_payload_location_sound paths fence raw location len sha H0 h (conj Hi H1)) as Hr.
    destruct (replace_payload_location fence raw location len sha h) as [[[]|e] h']; done.
  - apply Hsafe; [by apply put_compaction_safe|done].
  - apply Hsafe; [by apply delete_compaction_safe|done].
  - apply Hsafe; [by apply complete_slices_safe|done].
  - apply Hsafe; [by apply reclaim_fully_done_before_safe|done].
  - apply Hsafe; [by apply redo_acked_compactions_safe|done].
  - apply Hsafe; [by apply apply_acked_in_memory_safe|done].
  - apply Hsafe; [apply quiet_safe, quiet_republish_all|done].
  - apply Hsafe; [by apply ensure_format_clean_safe|done].
  - apply Hsafe; [by apply load_or_build_safe|done].
  - destruct Hi as (c & Hv & Hp). exists c. unfold sound, cview, catalog_of in *. by rewrite H0, H1.
Qed.

Lemma wal_steps_inv h h' : segs paths ≠ [] → rtc wal_step h h' → inv paths h → inv paths h'.
Proof. intros Hd. induction 1 as [|x y z Hs _ IH]; [done|]. intros Hi. by apply IH, (wal_step_inv x). Qed.
End Life.

(** ** What the log promises *)

Section Promises.
Context {RC : Codec CatalogRow} {DG : Digest} {S W Db Tree : Type} `{HL : StoreLaws S} {SW : SledWorld W Db Tree}.
Context {RB Sc : Type} {AI : ArrowIpc RB Sc} {CK : Codec PartitionKey} {CM : Codec WalPartMeta}
  {CO : Codec (gmap OffsetKey N)} {CE : Codec CheckpointEnvelope} {CT : Codec CompactionTransaction} {TX : TextCodecs}.
Context {B : Type} {OB : ObjectStore B}.
Context (fs_display : FsErr → bytes) (is_enospc : FsErr → bool) (faults : N → option FsErr) (torn : N → nat).
Context (paths : PipelinePaths).
Notation hst := (Handle S W B).

(** A handle whose catalog has no rows. *)
Definition empty_log (h : hst) : Prop := cview h ∅.

Lemma empty_log_inv (h : hst) : empty_log h → inv paths h.
Proof. intros He. exists ∅. split; [done|]. intros id row Hr. by rewrite lookup_empty in Hr. Qed.

Lemma empty_log_start (h : hst) : contents (catalog_of h) = ∅ → empty_log h.
Proof. intros He. unfold empty_log, cview. rewrite He. apply catalog_rel_empty. Qed.

Lemma segment_row_Ok id (h : hst) c row :
  cview h c → valid_component (segment_id_str id) → (segment_row id h).1 = Ok (Some row) →
  c !! KSegment id = Some (RSegment row).
Proof.
  intros Hv Hid. unfold segment_row, sbind. pose proof (get_row_Ok (KSegment id) h c) as Hg.
  destruct (get_row (KSegment id) h) as [[v|e] h'] eqn:E; [|done]. simpl in Hg. specialize (Hg v Hv Hid eq_refl).
  subst v. destruct (c !! KSegment id) as [[]|]; cbn; congruence.
Qed.

(** C10: In every state the log reaches from an empty catalog, by any sequence of calls (each of
    which may fail at any of its reads, commits, syncs or file operations, with torn writes)
    and restarts, a segment row on the disk names the segment's own file, and the file is there
    with the digest of the row. *)
Theorem live_segments_have_payloads (h h' : hst) raw row path :
  segs paths ≠ [] → empty_log h → rtc (wal_step (RB := RB) fs_display is_enospc faults torn paths) h h' →
  valid_component raw → (segment_row {| segment_id_str := raw |} h').1 = Ok (Some row) →
  sr_location row = CatalogRow.Disk path →
  path = seg_path paths raw ∧
  ∃ bs, files h' !! path = Some bs ∧ verify_body_checksum bs = Ok (sr_payload_sha256 row).
Proof.
  intros Hd He Hs Hid Hr Hl.
  destruct (wal_steps_inv _ _ _ _ _ _ _ Hd Hs (empty_log_inv h He)) as (c & Hv & Hp).
  by apply (Hp {| segment_id_str := raw |} row (segment_row_Ok {| segment_id_str := raw |} _ _ _ Hv Hid Hr) path).
Qed.

Lemma persist_segment_result fence fuel raw offsets (batches : gmap PartitionKey (WalPayload RB)) partitions_meta
    part_meta_blobs updates created_at res (h h' : hst) :
  persist_segment fs_display is_enospc faults torn paths fence fuel raw offsets batches partitions_meta
    part_meta_blobs updates created_at h = (Ok res, h') →
  ∃ enc, encode_snapshot partitions_meta part_meta_blobs created_at offsets batches = Ok enc ∧
    wres_sha256 res = es_sha256 enc ∧ wres_offsets_published res = true.
Proof.
  pose (Q := λ (r : SegmentWriteResult) (_ : hst), ∃ enc, encode_snapshot partitions_meta part_meta_blobs created_at offsets batches = Ok enc ∧
    wres_sha256 r = es_sha256 enc ∧ wres_offsets_published r = true).
  cut (triple (λ _, True) (persist_segment fs_display is_enospc faults torn paths fence fuel raw offsets batches
    partitions_meta part_meta_blobs updates created_at) Q (λ _, True)).
  { intros Ht Hp. specialize (Ht h I). rewrite Hp in Ht. exact Ht. }
  assert (∀ A (m : st hst failure A), triple (λ _, True) m (λ _ _, True) (λ _, True)) as Hany
    by (intros A m h0 _; by destruct (m h0) as [[]]).
  unfold persist_segment. eapply triple_bind; [apply Hany|intros id].
  eapply (triple_bind _ _ _ (λ enc _, encode_snapshot partitions_meta part_meta_blobs created_at offsets batches = Ok enc)).
  { apply triple_lift; [done|]. by intros enc h0 He%map_err_Ok _. }
  intros enc. assert (∀ A (m : st hst failure A), triple (λ _, encode_snapshot partitions_meta part_meta_blobs created_at offsets batches = Ok enc)
    m (λ _ _, encode_snapshot partitions_meta part_meta_blobs created_at offsets batches = Ok enc) (λ _, True)) as Hk
    by (intros A m h0 He; by destruct (m h0) as [[]]).
  eapply triple_bind; [apply Hk|intros offs]; eapply triple_bind; [apply Hk|intros cps]. eapply triple_bind; [apply Hk|intros [row|]].
  - case_bool_decide; [|by apply triple_err]. eapply triple_bind; [apply Hk|intros []]. apply triple_ret. intros h0 He.
    by exists enc.
  - do 3 (eapply triple_bind; [apply Hk|intros []]). eapply triple_bind; [apply Hk|intros ?].
    eapply triple_bind; [apply Hk|intros []]. apply triple_ret. intros h0 He. by exists enc.
Qed.

(** C11: A segment that [persist_segment] acknowledges is durable: its row is committed with the
    digest of the snapshot's encoding and the location returned, its sequence is published, and
    a payload on the disk is in place with that digest, so that a restart, which keeps the store
    and the files, finds all of it. *)
Theorem acknowledged_segments_are_durable fence fuel raw offsets (batches : gmap PartitionKey (WalPayload RB)) partitions_meta
    part_meta_blobs updates created_at res (h h1 h2 : hst) :
  segs paths ≠ [] → empty_log h → rtc (wal_step (RB := RB) fs_display is_enospc faults torn paths) h h1 →
  utf8_valid raw = true → encodable partitions_meta created_at batches →
  (∀ enc, encode_snapshot partitions_meta part_meta_blobs created_at offsets batches = Ok enc → (blen (es_bytes enc) ≤ U64_MAX)%N) →
  persist_segment fs_display is_enospc faults torn paths fence fuel raw offsets batches partitions_meta
    part_meta_blobs updates created_at h1 = (Ok res, h2) →
  ∃ enc c row,
    encode_snapshot partitions_meta part_meta_blobs created_at offsets batches = Ok enc ∧
    wres_sha256 res = es_sha256 enc ∧ wres_offsets_published res = true ∧
    cview h2 c ∧ c !! KSegment {| segment_id_str := raw |} = Some (RSegment row) ∧
    sr_payload_sha256 row = es_sha256 enc ∧ write_location (sr_location row) = wres_location res ∧
    h_max_published h2 = sr_seq row ∧
    (∀ path, sr_location row = CatalogRow.Disk path →
      ∃ bs, files h2 !! path = Some bs ∧ verify_body_checksum bs = Ok (es_sha256 enc)).
Proof.
  intros Hd He Hs Hu Hen Hlen Hp. destruct (persist_segment_result _ _ _ _ _ _ _ _ _ _ _ _ Hp) as (enc & Henc & Hsha & Hpub).
  pose proof (wal_steps_inv _ _ _ _ _ _ _ Hd Hs (empty_log_inv h He)) as Hi.
  pose proof (persist_segment_sound fs_display is_enospc faults torn paths fence fuel Hd raw offsets batches partitions_meta
    part_meta_blobs updates created_at Hu Hen Hlen h1 Hi) as Ht.
  rewrite Hp in Ht. destruct Ht as (c & row & [Hv Hpl] & Hrow & Hr1 & Hr2 & Hr3).
  exists enc, c, row. split_and!; try done; [congruence|]. intros path Hl.
  destruct (Hpl _ _ Hrow path Hl) as (_ & bs & Hb & Hc). exists bs. split; [done|]. congruence.
Qed.
End Promises.

(** ** A concrete log *)

Module WalExample.

(** A codec that keeps to the values of a predicate. *)
Program Definition guarded_codec {A} (ok : A → bool) (C : Codec A) : Codec A := {|
  serialize a := if ok a then serialize a else Err (str "not text");
  deserialize bs := match deserialize bs with
                    | Ok a => if ok a then Ok a else Err (str "not text")
                    | Err e => Err e
                    end
|}.
Next Obligation.
  intros A ok C a bs. simpl. destruct (ok a) eqn:E; [|done]. intros ->%deserialize_serialize. by rewrite E.
Qed.

Definition row_is_text (r : CatalogRow) : bool :=
  match r with RSegment row => utf8_valid (segment_id_str (sr_segment_id row)) | _ => true end.

Definition tx_is_text (t : CompactionTransaction) : bool :=
  utf8_valid (tx_id t) && forallb (λ r, utf8_valid (wr_segment_id r)) (tx_refs t).

Definition part (seg : bytes) : WalPartRef := {|
  wr_segment_id := seg; wr_source := SdS3 (str "wal") (str "k"); wr_start := 0; wr_len := 10;
  wr_key := demo_key (str "a"); wr_cdc_meta_hash := None; wr_ordinal := Some 0%N
|}.

Definition acked (id : bytes) (refs : list WalPartRef) : CompactionTransaction := {|
  tx_id := id; tx_sink_ref := str "s"; tx_namespace := str "n"; tx_schema_fingerprint := str "f";
  tx_write_policy := WpAppend; tx_semantics := SwExactOnce; tx_refs := refs; tx_target_filename := str "t";
  tx_created_at_secs := 0; tx_updated_at_secs := 0; tx_attempts := 1; tx_state := TxAcked
|}.

(** Segments [x00], [x01], ..., as two characters. *)
Definition seg_name (n : nat) : bytes := [byte_of_N (97 + N.of_nat (n / 26)); byte_of_N (97 + N.of_nat (n mod 26))].

Definition one_acked : CompactionTransaction := acked (str "c1") [part (str "aa")].
Definition wide_acked : CompactionTransaction := acked (str "c2") (part ∘ seg_name <$> seq 0 50).

#[local] Instance row_codec : Codec CatalogRow := guarded_codec row_is_text countable_codec.
#[local] Instance txn_codec : Codec CompactionTransaction := guarded_codec tx_is_text (table_codec [one_acked; wide_acked]).
#[local] Existing Instances demo_digest demo_arrow demo_key_codec demo_meta_codec demo_offsets_codec.
#[local] Program Instance envelope_codec : Codec CheckpointEnvelope := {|
  serialize _ := Err (str "none"); deserialize _ := Err (str "none")
|}.
Next Obligation. done. Qed.

#[local] Instance text_codecs : TextCodecs.
Proof.
  split.
  - intros bs row. unfold decode_row. case_match; [done|]. intros Hd%map_err_Ok. cbn in Hd.
    repeat case_match; simplify_eq/=; done.
  - intros bs t Hd. cbn in Hd. repeat case_match; simplify_eq/=. unfold tx_is_text in *.
    match goal with E : _ && _ = true |- _ => apply andb_prop in E as [Hi Hr] end. split; [done|].
    apply Forall_forall. intros r Hin. rewrite forallb_forall in Hr. by apply Hr, list_elem_of_In.
Qed.

(** A bucket. *)
Definition bucket_delete (bucket key : bytes) : st (gmap (bytes * bytes) bytes) bytes unit :=
  λ b, (Ok tt, delete (bucket, key) b).

#[local] Program Instance bucket_objects : ObjectStore (gmap (bytes * bytes) bytes) := {|
  objects b := b;
  get_object_bytes b bucket key := ok_or (str "NoSuchKey") (b !! (bucket, key));
  head_etag b bucket key := Ok (sha256_hex <$> b !! (bucket, key));
  delete_object := bucket_delete
|}.
Next Obligation. intros b bucket key bs. simpl. destruct (b !! _); simpl; congruence. Qed.
Next Obligation. intros bucket key b k Hk. simpl. by rewrite lookup_delete_ne. Qed.

Definition display (_ : FsErr) : bytes := str "io".
Definition enospc (_ : FsErr) : bool := false.
Definition no_faults (_ : N) : option FsErr := None.
Definition whole (_ : N) : nat := 0.
Definition dirs : PipelinePaths := from_pipeline_root (str "/d").

Notation log := (Handle MemoryInner MapWorld (gmap (bytes * bytes) bytes)).

Definition start : log := {|
  h_store := fresh_offsets; h_max_committed := CatalogSeq_ZERO; h_max_published := CatalogSeq_ZERO; h_in_memory_done := ∅;
  h_disk := {| d_files := ∅; d_step := 0 |}; h_objects := ∅; h_forgotten := []
|}.

Definition persist_demo (h : log) : result failure SegmentWriteResult * log :=
  persist_segment (RB := bytes) display enospc no_faults whole dirs CatalogFence_local 9 (str "aa") demo_offsets demo_batches
    ∅ demo_blobs ∅ 1000000000 h.

Lemma demo_persisted : is_ok (persist_demo start).1 = true.
Proof. by vm_compute. Qed.

Lemma start_empty : empty_log start.
Proof. by apply empty_log_start. Qed.

Lemma dirs_segs : segs dirs ≠ [].
Proof. by vm_compute. Qed.

Lemma demo_fits enc : encode_snapshot ∅ demo_blobs 1000000000 demo_offsets demo_batches = Ok enc → (blen (es_bytes enc) ≤ U64_MAX)%N.
Proof. destruct demo_encoded_ok as (enc' & He & Hb). unfold demo_encoded in He. intros H. assert (enc = enc') as -> by congruence. rewrite Hb. exact demo_len. Qed.

Definition demo_row (h : log) : option SegmentRow :=
  match (segment_row {| segment_id_str := str "aa" |} h).1 with Ok r => r | Err _ => None end.

Definition on_disk (h : log) : bool :=
  match demo_row h with
  | Some row => match sr_location row with CatalogRow.Disk _ => true | S3 _ _ => false end
  | None => false
  end.

Lemma demo_row_on_disk (h : log) :
  on_disk h = true →
  ∃ row path, (segment_row {| segment_id_str := str "aa" |} h).1 = Ok (Some row) ∧ sr_location row = CatalogRow.Disk path.
Proof.
  unfold on_disk, demo_row. intros H. destruct (segment_row _ h).1 as [[row|]|e]; [|done|done]. exists row.
  destruct (sr_location row) as [path|] eqn:El; [by exists path|done].
Qed.

Lemma demo_step (h : log) : wal_step (RB := bytes) display enospc no_faults whole dirs h (persist_demo h).2.
Proof. apply step_persist; [by vm_compute|exact demo_encodable|exact demo_fits]. Qed.

Lemma demo_on_disk : on_disk (persist_demo start).2 = true.
Proof. by vm_compute. Qed.

Lemma aa_component : valid_component (str "aa").
Proof. split; by vm_compute. Qed.

Lemma live_segments_have_payloads_witness :
  ∃ row path bs, (segment_row {| segment_id_str := str "aa" |} (persist_demo start).2).1 = Ok (Some row) ∧
    sr_location row = CatalogRow.Disk path ∧ files (persist_demo start).2 !! path = Some bs ∧
    verify_body_checksum bs = Ok (sr_payload_sha256 row).
Proof.
  pose proof (demo_step start) as Hs. pose proof demo_on_disk as Hd. set (h := (persist_demo start).2) in *. clearbody h.
  destruct (demo_row_on_disk h Hd) as (row & path & Hr & Hl). exists row, path.
  destruct (live_segments_have_payloads (RB := bytes) display enospc no_faults whole dirs start h (str "aa") row path
    dirs_segs start_empty (rtc_once _ _ Hs) aa_component Hr Hl) as (_ & bs & Hb & Hc).
  exists bs. split; [exact Hr|]. split; [exact Hl|]. split; [exact Hb|exact Hc].
Defined.

Lemma acknowledged_segments_are_durable_witness :
  ∃ res c row, (persist_demo start).1 = Ok res ∧ cview (persist_demo start).2 c ∧
    c !! KSegment {| segment_id_str := str "aa" |} = Some (RSegment row) ∧
    sr_payload_sha256 row = wres_sha256 res ∧ h_max_published (persist_demo start).2 = sr_seq row.
Proof.
  destruct (persist_demo start) as [[res|e] h2] eqn:E.
  - destruct (acknowledged_segments_are_durable (RB := bytes) display enospc no_faults whole dirs CatalogFence_local 9 (str "aa")
      demo_offsets demo_batches ∅ demo_blobs ∅ 1000000000 res start start h2 dirs_segs start_empty)
      as (enc & c & row & _ & H1 & _ & Hv & Hr & H2 & _ & H3 & _).
    + apply rtc_refl.
    + by vm_compute.
    + exact demo_encodable.
    + exact demo_fits.
    + exact E.
    + exists res, c, row. split_and!; [reflexivity|exact Hv|exact Hr|congruence|exact H3].
  - exfalso. pose proof demo_persisted as H. rewrite E in H. discriminate H.
Defined.

(** ** The reclaim hold and the redo at startup *)

Definition no_others (_ : nat) (h : log) : log := h.
Definition as_is (l : list (bytes * list N)) : list (bytes * list N) := l.

Definition with_acked {RC : Codec CatalogRow} (t : CompactionTransaction) (h : log) : log :=
  match serialize t with
  | Ok body => (put_compaction CatalogFence_local (tx_id t) Acked body h).2
  | Err _ => h
  end.

Definition acked_log : log := with_acked one_acked (persist_demo start).2.
Definition completed : result failure bool * log :=
  complete_slices_and_reclaim no_faults CatalogFence_local 1 no_others (str "aa") [0%N] acked_log.
Definition redone : result failure unit * log :=
  redo_acked_compactions display no_faults CatalogFence_local 9 no_others as_is acked_log.


End WalExample.

(** ** A batch that is too wide *)

Module WideExample.
Import WalExample.

#[local] Existing Instances demo_digest demo_arrow demo_key_codec demo_meta_codec demo_offsets_codec envelope_codec
  bucket_objects txn_codec.

Definition enc : EncodedSnapshot := {|
  es_bytes := []; es_sha256 := str "d"; es_total_rows := 1;
  es_meta := {| sm_created_at_secs := 0; sm_total_bytes := 9; sm_num_partitions := 1; sm_offsets := ∅; sm_body_sha256 := str "d";
    sm_index := [{| ie_key := demo_key (str "a"); ie_bytes := 9; ie_updated_at_secs := 0; ie_slice_ordinal := 0;
      ie_part_meta_start := 0; ie_part_meta_len := 0; ie_part_meta_summary := SumAppend; ie_codec := 0; ie_start := 0; ie_len := 9 |}] |}
|}.

(** The rows that the fifty segments and their transaction need. *)
Definition rows_of (n : nat) : list CatalogRow :=
  let id := {| segment_id_str := seg_name n |} in let seq := {| seq_get := N.of_nat n + 1 |} in
  [RSegment (new_segment_row CatalogFence_local id seq enc (S3 (str "wal") (seg_name n)) 1 [] []);
   RIndex {| si_segment_id := id; si_version := 0; si_entries := slice_dir_entries (es_meta enc) |};
   RSeq {| max_seq := seq |}].

Definition table : list CatalogRow :=
  RCompaction {| cr_id := {| compaction_id_str := str "c2" |}; cr_state := Acked; cr_body := [x01]; cr_version := 0 |}
  :: concat (rows_of <$> seq 0 50).

#[local] Instance table_rows : Codec CatalogRow := table_codec table.

Fixpoint persist_each (n : nat) (h : log) : log :=
  match n with
  | 0 => h
  | Datatypes.S n => (persist_s3_segment CatalogFence_local 999 (seg_name n) enc (str "wal") (seg_name n) ∅ ∅ (persist_each n h)).2
  end.

Definition wide_log : log := with_acked wide_acked (persist_each 50 start).

Definition wide_redone : result failure unit * log :=
  redo_acked_compactions display no_faults CatalogFence_local 999 no_others as_is wide_log.

Definition txn_full_error : failure := Raised (DIo (catalog_error_display TxnFull)).

(** A batch of one acknowledged transaction (the bound on a batch is 32) whose parts lie in fifty
    segments needs more operations than a transaction takes: the flush is refused, the redo
    logs it and reports success, and the catalog and the acknowledged row stay as they were. *)
Theorem wide_batch_is_deferred :
  1 ≤ REDO_ACKED_BATCH ∧ size (mem_rows (catalog_of wide_log)) = 102 ∧
  (flush_acked_batch display no_faults CatalogFence_local no_others as_is [wide_acked] wide_log).1 = Err txn_full_error ∧
  wide_redone.1 = Ok tt ∧ bool_decide (mem_rows (catalog_of wide_redone.2) = mem_rows (catalog_of wide_log)) = true.
Proof. split; [by apply Nat.leb_le|]. split_and!; vm_compute; reflexivity. Qed.
End WideExample.
