(* ===== verification/Processor.v ===== *)
(** * Processor: keyed aggregates over the committed log (src/processor/mod.rs)

    The stream processor folds the rows of committed segments into measures per key.  Its
    state lives in the stream-state family of the store: the measures of a key, the last row
    of a key, the key of an entity, the ids of events that were applied, and the cursor of
    the log, all written in one transaction per slice.  [MIN_UNCONSUMED_SEQ] is the hold the
    processor puts on the reclaiming of segments. *)

From S2P Require Import CatalogOutbox.
From S2P Require Import Prelude Bytes Text Io Codec Lease CatalogKey CatalogRow Store Catalog SledMigrate.
From S2P Require Import Cdc OffsetStore CopyWal SegmentFile SourceContract WalSlice WalHandle.

(** ** Floating-point numbers and JSON

    [f64] and the text of JSON are of the language's libraries: the operations the code uses,
    and what it relies on in [FloatLaws] and in the laws of the JSON texts. *)

Class Float64 (F : Type) : Type := {
  f_add : F → F → F; f_sub : F → F → F; f_mul : F → F → F;
  f_zero : F; f_one : F; f_minus_one : F;
  f_finite : F → bool;
  (** [Number::from_f64], [Number::as_f64], [str::parse]. *)
  number_from_f64 : F → option JsonNumber;
  as_f64 : JsonNumber → option F;
  parse_f64 : bytes → option F
}.

(** [BTreeMap<String, Value>], a business row. *)
Notation Row := (gmap bytes Value).

Definition integral_row (r : Row) : Prop := map_Forall (λ _ v, no_float v) r.

(** [serde_json::to_vec] and [from_slice] on measures and rows, and [Value::to_string].  A
    number that is not finite is written as [null], which is not a number. *)
Class ProcessorJson (F : Type) `{Float64 F} : Type := {
  measures_to_vec : gmap bytes F → result bytes bytes;
  measures_from_slice : bytes → result bytes (gmap bytes F);
  row_to_vec : Row → result bytes bytes;
  row_from_slice : bytes → result bytes Row;
  value_to_string : Value → bytes;
  measures_roundtrip m bs :
    measures_to_vec m = Ok bs → map_Forall (λ _ x, f_finite x = true) m → measures_from_slice bs = Ok m;
  measures_not_finite m bs :
    measures_to_vec m = Ok bs → ¬ map_Forall (λ _ x, f_finite x = true) m → is_ok (measures_from_slice bs) = false;
  row_roundtrip r bs : row_to_vec r = Ok bs → integral_row r → row_from_slice bs = Ok r
}.

(** ** Arrow *)

Inductive ColType : Type :=
| TUtf8 | TLargeUtf8 | TInt8 | TInt16 | TInt32 | TInt64 | TUInt8 | TUInt16 | TUInt32 | TUInt64
| TFloat32 | TFloat64 | TBoolean | TOther (debug : bytes).

(** Record batches by their accessors, the readers of typed columns after the downcast, the
    IPC stream reader and the kernel that concatenates batches. *)
Class RowArrow (RB Col F : Type) : Type := {
  batch_len : RB → nat;
  batch_fields : RB → list (bytes * Col);
  col_type : Col → ColType;
  col_is_null : Col → nat → bool;
  col_str : ColType → Col → option (nat → bytes);
  col_int : ColType → Col → option (nat → Z);
  col_float : ColType → Col → option (nat → F);
  col_bool : Col → option (nat → bool);
  read_stream : bytes → result bytes (list RB);
  concat_batches : list RB → result bytes RB
}.

(** ** Configuration *)

Record AggregateMeasure : Type := { am_sum : option bytes; am_count : option bytes }.

Record TransformAggregate : Type := {
  ta_id : bytes;
  ta_key_fields : list bytes;
  ta_measures : gmap bytes AggregateMeasure
}.

(** A [BTreeMap] in the order of its keys. *)
Definition by_key {A} (e e' : bytes * A) : Prop := bytes_le e.1 e'.1.
#[global] Instance by_key_dec {A} : RelDecision (@by_key A).
Proof. intros e e'. unfold by_key. apply _. Defined.
Definition sorted_entries {A} (m : gmap bytes A) : list (bytes * A) := merge_sort by_key (map_to_list m).

Definition measure_message (name : bytes) : bytes :=
  str "transform.aggregates measure '" ++ name ++ str "' must set exactly one of sum or count".

Definition measure_validate (name : bytes) (m : AggregateMeasure) : result bytes unit :=
  match am_sum m, am_count m with
  | Some sum, None => if blank_text sum then Err (measure_message name) else Ok tt
  | None, Some count => if blank_text count then Err (measure_message name) else Ok tt
  | _, _ => Err (measure_message name)
  end.

Definition aggregate_validate (a : TransformAggregate) : result bytes unit :=
  if blank_text (ta_id a) then Err (str "transform.aggregates[].id must be non-empty")
  else if bool_decide (ta_key_fields a = []) || existsb blank_text (ta_key_fields a)
  then Err (str "transform.aggregates id '" ++ ta_id a ++ str "' requires at least one key_fields entry")
  else if bool_decide (ta_measures a = ∅)
  then Err (str "transform.aggregates id '" ++ ta_id a ++ str "' requires at least one measure")
  else rfold (λ _ '(name, m), measure_validate name m) tt (sorted_entries (ta_measures a)).

(** ** Cursors *)

Record WalCursor : Type := {
  wc_seq : N;
  wc_segment_id : bytes;
  wc_slice_ordinal : N;
  wc_row_index : N
}.

#[global] Instance WalCursor_eq_dec : EqDecision WalCursor.
Proof. solve_decision. Defined.

Definition cursor_default : WalCursor :=
  {| wc_seq := 0; wc_segment_id := []; wc_slice_ordinal := 0; wc_row_index := 0 |}.

Definition with_row (row_index : N) (c : WalCursor) : WalCursor :=
  {| wc_seq := wc_seq c; wc_segment_id := wc_segment_id c; wc_slice_ordinal := wc_slice_ordinal c;
     wc_row_index := row_index |}.

(** The comparison of the four fields in order. *)
Definition is_before (c : WalCursor) (seq : N) (segment_id : bytes) (slice row : N) : bool :=
  if (wc_seq c =? seq)%N then
    if bool_decide (wc_segment_id c = segment_id) then
      if (wc_slice_ordinal c =? slice)%N then (wc_row_index c <? row)%N
      else (wc_slice_ordinal c <? slice)%N
    else bytes_leb (wc_segment_id c) segment_id
  else (wc_seq c <? seq)%N.

Record ProcessorMeta : Type := { pm_cursor : WalCursor; pm_config_hash : bytes }.

Definition already_applied_slice (c : WalCursor) (segment_id : bytes) (slice_ordinal : N) (batch_rows : nat) : bool :=
  bool_decide (wc_segment_id c = segment_id) && (wc_slice_ordinal c =? slice_ordinal)%N
  && (N.of_nat batch_rows <=? wc_row_index c)%N.

(** ** Rows *)

Section Rows.
Context {F : Type} {FL : Float64 F} {PJ : ProcessorJson F}.
Context {RB Col : Type} {RA : RowArrow RB Col F}.

Definition json_f64 (v : Value) : F :=
  match v with
  | Number n => default f_zero (as_f64 n)
  | JString s => default f_zero (parse_f64 s)
  | Bool true => f_one
  | _ => f_zero
  end.

Definition measure_value (m : AggregateMeasure) (row : Row) : result bytes F :=
  match am_count m with
  | Some _ => Ok f_one
  | None =>
      match am_sum m with
      | None => Err (str "measure has neither sum nor count")
      | Some column => Ok (json_f64 (default Null (row !! column)))
      end
  end.

Definition json_key_part (v : Value) : bytes :=
  match v with
  | JString s => s
  | Number n => compact_number n
  | Bool true => str "true"
  | Bool false => str "false"
  | Null => []
  | other => value_to_string other
  end.

(** Parts joined with the unit separator. *)
Definition encode_key (fields : list bytes) (row : Row) : bytes :=
  intersperse [x1f] ((λ field, json_key_part (default Null (row !! field))) <$> fields).

(** The columns that are neither keys nor summed. *)
Definition leftover (agg : TransformAggregate) (name : bytes) : bool :=
  negb (bool_decide (name ∈ ta_key_fields agg))
  && negb (existsb (λ e, bool_decide (am_sum e.2 = Some name)) (map_to_list (ta_measures agg))).

Definition entity_identity (agg : TransformAggregate) (row : Row) : option bytes :=
  match (λ e : bytes * Value, e.1 ++ x3d :: json_key_part e.2) <$>
        base.filter (λ e, leftover agg e.1 = true) (sorted_entries row) with
  | [] => None
  | parts => Some (intersperse [x1f] parts)
  end.

(** [Value::from] of an integer. *)
Definition value_of_int (z : Z) : Value :=
  if (0 <=? z)%Z then Number (PosInt (Z.to_N z)) else Number (NegInt z).

Definition as_i64_cast (z : Z) : Z := if (z <=? I64_MAX)%Z then z else (z - 2 ^ 64)%Z.

Definition float_value (what : bytes) (f : option (nat → F)) (row : nat) : result bytes Value :=
  let? get := ok_or what f in
  ok_or what (Number <$> number_from_f64 (get row)).

Definition array_value (a : Col) (row : nat) : result bytes Value :=
  if col_is_null a row then Ok Null
  else
    let t := col_type a in
    let text what := let? get := ok_or what (col_str t a) in Ok (JString (get row)) in
    let int what := let? get := ok_or what (col_int t a) in Ok (value_of_int (get row)) in
    match t with
    | TUtf8 => text (str "utf8")
    | TLargeUtf8 => text (str "largeutf8")
    | TInt8 => int (str "int8")
    | TInt16 => int (str "int16")
    | TInt32 => int (str "int32")
    | TInt64 => int (str "int64")
    | TUInt8 => int (str "uint8")
    | TUInt16 => int (str "uint16")
    | TUInt32 => int (str "uint32")
    | TUInt64 => let? get := ok_or (str "uint64") (col_int t a) in Ok (value_of_int (as_i64_cast (get row)))
    | TFloat32 => float_value (str "float32") (col_float t a) row
    | TFloat64 => float_value (str "float64") (col_float t a) row
    | TBoolean => let? get := ok_or (str "bool") (col_bool a) in Ok (Bool (get row))
    | TOther debug => Err (str "stream processor cannot read " ++ debug ++ str " values")
    end.

Definition row_values (b : RB) (row : nat) : result bytes Row :=
  rfold (λ (out : Row) '(name, col), let? v := array_value col row in Ok (<[name := v]> out)) ∅ (batch_fields b).

(** ** Mutations *)

Notation Measures := (gmap bytes (gmap bytes F)).

Definition add_deltas (agg : TransformAggregate) (key : bytes) (row : Row) (sign : F) (measures : Measures)
    : result bytes Measures :=
  let? slot := rfold (λ (slot : gmap bytes F) '(name, m),
                 let? v := measure_value m row in
                 Ok (<[name := f_add (default f_zero (slot !! name)) (f_mul sign v)]> slot))
                 (default ∅ (measures !! key)) (sorted_entries (ta_measures agg)) in
  Ok (<[key := slot]> measures).

Definition add_measure_delta (agg : TransformAggregate) (key : bytes) (old_row new_row : Row) (measures : Measures)
    : result bytes Measures :=
  let? slot := rfold (λ (slot : gmap bytes F) '(name, m),
                 let? v := measure_value m new_row in
                 let? o := measure_value m old_row in
                 Ok (<[name := f_add (default f_zero (slot !! name)) (f_sub v o)]> slot))
                 (default ∅ (measures !! key)) (sorted_entries (ta_measures agg)) in
  Ok (<[key := slot]> measures).

Definition apply_mutation (agg : TransformAggregate) (mutation : MutationKind) (new_key : bytes)
    (old_row : option Row) (new_row : Row) (measures : Measures) (last_rows : gmap bytes Row)
    : result bytes (Measures * gmap bytes Row) :=
  let old_key := encode_key (ta_key_fields agg) <$> old_row in
  match mutation with
  | Delete =>
      let? measures := match old_row with
                       | Some old => add_deltas agg (default new_key old_key) old f_minus_one measures
                       | None => Ok measures
                       end in
      let last_rows := <[new_key := ∅]> last_rows in
      Ok (measures, match old_key with
                    | Some old => if bool_decide (old = new_key) then last_rows else <[old := ∅]> last_rows
                    | None => last_rows
                    end)
  | Insert | Snapshot =>
      let? measures := add_deltas agg new_key new_row f_one measures in
      Ok (measures, <[new_key := new_row]> last_rows)
  | Update =>
      let? ml := match old_row, old_key with
                 | Some old, Some old_key =>
                     if bool_decide (old_key = new_key)
                     then let? measures := add_measure_delta agg new_key old new_row measures in Ok (measures, last_rows)
                     else let? measures := add_deltas agg old_key old f_minus_one measures in
                          let? measures := add_deltas agg new_key new_row f_one measures in
                          Ok (measures, <[old_key := ∅]> last_rows)
                 | _, _ => let? measures := add_deltas agg new_key new_row f_one measures in Ok (measures, last_rows)
                 end in
      Ok (ml.1, <[new_key := new_row]> ml.2)
  end.
End Rows.

(** ** The state in the store *)

(** [hex::encode]. *)
Definition hex_encode (bs : bytes) : bytes :=
  concat ((λ c, [nth (N.to_nat (Byte.to_N c / 16)) (str "0123456789abcdef") x30;
                 nth (N.to_nat (Byte.to_N c mod 16)) (str "0123456789abcdef") x30]) <$> bs).

(** The store and the hold on reclaiming. *)
Record Stream {S : Type} : Type := { st_store : S; st_hold : N }.
Arguments Stream : clear implicits.

Definition set_min_unconsumed_seq {S} (seq : N) (s : Stream S) : Stream S :=
  {| st_store := st_store s; st_hold := seq |}.

Section StreamState.
Context {F : Type} {FL : Float64 F} {PJ : ProcessorJson F}.
Context {RB Col : Type} {RA : RowArrow RB Col F}.
Context {CP : Codec ProcessorMeta}.
Context {S : Type} {HK : SkipprStore S}.
Context (fence : CatalogFence) (pipeline : bytes).

Notation Measures := (gmap bytes (gmap bytes F)).
Notation sop := (st (Stream S) bytes).

Definition slash (l : list bytes) : bytes := intersperse [x2f] l.

Definition meta_key (id : bytes) : bytes := slash [str "meta"; pipeline; id].
Definition agg_key (id key : bytes) : bytes := slash [str "agg"; pipeline; id; key].
Definition row_key (id key : bytes) : bytes := slash [str "row"; pipeline; id; key].
Definition entity_key_bytes (id entity : bytes) : bytes := slash [str "ent"; pipeline; id; entity].
Definition dedup_key (id event_id : bytes) : bytes := slash [str "dedup"; pipeline; id; hex_encode event_id].
Definition kind_prefix (kind id : bytes) : bytes := slash [kind; pipeline; id; []].

Definition get_raw (s : S) (rest : bytes) : result bytes (option bytes) :=
  map_err catalog_error_display (kv_get s (family_key StreamState rest)).

Definition on_stream {A} (m : st S CatalogError A) : sop A :=
  λ s, let '(r, s') := m (st_store s) in
       (map_err catalog_error_display r, {| st_store := s'; st_hold := st_hold s |}).

Definition commit_ops (ops : list KvOp) : sop unit :=
  match ops with
  | [] => sret tt
  | _ => on_stream (kv_commit ops fence) ;! on_stream kv_flush_durable
  end.

Definition write_meta (id : bytes) (meta : ProcessorMeta) : sop unit :=
  do? bs := slift (serialize meta) in
  commit_ops [KvPut (family_key StreamState (meta_key id)) bs].

Definition load_meta (s : S) (id : bytes) : result bytes (option ProcessorMeta) :=
  let? bs := get_raw s (meta_key id) in
  match bs with
  | Some bs => let? m := deserialize bs in Ok (Some m)
  | None => Ok None
  end.

Definition fresh_meta (hash : bytes) : ProcessorMeta := {| pm_cursor := cursor_default; pm_config_hash := hash |}.

Definition delete_kind (id kind : bytes) : sop unit :=
  do? page := sread (λ s, map_err catalog_error_display
                 (kv_query_prefix (st_store s) (family_key StreamState (kind_prefix kind id)) None U64_MAX)) in
  commit_ops ((λ e, KvDelete e.1) <$> page).

Definition rebuild (id hash : bytes) : sop unit :=
  sfor (delete_kind id) [str "agg"; str "row"; str "dedup"; str "ent"] ;!
  write_meta id (fresh_meta hash) ;!
  λ s, (Ok tt, set_min_unconsumed_seq 0 s).

Definition ensure_aggregate (hash : bytes) (agg : TransformAggregate) : sop unit :=
  do? bs := sread (λ s, get_raw (st_store s) (meta_key (ta_id agg))) in
  match bs with
  | Some bs =>
      do? meta := slift (deserialize bs) in
      if bool_decide (pm_config_hash meta = hash) then sret tt else rebuild (ta_id agg) hash
  | None => write_meta (ta_id agg) (fresh_meta hash)
  end.

(** The cursors that can be read. *)
Definition cursor_seqs (aggs : list TransformAggregate) (s : S) : list N :=
  omap (λ agg, match load_meta s (ta_id agg) with
               | Ok (Some meta) => Some (wc_seq (pm_cursor meta))
               | _ => None
               end) aggs.

Definition ensure_config (aggs : list TransformAggregate) (hash : bytes) : sop unit :=
  sfor (ensure_aggregate hash) aggs ;!
  λ s, match cursor_seqs aggs (st_store s) with
       | [] => (Ok tt, s)
       | q :: qs => (Ok tt, set_min_unconsumed_seq (foldr N.min q qs) s)
       end.

Definition load_measures (s : S) (id key : bytes) : result bytes (gmap bytes F) :=
  let? bs := get_raw s (agg_key id key) in
  match bs with
  | Some bs => measures_from_slice bs
  | None => Ok ∅
  end.

Definition measure (s : S) (id key name : bytes) : result bytes F :=
  let? bs := get_raw s (agg_key id key) in
  match bs with
  | None => Ok f_zero
  | Some bs => let? m := measures_from_slice bs in Ok (default f_zero (m !! name))
  end.

Definition load_last_row (s : S) (id key : bytes) : result bytes (option Row) :=
  let? bs := get_raw s (row_key id key) in
  match bs with
  | None => Ok None
  | Some bs => let? r := row_from_slice bs in Ok (if bool_decide (r = ∅) then None else Some r)
  end.

(** A pending row that is not deleted. *)
Definition pending_row (pending : gmap bytes Row) (key : bytes) : option Row :=
  match pending !! key with
  | Some r => if bool_decide (r = ∅) then None else Some r
  | None => None
  end.

(** The look-up by entity: a pending key, then the stored one ([from_utf8_lossy] of a key is
    the key, since keys are text). *)
Definition entity_row (s : S) (agg : TransformAggregate) (entity : bytes) (pending : gmap bytes Row)
    (entity_index : gmap bytes bytes) : result bytes (option Row) :=
  match k ← entity_index !! entity; pending_row pending k with
  | Some row => Ok (Some row)
  | None =>
      let? bs := get_raw s (entity_key_bytes (ta_id agg) entity) in
      match bs with
      | None => Ok None
      | Some old_key =>
          match pending_row pending old_key with
          | Some row => Ok (Some row)
          | None => load_last_row s (ta_id agg) old_key
          end
      end
  end.

Definition load_previous_row (s : S) (agg : TransformAggregate) (new_key : bytes) (new_row : Row)
    (pending : gmap bytes Row) (entity_index : gmap bytes bytes) : result bytes (option Row) :=
  let? found := match entity_identity agg new_row with
                | Some entity => entity_row s agg entity pending entity_index
                | None => Ok None
                end in
  match found with
  | Some row => Ok (Some row)
  | None =>
      match pending_row pending new_key with
      | Some row => Ok (Some row)
      | None => load_last_row s (ta_id agg) new_key
      end
  end.

(** ** Applying a slice *)

(** What a slice has accumulated. *)
Record Pending : Type := {
  pd_measures : Measures;
  pd_rows : gmap bytes Row;
  pd_entities : gmap bytes bytes;
  pd_dedup : list bytes;
  pd_cursor : WalCursor
}.

Definition pending_start (cursor : WalCursor) : Pending :=
  {| pd_measures := ∅; pd_rows := ∅; pd_entities := ∅; pd_dedup := []; pd_cursor := cursor |}.

Definition pending_skip (row : nat) (p : Pending) : Pending := {|
  pd_measures := pd_measures p; pd_rows := pd_rows p; pd_entities := pd_entities p;
  pd_dedup := pd_dedup p; pd_cursor := with_row (N.of_nat row + 1) (pd_cursor p)
|}.

(** Whether the event was applied before, and the ids seen with this one. *)
Definition check_dedup (s : S) (agg : TransformAggregate) (meta : option WalRowMeta) (dedup : list bytes)
    : result bytes (bool * list bytes) :=
  match meta with
  | Some meta =>
      if bool_decide (event_id meta = []) then Ok (false, dedup)
      else
        let dkey := dedup_key (ta_id agg) (event_id meta) in
        let? stored := get_raw s dkey in
        if bool_decide (is_Some stored) || bool_decide (dkey ∈ dedup) then Ok (true, dedup)
        else Ok (false, dedup ++ [dkey])
  | None => Ok (false, dedup)
  end.

Definition note_entity (agg : TransformAggregate) (mutation : MutationKind) (key : bytes) (row : Row)
    (entities : gmap bytes bytes) : gmap bytes bytes :=
  match entity_identity agg row with
  | None => entities
  | Some entity => match mutation with
                   | Delete => delete entity entities
                   | Insert | Snapshot | Update => <[entity := key]> entities
                   end
  end.

Definition apply_row (s : S) (agg : TransformAggregate) (batch : RB) (cdc : option (list WalRowMeta))
    (p : Pending) (row : nat) : result bytes Pending :=
  let meta := rows ← cdc; rows !! row in
  let? seen := check_dedup s agg meta (pd_dedup p) in
  if seen.1 : bool then Ok (pending_skip row p)
  else
    let? new_row := row_values batch row in
    let key := encode_key (ta_key_fields agg) new_row in
    let mutation := from_option mutation Insert meta in
    let? old_row := match mutation with
                    | Insert | Snapshot => Ok None
                    | Update | Delete => load_previous_row s agg key new_row (pd_rows p) (pd_entities p)
                    end in
    let? ml := apply_mutation agg mutation key old_row new_row (pd_measures p) (pd_rows p) in
    Ok {| pd_measures := ml.1; pd_rows := ml.2; pd_entities := note_entity agg mutation key new_row (pd_entities p);
          pd_dedup := seen.2; pd_cursor := with_row (N.of_nat row + 1) (pd_cursor p) |}.

(** The measures of a key with the deltas of the slice. *)
Definition merge_measures (current deltas : gmap bytes F) : gmap bytes F :=
  foldl (λ m '(name, delta), <[name := f_add (default f_zero (m !! name)) delta]> m) current (sorted_entries deltas).

Definition measure_put (s : S) (id : bytes) (e : bytes * gmap bytes F) : result bytes (bytes * bytes) :=
  let? current := load_measures s id e.1 in
  let? bs := measures_to_vec (merge_measures current e.2) in
  Ok (agg_key id e.1, bs).

Definition row_puts (agg : TransformAggregate) (e : bytes * Row) : result bytes (list (bytes * bytes)) :=
  let? bs := row_to_vec e.2 in
  Ok ((row_key (ta_id agg) e.1, bs) ::
      match entity_identity agg e.2 with
      | Some entity => [(entity_key_bytes (ta_id agg) entity, e.1)]
      | None => []
      end).

Definition slice_puts (s : S) (config_hash : bytes) (agg : TransformAggregate) (p : Pending)
    : result bytes (list (bytes * bytes)) :=
  let? meta := serialize {| pm_cursor := pd_cursor p; pm_config_hash := config_hash |} in
  let? measures := rtraverse (measure_put s (ta_id agg)) (sorted_entries (pd_measures p)) in
  let? rows := rtraverse (row_puts agg) (sorted_entries (pd_rows p)) in
  Ok ((meta_key (ta_id agg), meta) :: measures ++ concat rows ++ ((λ k, (k, str "1")) <$> pd_dedup p)).

(** The writes of a slice and the cursor after it. *)
Definition plan_events (s : S) (config_hash : bytes) (agg : TransformAggregate) (cursor : WalCursor) (batch : RB)
    (cdc : option (list WalRowMeta)) (start_row : nat) : result bytes (list KvOp * WalCursor) :=
  let? p := rfold (apply_row s agg batch cdc) (pending_start cursor) (seq start_row (batch_len batch - start_row)) in
  let? puts := slice_puts s config_hash agg p in
  Ok ((λ kv, KvPut (family_key StreamState kv.1) kv.2) <$> puts, pd_cursor p).

Definition apply_events (config_hash : bytes) (agg : TransformAggregate) (cursor : WalCursor) (batch : RB)
    (cdc : option (list WalRowMeta)) (start_row : nat) : sop WalCursor :=
  if batch_len batch <=? start_row then sret cursor
  else
    do? planned := sread (λ s, plan_events (st_store s) config_hash agg cursor batch cdc start_row) in
    smap_err (λ e, str "stream processor transaction failed: " ++ e) (commit_ops planned.1) ;!
    λ s, (Ok planned.2, set_min_unconsumed_seq (wc_seq planned.2) s).
End StreamState.

(** ** The processor and the log *)

Inductive proc_error : Type := Message (text : bytes) | LogFailure (e : failure).

Section Process.
Context {F : Type} {FL : Float64 F} {PJ : ProcessorJson F}.
Context {RB Col : Type} {RA : RowArrow RB Col F}.
Context {CP : Codec ProcessorMeta}.
Context {RC : Codec CatalogRow} {DG : Digest} {S W Db Tree : Type} {HK : SkipprStore S} {SW : SledWorld W Db Tree}.
Context {CK : Codec PartitionKey} {CM : Codec WalPartMeta} {CO : Codec (gmap OffsetKey N)}.
Context {B : Type} {OB : ObjectStore B}.
Context (fs_display : FsErr → bytes) (faults : N → option FsErr).
Context (fence : CatalogFence) (pipeline config_hash : bytes) (fuel : nat).
(** The other tasks of an optimistic loop of the handle. *)
Context (others : nat → Handle S W B → Handle S W B).

(** The handle of the log and the hold. *)
Record Proc : Type := { pr_handle : Handle S W B; pr_hold : N }.
Notation pop := (st Proc proc_error).

Definition on_log {A} (m : st (Handle S W B) failure A) : pop A :=
  λ p, let '(r, h) := m (pr_handle p) in (map_err LogFailure r, {| pr_handle := h; pr_hold := pr_hold p |}).

(** The state of the processor is in the store of the log. *)
Definition put_store (s : S) (o : StoreOffsetStore S W) : StoreOffsetStore S W :=
  {| so_store := s; so_fence := so_fence o; so_sled_fallback := so_sled_fallback o; so_world := so_world o |}.

Definition on_state {A} (m : st (Stream S) bytes A) : pop A :=
  λ p, let h := pr_handle p in
       let '(r, s) := m {| st_store := catalog_of h; st_hold := pr_hold p |} in
       (map_err Message r,
        {| pr_handle := set_store (put_store (st_store s) (h_store h)) h; pr_hold := st_hold s |}).

Definition hold (seq : N) : pop unit := λ p, (Ok tt, {| pr_handle := pr_handle p; pr_hold := seq |}).

Definition message {A} (r : result bytes A) : pop A := slift (map_err Message r).
Definition seg_io {A} (r : result IoErr A) : result proc_error A := map_err (λ e, Message (io_err_display e)) r.

(** The batch of a slice; [None] when the stream has none. *)
Definition slice_batch (bs : bytes) (e : SegmentPartitionIndexEntry) : result proc_error (option RB) :=
  let stop := N.min (saturating_add U64_MAX (ie_start e) (ie_len e)) (blen bs) in
  if (stop <? ie_start e)%N then Err (LogFailure Panicked)
  else
    let? batches := map_err Message (read_stream (slice bs (ie_start e) (stop - ie_start e))) in
    match batches with
    | [] => Ok None
    | [b] => Ok (Some b)
    | _ => let? b := map_err Message (concat_batches batches) in Ok (Some b)
    end.

Definition slice_cdc (bs : bytes) (e : SegmentPartitionIndexEntry) : result proc_error (option (list WalRowMeta)) :=
  let? meta := seg_io (read_part_meta_from_bytes bs e) in Ok (pm_rows <$> meta).

Definition at_slice (seq : N) (id : bytes) (ordinal : N) (c : WalCursor) : WalCursor :=
  {| wc_seq := seq; wc_segment_id := id; wc_slice_ordinal := ordinal; wc_row_index := wc_row_index c |}.

(** The loop over the slices: the cursor, the slices applied, whether the last of them is
    complete. *)
Fixpoint process_slices (agg : TransformAggregate) (seg : SegmentRow) (bs : bytes) (last_ordinal : option N)
    (entries : list SegmentPartitionIndexEntry) (current : WalCursor) (processed : N) (finished_last : bool)
    : pop (N * bool) :=
  match entries with
  | [] => sret (processed, finished_last)
  | e :: entries =>
      if (ie_slice_ordinal e <? wc_slice_ordinal current)%N || negb (ie_codec e =? PART_CODEC_ARROW)%N
      then process_slices agg seg bs last_ordinal entries current processed finished_last
      else
        do? batch := slift (slice_batch bs e) in
        match batch with
        | None => process_slices agg seg bs last_ordinal entries current processed finished_last
        | Some batch =>
            do? cdc := slift (slice_cdc bs e) in
            let id := segment_id_str (sr_segment_id seg) in
            let start_row := if bool_decide (wc_segment_id current = id) && (wc_slice_ordinal current =? ie_slice_ordinal e)%N
                             then N.to_nat (wc_row_index current) else 0 in
            if already_applied_slice current id (ie_slice_ordinal e) (batch_len batch) || (batch_len batch <=? start_row)
            then process_slices agg seg bs last_ordinal entries current processed finished_last
            else
              do? current := on_state (apply_events fence pipeline config_hash agg
                               (at_slice (seq_get (sr_seq seg)) id (ie_slice_ordinal e) current) batch cdc start_row) in
              process_slices agg seg bs last_ordinal entries current (processed + 1)
                (bool_decide (Some (ie_slice_ordinal e) = last_ordinal)
                 && (N.of_nat (batch_len batch) <=? wc_row_index current)%N)
        end
  end.

(** The cursor a segment starts with. *)
Definition segment_cursor (cursor : WalCursor) (seg : SegmentRow) : WalCursor :=
  let id := segment_id_str (sr_segment_id seg) in
  if bool_decide (wc_segment_id cursor = id) then cursor
  else if (wc_seq cursor <? seq_get (sr_seq seg))%N
  then {| wc_seq := seq_get (sr_seq seg); wc_segment_id := id; wc_slice_ordinal := 0; wc_row_index := 0 |}
  else cursor.

(** Errors of the reclaiming are logged. *)
Definition reclaim_passed : pop unit :=
  λ p, (Ok tt, {| pr_handle := (reclaim_fully_done_before faults fence (pr_hold p) fuel others (pr_hold p) (pr_handle p)).2;
                  pr_hold := pr_hold p |}).

Definition process_segment (agg : TransformAggregate) (cursor : WalCursor) (seg : SegmentRow) : pop N :=
  let q := seq_get (sr_seq seg) in
  if negb (is_before cursor q (segment_id_str (sr_segment_id seg)) U32_MAX U64_MAX) && (q <? wc_seq cursor)%N then sret 0%N
  else if (q <? wc_seq cursor)%N then sret 0%N
  else
    do? bs := on_log (payload_bytes fs_display faults (sr_location seg) (sr_payload_sha256 seg)) in
    do? meta := on_log (parse_segment bs) in
    do? res := process_slices agg seg bs (ie_slice_ordinal <$> last (sm_index meta)) (sm_index meta)
                 (segment_cursor cursor seg) 0 false in
    let '(processed, finished_last) := res in
    (if (0 <? processed)%N then
       hold (if finished_last : bool then saturating_add U64_MAX q 1 else q) ;!
       reclaim_passed
     else sret tt) ;!
    sret processed.

Definition stored_cursor (agg : TransformAggregate) (p : Proc) : result proc_error WalCursor :=
  let? meta := map_err Message (load_meta pipeline (catalog_of (pr_handle p)) (ta_id agg)) in
  Ok (pm_cursor (default (fresh_meta config_hash) meta)).

Fixpoint process_rows (agg : TransformAggregate) (rows : list SegmentRow) (processed : N) : pop N :=
  match rows with
  | [] => sret processed
  | seg :: rows =>
      do? cursor := sread (stored_cursor agg) in
      do? n := process_segment agg cursor seg in
      process_rows agg rows (processed + n)%N
  end.

Fixpoint process_aggregates (aggs : list TransformAggregate) (rows : list SegmentRow) (processed : N) : pop N :=
  match aggs with
  | [] => sret processed
  | agg :: aggs =>
      do? processed := process_rows agg rows processed in
      process_aggregates aggs rows processed
  end.

Definition process_available (aggs : list TransformAggregate) : pop N :=
  do? rows := on_log (live_segment_rows fuel) in
  process_aggregates aggs (sort_by_key (λ row, seq_get (sr_seq row)) rows) 0.
End Process.
