(* ===== verification/ProcessorReplay.v ===== *)
(** * ProcessorReplay: every slice of the log is applied once

    Whatever fails, the stream-state family of the store is always a prefix of one replay of
    the log: continuing from it gives what replaying the whole log would have given. *)

From S2P Require Import CatalogOutbox.
From S2P Require Import Prelude Bytes Text Io Codec Lease CatalogKey CatalogRow Store Catalog SledMigrate.
From S2P Require Import Cdc OffsetStore CopyWal SegmentFile SourceContract WalSlice WalHandle WalDurability Processor.

(** ** The stream-state family *)

(** Two stores with the same state of the processor. *)
Definition same_family (m m' : gmap bytes bytes) : Prop :=
  ∀ rest, m !! family_key StreamState rest = m' !! family_key StreamState rest.

#[global] Instance same_family_equiv : Equivalence same_family.
Proof.
  split; [intros m rest; done|intros m m' Hm rest; by rewrite Hm|intros m1 m2 m3 H1 H2 rest; by rewrite H1, H2].
Qed.

Lemma family_key_stream_inj x y : family_key StreamState x = family_key StreamState y → x = y.
Proof. apply app_inv_head. Qed.

Lemma catalog_not_stream k rest : ckey k ≠ family_key StreamState rest.
Proof. intros E. by apply (f_equal (take 8)) in E; vm_compute in E. Qed.

#[global] Instance apply_kv_ops_family ops : Proper (same_family ==> same_family) (apply_kv_ops ops).
Proof.
  unfold apply_kv_ops. induction ops as [|op ops IH]; intros m m' Hm; [done|]. simpl. apply IH. intros rest.
  destruct op as [k v|k]; simpl.
  - destruct (decide (k = family_key StreamState rest)) as [->|Hne]; [by rewrite !lookup_insert_eq|].
    rewrite !lookup_insert_ne by done. apply Hm.
  - destruct (decide (k = family_key StreamState rest)) as [->|Hne]; [by rewrite !lookup_delete_eq|].
    rewrite !lookup_delete_ne by done. apply Hm.
Qed.

(** ** What reclaiming keeps *)

Section Keeps.
Context {RC : Codec CatalogRow} {DG : Digest} {S W Db Tree : Type} `{HL : StoreLaws S} {SW : SledWorld W Db Tree}.
Context {B : Type} {OB : ObjectStore B}.
Context (faults : N → option FsErr) (fence : CatalogFence).
Notation hst := (Handle S W B).

(** The state of the processor stays, and payload files are at most removed. *)
Definition keeps (h h' : hst) : Prop :=
  same_family (contents (catalog_of h)) (contents (catalog_of h')) ∧
  ∀ path, files h' !! path = files h !! path ∨ files h' !! path = None.

#[global] Instance keeps_preorder : PreOrder keeps.
Proof.
  split; [intros h; split; [done|by left]|]. intros h1 h2 h3 [H1 H2] [H3 H4]. split; [by trans (contents (catalog_of h2))|].
  intros path. destruct (H4 path) as [-> | ->]; auto.
Qed.

Lemma keeps_same h h' : h_store h' = h_store h → h_disk h' = h_disk h → keeps h h'.
Proof. intros H1 H2. unfold keeps, catalog_of, files. rewrite H1, H2. split; [done|by left]. Qed.

Lemma planned_not_stream txn (s : S) planned rest :
  eval_ops txn (λ key, kv_get s (ckey key)) = Ok planned →
  family_key StreamState rest ∉ op_key <$> (kv_of_applied <$> planned).
Proof.
  intros Hp%eval_ops_applied Hin. apply list_elem_of_fmap in Hin as (op & Hop & Hin).
  apply list_elem_of_fmap in Hin as (a & -> & Ha). apply list_elem_of_lookup in Ha as [i Hi].
  destruct (Forall2_lookup_r _ _ _ _ _ Hp Hi) as (x & _ & Hx). destruct a; simpl in Hop; by apply eq_sym, catalog_not_stream in Hop.
Qed.

Lemma commit_durable_keeps txn h : keeps h (commit_durable fence txn h).2.
Proof.
  unfold commit_durable, flushing_commit, on_offsets, on_kv, catalog_commit_durable, catalog_commit, sbind, sread.
  destruct (eval_ops txn _) as [planned|e] eqn:Ep; [|split; [done|by left]].
  pose proof (λ rest, apply_kv_ops_other (kv_of_applied <$> planned) (contents (catalog_of h)) _ (planned_not_stream _ _ _ rest Ep)) as Ho.
  destruct (kv_commit _ fence _) as [[[]|e] s1] eqn:Ek.
  - apply kv_commit_Ok in Ek. pose proof (kv_flush_contents s1) as Hf. destruct (kv_flush_durable s1) as [r s2]. simpl in *.
    split; [|by left]. unfold catalog_of. simpl. rewrite Hf, Ek. intros rest. by rewrite Ho.
  - split; [|by left]. unfold catalog_of. simpl. apply kv_commit_Err in Ek as [->| ->]; [done|]. intros rest. by rewrite Ho.
Qed.

Lemma delete_payload_keeps location h : keeps h (delete_payload faults location h).2.
Proof.
  destruct location as [path|bucket key]; simpl; [|by apply keeps_same]. split; [done|]. intros p.
  unfold files, file_remove, fs_op. simpl. destruct (faults _); [by left|]. destruct (d_files _ !! path); [|by left]. simpl.
  destruct (decide (p = path)) as [->|Hne]; [right; apply lookup_delete_eq|left; by apply lookup_delete_ne].
Qed.

Definition keeping {A} (m : st hst failure A) : Prop := ∀ h, keeps h (m h).2.

Lemma keeping_bind {A A'} (m : st hst failure A) (f : A → st hst failure A') :
  keeping m → (∀ a, keeping (f a)) → keeping (sbind m f).
Proof. intros Hm Hf h. apply sbind_rel; [apply _|apply Hm|]. intros a. apply Hf. Qed.

Lemma keeping_ret {A} (a : A) : keeping (sret a).
Proof. intros h. reflexivity. Qed.
Lemma keeping_err {A} e : keeping (A := A) (serr e).
Proof. intros h. reflexivity. Qed.
Lemma keeping_lift {A} (r : result failure A) : keeping (slift r).
Proof. intros h. unfold slift. destruct r; reflexivity. Qed.
Lemma keeping_read {A} (f : hst → result failure A) : keeping (sread f).
Proof. intros h. reflexivity. Qed.
Lemma keeping_get_row k : keeping (get_row k).
Proof. apply keeping_read. Qed.
Lemma keeping_modify f : (∀ h, h_store (f h) = h_store h ∧ h_disk (f h) = h_disk h) → keeping (modify f).
Proof. intros Hf h. destruct (Hf h). by apply keeps_same. Qed.

Context (others : nat → hst → hst) (min_seq : N) (fuel : nat).
Hypothesis others_keep : ∀ n h, keeps h (others n h).

Lemma keeping_txn_io r : keeping (txn_io (S := S) (W := W) (B := B) r).
Proof. apply keeping_lift. Qed.

Lemma keeping_segment_row id : keeping (segment_row id).
Proof.
  apply keeping_bind; [apply keeping_get_row|]. intros [[]|]; first [apply keeping_ret|apply keeping_err].
Qed.

Lemma keeping_plan id ordinals : keeping (plan_reclaim min_seq id ordinals).
Proof.
  apply keeping_bind; [apply keeping_segment_row|]. intros [row|]; [|apply keeping_ret].
  do 3 (apply keeping_bind; [apply keeping_lift|intros ?]). apply keeping_bind; [|intros ?; apply keeping_ret].
  case_match; [|apply keeping_txn_io]. apply keeping_bind; [apply keeping_txn_io|intros ?].
  apply keeping_bind; [apply keeping_bind; [apply keeping_get_row|intros ?; apply keeping_ret]|]. intros []; [apply keeping_txn_io|apply keeping_ret].
Qed.

Lemma keeping_committed raw ordinals row can : keeping (reclaim_committed faults raw ordinals row can).
Proof.
  apply keeping_bind; [|intros []; apply keeping_bind; [|intros []; apply keeping_ret]].
  - unfold mark_acked_ordinals_in_memory. intros h. repeat case_match; by apply keeps_same.
  - destruct can; [|apply keeping_ret]. apply keeping_bind; [intros h; apply delete_payload_keeps|intros []].
    apply keeping_bind; [|intros []]; apply keeping_modify; done.
Qed.

Lemma keeping_attempts n raw id ordinals : keeping (reclaim_attempts faults fence min_seq others n raw id ordinals).
Proof.
  induction n as [|n IH]; [apply keeping_err|]. cbn [reclaim_attempts]. apply keeping_bind; [apply keeping_plan|].
  intros [[[row can] txn]|]; [|apply keeping_ret]. intros h. pose proof (commit_durable_keeps txn (others n h)) as Hc.
  destruct (commit_durable fence txn (others n h)) as [[[]|[[]| |]] h']; simpl in *;
    (trans (others n h); [apply others_keep|]); try done; (trans h'; [done|]); [apply keeping_committed|apply IH].
Qed.

Lemma keeping_reclaim seq : keeping (reclaim_fully_done_before faults fence min_seq fuel others seq).
Proof.
  apply keeping_bind; [apply keeping_bind; [apply keeping_read|intros ?; apply keeping_ret]|]. intros rows.
  generalize 0%N. induction rows as [|row rows IH]; intros n; [apply keeping_ret|]. cbn [reclaim_rows].
  apply keeping_bind; [apply keeping_lift|]. intros finished. case_match; [apply IH|].
  apply keeping_bind; [|intros ?; apply IH]. apply keeping_bind; [apply keeping_lift|intros ?; apply keeping_attempts].
Qed.
End Keeps.

(** ** A slice is planned from what is read

    [plan_events] reads the store only through the stream-state family: stores that agree on
    what was read plan the same writes. *)

Section Transfer.
Context {F : Type} {FL : Float64 F} {PJ : ProcessorJson F}.
Context {RB Col : Type} {RA : RowArrow RB Col F}.
Context {CP : Codec ProcessorMeta}.
Context {S1 S2 : Type} {HK1 : SkipprStore S1} {HK2 : SkipprStore S2}.
Context (pipeline : bytes) (s1 : S1) (s2 : S2).
Hypothesis reads_agree : ∀ rest v, get_raw s1 rest = Ok v → get_raw s2 rest = Ok v.

(** Follow a chain of [?] that returned, read by read. *)
Ltac transfer :=
  repeat match goal with
  | H : rbind (get_raw s1 _) _ = Ok _ |- _ => let E := fresh "E" in apply rbind_Ok in H as (? & E & H)
  | H : get_raw s1 _ = Ok _ |- _ => apply reads_agree in H; rewrite H
  | |- context [rbind (Ok _) _] => cbn [rbind]
  | H : context [match ?x with _ => _ end] |- _ => first [is_var x; destruct x]
  end.

Lemma load_measures_transfer id key v : load_measures pipeline s1 id key = Ok v → load_measures pipeline s2 id key = Ok v.
Proof. unfold load_measures. intros H. transfer; exact H. Qed.

Lemma load_last_row_transfer id key v : load_last_row pipeline s1 id key = Ok v → load_last_row pipeline s2 id key = Ok v.
Proof. unfold load_last_row. intros H. transfer; exact H. Qed.

Lemma entity_row_transfer agg e pending ents v :
  entity_row pipeline s1 agg e pending ents = Ok v → entity_row pipeline s2 agg e pending ents = Ok v.
Proof.
  unfold entity_row. case_match; [done|]. intros H'. transfer; [|exact H']. revert H'. case_match; [done|]. by apply load_last_row_transfer.
Qed.

Lemma load_previous_transfer agg k r pending ents v :
  load_previous_row pipeline s1 agg k r pending ents = Ok v → load_previous_row pipeline s2 agg k r pending ents = Ok v.
Proof.
  unfold load_previous_row. intros (found & Hf & H)%rbind_Ok.
  assert (match entity_identity agg r with Some e => entity_row pipeline s2 agg e pending ents | None => Ok None end = Ok found) as ->
    by (destruct (entity_identity agg r); [by apply entity_row_transfer|done]).
  cbn [rbind]. case_match; [done|]. case_match; [done|]. by apply load_last_row_transfer.
Qed.

Lemma check_dedup_transfer agg meta dedup v :
  check_dedup pipeline s1 agg meta dedup = Ok v → check_dedup pipeline s2 agg meta dedup = Ok v.
Proof. unfold check_dedup. case_match; [|done]. case_match; [done|]. intros H'. transfer; exact H'. Qed.

Lemma apply_row_transfer agg batch cdc p row v :
  apply_row pipeline s1 agg batch cdc p row = Ok v → apply_row pipeline s2 agg batch cdc p row = Ok v.
Proof.
  unfold apply_row. intros (seen & Hs & H)%rbind_Ok. rewrite (check_dedup_transfer _ _ _ _ Hs). cbn [rbind].
  case_match; [done|]. apply rbind_Ok in H as (new_row & -> & H). cbn [rbind] in *.
  apply rbind_Ok in H as (old & Hold & H).
  assert (match from_option mutation Insert (cdc ≫= λ rows, rows !! row) with
          | Insert | Snapshot => Ok None
          | Update | Delete => load_previous_row pipeline s2 agg (encode_key (ta_key_fields agg) new_row) new_row (pd_rows p) (pd_entities p)
          end = Ok old) as ->
    by (destruct (from_option mutation Insert _); [done|done|by apply load_previous_transfer|by apply load_previous_transfer]).
  exact H.
Qed.

Lemma rfold_transfer {A E X} (f g : A → X → result E A) l : ∀ a v,
  (∀ a x b, f a x = Ok b → g a x = Ok b) → rfold f a l = Ok v → rfold g a l = Ok v.
Proof.
  induction l as [|x l IH]; intros a v Hfg; [done|]. cbn [rfold]. intros (b & Hb & H)%rbind_Ok.
  rewrite (Hfg _ _ _ Hb). cbn [rbind]. by apply IH.
Qed.

Lemma rtraverse_transfer {A E X} (f g : X → result E A) l v :
  (∀ x b, f x = Ok b → g x = Ok b) → rtraverse f l = Ok v → rtraverse g l = Ok v.
Proof. intros Hfg. rewrite !rtraverse_Ok. intros Hf. eapply Forall2_impl; [exact Hf|]. auto. Qed.

Lemma plan_events_transfer hash agg cursor batch cdc start v :
  plan_events pipeline s1 hash agg cursor batch cdc start = Ok v → plan_events pipeline s2 hash agg cursor batch cdc start = Ok v.
Proof.
  unfold plan_events. intros (p & Hp & H)%rbind_Ok.
  rewrite (rfold_transfer _ _ _ _ _ (apply_row_transfer agg batch cdc) Hp). cbn [rbind].
  apply rbind_Ok in H as (puts & Hputs & H). unfold slice_puts in *. apply rbind_Ok in Hputs as (meta & -> & Hputs). cbn [rbind].
  apply rbind_Ok in Hputs as (ms & Hms & Hputs).
  assert (rtraverse (measure_put pipeline s2 (ta_id agg)) (sorted_entries (pd_measures p)) = Ok ms) as ->.
  { eapply rtraverse_transfer; [|exact Hms]. intros x b. unfold measure_put. intros (cur & Hc & Hb)%rbind_Ok.
    by rewrite (load_measures_transfer _ _ _ Hc). }
  cbn [rbind]. by rewrite Hputs.
Qed.
End Transfer.

(** ** Replaying a log *)

(** A slice as the processor reads it. *)
Record Slice {RB : Type} : Type := {
  sl_ordinal : N;
  sl_batch : RB;
  sl_cdc : option (list WalRowMeta)
}.
Arguments Slice : clear implicits.

(** A segment of the log: its row, its payload and what is read of it. *)
Record LogSegment {RB : Type} : Type := {
  lg_row : SegmentRow;
  lg_bytes : bytes;
  lg_slices : list (Slice RB)
}.
Arguments LogSegment : clear implicits.

Section Replay.
Context {F : Type} {FL : Float64 F} {PJ : ProcessorJson F}.
Context {RB Col : Type} {RA : RowArrow RB Col F}.
Context {CP : Codec ProcessorMeta}.
Context (pipeline config_hash : bytes) (agg : TransformAggregate).
Implicit Types m : gmap bytes bytes.

(** A store that holds [m]. *)
Definition holding m : MemoryInner := {| mem_rows := m; mem_fence := None; mem_released := false |}.

Definition cursor_of m : result bytes WalCursor :=
  let? meta := load_meta pipeline (holding m) (ta_id agg) in Ok (pm_cursor (default (fresh_meta config_hash) meta)).

Definition seg_id (row : SegmentRow) : bytes := segment_id_str (sr_segment_id row).
Definition seg_seq (row : SegmentRow) : N := seq_get (sr_seq row).

Definition start_row (c : WalCursor) (id : bytes) (sl : Slice RB) : nat :=
  if bool_decide (wc_segment_id c = id) && (wc_slice_ordinal c =? sl_ordinal sl)%N then N.to_nat (wc_row_index c) else 0.

(** The cursor is past the slice. *)
Definition past (c : WalCursor) (id : bytes) (sl : Slice RB) : bool :=
  (sl_ordinal sl <? wc_slice_ordinal c)%N
  || (already_applied_slice c id (sl_ordinal sl) (batch_len (sl_batch sl)) || (batch_len (sl_batch sl) <=? start_row c id sl)).

Definition slice_run (row : SegmentRow) (mc : gmap bytes bytes * WalCursor) (sl : Slice RB)
    : result bytes (gmap bytes bytes * WalCursor) :=
  let '(m, c) := mc in
  if past c (seg_id row) sl then Ok (m, c)
  else
    let? planned := plan_events pipeline (holding m) config_hash agg
                      (at_slice (seg_seq row) (seg_id row) (sl_ordinal sl) c) (sl_batch sl) (sl_cdc sl)
                      (start_row c (seg_id row) sl) in
    Ok (apply_kv_ops planned.1 m, planned.2).

Definition seg_run m (seg : LogSegment RB) : result bytes (gmap bytes bytes) :=
  let? c := cursor_of m in
  if (seg_seq (lg_row seg) <? wc_seq c)%N then Ok m
  else let? mc := rfold (slice_run (lg_row seg)) (m, segment_cursor c (lg_row seg)) (lg_slices seg) in Ok mc.1.

Definition replay (log : list (LogSegment RB)) m : result bytes (gmap bytes bytes) := rfold seg_run m log.

(** *** The cursor of a planned slice *)

Lemma rfold_last_row {S} {HK : SkipprStore S} (s : S) batch cdc n : ∀ k p p',
  rfold (apply_row pipeline s agg batch cdc) p (seq k n) = Ok p' →
  pd_cursor p' = if n =? 0 then pd_cursor p else with_row (N.of_nat (k + n)) (pd_cursor p).
Proof.
  induction n as [|n IH]; intros k p p'; [by intros [= ->]|]. cbn [seq rfold]. intros (p1 & H1 & H2)%rbind_Ok.
  apply IH in H2. assert (pd_cursor p1 = with_row (N.of_nat k + 1) (pd_cursor p)) as Hc.
  { unfold apply_row in H1. apply rbind_Ok in H1 as (seen & _ & H1). destruct (seen.1); [by injection H1 as <-|].
    apply rbind_Ok in H1 as (? & _ & H1). apply rbind_Ok in H1 as (? & _ & H1). apply rbind_Ok in H1 as (? & _ & H1). by injection H1 as <-. }
  rewrite H2. clear IH H2. destruct n as [|n]; simpl; rewrite Hc; unfold with_row; simpl; f_equal; lia.
Qed.

Lemma slash_meta_other kind rest : In kind [str "agg"; str "row"; str "ent"; str "dedup"] →
  slash (kind :: pipeline :: rest) ≠ meta_key pipeline (ta_id agg).
Proof.
  intros Hk E. apply (f_equal head) in E. destruct rest as [|r rest]; simpl in Hk;
    destruct_or! Hk; subst kind; try done; by vm_compute in E.
Qed.

Lemma puts_lookup (puts : list (bytes * bytes)) m k v :
  (k, v) ∈ puts → (∀ v', (k, v') ∈ puts → v' = v) →
  apply_kv_ops ((λ kv, KvPut (family_key StreamState kv.1) kv.2) <$> puts) m !! family_key StreamState k = Some v.
Proof.
  revert m. induction puts as [|[k' v'] puts IH] using rev_ind; intros m Hin Hu; [by apply elem_of_nil in Hin|].
  rewrite fmap_app. unfold apply_kv_ops. rewrite foldl_app. simpl.
  destruct (decide (k = k')) as [->|Hne].
  - rewrite lookup_insert_eq. f_equal. apply Hu. apply elem_of_app. right. by left.
  - rewrite lookup_insert_ne by (intros E%family_key_stream_inj; by apply Hne). apply IH.
    + apply elem_of_app in Hin as [Hin|Hin]; [done|]. apply list_elem_of_singleton in Hin. congruence.
    + intros v'' Hv. apply Hu. apply elem_of_app. by left.
Qed.

Lemma puts_other (puts : list (bytes * bytes)) m k :
  k ∉ puts.*1 →
  apply_kv_ops ((λ kv, KvPut (family_key StreamState kv.1) kv.2) <$> puts) m !! family_key StreamState k = m !! family_key StreamState k.
Proof.
  intros Hk. apply apply_kv_ops_other. rewrite <- list_fmap_compose. intros Hin.
  apply list_elem_of_fmap in Hin as (kv & E & Hin). simpl in E. apply family_key_stream_inj in E as ->.
  apply Hk, list_elem_of_fmap. by exists kv.
Qed.

Lemma get_raw_holding m rest : get_raw (holding m) rest = Ok (m !! family_key StreamState rest).
Proof. done. Qed.

(** The puts of a slice, kind by kind. *)
Lemma slice_puts_kinds {S} {HK : SkipprStore S} (s : S) p puts k v :
  slice_puts pipeline s config_hash agg p = Ok puts → (k, v) ∈ puts →
  (k = meta_key pipeline (ta_id agg) ∧ serialize {| pm_cursor := pd_cursor p; pm_config_hash := config_hash |} = Ok v) ∨
  (∃ key d, pd_measures p !! key = Some d ∧ measure_put pipeline s (ta_id agg) (key, d) = Ok (k, v)) ∨
  (∃ key r, pd_rows p !! key = Some r ∧ k = row_key pipeline (ta_id agg) key ∧ row_to_vec r = Ok v) ∨
  (∃ key r e, pd_rows p !! key = Some r ∧ entity_identity agg r = Some e ∧ k = entity_key_bytes pipeline (ta_id agg) e ∧ v = key) ∨
  (k ∈ pd_dedup p ∧ v = str "1").
Proof.
  unfold slice_puts. intros (meta & Hm & H)%rbind_Ok Hin. apply rbind_Ok in H as (ms & Hms & H). apply rbind_Ok in H as (rows & Hrows & H).
  injection H as <-. apply elem_of_cons in Hin as [[= -> ->]|Hin]; [by left|right].
  apply elem_of_app in Hin as [Hin|Hin]; [left|right; apply elem_of_app in Hin as [Hin|Hin]].
  - apply rtraverse_Ok in Hms. apply list_elem_of_lookup in Hin as [i Hi].
    destruct (Forall2_lookup_r _ _ _ _ _ Hms Hi) as ([key d] & Hd & Hp). exists key, d. split; [|done].
    apply list_elem_of_lookup_2 in Hd. unfold sorted_entries in Hd. rewrite merge_sort_Permutation in Hd. by apply elem_of_map_to_list.
  - apply list_elem_of_In, in_concat in Hin as (l & Hl & Hin). apply list_elem_of_In in Hl, Hin.
    apply rtraverse_Ok in Hrows. apply list_elem_of_lookup in Hl as [i Hi].
    destruct (Forall2_lookup_r _ _ _ _ _ Hrows Hi) as ([key r] & Hd & Hp).
    apply list_elem_of_lookup_2 in Hd. unfold sorted_entries in Hd. rewrite merge_sort_Permutation in Hd. apply elem_of_map_to_list in Hd.
    unfold row_puts in Hp. apply rbind_Ok in Hp as (bs & Hbs & [= <-]). simpl in *.
    apply elem_of_cons in Hin as [[= -> ->]|Hin]; [left; by exists key, r|]. right. left.
    destruct (entity_identity agg r) as [e|] eqn:Ee; [|by apply elem_of_nil in Hin].
    apply list_elem_of_singleton in Hin as [= -> ->]. by exists key, r, e.
  - right. right. apply list_elem_of_fmap in Hin as (x & [= -> ->] & Hx). done.
Qed.

Lemma pending_dedup_kind {S} {HK : SkipprStore S} (s : S) batch cdc l : ∀ p p',
  rfold (apply_row pipeline s agg batch cdc) p l = Ok p' →
  Forall (λ k, ∃ e, k = dedup_key pipeline (ta_id agg) e) (pd_dedup p) →
  Forall (λ k, ∃ e, k = dedup_key pipeline (ta_id agg) e) (pd_dedup p').
Proof.
  induction l as [|row l IH]; intros p p'; [by intros [= ->]|]. cbn [rfold]. intros (p1 & H1 & H2)%rbind_Ok Hp.
  apply (IH _ _ H2). unfold apply_row in H1. apply rbind_Ok in H1 as (seen & Hs & H1). destruct (seen.1); [by injection H1 as <-|].
  apply rbind_Ok in H1 as (? & _ & H1). apply rbind_Ok in H1 as (? & _ & H1). apply rbind_Ok in H1 as (? & _ & H1). injection H1 as <-. simpl.
  unfold check_dedup in Hs. repeat case_match; simplify_eq/=; try done. apply rbind_Ok in Hs as (? & _ & Hs).
  repeat case_match; simplify_eq/=; [done|]. apply Forall_app. split; [done|]. constructor; [by eexists|constructor].
Qed.

(** A planned slice writes the cursor it returns. *)
Lemma plan_events_cursor {S} {HK : SkipprStore S} (s : S) c batch cdc start ops c' m :
  start < batch_len batch → plan_events pipeline s config_hash agg c batch cdc start = Ok (ops, c') →
  c' = with_row (N.of_nat (batch_len batch)) c ∧ cursor_of (apply_kv_ops ops m) = Ok c'.
Proof.
  intros Hlt. unfold plan_events. intros (p & Hp & H)%rbind_Ok. apply rbind_Ok in H as (puts & Hputs & [= <- <-]).
  pose proof (rfold_last_row _ _ _ _ _ _ _ Hp) as Hc. destruct (Nat.eqb_spec (batch_len batch - start) 0) as [|_]; [lia|]. simpl in Hc.
  split; [rewrite Hc; f_equal; lia|].
  assert (∃ bs, serialize {| pm_cursor := pd_cursor p; pm_config_hash := config_hash |} = Ok bs ∧ (meta_key pipeline (ta_id agg), bs) ∈ puts)
    as (bs & Hbs & Hin).
  { unfold slice_puts in Hputs. apply rbind_Ok in Hputs as (bs & Hbs & H). exists bs. split; [done|].
    apply rbind_Ok in H as (ms & _ & H). apply rbind_Ok in H as (rows & _ & [= <-]). by left. }
  unfold cursor_of, load_meta. rewrite get_raw_holding. cbn [rbind]. rewrite (puts_lookup _ _ _ _ Hin).
  - by rewrite (deserialize_serialize _ _ Hbs).
  - intros v' Hv'. destruct (slice_puts_kinds _ _ _ _ _ Hputs Hv') as [[_ Hs]|[(key & d & _ & Hm)|[(key & r & _ & Hk & _)|[(key & r & e & _ & _ & Hk & _)|[Hk _]]]]].
    + congruence.
    + unfold measure_put in Hm. apply rbind_Ok in Hm as (? & _ & Hm). apply rbind_Ok in Hm as (? & _ & [= Hk _]).
    + exfalso. symmetry in Hk. revert Hk. apply (slash_meta_other (str "row") [_; _]). simpl; auto.
    + exfalso. symmetry in Hk. revert Hk. apply (slash_meta_other (str "ent") [_; _]). simpl; auto.
    + exfalso. pose proof (pending_dedup_kind _ _ _ _ _ _ Hp (Forall_nil_2 _)) as Hf. rewrite Forall_forall in Hf.
      destruct (Hf _ Hk) as [e He]. symmetry in He. revert He. apply (slash_meta_other (str "dedup") [_; _]). simpl; auto.
Qed.

(** *** Resuming a segment *)

Definition increasing (sls : list (Slice RB)) : Prop := StronglySorted (λ x y, (sl_ordinal x < sl_ordinal y)%N) sls.

Lemma slice_run_skip row m c sl : past c (seg_id row) sl = true → slice_run row (m, c) sl = Ok (m, c).
Proof. intros H. unfold slice_run. by rewrite H. Qed.

Lemma past_not row c sl : past c (seg_id row) sl = false → start_row c (seg_id row) sl < batch_len (sl_batch sl).
Proof. unfold past. intros [_ [_ H]%orb_false_elim]%orb_false_elim. by apply Nat.leb_gt in H. Qed.

(** A slice that is run moves the cursor to its end, where the map has it too. *)
Lemma slice_run_step row m c sl m' c' :
  slice_run row (m, c) sl = Ok (m', c') → past c (seg_id row) sl = false →
  c' = {| wc_seq := seg_seq row; wc_segment_id := seg_id row; wc_slice_ordinal := sl_ordinal sl;
          wc_row_index := N.of_nat (batch_len (sl_batch sl)) |} ∧
  cursor_of m' = Ok c'.
Proof.
  intros H Hp. unfold slice_run in H. rewrite Hp in H. apply rbind_Ok in H as ([ops c1] & Hpl & [= <- <-]).
  apply (plan_events_cursor _ _ _ _ _ _ _ m) in Hpl as [-> Hc]; [done|]. by apply past_not.
Qed.

Lemma past_own row sl : past {| wc_seq := seg_seq row; wc_segment_id := seg_id row; wc_slice_ordinal := sl_ordinal sl;
          wc_row_index := N.of_nat (batch_len (sl_batch sl)) |} (seg_id row) sl = true.
Proof.
  unfold past, already_applied_slice. simpl. rewrite bool_decide_true, N.eqb_refl, N.leb_refl by done. simpl. apply orb_true_r.
Qed.

Lemma past_before c id sl : (sl_ordinal sl < wc_slice_ordinal c)%N → past c id sl = true.
Proof. intros H. unfold past. apply N.ltb_lt in H as ->. done. Qed.

(** Running slices: those that were run or passed are behind the cursor, and either nothing
    was written or the map holds the cursor. *)
Lemma run_covers row sls : ∀ past_slices m c m' c',
  increasing (past_slices ++ sls) → Forall (λ sl, past c (seg_id row) sl = true) past_slices →
  rfold (slice_run row) (m, c) sls = Ok (m', c') →
  Forall (λ sl, past c' (seg_id row) sl = true) (past_slices ++ sls) ∧
  ((m' = m ∧ c' = c) ∨ (cursor_of m' = Ok c' ∧ wc_seq c' = seg_seq row ∧ wc_segment_id c' = seg_id row)).
Proof.
  induction sls as [|sl sls IH]; intros done_ m c m' c' Hi Hd; [intros [= -> ->]; rewrite app_nil_r; auto|].
  cbn [rfold]. intros ([m1 c1] & H1 & H2)%rbind_Ok.
  assert (increasing ((done_ ++ [sl]) ++ sls)) as Hi' by by rewrite <- app_assoc.
  destruct (past c (seg_id row) sl) eqn:Ep.
  - rewrite slice_run_skip in H1 by done. injection H1 as <- <-.
    replace (done_ ++ sl :: sls) with ((done_ ++ [sl]) ++ sls) by by rewrite <- app_assoc.
    apply (IH _ m c); [done| |done]. apply Forall_app. split; [done|by constructor].
  - destruct (slice_run_step _ _ _ _ _ _ H1 Ep) as [-> Hc].
    assert (Forall (λ sl0, past {| wc_seq := seg_seq row; wc_segment_id := seg_id row; wc_slice_ordinal := sl_ordinal sl;
      wc_row_index := N.of_nat (batch_len (sl_batch sl)) |} (seg_id row) sl0 = true) (done_ ++ [sl])) as Hd'.
    { apply Forall_app. split; [|constructor; [apply past_own|constructor]].
      apply Forall_forall. intros x Hx. apply past_before. simpl.
      apply (StronglySorted_app_1_elem_of _ _ _ x sl Hi Hx). by left. }
    destruct (IH (done_ ++ [sl]) _ _ _ _ Hi' Hd' H2) as [Hf Hor].
    split; [by rewrite <- app_assoc in Hf|]. right. destruct Hor as [[-> ->]|Hor]; [by split|done].
Qed.

Lemma run_past row m c sls : Forall (λ sl, past c (seg_id row) sl = true) sls → rfold (slice_run row) (m, c) sls = Ok (m, c).
Proof. induction 1 as [|sl sls H _ IH]; [done|]. cbn [rfold]. rewrite slice_run_skip by done. exact IH. Qed.

Definition seg_ok (seg : LogSegment RB) : Prop := increasing (lg_slices seg).

(** Continuing after a prefix of the slices is running the segment. *)
Lemma seg_run_resume seg m c j mj cj :
  seg_ok seg → cursor_of m = Ok c → (wc_seq c ≤ seg_seq (lg_row seg))%N →
  rfold (slice_run (lg_row seg)) (m, segment_cursor c (lg_row seg)) (take j (lg_slices seg)) = Ok (mj, cj) →
  seg_run mj seg = seg_run m seg ∧
  (mj = m ∨ ∃ c', cursor_of mj = Ok c' ∧ wc_seq c' = seg_seq (lg_row seg)).
Proof.
  intros Hok Hc Hle Hrun. set (row := lg_row seg) in *. set (sls := lg_slices seg) in *.
  assert (increasing (take j sls)) as Hinc by (unfold seg_ok in Hok; fold sls in Hok; rewrite <- (take_drop j sls) in Hok; by apply StronglySorted_app_1_l in Hok).
  destruct (run_covers row (take j sls) [] m _ _ _ Hinc (Forall_nil_2 _) Hrun) as [Hf [[-> _]|(Hcj & Hs & Hid)]]; [by split; [|left]|].
  split; [|right; by exists cj]. unfold seg_run. rewrite Hc, Hcj. cbn [rbind]. fold row sls. rewrite Hs.
  rewrite (proj2 (N.ltb_ge (seg_seq row) (wc_seq c)) Hle), N.ltb_irrefl.
  assert (segment_cursor cj row = cj) as ->.
  { unfold segment_cursor. fold (seg_id row). by rewrite bool_decide_true. }
  rewrite <- (take_drop j sls) at 1 2. rewrite !rfold_app, Hrun, (run_past _ _ _ _ Hf). done.
Qed.

(** A segment that the cursor is past. *)
Definition consumed m (seg : LogSegment RB) : Prop :=
  ∃ c, cursor_of m = Ok c ∧
    ((seg_seq (lg_row seg) < wc_seq c)%N ∨
     Forall (λ sl, past (segment_cursor c (lg_row seg)) (seg_id (lg_row seg)) sl = true) (lg_slices seg)).

Lemma consumed_run m seg : consumed m seg → seg_run m seg = Ok m.
Proof.
  intros (c & Hc & Hor). unfold seg_run. rewrite Hc. cbn [rbind]. destruct (N.ltb_spec (seg_seq (lg_row seg)) (wc_seq c)) as [_|Hge]; [done|].
  destruct Hor as [Hlt|Hf]; [lia|]. by rewrite (run_past _ _ _ _ Hf).
Qed.

Lemma cursor_of_family m m' : same_family m m' → cursor_of m = cursor_of m'.
Proof. intros Hm. unfold cursor_of, load_meta. rewrite !get_raw_holding. by rewrite Hm. Qed.

#[global] Instance consumed_family seg : Proper (same_family ==> iff) (λ m, consumed m seg).
Proof. intros m m' Hm. unfold consumed. by rewrite (cursor_of_family m m' Hm). Qed.

Lemma seg_run_consumes seg m m' : seg_ok seg → seg_run m seg = Ok m' → consumed m' seg.
Proof.
  intros Hok Hr. unfold seg_run in Hr. apply rbind_Ok in Hr as (c & Hc & Hr).
  destruct (N.ltb_spec (seg_seq (lg_row seg)) (wc_seq c)) as [Hlt|Hge]; [simplify_eq; exists c; auto|].
  apply rbind_Ok in Hr as ([m1 c1] & Hf & [= <-]).
  destruct (run_covers (lg_row seg) (lg_slices seg) [] _ _ _ _ Hok (Forall_nil_2 _) Hf) as [Hp [[-> ->]|(Hc1 & Hs & Hid)]];
    [by exists c; auto|]. exists c1. split; [done|]. right.
  assert (segment_cursor c1 (lg_row seg) = c1) as -> by (unfold segment_cursor; fold (seg_id (lg_row seg)); by rewrite bool_decide_true). done.
Qed.

Lemma consumed_earlier (seg seg' : LogSegment RB) m m' :
  consumed m seg → (m' = m ∨ ∃ c', cursor_of m' = Ok c' ∧ wc_seq c' = seg_seq (lg_row seg')) →
  (seg_seq (lg_row seg) < seg_seq (lg_row seg'))%N → consumed m' seg.
Proof. intros Hm [->|(c' & Hc & Hs)] Hlt; [done|]. exists c'. split; [done|]. left. by rewrite Hs. Qed.

Lemma replay_consumed log log' m : Forall (consumed m) log → replay (log ++ log') m = replay log' m.
Proof.
  intros Hf. unfold replay. rewrite rfold_app. induction Hf as [|seg log Hs%consumed_run _ IH]; [done|]. cbn [rfold]. by rewrite Hs.
Qed.
End Replay.

(** ** The processor follows the replay *)

Section Follow.
Context {F : Type} {FL : Float64 F} {PJ : ProcessorJson F}.
Context {RB Col : Type} {RA : RowArrow RB Col F}.
Context {CP : Codec ProcessorMeta}.
Context {RC : Codec CatalogRow} {DG : Digest} {S W Db Tree : Type} `{HL : StoreLaws S} {SW : SledWorld W Db Tree}.
Context {CK : Codec PartitionKey} {CM : Codec WalPartMeta} {CO : Codec (gmap OffsetKey N)}.
Context {B : Type} {OB : ObjectStore B}.
Context (fs_display : FsErr → bytes) (faults : N → option FsErr).
Context (fence : CatalogFence) (pipeline config_hash : bytes) (fuel : nat) (agg : TransformAggregate).
Context (others : nat → Handle S W B → Handle S W B).
Notation proc := (Proc (S := S) (W := W) (B := B)).
Implicit Types (p : proc) (m : gmap bytes bytes).

Definition pstore p : gmap bytes bytes := contents (catalog_of (pr_handle p)).
Definition pfiles p : gmap bytes bytes := files (pr_handle p).

Lemma plan_from_store (s : S) m c batch cdc start v :
  same_family (contents s) m → plan_events pipeline s config_hash agg c batch cdc start = Ok v →
  plan_events pipeline (holding m) config_hash agg c batch cdc start = Ok v.
Proof.
  intros Hm. apply plan_events_transfer. intros rest w. unfold get_raw. intros Hg%map_err_Ok%kv_get_spec. subst w.
  simpl. by rewrite Hm.
Qed.

(** A planned slice is committed whole or not at all. *)
Lemma commit_ops_run ops p :
  let '(r, p') := on_state (commit_ops fence ops) p in
  pfiles p' = pfiles p ∧ (pstore p' = apply_kv_ops ops (pstore p) ∨ (is_ok r = false ∧ pstore p' = pstore p)).
Proof.
  unfold on_state, commit_ops, pstore, pfiles, catalog_of. destruct ops as [|op ops]; [by split; [|left]|].
  unfold sbind, on_stream. simpl. destruct (kv_commit (op :: ops) fence _) as [[[]|e] s1] eqn:Ek; simpl.
  - pose proof (kv_flush_contents s1) as Hf. apply kv_commit_Ok in Ek. destruct (kv_flush_durable s1) as [r s2]. simpl in *.
    split; [done|]. left. by rewrite Hf, Ek.
  - split; [done|]. apply kv_commit_Err in Ek as [->| ->]; auto.
Qed.

Lemma apply_events_run c batch cdc start p m :
  same_family (pstore p) m → start < batch_len batch →
  let '(r, p') := on_state (apply_events fence pipeline config_hash agg c batch cdc start) p in
  pfiles p' = pfiles p ∧
  ((∃ ops c', plan_events pipeline (holding m) config_hash agg c batch cdc start = Ok (ops, c') ∧
      same_family (pstore p') (apply_kv_ops ops m) ∧ ∀ x, r = Ok x → x = c') ∨
   (is_ok r = false ∧ same_family (pstore p') m)).
Proof.
  intros Hm Hlt. unfold on_state at 1, apply_events. rewrite (proj2 (Nat.leb_gt _ _)) by done. unfold sbind at 1, sread. simpl.
  destruct (plan_events pipeline (catalog_of (pr_handle p)) config_hash agg c batch cdc start) as [[ops c']|e] eqn:Ep; [|by split; [|right]].
  pose proof (plan_from_store _ _ _ _ _ _ _ Hm Ep) as Hpl. pose proof (commit_ops_run ops p) as Hc.
  unfold on_state in Hc. unfold sbind, smap_err. simpl in *.
  destruct (commit_ops fence ops _) as [[[]|e] s1]; simpl in *; destruct Hc as [Hf Hc].
  - split; [exact Hf|]. left. exists ops, c'. split; [done|]. destruct Hc as [Hc|[Hc _]]; [|done]. split; [|by intros x [= ->]].
    change (same_family (pstore {| pr_handle := set_store (put_store (st_store s1) (h_store (pr_handle p))) (pr_handle p); pr_hold := st_hold s1 |}) (apply_kv_ops ops m)).
    rewrite Hc. by rewrite Hm.
  - split; [exact Hf|]. destruct Hc as [Hc|[_ Hc]].
    + left. exists ops, c'. split; [done|]. split; [|done]. rewrite Hc. by rewrite Hm.
    + right. split; [done|]. by rewrite Hc.
Qed.

(** What the processor reads of the slices of a payload: copy parts and empty streams are
    passed over. *)
Inductive reads (bs : bytes) : list SegmentPartitionIndexEntry → list (Slice RB) → Prop :=
| reads_nil : reads bs [] []
| reads_other e es sls :
    ie_codec e ≠ PART_CODEC_ARROW ∨ slice_batch (RB := RB) (F := F) bs e = Ok None →
    reads bs es sls → reads bs (e :: es) sls
| reads_slice e es sls batch cdc :
    ie_codec e = PART_CODEC_ARROW → slice_batch bs e = Ok (Some batch) → slice_cdc bs e = Ok cdc →
    reads bs es sls → reads bs (e :: es) ({| sl_ordinal := ie_slice_ordinal e; sl_batch := batch; sl_cdc := cdc |} :: sls).

Notation slices_run row := (rfold (slice_run pipeline config_hash agg row)).

(** The loop has run a prefix of the slices, all of them when it returns. *)
Definition prefix_run (row : SegmentRow) m c (sls : list (Slice RB)) (p' : proc) (ok : bool) : Prop :=
  ∃ j mj cj, slices_run row (m, c) (take j sls) = Ok (mj, cj) ∧ same_family (pstore p') mj ∧
    (ok = true → take j sls = sls).

Lemma prefix_run_none row m c sls p' : same_family (pstore p') m → prefix_run row m c sls p' false.
Proof. intros Hm. exists 0, m, c. by split_and!. Qed.

Lemma prefix_run_cons row m c sl sls m1 c1 p' ok :
  slice_run pipeline config_hash agg row (m, c) sl = Ok (m1, c1) → prefix_run row m1 c1 sls p' ok →
  prefix_run row m c (sl :: sls) p' ok.
Proof.
  intros H1 (j & mj & cj & Hr & Hm & Ha). exists (Datatypes.S j), mj, cj. cbn [take rfold]. rewrite H1. cbn [rbind].
  split_and!; [done|done|]. intros Hok. by rewrite Ha.
Qed.

Lemma process_slices_run row bs lo es sls : reads bs es sls → ∀ c n fin p m,
  same_family (pstore p) m →
  let '(r, p') := process_slices fence pipeline config_hash agg row bs lo es c n fin p in
  pfiles p' = pfiles p ∧ prefix_run row m c sls p' (is_ok r).
Proof.
  induction 1 as [|e es sls Ho _ IH|e es sls batch cdc Hcodec Hb Hcdc _ IH]; intros c n fin p m Hm; cbn [process_slices].
  - split; [done|]. exists 0, m, c. by split_and!.
  - destruct (_ || negb _) eqn:Esk; [by apply IH|]. apply orb_false_elim in Esk as [_ Hc%negb_false_iff%N.eqb_eq].
    destruct Ho as [Ho|Ho]; [by destruct Ho|]. unfold sbind, slift at 1. rewrite Ho. by apply IH.
  - set (sl := {| sl_ordinal := ie_slice_ordinal e; sl_batch := batch; sl_cdc := cdc |}).
    rewrite Hcodec, N.eqb_refl, orb_false_r.
    assert (past c (seg_id row) sl = true → ∀ p', let '(r, p'') := process_slices fence pipeline config_hash agg row bs lo es c n fin p' in
      same_family (pstore p') m → pfiles p'' = pfiles p' ∧ prefix_run row m c (sl :: sls) p'' (is_ok r)) as Hpast.
    { intros Hp p'. specialize (IH c n fin p' m). destruct (process_slices _ _ _ _ _ _ _ _ _ _ _ p') as [r p''].
      intros Hm'. destruct (IH Hm') as [Hf Hr]. split; [done|]. eapply prefix_run_cons; [by apply slice_run_skip|done]. }
    destruct (ie_slice_ordinal e <? wc_slice_ordinal c)%N eqn:Elt.
    { specialize (Hpast ltac:(by unfold past; simpl; rewrite Elt) p). destruct (process_slices _ _ _ _ _ _ _ _ _ _ _ p). by apply Hpast. }
    unfold sbind, slift. rewrite Hb, Hcdc. fold (seg_id row).
    destruct (already_applied_slice _ _ _ _ || _) eqn:Eap.
    { specialize (Hpast ltac:(by unfold past; simpl; rewrite Elt; exact Eap) p). destruct (process_slices _ _ _ _ _ _ _ _ _ _ _ p). by apply Hpast. }
    assert (past c (seg_id row) sl = false) as Hnp by (unfold past; simpl; rewrite Elt; exact Eap).
    pose proof (past_not row c sl Hnp) as Hlt. simpl in Hlt.
    pose proof (apply_events_run (at_slice (seg_seq row) (seg_id row) (ie_slice_ordinal e) c) batch cdc (start_row c (seg_id row) sl) p m Hm Hlt) as Hrun.
    unfold start_row in Hrun at 1. simpl in Hrun. fold (seg_seq row).
    destruct (on_state _ p) as [[c1|err] p1]; destruct Hrun as [Hf Hrun].
    + destruct Hrun as [(ops & c' & Hpl & Hm1 & Hx)|[Hok _]]; [|done]. rewrite (Hx c1 eq_refl). specialize (IH c' (n + 1)%N).
      match goal with |- context [process_slices _ _ _ _ _ _ _ _ _ _ ?f p1] => specialize (IH f p1 _ Hm1);
        destruct (process_slices fence pipeline config_hash agg row bs lo es c' (n + 1)%N f p1) as [r p2] end.
      destruct IH as [Hf2 Hr]. split; [congruence|]. eapply prefix_run_cons; [|exact Hr].
      unfold slice_run. rewrite Hnp. simpl. rewrite Hpl. done.
    + split; [done|]. destruct Hrun as [(ops & c' & Hpl & Hm1 & _)|[_ Hm1]]; [|by apply prefix_run_none].
      eapply prefix_run_cons; [unfold slice_run; rewrite Hnp; simpl; by rewrite Hpl|by apply prefix_run_none].
Qed.

(** A segment of the log on the disk, with what is read of its payload. *)
Definition readable (seg : LogSegment RB) : Prop :=
  (∃ path, sr_location (lg_row seg) = CatalogRow.Disk path) ∧
  ∃ meta, read_metadata_from_bytes (lg_bytes seg) = Ok (Some meta) ∧ reads (lg_bytes seg) (sm_index meta) (lg_slices seg).

Lemma reads_from bs es sls sl : reads bs es sls → sl ∈ sls → ∃ e, e ∈ es ∧ ie_slice_ordinal e = sl_ordinal sl.
Proof.
  induction 1 as [|e es sls _ _ IH|e es sls batch cdc _ _ _ _ IH]; intros Hsl.
  - by apply elem_of_nil in Hsl.
  - destruct (IH Hsl) as (e' & He & ?). exists e'. split; [by right|done].
  - apply elem_of_cons in Hsl as [->|Hsl]; [exists e; split; [by left|done]|].
    destruct (IH Hsl) as (e' & He & ?). exists e'. split; [by right|done].
Qed.

Lemma reads_increasing bs es sls : reads bs es sls →
  StronglySorted (λ x y, (ie_slice_ordinal x < ie_slice_ordinal y)%N) es → increasing sls.
Proof.
  induction 1 as [|e es sls _ _ IH|e es sls batch cdc _ _ _ Hr IH]; intros Hs; [constructor| |];
    apply StronglySorted_inv in Hs as [Hs Hf]; [by apply IH|].
  constructor; [by apply IH|]. apply Forall_forall. intros sl Hsl. destruct (reads_from _ _ _ _ Hr Hsl) as (e' & He & <-).
  rewrite Forall_forall in Hf. by apply Hf.
Qed.

Lemma sorted_by_index {A} (f : A → N) l : (∀ i x, l !! i = Some x → f x = N.of_nat i) → StronglySorted (λ x y, (f x < f y)%N) l.
Proof.
  induction l as [|x l IH] using rev_ind; intros Hl; [constructor|]. apply StronglySorted_app_2; [|apply IH|repeat constructor].
  - intros y z Hy Hz%list_elem_of_singleton. subst z. apply list_elem_of_lookup in Hy as [i Hi]. pose proof (lookup_lt_Some _ _ _ Hi).
    rewrite (Hl i y), (Hl (length l) x); [lia|by apply list_lookup_middle|by apply lookup_app_l_Some].
  - intros i y Hi. apply Hl. by apply lookup_app_l_Some.
Qed.

Lemma readable_ok seg : readable seg → seg_ok seg.
Proof.
  intros (_ & meta & Hm%read_metadata_inv & Hr). eapply reads_increasing; [exact Hr|]. apply sorted_by_index. intros i e Hi.
  destruct (segf_entry _ _ _ _ Hm Hi) as (v & q & pre & rest & _ & _ & -> & _). done.
Qed.

(** The payload of a segment is the one it was written with, or gone. *)
Definition payload_fixed (seg : LogSegment RB) p : Prop :=
  ∀ path, sr_location (lg_row seg) = CatalogRow.Disk path → pfiles p !! path = None ∨ pfiles p !! path = Some (lg_bytes seg).

Definition removes p p' : Prop := ∀ path, pfiles p' !! path = pfiles p !! path ∨ pfiles p' !! path = None.

Lemma payload_fixed_removes seg p p' : payload_fixed seg p → removes p p' → payload_fixed seg p'.
Proof. intros Hp Hr path Hl. destruct (Hr path) as [-> | ->]; [by apply Hp|by left]. Qed.

Lemma payload_bytes_run seg p :
  payload_fixed seg p → (∃ path, sr_location (lg_row seg) = CatalogRow.Disk path) →
  let '(r, p') := on_log (payload_bytes fs_display faults (sr_location (lg_row seg)) (sr_payload_sha256 (lg_row seg))) p in
  pfiles p' = pfiles p ∧ pstore p' = pstore p ∧ ∀ bs, r = Ok bs → bs = lg_bytes seg.
Proof.
  intros Hp [path Hl]. specialize (Hp path Hl). unfold on_log, payload_bytes. rewrite Hl. unfold sbind, on_files, file_read, fs_op, pfiles, files, pstore in *.
  destruct (faults _) as [e|]; [by split_and!|]. simpl in *.
  destruct Hp as [-> | ->]; simpl; [by split_and!|]. unfold slift.
  destruct (verify_body_checksum (lg_bytes seg)) as [sha|e]; simpl; [|by split_and!]. case_bool_decide; simpl; split_and!; try done.
  by intros bs [= ->].
Qed.

Hypothesis others_keep : ∀ n h, keeps h (others n h).

(** What a call leaves: payloads at most removed, and a state from which the segment ends as
    it would have, which is behind when the call returned. *)
Definition segment_result seg m p p' (ok : bool) : Prop :=
  removes p p' ∧
  ∃ m', same_family (pstore p') m' ∧ seg_run pipeline config_hash agg m' seg = seg_run pipeline config_hash agg m seg ∧
    (m' = m ∨ ∃ c', cursor_of pipeline config_hash agg m' = Ok c' ∧ wc_seq c' = seg_seq (lg_row seg)) ∧
    (ok = true → consumed pipeline config_hash agg m' seg).

Lemma segment_result_stay seg m p p' : removes p p' → same_family (pstore p') m → segment_result seg m p p' false.
Proof. intros Hr Hm. split; [done|]. exists m. split_and!; [done|done|by left|done]. Qed.

Lemma reclaim_passed_run p :
  let '(_, p') := reclaim_passed faults fence fuel others p in removes p p' ∧ same_family (pstore p) (pstore p').
Proof.
  unfold reclaim_passed. destruct (keeping_reclaim faults fence others (pr_hold p) fuel others_keep (pr_hold p) (pr_handle p)) as [H1 H2].
  split; [exact H2|exact H1].
Qed.

Lemma process_segment_run seg c p m :
  readable seg → payload_fixed seg p → same_family (pstore p) m → cursor_of pipeline config_hash agg m = Ok c →
  let '(r, p') := process_segment fs_display faults fence pipeline config_hash fuel others agg c (lg_row seg) p in
  segment_result seg m p p' (is_ok r).
Proof.
  intros Hrd Hpf Hm Hc. pose proof (readable_ok _ Hrd) as Hok. destruct Hrd as (Hloc & meta & Hmeta & Hreads).
  assert (removes p p) as Hrefl by by left.
  unfold process_segment. cbv zeta. fold (seg_seq (lg_row seg)).
  destruct (N.ltb_spec (seg_seq (lg_row seg)) (wc_seq c)) as [Hlt|Hge].
  { assert (consumed pipeline config_hash agg m seg) as Hcons
      by (exists c; auto).
    destruct (negb _ && true); (split; [done|]; exists m; split_and!; [done|done|by left|done]). }
  rewrite andb_false_r. unfold sbind at 1. pose proof (payload_bytes_run seg p Hpf Hloc) as Hb.
  destruct (on_log (payload_bytes _ _ _ _) p) as [[bs|e] p1]; destruct Hb as (Hf1 & Hs1 & Hbs).
  2: { apply segment_result_stay; [intros path; left; by rewrite Hf1|by rewrite Hs1]. }
  rewrite (Hbs bs eq_refl). unfold sbind at 1, on_log, parse_segment, slift. rewrite Hmeta. simpl.
  set (p2 := {| pr_handle := pr_handle p1; pr_hold := pr_hold p1 |}).
  assert (same_family (pstore p2) m) as Hm2 by (change (pstore p2) with (pstore p1); by rewrite Hs1).
  assert (pfiles p2 = pfiles p) as Hf2 by exact Hf1.
  unfold sbind at 1.
  pose proof (process_slices_run (lg_row seg) (lg_bytes seg) (ie_slice_ordinal <$> last (sm_index meta)) _ _ Hreads
    (segment_cursor c (lg_row seg)) 0%N false p2 m Hm2) as Hr.
  destruct (process_slices _ _ _ _ _ _ _ _ _ _ _ p2) as [[[n fin]|e] p3]; destruct Hr as [Hf3 (j & mj & cj & Hrun & Hmj & Hall)];
    destruct (seg_run_resume _ _ _ _ _ _ _ _ _ Hok Hc Hge Hrun) as [Hres Hor];
    assert (removes p p3) as Hrm by (intros path; left; by rewrite Hf3, Hf2).
  2: { split; [done|]. exists mj. split_and!; try done. }
  assert (consumed pipeline config_hash agg mj seg) as Hcons.
  { rewrite (Hall eq_refl) in Hrun. eapply seg_run_consumes; [done|]. instantiate (1 := m). unfold seg_run.
    rewrite Hc. cbn [rbind]. rewrite (proj2 (N.ltb_ge _ _) Hge), Hrun. done. }
  destruct (0 <? n)%N; [|by split; [|exists mj]].
  unfold sbind, hold.
  match goal with |- context [reclaim_passed _ _ _ _ ?q] => pose proof (reclaim_passed_run q) as Hq; destruct (reclaim_passed faults fence fuel others q) as [r4 p4] eqn:E4 end.
  destruct Hq as [Hq1 Hq2]. assert (r4 = Ok tt) as -> by (unfold reclaim_passed in E4; congruence). simpl.
  split; [intros path; destruct (Hq1 path) as [-> | ->]; [apply Hrm|by right]|]. exists mj. split_and!; try done.
  rewrite <- Hq2. exact Hmj.
Qed.

Lemma stored_cursor_run p m c :
  same_family (pstore p) m → stored_cursor pipeline config_hash agg p = Ok c → cursor_of pipeline config_hash agg m = Ok c.
Proof.
  intros Hm. unfold stored_cursor, cursor_of, load_meta, pstore, catalog_of in *. intros (meta & Hl%map_err_Ok & Hc)%rbind_Ok.
  apply rbind_Ok in Hl as (bs & Hg & Hl). unfold get_raw in Hg. apply map_err_Ok, kv_get_spec in Hg. rewrite get_raw_holding.
  cbn [rbind]. rewrite <- Hm, <- Hg. rewrite Hl. simplify_eq/=. done.
Qed.

(** Segments in the order of their sequences. *)
Definition log_ordered (log : list (LogSegment RB)) : Prop :=
  StronglySorted (λ x y, (seg_seq (lg_row x) < seg_seq (lg_row y))%N) log.

Notation replay_log := (replay pipeline config_hash agg).
Notation is_consumed := (consumed pipeline config_hash agg).

Lemma process_rows_run rows : ∀ before n p m,
  log_ordered (before ++ rows) → Forall readable rows → Forall (λ seg, payload_fixed seg p) rows →
  same_family (pstore p) m → Forall (is_consumed m) before →
  let '(r, p') := process_rows fs_display faults fence pipeline config_hash fuel others agg (lg_row <$> rows) n p in
  removes p p' ∧ ∃ m', same_family (pstore p') m' ∧
    (∀ later, replay_log (before ++ rows ++ later) m' = replay_log (before ++ rows ++ later) m) ∧
    (is_ok r = true → Forall (is_consumed m') (before ++ rows)).
Proof.
  induction rows as [|seg rows IH]; intros before n p m Hord Hrd Hpf Hm Hcons; csimpl; cbn [process_rows].
  { split; [by left|]. exists m. rewrite app_nil_r. by split_and!. }
  apply Forall_cons in Hrd as [Hrd Hrds]. apply Forall_cons in Hpf as [Hpf Hpfs].
  unfold sbind at 1, sread. destruct (stored_cursor pipeline config_hash agg p) as [c|e] eqn:Ec; [|split; [by left|]; exists m; split_and!; by try left].
  pose proof (stored_cursor_run _ _ _ Hm Ec) as Hc. unfold sbind at 1.
  pose proof (process_segment_run seg c p m Hrd Hpf Hm Hc) as Hseg.
  assert (∀ m', seg_run pipeline config_hash agg m' seg = seg_run pipeline config_hash agg m seg →
    (m' = m ∨ ∃ c', cursor_of pipeline config_hash agg m' = Ok c' ∧ wc_seq c' = seg_seq (lg_row seg)) →
    Forall (is_consumed m') before ∧ ∀ later, replay_log (before ++ (seg :: rows) ++ later) m' = replay_log (before ++ (seg :: rows) ++ later) m) as Hstep.
  { intros m' Hrun Hor. assert (Forall (is_consumed m') before) as Hb.
    { rewrite Forall_forall in Hcons |- *. intros x Hx. eapply consumed_earlier; [by apply Hcons|exact Hor|].
      apply (StronglySorted_app_1_elem_of _ _ _ x seg Hord Hx). by left. }
    split; [done|]. intros later. rewrite (replay_consumed _ _ _ before _ _ Hb), (replay_consumed _ _ _ before _ _ Hcons). unfold replay. change ((seg :: rows) ++ later) with (seg :: (rows ++ later)). cbn [rfold]. rewrite Hrun. reflexivity. }
  destruct (process_segment _ _ _ _ _ _ _ _ _ _ p) as [[n1|e] p1]; destruct Hseg as (Hr1 & m1 & Hm1 & Hrun & Hor & Hc1);
    destruct (Hstep m1 Hrun Hor) as [Hb1 Hrep]; [|split; [done|]; exists m1; split_and!; done].
  assert (log_ordered ((before ++ [seg]) ++ rows)) as Hord' by (rewrite <- app_assoc; exact Hord).
  assert (Forall (is_consumed m1) (before ++ [seg])) as Hb1' by (apply Forall_app; split; [done|constructor; [by apply Hc1|constructor]]).
  assert (Forall (λ seg, payload_fixed seg p1) rows) as Hpf1
    by (eapply Forall_impl; [exact Hpfs|]; intros x Hx; exact (payload_fixed_removes x p p1 Hx Hr1)).
  specialize (IH (before ++ [seg]) (n + n1)%N p1 m1 Hord' Hrds Hpf1 Hm1 Hb1').
  destruct (process_rows _ _ _ _ _ _ _ _ _ _ p1) as [r p2]. destruct IH as (Hr2 & m2 & Hm2 & Hrep2 & Hc2).
  split; [intros path; destruct (Hr2 path) as [-> | ->]; [apply Hr1|by right]|]. exists m2. split; [done|].
  rewrite <- !app_assoc in Hc2. split; [|done]. intros later. etransitivity; [|exact (Hrep later)]. specialize (Hrep2 later).
  rewrite <- !app_assoc in Hrep2. exact Hrep2.
Qed.

(** One call over the live part of the log, of which everything before is behind and
    everything after is not written yet; or any other task, which leaves the state of the
    processor and the payloads of the log alone. *)
Inductive proc_step (log : list (LogSegment RB)) : proc → proc → Prop :=
| step_process before rows later n p :
    log = before ++ rows ++ later →
    Forall (is_consumed (pstore p)) before →
    proc_step log p (process_rows fs_display faults fence pipeline config_hash fuel others agg (lg_row <$> rows) n p).2
| step_other p p' :
    same_family (pstore p) (pstore p') → Forall (λ seg, payload_fixed seg p') log → proc_step log p p'.

Lemma proc_steps_replay log p0 p m0 :
  log_ordered log → Forall readable log → rtc (proc_step log) p0 p → Forall (λ seg, payload_fixed seg p0) log → same_family (pstore p0) m0 →
  Forall (λ seg, payload_fixed seg p) log ∧ ∃ m, same_family (pstore p) m ∧ replay_log log m = replay_log log m0.
Proof.
  intros Hord Hrd. induction 1 as [p|p1 p2 p3 Hs _ IH] in m0 |- *; intros Hpf Hm; [split; [done|]; by exists m0|].
  destruct Hs as [before rows later n p Hlog Hcons|p p' Hsame Hpf'].
  - assert (Forall (is_consumed m0) before) as Hcons'.
    { eapply Forall_impl; [exact Hcons|]. intros x Hx. by rewrite <- (consumed_family _ _ _ x _ _ Hm). }
    assert (log_ordered (before ++ rows)) as Hord'.
    { unfold log_ordered in Hord. rewrite Hlog, app_assoc in Hord. by apply StronglySorted_app_1_l in Hord. }
    rewrite Hlog in Hrd, Hpf. apply Forall_app in Hrd as [_ [Hrd _]%Forall_app]. pose proof Hpf as Hpf2. apply Forall_app in Hpf2 as [_ [Hpf2 _]%Forall_app].
    pose proof (process_rows_run rows before n p m0 Hord' Hrd Hpf2 Hm Hcons') as Hrun.
    destruct (process_rows _ _ _ _ _ _ _ _ _ n p) as [r p']. simpl in *. destruct Hrun as (Hrm & m1 & Hm1 & Hrep & _).
    destruct (IH m1) as [Hpf3 (m & Hm3 & Hrep3)]; [|done|].
    + rewrite Hlog. eapply Forall_impl; [exact Hpf|]. intros x Hx. exact (payload_fixed_removes x p p' Hx Hrm).
    + split; [done|]. exists m. split; [done|]. rewrite Hrep3, Hlog. apply Hrep.
  - apply IH; [done|]. by rewrite <- Hsame.
Qed.
End Follow.

(** ** The reference: every slice once, in order *)

Section Once.
Context {F : Type} {FL : Float64 F} {PJ : ProcessorJson F}.
Context {RB Col : Type} {RA : RowArrow RB Col F}.
Context {CP : Codec ProcessorMeta}.
Context (pipeline config_hash : bytes) (agg : TransformAggregate).
Implicit Types m : gmap bytes bytes.

(** The whole slice, whatever was applied before. *)
Definition once_slice (row : SegmentRow) (mc : gmap bytes bytes * WalCursor) (sl : Slice RB)
    : result bytes (gmap bytes bytes * WalCursor) :=
  let '(m, c) := mc in
  if batch_len (sl_batch sl) =? 0 then Ok (m, c)
  else
    let? planned := plan_events pipeline (holding m) config_hash agg
                      (at_slice (seg_seq row) (seg_id row) (sl_ordinal sl) c) (sl_batch sl) (sl_cdc sl) 0 in
    Ok (apply_kv_ops planned.1 m, planned.2).

Definition once_segment m (seg : LogSegment RB) : result bytes (gmap bytes bytes) :=
  let? mc := rfold (once_slice (lg_row seg))
               (m, {| wc_seq := seg_seq (lg_row seg); wc_segment_id := seg_id (lg_row seg); wc_slice_ordinal := 0; wc_row_index := 0 |})
               (lg_slices seg) in Ok mc.1.

Definition once (log : list (LogSegment RB)) m : result bytes (gmap bytes bytes) := rfold once_segment m log.

(** Ahead of the cursor, at the start of a slice. *)
Lemma slice_run_ahead row m c sl :
  (wc_slice_ordinal c < sl_ordinal sl)%N ∨ (wc_slice_ordinal c = sl_ordinal sl ∧ wc_row_index c = 0%N) →
  slice_run pipeline config_hash agg row (m, c) sl = once_slice row (m, c) sl.
Proof.
  intros Hor. unfold slice_run, once_slice, past, already_applied_slice, start_row.
  rewrite (proj2 (N.ltb_ge (sl_ordinal sl) (wc_slice_ordinal c))) by lia. simpl.
  destruct Hor as [Hlt|[Heq Hz]].
  - rewrite (proj2 (N.eqb_neq (wc_slice_ordinal c) (sl_ordinal sl))) by lia. rewrite !andb_false_r. simpl.
    destruct (batch_len (sl_batch sl)) as [|n]; [done|]. done.
  - rewrite Heq, N.eqb_refl, Hz, !andb_true_r. destruct (batch_len (sl_batch sl)) as [|n]; simpl.
    + case_bool_decide; done.
    + rewrite andb_false_r. simpl. case_bool_decide; simpl; done.
Qed.

Lemma once_run row sls : ∀ m c,
  increasing sls → Forall (λ sl, (wc_slice_ordinal c < sl_ordinal sl)%N ∨ (wc_slice_ordinal c = sl_ordinal sl ∧ wc_row_index c = 0%N)) sls →
  rfold (slice_run pipeline config_hash agg row) (m, c) sls = rfold (once_slice row) (m, c) sls.
Proof.
  induction sls as [|sl sls IH]; intros m c Hi Hf; [done|]. cbn [rfold].
  apply Forall_cons in Hf as [Hsl Hf]. apply StronglySorted_inv in Hi as [Hi Hlt]. rewrite slice_run_ahead by done.
  destruct (once_slice row (m, c) sl) as [[m1 c1]|e] eqn:E; [|done]. cbn [rbind]. apply IH; [done|].
  rewrite <- (slice_run_ahead row m c sl Hsl) in E. destruct (past c (seg_id row) sl) eqn:Ep.
  - rewrite slice_run_skip in E by done. by injection E as <- <-.
  - apply slice_run_step in E as [-> _]; [|done]. eapply Forall_impl; [exact Hlt|]. simpl. auto.
Qed.

Lemma seg_run_once seg m c :
  seg_ok seg → cursor_of pipeline config_hash agg m = Ok c → (wc_seq c < seg_seq (lg_row seg))%N → wc_segment_id c ≠ seg_id (lg_row seg) →
  seg_run pipeline config_hash agg m seg = once_segment m seg.
Proof.
  intros Hok Hc Hlt Hid. unfold seg_run, once_segment. rewrite Hc. cbn [rbind]. rewrite (proj2 (N.ltb_ge _ _)) by lia.
  unfold segment_cursor. fold (seg_id (lg_row seg)). rewrite bool_decide_false by done. fold (seg_seq (lg_row seg)).
  rewrite (proj2 (N.ltb_lt _ _) Hlt). rewrite once_run; [done|exact Hok|]. apply Forall_forall. intros sl _. simpl.
  destruct (N.eq_0_gt_0_cases (sl_ordinal sl)) as [->|]; [right; done|left; lia].
Qed.

Lemma seg_run_cursor seg m c m' :
  seg_ok seg → cursor_of pipeline config_hash agg m = Ok c → seg_run pipeline config_hash agg m seg = Ok m' →
  ∃ c', cursor_of pipeline config_hash agg m' = Ok c' ∧
    (c' = c ∨ (wc_seq c' = seg_seq (lg_row seg) ∧ wc_segment_id c' = seg_id (lg_row seg))).
Proof.
  intros Hok Hc Hr. unfold seg_run in Hr. rewrite Hc in Hr. cbn [rbind] in Hr.
  case_match; [simplify_eq; exists c; auto|]. apply rbind_Ok in Hr as ([m1 c1] & Hf & [= <-]).
  destruct (run_covers _ _ _ (lg_row seg) (lg_slices seg) [] _ _ _ _ Hok (Forall_nil_2 _) Hf) as [_ [[-> _]|(Hc1 & Hs & Hid)]]; simpl;
    [exists c; auto|exists c1; auto].
Qed.

(** Replaying a log that the cursor has not reached applies each of its slices once. *)
Lemma replay_once log : ∀ m c,
  log_ordered log → NoDup ((seg_id ∘ lg_row) <$> log) → Forall seg_ok log → cursor_of pipeline config_hash agg m = Ok c →
  Forall (λ seg, (wc_seq c < seg_seq (lg_row seg))%N ∧ wc_segment_id c ≠ seg_id (lg_row seg)) log →
  replay pipeline config_hash agg log m = once log m.
Proof.
  induction log as [|seg log IH]; intros m c Hord Hnd Hok Hc Hf; [done|]. unfold replay, once. cbn [rfold].
  apply StronglySorted_inv in Hord as [Hord Hlt]. csimpl in Hnd. apply NoDup_cons in Hnd as [Hni Hnd].
  apply Forall_cons in Hok as [Hok Hoks]. apply Forall_cons in Hf as [[H1 H2] Hf].
  rewrite <- (seg_run_once seg m c Hok Hc H1 H2).
  destruct (seg_run pipeline config_hash agg m seg) as [m1|e] eqn:E; [|done]. cbn [rbind].
  destruct (seg_run_cursor seg m c m1 Hok Hc E) as (c1 & Hc1 & Hor). apply (IH m1 c1); [done|done|done|done|].
  destruct Hor as [->|[Hs Hid]]; [done|]. rewrite Forall_forall in Hlt |- *. intros x Hx. rewrite Hs, Hid. split; [by apply Hlt|].
  intros E'. apply Hni. apply list_elem_of_fmap. exists x. split; [by rewrite E'|done].
Qed.
End Once.

(** ** What the processor promises *)

Section Promise.
Context {F : Type} {FL : Float64 F} {PJ : ProcessorJson F}.
Context {RB Col : Type} {RA : RowArrow RB Col F}.
Context {CP : Codec ProcessorMeta}.
Context {RC : Codec CatalogRow} {DG : Digest} {S W Db Tree : Type} `{HL : StoreLaws S} {SW : SledWorld W Db Tree}.
Context {CK : Codec PartitionKey} {CM : Codec WalPartMeta} {CO : Codec (gmap OffsetKey N)}.
Context {B : Type} {OB : ObjectStore B}.
Context (fs_display : FsErr → bytes) (faults : N → option FsErr).
Context (fence : CatalogFence) (pipeline config_hash : bytes) (fuel : nat) (agg : TransformAggregate).
Context (others : nat → Handle S W B → Handle S W B).
Notation proc := (Proc (S := S) (W := W) (B := B)).

(** A log of segments with readable payloads, in the order of their sequences from 1. *)
Definition log_ok (log : list (LogSegment RB)) : Prop :=
  log_ordered log ∧ NoDup ((seg_id ∘ lg_row) <$> log) ∧ Forall readable log ∧
  Forall (λ seg, (0 < seg_seq (lg_row seg))%N ∧ seg_id (lg_row seg) ≠ []) log.

Lemma cursor_of_fresh m : same_family m ∅ → cursor_of pipeline config_hash agg m = Ok cursor_default.
Proof. intros Hm. unfold cursor_of, load_meta. rewrite get_raw_holding. cbn [rbind]. by rewrite Hm, lookup_empty. Qed.

Lemma replay_fresh log : log_ok log → replay pipeline config_hash agg log ∅ = once pipeline config_hash agg log ∅.
Proof.
  intros (Hord & Hnd & Hrd & Hpos). apply (replay_once _ _ _ _ _ cursor_default); [done|done| |by apply cursor_of_fresh|].
  - eapply Forall_impl; [exact Hrd|]. intros seg. apply readable_ok.
  - eapply Forall_impl; [exact Hpos|]. intros seg [H1 H2]. by split; [|apply not_eq_sym].
Qed.

End Promise.
