(* ===== verification/ProcessorView.v ===== *)
(** * ProcessorView: the measures are the sums over the rows that are there

    A reference table of the rows that are live under each key, and the theorem that the
    measures the processor stores are its sums, for logs whose updates and deletes meet one
    row under their key; and what happens for other logs. *)

From S2P Require Import CatalogOutbox.
From S2P Require Import Prelude Bytes Text Io Codec Lease CatalogKey CatalogRow Store Catalog SledMigrate.
From S2P Require Import Cdc OffsetStore CopyWal SegmentFile SourceContract WalSlice WalHandle WalDurability Processor ProcessorReplay.

(** ** Integers as floating-point numbers *)

Definition small (z : Z) : Prop := (Z.abs z ≤ 2 ^ 53)%Z.

(** Sums and differences of integers of at most 53 bits are exact. *)
Class FloatLaws (F : Type) `{Float64 F} : Type := {
  exact : Z → F;
  exact_zero : f_zero = exact 0;
  exact_one : f_one = exact 1;
  exact_finite z : small z → f_finite (exact z) = true;
  exact_add a b : small a → small b → small (a + b) → f_add (exact a) (exact b) = exact (a + b);
  exact_sub a b : small a → small b → small (a - b) → f_sub (exact a) (exact b) = exact (a - b);
  exact_plus a b : small a → small b → small (a + b) → f_add (exact a) (f_mul f_one (exact b)) = exact (a + b);
  exact_minus a b : small a → small b → small (a - b) → f_add (exact a) (f_mul f_minus_one (exact b)) = exact (a - b)
}.

Definition sumZ (l : list Z) : Z := foldr Z.add 0%Z l.

Section View.
Context {F : Type} {FL : Float64 F} {PJ : ProcessorJson F} {FLaws : FloatLaws F}.
Context {RB Col : Type} {RA : RowArrow RB Col F}.
Context {CP : Codec ProcessorMeta}.
Context (pipeline config_hash : bytes) (agg : TransformAggregate).
(** The integer a row counts for in a measure, and the rows of the log. *)
Context (val : AggregateMeasure → Row → Z) (known : Row → Prop).
Implicit Types m : gmap bytes bytes.

Notation key_of row := (encode_key (ta_key_fields agg) row).

(** ** The reference *)

(** The rows under each key, the last one first, and the ids of the events applied. *)
Record Table : Type := { t_live : gmap bytes (list Row); t_seen : gset bytes }.

Definition group (t : Table) (key : bytes) : list Row := default [] (t_live t !! key).
Definition total (t : Table) (key : bytes) (ms : AggregateMeasure) : Z := sumZ (val ms <$> group t key).

Definition event : Type := option WalRowMeta * Row.
Definition event_mutation (ev : event) : MutationKind := from_option mutation Insert ev.1.
Definition event_key (ev : event) : bytes := from_option event_id [] ev.1.
Definition seen_before (t : Table) (ev : event) : Prop := event_key ev ≠ [] ∧ event_key ev ∈ t_seen t.

Definition new_group (mutation : MutationKind) (row : Row) (rows : list Row) : list Row :=
  match mutation with
  | Insert | Snapshot => row :: rows
  | Update => [row]
  | Delete => []
  end.

Definition spec_event (t : Table) (ev : event) : Table :=
  if decide (seen_before t ev) then t
  else {| t_live := <[key_of ev.2 := new_group (event_mutation ev) ev.2 (group t (key_of ev.2))]> (t_live t);
          t_seen := if decide (event_key ev = []) then t_seen t else {[event_key ev]} ∪ t_seen t |}.

(** Totals stay in range, and an update or a delete meets exactly one row under its key. *)
Definition in_range (t : Table) : Prop :=
  ∀ key name ms, ta_measures agg !! name = Some ms → (Z.abs (total t key ms) ≤ 2 ^ 52)%Z.

Definition wf_event (t : Table) (ev : event) : Prop :=
  known ev.2 ∧ in_range (spec_event t ev) ∧
  (¬ seen_before t ev → event_mutation ev = Update ∨ event_mutation ev = Delete → ∃ old, group t (key_of ev.2) = [old]).

Fixpoint wf_events (t : Table) (evs : list event) : Prop :=
  match evs with
  | [] => True
  | ev :: evs => wf_event t ev ∧ wf_events (spec_event t ev) evs
  end.

(** What is assumed of the rows of the log: their columns under the measures are integers,
    they have no other numbers, they are not empty, and rows with the same leftover columns
    have the same key. *)
Record known_ok : Prop := {
  known_value row name ms : known row → ta_measures agg !! name = Some ms →
    measure_value ms row = Ok (exact (val ms row)) ∧ (Z.abs (val ms row) ≤ 2 ^ 52)%Z;
  known_integral row : known row → integral_row row ∧ row ≠ ∅;
  known_entity r1 r2 e : known r1 → known r2 → entity_identity agg r1 = Some e → entity_identity agg r2 = Some e → key_of r1 = key_of r2
}.
Hypothesis rows_ok : known_ok.

(** ** Maps of numbers *)

Lemma slots_fold {A} (step : gmap bytes F → bytes * A → result bytes (gmap bytes F)) (h : bytes → A → F) l : ∀ slot,
  NoDup l.*1 →
  (∀ slot name a, (name, a) ∈ l → step slot (name, a) = Ok (<[name := f_add (default f_zero (slot !! name)) (h name a)]> slot)) →
  ∃ slot', rfold step slot l = Ok slot' ∧
    (∀ name a, (name, a) ∈ l → slot' !! name = Some (f_add (default f_zero (slot !! name)) (h name a))) ∧
    (∀ name, name ∉ l.*1 → slot' !! name = slot !! name).
Proof.
  induction l as [|[name a] l IH]; intros slot Hnd Hg.
  { exists slot. split_and!; [done|intros ? ? Hin; by apply elem_of_nil in Hin|done]. }
  csimpl in Hnd. apply NoDup_cons in Hnd as [Hni Hnd]. cbn [rfold]. rewrite (Hg slot name a) by by left. cbn [rbind].
  destruct (IH (<[name := f_add (default f_zero (slot !! name)) (h name a)]> slot) Hnd) as (slot' & Hf & H1 & H2);
    [intros ? ? ? ?; apply Hg; by right|].
  exists slot'. split; [exact Hf|]. split.
  - intros name' a' Hin. apply elem_of_cons in Hin as [[= -> ->]|Hin]; [rewrite H2 by done; by rewrite lookup_insert_eq|].
    rewrite (H1 _ _ Hin). assert (name' ≠ name) as Hne by (intros ->; apply Hni, list_elem_of_fmap; by exists (name, a')).
    by rewrite lookup_insert_ne.
  - intros name' Hn. csimpl in Hn. apply not_elem_of_cons in Hn as [Hne Hn]. rewrite H2 by done. by rewrite lookup_insert_ne.
Qed.

Lemma sorted_entries_elem {A} (mm : gmap bytes A) k a : (k, a) ∈ sorted_entries mm ↔ mm !! k = Some a.
Proof. unfold sorted_entries. rewrite merge_sort_Permutation. apply elem_of_map_to_list. Qed.

Lemma sorted_entries_NoDup {A} (mm : gmap bytes A) : NoDup (sorted_entries mm).*1.
Proof. unfold sorted_entries. rewrite merge_sort_Permutation. apply NoDup_fst_map_to_list. Qed.

Lemma sorted_entries_names {A} (mm : gmap bytes A) k : k ∈ (sorted_entries mm).*1 ↔ is_Some (mm !! k).
Proof.
  rewrite list_elem_of_fmap. split.
  - intros ([k' a] & -> & Hin%sorted_entries_elem). by exists a.
  - intros [a Ha%sorted_entries_elem]. by exists (k, a).
Qed.

(** The slot of a key: the numbers [d], one for each measure. *)
Definition slot_is (slot : gmap bytes F) (d : AggregateMeasure → Z) : Prop :=
  (∀ name, is_Some (slot !! name) → is_Some (ta_measures agg !! name)) ∧
  (∀ name ms, ta_measures agg !! name = Some ms → default f_zero (slot !! name) = exact (d ms)).

Lemma slot_is_empty d : (∀ name ms, ta_measures agg !! name = Some ms → d ms = 0%Z) → slot_is ∅ d.
Proof.
  intros Hd. split; [intros name [x Hx]; by rewrite lookup_empty in Hx|]. intros name ms Hn.
  rewrite lookup_empty, (Hd _ _ Hn). simpl. apply exact_zero.
Qed.

(** A fold over the measures that adds [h] to each. *)
Lemma slots_add (step : gmap bytes F → bytes * AggregateMeasure → result bytes (gmap bytes F)) h slot d d' :
  slot_is slot d →
  (∀ slot name ms, ta_measures agg !! name = Some ms →
    step slot (name, ms) = Ok (<[name := f_add (default f_zero (slot !! name)) (h ms)]> slot)) →
  (∀ name ms, ta_measures agg !! name = Some ms → f_add (exact (d ms)) (h ms) = exact (d' ms)) →
  ∃ slot', rfold step slot (sorted_entries (ta_measures agg)) = Ok slot' ∧ slot_is slot' d' ∧
    ∀ name, is_Some (ta_measures agg !! name) → is_Some (slot' !! name).
Proof.
  intros [Hn Hs] Hstep Hadd. destruct (slots_fold step (λ _, h) (sorted_entries (ta_measures agg)) slot) as (slot' & Hf & H1 & H2).
  - apply sorted_entries_NoDup.
  - intros slot0 name ms Hin%sorted_entries_elem. by apply Hstep.
  - exists slot'. split; [done|]. split; [split|intros name [ms Hms%sorted_entries_elem]; by rewrite (H1 name ms)].
    + intros name Hx. destruct (decide (name ∈ (sorted_entries (ta_measures agg)).*1)) as [Hin|Hni]; [by apply sorted_entries_names|].
      rewrite H2 in Hx by done. by apply Hn.
    + intros name ms Hms. rewrite (H1 name ms) by by apply sorted_entries_elem. simpl. rewrite (Hs _ _ Hms). by eapply Hadd.
Qed.

Definition deltas_are (mm : gmap bytes (gmap bytes F)) (key : bytes) (d : AggregateMeasure → Z) : Prop :=
  slot_is (default ∅ (mm !! key)) d ∧ (mm !! key = None → ∀ name ms, ta_measures agg !! name = Some ms → d ms = 0%Z) ∧
  ∀ slot, mm !! key = Some slot → ∀ name, is_Some (ta_measures agg !! name) → is_Some (slot !! name).

Lemma add_deltas_spec key row (sign : bool) mm d d' :
  deltas_are mm key d → known row →
  (∀ name ms, ta_measures agg !! name = Some ms → small (d ms) ∧ small (d' ms) ∧
    d' ms = if sign then (d ms + val ms row)%Z else (d ms - val ms row)%Z) →
  ∃ mm', add_deltas agg key row (if sign then f_one else f_minus_one) mm = Ok mm' ∧ deltas_are mm' key d' ∧
    ∀ key', key' ≠ key → mm' !! key' = mm !! key'.
Proof.
  intros [Hs _] Hk Hd. unfold add_deltas.
  destruct (slots_add (λ slot '(name, m), let? v := measure_value m row in
      Ok (<[name := f_add (default f_zero (slot !! name)) (f_mul (if sign then f_one else f_minus_one) v)]> slot))
    (λ ms, f_mul (if sign then f_one else f_minus_one) (exact (val ms row))) (default ∅ (mm !! key)) d d' Hs) as (slot' & Hf & Hs' & Hall).
  - intros slot name ms Hms. destruct (known_value rows_ok row name ms Hk Hms) as [-> _]. done.
  - intros name ms Hms. destruct (Hd name ms Hms) as (H1 & H2 & H3). destruct (known_value rows_ok row name ms Hk Hms) as [_ Hv].
    assert (small (val ms row)) by (unfold small; lia). rewrite H3 in H2 |- *. destruct sign; [by apply exact_plus|by apply exact_minus].
  - rewrite Hf. cbn [rbind]. eexists. split; [reflexivity|]. unfold deltas_are. rewrite lookup_insert_eq. simpl.
    split; [split_and!; [exact Hs'|done|by intros ? [= <-]]|]. intros key' Hne. by rewrite lookup_insert_ne.
Qed.

Lemma add_measure_delta_spec key old new mm d d' :
  deltas_are mm key d → known old → known new →
  (∀ name ms, ta_measures agg !! name = Some ms → small (d ms) ∧ small (d' ms) ∧ d' ms = (d ms + (val ms new - val ms old))%Z) →
  ∃ mm', add_measure_delta agg key old new mm = Ok mm' ∧ deltas_are mm' key d' ∧ ∀ key', key' ≠ key → mm' !! key' = mm !! key'.
Proof.
  intros [Hs _] Ho Hk Hd. unfold add_measure_delta.
  destruct (slots_add (λ slot '(name, m), let? v := measure_value m new in let? o := measure_value m old in
      Ok (<[name := f_add (default f_zero (slot !! name)) (f_sub v o)]> slot))
    (λ ms, f_sub (exact (val ms new)) (exact (val ms old))) (default ∅ (mm !! key)) d d' Hs) as (slot' & Hf & Hs' & Hall).
  - intros slot name ms Hms. destruct (known_value rows_ok new name ms Hk Hms) as [-> _], (known_value rows_ok old name ms Ho Hms) as [-> _]. done.
  - intros name ms Hms. destruct (Hd name ms Hms) as (H1 & H2 & H3).
    destruct (known_value rows_ok new name ms Hk Hms) as [_ Hv], (known_value rows_ok old name ms Ho Hms) as [_ Hv'].
    rewrite exact_sub by (unfold small; lia). rewrite H3 in H2 |- *. apply exact_add; [done|unfold small; lia|done].
  - rewrite Hf. cbn [rbind]. eexists. split; [reflexivity|]. unfold deltas_are. rewrite lookup_insert_eq. simpl.
    split; [split_and!; [exact Hs'|done|by intros ? [= <-]]|]. intros key' Hne. by rewrite lookup_insert_ne.
Qed.

(** ** The state of the processor and the table *)

(** The image of the last row under a key: empty when no row is left. *)
Definition image_of (key : bytes) (rows : list Row) (image : Row) : Prop :=
  match rows with
  | [] => image = ∅
  | row :: _ => image = row ∧ known row ∧ key_of row = key
  end.

Definition entity_known (e key : bytes) : Prop := ∃ row, known row ∧ entity_identity agg row = Some e ∧ key_of row = key.

(** The stored state stands for the table [t]. *)
Record stands m (t : Table) : Prop := {
  st_rows key : match m !! family_key StreamState (row_key pipeline (ta_id agg) key) with
                | None => group t key = []
                | Some bs => ∃ image, row_from_slice bs = Ok image ∧ image_of key (group t key) image
                end;
  st_measures key : ∃ slot, load_measures pipeline (holding m) (ta_id agg) key = Ok slot ∧ slot_is slot (total t key);
  st_entities e key : m !! family_key StreamState (entity_key_bytes pipeline (ta_id agg) e) = Some key → entity_known e key;
  st_dedup id : id ≠ [] → is_Some (m !! family_key StreamState (dedup_key pipeline (ta_id agg) id)) ↔ id ∈ t_seen t;
  st_range : in_range t
}.

(** What a slice has accumulated since [t0] stands for [t]. *)
Record pending_stands (t0 : Table) (p : Pending) (t : Table) : Prop := {
  ps_rows key : match pd_rows p !! key with
                | None => group t key = group t0 key
                | Some image => image_of key (group t key) image
                end;
  ps_measures key : deltas_are (pd_measures p) key (λ ms, total t key ms - total t0 key ms)%Z;
  ps_entities e key : pd_entities p !! e = Some key → entity_known e key;
  ps_dedup id : id ≠ [] → id ∈ t_seen t ↔ id ∈ t_seen t0 ∨ dedup_key pipeline (ta_id agg) id ∈ pd_dedup p;
  ps_range : in_range t
}.

Lemma pending_stands_start t c : in_range t → pending_stands t (pending_start c) t.
Proof.
  intros Hr. split; simpl.
  - intros key. by rewrite lookup_empty.
  - intros key. unfold deltas_are. rewrite lookup_empty. simpl. split_and!; [apply slot_is_empty; intros; lia|intros; lia|done].
  - intros e key. by rewrite lookup_empty.
  - intros id _. rewrite elem_of_nil. tauto.
  - done.
Qed.

(** The one row under a key is found, by its entity or by its key. *)
Lemma image_one key old image : image_of key [old] image → known old → image = old ∧ image ≠ ∅.
Proof. intros (-> & _) Hk. split; [done|]. by apply (known_integral rows_ok). Qed.

Lemma load_last_row_stands m t0 key old :
  stands m t0 → group t0 key = [old] → known old → load_last_row pipeline (holding m) (ta_id agg) key = Ok (Some old).
Proof.
  intros Hs Hg Hk. unfold load_last_row. rewrite get_raw_holding. cbn [rbind]. pose proof (st_rows _ _ Hs key) as Hr.
  destruct (m !! _) as [bs|]; [|congruence]. destruct Hr as (image & -> & Hi). rewrite Hg in Hi.
  destruct (image_one _ _ _ Hi Hk) as [-> Hne]. cbn [rbind]. by rewrite bool_decide_false.
Qed.

Lemma key_row_stands m t0 p t key old :
  stands m t0 → pending_stands t0 p t → group t key = [old] → known old →
  match pending_row (pd_rows p) key with
  | Some row => Ok (Some row)
  | None => load_last_row pipeline (holding m) (ta_id agg) key
  end = Ok (Some old).
Proof.
  intros Hs Hp Hg Hk. unfold pending_row. pose proof (ps_rows _ _ _ Hp key) as Hr.
  destruct (pd_rows p !! key) as [image|].
  - rewrite Hg in Hr. destruct (image_one _ _ _ Hr Hk) as [-> Hne]. by rewrite bool_decide_false.
  - apply (load_last_row_stands m t0); [done|congruence|done].
Qed.

Lemma load_previous_stands m t0 p t row old :
  stands m t0 → pending_stands t0 p t → known row → group t (key_of row) = [old] → known old →
  load_previous_row pipeline (holding m) agg (key_of row) row (pd_rows p) (pd_entities p) = Ok (Some old).
Proof.
  intros Hs Hp Hrow Hg Hold. pose proof (key_row_stands m t0 p t _ old Hs Hp Hg Hold) as Hkey. unfold load_previous_row.
  destruct (entity_identity agg row) as [e|] eqn:Ee; [|exact Hkey].
  assert (∀ key, entity_known e key → key = key_of row) as Hent.
  { intros key (r & Hr & He & <-). by apply (known_entity rows_ok r row e). }
  unfold entity_row. destruct (pd_entities p !! e) as [key|] eqn:Epe; simpl.
  - apply (ps_entities _ _ _ Hp) in Epe as ->%Hent. destruct (pending_row (pd_rows p) (key_of row)) as [r|] eqn:Epr; [exact Hkey|].
    cbn [rbind]. destruct (m !! _) as [old_key|] eqn:Em; cbn [rbind]; [|exact Hkey].
    apply (st_entities _ _ Hs) in Em as ->%Hent. rewrite Epr, Hkey. done.
  - cbn [rbind]. destruct (m !! _) as [old_key|] eqn:Em; cbn [rbind]; [|exact Hkey].
    apply (st_entities _ _ Hs) in Em as ->%Hent. destruct (pending_row (pd_rows p) (key_of row)) as [r|] eqn:Epr; [exact Hkey|].
    by rewrite Hkey.
Qed.

Lemma group_head m t0 p t key old rows :
  stands m t0 → pending_stands t0 p t → group t key = old :: rows → known old ∧ key_of old = key.
Proof.
  intros Hs Hp Hg. pose proof (ps_rows _ _ _ Hp key) as Hr. destruct (pd_rows p !! key) as [image|].
  - rewrite Hg in Hr. by destruct Hr as (_ & ? & ?).
  - rewrite Hr in Hg. pose proof (st_rows _ _ Hs key) as Hm. destruct (m !! _) as [bs|]; [|congruence].
    destruct Hm as (image & _ & Hi). rewrite Hg in Hi. by destruct Hi as (_ & ? & ?).
Qed.

(** ** Identifiers of events *)

Lemma hex_digits_inj a b : (a < 16)%N → (b < 16)%N →
  nth (N.to_nat a) (str "0123456789abcdef") x30 = nth (N.to_nat b) (str "0123456789abcdef") x30 → a = b.
Proof.
  intros Ha Hb E. apply N2Nat.inj. assert (∀ i, i < 16 → str "0123456789abcdef" !! i = Some (nth i (str "0123456789abcdef") x30)) as Hn.
  { intros i Hi. destruct (nth_lookup_or_length (str "0123456789abcdef") i x30) as [?|Hl]; [done|]. vm_compute in Hl. lia. }
  apply (NoDup_lookup (str "0123456789abcdef") _ _ (nth (N.to_nat a) (str "0123456789abcdef") x30)).
  - refine (bool_decide_eq_true_1 _ _). by vm_compute.
  - apply Hn. lia.
  - rewrite E. apply Hn. lia.
Qed.

Lemma hex_encode_inj x y : hex_encode x = hex_encode y → x = y.
Proof.
  revert y. induction x as [|a x IH]; intros [|b y]; [done|done|done|]. unfold hex_encode. csimpl. intros [= H1 H2 H3].
  pose proof (byte_to_N_lt a). pose proof (byte_to_N_lt b).
  apply hex_digits_inj in H1; [|apply N.Div0.div_lt_upper_bound; lia|apply N.Div0.div_lt_upper_bound; lia].
  apply hex_digits_inj in H2; [|apply N.mod_lt; lia|apply N.mod_lt; lia].
  f_equal; [|by apply IH]. apply byte_to_N_inj. rewrite (N.div_mod (Byte.to_N a) 16), (N.div_mod (Byte.to_N b) 16) by lia. congruence.
Qed.

Lemma dedup_key_inj x y : dedup_key pipeline (ta_id agg) x = dedup_key pipeline (ta_id agg) y → x = y.
Proof.
  unfold dedup_key, slash. cbn [intersperse]. intros H. apply hex_encode_inj.
  do 3 (apply (inj (app _)) in H; apply (inj (app _)) in H). exact H.
Qed.

Lemma check_dedup_stands m t0 p t meta row :
  stands m t0 → pending_stands t0 p t →
  let ev := (meta, row) in
  check_dedup pipeline (holding m) agg meta (pd_dedup p) =
  Ok (bool_decide (seen_before t ev),
      if decide (seen_before t ev ∨ event_key ev = []) then pd_dedup p else pd_dedup p ++ [dedup_key pipeline (ta_id agg) (event_key ev)]).
Proof.
  intros Hs Hp ev. unfold check_dedup, ev, seen_before, event_key. destruct meta as [meta|]; cbn [fst from_option].
  2: { rewrite bool_decide_false by naive_solver. rewrite decide_True by auto. done. }
  case_bool_decide as He; [rewrite bool_decide_false by naive_solver; rewrite decide_True by auto; done|].
  rewrite get_raw_holding. cbn [rbind]. pose proof (st_dedup _ _ Hs _ He) as H1. pose proof (ps_dedup _ _ _ Hp _ He) as H2.
  assert (bool_decide (is_Some (m !! family_key StreamState (dedup_key pipeline (ta_id agg) (event_id meta))))
          || bool_decide (dedup_key pipeline (ta_id agg) (event_id meta) ∈ pd_dedup p) = bool_decide (event_id meta ∈ t_seen t)) as ->.
  { apply eq_true_iff_eq. rewrite orb_true_iff, !bool_decide_eq_true. tauto. }
  case_bool_decide as Hin.
  - rewrite bool_decide_true by auto. rewrite decide_True by auto. done.
  - rewrite bool_decide_false by naive_solver. rewrite decide_False by naive_solver. done.
Qed.

(** ** A row *)

(** The table with the rows of one key replaced. *)
Definition with_group (t : Table) (key : bytes) (rows : list Row) : Table :=
  {| t_live := <[key := rows]> (t_live t); t_seen := t_seen t |}.

Lemma group_with_group t key rows key' : group (with_group t key rows) key' = if decide (key = key') then rows else group t key'.
Proof.
  unfold group, with_group. simpl. case_decide as Hk; [subst; by rewrite lookup_insert_eq|by rewrite lookup_insert_ne].
Qed.

Lemma total_cons t key ms row rows : total (with_group t key (row :: rows)) key ms = (val ms row + sumZ (val ms <$> rows))%Z.
Proof. unfold total. rewrite group_with_group, decide_True by done. done. Qed.

(** What a mutation does to the accumulated deltas and images. *)
Lemma apply_mutation_stands m t0 p t mutation row :
  stands m t0 → pending_stands t0 p t → known row →
  (mutation = Update ∨ mutation = Delete → ∃ old, group t (key_of row) = [old]) →
  let t' := with_group t (key_of row) (new_group mutation row (group t (key_of row))) in
  in_range t' →
  ∃ old_row mm rows,
    match mutation with
    | Insert | Snapshot => Ok None
    | Update | Delete => load_previous_row pipeline (holding m) agg (key_of row) row (pd_rows p) (pd_entities p)
    end = Ok old_row ∧
    apply_mutation agg mutation (key_of row) old_row row (pd_measures p) (pd_rows p) = Ok (mm, rows) ∧
    deltas_are mm (key_of row) (λ ms, total t' (key_of row) ms - total t0 (key_of row) ms)%Z ∧
    (∀ key, key ≠ key_of row → mm !! key = pd_measures p !! key) ∧
    rows = <[key_of row := match mutation with Delete => ∅ | _ => row end]> (pd_rows p).
Proof.
  intros Hs Hp Hk Hone t' Hr'. set (k := key_of row) in *. pose proof (ps_measures _ _ _ Hp k) as Hd.
  assert (∀ name ms, ta_measures agg !! name = Some ms →
    small (total t k ms - total t0 k ms) ∧ small (total t' k ms - total t0 k ms)) as Hsm.
  { intros name ms Hms. pose proof (ps_range _ _ _ Hp k name ms Hms). pose proof (st_range _ _ Hs k name ms Hms).
    pose proof (Hr' k name ms Hms). unfold small. lia. }
  assert (∀ ins, ins = Insert ∨ ins = Snapshot → mutation = ins → ∃ mm, add_deltas agg k row f_one (pd_measures p) = Ok mm ∧
    deltas_are mm k (λ ms, total t' k ms - total t0 k ms)%Z ∧ ∀ key, key ≠ k → mm !! key = pd_measures p !! key) as Hins.
  { intros ins Hor ->. apply (add_deltas_spec k row true _ _ _ Hd Hk). intros name ms Hms. destruct (Hsm name ms Hms). split_and!; [done|done|].
    assert (total t' k ms = (val ms row + total t k ms)%Z) as ->; [|lia]. unfold t'. destruct Hor as [-> | ->]; apply total_cons. }
  destruct mutation.
  - destruct (Hins Snapshot (or_intror eq_refl) eq_refl) as (mm & Ha & H1 & H2). exists None, mm, (<[k := row]> (pd_rows p)).
    split_and!; try done. unfold apply_mutation. by rewrite Ha.
  - destruct (Hins Insert (or_introl eq_refl) eq_refl) as (mm & Ha & H1 & H2). exists None, mm, (<[k := row]> (pd_rows p)).
    split_and!; try done. unfold apply_mutation. by rewrite Ha.
  - destruct (Hone (or_introl eq_refl)) as [old Hg]. destruct (group_head _ _ _ _ _ _ _ Hs Hp Hg) as [Hold Hok].
    destruct (add_measure_delta_spec k old row (pd_measures p) _ (λ ms, total t' k ms - total t0 k ms)%Z Hd Hold Hk) as (mm & Ha & H1 & H2).
    { intros name ms Hms. destruct (Hsm name ms Hms). split_and!; [done|done|]. unfold t'. simpl. rewrite total_cons. simpl.
      unfold total at 2. rewrite Hg. simpl. lia. }
    exists (Some old), mm, (<[k := row]> (pd_rows p)). split; [by apply (load_previous_stands m t0 p t)|]. split_and!; try done.
    unfold apply_mutation. simpl. rewrite Hok, bool_decide_true by done. by rewrite Ha.
  - destruct (Hone (or_intror eq_refl)) as [old Hg]. destruct (group_head _ _ _ _ _ _ _ Hs Hp Hg) as [Hold Hok].
    destruct (add_deltas_spec k old false (pd_measures p) _ (λ ms, total t' k ms - total t0 k ms)%Z Hd Hold) as (mm & Ha & H1 & H2).
    { intros name ms Hms. destruct (Hsm name ms Hms). split_and!; [done|done|]. unfold t'. simpl.
      unfold total at 1 3. rewrite group_with_group, decide_True, Hg by done. simpl. lia. }
    exists (Some old), mm, (<[k := ∅]> (pd_rows p)). split; [by apply (load_previous_stands m t0 p t)|]. split_and!; try done.
    unfold apply_mutation. simpl. rewrite Hok. rewrite Ha. cbn [rbind]. by rewrite bool_decide_true.
Qed.

Lemma spec_event_new t ev : ¬ seen_before t ev →
  spec_event t ev = {| t_live := t_live (with_group t (key_of ev.2) (new_group (event_mutation ev) ev.2 (group t (key_of ev.2))));
                       t_seen := if decide (event_key ev = []) then t_seen t else {[event_key ev]} ∪ t_seen t |}.
Proof. intros Hn. unfold spec_event. by rewrite decide_False. Qed.

Lemma deltas_are_ext (mm mm' : gmap bytes (gmap bytes F)) key d d' :
  mm' !! key = mm !! key → (∀ ms, d' ms = d ms) → deltas_are mm key d → deltas_are mm' key d'.
Proof.
  intros Hm Hd [[H1 H2] [H3 H4]]. unfold deltas_are. rewrite Hm. split_and!; [split; [done|]| |done].
  - intros name ms Hms. rewrite Hd. by apply (H2 name).
  - intros Hn name ms Hms. rewrite Hd. by apply (H3 Hn name).
Qed.

Lemma note_entity_known mutation row ents e key :
  known row → (∀ e key, ents !! e = Some key → entity_known e key) →
  note_entity agg mutation (key_of row) row ents !! e = Some key → entity_known e key.
Proof.
  intros Hk He. unfold note_entity. destruct (entity_identity agg row) as [e0|] eqn:E; [|apply He].
  assert (<[e0 := key_of row]> ents !! e = Some key → entity_known e key) as Hi.
  { intros [[-> <-]|[_ H]]%lookup_insert_Some; [by exists row|by apply He]. }
  destruct mutation; try exact Hi. intros [_ H]%lookup_delete_Some. by apply He.
Qed.

Lemma apply_row_stands m t0 p t batch cdc i ev :
  stands m t0 → pending_stands t0 p t → ev.1 = (rows ← cdc; rows !! i) → row_values batch i = Ok ev.2 → wf_event t ev →
  ∃ p', apply_row pipeline (holding m) agg batch cdc p i = Ok p' ∧ pending_stands t0 p' (spec_event t ev).
Proof.
  intros Hs Hp Hmeta Hrow (Hk & Hr & Hone). destruct ev as [meta row]. simpl in *. subst meta.
  unfold apply_row. set (meta := rows ← cdc; rows !! i) in *. rewrite (check_dedup_stands m t0 p t meta row Hs Hp). cbn [rbind fst snd].
  case_bool_decide as Hseen.
  { eexists. split; [reflexivity|]. unfold spec_event. rewrite decide_True by done. by destruct Hp; split. }
  rewrite Hrow. cbn [rbind]. pose proof (spec_event_new t (meta, row) Hseen) as Hev. simpl in Hev.
  destruct (apply_mutation_stands m t0 p t (event_mutation (meta, row)) row Hs Hp Hk (Hone Hseen)) as (old & mm & rows & Hold & Happ & Hd & Hother & Hrows).
  { intros key name ms Hms. specialize (Hr key name ms Hms). rewrite Hev in Hr. exact Hr. }
  change (from_option mutation Insert meta) with (event_mutation (meta, row)). rewrite Hold. cbn [rbind]. rewrite Happ. cbn [rbind].
  eexists. split; [reflexivity|]. rewrite Hev. set (g := new_group _ row _) in *.
  assert (∀ key live, group {| t_live := t_live (with_group t (key_of row) g); t_seen := live |} key = if decide (key_of row = key) then g else group t key) as Hgrp
    by (intros key live; apply (group_with_group t (key_of row) g key)).
  split; simpl.
  - intros key. rewrite Hgrp, Hrows. destruct (decide (key_of row = key)) as [Hkey|Hkey].
    + rewrite <- Hkey, lookup_insert_eq. unfold g. by destruct (event_mutation _).
    + rewrite lookup_insert_ne by done. apply (ps_rows _ _ _ Hp).
  - intros key. destruct (decide (key = key_of row)) as [->|Hne]; [exact Hd|]. eapply deltas_are_ext; [by apply Hother| |apply (ps_measures _ _ _ Hp key)].
    intros ms. unfold total. rewrite Hgrp. by rewrite decide_False.
  - intros e key. apply note_entity_known; [done|apply (ps_entities _ _ _ Hp)].
  - intros id Hid. pose proof (ps_dedup _ _ _ Hp id Hid) as Hdd. destruct (decide (event_key (meta, row) = [])) as [He|He].
    + rewrite decide_True by auto. exact Hdd.
    + rewrite decide_False by tauto. rewrite elem_of_union, elem_of_singleton, elem_of_app, list_elem_of_singleton, Hdd.
      split; [intros [->|[?|?]]; auto|intros [?|[?|?%dedup_key_inj]]; auto].
  - intros key name ms Hms. specialize (Hr key name ms Hms). rewrite Hev in Hr. exact Hr.
Qed.

(** The events of a slice. *)
Definition slice_events (batch : RB) (cdc : option (list WalRowMeta)) (evs : list event) : Prop :=
  Forall2 (λ i ev, ev.1 = (rows ← cdc; rows !! i) ∧ row_values batch i = Ok ev.2) (seq 0 (batch_len batch)) evs.

Lemma apply_rows_stands m t0 batch cdc ixs evs : Forall2 (λ i ev, ev.1 = (rows ← cdc; rows !! i) ∧ row_values batch i = Ok ev.2) ixs evs →
  ∀ p t, stands m t0 → pending_stands t0 p t → wf_events t evs →
  ∃ p', rfold (apply_row pipeline (holding m) agg batch cdc) p ixs = Ok p' ∧ pending_stands t0 p' (foldl spec_event t evs).
Proof.
  induction 1 as [|i ev ixs evs [Hm Hr] _ IH]; intros p t Hs Hp Hwf; [by exists p|]. destruct Hwf as [Hw Hwf]. cbn [rfold foldl].
  destruct (apply_row_stands m t0 p t batch cdc i ev Hs Hp Hm Hr Hw) as (p1 & -> & Hp1). cbn [rbind]. by apply IH.
Qed.

(** ** A slice *)

Lemma rfold_pure {A X E} (f : A → X → A) (l : list X) : ∀ a, rfold (E := E) (λ a x, Ok (f a x)) a l = Ok (foldl f a l).
Proof. induction l as [|x l IH]; intros a; [done|]. cbn [rfold rbind foldl]. apply IH. Qed.

Lemma merge_measures_is current deltas d0 d :
  slot_is current d0 → slot_is deltas d → (∀ name, is_Some (ta_measures agg !! name) → is_Some (deltas !! name)) →
  (∀ name ms, ta_measures agg !! name = Some ms → small (d0 ms) ∧ small (d ms) ∧ small (d0 ms + d ms)) →
  slot_is (merge_measures current deltas) (λ ms, d0 ms + d ms)%Z.
Proof.
  intros [Hn0 H0] [Hn Hd] Hall Hsm.
  destruct (slots_fold (λ (mm : gmap bytes F) (e : bytes * F), Ok (<[e.1 := f_add (default f_zero (mm !! e.1)) e.2]> mm)) (λ _ x, x) (sorted_entries deltas) current)
    as (slot & Hf & H1 & H2); [apply sorted_entries_NoDup|done|].
  rewrite rfold_pure in Hf. injection Hf as Hf.
  assert (merge_measures current deltas = slot) as ->.
  { rewrite <- Hf. unfold merge_measures. clear. generalize (sorted_entries deltas) as l. intros l. revert current.
    induction l as [|[name x] l IH]; intros current; [done|]. simpl. apply IH. }
  split.
  - intros name Hx. destruct (decide (is_Some (deltas !! name))) as [Hs|Hs]; [by apply Hn|].
    rewrite H2 in Hx by (by rewrite sorted_entries_names). by apply Hn0.
  - intros name ms Hms. destruct (Hall name (mk_is_Some _ _ Hms)) as [x Hx]. rewrite (H1 name x) by by apply sorted_entries_elem. simpl.
    rewrite (H0 _ _ Hms). pose proof (Hd _ _ Hms) as Hdx. rewrite Hx in Hdx. simpl in Hdx. subst x.
    destruct (Hsm _ _ Hms) as (? & ? & ?). by apply exact_add.
Qed.

Lemma slot_finite slot d : slot_is slot d → (∀ name ms, ta_measures agg !! name = Some ms → small (d ms)) → map_Forall (λ _ x, f_finite x = true) slot.
Proof.
  intros [Hn Hd] Hsm name x Hx. destruct (Hn name (mk_is_Some _ _ Hx)) as [ms Hms]. pose proof (Hd _ _ Hms) as He. rewrite Hx in He. simpl in He.
  subst x. by eapply exact_finite, Hsm.
Qed.

(** Keys of one kind: the last part tells them apart. *)
Lemma slash_inj kind x y : slash [kind; pipeline; ta_id agg; x] = slash [kind; pipeline; ta_id agg; y] → x = y.
Proof. unfold slash. cbn [intersperse]. intros H. do 3 (apply (inj (app _)) in H; apply (inj (app _)) in H). exact H. Qed.

Ltac kinds := match goal with H : _ = _ |- _ => by apply (f_equal head) in H end.

(** A key of the puts has one value, that of its kind. *)
Lemma puts_row {S} {HK : SkipprStore S} (s : S) p puts key v :
  slice_puts pipeline s config_hash agg p = Ok puts → Forall (λ k, ∃ e, k = dedup_key pipeline (ta_id agg) e) (pd_dedup p) →
  (row_key pipeline (ta_id agg) key, v) ∈ puts → ∃ r, pd_rows p !! key = Some r ∧ row_to_vec r = Ok v.
Proof.
  intros Hp Hf Hin. destruct (slice_puts_kinds _ _ _ _ _ _ _ _ Hp Hin) as [[Hk _]|[(k & d & _ & Hm)|[(k & r & Hr & Hk & Hv)|[(k & r & e & _ & _ & Hk & _)|[Hk _]]]]].
  - kinds.
  - unfold measure_put in Hm. apply rbind_Ok in Hm as (? & _ & Hm). apply rbind_Ok in Hm as (? & _ & [=]).
  - apply slash_inj in Hk as ->. by exists r.
  - kinds.
  - rewrite Forall_forall in Hf. destruct (Hf _ Hk) as [e He]. kinds.
Qed.

Lemma puts_measure {S} {HK : SkipprStore S} (s : S) p puts key v :
  slice_puts pipeline s config_hash agg p = Ok puts → Forall (λ k, ∃ e, k = dedup_key pipeline (ta_id agg) e) (pd_dedup p) →
  (agg_key pipeline (ta_id agg) key, v) ∈ puts →
  ∃ d, pd_measures p !! key = Some d ∧ measure_put pipeline s (ta_id agg) (key, d) = Ok (agg_key pipeline (ta_id agg) key, v).
Proof.
  intros Hp Hf Hin. destruct (slice_puts_kinds _ _ _ _ _ _ _ _ Hp Hin) as [[Hk _]|[(k & d & Hd & Hm)|[(k & r & Hr & Hk & Hv)|[(k & r & e & _ & _ & Hk & _)|[Hk _]]]]].
  - kinds.
  - exists d. assert (k = key) as ->; [|done]. unfold measure_put in Hm. apply rbind_Ok in Hm as (? & _ & Hm). apply rbind_Ok in Hm as (? & _ & Hm).
    assert (agg_key pipeline (ta_id agg) k = agg_key pipeline (ta_id agg) key) as Hk by (cbn [fst] in Hm; congruence). by apply slash_inj in Hk.
  - kinds.
  - kinds.
  - rewrite Forall_forall in Hf. destruct (Hf _ Hk) as [e He]. kinds.
Qed.

Lemma puts_entity {S} {HK : SkipprStore S} (s : S) p puts e v :
  slice_puts pipeline s config_hash agg p = Ok puts → Forall (λ k, ∃ e, k = dedup_key pipeline (ta_id agg) e) (pd_dedup p) →
  (entity_key_bytes pipeline (ta_id agg) e, v) ∈ puts → ∃ r, pd_rows p !! v = Some r ∧ entity_identity agg r = Some e.
Proof.
  intros Hp Hf Hin. destruct (slice_puts_kinds _ _ _ _ _ _ _ _ Hp Hin) as [[Hk _]|[(k & d & _ & Hm)|[(k & r & Hr & Hk & Hv)|[(k & r & e' & Hr & He & Hk & ->)|[Hk _]]]]].
  - kinds.
  - unfold measure_put in Hm. apply rbind_Ok in Hm as (? & _ & Hm). apply rbind_Ok in Hm as (? & _ & [=]).
  - kinds.
  - apply slash_inj in Hk as ->. by exists r.
  - rewrite Forall_forall in Hf. destruct (Hf _ Hk) as [e' He]. kinds.
Qed.

Lemma puts_dedup {S} {HK : SkipprStore S} (s : S) p puts id v :
  slice_puts pipeline s config_hash agg p = Ok puts → (dedup_key pipeline (ta_id agg) id, v) ∈ puts →
  dedup_key pipeline (ta_id agg) id ∈ pd_dedup p.
Proof.
  intros Hp Hin. destruct (slice_puts_kinds _ _ _ _ _ _ _ _ Hp Hin) as [[Hk _]|[(k & d & _ & Hm)|[(k & r & Hr & Hk & Hv)|[(k & r & e' & Hr & He & Hk & ->)|[Hk _]]]]].
  - kinds.
  - unfold measure_put in Hm. apply rbind_Ok in Hm as (? & _ & Hm). apply rbind_Ok in Hm as (? & _ & [=]).
  - kinds.
  - kinds.
  - done.
Qed.

Lemma puts_members {S} {HK : SkipprStore S} (s : S) p puts :
  slice_puts pipeline s config_hash agg p = Ok puts →
  (∀ key r, pd_rows p !! key = Some r → ∃ bs, row_to_vec r = Ok bs ∧ (row_key pipeline (ta_id agg) key, bs) ∈ puts) ∧
  (∀ key d, pd_measures p !! key = Some d → ∃ bs, measure_put pipeline s (ta_id agg) (key, d) = Ok (agg_key pipeline (ta_id agg) key, bs) ∧
     (agg_key pipeline (ta_id agg) key, bs) ∈ puts) ∧
  (∀ k, k ∈ pd_dedup p → (k, str "1") ∈ puts).
Proof.
  unfold slice_puts. intros (meta & _ & H)%rbind_Ok. apply rbind_Ok in H as (ms & Hms%rtraverse_Ok & H).
  apply rbind_Ok in H as (rows & Hrows%rtraverse_Ok & [= <-]). split_and!.
  - intros key r Hr%sorted_entries_elem. apply list_elem_of_lookup in Hr as [i Hi].
    destruct (Forall2_lookup_l _ _ _ _ _ Hrows Hi) as (l & Hl & Hput). unfold row_puts in Hput. apply rbind_Ok in Hput as (bs & Hbs & [= <-]).
    exists bs. split; [done|]. right. apply elem_of_app. right. apply elem_of_app. left.
    apply list_elem_of_In, in_concat. eexists. split; [apply list_elem_of_In; by eapply list_elem_of_lookup_2|]. by left.
  - intros key d Hd%sorted_entries_elem. apply list_elem_of_lookup in Hd as [i Hi].
    destruct (Forall2_lookup_l _ _ _ _ _ Hms Hi) as ([k bs] & Hl & Hput). assert (k = agg_key pipeline (ta_id agg) key) as ->.
    { unfold measure_put in Hput. apply rbind_Ok in Hput as (? & _ & Hput). apply rbind_Ok in Hput as (? & _ & Hput). cbn [fst] in Hput. congruence. }
    exists bs. split; [done|]. right. apply elem_of_app. left. by eapply list_elem_of_lookup_2.
  - intros k Hk. right. apply elem_of_app. right. apply elem_of_app. right. apply list_elem_of_fmap. by exists k.
Qed.

Notation put_all puts m := (apply_kv_ops ((λ kv, KvPut (family_key StreamState kv.1) kv.2) <$> puts) m).

Lemma puts_some puts : ∀ m k v,
  put_all puts m !! family_key StreamState k = Some v → (k, v) ∈ puts ∨ m !! family_key StreamState k = Some v.
Proof.
  induction puts as [|[k' v'] puts IH]; intros m k v; [auto|]. csimpl. unfold apply_kv_ops. cbn [foldl apply_kv_op]. intros H.
  apply IH in H as [H|H]; [left; by right|]. apply lookup_insert_Some in H as [[E ->]|[_ H]]; [|auto].
  apply family_key_stream_inj in E as ->. left. by left.
Qed.

Lemma puts_is_Some puts m k : k ∈ puts.*1 ∨ is_Some (m !! family_key StreamState k) → is_Some (put_all puts m !! family_key StreamState k).
Proof.
  intros Hor. destruct (decide (k ∈ puts.*1)) as [Hin|Hni]; [|rewrite puts_other by done; tauto]. clear Hor.
  revert m. induction puts as [|[k' v'] puts IH] using rev_ind; intros m; [by apply elem_of_nil in Hin|].
  rewrite fmap_app. unfold apply_kv_ops. rewrite foldl_app. simpl. destruct (decide (k = k')) as [->|Hne]; [rewrite lookup_insert_eq; by eexists|].
  rewrite lookup_insert_ne by (intros E%family_key_stream_inj; by apply Hne). apply IH. rewrite fmap_app in Hin.
  apply elem_of_app in Hin as [Hin|Hin]; [done|]. apply list_elem_of_singleton in Hin. done.
Qed.

(** The writes of a slice stand for the table after it. *)
Lemma slice_puts_stands m t0 p t puts :
  stands m t0 → pending_stands t0 p t → Forall (λ k, ∃ e, k = dedup_key pipeline (ta_id agg) e) (pd_dedup p) →
  slice_puts pipeline (holding m) config_hash agg p = Ok puts → stands (put_all puts m) t.
Proof.
  intros Hs Hp Hf Hputs. destruct (puts_members _ _ _ Hputs) as (Hrows & Hms & Hdd).
  assert (∀ key r, pd_rows p !! key = Some r → image_of key (group t key) r) as Himg.
  { intros key r Hr. pose proof (ps_rows _ _ _ Hp key) as H. by rewrite Hr in H. }
  split.
  - intros key. pose proof (ps_rows _ _ _ Hp key) as Hr. destruct (pd_rows p !! key) as [image|] eqn:Er.
    + destruct (Hrows _ _ Er) as (bs & Hbs & Hin). rewrite (puts_lookup _ _ _ bs Hin).
      * exists image. split; [|done]. apply row_roundtrip; [done|]. destruct (group t key) as [|row l]; simpl in Hr; [subst; apply map_Forall_empty|].
        destruct Hr as (-> & Hk & _). by apply (known_integral rows_ok).
      * intros v' Hv'. destruct (puts_row _ _ _ _ _ Hputs Hf Hv') as (r & Hr' & Hv). congruence.
    + rewrite puts_other; [rewrite Hr; apply (st_rows _ _ Hs)|]. intros ([k v] & Ek & Hin)%list_elem_of_fmap. simpl in Ek. subst k.
      destruct (puts_row _ _ _ _ _ Hputs Hf Hin) as (r & Hr' & _). congruence.
  - intros key. pose proof (ps_measures _ _ _ Hp key) as (Hslot & Hnone & Hall). destruct (st_measures _ _ Hs key) as (slot & Hl & Hsl).
    assert (∀ name ms, ta_measures agg !! name = Some ms → small (total t0 key ms) ∧ small (total t key ms - total t0 key ms) ∧ small (total t0 key ms + (total t key ms - total t0 key ms))) as Hsm.
    { intros name ms Hm. pose proof (st_range _ _ Hs key name ms Hm). pose proof (ps_range _ _ _ Hp key name ms Hm). unfold small. lia. }
    unfold load_measures. rewrite get_raw_holding. cbn [rbind]. destruct (pd_measures p !! key) as [d|] eqn:Ed.
    + destruct (Hms _ _ Ed) as (bs & Hput & Hin). rewrite (puts_lookup _ _ _ bs Hin).
      * unfold measure_put in Hput. cbn [fst snd] in Hput. rewrite Hl in Hput. cbn [rbind] in Hput. apply rbind_Ok in Hput as (bs' & Hbs & Hb).
        assert (bs' = bs) as -> by congruence. simpl in Hslot.
        pose proof (merge_measures_is slot d _ _ Hsl Hslot (Hall d eq_refl) Hsm) as Hmg.
        exists (merge_measures slot d). split; [apply measures_roundtrip; [done|]; eapply slot_finite; [exact Hmg|]; intros name ms Hm; by apply (Hsm name ms)|].
        destruct Hmg as [Hn Hv]. split; [done|]. intros name ms Hm. rewrite (Hv name ms Hm). f_equal. lia.
      * intros v' Hv'. destruct (puts_measure _ _ _ _ _ Hputs Hf Hv') as (d' & Hd' & Hput'). rewrite Ed in Hd'. injection Hd' as <-. congruence.
    + rewrite puts_other; [|intros ([k v] & Ek & Hin)%list_elem_of_fmap; simpl in Ek; subst k; destruct (puts_measure _ _ _ _ _ Hputs Hf Hin) as (d' & Hd' & _); congruence].
      exists slot. split; [exact Hl|]. destruct Hsl as [Hn Hv]. split; [done|]. intros name ms Hm. rewrite (Hv name ms Hm). f_equal.
      specialize (Hnone eq_refl name ms Hm). lia.
  - intros e key [Hin|Hm]%puts_some; [|by apply (st_entities _ _ Hs)]. destruct (puts_entity _ _ _ _ _ Hputs Hf Hin) as (r & Hr & He).
    specialize (Himg _ _ Hr). destruct (group t key) as [|row l]; simpl in Himg.
    + subst r. by vm_compute in He.
    + destruct Himg as (-> & Hk & Hkey). by exists row.
  - intros id Hid. rewrite (ps_dedup _ _ _ Hp id Hid). rewrite <- (st_dedup _ _ Hs id Hid). split.
    + intros [v [Hin|Hm]%puts_some]; [right; by eapply puts_dedup|left; by exists v].
    + intros [Hm|Hin]; apply puts_is_Some; [by right|left]. apply list_elem_of_fmap. exists (dedup_key pipeline (ta_id agg) id, str "1"). split; [done|by apply Hdd].
  - apply (ps_range _ _ _ Hp).
Qed.

Lemma plan_events_stands m t c batch cdc evs ops c' :
  stands m t → slice_events batch cdc evs → wf_events t evs →
  plan_events pipeline (holding m) config_hash agg c batch cdc 0 = Ok (ops, c') →
  stands (apply_kv_ops ops m) (foldl spec_event t evs).
Proof.
  intros Hs He Hwf. unfold plan_events. rewrite Nat.sub_0_r.
  destruct (apply_rows_stands m t batch cdc _ _ He (pending_start c) t Hs (pending_stands_start _ _ (st_range _ _ Hs)) Hwf) as (p & Hp & Hps).
  rewrite Hp. cbn [rbind]. intros (puts & Hputs & [= <- <-])%rbind_Ok. apply (slice_puts_stands m t p); [done|done| |done].
  eapply (pending_dedup_kind pipeline agg); [exact Hp|]. constructor.
Qed.

Lemma wf_events_app evs1 evs2 : ∀ t, wf_events t (evs1 ++ evs2) ↔ wf_events t evs1 ∧ wf_events (foldl spec_event t evs1) evs2.
Proof. induction evs1 as [|ev evs1 IH]; intros t; simpl; [tauto|]. rewrite IH. tauto. Qed.

(** The events of slices, in order. *)
Definition slices_events (sls : list (Slice RB)) (evs : list event) : Prop :=
  ∃ evss, Forall2 (λ sl evs, slice_events (sl_batch sl) (sl_cdc sl) evs) sls evss ∧ evs = concat evss.

Lemma once_slices_stands row sls evss : Forall2 (λ sl evs, slice_events (sl_batch sl) (sl_cdc sl) evs) sls evss →
  ∀ m c t m' c', stands m t → wf_events t (concat evss) → rfold (once_slice pipeline config_hash agg row) (m, c) sls = Ok (m', c') →
  stands m' (foldl spec_event t (concat evss)).
Proof.
  induction 1 as [|sl evs sls evss He _ IH]; intros m c t m' c' Hs Hwf; cbn [rfold concat]; [by intros [= <- <-]|].
  intros ([m1 c1] & H1 & H2)%rbind_Ok. cbn [concat] in Hwf. apply wf_events_app in Hwf as [Hw1 Hw2]. rewrite foldl_app.
  eapply IH; [|exact Hw2|exact H2]. unfold once_slice in H1. destruct (Nat.eqb_spec (batch_len (sl_batch sl)) 0) as [Hz|Hnz].
  - injection H1 as <- <-. unfold slice_events in He. rewrite Hz in He. apply Forall2_nil_inv_l in He as ->. done.
  - apply rbind_Ok in H1 as ([ops c2] & Hpl & [= <- <-]). by eapply plan_events_stands.
Qed.

Lemma once_stands log : ∀ evs m t m',
  slices_events (concat (lg_slices <$> log)) evs → stands m t → wf_events t evs → once pipeline config_hash agg log m = Ok m' →
  stands m' (foldl spec_event t evs).
Proof.
  induction log as [|seg log IH]; intros evs m t m' (evss & Hf & ->) Hs Hwf.
  { csimpl in Hf. apply Forall2_nil_inv_l in Hf as ->. intros [= <-]. done. }
  csimpl in Hf. apply Forall2_app_inv_l in Hf as (e1 & e2 & Hf1 & Hf2 & ->). rewrite concat_app in *. apply wf_events_app in Hwf as [Hw1 Hw2].
  unfold once. cbn [rfold]. intros (m1 & H1 & H2)%rbind_Ok. rewrite foldl_app. eapply IH; [by exists e2| |exact Hw2|exact H2].
  unfold once_segment in H1. apply rbind_Ok in H1 as ([m2 c2] & H1 & [= <-]). by eapply once_slices_stands.
Qed.

Definition empty_table : Table := {| t_live := ∅; t_seen := ∅ |}.

Lemma empty_stands : stands ∅ empty_table.
Proof.
  assert (∀ key, group empty_table key = []) as Hg by (intros key; unfold group; simpl; by rewrite lookup_empty).
  assert (∀ key ms, total empty_table key ms = 0%Z) as Ht by (intros key ms; unfold total; by rewrite Hg).
  split.
  - intros key. rewrite lookup_empty. apply Hg.
  - intros key. exists ∅. unfold load_measures. rewrite get_raw_holding, lookup_empty. cbn [rbind]. split; [done|].
    apply slot_is_empty. intros. apply Ht.
  - intros e key. by rewrite lookup_empty.
  - intros id _. rewrite lookup_empty. simpl. rewrite elem_of_empty. split; [by intros []|done].
  - intros key name ms _. rewrite Ht. lia.
Qed.

End View.

(** ** A concrete processor *)

Module ProcessorExample.

(** Integers, and one number that is not finite. *)
Definition num : Type := option Z.

Definition lift2 (f : Z → Z → Z) (a b : num) : num := x ← a; y ← b; Some (f x y).

#[local] Instance num_float : Float64 num := {|
  f_add := lift2 Z.add; f_sub := lift2 Z.sub; f_mul := lift2 Z.mul;
  f_zero := Some 0%Z; f_one := Some 1%Z; f_minus_one := Some (-1)%Z;
  f_finite x := bool_decide (is_Some x);
  number_from_f64 x := (λ z, if (0 <=? z)%Z then PosInt (Z.to_N z) else NegInt z) <$> x;
  as_f64 n := match n with PosInt n => Some (Some (Z.of_N n)) | NegInt z => Some (Some z) | Float _ => None end;
  parse_f64 s := if bool_decide (s = str "inf") then Some None else (λ n, Some (Z.of_N n)) <$> parse_N U64_MAX s
|}.

#[local] Instance num_laws : FloatLaws num.
Proof. refine (Build_FloatLaws num _ Some _ _ _ _ _ _ _); try done; intros a b _ _ _; simpl; f_equal; lia. Defined.

(** The values of a row that are not arrays or objects. *)
Definition code : Type := option (bool + (N + (Z + (bytes + bytes)))).
Definition value_code (v : Value) : option code :=
  match v with
  | Null => Some None
  | Bool b => Some (Some (inl b))
  | Number (PosInt n) => Some (Some (inr (inl n)))
  | Number (NegInt z) => Some (Some (inr (inr (inl z))))
  | Number (Float t) => Some (Some (inr (inr (inr (inl t)))))
  | JString t => Some (Some (inr (inr (inr (inr t)))))
  | _ => None
  end.
Definition code_value (c : code) : Value :=
  match c with
  | None => Null
  | Some (inl b) => Bool b
  | Some (inr (inl n)) => Number (PosInt n)
  | Some (inr (inr (inl z))) => Number (NegInt z)
  | Some (inr (inr (inr (inl t)))) => Number (Float t)
  | Some (inr (inr (inr (inr t)))) => JString t
  end.

Lemma code_value_code v c : value_code v = Some c → code_value c = v.
Proof. destruct v as [|b|[]| | |]; simpl; intros [= <-]; done. Qed.

Definition row_bytes (r : Row) : result bytes bytes :=
  if bool_decide (map_Forall (λ _ v, is_Some (value_code v)) r)
  then Ok (pos_bytes (encode (omap value_code r : gmap bytes code))) else Err (str "nested").

Definition bytes_row (bs : bytes) : result bytes Row :=
  let? r := ok_or (str "row") (decode (bytes_pos bs) : option (gmap bytes code)) in Ok (code_value <$> r).

#[local] Program Instance num_json : ProcessorJson num := {|
  measures_to_vec mm := Ok (pos_bytes (encode mm));
  measures_from_slice bs :=
    let? mm := ok_or (str "measures") (decode (bytes_pos bs) : option (gmap bytes num)) in
    if bool_decide (map_Forall (λ _ x, f_finite x = true) mm) then Ok mm else Err (str "invalid type: null, expected f64");
  row_to_vec := row_bytes;
  row_from_slice := bytes_row;
  value_to_string := compact
|}.
Next Obligation. intros mm bs [= <-] Hf. rewrite bytes_pos_bytes, decode_encode. cbn [ok_or rbind]. by rewrite bool_decide_true. Qed.
Next Obligation. intros mm bs [= <-] Hf. rewrite bytes_pos_bytes, decode_encode. cbn [ok_or rbind]. by rewrite bool_decide_false. Qed.
Next Obligation.
  intros r bs Hr _. unfold row_bytes in Hr. case_bool_decide as Hf; [|done]. injection Hr as <-. unfold bytes_row.
  rewrite bytes_pos_bytes, decode_encode. cbn [ok_or rbind]. f_equal. apply map_eq. intros k. rewrite lookup_fmap, lookup_omap.
  destruct (r !! k) as [v|] eqn:E; [|done]. destruct (Hf k v E) as [c Hc]. simpl. rewrite Hc. simpl. f_equal. by apply code_value_code.
Qed.

#[global] Instance WalCursor_countable : Countable WalCursor.
Proof.
  apply (inj_countable' (λ c, (wc_seq c, wc_segment_id c, wc_slice_ordinal c, wc_row_index c))
    (λ '(a, b, c, d), {| wc_seq := a; wc_segment_id := b; wc_slice_ordinal := c; wc_row_index := d |})). by intros [].
Defined.
#[global] Instance ProcessorMeta_eq_dec : EqDecision ProcessorMeta.
Proof. solve_decision. Defined.
#[global] Instance ProcessorMeta_countable : Countable ProcessorMeta.
Proof.
  apply (inj_countable' (λ c, (pm_cursor c, pm_config_hash c)) (λ '(a, b), {| pm_cursor := a; pm_config_hash := b |})). by intros [].
Defined.
#[local] Instance proc_codec : Codec ProcessorMeta := countable_codec.

(** Batches of text and integer columns. *)
Definition col : Type := list bytes + list Z.
Definition frame : Type := list (bytes * col).

#[local] Instance frame_arrow : RowArrow frame col num := {|
  batch_len b := match b with (_, inl l) :: _ => length l | (_, inr l) :: _ => length l | [] => 0 end;
  batch_fields b := b;
  col_type c := match c with inl _ => TUtf8 | inr _ => TInt64 end;
  col_is_null _ _ := false;
  col_str _ c := match c with inl l => Some (λ i, default [] (l !! i)) | inr _ => None end;
  col_int _ c := match c with inr l => Some (λ i, default 0%Z (l !! i)) | inl _ => None end;
  col_float _ _ := None;
  col_bool _ := None;
  read_stream bs := ok_or (str "stream") (decode (bytes_pos bs));
  concat_batches _ := Err (str "one batch")
|}.

Definition frame_of (customers : list bytes) (amounts : list Z) (invoices : list bytes) : frame :=
  [(str "amount", inr amounts); (str "customer", inl customers); (str "invoice", inl invoices)].

Definition totals (key : bytes) (id : bytes) : TransformAggregate := {|
  ta_id := id; ta_key_fields := [key];
  ta_measures := {[ str "total" := {| am_sum := Some (str "amount"); am_count := None |} ]}
|}.

Definition event_meta (kind : MutationKind) (id : bytes) : WalRowMeta := {| mutation := kind; event_id := id; order_token := id |}.

Definition at_one : WalCursor := {| wc_seq := 1; wc_segment_id := str "aa"; wc_slice_ordinal := 0; wc_row_index := 0 |}.

Definition fresh : Stream MemoryInner := {| st_store := Memory_open CatalogFence_local; st_hold := U64_MAX |}.

Definition apply_frame (agg : TransformAggregate) (b : frame) (cdc : list WalRowMeta) (s : Stream MemoryInner)
    : result bytes WalCursor * Stream MemoryInner :=
  apply_events CatalogFence_local (str "p") (str "h") agg at_one b (Some cdc) 0 s.

Definition total_of (s : Stream MemoryInner) (id key : bytes) : result bytes num :=
  measure (str "p") (st_store s) id key (str "total").

Definition three_events : list WalRowMeta := [event_meta Insert (str "e1"); event_meta Insert (str "e2"); event_meta Update (str "e3")].

(** Two invoices of one customer; the first is corrected from 100 to 120. *)
Definition shared_key : result bytes WalCursor * Stream MemoryInner :=
  apply_frame (totals (str "customer") (str "t")) (frame_of [str "A"; str "A"; str "A"] [100; 50; 120]%Z [str "1"; str "2"; str "1"]) three_events fresh.

(** Two invoices with the same leftover column; the first is corrected from 100 to 120. *)
Definition shared_leftover : result bytes WalCursor * Stream MemoryInner :=
  apply_frame (totals (str "invoice") (str "t")) (frame_of [str "A"; str "A"; str "A"] [100; 50; 120]%Z [str "1"; str "2"; str "1"]) three_events fresh.


(** ** A log that is in order *)

Definition by_customer : TransformAggregate := totals (str "customer") (str "t").

(** Two insertions and a correction for one customer, one event delivered twice, no other columns. *)
Definition plain_frame : frame :=
  [(str "amount", inr [100; 120; 120; 50]%Z); (str "customer", inl [str "A"; str "A"; str "A"; str "A"])].
Definition plain_cdc : list WalRowMeta :=
  [event_meta Insert (str "e1"); event_meta Update (str "e2"); event_meta Update (str "e2"); event_meta Insert (str "e3")].

Definition row_at (i : nat) : Row := match row_values plain_frame i with Ok r => r | Err _ => ∅ end.
Definition plain_rows : list Row := row_at <$> [0; 1; 2; 3].

Definition amount (ms : AggregateMeasure) (row : Row) : Z :=
  match am_count ms, row !! str "amount" with
  | None, Some (Number (PosInt n)) => Z.of_N n
  | Some _, _ => 1
  | _, _ => 0
  end%Z.

Definition plain_known (r : Row) : Prop := r ∈ plain_rows.

Lemma plain_forall (P : Row → Prop) : P (row_at 0) → P (row_at 1) → P (row_at 2) → P (row_at 3) → ∀ r, plain_known r → P r.
Proof.
  intros H0 H1 H2 H3 r Hr. unfold plain_known, plain_rows in Hr. cbn [fmap list_fmap] in Hr.
  repeat (apply elem_of_cons in Hr as [->|Hr]; [assumption|]). by apply elem_of_nil in Hr.
Qed.

Lemma plain_measure name ms : ta_measures by_customer !! name = Some ms → ms = {| am_sum := Some (str "amount"); am_count := None |}.
Proof. unfold by_customer, totals. cbn [ta_measures]. intros [_ <-]%lookup_singleton_Some. done. Qed.

Lemma plain_ok : known_ok by_customer amount plain_known.
Proof.
  split.
  - intros row name ms Hk Hms. apply plain_measure in Hms as ->. revert row Hk.
    apply plain_forall; (split; [vm_compute; reflexivity|vm_compute; discriminate]).
  - intros row. revert row. apply plain_forall; (split; [|by intros E; apply (f_equal (λ r, r !! str "amount")) in E; vm_compute in E]).
    all: intros k v Hk; revert Hk; unfold row_at; cbn -[lookup insert]; rewrite !lookup_insert_Some, lookup_empty; naive_solver.
  - intros r1 r2 e H1 _ He. exfalso. revert He. revert r1 H1. apply (plain_forall (λ r, entity_identity by_customer r = Some e → False)); vm_compute; discriminate.
Qed.

Definition plain_events : list event := zip (Some <$> plain_cdc) plain_rows.

Lemma row_at_ok i : is_ok (row_values plain_frame i) = true → row_values plain_frame i = Ok (row_at i).
Proof. unfold row_at. by destruct (row_values plain_frame i). Qed.

Lemma plain_slice : slice_events plain_frame (Some plain_cdc) plain_events.
Proof.
  unfold slice_events, plain_events, plain_rows, plain_cdc. change (seq 0 (batch_len plain_frame)) with [0; 1; 2; 3].
  cbn [fmap list_fmap zip zip_with]. repeat (apply Forall2_cons; split; [split; [reflexivity|apply row_at_ok; reflexivity]|]). apply Forall2_nil.
  done.
Qed.

Lemma one_key_range t : (∀ key, key ≠ str "A" → t_live t !! key = None) →
  (Z.abs (total amount t (str "A") {| am_sum := Some (str "amount"); am_count := None |}) <=? 2 ^ 52)%Z = true → in_range by_customer amount t.
Proof.
  intros Hn Hle key name ms Hms. apply plain_measure in Hms as ->. apply Z.leb_le in Hle.
  destruct (decide (key = str "A")) as [->|Hne]; [done|]. unfold total, group. rewrite Hn by done. simpl. lia.
Qed.

Definition only_A (t : Table) : Prop := ∀ key, key ≠ str "A" → t_live t !! key = None.

Lemma only_A_step t ev : only_A t → encode_key (ta_key_fields by_customer) ev.2 = str "A" → only_A (spec_event by_customer t ev).
Proof.
  intros Ht Hk key Hne. unfold spec_event. case_decide; [by apply Ht|]. cbn [t_live]. rewrite Hk, lookup_insert_ne by done. by apply Ht.
Qed.

Lemma plain_wf : wf_events by_customer amount plain_known empty_table plain_events.
Proof.
  assert (only_A empty_table) as H0 by (intros key _; apply lookup_empty).
  unfold plain_events, plain_rows, plain_cdc. cbn [fmap list_fmap zip zip_with wf_events].
  set (e1 := (Some (event_meta Insert (str "e1")), row_at 0)). set (e2 := (Some (event_meta Update (str "e2")), row_at 1)).
  set (e2' := (Some (event_meta Update (str "e2")), row_at 2)). set (e3 := (Some (event_meta Insert (str "e3")), row_at 3)).
  assert (only_A (spec_event by_customer empty_table e1)) as H1 by (apply only_A_step; [done|reflexivity]).
  assert (only_A (spec_event by_customer (spec_event by_customer empty_table e1) e2)) as H2 by (apply only_A_step; [done|reflexivity]).
  assert (only_A (spec_event by_customer (spec_event by_customer (spec_event by_customer empty_table e1) e2) e2')) as H3 by (apply only_A_step; [done|reflexivity]).
  assert (only_A (spec_event by_customer (spec_event by_customer (spec_event by_customer (spec_event by_customer empty_table e1) e2) e2') e3)) as H4
    by (apply only_A_step; [done|reflexivity]).
  assert (∀ i, i ∈ [0; 1; 2; 3] → plain_known (row_at i)) as Hk by (intros i Hi; by apply list_elem_of_fmap_2).
  split; [split_and!; [apply Hk; set_solver|apply one_key_range; [exact H1|vm_compute; reflexivity]|intros _ [[=]|[=]]]|].
  split; [split_and!; [apply Hk; set_solver|apply one_key_range; [exact H2|vm_compute; reflexivity]|intros _ _; eexists; reflexivity]|].
  split; [split_and!; [apply Hk; set_solver|apply one_key_range; [exact H3|vm_compute; reflexivity]|]|].
  { intros Hn. exfalso. apply Hn. split; [discriminate|]. refine (bool_decide_eq_true_1 _ _). vm_compute. reflexivity. }
  split; [split_and!; [apply Hk; set_solver|apply one_key_range; [exact H4|vm_compute; reflexivity]|intros _ [[=]|[=]]]|done].
Qed.

Definition seg_row (path : bytes) : SegmentRow := {|
  sr_segment_id := {| segment_id_str := str "aa" |}; sr_seq := {| seq_get := 1 |}; sr_location := CatalogRow.Disk path;
  sr_payload_len := 0; sr_payload_sha256 := []; sr_slice_count := 1; sr_done := SliceBitmap_new 1; sr_offsets := [];
  sr_checkpoints := []; sr_epoch := fence_epoch CatalogFence_local; sr_version := 0
|}.

Definition plain_log : list (LogSegment frame) :=
  [{| lg_row := seg_row (str "/d"); lg_bytes := [];
      lg_slices := [{| sl_ordinal := 0; sl_batch := plain_frame; sl_cdc := Some plain_cdc |}] |}].


(** ** A segment in the log *)

Import WalExample.
#[local] Existing Instances demo_digest demo_key_codec demo_meta_codec demo_offsets_codec envelope_codec row_codec bucket_objects.

#[local] Instance frame_ipc : ArrowIpc frame unit := {|
  num_rows b := N.of_nat (batch_len b);
  array_memory_size _ := 9%N;
  batch_schema _ := tt;
  ipc_stream _ bs := Ok (pos_bytes (encode bs))
|}.

Definition plain_blob : bytes := pos_bytes (encode {| pm_kind := PartCdc; pm_row_count := 4; pm_rows := plain_cdc |}).

Definition persist_plain : result failure SegmentWriteResult * log :=
  persist_segment (RB := frame) display enospc no_faults whole dirs CatalogFence_local 9 (str "aa") ∅
    {[ demo_key (str "a") := ArrowPayload [plain_frame] ]} ∅ {[ demo_key (str "a") := plain_blob ]} ∅ 1000000000 start.

Notation proc := (Proc (S := MemoryInner) (W := MapWorld) (B := gmap (bytes * bytes) bytes)).

Definition process (aggs : list TransformAggregate) (p : proc) : result proc_error N * proc :=
  process_available display no_faults CatalogFence_local (str "p") (str "h") 9 no_others aggs p.

Definition start_processor (aggs : list TransformAggregate) (h : log) : proc :=
  (on_state (ensure_config CatalogFence_local (str "p") aggs (str "h")) {| pr_handle := h; pr_hold := U64_MAX |}).2.

(** The segment on the disk. *)
Definition plain_row : SegmentRow := default (seg_row []) (demo_row persist_plain.2).
Definition disk_path (l : PayloadLocation) : bytes := match l with CatalogRow.Disk path => path | S3 _ _ => [] end.
Definition plain_path : bytes := disk_path (sr_location plain_row).
Definition plain_bytes : bytes := default [] (files persist_plain.2 !! plain_path).
Definition plain_seg : LogSegment frame := {|
  lg_row := plain_row; lg_bytes := plain_bytes;
  lg_slices := [{| sl_ordinal := 0; sl_batch := plain_frame; sl_cdc := Some plain_cdc |}]
|}.

Lemma plain_located : sr_location plain_row = CatalogRow.Disk plain_path.
Proof. vm_compute. reflexivity. Qed.

Lemma plain_on_disk : files persist_plain.2 !! plain_path = Some plain_bytes.
Proof.
  unfold plain_bytes. destruct (files _ !! plain_path) as [bs|] eqn:E; [reflexivity|].
  assert (is_Some (files persist_plain.2 !! plain_path)) as Hs by (refine (bool_decide_eq_true_1 _ _); vm_compute; reflexivity).
  rewrite E in Hs. destruct Hs as [? [=]].
Qed.

Definition index_of (bs : bytes) : list SegmentPartitionIndexEntry :=
  match read_metadata_from_bytes bs with Ok (Some m) => sm_index m | _ => [] end.

Definition no_entry : SegmentPartitionIndexEntry := {|
  ie_key := demo_key []; ie_bytes := 0; ie_updated_at_secs := 0; ie_slice_ordinal := 0; ie_part_meta_start := 0;
  ie_part_meta_len := 0; ie_part_meta_summary := SumAppend; ie_codec := 0; ie_start := 0; ie_len := 0
|}.
Definition plain_entry : SegmentPartitionIndexEntry := default no_entry (head (index_of plain_bytes)).

Lemma plain_readable : readable (F := num) plain_seg.
Proof.
  split; [exists plain_path; exact plain_located|]. unfold plain_seg. cbn [lg_bytes lg_slices].
  assert (match read_metadata_from_bytes plain_bytes with Ok (Some _) => true | _ => false end = true) as Hr by (vm_compute; reflexivity).
  destruct (read_metadata_from_bytes plain_bytes) as [[meta|]|] eqn:E; [|discriminate Hr|discriminate Hr]. exists meta. split; [reflexivity|].
  assert (sm_index meta = index_of plain_bytes) as -> by (unfold index_of; by rewrite E). clear E meta Hr.
  assert (index_of plain_bytes = [plain_entry]) as -> by (vm_compute; reflexivity).
  replace 0%N with (ie_slice_ordinal plain_entry) by (vm_compute; reflexivity).
  apply reads_slice; [vm_compute; reflexivity|vm_compute; reflexivity|vm_compute; reflexivity|constructor].
Qed.

Definition plain_start : proc := {| pr_handle := persist_plain.2; pr_hold := 0 |}.

Definition plain_run : result proc_error N * proc :=
  process_rows display no_faults CatalogFence_local (str "p") (str "h") 9 no_others by_customer [plain_row] 0 plain_start.

Lemma plain_numbered : (0 < seg_seq plain_row)%N ∧ seg_id plain_row ≠ [].
Proof. split; [vm_compute; reflexivity|]. vm_compute. discriminate. Qed.

Lemma no_state_before rest : pstore plain_start !! family_key StreamState rest = None.
Proof.
  destruct (pstore plain_start !! _) as [v|] eqn:E; [exfalso|reflexivity].
  assert (map_Forall (λ k _, family_rest StreamState k = None) (pstore plain_start)) as Hf
    by (refine (bool_decide_eq_true_1 _ _); vm_compute; reflexivity).
  specialize (Hf _ _ E). unfold family_rest, family_key in Hf. by rewrite strip_prefix_app in Hf.
Qed.

Lemma disk_path_inj l p q : l = CatalogRow.Disk p → l = CatalogRow.Disk q → p = q.
Proof. by intros -> [= ->]. Qed.


(** ** Two aggregates *)

Definition also_by_customer : TransformAggregate := totals (str "customer") (str "u").
Definition both : list TransformAggregate := [by_customer; also_by_customer].

(** Both aggregates are configured; then the slice of the segment is acknowledged, which the
    hold keeps from being reclaimed. *)
Definition configured : proc := start_processor both persist_plain.2.
Definition acknowledged : result failure bool * log :=
  complete_slices_and_reclaim no_faults CatalogFence_local (pr_hold configured) no_others (str "aa") [0%N] (pr_handle configured).
Definition waiting : proc := {| pr_handle := acknowledged.2; pr_hold := pr_hold configured |}.

Definition both_run : result proc_error N * proc := process both waiting.
Definition both_rerun : result proc_error N * proc := process both both_run.2.

Definition total_in (p : proc) (id : bytes) : result bytes num :=
  measure (str "p") (catalog_of (pr_handle p)) id (str "A") (str "total").

End ProcessorExample.
