(* ===== verification/CompactionIndex.v ===== *)
(** * CompactionIndex: which slices of the log are compacted next

    Models src/buffer/compaction_index.rs.  The index keeps every slice that is not yet
    compacted in one of four states: waiting for more bytes or age, ready, reserved by a
    worker, or fenced by a manifest in flight.  Ready slices sit in priority queues per
    group and per lane; a plan takes whole groups from the lane that was served least
    recently.  All the queues, sets and counters are determined by the states of the slices:
    that is the invariant.

    Counters of elements ([len], [remaining], [ready_count]) are naturals: they count what
    is in memory, where [saturating_add] is addition.  Tickets, generations and times keep
    their saturating 64-bit arithmetic.  [iter_slices] is the order in which a hash map of
    slices iterates. *)

From S2P Require Import Prelude Bytes Text SegmentFile SourceContract WalSlice.

(** ** Derived orders

    [#[derive(Ord)]]: fields compared from first to last. *)

Class Ord (A : Type) : Type := {
  cmp : A → A → comparison;
  cmp_Eq : ∀ x y, cmp x y = Eq ↔ x = y;
  cmp_opp : ∀ x y, cmp y x = CompOpp (cmp x y);
  cmp_Lt_trans : ∀ x y z, cmp x y = Lt → cmp y z = Lt → cmp x z = Lt
}.

#[global] Program Instance ord_N : Ord N := { cmp := N.compare }.
Next Obligation. apply N.compare_eq_iff. Qed.
Next Obligation. intros. apply N.compare_antisym. Qed.
Next Obligation. intros x y z. rewrite !N.compare_lt_iff. lia. Qed.

#[global] Program Instance ord_nat : Ord nat := { cmp := Nat.compare }.
Next Obligation. apply Nat.compare_eq_iff. Qed.
Next Obligation. intros. apply Nat.compare_antisym. Qed.
Next Obligation. intros x y z. rewrite !Nat.compare_lt_iff. lia. Qed.

Definition bytes_cmp (x y : bytes) : comparison :=
  if bytes_leb x y then (if bytes_leb y x then Eq else Lt) else Gt.

#[global] Program Instance ord_bytes : Ord bytes := { cmp := bytes_cmp }.
Next Obligation.
  intros x y. unfold bytes_cmp. split.
  - destruct (bytes_leb x y) eqn:H1; [|done]. destruct (bytes_leb y x) eqn:H2; [|done]. intros _.
    by apply (anti_symm bytes_le).
  - intros ->. by rewrite (reflexivity y : bytes_le y y).
Qed.
Next Obligation.
  intros x y. unfold bytes_cmp. destruct (total bytes_le x y) as [H|H]; unfold bytes_le in H; rewrite H;
    [destruct (bytes_leb y x)|destruct (bytes_leb x y)]; done.
Qed.
Next Obligation.
  intros x y z. unfold bytes_cmp. destruct (bytes_leb x y) eqn:H1; [|done]. destruct (bytes_leb y x) eqn:H2; [done|].
  destruct (bytes_leb y z) eqn:H3; [|done]. destruct (bytes_leb z y) eqn:H4; [done|]. intros _ _.
  rewrite (transitivity (H1 : bytes_le x y) (H3 : bytes_le y z) : bytes_le x z).
  destruct (bytes_leb z x) eqn:H5; [|done].
  by rewrite (transitivity (H5 : bytes_le z x) (H1 : bytes_le x y) : bytes_le z y) in H4.
Qed.

Definition lex (c d : comparison) : comparison := match c with Eq => d | _ => c end.

#[global] Program Instance ord_prod {A B} `{OA : Ord A, OB : Ord B} : Ord (A * B) :=
  { cmp x y := lex (cmp x.1 y.1) (cmp x.2 y.2) }.
Next Obligation.
  intros A B OA OB [a b] [c d]. simpl. destruct (cmp a c) eqn:H; simpl.
  - apply cmp_Eq in H as ->. rewrite cmp_Eq. naive_solver.
  - split; [done|]. intros [= -> ->]. by rewrite (proj2 (cmp_Eq c c) eq_refl) in H.
  - split; [done|]. intros [= -> ->]. by rewrite (proj2 (cmp_Eq c c) eq_refl) in H.
Qed.
Next Obligation.
  intros A B OA OB [a b] [c d]. simpl. rewrite (cmp_opp a c). destruct (cmp a c); simpl; [apply cmp_opp|done|done].
Qed.
Next Obligation.
  intros A B OA OB [a b] [c d] [e f]. simpl. destruct (cmp a c) eqn:H1; simpl; [|intros _|done].
  - apply cmp_Eq in H1 as ->. intros H2. destruct (cmp c e); simpl; [by apply cmp_Lt_trans|done|done].
  - destruct (cmp c e) eqn:H3; simpl; [|intros _|done].
    + apply cmp_Eq in H3 as <-. by rewrite H1.
    + by rewrite (cmp_Lt_trans _ _ _ H1 H3).
Qed.

(** A structure is ordered as the tuple of its fields. *)
Program Definition ord_by {A B} `{OB : Ord B} (f : A → B) (Hf : ∀ x y, f x = f y → x = y) : Ord A :=
  {| cmp x y := cmp (f x) (f y) |}.
Next Obligation. intros A B OB f Hf x y. rewrite cmp_Eq. split; [apply Hf|by intros ->]. Qed.
Next Obligation. intros. apply cmp_opp. Qed.
Next Obligation. intros A B OB f Hf x y z. apply cmp_Lt_trans. Qed.

(** The least element, as [BTreeSet::first] and [Iterator::min] return it. *)
Fixpoint least {A} `{OA : Ord A} (l : list A) : option A :=
  match l with
  | [] => None
  | x :: l' => match least l' with
               | None => Some x
               | Some y => match cmp y x with Lt => Some y | _ => Some x end
               end
  end.

(** ** Keys *)

Inductive CompactionKind : Type := CkAppend | CkCdc.

Record CompactionGroupKey : Type := {
  gk_sink_ref : bytes;
  gk_namespace : bytes;
  gk_partition : bytes;
  gk_time : option Z;
  gk_schema_fingerprint : bytes;
  gk_kind : CompactionKind
}.

Record CompactionLaneKey : Type := { lk_sink_ref : bytes; lk_namespace : bytes }.

Definition lane (g : CompactionGroupKey) : CompactionLaneKey :=
  {| lk_sink_ref := gk_sink_ref g; lk_namespace := gk_namespace g |}.

Record CompactionSliceId : Type := {
  si_segment_id : bytes;
  si_source_id : bytes;
  si_start : N;
  si_len : N
}.

Definition from_wal_ref (r : WalPartRef) : CompactionSliceId := {|
  si_segment_id := wr_segment_id r;
  si_source_id := stable_id (wr_source r);
  si_start := wr_start r;
  si_len := wr_len r
|}.

Record SegmentKey : Type := { sk_segment_id : bytes; sk_source_id : bytes }.

Record IndexedCompactionSlice : Type := {
  cs_id : CompactionSliceId;
  cs_group_key : CompactionGroupKey;
  cs_index_entry : SegmentPartitionIndexEntry;
  cs_wal_ref : WalPartRef
}.

Definition id_segment (id : CompactionSliceId) : SegmentKey :=
  {| sk_segment_id := si_segment_id id; sk_source_id := si_source_id id |}.

Definition segment_key (s : IndexedCompactionSlice) : SegmentKey := id_segment (cs_id s).

#[global] Instance CompactionKind_eq_dec : EqDecision CompactionKind.
Proof. solve_decision. Defined.
#[global] Instance CompactionKind_countable : Countable CompactionKind.
Proof.
  apply (inj_countable' (λ k, match k with CkAppend => true | CkCdc => false end)
    (λ b : bool, if b then CkAppend else CkCdc)). by intros [].
Defined.
#[global] Instance CompactionGroupKey_eq_dec : EqDecision CompactionGroupKey.
Proof. solve_decision. Defined.
#[global] Instance CompactionGroupKey_countable : Countable CompactionGroupKey.
Proof.
  apply (inj_countable' (λ g, (gk_sink_ref g, gk_namespace g, gk_partition g, gk_time g,
                               gk_schema_fingerprint g, gk_kind g))
    (λ '(a, b, c, d, e, f), Build_CompactionGroupKey a b c d e f)). by intros [].
Defined.
#[global] Instance CompactionLaneKey_eq_dec : EqDecision CompactionLaneKey.
Proof. solve_decision. Defined.
#[global] Instance CompactionLaneKey_countable : Countable CompactionLaneKey.
Proof.
  apply (inj_countable' (λ g, (lk_sink_ref g, lk_namespace g))
    (λ '(a, b), Build_CompactionLaneKey a b)). by intros [].
Defined.
#[global] Instance CompactionSliceId_eq_dec : EqDecision CompactionSliceId.
Proof. solve_decision. Defined.
#[global] Instance CompactionSliceId_countable : Countable CompactionSliceId.
Proof.
  apply (inj_countable' (λ i, (si_segment_id i, si_source_id i, si_start i, si_len i))
    (λ '(a, b, c, d), Build_CompactionSliceId a b c d)). by intros [].
Defined.
#[global] Instance SegmentKey_eq_dec : EqDecision SegmentKey.
Proof. solve_decision. Defined.
#[global] Instance SegmentKey_countable : Countable SegmentKey.
Proof.
  apply (inj_countable' (λ g, (sk_segment_id g, sk_source_id g))
    (λ '(a, b), Build_SegmentKey a b)). by intros [].
Defined.

#[global] Instance ord_lane : Ord CompactionLaneKey.
Proof. apply (ord_by (λ l, (lk_sink_ref l, lk_namespace l))). by intros [] [] [= -> ->]. Defined.
#[global] Instance ord_slice_id : Ord CompactionSliceId.
Proof.
  apply (ord_by (λ i, (si_segment_id i, (si_source_id i, (si_start i, si_len i))))).
  by intros [] [] [= -> -> -> ->].
Defined.
#[global] Instance ord_segment_key : Ord SegmentKey.
Proof. apply (ord_by (λ l, (sk_segment_id l, sk_source_id l))). by intros [] [] [= -> ->]. Defined.

(** ** Ready queues *)

Record QueueSliceKey : Type := { qk_updated_at_secs : N; qk_id : CompactionSliceId }.

Record QueueHead : Type := {
  qh_updated_at_secs : N;
  qh_segment_remaining : nat;
  qh_segment : SegmentKey;
  qh_id : CompactionSliceId
}.

#[global] Instance QueueSliceKey_eq_dec : EqDecision QueueSliceKey.
Proof. solve_decision. Defined.
#[global] Instance QueueSliceKey_countable : Countable QueueSliceKey.
Proof.
  apply (inj_countable' (λ k, (qk_updated_at_secs k, qk_id k)) (λ '(a, b), Build_QueueSliceKey a b)).
  by intros [].
Defined.
#[global] Instance QueueHead_eq_dec : EqDecision QueueHead.
Proof. solve_decision. Defined.
#[global] Instance QueueHead_countable : Countable QueueHead.
Proof.
  apply (inj_countable' (λ h, (qh_updated_at_secs h, qh_segment_remaining h, qh_segment h, qh_id h))
    (λ '(a, b, c, d), Build_QueueHead a b c d)). by intros [].
Defined.
#[global] Instance ord_queue_slice_key : Ord QueueSliceKey.
Proof. apply (ord_by (λ k, (qk_updated_at_secs k, qk_id k))). by intros [] [] [= -> ->]. Defined.
#[global] Instance ord_queue_head : Ord QueueHead.
Proof.
  apply (ord_by (λ h, (qh_updated_at_secs h, (qh_segment_remaining h, (qh_segment h, qh_id h))))).
  by intros [] [] [= -> -> -> ->].
Defined.

Record SegmentReadyQueue : Type := {
  sq_slices : gset QueueSliceKey;
  sq_head : option QueueHead
}.

Record ReadyQueue : Type := {
  rq_segments : gmap SegmentKey SegmentReadyQueue;
  rq_heads : gset QueueHead;
  rq_len : nat
}.

Definition segment_queue_default : SegmentReadyQueue := {| sq_slices := ∅; sq_head := None |}.
Definition ready_queue_default : ReadyQueue := {| rq_segments := ∅; rq_heads := ∅; rq_len := 0 |}.

Definition queue_key (s : IndexedCompactionSlice) : QueueSliceKey :=
  {| qk_updated_at_secs := ie_updated_at_secs (cs_index_entry s); qk_id := cs_id s |}.

Definition remove_head (seg : SegmentKey) (q : ReadyQueue) : ReadyQueue :=
  match rq_segments q !! seg with
  | Some sq => match sq_head sq with
               | Some old =>
                   {| rq_segments := <[seg := {| sq_slices := sq_slices sq; sq_head := None |}]> (rq_segments q);
                      rq_heads := rq_heads q ∖ {[old]}; rq_len := rq_len q |}
               | None => q
               end
  | None => q
  end.

Definition install_head (seg : SegmentKey) (segment_remaining : nat) (q : ReadyQueue) : ReadyQueue :=
  match rq_segments q !! seg with
  | None => q
  | Some sq =>
      match least (elements (sq_slices sq)) with
      | None => q
      | Some first =>
          let head := {| qh_updated_at_secs := qk_updated_at_secs first;
                         qh_segment_remaining := segment_remaining;
                         qh_segment := seg; qh_id := qk_id first |} in
          {| rq_segments := <[seg := {| sq_slices := sq_slices sq; sq_head := Some head |}]> (rq_segments q);
             rq_heads := {[head]} ∪ rq_heads q; rq_len := rq_len q |}
      end
  end.

Definition rq_insert (s : IndexedCompactionSlice) (segment_remaining : nat) (q : ReadyQueue)
    : ReadyQueue :=
  let seg := segment_key s in
  let q := remove_head seg q in
  let sq := default segment_queue_default (rq_segments q !! seg) in
  let inserted := bool_decide (queue_key s ∉ sq_slices sq) in
  install_head seg segment_remaining
    {| rq_segments := <[seg := {| sq_slices := {[queue_key s]} ∪ sq_slices sq;
                                  sq_head := sq_head sq |}]> (rq_segments q);
       rq_heads := rq_heads q;
       rq_len := if inserted then S (rq_len q) else rq_len q |}.

Definition rq_remove (s : IndexedCompactionSlice) (segment_remaining : nat) (q : ReadyQueue)
    : ReadyQueue * bool :=
  let seg := segment_key s in
  let q := remove_head seg q in
  match rq_segments q !! seg with
  | None => (install_head seg segment_remaining q, false)
  | Some sq =>
      let removed := bool_decide (queue_key s ∈ sq_slices sq) in
      let slices := sq_slices sq ∖ {[queue_key s]} in
      let q := {| rq_segments := <[seg := {| sq_slices := slices; sq_head := sq_head sq |}]> (rq_segments q);
                  rq_heads := rq_heads q;
                  rq_len := if removed then Nat.pred (rq_len q) else rq_len q |} in
      (if decide (slices = ∅)
       then {| rq_segments := delete seg (rq_segments q); rq_heads := rq_heads q; rq_len := rq_len q |}
       else install_head seg segment_remaining q,
       removed)
  end.

Definition update_segment_remaining (seg : SegmentKey) (remaining : nat) (q : ReadyQueue) : ReadyQueue :=
  match rq_segments q !! seg with
  | None => q
  | Some _ => install_head seg remaining (remove_head seg q)
  end.

Definition rq_peek (q : ReadyQueue) : option QueueHead := least (elements (rq_heads q)).

Definition rq_is_empty (q : ReadyQueue) : bool := rq_len q =? 0.

(** ** Records *)

Inductive SliceState : Type := Waiting | Ready | Reserved | Fenced.

#[global] Instance SliceState_eq_dec : EqDecision SliceState.
Proof. solve_decision. Defined.

Record SliceRecord : Type := {
  sr_slice : IndexedCompactionSlice;
  sr_state : SliceState;
  sr_wait_generation : N
}.

Record SegmentState : Type := {
  ss_remaining : nat;
  ss_ids : gset CompactionSliceId;
  ss_groups : gset CompactionGroupKey;
  ss_lanes : gset CompactionLaneKey
}.

Definition segment_state_default : SegmentState :=
  {| ss_remaining := 0; ss_ids := ∅; ss_groups := ∅; ss_lanes := ∅ |}.

Record LaneState : Type := { ls_queue : ReadyQueue; ls_last_served : N }.

Definition lane_state_default : LaneState := {| ls_queue := ready_queue_default; ls_last_served := 0 |}.

Record WaitingEntry : Type := {
  we_eligible_at_secs : N;
  we_id : CompactionSliceId;
  we_generation : N
}.

#[global] Instance WaitingEntry_eq_dec : EqDecision WaitingEntry.
Proof. solve_decision. Defined.
#[global] Instance ord_waiting_entry : Ord WaitingEntry.
Proof.
  apply (ord_by (λ e, (we_eligible_at_secs e, (we_id e, we_generation e)))). by intros [] [] [= -> -> ->].
Defined.

(** ** Manifests *)

Record ManifestRecord : Type := { mr_txn : CompactionTransaction; mr_reserved : bool }.

Record ManifestIndex : Type := {
  mi_records : gmap bytes ManifestRecord;
  mi_fences : gmap CompactionSliceId (gset bytes);
  mi_lane_last_served : gmap CompactionLaneKey N;
  mi_service_ticket : N
}.

Definition manifest_default : ManifestIndex :=
  {| mi_records := ∅; mi_fences := ∅; mi_lane_last_served := ∅; mi_service_ticket := 0 |}.

Definition is_fenced (m : ManifestIndex) (id : CompactionSliceId) : bool :=
  bool_decide (is_Some (mi_fences m !! id)).

Definition with_fences (f : gmap CompactionSliceId (gset bytes)) (m : ManifestIndex) : ManifestIndex := {|
  mi_records := mi_records m; mi_fences := f;
  mi_lane_last_served := mi_lane_last_served m; mi_service_ticket := mi_service_ticket m
|}.

Definition with_records (r : gmap bytes ManifestRecord) (m : ManifestIndex) : ManifestIndex := {|
  mi_records := r; mi_fences := mi_fences m;
  mi_lane_last_served := mi_lane_last_served m; mi_service_ticket := mi_service_ticket m
|}.

Definition add_fence (txn_id : bytes) (f : gmap CompactionSliceId (gset bytes)) (r : WalPartRef)
    : gmap CompactionSliceId (gset bytes) :=
  <[from_wal_ref r := {[txn_id]} ∪ default ∅ (f !! from_wal_ref r)]> f.

Definition add_fences (txn_id : bytes) (refs : list WalPartRef) (m : ManifestIndex) : ManifestIndex :=
  with_fences (foldl (add_fence txn_id) (mi_fences m) refs) m.

Definition remove_fence (txn_id : bytes) (f : gmap CompactionSliceId (gset bytes)) (r : WalPartRef)
    : gmap CompactionSliceId (gset bytes) :=
  match f !! from_wal_ref r with
  | None => f
  | Some ids => let ids := ids ∖ {[txn_id]} in
                if decide (ids = ∅) then delete (from_wal_ref r) f else <[from_wal_ref r := ids]> f
  end.

Definition remove_fences (txn_id : bytes) (refs : list WalPartRef) (m : ManifestIndex) : ManifestIndex :=
  with_fences (foldl (remove_fence txn_id) (mi_fences m) refs) m.

Definition manifest_upsert (txn : CompactionTransaction) (reserve_if_new : bool) (m : ManifestIndex)
    : ManifestIndex :=
  let id := tx_id txn in
  let reserved := match mi_records m !! id with
                  | Some record => mr_reserved record
                  | None => reserve_if_new
                  end in
  let m := match mi_records m !! id with
           | Some old => remove_fences id (tx_refs (mr_txn old)) (with_records (delete id (mi_records m)) m)
           | None => m
           end in
  match tx_state txn with
  | TxAcked => m
  | _ => let m := add_fences id (tx_refs txn) m in
         with_records (<[id := {| mr_txn := txn; mr_reserved := reserved |}]> (mi_records m)) m
  end.

Definition manifest_install (txns : list CompactionTransaction) : ManifestIndex :=
  foldl (λ m txn, manifest_upsert txn false m) manifest_default txns.

Definition manifest_remove (id : bytes) (m : ManifestIndex) : ManifestIndex * list CompactionSliceId :=
  match mi_records m !! id with
  | None => (m, [])
  | Some record =>
      (remove_fences id (tx_refs (mr_txn record)) (with_records (delete id (mi_records m)) m),
       from_wal_ref <$> tx_refs (mr_txn record))
  end.

Definition manifest_release (id : bytes) (m : ManifestIndex) : ManifestIndex :=
  match mi_records m !! id with
  | None => m
  | Some record => with_records (<[id := {| mr_txn := mr_txn record; mr_reserved := false |}]> (mi_records m)) m
  end.

Definition manifest_is_ready (txn : CompactionTransaction) (now_secs sent_stale_secs : N) : bool :=
  match tx_state txn with
  | TxPending => true
  | TxAcked => false
  | TxSent => (sent_stale_secs <=? saturating_sub now_secs (tx_updated_at_secs txn))%N
  end.

(** The counts of a map of lanes by sink; addition does not depend on the order. *)
Definition active_counts_by_sink (active : gmap CompactionLaneKey nat) : gmap bytes nat :=
  map_fold (λ lane n m, <[lk_sink_ref lane := default 0 (m !! lk_sink_ref lane) + n]> m) ∅ active.

Record ReservedManifest : Type := {
  rm_txn : CompactionTransaction;
  rm_retried_stale : bool;
  rm_stale_age_secs : N
}.

Definition txn_lane (t : CompactionTransaction) : CompactionLaneKey :=
  {| lk_sink_ref := tx_sink_ref t; lk_namespace := tx_namespace t |}.

Definition manifest_eligible (now_secs sent_stale_secs : N) (per_sink_limit : nat)
    (blocked : gset CompactionLaneKey) (scheduled : gmap bytes nat) (r : ManifestRecord) : bool :=
  negb (mr_reserved r) &&
  manifest_is_ready (mr_txn r) now_secs sent_stale_secs &&
  negb (bool_decide (txn_lane (mr_txn r) ∈ blocked)) &&
  (default 0 (scheduled !! tx_sink_ref (mr_txn r)) <? per_sink_limit).

Definition manifest_candidate (m : ManifestIndex) (now_secs sent_stale_secs : N) (per_sink_limit : nat)
    (blocked : gset CompactionLaneKey) (scheduled : gmap bytes nat)
    : option (N * (N * (N * (CompactionLaneKey * bytes)))) :=
  least ((λ '(id, r), (default 0%N (mi_lane_last_served m !! txn_lane (mr_txn r)),
                       (tx_created_at_secs (mr_txn r), (tx_updated_at_secs (mr_txn r),
                        (txn_lane (mr_txn r), id))))) <$>
         filter (λ p, manifest_eligible now_secs sent_stale_secs per_sink_limit blocked scheduled p.2 = true)
           (map_to_list (mi_records m))).

(** One round reserves a manifest or ends the loop, so [limit] rounds are enough. *)
Fixpoint reserve_ready (limit : nat) (per_sink_limit : nat) (now_secs sent_stale_secs : N)
    (scheduled : gmap bytes nat) (blocked : gset CompactionLaneKey) (m : ManifestIndex)
    : list ReservedManifest * ManifestIndex :=
  match limit with
  | O => ([], m)
  | S limit' =>
      match manifest_candidate m now_secs sent_stale_secs per_sink_limit blocked scheduled with
      | None => ([], m)
      | Some (_, (_, (_, (lane, id)))) =>
          match mi_records m !! id with
          | None => ([], m)
          | Some record =>
              let txn := mr_txn record in
              let retried_stale := bool_decide (tx_state txn = TxSent) in
              let age := if retried_stale then saturating_sub now_secs (tx_updated_at_secs txn) else 0%N in
              let txn := if retried_stale then with_state now_secs TxPending txn else txn in
              let ticket := saturating_add U64_MAX (mi_service_ticket m) 1 in
              let m' := {| mi_records := <[id := {| mr_txn := txn; mr_reserved := true |}]> (mi_records m);
                           mi_fences := mi_fences m;
                           mi_lane_last_served := <[lane := ticket]> (mi_lane_last_served m);
                           mi_service_ticket := ticket |} in
              let scheduled := <[tx_sink_ref txn := default 0 (scheduled !! tx_sink_ref txn) + 1]> scheduled in
              let '(out, m'') := reserve_ready limit' per_sink_limit now_secs sent_stale_secs scheduled blocked m' in
              ({| rm_txn := txn; rm_retried_stale := retried_stale; rm_stale_age_secs := age |} :: out, m'')
          end
      end
  end.

Definition ready_ref_count (m : ManifestIndex) (now_secs sent_stale_secs : N) : nat :=
  sum_list ((λ p : bytes * ManifestRecord, length (tx_refs (mr_txn p.2))) <$>
    filter (λ p, negb (mr_reserved p.2) && manifest_is_ready (mr_txn p.2) now_secs sent_stale_secs = true)
      (map_to_list (mi_records m))).

(** ** The index *)

Record CompactionIndex : Type := {
  ci_slices : gmap CompactionSliceId SliceRecord;
  ci_segments : gmap SegmentKey SegmentState;
  ci_groups : gmap CompactionGroupKey ReadyQueue;
  ci_lanes : gmap CompactionLaneKey LaneState;
  ci_waiting : gset CompactionSliceId;
  (** The binary heap, as the entries it holds. *)
  ci_waiting_by_age : list WaitingEntry;
  ci_waiting_ids_by_group : gmap CompactionGroupKey (gset CompactionSliceId);
  ci_available_bytes_by_group : gmap CompactionGroupKey N;
  ci_available_counted : gset CompactionSliceId;
  ci_force_only_ready : gset CompactionSliceId;
  ci_ready_count : nat;
  ci_ready_group_count : nat;
  ci_byte_threshold : option N;
  ci_time_threshold_secs : option N;
  ci_service_ticket : N;
  ci_manifests : ManifestIndex;
  ci_manifests_loaded : bool
}.

Definition ci_default : CompactionIndex := {|
  ci_slices := ∅; ci_segments := ∅; ci_groups := ∅; ci_lanes := ∅; ci_waiting := ∅;
  ci_waiting_by_age := []; ci_waiting_ids_by_group := ∅; ci_available_bytes_by_group := ∅;
  ci_available_counted := ∅; ci_force_only_ready := ∅; ci_ready_count := 0; ci_ready_group_count := 0;
  ci_byte_threshold := None; ci_time_threshold_secs := None; ci_service_ticket := 0;
  ci_manifests := manifest_default; ci_manifests_loaded := false
|}.

(** Assignments to fields: the slices and segments, the ready queues with their counters,
    the waiting structures, the available bytes, and the rest. *)

Definition with_slices (x : gmap CompactionSliceId SliceRecord) (s : CompactionIndex) : CompactionIndex :=
  Build_CompactionIndex x (ci_segments s) (ci_groups s) (ci_lanes s) (ci_waiting s)
    (ci_waiting_by_age s) (ci_waiting_ids_by_group s) (ci_available_bytes_by_group s)
    (ci_available_counted s) (ci_force_only_ready s) (ci_ready_count s) (ci_ready_group_count s)
    (ci_byte_threshold s) (ci_time_threshold_secs s) (ci_service_ticket s) (ci_manifests s)
    (ci_manifests_loaded s).

Definition with_segments (x : gmap SegmentKey SegmentState) (s : CompactionIndex) : CompactionIndex :=
  Build_CompactionIndex (ci_slices s) x (ci_groups s) (ci_lanes s) (ci_waiting s)
    (ci_waiting_by_age s) (ci_waiting_ids_by_group s) (ci_available_bytes_by_group s)
    (ci_available_counted s) (ci_force_only_ready s) (ci_ready_count s) (ci_ready_group_count s)
    (ci_byte_threshold s) (ci_time_threshold_secs s) (ci_service_ticket s) (ci_manifests s)
    (ci_manifests_loaded s).

Definition with_queues (groups : gmap CompactionGroupKey ReadyQueue) (lanes : gmap CompactionLaneKey LaneState)
    (ready ready_groups : nat) (s : CompactionIndex) : CompactionIndex :=
  Build_CompactionIndex (ci_slices s) (ci_segments s) groups lanes (ci_waiting s)
    (ci_waiting_by_age s) (ci_waiting_ids_by_group s) (ci_available_bytes_by_group s)
    (ci_available_counted s) (ci_force_only_ready s) ready ready_groups
    (ci_byte_threshold s) (ci_time_threshold_secs s) (ci_service_ticket s) (ci_manifests s)
    (ci_manifests_loaded s).

Definition with_waiting (w : gset CompactionSliceId) (heap : list WaitingEntry)
    (by_group : gmap CompactionGroupKey (gset CompactionSliceId)) (s : CompactionIndex) : CompactionIndex :=
  Build_CompactionIndex (ci_slices s) (ci_segments s) (ci_groups s) (ci_lanes s) w
    heap by_group (ci_available_bytes_by_group s)
    (ci_available_counted s) (ci_force_only_ready s) (ci_ready_count s) (ci_ready_group_count s)
    (ci_byte_threshold s) (ci_time_threshold_secs s) (ci_service_ticket s) (ci_manifests s)
    (ci_manifests_loaded s).

Definition with_available (bytes_by_group : gmap CompactionGroupKey N) (counted : gset CompactionSliceId)
    (s : CompactionIndex) : CompactionIndex :=
  Build_CompactionIndex (ci_slices s) (ci_segments s) (ci_groups s) (ci_lanes s) (ci_waiting s)
    (ci_waiting_by_age s) (ci_waiting_ids_by_group s) bytes_by_group
    counted (ci_force_only_ready s) (ci_ready_count s) (ci_ready_group_count s)
    (ci_byte_threshold s) (ci_time_threshold_secs s) (ci_service_ticket s) (ci_manifests s)
    (ci_manifests_loaded s).

Definition with_force_only (x : gset CompactionSliceId) (s : CompactionIndex) : CompactionIndex :=
  Build_CompactionIndex (ci_slices s) (ci_segments s) (ci_groups s) (ci_lanes s) (ci_waiting s)
    (ci_waiting_by_age s) (ci_waiting_ids_by_group s) (ci_available_bytes_by_group s)
    (ci_available_counted s) x (ci_ready_count s) (ci_ready_group_count s)
    (ci_byte_threshold s) (ci_time_threshold_secs s) (ci_service_ticket s) (ci_manifests s)
    (ci_manifests_loaded s).

Definition with_thresholds (b t : option N) (s : CompactionIndex) : CompactionIndex :=
  Build_CompactionIndex (ci_slices s) (ci_segments s) (ci_groups s) (ci_lanes s) (ci_waiting s)
    (ci_waiting_by_age s) (ci_waiting_ids_by_group s) (ci_available_bytes_by_group s)
    (ci_available_counted s) (ci_force_only_ready s) (ci_ready_count s) (ci_ready_group_count s)
    b t (ci_service_ticket s) (ci_manifests s) (ci_manifests_loaded s).

Definition with_ticket (lanes : gmap CompactionLaneKey LaneState) (ticket : N) (s : CompactionIndex)
    : CompactionIndex :=
  Build_CompactionIndex (ci_slices s) (ci_segments s) (ci_groups s) lanes (ci_waiting s)
    (ci_waiting_by_age s) (ci_waiting_ids_by_group s) (ci_available_bytes_by_group s)
    (ci_available_counted s) (ci_force_only_ready s) (ci_ready_count s) (ci_ready_group_count s)
    (ci_byte_threshold s) (ci_time_threshold_secs s) ticket (ci_manifests s) (ci_manifests_loaded s).

Definition with_manifests (m : ManifestIndex) (loaded : bool) (s : CompactionIndex) : CompactionIndex :=
  Build_CompactionIndex (ci_slices s) (ci_segments s) (ci_groups s) (ci_lanes s) (ci_waiting s)
    (ci_waiting_by_age s) (ci_waiting_ids_by_group s) (ci_available_bytes_by_group s)
    (ci_available_counted s) (ci_force_only_ready s) (ci_ready_count s) (ci_ready_group_count s)
    (ci_byte_threshold s) (ci_time_threshold_secs s) (ci_service_ticket s) m loaded.

Definition state_of (s : CompactionIndex) (id : CompactionSliceId) : option SliceState :=
  sr_state <$> ci_slices s !! id.

Definition set_state (id : CompactionSliceId) (st : SliceState) (s : CompactionIndex) : CompactionIndex :=
  match ci_slices s !! id with
  | None => s
  | Some r => with_slices (<[id := {| sr_slice := sr_slice r; sr_state := st;
                                      sr_wait_generation := sr_wait_generation r |}]> (ci_slices s)) s
  end.

(** ** Available bytes *)

Definition slice_bytes (s : IndexedCompactionSlice) : N := ie_bytes (cs_index_entry s).

Definition group_available_bytes (s : CompactionIndex) (g : CompactionGroupKey) : N :=
  default 0%N (ci_available_bytes_by_group s !! g).

Definition set_available_bytes (id : CompactionSliceId) (on : bool) (s : CompactionIndex) : CompactionIndex :=
  match ci_slices s !! id with
  | None => s
  | Some r =>
      let g := cs_group_key (sr_slice r) in
      let counted := bool_decide (id ∈ ci_available_counted s) in
      if on && negb counted
      then with_available (<[g := saturating_add U64_MAX (group_available_bytes s g) (slice_bytes (sr_slice r))]>
                             (ci_available_bytes_by_group s)) ({[id]} ∪ ci_available_counted s) s
      else if negb on && counted
      then let next := saturating_sub (group_available_bytes s g) (slice_bytes (sr_slice r)) in
           with_available (if (next =? 0)%N then delete g (ci_available_bytes_by_group s)
                           else <[g := next]> (ci_available_bytes_by_group s))
             (ci_available_counted s ∖ {[id]}) s
      else s
  end.

(** ** Moving slices between states *)

Definition segment_remaining (s : CompactionIndex) (k : SegmentKey) : nat :=
  default 0 (ss_remaining <$> ci_segments s !! k).

(** Removes an identifier from the waiting set of a group, and the set when it is empty. *)
Definition drop_waiting_id (g : CompactionGroupKey) (id : CompactionSliceId)
    (m : gmap CompactionGroupKey (gset CompactionSliceId)) : gmap CompactionGroupKey (gset CompactionSliceId) :=
  match m !! g with
  | None => m
  | Some ids => let ids := ids ∖ {[id]} in
                if decide (ids = ∅) then delete g m else <[g := ids]> m
  end.

Definition forget_waiting_id (id : CompactionSliceId) (s : CompactionIndex) : CompactionIndex :=
  match ci_slices s !! id with
  | None => s
  | Some r => with_waiting (ci_waiting s) (ci_waiting_by_age s)
                (drop_waiting_id (cs_group_key (sr_slice r)) id (ci_waiting_ids_by_group s)) s
  end.

Definition unwait (id : CompactionSliceId) (s : CompactionIndex) : CompactionIndex :=
  with_waiting (ci_waiting s ∖ {[id]}) (ci_waiting_by_age s) (ci_waiting_ids_by_group s) s.

Definition unforce (id : CompactionSliceId) (s : CompactionIndex) : CompactionIndex :=
  with_force_only (ci_force_only_ready s ∖ {[id]}) s.

Definition set_waiting (id : CompactionSliceId) (s : CompactionIndex) : CompactionIndex :=
  let s := unforce id s in
  match ci_slices s !! id with
  | None => s
  | Some r =>
      let g := cs_group_key (sr_slice r) in
      let generation := saturating_add U64_MAX (sr_wait_generation r) 1 in
      let eligible := saturating_add U64_MAX (ie_updated_at_secs (cs_index_entry (sr_slice r)))
                        (default U64_MAX (ci_time_threshold_secs s)) in
      let s := with_slices (<[id := {| sr_slice := sr_slice r; sr_state := Waiting;
                                       sr_wait_generation := generation |}]> (ci_slices s)) s in
      let s := with_waiting ({[id]} ∪ ci_waiting s) (ci_waiting_by_age s)
                 (<[g := {[id]} ∪ default ∅ (ci_waiting_ids_by_group s !! g)]> (ci_waiting_ids_by_group s)) s in
      let s := set_available_bytes id true s in
      with_waiting (ci_waiting s)
        ({| we_eligible_at_secs := eligible; we_id := id; we_generation := generation |} :: ci_waiting_by_age s)
        (ci_waiting_ids_by_group s) s
  end.

(** The queues after a slice became ready. *)
Definition push_ready (slice : IndexedCompactionSlice) (s : CompactionIndex) : CompactionIndex :=
  let remaining := segment_remaining s (segment_key slice) in
  let g := cs_group_key slice in
  let group_queue := default ready_queue_default (ci_groups s !! g) in
  let group_queue' := rq_insert slice remaining group_queue in
  let lane_state := default lane_state_default (ci_lanes s !! lane g) in
  with_queues (<[g := group_queue']> (ci_groups s))
    (<[lane g := {| ls_queue := rq_insert slice remaining (ls_queue lane_state);
                    ls_last_served := ls_last_served lane_state |}]> (ci_lanes s))
    (S (ci_ready_count s))
    (if rq_is_empty group_queue && negb (rq_is_empty group_queue') then S (ci_ready_group_count s)
     else ci_ready_group_count s) s.

Definition set_ready (id : CompactionSliceId) (s : CompactionIndex) : CompactionIndex :=
  if decide (state_of s id = Some Ready) then s
  else
    let s := forget_waiting_id id s in
    let s := unforce id (unwait id s) in
    let s := set_available_bytes id true s in
    match ci_slices s !! id with
    | None => s
    | Some r => set_state id Ready (push_ready (sr_slice r) s)
    end.

(** The queues after a ready slice left them. *)
Definition pop_ready (slice : IndexedCompactionSlice) (s : CompactionIndex) : CompactionIndex :=
  let remaining := segment_remaining s (segment_key slice) in
  let g := cs_group_key slice in
  let '(groups, ready_groups) :=
    match ci_groups s !! g with
    | None => (ci_groups s, ci_ready_group_count s)
    | Some queue =>
        let queue' := (rq_remove slice remaining queue).1 in
        (<[g := queue']> (ci_groups s),
         if negb (rq_is_empty queue) && rq_is_empty queue' then Nat.pred (ci_ready_group_count s)
         else ci_ready_group_count s)
    end in
  let lanes :=
    match ci_lanes s !! lane g with
    | None => ci_lanes s
    | Some state => <[lane g := {| ls_queue := (rq_remove slice remaining (ls_queue state)).1;
                                   ls_last_served := ls_last_served state |}]> (ci_lanes s)
    end in
  with_queues groups lanes (Nat.pred (ci_ready_count s)) ready_groups s.

Definition remove_from_current_queue (id : CompactionSliceId) (s : CompactionIndex) : CompactionIndex :=
  let s := unwait id s in
  match ci_slices s !! id with
  | None => s
  | Some r => if decide (sr_state r = Ready) then pop_ready (sr_slice r) s else s
  end.

Definition set_fenced (id : CompactionSliceId) (s : CompactionIndex) : CompactionIndex :=
  let s := unforce id (remove_from_current_queue id s) in
  let s := set_available_bytes id false (forget_waiting_id id s) in
  set_state id Fenced s.

Definition reserve_ready_slice (id : CompactionSliceId) (s : CompactionIndex)
    : option IndexedCompactionSlice * CompactionIndex :=
  if decide (state_of s id = Some Ready) then
    let s := unforce id (remove_from_current_queue id s) in
    let s := set_available_bytes id false (forget_waiting_id id s) in
    (sr_slice <$> ci_slices s !! id, set_state id Reserved s)
  else (None, s).

(** Iteration of a [BTreeSet] of slices. *)
Definition id_le (x y : CompactionSliceId) : Prop := cmp x y ≠ Gt.

#[global] Instance id_le_dec : RelDecision id_le.
Proof. intros x y. unfold id_le. apply _. Defined.

Definition in_id_order (ids : gset CompactionSliceId) : list CompactionSliceId :=
  merge_sort id_le (elements ids).

Definition set_ready_all (ids : list CompactionSliceId) (s : CompactionIndex) : CompactionIndex :=
  foldl (λ s id, set_ready id s) s ids.

Definition promote_waiting_group (g : CompactionGroupKey) (s : CompactionIndex) : CompactionIndex :=
  set_ready_all (in_id_order (default ∅ (ci_waiting_ids_by_group s !! g))) s.

Definition is_late (s : CompactionIndex) (slice : IndexedCompactionSlice) (now_secs : N) : bool :=
  (default U64_MAX (ci_time_threshold_secs s) <=?
   saturating_sub now_secs (ie_updated_at_secs (cs_index_entry slice)))%N.

Definition group_is_full (s : CompactionIndex) (g : CompactionGroupKey) : bool :=
  (default U64_MAX (ci_byte_threshold s) <=? group_available_bytes s g)%N.

Definition classify_available (id : CompactionSliceId) (now_secs : N) (s : CompactionIndex) : CompactionIndex :=
  if is_fenced (ci_manifests s) id then set_fenced id s
  else match ci_slices s !! id with
       | None => s
       | Some r =>
           if is_late s (sr_slice r) now_secs then set_ready id s
           else
             let g := cs_group_key (sr_slice r) in
             let s := if bool_decide (id ∉ ci_waiting s) && negb (bool_decide (state_of s id = Some Ready))
                      then set_waiting id s else s in
             if group_is_full s g then promote_waiting_group g s else s
       end.

(** [BinaryHeap::pop]: one occurrence of the least entry goes. *)
Fixpoint remove_one (e : WaitingEntry) (l : list WaitingEntry) : list WaitingEntry :=
  match l with
  | [] => []
  | x :: l' => if decide (x = e) then l' else x :: remove_one e l'
  end.

(** [n] entries of the heap at most; each round pops one or ends the loop. *)
Fixpoint promote_due_loop (n : nat) (now_secs : N) (s : CompactionIndex) : CompactionIndex :=
  match n with
  | O => s
  | S n' =>
      match least (ci_waiting_by_age s) with
      | None => s
      | Some entry =>
          if (now_secs <? we_eligible_at_secs entry)%N then s
          else
            let s := with_waiting (ci_waiting s) (remove_one entry (ci_waiting_by_age s))
                       (ci_waiting_ids_by_group s) s in
            let valid := match ci_slices s !! we_id entry with
                         | Some r => bool_decide (sr_state r = Waiting) &&
                                     (sr_wait_generation r =? we_generation entry)%N
                         | None => false
                         end in
            promote_due_loop n' now_secs (if valid then set_ready (we_id entry) s else s)
      end
  end.

Definition promote_due (now_secs : N) (s : CompactionIndex) : CompactionIndex :=
  promote_due_loop (length (ci_waiting_by_age s)) now_secs s.

Definition normal_eligible (s : CompactionIndex) (id : CompactionSliceId) (now_secs : N) : bool :=
  match ci_slices s !! id with
  | Some r => is_late s (sr_slice r) now_secs || group_is_full s (cs_group_key (sr_slice r))
  | None => false
  end.

Definition promote_forced (now_secs : N) (s : CompactionIndex) (id : CompactionSliceId) : CompactionIndex :=
  let eligible := normal_eligible s id now_secs in
  let s := set_ready id s in
  if eligible then s else with_force_only ({[id]} ∪ ci_force_only_ready s) s.

Definition promote_all_waiting (now_secs : N) (s : CompactionIndex) : CompactionIndex :=
  foldl (promote_forced now_secs) s (in_id_order (ci_waiting s)).

Definition demote (now_secs : N) (s : CompactionIndex) (id : CompactionSliceId) : CompactionIndex :=
  let s := unforce id (remove_from_current_queue id s) in
  classify_available id now_secs (set_state id Waiting s).

Definition demote_force_only (now_secs : N) (s : CompactionIndex) : CompactionIndex :=
  foldl (demote now_secs) s (in_id_order (ci_force_only_ready s)).

Definition mark_recovered_ready (s : CompactionIndex) : CompactionIndex :=
  set_ready_all (in_id_order (ci_waiting s)) s.

(** ** Removal *)

Definition remaining_in_groups (k : SegmentKey) (remaining : nat) (gs : gset CompactionGroupKey)
    (m : gmap CompactionGroupKey ReadyQueue) : gmap CompactionGroupKey ReadyQueue :=
  map_imap (λ g q, Some (if decide (g ∈ gs) then update_segment_remaining k remaining q else q)) m.

Definition remaining_in_lanes (k : SegmentKey) (remaining : nat) (ls : gset CompactionLaneKey)
    (m : gmap CompactionLaneKey LaneState) : gmap CompactionLaneKey LaneState :=
  map_imap (λ l state, Some (if decide (l ∈ ls)
                             then {| ls_queue := update_segment_remaining k remaining (ls_queue state);
                                     ls_last_served := ls_last_served state |}
                             else state)) m.

(** The segment of a slice that is gone, and the queues that rank by it. *)
Definition finish_remove (id : CompactionSliceId) (k : SegmentKey) (s : CompactionIndex) : CompactionIndex * bool :=
  match ci_segments s !! k with
  | None => (s, true)
  | Some seg =>
      let remaining := Nat.pred (ss_remaining seg) in
      let segments := <[k := {| ss_remaining := remaining; ss_ids := ss_ids seg ∖ {[id]};
                                ss_groups := ss_groups seg; ss_lanes := ss_lanes seg |}]> (ci_segments s) in
      let s := with_queues (remaining_in_groups k remaining (ss_groups seg) (ci_groups s))
                 (remaining_in_lanes k remaining (ss_lanes seg) (ci_lanes s))
                 (ci_ready_count s) (ci_ready_group_count s) s in
      (with_segments (if remaining =? 0 then delete k segments else segments) s, true)
  end.

Definition remove_slice (id : CompactionSliceId) (s : CompactionIndex) : CompactionIndex * bool :=
  match ci_slices s !! id with
  | None => (s, false)
  | Some r =>
      let s := unforce id (unwait id (remove_from_current_queue id s)) in
      let s := set_available_bytes id false (forget_waiting_id id s) in
      finish_remove id (segment_key (sr_slice r)) (with_slices (delete id (ci_slices s)) s)
  end.

Definition remove_slices (ids : list CompactionSliceId) (s : CompactionIndex) : CompactionIndex :=
  foldl (λ s id, (remove_slice id s).1) s ids.

(** The count of those that were there, in the order given. *)
Fixpoint remove_counted (ids : list CompactionSliceId) (s : CompactionIndex) : nat * CompactionIndex :=
  match ids with
  | [] => (0, s)
  | id :: ids' => let '(s1, removed) := remove_slice id s in
                  let '(n, s2) := remove_counted ids' s1 in
                  (if removed then S n else n, s2)
  end.

Section Iteration.
(** The order in which hash maps of slices and sets of names iterate. *)
Context (iter_slices : list CompactionSliceId → list CompactionSliceId).
Context (iter_names : list bytes → list bytes).

(** Segments in the order of their keys; the slices of a segment in theirs. *)
Definition segment_ids (segment_id : bytes) (s : CompactionIndex) : list CompactionSliceId :=
  in_id_order (list_to_set (concat ((λ p : SegmentKey * SegmentState, elements (ss_ids p.2)) <$>
    filter (λ p, sk_segment_id p.1 = segment_id) (map_to_list (ci_segments s))))).

Definition remove_segment (segment_id : bytes) (s : CompactionIndex) : CompactionIndex :=
  remove_slices (segment_ids segment_id s) s.

Definition drop_segments_not_in (live : gset bytes) (s : CompactionIndex) : CompactionIndex :=
  let stale := filter (λ id, id ∉ live)
                 (elements (list_to_set ((λ p : SegmentKey * SegmentState, sk_segment_id p.1) <$>
                    map_to_list (ci_segments s)) : gset bytes)) in
  foldl (λ s id, remove_segment id s) s (iter_names stale).

Definition complete_ordinals (segment_id : bytes) (ordinals : list N) (s : CompactionIndex)
    : nat * CompactionIndex :=
  let ids := (λ p : CompactionSliceId * SliceRecord, cs_id (sr_slice p.2)) <$>
    filter (λ p, si_segment_id (cs_id (sr_slice p.2)) = segment_id ∧
                 ie_slice_ordinal (cs_index_entry (sr_slice p.2)) ∈ ordinals) (map_to_list (ci_slices s)) in
  match ordinals with
  | [] => (0, s)
  | _ => remove_counted (iter_slices ids) s
  end.

Definition complete_refs (refs : list WalPartRef) (s : CompactionIndex) : nat * CompactionIndex :=
  remove_counted (from_wal_ref <$> refs) s.

(** ** Thresholds *)

Definition reclassify (now_secs : N) (s : CompactionIndex) (id : CompactionSliceId) : CompactionIndex :=
  classify_available id now_secs (set_state id Waiting s).

Definition clear_queues (s : CompactionIndex) : CompactionIndex :=
  with_force_only ∅ (with_available ∅ ∅ (with_waiting ∅ [] ∅ (with_queues ∅ ∅ 0 0 s))).

Definition available_ids (s : CompactionIndex) : list CompactionSliceId :=
  (filter (λ p : CompactionSliceId * SliceRecord, sr_state p.2 = Waiting ∨ sr_state p.2 = Ready)
     (map_to_list (ci_slices s))).*1.

Definition rebuild_available_queues (now_secs : N) (s : CompactionIndex) : CompactionIndex :=
  let s := clear_queues s in
  foldl (reclassify now_secs) s (iter_slices (available_ids s)).

Definition configure_thresholds (byte_threshold time_threshold_secs now_secs : N) (s : CompactionIndex)
    : CompactionIndex :=
  if bool_decide (ci_byte_threshold s = Some byte_threshold) &&
     bool_decide (ci_time_threshold_secs s = Some time_threshold_secs)
  then s
  else rebuild_available_queues now_secs
         (with_thresholds (Some byte_threshold) (Some time_threshold_secs) s).

(** ** Registration *)

Definition register_slice (acc : SegmentState * CompactionIndex) (slice : IndexedCompactionSlice)
    : SegmentState * CompactionIndex :=
  let '(seg, s) := acc in
  if bool_decide (is_Some (ci_slices s !! cs_id slice)) then acc
  else
    ({| ss_remaining := S (ss_remaining seg);
        ss_ids := {[cs_id slice]} ∪ ss_ids seg;
        ss_groups := {[cs_group_key slice]} ∪ ss_groups seg;
        ss_lanes := {[lane (cs_group_key slice)]} ∪ ss_lanes seg |},
     with_slices (<[cs_id slice := {| sr_slice := slice;
                                      sr_state := if is_fenced (ci_manifests s) (cs_id slice) then Fenced
                                                  else Waiting;
                                      sr_wait_generation := 0 |}]> (ci_slices s)) s).

Definition classify_waiting (now_secs : N) (s : CompactionIndex) (id : CompactionSliceId) : CompactionIndex :=
  if decide (state_of s id = Some Waiting) then classify_available id now_secs s else s.

Definition register_segment (segment_id : bytes) (slices : list IndexedCompactionSlice)
    (byte_threshold time_threshold_secs now_secs : N) (s : CompactionIndex) : nat * CompactionIndex :=
  let s := remove_segment segment_id (configure_thresholds byte_threshold time_threshold_secs now_secs s) in
  match slices with
  | [] => (0, s)
  | first :: _ =>
      let '(seg, s) := foldl register_slice (segment_state_default, s) slices in
      let s := with_segments (<[segment_key first := seg]> (ci_segments s)) s in
      (ss_remaining seg, foldl (classify_waiting now_secs) s (in_id_order (ss_ids seg)))
  end.

(** ** Manifests *)

Definition install_manifests (txns : list CompactionTransaction) (s : CompactionIndex) : CompactionIndex :=
  let s := with_manifests (manifest_install txns) true s in
  foldl (λ s id, if is_fenced (ci_manifests s) id then set_fenced id s else s) s
    (iter_slices (map_to_list (ci_slices s)).*1).

Definition release_ref (now_secs : N) (s : CompactionIndex) (r : WalPartRef) : CompactionIndex :=
  let id := from_wal_ref r in
  if decide (state_of s id = Some Reserved) then
    if is_fenced (ci_manifests s) id then set_state id Fenced s else classify_available id now_secs s
  else s.

Definition release_refs (refs : list WalPartRef) (now_secs : N) (s : CompactionIndex) : CompactionIndex :=
  foldl (release_ref now_secs) s refs.

Definition refence (clock : N) (s : CompactionIndex) (id : CompactionSliceId) : CompactionIndex :=
  if is_fenced (ci_manifests s) id
  then if decide (state_of s id = Some Reserved) then s else set_fenced id s
  else if decide (state_of s id = Some Fenced) then classify_available id clock s else s.

(** [clock] is what the wall clock reads when a slice has its turn. *)
Definition upsert_manifest (clock : CompactionSliceId → N) (txn : CompactionTransaction) (s : CompactionIndex) : CompactionIndex :=
  let old_refs := match mi_records (ci_manifests s) !! tx_id txn with
                  | Some record => tx_refs (mr_txn record)
                  | None => []
                  end in
  let reserve_if_new := existsb (λ r, bool_decide (state_of s (from_wal_ref r) = Some Reserved)) (tx_refs txn) in
  let s := with_manifests (manifest_upsert txn reserve_if_new (ci_manifests s)) (ci_manifests_loaded s) s in
  foldl (λ s id, refence (clock id) s id) s (in_id_order (list_to_set (from_wal_ref <$> (old_refs ++ tx_refs txn)))).

Definition unfence (now_secs : N) (s : CompactionIndex) (id : CompactionSliceId) : CompactionIndex :=
  if negb (is_fenced (ci_manifests s) id) && bool_decide (state_of s id = Some Fenced)
  then classify_available id now_secs s else s.

Definition remove_manifest (id : bytes) (now_secs : N) (s : CompactionIndex) : CompactionIndex :=
  let '(m, affected) := manifest_remove id (ci_manifests s) in
  foldl (unfence now_secs) (with_manifests m (ci_manifests_loaded s) s) affected.

Definition release_manifest (id : bytes) (s : CompactionIndex) : CompactionIndex :=
  with_manifests (manifest_release id (ci_manifests s)) (ci_manifests_loaded s) s.

Definition reserve_ready_manifests (limit per_sink_limit : nat) (now_secs sent_stale_secs : N)
    (active : gmap CompactionLaneKey nat) (blocked : gset CompactionLaneKey) (s : CompactionIndex)
    : list ReservedManifest * CompactionIndex :=
  let '(out, m) := reserve_ready limit per_sink_limit now_secs sent_stale_secs
                     (active_counts_by_sink active) blocked (ci_manifests s) in
  (out, with_manifests m (ci_manifests_loaded s) s).
End Iteration.

(** ** Planning *)

Record PlannedCompactionGroup : Type := {
  pg_key : CompactionGroupKey;
  pg_slices : list IndexedCompactionSlice
}.

Record CompactionPlan : Type := {
  cp_groups : list PlannedCompactionGroup;
  cp_segments_examined : N;
  cp_slices_examined : N;
  cp_ready_queue_depth : nat
}.

(** What the loop over groups carries: the groups planned, the examined slices and
    segments, and the counts by sink. *)
Record PlanState : Type := {
  pl_groups : list PlannedCompactionGroup;
  pl_slices_examined : N;
  pl_segments : gset SegmentKey;
  pl_scheduled : gmap bytes nat
}.

Definition lane_eligible (per_sink_limit : nat) (blocked : gset CompactionLaneKey) (scheduled : gmap bytes nat)
    (l : CompactionLaneKey) (state : LaneState) : bool :=
  negb (rq_is_empty (ls_queue state)) && negb (bool_decide (l ∈ blocked)) &&
  (default 0 (scheduled !! lk_sink_ref l) <? per_sink_limit).

Definition lane_rank (l : CompactionLaneKey) (state : LaneState)
    : option (N * (N * (nat * (CompactionLaneKey * CompactionSliceId)))) :=
  (λ h, (ls_last_served state, (qh_updated_at_secs h, (qh_segment_remaining h, (l, qh_id h))))) <$>
  rq_peek (ls_queue state).

Definition lane_candidate (per_sink_limit : nat) (blocked : gset CompactionLaneKey) (scheduled : gmap bytes nat)
    (s : CompactionIndex) : option (N * (N * (nat * (CompactionLaneKey * CompactionSliceId)))) :=
  least (omap (λ p : CompactionLaneKey * LaneState, lane_rank p.1 p.2)
    (filter (λ p, lane_eligible per_sink_limit blocked scheduled p.1 p.2 = true) (map_to_list (ci_lanes s)))).

(** The inner loop: [parts] more slices may be taken.  Returns the slices taken, the slices
    and segments examined, and the index. *)
Fixpoint select_slices (parts : nat) (g : CompactionGroupKey) (target_bytes selected_bytes : N) (first : bool)
    (s : CompactionIndex) : list IndexedCompactionSlice * (list SegmentKey * (N * CompactionIndex)) :=
  match parts with
  | O => ([], ([], (0%N, s)))
  | S parts' =>
      match ci_groups s !! g ≫= rq_peek with
      | None => ([], ([], (0%N, s)))
      | Some head =>
          match ci_slices s !! qh_id head with
          | None => ([], ([], (1%N, s)))
          | Some r =>
              let seg := segment_key (sr_slice r) in
              let bytes := slice_bytes (sr_slice r) in
              if negb first && (target_bytes <? saturating_add U64_MAX selected_bytes bytes)%N
              then ([], ([seg], (1%N, s)))
              else match reserve_ready_slice (qh_id head) s with
                   | (None, s) => ([], ([seg], (1%N, s)))
                   | (Some slice, s) =>
                       let '(rest, (segs, (n, s'))) :=
                         select_slices parts' g target_bytes (saturating_add U64_MAX selected_bytes bytes) false s in
                       (slice :: rest, (seg :: segs, (saturating_add U64_MAX 1 n, s')))
                   end
          end
      end
  end.

(** The outer loop with fuel: a round that takes no slice changes nothing and runs again. *)
Fixpoint plan_loop (fuel limit max_parts per_sink_limit : nat) (target_bytes : N) (blocked : gset CompactionLaneKey)
    (pl : PlanState) (s : CompactionIndex) : option (PlanState * CompactionIndex) :=
  match fuel with
  | O => None
  | S fuel' =>
      if limit <=? length (pl_groups pl) then Some (pl, s)
      else
        match lane_candidate per_sink_limit blocked (pl_scheduled pl) s with
        | None => Some (pl, s)
        | Some (_, (_, (_, (l, first_id)))) =>
            match ci_slices s !! first_id with
            | None => Some (pl, s)
            | Some r =>
                let g := cs_group_key (sr_slice r) in
                let '(selected, (segs, (n, s))) := select_slices max_parts g target_bytes 0 true s in
                let pl := {| pl_groups := pl_groups pl;
                             pl_slices_examined := saturating_add U64_MAX (pl_slices_examined pl) n;
                             pl_segments := list_to_set segs ∪ pl_segments pl;
                             pl_scheduled := pl_scheduled pl |} in
                match selected with
                | [] => plan_loop fuel' limit max_parts per_sink_limit target_bytes blocked pl s
                | _ =>
                    let ticket := saturating_add U64_MAX (ci_service_ticket s) 1 in
                    let lanes := match ci_lanes s !! l with
                                 | Some state => <[l := {| ls_queue := ls_queue state; ls_last_served := ticket |}]> (ci_lanes s)
                                 | None => ci_lanes s
                                 end in
                    let pl := {| pl_groups := pl_groups pl ++ [{| pg_key := g; pg_slices := selected |}];
                                 pl_slices_examined := pl_slices_examined pl;
                                 pl_segments := pl_segments pl;
                                 pl_scheduled := <[gk_sink_ref g := default 0 (pl_scheduled pl !! gk_sink_ref g) + 1]>
                                                   (pl_scheduled pl) |} in
                    plan_loop fuel' limit max_parts per_sink_limit target_bytes blocked pl (with_ticket lanes ticket s)
                end
            end
        end
  end.

Definition promote_for_plan (force : bool) (now_secs : N) (s : CompactionIndex) : CompactionIndex :=
  if force then promote_all_waiting now_secs s
  else promote_due now_secs (demote_force_only now_secs s).

Definition plan_ready (iter_slices : list CompactionSliceId → list CompactionSliceId)
    (fuel limit : nat) (force : bool) (now_secs byte_threshold time_threshold_secs target_bytes : N)
    (max_parts per_sink_limit : nat) (active : gmap CompactionLaneKey nat) (blocked : gset CompactionLaneKey)
    (s : CompactionIndex) : option (CompactionPlan * CompactionIndex) :=
  let s := promote_for_plan force now_secs
             (configure_thresholds iter_slices byte_threshold time_threshold_secs now_secs s) in
  let pl := {| pl_groups := []; pl_slices_examined := 0; pl_segments := ∅;
               pl_scheduled := active_counts_by_sink active |} in
  match plan_loop fuel limit max_parts per_sink_limit target_bytes blocked pl s with
  | None => None
  | Some (pl, s) => Some ({| cp_groups := pl_groups pl;
                             cp_segments_examined := N.of_nat (size (pl_segments pl));
                             cp_slices_examined := pl_slices_examined pl;
                             cp_ready_queue_depth := ci_ready_group_count s |}, s)
  end.

Definition reclaimable_slice_count (force : bool) (now_secs sent_stale_secs : N) (limit : nat)
    (s : CompactionIndex) : nat * CompactionIndex :=
  let s := if force then s else promote_due now_secs s in
  (Nat.min (ci_ready_count s + (if force then size (ci_waiting s) else 0) +
            ready_ref_count (ci_manifests s) now_secs sent_stale_secs) limit, s).

(** ** Least elements *)

Lemma cmp_refl {A} `{OA : Ord A} (x : A) : cmp x x = Eq.
Proof. by apply cmp_Eq. Qed.

Lemma cmp_trans {A} `{OA : Ord A} (x y z : A) : cmp x y ≠ Gt → cmp y z ≠ Gt → cmp x z ≠ Gt.
Proof.
  destruct (cmp x y) eqn:H1; [apply cmp_Eq in H1 as ->; done| |done].
  destruct (cmp y z) eqn:H2; [apply cmp_Eq in H2 as <-; congruence| |done].
  by rewrite (cmp_Lt_trans _ _ _ H1 H2).
Qed.

Lemma least_None {A} `{OA : Ord A} (l : list A) : least l = None ↔ l = [].
Proof. destruct l; simpl; [done|]. destruct (least l); [|done]. by destruct (cmp _ _). Qed.

Lemma least_Some {A} `{OA : Ord A} (l : list A) x :
  least l = Some x → x ∈ l ∧ ∀ y, y ∈ l → cmp x y ≠ Gt.
Proof.
  revert x; induction l as [|a l IH]; intros x; simpl; [done|].
  destruct (least l) as [b|] eqn:Hb.
  - destruct (IH b eq_refl) as [Hin Hmin]. destruct (cmp b a) eqn:Hc; intros [= <-]; split; try (by left); try (by right).
    + apply cmp_Eq in Hc as ->. intros y [->|Hy]%elem_of_cons; [by rewrite cmp_refl|auto].
    + intros y [->|Hy]%elem_of_cons; [congruence|auto].
    + intros y [->|Hy]%elem_of_cons; [by rewrite cmp_refl|].
      apply (cmp_trans a b y); [|auto]. rewrite (cmp_opp b a), Hc. done.
  - intros [= <-]. apply least_None in Hb as ->. split; [by left|].
    intros y [->|Hy]%elem_of_cons; [by rewrite cmp_refl|by apply elem_of_nil in Hy].
Qed.

(** ** Ready queues: contents and well-formedness *)

Definition contents (q : ReadyQueue) : gset QueueSliceKey :=
  ⋃ ((λ p : SegmentKey * SegmentReadyQueue, sq_slices p.2) <$> map_to_list (rq_segments q)).

Lemma elem_of_contents q k :
  k ∈ contents q ↔ ∃ seg sq, rq_segments q !! seg = Some sq ∧ k ∈ sq_slices sq.
Proof.
  unfold contents. rewrite elem_of_union_list. setoid_rewrite list_elem_of_fmap. split.
  - intros (X & ([seg sq] & -> & Hin) & Hk). apply elem_of_map_to_list in Hin. eauto.
  - intros (seg & sq & Hq & Hk). exists (sq_slices sq). split; [|done]. exists (seg, sq).
    by rewrite elem_of_map_to_list.
Qed.

(** A segment of a queue, given how many slices its segment has left. *)
Definition sq_ok (remaining : SegmentKey → nat) (seg : SegmentKey) (sq : SegmentReadyQueue) : Prop :=
  (∀ k, k ∈ sq_slices sq → id_segment (qk_id k) = seg) ∧
  ∃ first, least (elements (sq_slices sq)) = Some first ∧
    sq_head sq = Some {| qh_updated_at_secs := qk_updated_at_secs first;
                         qh_segment_remaining := remaining seg; qh_segment := seg; qh_id := qk_id first |}.

Record rq_ok (remaining : SegmentKey → nat) (q : ReadyQueue) : Prop := {
  rq_ok_segments : ∀ seg sq, rq_segments q !! seg = Some sq → sq_ok remaining seg sq;
  rq_ok_heads : ∀ h, h ∈ rq_heads q ↔ ∃ seg sq, rq_segments q !! seg = Some sq ∧ sq_head sq = Some h;
  rq_ok_len : rq_len q = size (contents q)
}.

Lemma contents_segment remaining q k :
  rq_ok remaining q →
  k ∈ contents q ↔ ∃ sq, rq_segments q !! id_segment (qk_id k) = Some sq ∧ k ∈ sq_slices sq.
Proof.
  intros [Hs _ _]. rewrite elem_of_contents. split; [|by intros (sq & ? & ?); eauto].
  intros (seg & sq & Hq & Hk). destruct (Hs seg sq Hq) as [Hseg _]. rewrite (Hseg k Hk). eauto.
Qed.

Lemma contents_default : contents ready_queue_default = ∅.
Proof.
  apply set_eq. intros k. rewrite elem_of_contents. split; [|set_solver].
  intros (? & ? & H & _). simpl in H. by rewrite lookup_empty in H.
Qed.

Lemma rq_default_ok remaining : rq_ok remaining ready_queue_default.
Proof.
  split.
  - intros seg sq. simpl. by rewrite lookup_empty.
  - intros h. simpl. split; [set_solver|]. intros (? & ? & H & _). by rewrite lookup_empty in H.
  - by rewrite contents_default.
Qed.

(** The contents depend on the slices of the segments only. *)
Lemma contents_ext q q' :
  (∀ seg, sq_slices <$> rq_segments q !! seg = sq_slices <$> rq_segments q' !! seg) → contents q = contents q'.
Proof.
  intros H. apply set_eq. intros k. rewrite !elem_of_contents.
  split; intros (seg & sq & Hsq & Hk); specialize (H seg); rewrite Hsq in H.
  - destruct (rq_segments q' !! seg) as [sq'|] eqn:Hq'; [|done]. injection H as H. exists seg, sq'. by rewrite <- H.
  - destruct (rq_segments q !! seg) as [sq'|] eqn:Hq'; [|done]. injection H as H. exists seg, sq'. by rewrite H.
Qed.

(** A queue whose segment [seg] has lost its head: the others are as they should be. *)
Record rq_headless (remaining : SegmentKey → nat) (seg : SegmentKey) (q : ReadyQueue) : Prop := {
  rh_others : ∀ seg' sq, seg' ≠ seg → rq_segments q !! seg' = Some sq → sq_ok remaining seg' sq;
  rh_seg : ∀ sq, rq_segments q !! seg = Some sq → sq_head sq = None ∧ ∀ k, k ∈ sq_slices sq → id_segment (qk_id k) = seg;
  rh_heads : ∀ h, h ∈ rq_heads q ↔ ∃ seg' sq, seg' ≠ seg ∧ rq_segments q !! seg' = Some sq ∧ sq_head sq = Some h;
  rh_len : rq_len q = size (contents q)
}.

Lemma remove_head_spec remaining seg q :
  rq_ok remaining q →
  rq_headless remaining seg (remove_head seg q) ∧
  (∀ seg', sq_slices <$> rq_segments (remove_head seg q) !! seg' = sq_slices <$> rq_segments q !! seg').
Proof.
  intros [Hs Hh Hl]. unfold remove_head. destruct (rq_segments q !! seg) as [sq|] eqn:Hq.
  - destruct (Hs seg sq Hq) as (Hseg & first & Hf & Hhd). rewrite Hhd. set (old := Build_QueueHead _ _ _ _).
    assert (∀ seg', sq_slices <$> (<[seg := {| sq_slices := sq_slices sq; sq_head := None |}]> (rq_segments q)) !! seg' =
      sq_slices <$> rq_segments q !! seg') as Hsl.
    { intros seg'. destruct (decide (seg' = seg)) as [->|Hne]; [by rewrite lookup_insert_eq, Hq|by rewrite lookup_insert_ne]. }
    split; [|exact Hsl]. split; simpl.
    + intros seg' sq' Hne. rewrite lookup_insert_ne by done. apply Hs.
    + intros sq'. rewrite lookup_insert_eq. by intros [= <-].
    + intros h. rewrite elem_of_difference, elem_of_singleton, Hh. split.
      * intros [(seg' & sq' & Hq' & Hhd') Hne]. assert (seg' ≠ seg) as Hne'.
        { intros ->. rewrite Hq in Hq'. injection Hq' as <-. rewrite Hhd in Hhd'. by injection Hhd' as <-. }
        exists seg', sq'. by rewrite lookup_insert_ne.
      * intros (seg' & sq' & Hne & Hq' & Hhd'). rewrite lookup_insert_ne in Hq' by done. split; [eauto|].
        intros ->. destruct (Hs seg' sq' Hq') as (_ & f & _ & Hhd''). rewrite Hhd' in Hhd''. unfold old in Hhd''. by simplify_eq.
    + rewrite Hl. f_equal. apply contents_ext. intros seg'. by rewrite <- Hsl.
  - split; [|done]. split.
    + intros. by apply Hs.
    + congruence.
    + intros h. rewrite Hh. split; intros (seg' & sq' & H); [|naive_solver].
      destruct H as [H1 H2]. exists seg', sq'. split_and!; [congruence|done..].
    + done.
Qed.

Lemma install_head_spec remaining seg q :
  rq_headless remaining seg q → (∀ sq, rq_segments q !! seg = Some sq → sq_slices sq ≠ ∅) →
  rq_ok remaining (install_head seg (remaining seg) q) ∧ contents (install_head seg (remaining seg) q) = contents q.
Proof.
  intros [Ho Hs Hh Hl] Hne. unfold install_head. destruct (rq_segments q !! seg) as [sq|] eqn:Hq.
  - destruct (Hs sq eq_refl) as [Hhd Hseg]. specialize (Hne sq eq_refl).
    destruct (least (elements (sq_slices sq))) as [first|] eqn:Hf.
    2:{ apply least_None, elements_empty_inv in Hf. set_solver. }
    set (head := Build_QueueHead _ _ _ _). set (q' := Build_ReadyQueue _ _ _).
    assert (contents q' = contents q) as Hc.
    { apply contents_ext. intros seg'. simpl. destruct (decide (seg' = seg)) as [->|Hn]; [by rewrite lookup_insert_eq, Hq|by rewrite lookup_insert_ne]. }
    split; [|done]. split; [| |by rewrite Hc].
    + intros seg' sq'. simpl. destruct (decide (seg' = seg)) as [->|Hn].
      * rewrite lookup_insert_eq. intros [= <-]. split; [done|]. by exists first.
      * rewrite lookup_insert_ne by done. by apply Ho.
    + intros h. simpl. rewrite elem_of_union, elem_of_singleton, Hh. split.
      * intros [->|(seg' & sq' & Hn & Hq' & Hhd')].
        -- exists seg. eexists. by rewrite lookup_insert_eq.
        -- exists seg', sq'. by rewrite lookup_insert_ne.
      * intros (seg' & sq' & Hq' & Hhd'). destruct (decide (seg' = seg)) as [->|Hn].
        -- rewrite lookup_insert_eq in Hq'. injection Hq' as <-. simpl in Hhd'. injection Hhd' as <-. by left.
        -- rewrite lookup_insert_ne in Hq' by done. right. by exists seg', sq'.
  - split; [|done]. split; [| |done].
    + intros seg' sq' Hq'. apply Ho; [congruence|done].
    + intros h. rewrite Hh. split; intros (seg' & sq' & H); [naive_solver|].
      destruct H as [H1 H2]. exists seg', sq'. split_and!; [congruence|done..].
Qed.

(** Replacing the slices of a headless segment. *)
Lemma headless_replace remaining seg q slices n :
  rq_headless remaining seg q → (∀ k, k ∈ slices → id_segment (qk_id k) = seg) →
  let q' := {| rq_segments := <[seg := {| sq_slices := slices; sq_head := None |}]> (rq_segments q);
               rq_heads := rq_heads q; rq_len := n |} in
  (n = size (contents q') → rq_headless remaining seg q') ∧
  ∀ k, k ∈ contents q' ↔ (id_segment (qk_id k) = seg ∧ k ∈ slices) ∨ (id_segment (qk_id k) ≠ seg ∧ k ∈ contents q).
Proof.
  intros [Ho Hs Hh Hl] Hk q'. split.
  - intros Hn. split; simpl.
    + intros seg' sq Hne. rewrite lookup_insert_ne by done. by apply Ho.
    + intros sq. rewrite lookup_insert_eq. by intros [= <-].
    + intros h. rewrite Hh. split; intros (seg' & sq & Hne & Hq & Hhd); exists seg', sq; split_and!; try done.
      * by rewrite lookup_insert_ne.
      * by rewrite lookup_insert_ne in Hq.
    + done.
  - intros k. rewrite !elem_of_contents. simpl. split.
    + intros (seg' & sq & Hq & Hin). destruct (decide (seg' = seg)) as [->|Hne].
      * rewrite lookup_insert_eq in Hq. injection Hq as <-. left. by split; [apply Hk|].
      * rewrite lookup_insert_ne in Hq by done. right. split; [|eauto].
        destruct (Ho seg' sq Hne Hq) as [H _]. by rewrite (H k Hin).
    + intros [[<- Hin]|[Hne (seg' & sq & Hq & Hin)]].
      * eexists _, _. rewrite lookup_insert_eq. done.
      * exists seg', sq. rewrite lookup_insert_ne; [done|]. intros <-. destruct (Hs sq Hq) as [_ H]. by apply Hne, H.
Qed.

Lemma headless_segment remaining seg q :
  rq_headless remaining seg q →
  let sq := default segment_queue_default (rq_segments q !! seg) in
  sq_head sq = None ∧ ∀ k, k ∈ sq_slices sq ↔ id_segment (qk_id k) = seg ∧ k ∈ contents q.
Proof.
  intros [Ho Hs _ _]. destruct (rq_segments q !! seg) as [sq|] eqn:Hq; simpl.
  - destruct (Hs sq eq_refl) as [H1 H2]. split; [done|]. intros k. rewrite elem_of_contents.
    split; [intros Hk; split; [by apply H2|by exists seg, sq]|].
    intros [Hks (seg' & sq' & Hq' & Hk)]. destruct (decide (seg' = seg)) as [->|Hne]; [congruence|].
    destruct (Ho seg' sq' Hne Hq') as [H3 _]. rewrite (H3 k Hk) in Hks. congruence.
  - split; [done|]. intros k. split; [set_solver|]. rewrite elem_of_contents.
    intros [Hks (seg' & sq' & Hq' & Hk)]. assert (seg' ≠ seg) as Hne by congruence.
    destruct (Ho seg' sq' Hne Hq') as [H3 _]. rewrite (H3 k Hk) in Hks. congruence.
Qed.

Lemma rq_insert_spec remaining s q :
  rq_ok remaining q →
  rq_ok remaining (rq_insert s (remaining (segment_key s)) q) ∧
  contents (rq_insert s (remaining (segment_key s)) q) = {[queue_key s]} ∪ contents q.
Proof.
  intros Hq. unfold rq_insert. destruct (remove_head_spec remaining (segment_key s) q Hq) as [Hh Hsl].
  set (q1 := remove_head (segment_key s) q) in *. pose proof (contents_ext q1 q Hsl) as Hc1.
  set (sq := default segment_queue_default (rq_segments q1 !! segment_key s)).
  destruct (headless_segment remaining (segment_key s) q1 Hh) as [Hhd Hin]. fold sq in Hhd, Hin.
  rewrite Hhd. destruct (headless_replace remaining (segment_key s) q1 ({[queue_key s]} ∪ sq_slices sq)
    (if bool_decide (queue_key s ∉ sq_slices sq) then S (rq_len q1) else rq_len q1) Hh) as [H1 H2].
  { intros k [->%elem_of_singleton|Hk]%elem_of_union; [done|]. by apply Hin. }
  set (q2 := Build_ReadyQueue _ _ _) in *.
  assert (contents q2 = {[queue_key s]} ∪ contents q1) as Hc2.
  { apply set_eq. intros k. rewrite H2, !elem_of_union, elem_of_singleton, Hin.
    destruct (decide (id_segment (qk_id k) = segment_key s)); [naive_solver|]. split; [naive_solver|].
    intros [->|?]; [done|naive_solver]. }
  assert (queue_key s ∈ sq_slices sq ↔ queue_key s ∈ contents q1) as Hmem by (rewrite Hin; naive_solver).
  destruct (install_head_spec remaining (segment_key s) q2) as [H3 H4].
  - apply H1. fold q2. rewrite Hc2, (rh_len _ _ _ Hh). case_bool_decide as Hb.
    + rewrite size_union by set_solver. by rewrite size_singleton.
    + assert (queue_key s ∈ contents q1) by (apply Hmem; by destruct (decide (queue_key s ∈ sq_slices sq))).
      f_equal. set_solver.
  - intros sq'. simpl. rewrite lookup_insert_eq. intros [= <-]. simpl. set_solver.
  - split; [done|]. by rewrite H4, Hc2, Hc1.
Qed.

Lemma rq_remove_spec remaining s q :
  rq_ok remaining q →
  rq_ok remaining (rq_remove s (remaining (segment_key s)) q).1 ∧
  contents (rq_remove s (remaining (segment_key s)) q).1 = contents q ∖ {[queue_key s]}.
Proof.
  intros Hq. unfold rq_remove. destruct (remove_head_spec remaining (segment_key s) q Hq) as [Hh Hsl].
  set (q1 := remove_head (segment_key s) q) in *. pose proof (contents_ext q1 q Hsl) as Hc1.
  destruct (headless_segment remaining (segment_key s) q1 Hh) as [Hhd Hin].
  destruct (rq_segments q1 !! segment_key s) as [sq|] eqn:Hsq; simpl in Hhd, Hin.
  2:{ simpl. destruct (install_head_spec remaining (segment_key s) q1 Hh) as [H1 H2]; [congruence|].
      split; [done|]. rewrite H2, Hc1. apply set_eq. intros k. rewrite elem_of_difference, elem_of_singleton.
      split; [|naive_solver]. intros Hk. split; [done|]. intros ->. rewrite <- Hc1 in Hk. apply (not_elem_of_empty (C := gset QueueSliceKey) (queue_key s)). by apply Hin. }
  rewrite Hhd. destruct (headless_replace remaining (segment_key s) q1 (sq_slices sq ∖ {[queue_key s]})
    (if bool_decide (queue_key s ∈ sq_slices sq) then Nat.pred (rq_len q1) else rq_len q1) Hh) as [H1 H2].
  { intros k [Hk _]%elem_of_difference. by apply Hin. }
  set (q2 := Build_ReadyQueue _ _ _) in *.
  assert (contents q2 = contents q1 ∖ {[queue_key s]}) as Hc2.
  { apply set_eq. intros k. rewrite H2, !elem_of_difference, elem_of_singleton, Hin.
    destruct (decide (id_segment (qk_id k) = segment_key s)); [naive_solver|]. split; [|naive_solver].
    intros [?|[_ ?]]; [naive_solver|]. split; [done|]. by intros ->. }
  assert (rq_headless remaining (segment_key s) q2) as Hh2.
  { apply H1. fold q2. rewrite Hc2, (rh_len _ _ _ Hh). case_bool_decide as Hb.
    - rewrite size_difference by (apply singleton_subseteq_l; by apply Hin). rewrite size_singleton. lia.
    - f_equal. assert (queue_key s ∉ contents q1) by (rewrite Hin in Hb; naive_solver). set_solver. }
  destruct (decide (sq_slices sq ∖ {[queue_key s]} = ∅)) as [He|He]; simpl.
  - (* the segment goes *)
    set (q3 := Build_ReadyQueue (delete _ _) _ _).
    assert (contents q3 = contents q2) as Hc3.
    { apply set_eq. intros k. rewrite !elem_of_contents. simpl. split.
      - intros (seg' & sq' & [Hne Hq']%lookup_delete_Some & Hk). eauto.
      - intros (seg' & sq' & Hq' & Hk). exists seg', sq'. split; [|done]. apply lookup_delete_Some. split; [|done].
        intros <-. rewrite lookup_insert_eq in Hq'. injection Hq' as <-. cbn [sq_slices] in Hk.
        rewrite He in Hk. by apply elem_of_empty in Hk. }
    split; [|by rewrite Hc3, Hc2, Hc1]. destruct Hh2 as [Ho Hs Hhh Hl]. split.
    + intros seg' sq' Hq'. simpl in Hq'. apply lookup_delete_Some in Hq' as [Hne Hq']. by apply Ho.
    + intros h. simpl in *. rewrite Hhh. split; intros (seg' & sq' & H).
      * destruct H as (Hne & Hq' & Hhd'). exists seg', sq'. rewrite lookup_delete_Some. done.
      * destruct H as [[Hne Hq']%lookup_delete_Some Hhd']. by exists seg', sq'.
    + simpl in *. by rewrite Hl, Hc3.
  - destruct (install_head_spec remaining (segment_key s) q2 Hh2) as [H3 H4].
    + intros sq'. simpl. rewrite lookup_insert_eq. by intros [= <-].
    + split; [done|]. by rewrite H4, Hc2, Hc1.
Qed.

Lemma rq_ok_ext remaining remaining' q :
  (∀ seg, is_Some (rq_segments q !! seg) → remaining seg = remaining' seg) → rq_ok remaining q → rq_ok remaining' q.
Proof.
  intros He [Hs Hh Hl]. split; [|done..]. intros seg sq Hq. destruct (Hs seg sq Hq) as (H1 & first & H2 & H3).
  split; [done|]. exists first. rewrite <- He by eauto. done.
Qed.

Lemma update_remaining_spec remaining remaining' seg q :
  rq_ok remaining q → (∀ seg', seg' ≠ seg → remaining seg' = remaining' seg') →
  rq_ok remaining' (update_segment_remaining seg (remaining' seg) q) ∧
  contents (update_segment_remaining seg (remaining' seg) q) = contents q.
Proof.
  intros Hq Hr. unfold update_segment_remaining. destruct (rq_segments q !! seg) as [sq|] eqn:Hsq.
  - destruct (remove_head_spec remaining seg q Hq) as [Hh Hsl]. rewrite <- (contents_ext _ _ Hsl).
    apply install_head_spec.
    + destruct Hh as [Ho Hs Hhh Hl]. split; [|done..]. intros seg' sq' Hne Hq'.
      destruct (Ho seg' sq' Hne Hq') as (H1 & first & H2 & H3). split; [done|]. exists first. by rewrite <- Hr.
    + intros sq' Hq'. specialize (Hsl seg). rewrite Hq', Hsq in Hsl. injection Hsl as ->.
      destruct (rq_ok_segments _ _ Hq seg sq Hsq) as (_ & first & Hf & _). intros He. rewrite He, elements_empty in Hf. done.
  - split; [|done]. eapply rq_ok_ext; [|exact Hq]. intros seg' Hs. apply Hr. intros ->. rewrite Hsq in Hs. by destruct Hs.
Qed.

Lemma lex_not_Gt c d : lex c d ≠ Gt → c = Lt ∨ (c = Eq ∧ d ≠ Gt).
Proof. destruct c; naive_solver. Qed.

Lemma rq_empty_iff remaining q : rq_ok remaining q → rq_is_empty q = true ↔ contents q = ∅.
Proof.
  intros Hq. unfold rq_is_empty. rewrite Nat.eqb_eq, (rq_ok_len _ _ Hq). split.
  - intros H. by apply leibniz_equiv, size_empty_inv.
  - intros ->. apply size_empty.
Qed.

Lemma rq_peek_None remaining q : rq_ok remaining q → rq_peek q = None ↔ contents q = ∅.
Proof.
  intros Hq. unfold rq_peek. rewrite least_None. split.
  - intros H%elements_empty_inv. apply set_eq. intros k. split; [|set_solver]. intros Hk.
    apply (contents_segment _ _ _ Hq) in Hk as (sq & Hsq & Hk).
    destruct (rq_ok_segments _ _ Hq _ _ Hsq) as (_ & first & _ & Hhd).
    assert (∃ h, h ∈ rq_heads q) as [h Hh] by (eexists; apply (rq_ok_heads _ _ Hq); eauto). set_solver.
  - intros He. destruct (elements (rq_heads q)) as [|h l] eqn:Hel; [done|]. exfalso.
    assert (h ∈ rq_heads q) as Hh by (apply elem_of_elements; rewrite Hel; by left).
    apply (rq_ok_heads _ _ Hq) in Hh as (seg & sq & Hsq & _).
    destruct (rq_ok_segments _ _ Hq _ _ Hsq) as (_ & first & Hf & _). apply least_Some in Hf as [Hf _].
    rewrite elem_of_elements in Hf. assert (first ∈ contents q) as Hin by (apply elem_of_contents; eauto).
    rewrite He in Hin. by apply elem_of_empty in Hin.
Qed.

(** The head of a queue is its oldest slice, of the segment with the fewest slices left
    among the oldest. *)
Lemma rq_peek_Some remaining q h :
  rq_ok remaining q → rq_peek q = Some h →
  (∃ k, k ∈ contents q ∧ qk_id k = qh_id h ∧ qk_updated_at_secs k = qh_updated_at_secs h) ∧
  qh_segment_remaining h = remaining (id_segment (qh_id h)) ∧
  ∀ k, k ∈ contents q →
    (qh_updated_at_secs h < qk_updated_at_secs k)%N ∨
    (qh_updated_at_secs h = qk_updated_at_secs k ∧ qh_segment_remaining h ≤ remaining (id_segment (qk_id k))).
Proof.
  intros Hq Hp. unfold rq_peek in Hp. apply least_Some in Hp as [Hin Hmin]. rewrite elem_of_elements in Hin.
  apply (rq_ok_heads _ _ Hq) in Hin as (seg & sq & Hsq & Hhd).
  destruct (rq_ok_segments _ _ Hq _ _ Hsq) as (Hseg & first & Hf & Hhd'). rewrite Hhd in Hhd'. injection Hhd' as ->.
  apply least_Some in Hf as [Hf _]. rewrite elem_of_elements in Hf. simpl. split_and!.
  - exists first. split_and!; [apply elem_of_contents; eauto|done|done].
  - by rewrite (Hseg first Hf).
  - intros k Hk. apply (contents_segment _ _ _ Hq) in Hk as (sq' & Hsq' & Hk).
    destruct (rq_ok_segments _ _ Hq _ _ Hsq') as (Hseg' & first' & Hf' & Hhd').
    apply least_Some in Hf' as [_ Hleast]. specialize (Hleast k). rewrite elem_of_elements in Hleast. specialize (Hleast Hk).
    set (h' := Build_QueueHead _ _ (id_segment (qk_id k)) _) in Hhd'.
    assert (h' ∈ elements (rq_heads q)) as Hh' by (rewrite elem_of_elements; apply (rq_ok_heads _ _ Hq); eauto).
    specialize (Hmin h' Hh'). unfold cmp in Hmin, Hleast. simpl in Hmin, Hleast.
    apply lex_not_Gt in Hleast. apply lex_not_Gt in Hmin.
    rewrite N.compare_lt_iff, N.compare_eq_iff in Hleast, Hmin.
    destruct Hmin as [?|[Heq Hmin]]; [left; lia|]. apply lex_not_Gt in Hmin.
    rewrite Nat.compare_lt_iff, Nat.compare_eq_iff in Hmin.
    destruct Hleast as [?|[? _]]; [left; lia|]. right. split; [lia|]. lia.
Qed.
