(* ===== verification/CompactionInvariant.v ===== *)
(** * CompactionInvariant: what the compaction index keeps true

    The queues, sets and counters of the index are determined by the states of the slices.
    Every operation of the index keeps this so; a plan takes only slices that were ready,
    each once, within the limits it was given, and the loop that makes it ends. *)

From S2P Require Import Prelude Bytes Text SegmentFile SourceContract WalSlice CompactionIndex.

(** ** The invariant

    [view] is what the queues should know of a slice: its record, unless the slice is
    loose, that is, between two queues in the middle of an operation. *)

Definition view (L : gset CompactionSliceId) (m : gmap CompactionSliceId SliceRecord) (id : CompactionSliceId)
    : option SliceRecord :=
  if decide (id ∈ L) then None else m !! id.

Definition in_state (v : CompactionSliceId → option SliceRecord) (st : SliceState) (id : CompactionSliceId)
    (r : SliceRecord) : Prop :=
  v id = Some r ∧ sr_state r = st.

Definition group_of (r : SliceRecord) : CompactionGroupKey := cs_group_key (sr_slice r).

Definition ids_ok (m : gmap CompactionSliceId SliceRecord) : Prop :=
  ∀ id r, m !! id = Some r → cs_id (sr_slice r) = id.

(** The waiting set and its partition by group. *)
Definition wait_ok (v : CompactionSliceId → option SliceRecord) (w : gset CompactionSliceId)
    (bg : gmap CompactionGroupKey (gset CompactionSliceId)) : Prop :=
  (∀ id, id ∈ w ↔ ∃ r, in_state v Waiting id r) ∧
  (∀ g id, id ∈ default ∅ (bg !! g) ↔ ∃ r, in_state v Waiting id r ∧ group_of r = g).

(** A family of queues, by a key of the group, holds exactly the ready slices. *)
Definition family_ok {K} `{Countable K} (key : CompactionGroupKey → K) (remaining : SegmentKey → nat)
    (v : CompactionSliceId → option SliceRecord) (qs : gmap K ReadyQueue) : Prop :=
  (∀ k q, qs !! k = Some q → rq_ok remaining q) ∧
  ∀ k x, x ∈ contents (default ready_queue_default (qs !! k)) ↔
    ∃ r, in_state v Ready (qk_id x) r ∧ key (group_of r) = k ∧ x = queue_key (sr_slice r).

Definition counts_ok (v : CompactionSliceId → option SliceRecord) (groups : gmap CompactionGroupKey ReadyQueue)
    (ready ready_groups : nat) : Prop :=
  (∃ R : gset CompactionSliceId, (∀ id, id ∈ R ↔ ∃ r, in_state v Ready id r) ∧ ready = size R) ∧
  (∃ G : gset CompactionGroupKey, (∀ g, g ∈ G ↔ contents (default ready_queue_default (groups !! g)) ≠ ∅) ∧
    ready_groups = size G).

(** The slices whose bytes count as available. *)
Definition avail_ok (L : gset CompactionSliceId) (m : gmap CompactionSliceId SliceRecord)
    (counted : gset CompactionSliceId) : Prop :=
  ∀ id, (id ∈ counted → is_Some (m !! id)) ∧
    (id ∉ L → id ∈ counted ↔ ∃ r, m !! id = Some r ∧ (sr_state r = Waiting ∨ sr_state r = Ready)).

(** Every waiting slice has an entry in the heap with its generation and due time. *)
Definition heap_ok (v : CompactionSliceId → option SliceRecord) (threshold : N) (heap : list WaitingEntry) : Prop :=
  ∀ id r, in_state v Waiting id r →
    {| we_eligible_at_secs := saturating_add U64_MAX (ie_updated_at_secs (cs_index_entry (sr_slice r))) threshold;
       we_id := id; we_generation := sr_wait_generation r |} ∈ heap.

(** No available slice is fenced, but for those in [F]. *)
Definition fence_ok (F : gset CompactionSliceId) (v : CompactionSliceId → option SliceRecord) (mi : ManifestIndex) : Prop :=
  ∀ id r, id ∉ F → v id = Some r → sr_state r = Waiting ∨ sr_state r = Ready → is_fenced mi id = false.

Definition seg_ok (m : gmap CompactionSliceId SliceRecord) (segs : gmap SegmentKey SegmentState) : Prop :=
  (∀ id r, m !! id = Some r → ∃ seg, segs !! id_segment id = Some seg ∧ id ∈ ss_ids seg ∧
    group_of r ∈ ss_groups seg ∧ lane (group_of r) ∈ ss_lanes seg) ∧
  (∀ k seg, segs !! k = Some seg → ss_remaining seg = size (ss_ids seg) ∧
    ∀ id, id ∈ ss_ids seg → id_segment id = k ∧ is_Some (m !! id)).

(** The fences are those of the manifests in flight. *)
Definition refs_of (t : CompactionTransaction) : list CompactionSliceId := from_wal_ref <$> tx_refs t.

Definition man_ok (mi : ManifestIndex) : Prop :=
  (∀ t rec, mi_records mi !! t = Some rec → tx_id (mr_txn rec) = t ∧ tx_state (mr_txn rec) ≠ TxAcked) ∧
  (∀ id, mi_fences mi !! id ≠ Some ∅) ∧
  (∀ id t, t ∈ default ∅ (mi_fences mi !! id) ↔
    ∃ rec, mi_records mi !! t = Some rec ∧ id ∈ refs_of (mr_txn rec)).

Definition lane_queues (ls : gmap CompactionLaneKey LaneState) : gmap CompactionLaneKey ReadyQueue := ls_queue <$> ls.

Record inv (L F : gset CompactionSliceId) (s : CompactionIndex) : Prop := {
  inv_ids : ids_ok (ci_slices s);
  inv_wait : wait_ok (view L (ci_slices s)) (ci_waiting s) (ci_waiting_ids_by_group s);
  inv_groups : family_ok (λ g, g) (segment_remaining s) (view L (ci_slices s)) (ci_groups s);
  inv_lanes : family_ok lane (segment_remaining s) (view L (ci_slices s)) (lane_queues (ci_lanes s));
  inv_counts : counts_ok (view L (ci_slices s)) (ci_groups s) (ci_ready_count s) (ci_ready_group_count s);
  inv_avail : avail_ok L (ci_slices s) (ci_available_counted s);
  inv_force : ∀ id, id ∈ ci_force_only_ready s → ∃ r, in_state (view L (ci_slices s)) Ready id r;
  inv_heap : heap_ok (view L (ci_slices s)) (default U64_MAX (ci_time_threshold_secs s)) (ci_waiting_by_age s);
  inv_fence : fence_ok F (view L (ci_slices s)) (ci_manifests s);
  inv_segs : seg_ok (ci_slices s) (ci_segments s);
  inv_man : man_ok (ci_manifests s)
}.

(** Between operations nothing is loose and nothing escapes the fences. *)
Definition index_inv (s : CompactionIndex) : Prop := inv ∅ ∅ s.

(** ** One slice changes

    [step v v' id]: the views agree on every other slice. *)

Definition step (v v' : CompactionSliceId → option SliceRecord) (id : CompactionSliceId) : Prop :=
  ∀ x, x ≠ id → v' x = v x.

Lemma in_state_step v v' id st x r : step v v' id → x ≠ id → in_state v' st x r ↔ in_state v st x r.
Proof. intros Hs Hx. unfold in_state. by rewrite (Hs x Hx). Qed.

(** The slice is not in state [st]. *)
Definition not_in (v : CompactionSliceId → option SliceRecord) (st : SliceState) (id : CompactionSliceId) : Prop :=
  ∀ r, ¬ in_state v st id r.

(** A property of the slices in a state changes at [id] only. *)
Lemma state_iff v v' st id x (P : SliceRecord → Prop) :
  step v v' id → x ≠ id → (∃ r, in_state v' st x r ∧ P r) ↔ (∃ r, in_state v st x r ∧ P r).
Proof. intros Hs Hx. split; intros (r & H & HP); exists r; (split; [|done]);
  by apply (in_state_step v v' id st x r Hs Hx). Qed.

Lemma state_iff' v v' st id x :
  step v v' id → x ≠ id → (∃ r, in_state v' st x r) ↔ (∃ r, in_state v st x r).
Proof. intros Hs Hx. split; intros (r & H); exists r;
  by apply (in_state_step v v' id st x r Hs Hx). Qed.

Lemma in_state_fun v st id r r' : in_state v st id r → in_state v st id r' → r = r'.
Proof. intros [? _] [? _]. congruence. Qed.

Lemma wait_enter v v' w bg id r :
  wait_ok v w bg → step v v' id → not_in v Waiting id → in_state v' Waiting id r →
  wait_ok v' ({[id]} ∪ w) (<[group_of r := {[id]} ∪ default ∅ (bg !! group_of r)]> bg).
Proof.
  intros [Hw Hbg] Hs Hn Hr. split.
  - intros x. rewrite elem_of_union, elem_of_singleton. destruct (decide (x = id)) as [->|Hx]; [naive_solver|].
    rewrite (state_iff' v v' _ id) by done. rewrite <- Hw. naive_solver.
  - intros g x. destruct (decide (x = id)) as [->|Hx].
    + destruct (decide (g = group_of r)) as [->|Hg].
      * rewrite lookup_insert_eq. simpl. split; [by eauto|set_solver].
      * rewrite lookup_insert_ne, Hbg by done. split; [intros (r0 & ? & _); by destruct (Hn r0)|].
        intros (r0 & H0 & <-). by rewrite (in_state_fun _ _ _ _ _ H0 Hr) in Hg.
    + rewrite (state_iff v v' _ id) by done. rewrite <- Hbg. destruct (decide (g = group_of r)) as [->|Hg].
      * rewrite lookup_insert_eq. simpl. set_solver.
      * by rewrite lookup_insert_ne.
Qed.

Lemma drop_waiting_elem g id bg g' x :
  x ∈ default ∅ (drop_waiting_id g id bg !! g') ↔ x ∈ default ∅ (bg !! g') ∧ ¬ (g' = g ∧ x = id).
Proof.
  unfold drop_waiting_id. destruct (bg !! g) as [ids|] eqn:Hg.
  - destruct (decide (ids ∖ {[id]} = ∅)) as [He|He]; destruct (decide (g' = g)) as [->|Hne].
    + rewrite lookup_delete_eq, Hg. simpl. assert (x ∈ ids ∖ {[id]} ↔ False) as H by (rewrite He; set_solver). set_solver.
    + rewrite lookup_delete_ne by done. naive_solver.
    + rewrite lookup_insert_eq, Hg. simpl. set_solver.
    + rewrite lookup_insert_ne by done. naive_solver.
  - split; [|by intros []]. intros H. split; [done|]. intros [-> ->]. rewrite Hg in H. by apply elem_of_empty in H.
Qed.

Lemma wait_leave v v' w bg id g :
  wait_ok v w bg → step v v' id → not_in v' Waiting id → (∀ r, in_state v Waiting id r → group_of r = g) →
  wait_ok v' (w ∖ {[id]}) (drop_waiting_id g id bg).
Proof.
  intros [Hw Hbg] Hs Hn Hg. split.
  - intros x. rewrite elem_of_difference, elem_of_singleton. destruct (decide (x = id)) as [->|Hx].
    + split; [naive_solver|]. intros (r & Hr). by destruct (Hn r).
    + rewrite (state_iff' v v' _ id) by done. rewrite <- Hw. naive_solver.
  - intros g' x. rewrite drop_waiting_elem, Hbg. destruct (decide (x = id)) as [->|Hx].
    + split; [|intros (r & Hr & _); by destruct (Hn r)]. intros [(r & Hr & <-) Hng]. exfalso. apply Hng. split; [by apply Hg|done].
    + rewrite (state_iff v v' _ id) by done. naive_solver.
Qed.

Lemma wait_same v v' w bg id :
  wait_ok v w bg → step v v' id → not_in v Waiting id → not_in v' Waiting id → wait_ok v' (w ∖ {[id]}) bg.
Proof.
  intros [Hw Hbg] Hs Hn Hn'. split.
  - intros x. rewrite elem_of_difference, elem_of_singleton. destruct (decide (x = id)) as [->|Hx].
    + split; [naive_solver|]. intros (r & Hr). by destruct (Hn' r).
    + rewrite (state_iff' v v' _ id) by done. rewrite <- Hw. naive_solver.
  - intros g x. rewrite Hbg. destruct (decide (x = id)) as [->|Hx].
    + split; intros (r & Hr & _); [by destruct (Hn r)|by destruct (Hn' r)].
    + by rewrite (state_iff v v' _ id).
Qed.

Section Families.
Context {K : Type} `{EqDecision K, Countable K} (key : CompactionGroupKey → K) (remaining : SegmentKey → nat).

Lemma family_same v v' (qs : gmap K ReadyQueue) id :
  family_ok key remaining v qs → step v v' id → not_in v Ready id → not_in v' Ready id → family_ok key remaining v' qs.
Proof.
  intros [Hok Hq] Hs Hn Hn'. split; [done|]. intros k x. rewrite Hq. destruct (decide (qk_id x = id)) as [Hx|Hx].
  - rewrite Hx. split; intros (r & Hr & _); [by destruct (Hn r)|by destruct (Hn' r)].
  - by rewrite (state_iff v v' _ id).
Qed.

Lemma queue_of_ok v (qs : gmap K ReadyQueue) k :
  family_ok key remaining v qs → rq_ok remaining (default ready_queue_default (qs !! k)).
Proof. intros [Hok _]. destruct (qs !! k) eqn:E; simpl; [eauto|apply rq_default_ok]. Qed.

Lemma family_enter v v' (qs : gmap K ReadyQueue) id r :
  family_ok key remaining v qs → step v v' id → not_in v Ready id → in_state v' Ready id r → cs_id (sr_slice r) = id →
  let k := key (group_of r) in
  let q := rq_insert (sr_slice r) (remaining (segment_key (sr_slice r))) (default ready_queue_default (qs !! k)) in
  family_ok key remaining v' (<[k := q]> qs).
Proof.
  intros Hf Hs Hn Hr Hid k q. pose proof (queue_of_ok v qs k Hf) as Hqk. destruct Hf as [Hok Hq].
  destruct (rq_insert_spec remaining (sr_slice r) _ Hqk) as [H1 H2]. fold q in H1, H2. split.
  - intros k' q'. rewrite lookup_insert_Some. naive_solver.
  - intros k' x. destruct (decide (k' = k)) as [->|Hk].
    + rewrite lookup_insert_eq. simpl. rewrite H2, elem_of_union, elem_of_singleton, Hq.
      destruct (decide (qk_id x = id)) as [Hx|Hx].
      * rewrite Hx. split; [intros [->|(r0 & ? & _)]; [by eauto|by destruct (Hn r0)]|].
        intros (r0 & H0 & _ & ->). left. by rewrite (in_state_fun _ _ _ _ _ H0 Hr).
      * rewrite (state_iff v v' _ id) by done. split; [intros [->|?]; [by destruct Hx|done]|by right].
    + rewrite lookup_insert_ne, Hq by done. destruct (decide (qk_id x = id)) as [Hx|Hx].
      * rewrite Hx. split; [intros (r0 & ? & _); by destruct (Hn r0)|].
        intros (r0 & H0 & <- & _). by rewrite (in_state_fun _ _ _ _ _ H0 Hr) in Hk.
      * by rewrite (state_iff v v' _ id).
Qed.

Lemma family_leave v v' (qs : gmap K ReadyQueue) id r :
  family_ok key remaining v qs → step v v' id → in_state v Ready id r → not_in v' Ready id → cs_id (sr_slice r) = id →
  ∃ q, qs !! key (group_of r) = Some q ∧
    family_ok key remaining v'
      (<[key (group_of r) := (rq_remove (sr_slice r) (remaining (segment_key (sr_slice r))) q).1]> qs).
Proof.
  intros [Hok Hq] Hs Hr Hn Hid. set (k := key (group_of r)).
  assert (queue_key (sr_slice r) ∈ contents (default ready_queue_default (qs !! k))) as Hin.
  { apply Hq. exists r. simpl. by rewrite Hid. }
  destruct (qs !! k) as [q|] eqn:E; simpl in Hin; [|by rewrite contents_default in Hin; apply elem_of_empty in Hin].
  exists q. split; [done|]. destruct (rq_remove_spec remaining (sr_slice r) q (Hok k q E)) as [H1 H2]. split.
  - intros k' q'. rewrite lookup_insert_Some. naive_solver.
  - intros k' x. destruct (decide (k' = k)) as [->|Hk].
    + rewrite lookup_insert_eq. simpl. rewrite H2, elem_of_difference, elem_of_singleton.
      specialize (Hq k x). rewrite E in Hq. simpl in Hq. rewrite Hq. destruct (decide (qk_id x = id)) as [Hx|Hx].
      * rewrite Hx. split; [|intros (r0 & H0 & _); by destruct (Hn r0)]. intros [(r0 & H0 & _ & Hxr) Hne].
        by rewrite (in_state_fun _ _ _ _ _ H0 Hr) in Hxr.
      * rewrite (state_iff v v' _ id) by done. split; [by intros []|]. intros Hx'. split; [done|]. intros ->. by apply Hx.
    + rewrite lookup_insert_ne, Hq by done. destruct (decide (qk_id x = id)) as [Hx|Hx].
      * rewrite Hx. split; [|intros (r0 & H0 & _); by destruct (Hn r0)]. intros (r0 & H0 & <- & _).
        by rewrite (in_state_fun _ _ _ _ _ H0 Hr) in Hk.
      * by rewrite (state_iff v v' _ id).
Qed.
End Families.

Lemma ready_enter v v' id r n :
  step v v' id → not_in v Ready id → in_state v' Ready id r →
  (∃ R : gset CompactionSliceId, (∀ x, x ∈ R ↔ ∃ r, in_state v Ready x r) ∧ n = size R) →
  ∃ R : gset CompactionSliceId, (∀ x, x ∈ R ↔ ∃ r, in_state v' Ready x r) ∧ S n = size R.
Proof.
  intros Hs Hn Hr (R & HR & ->). exists ({[id]} ∪ R). split.
  - intros x. rewrite elem_of_union, elem_of_singleton. destruct (decide (x = id)) as [->|Hx]; [naive_solver|].
    rewrite HR, (state_iff' v v' _ id) by done. naive_solver.
  - rewrite size_union, size_singleton; [done|]. assert (id ∉ R) as H; [|set_solver]. rewrite HR. intros (r0 & H0). by destruct (Hn r0).
Qed.

Lemma ready_leave v v' id r n :
  step v v' id → in_state v Ready id r → not_in v' Ready id →
  (∃ R : gset CompactionSliceId, (∀ x, x ∈ R ↔ ∃ r, in_state v Ready x r) ∧ n = size R) →
  ∃ R : gset CompactionSliceId, (∀ x, x ∈ R ↔ ∃ r, in_state v' Ready x r) ∧ Nat.pred n = size R.
Proof.
  intros Hs Hr Hn (R & HR & ->). assert (id ∈ R) as Hid by (apply HR; eauto). exists (R ∖ {[id]}). split.
  - intros x. rewrite elem_of_difference, elem_of_singleton. destruct (decide (x = id)) as [->|Hx].
    + split; [naive_solver|]. intros (r0 & H0). by destruct (Hn r0).
    + rewrite HR, (state_iff' v v' _ id) by done. naive_solver.
  - rewrite size_difference by set_solver. rewrite size_singleton. lia.
Qed.

(** The number of groups with ready slices when the queue of one group changes. *)
Lemma groups_change (groups : gmap CompactionGroupKey ReadyQueue) g q' n remaining :
  rq_ok remaining (default ready_queue_default (groups !! g)) → rq_ok remaining q' →
  (∃ G : gset CompactionGroupKey, (∀ g, g ∈ G ↔ contents (default ready_queue_default (groups !! g)) ≠ ∅) ∧ n = size G) →
  ∃ G : gset CompactionGroupKey, (∀ g', g' ∈ G ↔ contents (default ready_queue_default ((<[g := q']> groups) !! g')) ≠ ∅) ∧
    (if rq_is_empty (default ready_queue_default (groups !! g)) && negb (rq_is_empty q') then S n
     else if negb (rq_is_empty (default ready_queue_default (groups !! g))) && rq_is_empty q' then Nat.pred n
     else n) = size G.
Proof.
  intros Hq Hq' (G & HG & ->). set (q := default ready_queue_default (groups !! g)) in *.
  pose proof (rq_empty_iff _ _ Hq) as E. pose proof (rq_empty_iff _ _ Hq') as E'.
  assert (g ∈ G ↔ contents q ≠ ∅) as Hg by apply HG.
  exists (if decide (contents q' = ∅) then G ∖ {[g]} else {[g]} ∪ G). split.
  - intros g'. destruct (decide (g' = g)) as [->|Hne].
    + rewrite lookup_insert_eq. cbn [default]. destruct (decide (contents q' = ∅)) as [H|H].
      * rewrite elem_of_difference, elem_of_singleton. naive_solver.
      * rewrite elem_of_union, elem_of_singleton. naive_solver.
    + rewrite lookup_insert_ne by done. rewrite <- HG. destruct (decide (contents q' = ∅)) as [H|H].
      * rewrite elem_of_difference, elem_of_singleton. naive_solver.
      * rewrite elem_of_union, elem_of_singleton. naive_solver.
  - assert (rq_is_empty q = bool_decide (contents q = ∅)) as -> by (apply eq_bool_prop_intro; rewrite !Is_true_true, bool_decide_eq_true; done).
    assert (rq_is_empty q' = bool_decide (contents q' = ∅)) as -> by (apply eq_bool_prop_intro; rewrite !Is_true_true, bool_decide_eq_true; done).
    clear E E' HG Hq Hq'. destruct (bool_decide_reflect (contents q = ∅)) as [H|H], (decide (contents q' = ∅)) as [H'|H'];
      rewrite ?(bool_decide_eq_true_2 (contents q' = ∅)), ?(bool_decide_eq_false_2 (contents q' = ∅)) by done; simpl.
    + assert (g ∉ G) by (rewrite Hg; by intros ?). f_equal. clear -H0. set_solver.
    + assert (g ∉ G) by (rewrite Hg; by intros ?). rewrite size_union, size_singleton; [done|]. clear -H0. set_solver.
    + assert (g ∈ G) by (by apply Hg). rewrite size_difference, size_singleton by (clear -H0; set_solver). lia.
    + assert (g ∈ G) by (by apply Hg). f_equal. clear -H0. set_solver.
Qed.

Lemma counts_same v v' groups n ng id :
  counts_ok v groups n ng → step v v' id → not_in v Ready id → not_in v' Ready id → counts_ok v' groups n ng.
Proof.
  intros [(R & HR & ->) HG] Hs Hn Hn'. split; [|done]. exists R. split; [|done]. intros x. rewrite HR.
  destruct (decide (x = id)) as [->|Hx]; [|by rewrite (state_iff' v v' _ id)].
  split; intros (r & Hr); [by destruct (Hn r)|by destruct (Hn' r)].
Qed.

(** ** The smaller parts *)

Lemma heap_enter v v' t heap id r :
  heap_ok v t heap → step v v' id → in_state v' Waiting id r →
  heap_ok v' t ({| we_eligible_at_secs := saturating_add U64_MAX (ie_updated_at_secs (cs_index_entry (sr_slice r))) t;
                   we_id := id; we_generation := sr_wait_generation r |} :: heap).
Proof.
  intros Hh Hs Hr x r' Hx. destruct (decide (x = id)) as [->|Hne].
  - rewrite (in_state_fun _ _ _ _ _ Hx Hr). by left.
  - right. apply Hh. by apply (in_state_step v v' id).
Qed.

Lemma heap_leave v v' t heap id : heap_ok v t heap → step v v' id → not_in v' Waiting id → heap_ok v' t heap.
Proof.
  intros Hh Hs Hn x r' Hx. destruct (decide (x = id)) as [->|Hne]; [by destruct (Hn r')|].
  apply Hh. by apply (in_state_step v v' id).
Qed.

Lemma fence_step F v v' mi id :
  fence_ok F v mi → step v v' id →
  (∀ r, v' id = Some r → sr_state r = Waiting ∨ sr_state r = Ready → id ∉ F → is_fenced mi id = false) → fence_ok F v' mi.
Proof.
  intros Hf Hs Hid x r Hx Hv Hst. destruct (decide (x = id)) as [->|Hne]; [by eapply Hid|].
  eapply Hf; [done| |done]. by rewrite <- (Hs x Hne).
Qed.

Lemma force_step (X : gset CompactionSliceId) v v' id :
  (∀ x, x ∈ X → ∃ r, in_state v Ready x r) → step v v' id →
  ∀ x, x ∈ X ∖ {[id]} → ∃ r, in_state v' Ready x r.
Proof.
  intros HX Hs x [Hx Hne]%elem_of_difference. rewrite elem_of_singleton in Hne. rewrite (state_iff' v v' _ id) by done. auto.
Qed.

(** ** Views of single updates *)

Lemma view_insert L m id r : step (view L m) (view (L ∖ {[id]}) (<[id := r]> m)) id ∧ view (L ∖ {[id]}) (<[id := r]> m) id = Some r.
Proof.
  split.
  - intros x Hx. unfold view. rewrite lookup_insert_ne by done. repeat case_decide; set_solver.
  - unfold view. rewrite decide_False by set_solver. by rewrite lookup_insert_eq.
Qed.

Lemma view_delete L m id : step (view L m) (view (L ∖ {[id]}) (delete id m)) id ∧ view (L ∖ {[id]}) (delete id m) id = None.
Proof.
  split.
  - intros x Hx. unfold view. rewrite lookup_delete_ne by done. repeat case_decide; set_solver.
  - unfold view. rewrite decide_False by set_solver. by rewrite lookup_delete_eq.
Qed.

Lemma view_Some L m id r : view L m id = Some r ↔ id ∉ L ∧ m !! id = Some r.
Proof. unfold view. case_decide; naive_solver. Qed.

Lemma avail_set L m counted id r r' :
  avail_ok L m counted → m !! id = Some r → (sr_state r' = Waiting ∨ sr_state r' = Ready) →
  avail_ok (L ∖ {[id]}) (<[id := r']> m) ({[id]} ∪ counted).
Proof.
  intros Ha Hm Hst x. destruct (Ha x) as [H1 H2]. destruct (decide (x = id)) as [->|Hx].
  - rewrite lookup_insert_eq. split; [by eauto|]. intros _. split; [by eauto|set_solver].
  - rewrite lookup_insert_ne by done. split; [set_solver|]. intros Hn. rewrite <- H2 by set_solver. set_solver.
Qed.

Lemma avail_clear L m counted id m' :
  avail_ok L m counted → (∀ x, x ≠ id → m' !! x = m !! x) →
  (∀ r, m' !! id = Some r → sr_state r ≠ Waiting ∧ sr_state r ≠ Ready) →
  avail_ok (L ∖ {[id]}) m' (counted ∖ {[id]}).
Proof.
  intros Ha Hm Hid x. destruct (Ha x) as [H1 H2]. destruct (decide (x = id)) as [->|Hx].
  - split; [set_solver|]. intros _. split; [set_solver|]. intros (r & Hr & Hst). destruct (Hid r Hr). tauto.
  - rewrite Hm by done. split; [set_solver|]. intros Hn. rewrite <- H2 by set_solver. set_solver.
Qed.

Lemma ids_insert m id r r' : ids_ok m → m !! id = Some r → sr_slice r' = sr_slice r → ids_ok (<[id := r']> m).
Proof. intros Hi Hm Hr x y. rewrite lookup_insert_Some. intros [[<- <-]|[_ H]]; [rewrite Hr|]; eauto. Qed.

Lemma seg_insert m segs id r r' : seg_ok m segs → m !! id = Some r → sr_slice r' = sr_slice r → seg_ok (<[id := r']> m) segs.
Proof.
  intros [H1 H2] Hm Hr. split.
  - intros x y. rewrite lookup_insert_Some. unfold group_of. intros [[<- <-]|[_ H]]; [rewrite Hr|]; by apply H1.
  - intros k seg Hk. destruct (H2 k seg Hk) as [H3 H4]. split; [done|]. intros x Hx. destruct (H4 x Hx) as [? H].
    split; [done|]. destruct (decide (x = id)) as [->|Hne]; [rewrite lookup_insert_eq; eauto|by rewrite lookup_insert_ne].
Qed.

(** ** What the elementary moves do *)

Lemma set_available_eq id on s r :
  ci_slices s !! id = Some r →
  ∃ b, set_available_bytes id on s =
    with_available b (if on then {[id]} ∪ ci_available_counted s else ci_available_counted s ∖ {[id]}) s.
Proof.
  intros Hr. unfold set_available_bytes. rewrite Hr.
  case_bool_decide as Hc; destruct on; simpl; try (by eexists).
  - exists (ci_available_bytes_by_group s).
    assert ({[id]} ∪ ci_available_counted s = ci_available_counted s) as -> by set_solver. by destruct s.
  - exists (ci_available_bytes_by_group s).
    assert (ci_available_counted s ∖ {[id]} = ci_available_counted s) as -> by set_solver. by destruct s.
Qed.

(** Everything but the slices' states, the queues and the sets stays. *)
Record frame (s s' : CompactionIndex) : Prop := {
  fr_slices : ∀ x, sr_slice <$> ci_slices s' !! x = sr_slice <$> ci_slices s !! x;
  fr_segments : ci_segments s' = ci_segments s;
  fr_manifests : ci_manifests s' = ci_manifests s;
  fr_bytes : ci_byte_threshold s' = ci_byte_threshold s;
  fr_time : ci_time_threshold_secs s' = ci_time_threshold_secs s
}.

#[global] Instance frame_refl : Reflexive frame.
Proof. intros s. by split. Qed.
#[global] Instance frame_trans : Transitive frame.
Proof. intros s1 s2 s3 [] []. split; congruence. Qed.

Lemma frame_insert s s' id r r' :
  ci_slices s !! id = Some r → sr_slice r' = sr_slice r → ci_slices s' = <[id := r']> (ci_slices s) →
  ci_segments s' = ci_segments s → ci_manifests s' = ci_manifests s → ci_byte_threshold s' = ci_byte_threshold s →
  ci_time_threshold_secs s' = ci_time_threshold_secs s → frame s s'.
Proof.
  intros Hr Hs Heq ????. split; try done. intros x. rewrite Heq. destruct (decide (x = id)) as [->|Hx].
  - by rewrite lookup_insert_eq, Hr; simpl; rewrite Hs.
  - by rewrite lookup_insert_ne.
Qed.

(** A slice that is nowhere starts to wait. *)
Lemma set_waiting_spec L F s id r :
  inv L F s → ci_slices s !! id = Some r →
  not_in (view L (ci_slices s)) Waiting id → not_in (view L (ci_slices s)) Ready id →
  (id ∈ F ∨ is_fenced (ci_manifests s) id = false) →
  inv (L ∖ {[id]}) F (set_waiting id s) ∧ frame s (set_waiting id s) ∧
  ∃ gen, ci_slices (set_waiting id s) = <[id := {| sr_slice := sr_slice r; sr_state := Waiting;
                                                   sr_wait_generation := gen |}]> (ci_slices s).
Proof.
  intros Hinv Hr Hnw Hnr Hf. unfold set_waiting. simpl. rewrite Hr.
  set (r' := {| sr_slice := sr_slice r; sr_state := Waiting; sr_wait_generation := _ |}).
  match goal with |- context [set_available_bytes id true ?s0] => set (s1 := s0) end.
  destruct (set_available_eq id true s1 r') as [b ->]; [simpl; by rewrite lookup_insert_eq|].
  destruct (view_insert L (ci_slices s) id r') as [Hstep Hview].
  assert (in_state (view (L ∖ {[id]}) (<[id := r']> (ci_slices s))) Waiting id r') as Hin by done.
  assert (not_in (view (L ∖ {[id]}) (<[id := r']> (ci_slices s))) Ready id) as Hnr' by (intros x [Hx ?]; rewrite Hview in Hx; by simplify_eq).
  split_and!.
  - destruct Hinv as [I1 I2 I3 I4 I5 I6 I7 I8 I9 I10 I11]. split; simpl.
    + by eapply ids_insert.
    + exact (wait_enter _ _ _ _ id r' I2 Hstep Hnw Hin).
    + exact (family_same _ _ _ _ _ id I3 Hstep Hnr Hnr').
    + exact (family_same _ _ _ _ _ id I4 Hstep Hnr Hnr').
    + exact (counts_same _ _ _ _ _ id I5 Hstep Hnr Hnr').
    + eapply avail_set; [done|done|by left].
    + by eapply force_step.
    + exact (heap_enter _ _ _ _ id r' I8 Hstep Hin).
    + eapply fence_step; [done|done|]. intros ? _ _ Hn. by destruct Hf.
    + by eapply seg_insert.
    + done.
  - eapply frame_insert; [done| |reflexivity..]; done.
  - simpl. by eexists.
Qed.

Lemma lane_queue_default ls l :
  ls_queue (default lane_state_default (ls !! l)) = default ready_queue_default (lane_queues ls !! l).
Proof. unfold lane_queues. rewrite lookup_fmap. by destruct (ls !! l). Qed.

Lemma state_of_Some s id r : ci_slices s !! id = Some r → state_of s id = Some (sr_state r).
Proof. unfold state_of. by intros ->. Qed.

Lemma not_in_view L m st id r : m !! id = Some r → sr_state r ≠ st → not_in (view L m) st id.
Proof. intros Hm Hst r' [Hv Hr']. apply view_Some in Hv as [_ Hv]. by simplify_eq. Qed.

Lemma not_in_loose L m st id : id ∈ L → not_in (view L m) st id.
Proof. intros HL r' [Hv _]. apply view_Some in Hv. tauto. Qed.

Definition with_slice_state (r : SliceRecord) (st : SliceState) : SliceRecord :=
  {| sr_slice := sr_slice r; sr_state := st; sr_wait_generation := sr_wait_generation r |}.

(** A slice that is not ready becomes ready. *)
Lemma set_ready_spec L F s id r :
  inv L F s → ci_slices s !! id = Some r → sr_state r ≠ Ready →
  (id ∈ F ∨ is_fenced (ci_manifests s) id = false) →
  inv (L ∖ {[id]}) F (set_ready id s) ∧ frame s (set_ready id s) ∧
  ci_slices (set_ready id s) = <[id := with_slice_state r Ready]> (ci_slices s).
Proof.
  intros Hinv Hr Hst Hf. unfold set_ready. rewrite (state_of_Some s id r Hr). rewrite decide_False by congruence.
  unfold forget_waiting_id. rewrite Hr. cbn zeta.
  match goal with |- context [set_available_bytes id true ?s0] => set (s1 := s0) end.
  destruct (set_available_eq id true s1 r Hr) as [b ->].
  assert (ci_slices (with_available b ({[id]} ∪ ci_available_counted s1) s1) !! id = Some r) as -> by exact Hr.
  unfold set_state, push_ready. cbn [ci_slices with_queues with_available].
  change (segment_remaining (with_available b ({[id]} ∪ ci_available_counted s1) s1)) with (segment_remaining s).
  assert (ci_slices s1 !! id = Some r) as -> by exact Hr. fold (with_slice_state r Ready). set (r' := with_slice_state r Ready).
  destruct (view_insert L (ci_slices s) id r') as [Hstep Hview].
  assert (in_state (view (L ∖ {[id]}) (<[id := r']> (ci_slices s))) Ready id r') as Hin by done.
  assert (not_in (view (L ∖ {[id]}) (<[id := r']> (ci_slices s))) Waiting id) as Hnw' by (intros x [Hx ?]; rewrite Hview in Hx; by simplify_eq).
  pose proof (not_in_view L _ Ready id r Hr Hst) as Hnr.
  split_and!.
  - destruct Hinv as [I1 I2 I3 I4 I5 I6 I7 I8 I9 I10 I11]. split; simpl.
    + by eapply ids_insert.
    + refine (wait_leave _ _ _ _ id _ I2 Hstep Hnw' _). intros x [Hx _]. apply view_Some in Hx as [_ Hx]. by simplify_eq.
    + exact (family_enter _ _ _ _ _ id r' I3 Hstep Hnr Hin (I1 _ _ Hr)).
    + unfold lane_queues. rewrite fmap_insert. cbn [ls_queue]. rewrite lane_queue_default.
      exact (family_enter _ _ _ _ _ id r' I4 Hstep Hnr Hin (I1 _ _ Hr)).
    + destruct I5 as [I5a I5b]. split; [exact (ready_enter _ _ id r' _ Hstep Hnr Hin I5a)|].
      pose proof (queue_of_ok _ _ _ _ (group_of r) I3) as Hq. destruct (rq_insert_spec _ (sr_slice r) _ Hq) as [Hq' Hc].
      pose proof (groups_change _ _ _ _ _ Hq Hq' I5b) as HG. unfold group_of in HG.
      match type of HG with context [if ?a && negb ?b then S _ else _] =>
        destruct a eqn:Ea, b eqn:Eb; cbn [andb negb] in HG |- *; try exact HG end.
      exfalso. apply (rq_empty_iff _ _ Hq') in Eb. rewrite Hc in Eb. set_solver.
    + eapply avail_set; [done|done|by right].
    + by eapply force_step.
    + by eapply heap_leave.
    + eapply fence_step; [done|done|]. intros ? _ _ Hn. by destruct Hf.
    + by eapply seg_insert.
    + done.
  - eapply frame_insert; [done| |reflexivity..]; done.
  - done.
Qed.

(** A ready slice leaves the queues. *)
Lemma pop_ready_spec L F s id r v' :
  inv L F s → in_state (view L (ci_slices s)) Ready id r → step (view L (ci_slices s)) v' id → not_in v' Ready id →
  ∃ groups lanes ready ready_groups, pop_ready (sr_slice r) s = with_queues groups lanes ready ready_groups s ∧
    family_ok (λ g, g) (segment_remaining s) v' groups ∧ family_ok lane (segment_remaining s) v' (lane_queues lanes) ∧
    counts_ok v' groups ready ready_groups.
Proof.
  intros Hinv Hr Hs Hn. pose proof Hr as [Hm%view_Some _]. destruct Hm as [_ Hm]. pose proof (inv_ids _ _ _ Hinv _ _ Hm) as Hid.
  destruct (family_leave _ _ _ v' _ id r (inv_groups _ _ _ Hinv) Hs Hr Hn Hid) as (q & Hq & Hg).
  destruct (family_leave _ _ _ v' _ id r (inv_lanes _ _ _ Hinv) Hs Hr Hn Hid) as (ql & Hql & Hl).
  unfold lane_queues in Hql. apply lookup_fmap_Some in Hql as (st & <- & Hst). unfold group_of in *.
  unfold pop_ready. rewrite Hq, Hst. do 4 eexists. split; [reflexivity|]. split_and!.
  - exact Hg.
  - unfold lane_queues. rewrite fmap_insert. exact Hl.
  - destruct (inv_counts _ _ _ Hinv) as [I5a I5b]. split; [exact (ready_leave _ _ id r _ Hs Hr Hn I5a)|].
    pose proof (proj1 (inv_groups _ _ _ Hinv) _ _ Hq) as Hok. destruct (rq_remove_spec _ (sr_slice r) _ Hok) as [Hok' Hc].
    assert (contents q ≠ ∅) as Hne.
    { assert (queue_key (sr_slice r) ∈ contents q) as Hin; [|intros He; rewrite He in Hin; by apply elem_of_empty in Hin].
      pose proof (proj2 (inv_groups _ _ _ Hinv) (cs_group_key (sr_slice r)) (queue_key (sr_slice r))) as Hi.
      rewrite Hq in Hi. apply Hi. exists r. simpl. by rewrite Hid. }
    pose proof (groups_change (ci_groups s) (cs_group_key (sr_slice r)) (rq_remove (sr_slice r) (segment_remaining s (segment_key (sr_slice r))) q).1
      (ci_ready_group_count s) (segment_remaining s)) as HG. rewrite Hq in HG. specialize (HG Hok Hok' I5b). simpl in HG.
    destruct (rq_is_empty q) eqn:Ee; [by apply (rq_empty_iff _ _ Hok) in Ee|].
    destruct (rq_is_empty (rq_remove _ _ q).1); exact HG.
Qed.

(** What [set_fenced], [reserve_ready_slice] and [remove_slice] start with. *)
Definition detach (id : CompactionSliceId) (s : CompactionIndex) : CompactionIndex :=
  set_available_bytes id false (forget_waiting_id id (unforce id (remove_from_current_queue id s))).

Lemma detach_eq L F s id r v' :
  inv L F s → ci_slices s !! id = Some r → (id ∈ L → sr_state r ≠ Ready) →
  step (view L (ci_slices s)) v' id → not_in v' Ready id →
  ∃ groups lanes ready ready_groups b, detach id s =
      with_available b (ci_available_counted s ∖ {[id]})
        (with_force_only (ci_force_only_ready s ∖ {[id]})
          (with_waiting (ci_waiting s ∖ {[id]}) (ci_waiting_by_age s) (drop_waiting_id (group_of r) id (ci_waiting_ids_by_group s))
            (with_queues groups lanes ready ready_groups s))) ∧
    family_ok (λ g, g) (segment_remaining s) v' groups ∧ family_ok lane (segment_remaining s) v' (lane_queues lanes) ∧
    counts_ok v' groups ready ready_groups.
Proof.
  intros Hinv Hr HL Hs Hn. unfold detach, remove_from_current_queue.
  assert (ci_slices (unwait id s) !! id = Some r) as -> by exact Hr.
  destruct (decide (sr_state r = Ready)) as [Hst|Hst].
  - assert (in_state (view L (ci_slices s)) Ready id r) as Hin by (split; [apply view_Some; tauto|done]).
    destruct (pop_ready_spec L F s id r v' Hinv Hin Hs Hn) as (gs & ls & n & ng & Heq & H1 & H2 & H3).
    assert (pop_ready (sr_slice r) (unwait id s) =
      with_waiting (ci_waiting s ∖ {[id]}) (ci_waiting_by_age s) (ci_waiting_ids_by_group s) (with_queues gs ls n ng s)) as ->.
    { assert (pop_ready (sr_slice r) (unwait id s) = with_waiting (ci_waiting s ∖ {[id]}) (ci_waiting_by_age s)
        (ci_waiting_ids_by_group s) (pop_ready (sr_slice r) s)) as ->; [|by rewrite Heq].
      unfold pop_ready. simpl. by destruct (ci_groups s !! _), (ci_lanes s !! _). }
    unfold forget_waiting_id. simpl. rewrite Hr.
    match goal with |- context [set_available_bytes id false ?s0] => destruct (set_available_eq id false s0 r Hr) as [b ->] end.
    by exists gs, ls, n, ng, b.
  - unfold forget_waiting_id. simpl. rewrite Hr.
    match goal with |- context [set_available_bytes id false ?s0] => destruct (set_available_eq id false s0 r Hr) as [b ->] end.
    pose proof (not_in_view L _ Ready id r Hr Hst) as Hnr.
    exists (ci_groups s), (ci_lanes s), (ci_ready_count s), (ci_ready_group_count s), b. split_and!; [done|..].
    + exact (family_same _ _ _ _ _ id (inv_groups _ _ _ Hinv) Hs Hnr Hn).
    + exact (family_same _ _ _ _ _ id (inv_lanes _ _ _ Hinv) Hs Hnr Hn).
    + exact (counts_same _ _ _ _ _ id (inv_counts _ _ _ Hinv) Hs Hnr Hn).
Qed.

Lemma detach_spec L F s id r st :
  inv L F s → ci_slices s !! id = Some r → (id ∈ L → sr_state r ≠ Ready) → st ≠ Waiting → st ≠ Ready →
  let s' := set_state id st (detach id s) in
  inv (L ∖ {[id]}) (F ∖ {[id]}) s' ∧ frame s s' ∧ ci_slices s' = <[id := with_slice_state r st]> (ci_slices s).
Proof.
  intros Hinv Hr HL Hw Hrd. set (r' := with_slice_state r st).
  destruct (view_insert L (ci_slices s) id r') as [Hstep Hview].
  assert (not_in (view (L ∖ {[id]}) (<[id := r']> (ci_slices s))) Waiting id) as Hnw' by (intros x [Hx ?]; rewrite Hview in Hx; by simplify_eq).
  assert (not_in (view (L ∖ {[id]}) (<[id := r']> (ci_slices s))) Ready id) as Hnr' by (intros x [Hx ?]; rewrite Hview in Hx; by simplify_eq).
  destruct (detach_eq L F s id r _ Hinv Hr HL Hstep Hnr') as (gs & ls & n & ng & b & -> & H1 & H2 & H3).
  unfold set_state. cbn [ci_slices with_available with_force_only with_waiting with_queues]. rewrite Hr. fold (with_slice_state r st). fold r'.
  cbv zeta. split_and!.
  - destruct Hinv as [I1 I2 I3 I4 I5 I6 I7 I8 I9 I10 I11]. split; simpl; try done.
    + by eapply ids_insert.
    + refine (wait_leave _ _ _ _ id _ I2 Hstep Hnw' _). intros x [Hx _]. apply view_Some in Hx as [_ Hx]. by simplify_eq.
    + eapply avail_clear; [done| |].
      * intros x Hx. by rewrite lookup_insert_ne.
      * intros x. rewrite lookup_insert_eq. intros [= <-]. done.
    + by eapply force_step.
    + by eapply heap_leave.
    + intros x y Hx Hy Hst. destruct (decide (x = id)) as [->|Hne].
      * rewrite Hview in Hy. simplify_eq. simpl in Hst. by destruct Hst.
      * eapply I9; [set_solver| |exact Hst]. by rewrite <- (Hstep x Hne).
    + by eapply seg_insert.
  - eapply frame_insert; [done| |reflexivity..]; done.
  - done.
Qed.

Lemma in_state_view L m st id r : in_state (view L m) st id r ↔ id ∉ L ∧ m !! id = Some r ∧ sr_state r = st.
Proof. unfold in_state. rewrite view_Some. tauto. Qed.

Lemma inv_fences_weaken L F F' s : F ⊆ F' → inv L F s → inv L F' s.
Proof. intros HF []. split; try done. intros id r Hn. apply inv_fence0. set_solver. Qed.

Lemma set_fenced_spec L F s id r :
  inv L F s → ci_slices s !! id = Some r → (id ∈ L → sr_state r ≠ Ready) →
  inv (L ∖ {[id]}) (F ∖ {[id]}) (set_fenced id s) ∧ frame s (set_fenced id s) ∧
  ci_slices (set_fenced id s) = <[id := with_slice_state r Fenced]> (ci_slices s).
Proof. intros. by apply detach_spec. Qed.

Lemma unwait_absent L F s id : inv L F s → ci_slices s !! id = None → unwait id s = s.
Proof.
  intros Hinv Hn. unfold unwait. replace (ci_waiting s ∖ {[id]}) with (ci_waiting s); [by destruct s|].
  assert (id ∉ ci_waiting s) as Hi; [|clear -Hi; set_solver]. rewrite (proj1 (inv_wait _ _ _ Hinv)).
  intros (r & (_ & Hr & _)%in_state_view). congruence.
Qed.

Lemma unforce_absent L F s id : inv L F s → ci_slices s !! id = None → unforce id s = s.
Proof.
  intros Hinv Hn. unfold unforce. replace (ci_force_only_ready s ∖ {[id]}) with (ci_force_only_ready s); [by destruct s|].
  assert (id ∉ ci_force_only_ready s) as Hi; [|clear -Hi; set_solver]. intros Hi.
  destruct (inv_force _ _ _ Hinv id Hi) as (r & (_ & Hr & _)%in_state_view). congruence.
Qed.

Lemma set_fenced_absent L F s id : inv L F s → ci_slices s !! id = None → set_fenced id s = s.
Proof.
  intros Hinv Hn. unfold set_fenced, remove_from_current_queue. rewrite (unwait_absent L F) by done. rewrite Hn.
  rewrite (unforce_absent L F) by done. unfold forget_waiting_id. rewrite Hn.
  unfold set_available_bytes. rewrite Hn. unfold set_state. by rewrite Hn.
Qed.

Lemma detach_slices id s : ci_slices (detach id s) = ci_slices s.
Proof.
  assert (∀ b s, ci_slices (set_available_bytes id b s) = ci_slices s) as Ha.
  { intros b s0. unfold set_available_bytes. destruct (ci_slices s0 !! id) as [r|]; [|done]. cbv zeta.
    destruct (b && _); [done|]. by destruct (negb b && _). }
  assert (∀ s, ci_slices (forget_waiting_id id s) = ci_slices s) as Hw.
  { intros s0. unfold forget_waiting_id. by destruct (ci_slices s0 !! id). }
  unfold detach. rewrite Ha, Hw. unfold remove_from_current_queue. simpl. destruct (ci_slices s !! id) as [r|]; [|done].
  case_decide; [|done]. unfold pop_ready. simpl. by destruct (ci_groups s !! _), (ci_lanes s !! _).
Qed.

Lemma empty_minus (x : CompactionSliceId) : (∅ : gset CompactionSliceId) ∖ {[x]} = ∅.
Proof. set_solver. Qed.

Lemma reserve_slice_spec F s id r :
  inv ∅ F s → ci_slices s !! id = Some r → sr_state r = Ready →
  ∃ s', reserve_ready_slice id s = (Some (sr_slice r), s') ∧ inv ∅ F s' ∧ frame s s' ∧
    ci_slices s' = <[id := with_slice_state r Reserved]> (ci_slices s).
Proof.
  intros Hinv Hr Hst. unfold reserve_ready_slice. rewrite (state_of_Some _ _ _ Hr), decide_True by congruence.
  cbv zeta. fold (detach id s). destruct (detach_spec ∅ F s id r Reserved Hinv Hr) as (H1 & H2 & H3); [set_solver|done..|].
  cbv zeta in *. rewrite detach_slices, Hr. eexists. split_and!; [reflexivity| |exact H2|exact H3].
  rewrite empty_minus in H1. eapply inv_fences_weaken; [|exact H1]. set_solver.
Qed.

Lemma family_remaining {K} `{Countable K} (key : CompactionGroupKey → K) remaining remaining' v (qs : gmap K ReadyQueue) k (gs : gset K) :
  family_ok key remaining v qs → (∀ seg, seg ≠ k → remaining seg = remaining' seg) →
  (∀ id r, in_state v Ready id r → id_segment id = k → key (group_of r) ∈ gs) →
  family_ok key remaining' v
    (map_imap (λ g q, Some (if decide (g ∈ gs) then update_segment_remaining k (remaining' k) q else q)) qs).
Proof.
  intros [Hok Hq] Hrem Hgs.
  assert (∀ g q, qs !! g = Some q → let q' := if decide (g ∈ gs) then update_segment_remaining k (remaining' k) q else q in
    rq_ok remaining' q' ∧ contents q' = contents q) as Hone.
  { intros g q Hg. case_decide as Hd; [by apply (update_remaining_spec remaining); eauto|]. split; [|done].
    eapply rq_ok_ext; [|by eapply Hok]. intros seg Hseg. apply Hrem. intros ->. destruct Hseg as [sq Hsq].
    destruct (rq_ok_segments _ _ (Hok _ _ Hg) _ _ Hsq) as [Hin (first & Hfirst & _)].
    apply least_Some in Hfirst as [Hfirst _]. apply elem_of_elements in Hfirst.
    specialize (Hq g first). rewrite Hg in Hq. simpl in Hq. rewrite (contents_segment _ _ _ (Hok _ _ Hg)) in Hq.
    pose proof (Hin _ Hfirst) as Hk. rewrite Hk in Hq. destruct (proj1 Hq) as (r & Hr & <- & _); [by eauto|].
    by apply Hd, (Hgs _ _ Hr). }
  split.
  - intros g q'. rewrite map_lookup_imap. destruct (qs !! g) as [q|] eqn:Hg; [|done]. simpl. intros [= <-]. by apply Hone.
  - intros g x. rewrite <- Hq, map_lookup_imap. destruct (qs !! g) as [q|] eqn:Hg; [|done]. simpl.
    by rewrite (proj2 (Hone g q Hg)).
Qed.

(** The segment after one of its slices is gone. *)
Definition without_id (seg : SegmentState) (id : CompactionSliceId) : SegmentState :=
  {| ss_remaining := Nat.pred (ss_remaining seg); ss_ids := ss_ids seg ∖ {[id]};
     ss_groups := ss_groups seg; ss_lanes := ss_lanes seg |}.

Definition segments_without (segs : gmap SegmentKey SegmentState) (id : CompactionSliceId) (seg : SegmentState)
    : gmap SegmentKey SegmentState :=
  let segs' := <[id_segment id := without_id seg id]> segs in
  if Nat.pred (ss_remaining seg) =? 0 then delete (id_segment id) segs' else segs'.

Lemma seg_delete m segs id seg :
  seg_ok m segs → is_Some (m !! id) → segs !! id_segment id = Some seg → seg_ok (delete id m) (segments_without segs id seg).
Proof.
  intros [H1 H2] [r0 Hr0] Hseg. destruct (H2 _ _ Hseg) as [Hsz Hids].
  assert (id ∈ ss_ids seg) as Hid. { destruct (H1 _ _ Hr0) as (seg' & ? & ? & _). by simplify_eq. }
  assert (Nat.pred (ss_remaining seg) = size (ss_ids seg ∖ {[id]})) as Hsz'.
  { rewrite Hsz, size_difference, size_singleton by (clear -Hid; set_solver). lia. }
  unfold segments_without. destruct (Nat.eqb_spec (Nat.pred (ss_remaining seg)) 0) as [E|E]; split.
  - intros x r [Hne Hx]%lookup_delete_Some. destruct (H1 x r Hx) as (seg' & Hs' & Hin & ?).
    assert (id_segment x ≠ id_segment id) as Hk.
    { intros Hk. rewrite Hk, Hseg in Hs'. injection Hs' as <-. rewrite Hsz', size_empty_iff in E.
      assert (x ∈ ss_ids seg ∖ {[id]}) as Hx'; [|rewrite E in Hx'; by apply elem_of_empty in Hx'].
      apply elem_of_difference. rewrite elem_of_singleton. done. }
    exists seg'. rewrite lookup_delete_ne, lookup_insert_ne by done. done.
  - intros k seg' [Hne Hk]%lookup_delete_Some. rewrite lookup_insert_ne in Hk by done. destruct (H2 k seg' Hk) as [? H4].
    split; [done|]. intros x Hx. destruct (H4 x Hx) as [Hxk ?]. split; [done|]. rewrite lookup_delete_ne; [done|]. by intros <-.
  - intros x r [Hne Hx]%lookup_delete_Some. destruct (H1 x r Hx) as (seg' & Hs' & Hin & Hg & Hl).
    destruct (decide (id_segment x = id_segment id)) as [Hk|Hk].
    + rewrite Hk in Hs' |- *. rewrite lookup_insert_eq. simplify_eq. eexists. split; [done|]. simpl.
      rewrite elem_of_difference, elem_of_singleton. done.
    + exists seg'. rewrite lookup_insert_ne by done. done.
  - intros k seg' [[<- <-]|[Hne Hk]]%lookup_insert_Some; simpl.
    + split; [done|]. intros x [Hx Hn]%elem_of_difference. rewrite elem_of_singleton in Hn.
      destruct (Hids x Hx). split; [done|]. by rewrite lookup_delete_ne.
    + destruct (H2 k seg' Hk) as [? H4]. split; [done|]. intros x Hx. destruct (H4 x Hx) as [Hxk ?].
      split; [done|]. rewrite lookup_delete_ne; [done|]. by intros <-.
Qed.

Definition drop (id : CompactionSliceId) (seg : SegmentState) (s : CompactionIndex) : CompactionIndex :=
  let k := id_segment id in
  let remaining := Nat.pred (ss_remaining seg) in
  with_segments (segments_without (ci_segments s) id seg)
    (with_queues (remaining_in_groups k remaining (ss_groups seg) (ci_groups s))
       (remaining_in_lanes k remaining (ss_lanes seg) (ci_lanes s)) (ci_ready_count s) (ci_ready_group_count s)
       (with_slices (delete id (ci_slices s)) s)).

Lemma drop_remaining id seg s k :
  segment_remaining (drop id seg s) k =
  if decide (k = id_segment id) then Nat.pred (ss_remaining seg) else segment_remaining s k.
Proof.
  unfold segment_remaining, drop, segments_without. simpl.
  destruct (Nat.eqb_spec (Nat.pred (ss_remaining seg)) 0) as [E|E]; case_decide as Hk; subst.
  - rewrite lookup_delete_eq. simpl. lia.
  - by rewrite lookup_delete_ne, lookup_insert_ne.
  - by rewrite lookup_insert_eq.
  - by rewrite lookup_insert_ne.
Qed.

Lemma lane_queues_remaining k n ls m :
  lane_queues (remaining_in_lanes k n ls m) =
  map_imap (λ l q, Some (if decide (l ∈ ls) then update_segment_remaining k n q else q)) (lane_queues m).
Proof.
  apply map_eq. intros l. unfold lane_queues, remaining_in_lanes. rewrite map_lookup_imap, !lookup_fmap, map_lookup_imap.
  destruct (m !! l); [|done]. simpl. by case_decide.
Qed.

Lemma counts_remaining v groups k n gs a b remaining remaining' :
  (∀ g q, groups !! g = Some q → rq_ok remaining q) → (∀ seg, seg ≠ k → remaining seg = remaining' seg) → n = remaining' k →
  counts_ok v groups a b → counts_ok v (remaining_in_groups k n gs groups) a b.
Proof.
  intros Hok Hrem -> [Ha (G & HG & ->)]. split; [done|]. exists G. split; [|done]. intros g. rewrite HG.
  unfold remaining_in_groups. rewrite map_lookup_imap. destruct (groups !! g) as [q|] eqn:E; [|done]. simpl.
  case_decide; [|done]. by rewrite (proj2 (update_remaining_spec remaining remaining' k q (Hok _ _ E) Hrem)).
Qed.

(** A slice that is in no queue goes. *)
Lemma drop_spec L F s id r seg :
  inv L F s → id ∉ L → ci_slices s !! id = Some r → sr_state r ≠ Waiting → sr_state r ≠ Ready →
  ci_segments s !! id_segment id = Some seg → inv L F (drop id seg s).
Proof.
  intros Hinv HL Hr Hw Hrd Hseg.
  set (v := view L (ci_slices s)). set (v' := view L (delete id (ci_slices s))).
  assert (L ∖ {[id]} = L) as HLe by (clear -HL; set_solver).
  destruct (view_delete L (ci_slices s) id) as [Hstep Hview]. rewrite HLe in Hstep, Hview. fold v v' in Hstep, Hview.
  assert (∀ st, not_in v' st id) as Hn' by (intros st x [Hx _]; congruence).
  pose proof (not_in_view L _ Waiting id r Hr Hw) as Hnw. pose proof (not_in_view L _ Ready id r Hr Hrd) as Hnr.
  assert (∀ k, k ≠ id_segment id → segment_remaining s k = segment_remaining (drop id seg s) k) as Hrem
    by (intros k Hk; by rewrite drop_remaining, decide_False).
  assert (Nat.pred (ss_remaining seg) = segment_remaining (drop id seg s) (id_segment id)) as Hrk
    by (by rewrite drop_remaining, decide_True).
  assert (∀ x rx, in_state v' Ready x rx → id_segment x = id_segment id →
    group_of rx ∈ ss_groups seg ∧ lane (group_of rx) ∈ ss_lanes seg) as Hgs.
  { intros x rx Hx Hk. apply in_state_view in Hx as (_ & Hx & _). apply lookup_delete_Some in Hx as [_ Hx].
    destruct (proj1 (inv_segs _ _ _ Hinv) _ _ Hx) as (seg' & Hs' & _ & Hg & Hl). rewrite Hk, Hseg in Hs'. by simplify_eq. }
  assert (ci_waiting s ∖ {[id]} = ci_waiting s) as Hwe.
  { assert (id ∉ ci_waiting s) as Hi; [|clear -Hi; set_solver]. rewrite (proj1 (inv_wait _ _ _ Hinv)). intros (? & H). by destruct (Hnw _ H). }
  assert (ci_available_counted s ∖ {[id]} = ci_available_counted s) as Hce.
  { assert (id ∉ ci_available_counted s) as Hi; [|clear -Hi; set_solver]. rewrite (proj2 (inv_avail _ _ _ Hinv id) HL).
    intros (? & ? & Hst). simplify_eq. tauto. }
  destruct Hinv as [I1 I2 I3 I4 I5 I6 I7 I8 I9 I10 I11]. split.
  - intros x y Hx. change (delete id (ci_slices s) !! x = Some y) in Hx. apply lookup_delete_Some in Hx as [_ Hx]. by apply I1.
  - pose proof (wait_same v v' _ _ id I2 Hstep Hnw (Hn' _)) as H. by rewrite Hwe in H.
  - change (family_ok (λ g, g) (segment_remaining (drop id seg s)) v'
      (remaining_in_groups (id_segment id) (Nat.pred (ss_remaining seg)) (ss_groups seg) (ci_groups s))).
    unfold remaining_in_groups. rewrite Hrk.
    eapply family_remaining; [|exact Hrem|]; [exact (family_same _ _ _ _ _ id I3 Hstep Hnr (Hn' _))|].
    intros x rx Hx Hk. by destruct (Hgs x rx Hx Hk).
  - change (family_ok lane (segment_remaining (drop id seg s)) v'
      (lane_queues (remaining_in_lanes (id_segment id) (Nat.pred (ss_remaining seg)) (ss_lanes seg) (ci_lanes s)))).
    rewrite lane_queues_remaining, Hrk.
    eapply family_remaining; [|exact Hrem|]; [exact (family_same _ _ _ _ _ id I4 Hstep Hnr (Hn' _))|].
    intros x rx Hx Hk. by destruct (Hgs x rx Hx Hk).
  - eapply counts_remaining; [exact (proj1 I3)|exact Hrem|exact Hrk|]. exact (counts_same _ _ _ _ _ id I5 Hstep Hnr (Hn' _)).
  - pose proof (avail_clear L _ _ id (delete id (ci_slices s)) I6) as H. rewrite HLe, Hce in H. apply H.
    + intros x Hx. by rewrite lookup_delete_ne.
    + intros x. by rewrite lookup_delete_eq.
  - intros x Hx. change (∃ r, in_state v' Ready x r). destruct (I7 x Hx) as (rx & Hrx).
    assert (x ≠ id) as Hne by (intros ->; by destruct (Hnr rx Hrx)). rewrite (state_iff' v v' _ id) by done. by exists rx.
  - exact (heap_leave v v' _ _ id I8 Hstep (Hn' _)).
  - eapply (fence_step F v v'); [done|done|]. intros y Hy. congruence.
  - apply seg_delete; [done|by eexists|done].
  - done.
Qed.

Lemma unwait_removed id s : unwait id (remove_from_current_queue id s) = remove_from_current_queue id s.
Proof.
  unfold remove_from_current_queue. assert (∀ s, ci_waiting s = ci_waiting s ∖ {[id]} → unwait id s = s) as H.
  { intros s0 H. unfold unwait. rewrite <- H. by destruct s0. }
  destruct (ci_slices (unwait id s) !! id) as [r|]; [case_decide|]; apply H; unfold pop_ready; simpl.
  - destruct (ci_groups s !! _), (ci_lanes s !! _); simpl; set_solver.
  - set_solver.
  - set_solver.
Qed.

Lemma drop_insert id seg r d : drop id seg (with_slices (<[id := r]> (ci_slices d)) d) = drop id seg d.
Proof.
  unfold drop. assert (delete id (<[id := r]> (ci_slices d)) = delete id (ci_slices d)) as He by apply delete_insert_eq.
  change (ci_slices (with_slices (<[id := r]> (ci_slices d)) d)) with (<[id := r]> (ci_slices d)). by rewrite He.
Qed.

Lemma remove_slice_eq id s r :
  ci_slices s !! id = Some r →
  remove_slice id s =
  finish_remove id (segment_key (sr_slice r)) (with_slices (delete id (ci_slices (detach id s))) (detach id s)).
Proof. intros Hr. unfold remove_slice. rewrite Hr, unwait_removed. reflexivity. Qed.

Lemma finish_remove_eq id seg d :
  ci_segments d !! id_segment id = Some seg →
  finish_remove id (id_segment id) (with_slices (delete id (ci_slices d)) d) = (drop id seg d, true).
Proof. intros Hs. unfold finish_remove. simpl. by rewrite Hs. Qed.

Lemma remove_slice_spec F s id :
  inv ∅ F s →
  inv ∅ F (remove_slice id s).1 ∧ ci_slices (remove_slice id s).1 = delete id (ci_slices s) ∧
  ci_manifests (remove_slice id s).1 = ci_manifests s ∧
  (remove_slice id s).2 = bool_decide (is_Some (ci_slices s !! id)).
Proof.
  intros Hinv. destruct (ci_slices s !! id) as [r|] eqn:Hr.
  2:{ unfold remove_slice. rewrite Hr. split_and!; [done|by rewrite delete_id|done|done]. }
  rewrite (remove_slice_eq id s r Hr).
  destruct (detach_spec ∅ F s id r Reserved Hinv Hr) as (H1 & [_ Hseg Hman _ _] & H3); [set_solver|done..|].
  rewrite empty_minus in H1. apply (inv_fences_weaken _ _ F) in H1; [|set_solver].
  destruct (proj1 (inv_segs _ _ _ Hinv) _ _ Hr) as (seg & Hs & _). unfold segment_key.
  rewrite (inv_ids _ _ _ Hinv _ _ Hr). cbv zeta in *.
  assert (set_state id Reserved (detach id s) =
    with_slices (<[id := with_slice_state r Reserved]> (ci_slices s)) (detach id s)) as Heq
    by (unfold set_state; by rewrite detach_slices, Hr).
  rewrite Heq in H1, H3, Hseg, Hman. pose proof (detach_slices id s) as Hsl. clear Heq.
  revert H1 H3 Hseg Hman Hsl. generalize (detach id s). intros d H1 H3 Hseg Hman Hsl. simpl in Hseg, Hman.
  rewrite (finish_remove_eq id seg d) by (by rewrite Hseg). simpl. rewrite Hsl.
  pose proof (drop_spec ∅ F _ id (with_slice_state r Reserved) seg H1) as Hd. split_and!; [|done..].
  rewrite <- (drop_insert id seg (with_slice_state r Reserved)), Hsl.
  apply Hd; [set_solver|by rewrite H3, lookup_insert_eq|done|done|simpl; by rewrite Hseg].
Qed.

(** ** What the composite moves do *)

(** Outside [X], the slices that are reserved or fenced are the same. *)
Definition held_same (X : gset CompactionSliceId) (s s' : CompactionIndex) : Prop :=
  ∀ x st, x ∉ X → st = Reserved ∨ st = Fenced → state_of s' x = Some st ↔ state_of s x = Some st.

#[global] Instance held_same_refl X : Reflexive (held_same X).
Proof. by intros s x st _ _. Qed.
#[global] Instance held_same_trans X : Transitive (held_same X).
Proof. intros s1 s2 s3 H1 H2 x st Hx Hst. by rewrite (H2 x st Hx Hst), (H1 x st Hx Hst). Qed.

Lemma held_weaken (X Y : gset CompactionSliceId) s s' : X ⊆ Y → held_same X s s' → held_same Y s s'.
Proof. intros HX H x st Hx. apply H. set_solver. Qed.

Lemma held_insert X s s' id r :
  ci_slices s' = <[id := r]> (ci_slices s) →
  (id ∈ X ∨ ∃ r0, ci_slices s !! id = Some r0 ∧ sr_state r0 ≠ Reserved ∧ sr_state r0 ≠ Fenced ∧
    sr_state r ≠ Reserved ∧ sr_state r ≠ Fenced) → held_same X s s'.
Proof.
  intros Heq Hid x st Hx Hst. unfold state_of. rewrite Heq. destruct (decide (x = id)) as [->|Hne].
  - destruct Hid as [?|(r0 & -> & ? & ? & ? & ?)]; [done|]. rewrite lookup_insert_eq. simpl.
    split; intros [= <-]; by destruct Hst.
  - by rewrite lookup_insert_ne.
Qed.

Lemma inv_unfenced L F s id : inv L F s → is_fenced (ci_manifests s) id = false → inv L (F ∖ {[id]}) s.
Proof.
  intros [] Hf. split; try done. intros x r Hn Hx Hst. destruct (decide (x = id)) as [->|Hne]; [done|].
  eapply inv_fence0; [|done..]. set_solver.
Qed.

Lemma inv_tight L F s id r : inv L F s → in_state (view L (ci_slices s)) (sr_state r) id r → inv (L ∖ {[id]}) F s.
Proof.
  intros Hinv (HL & _)%in_state_view. by replace (L ∖ {[id]}) with L by (clear -HL; set_solver).
Qed.

Definition available_in (L : gset CompactionSliceId) (s : CompactionIndex) (id : CompactionSliceId) : Prop :=
  ∃ r, ci_slices s !! id = Some r ∧ id ∉ L ∧ (sr_state r = Waiting ∨ sr_state r = Ready).

Lemma set_ready_available L F s id :
  inv L F s → available_in L s id →
  inv L F (set_ready id s) ∧ frame s (set_ready id s) ∧ held_same ∅ s (set_ready id s) ∧
  state_of (set_ready id s) id = Some Ready ∧ (∀ x, available_in L s x → available_in L (set_ready id s) x) ∧
  ∀ x, x ≠ id → ci_slices (set_ready id s) !! x = ci_slices s !! x.
Proof.
  intros Hinv (r & Hr & HL & Hst). destruct (decide (sr_state r = Ready)) as [Hrd|Hrd].
  - assert (set_ready id s = s) as ->. { unfold set_ready. by rewrite (state_of_Some _ _ _ Hr), decide_True by congruence. }
    split_and!; try done. by rewrite (state_of_Some _ _ _ Hr), Hrd.
  - destruct (set_ready_spec L F s id r Hinv Hr Hrd) as (H1 & H2 & H3).
    { destruct (decide (id ∈ F)); [by left|right]. eapply (inv_fence _ _ _ Hinv); [done|by apply view_Some|done]. }
    replace (L ∖ {[id]}) with L in H1 by (clear -HL; set_solver). split_and!; try done.
    + eapply held_insert; [done|]. right. exists r. split; [done|]. simpl. destruct Hst as [Hst|Hst]; rewrite Hst; done.
    + unfold state_of. by rewrite H3, lookup_insert_eq.
    + intros x (rx & Hx & HLx & Hsx). unfold available_in. rewrite H3. destruct (decide (x = id)) as [->|Hne].
      * rewrite lookup_insert_eq. eexists. split; [done|]. simpl. auto.
      * rewrite lookup_insert_ne by done. by eauto.
    + intros x Hx. by rewrite H3, lookup_insert_ne.
Qed.

Lemma set_ready_all_spec ids : ∀ L F s,
  inv L F s → Forall (available_in L s) ids →
  inv L F (set_ready_all ids s) ∧ frame s (set_ready_all ids s) ∧ held_same ∅ s (set_ready_all ids s) ∧
  (∀ x, available_in L s x → available_in L (set_ready_all ids s) x) ∧
  ∀ x, x ∉ ids → ci_slices (set_ready_all ids s) !! x = ci_slices s !! x.
Proof.
  induction ids as [|id ids IH]; intros L F s Hinv Hall; [split_and!; done|].
  apply Forall_cons in Hall as [Hid Hall]. destruct (set_ready_available L F s id Hinv Hid) as (H1 & H2 & H3 & _ & H4 & H5).
  destruct (IH L F (set_ready id s) H1) as (J1 & J2 & J3 & J4 & J5).
  { eapply Forall_impl; [exact Hall|]. done. }
  simpl. split_and!; [done|by etrans|by etrans|by eauto|].
  intros x Hx. rewrite not_elem_of_cons in Hx. rewrite J5, H5; tauto.
Qed.

Lemma in_id_order_elem x X : x ∈ in_id_order X ↔ x ∈ X.
Proof. unfold in_id_order. by rewrite merge_sort_Permutation, elem_of_elements. Qed.

Lemma promote_group_spec L F s g :
  inv L F s →
  let s' := promote_waiting_group g s in
  inv L F s' ∧ frame s s' ∧ held_same ∅ s s' ∧ (∀ x, available_in L s x → available_in L s' x) ∧
  ∀ x, x ∈ L → ci_slices s' !! x = ci_slices s !! x.
Proof.
  intros Hinv s'.
  assert (∀ x, x ∈ in_id_order (default ∅ (ci_waiting_ids_by_group s !! g)) → available_in L s x) as Hin.
  { intros x Hx. apply in_id_order_elem, (proj2 (inv_wait _ _ _ Hinv)) in Hx as (r & (? & ? & ?)%in_state_view & _).
    exists r. auto. }
  destruct (set_ready_all_spec _ L F s Hinv (proj2 (Forall_forall _ _) Hin)) as (H1 & H2 & H3 & H4 & H5).
  split_and!; try done. intros x HL. apply H5. intros Hx. destruct (Hin x Hx) as (? & _ & ? & _). done.
Qed.

Definition moved (L : gset CompactionSliceId) (id : CompactionSliceId) (s s' : CompactionIndex) : Prop :=
  frame s s' ∧ held_same {[id]} s s' ∧ ∀ x, x ∈ L → x ≠ id → ci_slices s' !! x = ci_slices s !! x.

Lemma moved_insert L id r s s' : frame s s' → ci_slices s' = <[id := r]> (ci_slices s) → moved L id s s'.
Proof.
  intros Hf He. split_and!; [done|eapply held_insert; [done|left; set_solver]|].
  intros x _ Hx. by rewrite He, lookup_insert_ne.
Qed.

(** The waiting branch of [classify_available]. *)
Lemma wait_or_stay L F s id r :
  inv L F s → ci_slices s !! id = Some r → (id ∈ L → sr_state r ≠ Ready) → is_fenced (ci_manifests s) id = false →
  let s' := if bool_decide (id ∉ ci_waiting s) && negb (bool_decide (state_of s id = Some Ready))
            then set_waiting id s else s in
  inv (L ∖ {[id]}) F s' ∧ moved L id s s' ∧ available_in (L ∖ {[id]}) s' id.
Proof.
  intros Hinv Hr HL Hf s'. unfold s'. clear s'. rewrite (state_of_Some _ _ _ Hr).
  destruct (bool_decide_reflect (id ∉ ci_waiting s)) as [Hw|Hw], (bool_decide_reflect (Some (sr_state r) = Some Ready)) as [Hrd|Hrd]; simpl.
  - injection Hrd as Hrd. assert (id ∉ L) by naive_solver. replace (L ∖ {[id]}) with L by (clear -H; set_solver).
    split_and!; [done|by split_and!|]. exists r. auto.
  - destruct (set_waiting_spec L F s id r Hinv Hr) as (H1 & H2 & gen & H3).
    + intros x Hx. apply Hw, (proj1 (inv_wait _ _ _ Hinv)). by eexists.
    + apply (not_in_view _ _ _ _ r); congruence.
    + by right.
    + split_and!; [done|by eapply moved_insert|]. unfold available_in. rewrite H3, lookup_insert_eq.
      eexists. split; [done|]. simpl. split; [set_solver|auto].
  - injection Hrd as Hrd. assert (id ∉ L) by naive_solver. replace (L ∖ {[id]}) with L by (clear -H; set_solver).
    split_and!; [done|by split_and!|]. exists r. auto.
  - assert (id ∈ ci_waiting s) as Hi by (destruct (decide (id ∈ ci_waiting s)); [done|by destruct Hw]).
    apply (proj1 (inv_wait _ _ _ Hinv)) in Hi as (r' & (HnL & Hr' & Hst)%in_state_view). simplify_eq.
    replace (L ∖ {[id]}) with L by (clear -HnL; set_solver). split_and!; [done|by split_and!|]. exists r. auto.
Qed.

Lemma classify_spec L F s id r now :
  inv L F s → ci_slices s !! id = Some r → (id ∈ L → sr_state r ≠ Ready) →
  let s' := classify_available id now s in
  inv (L ∖ {[id]}) (F ∖ {[id]}) s' ∧ moved L id s s' ∧
  (if is_fenced (ci_manifests s) id then state_of s' id = Some Fenced else available_in (L ∖ {[id]}) s' id).
Proof.
  intros Hinv Hr HL s'. unfold s'. clear s'. unfold classify_available. destruct (is_fenced (ci_manifests s) id) eqn:Hf.
  - destruct (set_fenced_spec L F s id r Hinv Hr HL) as (H1 & H2 & H3). split_and!; [done|by eapply moved_insert|].
    unfold state_of. by rewrite H3, lookup_insert_eq.
  - rewrite Hr. pose proof (inv_unfenced _ _ _ _ Hinv Hf) as Hinv'. destruct (is_late s (sr_slice r) now).
    + destruct (decide (sr_state r = Ready)) as [Hrd|Hrd].
      * assert (id ∉ L) by naive_solver. replace (L ∖ {[id]}) with L by (clear -H; set_solver).
        assert (set_ready id s = s) as ->. { unfold set_ready. by rewrite (state_of_Some _ _ _ Hr), decide_True by congruence. }
        split_and!; [done|by split_and!|]. exists r. auto.
      * destruct (set_ready_spec L _ s id r Hinv' Hr Hrd) as (H1 & H2 & H3); [by right|].
        split_and!; [done|by eapply moved_insert|]. unfold available_in. rewrite H3, lookup_insert_eq.
        eexists. split; [done|]. simpl. split; [set_solver|auto].
    + destruct (wait_or_stay L _ s id r Hinv' Hr HL Hf) as (H1 & (H2 & H3 & H4) & H5). cbv zeta in *.
      set (s1 := if bool_decide _ && _ then _ else _) in *. case_match; [|done].
      destruct (promote_group_spec (L ∖ {[id]}) _ s1 (cs_group_key (sr_slice r)) H1) as (J1 & J2 & J3 & J4 & J5).
      split_and!; [done| |by apply J4]. split_and!; [by etrans| |].
      * etrans; [done|]. eapply held_weaken; [|exact J3]. set_solver.
      * intros x Hx Hne. rewrite J5; [by apply H4|]. set_solver.
Qed.

(** ** Promotion by age *)

Definition with_heap (h : list WaitingEntry) (s : CompactionIndex) : CompactionIndex :=
  with_waiting (ci_waiting s) h (ci_waiting_ids_by_group s) s.

Lemma set_available_heap id b h s : set_available_bytes id b (with_heap h s) = with_heap h (set_available_bytes id b s).
Proof.
  unfold set_available_bytes. simpl. destruct (ci_slices s !! id) as [r|]; [|done]. cbv zeta.
  destruct (b && _); [done|]. by destruct (negb b && _).
Qed.

Lemma set_ready_heap id h s : set_ready id (with_heap h s) = with_heap h (set_ready id s).
Proof.
  unfold set_ready. change (state_of (with_heap h s) id) with (state_of s id). destruct (decide (state_of s id = Some Ready)); [done|].
  cbv zeta. assert (forget_waiting_id id (with_heap h s) = with_heap h (forget_waiting_id id s)) as ->
    by (unfold forget_waiting_id; simpl; by destruct (ci_slices s !! id)).
  change (unforce id (unwait id (with_heap h (forget_waiting_id id s)))) with (with_heap h (unforce id (unwait id (forget_waiting_id id s)))).
  rewrite set_available_heap. set (s1 := set_available_bytes _ _ _). clearbody s1.
  change (ci_slices (with_heap h s1)) with (ci_slices s1). destruct (ci_slices s1 !! id) as [r|] eqn:E; [|done].
  change (push_ready (sr_slice r) (with_heap h s1)) with (with_heap h (push_ready (sr_slice r) s1)).
  generalize (push_ready (sr_slice r) s1). intros s2. unfold set_state. simpl. by destruct (ci_slices s2 !! id).
Qed.

Lemma heap_with_heap s : with_heap (ci_waiting_by_age s) s = s.
Proof. by destruct s. Qed.

Lemma set_ready_keeps_heap id s : ci_waiting_by_age (set_ready id s) = ci_waiting_by_age s.
Proof. rewrite <- (heap_with_heap s) at 1. by rewrite set_ready_heap. Qed.

Lemma remove_one_elem e x l : x ≠ e → x ∈ l → x ∈ remove_one e l.
Proof.
  intros Hne. induction l as [|y l IH]; [done|]. simpl. intros [->|Hx]%elem_of_cons; case_decide; subst; try done.
  - by left.
  - right. auto.
Qed.

Lemma remove_one_length e l : e ∈ l → length l = S (length (remove_one e l)).
Proof. induction l as [|y l IH]; [by intros ?%elem_of_nil|]. simpl. intros H. case_decide; [done|]. simpl. rewrite IH; [done|]. set_solver. Qed.

Lemma inv_heap_pop L F s e :
  inv L F s → (∀ r, in_state (view L (ci_slices s)) Waiting (we_id e) r → sr_wait_generation r ≠ we_generation e) →
  inv L F (with_heap (remove_one e (ci_waiting_by_age s)) s).
Proof.
  intros [] He. split; try done. simpl. intros x r Hx. apply remove_one_elem; [|by apply inv_heap0].
  intros <-. by apply (He r Hx).
Qed.

Definition promoted (F : gset CompactionSliceId) (s s' : CompactionIndex) : Prop :=
  inv ∅ F s' ∧ frame s s' ∧ held_same ∅ s s'.

Lemma promoted_trans F s1 s2 s3 : promoted F s1 s2 → promoted F s2 s3 → promoted F s1 s3.
Proof. intros (? & ? & ?) (? & ? & ?). split_and!; [done|by etrans|by etrans]. Qed.

Lemma promote_due_spec n now : ∀ F s,
  inv ∅ F s → length (ci_waiting_by_age s) ≤ n →
  let s' := promote_due_loop n now s in
  promoted F s s' ∧ ∀ e, e ∈ ci_waiting_by_age s' → (now < we_eligible_at_secs e)%N.
Proof.
  induction n as [|n IH]; intros F s Hinv Hn s'; unfold s'; clear s'; simpl.
  - split; [by split_and!|]. destruct (ci_waiting_by_age s); [by intros e ?%elem_of_nil|simpl in Hn; lia].
  - destruct (least (ci_waiting_by_age s)) as [e|] eqn:El.
    2:{ split; [by split_and!|]. apply least_None in El. rewrite El. by intros e ?%elem_of_nil. }
    apply least_Some in El as [Hin Hmin]. destruct (N.ltb_spec now (we_eligible_at_secs e)) as [Hlt|Hge].
    { split; [by split_and!|]. intros x Hx. specialize (Hmin x Hx).
      simpl in Hmin. apply lex_not_Gt in Hmin. rewrite N.compare_lt_iff, N.compare_eq_iff in Hmin. lia. }
    change (with_waiting (ci_waiting s) (remove_one e (ci_waiting_by_age s)) (ci_waiting_ids_by_group s) s)
      with (with_heap (remove_one e (ci_waiting_by_age s)) s).
    pose proof (remove_one_length _ _ Hin) as Hlen.
    set (valid := match ci_slices s !! we_id e with Some _ => _ | None => _ end).
    destruct valid eqn:Ev; unfold valid in Ev; clear valid.
    + destruct (ci_slices s !! we_id e) as [r|] eqn:Hr; [|done]. apply andb_prop in Ev as [Ev _]. apply bool_decide_eq_true in Ev.
      destruct (set_ready_available ∅ F s (we_id e) Hinv) as (H1 & H2 & H3 & H4 & _).
      { exists r. split_and!; [done|set_solver|by left]. }
      rewrite set_ready_heap. rewrite <- (set_ready_keeps_heap (we_id e) s).
      assert (inv ∅ F (with_heap (remove_one e (ci_waiting_by_age (set_ready (we_id e) s))) (set_ready (we_id e) s))) as Hi.
      { apply inv_heap_pop; [done|]. intros r' (_ & Hr' & Hst)%in_state_view. unfold state_of in H4. rewrite Hr' in H4. simpl in H4. congruence. }
      destruct (IH F _ Hi) as [J1 J2]; [simpl; rewrite set_ready_keeps_heap; lia|].
      split; [|done]. eapply promoted_trans; [|exact J1]. split_and!; [done|by destruct H2|done].
    + assert (inv ∅ F (with_heap (remove_one e (ci_waiting_by_age s)) s)) as Hi.
      { apply inv_heap_pop; [done|]. intros r (_ & Hr & Hst)%in_state_view. rewrite Hr in Ev.
        rewrite (bool_decide_eq_true_2 _ Hst) in Ev. simpl in Ev. by apply N.eqb_neq in Ev. }
      destruct (IH F _ Hi) as [J1 J2]; [simpl; lia|]. split; [|done]. eapply promoted_trans; [|exact J1]. by split_and!.
Qed.

(** ** Promotion by force and its undoing *)

Lemma waiting_available s id F : inv ∅ F s → id ∈ ci_waiting s → available_in ∅ s id.
Proof.
  intros Hinv (r & (? & ? & ?)%in_state_view)%(proj1 (inv_wait _ _ _ Hinv)). exists r. auto.
Qed.

Lemma promote_forced_spec F s id now :
  inv ∅ F s → available_in ∅ s id →
  promoted F s (promote_forced now s id) ∧ ∀ x, available_in ∅ s x → available_in ∅ (promote_forced now s id) x.
Proof.
  intros Hinv Hid. unfold promote_forced. destruct (set_ready_available ∅ F s id Hinv Hid) as (H1 & H2 & H3 & H4 & H5 & _).
  destruct (normal_eligible s id now); [by split_and!|]. split; [|done]. split_and!; [|by destruct H2|done].
  destruct H1. split; try done. simpl. intros x [->%elem_of_singleton|Hx]%elem_of_union; [|by apply inv_force0].
  unfold state_of in H4. destruct (ci_slices (set_ready id s) !! id) as [r|] eqn:E; [|done]. simplify_eq/=.
  exists r. apply in_state_view. split_and!; [set_solver|done..].
Qed.

Lemma promote_all_spec ids now : ∀ F s,
  inv ∅ F s → Forall (available_in ∅ s) ids → promoted F s (foldl (promote_forced now) s ids).
Proof.
  induction ids as [|id ids IH]; intros F s Hinv Hall; simpl; [by split_and!|].
  apply Forall_cons in Hall as [Hid Hall]. destruct (promote_forced_spec F s id now Hinv Hid) as [H1 H2].
  eapply promoted_trans; [done|]. apply IH; [by destruct H1|]. eapply Forall_impl; [exact Hall|]. done.
Qed.

Lemma promote_all_waiting_spec F s now : inv ∅ F s → promoted F s (promote_all_waiting now s).
Proof.
  intros Hinv. apply promote_all_spec; [done|]. apply Forall_forall. intros x Hx%in_id_order_elem. by eapply waiting_available.
Qed.

Lemma mark_recovered_spec F s : inv ∅ F s → promoted F s (mark_recovered_ready s).
Proof.
  intros Hinv. destruct (set_ready_all_spec (in_id_order (ci_waiting s)) ∅ F s Hinv) as (H1 & H2 & H3 & _); [|by split_and!].
  apply Forall_forall. intros x Hx%in_id_order_elem. by eapply waiting_available.
Qed.

Lemma view_loosen L m id r :
  step (view L m) (view ({[id]} ∪ L) (<[id := r]> m)) id ∧ view ({[id]} ∪ L) (<[id := r]> m) id = None.
Proof.
  split.
  - intros x Hx. unfold view. rewrite lookup_insert_ne by done. repeat case_decide; set_solver.
  - unfold view. by rewrite decide_True by set_solver.
Qed.

(** A forced slice is taken back: for a moment it is in no queue. *)
Lemma loosen_spec F s id r :
  inv ∅ F s → ci_slices s !! id = Some r → sr_state r = Ready →
  let s' := set_state id Waiting (unforce id (remove_from_current_queue id s)) in
  inv {[id]} F s' ∧ frame s s' ∧ ci_slices s' = <[id := with_slice_state r Waiting]> (ci_slices s).
Proof.
  intros Hinv Hr Hst. set (r' := with_slice_state r Waiting).
  destruct (view_loosen ∅ (ci_slices s) id r') as [Hstep Hview]. rewrite union_empty_r_L in Hstep, Hview.
  assert (∀ st, not_in (view {[id]} (<[id := r']> (ci_slices s))) st id) as Hn by (intros st x [Hx _]; congruence).
  assert (in_state (view ∅ (ci_slices s)) Ready id r) as Hin by (apply in_state_view; split_and!; [set_solver|done..]).
  unfold remove_from_current_queue. simpl. rewrite Hr, decide_True by done.
  destruct (pop_ready_spec ∅ F s id r _ Hinv Hin Hstep (Hn _)) as (gs & ls & n & ng & Heq & H1 & H2 & H3).
  assert (pop_ready (sr_slice r) (unwait id s) = unwait id (pop_ready (sr_slice r) s)) as ->
    by (unfold pop_ready; simpl; by destruct (ci_groups s !! _), (ci_lanes s !! _)).
  rewrite Heq. unfold set_state. simpl. rewrite Hr. fold (with_slice_state r Waiting). fold r'.
  assert (not_in (view ∅ (ci_slices s)) Waiting id) as Hnw by (apply (not_in_view _ _ _ _ r); congruence).
  split_and!.
  - destruct Hinv as [I1 I2 I3 I4 I5 I6 I7 I8 I9 I10 I11]. split; simpl; try done.
    + by eapply ids_insert.
    + exact (wait_same _ _ _ _ id I2 Hstep Hnw (Hn _)).
    + intros x. destruct (I6 x) as [Ha Hb]. split.
      * intros Hx. destruct (decide (x = id)) as [->|Hne]; [rewrite lookup_insert_eq; eauto|rewrite lookup_insert_ne by done; auto].
      * intros Hne. rewrite elem_of_singleton in Hne. rewrite lookup_insert_ne by done. apply Hb. set_solver.
    + by eapply force_step.
    + by eapply heap_leave.
    + eapply fence_step; [done|done|]. intros y Hy. rewrite Hview in Hy. done.
    + by eapply seg_insert.
  - eapply frame_insert; [done| |reflexivity..]; done.
  - done.
Qed.

Lemma demote_spec F s id r now :
  inv ∅ F s → ci_slices s !! id = Some r → sr_state r = Ready → id ∉ F →
  promoted F s (demote now s id).
Proof.
  intros Hinv Hr Hst HF. unfold demote. destruct (loosen_spec F s id r Hinv Hr Hst) as (H1 & H2 & H3). cbv zeta in *.
  set (s1 := set_state id Waiting (unforce id (remove_from_current_queue id s))) in *. clearbody s1.
  assert (ci_slices s1 !! id = Some (with_slice_state r Waiting)) as Hr1 by (by rewrite H3, lookup_insert_eq).
  destruct (classify_spec {[id]} F s1 id _ now H1 Hr1) as (J1 & (J2 & J3 & _) & J4); [done|].
  assert (is_fenced (ci_manifests s1) id = false) as Hnf.
  { rewrite (fr_manifests _ _ H2). eapply (inv_fence _ _ _ Hinv); [done| |by right]. by apply view_Some; split; [set_solver|]. }
  rewrite Hnf in J4. destruct J4 as (r2 & Hr2 & _ & Hst2).
  assert ({[id]} ∖ {[id]} = (∅ : gset CompactionSliceId)) as He by set_solver. rewrite He in J1.
  split_and!; [|by etrans|].
  - eapply inv_fences_weaken; [|exact J1]. set_solver.
  - intros x st _ Hs. destruct (decide (x = id)) as [->|Hne].
    + rewrite (state_of_Some _ _ _ Hr2), (state_of_Some _ _ _ Hr), Hst. split; intros [= <-].
      * destruct Hst2 as [E|E]; rewrite E in Hs; by destruct Hs.
      * by destruct Hs.
    + rewrite (J3 x st); [|set_solver|done]. unfold state_of. by rewrite H3, lookup_insert_ne.
Qed.

(** A ready slice stays ready while another is classified. *)
Definition ready_kept (X : gset CompactionSliceId) (s s' : CompactionIndex) : Prop :=
  ∀ x, x ∉ X → state_of s x = Some Ready → state_of s' x = Some Ready.

#[global] Instance ready_kept_refl X : Reflexive (ready_kept X).
Proof. by intros s x _. Qed.
#[global] Instance ready_kept_trans X : Transitive (ready_kept X).
Proof. intros s1 s2 s3 H1 H2 x Hx Hr. by apply H2, H1. Qed.

Lemma ready_kept_insert id r s s' : ci_slices s' = <[id := r]> (ci_slices s) → ready_kept {[id]} s s'.
Proof. intros He x Hx. unfold state_of. rewrite He, lookup_insert_ne; [done|set_solver]. Qed.

Lemma set_ready_kept L F s id : inv L F s → available_in L s id → ready_kept ∅ s (set_ready id s).
Proof.
  intros Hinv Hid x _ Hx. destruct (set_ready_available L F s id Hinv Hid) as (_ & _ & _ & H & _ & Ho).
  destruct (decide (x = id)) as [->|Hne]; [done|]. unfold state_of in *. by rewrite Ho.
Qed.

Lemma set_ready_all_kept ids : ∀ L F s,
  inv L F s → Forall (available_in L s) ids → ready_kept ∅ s (set_ready_all ids s).
Proof.
  induction ids as [|id ids IH]; intros L F s Hinv Hall; [done|]. apply Forall_cons in Hall as [Hid Hall]. simpl.
  destruct (set_ready_available L F s id Hinv Hid) as (H1 & _ & _ & _ & H4 & _).
  etrans; [by eapply set_ready_kept|]. eapply IH; [done|]. eapply Forall_impl; [exact Hall|]. done.
Qed.

Lemma classify_kept L F s id r now :
  inv L F s → ci_slices s !! id = Some r → (id ∈ L → sr_state r ≠ Ready) →
  ready_kept {[id]} s (classify_available id now s).
Proof.
  intros Hinv Hr HL. unfold classify_available. destruct (is_fenced (ci_manifests s) id) eqn:Hf.
  - destruct (set_fenced_spec L F s id r Hinv Hr HL) as (_ & _ & H). by eapply ready_kept_insert.
  - rewrite Hr. destruct (is_late s (sr_slice r) now).
    + destruct (decide (sr_state r = Ready)) as [Hrd|Hrd].
      * unfold set_ready. by rewrite (state_of_Some _ _ _ Hr), decide_True by congruence.
      * destruct (set_ready_spec L F s id r Hinv Hr Hrd) as (_ & _ & H3); [by right|]. by eapply ready_kept_insert.
    + destruct (wait_or_stay L F s id r Hinv Hr HL Hf) as (H1 & _ & _). cbv zeta in *.
      set (s1 := if bool_decide _ && _ then _ else _) in *.
      assert (ready_kept {[id]} s s1) as Hk.
      { unfold s1. destruct (bool_decide_reflect (id ∉ ci_waiting s)), (bool_decide_reflect (state_of s id = Some Ready)); try done.
        simpl. destruct (set_waiting_spec L F s id r Hinv Hr) as (_ & _ & gen & H); [| | |by eapply ready_kept_insert].
        - intros x Hx. apply n, (proj1 (inv_wait _ _ _ Hinv)). by eexists.
        - apply (not_in_view _ _ _ _ r); [done|]. intros Hrd. apply n0. by rewrite (state_of_Some _ _ _ Hr), Hrd.
        - by right. }
      clearbody s1. etrans; [exact Hk|]. case_match; [|done]. intros x _.
      apply (set_ready_all_kept _ (L ∖ {[id]}) F s1 H1); [|set_solver]. apply Forall_forall. intros y Hy.
      apply in_id_order_elem, (proj2 (inv_wait _ _ _ H1)) in Hy as (ry & (? & ? & ?)%in_state_view & _). exists ry. auto.
Qed.

Lemma demote_kept F s id r now :
  inv ∅ F s → ci_slices s !! id = Some r → sr_state r = Ready → ready_kept {[id]} s (demote now s id).
Proof.
  intros Hinv Hr Hst. unfold demote. destruct (loosen_spec F s id r Hinv Hr Hst) as (H1 & H2 & H3). cbv zeta in *.
  set (s1 := set_state id Waiting (unforce id (remove_from_current_queue id s))) in *. clearbody s1.
  etrans; [by eapply ready_kept_insert|]. eapply (classify_kept _ _ s1 id (with_slice_state r Waiting));
    [done|by rewrite H3, lookup_insert_eq|done].
Qed.

Lemma demote_all_spec ids now : ∀ s,
  inv ∅ ∅ s → NoDup ids → Forall (λ id, state_of s id = Some Ready) ids → promoted ∅ s (foldl (demote now) s ids).
Proof.
  induction ids as [|id ids IH]; intros s Hinv Hnd Hall; simpl; [by split_and!|].
  apply NoDup_cons in Hnd as [Hni Hnd]. apply Forall_cons in Hall as [Hid Hall].
  unfold state_of in Hid. destruct (ci_slices s !! id) as [r|] eqn:Hr; [|done]. simpl in Hid. injection Hid as H0.
  pose proof (demote_spec ∅ s id r now Hinv Hr H0) as Hp. eapply promoted_trans; [apply Hp; set_solver|].
  apply IH; [apply Hp; set_solver|done|]. apply Forall_forall. intros x Hx.
  apply (demote_kept ∅ s id r now Hinv Hr H0); [set_solver|]. by apply (proj1 (Forall_forall _ _) Hall).
Qed.

Lemma in_id_order_NoDup X : NoDup (in_id_order X).
Proof. unfold in_id_order. rewrite merge_sort_Permutation. apply NoDup_elements. Qed.

Lemma demote_force_only_spec s now : inv ∅ ∅ s → promoted ∅ s (demote_force_only now s).
Proof.
  intros Hinv. apply demote_all_spec; [done|apply in_id_order_NoDup|]. apply Forall_forall. intros x Hx%in_id_order_elem.
  destruct (inv_force _ _ _ Hinv x Hx) as (r & (_ & Hr & Hst)%in_state_view). by rewrite (state_of_Some _ _ _ Hr), Hst.
Qed.

Lemma promote_for_plan_spec force now s : inv ∅ ∅ s → promoted ∅ s (promote_for_plan force now s).
Proof.
  intros Hinv. unfold promote_for_plan. destruct force; [by apply promote_all_waiting_spec|].
  pose proof (demote_force_only_spec s now Hinv) as Hd. eapply promoted_trans; [done|].
  by apply promote_due_spec; [apply Hd|].
Qed.

(** ** New thresholds *)

Lemma loose_state L F s id r st :
  inv L F s → id ∈ L → ci_slices s !! id = Some r →
  let s' := set_state id st s in
  inv L F s' ∧ frame s s' ∧ ci_slices s' = <[id := with_slice_state r st]> (ci_slices s).
Proof.
  intros Hinv HL Hr s'. unfold s', set_state. rewrite Hr. fold (with_slice_state r st). set (r' := with_slice_state r st).
  assert (∀ x, view L (<[id := r']> (ci_slices s)) x = view L (ci_slices s) x) as Hv.
  { intros x. unfold view. case_decide as Hx; [done|]. rewrite lookup_insert_ne; [done|]. by intros <-. }
  assert (∀ x st r, in_state (view L (<[id := r']> (ci_slices s))) st x r ↔ in_state (view L (ci_slices s)) st x r) as Hs
    by (intros; unfold in_state; by rewrite Hv).
  split_and!; [|eapply frame_insert; [done| |reflexivity..]; done|done].
  destruct Hinv as [I1 [I2a I2b] [I3a I3b] [I4a I4b] [(R & HR & HRn) I5b] I6 I7 I8 I9 I10 I11]. split; simpl; try done.
  - by eapply ids_insert.
  - split; [intros x; rewrite I2a|intros g x; rewrite I2b]; split; intros (rx & Hx); exists rx; by rewrite ?Hs in *.
  - split; [done|]. intros g x. rewrite I3b. split; intros (rx & Hx); exists rx; by rewrite ?Hs in *.
  - split; [done|]. intros g x. rewrite I4b. split; intros (rx & Hx); exists rx; by rewrite ?Hs in *.
  - split; [|done]. exists R. split; [|done]. intros x. rewrite HR. split; intros (rx & Hx); exists rx; by rewrite ?Hs in *.
  - intros x. destruct (I6 x) as [Ha Hb]. split.
    + intros Hx. destruct (decide (x = id)) as [->|Hne]; [rewrite lookup_insert_eq; eauto|rewrite lookup_insert_ne by done; auto].
    + intros Hne. rewrite lookup_insert_ne by (by intros <-). by apply Hb.
  - intros x Hx. destruct (I7 x Hx) as (rx & Hrx). exists rx. by rewrite Hs.
  - intros x rx Hx. apply I8. by rewrite <- Hs.
  - intros x rx Hn Hx. rewrite Hv in Hx. by eapply I9.
  - by eapply seg_insert.
Qed.

Lemma reclassify_spec L F s id now :
  inv L F s → id ∈ L → is_Some (ci_slices s !! id) → is_fenced (ci_manifests s) id = false →
  let s' := reclassify now s id in
  inv (L ∖ {[id]}) F s' ∧ frame s s' ∧ held_same {[id]} s s' ∧ available_in ∅ s' id ∧
  ∀ x, x ∈ L → x ≠ id → ci_slices s' !! x = ci_slices s !! x.
Proof.
  intros Hinv HL [r Hr] Hf s'. unfold s', reclassify. destruct (loose_state L F s id r Waiting Hinv HL Hr) as (H1 & H2 & H3).
  cbv zeta in *. set (s1 := set_state id Waiting s) in *. clearbody s1.
  assert (ci_slices s1 !! id = Some (with_slice_state r Waiting)) as Hr1 by (by rewrite H3, lookup_insert_eq).
  destruct (classify_spec L F s1 id _ now H1 Hr1) as (J1 & (J2 & J3 & J4) & J5); [done|].
  rewrite (fr_manifests _ _ H2), Hf in J5. split_and!; [|by etrans| | |].
  - eapply inv_fences_weaken; [|exact J1]. set_solver.
  - etrans; [|exact J3]. eapply held_insert; [exact H3|left; set_solver].
  - destruct J5 as (r2 & ? & _ & ?). exists r2. split_and!; [done|set_solver|done].
  - intros x Hx Hne. rewrite J4 by done. by rewrite H3, lookup_insert_ne.
Qed.

Definition available (s : CompactionIndex) (id : CompactionSliceId) : Prop :=
  state_of s id = Some Waiting ∨ state_of s id = Some Ready.

(** Slices that were available and are classified anew stay available. *)
Lemma reclassify_all_spec ids now : ∀ F s,
  inv (list_to_set ids) F s → NoDup ids → Forall (λ id, available s id ∧ is_fenced (ci_manifests s) id = false) ids →
  promoted F s (foldl (reclassify now) s ids).
Proof.
  induction ids as [|id ids IH]; intros F s Hinv Hnd Hall; simpl; [by split_and!|].
  apply NoDup_cons in Hnd as [Hni Hnd]. apply Forall_cons in Hall as [[Hav Hf] Hall].
  assert (is_Some (ci_slices s !! id)) as Hid.
  { unfold available, state_of in Hav. destruct (ci_slices s !! id); [by eexists|]. by destruct Hav. }
  destruct (reclassify_spec _ F s id now Hinv) as (H1 & H2 & H3 & H4 & H5); [set_solver|done|done|].
  replace (list_to_set (id :: ids) ∖ {[id]}) with (list_to_set ids : gset CompactionSliceId) in H1 by set_solver.
  destruct (IH F (reclassify now s id) H1 Hnd) as (J1 & J2 & J3).
  { apply Forall_forall. intros x Hx. destruct (proj1 (Forall_forall _ _) Hall x Hx) as [Ha Hfx].
    split; [|by rewrite (fr_manifests _ _ H2)]. unfold available, state_of. rewrite H5; [done| |].
    - apply elem_of_list_to_set. by right.
    - by intros ->. }
  split_and!; [done|by etrans|]. etrans; [|exact J3]. intros x st _ Hst. destruct (decide (x = id)) as [->|Hne].
  - destruct H4 as (r & Hr & _ & Hr'). rewrite (state_of_Some _ _ _ Hr). unfold available in Hav. split.
    + intros [= E]. rewrite E in Hr'. destruct Hst, Hr'; congruence.
    + intros E. rewrite E in Hav. destruct Hst, Hav; congruence.
  - apply H3; [set_solver|done].
Qed.

Lemma available_ids_elem s id : id ∈ available_ids s ↔ available s id.
Proof.
  unfold available_ids, available, state_of. rewrite list_elem_of_fmap. split.
  - intros ([id' r] & -> & [Hst Hin]%list_elem_of_filter). apply elem_of_map_to_list in Hin. simpl in *. rewrite Hin. simpl.
    destruct Hst as [E|E]; rewrite E; auto.
  - intros H. destruct (ci_slices s !! id) as [r|] eqn:E; [|by destruct H]. exists (id, r). split; [done|].
    apply list_elem_of_filter. rewrite elem_of_map_to_list. simpl in *. split; [|done]. destruct H; [left|right]; congruence.
Qed.

Lemma available_ids_NoDup s : NoDup (available_ids s).
Proof.
  unfold available_ids. apply NoDup_fmap_fst; [|apply NoDup_filter, NoDup_map_to_list].
  intros id r1 r2 [_ H1]%list_elem_of_filter [_ H2]%list_elem_of_filter.
  apply elem_of_map_to_list in H1, H2. congruence.
Qed.

Lemma cleared_inv F s : inv ∅ F s → inv (list_to_set (available_ids s)) F (clear_queues s).
Proof.
  intros Hinv.
  assert (∀ st x, st = Waiting ∨ st = Ready → not_in (view (list_to_set (available_ids s)) (ci_slices s)) st x) as Hn.
  { intros st x Hst r (HL & Hr & Hrs)%in_state_view. apply HL, elem_of_list_to_set, available_ids_elem.
    unfold available. rewrite (state_of_Some _ _ _ Hr). destruct Hst; [left|right]; congruence. }
  destruct Hinv as [I1 I2 I3 I4 I5 I6 I7 I8 I9 I10 I11].
  assert (∀ st x, st = Waiting ∨ st = Ready → ¬ ∃ r, in_state (view (list_to_set (available_ids s)) (ci_slices s)) st x r) as Hn'.
  { intros st x Hst (r & Hr). exact (Hn st x Hst r Hr). }
  split; simpl; try done.
  - split; [intros x|intros g x; rewrite lookup_empty; simpl]; (split; [set_solver|]).
    + intros Hx. exfalso. eapply Hn'; [by left|exact Hx].
    + intros (r & Hr & _). exfalso. eapply Hn'; [by left|by exists r].
  - split; [intros g q; by rewrite lookup_empty|]. intros g x. rewrite lookup_empty. simpl. rewrite contents_default.
    split; [set_solver|]. intros (r & Hr & _). exfalso. eapply Hn'; [by right|by exists r].
  - unfold lane_queues. rewrite fmap_empty. split; [intros g q; by rewrite lookup_empty|]. intros g x. rewrite lookup_empty. simpl.
    rewrite contents_default. split; [set_solver|]. intros (r & Hr & _). exfalso. eapply Hn'; [by right|by exists r].
  - split; exists ∅; rewrite size_empty; (split; [|done]).
    + intros x. split; [set_solver|]. intros Hx. exfalso. eapply Hn'; [by right|exact Hx].
    + intros g. rewrite lookup_empty. simpl. rewrite contents_default. split; [set_solver|done].
  - intros x. split; [by intros ?%elem_of_empty|]. intros Hx. split; [by intros ?%elem_of_empty|]. intros (r & Hr & Hst). exfalso.
    apply Hx, elem_of_list_to_set, available_ids_elem. unfold available. rewrite (state_of_Some _ _ _ Hr).
    destruct Hst as [E|E]; rewrite E; auto.
  - intros x r Hr. exfalso. apply (Hn Waiting x (or_introl eq_refl) r). exact Hr.
  - intros x r _ Hx Hst. exfalso. destruct Hst as [E|E]; (eapply Hn'; [|exists r; split; [exact Hx|exact E]]); auto.
Qed.

(** What a change of thresholds leaves alone. *)
Record same_slices (s s' : CompactionIndex) : Prop := {
  sm_slices : ∀ x, sr_slice <$> ci_slices s' !! x = sr_slice <$> ci_slices s !! x;
  sm_segments : ci_segments s' = ci_segments s;
  sm_manifests : ci_manifests s' = ci_manifests s
}.

#[global] Instance same_slices_refl : Reflexive same_slices.
Proof. intros s. by split. Qed.
#[global] Instance same_slices_trans : Transitive same_slices.
Proof. intros s1 s2 s3 [] []. split; congruence. Qed.

Lemma frame_same s s' : frame s s' → same_slices s s'.
Proof. by intros []. Qed.

Section Iterated.
Context (iter_slices : list CompactionSliceId → list CompactionSliceId).
Context (iter_perm : ∀ l, iter_slices l ≡ₚ l).

Lemma rebuild_spec s b t now :
  inv ∅ ∅ s →
  let s1 := with_thresholds b t s in
  let s' := rebuild_available_queues iter_slices now s1 in
  inv ∅ ∅ s' ∧ same_slices s s' ∧ held_same ∅ s s' ∧ ci_byte_threshold s' = b ∧ ci_time_threshold_secs s' = t.
Proof.
  intros Hinv s1 s'. unfold s', rebuild_available_queues. set (s2 := clear_queues s1).
  assert (inv (list_to_set (available_ids s)) ∅ s2) as H2.
  { destruct (cleared_inv ∅ s Hinv). split; try done. intros x r Hr. exfalso.
    apply in_state_view in Hr as (HL & Hr & Hst). apply HL, elem_of_list_to_set, available_ids_elem. left.
    change (ci_slices s !! x = Some r) in Hr. by rewrite (state_of_Some _ _ _ Hr), Hst. }
  change (available_ids s2) with (available_ids s).
  assert (list_to_set (iter_slices (available_ids s)) = (list_to_set (available_ids s) : gset CompactionSliceId)) as Hset.
  { apply set_eq. intros x. by rewrite !elem_of_list_to_set, iter_perm. }
  rewrite <- Hset in H2. destruct (reclassify_all_spec _ now ∅ s2 H2) as (J1 & J2 & J3).
  - rewrite iter_perm. apply available_ids_NoDup.
  - apply Forall_forall. intros x Hx. rewrite iter_perm in Hx. apply available_ids_elem in Hx. split; [done|].
    unfold available, state_of in Hx. destruct (ci_slices s !! x) as [r|] eqn:Hr; [|by destruct Hx].
    eapply (inv_fence _ _ _ Hinv); [|apply view_Some; split; [|exact Hr]|]; [set_solver..|]. simpl in Hx. destruct Hx; [left|right]; congruence.
  - split_and!; [done| |done|by rewrite (fr_bytes _ _ J2)|by rewrite (fr_time _ _ J2)]. by apply frame_same in J2 as [].
Qed.

Lemma configure_spec s b t now :
  inv ∅ ∅ s →
  let s' := configure_thresholds iter_slices b t now s in
  inv ∅ ∅ s' ∧ same_slices s s' ∧ held_same ∅ s s' ∧ ci_byte_threshold s' = Some b ∧ ci_time_threshold_secs s' = Some t.
Proof.
  intros Hinv s'. unfold s', configure_thresholds.
  destruct (bool_decide_reflect (ci_byte_threshold s = Some b)), (bool_decide_reflect (ci_time_threshold_secs s = Some t));
    simpl; [by split_and!|by apply rebuild_spec..].
Qed.
End Iterated.

(** ** Removal *)

Lemma remove_slices_spec ids : ∀ F s,
  inv ∅ F s → inv ∅ F (remove_slices ids s) ∧ ci_manifests (remove_slices ids s) = ci_manifests s ∧
  ∀ x, ci_slices (remove_slices ids s) !! x = if decide (x ∈ ids) then None else ci_slices s !! x.
Proof.
  induction ids as [|id ids IH]; intros F s Hinv; simpl; [by split_and!|].
  destruct (remove_slice_spec F s id Hinv) as (H1 & H2 & H3 & _). destruct (IH F _ H1) as (J1 & J2 & J3).
  split_and!; [done|congruence|]. intros x. rewrite J3, H2. destruct (decide (x = id)) as [->|Hne].
  - rewrite lookup_delete_eq, (decide_True (P := id ∈ id :: ids)) by (by left). by case_decide.
  - rewrite lookup_delete_ne by done. repeat case_decide; set_solver.
Qed.

Lemma remove_counted_eq ids : ∀ s, (remove_counted ids s).2 = remove_slices ids s.
Proof.
  induction ids as [|id ids IH]; intros s; [done|]. simpl. rewrite <- IH.
  destruct (remove_slice id s) as [s1 b]. simpl. by destruct (remove_counted ids s1).
Qed.

Lemma remove_segment_spec F s k :
  inv ∅ F s → inv ∅ F (remove_segment k s) ∧ ci_manifests (remove_segment k s) = ci_manifests s ∧
  ∀ x, ci_slices (remove_segment k s) !! x = if decide (si_segment_id x = k) then None else ci_slices s !! x.
Proof.
  intros Hinv. unfold remove_segment. destruct (remove_slices_spec (segment_ids k s) F s Hinv) as (H1 & H2 & H3).
  split_and!; [done..|]. intros x. rewrite H3. clear H1 H2 H3.
  assert (x ∈ segment_ids k s ↔ is_Some (ci_slices s !! x) ∧ si_segment_id x = k) as Hx.
  { unfold segment_ids. rewrite in_id_order_elem, elem_of_list_to_set, list_elem_of_In, in_concat.
    setoid_rewrite <- list_elem_of_In. setoid_rewrite list_elem_of_fmap.
    split.
    - intros (l & (p & -> & [Hk Hp]%list_elem_of_filter) & Hx). destruct p as [k' seg]. apply elem_of_map_to_list in Hp.
      simpl in *. apply elem_of_elements in Hx. destruct (proj2 (inv_segs _ _ _ Hinv) _ _ Hp) as [_ Hids].
      destruct (Hids x Hx) as [<- ?]. done.
    - intros [[r Hr] <-]. destruct (proj1 (inv_segs _ _ _ Hinv) _ _ Hr) as (seg & Hs & Hin & _).
      exists (elements (ss_ids seg)). split; [|by apply elem_of_elements]. exists (id_segment x, seg). split; [done|].
      apply list_elem_of_filter. split; [done|]. by apply elem_of_map_to_list. }
  destruct (decide (x ∈ segment_ids k s)) as [Hi|Hi], (decide (si_segment_id x = k)) as [Hk|Hk]; try done.
  - apply Hx in Hi as [_ ?]. done.
  - destruct (ci_slices s !! x) as [r|] eqn:E; [|done]. exfalso. apply Hi, Hx. by split; [eexists|].
Qed.

(** ** Manifests and fences *)

Definition fence_in (f : gmap CompactionSliceId (gset bytes)) (id : CompactionSliceId) (t : bytes) : Prop :=
  t ∈ default ∅ (f !! id).

Definition fences_nonempty (f : gmap CompactionSliceId (gset bytes)) : Prop := ∀ id, f !! id ≠ Some ∅.

Lemma add_fences_elem t refs : ∀ f, fences_nonempty f →
  fences_nonempty (foldl (add_fence t) f refs) ∧
  ∀ id t', fence_in (foldl (add_fence t) f refs) id t' ↔ (t' = t ∧ id ∈ from_wal_ref <$> refs) ∨ fence_in f id t'.
Proof.
  induction refs as [|r refs IH]; intros f Hf; simpl.
  - split; [done|]. intros id t'. split; [by right|]. intros [[_ []%elem_of_nil]|]; done.
  - destruct (IH (add_fence t f r)) as [H1 H2].
    + intros id. unfold add_fence. destruct (decide (id = from_wal_ref r)) as [->|Hne].
      * rewrite lookup_insert_eq. intros [= H]. set_solver.
      * by rewrite lookup_insert_ne.
    + split; [done|]. intros id t'. rewrite H2, elem_of_cons. unfold fence_in, add_fence.
      destruct (decide (id = from_wal_ref r)) as [->|Hne].
      * rewrite lookup_insert_eq. simpl. rewrite elem_of_union, elem_of_singleton. naive_solver.
      * rewrite lookup_insert_ne by done. naive_solver.
Qed.

Lemma remove_fences_elem t refs : ∀ f, fences_nonempty f →
  fences_nonempty (foldl (remove_fence t) f refs) ∧
  ∀ id t', fence_in (foldl (remove_fence t) f refs) id t' ↔ fence_in f id t' ∧ ¬ (t' = t ∧ id ∈ from_wal_ref <$> refs).
Proof.
  induction refs as [|r refs IH]; intros f Hf; simpl.
  - split; [done|]. intros id t'. split; [|by intros []]. intros H. split; [done|]. by intros [_ []%elem_of_nil].
  - assert (fences_nonempty (remove_fence t f r) ∧
      ∀ id t', fence_in (remove_fence t f r) id t' ↔ fence_in f id t' ∧ ¬ (t' = t ∧ id = from_wal_ref r)) as [G1 G2].
    { unfold remove_fence, fence_in. destruct (f !! from_wal_ref r) as [ids|] eqn:E.
      - case_decide as Hd; split; [intros id|intros id t'|intros id|intros id t'];
          (destruct (decide (id = from_wal_ref r)) as [->|Hne];
           [rewrite ?lookup_delete_eq, ?lookup_insert_eq, ?E|rewrite ?lookup_delete_ne, ?lookup_insert_ne by done]); try done.
        + simpl. assert (t' ∈ ids ∖ {[t]} ↔ False) as Hx by (rewrite Hd; set_solver).
          rewrite elem_of_difference, elem_of_singleton in Hx. split; [by intros ?%elem_of_empty|]. naive_solver.
        + naive_solver.
        + by intros [= H].
        + simpl. rewrite elem_of_difference, elem_of_singleton. naive_solver.
        + naive_solver.
      - split; [done|]. intros id t'. split; [|by intros []]. intros H. split; [done|]. intros [_ ->]. rewrite E in H.
        by apply elem_of_empty in H. }
    destruct (IH _ G1) as [H1 H2]. split; [done|]. intros id t'. rewrite H2, G2, elem_of_cons. naive_solver.
Qed.

(** A slice is fenced exactly when a manifest in flight refers to it. *)
Lemma fenced_iff m id :
  man_ok m → is_fenced m id = true ↔ ∃ t rec, mi_records m !! t = Some rec ∧ id ∈ refs_of (mr_txn rec).
Proof.
  intros (_ & Hne & Hf). unfold is_fenced. rewrite bool_decide_eq_true. setoid_rewrite <- Hf. split.
  - intros [ids Hi]. destruct (set_choose_L ids) as [t Ht]; [intros ->; by apply (Hne id)|]. exists t. by rewrite Hi.
  - intros (t & Ht). destruct (mi_fences m !! id); [by eexists|]. by apply elem_of_empty in Ht.
Qed.

Lemma manifest_drop_ok m t rec :
  man_ok m → mi_records m !! t = Some rec →
  man_ok (remove_fences t (tx_refs (mr_txn rec)) (with_records (delete t (mi_records m)) m)).
Proof.
  intros (H1 & H2 & H3) Hrec. destruct (remove_fences_elem t (tx_refs (mr_txn rec)) (mi_fences m) H2) as [G1 G2].
  split_and!; [|exact G1|]; simpl.
  - intros t' rec' [_ ?]%lookup_delete_Some. by apply H1.
  - intros id t'. change (fence_in (foldl (remove_fence t) (mi_fences m) (tx_refs (mr_txn rec))) id t' ↔
      ∃ rec', delete t (mi_records m) !! t' = Some rec' ∧ id ∈ refs_of (mr_txn rec')).
    rewrite G2. unfold fence_in. rewrite H3. split.
    + intros [(rec' & Hr & Hi) Hn]. exists rec'. rewrite lookup_delete_ne; [done|]. intros <-. apply Hn. split; [done|]. by simplify_eq.
    + intros (rec' & [Hne Hr]%lookup_delete_Some & Hi). split; [by eauto|]. intros [-> _]. done.
Qed.

Lemma manifest_add_ok m txn b :
  man_ok m → mi_records m !! tx_id txn = None → tx_state txn ≠ TxAcked →
  let m' := add_fences (tx_id txn) (tx_refs txn) m in
  man_ok (with_records (<[tx_id txn := {| mr_txn := txn; mr_reserved := b |}]> (mi_records m')) m').
Proof.
  intros (H1 & H2 & H3) Hnone Hst. destruct (add_fences_elem (tx_id txn) (tx_refs txn) (mi_fences m) H2) as [G1 G2].
  split_and!; [|exact G1|]; simpl.
  - intros t rec [[<- <-]|[_ ?]]%lookup_insert_Some; [done|]. by apply H1.
  - intros id t. change (fence_in (foldl (add_fence (tx_id txn)) (mi_fences m) (tx_refs txn)) id t ↔
      ∃ rec, <[tx_id txn := {| mr_txn := txn; mr_reserved := b |}]> (mi_records m) !! t = Some rec ∧ id ∈ refs_of (mr_txn rec)).
    rewrite G2. unfold fence_in. rewrite H3. destruct (decide (t = tx_id txn)) as [->|Hne].
    + rewrite lookup_insert_eq. split.
      * intros [[_ Hi]|(rec & Hr & _)]; [by eexists|congruence].
      * intros (rec & [= <-] & Hi). by left.
    + rewrite lookup_insert_ne by done. naive_solver.
Qed.

Lemma manifest_upsert_ok txn b m :
  man_ok m → man_ok (manifest_upsert txn b m) ∧
  ∀ t, t ≠ tx_id txn → mi_records (manifest_upsert txn b m) !! t = mi_records m !! t.
Proof.
  intros Hm. unfold manifest_upsert. cbv zeta. set (b' := match mi_records m !! tx_id txn with Some _ => _ | None => _ end).
  clearbody b'.
  assert (∃ m1, match mi_records m !! tx_id txn with
     | Some old => remove_fences (tx_id txn) (tx_refs (mr_txn old)) (with_records (delete (tx_id txn) (mi_records m)) m)
     | None => m end = m1 ∧ man_ok m1 ∧ mi_records m1 !! tx_id txn = None ∧
     ∀ t, t ≠ tx_id txn → mi_records m1 !! t = mi_records m !! t) as (m1 & -> & Hm1 & Hn & Ho).
  { eexists. split; [done|]. destruct (mi_records m !! tx_id txn) as [old|] eqn:E; [|done]. split_and!.
    - by apply manifest_drop_ok.
    - simpl. by rewrite lookup_delete_eq.
    - intros t Ht. simpl. by rewrite lookup_delete_ne. }
  destruct (tx_state txn) eqn:Est; (split; [first [done|apply manifest_add_ok; [done|done|congruence]]|]); try done;
    intros t Ht; simpl; rewrite lookup_insert_ne by done; by apply Ho.
Qed.

Lemma manifest_install_ok txns : man_ok (manifest_install txns).
Proof.
  unfold manifest_install. assert (man_ok manifest_default) as H.
  { split_and!; simpl; [intros ??; by rewrite lookup_empty|intros ?; by rewrite lookup_empty|].
    intros id t. rewrite lookup_empty. simpl. split; [by intros ?%elem_of_empty|]. intros (? & H & _). by rewrite lookup_empty in H. }
  revert H. generalize manifest_default. induction txns as [|t txns IH]; intros m Hm; [done|]. simpl. by apply IH, manifest_upsert_ok.
Qed.

Lemma manifest_upsert_own txn b m rec :
  mi_records (manifest_upsert txn b m) !! tx_id txn = Some rec → mr_txn rec = txn.
Proof.
  unfold manifest_upsert. cbv zeta. destruct (mi_records m !! tx_id txn) as [old|] eqn:E, (tx_state txn); simpl;
    rewrite ?lookup_insert_eq, ?lookup_delete_eq; by intros [= <-] || (rewrite E; done).
Qed.

Lemma manifest_upsert_fences txn b m id :
  man_ok m → id ∉ refs_of txn → is_fenced m id = false → is_fenced (manifest_upsert txn b m) id = false.
Proof.
  intros Hm Hid Hf. destruct (manifest_upsert_ok txn b m Hm) as [Hm' Ho]. apply not_true_iff_false. rewrite (fenced_iff _ _ Hm').
  intros (t & rec & Hr & Hi). destruct (decide (t = tx_id txn)) as [->|Hne].
  - apply Hid. by rewrite <- (manifest_upsert_own _ _ _ _ Hr).
  - rewrite (Ho t Hne) in Hr. assert (is_fenced m id = true); [|congruence]. apply (fenced_iff _ _ Hm). by eauto.
Qed.

Lemma inv_with_manifests L F F' m b s :
  inv L F s → man_ok m → F ⊆ F' → (∀ x, x ∉ F' → is_fenced (ci_manifests s) x = false → is_fenced m x = false) →
  inv L F' (with_manifests m b s).
Proof. intros [] Hm HF Hx. split; try done. intros x r Hn Hv Hst. apply Hx; [done|]. eapply inv_fence0; [set_solver|done..]. Qed.

Lemma inv_held L F s id r :
  inv L F s → ci_slices s !! id = Some r → id ∉ L → sr_state r ≠ Waiting → sr_state r ≠ Ready → inv L (F ∖ {[id]}) s.
Proof.
  intros [] Hr HL Hw Hrd. split; try done. intros x rx Hn Hv Hst. destruct (decide (x = id)) as [->|Hne].
  - apply view_Some in Hv as [_ Hv]. simplify_eq. by destruct Hst.
  - eapply inv_fence0; [|done..]. set_solver.
Qed.

Lemma inv_no_slice L F s id : inv L F s → ci_slices s !! id = None → inv L (F ∖ {[id]}) s.
Proof.
  intros [] Hr. split; try done. intros x rx Hn Hv Hst. destruct (decide (x = id)) as [->|Hne].
  - apply view_Some in Hv as [_ Hv]. congruence.
  - eapply inv_fence0; [|done..]. set_solver.
Qed.

(** Enough of a state change that a whole loop can be followed. *)
Definition settled (F : gset CompactionSliceId) (s s' : CompactionIndex) : Prop := inv ∅ F s' ∧ frame s s'.

Lemma settled_trans F F' s1 s2 s3 : settled F s1 s2 → settled F' s2 s3 → settled F' s1 s3.
Proof. intros [_ ?] [? ?]. split; [done|by etrans]. Qed.

Lemma classify_settled F s id r now :
  inv ∅ F s → ci_slices s !! id = Some r → settled (F ∖ {[id]}) s (classify_available id now s).
Proof.
  intros Hinv Hr. destruct (classify_spec ∅ F s id r now Hinv Hr) as (H1 & (H2 & _) & _); [set_solver|].
  rewrite empty_minus in H1. by split.
Qed.

Lemma set_fenced_settled F s id : inv ∅ F s → settled (F ∖ {[id]}) s (set_fenced id s).
Proof.
  intros Hinv. destruct (ci_slices s !! id) as [r|] eqn:Hr.
  - destruct (set_fenced_spec ∅ F s id r Hinv Hr) as (H1 & H2 & _); [set_solver|]. rewrite empty_minus in H1. by split.
  - rewrite (set_fenced_absent ∅ F) by done. split; [by apply inv_no_slice|done].
Qed.

Lemma refence_settled F s id c : inv ∅ F s → settled (F ∖ {[id]}) s (refence c s id).
Proof.
  intros Hinv. unfold refence. destruct (is_fenced (ci_manifests s) id) eqn:Hf.
  - case_decide as Hd; [|by apply set_fenced_settled]. unfold state_of in Hd. destruct (ci_slices s !! id) as [r|] eqn:Hr; [|done].
    simpl in Hd. split; [|done]. eapply inv_held; [done|done|set_solver|congruence..].
  - case_decide as Hd.
    + unfold state_of in Hd. destruct (ci_slices s !! id) as [r|] eqn:Hr; [|done]. by eapply classify_settled.
    + split; [by apply inv_unfenced|done].
Qed.

Lemma settled_fold (f : CompactionIndex → CompactionSliceId → CompactionIndex) ids :
  (∀ F s id, inv ∅ F s → settled (F ∖ {[id]}) s (f s id)) →
  ∀ F s, inv ∅ F s → settled (F ∖ list_to_set ids) s (foldl f s ids).
Proof.
  intros Hf. induction ids as [|id ids IH]; intros F s Hinv; simpl.
  - split; [|done]. by rewrite difference_empty_L.
  - destruct (Hf F s id Hinv) as [H1 H2]. rewrite <- difference_difference_l_L.
    eapply settled_trans; [by split|]. by apply IH.
Qed.

Lemma upsert_manifest_spec clock txn s :
  inv ∅ ∅ s →
  inv ∅ ∅ (upsert_manifest clock txn s) ∧
  (∀ x, sr_slice <$> ci_slices (upsert_manifest clock txn s) !! x = sr_slice <$> ci_slices s !! x) ∧
  ∃ b, ci_manifests (upsert_manifest clock txn s) = manifest_upsert txn b (ci_manifests s).
Proof.
  intros Hinv. unfold upsert_manifest. cbv zeta.
  set (old := match mi_records (ci_manifests s) !! tx_id txn with Some _ => _ | None => _ end).
  set (b := existsb _ _). set (ids := from_wal_ref <$> old ++ tx_refs txn).
  set (s1 := with_manifests _ _ s).
  assert (inv ∅ (list_to_set ids) s1) as H1.
  { eapply inv_with_manifests; [done|apply manifest_upsert_ok, (inv_man _ _ _ Hinv)|set_solver|].
    intros x Hx. apply manifest_upsert_fences; [apply (inv_man _ _ _ Hinv)|]. intros Hin. apply Hx, elem_of_list_to_set.
    unfold ids. rewrite fmap_app. apply elem_of_app. by right. }
  destruct (settled_fold (λ s id, refence (clock id) s id) (in_id_order (list_to_set ids))
    (λ F s id H, refence_settled F s id (clock id) H) _ s1 H1) as [J1 J2].
  replace (list_to_set ids ∖ _) with (∅ : gset CompactionSliceId) in J1.
  - split_and!; [done|apply (fr_slices _ _ J2)|]. exists b. by rewrite (fr_manifests _ _ J2).
  - apply set_eq. intros x. rewrite elem_of_difference, !elem_of_list_to_set, in_id_order_elem, elem_of_list_to_set. set_solver.
Qed.

Lemma install_manifests_spec iter_slices txns s :
  (∀ l, iter_slices l ≡ₚ l) → inv ∅ ∅ s →
  inv ∅ ∅ (install_manifests iter_slices txns s) ∧
  ci_manifests (install_manifests iter_slices txns s) = manifest_install txns.
Proof.
  intros Hp Hinv. unfold install_manifests. cbv zeta. set (s1 := with_manifests _ _ s).
  set (ids := iter_slices (map_to_list (ci_slices s1)).*1).
  assert (inv ∅ (list_to_set ids) s1) as H1.
  { destruct Hinv as [I1 I2 I3 I4 I5 I6 I7 I8 I9 I10 I11]. split; try done; [|apply manifest_install_ok].
    intros x r Hx Hv _. exfalso. apply view_Some in Hv as [_ Hv]. apply Hx, elem_of_list_to_set. unfold ids. rewrite Hp.
    apply list_elem_of_fmap. exists (x, r). split; [done|]. by apply elem_of_map_to_list. }
  destruct (settled_fold (λ s id, if is_fenced (ci_manifests s) id then set_fenced id s else s) ids) with (F := list_to_set ids : gset CompactionSliceId) (s := s1) as [J1 J2]; [|done|].
  - intros F s' id H. destruct (is_fenced (ci_manifests s') id) eqn:Hf; [by apply set_fenced_settled|]. split; [by apply inv_unfenced|done].
  - rewrite difference_diag_L in J1. split; [done|]. by rewrite (fr_manifests _ _ J2).
Qed.

Lemma manifest_remove_spec id m :
  man_ok m → man_ok (manifest_remove id m).1 ∧ ∀ x, is_fenced m x = false → is_fenced (manifest_remove id m).1 x = false.
Proof.
  intros Hm. unfold manifest_remove. destruct (mi_records m !! id) as [rec|] eqn:Hr; [|done]. simpl.
  pose proof (manifest_drop_ok m id rec Hm Hr) as Hm'. split; [done|]. intros x Hx. apply not_true_iff_false.
  rewrite (fenced_iff _ _ Hm'). simpl. intros (t & rec' & [_ Ht]%lookup_delete_Some & Hi).
  assert (is_fenced m x = true); [|congruence]. apply (fenced_iff _ _ Hm). by eauto.
Qed.

Lemma unfence_settled s id now : inv ∅ ∅ s → settled ∅ s (unfence now s id).
Proof.
  intros Hinv. unfold unfence. destruct (negb (is_fenced (ci_manifests s) id)); simpl; [|by split].
  case_bool_decide as Hd; [|by split]. unfold state_of in Hd. destruct (ci_slices s !! id) as [r|] eqn:Hr; [|done].
  destruct (classify_settled ∅ s id r now Hinv Hr) as [H1 H2]. rewrite empty_minus in H1. by split.
Qed.

Lemma remove_manifest_spec id now s :
  inv ∅ ∅ s → inv ∅ ∅ (remove_manifest id now s) ∧
  ci_manifests (remove_manifest id now s) = (manifest_remove id (ci_manifests s)).1.
Proof.
  intros Hinv. unfold remove_manifest. destruct (manifest_remove_spec id _ (inv_man _ _ _ Hinv)) as [Hm Hf].
  destruct (manifest_remove id (ci_manifests s)) as [m affected]. simpl in *.
  assert (inv ∅ ∅ (with_manifests m (ci_manifests_loaded s) s)) as H1 by (eapply inv_with_manifests; eauto).
  assert (∀ ids s0, inv ∅ ∅ s0 → settled ∅ s0 (foldl (unfence now) s0 ids)) as Hfold.
  { induction ids as [|x ids IH]; intros s0 H0; simpl; [by split|]. pose proof (unfence_settled s0 x now H0) as [Ha Hb].
    eapply settled_trans; [by split|]. by apply IH. }
  destruct (Hfold affected _ H1) as [J1 J2]. split; [done|]. by rewrite (fr_manifests _ _ J2).
Qed.

(** Reserving or releasing manifests keeps their fences. *)
Definition same_refs (m m' : ManifestIndex) : Prop :=
  mi_fences m' = mi_fences m ∧
  ∀ t, match mi_records m !! t, mi_records m' !! t with
       | Some a, Some b => tx_refs (mr_txn b) = tx_refs (mr_txn a) ∧ tx_id (mr_txn b) = tx_id (mr_txn a) ∧
                           (tx_state (mr_txn a) ≠ TxAcked → tx_state (mr_txn b) ≠ TxAcked)
       | None, None => True
       | _, _ => False
       end.

Lemma same_refs_ok m m' : same_refs m m' → man_ok m → man_ok m'.
Proof.
  intros [Hf Hr] (H1 & H2 & H3). split_and!.
  - intros t rec Ht. specialize (Hr t). rewrite Ht in Hr. destruct (mi_records m !! t) as [a|] eqn:E; [|done].
    destruct (H1 t a E), Hr as (_ & ? & ?). split; [congruence|auto].
  - by rewrite Hf.
  - intros id t. rewrite Hf, H3. specialize (Hr t). destruct (mi_records m !! t) as [a|], (mi_records m' !! t) as [b|]; try done.
    destruct Hr as (Hr & _). unfold refs_of. split; intros (rec & [= <-] & Hi); eexists; (split; [done|]); congruence.
Qed.

Lemma same_refs_insert m t a b f n :
  mi_records m !! t = Some a → tx_refs (mr_txn b) = tx_refs (mr_txn a) → tx_id (mr_txn b) = tx_id (mr_txn a) →
  (tx_state (mr_txn a) ≠ TxAcked → tx_state (mr_txn b) ≠ TxAcked) →
  same_refs m {| mi_records := <[t := b]> (mi_records m); mi_fences := mi_fences m;
                 mi_lane_last_served := f; mi_service_ticket := n |}.
Proof.
  intros Ha H1 H2 H3. split; [done|]. intros t'. simpl. destruct (decide (t' = t)) as [->|Hne].
  - by rewrite lookup_insert_eq, Ha.
  - rewrite lookup_insert_ne by done. by destruct (mi_records m !! t').
Qed.

Lemma same_refs_trans m1 m2 m3 : same_refs m1 m2 → same_refs m2 m3 → same_refs m1 m3.
Proof.
  intros [F1 H1] [F2 H2]. split; [congruence|]. intros t. specialize (H1 t). specialize (H2 t).
  destruct (mi_records m1 !! t), (mi_records m2 !! t), (mi_records m3 !! t); try done.
  destruct H1 as (? & ? & ?), H2 as (? & ? & ?). split_and!; [congruence..|auto].
Qed.

Lemma same_refs_refl m : same_refs m m.
Proof. split; [done|]. intros t. by destruct (mi_records m !! t). Qed.

Lemma reserve_ready_same limit psl now stale : ∀ scheduled blocked m,
  same_refs m (reserve_ready limit psl now stale scheduled blocked m).2.
Proof.
  induction limit as [|limit IH]; intros scheduled blocked m; simpl; [apply same_refs_refl|].
  destruct (manifest_candidate m now stale psl blocked scheduled) as [(a & b & c & l & id)|]; [|apply same_refs_refl].
  destruct (mi_records m !! id) as [rec|] eqn:Hr; [|apply same_refs_refl].
  match goal with |- context [reserve_ready limit _ _ _ ?sc _ ?m'] => set (m1 := m'); set (sc1 := sc) end.
  specialize (IH sc1 blocked m1). destruct (reserve_ready limit psl now stale sc1 blocked m1) as [out m2]. simpl in *.
  eapply same_refs_trans; [|exact IH]. eapply same_refs_insert; [exact Hr|..]; simpl; by case_bool_decide.
Qed.

Lemma inv_same_refs m b s : inv ∅ ∅ s → same_refs (ci_manifests s) m → inv ∅ ∅ (with_manifests m b s).
Proof.
  intros Hinv Hm. eapply inv_with_manifests; [done|by eapply same_refs_ok; [|apply (inv_man _ _ _ Hinv)]|done|].
  intros x _. unfold is_fenced. by rewrite (proj1 Hm).
Qed.

Lemma reserve_ready_manifests_spec limit psl now stale active blocked s :
  inv ∅ ∅ s → inv ∅ ∅ (reserve_ready_manifests limit psl now stale active blocked s).2.
Proof.
  intros Hinv. unfold reserve_ready_manifests.
  pose proof (reserve_ready_same limit psl now stale (active_counts_by_sink active) blocked (ci_manifests s)) as Hm.
  destruct (reserve_ready _ _ _ _ _ _ _) as [out m]. simpl in *. by apply inv_same_refs.
Qed.

Lemma release_manifest_spec id s : inv ∅ ∅ s → inv ∅ ∅ (release_manifest id s).
Proof.
  intros Hinv. unfold release_manifest. apply inv_same_refs; [done|]. unfold manifest_release.
  destruct (mi_records (ci_manifests s) !! id) as [rec|] eqn:Hr; [|apply same_refs_refl].
  by eapply same_refs_insert.
Qed.

(** ** A new map of slices with the same waiting and ready ones *)

Lemma family_segment {K} `{Countable K} (key : CompactionGroupKey → K) remaining v (qs : gmap K ReadyQueue) g q seg :
  family_ok key remaining v qs → qs !! g = Some q → is_Some (rq_segments q !! seg) →
  ∃ id r, in_state v Ready id r ∧ id_segment id = seg.
Proof.
  intros [Hok Hq] Hg [sq Hsq]. destruct (rq_ok_segments _ _ (Hok _ _ Hg) _ _ Hsq) as [Hin (first & Hfirst & _)].
  apply least_Some in Hfirst as [Hfirst _]. apply elem_of_elements in Hfirst.
  specialize (Hq g first). rewrite Hg in Hq. simpl in Hq. rewrite (contents_segment _ _ _ (Hok _ _ Hg)) in Hq.
  pose proof (Hin _ Hfirst) as Hk. rewrite Hk in Hq. destruct (proj1 Hq) as (r & Hr & _); [by eauto|]. by eauto.
Qed.

Lemma family_ext {K} `{Countable K} (key : CompactionGroupKey → K) remaining remaining' v v' (qs : gmap K ReadyQueue) :
  family_ok key remaining v qs → (∀ id r, in_state v' Ready id r ↔ in_state v Ready id r) →
  (∀ id r, in_state v Ready id r → remaining (id_segment id) = remaining' (id_segment id)) → family_ok key remaining' v' qs.
Proof.
  intros Hf Hv Hrem. split.
  - intros g q Hg. eapply rq_ok_ext; [|by eapply (proj1 Hf)]. intros seg Hs.
    destruct (family_segment key _ _ _ _ _ _ Hf Hg Hs) as (id & r & Hr & <-). by eapply Hrem.
  - intros g x. rewrite (proj2 Hf). split; intros (r & Hr & ?); exists r; (split; [by apply Hv|done]).
Qed.

Lemma inv_ext L F s m segs :
  inv ∅ F s →
  (∀ st x r, st = Waiting ∨ st = Ready → in_state (view L m) st x r ↔ in_state (view ∅ (ci_slices s)) st x r) →
  ids_ok m → seg_ok m segs → avail_ok L m (ci_available_counted s) →
  (∀ id r, in_state (view ∅ (ci_slices s)) Ready id r → segs !! id_segment id = ci_segments s !! id_segment id) →
  inv L F (with_segments segs (with_slices m s)).
Proof.
  intros [I1 [I2a I2b] I3 I4 [(R & HR & HRn) I5b] I6 I7 I8 I9 I10 I11] Hv Hids Hsegs Hav Hrem.
  assert (∀ x r, in_state (view L m) Waiting x r ↔ in_state (view ∅ (ci_slices s)) Waiting x r) as Hw by (intros; apply Hv; auto).
  assert (∀ x r, in_state (view L m) Ready x r ↔ in_state (view ∅ (ci_slices s)) Ready x r) as Hr by (intros; apply Hv; auto).
  assert (∀ id r, in_state (view ∅ (ci_slices s)) Ready id r → segment_remaining s (id_segment id) =
    segment_remaining (with_segments segs (with_slices m s)) (id_segment id)) as Hrem'.
  { intros id r H. unfold segment_remaining. simpl. by rewrite (Hrem id r H). }
  split; simpl; try done.
  - split; [intros x; rewrite I2a|intros g x; rewrite I2b]; split; intros (rx & Hx); exists rx; by rewrite ?Hw in *.
  - by eapply family_ext.
  - by eapply family_ext.
  - split; [|done]. exists R. split; [|done]. intros x. rewrite HR. split; intros (rx & Hx); exists rx; by rewrite ?Hr in *.
  - intros x Hx. destruct (I7 x Hx) as (rx & ?). exists rx. by rewrite Hr.
  - intros x rx Hx. apply I8. by apply Hw.
  - intros x rx Hn Hx Hst. eapply I9; [done| |exact Hst]. destruct Hst as [E|E].
    + exact (proj1 (proj1 (Hw x rx) (conj Hx E))).
    + exact (proj1 (proj1 (Hr x rx) (conj Hx E))).
Qed.

Lemma set_state_held_spec s id r st :
  inv ∅ ∅ s → ci_slices s !! id = Some r → sr_state r ≠ Waiting → sr_state r ≠ Ready → st ≠ Waiting → st ≠ Ready →
  inv ∅ ∅ (set_state id st s).
Proof.
  intros Hinv Hr Hw Hrd Hw' Hrd'. unfold set_state. rewrite Hr. fold (with_slice_state r st).
  replace (with_slices (<[id := with_slice_state r st]> (ci_slices s)) s)
    with (with_segments (ci_segments s) (with_slices (<[id := with_slice_state r st]> (ci_slices s)) s)) by done.
  apply inv_ext; [done| | | | |done].
  - intros st' x rx Hst. rewrite !in_state_view, lookup_insert_Some. split.
    + intros (? & [[-> <-]|[_ ?]] & E); [|done]. simpl in E. destruct Hst; congruence.
    + intros (? & Hx & E). split_and!; [done| |done]. right. split; [|done]. intros <-. simplify_eq. destruct Hst; congruence.
  - eapply ids_insert; [apply (inv_ids _ _ _ Hinv)|done|done].
  - eapply seg_insert; [apply (inv_segs _ _ _ Hinv)|done|done].
  - intros x. destruct (inv_avail _ _ _ Hinv x) as [Ha Hb]. split.
    + intros Hx. destruct (decide (x = id)) as [->|Hne]; [rewrite lookup_insert_eq; eauto|rewrite lookup_insert_ne by done; auto].
    + intros Hx. rewrite (Hb Hx). destruct (decide (x = id)) as [->|Hne]; [|by rewrite lookup_insert_ne].
      rewrite Hr, lookup_insert_eq. split; intros (rx & [= <-] & E); exfalso; simpl in *; by destruct E.
Qed.

Lemma release_refs_spec refs now : ∀ s, inv ∅ ∅ s → inv ∅ ∅ (release_refs refs now s).
Proof.
  unfold release_refs. induction refs as [|ref refs IH]; intros s Hinv; simpl; [done|]. apply IH. unfold release_ref.
  case_decide as Hd; [|done]. unfold state_of in Hd. destruct (ci_slices s !! from_wal_ref ref) as [r|] eqn:Hr; [|done].
  simpl in Hd. injection Hd as Hd. case_match.
  - eapply set_state_held_spec; [done|done|congruence..].
  - destruct (classify_settled ∅ s _ r now Hinv Hr) as [H1 _]. by rewrite empty_minus in H1.
Qed.

(** ** Registration *)

Definition fresh_record (mi : ManifestIndex) (slice : IndexedCompactionSlice) : SliceRecord :=
  {| sr_slice := slice; sr_state := if is_fenced mi (cs_id slice) then Fenced else Waiting; sr_wait_generation := 0 |}.

(** What the loop over the slices of a segment [k] has built, from the slices [m0]. *)
Record registering (k : SegmentKey) (s0 : CompactionIndex) (seg : SegmentState) (s : CompactionIndex) : Prop := {
  rg_only : s = with_slices (ci_slices s) s0;
  rg_new : ∀ x, x ∈ ss_ids seg → id_segment x = k ∧ ci_slices s0 !! x = None ∧
    ∃ slice, cs_id slice = x ∧ ci_slices s !! x = Some (fresh_record (ci_manifests s0) slice) ∧
      cs_group_key slice ∈ ss_groups seg ∧ lane (cs_group_key slice) ∈ ss_lanes seg;
  rg_old : ∀ x, x ∉ ss_ids seg → ci_slices s !! x = ci_slices s0 !! x;
  rg_count : ss_remaining seg = size (ss_ids seg)
}.

Lemma register_slice_step k s0 seg s slice :
  registering k s0 seg s → segment_key slice = k →
  let '(seg', s') := register_slice (seg, s) slice in registering k s0 seg' s'.
Proof.
  intros [H1 H2 H3 H4] Hk. unfold register_slice. destruct (bool_decide_reflect (is_Some (ci_slices s !! cs_id slice))) as [Hs|Hs]; [done|].
  assert (ci_manifests s = ci_manifests s0) as Hm by (rewrite H1; done). rewrite Hm. fold (fresh_record (ci_manifests s0) slice).
  assert (cs_id slice ∉ ss_ids seg) as Hni.
  { intros Hi. destruct (H2 _ Hi) as (_ & _ & sl & _ & Hsl & _). apply Hs. by rewrite Hsl. }
  split; simpl.
  - assert (∀ m, with_slices m s = with_slices m s0) as Hw by (intros m; rewrite H1; done). apply Hw.
  - intros x [->%elem_of_singleton|Hx]%elem_of_union.
    + split_and!; [done| |].
      * rewrite <- (H3 _ Hni). by apply eq_None_not_Some.
      * exists slice. rewrite lookup_insert_eq. split_and!; [done|done|set_solver..].
    + destruct (H2 x Hx) as (Ha & Hb & sl & Hc & Hd & He & Hf). split_and!; [done|done|]. exists sl.
      rewrite lookup_insert_ne by (by intros <-). split_and!; [done|done|set_solver..].
  - intros x Hx. rewrite not_elem_of_union, not_elem_of_singleton in Hx. rewrite lookup_insert_ne by naive_solver. naive_solver.
  - rewrite size_union by (clear -Hni; set_solver). by rewrite size_singleton, H4.
Qed.

Lemma register_fold k s0 slices : ∀ seg s,
  registering k s0 seg s → Forall (λ sl, segment_key sl = k) slices →
  let '(seg', s') := foldl register_slice (seg, s) slices in registering k s0 seg' s'.
Proof.
  induction slices as [|sl slices IH]; intros seg s Hr Hall; [done|]. apply Forall_cons in Hall as [Hk Hall]. cbn [foldl].
  pose proof (register_slice_step k s0 seg s sl Hr Hk) as Hst. destruct (register_slice (seg, s) sl) as [seg1 s1]. by apply IH.
Qed.

(** Newly registered slices that are not fenced are loose until they are classified. *)
Definition fresh_waiting (seg : SegmentState) (s : CompactionIndex) : gset CompactionSliceId :=
  filter (λ x, state_of s x = Some Waiting) (ss_ids seg).

Lemma registering_inv k s0 seg s :
  inv ∅ ∅ s0 → (∀ x r, ci_slices s0 !! x = Some r → id_segment x ≠ k) → registering k s0 seg s →
  inv (fresh_waiting seg s) ∅ (with_segments (<[k := seg]> (ci_segments s0)) s).
Proof.
  intros Hinv Hk [H1 H2 H3 H4].
  assert (∀ segs, with_segments segs s = with_segments segs (with_slices (ci_slices s) s0)) as -> by (intros segs; rewrite H1; done).
  set (m := ci_slices s) in *.
  assert (∀ x, x ∈ fresh_waiting seg s ↔ x ∈ ss_ids seg ∧ state_of s x = Some Waiting) as HL
    by (intros x; unfold fresh_waiting; rewrite elem_of_filter; tauto).
  assert (∀ x r, ci_slices s0 !! x = Some r → x ∉ ss_ids seg) as Hold.
  { intros x r Hx Hi. destruct (H2 x Hi) as (_ & ? & _). congruence. }
  apply inv_ext; [done|..].
  - intros st x r Hst. rewrite !in_state_view. split.
    + intros (HnL & Hm & Hr). destruct (decide (x ∈ ss_ids seg)) as [Hi|Hi].
      * exfalso. destruct (H2 x Hi) as (_ & _ & sl & _ & Hsl & _). fold m in Hsl. rewrite Hm in Hsl. injection Hsl as ->. 
        simpl in Hr. destruct (is_fenced _ _) eqn:Hf; [destruct Hst; congruence|]. apply HnL, HL. split; [done|].
        unfold state_of. fold m. rewrite Hm. simpl. by rewrite Hf.
      * rewrite (H3 x Hi) in Hm. split_and!; [set_solver|done..].
    + intros (_ & Hm & Hr). pose proof (Hold x r Hm) as Hi. split_and!; [|by rewrite (H3 x Hi)|done]. rewrite HL. tauto.
  - intros x r Hx. destruct (decide (x ∈ ss_ids seg)) as [Hi|Hi].
    + destruct (H2 x Hi) as (_ & _ & sl & <- & Hsl & _). fold m in Hsl. rewrite Hx in Hsl. by simplify_eq.
    + rewrite (H3 x Hi) in Hx. by apply (inv_ids _ _ _ Hinv).
  - destruct (inv_segs _ _ _ Hinv) as [S1 S2]. split.
    + intros x r Hx. destruct (decide (x ∈ ss_ids seg)) as [Hi|Hi].
      * destruct (H2 x Hi) as (Hxk & _ & sl & _ & Hsl & Hg & Hl). fold m in Hsl. rewrite Hx in Hsl. injection Hsl as ->.
        exists seg. rewrite Hxk, lookup_insert_eq. done.
      * rewrite (H3 x Hi) in Hx. destruct (S1 x r Hx) as (sg & ?). exists sg. rewrite lookup_insert_ne; [done|].
        apply not_eq_sym. by eapply Hk.
    + intros k' sg [[<- <-]|[Hne Hs]]%lookup_insert_Some.
      * split; [done|]. intros x Hi. destruct (H2 x Hi) as (? & _ & sl & _ & Hsl & _). fold m in Hsl. rewrite Hsl. by split; [|eexists].
      * destruct (S2 k' sg Hs) as [? S3]. split; [done|]. intros x Hx. destruct (S3 x Hx) as [? [r Hr]]. split; [done|].
        rewrite (H3 x); [by rewrite Hr; eexists|]. by eapply Hold.
  - intros x. destruct (inv_avail _ _ _ Hinv x) as [Ha Hb]. split.
    + intros Hx. destruct (Ha Hx) as [r Hr]. rewrite (H3 x); [by rewrite Hr; eexists|]. by eapply Hold.
    + intros Hx. rewrite (Hb (not_elem_of_empty x)). destruct (decide (x ∈ ss_ids seg)) as [Hi|Hi].
      * destruct (H2 x Hi) as (_ & Hn & sl & _ & Hsl & _). rewrite Hn. fold m in Hsl. rewrite Hsl. split.
        -- intros (r & ? & _). done.
        -- intros (r & [= <-] & Hst). exfalso. apply Hx, HL. split; [done|]. unfold state_of. fold m. rewrite Hsl. simpl in *.
           destruct (is_fenced _ _); [by destruct Hst|done].
      * by rewrite (H3 x Hi).
  - intros id r (_ & Hid & _)%in_state_view. rewrite lookup_insert_ne; [done|]. apply not_eq_sym. by eapply Hk.
Qed.

Lemma classify_fresh_spec ids now : ∀ L s,
  inv L ∅ s → NoDup ids → (∀ x, x ∈ L → x ∈ ids) →
  Forall (λ x, (x ∈ L ∧ state_of s x = Some Waiting) ∨ (x ∉ L ∧ state_of s x = Some Fenced)) ids →
  inv ∅ ∅ (foldl (classify_waiting now) s ids) ∧ frame s (foldl (classify_waiting now) s ids).
Proof.
  induction ids as [|id ids IH]; intros L s Hinv Hnd HL Hall; simpl.
  - assert (L = ∅) as HLe; [|by subst]. apply set_eq. intros x. split; [|set_solver]. intros Hx. by apply HL, elem_of_nil in Hx.
  - apply NoDup_cons in Hnd as [Hni Hnd]. apply Forall_cons in Hall as [Hid Hall]. rewrite Forall_forall in Hall.
    unfold classify_waiting at 2 4. destruct Hid as [[HidL Hst]|[HidL Hst]].
    + rewrite decide_True by done. unfold state_of in Hst. destruct (ci_slices s !! id) as [r|] eqn:Hr; [|done]. simpl in Hst. injection Hst as Hst.
      destruct (classify_spec L ∅ s id r now Hinv Hr) as (H1 & (H2 & H3 & H4) & _); [congruence|].
      rewrite empty_minus in H1. destruct (IH (L ∖ {[id]}) (classify_available id now s) H1 Hnd) as [J1 J2].
      * intros x [Hx Hne]%elem_of_difference. apply HL, elem_of_cons in Hx as [->|]; [set_solver|done].
      * apply Forall_forall. intros x Hx. assert (x ≠ id) as Hne by (by intros ->). destruct (Hall x Hx) as [[? ?]|[? ?]].
        -- left. split; [set_solver|]. unfold state_of. by rewrite H4.
        -- right. split; [set_solver|]. apply H3; [set_solver|auto|done].
      * split; [done|by etrans].
    + rewrite decide_False by congruence. apply (IH L); [done|done| |by apply Forall_forall].
      intros x Hx. pose proof (HL x Hx) as [->|?]%elem_of_cons; [done|done].
Qed.

(** The slices a caller registers belong to one file of the named segment. *)
Definition of_segment (segment_id : bytes) (slices : list IndexedCompactionSlice) : Prop :=
  ∃ k, sk_segment_id k = segment_id ∧ Forall (λ sl, segment_key sl = k) slices.

Section Registered.
Context (iter_slices : list CompactionSliceId → list CompactionSliceId).
Context (iter_perm : ∀ l, iter_slices l ≡ₚ l).

Lemma registering_covers k s0 slices : ∀ seg s,
  registering k s0 seg s → Forall (λ sl, segment_key sl = k) slices →
  (∀ x, ci_slices s0 !! x = None ∨ id_segment x ≠ k) →
  let '(seg', s') := foldl register_slice (seg, s) slices in
  (∀ sl, sl ∈ slices → cs_id sl ∈ ss_ids seg') ∧ (∀ x, x ∈ ss_ids seg → x ∈ ss_ids seg') ∧
  (∀ x, x ∈ ss_ids seg' → x ∈ ss_ids seg ∨ ∃ sl, sl ∈ slices ∧ cs_id sl = x).
Proof.
  induction slices as [|sl slices IH]; intros seg s Hr Hall Hold; [split_and!; [by intros ? ?%elem_of_nil|done|by left]|].
  apply Forall_cons in Hall as [Hk Hall]. cbn [foldl].
  pose proof (register_slice_step k s0 seg s sl Hr Hk) as Hst.
  assert (let '(seg1, s1) := register_slice (seg, s) sl in
    cs_id sl ∈ ss_ids seg1 ∧ (∀ x, x ∈ ss_ids seg → x ∈ ss_ids seg1) ∧
    ∀ x, x ∈ ss_ids seg1 → x ∈ ss_ids seg ∨ x = cs_id sl) as Hc.
  { unfold register_slice. destruct (bool_decide_reflect (is_Some (ci_slices s !! cs_id sl))) as [Hs|Hs].
    2:{ simpl. split_and!; [|intros x Hx|intros x Hx]; rewrite ?elem_of_union, ?elem_of_singleton in *; naive_solver. }
    split_and!; [|done|by left]. destruct (decide (cs_id sl ∈ ss_ids seg)) as [|Hi]; [done|]. exfalso. rewrite (rg_old _ _ _ _ Hr _ Hi) in Hs.
    destruct (Hold (cs_id sl)) as [Hn|Hn]; [rewrite Hn in Hs; by destruct Hs|]. by apply Hn. }
  destruct (register_slice (seg, s) sl) as [seg1 s1]. specialize (IH seg1 s1 Hst Hall Hold).
  destruct (foldl register_slice (seg1, s1) slices) as [seg2 s2]. destruct Hc as (Hc1 & Hc2 & Hc3), IH as (IH1 & IH2 & IH3).
  split_and!; [|by auto|].
  - intros sl' [->|?]%elem_of_cons; auto.
  - intros x Hx. destruct (IH3 x Hx) as [Hx1|(sl' & ? & ?)]; [destruct (Hc3 x Hx1) as [|Hx2]; [by left|]|]; right.
    + exists sl. split; [by left|done].
    + exists sl'. split; [by right|done].
Qed.

Lemma register_segment_spec segment_id slices b t now s :
  inv ∅ ∅ s → of_segment segment_id slices →
  let '(n, s') := register_segment iter_slices segment_id slices b t now s in
  inv ∅ ∅ s' ∧ ci_manifests s' = ci_manifests s ∧
  (∀ x, si_segment_id x ≠ segment_id → sr_slice <$> ci_slices s' !! x = sr_slice <$> ci_slices s !! x) ∧
  ∃ R : gset CompactionSliceId, n = size R ∧
    (∀ x, x ∈ R ↔ is_Some (ci_slices s' !! x) ∧ si_segment_id x = segment_id) ∧
    (∀ x, x ∈ R ↔ ∃ sl, sl ∈ slices ∧ cs_id sl = x).
Proof.
  intros Hinv (k & Hk & Hall). unfold register_segment.
  destruct (configure_spec iter_slices iter_perm s b t now Hinv) as (H1 & H2 & _). cbv zeta in *.
  set (s1 := configure_thresholds iter_slices b t now s) in *. clearbody s1.
  destruct (remove_segment_spec ∅ s1 segment_id H1) as (J1 & J2 & J3). set (s2 := remove_segment segment_id s1) in *. clearbody s2.
  assert (∀ x, si_segment_id x ≠ segment_id → sr_slice <$> ci_slices s2 !! x = sr_slice <$> ci_slices s !! x) as Hkeep.
  { intros x Hx. rewrite J3, decide_False by done. apply (sm_slices _ _ H2). }
  assert (ci_manifests s2 = ci_manifests s) as Hman by (rewrite J2; apply (sm_manifests _ _ H2)).
  destruct slices as [|first slices].
  { split_and!; [done..|]. exists ∅. rewrite size_empty. split_and!; [done| |].
    - intros x. split; [set_solver|]. intros [[r Hr] Hx]. rewrite J3, decide_True in Hr by done. done.
    - intros x. split; [set_solver|]. intros (sl & ?%elem_of_nil & _). done. }
  assert (segment_key first = k) as Hf by (by inversion Hall). set (all := first :: slices) in *. clearbody all.
  assert (∀ x, ci_slices s2 !! x = None ∨ id_segment x ≠ k) as Hgone.
  { intros x. rewrite J3. case_decide as Hx; [by left|right]. intros <-. done. }
  assert (registering k s2 segment_state_default s2) as Hr0.
  { split; [by destruct s2|intros x Hx; by apply elem_of_empty in Hx|done|done]. }
  pose proof (register_fold k s2 all _ _ Hr0 Hall) as Hreg. pose proof (registering_covers k s2 all _ _ Hr0 Hall Hgone) as Hcov.
  destruct (foldl register_slice (segment_state_default, s2) all) as [seg s3] eqn:Efold. rewrite Hf.
  assert (inv (fresh_waiting seg s3) ∅ (with_segments (<[k := seg]> (ci_segments s3)) s3)) as K1.
  { assert (ci_segments s3 = ci_segments s2) as -> by (rewrite (rg_only _ _ _ _ Hreg); done).
    apply registering_inv; [done| |done]. intros x r Hx. destruct (Hgone x); [congruence|done]. }
  destruct (classify_fresh_spec (in_id_order (ss_ids seg)) now _ _ K1 (in_id_order_NoDup _)) as [K2 K3].
  { intros x Hx. apply in_id_order_elem. unfold fresh_waiting in Hx. by apply elem_of_filter in Hx as [_ ?]. }
  { apply Forall_forall. intros x Hx%in_id_order_elem. destruct (rg_new _ _ _ _ Hreg x Hx) as (_ & _ & sl & _ & Hsl & _).
    unfold fresh_waiting. rewrite elem_of_filter. change (state_of (with_segments (<[k:=seg]> (ci_segments s3)) s3) x) with (state_of s3 x).
    unfold state_of. rewrite Hsl. simpl. destruct (is_fenced _ _); [right; naive_solver|left; naive_solver]. }
  set (s4 := foldl (classify_waiting now) _ _) in *. clearbody s4. split_and!; [done|..].
  - rewrite (fr_manifests _ _ K3). simpl. rewrite (rg_only _ _ _ _ Hreg). done.
  - intros x Hx. rewrite (fr_slices _ _ K3). simpl. rewrite <- (Hkeep x Hx). rewrite (rg_old _ _ _ _ Hreg); [done|].
    intros Hi. destruct (rg_new _ _ _ _ Hreg x Hi) as (Hxk & _). apply Hx. rewrite <- Hk, <- Hxk. done.
  - exists (ss_ids seg). split_and!; [apply (rg_count _ _ _ _ Hreg)| |].
    + intros x. assert (is_Some (ci_slices s4 !! x) ↔ is_Some (ci_slices s3 !! x)) as ->.
      { rewrite <- !(fmap_is_Some sr_slice). by rewrite (fr_slices _ _ K3). }
      split.
      * intros Hi. destruct (rg_new _ _ _ _ Hreg x Hi) as (Hxk & _ & sl & _ & -> & _). split; [by eexists|]. by rewrite <- Hk, <- Hxk.
      * intros [[r Hr] Hx]. destruct (decide (x ∈ ss_ids seg)) as [|Hi]; [done|]. rewrite (rg_old _ _ _ _ Hreg x Hi), J3, decide_True in Hr by done. done.
    + intros x. split; [|intros (sl & Hsl & <-); by apply (proj1 Hcov)]. intros Hi.
      destruct (proj2 (proj2 Hcov) x Hi) as [Hx|?]; [by apply elem_of_empty in Hx|done].
Qed.
End Registered.

(** ** Planning *)

Definition bytes_from (acc : N) (slices : list IndexedCompactionSlice) : N :=
  foldl (λ n sl, saturating_add U64_MAX n (slice_bytes sl)) acc slices.

(** Slices that were ready and are reserved now; nothing else changed. *)
Record took (s s' : CompactionIndex) (slices : list IndexedCompactionSlice) : Prop := {
  tk_nodup : NoDup (cs_id <$> slices);
  tk_ready : ∀ sl, sl ∈ slices → ∃ r, ci_slices s !! cs_id sl = Some r ∧ sr_state r = Ready ∧ sr_slice r = sl ∧
    ci_slices s' !! cs_id sl = Some (with_slice_state r Reserved);
  tk_other : ∀ x, x ∉ cs_id <$> slices → ci_slices s' !! x = ci_slices s !! x
}.

Lemma took_nil s s' : ci_slices s' = ci_slices s → took s s' [].
Proof. intros He. split; [constructor|by intros ? ?%elem_of_nil|by rewrite He]. Qed.

Lemma took_app s1 s2 s3 a b : took s1 s2 a → took s2 s3 b → took s1 s3 (a ++ b).
Proof.
  intros [A1 A2 A3] [B1 B2 B3].
  assert (∀ sl, sl ∈ b → cs_id sl ∉ cs_id <$> a) as Hd.
  { intros sl Hb (sl' & Heq & Ha)%list_elem_of_fmap. destruct (A2 sl' Ha) as (r & _ & _ & _ & Hr).
    destruct (B2 sl Hb) as (r' & Hr' & Hst & _). rewrite Heq, Hr in Hr'. injection Hr' as <-. done. }
  split.
  - rewrite fmap_app. apply NoDup_app. split_and!; [done| |done]. intros x Ha (sl & -> & Hb)%list_elem_of_fmap. by apply (Hd sl).
  - intros sl [Ha|Hb]%elem_of_app.
    + destruct (A2 sl Ha) as (r & ? & ? & ? & Hr). exists r. split_and!; [done..|]. rewrite B3; [done|].
      intros (sl' & Heq & Hb)%list_elem_of_fmap. apply (Hd sl' Hb). rewrite <- Heq. apply list_elem_of_fmap. eauto.
    + destruct (B2 sl Hb) as (r & Hr & ? & ? & ?). exists r. rewrite A3 in Hr by (by apply Hd). done.
  - intros x. rewrite fmap_app, not_elem_of_app. intros [? ?]. by rewrite B3, A3.
Qed.

Definition updated_at (sl : IndexedCompactionSlice) : N := ie_updated_at_secs (cs_index_entry sl).

(** The head of a queue is the oldest ready slice of its key. *)
Lemma family_head {K} `{Countable K} (key : CompactionGroupKey → K) remaining v (qs : gmap K ReadyQueue) k q head :
  family_ok key remaining v qs → qs !! k = Some q → rq_peek q = Some head →
  ∃ r, in_state v Ready (qh_id head) r ∧ key (group_of r) = k ∧
    ∀ x rx, in_state v Ready x rx → cs_id (sr_slice rx) = x → key (group_of rx) = k →
      (updated_at (sr_slice r) ≤ updated_at (sr_slice rx))%N.
Proof.
  intros [Hok Hc] Hq Hh. destruct (rq_peek_Some _ _ _ (Hok _ _ Hq) Hh) as ((e & Hin & Hid & Hup) & _ & Hmin).
  pose proof (Hc k) as Hck. rewrite Hq in Hck. simpl in Hck. apply Hck in Hin as (r & Hr & Hg & He). rewrite Hid in Hr.
  exists r. split_and!; [done|done|]. intros x rx Hx Hxid Hgx.
  assert (queue_key (sr_slice rx) ∈ contents q) as Hinx by (apply Hck; exists rx; simpl; by rewrite Hxid).
  specialize (Hmin _ Hinx). simpl in Hmin. rewrite <- Hup, He in Hmin. simpl in Hmin. unfold updated_at. lia.
Qed.

Lemma family_nonempty {K} `{Countable K} (key : CompactionGroupKey → K) remaining v (qs : gmap K ReadyQueue) id r :
  family_ok key remaining v qs → in_state v Ready id r → cs_id (sr_slice r) = id →
  ∃ q head, qs !! key (group_of r) = Some q ∧ rq_is_empty q = false ∧ rq_peek q = Some head.
Proof.
  intros [Hok Hc] Hr Hid. assert (queue_key (sr_slice r) ∈ contents (default ready_queue_default (qs !! key (group_of r)))) as Hin.
  { apply Hc. exists r. simpl. by rewrite Hid. }
  destruct (qs !! key (group_of r)) as [q|] eqn:Hq; simpl in Hin; [|by rewrite contents_default in Hin; apply elem_of_empty in Hin].
  assert (contents q ≠ ∅) as Hne by (intros He; rewrite He in Hin; by apply elem_of_empty in Hin).
  exists q. destruct (rq_peek q) as [h|] eqn:Hp; [|by apply (rq_peek_None _ _ (Hok _ _ Hq)) in Hp].
  exists h. split_and!; [done| |done]. apply not_true_iff_false. by rewrite (rq_empty_iff _ _ (Hok _ _ Hq)).
Qed.

(** What a round of the inner loop promises, from the bytes [acc] already selected. *)
Record selected_ok (parts : nat) (g : CompactionGroupKey) (target acc : N) (first : bool) (s s' : CompactionIndex)
    (slices : list IndexedCompactionSlice) : Prop := {
  se_took : took s s' slices;
  se_parts : length slices ≤ parts;
  se_group : ∀ sl, sl ∈ slices → cs_group_key sl = g;
  se_bytes : slices = [] ∨ (first = true ∧ length slices = 1) ∨ (bytes_from acc slices ≤ target)%N;
  se_oldest : ∀ x rx sl, sl ∈ slices → ci_slices s' !! x = Some rx → sr_state rx = Ready → group_of rx = g →
    (updated_at sl ≤ updated_at (sr_slice rx))%N
}.

Lemma selected_nil parts g target acc first s : selected_ok parts g target acc first s s [].
Proof. split; [by apply took_nil|simpl; lia|by intros ? ?%elem_of_nil|by left|by intros ??? ?%elem_of_nil]. Qed.

Lemma select_slices_spec parts g target : ∀ acc first s,
  inv ∅ ∅ s →
  let '(slices, (segs, (n, s'))) := select_slices parts g target acc first s in
  inv ∅ ∅ s' ∧ frame s s' ∧ selected_ok parts g target acc first s s' slices ∧
  (slices = [] → parts = 0 ∨ first = false ∨ ci_groups s !! g ≫= rq_peek = None).
Proof.
  induction parts as [|parts IH]; intros acc first s Hinv; simpl; [split_and!; [done|done|apply selected_nil|auto]|].
  destruct (ci_groups s !! g ≫= rq_peek) as [head|] eqn:Hh; [|split_and!; [done|done|apply selected_nil|auto]].
  destruct (ci_groups s !! g) as [q|] eqn:Hq; [|done]. simpl in Hh.
  destruct (family_head _ _ _ _ _ _ _ (inv_groups _ _ _ Hinv) Hq Hh) as (r & (_ & Hr & Hst)%in_state_view & Hg & Hold).
  rewrite Hr. destruct (negb first && (target <? saturating_add U64_MAX acc (slice_bytes (sr_slice r)))%N) eqn:Ht.
  { split_and!; [done|done|apply selected_nil|]. intros _. destruct first; [done|auto]. }
  destruct (reserve_slice_spec ∅ s _ r Hinv Hr Hst) as (s1 & -> & H1 & H2 & H3).
  specialize (IH (saturating_add U64_MAX acc (slice_bytes (sr_slice r))) false s1 H1).
  destruct (select_slices parts g target _ false s1) as [rest (segs & n & s2)]. destruct IH as (J1 & J2 & [T P G B O] & _).
  pose proof (inv_ids _ _ _ Hinv _ _ Hr) as Hid.
  assert (took s s1 [sr_slice r]) as Hone.
  { split; [apply NoDup_singleton| |].
    - intros sl ->%list_elem_of_singleton. rewrite Hid. exists r. rewrite H3, lookup_insert_eq. done.
    - intros x Hx. rewrite H3, lookup_insert_ne; [done|]. intros <-. apply Hx. simpl. rewrite Hid. by left. }
  split_and!; [done|by etrans| |done]. split.
  - exact (took_app _ _ _ [sr_slice r] rest Hone T).
  - simpl. lia.
  - intros sl [->|?]%elem_of_cons; auto.
  - right. destruct B as [->|[[? _]|B]]; [|done|by right]. destruct first; [by left|right]. simpl in Ht |- *.
    apply N.ltb_ge in Ht. exact Ht.
  - intros x rx sl [->|Hsl]%elem_of_cons Hx Hrx Hgx; [|by eapply O].
    assert (ci_slices s !! x = Some rx) as Hx0.
    { destruct (decide (x ∈ cs_id <$> rest)) as [(sl & -> & Hin)%list_elem_of_fmap|Hn].
      - destruct (tk_ready _ _ _ T sl Hin) as (r' & _ & _ & _ & Hx'). rewrite Hx in Hx'. injection Hx' as ->. done.
      - rewrite (tk_other _ _ _ T x Hn), H3, lookup_insert_Some in Hx. destruct Hx as [[_ <-]|[_ ?]]; done. }
    apply (Hold x); [|by apply (inv_ids _ _ _ Hinv)|done]. apply in_state_view. split_and!; [set_solver|done|done].
Qed.

Definition sink_of (r : SliceRecord) : bytes := gk_sink_ref (group_of r).

Lemma lane_candidate_Some s F psl blocked scheduled a b c l id :
  inv ∅ F s → lane_candidate psl blocked scheduled s = Some (a, (b, (c, (l, id)))) →
  l ∉ blocked ∧ default 0 (scheduled !! lk_sink_ref l) < psl ∧
  ∃ r, ci_slices s !! id = Some r ∧ sr_state r = Ready ∧ lane (group_of r) = l.
Proof.
  intros Hinv Hc. apply least_Some in Hc as [Hin _]. apply list_elem_of_omap in Hin as ([l' st] & Hin & Hrank).
  apply list_elem_of_filter in Hin as [Hel Hl]. apply elem_of_map_to_list in Hl. simpl in *.
  unfold lane_rank in Hrank. destruct (rq_peek (ls_queue st)) as [h|] eqn:Hp; [|done]. simpl in Hrank. injection Hrank as <- <- <- <- <-.
  unfold lane_eligible in Hel. apply andb_prop in Hel as [Hel Hps]. apply andb_prop in Hel as [_ Hb].
  apply negb_true_iff, bool_decide_eq_false in Hb. apply Nat.ltb_lt in Hps. split_and!; [done|done|].
  assert (lane_queues (ci_lanes s) !! l' = Some (ls_queue st)) as Hq by (unfold lane_queues; by rewrite lookup_fmap, Hl).
  destruct (family_head _ _ _ _ _ _ _ (inv_lanes _ _ _ Hinv) Hq Hp) as (r & (_ & Hr & Hst)%in_state_view & Hg & _). eauto.
Qed.

Lemma lane_candidate_None s F psl blocked scheduled x r :
  inv ∅ F s → lane_candidate psl blocked scheduled s = None → ci_slices s !! x = Some r → sr_state r = Ready →
  lane (group_of r) ∈ blocked ∨ psl ≤ default 0 (scheduled !! sink_of r).
Proof.
  intros Hinv Hc Hr Hst. pose proof (inv_ids _ _ _ Hinv _ _ Hr) as Hid.
  assert (in_state (view ∅ (ci_slices s)) Ready x r) as Hin by (apply in_state_view; split_and!; [set_solver|done..]).
  destruct (family_nonempty lane _ _ _ x r (inv_lanes _ _ _ Hinv) Hin Hid) as (q & h & Hq & He & Hp).
  unfold lane_queues in Hq. apply lookup_fmap_Some in Hq as (st & <- & Hl).
  destruct (decide (lane (group_of r) ∈ blocked)) as [|Hb]; [by left|right]. apply Nat.le_ngt. intros Hlt.
  apply least_None in Hc. eapply elem_of_nil. rewrite <- Hc. apply list_elem_of_omap. exists (lane (group_of r), st). split.
  - apply list_elem_of_filter. split; [|by apply elem_of_map_to_list]. unfold lane_eligible. simpl. rewrite He.
    rewrite (bool_decide_eq_false_2 _ Hb). simpl. by apply Nat.ltb_lt.
  - simpl. unfold lane_rank. by rewrite Hp.
Qed.

Lemma inv_with_ticket F s lanes t :
  lane_queues lanes = lane_queues (ci_lanes s) → inv ∅ F s → inv ∅ F (with_ticket lanes t s).
Proof. intros Hl []. split; try done. simpl. by rewrite Hl. Qed.

Lemma lane_served ls l t :
  lane_queues (match ls !! l with
               | Some state => <[l := {| ls_queue := ls_queue state; ls_last_served := t |}]> ls
               | None => ls
               end) = lane_queues ls.
Proof.
  destruct (ls !! l) as [st|] eqn:E; [|done]. unfold lane_queues. rewrite fmap_insert. simpl.
  apply insert_id. by rewrite lookup_fmap, E.
Qed.

Definition planned (gs : list PlannedCompactionGroup) : list IndexedCompactionSlice := concat (pg_slices <$> gs).

Definition sink_groups (sink : bytes) (gs : list PlannedCompactionGroup) : nat :=
  length (filter (λ g, gk_sink_ref (pg_key g) = sink) gs).

(** A group of a plan: slices of one key, within the limits, of a lane that may run. *)
Record group_ok (target : N) (max_parts : nat) (blocked : gset CompactionLaneKey) (g : PlannedCompactionGroup) : Prop := {
  go_nonempty : pg_slices g ≠ [];
  go_parts : length (pg_slices g) ≤ max_parts;
  go_key : ∀ sl, sl ∈ pg_slices g → cs_group_key sl = pg_key g;
  go_lane : lane (pg_key g) ∉ blocked;
  go_bytes : length (pg_slices g) = 1 ∨ (bytes_from 0 (pg_slices g) ≤ target)%N
}.

Record planned_ok (limit max_parts psl : nat) (target : N) (blocked : gset CompactionLaneKey) (scheduled : gmap bytes nat)
    (s s' : CompactionIndex) (gs : list PlannedCompactionGroup) : Prop := {
  pk_took : took s s' (planned gs);
  pk_groups : Forall (group_ok target max_parts blocked) gs;
  pk_limit : length gs ≤ limit;
  pk_sinks : ∀ sink, default 0 (scheduled !! sink) + sink_groups sink gs ≤ Nat.max psl (default 0 (scheduled !! sink));
  pk_idle : length gs < limit → ∀ x r, ci_slices s' !! x = Some r → sr_state r = Ready →
    lane (group_of r) ∈ blocked ∨ psl ≤ default 0 (scheduled !! sink_of r) + sink_groups (sink_of r) gs
}.

Lemma planned_nil limit max_parts psl target blocked scheduled s :
  (0 < limit → ∀ x r, ci_slices s !! x = Some r → sr_state r = Ready →
    lane (group_of r) ∈ blocked ∨ psl ≤ default 0 (scheduled !! sink_of r)) →
  planned_ok limit max_parts psl target blocked scheduled s s [].
Proof.
  intros Hidle. split; [by apply took_nil|constructor|simpl; lia|intros sink; unfold sink_groups; simpl; lia|].
  intros Hl x r Hx Hr. unfold sink_groups. simpl. rewrite Nat.add_0_r. by eapply Hidle.
Qed.

Lemma planned_cons limit max_parts psl target blocked scheduled s s1 s2 g gs :
  group_ok target max_parts blocked g → default 0 (scheduled !! gk_sink_ref (pg_key g)) < psl →
  took s s1 (pg_slices g) →
  planned_ok limit max_parts psl target blocked
    (<[gk_sink_ref (pg_key g) := default 0 (scheduled !! gk_sink_ref (pg_key g)) + 1]> scheduled) s1 s2 gs →
  planned_ok (S limit) max_parts psl target blocked scheduled s s2 (g :: gs).
Proof.
  intros Hg Hs Ht [P1 P2 P3 P4 P5].
  assert (∀ sink, default 0 (scheduled !! sink) + sink_groups sink (g :: gs) =
    default 0 (<[gk_sink_ref (pg_key g) := default 0 (scheduled !! gk_sink_ref (pg_key g)) + 1]> scheduled !! sink) + sink_groups sink gs) as Hsum.
  { intros sink. unfold sink_groups. rewrite filter_cons. case_decide as Hd.
    - rewrite Hd, lookup_insert_eq. simpl. lia.
    - by rewrite lookup_insert_ne. }
  split.
  - unfold planned. simpl. by eapply took_app.
  - by constructor.
  - simpl. lia.
  - intros sink. rewrite Hsum. specialize (P4 sink). destruct (decide (sink = gk_sink_ref (pg_key g))) as [->|Hne].
    + rewrite lookup_insert_eq in *. simpl in *. lia.
    + rewrite lookup_insert_ne in * by done. lia.
  - intros Hl x r Hx Hr. rewrite Hsum. apply (P5 ltac:(simpl in Hl; lia) x r Hx Hr).
Qed.

Lemma plan_loop_spec max_parts psl target blocked : 0 < max_parts → ∀ fuel limit pl s,
  inv ∅ ∅ s → limit - length (pl_groups pl) < fuel →
  ∃ gs pl' s', plan_loop fuel limit max_parts psl target blocked pl s = Some (pl', s') ∧
    pl_groups pl' = pl_groups pl ++ gs ∧ inv ∅ ∅ s' ∧ same_slices s s' ∧
    planned_ok (limit - length (pl_groups pl)) max_parts psl target blocked (pl_scheduled pl) s s' gs.
Proof.
  intros Hmp. induction fuel as [|fuel IH]; intros limit pl s Hinv Hfuel; [lia|]. simpl.
  destruct (Nat.leb_spec limit (length (pl_groups pl))) as [Hlim|Hlim].
  { exists [], pl, s. split_and!; [done|by rewrite app_nil_r|done|done|]. apply planned_nil. lia. }
  destruct (lane_candidate psl blocked (pl_scheduled pl) s) as [(a & b & c & l & id)|] eqn:Hc.
  2:{ exists [], pl, s. split_and!; [done|by rewrite app_nil_r|done|done|]. apply planned_nil. intros _ x r Hx Hr.
      by eapply lane_candidate_None. }
  destruct (lane_candidate_Some s ∅ psl blocked _ a b c l id Hinv Hc) as (Hb & Hps & r & Hr & Hst & Hl). rewrite Hr.
  pose proof (select_slices_spec max_parts (cs_group_key (sr_slice r)) target 0 true s Hinv) as Hsel.
  destruct (select_slices max_parts (cs_group_key (sr_slice r)) target 0 true s) as [sel (segs & n & s1)].
  destruct Hsel as (H1 & H2 & [T P G B O] & Hne).
  assert (in_state (view ∅ (ci_slices s)) Ready id r) as Hin by (apply in_state_view; split_and!; [set_solver|done..]).
  destruct (family_nonempty (λ g, g) _ _ _ id r (inv_groups _ _ _ Hinv) Hin (inv_ids _ _ _ Hinv _ _ Hr)) as (q & h & Hq & _ & Hp).
  destruct sel as [|sl sel].
  { exfalso. destruct (Hne eq_refl) as [?|[?|Hnone]]; [lia|done|]. unfold group_of in Hq. rewrite Hq in Hnone. simpl in Hnone. congruence. }
  set (g := {| pg_key := cs_group_key (sr_slice r); pg_slices := sl :: sel |}).
  match goal with |- context [plan_loop fuel _ _ _ _ _ ?p ?x] => set (pl1 := p); set (s2 := x) end.
  assert (inv ∅ ∅ s2) as Hi2 by (apply inv_with_ticket; [apply lane_served|done]).
  assert (length (pl_groups pl1) = S (length (pl_groups pl))) as Hlen by (simpl; rewrite length_app; simpl; lia).
  destruct (IH limit pl1 s2 Hi2 ltac:(lia)) as (gs & pl' & s' & -> & Hgs & Hi' & Hss & Hok).
  exists (g :: gs), pl', s'. split_and!; [done| |done| |].
  - rewrite Hgs. simpl. by rewrite <- app_assoc.
  - etrans; [by apply frame_same|]. by destruct Hss.
  - replace (limit - length (pl_groups pl)) with (S (limit - length (pl_groups pl1))) by lia.
    eapply planned_cons; [| |exact T|].
    + split; [done|exact P|exact G| |].
      * simpl. by rewrite <- Hl in Hb.
      * destruct B as [?|[[_ ?]|?]]; [done|by left|by right].
    + simpl. rewrite <- Hl in Hps. exact Hps.
    + destruct Hok as [K1 K2 K3 K4 K5]. split; [|done..]. destruct K1. by split.
Qed.

(** ** Runs of the index *)

Lemma default_inv : inv ∅ ∅ ci_default.
Proof.
  assert (∀ st x, ¬ ∃ r, in_state (view ∅ (∅ : gmap CompactionSliceId SliceRecord)) st x r) as Hn.
  { intros st x (r & (_ & H & _)%in_state_view). by rewrite lookup_empty in H. }
  assert (∀ st x r, ¬ in_state (view ∅ (∅ : gmap CompactionSliceId SliceRecord)) st x r) as Hn' by (intros st x r Hr; apply (Hn st x); eauto).
  split; simpl.
  - intros x r. by rewrite lookup_empty.
  - split; [intros x|intros g x; rewrite lookup_empty; simpl]; (split; [by intros ?%elem_of_empty|]).
    + intros H. by destruct (Hn Waiting x).
    + intros (r & H & _). by destruct (Hn' Waiting x r).
  - split; [intros g q; by rewrite lookup_empty|]. intros g x. rewrite lookup_empty. simpl. rewrite contents_default.
    split; [by intros ?%elem_of_empty|]. intros (r & H & _). by destruct (Hn' Ready (qk_id x) r).
  - unfold lane_queues. rewrite fmap_empty. split; [intros g q; by rewrite lookup_empty|]. intros g x. rewrite lookup_empty. simpl.
    rewrite contents_default. split; [by intros ?%elem_of_empty|]. intros (r & H & _). by destruct (Hn' Ready (qk_id x) r).
  - split; exists ∅; rewrite size_empty; (split; [|done]).
    + intros x. split; [by intros ?%elem_of_empty|]. intros H. by destruct (Hn Ready x).
    + intros g. rewrite lookup_empty. simpl. rewrite contents_default. split; [by intros ?%elem_of_empty|done].
  - intros x. split; [by intros ?%elem_of_empty|]. intros _. split; [by intros ?%elem_of_empty|]. intros (r & H & _). by rewrite lookup_empty in H.
  - by intros x ?%elem_of_empty.
  - intros x r H. by destruct (Hn' Waiting x r).
  - intros x r _ H. by rewrite view_Some, lookup_empty in H; destruct H.
  - split; intros x r; by rewrite lookup_empty.
  - apply (manifest_install_ok []).
Qed.

Section Runs.
Context (iter_slices : list CompactionSliceId → list CompactionSliceId).
Context (iter_names : list bytes → list bytes).

(** Every call that changes the index.  [fuel] is that of the planning loop. *)
Inductive index_step : CompactionIndex → CompactionIndex → Prop :=
| step_clear_for_recovery s : index_step s ci_default
| step_install_manifests txns s : index_step s (install_manifests iter_slices txns s)
| step_register_segment segment_id slices b t now s :
    of_segment segment_id slices →
    index_step s (register_segment iter_slices segment_id slices b t now s).2
| step_remove_segment segment_id s : index_step s (remove_segment segment_id s)
| step_drop_segments_not_in live s : index_step s (drop_segments_not_in iter_names live s)
| step_complete_ordinals segment_id ordinals s : index_step s (complete_ordinals iter_slices segment_id ordinals s).2
| step_complete_refs refs s : index_step s (complete_refs refs s).2
| step_release_refs refs now s : index_step s (release_refs refs now s)
| step_upsert_manifest clock txn s : index_step s (upsert_manifest clock txn s)
| step_remove_manifest id now s : index_step s (remove_manifest id now s)
| step_release_manifest id s : index_step s (release_manifest id s)
| step_reserve_ready_manifests limit psl now stale active blocked s :
    index_step s (reserve_ready_manifests limit psl now stale active blocked s).2
| step_plan_ready fuel limit force now b t target max_parts psl active blocked s plan s' :
    0 < max_parts → limit < fuel →
    plan_ready iter_slices fuel limit force now b t target max_parts psl active blocked s = Some (plan, s') →
    index_step s s'
| step_reclaimable_slice_count force now stale limit s : index_step s (reclaimable_slice_count force now stale limit s).2
| step_mark_recovered_ready s : index_step s (mark_recovered_ready s).

Inductive index_reachable : CompactionIndex → Prop :=
| reach_default : index_reachable ci_default
| reach_step s s' : index_reachable s → index_step s s' → index_reachable s'.

Context (iter_perm : ∀ l, iter_slices l ≡ₚ l).

(** The plan the loops make from a sound index, and the state they leave. *)
Lemma plan_ready_spec fuel limit force now b t target max_parts psl active blocked s :
  index_inv s → 0 < max_parts → limit < fuel →
  ∃ plan s1 s', plan_ready iter_slices fuel limit force now b t target max_parts psl active blocked s = Some (plan, s') ∧
    s1 = promote_for_plan force now (configure_thresholds iter_slices b t now s) ∧
    inv ∅ ∅ s1 ∧ same_slices s s1 ∧ held_same ∅ s s1 ∧ ci_time_threshold_secs s1 = Some t ∧
    index_inv s' ∧ same_slices s1 s' ∧
    planned_ok limit max_parts psl target blocked (active_counts_by_sink active) s1 s' (cp_groups plan).
Proof.
  intros Hinv Hmp Hf. unfold plan_ready.
  destruct (configure_spec iter_slices iter_perm s b t now Hinv) as (H1 & H2 & H3 & _ & H4). cbv zeta in *.
  destruct (promote_for_plan_spec force now _ H1) as (J1 & J2 & J3).
  set (s1 := promote_for_plan force now (configure_thresholds iter_slices b t now s)) in *.
  set (pl0 := {| pl_groups := []; pl_slices_examined := 0; pl_segments := ∅; pl_scheduled := active_counts_by_sink active |}).
  destruct (plan_loop_spec max_parts psl target blocked Hmp fuel limit pl0 s1 J1) as (gs & pl' & s' & -> & Hgs & K1 & K2 & K3);
    [simpl; lia|].
  eexists _, s1, s'. split_and!; [reflexivity|done|done| |by etrans| |done|done|].
  - etrans; [done|]. by apply frame_same.
  - by rewrite (fr_time _ _ J2).
  - simpl in *. rewrite Hgs. by rewrite Nat.sub_0_r in K3.
Qed.

Lemma drop_segments_spec live s : inv ∅ ∅ s → inv ∅ ∅ (drop_segments_not_in iter_names live s).
Proof.
  unfold drop_segments_not_in. cbv zeta. generalize (iter_names (filter (λ id, id ∉ live)
    (elements (list_to_set ((λ p : SegmentKey * SegmentState, sk_segment_id p.1) <$> map_to_list (ci_segments s)) : gset bytes)))).
  intros l. revert s. induction l as [|id l IH]; intros s Hinv; simpl; [done|]. apply IH. by apply remove_segment_spec.
Qed.

Lemma step_inv s s' : index_inv s → index_step s s' → index_inv s'.
Proof.
  unfold index_inv. intros Hinv Hs. destruct Hs.
  - apply default_inv.
  - by apply install_manifests_spec.
  - pose proof (register_segment_spec iter_slices iter_perm segment_id slices b t now s Hinv H) as Hr.
    destruct (register_segment _ _ _ _ _ _ _). by destruct Hr.
  - by apply remove_segment_spec.
  - by apply drop_segments_spec.
  - unfold complete_ordinals. destruct ordinals; [done|]. rewrite remove_counted_eq. by apply remove_slices_spec.
  - unfold complete_refs. rewrite remove_counted_eq. by apply remove_slices_spec.
  - by apply release_refs_spec.
  - by apply upsert_manifest_spec.
  - by apply remove_manifest_spec.
  - by apply release_manifest_spec.
  - by apply reserve_ready_manifests_spec.
  - destruct (plan_ready_spec fuel limit force now b t target max_parts psl active blocked s Hinv H H0) as (p & s1 & s2 & Hp & _ & _ & _ & _ & _ & H2 & _).
    rewrite H1 in Hp. by injection Hp as -> ->.
  - unfold reclaimable_slice_count. simpl. destruct force; [done|]. by apply promote_due_spec.
  - by apply mark_recovered_spec.
Qed.

Lemma reachable_inv s : index_reachable s → index_inv s.
Proof. induction 1 as [|s s' _ IH Hs]; [apply default_inv|by eapply step_inv]. Qed.
End Runs.

(** ** What the planner promises *)

Lemma took_states s s' slices x :
  took s s' slices →
  (x ∈ cs_id <$> slices → state_of s x = Some Ready ∧ state_of s' x = Some Reserved) ∧
  (x ∉ cs_id <$> slices → state_of s' x = state_of s x).
Proof.
  intros [_ H2 H3]. unfold state_of. split.
  - intros (sl & -> & Hin)%list_elem_of_fmap. destruct (H2 sl Hin) as (r & -> & Hst & _ & ->). simpl. by rewrite Hst.
  - intros Hx. by rewrite H3.
Qed.

Lemma same_slices_some s s' x : same_slices s s' → is_Some (ci_slices s' !! x) ↔ is_Some (ci_slices s !! x).
Proof. intros H. rewrite <- !(fmap_is_Some sr_slice). by rewrite (sm_slices _ _ H). Qed.

(** A slice that is there and neither reserved nor fenced is available. *)
Lemma not_held_available s x :
  is_Some (ci_slices s !! x) → state_of s x ≠ Some Reserved → state_of s x ≠ Some Fenced → available s x.
Proof.
  intros [r Hr]. unfold available. rewrite (state_of_Some _ _ _ Hr). destruct (sr_state r); [by left|by right|done|done].
Qed.

Lemma ready_available s s1 x :
  same_slices s s1 → held_same ∅ s s1 → available s1 x → available s x.
Proof.
  intros Hs Hh Ha. assert (is_Some (ci_slices s1 !! x)) as Hx.
  { unfold available, state_of in Ha. destruct (ci_slices s1 !! x); [by eexists|by destruct Ha]. }
  apply not_held_available; [by apply (same_slices_some _ _ _ Hs)|..]; intros He.
  - assert (state_of s1 x = Some Reserved) as E by (apply (Hh x Reserved); [set_solver|auto|done]).
    unfold available in Ha. rewrite E in Ha. by destruct Ha.
  - assert (state_of s1 x = Some Fenced) as E by (apply (Hh x Fenced); [set_solver|auto|done]).
    unfold available in Ha. rewrite E in Ha. by destruct Ha.
Qed.

Lemma available_unfenced s x : index_inv s → available s x → is_fenced (ci_manifests s) x = false.
Proof.
  intros Hinv Ha. unfold available, state_of in Ha. destruct (ci_slices s !! x) as [r|] eqn:Hr; [|by destruct Ha].
  eapply (inv_fence _ _ _ Hinv); [set_solver|apply view_Some; split; [set_solver|exact Hr]|].
  simpl in Ha. destruct Ha; [left|right]; congruence.
Qed.

(** Nothing waits past its time once the plan starts, and nothing at all when forced. *)
Lemma forced_no_waiting ids now : ∀ s,
  inv ∅ ∅ s → Forall (available_in ∅ s) ids →
  ∀ x, state_of (foldl (promote_forced now) s ids) x = Some Waiting → state_of s x = Some Waiting ∧ x ∉ ids.
Proof.
  induction ids as [|id ids IH]; intros s Hinv Hall x Hx; simpl in Hx; [split; [done|by intros ?%elem_of_nil]|].
  apply Forall_cons in Hall as [Hid Hall]. destruct (promote_forced_spec ∅ s id now Hinv Hid) as [H1 H2].
  destruct (IH _ (proj1 H1)) with (x := x) as [Hw Hni]; [eapply Forall_impl; [exact Hall|done]|done|].
  assert (state_of (promote_forced now s id) x = state_of (set_ready id s) x) as He
    by (unfold promote_forced; by destruct (normal_eligible s id now)). rewrite He in Hw.
  destruct (set_ready_available ∅ ∅ s id Hinv Hid) as (_ & _ & _ & Hr & _ & Ho).
  assert (x ≠ id) as Hne by (intros ->; congruence). unfold state_of in *. rewrite Ho in Hw by done.
  split; [done|]. by rewrite not_elem_of_cons.
Qed.

Lemma promoted_not_due force now s x r t :
  inv ∅ ∅ s → ci_time_threshold_secs s = Some t →
  ci_slices (promote_for_plan force now s) !! x = Some r → sr_state r = Waiting →
  force = false ∧ (now < saturating_add U64_MAX (updated_at (sr_slice r)) t)%N.
Proof.
  intros Hinv Ht Hr Hst. unfold promote_for_plan in Hr. destruct force.
  - exfalso. unfold promote_all_waiting in Hr.
    destruct (forced_no_waiting (in_id_order (ci_waiting s)) now s Hinv) with (x := x) as [Hw Hni].
    + apply Forall_forall. intros y Hy%in_id_order_elem. by eapply waiting_available.
    + by rewrite (state_of_Some _ _ _ Hr), Hst.
    + apply Hni, in_id_order_elem, (proj1 (inv_wait _ _ _ Hinv)). unfold state_of in Hw.
      destruct (ci_slices s !! x) as [r0|] eqn:E; [|done]. simpl in Hw. injection Hw as Hw.
      exists r0. apply in_state_view. split_and!; [set_solver|done..].
  - split; [done|]. destruct (demote_force_only_spec s now Hinv) as (H1 & H2 & _).
    destruct (promote_due_spec _ now ∅ _ H1 (le_n _)) as [(J1 & J2 & _) J3]. fold (promote_due now (demote_force_only now s)) in *.
    set (s2 := promote_due now (demote_force_only now s)) in *. clearbody s2.
    assert (in_state (view ∅ (ci_slices s2)) Waiting x r) as Hin by (apply in_state_view; split_and!; [set_solver|done..]).
    pose proof (J3 _ (inv_heap _ _ _ J1 x r Hin)) as Hlt. simpl in Hlt. by rewrite (fr_time _ _ J2), (fr_time _ _ H2), Ht in Hlt.
Qed.

(** ** The theorems *)

(** C18: through any sequence of calls, whatever the order in which hash maps iterate, the
    queues of the index say exactly what the states of the slices say: the waiting set and
    its partition are the waiting slices, the queues of the groups and of the lanes hold
    exactly the ready ones under the right key and rank, the counters count them, every
    waiting slice has its entry in the age heap, no waiting or ready slice is fenced, every
    slice is known to its segment, and a slice is fenced exactly by the manifests in flight
    that refer to it. *)
Theorem compaction_index_invariant iter_slices iter_names s :
  (∀ l, iter_slices l ≡ₚ l) → index_reachable iter_slices iter_names s → index_inv s.
Proof. intros Hp Hr. by eapply reachable_inv. Qed.

(** C7: a call to [plan_ready] with room for parts returns, and its plan is safe: at most
    [limit] groups, each non-empty, of one key, with at most [max_parts] slices and within
    the byte target unless it is a single slice, of a lane that is not blocked and of sinks
    below their limit; the planned slices are distinct, were waiting or ready and not fenced,
    are reserved afterwards, and no other slice becomes reserved. *)
Theorem plan_is_sound iter_slices fuel limit force now b t target max_parts psl active blocked s :
  (∀ l, iter_slices l ≡ₚ l) → index_inv s → 0 < max_parts → limit < fuel →
  ∃ plan s', plan_ready iter_slices fuel limit force now b t target max_parts psl active blocked s = Some (plan, s') ∧
    length (cp_groups plan) ≤ limit ∧
    Forall (group_ok target max_parts blocked) (cp_groups plan) ∧
    (∀ sink, let running := default 0 (active_counts_by_sink active !! sink) in
             running + sink_groups sink (cp_groups plan) ≤ Nat.max psl running) ∧
    NoDup (cs_id <$> planned (cp_groups plan)) ∧
    (∀ x, x ∈ cs_id <$> planned (cp_groups plan) →
       available s x ∧ is_fenced (ci_manifests s) x = false ∧ state_of s' x = Some Reserved) ∧
    (∀ x, state_of s' x = Some Reserved ↔ state_of s x = Some Reserved ∨ x ∈ cs_id <$> planned (cp_groups plan)).
Proof.
  intros Hp Hinv Hmp Hf.
  destruct (plan_ready_spec iter_slices Hp fuel limit force now b t target max_parts psl active blocked s Hinv Hmp Hf)
    as (plan & s1 & s' & Heq & _ & H1 & H2 & H3 & _ & H5 & _ & [K1 K2 K3 K4 _]).
  assert (∀ x, x ∈ cs_id <$> planned (cp_groups plan) → available s x ∧ state_of s' x = Some Reserved) as Hpl.
  { intros x Hx. destruct (proj1 (took_states _ _ _ x K1) Hx) as [Hr Hres]. split; [|done].
    apply (ready_available s s1 x H2 H3). by right. }
  exists plan, s'. split_and!; [done..|by destruct K1| |].
  - intros x Hx. destruct (Hpl x Hx) as [Ha Hres]. split_and!; [done|by apply available_unfenced|done].
  - intros x. destruct (decide (x ∈ cs_id <$> planned (cp_groups plan))) as [Hx|Hx].
    + split; [by right|]. intros _. by apply Hpl.
    + rewrite (proj2 (took_states _ _ _ x K1) Hx), (H3 x Reserved) by (set_solver || auto). naive_solver.
Qed.

(** C21: planning is work-conserving: when a plan has fewer groups than it may have, every
    slice that was available and is due (or the plan is forced) is in it, unless its lane is
    blocked or its sink already has as many groups as it may run. *)
Theorem due_slices_are_planned iter_slices fuel limit force now b t target max_parts psl active blocked s :
  (∀ l, iter_slices l ≡ₚ l) → index_inv s → 0 < max_parts → limit < fuel →
  ∃ plan s', plan_ready iter_slices fuel limit force now b t target max_parts psl active blocked s = Some (plan, s') ∧
    (length (cp_groups plan) < limit →
     ∀ x r, ci_slices s !! x = Some r → sr_state r = Waiting ∨ sr_state r = Ready →
       force = true ∨ (saturating_add U64_MAX (updated_at (sr_slice r)) t ≤ now)%N →
       lane (group_of r) ∉ blocked →
       default 0 (active_counts_by_sink active !! sink_of r) + sink_groups (sink_of r) (cp_groups plan) < psl →
       x ∈ cs_id <$> planned (cp_groups plan)).
Proof.
  intros Hp Hinv Hmp Hf.
  destruct (plan_ready_spec iter_slices Hp fuel limit force now b t target max_parts psl active blocked s Hinv Hmp Hf)
    as (plan & s1 & s' & Heq & Hs1 & H1 & H2 & H3 & H4 & H5 & H6 & [K1 K2 K3 K4 K5]).
  exists plan, s'. split; [done|]. intros Hlen x r Hr Hst Hdue Hb Hps.
  destruct (decide (x ∈ cs_id <$> planned (cp_groups plan))) as [|Hx]; [done|]. exfalso.
  pose proof (tk_other _ _ _ K1 x Hx) as Hsame. pose proof (sm_slices _ _ H2 x) as Hsl. rewrite Hr in Hsl.
  destruct (ci_slices s1 !! x) as [r1|] eqn:Hr1; [|done]. simpl in Hsl. injection Hsl as Hsl.
  destruct (sr_state r1) eqn:Est.
  - subst s1. destruct (configure_spec iter_slices Hp s b t now Hinv) as (C1 & _ & _ & _ & C2).
    destruct (promoted_not_due force now _ x r1 t C1 C2 Hr1 Est) as [-> Hlt]. rewrite Hsl in Hlt. destruct Hdue as [|Hdue]; [done|lia].
  - destruct (K5 Hlen x r1 Hsame Est) as [Hbl|Hps']; unfold sink_of, group_of in *; rewrite Hsl in *; [done|lia].
  - assert (state_of s x = Some Reserved) as Hs by (apply (H3 x Reserved); [set_solver|auto|by rewrite (state_of_Some _ _ _ Hr1), Est]).
    rewrite (state_of_Some _ _ _ Hr) in Hs. destruct Hst; congruence.
  - assert (state_of s x = Some Fenced) as Hs by (apply (H3 x Fenced); [set_solver|auto|by rewrite (state_of_Some _ _ _ Hr1), Est]).
    rewrite (state_of_Some _ _ _ Hr) in Hs. destruct Hst; congruence.
Qed.

(** Registering the slices of a segment replaces what the index had for it: afterwards
    the slices of that segment are exactly the given ones, their number is what the call
    returns, the slices of other segments are as before, and the index is sound. *)
Theorem register_segment_replaces iter_slices segment_id slices b t now s :
  (∀ l, iter_slices l ≡ₚ l) → index_inv s → of_segment segment_id slices →
  let '(n, s') := register_segment iter_slices segment_id slices b t now s in
  index_inv s' ∧
  (∀ x, si_segment_id x ≠ segment_id → sr_slice <$> ci_slices s' !! x = sr_slice <$> ci_slices s !! x) ∧
  (∀ x, si_segment_id x = segment_id → is_Some (ci_slices s' !! x) ↔ ∃ sl, sl ∈ slices ∧ cs_id sl = x) ∧
  n = size (list_to_set (cs_id <$> slices) : gset CompactionSliceId).
Proof.
  intros Hp Hinv Hs. pose proof (register_segment_spec iter_slices Hp segment_id slices b t now s Hinv Hs) as H.
  destruct (register_segment iter_slices segment_id slices b t now s) as [n s']. destruct H as (H1 & _ & H2 & R & -> & R1 & R2).
  split_and!; [done|done| |].
  - intros x Hx. rewrite <- R2, R1. naive_solver.
  - f_equal. apply set_eq. intros x. rewrite R2, elem_of_list_to_set, list_elem_of_fmap. naive_solver.
Qed.

Module IndexExample.

Definition slice (seg : bytes) (ordinal start size updated : N) : IndexedCompactionSlice :=
  let key := {| pk_sink_ref := str "primary"; pk_namespace := str "orders"; pk_partition := []; pk_time := None;
                pk_schema_fingerprint := str "f" |} in
  let source := SdWal seg in
  {| cs_id := {| si_segment_id := seg; si_source_id := seg; si_start := start; si_len := size |};
     cs_group_key := {| gk_sink_ref := str "primary"; gk_namespace := str "orders"; gk_partition := []; gk_time := None;
                        gk_schema_fingerprint := str "f"; gk_kind := CkAppend |};
     cs_index_entry := {| ie_key := key; ie_bytes := size; ie_updated_at_secs := updated; ie_slice_ordinal := ordinal;
                          ie_part_meta_start := 0; ie_part_meta_len := 0;
                          ie_part_meta_summary := SumAppend;
                          ie_codec := 0; ie_start := start; ie_len := size |};
     cs_wal_ref := {| wr_segment_id := seg; wr_source := source; wr_start := start; wr_len := size; wr_key := key;
                      wr_cdc_meta_hash := None; wr_ordinal := Some ordinal |} |}.

(** Two slices of one segment, too young and too small to be compacted at once. *)
Definition slices : list IndexedCompactionSlice :=
  [slice (str "seg-1") 0 0 120 100; slice (str "seg-1") 1 120 60 101].

Definition keep {A} (l : list A) : list A := l.

Definition state : CompactionIndex := (register_segment keep (str "seg-1") slices 1000 50 120 ci_default).2.

Lemma slices_of_segment : of_segment (str "seg-1") slices.
Proof.
  exists {| sk_segment_id := str "seg-1"; sk_source_id := str "seg-1" |}. split; [done|].
  repeat constructor.
Qed.

Lemma state_reachable : index_reachable keep keep state.
Proof. eapply reach_step; [apply reach_default|]. apply step_register_segment, slices_of_segment. Qed.

Lemma state_inv : index_inv state.
Proof. exact (reachable_inv keep keep (λ l, reflexivity l) state state_reachable). Qed.

Lemma compaction_index_invariant_witness : index_inv state.
Proof. apply (compaction_index_invariant keep keep); [reflexivity|apply state_reachable]. Defined.

Lemma plan_is_sound_witness :
  ∃ plan s', plan_ready keep 3 2 false 160 1000 50 200 8 1 ∅ ∅ state = Some (plan, s') ∧ length (cp_groups plan) ≤ 2 ∧
    ∀ x, x ∈ cs_id <$> planned (cp_groups plan) → available state x ∧ state_of s' x = Some Reserved.
Proof.
  destruct (plan_is_sound keep 3 2 false 160 1000 50 200 8 1 ∅ ∅ state) as (plan & s' & Heq & Hl & _ & _ & _ & Hx & _);
    [reflexivity|exact state_inv|lia|lia|].
  exists plan, s'. split_and!; [exact Heq|exact Hl|]. intros x Hin. destruct (Hx x Hin) as (? & _ & ?). by split.
Defined.

Lemma due_slices_are_planned_witness :
  ∃ plan s', plan_ready keep 3 2 false 160 1000 50 200 8 2 ∅ ∅ state = Some (plan, s') ∧
    cs_id (slice (str "seg-1") 0 0 120 100) ∈ cs_id <$> planned (cp_groups plan).
Proof.
  destruct (due_slices_are_planned keep 3 2 false 160 1000 50 200 8 2 ∅ ∅ state) as (plan & s' & Heq & Hx);
    [reflexivity|exact state_inv|lia|lia|].
  exists plan, s'. split; [exact Heq|].
  assert (match plan_ready keep 3 2 false 160 1000 50 200 8 2 ∅ ∅ state with
          | Some (p, _) => (length (cp_groups p), sink_groups (str "primary") (cp_groups p))
          | None => (0, 0)
          end = (1, 1)) as Hc by (vm_compute; reflexivity).
  rewrite Heq in Hc. injection Hc as Hlen Hsink.
  apply (Hx ltac:(lia) _ {| sr_slice := slice (str "seg-1") 0 0 120 100; sr_state := Waiting; sr_wait_generation := 1 |}).
  - vm_compute. reflexivity.
  - by left.
  - right. vm_compute. discriminate.
  - vm_compute. discriminate.
  - unfold sink_of, group_of. simpl. rewrite Hsink. vm_compute. lia.
Defined.

Lemma register_segment_replaces_witness :
  let '(n, s') := register_segment keep (str "seg-1") [slice (str "seg-1") 2 0 90 130] 1000 50 140 state in
  index_inv s' ∧ n = 1.
Proof.
  pose proof (register_segment_replaces keep (str "seg-1") [slice (str "seg-1") 2 0 90 130] 1000 50 140 state
    (λ l, reflexivity l) state_inv) as H.
  assert (of_segment (str "seg-1") [slice (str "seg-1") 2 0 90 130]) as Ho.
  { exists {| sk_segment_id := str "seg-1"; sk_source_id := str "seg-1" |}. split; [done|]. repeat constructor. }
  specialize (H Ho). destruct (register_segment keep _ _ 1000 50 140 state) as [n s']. destruct H as (? & _ & _ & ->).
  split; [done|]. vm_compute. reflexivity.
Defined.
End IndexExample.
