(* ===== verification/CompactionScheduler.v ===== *)
(** * CompactionScheduler: driving compaction jobs within a budget

    Models src/buffer/compaction_scheduler.rs.  A cycle asks a planner for work while it has
    free slots, runs the jobs concurrently, and takes their results in whatever order they
    come; commands to the compactor may arrive in between.  The planner is a function with a
    state of its own; which job completes next, with what result, and which command arrives
    when, is a list of events.  Metrics are left out. *)

From S2P Require Import Prelude Bytes Text SegmentFile SourceContract WalSlice CompactionIndex.

Definition BUDGET_RETUNE_WAVES : N := 4.

Definition saturating_mul (x y : N) : N := N.min U64_MAX (x * y).

(** ** Commands *)

(** A reply channel is known by a number. *)
Inductive CompactorCommand : Type := Wake | DrainAndStop (reply : nat).

Record CompactionCycleControl : Type := {
  ct_drain_reply : option nat;
  ct_stop_requested : bool;
  (** The reply channels that were answered with [false]. *)
  ct_refused : list nat
}.

(** [None] is a closed channel. *)
Definition handle_command (command : option CompactorCommand) (c : CompactionCycleControl) : CompactionCycleControl :=
  match command with
  | Some Wake => c
  | Some (DrainAndStop reply) =>
      match ct_drain_reply c with
      | None => {| ct_drain_reply := Some reply; ct_stop_requested := ct_stop_requested c; ct_refused := ct_refused c |}
      | Some _ => {| ct_drain_reply := ct_drain_reply c; ct_stop_requested := ct_stop_requested c;
                     ct_refused := reply :: ct_refused c |}
      end
  | None => {| ct_drain_reply := ct_drain_reply c; ct_stop_requested := true; ct_refused := ct_refused c |}
  end.

(** The commands queued so far, and whether the channel is closed behind them. *)
Definition drain_pending_commands (pending : list CompactorCommand) (disconnected : bool)
    (c : CompactionCycleControl) : CompactionCycleControl :=
  let c := foldl (λ c command, handle_command (Some command) c) c pending in
  if disconnected then handle_command None c else c.

Definition control_force (initial_force : bool) (c : CompactionCycleControl) : bool :=
  initial_force || bool_decide (is_Some (ct_drain_reply c)).

(** ** A cycle *)

Inductive Event : Type :=
(** The [i]-th job in flight ends; [late] says whether the cycle is older than the retune
    interval then. *)
| EvCompleted (i : nat) (compacted late : bool)
| EvCommand (command : option CompactorCommand).

Section Drive.
Context {W PS : Type} (work_lane : W → CompactionLaneKey).
Context (planner : nat → bool → gmap CompactionLaneKey nat → gset CompactionLaneKey → PS → (list W * bool) * PS).

(** What happened, for the statements: jobs handed to [execute] and their results. *)
Inductive LogEntry : Type := Started (w : W) | Ended (w : W) (compacted : bool).

Record Drive : Type := {
  d_in_flight : list W;
  d_active_by_lane : gmap CompactionLaneKey nat;
  d_blocked_lanes : gset CompactionLaneKey;
  d_completions : N;
  d_retune_requested : bool;
  d_made_progress : bool;
  d_control : option CompactionCycleControl;
  d_planner : PS;
  (** Newest first. *)
  d_log : list LogEntry
}.

Definition drive_start (control : option CompactionCycleControl) (ps : PS) : Drive := {|
  d_in_flight := []; d_active_by_lane := ∅; d_blocked_lanes := ∅; d_completions := 0;
  d_retune_requested := false; d_made_progress := false; d_control := control; d_planner := ps; d_log := []
|}.

Definition stopping (d : Drive) : bool :=
  match d_control d with Some c => ct_stop_requested c | None => false end.

Definition drive_force (initial_force : bool) (d : Drive) : bool :=
  match d_control d with Some c => control_force initial_force c | None => initial_force end.

Definition start_work (d : Drive) (w : W) : Drive := {|
  d_in_flight := d_in_flight d ++ [w];
  d_active_by_lane := <[work_lane w := S (default 0 (d_active_by_lane d !! work_lane w))]> (d_active_by_lane d);
  d_blocked_lanes := d_blocked_lanes d; d_completions := d_completions d;
  d_retune_requested := d_retune_requested d; d_made_progress := d_made_progress d;
  d_control := d_control d; d_planner := d_planner d; d_log := Started w :: d_log d
|}.

Definition with_planner (ps : PS) (d : Drive) : Drive := {|
  d_in_flight := d_in_flight d; d_active_by_lane := d_active_by_lane d; d_blocked_lanes := d_blocked_lanes d;
  d_completions := d_completions d; d_retune_requested := d_retune_requested d;
  d_made_progress := d_made_progress d; d_control := d_control d; d_planner := ps; d_log := d_log d
|}.

(** The inner loop.  A round that gets work fills at least one slot, so as many rounds as
    there are free slots are enough. *)
Fixpoint top_up (rounds concurrency : nat) (initial_force : bool) (d : Drive) : Drive :=
  match rounds with
  | O => d
  | S rounds' =>
      let slots := concurrency - length (d_in_flight d) in
      if slots =? 0 then d
      else
        let '((works, _), ps) :=
          planner slots (drive_force initial_force d) (d_active_by_lane d) (d_blocked_lanes d) (d_planner d) in
        let d := with_planner ps d in
        match works with
        | [] => d
        | _ => top_up rounds' concurrency initial_force (foldl start_work d works)
        end
  end.

Definition release_lane (l : CompactionLaneKey) (m : gmap CompactionLaneKey nat) : gmap CompactionLaneKey nat :=
  match m !! l with
  | None => m
  | Some active => let active := Nat.pred active in
                   if active =? 0 then delete l m else <[l := active]> m
  end.

Definition complete (max_completions : N) (i : nat) (compacted late : bool) (d : Drive) : option Drive :=
  match d_in_flight d !! i with
  | None => None
  | Some w =>
      let completions := saturating_add U64_MAX (d_completions d) 1 in
      Some {|
        d_in_flight := delete i (d_in_flight d);
        d_active_by_lane := release_lane (work_lane w) (d_active_by_lane d);
        d_blocked_lanes := if compacted then d_blocked_lanes d else {[work_lane w]} ∪ d_blocked_lanes d;
        d_completions := completions;
        d_retune_requested := d_retune_requested d || (max_completions <=? completions)%N || late;
        d_made_progress := d_made_progress d || compacted;
        d_control := d_control d; d_planner := d_planner d;
        d_log := Ended w compacted :: d_log d
      |}
  end.

Definition with_control (c : option CompactionCycleControl) (d : Drive) : Drive := {|
  d_in_flight := d_in_flight d; d_active_by_lane := d_active_by_lane d; d_blocked_lanes := d_blocked_lanes d;
  d_completions := d_completions d; d_retune_requested := d_retune_requested d;
  d_made_progress := d_made_progress d; d_control := c; d_planner := d_planner d; d_log := d_log d
|}.

(** A cycle listens to commands only while it has a control that is not stopping; [None] is
    an event that cannot happen. *)
Definition on_event (max_completions : N) (e : Event) (d : Drive) : option Drive :=
  match e with
  | EvCompleted i compacted late => complete max_completions i compacted late d
  | EvCommand command =>
      match d_control d with
      | Some c => if ct_stop_requested c then None else Some (with_control (Some (handle_command command c)) d)
      | None => None
      end
  end.

(** The head of the outer loop: fill the slots unless the cycle winds down. *)
Definition begin_round (concurrency : nat) (initial_force : bool) (d : Drive) : Drive :=
  if stopping d || d_retune_requested d then d
  else top_up (concurrency - length (d_in_flight d)) concurrency initial_force d.

Inductive DriveResult : Type :=
| Finished (d : Drive)
| Running (d : Drive)
| Impossible.

(** Every turn of the outer loop takes one event or ends the cycle. *)
Fixpoint drive_loop (concurrency : nat) (max_completions : N) (initial_force : bool) (events : list Event) (d : Drive)
    : DriveResult :=
  let d := begin_round concurrency initial_force d in
  match d_in_flight d with
  | [] => Finished d
  | _ => match events with
         | [] => Running d
         | e :: events => match on_event max_completions e d with
                          | None => Impossible
                          | Some d => drive_loop concurrency max_completions initial_force events d
                          end
         end
  end.

Definition max_completions_before_retune (concurrency : nat) : N :=
  N.max 1 (saturating_mul (N.of_nat concurrency) BUDGET_RETUNE_WAVES).

(** [pending] are the commands queued when the cycle starts. *)
Definition drive_work_conserving (concurrency : nat) (initial_force : bool)
    (control : option CompactionCycleControl) (pending : list CompactorCommand) (disconnected : bool)
    (ps : PS) (events : list Event) : DriveResult :=
  let concurrency := Nat.max concurrency 1 in
  let control := drain_pending_commands pending disconnected <$> control in
  drive_loop concurrency (max_completions_before_retune concurrency) initial_force events (drive_start control ps).
End Drive.

(** ** What the driver relies on

    A planner never returns more work than there are slots, and no work of a blocked lane. *)
Class PlannerLaws {W PS : Type} (work_lane : W → CompactionLaneKey)
    (planner : nat → bool → gmap CompactionLaneKey nat → gset CompactionLaneKey → PS → (list W * bool) * PS) : Prop := {
  planner_slots : ∀ slots force active blocked ps, length (planner slots force active blocked ps).1.1 ≤ slots;
  planner_lanes : ∀ slots force active blocked ps w,
    w ∈ (planner slots force active blocked ps).1.1 → work_lane w ∉ blocked
}.

Section DriveProofs.
Context {W PS : Type} (work_lane : W → CompactionLaneKey).
Context (planner : nat → bool → gmap CompactionLaneKey nat → gset CompactionLaneKey → PS → (list W * bool) * PS).
Context {laws : PlannerLaws work_lane planner}.
Context (concurrency : nat) (max_completions : N).

Definition lane_count (ws : list W) (l : CompactionLaneKey) : nat := length (filter (λ w, work_lane w = l) ws).

Definition started (log : list (@LogEntry W)) : list W :=
  omap (λ e, match e with Started w => Some w | Ended _ _ => None end) log.

Definition ended (log : list (@LogEntry W)) : list W :=
  omap (λ e, match e with Started _ => None | Ended w _ => Some w end) log.

(** No job of a lane is started after one of the lane failed; the log is newest first. *)
Definition no_restart (log : list (@LogEntry W)) : Prop :=
  ∀ newer w older w', log = newer ++ Ended w false :: older → Started w' ∈ newer → work_lane w' ≠ work_lane w.

Record drive_ok (d : @Drive W PS) : Prop := {
  dk_slots : length (d_in_flight d) ≤ concurrency;
  dk_active : ∀ l, d_active_by_lane d !! l =
    if decide (lane_count (d_in_flight d) l = 0) then None else Some (lane_count (d_in_flight d) l);
  dk_balance : started (d_log d) ≡ₚ d_in_flight d ++ ended (d_log d);
  dk_blocked : ∀ l, l ∈ d_blocked_lanes d ↔ ∃ w, Ended w false ∈ d_log d ∧ work_lane w = l;
  dk_progress : d_made_progress d = true ↔ ∃ w, Ended w true ∈ d_log d;
  dk_count : d_completions d = N.min U64_MAX (N.of_nat (length (ended (d_log d))));
  dk_retune : (max_completions ≤ d_completions d)%N → d_retune_requested d = true;
  dk_restart : no_restart (d_log d)
}.

Lemma lane_count_app a b l : lane_count (a ++ b) l = lane_count a l + lane_count b l.
Proof. unfold lane_count. by rewrite filter_app, length_app. Qed.

Lemma lane_count_one w l : lane_count [w] l = if decide (work_lane w = l) then 1 else 0.
Proof. unfold lane_count. rewrite filter_cons, filter_nil. by case_decide. Qed.

Lemma no_restart_started log w :
  no_restart log → (∀ w', Ended w' false ∈ log → work_lane w' ≠ work_lane w) → no_restart (Started w :: log).
Proof.
  intros Hn Hw newer w0 older w' Heq Hin. destruct newer as [|e newer]; [done|]. injection Heq as <- Heq.
  apply elem_of_cons in Hin as [[= ->]|Hin]; [|by eapply Hn].
  apply not_eq_sym, Hw. rewrite Heq. apply elem_of_app. right. by left.
Qed.

Lemma no_restart_ended log w b : no_restart log → no_restart (Ended w b :: log).
Proof.
  intros Hn newer w0 older w' Heq Hin. destruct newer as [|e newer]; [by apply elem_of_nil in Hin|].
  injection Heq as <- Heq. apply elem_of_cons in Hin as [?|Hin]; [done|]. by eapply Hn.
Qed.

Lemma start_work_ok d w :
  drive_ok d → length (d_in_flight d) < concurrency → work_lane w ∉ d_blocked_lanes d → drive_ok (start_work work_lane d w).
Proof.
  intros [H1 H2 H3 H4 H5 H6 H7 H8] Hl Hb. split; simpl.
  - rewrite length_app. simpl. lia.
  - intros l. rewrite lane_count_app, lane_count_one. destruct (decide (work_lane w = l)) as [<-|Hne].
    + rewrite lookup_insert_eq, decide_False by lia. rewrite H2. case_decide as E; simpl; f_equal; lia.
    + rewrite lookup_insert_ne by done. rewrite Nat.add_0_r. apply H2.
  - rewrite H3, <- app_assoc. simpl. apply Permutation_middle.
  - intros l. rewrite H4. split; intros (w' & Hw & Hl'); exists w'; (split; [|done]); [by right|].
    by apply elem_of_cons in Hw as [?|?].
  - rewrite H5. split; intros (w' & Hw); exists w'; [by right|]. by apply elem_of_cons in Hw as [?|?].
  - exact H6.
  - exact H7.
  - apply no_restart_started; [done|]. intros w' Hw Heq. apply Hb, H4. by exists w'.
Qed.

Lemma start_works_ok ws : ∀ d,
  drive_ok d → length (d_in_flight d) + length ws ≤ concurrency → Forall (λ w, work_lane w ∉ d_blocked_lanes d) ws →
  drive_ok (foldl (start_work work_lane) d ws) ∧
  length (d_in_flight (foldl (start_work work_lane) d ws)) = length (d_in_flight d) + length ws ∧
  d_retune_requested (foldl (start_work work_lane) d ws) = d_retune_requested d ∧
  ended (d_log (foldl (start_work work_lane) d ws)) = ended (d_log d).
Proof.
  induction ws as [|w ws IH]; intros d Hd Hl Hb; simpl in *; [split_and!; [done|lia|done|done]|].
  apply Forall_cons in Hb as [Hw Hb]. destruct (IH (start_work work_lane d w)) as (J1 & J2 & J3 & J4).
  - apply start_work_ok; [done|lia|done].
  - simpl. rewrite length_app. simpl. lia.
  - done.
  - split_and!; [done| |done|done]. rewrite J2. simpl. rewrite length_app. simpl. lia.
Qed.

Lemma with_planner_ok ps d : drive_ok d → drive_ok (with_planner ps d).
Proof. by intros []. Qed.

Lemma top_up_ok rounds force : ∀ d,
  drive_ok d → drive_ok (top_up work_lane planner rounds concurrency force d) ∧
  d_retune_requested (top_up work_lane planner rounds concurrency force d) = d_retune_requested d ∧
  ended (d_log (top_up work_lane planner rounds concurrency force d)) = ended (d_log d).
Proof.
  induction rounds as [|rounds IH]; intros d Hd; simpl; [done|].
  destruct (Nat.eqb_spec (concurrency - length (d_in_flight d)) 0) as [E|E]; [done|].
  pose proof (planner_slots (concurrency - length (d_in_flight d)) (drive_force force d) (d_active_by_lane d) (d_blocked_lanes d) (d_planner d)) as Hs.
  pose proof (planner_lanes (concurrency - length (d_in_flight d)) (drive_force force d) (d_active_by_lane d) (d_blocked_lanes d) (d_planner d)) as Hl.
  destruct (planner _ _ _ _ _) as [[works rem] ps]. simpl in Hs, Hl. destruct works as [|w works]; [split_and!; [by apply with_planner_ok|done|done]|].
  destruct (start_works_ok (w :: works) (with_planner ps d)) as (J1 & J2 & J3 & J4).
  - by apply with_planner_ok.
  - simpl in *. lia.
  - apply Forall_forall. intros x Hx. by apply Hl.
  - destruct (IH _ J1) as (K1 & K2 & K3). split_and!; [done|by rewrite K2|by rewrite K3].
Qed.

Lemma begin_round_ok force d :
  drive_ok d → drive_ok (begin_round work_lane planner concurrency force d) ∧
  d_retune_requested (begin_round work_lane planner concurrency force d) = d_retune_requested d ∧
  ended (d_log (begin_round work_lane planner concurrency force d)) = ended (d_log d).
Proof. intros Hd. unfold begin_round. destruct (stopping d || d_retune_requested d); [done|]. by apply top_up_ok. Qed.

Lemma complete_ok i compacted late d d' :
  drive_ok d → complete work_lane max_completions i compacted late d = Some d' → drive_ok d' ∧
  S (length (d_in_flight d')) = length (d_in_flight d) ∧ length (ended (d_log d')) = S (length (ended (d_log d))) ∧
  (d_retune_requested d = true → d_retune_requested d' = true).
Proof.
  intros [H1 H2 H3 H4 H5 H6 H7 H8] Hc. unfold complete in Hc. destruct (d_in_flight d !! i) as [w|] eqn:Hw; [|done].
  injection Hc as <-. pose proof (delete_Permutation _ _ _ Hw) as Hp.
  assert (length (d_in_flight d) = S (length (delete i (d_in_flight d)))) as Hlen by (rewrite Hp at 1; done).
  assert (∀ l, lane_count (d_in_flight d) l = (if decide (work_lane w = l) then 1 else 0) + lane_count (delete i (d_in_flight d)) l) as Hcnt.
  { intros l. rewrite <- lane_count_one, <- lane_count_app. unfold lane_count. by rewrite Hp at 1. }
  split_and!; simpl; [|lia|done|intros ->; done]. split; simpl.
  - lia.
  - intros l. unfold release_lane. rewrite H2. specialize (Hcnt (work_lane w)) as Hcw. rewrite decide_True in Hcw by done.
    rewrite decide_False by lia. rewrite Hcw. simpl. destruct (Nat.eqb_spec (lane_count (delete i (d_in_flight d)) (work_lane w)) 0) as [E|E].
    + destruct (decide (work_lane w = l)) as [<-|Hne]; [by rewrite lookup_delete_eq, decide_True|].
      rewrite lookup_delete_ne, H2, Hcnt, (decide_False (P := work_lane w = l)) by done. done.
    + destruct (decide (work_lane w = l)) as [<-|Hne]; [by rewrite lookup_insert_eq, decide_False|].
      rewrite lookup_insert_ne, H2, Hcnt, (decide_False (P := work_lane w = l)) by done. done.
  - rewrite H3. rewrite Hp at 1. simpl. by rewrite <- Permutation_middle.
  - intros l. destruct compacted.
    + rewrite H4. split; intros (w' & Hin & Hl); exists w'; (split; [|done]); [by right|]. by apply elem_of_cons in Hin as [?|?].
    + rewrite elem_of_union, elem_of_singleton, H4. split.
      * intros [->|(w' & Hin & Hl)]; [exists w; split; [by left|done]|exists w'; split; [by right|done]].
      * intros (w' & [[= ->]|Hin]%elem_of_cons & Hl); [by left|right; eauto].
  - rewrite orb_true_iff, H5. destruct compacted; split.
    + intros _. exists w. by left.
    + by right.
    + intros [(w' & ?)|?]; [exists w'; by right|done].
    + intros (w' & [?|?]%elem_of_cons); [done|left; by exists w'].
  - rewrite H6. unfold saturating_add. simpl. lia.
  - intros Hm. apply orb_true_iff. left. apply orb_true_iff. right. by apply N.leb_le.
  - by apply no_restart_ended.
Qed.

(** How many jobs a cycle may run: those before the retune and those in flight then. *)
Definition wind_down (d : @Drive W PS) : Prop :=
  if d_retune_requested d
  then (N.of_nat (length (ended (d_log d)) + length (d_in_flight d))%nat + 1 ≤ max_completions + N.of_nat concurrency)%N
  else (N.of_nat (length (ended (d_log d))) < max_completions)%N.

Lemma wind_down_count d :
  drive_ok d → wind_down d → (max_completions ≤ U64_MAX)%N →
  (N.of_nat (length (started (d_log d))) + 1 ≤ max_completions + N.of_nat concurrency)%N.
Proof.
  intros Hd Hw Hm. rewrite (dk_balance _ Hd), length_app. pose proof (dk_slots _ Hd). unfold wind_down in Hw.
  destruct (d_retune_requested d); lia.
Qed.

Lemma begin_round_winds force d :
  drive_ok d → wind_down d → wind_down (begin_round work_lane planner concurrency force d).
Proof.
  intros Hd Hw. destruct (begin_round_ok force d Hd) as (_ & H2 & H3). unfold wind_down in *. rewrite H2, H3.
  destruct (d_retune_requested d) eqn:E; [|done]. unfold begin_round. by rewrite E, orb_true_r.
Qed.

Lemma complete_winds i compacted late d d' :
  drive_ok d → wind_down d → (max_completions ≤ U64_MAX)%N → (0 < concurrency) →
  complete work_lane max_completions i compacted late d = Some d' → wind_down d'.
Proof.
  intros Hd Hw Hm Hc Heq. destruct (complete_ok _ _ _ _ _ Hd Heq) as (Hd' & H1 & H2 & H3).
  pose proof (dk_slots _ Hd) as Hs. pose proof (dk_retune _ Hd') as Hr. rewrite (dk_count _ Hd') in Hr. unfold wind_down in *.
  destruct (d_retune_requested d) eqn:E.
  - rewrite (H3 eq_refl). lia.
  - destruct (d_retune_requested d') eqn:E'; [lia|].
    assert (¬ (max_completions ≤ N.of_nat (length (ended (d_log d'))))%N) as Hn; [|lia].
    intros Hle. assert (false = true); [|done]. apply Hr. lia.
Qed.

Definition completions_in (events : list Event) : nat :=
  length (List.filter (λ e, match e with EvCompleted _ _ _ => true | EvCommand _ => false end) events).

Lemma drive_loop_ok force : (0 < concurrency) → (max_completions ≤ U64_MAX)%N → ∀ events d,
  drive_ok d → wind_down d →
  match drive_loop work_lane planner concurrency max_completions force events d with
  | Finished d' => drive_ok d' ∧ wind_down d' ∧ d_in_flight d' = []
  | Running d' => drive_ok d' ∧ wind_down d' ∧ d_in_flight d' ≠ [] ∧
      length (ended (d_log d')) = length (ended (d_log d)) + completions_in events
  | Impossible => True
  end.
Proof.
  intros Hc Hm. induction events as [|e events IH]; intros d Hd Hw; simpl;
    destruct (begin_round_ok force d Hd) as (B1 & B2 & B3); pose proof (begin_round_winds force d Hd Hw) as B4;
    set (d1 := begin_round work_lane planner concurrency force d) in *; clearbody d1.
  - destruct (d_in_flight d1) eqn:E; [done|]. split_and!; [done|done|by rewrite E|]. unfold completions_in. simpl. rewrite B3. lia.
  - destruct (d_in_flight d1) eqn:E; [done|]. destruct (on_event work_lane max_completions e d1) as [d2|] eqn:Eo; [|done].
    assert (drive_ok d2 ∧ wind_down d2 ∧ length (ended (d_log d2)) = length (ended (d_log d1)) + completions_in [e]) as (K1 & K2 & K3).
    { destruct e as [i compacted late|command]; simpl in Eo.
      - destruct (complete_ok _ _ _ _ _ B1 Eo) as (? & _ & HL & _). split_and!; [done|by eapply (complete_winds i compacted late d1); [..|exact Eo]|].
        rewrite HL. unfold completions_in. simpl. lia.
      - destruct (d_control d1) as [c|]; [|done]. destruct (ct_stop_requested c); [done|]. injection Eo as <-.
        split_and!; [by destruct B1|done|]. unfold completions_in. simpl. lia. }
    specialize (IH d2 K1 K2). destruct (drive_loop _ _ _ _ _ _ d2); [done| |done].
    destruct IH as (I1 & I2 & I3 & I4). split_and!; [done|done|done|]. rewrite I4, K3, B3.
    unfold completions_in. simpl. destruct e; simpl; lia.
Qed.

Lemma drive_start_ok control ps : (0 < max_completions)%N → drive_ok (drive_start control ps) ∧ wind_down (drive_start control ps).
Proof.
  intros Hm. split; [|unfold wind_down; simpl; lia]. split; simpl.
  - lia.
  - intros l. by rewrite lookup_empty.
  - done.
  - intros l. split; [by intros ?%elem_of_empty|]. by intros (w & ?%elem_of_nil & _).
  - split; [done|]. by intros (w & ?%elem_of_nil).
  - done.
  - lia.
  - intros newer w older w' Heq. by destruct newer.
Qed.
End DriveProofs.

Lemma max_completions_bounds c : (0 < max_completions_before_retune c ≤ U64_MAX)%N.
Proof. unfold max_completions_before_retune, saturating_mul, U64_MAX. lia. Qed.

(** C12: with any planner that keeps to its slots and to the lanes it is given, whatever the
    order in which jobs end and commands arrive: never more jobs are in flight than the cycle
    has slots, the count of active jobs per lane is exact, a lane is blocked exactly when a
    job of it has failed, and no job of a lane is started after one of it has failed; when
    the cycle ends no job is left behind (what was started is what has ended), and it reports
    progress exactly when a job succeeded. *)
Theorem scheduler_cycle_sound {W PS} (work_lane : W → CompactionLaneKey) planner concurrency force control pending disconnected (ps : PS) events :
  PlannerLaws work_lane planner →
  match drive_work_conserving work_lane planner concurrency force control pending disconnected ps events with
  | Finished d => drive_ok work_lane (Nat.max concurrency 1) (max_completions_before_retune (Nat.max concurrency 1)) d ∧
                  d_in_flight d = [] ∧ started (d_log d) ≡ₚ ended (d_log d) ∧ d_active_by_lane d = ∅
  | Running d => drive_ok work_lane (Nat.max concurrency 1) (max_completions_before_retune (Nat.max concurrency 1)) d
  | Impossible => True
  end.
Proof.
  intros laws. unfold drive_work_conserving. cbv zeta. set (c := Nat.max concurrency 1).
  pose proof (max_completions_bounds c) as Hm.
  destruct (drive_start_ok work_lane c (max_completions_before_retune c) (drain_pending_commands pending disconnected <$> control) ps) as [H1 H2]; [lia|].
  pose proof (drive_loop_ok work_lane planner c (max_completions_before_retune c) force ltac:(lia) ltac:(lia) events _ H1 H2) as H.
  destruct (drive_loop _ _ _ _ _ _ _) as [d|d|]; [|by destruct H|done]. destruct H as (Hd & _ & He). split_and!; [done|done| |].
  - rewrite (dk_balance _ _ _ _ Hd), He. done.
  - apply map_eq. intros l. rewrite (dk_active _ _ _ _ Hd), He, lookup_empty. done.
Qed.


(** The bound on the rounds of the inner loop is never what ends it. *)
Lemma top_up_enough {W PS} (work_lane : W → CompactionLaneKey) (planner : nat → bool → gmap CompactionLaneKey nat → gset CompactionLaneKey → PS → (list W * bool) * PS)
    concurrency force r1 : ∀ r2 d,
  concurrency - length (d_in_flight d) ≤ r1 → concurrency - length (d_in_flight d) ≤ r2 →
  top_up work_lane planner r1 concurrency force d = top_up work_lane planner r2 concurrency force d.
Proof.
  assert (∀ ws (d : @Drive W PS), length (d_in_flight (foldl (start_work work_lane) d ws)) = length (d_in_flight d) + length ws) as Hlen.
  { induction ws as [|w ws IH]; intros d; simpl; [lia|]. rewrite IH. simpl. rewrite length_app. simpl. lia. }
  assert (∀ r (d : @Drive W PS), concurrency - length (d_in_flight d) = 0 → top_up work_lane planner r concurrency force d = d) as H0.
  { intros [|r] d E; [done|]. simpl. by rewrite E. }
  induction r1 as [|r1 IH]; intros r2 d Hr1 Hr2; [by rewrite !H0 by lia|].
  destruct r2 as [|r2]; [by rewrite !H0 by lia|]. simpl.
  destruct (Nat.eqb_spec (concurrency - length (d_in_flight d)) 0) as [E|E]; [done|].
  destruct (planner _ _ _ _ _) as [[works rem] ps]. destruct works as [|w works]; [done|].
  apply IH; rewrite Hlen; simpl; lia.
Qed.

(** ** A concrete planner: a queue of jobs, blocked lanes skipped *)
Module SchedulerExample.
Definition job : Type := (CompactionLaneKey * nat)%type.

Definition queue_planner (slots : nat) (force : bool) (active : gmap CompactionLaneKey nat)
    (blocked : gset CompactionLaneKey) (queue : list job) : (list job * bool) * list job :=
  let ready := filter (λ j, j.1 ∉ blocked) queue in
  ((take slots ready, false), filter (λ j, j.1 ∈ blocked) queue ++ drop slots ready).

#[export] Instance queue_planner_laws : PlannerLaws fst queue_planner.
Proof.
  split; intros slots force active blocked ps; simpl; [rewrite length_take; lia|].
  intros w Hw. apply elem_of_take in Hw as (i & Hi & _). by apply list_elem_of_lookup_2, list_elem_of_filter in Hi as [? _].
Qed.

Definition lane_a : CompactionLaneKey := {| lk_sink_ref := [x61]; lk_namespace := [x61] |}.
Definition lane_b : CompactionLaneKey := {| lk_sink_ref := [x61]; lk_namespace := [x62] |}.
Definition jobs : list job := [(lane_a, 1); (lane_b, 2); (lane_a, 3); (lane_b, 4)].

(** The first job of lane a fails, a drain request arrives, the jobs of lane b succeed. *)
Definition run : @DriveResult job (list job) :=
  drive_work_conserving fst queue_planner 2 false
    (Some {| ct_drain_reply := None; ct_stop_requested := false; ct_refused := [] |}) [Wake] false jobs
    [EvCompleted 0 false false; EvCommand (Some (DrainAndStop 7)); EvCompleted 0 true false; EvCompleted 0 true false].
End SchedulerExample.

Lemma scheduler_cycle_sound_witness :
  ∃ d, SchedulerExample.run = Finished d ∧ map snd (started (d_log d)) = [4; 2; 1] ∧ d_made_progress d = true ∧
       map snd (d_planner d) = [3] ∧ d_in_flight d = [].
Proof.
  pose proof (scheduler_cycle_sound fst SchedulerExample.queue_planner 2 false
    (Some {| ct_drain_reply := None; ct_stop_requested := false; ct_refused := [] |}) [Wake] false SchedulerExample.jobs
    [EvCompleted 0 false false; EvCommand (Some (DrainAndStop 7)); EvCompleted 0 true false; EvCompleted 0 true false]
    SchedulerExample.queue_planner_laws) as H.
  fold SchedulerExample.run in H.
  assert (match SchedulerExample.run with
          | Finished d => (map snd (started (d_log d)), d_made_progress d, map snd (d_planner d)) = ([4; 2; 1], true, [3])
          | _ => False end) as E by (vm_compute; reflexivity).
  destruct SchedulerExample.run as [d| |]; [|done..]. destruct H as (_ & H & _). injection E as E1 E2 E3. by exists d.
Defined.

