(* ===== verification/Clients.v ===== *)
(** * Clients: programs that talk to shared services

    The catalogs of the lake are shared by clients that run at the same time and meet only
    in the services they call.  A client is a program of requests; the requests of several
    clients interleave in any order.  A rely-guarantee rule reduces a statement about all
    interleavings to one about each program. *)

From S2P Require Import Prelude Bytes.

(** ** Programs *)

Section Programs.
Context {Q : Type → Type} {E : Type}.

Inductive prog (A : Type) : Type :=
| Ret (r : result E A)
| Ask {X : Type} (q : Q X) (k : X → prog A).
#[global] Arguments Ret {A} r.
#[global] Arguments Ask {A X} q k.

(** Goes on with the result, an error too. *)
Fixpoint pcase {A B} (p : prog A) (f : result E A → prog B) : prog B :=
  match p with
  | Ret r => f r
  | Ask q k => Ask q (λ x, pcase (k x) f)
  end.

Definition pbind {A B} (p : prog A) (f : A → prog B) : prog B :=
  pcase p (λ r, match r with Ok a => f a | Err e => Ret (Err e) end).

Definition ask {X} (q : Q X) : prog X := Ask q (λ x, Ret (Ok x)).

(** A request that may fail. *)
Definition ask_or {F X} (f : F → E) (q : Q (result F X)) : prog X := Ask q (λ r, Ret (map_err f r)).

Fixpoint pfor {A} (f : A → prog unit) (l : list A) : prog unit :=
  match l with
  | [] => Ret (Ok tt)
  | a :: l => pbind (f a) (λ _, pfor f l)
  end.
End Programs.
Arguments prog Q E A : clear implicits.

Notation "'run?' x ':=' e 'in' k" := (pbind e (λ x, k))
  (at level 10, x binder, e at level 200, k at level 200,
   format "'[v' 'run?'  x  ':='  e  'in' '/' k ']'") : result_scope.
Notation "e ';&' k" := (pbind e (λ _, k))
  (at level 100, k at level 200, right associativity) : result_scope.

(** ** Running them *)

(** The handler of a request may see which client sent it. *)
Section Run.
Context {Q : Type → Type} {E W : Type} (handle : nat → ∀ X, Q X → W → X * W).
Notation prog := (prog Q E).

Fixpoint run {A} (i : nat) (p : prog A) (w : W) : result E A * W :=
  match p with
  | Ret r => (r, w)
  | Ask q k => let '(x, w) := handle i _ q w in run i (k x) w
  end.

(** One request. *)
Definition advance {A} (i : nat) (p : prog A) (w : W) : prog A * W :=
  match p with
  | Ret r => (Ret r, w)
  | Ask q k => let '(x, w) := handle i _ q w in (k x, w)
  end.

(** The requests of several programs, in the order of a schedule. *)
Fixpoint interleave {A} (schedule : list nat) (ps : list (prog A)) (w : W) : list (prog A) * W :=
  match schedule with
  | [] => (ps, w)
  | i :: schedule =>
      match ps !! i with
      | Some p => let '(p, w) := advance i p w in interleave schedule (<[i := p]> ps) w
      | None => interleave schedule ps w
      end
  end.

Inductive client_step {A} : list (prog A) * W → list (prog A) * W → Prop :=
| step_client i p ps w : ps !! i = Some p → client_step (ps, w) (<[i := (advance i p w).1]> ps, (advance i p w).2).

Lemma interleave_steps {A} schedule : ∀ (ps : list (prog A)) w, rtc client_step (ps, w) (interleave schedule ps w).
Proof.
  induction schedule as [|i schedule IH]; intros ps w; [done|]. cbn [interleave].
  destruct (ps !! i) as [p|] eqn:Hp; [|apply IH]. destruct (advance i p w) as [p' w'] eqn:Ha.
  eapply rtc_l; [by apply (step_client i p)|]. rewrite Ha. apply IH.
Qed.

(** ** Rely and guarantee *)

(** What each client may do with a request; between two of its own a client sees those of the
    others. *)
Context (guar : nat → W → W → Prop).
Definition others_step (i : nat) (w w' : W) : Prop := ∃ j, j ≠ i ∧ guar j w w'.
Notation rely i := (rtc (others_step i)).

Fixpoint wp {A} (i : nat) (p : prog A) (post : result E A → W → Prop) (w : W) : Prop :=
  match p with
  | Ret r => ∀ w', rely i w w' → post r w'
  | Ask q k => ∀ w', rely i w w' →
      guar i w' (handle i _ q w').2 ∧ wp i (k (handle i _ q w').1) post (handle i _ q w').2
  end.

Lemma wp_rely {A} i (p : prog A) post w w' : wp i p post w → rely i w w' → wp i p post w'.
Proof. destruct p; intros Hp Hw w'' Hw'; apply Hp; by trans w'. Qed.

Lemma wp_mono {A} i (p : prog A) (post post' : result E A → W → Prop) w :
  wp i p post w → (∀ r w, post r w → post' r w) → wp i p post' w.
Proof.
  revert w. induction p as [r|X q k IH]; intros w Hp Hpost w' Hw; [by apply Hpost, Hp|].
  destruct (Hp w' Hw) as [Hg Hk]. split; [done|]. by apply IH.
Qed.

Lemma wp_pcase {A B} i (p : prog A) (f : result E A → prog B) post w :
  wp i p (λ r w, wp i (f r) post w) w → wp i (pcase p f) post w.
Proof.
  revert w. induction p as [r|X q k IH]; intros w Hp; [exact (Hp w (rtc_refl _ _))|]. intros w' Hw.
  destruct (Hp w' Hw) as [Hg Hk]. split; [done|]. by apply IH.
Qed.

Lemma wp_pbind {A B} i (p : prog A) (f : A → prog B) post w :
  wp i p (λ r w, match r with Ok a => wp i (f a) post w | Err e => ∀ w', rely i w w' → post (Err e) w' end) w →
  wp i (pbind p f) post w.
Proof. intros Hp. apply wp_pcase. eapply wp_mono; [exact Hp|]. by intros [a|e]. Qed.

(** Every client keeps to the guarantee, and what it establishes is there when it returns. *)
Theorem clients_sound {A} (posts : list (result E A → W → Prop)) ps ps' w w' :
  rtc client_step (ps, w) (ps', w') →
  (∀ i p post, ps !! i = Some p → posts !! i = Some post → wp i p post w) → length ps = length posts →
  rtc (λ w w', ∃ i, guar i w w') w w' ∧
  ∀ i p post, ps' !! i = Some p → posts !! i = Some post → wp i p post w'.
Proof.
  intros Hs. remember (ps, w) as c eqn:Hc. remember (ps', w') as c' eqn:Hc'. revert ps w ps' w' Hc Hc'.
  induction Hs as [c|c1 c2 c3 Hst _ IH]; intros ps w ps' w' Hc Hc' Hf Hl.
  - rewrite Hc in Hc'. injection Hc' as -> ->. split; [apply rtc_refl|done].
  - subst c1 c3. inversion Hst as [i p ps0 w0 Hp]; subst.
    destruct (lookup_lt_is_Some_2 posts i) as [post Hpost]; [rewrite <- Hl; by eapply lookup_lt_Some|].
    specialize (Hf i p post Hp Hpost) as Hwp.
    assert (rtc (guar i) w (advance i p w).2 ∧ wp i (advance i p w).1 post (advance i p w).2) as [Hr Hwp'].
    { destruct p as [r|X q k]; cbn [advance]; [split; [apply rtc_refl|done]|]. destruct (Hwp w (rtc_refl _ _)) as [Hg Hk].
      destruct (handle i X q w) as [x w2]. split; [by apply rtc_once|done]. }
    destruct (IH _ _ _ _ eq_refl eq_refl) as [Hr' Hf']; [|by rewrite length_insert|].
    { intros j p' post' Hp' Hpost'. destruct (decide (j = i)) as [->|Hne].
      - rewrite list_lookup_insert_eq in Hp' by (by eapply lookup_lt_Some). by simplify_eq.
      - rewrite list_lookup_insert_ne in Hp' by done. eapply wp_rely; [by apply Hf|].
        eapply rtc_subrel; [|exact Hr]. intros x y Hxy. exists i. by split; [apply not_eq_sym|]. }
    split; [|done]. trans (advance i p w).2; [|done]. eapply rtc_subrel; [|exact Hr]. intros x y Hxy. by exists i.
Qed.
End Run.

(** A property of the world that every step keeps. *)
Lemma rtc_invariant {W} (R : W → W → Prop) (P : W → Prop) w w' : (∀ w w', R w w' → P w → P w') → rtc R w w' → P w → P w'.
Proof. intros Hg. induction 1 as [|w1 w2 w3 Hs _ IH]; [done|]. intros Hp. apply IH. exact (Hg _ _ Hs Hp). Qed.
