(* ===== verification/IcebergCatalog.v ===== *)
(** * IcebergCatalog: what the catalogs of the lake share

    The model of crates/skippr-iceberg-catalog (lib.rs, metadata_cache.rs): warehouses and
    their object stores, the names in catalog keys, the SQL of a DuckDB secret, the bounded
    cache of table metadata and the files a commit supersedes.  Table metadata is a type
    parameter, read through the class [TableMetadata]. *)

From S2P Require Import Prelude Bytes Text Io Codec Lease Clients.

(** ** Trimming characters and prefixes *)

Fixpoint trim_start_char (c : byte) (s : bytes) : bytes :=
  match s with
  | [] => []
  | b :: s' => if Byte.eqb b c then trim_start_char c s' else s
  end.

Definition trim_end_char (c : byte) (s : bytes) : bytes := rev (trim_start_char c (rev s)).
Definition trim_char (c : byte) (s : bytes) : bytes := trim_end_char c (trim_start_char c s).

(** [str::trim_start_matches] with a text. *)
Fixpoint trim_start_text (fuel : nat) (p s : bytes) : bytes :=
  match fuel with
  | 0 => s
  | Datatypes.S fuel =>
      match strip_prefix p s with
      | Some rest => trim_start_text fuel p rest
      | None => s
      end
  end.
Definition trim_start_matches (p s : bytes) : bytes := trim_start_text (length s) p s.

(** ** Warehouses *)

Definition warehouse_key (warehouse : bytes) : bytes := trim_end_char x2f (trim warehouse).

Definition is_blank (s : bytes) : bool := bool_decide (trim s = []).

Definition require_file_warehouse (warehouse : bytes) : result bytes bytes :=
  if is_blank warehouse then Err (str "warehouse is required")
  else let key := warehouse_key warehouse in
       if starts_with key (str "file://") then Ok key else Err (str "warehouse must be file://").

Definition validate_file_warehouse (warehouse table_namespace : bytes) : result bytes unit :=
  let? _ := require_file_warehouse warehouse in
  if is_blank table_namespace then Err (str "table_namespace is required") else Ok tt.

Definition require_s3_warehouse (warehouse : bytes) : result bytes bytes :=
  if is_blank warehouse then Err (str "warehouse is required")
  else let key := warehouse_key warehouse in
       if starts_with key (str "s3://") || starts_with key (str "s3a://") then Ok key
       else Err (str "warehouse must be s3://").

Definition to_iceberg_s3_uri (uri : bytes) : bytes :=
  match strip_prefix (str "s3://") uri with
  | Some rest => str "s3a://" ++ rest
  | None => uri
  end.

Definition warehouse_hash {DG : Digest} (warehouse : bytes) : bytes := sha256_hex (warehouse_key warehouse).

Definition iceberg_table_location (warehouse namespace table : bytes) : bytes :=
  trim_end_char x2f (trim warehouse) ++ x2f :: trim_char x2f (trim namespace) ++ x2f :: trim_char x2f (trim table).

(** ** Object stores *)

Record R2 : Type := {
  r2_endpoint : bytes;
  r2_region : option bytes;
  r2_access_key_id : bytes;
  r2_secret_access_key : bytes;
  r2_path_style : bool
}.

Inductive S3CompatibleObjectStore : Type := CompatS3 | CompatR2 (r : R2).
Inductive WarehouseObjectStore : Type := WFile | WS3 | WR2 (r : R2).

Definition compat_physical_key (s : S3CompatibleObjectStore) : bytes :=
  match s with CompatS3 => str "s3" | CompatR2 r => str "r2:" ++ r2_endpoint r end.

Definition physical_key (s : WarehouseObjectStore) : bytes :=
  match s with WFile => str "file" | WS3 => str "s3" | WR2 r => str "r2:" ++ r2_endpoint r end.

Definition compat_validate_warehouse (_ : S3CompatibleObjectStore) (warehouse : bytes) : result bytes unit :=
  rmap (λ _, tt) (require_s3_warehouse warehouse).

Definition validate_warehouse (s : WarehouseObjectStore) (warehouse : bytes) : result bytes unit :=
  match s with
  | WFile => rmap (λ _, tt) (require_file_warehouse warehouse)
  | WS3 | WR2 _ => rmap (λ _, tt) (require_s3_warehouse warehouse)
  end.

Definition s3_compatible (s : WarehouseObjectStore) : result bytes S3CompatibleObjectStore :=
  match s with
  | WFile => Err (str "object_store type file is not S3-compatible")
  | WS3 => Ok CompatS3
  | WR2 r => Ok (CompatR2 r)
  end.

Definition R2_REQUIRED : bytes := str "object_store type r2 requires endpoint, access_key_id, and secret_access_key".

(** A region that is not blank, trimmed. *)
Definition given_region (r : option bytes) : option bytes :=
  region ← r; if bool_decide (trim region = []) then None else Some (trim region).

Definition r2_object_store_props (r : R2) : result bytes (gmap bytes bytes) :=
  let endpoint := trim (r2_endpoint r) in
  let access_key_id := trim (r2_access_key_id r) in
  let secret_access_key := trim (r2_secret_access_key r) in
  if bool_decide (endpoint = []) || bool_decide (access_key_id = []) || bool_decide (secret_access_key = [])
  then Err R2_REQUIRED
  else
    let props : gmap bytes bytes :=
      <[str "s3.disable-ec2-metadata" := str "true"]> (<[str "s3.disable-config-load" := str "true"]>
      (<[str "s3.secret-access-key" := secret_access_key]> (<[str "s3.access-key-id" := access_key_id]>
      (<[str "s3.path-style-access" := if r2_path_style r then str "true" else str "false"]>
      {[ str "s3.endpoint" := endpoint ]})))) in
    Ok (match given_region (r2_region r) with
        | Some region => <[str "s3.region" := region]> props
        | None => props
        end).

Definition s3_object_store_props (s : S3CompatibleObjectStore) : result bytes (gmap bytes bytes) :=
  match s with CompatS3 => Ok ∅ | CompatR2 r => r2_object_store_props r end.

(** ** The configuration of a lake *)

Record SkipprLakeConfig : Type := {
  lk_warehouse : bytes;
  lk_catalog_table : bytes;
  lk_region : option bytes;
  lk_object_store : WarehouseObjectStore;
  lk_table_namespace : bytes
}.

Definition location_root (c : SkipprLakeConfig) : bytes :=
  trim_end_char x2f (lk_warehouse c) ++ x2f :: lk_table_namespace c.

Definition is_plugin_name (name : bytes) : bool :=
  bool_decide (to_ascii_lowercase name = to_ascii_lowercase (str "SkipprLake")).

Definition lake_validate (c : SkipprLakeConfig) : result bytes unit :=
  if is_blank (lk_warehouse c) then Err (str "warehouse is required")
  else if is_blank (lk_catalog_table c) then Err (str "catalog_table is required")
  else if is_blank (lk_table_namespace c) then Err (str "table_namespace is required")
  else
    validate_warehouse (lk_object_store c) (lk_warehouse c) ;?
    match lk_object_store c with
    | WR2 _ =>
        let? s := s3_compatible (lk_object_store c) in
        let? _ := s3_object_store_props s in
        Ok tt
    | WFile | WS3 => Ok tt
    end.

(** ** SQL *)

Fixpoint replace_quote (s : bytes) : bytes :=
  match s with
  | [] => []
  | c :: s => if Byte.eqb c x27 then x27 :: x27 :: replace_quote s else c :: replace_quote s
  end.

Definition sql_string_literal (value : bytes) : bytes := x27 :: replace_quote value ++ [x27].

Definition duckdb_s3_endpoint (endpoint : bytes) : bytes :=
  trim_end_char x2f (trim_start_matches (str "http://") (trim_start_matches (str "https://") (trim endpoint))).

Definition duckdb_create_secret_sql (s : WarehouseObjectStore) : result bytes bytes :=
  match s with
  | WFile => Err (str "object_store type file has no duckdb secret")
  | WS3 => Ok (str "CREATE OR REPLACE SECRET (TYPE S3, PROVIDER CREDENTIAL_CHAIN);")
  | WR2 r =>
      let endpoint := duckdb_s3_endpoint (r2_endpoint r) in
      let access_key_id := trim (r2_access_key_id r) in
      let secret_access_key := trim (r2_secret_access_key r) in
      if bool_decide (endpoint = []) || bool_decide (access_key_id = []) || bool_decide (secret_access_key = [])
      then Err R2_REQUIRED
      else
        let region := default (str "auto") (given_region (r2_region r)) in
        let url_style := if r2_path_style r then str "path" else str "vhost" in
        Ok (str "CREATE OR REPLACE SECRET (TYPE S3, KEY_ID " ++ sql_string_literal access_key_id
            ++ str ", SECRET " ++ sql_string_literal secret_access_key
            ++ str ", REGION " ++ sql_string_literal region
            ++ str ", ENDPOINT " ++ sql_string_literal endpoint
            ++ str ", URL_STYLE '" ++ url_style ++ str "');")
  end.

(** ** Names in keys *)

Definition encode_name (name : bytes) : bytes := display_N (blen name) ++ x3a :: name.

Definition decode_name (parse_error : bytes → bytes) (encoded : bytes) : result bytes bytes :=
  let? '(len, rest) := ok_or (str "missing length prefix") (split_once x3a encoded) in
  let? len := ok_or (parse_error len) (parse_N U64_MAX len) in
  if (blen rest =? len)%N then Ok rest else Err (str "length prefix does not match name").

(** ** The cache of table metadata *)

Definition METADATA_CACHE_ENTRIES : nat := 64.

Section Cache.
Context {M : Type}.

Record CachedMetadata : Type := { cm_location : bytes; cm_metadata : M }.
Record MetadataCache : Type := { mc_map : gmap bytes CachedMetadata; mc_order : list bytes }.

Definition cache_empty : MetadataCache := {| mc_map := ∅; mc_order := [] |}.

Definition cache_get (key : bytes) (c : MetadataCache) : option CachedMetadata := mc_map c !! key.

(** Entries are dropped from the front until the order fits. *)
Fixpoint evict (order : list bytes) (m : gmap bytes CachedMetadata) : MetadataCache :=
  match order with
  | evicted :: order' =>
      if METADATA_CACHE_ENTRIES <? length order then evict order' (delete evicted m) else {| mc_map := m; mc_order := order |}
  | [] => {| mc_map := m; mc_order := [] |}
  end.

Definition cache_insert (key : bytes) (entry : CachedMetadata) (c : MetadataCache) : MetadataCache :=
  let m := <[key := entry]> (mc_map c) in
  match mc_map c !! key with
  | Some _ => {| mc_map := m; mc_order := mc_order c |}
  | None => evict (mc_order c ++ [key]) m
  end.

Definition cache_remove_prefix (prefix : bytes) (c : MetadataCache) : MetadataCache :=
  let m := filter (λ kv, starts_with kv.1 prefix = false) (mc_map c) in
  {| mc_map := m; mc_order := filter (λ key, is_Some (m !! key)) (mc_order c) |}.

Definition cache_insert_written (location : bytes) (metadata : M) (c : MetadataCache) : MetadataCache :=
  cache_insert location {| cm_location := location; cm_metadata := metadata |} c.
End Cache.
Arguments CachedMetadata : clear implicits.
Arguments MetadataCache : clear implicits.

(** ** Table metadata *)

(** What the catalogs read of it. *)
Class TableMetadata (M : Type) : Type := {
  meta_properties : M → gmap bytes bytes;
  meta_log : M → list bytes;
  meta_location : M → bytes;
  meta_uuid : M → bytes
}.

Definition DELETE_AFTER_COMMIT : bytes := str "write.metadata.delete-after-commit.enabled".

Definition superseded_metadata_locations {M : Type} {TM : TableMetadata M} (before : M) (before_location : bytes)
    (after : M) (after_location : bytes) : list bytes :=
  if bool_decide (meta_properties after !! DELETE_AFTER_COMMIT = Some (str "true")) then
    let kept := meta_log after ++ [after_location] in
    filter (λ location, location ∉ kept) (meta_log before ++ [before_location])
  else [].

(** ** The Iceberg library *)

Inductive ErrorKind : Type :=
| Unexpected | DataInvalid | NamespaceAlreadyExists | NamespaceNotFound | TableAlreadyExists | TableNotFound
| CatalogCommitConflicts | FeatureUnsupported | PreconditionFailed.

Record IceError : Type := { ie_kind : ErrorKind; ie_message : bytes }.

Definition ice_error (kind : ErrorKind) (message : bytes) : IceError := {| ie_kind := kind; ie_message := message |}.

(** What a [FileIO] is built from: the local files, or an S3 storage with its properties. *)
Inductive FileIO : Type := NewWithFs | OpenDalS3 (props : gmap bytes bytes).

Definition iceberg_file_io_s3 (warehouse : bytes) (object_store : S3CompatibleObjectStore) : result IceError FileIO :=
  let? _ := map_err (ice_error DataInvalid) (compat_validate_warehouse object_store warehouse) in
  let? props := map_err (ice_error DataInvalid) (s3_object_store_props object_store) in
  Ok (OpenDalS3 props).

Definition iceberg_file_io_for (warehouse : bytes) (object_store : WarehouseObjectStore) : result IceError FileIO :=
  let? _ := map_err (ice_error DataInvalid) (validate_warehouse object_store warehouse) in
  match object_store with
  | WFile => Ok NewWithFs
  | WS3 | WR2 _ =>
      let? compatible := map_err (ice_error DataInvalid) (s3_compatible object_store) in
      iceberg_file_io_s3 warehouse compatible
  end.

Definition iceberg_file_io_for_warehouse (c : SkipprLakeConfig) : result IceError FileIO :=
  let? _ := map_err (ice_error DataInvalid) (lake_validate c) in
  iceberg_file_io_for (lk_warehouse c) (lk_object_store c).

Notation NamespaceIdent := (list bytes).
Record TableIdent : Type := { ti_namespace : NamespaceIdent; ti_name : bytes }.
#[global] Instance TableIdent_eq_dec : EqDecision TableIdent.
Proof. solve_decision. Defined.

Definition to_url_string (ns : NamespaceIdent) : bytes := join x1f ns.

Record Table {M : Type} : Type := { tb_ident : TableIdent; tb_location : bytes; tb_metadata : M }.
Arguments Table : clear implicits.

(** What it makes of a creation and of a commit.  A commit draws the identifier of its metadata
    file. *)
Class IcebergLib (M Creation Commit : Type) : Type := {
  iceberg_metadata :: TableMetadata M;
  creation_name : Creation → bytes;
  creation_location : Creation → option bytes;
  from_table_creation : Creation → bytes → result IceError M;
  commit_ident : Commit → TableIdent;
  commit_apply : Commit → Table M → bytes → result IceError (Table M);
  show_namespace : NamespaceIdent → bytes;
  show_table : TableIdent → bytes;
  props_to_json : gmap bytes bytes → bytes;
  props_from_json : bytes → option (gmap bytes bytes);
  parse_error : bytes → bytes
}.

Definition strip_suffix (p s : bytes) : option bytes := @rev byte <$> strip_prefix (rev p) (rev s).

(** The file of metadata with a version and an identifier. *)
Definition metadata_location (dir version uuid : bytes) : bytes :=
  dir ++ x2f :: version ++ x2d :: uuid ++ str ".metadata.json".

(** Staged metadata is named so, after the identifier the commit drew. *)
Class IcebergLaws (M Creation Commit : Type) `{IcebergLib M Creation Commit} : Prop :=
  staged_location : ∀ commit t uuid staged, commit_apply commit t uuid = Ok staged →
    ∃ dir version, x2f ∉ version ∧ x2d ∉ version ∧ tb_location staged = metadata_location dir version uuid.

(** The identifier in a location. *)
Definition location_uuid (location : bytes) : option bytes :=
  name ← snd <$> rsplit_once x2f location;
  rest ← snd <$> split_once x2d name;
  strip_suffix (str ".metadata.json") rest.

Lemma strip_suffix_app p s : strip_suffix p (s ++ p) = Some s.
Proof. unfold strip_suffix. rewrite rev_app_distr, strip_prefix_app. cbn. by rewrite rev_involutive. Qed.

Lemma location_uuid_of dir version uuid :
  x2f ∉ version → x2d ∉ version → x2f ∉ uuid → location_uuid (metadata_location dir version uuid) = Some uuid.
Proof.
  intros H1 H2 H3. unfold location_uuid, metadata_location. rewrite rsplit_once_app.
  - cbn [fmap option_fmap option_map snd mbind option_bind]. rewrite split_once_app by done. cbn. apply strip_suffix_app.
  - rewrite elem_of_app, elem_of_cons, elem_of_app. intros [?|[?|[?|Hin]]]; [done|done|done|]. revert Hin. by apply (bool_decide_unpack (x2f ∉ str ".metadata.json")).
Qed.

(** ** Names *)

Lemma decode_encode_name parse_error name : (blen name ≤ U64_MAX)%N → decode_name parse_error (encode_name name) = Ok name.
Proof.
  intros Hn. unfold decode_name, encode_name. rewrite split_once_app by (by apply display_N_not_in). cbn [ok_or rbind].
  rewrite parse_display_N by done. cbn [ok_or rbind]. by rewrite N.eqb_refl.
Qed.

(** A name is determined by its encoding, also when more text follows. *)
Lemma encode_name_prefix a b ra rb : encode_name a ++ ra = encode_name b ++ rb → a = b ∧ ra = rb.
Proof.
  unfold encode_name. rewrite <- !app_assoc. intros E. rewrite <- !app_comm_cons in E.
  assert (display_N (blen a) = display_N (blen b) ∧ a ++ ra = b ++ rb) as [Hd Hr].
  { pose proof (split_once_app x3a (display_N (blen a)) (a ++ ra) ltac:(by apply display_N_not_in)) as H1.
    rewrite E, split_once_app in H1 by (by apply display_N_not_in). by injection H1. }
  apply display_N_inj in Hd. unfold blen in Hd. apply app_inj_1; [lia|done].
Qed.

Lemma encode_name_inj a b : encode_name a = encode_name b → a = b.
Proof. intros E. destruct (encode_name_prefix a b [] []) as [-> _]; [|done]. by rewrite !app_nil_r. Qed.

(** ** SQL literals *)

(** How a literal is read: up to a quote that is not doubled. *)
Fixpoint read_quoted (s : bytes) : option (bytes * bytes) :=
  match s with
  | [] => None
  | c :: s =>
      if Byte.eqb c x27 then
        match s with
        | c' :: s' => if Byte.eqb c' x27 then prod_map (cons x27) id <$> read_quoted s' else Some ([], s)
        | [] => Some ([], [])
        end
      else prod_map (cons c) id <$> read_quoted s
  end.

Definition read_sql_literal (s : bytes) : option (bytes * bytes) :=
  match s with
  | c :: s => if Byte.eqb c x27 then read_quoted s else None
  | [] => None
  end.

Lemma read_quoted_app v rest : head rest ≠ Some x27 → read_quoted (replace_quote v ++ x27 :: rest) = Some (v, rest).
Proof.
  intros Hr. induction v as [|c v IH]; cbn [replace_quote app].
  - cbn [read_quoted]. rewrite byte_eqb_spec, bool_decide_true by done. destruct rest as [|c rest]; [done|].
    rewrite byte_eqb_spec, bool_decide_false; [done|]. intros ->. by apply Hr.
  - destruct (Byte.eqb c x27) eqn:E.
    + rewrite byte_eqb_spec in E. apply bool_decide_eq_true in E as ->. cbn [app read_quoted].
      rewrite byte_eqb_spec, bool_decide_true by done. by rewrite IH.
    + cbn [app read_quoted]. by rewrite E, IH.
Qed.

(** A value that is put into the SQL of a secret as a literal is read back as that value and
    ends where the literal ends, whatever quotes it holds: no value can end its literal early. *)
Theorem sql_literal_roundtrip v rest :
  head rest ≠ Some x27 → read_sql_literal (sql_string_literal v ++ rest) = Some (v, rest).
Proof.
  intros Hr. unfold sql_string_literal. cbn [app read_sql_literal]. rewrite byte_eqb_spec, bool_decide_true by done.
  rewrite <- app_assoc. by apply read_quoted_app.
Qed.

(** ** The cache *)

Section CacheLaws.
Context {M : Type}.
Implicit Types c : MetadataCache M.

(** The keys in their order of arrival, at most [METADATA_CACHE_ENTRIES]. *)
Definition cache_ok c : Prop :=
  NoDup (mc_order c) ∧ (∀ key, key ∈ mc_order c ↔ is_Some (mc_map c !! key)) ∧ length (mc_order c) ≤ METADATA_CACHE_ENTRIES.

Lemma cache_empty_ok : cache_ok (@cache_empty M).
Proof. split_and!; [constructor| |cbn; lia]. intros key. cbn. rewrite lookup_empty, elem_of_nil. by split; [|intros []]. Qed.

Lemma evict_ok (order : list bytes) (m : gmap bytes (CachedMetadata M)) :
  NoDup order → (∀ key, key ∈ order ↔ is_Some (m !! key)) → cache_ok (evict order m).
Proof.
  revert m. induction order as [|k order IH]; intros m Hnd Hk; cbn [evict].
  - split_and!; [constructor|done|cbn; lia].
  - destruct (Nat.ltb_spec METADATA_CACHE_ENTRIES (length (k :: order))); [|split_and!; [done|done|cbn in *; lia]].
    apply NoDup_cons in Hnd as [Hni Hnd]. apply IH; [done|]. intros key. destruct (decide (key = k)) as [->|Hne].
    + rewrite lookup_delete_eq. by split; [|intros []].
    + rewrite lookup_delete_ne by done. rewrite <- Hk, elem_of_cons. naive_solver.
Qed.

Lemma evict_keeps (order : list bytes) (m : gmap bytes (CachedMetadata M)) key e : mc_map (evict order m) !! key = Some e → m !! key = Some e.
Proof.
  revert m. induction order as [|k order IH]; intros m; cbn [evict]; [done|]. case_match; [|done].
  intros [_ ?]%IH%lookup_delete_Some. done.
Qed.

Lemma cache_insert_ok key e c : cache_ok c → cache_ok (cache_insert key e c).
Proof.
  intros (Hnd & Hk & Hl). unfold cache_insert. destruct (mc_map c !! key) as [e0|] eqn:E.
  - split_and!; [done| |done]. intros k. cbn. rewrite Hk. destruct (decide (k = key)) as [->|Hne].
    + rewrite lookup_insert_eq. split; [by eexists|intros _; by rewrite E].
    + by rewrite lookup_insert_ne.
  - apply evict_ok.
    + apply NoDup_app. split_and!; [done| |apply NoDup_singleton]. intros k H1 H2%list_elem_of_singleton. subst k.
      apply Hk in H1. rewrite E in H1. by destruct H1.
    + intros k. rewrite elem_of_app, list_elem_of_singleton, Hk. destruct (decide (k = key)) as [->|Hne].
      * rewrite lookup_insert_eq. split; [by eexists|by right].
      * rewrite lookup_insert_ne by done. naive_solver.
Qed.

Lemma cache_insert_lookup key e c k e' :
  mc_map (cache_insert key e c) !! k = Some e' → (k = key ∧ e' = e) ∨ mc_map c !! k = Some e'.
Proof.
  unfold cache_insert. destruct (mc_map c !! key); cbn [mc_map]; [|intros Hl%evict_keeps; revert Hl];
    intros [[<- <-]|[_ ?]]%lookup_insert_Some; auto.
Qed.

Lemma cache_remove_prefix_lookup prefix c k e :
  mc_map (cache_remove_prefix prefix c) !! k = Some e ↔ mc_map c !! k = Some e ∧ starts_with k prefix = false.
Proof. unfold cache_remove_prefix. cbn [mc_map]. by rewrite map_lookup_filter_Some. Qed.

Lemma cache_remove_prefix_ok prefix c : cache_ok c → cache_ok (cache_remove_prefix prefix c).
Proof.
  intros (Hnd & Hk & Hl). unfold cache_remove_prefix. split_and!; cbn [mc_order mc_map].
  - by apply NoDup_filter.
  - intros key. rewrite list_elem_of_filter, Hk. split; [by intros []|]. intros Hs. split; [done|].
    destruct Hs as [e He]. apply map_lookup_filter_Some in He as [He _]. by eexists.
  - pose proof (length_filter (λ key, is_Some (filter (λ kv : bytes * CachedMetadata M, starts_with kv.1 prefix = false) (mc_map c) !! key)) (mc_order c)). lia.
Qed.
End CacheLaws.

(** A configuration that passes validation has a [FileIO]: none of the checks made while it is
    built can fail any more. *)
Lemma validated_lake_has_file_io c : lake_validate c = Ok tt → is_ok (iceberg_file_io_for_warehouse c) = true.
Proof.
  intros H. unfold iceberg_file_io_for_warehouse. rewrite H. cbn [map_err rbind].
  revert H. unfold lake_validate, iceberg_file_io_for. repeat (case_match; [done|]).
  destruct (validate_warehouse _ _) as [[]|] eqn:Hv; [|done]. cbn [map_err rbind].
  destruct (lk_object_store c) as [| |r]; [done| |]; cbn in Hv |- *; unfold iceberg_file_io_s3, compat_validate_warehouse; rewrite Hv; [done|]; cbn.
  by destruct (r2_object_store_props r).
Qed.
