(* ===== verification/DynamoCatalog.v ===== *)
(** * DynamoCatalog: the catalog of the lake on DynamoDB

    The model of crates/skippr-iceberg-catalog-dynamodb: namespaces and table pointers are
    items of one DynamoDB table, changed by conditional writes and transactions; table
    metadata are files that are written once.  The service, the files and the source of
    identifiers are the class [Cloud]; a catalog operation is a program of requests, so that
    the requests of clients interleave. *)

From S2P Require Import Prelude Bytes Text Io Codec Lease Clients IcebergCatalog.

(** ** Errors of the service *)

Record SdkError : Type := { sdk_code : option bytes; sdk_text : bytes }.

Definition is_conditional_check_failed (e : SdkError) : bool :=
  bool_decide (sdk_code e = Some (str "ConditionalCheckFailedException")).

Definition unexpected (e : SdkError) : IceError := ice_error Unexpected (sdk_text e).

(** ** DynamoDB *)

(** The numbers the catalog stores are integers. *)
Inductive AttributeValue : Type := AvS (s : bytes) | AvN (n : Z).
#[global] Instance AttributeValue_eq_dec : EqDecision AttributeValue.
Proof. solve_decision. Defined.

(** The attributes of an item beside its key. *)
Notation attributes := (gmap bytes AttributeValue).
Notation item_key := (bytes * bytes)%type.
Notation table_items := (gmap item_key attributes).

(** The conditions and updates that the catalog writes as expressions. *)
Inductive Condition : Type :=
| AttributeNotExistsPK
| AttributeExistsPK
| AttributeIs (name : bytes) (v : AttributeValue)
| AttributeAbove (name : bytes) (n : Z).

Inductive SetAction : Type :=
| SetTo (name : bytes) (v : AttributeValue)
| SetPlus (name : bytes) (n : Z).

Inductive WriteItem : Type :=
| PutItem (key : item_key) (item : attributes) (conditions : list Condition)
| UpdateItem (key : item_key) (sets : list SetAction) (conditions : list Condition)
| DeleteItem (key : item_key) (conditions : list Condition).

Definition write_key (w : WriteItem) : item_key :=
  match w with PutItem k _ _ | UpdateItem k _ _ | DeleteItem k _ => k end.
Definition write_conditions (w : WriteItem) : list Condition :=
  match w with PutItem _ _ cs | UpdateItem _ _ cs | DeleteItem _ cs => cs end.

Definition condition_holds (o : option attributes) (c : Condition) : bool :=
  match c with
  | AttributeNotExistsPK => bool_decide (o = None)
  | AttributeExistsPK => bool_decide (is_Some o)
  | AttributeIs name v => bool_decide (o ≫= lookup name = Some v)
  | AttributeAbove name n => match o ≫= lookup name with Some (AvN m) => (n <? m)%Z | _ => false end
  end.

Definition apply_set (a : attributes) (s : SetAction) : option attributes :=
  match s with
  | SetTo name v => Some (<[name := v]> a)
  | SetPlus name n => match a !! name with Some (AvN m) => Some (<[name := AvN (m + n)]> a) | _ => None end
  end.

Fixpoint apply_sets (a : attributes) (sets : list SetAction) : option attributes :=
  match sets with
  | [] => Some a
  | s :: sets => a ← apply_set a s; apply_sets a sets
  end.

(** The effect of a write whose conditions hold. *)
Definition write_effect (w : WriteItem) (m : table_items) : option table_items :=
  match w with
  | PutItem k item _ => Some (<[k := item]> m)
  | UpdateItem k sets _ => (λ a, <[k := a]> m) <$> apply_sets (default ∅ (m !! k)) sets
  | DeleteItem k _ => Some (delete k m)
  end.

Definition conditions_hold (w : WriteItem) (m : table_items) : bool :=
  forallb (condition_holds (m !! write_key w)) (write_conditions w).

Definition eval_write (w : WriteItem) (m : table_items) : option table_items :=
  if conditions_hold w m then write_effect w m else None.

Fixpoint write_effects (ws : list WriteItem) (m : table_items) : option table_items :=
  match ws with
  | [] => Some m
  | w :: ws => m ← write_effect w m; write_effects ws m
  end.

(** A transaction takes each key once; its conditions are those of the state before it. *)
Definition eval_transact (ws : list WriteItem) (m : table_items) : option table_items :=
  if bool_decide (NoDup (write_key <$> ws)) && forallb (λ w, conditions_hold w m) ws then write_effects ws m else None.

(** The items with a partition key whose sort key has a prefix, in the order of the sort keys. *)
Definition by_sort_key (e e' : bytes * attributes) : Prop := bytes_le e.1 e'.1.
#[global] Instance by_sort_key_dec : RelDecision by_sort_key.
Proof. intros e e'. unfold by_sort_key. apply _. Defined.

Definition matching (pk sk : bytes) (m : table_items) : list (bytes * attributes) :=
  merge_sort by_sort_key
    (omap (λ kv : item_key * attributes, if bool_decide (kv.1.1 = pk) && starts_with kv.1.2 sk then Some (kv.1.2, kv.2) else None)
       (map_to_list m)).

(** ** The services *)

(** What a request that changed the items may have done: a call that succeeds took effect; of
    one that failed, also with a failed condition, it is not known (the request may have been
    sent again after its first answer was lost). *)
Definition took_effect {X} (r : result SdkError X) (before after : table_items) (effect : option table_items) : Prop :=
  match r with
  | Ok _ => effect = Some after
  | Err _ => after = before ∨ effect = Some after
  end.

Class Cloud (D M : Type) : Type := {
  items : D → table_items;
  files : D → gmap bytes M;
  issued : D → gset bytes;
  get_item : item_key → D → result SdkError (option attributes) * D;
  query : bytes → bytes → D → result SdkError (list (bytes * attributes)) * D;
  write_item : WriteItem → D → result SdkError unit * D;
  transact_write_items : list WriteItem → D → result SdkError unit * D;
  write_to : bytes → M → D → result IceError unit * D;
  read_from : bytes → D → result IceError M * D;
  delete_file : bytes → D → result IceError unit * D;
  new_uuid : D → bytes * D;
  get_item_spec key d : items (get_item key d).2 = items d ∧ files (get_item key d).2 = files d ∧
    issued (get_item key d).2 = issued d ∧ ∀ o, (get_item key d).1 = Ok o → o = items d !! key;
  query_spec pk sk d : items (query pk sk d).2 = items d ∧ files (query pk sk d).2 = files d ∧
    issued (query pk sk d).2 = issued d ∧ ∀ page, (query pk sk d).1 = Ok page → page `prefix_of` matching pk sk (items d);
  write_item_spec w d : files (write_item w d).2 = files d ∧ issued (write_item w d).2 = issued d ∧
    took_effect (write_item w d).1 (items d) (items (write_item w d).2) (eval_write w (items d));
  transact_spec ws d : files (transact_write_items ws d).2 = files d ∧ issued (transact_write_items ws d).2 = issued d ∧
    took_effect (transact_write_items ws d).1 (items d) (items (transact_write_items ws d).2) (eval_transact ws (items d));
  write_to_spec l m d : items (write_to l m d).2 = items d ∧ issued (write_to l m d).2 = issued d ∧
    (files (write_to l m d).2 = <[l := m]> (files d) ∨ (files (write_to l m d).2 = files d ∧ is_ok (write_to l m d).1 = false));
  read_from_spec l d : items (read_from l d).2 = items d ∧ files (read_from l d).2 = files d ∧
    issued (read_from l d).2 = issued d ∧ ∀ m, (read_from l d).1 = Ok m → files d !! l = Some m;
  delete_file_spec l d : items (delete_file l d).2 = items d ∧ issued (delete_file l d).2 = issued d ∧
    (files (delete_file l d).2 = delete l (files d) ∨ files (delete_file l d).2 = files d);
  new_uuid_spec d : items (new_uuid d).2 = items d ∧ files (new_uuid d).2 = files d ∧
    x2f ∉ (new_uuid d).1 ∧ (new_uuid d).1 ∉ issued d ∧ issued (new_uuid d).2 = {[ (new_uuid d).1 ]} ∪ issued d
}.

(** ** Requests *)

Section Catalog.
Context {D M Creation Commit : Type} {CL : Cloud D M} {IL : IcebergLib M Creation Commit} {DG : Digest}.

(** The services, and the cache of each client. *)
Record World : Type := { w_cloud : D; w_caches : gmap N (MetadataCache M) }.

Definition cache_of (client : N) (w : World) : MetadataCache M := default cache_empty (w_caches w !! client).

Inductive Request : Type → Type :=
| GetItem (key : item_key) : Request (result SdkError (option attributes))
| Query (pk sk : bytes) : Request (result SdkError (list (bytes * attributes)))
| Write (w : WriteItem) : Request (result SdkError unit)
| TransactWrite (ws : list WriteItem) : Request (result SdkError unit)
| WriteTo (location : bytes) (metadata : M) : Request (result IceError unit)
| ReadFrom (location : bytes) : Request (result IceError M)
| DeleteFile (location : bytes) : Request (result IceError unit)
| NewUuid : Request bytes
| CacheGet (client : N) (key : bytes) : Request (option (CachedMetadata M))
| CacheInsert (client : N) (key : bytes) (entry : CachedMetadata M) : Request unit.

Definition in_cloud {X} (f : D → X * D) (w : World) : X * World :=
  let '(x, d) := f (w_cloud w) in (x, {| w_cloud := d; w_caches := w_caches w |}).

Definition handle (X : Type) (q : Request X) : World → X * World :=
  match q with
  | GetItem key => in_cloud (get_item key)
  | Query pk sk => in_cloud (query pk sk)
  | Write w => in_cloud (write_item w)
  | TransactWrite ws => in_cloud (transact_write_items ws)
  | WriteTo location metadata => in_cloud (write_to location metadata)
  | ReadFrom location => in_cloud (read_from location)
  | DeleteFile location => in_cloud (delete_file location)
  | NewUuid => in_cloud new_uuid
  | CacheGet client key => λ w, (cache_get key (cache_of client w), w)
  | CacheInsert client key entry => λ w,
      (tt, {| w_cloud := w_cloud w; w_caches := <[client := cache_insert key entry (cache_of client w)]> (w_caches w) |})
  end.

Notation op := (prog Request IceError).

(** ** The catalog *)

Definition CATALOG_MAX_RETRIES : nat := 8.

(** A client of a warehouse; clones of it share its cache. *)
Record DynamoDbCatalog : Type := { dc_warehouse : bytes; dc_client : N }.

Definition warehouse_pk (c : DynamoDbCatalog) : bytes := str "catalog#" ++ warehouse_hash (dc_warehouse c).

Definition namespace_sk (ns : NamespaceIdent) : bytes := str "namespace#" ++ encode_name (to_url_string ns).
Definition table_pk (c : DynamoDbCatalog) (ns : NamespaceIdent) : bytes :=
  warehouse_pk c ++ str "#namespace#" ++ encode_name (to_url_string ns).
Definition table_sk (name : bytes) : bytes := str "table#" ++ encode_name name.

Definition namespace_key (c : DynamoDbCatalog) (ns : NamespaceIdent) : item_key := (warehouse_pk c, namespace_sk ns).
Definition table_key (c : DynamoDbCatalog) (t : TableIdent) : item_key := (table_pk c (ti_namespace t), table_sk (ti_name t)).

(** [MetadataCache::read]. *)
Definition cached_read (c : DynamoDbCatalog) (location : bytes) : op M :=
  run? hit := ask (CacheGet (dc_client c) location) in
  match hit with
  | Some hit => Ret (Ok (cm_metadata hit))
  | None =>
      run? metadata := ask_or id (ReadFrom location) in
      ask (CacheInsert (dc_client c) location {| cm_location := location; cm_metadata := metadata |}) ;&
      Ret (Ok metadata)
  end.

Definition table_from_location (c : DynamoDbCatalog) (ident : TableIdent) (location : bytes) : op (Table M) :=
  run? metadata := cached_read c location in
  Ret (Ok {| tb_ident := ident; tb_location := location; tb_metadata := metadata |}).

(** An attribute as text, and as an [i64]. *)
Definition attr_s (item : attributes) (name : bytes) : option bytes :=
  match item !! name with Some (AvS s) => Some s | _ => None end.
Definition attr_i64 (item : attributes) (name : bytes) : option Z :=
  match item !! name with
  | Some (AvN n) => if ((-9223372036854775808 <=? n) && (n <=? 9223372036854775807))%Z then Some n else None
  | _ => None
  end.

Definition item_pointer (item : attributes) : result IceError (bytes * Z) :=
  let? location := ok_or (ice_error DataInvalid (str "missing metadata_location")) (attr_s item (str "metadata_location")) in
  let? generation := ok_or (ice_error DataInvalid (str "missing generation")) (attr_i64 item (str "generation")) in
  Ok (location, generation).

Definition pointer (c : DynamoDbCatalog) (t : TableIdent) : op (bytes * Z) :=
  run? (item : option attributes) := ask_or unexpected (GetItem (table_key c t)) in
  match item with
  | Some item => Ret (item_pointer item)
  | None => Ret (Err (ice_error TableNotFound (show_table t)))
  end.

(** ** Namespaces *)

Definition listed_namespace (e : bytes * attributes) : option NamespaceIdent :=
  encoded ← strip_prefix (str "namespace#") e.1;
  match decode_name parse_error encoded with Ok name => Some (split x1f name) | Err _ => None end.

Definition list_namespaces (c : DynamoDbCatalog) : op (list NamespaceIdent) :=
  run? (page : list (bytes * attributes)) := ask_or unexpected (Query (warehouse_pk c) (str "namespace#")) in
  Ret (Ok (omap listed_namespace page)).

Definition create_namespace (c : DynamoDbCatalog) (ns : NamespaceIdent) (properties : gmap bytes bytes)
    : op (NamespaceIdent * gmap bytes bytes) :=
  ask_or (λ e, if is_conditional_check_failed e then ice_error NamespaceAlreadyExists (str "namespace " ++ show_namespace ns)
               else unexpected e)
    (Write (PutItem (namespace_key c ns)
       (<[str "properties" := AvS (props_to_json properties)]> {[ str "table_count" := AvN 0 ]}) [AttributeNotExistsPK])) ;&
  Ret (Ok (ns, properties)).

Definition get_namespace (c : DynamoDbCatalog) (ns : NamespaceIdent) : op (NamespaceIdent * gmap bytes bytes) :=
  run? (item : option attributes) := ask_or unexpected (GetItem (namespace_key c ns)) in
  match item with
  | Some item => Ret (Ok (ns, default ∅ (raw ← attr_s item (str "properties"); props_from_json raw)))
  | None => Ret (Err (ice_error NamespaceNotFound (str "namespace " ++ show_namespace ns)))
  end.

Definition namespace_exists (c : DynamoDbCatalog) (ns : NamespaceIdent) : op bool :=
  pcase (get_namespace c ns) (λ r, Ret (Ok (is_ok r))).

Definition update_namespace (c : DynamoDbCatalog) (ns : NamespaceIdent) (properties : gmap bytes bytes) : op unit :=
  ask_or unexpected
    (Write (UpdateItem (namespace_key c ns) [SetTo (str "properties") (AvS (props_to_json properties))] [AttributeExistsPK])).

Definition drop_namespace (c : DynamoDbCatalog) (ns : NamespaceIdent) : op unit :=
  ask_or unexpected
    (Write (DeleteItem (namespace_key c ns) [AttributeExistsPK; AttributeIs (str "table_count") (AvN 0)])).

(** ** Tables *)

Definition listed_table (ns : NamespaceIdent) (e : bytes * attributes) : option TableIdent :=
  encoded ← strip_prefix (str "table#") e.1;
  match decode_name parse_error encoded with Ok name => Some {| ti_namespace := ns; ti_name := name |} | Err _ => None end.

Definition list_tables (c : DynamoDbCatalog) (ns : NamespaceIdent) : op (list TableIdent) :=
  run? (page : list (bytes * attributes)) := ask_or unexpected (Query (table_pk c ns) (str "table#")) in
  Ret (Ok (omap (listed_table ns) page)).

(** A namespace gains a table, or loses one. *)
Definition count_up (c : DynamoDbCatalog) (ns : NamespaceIdent) : WriteItem :=
  UpdateItem (namespace_key c ns) [SetPlus (str "table_count") 1] [AttributeExistsPK].
Definition count_down (c : DynamoDbCatalog) (ns : NamespaceIdent) : WriteItem :=
  UpdateItem (namespace_key c ns) [SetPlus (str "table_count") (-1)] [AttributeExistsPK; AttributeAbove (str "table_count") 0].

Definition metadata_file (location uuid : bytes) : bytes :=
  metadata_location (trim_end_char x2f location ++ str "/metadata") (str "00000") uuid.

Definition create_table (c : DynamoDbCatalog) (ns : NamespaceIdent) (creation : Creation) : op (Table M) :=
  let ident := {| ti_namespace := ns; ti_name := creation_name creation |} in
  let location := default (iceberg_table_location (dc_warehouse c) (join x2f ns) (ti_name ident)) (creation_location creation) in
  run? metadata := Ret (from_table_creation creation location) in
  run? uuid := ask NewUuid in
  let file := metadata_file location uuid in
  ask_or id (WriteTo file metadata) ;&
  ask_or unexpected (TransactWrite
    [PutItem (table_key c ident)
       (<[str "table_uuid" := AvS (meta_uuid metadata)]> (<[str "metadata_location" := AvS file]> {[ str "generation" := AvN 1 ]}))
       [AttributeNotExistsPK];
     count_up c ns]) ;&
  table_from_location c ident file.

Definition load_table (c : DynamoDbCatalog) (t : TableIdent) : op (Table M) :=
  run? p := pointer c t in table_from_location c t p.1.

Definition drop_table (c : DynamoDbCatalog) (t : TableIdent) : op unit :=
  ask_or unexpected (TransactWrite [DeleteItem (table_key c t) [AttributeExistsPK]; count_down c (ti_namespace t)]).

Definition table_exists (c : DynamoDbCatalog) (t : TableIdent) : op bool :=
  run? (item : option attributes) := ask_or unexpected (GetItem (table_key c t)) in Ret (Ok (bool_decide (is_Some item))).

Definition rename_table (c : DynamoDbCatalog) (src dest : TableIdent) : op unit :=
  run? p := pointer c src in
  let '(location, generation) := p in
  run? exists_ := table_exists c dest in
  if exists_ : bool then Ret (Err (ice_error Unexpected (str "rename destination exists: " ++ show_table dest)))
  else
    ask_or unexpected (TransactWrite
      (PutItem (table_key c dest)
         (<[str "metadata_location" := AvS location]> {[ str "generation" := AvN generation ]}) [AttributeNotExistsPK]
       :: DeleteItem (table_key c src) [AttributeExistsPK; AttributeIs (str "generation") (AvN generation)]
       :: if bool_decide (ti_namespace src = ti_namespace dest) then []
          else [count_down c (ti_namespace src); count_up c (ti_namespace dest)])).

Definition register_table (c : DynamoDbCatalog) (t : TableIdent) (location : bytes) : op (Table M) :=
  ask_or unexpected (TransactWrite
    [PutItem (table_key c t)
       (<[str "metadata_location" := AvS location]> {[ str "generation" := AvN 1 ]}) [AttributeNotExistsPK];
     count_up c (ti_namespace t)]) ;&
  table_from_location c t location.

(** ** Commits *)

Definition swap_pointer (c : DynamoDbCatalog) (t : TableIdent) (generation : Z) (expected_location new_location : bytes) : WriteItem :=
  UpdateItem (table_key c t)
    [SetPlus (str "generation") 1; SetTo (str "metadata_location") (AvS new_location);
     SetTo (str "previous_metadata_location") (AvS expected_location)]
    [AttributeExistsPK; AttributeIs (str "generation") (AvN generation);
     AttributeIs (str "metadata_location") (AvS expected_location)].

Definition cas_conflict (e : SdkError) : IceError :=
  ice_error Unexpected (str "Iceberg catalog pointer CAS conflict: " ++ sdk_text e).

(** The loop over the attempts, [more] of them after the one at hand. *)
Fixpoint swap_loop (c : DynamoDbCatalog) (t : TableIdent) (expected_location new_location : bytes) (more : nat)
    (generation : Z) : op unit :=
  Ask (Write (swap_pointer c t generation expected_location new_location)) (λ r,
    match r with
    | Ok _ => Ret (Ok tt)
    | Err e =>
        match more with
        | 0 => Ret (Err (unexpected e))
        | Datatypes.S more =>
            if is_conditional_check_failed e then
              run? p := pointer c t in
              if bool_decide (p.1 = new_location) then Ret (Ok tt)
              else if bool_decide (p.1 = expected_location) then swap_loop c t expected_location new_location more p.2
              else Ret (Err (cas_conflict e))
            else swap_loop c t expected_location new_location more generation
        end
    end).

Definition delete_superseded_metadata (before : M) (before_location : bytes) (after : M) (after_location : bytes) : op unit :=
  pfor (λ location, Ask (DeleteFile location) (λ _, Ret (Ok tt)))
    (superseded_metadata_locations before before_location after after_location).

Definition update_table (c : DynamoDbCatalog) (commit : Commit) : op (Table M) :=
  let ident := commit_ident commit in
  run? p := pointer c ident in
  let '(expected_location, generation) := p in
  run? current := table_from_location c ident expected_location in
  run? uuid := ask NewUuid in
  run? staged := Ret (commit_apply commit current uuid) in
  ask_or id (WriteTo (tb_location staged) (tb_metadata staged)) ;&
  ask (CacheInsert (dc_client c) (tb_location staged)
         {| cm_location := tb_location staged; cm_metadata := tb_metadata staged |}) ;&
  swap_loop c ident expected_location (tb_location staged) (CATALOG_MAX_RETRIES - 1) generation ;&
  delete_superseded_metadata (tb_metadata current) expected_location (tb_metadata staged) (tb_location staged) ;&
  Ret (Ok staged).

(** ** The calls of the catalog trait *)

Inductive Call : Type :=
| CListNamespaces
| CCreateNamespace (ns : NamespaceIdent) (properties : gmap bytes bytes)
| CGetNamespace (ns : NamespaceIdent)
| CNamespaceExists (ns : NamespaceIdent)
| CUpdateNamespace (ns : NamespaceIdent) (properties : gmap bytes bytes)
| CDropNamespace (ns : NamespaceIdent)
| CListTables (ns : NamespaceIdent)
| CCreateTable (ns : NamespaceIdent) (creation : Creation)
| CLoadTable (t : TableIdent)
| CDropTable (t : TableIdent)
| CTableExists (t : TableIdent)
| CRenameTable (src dest : TableIdent)
| CRegisterTable (t : TableIdent) (location : bytes)
| CUpdateTable (commit : Commit).

Inductive Answer : Type :=
| AUnit
| ABool (b : bool)
| ANamespace (ns : NamespaceIdent * gmap bytes bytes)
| ANamespaces (l : list NamespaceIdent)
| ATables (l : list TableIdent)
| ATable (t : Table M).

Definition answer {A} (f : A → Answer) (p : op A) : op Answer := run? a := p in Ret (Ok (f a)).

Definition perform (c : DynamoDbCatalog) (call : Call) : op Answer :=
  match call with
  | CListNamespaces => answer ANamespaces (list_namespaces c)
  | CCreateNamespace ns properties => answer ANamespace (create_namespace c ns properties)
  | CGetNamespace ns => answer ANamespace (get_namespace c ns)
  | CNamespaceExists ns => answer ABool (namespace_exists c ns)
  | CUpdateNamespace ns properties => answer (λ _, AUnit) (update_namespace c ns properties)
  | CDropNamespace ns => answer (λ _, AUnit) (drop_namespace c ns)
  | CListTables ns => answer ATables (list_tables c ns)
  | CCreateTable ns creation => answer ATable (create_table c ns creation)
  | CLoadTable t => answer ATable (load_table c t)
  | CDropTable t => answer (λ _, AUnit) (drop_table c t)
  | CTableExists t => answer ABool (table_exists c t)
  | CRenameTable src dest => answer (λ _, AUnit) (rename_table c src dest)
  | CRegisterTable t location => answer ATable (register_table c t location)
  | CUpdateTable commit => answer ATable (update_table c commit)
  end.
End Catalog.
Arguments Request : clear implicits.
Arguments World : clear implicits.
Arguments Call : clear implicits.
Arguments Answer : clear implicits.
