(* ===== verification/DynamoTables.v ===== *)
(** * DynamoTables: the namespaces know their tables

    In every interleaving of any clients, whatever fails, the count of tables in the item of a
    namespace is the number of table items under it, so that a namespace is dropped only when it
    is empty; and what a listing misses. *)

From S2P Require Import Prelude Bytes Text Io Codec Lease Clients IcebergCatalog DynamoCatalog.

(** ** Requests that a program may make *)

Section Issues.
Context {Q : Type → Type} {E : Type} (P : ∀ X, Q X → Prop).

Fixpoint issues {A} (p : prog Q E A) : Prop :=
  match p with
  | Ret _ => True
  | Ask q k => P _ q ∧ ∀ x, issues (k x)
  end.

Lemma issues_pcase {A B} (p : prog Q E A) (f : result E A → prog Q E B) : issues p → (∀ r, issues (f r)) → issues (pcase p f).
Proof. induction p as [r|X q k IH]; cbn; [auto|]. intros [Hq Hk] Hf. split; [done|]. intros x. by apply IH. Qed.

Lemma issues_pbind {A B} (p : prog Q E A) (f : A → prog Q E B) : issues p → (∀ a, issues (f a)) → issues (pbind p f).
Proof. intros Hp Hf. apply issues_pcase; [done|]. by intros [a|e]. Qed.

Lemma issues_ask {X} (q : Q X) : P _ q → issues (ask (E := E) q).
Proof. by split. Qed.

Lemma issues_ask_or {F X} (f : F → E) (q : Q (result F X)) : P _ q → issues (ask_or f q).
Proof. by split. Qed.

Lemma issues_pfor {A} (f : A → prog Q E unit) l : (∀ a, issues (f a)) → issues (pfor f l).
Proof. intros Hf. induction l as [|a l IH]; [done|]. cbn [pfor]. by apply issues_pbind. Qed.

Context {W : Type} (handle : nat → ∀ X, Q X → W → X * W) (guar : nat → W → W → Prop).

Lemma wp_issues {A} i (p : prog Q E A) w :
  (∀ X (q : Q X) w, P X q → guar i w (handle i X q w).2) → issues p → wp handle guar i p (λ _ _, True) w.
Proof.
  intros Hq. revert w. induction p as [r|X q k IH]; intros w Hi; [done|]. destruct Hi as [HP Hk]. intros w' _.
  split; [by apply Hq|]. apply IH, Hk.
Qed.
End Issues.

(** Requests that change the items the way [ok] allows. *)
Create HintDb issues.
#[export] Hint Resolve issues_pbind issues_pcase issues_ask issues_ask_or issues_pfor : issues.

(** ** Conditions *)

Lemma forallb_cons_true {A} (f : A → bool) x l : forallb f (x :: l) = true ↔ f x = true ∧ forallb f l = true.
Proof. cbn. apply andb_true_iff. Qed.

Lemma holds_exists o : condition_holds o AttributeExistsPK = true ↔ is_Some o.
Proof. cbn. apply bool_decide_eq_true. Qed.

Lemma holds_absent o : condition_holds o AttributeNotExistsPK = true ↔ o = None.
Proof. cbn. apply bool_decide_eq_true. Qed.

Lemma eval_write_Some (w : WriteItem) (m m' : table_items) : eval_write w m = Some m' → conditions_hold w m = true ∧ write_effect w m = Some m'.
Proof. unfold eval_write. by case_match. Qed.

Lemma eval_transact_Some (ws : list WriteItem) (m m' : table_items) : eval_transact ws m = Some m' →
  NoDup (write_key <$> ws) ∧ forallb (λ w, conditions_hold w m) ws = true ∧ write_effects ws m = Some m'.
Proof. unfold eval_transact. case_match eqn:E; [|done]. apply andb_true_iff in E as [Hd%bool_decide_eq_true Hc]. done. Qed.

Lemma holds_first (w : WriteItem) (m : table_items) k cond cs : write_key w = k → write_conditions w = cond :: cs → conditions_hold w m = true → condition_holds (m !! k) cond = true.
Proof. unfold conditions_hold. intros -> -> [Hc _]%forallb_cons_true. done. Qed.

Ltac first_condition H lem := eapply holds_first in H; [|reflexivity|reflexivity]; apply lem in H.

Section Tables.
Context {D M Creation Commit : Type} {CL : Cloud D M} {IL : IcebergLib M Creation Commit} {DG : Digest}.
Implicit Types (c : DynamoDbCatalog) (ns : NamespaceIdent) (m : table_items).

(** ** Keys *)

Lemma warehouse_pk_length c : length (warehouse_pk c) = 72.
Proof. unfold warehouse_pk, warehouse_hash. rewrite length_app, sha256_hex_length. done. Qed.

Lemma table_pk_not_warehouse c c' ns : table_pk c ns ≠ warehouse_pk c'.
Proof.
  intros E%(f_equal length). unfold table_pk in E. rewrite !length_app, !warehouse_pk_length in E. change (length (str "#namespace#")) with 11 in E. lia.
Qed.

(** The tables of a namespace have its key in theirs. *)
Lemma table_pk_namespace c c' ns ns' : table_pk c ns = table_pk c' ns' ↔ namespace_key c ns = namespace_key c' ns'.
Proof.
  unfold table_pk, namespace_key, namespace_sk. split.
  - intros E. apply app_inj_1 in E as [-> E]; [|by rewrite !warehouse_pk_length]. apply app_inv_head in E. by rewrite E.
  - intros [E1 E2]%pair_eq. apply app_inv_head in E2. by rewrite E1, E2.
Qed.

(** ** Counts *)

Definition tables_in (pk : bytes) m : nat := size (filter (λ kv : item_key * attributes, kv.1.1 = pk) m).

Lemma tables_in_insert pk k a m :
  m !! k = None → tables_in pk (<[k := a]> m) = tables_in pk m + (if decide (k.1 = pk) then 1 else 0).
Proof.
  intros Hk. unfold tables_in. case_decide.
  - rewrite map_filter_insert_True by done. rewrite map_size_insert_None; [lia|]. by apply map_lookup_filter_None; left.
  - rewrite map_filter_insert_False by done. rewrite delete_id by done. lia.
Qed.

Lemma tables_in_delete pk k m :
  tables_in pk m = tables_in pk (delete k m) + (if decide (is_Some (m !! k) ∧ k.1 = pk) then 1 else 0).
Proof.
  destruct (m !! k) as [a|] eqn:E.
  - rewrite <- (insert_delete_id m k a) at 1 by done. rewrite tables_in_insert by apply lookup_delete_eq.
    do 2 case_decide; naive_solver.
  - rewrite delete_id by done. case_decide; [|lia]. by destruct H as [[] _].
Qed.

Lemma tables_in_update pk k a a' m : m !! k = Some a → tables_in pk (<[k := a']> m) = tables_in pk m.
Proof.
  intros Hk. rewrite <- insert_delete_eq. rewrite tables_in_insert by apply lookup_delete_eq. rewrite (tables_in_delete pk k m), Hk.
  do 2 case_decide; naive_solver.
Qed.

(** The counts are off by [δ] while the writes of a transaction take effect one by one. *)
Definition counted (n : Z) (o : option attributes) : Prop :=
  match o with
  | Some a => a !! str "table_count" = Some (AvN n)
  | None => n = 0%Z
  end.

Definition counts_off (δ : bytes → Z) m : Prop :=
  ∀ c ns, counted (Z.of_nat (tables_in (table_pk c ns) m) + δ (table_pk c ns)) (m !! namespace_key c ns).

Definition counts_ok m : Prop := counts_off (λ _, 0%Z) m.

Definition bump (pk : bytes) (n : Z) (δ : bytes → Z) : bytes → Z := λ p, (δ p + if decide (p = pk) then n else 0)%Z.

Lemma counts_off_ext δ δ' m : (∀ p, δ p = δ' p) → counts_off δ m → counts_off δ' m.
Proof. intros He Hm c ns. specialize (Hm c ns). by rewrite <- He. Qed.

Lemma table_key_not_namespace c ns c' (k : item_key) : k.1 = table_pk c ns → ∀ ns', k ≠ namespace_key c' ns'.
Proof. intros Hk ns' ->. cbn in Hk. by apply (table_pk_not_warehouse c c' ns). Qed.

Lemma namespace_tables c ns pk a m : pk ≠ warehouse_pk c → tables_in pk (<[namespace_key c ns := a]> m) = tables_in pk m.
Proof.
  intros Hp. destruct (m !! namespace_key c ns) as [b|] eqn:E; [by apply (tables_in_update _ _ b)|].
  rewrite tables_in_insert by done. rewrite decide_False; [lia|]. cbn. congruence.
Qed.

Lemma counts_put δ m k a c ns : m !! k = None → k.1 = table_pk c ns → counts_off δ m →
  counts_off (bump (table_pk c ns) (-1) δ) (<[k := a]> m).
Proof.
  intros Hk Hpk Hm c' ns'. rewrite lookup_insert_ne by (by apply (table_key_not_namespace c ns)).
  rewrite tables_in_insert by done. specialize (Hm c' ns'). unfold bump. rewrite Hpk.
  replace (Z.of_nat (tables_in (table_pk c' ns') m + (if decide (table_pk c ns = table_pk c' ns') then 1 else 0)) +
    (δ (table_pk c' ns') + (if decide (table_pk c' ns' = table_pk c ns) then -1 else 0)))%Z
    with (Z.of_nat (tables_in (table_pk c' ns') m) + δ (table_pk c' ns'))%Z; [done|]. do 2 case_decide; (congruence || lia).
Qed.

Lemma counts_delete δ m k c ns : is_Some (m !! k) → k.1 = table_pk c ns → counts_off δ m →
  counts_off (bump (table_pk c ns) 1 δ) (delete k m).
Proof.
  intros Hk Hpk Hm c' ns'. rewrite lookup_delete_ne by (by apply (table_key_not_namespace c ns)).
  specialize (Hm c' ns'). rewrite (tables_in_delete _ k) in Hm. unfold bump. rewrite Hpk in Hm.
  replace (Z.of_nat (tables_in (table_pk c' ns') (delete k m)) +
    (δ (table_pk c' ns') + (if decide (table_pk c' ns' = table_pk c ns) then 1 else 0)))%Z
    with (Z.of_nat (tables_in (table_pk c' ns') (delete k m) +
      (if decide (is_Some (m !! k) ∧ table_pk c ns = table_pk c' ns') then 1 else 0)) + δ (table_pk c' ns'))%Z; [done|].
  destruct (decide (table_pk c' ns' = table_pk c ns)) as [E|E];
    [rewrite decide_True by done; lia|rewrite decide_False by (intros [_ E']; congruence); lia].
Qed.

(** The item of a table changes, or the one of a namespace beside its count. *)
Lemma counts_update δ m k a b : m !! k = Some a → (∀ c ns, k = namespace_key c ns → b !! str "table_count" = a !! str "table_count") →
  counts_off δ m → counts_off δ (<[k := b]> m).
Proof.
  intros Hk Hb Hm c ns. rewrite (tables_in_update _ _ _ _ _ Hk). specialize (Hm c ns).
  destruct (decide (k = namespace_key c ns)) as [->|Hne]; [|by rewrite lookup_insert_ne].
  rewrite lookup_insert_eq. rewrite Hk in Hm. cbn in *. by rewrite (Hb c ns).
Qed.

Lemma counts_count δ m c ns n a b : m !! namespace_key c ns = Some a →
  apply_sets a [SetPlus (str "table_count") n] = Some b → counts_off δ m →
  counts_off (bump (table_pk c ns) n δ) (<[namespace_key c ns := b]> m).
Proof.
  intros Hk Hb Hm c' ns'. rewrite (tables_in_update _ _ _ _ _ Hk). specialize (Hm c' ns'). unfold bump.
  destruct (decide (namespace_key c ns = namespace_key c' ns')) as [E|Hne].
  - rewrite <- E in *. rewrite lookup_insert_eq. rewrite Hk in Hm. cbn in Hm, Hb |- *. rewrite Hm in Hb. cbn in Hb. injection Hb as <-.
    rewrite lookup_insert_eq, decide_True by (symmetry; by apply table_pk_namespace). do 2 f_equal. lia.
  - rewrite lookup_insert_ne by done. rewrite decide_False; [by rewrite Z.add_0_r|]. intros E. symmetry in E. by apply table_pk_namespace in E.
Qed.

(** ** The writes of the catalog *)

Definition keeps_counts (X : Type) (q : Request M X) : Prop :=
  match q with
  | Write w => ∀ m m', eval_write w m = Some m' → counts_ok m → counts_ok m'
  | TransactWrite ws => ∀ m m', eval_transact ws m = Some m' → counts_ok m → counts_ok m'
  | _ => True
  end.

Lemma create_namespace_keeps c ns props :
  keeps_counts _ (Write (M := M) (PutItem (namespace_key c ns) (<[str "properties" := AvS props]> {[ str "table_count" := AvN 0 ]}) [AttributeNotExistsPK])).
Proof.
  intros m m' [Hc [= <-]]%eval_write_Some Hm c' ns'. apply forallb_cons_true in Hc as [Hn%holds_absent _]. cbn [write_key] in Hn.
  specialize (Hm c' ns'). rewrite namespace_tables by apply table_pk_not_warehouse.
  destruct (decide (namespace_key c ns = namespace_key c' ns')) as [E|Hne]; [|by rewrite lookup_insert_ne].
  rewrite <- E in *. rewrite lookup_insert_eq. rewrite Hn in Hm. cbn [counted] in *. rewrite Hm. done.
Qed.

Lemma update_namespace_keeps c ns props :
  keeps_counts _ (Write (M := M) (UpdateItem (namespace_key c ns) [SetTo (str "properties") (AvS props)] [AttributeExistsPK])).
Proof.
  intros m m' [Hc He]%eval_write_Some Hm. apply forallb_cons_true in Hc as [[a Ha]%holds_exists _]. cbn [write_key] in Ha.
  cbn in He. rewrite Ha in He. injection He as <-. apply (counts_update _ _ _ a); [done| |done]. intros _ _ _. by rewrite lookup_insert_ne.
Qed.

Lemma drop_namespace_keeps c ns :
  keeps_counts _ (Write (M := M) (DeleteItem (namespace_key c ns) [AttributeExistsPK; AttributeIs (str "table_count") (AvN 0)])).
Proof.
  intros m m' [Hc [= <-]]%eval_write_Some Hm c' ns'. apply forallb_cons_true in Hc as [[a Ha]%holds_exists Hc].
  apply forallb_cons_true in Hc as [Hz _]. cbn in Hz, Ha. rewrite Ha in Hz. apply bool_decide_eq_true in Hz. cbn in Hz.
  specialize (Hm c' ns'). rewrite (tables_in_delete _ (namespace_key c ns)) in Hm.
  rewrite decide_False in Hm by (intros [_ E]; cbn in E; symmetry in E; by apply table_pk_not_warehouse in E). rewrite Nat.add_0_r in Hm.
  destruct (decide (namespace_key c ns = namespace_key c' ns')) as [E|Hne]; [|by rewrite lookup_delete_ne].
  rewrite <- E in *. rewrite lookup_delete_eq. rewrite Ha in Hm. cbn in *. congruence.
Qed.

Lemma swap_keeps c t generation l l' : keeps_counts _ (Write (M := M) (swap_pointer c t generation l l')).
Proof.
  intros m m' [Hc He]%eval_write_Some Hm. apply forallb_cons_true in Hc as [[a Ha]%holds_exists _]. cbn [write_key swap_pointer] in Ha.
  unfold swap_pointer, write_effect in He. rewrite Ha in He. apply fmap_Some in He as (b & _ & ->).
  apply (counts_update _ _ _ a); [done| |done]. intros c' ns' E. exfalso. by apply (table_key_not_namespace c (ti_namespace t) c' (table_key c t) eq_refl ns').
Qed.

Lemma counts_count_effect δ m c ns n cs m' :
  is_Some (m !! namespace_key c ns) → write_effect (UpdateItem (namespace_key c ns) [SetPlus (str "table_count") n] cs) m = Some m' →
  counts_off δ m → counts_off (bump (table_pk c ns) n δ) m'.
Proof.
  intros [a Ha] He Hm. cbn [write_effect] in He. rewrite Ha in He. cbn [default] in He. apply fmap_Some in He as (b & Hb & ->).
  by apply (counts_count _ _ _ _ _ a).
Qed.

Lemma register_keeps c t a : keeps_counts _ (TransactWrite (M := M) [PutItem (table_key c t) a [AttributeNotExistsPK]; count_up c (ti_namespace t)]).
Proof.
  intros m m' (_ & Hc & He)%eval_transact_Some Hm. apply forallb_cons_true in Hc as [H1 Hc]. apply forallb_cons_true in Hc as [H2 _].
  first_condition H1 holds_absent.
  first_condition H2 holds_exists.
  cbn [write_effects write_effect mbind option_bind] in He. apply bind_Some in He as (m2 & He & [= <-]).
  eapply counts_off_ext; [|eapply (counts_count_effect _ _ c (ti_namespace t) 1 _ _ _ He (counts_put _ _ _ _ _ _ H1 eq_refl Hm))].
  - intros p. unfold bump. case_decide; lia.
  Unshelve. by rewrite lookup_insert_ne by (by apply (table_key_not_namespace c (ti_namespace t))).
Qed.

Lemma drop_table_keeps c t : keeps_counts _ (TransactWrite (M := M) [DeleteItem (table_key c t) [AttributeExistsPK]; count_down c (ti_namespace t)]).
Proof.
  intros m m' (_ & Hc & He)%eval_transact_Some Hm. apply forallb_cons_true in Hc as [H1 Hc]. apply forallb_cons_true in Hc as [H2 _].
  first_condition H1 holds_exists.
  first_condition H2 holds_exists.
  cbn [write_effects write_effect mbind option_bind] in He. apply bind_Some in He as (m2 & He & [= <-]).
  eapply counts_off_ext; [|eapply (counts_count_effect _ _ c (ti_namespace t) (-1) _ _ _ He (counts_delete _ _ _ _ _ H1 eq_refl Hm))].
  - intros p. unfold bump. case_decide; lia.
  Unshelve. by rewrite lookup_delete_ne by (by apply (table_key_not_namespace c (ti_namespace t))).
Qed.

(** The table moves from one key to another. *)
Lemma counts_move δ m c src dest a cs cs' : table_key c dest ≠ table_key c src → m !! table_key c dest = None → is_Some (m !! table_key c src) →
  counts_off δ m →
  ∃ m2, write_effects [PutItem (table_key c dest) a cs; DeleteItem (table_key c src) cs'] m = Some m2 ∧
    counts_off (bump (table_pk c (ti_namespace src)) 1 (bump (table_pk c (ti_namespace dest)) (-1) δ)) m2 ∧
    ∀ c' ns, m2 !! namespace_key c' ns = m !! namespace_key c' ns.
Proof.
  intros Hne Hd Hs Hm. eexists. split; [done|]. split.
  - apply (counts_delete _ _ (table_key c src)); [by rewrite lookup_insert_ne|done|]. by apply counts_put.
  - intros c' ns. rewrite lookup_delete_ne by (by apply (table_key_not_namespace c (ti_namespace src))).
    by rewrite lookup_insert_ne by (by apply (table_key_not_namespace c (ti_namespace dest))).
Qed.

Definition rename_writes c (src dest : TableIdent) (location : bytes) (generation : Z) : list WriteItem :=
  PutItem (table_key c dest)
    (<[str "metadata_location" := AvS location]> {[ str "generation" := AvN generation ]}) [AttributeNotExistsPK]
  :: DeleteItem (table_key c src) [AttributeExistsPK; AttributeIs (str "generation") (AvN generation)]
  :: (if bool_decide (ti_namespace src = ti_namespace dest) then []
      else [count_down c (ti_namespace src); count_up c (ti_namespace dest)]).

Lemma rename_keeps c src dest location generation :
  keeps_counts _ (TransactWrite (M := M) (rename_writes c src dest location generation)).
Proof.
  intros m m' (Hnd & Hc & He)%eval_transact_Some Hm. unfold rename_writes in *. rewrite !fmap_cons in Hnd. apply NoDup_cons in Hnd as [Hni Hnd].
  apply forallb_cons_true in Hc as [H1 Hc]. apply forallb_cons_true in Hc as [H2 Hc].
  first_condition H1 holds_absent.
  first_condition H2 holds_exists. cbn [write_key] in *.
  destruct (counts_move _ m c src dest (<[str "metadata_location" := AvS location]> {[ str "generation" := AvN generation ]}) [AttributeNotExistsPK]
    [AttributeExistsPK; AttributeIs (str "generation") (AvN generation)] ltac:(intros E; apply Hni; rewrite E; by left) H1 H2 Hm) as (m2 & Hm2 & Hoff & Hns).
  cbn [write_effects write_effect mbind option_bind] in Hm2, He. injection Hm2 as Hm2. rewrite Hm2 in He. case_bool_decide as Hn.
  - injection He as <-. eapply counts_off_ext; [|exact Hoff]. intros p. unfold bump. rewrite Hn. case_decide; lia.
  - apply forallb_cons_true in Hc as [H3 Hc]. apply forallb_cons_true in Hc as [H4 _].
    first_condition H3 holds_exists.
    first_condition H4 holds_exists.
    cbn [write_effects mbind option_bind] in He. apply bind_Some in He as (m3 & He3 & He). apply bind_Some in He as (m4 & He4 & [= <-]).
    apply (counts_count_effect _ _ _ _ _ _ _ (eq_ind_r is_Some H3 (Hns _ _)) He3) in Hoff.
    eapply counts_off_ext; [|eapply (counts_count_effect _ _ _ _ _ _ _ _ He4 Hoff)].
    + intros p. unfold bump. repeat case_decide; lia.
  Unshelve. cbn [count_down write_effect] in He3. apply fmap_Some in He3 as (b & _ & ->).
    destruct (decide (namespace_key c (ti_namespace src) = namespace_key c (ti_namespace dest))) as [->|Hk];
      [rewrite lookup_insert_eq; by eexists|rewrite lookup_insert_ne by done; by rewrite Hns].
Qed.

(** ** Every call keeps the counts *)

Ltac issue := repeat match goal with
  | |- issues _ (pbind _ _) => apply issues_pbind
  | |- issues _ (pcase _ _) => apply issues_pcase
  | |- issues _ (ask _) => apply issues_ask
  | |- issues _ (ask_or _ _) => apply issues_ask_or
  | |- issues _ (pfor _ _) => apply issues_pfor
  | |- issues _ (Ret _) => exact I
  | |- issues _ (Ask _ _) => split
  | |- issues _ (match ?x with _ => _ end) => destruct x
  | |- keeps_counts _ (Write _) => idtac
  | |- keeps_counts _ (TransactWrite _) => idtac
  | |- keeps_counts _ _ => exact I
  | |- ∀ _, issues _ _ => intro
  end.

Lemma swap_loop_issues c t l l' more : ∀ generation, issues keeps_counts (swap_loop c t l l' more generation).
Proof.
  induction more as [|more IH]; intros generation; (split; [apply swap_keeps|]); intros [u|e]; try exact I.
  case_match; [|apply IH]. apply issues_pbind; [unfold pointer; issue|]. intros p. repeat case_match; first [exact I|apply IH].
Qed.

Lemma from_location_issues c t location : issues keeps_counts (table_from_location (M := M) c t location).
Proof. unfold table_from_location, cached_read. issue. Qed.

Lemma perform_issues c (call : Call Creation Commit) : issues keeps_counts (perform c call).
Proof.
  destruct call; (apply issues_pbind; [|intro; exact I]); unfold list_namespaces, create_namespace, get_namespace, namespace_exists,
    update_namespace, drop_namespace, list_tables, create_table, load_table, drop_table, table_exists, rename_table, register_table,
    update_table, get_namespace, table_exists, pointer, delete_superseded_metadata; issue.
  - apply create_namespace_keeps.
  - apply update_namespace_keeps.
  - apply drop_namespace_keeps.
  - apply (register_keeps c {| ti_namespace := ns; ti_name := creation_name creation |}).
  - apply from_location_issues.
  - apply from_location_issues.
  - apply drop_table_keeps.
  - apply rename_keeps.
  - apply register_keeps.
  - apply from_location_issues.
  - apply from_location_issues.
  - apply swap_loop_issues.
Qed.

Lemma handle_counts (X : Type) (q : Request M X) (w : World D M) :
  keeps_counts X q → counts_ok (items (w_cloud w)) → counts_ok (items (w_cloud (handle X q w).2)).
Proof.
  intros Hq Hw. destruct q as [key|pk sk|wr|ws|l md|l|l| |client key|client key entry]; cbn [handle]; unfold in_cloud; try done.
  - pose proof (get_item_spec key (w_cloud w)) as (Hi & _). destruct (get_item _ _) as [r d]. cbn in *. by rewrite Hi.
  - pose proof (query_spec pk sk (w_cloud w)) as (Hi & _). destruct (query _ _ _) as [r d]. cbn in *. by rewrite Hi.
  - pose proof (write_item_spec wr (w_cloud w)) as (_ & _ & Ht). destruct (write_item _ _) as [[u|e] d]; cbn in *.
    + by apply (Hq (items (w_cloud w))).
    + destruct Ht as [-> | Ht]; [done|]. by apply (Hq (items (w_cloud w))).
  - pose proof (transact_spec ws (w_cloud w)) as (_ & _ & Ht). destruct (transact_write_items _ _) as [[u|e] d]; cbn in *.
    + by apply (Hq (items (w_cloud w))).
    + destruct Ht as [-> | Ht]; [done|]. by apply (Hq (items (w_cloud w))).
  - pose proof (write_to_spec l md (w_cloud w)) as (Hi & _). destruct (write_to _ _ _) as [r d]. cbn in *. by rewrite Hi.
  - pose proof (read_from_spec l (w_cloud w)) as (Hi & _). destruct (read_from _ _) as [r d]. cbn in *. by rewrite Hi.
  - pose proof (delete_file_spec l (w_cloud w)) as (Hi & _). destruct (delete_file _ _) as [r d]. cbn in *. by rewrite Hi.
  - pose proof (new_uuid_spec (w_cloud w)) as (Hi & _). destruct (new_uuid _) as [r d]. cbn in *. by rewrite Hi.
Qed.

(** C6: Whatever calls run at the same time, however their requests interleave and whichever of them
    fail, with or without effect, a namespace counts exactly the tables it has; there are
    none under a namespace that does not exist, so that none is orphaned when one is dropped. *)
Theorem table_counts_exact (calls : list (DynamoDbCatalog * Call Creation Commit)) ps (w w' : World D M) :
  counts_ok (items (w_cloud w)) →
  rtc (client_step (λ _, handle)) (uncurry perform <$> calls, w) (ps, w') →
  ∀ c ns, match items (w_cloud w') !! namespace_key c ns with
          | Some a => a !! str "table_count" = Some (AvN (Z.of_nat (tables_in (table_pk c ns) (items (w_cloud w')))))
          | None => tables_in (table_pk c ns) (items (w_cloud w')) = 0
          end.
Proof.
  intros Hw Hs c ns.
  destruct (clients_sound (λ _, handle) (λ _ w w', counts_ok (items (w_cloud w)) → counts_ok (items (w_cloud w')))
    (replicate (length calls) (λ _ _, True)) _ _ _ _ Hs) as [Hr _].
  - intros i p post Hp Hpost. rewrite list_lookup_fmap in Hp. apply fmap_Some in Hp as ([c' call] & _ & ->).
    apply lookup_replicate_1 in Hpost as [-> _]. apply (wp_issues keeps_counts); [|apply perform_issues]. intros X q w1 Hq. by apply handle_counts.
  - by rewrite length_fmap, length_replicate.
  - assert (counts_ok (items (w_cloud w'))) as Hm.
    { refine (rtc_invariant _ (λ w, counts_ok (items (w_cloud w))) w w' _ Hr Hw). intros w1 w2 [_ Hg]. exact Hg. }
    specialize (Hm c ns). rewrite Z.add_0_r in Hm. destruct (items (w_cloud w') !! namespace_key c ns); cbn in Hm; [done|lia].
Qed.
End Tables.
