(* ===== verification/DynamoCommits.v ===== *)
(** * DynamoCommits: the commits of a table are one after another

    In every interleaving of any clients, whatever fails, the metadata of a table moves only by
    commits that were staged from the metadata the pointer names, and a commit that is
    acknowledged has moved it; a metadata file is written once, and the caches hold what
    was written. *)

From S2P Require Import Prelude Bytes Text Io Codec Lease Clients IcebergCatalog DynamoCatalog DynamoTables.

Section Commits.
Context {D M Creation Commit : Type} {CL : Cloud D M} {IL : IcebergLib M Creation Commit} {DG : Digest}.
Implicit Types (c : DynamoDbCatalog) (ns : NamespaceIdent) (m : table_items) (l : bytes).

(** ** The history of a run *)

(** The items after every request, what was written to each file, and which client drew
    which identifier. *)
Record History : Type := {
  g_world : World D M;
  g_items : list table_items;
  g_written : gmap bytes M;
  g_owner : gmap bytes nat
}.

Definition g_cloud (g : History) : D := w_cloud (g_world g).

Definition note_written {X} (q : Request M X) (written : gmap bytes M) : gmap bytes M :=
  match q with WriteTo l md => <[l := md]> written | _ => written end.
Definition note_owner {X} (i : nat) (q : Request M X) (d : D) (owner : gmap bytes nat) : gmap bytes nat :=
  match q with NewUuid => <[(new_uuid d).1 := i]> owner | _ => owner end.

Definition observe (i : nat) (X : Type) (q : Request M X) (g : History) : X * History :=
  let '(x, w) := handle X q (g_world g) in
  (x, {| g_world := w; g_items := g_items g ++ [items (w_cloud w)];
         g_written := note_written q (g_written g); g_owner := note_owner i q (g_cloud g) (g_owner g) |}).

(** The location of the metadata of the table with a key. *)
Definition location_at (k : item_key) m : option bytes := a ← m !! k; attr_s a (str "metadata_location").

Definition seen (g : History) l : Prop := ∃ m k, m ∈ g_items g ∧ location_at k m = Some l.

(** The metadata at [l'] was staged by a commit on the metadata at [l]. *)
Definition staged_on (g : History) l l' : Prop := ∃ commit current uuid staged,
  commit_apply commit current uuid = Ok staged ∧ tb_location current = l ∧ tb_location staged = l' ∧
  g_written g !! l = Some (tb_metadata current) ∧ g_written g !! l' = Some (tb_metadata staged).

(** The pointer moved. *)
Definition moved (g : History) (k : item_key) l l' : Prop := ∃ n m m',
  g_items g !! n = Some m ∧ g_items g !! S n = Some m' ∧ location_at k m = Some l ∧ location_at k m' = Some l'.

(** ** The invariant *)

Record sound (g : History) : Prop := {
  s_now : last (g_items g) = Some (items (g_cloud g));
  s_files : files (g_cloud g) ⊆ g_written g;
  s_cache client l e : mc_map (cache_of client (g_world g)) !! l = Some e → g_written g !! l = Some (cm_metadata e);
  s_issued u j : g_owner g !! u = Some j → u ∈ issued (g_cloud g);
  s_written l md u : g_written g !! l = Some md → location_uuid l = Some u → u ∈ issued (g_cloud g);
  s_seen l u : seen g l → location_uuid l = Some u → u ∈ issued (g_cloud g);
  s_moves k l l' : moved g k l l' → l = l' ∨ staged_on g l l'
}.

(** A location that is in the history already, or that no other client has named. *)
Definition known (i : nat) (g : History) l : Prop :=
  seen g l ∨ ∀ u, location_uuid l = Some u → u ∈ issued (g_cloud g) ∧ (g_owner g !! u = None ∨ g_owner g !! u = Some i).

Definition step_ok (i : nat) (g : History) m m' : Prop := ∀ k l', location_at k m' = Some l' →
  location_at k m = Some l' ∨ (known i g l' ∧ ∀ l, location_at k m = Some l → staged_on g l l').

(** What a client knows before it sends a request. *)
Definition may_send (i : nat) (g : History) {X} (q : Request M X) : Prop :=
  match q with
  | Write w => ∀ m m', eval_write w m = Some m' → step_ok i g m m'
  | TransactWrite ws => ∀ m m', eval_transact ws m = Some m' → step_ok i g m m'
  | WriteTo l md => g_written g !! l = None ∧ ∃ u, location_uuid l = Some u ∧ g_owner g !! u = Some i
  | CacheInsert client l e => g_written g !! l = Some (cm_metadata e)
  | _ => True
  end.

(** What the requests of a client leave of the knowledge of the others. *)
Record grows (i : nat) (g g' : History) : Prop := {
  gr_sound : sound g';
  gr_items : g_items g `prefix_of` g_items g';
  gr_written : g_written g ⊆ g_written g';
  gr_owner : g_owner g ⊆ g_owner g';
  gr_issued : issued (g_cloud g) ⊆ issued (g_cloud g');
  gr_drawn u : g_owner g !! u = None → u ∈ issued (g_cloud g) → g_owner g' !! u = None;
  gr_files j u l : g_owner g !! u = Some j → j ≠ i → location_uuid l = Some u → g_written g' !! l = g_written g !! l;
  gr_seen j u l : g_owner g !! u = Some j → j ≠ i → location_uuid l = Some u → seen g' l → seen g l
}.

Definition guar (i : nat) (g g' : History) : Prop := sound g → grows i g g'.

(** ** Facts that stay *)

Lemma seen_prefix g g' l : g_items g `prefix_of` g_items g' → seen g l → seen g' l.
Proof. intros Hp (m & k & Hm & Hl). exists m, k. split; [|done]. destruct Hp as [t ->]. apply elem_of_app. by left. Qed.

Lemma staged_on_mono g g' l l' : g_written g ⊆ g_written g' → staged_on g l l' → staged_on g' l l'.
Proof.
  intros Hw (commit & cur & u & st & H1 & H2 & H3 & H4 & H5). exists commit, cur, u, st.
  split_and!; [done|done|done| |]; by eapply lookup_weaken.
Qed.

Lemma moved_prefix g g' k l l' : g_items g `prefix_of` g_items g' → moved g k l l' → moved g' k l l'.
Proof.
  intros [t Ht] (n & m & m' & H1 & H2 & H3). exists n, m, m'. rewrite Ht. split_and!; [by apply lookup_app_l_Some..|by apply H3|by apply H3].
Qed.

Lemma known_mono i g g' l : g_items g `prefix_of` g_items g' → issued (g_cloud g) ⊆ issued (g_cloud g') → g_owner g ⊆ g_owner g' →
  (∀ u, g_owner g !! u = None → u ∈ issued (g_cloud g) → g_owner g' !! u = None) → known i g l → known i g' l.
Proof.
  intros Hp Hi Ho Hd [Hs|Hu]; [left; by eapply seen_prefix|right]. intros u Hl. destruct (Hu u Hl) as [Hin [Hn|Hs]].
  - split; [by apply Hi|left; by apply Hd].
  - split; [by apply Hi|right; by eapply lookup_weaken].
Qed.

(** What a client still knows after requests of the others. *)
Record kept (i : nat) (g g' : History) : Prop := {
  k_sound : sound g';
  k_items : g_items g `prefix_of` g_items g';
  k_written : g_written g ⊆ g_written g';
  k_owner : g_owner g ⊆ g_owner g';
  k_issued : issued (g_cloud g) ⊆ issued (g_cloud g');
  k_drawn u : g_owner g !! u = None → u ∈ issued (g_cloud g) → g_owner g' !! u = None;
  k_files u l : g_owner g !! u = Some i → location_uuid l = Some u → g_written g' !! l = g_written g !! l;
  k_seen u l : g_owner g !! u = Some i → location_uuid l = Some u → seen g' l → seen g l
}.

Lemma kept_trans i g g' g'' : kept i g g' → kept i g' g'' → kept i g g''.
Proof.
  intros [s1 i1 w1 o1 u1 d1 f1 e1] [s2 i2 w2 o2 u2 d2 f2 e2]. split.
  - done.
  - by trans (g_items g').
  - by trans (g_written g').
  - by trans (g_owner g').
  - by trans (issued (g_cloud g')).
  - intros u H1 H2. apply d2; [by apply d1|by apply u1].
  - intros u l H1 H2. rewrite (f2 u l); [by apply (f1 u)|by eapply lookup_weaken|done].
  - intros u l H1 H2 H3. apply (e1 u l H1 H2), (e2 u l); [by eapply lookup_weaken|done|done].
Qed.

Lemma grows_kept i j g g' : j ≠ i → grows j g g' → kept i g g'.
Proof.
  intros Hj [s1 i1 w1 o1 u1 d1 f1 e1]. split; try done.
  - intros u l H1 H2. by apply (f1 i u); [|apply not_eq_sym|].
  - intros u l H1 H2. by apply (e1 i u); [|apply not_eq_sym|].
Qed.

Lemma rely_kept i g g' : sound g → rtc (others_step guar i) g g' → kept i g g'.
Proof.
  intros Hg Hr. revert Hg. induction Hr as [g|g1 g2 g3 (j & Hj & Hs) _ IH]; intros Hg; [by split|].
  pose proof (grows_kept i j g1 g2 Hj (Hs Hg)) as Hk. eapply kept_trans; [exact Hk|]. apply IH, Hk.
Qed.

Lemma kept_known i g g' l : kept i g g' → known i g l → known i g' l.
Proof. intros [_ ? _ ? ? ? _ _]. by apply known_mono. Qed.

(** ** One request *)

Lemma seen_now g k l : sound g → location_at k (items (g_cloud g)) = Some l → seen g l.
Proof. intros Hg Hl. exists (items (g_cloud g)), k. split; [|done]. by apply last_Some_elem_of, s_now. Qed.

(** The items changed by [step_ok], and the rest grew. *)
Lemma grows_step i g g' :
  sound g → g_items g' = g_items g ++ [items (g_cloud g')] → step_ok i g (items (g_cloud g)) (items (g_cloud g')) →
  files (g_cloud g') ⊆ g_written g' →
  (∀ client l e, mc_map (cache_of client (g_world g')) !! l = Some e → g_written g' !! l = Some (cm_metadata e)) →
  g_written g ⊆ g_written g' → g_owner g ⊆ g_owner g' → issued (g_cloud g) ⊆ issued (g_cloud g') →
  (∀ u, g_owner g !! u = None → u ∈ issued (g_cloud g) → g_owner g' !! u = None) →
  (∀ u j, g_owner g' !! u = Some j → u ∈ issued (g_cloud g')) →
  (∀ l md u, g_written g' !! l = Some md → location_uuid l = Some u → u ∈ issued (g_cloud g')) →
  (∀ j u l, g_owner g !! u = Some j → j ≠ i → location_uuid l = Some u → g_written g' !! l = g_written g !! l) →
  grows i g g'.
Proof.
  intros Hg Hitems Hstep Hfiles Hcache Hw Ho Hi Hd Hu Hwr Hgf.
  assert (∀ l, seen g' l → seen g l ∨ known i g l) as Hseen.
  { intros l (m & k & Hm & Hl). rewrite Hitems in Hm. apply elem_of_app in Hm as [Hm|Hm]; [left; by exists m, k|].
    apply list_elem_of_singleton in Hm as ->. destruct (Hstep k l Hl) as [Hl'|[Hk _]]; [left; by eapply seen_now|by right]. }
  split; [split| | | | | | |]; [|done|done|done| | | | |done|done|done|done|done|].
  - by rewrite Hitems, last_snoc.
  - intros l md u. apply Hwr.
  - intros l u Hs Hl. destruct (Hseen l Hs) as [Hs'|[Hs'|Hk]]; [apply Hi; by eapply s_seen..|]. apply Hi. by apply Hk.
  - intros k l l' (n & m & m' & H1 & H2 & H3 & H4). rewrite Hitems in H1, H2.
    destruct (decide (S n < length (g_items g))) as [Hn|Hn].
    + rewrite lookup_app_l in H1 by lia. rewrite lookup_app_l in H2 by done.
      destruct (s_moves g Hg k l l') as [->|Hs]; [by exists n, m, m'|by left|right; by eapply staged_on_mono].
    + assert (S n = length (g_items g)) as Hlen.
      { apply lookup_lt_Some in H2. rewrite length_app in H2. cbn in H2. lia. }
      rewrite lookup_app_l in H1 by lia. rewrite Hlen, list_lookup_middle in H2 by done. injection H2 as <-.
      assert (m = items (g_cloud g)) as ->.
      { pose proof (s_now g Hg) as Hnow. rewrite last_lookup, <- Hlen in Hnow. cbn in Hnow. congruence. }
      destruct (Hstep k l' H4) as [He|[_ Hst]]; [left; congruence|right]. eapply staged_on_mono; [exact Hw|by apply Hst].
  - rewrite Hitems. by exists [items (g_cloud g')].
  - intros j u l H1 H2 H3 H4. destruct (Hseen l H4) as [Hs|[Hs|Hk]]; [done|done|]. destruct (Hk u H3) as [_ [Hn|Hn]]; congruence.
Qed.

Lemma step_ok_refl i g m : step_ok i g m m.
Proof. intros k l' Hl. by left. Qed.

(** A request that leaves the files, the identifiers and the caches as they are. *)
Lemma grows_items i g w' :
  sound g → w_caches w' = w_caches (g_world g) → files (w_cloud w') ⊆ files (g_cloud g) → issued (w_cloud w') = issued (g_cloud g) →
  step_ok i g (items (g_cloud g)) (items (w_cloud w')) →
  grows i g {| g_world := w'; g_items := g_items g ++ [items (w_cloud w')]; g_written := g_written g; g_owner := g_owner g |}.
Proof.
  intros Hg Hc Hf Hi Hs. apply grows_step; unfold g_cloud in *; cbn [g_world g_items g_written g_owner]; rewrite ?Hi; try done.
  - trans (files (g_cloud g)); [done|by apply s_files].
  - intros client l e. unfold cache_of. rewrite Hc. apply (s_cache g Hg).
  - apply (s_issued g Hg).
  - apply (s_written g Hg).
Qed.

Lemma effect_ok {X} (r : result SdkError X) i g m m' o :
  took_effect r m m' o → (o = Some m' → step_ok i g m m') → step_ok i g m m'.
Proof. intros Ht Hs. destruct r; cbn in Ht; [by apply Hs|]. destruct Ht as [-> | Ht]; [apply step_ok_refl|by apply Hs]. Qed.

Lemma request_grows i g (X : Type) (q : Request M X) : sound g → may_send i g q → grows i g (observe i X q g).2.
Proof.
  intros Hg Hq. unfold observe. destruct q as [key|pk sk|wr|ws|l md|l|l| |client key|client l e]; cbn [handle note_written note_owner];
    unfold in_cloud, g_cloud in *.
  - pose proof (get_item_spec key (w_cloud (g_world g))) as (Hi & Hf & Hu & _). destruct (get_item _ _) as [r d]. cbn in *.
    apply grows_items; cbn; try done; [by rewrite Hf|by rewrite Hi; apply step_ok_refl].
  - pose proof (query_spec pk sk (w_cloud (g_world g))) as (Hi & Hf & Hu & _). destruct (query _ _ _) as [r d]. cbn in *.
    apply grows_items; cbn; try done; [by rewrite Hf|by rewrite Hi; apply step_ok_refl].
  - pose proof (write_item_spec wr (w_cloud (g_world g))) as (Hf & Hu & Ht). destruct (write_item _ _) as [r d]. cbn in *.
    apply grows_items; cbn; try done; [by rewrite Hf|]. eapply effect_ok; [exact Ht|]. apply Hq.
  - pose proof (transact_spec ws (w_cloud (g_world g))) as (Hf & Hu & Ht). destruct (transact_write_items _ _) as [r d]. cbn in *.
    apply grows_items; cbn; try done; [by rewrite Hf|]. eapply effect_ok; [exact Ht|]. apply Hq.
  - pose proof (write_to_spec l md (w_cloud (g_world g))) as (Hi & Hu & Hf). destruct (write_to _ _ _) as [r d]. cbn in *.
    destruct Hq as [Hnone (u & Hlu & Hou)]. assert (g_written g ⊆ <[l := md]> (g_written g)) as Hsub by by apply insert_subseteq.
    apply grows_step; unfold g_cloud in *; cbn [g_world g_items g_written g_owner w_cloud w_caches]; rewrite ?Hu; try done.
    + rewrite Hi. apply step_ok_refl.
    + destruct Hf as [-> | [-> _]]; [apply insert_mono; by apply s_files|]. trans (g_written g); [by apply s_files|done].
    + intros client l0 e Hc. eapply lookup_weaken; [|exact Hsub]. by apply (s_cache g Hg client).
    + apply (s_issued g Hg).
    + intros l0 md0 u0 Hl0 Hu0. destruct (decide (l0 = l)) as [->|Hne].
      * assert (u0 = u) as -> by congruence. by apply (s_issued g Hg u i).
      * rewrite lookup_insert_ne in Hl0 by done. by apply (s_written g Hg l0 md0).
    + intros j u0 l0 H1 H2 H3. rewrite lookup_insert_ne; [done|]. intros ->. assert (u0 = u) as -> by congruence. congruence.
  - pose proof (read_from_spec l (w_cloud (g_world g))) as (Hi & Hf & Hu & _). destruct (read_from _ _) as [r d]. cbn in *.
    apply grows_items; cbn; try done; [by rewrite Hf|by rewrite Hi; apply step_ok_refl].
  - pose proof (delete_file_spec l (w_cloud (g_world g))) as (Hi & Hu & Hf). destruct (delete_file _ _) as [r d]. cbn in *.
    apply grows_items; cbn; try done; [destruct Hf as [-> | ->]; [apply delete_subseteq|done]|by rewrite Hi; apply step_ok_refl].
  - pose proof (new_uuid_spec (w_cloud (g_world g))) as (Hi & Hf & _ & Hn & Hu).
    destruct (new_uuid _) as [u d]. cbn [fst snd] in *.
    assert (g_owner g !! u = None) as Hou.
    { destruct (g_owner g !! u) as [j|] eqn:E; [|done]. by apply (s_issued g Hg) in E. }
    apply grows_step; unfold g_cloud in *; cbn [g_world g_items g_written g_owner w_cloud w_caches]; rewrite ?Hu; try done.
    + rewrite Hi. apply step_ok_refl.
    + rewrite Hf. by apply s_files.
    + intros client l0 e Hc. by apply (s_cache g Hg client).
    + by apply insert_subseteq.
    + set_solver.
    + intros u0 H1 H2. rewrite lookup_insert_ne; [done|]. by intros ->.
    + intros u0 j Hj. apply lookup_insert_Some in Hj as [[<- _]|[_ Hj]]; [set_solver|]. apply (s_issued g Hg) in Hj. set_solver.
    + intros l0 md0 u0 H1 H2. apply (s_written g Hg) with (u := u0) in H1; [set_solver|done].
  - apply grows_items; cbn; try done. apply step_ok_refl.
  - cbn [snd]. apply grows_step; unfold g_cloud in *; cbn [g_world g_items g_written g_owner w_cloud w_caches]; try done.
    + apply step_ok_refl.
    + by apply s_files.
    + intros client0 l0 e0. unfold cache_of at 1. cbn [w_caches]. destruct (decide (client0 = client)) as [->|Hne].
      * rewrite lookup_insert_eq. cbn [default]. intros [[-> ->]|Hl]%cache_insert_lookup; [done|]. by apply (s_cache g Hg client).
      * rewrite lookup_insert_ne by done. by apply (s_cache g Hg client0).
    + apply (s_issued g Hg).
    + apply (s_written g Hg).
Qed.

(** ** The writes of the catalog *)

(** No location appears. *)
Definition still m m' : Prop := ∀ k l, location_at k m' = Some l → location_at k m = Some l.

Lemma still_ok i g m m' : still m m' → step_ok i g m m'.
Proof. intros Hs k l' Hl. left. by apply Hs. Qed.

Lemma step_ok_still i g m m1 m2 : step_ok i g m m1 → still m1 m2 → step_ok i g m m2.
Proof. intros H1 H2 k l' Hl. by apply H1, H2. Qed.

Lemma still_trans m m1 m2 : still m m1 → still m1 m2 → still m m2.
Proof. intros H1 H2 k l' Hl. by apply H1, H2. Qed.

Lemma location_at_insert k0 a k m :
  location_at k (<[k0 := a]> m) = if decide (k = k0) then attr_s a (str "metadata_location") else location_at k m.
Proof.
  unfold location_at. case_decide as Hd; [subst; by rewrite lookup_insert_eq|]. by rewrite lookup_insert_ne by done.
Qed.

Lemma still_delete k m : still m (delete k m).
Proof. intros k' l. unfold location_at. intros (a & [_ Ha]%lookup_delete_Some & Hl)%bind_Some. rewrite Ha. done. Qed.

Definition set_name (s : SetAction) : bytes := match s with SetTo name _ | SetPlus name _ => name end.

Lemma apply_sets_other name sets : ∀ a b, Forall (λ s, set_name s ≠ name) sets → apply_sets a sets = Some b → b !! name = a !! name.
Proof.
  induction sets as [|s sets IH]; intros a b Hf Hs; [by injection Hs as <-|]. apply Forall_cons in Hf as [Hn Hf].
  cbn [apply_sets] in Hs. apply bind_Some in Hs as (a' & Ha & Hs). rewrite (IH a' b Hf Hs).
  destruct s as [nm v|nm n]; cbn in *; [injection Ha as <-; by rewrite lookup_insert_ne|].
  destruct (a !! nm) as [[|z]|]; [done| |done]. injection Ha as <-. by rewrite lookup_insert_ne.
Qed.

Lemma still_update k sets cs m m' : Forall (λ s, set_name s ≠ str "metadata_location") sets →
  write_effect (UpdateItem k sets cs) m = Some m' → still m m'.
Proof.
  intros Hf He k' l. cbn in He. apply fmap_Some in He as (b & Hb & ->). rewrite location_at_insert. case_decide as Hd; [|done]. subst k'.
  unfold attr_s. rewrite (apply_sets_other _ _ _ _ Hf Hb). unfold location_at. destruct (m !! k) as [a|]; [done|]. cbn. by rewrite lookup_empty.
Qed.

Lemma still_put k a m : attr_s a (str "metadata_location") = None → still m (<[k := a]> m).
Proof. intros Ha k' l. rewrite location_at_insert. case_decide; [by rewrite Ha|done]. Qed.

Lemma put_ok i g k a m : m !! k = None → (∀ l, attr_s a (str "metadata_location") = Some l → known i g l) → step_ok i g m (<[k := a]> m).
Proof.
  intros Hk Ha k' l'. rewrite location_at_insert. case_decide as Hd; [|by left]. subst k'. intros Hl. right. split; [by apply Ha|].
  intros l. unfold location_at. by rewrite Hk.
Qed.

Lemma still_counts c ns n cs m m' : write_effect (UpdateItem (namespace_key c ns) [SetPlus (str "table_count") n] cs) m = Some m' → still m m'.
Proof. apply still_update. by constructor. Qed.

Lemma create_namespace_sends i g c ns props :
  may_send i g (Write (PutItem (namespace_key c ns) (<[str "properties" := AvS props]> {[ str "table_count" := AvN 0 ]}) [AttributeNotExistsPK])).
Proof. intros m m' [_ [= <-]]%eval_write_Some. apply still_ok, still_put. by vm_compute. Qed.

Lemma update_namespace_sends i g c ns props :
  may_send i g (Write (UpdateItem (namespace_key c ns) [SetTo (str "properties") (AvS props)] [AttributeExistsPK])).
Proof. intros m m' [_ He]%eval_write_Some. eapply still_ok, still_update, He. by constructor. Qed.

Lemma drop_namespace_sends i g c ns :
  may_send i g (Write (DeleteItem (namespace_key c ns) [AttributeExistsPK; AttributeIs (str "table_count") (AvN 0)])).
Proof. intros m m' [_ [= <-]]%eval_write_Some. apply still_ok, still_delete. Qed.

Lemma drop_table_sends i g c t :
  may_send i g (TransactWrite [DeleteItem (table_key c t) [AttributeExistsPK]; count_down c (ti_namespace t)]).
Proof.
  intros m m' (_ & _ & He)%eval_transact_Some. cbn [write_effects write_effect mbind option_bind] in He.
  apply bind_Some in He as (m2 & He & [= <-]). apply still_ok. eapply still_trans; [apply still_delete|by eapply still_counts].
Qed.

Lemma register_sends i g c t a : (∀ l, attr_s a (str "metadata_location") = Some l → known i g l) →
  may_send i g (TransactWrite [PutItem (table_key c t) a [AttributeNotExistsPK]; count_up c (ti_namespace t)]).
Proof.
  intros Ha m m' (_ & Hc & He)%eval_transact_Some. apply forallb_cons_true in Hc as [H1 _]. first_condition H1 holds_absent.
  cbn [write_effects write_effect mbind option_bind] in He. apply bind_Some in He as (m2 & He & [= <-]).
  eapply step_ok_still; [by apply put_ok|by eapply still_counts].
Qed.

Lemma rename_sends i g c src dest l generation : known i g l → may_send i g (TransactWrite (rename_writes c src dest l generation)).
Proof.
  intros Hl m m' (_ & Hc & He)%eval_transact_Some. unfold rename_writes in *. apply forallb_cons_true in Hc as [H1 _]. first_condition H1 holds_absent.
  cbn [write_effects write_effect mbind option_bind] in He.
  eapply (step_ok_still _ _ _ (<[table_key c dest := <[str "metadata_location" := AvS l]> {[ str "generation" := AvN generation ]}]> m));
    [apply put_ok; [exact H1|]|eapply still_trans; [apply (still_delete (table_key c src))|]].
  - intros l0. unfold attr_s. rewrite lookup_insert_eq. intros E. by injection E as <-.
  - case_bool_decide; cbn [write_effects mbind option_bind] in He; [injection He as <-; intros k l0; done|].
    apply bind_Some in He as (m3 & He3 & He). apply bind_Some in He as (m4 & He4 & [= <-]).
    eapply still_trans; [by eapply still_counts|by eapply still_counts].
Qed.

Lemma swap_effect c t generation l l' m m' : eval_write (swap_pointer c t generation l l') m = Some m' →
  location_at (table_key c t) m = Some l ∧ ∃ b, m' = <[table_key c t := b]> m ∧ attr_s b (str "metadata_location") = Some l'.
Proof.
  intros [Hc He]%eval_write_Some. apply forallb_cons_true in Hc as [[a Ha]%holds_exists Hc]. apply forallb_cons_true in Hc as [_ Hc].
  apply forallb_cons_true in Hc as [Hl _]. cbn [condition_holds write_key swap_pointer] in Hl, Ha. apply bool_decide_eq_true in Hl.
  rewrite Ha in Hl. cbn [mbind option_bind] in Hl. split; [unfold location_at, attr_s; rewrite Ha; cbn; by rewrite Hl|].
  unfold swap_pointer, write_effect in He. apply fmap_Some in He as (b & Hb & ->). exists b. split; [done|].
  cbn [apply_sets] in Hb. apply bind_Some in Hb as (b1 & _ & Hb). apply bind_Some in Hb as (b2 & [= <-] & Hb).
  apply bind_Some in Hb as (b3 & [= <-] & [= <-]). unfold attr_s. rewrite lookup_insert_ne by done. by rewrite lookup_insert_eq.
Qed.

Lemma swap_sends i g c t generation l l' : known i g l' → staged_on g l l' → may_send i g (Write (swap_pointer c t generation l l')).
Proof.
  intros Hk Hs m m' [Hl (b & -> & Hb)]%swap_effect k l0. rewrite location_at_insert. case_decide as Hd; [|by left]. subst k.
  rewrite Hb. intros [= <-]. right. split; [done|]. intros l1 Hl1. by rewrite Hl in Hl1; injection Hl1 as <-.
Qed.

(** ** The programs *)

Notation wpi i p post g := (wp observe guar i p post g).

Lemma wp_send {A X} i (q : Request M X) (k : X → prog (Request M) IceError A) post g :
  sound g → (∀ g1, kept i g g1 → may_send i g1 q) →
  (∀ g1, kept i g g1 → grows i g1 (observe i X q g1).2 → wpi i (k (observe i X q g1).1) post (observe i X q g1).2) →
  wpi i (Ask q k) post g.
Proof.
  intros Hg Hq Hk g1 Hr. apply (rely_kept i) in Hr; [|done]. specialize (Hq g1 Hr).
  assert (grows i g1 (observe i X q g1).2) as Hgr by (apply request_grows; [by apply Hr|done]). split; [by intros _|by apply Hk].
Qed.

Lemma wp_return {A} i (r : result IceError A) (post : result IceError A → History → Prop) g :
  sound g → (∀ g', kept i g g' → post r g') → wpi i (Ret r) post g.
Proof. intros Hg Hp g' Hr. by apply Hp, rely_kept. Qed.

(** A program whose requests need no knowledge. *)
Lemma wp_free {A} i (p : prog (Request M) IceError A) (post : result IceError A → History → Prop) g :
  issues (λ X q, ∀ g, may_send i g q) p → sound g → (∀ r g', kept i g' g' → post r g') → wpi i p post g.
Proof.
  revert g. induction p as [r|X q k IH]; intros g Hi Hg Hp.
  - apply wp_return; [done|]. intros g' Hk. apply Hp. split; try done. by apply Hk.
  - destruct Hi as [Hq Hk]. apply wp_send; [done|intros g1 _; apply Hq|]. intros g1 _ Hgr. apply IH; [apply Hk|by apply Hgr|done].
Qed.

Lemma sound_kept i g : sound g → kept i g g.
Proof. by split. Qed.

(** What is known of a location before the request is known after it. *)
Lemma kept_written i g g' l md : kept i g g' → g_written g !! l = Some md → g_written g' !! l = Some md.
Proof. intros Hk Hl. eapply lookup_weaken; [exact Hl|by apply Hk]. Qed.
Lemma grows_written i g g' l md : grows i g g' → g_written g !! l = Some md → g_written g' !! l = Some md.
Proof. intros Hk Hl. eapply lookup_weaken; [exact Hl|by apply Hk]. Qed.

Lemma cached_read_wp i c l g (post : result IceError M → History → Prop) :
  sound g → (∀ e g', sound g' → kept i g' g' → post (Err e) g') →
  (∀ md g', sound g' → g_written g' !! l = Some md → post (Ok md) g') → wpi i (cached_read c l) post g.
Proof.
  intros Hg Herr Hok. apply wp_send; [done|done|]. intros g1 Hk1 Hgr. cbn [observe handle fst snd] in *.
  destruct (cache_get l (cache_of (dc_client c) (g_world g1))) as [hit|] eqn:Hhit.
  - apply wp_return; [by apply Hgr|]. intros g' Hk'. apply Hok; [by apply Hk'|]. apply (kept_written _ _ _ _ _ Hk'), (grows_written _ _ _ _ _ Hgr).
    apply (s_cache g1 (k_sound _ _ _ Hk1) (dc_client c)). exact Hhit.
  - apply wp_send; [by apply Hgr|done|]. intros g2 Hk2 Hgr2.
    assert (∀ md, (observe i _ (ReadFrom l) g2).1 = Ok md → g_written g2 !! l = Some md) as Hread.
    { intros md. unfold observe. cbn [handle]. unfold in_cloud. pose proof (read_from_spec (M := M) l (w_cloud (g_world g2))) as (_ & _ & _ & Hr).
      destruct (read_from l _) as [r d]. cbn [fst snd] in *. intros E. specialize (Hr md E). eapply lookup_weaken; [exact Hr|]. apply s_files. by apply Hk2. }
    destruct (observe i _ (ReadFrom l) g2) as [[md|e] g3]; cbn [fst snd map_err pcase] in *.
    + specialize (Hread md eq_refl). apply (grows_written _ _ _ _ _ Hgr2) in Hread. apply wp_send; [by apply Hgr2| |].
      * intros g4 Hk4. by apply (kept_written _ _ _ _ _ Hk4).
      * intros g4 Hk4 Hgr4. apply wp_return; [by apply Hgr4|]. intros g' Hk'. apply Hok; [by apply Hk'|].
        apply (kept_written _ _ _ _ _ Hk'), (grows_written _ _ _ _ _ Hgr4), (kept_written _ _ _ _ _ Hk4), Hread.
    + apply wp_return; [by apply Hgr2|]. intros g' Hk'. apply Herr; [by apply Hk'|by apply sound_kept, Hk'].
Qed.

Lemma from_location_wp i c t l g (post : result IceError (Table M) → History → Prop) :
  sound g → (∀ e g', sound g' → post (Err e) g') →
  (∀ md g', sound g' → g_written g' !! l = Some md → post (Ok {| tb_ident := t; tb_location := l; tb_metadata := md |}) g') →
  wpi i (table_from_location c t l) post g.
Proof.
  intros Hg Herr Hok. apply wp_pbind, cached_read_wp; [done| |].
  - intros e g' Hg' _ g'' Hr. apply Herr. by eapply k_sound, rely_kept.
  - intros md g' Hg' Hl. apply wp_return; [done|]. intros g'' Hk. apply Hok; [by apply Hk|]. by apply (kept_written _ _ _ _ _ Hk).
Qed.

(** The pointer of a table is in the history. *)
Lemma pointer_wp i c t g (post : result IceError (bytes * Z) → History → Prop) :
  sound g → (∀ e g', sound g' → post (Err e) g') →
  (∀ p g', kept i g g' → seen g' p.1 → post (Ok p) g') →
  wpi i (pointer c t) post g.
Proof.
  intros Hg Herr Hok. apply wp_send; [done|done|]. intros g1 Hk1 Hgr1.
  assert (kept i g (observe i _ (GetItem (table_key c t)) g1).2) as Hk2.
  { revert Hgr1. unfold observe. cbn [handle]. unfold in_cloud.
    pose proof (get_item_spec (table_key c t) (w_cloud (g_world g1))) as (Hi & _ & Hu & _).
    destruct (get_item _ _) as [r d]. cbn [fst snd note_written note_owner] in *. intros Hgr. destruct Hk1 as [s1 i1 w1 o1 u1 d1 f1 e1].
    split; [by apply Hgr|by trans (g_items g1); [|apply Hgr]|done|done|unfold g_cloud in *; cbn; by rewrite Hu|done|done|].
    intros u l H1 H2 (m & k & Hm & Hl). apply (e1 u l H1 H2). cbn in Hm. apply elem_of_app in Hm as [Hm|Hm]; [by exists m, k|].
    apply list_elem_of_singleton in Hm as ->. rewrite Hi in Hl. by eapply seen_now. }
  assert (∀ item l, (observe i _ (GetItem (table_key c t)) g1).1 = Ok (Some item) → attr_s item (str "metadata_location") = Some l →
    seen (observe i _ (GetItem (table_key c t)) g1).2 l) as Hitem.
  { intros item l. unfold observe. cbn [handle]. unfold in_cloud. pose proof (get_item_spec (table_key c t) (w_cloud (g_world g1))) as (Hi & _ & _ & Hr).
    destruct (get_item _ _) as [r d]. cbn [fst snd] in *. intros E Hl. specialize (Hr _ E). exists (items d), (table_key c t). split; [|].
    - cbn. apply elem_of_app. right. by left.
    - unfold location_at. rewrite Hi, <- Hr. done. }
  destruct (observe i _ (GetItem (table_key c t)) g1) as [[[item|]|e] g2]; cbn [fst snd map_err pcase] in *.
  - destruct (item_pointer item) as [p|e] eqn:Hp.
    + assert (attr_s item (str "metadata_location") = Some p.1) as Hl.
      { unfold item_pointer in Hp. destruct (attr_s item (str "metadata_location")) as [l|]; [|done]. cbn [ok_or rbind] in Hp.
        destruct (attr_i64 item _); [|done]. cbn [ok_or rbind] in Hp. by injection Hp as <-. }
      specialize (Hitem item p.1 eq_refl Hl). apply wp_return; [by apply Hk2|]. intros g' Hr. apply Hok; [by eapply kept_trans|].
      eapply seen_prefix; [by apply Hr|done].
    + apply wp_return; [by apply Hk2|]. intros g' Hr. apply Herr, Hr.
  - apply wp_return; [by apply Hk2|]. intros g' Hr. apply Herr, Hr.
  - apply wp_return; [by apply Hk2|]. intros g' Hr. apply Herr, Hr.
Qed.

(** A client that has staged a commit: the new location is its own, and has been seen only if
    the pointer has moved. *)
Record staging (i : nat) (g : History) (k : item_key) l l' : Prop := {
  st_sound : sound g;
  st_own : ∃ u, location_uuid l' = Some u ∧ g_owner g !! u = Some i;
  st_on : staged_on g l l';
  st_moved : seen g l' → moved g k l l'
}.

Lemma staging_kept i g g' k l l' : staging i g k l l' → kept i g g' → staging i g' k l l'.
Proof.
  intros [Hs (u & Hl & Ho) Hon Hm] Hk. split.
  - by apply Hk.
  - exists u. split; [done|]. eapply lookup_weaken; [exact Ho|by apply Hk].
  - eapply staged_on_mono; [by apply Hk|done].
  - intros Hseen. eapply moved_prefix; [by apply Hk|]. by apply Hm, (k_seen _ _ _ Hk u).
Qed.

Lemma staging_known i g k l l' : staging i g k l l' → known i g l'.
Proof.
  intros [Hs (u & Hl & Ho) _ _]. right. intros u' Hl'. assert (u' = u) as -> by congruence. split; [by apply (s_issued g Hs u i)|by right].
Qed.

(** The request to swap the pointer keeps it so, and when it is answered the pointer has moved. *)
Lemma swap_request i g c t generation l l' : staging i g (table_key c t) l l' →
  let '(r, g') := observe i _ (Write (swap_pointer c t generation l l')) g in
  staging i g' (table_key c t) l l' ∧ (is_ok r = true → moved g' (table_key c t) l l').
Proof.
  intros Hst. pose proof (staging_known _ _ _ _ _ Hst) as Hkn.
  assert (grows i g (observe i _ (Write (swap_pointer c t generation l l')) g).2) as Hgr
    by (apply request_grows; [by apply Hst|by apply swap_sends, Hst]).
  revert Hgr. unfold observe. cbn [handle]. unfold in_cloud.
  pose proof (write_item_spec (swap_pointer c t generation l l') (w_cloud (g_world g))) as (_ & _ & Ht).
  destruct (write_item _ _) as [r d]. cbn [fst snd note_written note_owner] in *. intros Hgr.
  set (g' := {| g_world := _; g_items := _; g_written := _; g_owner := _ |}) in *.
  assert (eval_write (swap_pointer c t generation l l') (items (g_cloud g)) = Some (items d) → moved g' (table_key c t) l l') as Hmove.
  { intros [Hl (b & Hb & Ha)]%swap_effect. pose proof (s_now g (st_sound _ _ _ _ _ Hst)) as Hnow. rewrite last_lookup in Hnow.
    assert (0 < length (g_items g)) as Hlen by (destruct (g_items g); cbn in *; [done|lia]).
    exists (pred (length (g_items g))), (items (g_cloud g)), (items d). cbn [g_items g']. split_and!.
    - by apply lookup_app_l_Some.
    - rewrite Nat.succ_pred by lia. by apply list_lookup_middle.
    - done.
    - rewrite Hb, location_at_insert, decide_True by done. done. }
  split.
  - destruct Hst as [Hs Hown Hon Hm]. split; [by apply Hgr|done|done|]. intros (m & k & Hin & Hk). cbn [g_items g'] in Hin.
    apply elem_of_app in Hin as [Hin|Hin]; [eapply moved_prefix; [by apply Hgr|]; apply Hm; by exists m, k|].
    apply list_elem_of_singleton in Hin as ->. cbn [w_cloud] in Hk. destruct r as [u|e]; cbn [took_effect] in Ht; [by apply Hmove|].
    destruct Ht as [Ht|Ht]; [|by apply Hmove]. rewrite Ht in Hk. eapply moved_prefix; [by apply Hgr|]. apply Hm. by eapply seen_now.
  - intros Hr. destruct r; [|done]. by apply Hmove.
Qed.

Lemma swap_loop_wp i c t l l' (post : result IceError unit → History → Prop) more : ∀ generation g,
  staging i g (table_key c t) l l' → (∀ e g', sound g' → post (Err e) g') →
  (∀ g', staging i g' (table_key c t) l l' → g_written g ⊆ g_written g' → moved g' (table_key c t) l l' → post (Ok tt) g') →
  wpi i (swap_loop c t l l' more generation) post g.
Proof.
  induction more as [|more IH]; intros generation g Hst Herr Hok; apply wp_send;
    [by apply Hst|intros g1 Hk1; pose proof (staging_kept _ _ _ _ _ _ Hst Hk1) as Hs1; apply swap_sends; [by eapply staging_known|by apply Hs1]| |
     by apply Hst|intros g1 Hk1; pose proof (staging_kept _ _ _ _ _ _ Hst Hk1) as Hs1; apply swap_sends; [by eapply staging_known|by apply Hs1]|];
    intros g1 Hk1 Hgr; pose proof (swap_request i g1 c t generation l l' (staging_kept _ _ _ _ _ _ Hst Hk1)) as Hs2;
    destruct (observe i _ (Write (swap_pointer c t generation l l')) g1) as [[u|e] g2]; cbn [fst snd is_ok] in *; destruct Hs2 as [Hs2 Hmv];
    assert (g_written g ⊆ g_written g2) as Hw2 by (trans (g_written g1); [apply Hk1|apply Hgr]).
  1,3: apply wp_return; [by apply Hs2|]; intros g' Hk'; apply Hok;
    [by eapply staging_kept|trans (g_written g2); [done|apply Hk']|eapply moved_prefix; [by apply Hk'|by apply Hmv]].
  - apply wp_return; [by apply Hs2|]. intros g' Hk'. apply Herr, Hk'.
  - assert (∀ g' p2, g_written g2 ⊆ g_written g' → staging i g' (table_key c t) l l' → wpi i (swap_loop c t l l' more p2) post g') as Hnext.
    { intros g' p2 Hw' Hs'. apply IH; [done|done|]. intros g'' H1 H2 H3. apply Hok; [done| |done].
      trans (g_written g'); [by trans (g_written g2)|done]. }
    destruct (is_conditional_check_failed e); [|by apply Hnext]. apply wp_pbind, pointer_wp; [by apply Hs2| |].
    + intros e' g' Hg' g'' Hr. apply Herr. by eapply k_sound, rely_kept.
    + intros p g' Hk' Hseen. pose proof (staging_kept _ _ _ _ _ _ Hs2 Hk') as Hs3. case_bool_decide as E1; [|case_bool_decide as E2].
      * rewrite E1 in Hseen. apply wp_return; [by apply Hs3|]. intros g'' Hk''. apply Hok; [by eapply staging_kept| |].
        -- trans (g_written g'); [trans (g_written g2); [done|apply Hk']|apply Hk''].
        -- eapply moved_prefix; [by apply Hk''|]. by apply Hs3.
      * apply Hnext; [apply Hk'|done].
      * apply wp_return; [by apply Hs3|]. intros g'' Hk''. apply Herr, Hk''.
Qed.

(** An identifier that the client drew and has not used. *)
Record drawn (i : nat) (g : History) (u : bytes) : Prop := {
  dr_sound : sound g;
  dr_owner : g_owner g !! u = Some i;
  dr_files l : location_uuid l = Some u → g_written g !! l = None;
  dr_seen l : location_uuid l = Some u → ¬ seen g l
}.

Lemma drawn_kept i g g' u : drawn i g u → kept i g g' → drawn i g' u.
Proof.
  intros [Hs Ho Hf Hn] Hk. split.
  - by apply Hk.
  - eapply lookup_weaken; [exact Ho|by apply Hk].
  - intros l Hl. rewrite (k_files _ _ _ Hk u) by done. by apply Hf.
  - intros l Hl Hseen. by apply (Hn l Hl), (k_seen _ _ _ Hk u).
Qed.

Lemma new_uuid_wp {A} i (k : bytes → prog (Request M) IceError A) post g :
  sound g → (∀ u g', x2f ∉ u → g_written g ⊆ g_written g' → drawn i g' u → wpi i (k u) post g') → wpi i (pbind (ask NewUuid) k) post g.
Proof.
  intros Hg Hk. apply wp_send; [done|done|]. intros g1 Hk1 Hgr. revert Hgr. unfold observe. cbn [handle]. unfold in_cloud.
  pose proof (new_uuid_spec (w_cloud (g_world g1))) as (Hi & _ & Hlen & Hn & Hu). destruct (new_uuid (w_cloud (g_world g1))) as [u d] eqn:E.
  cbn [fst snd note_written note_owner] in *. unfold g_cloud. rewrite E. cbn [fst]. intros Hgr. apply Hk; [done|apply Hk1|].
  pose proof (k_sound _ _ _ Hk1) as Hs1. split; cbn [g_owner g_written g_items].
  - by apply Hgr.
  - apply lookup_insert_eq.
  - intros l Hl. destruct (g_written g1 !! l) as [md|] eqn:Ew; [|done]. by apply (s_written g1 Hs1 l md u Ew) in Hl.
  - intros l Hl (m & k0 & Hin & Hk0). cbn in Hin. apply elem_of_app in Hin as [Hin|Hin].
    + apply Hn. apply (s_seen g1 Hs1 l u); [by exists m, k0|done].
    + apply list_elem_of_singleton in Hin as ->. rewrite Hi in Hk0. apply Hn. apply (s_seen g1 Hs1 l u); [by eapply seen_now|done].
Qed.

(** The file of a drawn identifier is written once. *)
Lemma write_file_wp {A} i l md u (k : unit → prog (Request M) IceError A) (post : result IceError A → History → Prop) g :
  drawn i g u → location_uuid l = Some u → (∀ e g', sound g' → post (Err e) g') →
  (∀ g', sound g' → g_written g ⊆ g_written g' → g_written g' !! l = Some md → g_owner g' !! u = Some i → ¬ seen g' l → wpi i (k tt) post g') →
  wpi i (pbind (ask_or id (WriteTo l md)) k) post g.
Proof.
  intros Hd Hl Herr Hk. apply wp_send; [by apply Hd| |].
  - intros g1 Hk1. pose proof (drawn_kept _ _ _ _ Hd Hk1) as [_ Ho Hf _]. split; [by apply Hf|by exists u].
  - intros g1 Hk1 Hgr. pose proof (drawn_kept _ _ _ _ Hd Hk1) as [Hs1 Ho Hf Hn]. revert Hgr. unfold observe. cbn [handle]. unfold in_cloud.
    pose proof (write_to_spec l md (w_cloud (g_world g1))) as (Hi & _). destruct (write_to _ _ _) as [[[]|e] d];
      cbn [fst snd note_written note_owner map_err pcase id] in *; intros Hgr.
    + apply Hk; [by apply Hgr| |by apply lookup_insert_eq|done|].
      * cbn. trans (g_written g1); [by apply Hk1|]. apply insert_subseteq. by apply Hf.
      * intros (m & k0 & Hin & Hk0). cbn in Hin. apply (Hn l Hl). apply elem_of_app in Hin as [Hin|Hin]; [by exists m, k0|].
        apply list_elem_of_singleton in Hin as ->. rewrite Hi in Hk0. by eapply seen_now.
    + apply wp_return; [by apply Hgr|]. intros g' Hk'. apply Herr, Hk'.
Qed.

(** What an acknowledged commit has done. *)
Definition committed c (commit : Commit) (staged : Table M) (g : History) : Prop := ∃ current uuid,
  commit_apply commit current uuid = Ok staged ∧ g_written g !! tb_location current = Some (tb_metadata current) ∧
  g_written g !! tb_location staged = Some (tb_metadata staged) ∧
  moved g (table_key c (commit_ident commit)) (tb_location current) (tb_location staged).

Lemma committed_kept i c commit staged g g' : committed c commit staged g → kept i g g' → committed c commit staged g'.
Proof.
  intros (cur & u & H1 & H2 & H3 & H4) Hk. exists cur, u. split_and!; [done|by apply (kept_written _ _ _ _ _ Hk)..|].
  eapply moved_prefix; [by apply Hk|done].
Qed.

Context {ILaws : IcebergLaws M Creation Commit}.

Lemma pfor_sends {A X} i (q : A → Request M X) (l : list A) g (post : result IceError unit → History → Prop) :
  (∀ a g, may_send i g (q a)) → sound g → (∀ g', kept i g g' → post (Ok tt) g') →
  (∀ a g1, sound g1 → kept i g1 (observe i X (q a) g1).2) →
  wpi i (pfor (λ a, Ask (q a) (λ _, Ret (Ok tt))) l) post g.
Proof.
  intros Hq Hg Hok Hkeep. revert g Hg Hok. induction l as [|a l IH]; intros g Hg Hok; [by apply wp_return|].
  cbn [pfor]. apply wp_send; [done|intros; apply Hq|]. intros g1 Hk1 Hgr. cbn [pcase]. apply IH; [by apply Hgr|].
  intros g' Hk'. apply Hok. eapply kept_trans; [exact Hk1|]. eapply kept_trans; [|exact Hk']. by apply Hkeep, Hk1.
Qed.

Lemma delete_file_kept i l g : sound g → kept i g (observe i _ (DeleteFile l) g).2.
Proof.
  intros Hg. assert (grows i g (observe i _ (DeleteFile l) g).2) as Hgr by by apply request_grows. revert Hgr. unfold observe. cbn [handle].
  unfold in_cloud. pose proof (delete_file_spec l (w_cloud (g_world g))) as (Hi & Hu & _). destruct (delete_file _ _) as [r d].
  cbn [fst snd note_written note_owner] in *. intros Hgr. split; try apply Hgr; [done|].
  intros u l0 _ _ (m & k & Hin & Hk). cbn in Hin. apply elem_of_app in Hin as [Hin|Hin]; [by exists m, k|].
  apply list_elem_of_singleton in Hin as ->. rewrite Hi in Hk. by eapply seen_now.
Qed.

Lemma update_table_wp i c commit g : sound g →
  wpi i (update_table c commit) (λ r g', sound g' ∧ ∀ staged, r = Ok staged → committed c commit staged g') g.
Proof.
  intros Hg. unfold update_table. apply wp_pbind, pointer_wp; [done| |].
  { intros e g' Hg' g'' Hr. split; [by eapply k_sound, rely_kept|done]. }
  intros [l generation] g1 Hk1 _. apply wp_pbind, from_location_wp; [by apply Hk1| |].
  { intros e g' Hg' g'' Hr. split; [by eapply k_sound, rely_kept|done]. }
  intros md g2 Hg2 Hl. apply new_uuid_wp; [done|]. intros u g3 Hlen Hw3 Hd.
  set (current := {| tb_ident := _; tb_location := l; tb_metadata := md |}).
  destruct (commit_apply commit current u) as [staged|e] eqn:Ha; [|apply wp_return; [by apply Hd|intros g' Hk'; split; [by apply Hk'|done]]].
  destruct (staged_location _ _ _ _ Ha) as (dir & version & Hv1 & Hv2 & Hloc).
  assert (location_uuid (tb_location staged) = Some u) as Hlu by (rewrite Hloc; by apply location_uuid_of).
  apply (write_file_wp i _ _ u); [done|done|intros e g' Hg'; by split|]. intros g4 Hg4 Hw4 Hst Ho Hn.
  assert (staging i g4 (table_key c (commit_ident commit)) l (tb_location staged)) as Hstg.
  { split; [done|by exists u| |done]. exists commit, current, u, staged. split_and!; try done.
    eapply lookup_weaken; [|exact Hw4]. eapply lookup_weaken; [exact Hl|done]. }
  apply wp_send; [done|intros g5 Hk5; by apply (kept_written _ _ _ _ _ Hk5)|]. intros g5 Hk5 Hgr5. cbn [pcase ask].
  assert (staging i (observe i _ (CacheInsert (dc_client c) (tb_location staged)
    {| cm_location := tb_location staged; cm_metadata := tb_metadata staged |}) g5).2 (table_key c (commit_ident commit)) l (tb_location staged)) as Hs6.
  { pose proof (staging_kept _ _ _ _ _ _ Hstg Hk5) as [s5 o5 n5 m5]. split; [by apply Hgr5|done|done|].
    intros (m & k & Hin & Hk). cbn in Hin. eapply moved_prefix; [by apply Hgr5|]. apply m5. apply elem_of_app in Hin as [Hin|Hin]; [by exists m, k|].
    apply list_elem_of_singleton in Hin as ->. by eapply seen_now. }
  revert Hs6 Hgr5. generalize (observe i _ (CacheInsert (dc_client c) (tb_location staged)
    {| cm_location := tb_location staged; cm_metadata := tb_metadata staged |}) g5). intros [x g6] Hs6 Hgr5. cbn [fst snd] in *.
  apply wp_pbind, swap_loop_wp; [done| |].
  { intros e g' Hg' g'' Hr. split; [by eapply k_sound, rely_kept|done]. }
  intros g7 Hs7 Hw7 Hmv. apply wp_pbind, pfor_sends; [done|by apply Hs7| |intros; by apply delete_file_kept].
  intros g8 Hk8. apply wp_return; [by apply Hk8|]. intros g9 Hk9. split; [by apply Hk9|]. intros ? [= <-].
  apply (committed_kept i _ _ _ g8); [|done]. apply (committed_kept i _ _ _ g7); [|done].
  assert (g_written g4 ⊆ g_written g7) as Hw by (trans (g_written g6); [trans (g_written g5); [apply Hk5|apply Hgr5]|done]).
  exists current, u. split_and!; [done| | |done].
  - eapply lookup_weaken; [|exact Hw]. eapply lookup_weaken; [|exact Hw4]. eapply lookup_weaken; [exact Hl|done].
  - eapply lookup_weaken; [exact Hst|done].
Qed.

Lemma create_table_wp i c ns creation g : sound g → wpi i (create_table c ns creation) (λ _ g', sound g') g.
Proof.
  intros Hg. unfold create_table. set (ident := {| ti_namespace := ns; ti_name := _ |}). set (location := default _ _).
  destruct (from_table_creation creation location) as [md|e]; [|apply wp_return; [done|by intros g' Hk'; apply Hk']].
  cbn [pbind pcase]. apply new_uuid_wp; [done|]. intros u g1 Hlen _ Hd.
  assert (location_uuid (metadata_file location u) = Some u) as Hlu.
  { apply location_uuid_of; [by apply (bool_decide_unpack _)..|done]. }
  apply (write_file_wp i _ _ u); [done|done|by intros|]. intros g2 Hg2 _ _ Ho _. apply wp_send; [done| |].
  - intros g3 Hk3. apply (register_sends i g3 c ident). intros l Hl. right. intros u' Hu'.
    assert (u' = u) as ->.
    { unfold attr_s in Hl. revert Hl. rewrite lookup_insert_ne by done. rewrite lookup_insert_eq. intros Hl. congruence. }
    pose proof (lookup_weaken _ _ _ _ Ho (k_owner _ _ _ Hk3)) as Ho3. split; [by apply (s_issued g3 (k_sound _ _ _ Hk3) u i)|by right].
  - intros g3 Hk3 Hgr. destruct (observe i _ (TransactWrite _) g3) as [[x|e] g4]; cbn [fst snd map_err pcase] in *.
    + apply from_location_wp; [by apply Hgr|done|done].
    + apply wp_return; [by apply Hgr|by intros g' Hk'; apply Hk'].
Qed.

Lemma register_table_wp i c t l g : sound g → (∀ u, location_uuid l = Some u → u ∈ issued (g_cloud g) ∧ g_owner g !! u = None) →
  wpi i (register_table c t l) (λ _ g', sound g') g.
Proof.
  intros Hg Hl. unfold register_table. apply wp_send; [done| |].
  - intros g1 Hk1. apply register_sends. intros l0 Hl0. apply (kept_known i g); [done|]. right. intros u Hu.
    assert (l0 = l) as ->. { revert Hl0. unfold attr_s. rewrite lookup_insert_eq. intros Hl0. congruence. }
    destruct (Hl u Hu) as [H1 H2]. split; [done|by left].
  - intros g1 Hk1 Hgr. destruct (observe i _ (TransactWrite _) g1) as [[x|e] g2]; cbn [fst snd map_err pcase] in *.
    + apply from_location_wp; [by apply Hgr|done|done].
    + apply wp_return; [by apply Hgr|by intros g' Hk'; apply Hk'].
Qed.

Lemma rename_table_wp i c src dest g : sound g → wpi i (rename_table c src dest) (λ _ g', sound g') g.
Proof.
  intros Hg. unfold rename_table. apply wp_pbind, pointer_wp; [done|intros e g' Hg' g'' Hr; by eapply k_sound, rely_kept|].
  intros [l generation] g1 Hk1 Hseen. cbn [fst] in Hseen. unfold table_exists. apply wp_send; [by apply Hk1|done|]. intros g2 Hk2 Hgr2.
  assert (seen (observe i _ (GetItem (table_key c dest)) g2).2 l) as Hseen2
    by (eapply seen_prefix; [apply Hgr2|eapply seen_prefix; [by apply Hk2|done]]).
  destruct (observe i _ (GetItem _) g2) as [[item|e] g3]; cbn [fst snd map_err pcase] in *;
    [|apply wp_return; [by apply Hgr2|by intros g' Hk'; apply Hk']].
  destruct (bool_decide (is_Some item)); [apply wp_return; [by apply Hgr2|by intros g' Hk'; apply Hk']|].
  apply wp_send; [by apply Hgr2| |].
  - intros g4 Hk4. apply (rename_sends i g4 c src dest l generation). left. eapply seen_prefix; [by apply Hk4|done].
  - intros g4 Hk4 Hgr4. destruct (observe i _ (TransactWrite _) g4) as [r g5]. apply wp_return; [by apply Hgr4|by intros g' Hk'; apply Hk'].
Qed.

(** ** All calls *)

(** A registered file is not one that a client of the run is about to write. *)
Definition call_ok (d : D) (call : Call Creation Commit) : Prop :=
  match call with
  | CRegisterTable t l => ∀ u, location_uuid l = Some u → u ∈ issued d
  | _ => True
  end.

Definition call_post c (call : Call Creation Commit) (r : result IceError (Answer M)) (g : History) : Prop :=
  sound g ∧ ∀ commit staged, call = CUpdateTable commit → r = Ok (ATable staged) → committed c commit staged g.

Lemma answer_wp {A} i (f : A → Answer M) (p : prog (Request M) IceError A) c call g :
  (∀ commit, call ≠ CUpdateTable commit) → wpi i p (λ _ g', sound g') g → wpi i (answer f p) (call_post c call) g.
Proof.
  intros Hn Hp. apply wp_pbind. eapply wp_mono; [exact Hp|]. intros [a|e] g' Hg'.
  - apply wp_return; [done|]. intros g'' Hk. split; [by apply Hk|]. intros commit staged E. by apply Hn in E.
  - intros g'' Hr. split; [by eapply k_sound, rely_kept|done].
Qed.

Lemma perform_wp i c (call : Call Creation Commit) g : sound g → g_owner g = ∅ → call_ok (g_cloud g) call →
  wpi i (perform c call) (call_post c call) g.
Proof.
  intros Hg Ho Hc. destruct call; cbn [perform]; try (apply answer_wp; [done|]).
  - apply wp_free; [split; [done|by intros [page|e]]|done|by intros r g' [? _]].
  - apply wp_free; [split; [intros g0; apply create_namespace_sends|by intros [[]|e]]|done|by intros r g' [? _]].
  - apply wp_free; [split; [done|by intros [[item|]|e]]|done|by intros r g' [? _]].
  - apply wp_free; [split; [done|by intros [[item|]|e]]|done|by intros r g' [? _]].
  - apply wp_free; [split; [intros g0; apply update_namespace_sends|done]|done|by intros r g' [? _]].
  - apply wp_free; [split; [intros g0; apply drop_namespace_sends|done]|done|by intros r g' [? _]].
  - apply wp_free; [split; [done|by intros [page|e]]|done|by intros r g' [? _]].
  - by apply create_table_wp.
  - apply wp_pbind, pointer_wp; [done|intros e g' Hg' g'' Hr; by eapply k_sound, rely_kept|]. intros p g1 Hk1 _.
    apply from_location_wp; [by apply Hk1|done|done].
  - apply wp_free; [split; [intros g0; apply drop_table_sends|done]|done|by intros r g' [? _]].
  - apply wp_free; [split; [done|by intros [page|e]]|done|by intros r g' [? _]].
  - by apply rename_table_wp.
  - apply register_table_wp; [done|]. intros u Hu. split; [by apply Hc|]. by rewrite Ho.
  - apply wp_pbind. eapply wp_mono; [by apply update_table_wp|]. intros [staged|e] g' [Hg' Hst].
    + apply wp_return; [done|]. intros g'' Hk. split; [by apply Hk|]. intros cm st [= <-] [= <-].
      eapply committed_kept; [by apply Hst|exact Hk].
    + intros g'' Hr. split; [by eapply k_sound, rely_kept|done].
Qed.

(** Nothing runs: the caches are empty, and the files and pointers are of issued identifiers. *)
Record settled (w : World D M) : Prop := {
  se_caches : w_caches w = ∅;
  se_files l md u : files (w_cloud w) !! l = Some md → location_uuid l = Some u → u ∈ issued (w_cloud w);
  se_pointers k l u : location_at k (items (w_cloud w)) = Some l → location_uuid l = Some u → u ∈ issued (w_cloud w)
}.

Definition start_history (w : World D M) : History :=
  {| g_world := w; g_items := [items (w_cloud w)]; g_written := files (w_cloud w); g_owner := ∅ |}.

Lemma start_sound w : settled w → sound (start_history w).
Proof.
  intros [Hc Hf Hp]. split; unfold g_cloud; cbn.
  - done.
  - done.
  - intros client l e. unfold cache_of. rewrite Hc, lookup_empty. cbn. by rewrite lookup_empty.
  - intros u j. by rewrite lookup_empty.
  - done.
  - intros l u (m & k & Hm & Hl). cbn in Hm. apply list_elem_of_singleton in Hm as ->. by eapply Hp.
  - intros k l l' (n & m & m' & _ & H2 & _). by destruct n.
Qed.

End Commits.

(** ** A cloud to run the catalog on *)

Module DynamoExample.

(** Table metadata is the list of the commits in it. *)
Definition meta : Type := list bytes.

Record Sim : Type := {
  sm_items : table_items;
  sm_files : gmap bytes meta;
  sm_next : N;
  (** Items on a page. *)
  sm_page : nat;
  (** The writes that are not answered, and whether they take effect. *)
  sm_clock : nat;
  sm_lost : nat → option bool
}.

Definition set_items (m : table_items) (d : Sim) : Sim := {|
  sm_items := m; sm_files := sm_files d; sm_next := sm_next d; sm_page := sm_page d; sm_clock := S (sm_clock d); sm_lost := sm_lost d |}.
Definition set_files (f : gmap bytes meta) (d : Sim) : Sim := {|
  sm_items := sm_items d; sm_files := f; sm_next := sm_next d; sm_page := sm_page d; sm_clock := sm_clock d; sm_lost := sm_lost d |}.
Definition set_next (n : N) (d : Sim) : Sim := {|
  sm_items := sm_items d; sm_files := sm_files d; sm_next := n; sm_page := sm_page d; sm_clock := sm_clock d; sm_lost := sm_lost d |}.

Definition failed_condition : SdkError :=
  {| sdk_code := Some (str "ConditionalCheckFailedException"); sdk_text := str "the conditional request failed" |}.
Definition timed_out : SdkError := {| sdk_code := None; sdk_text := str "timeout" |}.

Definition sim_write (effect : table_items → option table_items) (d : Sim) : result SdkError unit * Sim :=
  match sm_lost d (sm_clock d), effect (sm_items d) with
  | None, Some m => (Ok tt, set_items m d)
  | None, None => (Err failed_condition, set_items (sm_items d) d)
  | Some true, Some m => (Err timed_out, set_items m d)
  | _, _ => (Err timed_out, set_items (sm_items d) d)
  end.

Definition sim_issued (d : Sim) : gset bytes := list_to_set (display_N ∘ N.of_nat <$> seq 0 (N.to_nat (sm_next d))).

Lemma sim_write_spec effect d : sm_files (sim_write effect d).2 = sm_files d ∧ sim_issued (sim_write effect d).2 = sim_issued d ∧
  took_effect (sim_write effect d).1 (sm_items d) (sm_items (sim_write effect d).2) (effect (sm_items d)).
Proof. unfold sim_write. destruct (sm_lost d (sm_clock d)) as [[]|], (effect (sm_items d)); cbn; split_and!; auto. Qed.

Lemma sim_fresh n d : n = sm_next d → display_N n ∉ sim_issued d.
Proof.
  intros ->. unfold sim_issued. rewrite elem_of_list_to_set, list_elem_of_fmap. intros (k & E & [_ Hk]%elem_of_seq). cbn in E.
  apply display_N_inj in E. lia.
Qed.

#[local] Program Instance sim_cloud : Cloud Sim meta := {|
  items := sm_items; files := sm_files; issued := sim_issued;
  get_item key d := (Ok (sm_items d !! key), d);
  query pk sk d := (Ok (take (sm_page d) (matching pk sk (sm_items d))), d);
  write_item w := sim_write (eval_write w);
  transact_write_items ws := sim_write (eval_transact ws);
  write_to l md d := (Ok tt, set_files (<[l := md]> (sm_files d)) d);
  read_from l d := (ok_or (ice_error Unexpected (str "no file")) (sm_files d !! l), d);
  delete_file l d := (Ok tt, set_files (delete l (sm_files d)) d);
  new_uuid d := (display_N (sm_next d), set_next (sm_next d + 1) d)
|}.
Next Obligation. intros key d. cbn. split_and!; [done..|]. by intros o [= <-]. Qed.
Next Obligation. intros pk sk d. cbn. split_and!; [done..|]. intros page [= <-]. apply prefix_take. Qed.
Next Obligation. intros w d. apply sim_write_spec. Qed.
Next Obligation. intros ws d. apply sim_write_spec. Qed.
Next Obligation. intros l md d. cbn. split_and!; auto. Qed.
Next Obligation. intros l d. cbn. split_and!; [done..|]. intros m. destruct (sm_files d !! l); cbn; congruence. Qed.
Next Obligation. intros l d. cbn. auto. Qed.
Next Obligation.
  intros d. cbn. split_and!; [done|done|by apply display_N_not_in|by apply sim_fresh|]. unfold sim_issued. cbn.
  rewrite N2Nat.inj_add, Nat.add_1_r, seq_S, fmap_app, list_to_set_app_L. cbn. rewrite N2Nat.id. set_solver.
Qed.

(** A commit adds its tag. *)
#[local] Instance sim_lib : IcebergLib meta bytes (TableIdent * bytes) := {|
  iceberg_metadata := {| meta_properties _ := ∅; meta_log _ := []; meta_location _ := []; meta_uuid _ := str "u" |};
  creation_name := id; creation_location _ := None;
  from_table_creation name _ := Ok [];
  commit_ident := fst;
  commit_apply c t uuid := Ok {| tb_ident := tb_ident t; tb_location := metadata_location (str "/t") (str "00001") uuid;
                                 tb_metadata := tb_metadata t ++ [c.2] |};
  show_namespace := join x2e; show_table t := ti_name t;
  props_to_json _ := str "{}"; props_from_json _ := Some ∅; parse_error _ := str "invalid digit"
|}.

#[local] Instance sim_laws : IcebergLaws meta bytes (TableIdent * bytes).
Proof. intros commit t uuid staged [= <-]. exists (str "/t"), (str "00001"). split_and!; [by apply (bool_decide_unpack _)..|done]. Qed.

#[local] Instance sim_digest : Digest := toy_digest.

Definition sim (page : nat) (lost : nat → option bool) : World Sim meta :=
  {| w_cloud := {| sm_items := ∅; sm_files := ∅; sm_next := 0; sm_page := page; sm_clock := 0; sm_lost := lost |}; w_caches := ∅ |}.

Definition client (n : N) : DynamoDbCatalog := {| dc_warehouse := str "s3://lake"; dc_client := n |}.
Definition tbl (name : bytes) : TableIdent := {| ti_namespace := [str "n"]; ti_name := name |}.

Notation call := (Call bytes (TableIdent * bytes)).

(** Calls one after another. *)
Fixpoint run_calls (calls : list call) (w : World Sim meta) : World Sim meta :=
  match calls with
  | [] => w
  | c :: calls => run_calls calls (run (λ _, handle) 0 (perform (client 0) c) w).2
  end.

(** Calls at the same time, the requests in the order of a schedule. *)
Definition run_clients (calls : list call) (schedule : list nat) (w : World Sim meta) :=
  interleave (λ _, handle) schedule (imap (λ i c, perform (client (N.of_nat i)) c) calls) w.

Definition result_of (p : prog (Request meta) IceError (Answer meta)) : option (result IceError (Answer meta)) :=
  match p with Ret r => Some r | Ask _ _ => None end.

Definition with_table : World Sim meta := run_calls [CCreateNamespace [str "n"] ∅; CCreateTable [str "n"] (str "a")] (sim 9 (λ _, None)).

(** The metadata of a table, by its pointer. *)
Definition metadata_of (name : bytes) (w : World Sim meta) : option meta :=
  location_at (table_key (client 0) (tbl name)) (items (w_cloud w)) ≫= λ l, files (w_cloud w) !! l.

(** *** Listings *)

Definition two_tables : World Sim meta :=
  run_calls [CCreateNamespace [str "n"] ∅; CCreateTable [str "n"] (str "a"); CCreateTable [str "n"] (str "b")] (sim 1 (λ _, None)).

(** A query of DynamoDB answers with one page and a key to go on from.  [list_tables] and
    [list_namespaces] ask for the first page only: when a page takes one item, a namespace
    with two tables, and two pointers, lists one. *)
Theorem listing_stops_at_first_page :
  (run (λ _, handle) 0 (list_tables (client 0) [str "n"]) two_tables).1 = Ok [tbl (str "a")] ∧
  tables_in (table_pk (client 0) [str "n"]) (items (w_cloud two_tables)) = 2 ∧
  (run (λ _, handle) 0 (table_exists (client 0) (tbl (str "b"))) two_tables).1 = Ok true.
Proof. split_and!; vm_compute; reflexivity. Qed.

(** *** Renaming *)

(** One client renames [a] to [b]; when it has read the pointer, others drop [a] and create
    a new table of that name. *)
Definition renamed :=
  run_clients [CRenameTable (tbl (str "a")) (tbl (str "b")); CDropTable (tbl (str "a")); CCreateTable [str "n"] (str "a")]
    [0; 0; 1; 2; 2; 2; 2; 2; 2; 0] with_table.

(** A rename is guarded by the generation of the table, and generations start again at 1 when a
    table is created.  A rename that has read its pointer, during which the table is dropped and
    another is created under its name, succeeds: it gives the destination the pointer of
    the table that was dropped, and deletes the table that was just created. *)
Theorem rename_takes_dropped_table :
  (result_of <$> renamed.1) = [Some (Ok AUnit); Some (Ok AUnit);
     Some (Ok (ATable {| tb_ident := tbl (str "a"); tb_location := metadata_file (str "s3://lake/n/a") (str "1"); tb_metadata := [] |}))] ∧
  location_at (table_key (client 0) (tbl (str "a"))) (items (w_cloud renamed.2)) = None ∧
  location_at (table_key (client 0) (tbl (str "b"))) (items (w_cloud renamed.2)) = Some (metadata_file (str "s3://lake/n/a") (str "0")).
Proof. split_and!; vm_compute; reflexivity. Qed.

(** *** Conflicts *)

(** The answer to the third write of the run is lost; it took effect. *)
Definition with_table_lossy : World Sim meta :=
  run_calls [CCreateNamespace [str "n"] ∅; CCreateTable [str "n"] (str "a")] (sim 9 (λ n, if n =? 2 then Some true else None)).

Definition both_commit :=
  run_clients [CUpdateTable (tbl (str "a"), str "first"); CUpdateTable (tbl (str "a"), str "second")]
    ([0; 0; 0; 0; 0; 0] ++ [1; 1; 1; 1; 1; 1; 1; 1] ++ [0; 0; 0]) with_table_lossy.

(** When the answer to the swap of the pointer is lost although it took effect, the commit looks
    at the pointer to find out.  If another client has committed on top of it meanwhile, the
    pointer names neither location: the commit is reported as a conflict, although it is in
    the table, below the commit of the other client. *)
Theorem conflict_after_commit :
  (both_commit.1 !! 0 ≫= result_of) = Some (Err (cas_conflict failed_condition)) ∧
  metadata_of (str "a") both_commit.2 = Some [str "first"; str "second"].
Proof. split_and!; vm_compute; reflexivity. Qed.

(** *** The theorems on a run *)

Definition commits : list (DynamoDbCatalog * call) :=
  [(client 0, CUpdateTable (tbl (str "a"), str "first")); (client 1, CUpdateTable (tbl (str "a"), str "second"))].

Definition fresh_table : World Sim meta := {| w_cloud := w_cloud with_table; w_caches := ∅ |}.

Lemma counts_start : counts_ok (items (w_cloud (sim 9 (λ _, None)))).
Proof. intros c ns. cbn. rewrite lookup_empty. unfold tables_in. by rewrite map_filter_empty. Qed.

Definition creating : list (DynamoDbCatalog * call) :=
  [(client 0, CCreateNamespace [str "n"] ∅); (client 1, CCreateTable [str "n"] (str "a"))].
Definition created := interleave (λ _, handle) [0; 1; 1; 1] (uncurry perform <$> creating) (sim 9 (λ _, None)).

Lemma created_steps : rtc (client_step (λ _, handle)) (uncurry perform <$> creating, sim 9 (λ _, None)) created.
Proof. apply interleave_steps. Qed.

Lemma table_counts_exact_witness :
  match items (w_cloud created.2) !! namespace_key (client 0) [str "n"] with
  | Some a => a !! str "table_count" = Some (AvN (Z.of_nat (tables_in (table_pk (client 0) [str "n"]) (items (w_cloud created.2)))))
  | None => tables_in (table_pk (client 0) [str "n"]) (items (w_cloud created.2)) = 0
  end ∧ tables_in (table_pk (client 0) [str "n"]) (items (w_cloud created.2)) = 1.
Proof.
  assert (tables_in (table_pk (client 0) [str "n"]) (items (w_cloud created.2)) = 1) as H1 by (vm_compute; reflexivity). revert H1.
  pose proof created_steps as Hs. destruct created as [ps w]. cbn [snd]. intros H1. split; [|exact H1].
  exact (table_counts_exact creating ps (sim 9 (λ _, None)) w counts_start Hs (client 0) [str "n"]).
Defined.

Definition committing := interleave observe ([0; 1; 0; 0; 0; 0; 0; 0; 0] ++ [1; 1; 1; 1; 1; 1; 1]) (uncurry perform <$> commits) (start_history fresh_table).

Lemma fresh_settled : settled fresh_table.
Proof.
  split; [done| |].
  - intros l md u Hl Hu. assert (map_Forall (λ l (_ : meta), ∀ u, location_uuid l = Some u → u ∈ issued (w_cloud fresh_table)) (files (w_cloud fresh_table))) as Hf; [|by eapply Hf].
    intros l' md' Hl'. assert (l' = metadata_file (str "s3://lake/n/a") (str "0")) as ->.
    { assert (map_Forall (λ l (_ : meta), l = metadata_file (str "s3://lake/n/a") (str "0")) (files (w_cloud fresh_table))) as Hall
        by (refine (bool_decide_eq_true_1 _ _); vm_compute; reflexivity). exact (Hall l' md' Hl'). }
    intros u' Hu'. assert (Some u' = Some (str "0")) as [= ->] by (rewrite <- Hu'; vm_compute; reflexivity).
    refine (bool_decide_eq_true_1 _ _). vm_compute. reflexivity.
  - intros k l u Hl Hu. assert (l = metadata_file (str "s3://lake/n/a") (str "0")) as ->.
    { assert (map_Forall (λ _ a, attr_s a (str "metadata_location") = None ∨ attr_s a (str "metadata_location") = Some (metadata_file (str "s3://lake/n/a") (str "0")))
        (items (w_cloud fresh_table))) as Hall by (refine (bool_decide_eq_true_1 _ _); vm_compute; reflexivity).
      unfold location_at in Hl. apply bind_Some in Hl as (a & Ha & Hl). destruct (Hall k a Ha) as [E|E]; congruence. }
    assert (Some u = Some (str "0")) as [= ->] by (rewrite <- Hu; vm_compute; reflexivity).
    refine (bool_decide_eq_true_1 _ _). vm_compute. reflexivity.
Qed.

Lemma committing_steps : rtc (client_step observe) (uncurry perform <$> commits, start_history fresh_table) committing.
Proof. apply interleave_steps. Qed.

Definition first_answer : option (Table meta) :=
  match committing.1 !! 0 with Some (Ret (Ok (ATable t))) => Some t | _ => None end.

End DynamoExample.
