(* ===== verification/FsCatalog.v ===== *)
(** * FsCatalog: the catalog of the lake on a file system

    The model of crates/skippr-iceberg-catalog-fs: a table is a directory of metadata files;
    version [N] of it is the file [v{N}.metadata.json], which only one writer can create, and
    [version-hint.text] names a version.  A catalog operation is a program of file-system
    requests, so that the requests of clients interleave; any of them may fail, with or without
    effect. *)

From S2P Require Import Prelude Bytes Text Io Codec Lease Clients IcebergCatalog.

(** ** Numbers in names *)

Definition display_i32 (z : Z) : bytes := if (z <? 0)%Z then x2d :: display_N (Z.to_N (- z)) else display_N (Z.to_N z).

Definition parse_i32 (s : bytes) : option Z :=
  match s with
  | c :: s' => if Byte.eqb c x2d then (λ n, (- Z.of_N n)%Z) <$> (guard (s' ≠ []) ;; parse_digits 2147483648 0 s')
               else Z.of_N <$> parse_N 2147483647 s
  | [] => None
  end.

(** At least five characters, zeros in front. *)
Definition pad5 (s : bytes) : bytes := replicate (5 - length s) x30 ++ s.

(** [{:05}] puts the zeros after a minus sign. *)
Definition display_05 (z : Z) : bytes :=
  if (z <? 0)%Z then x2d :: replicate (4 - length (display_N (Z.to_N (- z)))) x30 ++ display_N (Z.to_N (- z)) else pad5 (display_i32 z).

Definition ends_with (s p : bytes) : bool := bool_decide (is_Some (strip_suffix p s)).

(** ** The file system *)

Record FsState : Type := {
  fs_files : gmap bytes (bytes * N);
  fs_dirs : gset bytes;
  fs_clock : N;
  fs_next : N
}.

(** The directories above a path. *)
Fixpoint ancestors (fuel : nat) (path : bytes) : gset bytes :=
  match fuel with
  | 0 => ∅
  | S fuel => match rsplit_once x2f path with
              | Some (dir, _) => {[ dir ]} ∪ ancestors fuel dir
              | None => ∅
              end
  end.

Definition within (dir path : bytes) : bool := starts_with path (dir ++ [x2f]).

Definition put_file (path content : bytes) (s : FsState) : FsState := {|
  fs_files := <[path := (content, fs_clock s)]> (fs_files s); fs_dirs := ancestors (length path) path ∪ fs_dirs s;
  fs_clock := fs_clock s; fs_next := fs_next s |}.
Definition remove_file (path : bytes) (s : FsState) : FsState := {|
  fs_files := delete path (fs_files s); fs_dirs := fs_dirs s; fs_clock := fs_clock s; fs_next := fs_next s |}.
Definition make_dirs (path : bytes) (s : FsState) : FsState := {|
  fs_files := fs_files s; fs_dirs := {[ path ]} ∪ ancestors (length path) path ∪ fs_dirs s; fs_clock := fs_clock s; fs_next := fs_next s |}.
Definition remove_tree (path : bytes) (s : FsState) : FsState := {|
  fs_files := filter (λ kv, within path kv.1 = false) (fs_files s);
  fs_dirs := filter (λ d, d ≠ path ∧ within path d = false) (fs_dirs s); fs_clock := fs_clock s; fs_next := fs_next s |}.
Definition tick (s : FsState) : FsState := {|
  fs_files := fs_files s; fs_dirs := fs_dirs s; fs_clock := fs_clock s + 1; fs_next := fs_next s |}.
Definition set_next (n : N) (s : FsState) : FsState := {|
  fs_files := fs_files s; fs_dirs := fs_dirs s; fs_clock := fs_clock s; fs_next := n |}.

Definition path_exists (path : bytes) (s : FsState) : bool :=
  bool_decide (is_Some (fs_files s !! path)) || bool_decide (path ∈ fs_dirs s).

(** The name of an entry of a directory. *)
Definition entry_name (dir path : bytes) : option bytes :=
  name ← strip_prefix (dir ++ [x2f]) path;
  if bool_decide (name = []) || contains name x2f then None else Some name.

Definition entry_names (dir : bytes) (s : FsState) : list bytes :=
  omap (entry_name dir) ((map_to_list (fs_files s)).*1 ++ elements (fs_dirs s)).

Section Fs.
Context {M Creation Commit : Type} {IL : IcebergLib M Creation Commit}.
(** The JSON of metadata. *)
Context {CM : Codec M}.
(** Which requests fail, and whether they have their effect; the order in which a directory is
    read; the names an object store gives to paths; the text of identifiers and errors. *)
Context (faults : N → option bool) (entry_order : list bytes → list bytes) (object_name : bytes → bytes).
Context (uuid_text : N → bytes) (io_text : bytes).

Record FsWorld : Type := { w_fs : FsState; w_caches : gmap N (MetadataCache M) }.

Definition cache_of (client : N) (w : FsWorld) : MetadataCache M := default cache_empty (w_caches w !! client).

Inductive FsRequest : Type → Type :=
| PathExists (path : bytes) : FsRequest bool
| IsDir (path : bytes) : FsRequest bool
| CreateDirAll (path : bytes) : FsRequest (result bytes unit)
| RemoveDirAll (path : bytes) : FsRequest (result bytes unit)
| ReadDir (path : bytes) : FsRequest (result bytes (list bytes))
| ReadFile (path : bytes) : FsRequest (result bytes bytes)
| Stat (path : bytes) : FsRequest (option (N * N))
(** [fs::write]: the file is created or emptied, then filled. *)
| Truncate (path : bytes) : FsRequest (result bytes unit)
| Fill (path content : bytes) : FsRequest (result bytes unit)
| RemoveFile (path : bytes) : FsRequest (result bytes unit)
(** [put_opts] with [PutMode::Create]: whether the file was created. *)
| PutIfAbsent (path content : bytes) : FsRequest (result bytes bool)
| NewUuid : FsRequest bytes
| CacheGet (client : N) (key : bytes) : FsRequest (option (CachedMetadata M))
| CacheInsert (client : N) (key : bytes) (entry : CachedMetadata M) : FsRequest unit
| CacheRemovePrefix (client : N) (prefix : bytes) : FsRequest unit.

Definition on_fs {X} (f : FsState → X * FsState) (w : FsWorld) : X * FsWorld :=
  let '(x, s) := f (w_fs w) in (x, {| w_fs := tick s; w_caches := w_caches w |}).

(** A request with an effect. *)
Definition effect {X} (x : X) (f : FsState → FsState) (s : FsState) : result bytes X * FsState :=
  match faults (fs_clock s) with
  | None => (Ok x, f s)
  | Some true => (Err io_text, f s)
  | Some false => (Err io_text, s)
  end.

Definition reading {X} (f : FsState → result bytes X) (s : FsState) : result bytes X * FsState :=
  match faults (fs_clock s) with None => (f s, s) | Some _ => (Err io_text, s) end.

Definition on_cache {X} (client : N) (f : MetadataCache M → X * MetadataCache M) (w : FsWorld) : X * FsWorld :=
  let '(x, c) := f (cache_of client w) in (x, {| w_fs := w_fs w; w_caches := <[client := c]> (w_caches w) |}).

Definition handle (X : Type) (q : FsRequest X) : FsWorld → X * FsWorld :=
  match q with
  | PathExists path => on_fs (λ s, (path_exists path s, s))
  | IsDir path => on_fs (λ s, (bool_decide (path ∈ fs_dirs s), s))
  | CreateDirAll path => on_fs (effect tt (make_dirs path))
  | RemoveDirAll path => on_fs (effect tt (remove_tree path))
  | ReadDir path => on_fs (reading (λ s, if bool_decide (path ∈ fs_dirs s) then Ok (entry_order (entry_names path s)) else Err io_text))
  | ReadFile path => on_fs (reading (λ s, ok_or io_text (fst <$> fs_files s !! path)))
  | Stat path => on_fs (λ s, ((λ f, (blen f.1, f.2)) <$> fs_files s !! path, s))
  | Truncate path => on_fs (effect tt (put_file path []))
  | Fill path content => on_fs (effect tt (put_file path content))
  | RemoveFile path => on_fs (effect tt (remove_file path))
  | PutIfAbsent path content => on_fs (λ s,
      match fs_files s !! path with
      | Some _ => reading (λ _, Ok false) s
      | None => effect true (put_file path content) s
      end)
  | NewUuid => on_fs (λ s, (uuid_text (fs_next s), set_next (fs_next s + 1) s))
  | CacheGet client key => on_cache client (λ c, (cache_get key c, c))
  | CacheInsert client key entry => on_cache client (λ c, (tt, cache_insert key entry c))
  | CacheRemovePrefix client prefix => on_cache client (λ c, (tt, cache_remove_prefix prefix c))
  end.

Notation op := (prog FsRequest IceError).

Definition failing (kind : ErrorKind) (what : bytes → bytes) {X} (q : FsRequest (result bytes X)) : op X :=
  ask_or (λ e, ice_error kind (what e)) q.

(** ** The catalog *)

Record FsCatalog : Type := { fc_warehouse_uri : bytes; fc_warehouse_fs : bytes; fc_client : N }.

Definition strip_file (uri : bytes) : bytes := trim_start_matches (str "file://") uri.

Definition file_uri (warehouse : bytes) : result IceError bytes :=
  match require_file_warehouse warehouse with
  | Ok uri => Ok uri
  | Err e =>
      let trimmed := warehouse_key warehouse in
      if starts_with trimmed (str "s3://") || starts_with trimmed (str "s3a://")
      then Err (ice_error FeatureUnsupported (str "FsCatalog is file:// only"))
      else Err (ice_error DataInvalid e)
  end.

Definition FsCatalog_new (client : N) (warehouse : bytes) : op FsCatalog :=
  run? uri := Ret (file_uri warehouse) in
  let fs := strip_file uri in
  failing Unexpected (λ e, str "create warehouse " ++ fs ++ str ": " ++ e) (CreateDirAll fs) ;&
  Ret (Ok {| fc_warehouse_uri := uri; fc_warehouse_fs := fs; fc_client := client |}).

Definition ns_rel (ns : NamespaceIdent) : bytes := join x2f ns.
Definition table_rel (t : TableIdent) : bytes := ns_rel (ti_namespace t) ++ x2f :: ti_name t.
Definition table_uri (c : FsCatalog) (t : TableIdent) : bytes := fc_warehouse_uri c ++ x2f :: table_rel t.
Definition ns_fs (c : FsCatalog) (ns : NamespaceIdent) : bytes := path_join (fc_warehouse_fs c) (ns_rel ns).
Definition table_fs (c : FsCatalog) (t : TableIdent) : bytes := path_join (fc_warehouse_fs c) (table_rel t).
Definition hint_uri (table_uri : bytes) : bytes := table_uri ++ str "/metadata/version-hint.text".
Definition hadoop_rel (version : Z) : bytes := str "v" ++ display_i32 version ++ str ".metadata.json".
Definition metadata_dir (c : FsCatalog) (t : TableIdent) : bytes := path_join (table_fs c t) (str "metadata").

(** The file of an object of the store over the warehouse. *)
Definition object_path (c : FsCatalog) (t : TableIdent) (file : bytes) : bytes :=
  path_join (fc_warehouse_fs c) (object_name (table_rel t ++ str "/metadata/" ++ file)).

(** [FileIO] on a URI of a file. *)
Definition write_uri (uri content : bytes) : op unit :=
  failing Unexpected (λ e, str "Failed to write file: " ++ e) (Truncate (strip_file uri)) ;&
  failing Unexpected (λ e, str "Failed to write file: " ++ e) (Fill (strip_file uri) content).
Definition read_uri (uri : bytes) : op bytes := failing DataInvalid (λ e, str "Failed to read file: " ++ e) (ReadFile (strip_file uri)).
Definition uri_exists (uri : bytes) : op bool := ask (PathExists (strip_file uri)).
Definition delete_uri (uri : bytes) : op unit := failing Unexpected (λ e, str "Failed to delete file: " ++ e) (RemoveFile (strip_file uri)).

Definition write_metadata (uri : bytes) (md : M) : op unit :=
  run? content := Ret (map_err (ice_error DataInvalid) (serialize md)) in write_uri uri content.

Definition write_hint (table_uri : bytes) (version : Z) : op unit := write_uri (hint_uri table_uri) (display_i32 version).

(** ** Versions *)

Definition hadoop_version (name : bytes) : option Z :=
  rest ← strip_prefix (str "v") name; num ← strip_suffix (str ".metadata.json") rest; parse_i32 num.

Definition max_version (names : list bytes) : option Z :=
  foldl (λ max v, Some (match max with None => v | Some m => Z.max m v end)) None (omap hadoop_version names).

Definition max_hadoop_version (c : FsCatalog) (t : TableIdent) : op (option Z) :=
  Ask (ReadDir (metadata_dir c t)) (λ r,
    match r with
    | Err _ => Ret (Ok None)
    | Ok names => Ret (Ok (max_version names))
    end).

Definition publish_hadoop_alias (c : FsCatalog) (t : TableIdent) (table_uri uuid_location : bytes) (version : Z) : op unit :=
  run? content := read_uri uuid_location in
  run? listed := max_hadoop_version c t in
  let passed := match listed with Some max => (version <=? max)%Z | None => false end in
  run? created := (if passed then Ret (Ok false)
                   else failing Unexpected id (PutIfAbsent (object_path c t (hadoop_rel version)) content)) in
  if (created : bool) then write_hint table_uri version
  else Ret (Err (ice_error CatalogCommitConflicts
         (str "Hadoop metadata v" ++ display_i32 version ++ str " already exists for " ++ show_table t))).

Definition read_hint_version (c : FsCatalog) (t : TableIdent) : op (option Z) :=
  run? listed := max_hadoop_version c t in
  let hint := hint_uri (table_uri c t) in
  run? there := uri_exists hint in
  if negb there then Ret (Ok listed)
  else
    run? content := read_uri hint in
    run? text := Ret (map_err (ice_error DataInvalid) (from_utf8 content)) in
    match parse_i32 (trim text) with
    | Some hinted => Ret (Ok (Some (match listed with Some listed => Z.max listed hinted | None => hinted end)))
    | None => Ret (Err (ice_error DataInvalid (str "version-hint " ++ trim text ++ str ": " ++ parse_error (trim text))))
    end.

Definition uuid_metadata_version (location : bytes) : result IceError Z :=
  let name := match rsplit_once x2f location with Some (_, name) => name | None => location end in
  let? '(ver, _) := ok_or (ice_error DataInvalid (str "not an iceberg-rust metadata location: " ++ location))
                      (stem ← strip_suffix (str ".metadata.json") name; split_once x2d stem) in
  ok_or (ice_error DataInvalid (ver ++ str ": " ++ parse_error ver)) (parse_i32 ver).

(** ** Loading *)

Definition cached_read (c : FsCatalog) (location : bytes) : op M :=
  run? hit := ask (CacheGet (fc_client c) location) in
  match hit with
  | Some hit => Ret (Ok (cm_metadata hit))
  | None =>
      run? content := read_uri location in
      run? md := Ret (map_err (ice_error DataInvalid) (deserialize content)) in
      ask (CacheInsert (fc_client c) location {| cm_location := location; cm_metadata := md |}) ;&
      Ret (Ok md)
  end.

Definition table_from_uuid (c : FsCatalog) (t : TableIdent) (uuid_location : bytes) : op (Table M) :=
  run? md := cached_read c uuid_location in
  Ret (Ok {| tb_ident := t; tb_location := uuid_location; tb_metadata := md |}).

Definition hadoop_alias_key (c : FsCatalog) (t : TableIdent) (version : Z) : op (option bytes) :=
  let path := path_join (metadata_dir c t) (hadoop_rel version) in
  run? (stat : option (N * N)) := ask (Stat path) in
  Ret (Ok ((λ s, path ++ str "#" ++ display_N s.1 ++ str "#" ++ display_N s.2) <$> stat)).

Definition remember_published (c : FsCatalog) (t : TableIdent) (version : Z) (uuid_location : bytes) (md : M) : op unit :=
  let entry := {| cm_location := uuid_location; cm_metadata := md |} in
  run? key := hadoop_alias_key c t version in
  match key with
  | Some key => ask (CacheInsert (fc_client c) key entry)
  | None => Ret (Ok tt)
  end ;&
  ask (CacheInsert (fc_client c) uuid_location entry).

(** The first file of the version that has the bytes of the alias. *)
Fixpoint matching_file (dir uri prefix content : bytes) (names : list bytes) : op (option bytes) :=
  match names with
  | [] => Ret (Ok None)
  | name :: names =>
      if starts_with name prefix && ends_with name (str ".metadata.json") then
        Ask (ReadFile (path_join dir name)) (λ r,
          if bool_decide (r = Ok content) then Ret (Ok (Some (uri ++ str "/metadata/" ++ name)))
          else matching_file dir uri prefix content names)
      else matching_file dir uri prefix content names
  end.

Definition uuid_location_for_version (c : FsCatalog) (t : TableIdent) (version : Z) : op bytes :=
  let dir := metadata_dir c t in
  let hadoop := path_join dir (hadoop_rel version) in
  run? content := failing TableNotFound (λ e, hadoop ++ str ": " ++ e) (ReadFile hadoop) in
  run? names := failing TableNotFound (λ e, str "metadata dir " ++ dir ++ str ": " ++ e) (ReadDir dir) in
  run? found := matching_file dir (table_uri c t) (display_05 version ++ [x2d]) content names in
  Ret (ok_or (ice_error TableNotFound
    (str "no iceberg-rust metadata matching Hadoop v" ++ display_i32 version ++ str " for " ++ show_table t)) found).

Definition load_table (c : FsCatalog) (t : TableIdent) : op (Table M) :=
  run? hinted := read_hint_version c t in
  match hinted with
  | None => Ret (Err (ice_error TableNotFound (show_table t)))
  | Some version =>
      run? alias := hadoop_alias_key c t version in
      run? hit := match alias with
                  | Some key => ask (CacheGet (fc_client c) key)
                  | None => Ret (Ok None)
                  end in
      match hit with
      | Some hit => Ret (Ok {| tb_ident := t; tb_location := cm_location hit; tb_metadata := cm_metadata hit |})
      | None =>
          run? uuid_location := uuid_location_for_version c t version in
          run? loaded := table_from_uuid c t uuid_location in
          match alias with
          | Some key => ask (CacheInsert (fc_client c) key {| cm_location := uuid_location; cm_metadata := tb_metadata loaded |})
          | None => Ret (Ok tt)
          end ;&
          Ret (Ok loaded)
      end
  end.

(** ** Namespaces *)

Definition namespace_exists (c : FsCatalog) (ns : NamespaceIdent) : op bool := ask (IsDir (ns_fs c ns)).

Definition get_namespace (c : FsCatalog) (ns : NamespaceIdent) : op (NamespaceIdent * gmap bytes bytes) :=
  run? there := namespace_exists c ns in
  if negb there then Ret (Err (ice_error NamespaceNotFound (show_namespace ns))) else Ret (Ok (ns, ∅)).

Definition create_namespace (c : FsCatalog) (ns : NamespaceIdent) (properties : gmap bytes bytes) : op (NamespaceIdent * gmap bytes bytes) :=
  let path := ns_fs c ns in
  run? there := ask (PathExists path) in
  if (there : bool) then Ret (Err (ice_error NamespaceAlreadyExists (show_namespace ns)))
  else failing Unexpected (λ e, str "create namespace: " ++ e) (CreateDirAll path) ;& Ret (Ok (ns, properties)).

Definition update_namespace (_ : FsCatalog) (_ : NamespaceIdent) (_ : gmap bytes bytes) : op unit :=
  Ret (Err (ice_error FeatureUnsupported (str "FsCatalog does not store namespace properties"))).

Definition drop_namespace (c : FsCatalog) (ns : NamespaceIdent) : op unit :=
  let path := ns_fs c ns in
  run? there := ask (IsDir path) in
  if negb there then Ret (Err (ice_error NamespaceNotFound (show_namespace ns)))
  else failing Unexpected id (RemoveDirAll path).

(** The directories among the entries. *)
Fixpoint list_dirs (dir : bytes) (parent : option NamespaceIdent) (names : list bytes) : op (list NamespaceIdent) :=
  match names with
  | [] => Ret (Ok [])
  | name :: names =>
      run? is_dir := ask (IsDir (path_join dir name)) in
      if negb is_dir || bool_decide (name = str "metadata") then list_dirs dir parent names
      else run? rest := list_dirs dir parent names in Ret (Ok ((default [] parent ++ [name]) :: rest))
  end.

Definition list_namespaces (c : FsCatalog) (parent : option NamespaceIdent) : op (list NamespaceIdent) :=
  let dir := match parent with None => fc_warehouse_fs c | Some ns => ns_fs c ns end in
  Ask (ReadDir dir) (λ r,
    match r with
    | Err _ => Ret (Ok [])
    | Ok names => list_dirs dir parent names
    end).

(** ** Tables *)

Definition table_exists (c : FsCatalog) (t : TableIdent) : op bool :=
  run? v := max_hadoop_version c t in Ret (Ok (bool_decide (is_Some v))).

Fixpoint list_versions (c : FsCatalog) (ns : NamespaceIdent) (names : list bytes) : op (list TableIdent) :=
  match names with
  | [] => Ret (Ok [])
  | name :: names =>
      let ident := {| ti_namespace := ns; ti_name := name |} in
      run? there := table_exists c ident in
      run? rest := list_versions c ns names in
      Ret (Ok (if there : bool then ident :: rest else rest))
  end.

Definition list_tables (c : FsCatalog) (ns : NamespaceIdent) : op (list TableIdent) :=
  Ask (ReadDir (ns_fs c ns)) (λ r,
    match r with
    | Err _ => Ret (Ok [])
    | Ok names => list_versions c ns names
    end).

Definition create_table (c : FsCatalog) (ns : NamespaceIdent) (creation : Creation) : op (Table M) :=
  let ident := {| ti_namespace := ns; ti_name := creation_name creation |} in
  run? there := table_exists c ident in
  if (there : bool) then Ret (Err (ice_error TableAlreadyExists (show_table ident)))
  else
    run? ns_there := namespace_exists c ns in
    if negb ns_there then Ret (Err (ice_error NamespaceNotFound (show_namespace ns)))
    else
      let location := default (table_uri c ident) (creation_location creation) in
      run? md := Ret (from_table_creation creation location) in
      run? uuid := ask NewUuid in
      let uuid_location := metadata_location (location ++ str "/metadata") (str "00000") uuid in
      write_metadata uuid_location md ;&
      run? version := Ret (uuid_metadata_version uuid_location) in
      publish_hadoop_alias c ident location uuid_location version ;&
      table_from_uuid c ident uuid_location.

Definition drop_table (c : FsCatalog) (t : TableIdent) : op unit :=
  run? there := table_exists c t in
  if negb there then Ret (Err (ice_error TableNotFound (show_table t)))
  else
    ask (CacheRemovePrefix (fc_client c) (metadata_dir c t)) ;&
    failing Unexpected id (RemoveDirAll (table_fs c t)).

Definition rename_table (_ : FsCatalog) (_ _ : TableIdent) : op unit :=
  Ret (Err (ice_error FeatureUnsupported (str "FsCatalog does not rename tables"))).

Definition register_table (_ : FsCatalog) (_ : TableIdent) (_ : bytes) : op (Table M) :=
  Ret (Err (ice_error FeatureUnsupported (str "FsCatalog does not register external tables"))).

(** ** Commits *)

(** The locations whose files were deleted. *)
Fixpoint delete_superseded (locations : list bytes) : op (list bytes) :=
  match locations with
  | [] => Ret (Ok [])
  | location :: locations =>
      pcase (delete_uri location) (λ r,
        run? rest := delete_superseded locations in
        Ret (Ok (if is_ok r then location :: rest else rest)))
  end.

Definition delete_alias (c : FsCatalog) (t : TableIdent) (location : bytes) : op unit :=
  match uuid_metadata_version location with
  | Ok old => Ask (RemoveFile (object_path c t (hadoop_rel old))) (λ _, Ret (Ok tt))
  | Err _ => Ret (Ok tt)
  end.

Definition update_table (c : FsCatalog) (commit : Commit) : op (Table M) :=
  let ident := commit_ident commit in
  run? current := load_table c ident in
  run? uuid := ask NewUuid in
  run? staged := Ret (commit_apply commit current uuid) in
  let uuid_location := tb_location staged in
  write_metadata uuid_location (tb_metadata staged) ;&
  run? version := Ret (uuid_metadata_version uuid_location) in
  publish_hadoop_alias c ident (meta_location (tb_metadata staged)) uuid_location version ;&
  remember_published c ident version uuid_location (tb_metadata staged) ;&
  run? superseded := delete_superseded
    (superseded_metadata_locations (tb_metadata current) (tb_location current) (tb_metadata staged) uuid_location) in
  pfor (delete_alias c ident) superseded ;&
  Ret (Ok staged).
End Fs.

(** ** A file system to run the catalog on *)

Module FsExample.

(** The commits in a table and the locations of its earlier metadata. *)
Definition meta : Type := list bytes * list bytes.

(** Metadata of the latest version before the current is kept, older files are deleted. *)
Definition next_version (location : bytes) : bytes :=
  default (str "00000") (
    '(_, name) ← rsplit_once x2f location; '(ver, _) ← split_once x2d name; v ← parse_i32 ver; Some (display_05 (v + 1))).

#[local] Instance fs_lib : IcebergLib meta bytes (TableIdent * bytes) := {|
  iceberg_metadata := {|
    meta_properties _ := {[ DELETE_AFTER_COMMIT := str "true" ]}; meta_log md := md.2;
    meta_location _ := str "file:///w/n/a"; meta_uuid _ := str "u" |};
  creation_name := id; creation_location _ := None;
  from_table_creation name _ := Ok ([], []);
  commit_ident := fst;
  commit_apply c t uuid := Ok {|
    tb_ident := tb_ident t; tb_location := metadata_location (str "file:///w/n/a/metadata") (next_version (tb_location t)) uuid;
    tb_metadata := ((tb_metadata t).1 ++ [c.2], [tb_location t]) |};
  show_namespace := join x2e; show_table t := ti_name t;
  props_to_json _ := str "{}"; props_from_json _ := Some ∅; parse_error _ := str "invalid digit"
|}.

#[local] Instance fs_codec : Codec meta := countable_codec.

Definition cat (client : N) : FsCatalog := {| fc_warehouse_uri := str "file:///w"; fc_warehouse_fs := str "/w"; fc_client := client |}.
Definition tbl : TableIdent := {| ti_namespace := [str "n"]; ti_name := str "a" |}.

Definition no_faults (_ : N) : option bool := None.
Notation handler := (λ _ : nat, handle no_faults (λ l, l) display_N (str "io")).

Definition empty_fs : FsWorld :=
  {| w_fs := {| fs_files := ∅; fs_dirs := {[ str "/w" ]}; fs_clock := 0; fs_next := 0 |}; w_caches := (∅ : gmap N (MetadataCache meta)) |}.

Definition with_table : FsWorld :=
  (run handler 0 (create_table (λ p, p) (cat 0) [str "n"] (str "a"))
     (run handler 0 (create_namespace (cat 0) [str "n"] ∅) empty_fs).2).2.

Definition commit (tag : bytes) : TableIdent * bytes := (tbl, tag).
Definition update (client : N) (tag : bytes) : prog FsRequest IceError (Table meta) := update_table (λ p, p) (cat client) (commit tag).

Definition result_of {A} (p : prog (@FsRequest meta) IceError A) : option (result IceError A) :=
  match p with Ret r => Some r | Ask _ _ => None end.

Definition load (client : N) (w : FsWorld) : result IceError (Table meta) := (run handler 0 (load_table (cat client) tbl) w).1.

(** *** A commit that is lost *)

(** One client has looked for a newer version and is about to create version 1; others commit
    versions 1, 2 and 3 meanwhile. *)
Definition raced := interleave handler (replicate 17 0 ++ replicate 40 1 ++ replicate 40 2 ++ replicate 40 3 ++ replicate 40 0)
  [update 1 (str "slow"); update 2 (str "x"); update 3 (str "y"); update 4 (str "z")] with_table.

Definition tags (r : option (result IceError (Table meta))) : option (list bytes) :=
  match r with Some (Ok t) => Some (tb_metadata t).1 | _ => None end.

Definition hint_of (w : FsWorld (M := meta)) : option bytes := fst <$> fs_files (w_fs w) !! str "/w/n/a/metadata/version-hint.text".


(** *** A table that cannot be loaded for a moment *)

(** The alias of version 1 is there; the hint has been emptied and is not filled yet. *)
Definition halfway := interleave handler (replicate 19 0) [update 1 (str "x")] with_table.

(** The hint is written in place: it is empty before it is filled.  A load in between fails on the
    empty text, although the listed aliases would give the version. *)
Theorem empty_hint_fails_load :
  hint_of halfway.2 = Some [] ∧
  (run handler 0 (max_hadoop_version (M := meta) (cat 5) tbl) halfway.2).1 = Ok (Some 1%Z) ∧
  load 5 halfway.2 = Err (ice_error DataInvalid (str "version-hint : invalid digit")).
Proof. split_and!; vm_compute; reflexivity. Qed.
End FsExample.
