(* ===== verification/Sql.v ===== *)
(** * Sql: the statements that the sinks run in a warehouse

    A small fragment of SQL, the one the CDC apply code writes: rows with nulls, three-valued
    conditions, [MERGE], guarded deletes and updates, temporary tables and the ranking query.
    [print_stmt] is the text of a statement, [exec] what a warehouse does for it; [exec] returns
    [None] where the warehouse fails the statement (a missing table, a row that several source rows
    match).  Lemmas: a statement that matches on key columns acts on each key by itself. *)

From S2P Require Import Prelude Bytes Text Io Codec.

Definition nl : bytes := [x0a].
Definition comma : bytes := str ", ".

(** An identifier as it is written and the name it stands for. *)
Record Ident : Type := { id_text : bytes; id_name : bytes }.

(** ** Syntax *)

Section Syntax.
Context {V : Type}.

Inductive Expr : Type :=
| Col (qualifier : option bytes) (i : Ident)
(** A literal and the value it denotes. *)
| Lit (text : bytes) (v : option V).

Inductive Cond : Type :=
| Match (eqs : list (Expr * Expr))
| Below (a b : Expr)
| AtLeast (a b : Expr)
| IsNull (a : Expr)
| And (c d : Cond)
| Or (c d : Cond)
| NotExists (tbl : bytes) (alias : option bytes) (c : Cond).

Inductive Source : Type :=
| Values (cols : list (Expr * Ident)) (where_ : option Cond)
| Rows (tbl : bytes) (alias : option bytes) (where_ : Cond).

Inductive Action : Type := SetAll (sets : list (Ident * Expr)) | Remove.

Record Insertion : Type := { ins_cols : list Ident; ins_vals : list Expr }.

(** The white space before [THEN], after [NOT MATCHED] and before [VALUES]. *)
Record Layout : Type := { before_then : bytes; after_not_matched : bytes; before_values : bytes }.

Inductive Stmt : Type :=
| Merge (keyword tbl alias : bytes) (src : Source) (src_alias : bytes) (on : Cond) (when_ : Cond) (act : Action)
    (ins : option Insertion) (layout : Layout)
| DeleteFrom (tbl : bytes) (where_ : Cond)
| DeleteUsing (tbl alias src src_alias : bytes) (where_ : Cond)
| UpdateFrom (tbl alias : bytes) (sets : list (Ident * Expr)) (src src_alias : bytes) (where_ : Cond)
| InsertSelect (tbl : bytes) (ins : Insertion) (src src_alias : bytes) (where_ : Cond)
| CreateTemp (text tbl : bytes)
| InsertValues (tbl : bytes) (cols : list Ident) (values : list (list Expr))
(** The first row of each partition, by token descending and ordinal ascending. *)
| CreateRanked (prefix tbl : bytes) (projection keys : list Ident) (token ordinal rank : Ident) (stage : bytes)
| DropIfExists (tbl : bytes).
End Syntax.
Arguments Expr : clear implicits.
Arguments Cond : clear implicits.
Arguments Source : clear implicits.
Arguments Action : clear implicits.
Arguments Insertion : clear implicits.
Arguments Stmt : clear implicits.

(** ** Text *)

Section Text.
Context {V : Type}.

Definition print_expr (e : Expr V) : bytes :=
  match e with
  | Col (Some q) i => q ++ x2e :: id_text i
  | Col None i => id_text i
  | Lit text _ => text
  end.

Definition print_eq (e : Expr V * Expr V) : bytes := print_expr e.1 ++ str " = " ++ print_expr e.2.

Definition print_table (tbl : bytes) (alias : option bytes) : bytes :=
  tbl ++ match alias with Some a => str " AS " ++ a | None => [] end.

Fixpoint print_cond (c : Cond V) : bytes :=
  match c with
  | Match eqs => joins (str " AND ") (print_eq <$> eqs)
  | Below a b => print_expr a ++ str " < " ++ print_expr b
  | AtLeast a b => print_expr a ++ str " >= " ++ print_expr b
  | IsNull a => print_expr a ++ str " IS NULL"
  | And c d => print_cond c ++ nl ++ str "AND " ++ print_cond d
  | Or c d => str "(" ++ nl ++ print_cond c ++ nl ++ str "OR " ++ print_cond d ++ nl ++ str ")"
  | NotExists tbl alias c =>
      str "NOT EXISTS (" ++ nl ++ str "SELECT 1 FROM " ++ print_table tbl alias ++ nl ++ str "WHERE " ++ print_cond c ++ nl ++ str ")"
  end.

Definition print_as (e : Expr V * Ident) : bytes := print_expr e.1 ++ str " AS " ++ id_text e.2.

Definition print_source (s : Source V) : bytes :=
  match s with
  | Values cols where_ =>
      str "SELECT " ++ joins comma (print_as <$> cols)
      ++ match where_ with Some c => nl ++ str "WHERE " ++ print_cond c | None => [] end
  | Rows tbl (Some a) c => str "SELECT " ++ a ++ str ".*" ++ nl ++ str "FROM " ++ tbl ++ str " AS " ++ a ++ nl ++ str "WHERE " ++ print_cond c
  | Rows tbl None c => str "SELECT * FROM " ++ tbl ++ str " WHERE " ++ print_cond c
  end.

Definition print_set (s : Ident * Expr V) : bytes := id_text s.1 ++ str " = " ++ print_expr s.2.

Definition print_action (a : Action V) : bytes :=
  match a with
  | SetAll sets => str "UPDATE SET " ++ joins comma (print_set <$> sets)
  | Remove => str "DELETE"
  end.

Definition paren (parts : list bytes) : bytes := str "(" ++ joins comma parts ++ str ")".

Definition print_ranked (projection keys : list Ident) (token ordinal rank : Ident) (stage : bytes) : bytes :=
  str "SELECT " ++ joins comma ((λ i, str "ranked." ++ id_text i) <$> projection) ++ nl
  ++ str "FROM (" ++ nl
  ++ str "SELECT stage.*," ++ nl
  ++ str "ROW_NUMBER() OVER (" ++ nl
  ++ str "PARTITION BY " ++ joins comma ((λ i, str "stage." ++ id_text i) <$> keys) ++ nl
  ++ str "ORDER BY stage." ++ id_text token ++ str " DESC, stage." ++ id_text ordinal ++ str " ASC" ++ nl
  ++ str ") AS " ++ id_text rank ++ nl
  ++ str "FROM " ++ stage ++ str " AS stage" ++ nl
  ++ str ") AS ranked" ++ nl
  ++ str "WHERE ranked." ++ id_text rank ++ str " = 1".

Definition print_stmt (s : Stmt V) : bytes :=
  match s with
  | Merge keyword tbl alias src src_alias on when_ act ins l =>
      keyword ++ str " " ++ tbl ++ str " AS " ++ alias ++ nl
      ++ str "USING (" ++ print_source src ++ str ") AS " ++ src_alias ++ nl
      ++ str "ON " ++ print_cond on ++ nl
      ++ str "WHEN MATCHED AND " ++ print_cond when_ ++ before_then l ++ str "THEN " ++ print_action act
      ++ match ins with
         | Some i => nl ++ str "WHEN NOT MATCHED" ++ after_not_matched l ++ str "THEN INSERT " ++ paren (id_text <$> ins_cols i)
                     ++ before_values l ++ str "VALUES " ++ paren (print_expr <$> ins_vals i)
         | None => []
         end ++ str ";"
  | DeleteFrom tbl c => str "DELETE FROM " ++ tbl ++ nl ++ str "WHERE " ++ print_cond c ++ str ";"
  | DeleteUsing tbl alias src src_alias c =>
      str "DELETE FROM " ++ tbl ++ str " AS " ++ alias ++ nl ++ str "USING " ++ src ++ str " AS " ++ src_alias ++ nl
      ++ str "WHERE " ++ print_cond c ++ str ";"
  | UpdateFrom tbl alias sets src src_alias c =>
      str "UPDATE " ++ tbl ++ str " AS " ++ alias ++ nl ++ str "SET " ++ joins comma (print_set <$> sets) ++ nl
      ++ str "FROM " ++ src ++ str " AS " ++ src_alias ++ nl ++ str "WHERE " ++ print_cond c ++ str ";"
  | InsertSelect tbl i src src_alias c =>
      str "INSERT INTO " ++ tbl ++ str " " ++ paren (id_text <$> ins_cols i) ++ nl
      ++ str "SELECT " ++ joins comma (print_expr <$> ins_vals i) ++ nl
      ++ str "FROM " ++ src ++ str " AS " ++ src_alias ++ nl ++ str "WHERE " ++ print_cond c ++ str ";"
  | CreateTemp text _ => text
  | InsertValues tbl cols values =>
      str "INSERT INTO " ++ tbl ++ str " " ++ paren (id_text <$> cols) ++ str " VALUES" ++ nl
      ++ joins (str "," ++ nl) ((λ vs, paren (print_expr <$> vs)) <$> values) ++ str ";"
  | CreateRanked prefix _ projection keys token ordinal rank stage => prefix ++ print_ranked projection keys token ordinal rank stage ++ str ";"
  | DropIfExists tbl => str "DROP TABLE IF EXISTS " ++ tbl ++ str ";"
  end.
End Text.

(** ** Meaning *)

Class SqlOrder (V : Type) : Type := { sql_eq_dec :: EqDecision V; v_lt : V → V → bool }.

Section Meaning.
Context {V : Type} {SO : SqlOrder V}.

(** A column that is absent is null. *)
Notation row := (gmap bytes V).
Notation table := (list row).
Notation db := (gmap bytes table).
Notation env := (list (bytes * row)).

Fixpoint env_row (q : bytes) (e : env) : option row :=
  match e with
  | [] => None
  | (q', r) :: e => if decide (q = q') then Some r else env_row q e
  end.

Definition eval_expr (e : env) (x : Expr V) : option V :=
  match x with
  | Lit _ v => v
  | Col (Some q) i => r ← env_row q e; r !! id_name i
  | Col None i => '(_, r) ← head e; r !! id_name i
  end.

(** Truth values: [None] is unknown. *)
Definition and3 (a b : option bool) : option bool :=
  match a, b with
  | Some false, _ | _, Some false => Some false
  | Some true, Some true => Some true
  | _, _ => None
  end.
Definition or3 (a b : option bool) : option bool :=
  match a, b with
  | Some true, _ | _, Some true => Some true
  | Some false, Some false => Some false
  | _, _ => None
  end.

Definition compare3 (f : V → V → bool) (a b : option V) : option bool :=
  match a, b with Some x, Some y => Some (f x y) | _, _ => None end.

Definition is_true3 (t : option bool) : bool := match t with Some true => true | _ => false end.

Fixpoint eval_cond (d : db) (e : env) (c : Cond V) : option bool :=
  match c with
  | Match eqs => foldr (λ ab, and3 (compare3 (λ x y, bool_decide (x = y)) (eval_expr e ab.1) (eval_expr e ab.2))) (Some true) eqs
  | Below a b => compare3 v_lt (eval_expr e a) (eval_expr e b)
  | AtLeast a b => compare3 (λ x y, negb (v_lt x y)) (eval_expr e a) (eval_expr e b)
  | IsNull a => Some (bool_decide (eval_expr e a = None))
  | And c d' => and3 (eval_cond d e c) (eval_cond d e d')
  | Or c d' => or3 (eval_cond d e c) (eval_cond d e d')
  | NotExists tbl alias c =>
      Some (forallb (λ r, negb (is_true3 (eval_cond d ((default tbl alias, r) :: e) c))) (default [] (d !! tbl)))
  end.

Definition holds (d : db) (e : env) (c : Cond V) : bool := is_true3 (eval_cond d e c).

Definition assign (r : row) (name : bytes) (v : option V) : row :=
  match v with Some v => <[name := v]> r | None => delete name r end.

Definition apply_sets (e : env) (sets : list (Ident * Expr V)) (r : row) : row :=
  foldl (λ r s, assign r (id_name s.1) (eval_expr e s.2)) r sets.

Definition new_row (e : env) (i : Insertion V) : row :=
  foldl (λ r s, assign r (id_name s.1) (eval_expr e s.2)) ∅ (zip (ins_cols i) (ins_vals i)).

Definition source_rows (d : db) (s : Source V) : table :=
  match s with
  | Values cols where_ =>
      if match where_ with Some c => holds d [] c | None => true end
      then [foldl (λ r s, assign r (id_name s.2) (eval_expr [] s.1)) ∅ cols] else []
  | Rows tbl alias c => filter (λ r, holds d [(default tbl alias, r)] c = true) (default [] (d !! tbl))
  end.

(** What becomes of a row of the table; [None] when several rows of the source match it. *)
Definition act_on (pairs : row → row → bool) (change : row → row → option row) (src : table) (r : row) : option (option row) :=
  match filter (λ s, pairs r s = true) src with
  | [] => Some (Some r)
  | [s] => Some (change r s)
  | _ => None
  end.

Definition acted (d : db) (alias src_alias : bytes) (when_ : Cond V) (act : Action V) (r s : row) : option row :=
  let e := [(alias, r); (src_alias, s)] in
  if holds d e when_ then match act with SetAll sets => Some (apply_sets e sets r) | Remove => None end else Some r.

(** Rows of the source that no row of the table matches. *)
Definition unmatched (pairs : row → row → bool) (t src : table) : table :=
  filter (λ s, existsb (λ r, pairs r s) t = false) src.

Fixpoint cond_tables (c : Cond V) : list bytes :=
  match c with
  | And c d | Or c d => cond_tables c ++ cond_tables d
  | NotExists tbl _ c => tbl :: cond_tables c
  | _ => []
  end.

Definition source_tables (s : Source V) : list bytes :=
  match s with
  | Values _ where_ => match where_ with Some c => cond_tables c | None => [] end
  | Rows tbl _ c => tbl :: cond_tables c
  end.

(** The tables that a statement reads or changes and that must be there. *)
Definition stmt_tables (s : Stmt V) : list bytes :=
  match s with
  | Merge _ tbl _ src _ on when_ _ _ _ => tbl :: source_tables src ++ cond_tables on ++ cond_tables when_
  | DeleteFrom tbl c => tbl :: cond_tables c
  | DeleteUsing tbl _ src _ c | UpdateFrom tbl _ _ src _ c | InsertSelect tbl _ src _ c => tbl :: src :: cond_tables c
  | InsertValues tbl _ _ => [tbl]
  | CreateRanked _ _ _ _ _ _ _ stage => [stage]
  | CreateTemp _ _ | DropIfExists _ => []
  end.

Definition rows_of (d : db) (tbl : bytes) : table := default [] (d !! tbl).

Definition partition_of (keys : list Ident) (r : row) : list (option V) := (λ i, r !! id_name i) <$> keys.

(** Whether a row comes before another: the token descending (nulls last), then the ordinal. *)
Definition ranks_before (token ordinal : Ident) (r r' : row) : bool :=
  match r !! id_name token, r' !! id_name token with
  | Some a, Some b =>
      if v_lt b a then true else if v_lt a b then false
      else is_true3 (compare3 v_lt (r !! id_name ordinal) (r' !! id_name ordinal))
  | Some _, None => true
  | None, Some _ => false
  | None, None => is_true3 (compare3 v_lt (r !! id_name ordinal) (r' !! id_name ordinal))
  end.

Definition ranked_first (keys : list Ident) (token ordinal : Ident) (t : table) : table :=
  filter (λ r, forallb (λ r', negb (bool_decide (partition_of keys r' = partition_of keys r) && ranks_before token ordinal r' r)) t = true) t.

Definition project (projection : list Ident) (r : row) : row :=
  foldl (λ acc i, assign acc (id_name i) (r !! id_name i)) ∅ projection.

Definition exec (s : Stmt V) (d : db) : option db :=
  if bool_decide (Forall (λ tbl, is_Some (d !! tbl)) (stmt_tables s)) then
    match s with
    | Merge _ tbl alias src src_alias on when_ act ins _ =>
        let t := rows_of d tbl in
        let s := source_rows d src in
        let pairs := λ r s, holds d [(alias, r); (src_alias, s)] on in
        kept ← mapM (act_on pairs (acted d alias src_alias when_ act) s) t;
        let added := match ins with Some i => (λ s, new_row [(src_alias, s)] i) <$> unmatched pairs t s | None => [] end in
        Some (<[tbl := omap id kept ++ added]> d)
    | DeleteFrom tbl c => Some (<[tbl := filter (λ r, holds d [(tbl, r)] c = false) (rows_of d tbl)]> d)
    | DeleteUsing tbl alias src src_alias c =>
        Some (<[tbl := filter (λ r, existsb (λ s, holds d [(alias, r); (src_alias, s)] c) (rows_of d src) = false) (rows_of d tbl)]> d)
    | UpdateFrom tbl alias sets src src_alias c =>
        let pairs := λ r s, holds d [(alias, r); (src_alias, s)] c in
        kept ← mapM (act_on pairs (λ r s, Some (apply_sets [(alias, r); (src_alias, s)] sets r)) (rows_of d src)) (rows_of d tbl);
        Some (<[tbl := omap id kept]> d)
    | InsertSelect tbl ins src src_alias c =>
        Some (<[tbl := rows_of d tbl ++
          ((λ s, new_row [(src_alias, s)] ins) <$> filter (λ s, holds d [(src_alias, s)] c = true) (rows_of d src))]> d)
    | CreateTemp _ tbl => match d !! tbl with None => Some (<[tbl := []]> d) | Some _ => None end
    | InsertValues tbl cols values =>
        Some (<[tbl := rows_of d tbl ++ ((λ vs, new_row [] {| ins_cols := cols; ins_vals := vs |}) <$> values)]> d)
    | CreateRanked _ tbl projection keys token ordinal _ stage =>
        match d !! tbl with
        | None => Some (<[tbl := project projection <$> ranked_first keys token ordinal (rows_of d stage)]> d)
        | Some _ => None
        end
    | DropIfExists tbl => Some (delete tbl d)
    end
  else None.

(** Statements of one transaction: all of them take effect, or none. *)
Fixpoint exec_all (ss : list (Stmt V)) (d : db) : option db :=
  match ss with
  | [] => Some d
  | s :: ss => d' ← exec s d; exec_all ss d'
  end.

Definition transact (ss : list (Stmt V)) (d : db) : db := default d (exec_all ss d).
End Meaning.

(** ** Tables by key *)

Section Keys.
Context {V : Type} {SO : SqlOrder V}.
Notation row := (gmap bytes V).
Notation table := (list row).
(** The key columns. *)
Context (K : list bytes).

(** The key of a row; [None] when a key column is null. *)
Definition key_of (r : row) : option (list V) := mapM (λ c, r !! c) K.

Definition slice (k : list V) (t : table) : table := filter (λ r, key_of r = Some k) t.
Definition at_key (k : list V) (t : table) : option row := head (slice k t).

(** No two rows have the same key; rows with a null in their key are not restricted. *)
Definition unique (t : table) : Prop := ∀ k, length (slice k t) ≤ 1.

Lemma key_slice_app k t t' : slice k (t ++ t') = slice k t ++ slice k t'.
Proof. apply filter_app. Qed.

Lemma unique_nil : unique [].
Proof. intros k. cbn. lia. Qed.

Lemma elem_of_slice k t r : r ∈ slice k t ↔ r ∈ t ∧ key_of r = Some k.
Proof. unfold slice. rewrite list_elem_of_filter. tauto. Qed.

Lemma slice_at (k : list V) t : unique t → slice k t = option_list (at_key k t).
Proof.
  intros Hu. unfold at_key. specialize (Hu k). destruct (slice k t) as [|r [|r' t']]; [done..|]. cbn in Hu. lia.
Qed.

Lemma at_key_Some k t r : unique t → at_key k t = Some r ↔ r ∈ t ∧ key_of r = Some k.
Proof.
  intros Hu. rewrite <- elem_of_slice, (slice_at _ _ Hu). destruct (at_key k t) as [r'|]; cbn.
  - rewrite list_elem_of_singleton. split; [by intros [= ->]|by intros ->].
  - rewrite elem_of_nil. naive_solver.
Qed.

Lemma at_key_key k t r : at_key k t = Some r → key_of r = Some k.
Proof.
  unfold at_key. destruct (slice k t) as [|r' t'] eqn:E; [done|]. intros [= ->].
  assert (r ∈ slice k t) as Hr by (rewrite E; left). by apply elem_of_slice in Hr as [_ ?].
Qed.

Lemma at_slice (k : list V) t o : slice k t = option_list o → at_key k t = o.
Proof. unfold at_key. intros ->. by destruct o. Qed.

Lemma unique_of (f : list V → option row) t : (∀ k, slice k t = option_list (f k)) → unique t ∧ ∀ k, at_key k t = f k.
Proof. intros H. split; [intros k; rewrite H; destruct (f k); cbn; lia|intros k; by apply at_slice]. Qed.

Lemma at_key_app k t t' : at_key k (t ++ t') = match at_key k t with Some r => Some r | None => at_key k t' end.
Proof. unfold at_key. rewrite key_slice_app. by destruct (slice k t). Qed.

Lemma slice_filter (k : list V) (P : row → Prop) `{∀ r, Decision (P r)} (t : table) : slice k (filter P t) = filter P (slice k t).
Proof. unfold slice. rewrite !list_filter_filter. apply list_filter_iff. tauto. Qed.

Lemma unique_filter (P : row → Prop) `{∀ r, Decision (P r)} (t : table) : unique t → unique (filter P t).
Proof. intros Hu k. rewrite slice_filter. etrans; [apply length_filter|apply Hu]. Qed.

Lemma at_key_filter (k : list V) (P : row → Prop) `{∀ r, Decision (P r)} (t : table) : unique t →
  at_key k (filter P t) = r ← at_key k t; if decide (P r) then Some r else None.
Proof.
  intros Hu. apply at_slice. rewrite slice_filter, (slice_at _ _ Hu). destruct (at_key k t) as [r|]; cbn; [|done].
  by destruct (decide (P r)).
Qed.

Lemma slice_fmap (k : list V) (f : row → row) t : (∀ r, r ∈ t → key_of (f r) = key_of r) → slice k (f <$> t) = f <$> slice k t.
Proof.
  intros Hf. unfold slice. induction t as [|r t IH]; [done|]. rewrite fmap_cons, !filter_cons, (Hf r) by left.
  rewrite IH by (intros r' ?; apply Hf; by right). by destruct (decide _).
Qed.

Lemma slice_omap (k : list V) (f : row → option row) t : (∀ r r', r ∈ t → f r = Some r' → key_of r' = key_of r) →
  slice k (omap f t) = omap f (slice k t).
Proof.
  intros Hf. unfold slice. induction t as [|r t IH]; [done|]. cbn [omap list_omap].
  rewrite filter_cons. destruct (f r) as [r'|] eqn:E.
  - rewrite filter_cons, (Hf r r') by (done || left). rewrite IH by (intros ????; eapply Hf; [by right|done]).
    destruct (decide _); [|done]. cbn. by rewrite E.
  - rewrite IH by (intros ????; eapply Hf; [by right|done]). destruct (decide _); [|done]. cbn. by rewrite E.
Qed.

(** *** Changing the rows that a source matches *)

Section Pairs.
Context (pairs : row → row → bool) (change : row → row → option row).
Context (Hpairs : ∀ r s, pairs r s = true → is_Some (key_of r) ∧ key_of s = key_of r).
Context (Hchange : ∀ r s r', pairs r s = true → change r s = Some r' → key_of r' = key_of r).

(** The row of the source that a row of the table meets. *)
Definition partner (src : table) (r : row) : option row := head (filter (λ s, pairs r s = true) src).

Lemma filter_pairs r k src : key_of r = Some k → filter (λ s, pairs r s = true) src = filter (λ s, pairs r s = true) (slice k src).
Proof.
  intros Hr. unfold slice. rewrite list_filter_filter. apply list_filter_iff. intros s. split; [|tauto].
  intros Hs. split; [done|]. destruct (Hpairs r s Hs) as [_ ->]. done.
Qed.

Lemma filter_pairs_partner r src : unique src → filter (λ s, pairs r s = true) src = option_list (partner src r).
Proof.
  intros Hu. unfold partner. destruct (filter (λ s, pairs r s = true) src) as [|s l] eqn:E; [done|].
  assert (s ∈ filter (λ s, pairs r s = true) src) as Hs by (rewrite E; left).
  apply list_elem_of_filter in Hs as [Hs _]. destruct (Hpairs r s Hs) as [[k Hk] _].
  rewrite (filter_pairs _ _ _ Hk), (slice_at _ _ Hu) in E. destruct (at_key k src); cbn in E; [|done].
  case_decide; [|done]. by inversion E.
Qed.

Lemma partner_at r k src : unique src → key_of r = Some k →
  partner src r = s ← at_key k src; if pairs r s then Some s else None.
Proof.
  intros Hu Hr. unfold partner. rewrite (filter_pairs _ _ _ Hr), (slice_at _ _ Hu).
  destruct (at_key k src) as [s|]; cbn; [|done]. by destruct (pairs r s).
Qed.

Lemma partner_pairs r s src : partner src r = Some s → pairs r s = true.
Proof.
  unfold partner. destruct (filter (λ s, pairs r s = true) src) as [|s' l] eqn:E; [done|]. intros [= ->].
  assert (s ∈ filter (λ s, pairs r s = true) src) as Hs by (rewrite E; left). by apply list_elem_of_filter in Hs as [? _].
Qed.

Definition outcome (src : table) (r : row) : option row := match partner src r with Some s => change r s | None => Some r end.

Lemma mapM_act_on src t : unique src → mapM (act_on pairs change src) t = Some (outcome src <$> t).
Proof.
  intros Hu. apply mapM_Some, Forall2_fmap_r, Forall_Forall2_diag, Forall_forall. intros r _.
  unfold act_on, outcome, compose. rewrite filter_pairs_partner by done. by destruct (partner src r).
Qed.

Lemma omap_id_fmap {A B} (f : A → option B) (l : list A) : omap id (f <$> l) = omap f l.
Proof. induction l as [|a l IH]; [done|]. cbn. by rewrite IH. Qed.

Lemma outcome_key src r r' : outcome src r = Some r' → key_of r' = key_of r.
Proof.
  unfold outcome. destruct (partner src r) as [s|] eqn:E; [|by intros [= ->]]. apply Hchange. by eapply partner_pairs.
Qed.

Lemma slice_changed k src t : unique t → slice k (omap (outcome src) t) = option_list (at_key k t ≫= outcome src).
Proof.
  intros Hu. rewrite slice_omap by (intros ????; by eapply outcome_key). rewrite (slice_at _ _ Hu).
  destruct (at_key k t) as [r|]; cbn; [|done]. by destruct (outcome src r).
Qed.

(** *** Adding the rows of the source that nothing matches *)

Context (added : row → row) (Hadded : ∀ s, key_of (added s) = key_of s).

Lemma exists_pair k s t : unique t → key_of s = Some k →
  existsb (λ r, pairs r s) t = match at_key k t with Some r => pairs r s | None => false end.
Proof.
  intros Hu Hs. apply eq_bool_prop_intro. rewrite !Is_true_true, existsb_exists. split.
  - intros (r & Hr & Hp). destruct (Hpairs r s Hp) as [_ Hk].
    assert (at_key k t = Some r) as ->; [|done]. apply at_key_Some; [done|]. split; [by apply list_elem_of_In|congruence].
  - destruct (at_key k t) as [r|] eqn:E; [|done]. apply at_key_Some in E as [Hr _]; [|done]. intros Hp. exists r.
    split; [by apply list_elem_of_In|done].
Qed.

Lemma slice_added k t src : unique t → unique src →
  slice k (added <$> unmatched pairs t src) =
  option_list (s ← at_key k src; if match at_key k t with Some r => pairs r s | None => false end then None else Some (added s)).
Proof.
  intros Ht Hs. rewrite slice_fmap by done. unfold unmatched. rewrite slice_filter, (slice_at _ _ Hs).
  destruct (at_key k src) as [s|] eqn:E; cbn; [|done]. rewrite (exists_pair k) by (done || by eapply at_key_key).
  by destruct (match at_key k t with Some r => pairs r s | None => false end).
Qed.

(** The row at a key after both. *)
Definition joined (insert : bool) (ot os : option row) : option row :=
  match ot, os with
  | Some r, Some s => if pairs r s then change r s else Some r
  | Some r, None => Some r
  | None, Some s => if insert then Some (added s) else None
  | None, None => None
  end.

(** Matching on the key, with insertion of what is not matched. *)
Lemma merge_at t src : unique t → unique src → (∀ r s k, key_of r = Some k → key_of s = Some k → pairs r s = true) →
  unique (omap (outcome src) t ++ (added <$> unmatched pairs t src)) ∧
  ∀ k, at_key k (omap (outcome src) t ++ (added <$> unmatched pairs t src)) = joined true (at_key k t) (at_key k src).
Proof.
  intros Ht Hs Hall. apply unique_of. intros k. rewrite key_slice_app, slice_changed, slice_added by done.
  destruct (at_key k t) as [r|] eqn:Er; cbn [mbind option_bind option_list app joined].
  - pose proof (at_key_key _ _ _ Er) as Hr. unfold outcome. rewrite (partner_at r k) by done.
    destruct (at_key k src) as [s|] eqn:Es; cbn [mbind option_bind]; [|done].
    rewrite (Hall r s k) by (done || by eapply at_key_key). by rewrite app_nil_r.
  - by destruct (at_key k src).
Qed.

(** Changes alone. *)
Lemma change_at t src : unique t → unique src →
  unique (omap (outcome src) t) ∧ ∀ k, at_key k (omap (outcome src) t) = joined false (at_key k t) (at_key k src).
Proof.
  intros Ht Hs. apply unique_of. intros k. rewrite slice_changed by done.
  destruct (at_key k t) as [r|] eqn:Er; cbn [mbind option_bind joined]; [|by destruct (at_key k src)].
  unfold outcome. rewrite (partner_at r k) by (done || by eapply at_key_key).
  destruct (at_key k src) as [s|]; cbn [mbind option_bind]; [|done]. by destruct (pairs r s).
Qed.
End Pairs.
End Keys.

(** ** Evaluation *)

Section Evaluation.
Context {V : Type} {SO : SqlOrder V}.
Notation row := (gmap bytes V).
Notation table := (list row).
Notation db := (gmap bytes table).

(** The assignments of a list of names and values. *)
Definition assigns (r : row) (l : list (bytes * option V)) : row := foldl (λ r nv, assign r nv.1 nv.2) r l.

Lemma lookup_assign (r : row) (n : bytes) v n' : assign r n v !! n' = if decide (n = n') then v else r !! n'.
Proof. destruct v; cbn; case_decide; subst; by simplify_map_eq. Qed.

Lemma lookup_assigns_out (l : list (bytes * option V)) (r : row) (n : bytes) : n ∉ l.*1 → assigns r l !! n = r !! n.
Proof.
  revert r. induction l as [|[n' v] l IH]; intros r Hn; [done|]. cbn in *. rewrite not_elem_of_cons in Hn. destruct Hn as [Hne Hn].
  unfold assigns in *. cbn. rewrite (IH (assign r n' v) Hn). rewrite lookup_assign. by rewrite decide_False by congruence.
Qed.

Lemma lookup_assigns (l : list (bytes * option V)) (r : row) (n : bytes) v : NoDup l.*1 → (n, v) ∈ l → assigns r l !! n = v.
Proof.
  revert r. induction l as [|[n' v'] l IH]; intros r Hnd Hin; [by apply elem_of_nil in Hin|].
  cbn in Hnd. apply NoDup_cons in Hnd as [Hn Hnd]. apply elem_of_cons in Hin as [[= -> ->]|Hin].
  - unfold assigns. cbn. fold (assigns (assign r n' v') l). rewrite lookup_assigns_out by done. by rewrite lookup_assign, decide_True.
  - by apply IH.
Qed.

Lemma apply_sets_assigns e (sets : list (Ident * Expr V)) r : apply_sets e sets r = assigns r ((λ s, (id_name s.1, eval_expr e s.2)) <$> sets).
Proof. unfold apply_sets, assigns. by rewrite foldl_fmap. Qed.

Lemma new_row_assigns e (i : Insertion V) :
  new_row e i = assigns ∅ ((λ s, (id_name s.1, eval_expr e s.2)) <$> zip (ins_cols i) (ins_vals i)).
Proof. unfold new_row, assigns. by rewrite foldl_fmap. Qed.

Lemma holds_match d e (eqs : list (Expr V * Expr V)) :
  holds d e (Match eqs) = true ↔ Forall (λ ab, is_Some (eval_expr e ab.1) ∧ eval_expr e ab.2 = eval_expr e ab.1) eqs.
Proof.
  unfold holds. cbn [eval_cond]. induction eqs as [|[a b] eqs IH]; cbn [foldr]; [split; [constructor|done]|].
  rewrite Forall_cons, <- IH. cbn [fst snd]. destruct (eval_expr e a) as [x|], (eval_expr e b) as [y|]; cbn [compare3].
  - case_bool_decide as Hxy; subst; cbn [and3 is_true3];
      destruct (foldr _ (Some true) eqs) as [[]|]; cbn; naive_solver.
  - destruct (foldr _ (Some true) eqs) as [[]|]; cbn; naive_solver.
  - destruct (foldr _ (Some true) eqs) as [[]|]; cbn; naive_solver.
  - destruct (foldr _ (Some true) eqs) as [[]|]; cbn; naive_solver.
Qed.

Lemma holds_and d e (c c' : Cond V) : holds d e (And c c') = holds d e c && holds d e c'.
Proof. unfold holds. cbn [eval_cond]. by destruct (eval_cond d e c) as [[]|], (eval_cond d e c') as [[]|]. Qed.

Lemma holds_or d e (c c' : Cond V) : holds d e (Or c c') = holds d e c || holds d e c'.
Proof. unfold holds. cbn [eval_cond]. by destruct (eval_cond d e c) as [[]|], (eval_cond d e c') as [[]|]. Qed.

Lemma holds_not_exists d e tbl alias (c : Cond V) :
  holds d e (NotExists tbl alias c) = negb (existsb (λ r, holds d ((default tbl alias, r) :: e) c) (default [] (d !! tbl))).
Proof.
  unfold holds. cbn [eval_cond is_true3]. set (f := λ r, is_true3 (eval_cond d ((default tbl alias, r) :: e) c)).
  change (λ r, negb (is_true3 (eval_cond d ((default tbl alias, r) :: e) c))) with (λ r, negb (f r)).
  induction (default [] (d !! tbl)) as [|r t IH]; [done|]. cbn [forallb existsb]. destruct (f r); cbn; [done|]. by rewrite <- IH.
Qed.

Lemma holds_below d e (a b : Expr V) : holds d e (Below a b) = match eval_expr e a, eval_expr e b with Some x, Some y => v_lt x y | _, _ => false end.
Proof. unfold holds. cbn. destruct (eval_expr e a), (eval_expr e b); cbn; [by destruct (v_lt _ _)|done..]. Qed.

Lemma holds_at_least d e (a b : Expr V) :
  holds d e (AtLeast a b) = match eval_expr e a, eval_expr e b with Some x, Some y => negb (v_lt x y) | _, _ => false end.
Proof. unfold holds. cbn. destruct (eval_expr e a), (eval_expr e b); cbn; [by destruct (v_lt _ _)|done..]. Qed.

Lemma holds_is_null d e (a : Expr V) : holds d e (IsNull a) = bool_decide (eval_expr e a = None).
Proof. unfold holds. cbn. by case_bool_decide. Qed.

Lemma eval_first (a : bytes) (r : row) e i : eval_expr ((a, r) :: e) (Col (Some a) i) = r !! id_name i.
Proof. cbn. by rewrite decide_True. Qed.

Lemma eval_second (a : bytes) (r : row) (b : bytes) (s : row) e i : a ≠ b → eval_expr ((a, r) :: (b, s) :: e) (Col (Some b) i) = s !! id_name i.
Proof. intros H. cbn. by rewrite decide_False, decide_True by congruence. Qed.

(** Equality of the key columns of two rows, and of a row with literals. *)
Lemma holds_key_match (d : db) (e : list (bytes * row)) (ks : list Ident) (K : list bytes) (a b : bytes) (r s : row) :
  (∀ i, eval_expr e (Col (Some a) i) = r !! id_name i) → (∀ i, eval_expr e (Col (Some b) i) = s !! id_name i) → K = id_name <$> ks →
  holds d e (Match ((λ i, (Col (Some a) i, Col (Some b) i)) <$> ks)) = true ↔ is_Some (key_of K r) ∧ key_of K s = key_of K r.
Proof.
  intros Ha Hb ->. rewrite holds_match, Forall_fmap. unfold key_of.
  induction ks as [|i ks IH]; cbn [fmap list_fmap mapM]; [naive_solver|].
  rewrite Forall_cons, IH. unfold compose at 1. cbn [fst snd]. rewrite Ha, Hb.
  destruct (r !! id_name i) as [x|], (s !! id_name i) as [y|]; cbn;
    destruct (mapM (λ c, r !! c) (id_name <$> ks)), (mapM (λ c, s !! c) (id_name <$> ks)); cbn; naive_solver.
Qed.

Lemma holds_literal_match d e q (kvs : list (Ident * Expr V)) K r lits :
  (∀ i, eval_expr e (Col q i) = r !! id_name i) → K = id_name ∘ fst <$> kvs → mapM (λ kv, eval_expr e kv.2) kvs = Some lits →
  holds d e (Match ((λ kv, (Col q kv.1, kv.2)) <$> kvs)) = true ↔ key_of K r = Some lits.
Proof.
  intros Hcol -> Hl. rewrite holds_match, Forall_fmap. unfold key_of. revert lits Hl.
  induction kvs as [|[i x] kvs IH]; intros lits Hl; cbn [fmap list_fmap mapM] in *.
  - injection Hl as <-. naive_solver.
  - rewrite Forall_cons. unfold compose at 1. cbn [fst snd] in *. rewrite Hcol.
    destruct (eval_expr e x) as [v|]; [|done]. cbn in Hl. destruct (mapM _ kvs) as [ls|]; [|done]. cbn in Hl. injection Hl as <-.
    rewrite (IH ls eq_refl). cbn. destruct (r !! id_name i) as [y|]; cbn.
    + destruct (mapM (λ c, r !! c) (id_name ∘ fst <$> kvs)) as [l|] eqn:El; cbn; unfold mret, option_ret; clear IH; naive_solver.
    + naive_solver.
Qed.

(** A test that only rows with a key pass. *)
Lemma exists_at (K : list bytes) (k : list V) (P : row → bool) t : unique K t → (∀ r, P r = true → key_of K r = Some k) →
  existsb P t = match at_key K k t with Some r => P r | None => false end.
Proof.
  intros Hu HP. apply eq_bool_prop_intro. rewrite !Is_true_true, existsb_exists. split.
  - intros (r & Hr & Hp). assert (at_key K k t = Some r) as ->; [|done].
    apply at_key_Some; [done|]. split; [by apply list_elem_of_In|by apply HP].
  - destruct (at_key K k t) as [r|] eqn:E; [|done]. apply at_key_Some in E as [Hr _]; [|done]. intros Hp. exists r.
    split; [by apply list_elem_of_In|done].
Qed.
End Evaluation.
