(* ===== verification/CdcApply.v ===== *)
(** * CdcApply: the SQL with which the warehouse sinks apply change events

    The model of plugins/shared/cdc_apply_core.rs and of the backends that the Redshift, Databricks,
    Synapse, Snowflake, BigQuery and MotherDuck sinks define for it: the typed batch and its
    validation, the guarded statements of a row, the set-based statements of a bounded batch with
    their staging tables and limits, and the guarded fall-back.  Everything here is the text the
    code builds; [CdcApplyMeaning] says what the text does. *)

From S2P Require Import Prelude Bytes Text Io Codec Cdc Lease Clients IcebergCatalog Sql.

(** ** Text helpers *)

Definition quoted (b : byte) (s : bytes) : bytes := b :: s ++ [b].

(** A name between double quotes, those in it doubled. *)
Definition double_quoted (name : bytes) : bytes := quoted x22 (replace_byte x22 [x22; x22] name).

(** ["_skippr_order_token"] with its quotes. *)
Definition QUOTED_TOKEN : bytes := quoted x22 (str "_skippr_order_token").

Definition hex_lower (n : N) : byte := nth (N.to_nat n) (str "0123456789abcdef") x30.

Definition encode_hex_bytes (bs : bytes) : bytes := concat ((λ c, [hex_lower (Byte.to_N c / 16); hex_lower (Byte.to_N c mod 16)]) <$> bs).

Definition cdc_string_literal (value : bytes) : bytes := quoted x27 (replace_byte x27 [x27; x27] value).

Definition join_sql_statements (statements : list bytes) : bytes := joins nl statements.

Definition key_match_aliases (left right : bytes) (business_keys : list bytes) : bytes :=
  joins (str " AND ") ((λ c, left ++ x2e :: c ++ str " = " ++ right ++ x2e :: c) <$> business_keys).

Definition qualified_matches (names values : list bytes) (qualifier : option bytes) : bytes :=
  joins (str " AND ") ((λ nv : bytes * bytes, match qualifier with
                               | Some prefix => prefix ++ x2e :: nv.1 ++ str " = " ++ nv.2
                               | None => nv.1 ++ str " = " ++ nv.2
                               end) <$> zip names values).

(** The position of an element. *)
Fixpoint position (x : bytes) (l : list bytes) : option nat :=
  match l with
  | [] => None
  | y :: l => if decide (y = x) then Some 0 else Datatypes.S <$> position x l
  end.

(** [None] is the panic of an index out of range. *)
Definition find_business_key_value (all_col_names all_col_values : list bytes) (business_key : bytes) : option bytes :=
  all_col_values !! default 0 (position business_key all_col_names).

Definition tombstone_match_with_row_values (fq_tombstone_table : bytes) (all_col_names all_col_values business_key_names : list bytes)
    : option bytes :=
  joins (str " AND ") <$> mapM (λ name,
    value ← find_business_key_value all_col_names all_col_values name;
    Some (fq_tombstone_table ++ x2e :: name ++ str " = " ++ value)) business_key_names.

(** ** Backends *)

(** What every backend must define, and the texts of its transactions. *)
Record BackendText : Type := {
  ORDER_TOKEN_TYPE : bytes;
  be_binary_literal : bytes → bytes;
  tx_begin : bytes;
  tx_commit : bytes;
  merge_keyword : bytes
}.

Definition default_text (token_type : bytes) (literal : bytes → bytes) : BackendText := {|
  ORDER_TOKEN_TYPE := token_type; be_binary_literal := literal;
  tx_begin := str "BEGIN;" ++ nl; tx_commit := nl ++ str "COMMIT;"; merge_keyword := str "MERGE INTO" |}.

Definition default_add_order_token_column (b : BackendText) (fq_table : bytes) : bytes :=
  str "ALTER TABLE " ++ fq_table ++ str " ADD COLUMN IF NOT EXISTS " ++ QUOTED_TOKEN ++ str " " ++ ORDER_TOKEN_TYPE b.

Definition default_create_tombstone_table (b : BackendText) (fq_tombstone_table : bytes) (business_key_cols : list (bytes * bytes)) : bytes :=
  let col_defs := ((λ nt : bytes * bytes, double_quoted nt.1 ++ str " " ++ nt.2 ++ str " NOT NULL") <$> business_key_cols)
    ++ [QUOTED_TOKEN ++ str " " ++ ORDER_TOKEN_TYPE b ++ str " NOT NULL"] in
  let pk_cols := (λ nt : bytes * bytes, double_quoted nt.1) <$> business_key_cols in
  str "CREATE TABLE IF NOT EXISTS " ++ fq_tombstone_table ++ str " (" ++ joins comma col_defs
  ++ str ", PRIMARY KEY (" ++ joins comma pk_cols ++ str "))".

Definition default_upsert_if_newer_sql (b : BackendText) (fq_table fq_tombstone_table : bytes)
    (all_col_names all_col_values business_key_names : list bytes) (order_token_hex : bytes) : option bytes :=
  let token := be_binary_literal b order_token_hex in
  tombstone_bk_match ← tombstone_match_with_row_values fq_tombstone_table all_col_names all_col_values business_key_names;
  let source_select := joins comma ((λ nv : bytes * bytes, nv.2 ++ str " AS " ++ nv.1) <$> zip all_col_names all_col_values) in
  let on_match := joins (str " AND ") ((λ c, str "t." ++ c ++ str " = s." ++ c) <$> business_key_names) in
  let update_clause := joins comma ((λ c, c ++ str " = s." ++ c) <$> filter (λ c, c ∉ business_key_names) all_col_names) in
  let insert_val_list := joins comma ((λ c, str "s." ++ c) <$> all_col_names) in
  Some (tx_begin b
    ++ merge_keyword b ++ str " " ++ fq_table ++ str " AS t" ++ nl
    ++ str "USING (SELECT " ++ source_select ++ nl
    ++ str "WHERE NOT EXISTS (" ++ nl
    ++ str "SELECT 1 FROM " ++ fq_tombstone_table ++ nl
    ++ str "WHERE " ++ tombstone_bk_match ++ nl
    ++ str "AND " ++ fq_tombstone_table ++ x2e :: QUOTED_TOKEN ++ str " >= " ++ token ++ nl
    ++ str ")) AS s" ++ nl
    ++ str "ON " ++ on_match ++ nl
    ++ str "WHEN MATCHED AND (" ++ nl
    ++ str "t." ++ QUOTED_TOKEN ++ str " IS NULL" ++ nl
    ++ str "OR t." ++ QUOTED_TOKEN ++ str " < " ++ token ++ nl
    ++ str ") THEN UPDATE SET " ++ update_clause ++ nl
    ++ str "WHEN NOT MATCHED THEN INSERT (" ++ joins comma all_col_names ++ str ")" ++ nl
    ++ str "VALUES (" ++ insert_val_list ++ str ");" ++ nl
    ++ str "DELETE FROM " ++ fq_tombstone_table ++ nl
    ++ str "WHERE " ++ tombstone_bk_match ++ nl
    ++ str "AND " ++ fq_tombstone_table ++ x2e :: QUOTED_TOKEN ++ str " < " ++ token ++ str ";" ++ tx_commit b).

Definition default_delete_if_newer_sql (b : BackendText) (fq_table fq_tombstone_table : bytes)
    (business_key_names business_key_values _business_key_types : list bytes) (order_token_hex : bytes) : option bytes :=
  let token := be_binary_literal b order_token_hex in
  let delete_match := qualified_matches business_key_names business_key_values None in
  let on_match := joins (str " AND ") ((λ c, str "t." ++ c ++ str " = s." ++ c) <$> business_key_names) in
  let source_select := joins comma (((λ nv : bytes * bytes, nv.2 ++ str " AS " ++ nv.1) <$> zip business_key_names business_key_values)
    ++ [token ++ str " AS " ++ QUOTED_TOKEN]) in
  let tombstone_cols := business_key_names ++ [QUOTED_TOKEN] in
  let insert_vals := ((λ c, str "s." ++ c) <$> business_key_names) ++ [str "s." ++ QUOTED_TOKEN] in
  Some (tx_begin b
    ++ str "DELETE FROM " ++ fq_table ++ nl
    ++ str "WHERE " ++ delete_match ++ nl
    ++ str "AND (" ++ nl
    ++ fq_table ++ x2e :: QUOTED_TOKEN ++ str " IS NULL" ++ nl
    ++ str "OR " ++ fq_table ++ x2e :: QUOTED_TOKEN ++ str " < " ++ token ++ nl
    ++ str ");" ++ nl
    ++ merge_keyword b ++ str " " ++ fq_tombstone_table ++ str " AS t" ++ nl
    ++ str "USING (SELECT " ++ source_select ++ str ") AS s" ++ nl
    ++ str "ON " ++ on_match ++ nl
    ++ str "WHEN MATCHED AND t." ++ QUOTED_TOKEN ++ str " < s." ++ QUOTED_TOKEN ++ nl
    ++ str "THEN UPDATE SET " ++ QUOTED_TOKEN ++ str " = s." ++ QUOTED_TOKEN ++ nl
    ++ str "WHEN NOT MATCHED" ++ nl
    ++ str "THEN INSERT (" ++ joins comma tombstone_cols ++ str ") VALUES (" ++ joins comma insert_vals ++ str ");" ++ tx_commit b).

(** A backend: the trait with its methods. *)
Record CdcApplyBackend : Type := {
  be_text : BackendText;
  ddl_add_order_token_column : bytes → bytes;
  ddl_create_tombstone_table : bytes → list (bytes * bytes) → bytes;
  upsert_if_newer_sql : bytes → bytes → list bytes → list bytes → list bytes → bytes → option bytes;
  delete_if_newer_sql : bytes → bytes → list bytes → list bytes → list bytes → bytes → option bytes
}.

Definition default_backend (b : BackendText) : CdcApplyBackend := {|
  be_text := b;
  ddl_add_order_token_column := default_add_order_token_column b;
  ddl_create_tombstone_table := default_create_tombstone_table b;
  upsert_if_newer_sql := default_upsert_if_newer_sql b;
  delete_if_newer_sql := default_delete_if_newer_sql b |}.

Definition RedshiftCdcBackend : CdcApplyBackend :=
  default_backend (default_text (str "VARBYTE") (λ hex, str "FROM_HEX('" ++ hex ++ str "')")).
Definition DatabricksCdcBackend : CdcApplyBackend :=
  default_backend (default_text (str "BINARY") (λ hex, str "X'" ++ hex ++ str "'")).
Definition SnowflakeCdcBackend : CdcApplyBackend :=
  default_backend (default_text (str "BINARY") (λ hex, str "HEX_DECODE_BINARY('" ++ hex ++ str "')")).
Definition MotherduckCdcBackend : CdcApplyBackend :=
  default_backend (default_text (str "BLOB") (λ hex, str "'\x" ++ hex ++ str "'::BLOB")).

(** A name between brackets, closing brackets doubled. *)
Definition bracketed (name : bytes) : bytes := x5b :: replace_byte x5d [x5d; x5d] name ++ [x5d].
(** A name between back quotes, those in it after a backslash. *)
Definition back_quoted (name : bytes) : bytes := quoted x60 (replace_byte x60 [x5c; x60] name).

Definition transaction_text (token_type : bytes) (literal : bytes → bytes) (keyword : bytes) : BackendText := {|
  ORDER_TOKEN_TYPE := token_type; be_binary_literal := literal;
  tx_begin := str "BEGIN TRANSACTION;" ++ nl; tx_commit := nl ++ str "COMMIT TRANSACTION;"; merge_keyword := keyword |}.

Definition synapse_text : BackendText :=
  transaction_text (str "VARBINARY(MAX)") (λ hex, str "CONVERT(VARBINARY(MAX), 0x" ++ hex ++ str ")") (str "MERGE INTO").

Definition SynapseCdcBackend : CdcApplyBackend := {|
  be_text := synapse_text;
  ddl_add_order_token_column fq_table :=
    str "ALTER TABLE " ++ fq_table ++ str " ADD [_skippr_order_token] " ++ ORDER_TOKEN_TYPE synapse_text;
  ddl_create_tombstone_table fq_tombstone_table business_key_cols :=
    let column_defs := ((λ nt : bytes * bytes, bracketed nt.1 ++ str " " ++ nt.2 ++ str " NOT NULL") <$> business_key_cols)
      ++ [str "[_skippr_order_token] " ++ ORDER_TOKEN_TYPE synapse_text ++ str " NOT NULL"] in
    let primary_key := joins comma ((λ nt : bytes * bytes, bracketed nt.1) <$> business_key_cols) in
    str "IF OBJECT_ID(N'" ++ fq_tombstone_table ++ str "', N'U') IS NULL CREATE TABLE " ++ fq_tombstone_table ++ str " ("
    ++ joins comma column_defs ++ str ", PRIMARY KEY NONCLUSTERED (" ++ primary_key ++ str ") NOT ENFORCED)";
  upsert_if_newer_sql := default_upsert_if_newer_sql synapse_text;
  delete_if_newer_sql := default_delete_if_newer_sql synapse_text |}.

Definition bigquery_text : BackendText :=
  transaction_text (str "BYTES") (λ hex, str "FROM_HEX('" ++ hex ++ str "')") (str "MERGE").

Definition BigqueryCdcBackend : CdcApplyBackend := {|
  be_text := bigquery_text;
  ddl_add_order_token_column fq_table :=
    str "ALTER TABLE " ++ fq_table ++ str " ADD COLUMN IF NOT EXISTS `_skippr_order_token` " ++ ORDER_TOKEN_TYPE bigquery_text;
  ddl_create_tombstone_table fq_tombstone_table business_key_cols :=
    let column_defs := ((λ nt : bytes * bytes, back_quoted nt.1 ++ str " " ++ nt.2 ++ str " NOT NULL") <$> business_key_cols)
      ++ [str "`_skippr_order_token` " ++ ORDER_TOKEN_TYPE bigquery_text ++ str " NOT NULL"] in
    let primary_key := joins comma ((λ nt : bytes * bytes, back_quoted nt.1) <$> business_key_cols) in
    str "CREATE TABLE IF NOT EXISTS " ++ fq_tombstone_table ++ str " (" ++ joins comma column_defs
    ++ str ", PRIMARY KEY (" ++ primary_key ++ str ") NOT ENFORCED)";
  upsert_if_newer_sql := default_upsert_if_newer_sql bigquery_text;
  delete_if_newer_sql := default_delete_if_newer_sql bigquery_text |}.

Definition tombstone_table_name (fq_table : bytes) : bytes :=
  match rsplit_once x2e fq_table with
  | Some (prefix, table) => prefix ++ x2e :: quoted x22 (str "_skippr_tombstones_" ++ trim_char x22 table)
  | None => quoted x22 (str "_skippr_tombstones_" ++ trim_char x22 fq_table)
  end.

(** ** The typed batch *)

Inductive CdcApplyValue : Type :=
| CvNull
| CvBoolean (b : bool)
| CvSigned (z : Z)
| CvUnsigned (n : N)
| CvFloat (s : bytes)
| CvText (s : bytes)
| CvBinary (b : bytes)
| CvDate (s : bytes)
| CvTimestamp (s : bytes).

Record CdcApplyColumn : Type := { ac_name : bytes; ac_target_type : bytes }.

Inductive CdcApplyMutation : Type := ApplyUpsert | ApplyDelete.

Record CdcApplyRowMetadata : Type := {
  am_mutation : CdcApplyMutation;
  am_event_id : bytes;
  am_order_token : bytes;
  am_source_ordinal : N
}.

Record CdcApplyRow : Type := { ar_metadata : CdcApplyRowMetadata; ar_values : list CdcApplyValue }.

Record CdcApplyBatch : Type := {
  ab_columns : list CdcApplyColumn;
  ab_business_key_columns : list bytes;
  ab_rows : list CdcApplyRow
}.

Inductive CdcApplyBatchError : Type :=
| NoColumns
| NoBusinessKeyColumns
| NoRows
| EmptyTargetType (column : bytes)
| DuplicateColumn (column : bytes)
| MissingBusinessKeyColumn (column : bytes)
| RowWidth (row expected actual : nat)
| EmptyOrderToken (row : nat)
| DuplicateSourceOrdinal (ordinal : N)
| MissingRowMetadata (row available : nat)
| WarehouseStageLimit (dialect resource : bytes) (actual limit : N).

Definition is_warehouse_stage_limit (e : CdcApplyBatchError) : bool :=
  match e with WarehouseStageLimit _ _ _ _ => true | _ => false end.

(** The loops over the columns, the business keys and the rows. *)
Fixpoint validate_columns (seen : gset bytes) (cs : list CdcApplyColumn) : result CdcApplyBatchError (gset bytes) :=
  match cs with
  | [] => Ok seen
  | c :: cs =>
      if is_blank (ac_target_type c) then Err (EmptyTargetType (ac_name c))
      else if decide (ac_name c ∈ seen) then Err (DuplicateColumn (ac_name c))
      else validate_columns ({[ ac_name c ]} ∪ seen) cs
  end.

Fixpoint validate_keys (names : gset bytes) (keys : list bytes) : result CdcApplyBatchError unit :=
  match keys with
  | [] => Ok tt
  | k :: keys => if decide (k ∈ names) then validate_keys names keys else Err (MissingBusinessKeyColumn k)
  end.

Fixpoint validate_rows (width row_idx : nat) (seen : gset N) (rows : list CdcApplyRow) : result CdcApplyBatchError unit :=
  match rows with
  | [] => Ok tt
  | r :: rows =>
      if negb (length (ar_values r) =? width) then Err (RowWidth row_idx width (length (ar_values r)))
      else if bool_decide (am_order_token (ar_metadata r) = []) then Err (EmptyOrderToken row_idx)
      else if decide (am_source_ordinal (ar_metadata r) ∈ seen) then Err (DuplicateSourceOrdinal (am_source_ordinal (ar_metadata r)))
      else validate_rows width (Datatypes.S row_idx) ({[ am_source_ordinal (ar_metadata r) ]} ∪ seen) rows
  end.

Definition validate (b : CdcApplyBatch) : result CdcApplyBatchError unit :=
  if bool_decide (length (ab_columns b) = 0) then Err NoColumns
  else if bool_decide (ab_business_key_columns b = []) then Err NoBusinessKeyColumns
  else
    let? column_names := validate_columns ∅ (ab_columns b) in
    validate_keys column_names (ab_business_key_columns b) ;?
    validate_rows (length (ab_columns b)) 0 ∅ (ab_rows b).

(** ** Record batches into the typed batch *)

(** The data types that the conversion tells apart. *)
Inductive ApplyType : Type :=
| AtBoolean | AtInt8 | AtInt16 | AtInt32 | AtInt64 | AtUInt8 | AtUInt16 | AtUInt32 | AtUInt64
| AtFloat16 | AtFloat32 | AtFloat64 | AtDecimal128 | AtDecimal256
| AtUtf8 | AtLargeUtf8 | AtBinary | AtLargeBinary | AtDate32 | AtDate64 | AtTimestamp | AtOther.

(** What the conversion reads of an Arrow array: the values after a downcast, and the text of
    [array_value_to_string]. *)
Class ApplyArrow (Array : Type) : Type := {
  array_type : Array → ApplyType;
  array_is_null : Array → nat → bool;
  value_bool : Array → option (nat → bool);
  value_signed : ApplyType → Array → option (nat → Z);
  value_unsigned : ApplyType → Array → option (nat → N);
  value_text : ApplyType → Array → option (nat → bytes);
  value_bytes : ApplyType → Array → option (nat → bytes);
  value_display : Array → nat → result bytes bytes
}.

Section Append.
Context {Array : Type} {AA : ApplyArrow Array}.

Definition display_or_default (a : Array) (row : nat) : bytes := match value_display a row with Ok s => s | Err _ => [] end.

(** [None] is the panic of a failed downcast. *)
Definition arrow_value_to_cdc_apply (a : Array) (row : nat) : option CdcApplyValue :=
  if array_is_null a row then Some CvNull
  else match array_type a with
       | AtBoolean => (λ f, CvBoolean (f row)) <$> value_bool a
       | AtInt8 | AtInt16 | AtInt32 | AtInt64 => (λ f, CvSigned (f row)) <$> value_signed (array_type a) a
       | AtUInt8 | AtUInt16 | AtUInt32 | AtUInt64 => (λ f, CvUnsigned (f row)) <$> value_unsigned (array_type a) a
       | AtFloat16 | AtFloat32 | AtFloat64 | AtDecimal128 | AtDecimal256 => Some (CvFloat (display_or_default a row))
       | AtUtf8 | AtLargeUtf8 => (λ f, CvText (f row)) <$> value_text (array_type a) a
       | AtBinary | AtLargeBinary => (λ f, CvBinary (f row)) <$> value_bytes (array_type a) a
       | AtDate32 | AtDate64 => Some (CvDate (display_or_default a row))
       | AtTimestamp => Some (CvTimestamp (display_or_default a row))
       | AtOther => Some (CvText (display_or_default a row))
       end.

Definition apply_mutation_of (m : MutationKind) : CdcApplyMutation :=
  match m with Snapshot | Insert | Update => ApplyUpsert | Delete => ApplyDelete end.

Definition with_row (b : CdcApplyBatch) (r : CdcApplyRow) : CdcApplyBatch :=
  {| ab_columns := ab_columns b; ab_business_key_columns := ab_business_key_columns b; ab_rows := ab_rows b ++ [r] |}.

(** The rows [row .. row + more] of the record batch; those before an error stay appended. *)
Fixpoint append_rows (columns : list Array) (row_metadata : list WalRowMeta) (source_offset row more : nat) (b : CdcApplyBatch)
    : option (result CdcApplyBatchError unit * CdcApplyBatch) :=
  match more with
  | 0 => Some (Ok tt, b)
  | Datatypes.S more =>
      let metadata_index := source_offset + row in
      match row_metadata !! metadata_index with
      | None => Some (Err (MissingRowMetadata metadata_index (length row_metadata)), b)
      | Some meta =>
          values ← mapM (λ column, arrow_value_to_cdc_apply column row) columns;
          append_rows columns row_metadata source_offset (Datatypes.S row) more
            (with_row b {| ar_metadata := {| am_mutation := apply_mutation_of (mutation meta); am_event_id := event_id meta;
                                             am_order_token := order_token meta; am_source_ordinal := N.of_nat metadata_index |};
                           ar_values := values |})
      end
  end.

Definition append_record_batch_to_cdc_apply (apply_batch : CdcApplyBatch) (columns : list Array) (num_rows : nat)
    (row_metadata : list WalRowMeta) (source_offset : nat) : option (result CdcApplyBatchError unit * CdcApplyBatch) :=
  append_rows columns row_metadata source_offset 0 num_rows apply_batch.
End Append.

(** ** Dialects *)

Inductive CdcWarehouseDialect : Type := Snowflake | BigQuery | Redshift | Synapse | MotherDuck.
#[global] Instance CdcWarehouseDialect_eq_dec : EqDecision CdcWarehouseDialect.
Proof. solve_decision. Defined.

Record WarehouseCdcLimits : Type := {
  max_rows : N; max_load_rows : N; max_statement_bytes : N; max_total_encoded_bytes : N; max_statements : N }.

Definition dialect_name (d : CdcWarehouseDialect) : bytes :=
  match d with
  | Snowflake => str "Snowflake" | BigQuery => str "BigQuery" | Redshift => str "Redshift"
  | Synapse => str "Synapse" | MotherDuck => str "MotherDuck"
  end.

Definition staging_limits (d : CdcWarehouseDialect) : WarehouseCdcLimits :=
  match d with
  | Snowflake | BigQuery =>
      {| max_rows := 10000; max_load_rows := 500; max_statement_bytes := 128 * 1024; max_total_encoded_bytes := 900 * 1024; max_statements := 64 |}
  | Redshift =>
      {| max_rows := 15000; max_load_rows := 500; max_statement_bytes := 90 * 1024; max_total_encoded_bytes := 30 * 90 * 1024; max_statements := 40 |}
  | Synapse =>
      {| max_rows := 100000; max_load_rows := 1000; max_statement_bytes := 1024 * 1024; max_total_encoded_bytes := 64 * 1024 * 1024; max_statements := 128 |}
  | MotherDuck =>
      {| max_rows := 1000; max_load_rows := 250; max_statement_bytes := 128 * 1024; max_total_encoded_bytes := 512 * 1024; max_statements := 16 |}
  end.

Definition stage_limit_error (d : CdcWarehouseDialect) (resource : bytes) (actual limit : N) : CdcApplyBatchError :=
  WarehouseStageLimit (dialect_name d) resource actual limit.

Definition validate_stage_row_count (d : CdcWarehouseDialect) (row_count : N) : result CdcApplyBatchError unit :=
  let limit := max_rows (staging_limits d) in
  if (limit <? row_count)%N then Err (stage_limit_error d (str "row count") row_count limit) else Ok tt.

Definition quote_identifier (d : CdcWarehouseDialect) (identifier : bytes) : bytes :=
  match d with
  | BigQuery => back_quoted identifier
  | Synapse => bracketed identifier
  | _ => double_quoted identifier
  end.

Definition temp_table_name (d : CdcWarehouseDialect) (identifier : bytes) : bytes :=
  match d with
  | Synapse => quote_identifier d (str "#" ++ identifier)
  | _ => quote_identifier d identifier
  end.

Definition create_temp_table (d : CdcWarehouseDialect) (table column_defs : bytes) : bytes :=
  match d with
  | Snowflake => str "CREATE TEMPORARY TABLE " ++ table ++ str " (" ++ column_defs ++ str ");"
  | BigQuery | Redshift | MotherDuck => str "CREATE TEMP TABLE " ++ table ++ str " (" ++ column_defs ++ str ");"
  | Synapse => str "CREATE TABLE " ++ table ++ str " (" ++ column_defs ++ str ") WITH (DISTRIBUTION = ROUND_ROBIN, HEAP);"
  end.

Definition create_temp_table_as (d : CdcWarehouseDialect) (table select : bytes) : bytes :=
  match d with
  | Snowflake => str "CREATE TEMPORARY TABLE " ++ table ++ str " AS" ++ nl ++ select ++ str ";"
  | BigQuery | Redshift | MotherDuck => str "CREATE TEMP TABLE " ++ table ++ str " AS" ++ nl ++ select ++ str ";"
  | Synapse => str "CREATE TABLE " ++ table ++ nl ++ str "WITH (DISTRIBUTION = ROUND_ROBIN, HEAP)" ++ nl ++ str "AS " ++ select ++ str ";"
  end.

Definition ordinal_type (d : CdcWarehouseDialect) : bytes := match d with BigQuery => str "INT64" | _ => str "BIGINT" end.
Definition mutation_type (d : CdcWarehouseDialect) : bytes := match d with BigQuery => str "INT64" | _ => str "SMALLINT" end.
Definition order_token_type (d : CdcWarehouseDialect) : bytes :=
  match d with
  | Snowflake => str "BINARY" | BigQuery => str "BYTES" | Redshift => str "VARBYTE"
  | Synapse => str "VARBINARY(MAX)" | MotherDuck => str "BLOB"
  end.

Definition binary_literal (d : CdcWarehouseDialect) (hex : bytes) : bytes :=
  match d with
  | Snowflake => str "HEX_DECODE_BINARY('" ++ hex ++ str "')"
  | BigQuery | Redshift => str "FROM_HEX('" ++ hex ++ str "')"
  | Synapse => str "CONVERT(VARBINARY(MAX), 0x" ++ hex ++ str ")"
  | MotherDuck => str "'\x" ++ hex ++ str "'::BLOB"
  end.

Definition value_literal (d : CdcWarehouseDialect) (value : CdcApplyValue) (target_type : bytes) : bytes :=
  match value with
  | CvNull => str "NULL"
  | CvBoolean b =>
      match d with
      | Synapse => if b then str "1" else str "0"
      | _ => if b then str "TRUE" else str "FALSE"
      end
  | CvSigned z => display_i64 z
  | CvUnsigned n => display_N n
  | CvFloat s => s
  | CvText s => cdc_string_literal s
  | CvBinary b => binary_literal d (encode_hex_bytes b)
  | CvDate s | CvTimestamp s => str "CAST(" ++ cdc_string_literal s ++ str " AS " ++ target_type ++ str ")"
  end.

(** ** The statements of a batch *)

Record WarehouseBulkCdcSql : Type := {
  wb_stage_table : bytes;
  wb_winners_table : bytes;
  wb_idempotency_key : bytes;
  wb_setup_statements : list bytes;
  wb_apply_statements : list bytes;
  wb_cleanup_statements : list bytes
}.

Definition atomic_statements (s : WarehouseBulkCdcSql) : list bytes :=
  wb_setup_statements s ++ wb_apply_statements s ++ wb_cleanup_statements s.

Definition transactional_script (d : CdcWarehouseDialect) (s : WarehouseBulkCdcSql) : bytes :=
  let setup := join_sql_statements (wb_setup_statements s) in
  let apply := join_sql_statements (wb_apply_statements s) in
  let cleanup := join_sql_statements (wb_cleanup_statements s) in
  match d with
  | Snowflake => setup ++ nl ++ str "BEGIN TRANSACTION;" ++ nl ++ apply ++ nl ++ str "COMMIT;" ++ nl ++ cleanup
  | BigQuery =>
      str "BEGIN TRANSACTION;" ++ nl ++ setup ++ nl ++ apply ++ nl ++ cleanup ++ nl ++ str "COMMIT TRANSACTION;"
  | Synapse =>
      str "SET XACT_ABORT ON;" ++ nl ++ str "BEGIN TRY" ++ nl ++ setup ++ nl ++ str "BEGIN TRANSACTION;" ++ nl ++ apply ++ nl
      ++ str "COMMIT TRANSACTION;" ++ nl ++ cleanup ++ nl ++ str "END TRY" ++ nl ++ str "BEGIN CATCH" ++ nl
      ++ str "IF @@TRANCOUNT > 0 ROLLBACK TRANSACTION;" ++ nl ++ cleanup ++ nl ++ str "THROW;" ++ nl ++ str "END CATCH;"
  | Redshift | MotherDuck => str "BEGIN TRANSACTION;" ++ nl ++ setup ++ nl ++ apply ++ nl ++ cleanup ++ nl ++ str "COMMIT;"
  end.

(** The 16 hexadecimal digits of the hash of a dialect, two tables and a batch. *)
Class BatchHasher : Type := {
  batch_hash : CdcWarehouseDialect → bytes → bytes → CdcApplyBatch → bytes;
  batch_hash_length d t t' b : length (batch_hash d t t' b) = 16;
  batch_hash_digits d t t' b c : c ∈ batch_hash d t t' b → in_range 48 57 c || in_range 97 102 c = true
}.

Definition mutation_code (m : CdcApplyMutation) : bytes := match m with ApplyUpsert => str "0" | ApplyDelete => str "1" end.

(** A row of the stage as it is loaded. *)
Definition encoded_row (d : CdcWarehouseDialect) (columns : list CdcApplyColumn) (r : CdcApplyRow) : bytes :=
  str "(" ++ joins comma
    (display_N (am_source_ordinal (ar_metadata r)) :: mutation_code (am_mutation (ar_metadata r))
     :: binary_literal d (encode_hex_bytes (am_order_token (ar_metadata r)))
     :: ((λ vc : CdcApplyValue * CdcApplyColumn, value_literal d vc.1 (ac_target_type vc.2)) <$> zip (ar_values r) columns))
  ++ str ")".

(** [usize::from(!chunk.is_empty()) * 2]. *)
Definition separator_bytes {A} (l : list A) : N := match l with [] => 0 | _ => 2 end.

(** The loop that encodes the rows and adds up their bytes. *)
Fixpoint load_rows (d : CdcWarehouseDialect) (columns : list CdcApplyColumn) (prefix_len : N) (done_ : list bytes) (encoded_row_bytes : N)
    (rows : list CdcApplyRow) : result CdcApplyBatchError (list bytes) :=
  match rows with
  | [] => Ok done_
  | r :: rows =>
      let limits := staging_limits d in
      let row := encoded_row d columns r in
      let statement_bytes := (blen row + prefix_len + 1)%N in
      if (max_statement_bytes limits <? statement_bytes)%N
      then Err (stage_limit_error d (str "single encoded row bytes") statement_bytes (max_statement_bytes limits))
      else
        let encoded_row_bytes := saturating_add U64_MAX encoded_row_bytes (blen row + separator_bytes done_) in
        if (max_total_encoded_bytes limits <? encoded_row_bytes)%N
        then Err (stage_limit_error d (str "encoded stage rows bytes") encoded_row_bytes (max_total_encoded_bytes limits))
        else load_rows d columns prefix_len (done_ ++ [row]) encoded_row_bytes rows
  end.

Definition load_statement (load_prefix : bytes) (chunk : list bytes) : bytes := load_prefix ++ joins (str "," ++ nl) chunk ++ str ";".

(** The loop that cuts the encoded rows into chunks. *)
Fixpoint load_chunks (limits : WarehouseCdcLimits) (prefix_len : N) (chunks : list (list bytes)) (chunk : list bytes) (chunk_bytes : N)
    (rows : list bytes) : list (list bytes) :=
  match rows with
  | [] => match chunk with [] => chunks | _ => chunks ++ [chunk] end
  | row :: rows =>
      let row_bytes := (blen row + separator_bytes chunk)%N in
      let full := match chunk with
                  | [] => false
                  | _ => (max_load_rows limits <=? N.of_nat (length chunk))%N || (max_statement_bytes limits <? chunk_bytes + row_bytes)%N
                  end in
      if full then load_chunks limits prefix_len (chunks ++ [chunk]) [row] (prefix_len + 1 + blen row) rows
      else load_chunks limits prefix_len chunks (chunk ++ [row]) (chunk_bytes + (blen row + separator_bytes chunk)) rows
  end.

(** The identifiers that the statements share. *)
Definition cdc_ordinal (d : CdcWarehouseDialect) : bytes := quote_identifier d (str "_skippr_cdc_ordinal").
Definition cdc_mutation (d : CdcWarehouseDialect) : bytes := quote_identifier d (str "_skippr_cdc_mutation").
Definition cdc_stage_token (d : CdcWarehouseDialect) : bytes := quote_identifier d (str "_skippr_cdc_order_token").
Definition cdc_target_token (d : CdcWarehouseDialect) : bytes := quote_identifier d (str "_skippr_order_token").
Definition cdc_rank (d : CdcWarehouseDialect) : bytes := quote_identifier d (str "_skippr_cdc_rank").

Section Statements.
Context (d : CdcWarehouseDialect) (fq_table fq_tombstone_table stage_name winners_name : bytes).
(** The quoted target columns and business keys. *)
Context (target_columns business_keys : list bytes).

Let ordinal := cdc_ordinal d.
Let mutation := cdc_mutation d.
Let stage_token := cdc_stage_token d.
Let target_token := cdc_target_token d.
Let rank := cdc_rank d.

Definition dot (q c : bytes) : bytes := q ++ x2e :: c.

Definition winner_select : bytes :=
  str "SELECT " ++ joins comma ((dot (str "ranked") <$> target_columns)
    ++ [dot (str "ranked") ordinal; dot (str "ranked") mutation; dot (str "ranked") stage_token]) ++ nl
  ++ str "FROM (" ++ nl
  ++ str "SELECT stage.*," ++ nl
  ++ str "ROW_NUMBER() OVER (" ++ nl
  ++ str "PARTITION BY " ++ joins comma (dot (str "stage") <$> business_keys) ++ nl
  ++ str "ORDER BY stage." ++ stage_token ++ str " DESC, stage." ++ ordinal ++ str " ASC" ++ nl
  ++ str ") AS " ++ rank ++ nl
  ++ str "FROM " ++ stage_name ++ str " AS stage" ++ nl
  ++ str ") AS ranked" ++ nl
  ++ str "WHERE ranked." ++ rank ++ str " = 1".

(** [{column} = {source}.{column}] for the columns that are no keys, and the token. *)
Definition update_assignments (source : bytes) : bytes :=
  joins comma (((λ c, c ++ str " = " ++ dot source c) <$> filter (λ c, c ∉ business_keys) target_columns)
    ++ [target_token ++ str " = " ++ dot source stage_token]).

Definition target_insert_columns : bytes := joins comma (target_columns ++ [target_token]).
Definition target_insert_values : bytes := joins comma ((dot (str "source") <$> target_columns) ++ [dot (str "source") stage_token]).
Definition tombstone_columns : bytes := joins comma (business_keys ++ [target_token]).
Definition tombstone_values : bytes := joins comma ((dot (str "source") <$> business_keys) ++ [dot (str "source") stage_token]).

Definition upsert_source : bytes :=
  str "SELECT winner.*" ++ nl
  ++ str "FROM " ++ winners_name ++ str " AS winner" ++ nl
  ++ str "WHERE winner." ++ mutation ++ str " = 0" ++ nl
  ++ str "AND NOT EXISTS (" ++ nl
  ++ str "SELECT 1 FROM " ++ fq_tombstone_table ++ str " AS tombstone" ++ nl
  ++ str "WHERE " ++ key_match_aliases (str "tombstone") (str "winner") business_keys ++ nl
  ++ str "AND tombstone." ++ target_token ++ str " >= winner." ++ stage_token ++ nl
  ++ str ")".

Definition apply_upserts : bytes :=
  str "MERGE INTO " ++ fq_table ++ str " AS target" ++ nl
  ++ str "USING (" ++ upsert_source ++ str ") AS source" ++ nl
  ++ str "ON " ++ key_match_aliases (str "target") (str "source") business_keys ++ nl
  ++ str "WHEN MATCHED AND (" ++ nl
  ++ str "target." ++ target_token ++ str " IS NULL" ++ nl
  ++ str "OR target." ++ target_token ++ str " < source." ++ stage_token ++ nl
  ++ str ") THEN UPDATE SET " ++ update_assignments (str "source") ++ nl
  ++ str "WHEN NOT MATCHED THEN INSERT (" ++ target_insert_columns ++ str ")" ++ nl
  ++ str "VALUES (" ++ target_insert_values ++ str ");".

Definition delete_source : bytes := str "SELECT * FROM " ++ winners_name ++ str " WHERE " ++ mutation ++ str " = 1".

Definition apply_deletes : bytes :=
  str "MERGE INTO " ++ fq_table ++ str " AS target" ++ nl
  ++ str "USING (" ++ delete_source ++ str ") AS source" ++ nl
  ++ str "ON " ++ key_match_aliases (str "target") (str "source") business_keys ++ nl
  ++ str "WHEN MATCHED AND (" ++ nl
  ++ str "target." ++ target_token ++ str " IS NULL" ++ nl
  ++ str "OR target." ++ target_token ++ str " < source." ++ stage_token ++ nl
  ++ str ") THEN DELETE;".

Definition apply_tombstones : bytes :=
  str "MERGE INTO " ++ fq_tombstone_table ++ str " AS tombstone" ++ nl
  ++ str "USING (" ++ delete_source ++ str ") AS source" ++ nl
  ++ str "ON " ++ key_match_aliases (str "tombstone") (str "source") business_keys ++ nl
  ++ str "WHEN MATCHED AND tombstone." ++ target_token ++ str " < source." ++ stage_token ++ nl
  ++ str "THEN UPDATE SET " ++ target_token ++ str " = source." ++ stage_token ++ nl
  ++ str "WHEN NOT MATCHED THEN INSERT (" ++ tombstone_columns ++ str ")" ++ nl
  ++ str "VALUES (" ++ tombstone_values ++ str ");".

Definition upsert_winners : bytes := str "SELECT * FROM " ++ winners_name ++ str " WHERE " ++ mutation ++ str " = 0".

Definition clear_stale_tombstones : bytes :=
  str "MERGE INTO " ++ fq_tombstone_table ++ str " AS tombstone" ++ nl
  ++ str "USING (" ++ upsert_winners ++ str ") AS source" ++ nl
  ++ str "ON " ++ key_match_aliases (str "tombstone") (str "source") business_keys ++ nl
  ++ str "WHEN MATCHED AND tombstone." ++ target_token ++ str " < source." ++ stage_token ++ nl
  ++ str "THEN DELETE;".

(** The statements of Redshift. *)
Definition update_upserts : bytes :=
  str "UPDATE " ++ fq_table ++ str " AS target" ++ nl
  ++ str "SET " ++ update_assignments (str "winner") ++ nl
  ++ str "FROM " ++ winners_name ++ str " AS winner" ++ nl
  ++ str "WHERE winner." ++ mutation ++ str " = 0" ++ nl
  ++ str "AND " ++ key_match_aliases (str "target") (str "winner") business_keys ++ nl
  ++ str "AND (" ++ nl
  ++ str "target." ++ target_token ++ str " IS NULL" ++ nl
  ++ str "OR target." ++ target_token ++ str " < winner." ++ stage_token ++ nl
  ++ str ")" ++ nl
  ++ str "AND NOT EXISTS (" ++ nl
  ++ str "SELECT 1 FROM " ++ fq_tombstone_table ++ str " AS tombstone" ++ nl
  ++ str "WHERE " ++ key_match_aliases (str "tombstone") (str "winner") business_keys ++ nl
  ++ str "AND tombstone." ++ target_token ++ str " >= winner." ++ stage_token ++ nl
  ++ str ");".

Definition insert_upserts : bytes :=
  str "INSERT INTO " ++ fq_table ++ str " (" ++ target_insert_columns ++ str ")" ++ nl
  ++ str "SELECT " ++ target_insert_values ++ nl
  ++ str "FROM " ++ winners_name ++ str " AS source" ++ nl
  ++ str "WHERE source." ++ mutation ++ str " = 0" ++ nl
  ++ str "AND NOT EXISTS (" ++ nl
  ++ str "SELECT 1 FROM " ++ fq_table ++ str " AS target" ++ nl
  ++ str "WHERE " ++ key_match_aliases (str "target") (str "source") business_keys ++ nl
  ++ str ")" ++ nl
  ++ str "AND NOT EXISTS (" ++ nl
  ++ str "SELECT 1 FROM " ++ fq_tombstone_table ++ str " AS tombstone" ++ nl
  ++ str "WHERE " ++ key_match_aliases (str "tombstone") (str "source") business_keys ++ nl
  ++ str "AND tombstone." ++ target_token ++ str " >= source." ++ stage_token ++ nl
  ++ str ");".

Definition delete_targets : bytes :=
  str "DELETE FROM " ++ fq_table ++ str " AS target" ++ nl
  ++ str "USING " ++ winners_name ++ str " AS winner" ++ nl
  ++ str "WHERE winner." ++ mutation ++ str " = 1" ++ nl
  ++ str "AND " ++ key_match_aliases (str "target") (str "winner") business_keys ++ nl
  ++ str "AND (" ++ nl
  ++ str "target." ++ target_token ++ str " IS NULL" ++ nl
  ++ str "OR target." ++ target_token ++ str " < winner." ++ stage_token ++ nl
  ++ str ");".

Definition update_tombstones : bytes :=
  str "UPDATE " ++ fq_tombstone_table ++ str " AS tombstone" ++ nl
  ++ str "SET " ++ target_token ++ str " = winner." ++ stage_token ++ nl
  ++ str "FROM " ++ winners_name ++ str " AS winner" ++ nl
  ++ str "WHERE winner." ++ mutation ++ str " = 1" ++ nl
  ++ str "AND " ++ key_match_aliases (str "tombstone") (str "winner") business_keys ++ nl
  ++ str "AND tombstone." ++ target_token ++ str " < winner." ++ stage_token ++ str ";".

Definition insert_tombstones : bytes :=
  str "INSERT INTO " ++ fq_tombstone_table ++ str " (" ++ tombstone_columns ++ str ")" ++ nl
  ++ str "SELECT " ++ tombstone_values ++ nl
  ++ str "FROM " ++ winners_name ++ str " AS source" ++ nl
  ++ str "WHERE source." ++ mutation ++ str " = 1" ++ nl
  ++ str "AND NOT EXISTS (" ++ nl
  ++ str "SELECT 1 FROM " ++ fq_tombstone_table ++ str " AS tombstone" ++ nl
  ++ str "WHERE " ++ key_match_aliases (str "tombstone") (str "source") business_keys ++ nl
  ++ str ");".

Definition clear_tombstones : bytes :=
  str "DELETE FROM " ++ fq_tombstone_table ++ str " AS tombstone" ++ nl
  ++ str "USING " ++ winners_name ++ str " AS winner" ++ nl
  ++ str "WHERE winner." ++ mutation ++ str " = 0" ++ nl
  ++ str "AND " ++ key_match_aliases (str "tombstone") (str "winner") business_keys ++ nl
  ++ str "AND tombstone." ++ target_token ++ str " < winner." ++ stage_token ++ str ";".

Definition apply_statements : list bytes :=
  match d with
  | Redshift => [update_upserts; insert_upserts; delete_targets; update_tombstones; insert_tombstones; clear_tombstones]
  | _ => [apply_upserts; apply_deletes; apply_tombstones; clear_stale_tombstones]
  end.

(** The definitions of the columns of the stage. *)
Definition stage_column_defs (columns : list CdcApplyColumn) : bytes :=
  joins comma ([ordinal ++ str " " ++ ordinal_type d ++ str " NOT NULL"; mutation ++ str " " ++ mutation_type d ++ str " NOT NULL";
                stage_token ++ str " " ++ order_token_type d ++ str " NOT NULL"]
    ++ ((λ cq : CdcApplyColumn * bytes, cq.2 ++ str " " ++ ac_target_type cq.1) <$> zip columns target_columns)).

Definition stage_load_prefix : bytes :=
  str "INSERT INTO " ++ stage_name ++ str " (" ++ joins comma ([ordinal; mutation; stage_token] ++ target_columns) ++ str ") VALUES" ++ nl.
End Statements.

(** The first statement that is too long, the number of statements, and the bytes of all. *)
Definition check_envelope (d : CdcWarehouseDialect) (sql : WarehouseBulkCdcSql) : result CdcApplyBatchError unit :=
  let limits := staging_limits d in
  match head (filter (λ n, (max_statement_bytes limits < n)%N) (blen <$> atomic_statements sql)) with
  | Some oversized => Err (stage_limit_error d (str "statement bytes") oversized (max_statement_bytes limits))
  | None =>
      let statement_count := N.of_nat (length (atomic_statements sql)) in
      if (max_statements limits <? statement_count)%N
      then Err (stage_limit_error d (str "statement count") statement_count (max_statements limits))
      else
        let encoded_bytes := match d with
                             | Redshift => foldr N.add 0%N (blen <$> atomic_statements sql)
                             | _ => blen (transactional_script d sql)
                             end in
        if (max_total_encoded_bytes limits <? encoded_bytes)%N
        then Err (stage_limit_error d (str "total encoded bytes") encoded_bytes (max_total_encoded_bytes limits))
        else Ok tt
  end.

Definition warehouse_bulk_cdc_sql {BH : BatchHasher} (d : CdcWarehouseDialect) (fq_table fq_tombstone_table : bytes) (batch : CdcApplyBatch)
    : result CdcApplyBatchError WarehouseBulkCdcSql :=
  validate batch ;?
  guard_or NoRows (negb (bool_decide (length (ab_rows batch) = 0))) ;?
  validate_stage_row_count d (N.of_nat (length (ab_rows batch))) ;?
  let hash := batch_hash d fq_table fq_tombstone_table batch in
  let suffix := take 12 hash in
  let stage_name := temp_table_name d (str "_skippr_cdc_stage_" ++ suffix) in
  let winners_name := temp_table_name d (str "_skippr_cdc_winners_" ++ suffix) in
  let target_columns := (λ c, quote_identifier d (ac_name c)) <$> ab_columns batch in
  let business_keys := quote_identifier d <$> ab_business_key_columns batch in
  let create_stage := create_temp_table d stage_name (stage_column_defs d target_columns (ab_columns batch)) in
  let load_prefix := stage_load_prefix d stage_name target_columns in
  let? rows := load_rows d (ab_columns batch) (blen load_prefix) [] 0 (ab_rows batch) in
  let load_stage := load_statement load_prefix <$>
    load_chunks (staging_limits d) (blen load_prefix) [] [] (blen load_prefix + 1) rows in
  let create_winners := create_temp_table_as d winners_name (winner_select d stage_name target_columns business_keys) in
  let sql := {|
    wb_stage_table := stage_name; wb_winners_table := winners_name; wb_idempotency_key := str "skippr-cdc-" ++ hash;
    wb_setup_statements := create_stage :: load_stage ++ [create_winners];
    wb_apply_statements := apply_statements d fq_table fq_tombstone_table winners_name target_columns business_keys;
    wb_cleanup_statements := [str "DROP TABLE IF EXISTS " ++ winners_name ++ str ";"; str "DROP TABLE IF EXISTS " ++ stage_name ++ str ";"] |} in
  check_envelope d sql ;?
  Ok sql.

(** ** The guarded statements of the rows *)

Definition column_position (columns : list CdcApplyColumn) (name : bytes) : option nat := position name (ac_name <$> columns).

(** The statement of a row; [None] is a panic. *)
Definition guarded_row (B : CdcApplyBackend) (d : CdcWarehouseDialect) (fq_table fq_tombstone_table : bytes)
    (columns : list CdcApplyColumn) (keys : list bytes) (indexes : list nat) (types : list bytes) (row : CdcApplyRow) : option bytes :=
  let target_columns := (λ c, quote_identifier d (ac_name c)) <$> columns in
  let business_keys := quote_identifier d <$> keys in
  let order_token_hex := encode_hex_bytes (am_order_token (ar_metadata row)) in
  match am_mutation (ar_metadata row) with
  | ApplyUpsert =>
      upsert_if_newer_sql B fq_table fq_tombstone_table (target_columns ++ [cdc_target_token d])
        (((λ vc : CdcApplyValue * CdcApplyColumn, value_literal d vc.1 (ac_target_type vc.2)) <$> zip (ar_values row) columns)
         ++ [be_binary_literal (be_text B) order_token_hex])
        business_keys order_token_hex
  | ApplyDelete =>
      values ← mapM (λ index, v ← ar_values row !! index; c ← columns !! index; Some (value_literal d v (ac_target_type c))) indexes;
      delete_if_newer_sql B fq_table fq_tombstone_table business_keys values types order_token_hex
  end.

Definition guarded_warehouse_cdc_sql (B : CdcApplyBackend) (d : CdcWarehouseDialect) (fq_table fq_tombstone_table : bytes)
    (batch : CdcApplyBatch) : option (result CdcApplyBatchError (list bytes)) :=
  match validate batch with
  | Err e => Some (Err e)
  | Ok _ =>
      indexes ← mapM (column_position (ab_columns batch)) (ab_business_key_columns batch);
      types ← mapM (λ index, ac_target_type <$> ab_columns batch !! index) indexes;
      statements ← mapM (guarded_row B d fq_table fq_tombstone_table (ab_columns batch) (ab_business_key_columns batch) indexes types)
                     (ab_rows batch);
      Some (Ok statements)
  end.

Definition guarded_warehouse_cdc_row_sql (B : CdcApplyBackend) (d : CdcWarehouseDialect) (fq_table fq_tombstone_table : bytes)
    (batch : CdcApplyBatch) (row : CdcApplyRow) : option (result CdcApplyBatchError bytes) :=
  let single_row_batch := {| ab_columns := ab_columns batch; ab_business_key_columns := ab_business_key_columns batch; ab_rows := [row] |} in
  statements ← guarded_warehouse_cdc_sql B d fq_table fq_tombstone_table single_row_batch;
  match statements with
  | Err e => Some (Err e)
  | Ok statements => statement ← head statements; Some (Ok statement)
  end.

(** ** Several guarded statements in one transaction *)

Inductive CdcBatchStatement : Type :=
| BatchUpsert (all_col_names all_col_values business_key_names : list bytes) (order_token_hex : bytes)
| BatchDelete (business_key_names business_key_values business_key_types : list bytes) (order_token_hex : bytes).

Definition statement_sql (B : CdcApplyBackend) (fq_table fq_tombstone_table : bytes) (s : CdcBatchStatement) : option bytes :=
  match s with
  | BatchUpsert names values keys hex => upsert_if_newer_sql B fq_table fq_tombstone_table names values keys hex
  | BatchDelete keys values types hex => delete_if_newer_sql B fq_table fq_tombstone_table keys values types hex
  end.

Definition without_wrapping_tx (b : BackendText) (sql : bytes) : bytes :=
  let inner := trim (default (trim sql) (strip_prefix (trim (tx_begin b)) (trim sql))) in
  trim (default (trim sql) (strip_suffix (trim (tx_commit b)) inner)).

Definition terminated (body : bytes) : bytes := if bool_decide (last body = Some x3b) then body else body ++ [x3b].

Definition batched_cdc_apply_sql (B : CdcApplyBackend) (fq_table fq_tombstone_table : bytes) (statements : list CdcBatchStatement)
    : option bytes :=
  bodies ← mapM (λ s, sql ← statement_sql B fq_table fq_tombstone_table s; Some (terminated (without_wrapping_tx (be_text B) sql) ++ nl)) statements;
  Some (tx_begin (be_text B) ++ concat bodies ++ tx_commit (be_text B)).
