(* ===== verification/CdcApplyMeaning.v ===== *)
(** * CdcApplyMeaning: what the change-event SQL of the sinks does

    The statements of [CdcApply] as syntax trees of [Sql]: their text is the text the code builds, and
    their meaning is a last-writer-wins register per business key. *)

From S2P Require Import Prelude Bytes Text Io Codec Cdc Lease Clients IcebergCatalog Sql CdcApply.

(** The values of a warehouse: the binary values of order tokens and the numbers, with their order, and
    what a literal of a value is in a column of a type. *)
Class SqlValues (V : Type) {SO : SqlOrder V} : Type := {
  v_binary : bytes → V;
  v_number : N → V;
  v_cast : bytes → CdcApplyValue → option V;
  v_cast_null ty : v_cast ty CvNull = None;
  v_binary_lt a b : v_lt (v_binary a) (v_binary b) = bool_decide (bytes_lt a b);
  v_binary_inj : Inj (=) (=) v_binary;
  v_number_lt a b : v_lt (v_number a) (v_number b) = (a <? b)%N;
  v_number_inj : Inj (=) (=) v_number
}.
#[global] Existing Instances v_binary_inj v_number_inj.

Definition TOKEN : bytes := str "_skippr_order_token".

Definition ident (d : CdcWarehouseDialect) (name : bytes) : Ident := {| id_text := quote_identifier d name; id_name := name |}.
(** The token column as the guarded statements write it. *)
Definition token_ident : Ident := {| id_text := QUOTED_TOKEN; id_name := TOKEN |}.

Definition layout_upsert : Layout := {| before_then := str " "; after_not_matched := str " "; before_values := nl |}.
Definition layout_guarded : Layout := {| before_then := nl; after_not_matched := nl; before_values := str " " |}.
Definition layout_tombstone : Layout := {| before_then := nl; after_not_matched := str " "; before_values := nl |}.

(** The text before the query of [create_temp_table_as]. *)
Definition create_as_prefix (d : CdcWarehouseDialect) (table : bytes) : bytes :=
  match d with
  | Snowflake => str "CREATE TEMPORARY TABLE " ++ table ++ str " AS" ++ nl
  | BigQuery | Redshift | MotherDuck => str "CREATE TEMP TABLE " ++ table ++ str " AS" ++ nl
  | Synapse => str "CREATE TABLE " ++ table ++ nl ++ str "WITH (DISTRIBUTION = ROUND_ROBIN, HEAP)" ++ nl ++ str "AS "
  end.

(** ** The statements as trees *)

Section Trees.
Context {V : Type} {SO : SqlOrder V} {SV : SqlValues V}.
Context (d : CdcWarehouseDialect) (fq_table fq_tombstone_table : bytes) (columns : list CdcApplyColumn) (keys : list bytes).

Definition column_idents : list Ident := (λ c, ident d (ac_name c)) <$> columns.
Definition key_idents : list Ident := ident d <$> keys.

(** A literal of a value in its column. *)
Definition literal (vc : CdcApplyValue * CdcApplyColumn) : Expr V :=
  Lit (value_literal d vc.1 (ac_target_type vc.2)) (v_cast (ac_target_type vc.2) vc.1).
Definition literals (r : CdcApplyRow) : list (Expr V) := literal <$> zip (ar_values r) columns.

Definition same_keys (a b : bytes) : Cond V := Match ((λ i, (Col (Some a) i, Col (Some b) i)) <$> key_idents).

Definition not_keys (cs : list Ident) : list Ident := filter (λ i, id_text i ∉ id_text <$> key_idents) cs.

(** *** The guarded statements of a row *)

Section Guarded.
Context (b : BackendText) (row : CdcApplyRow) (key_literals : list (Expr V)).

Let token : Expr V := Lit (be_binary_literal b (encode_hex_bytes (am_order_token (ar_metadata row))))
                        (Some (v_binary (am_order_token (ar_metadata row)))).

Definition tombstone_match : Cond V := Match ((λ kv, (Col (Some fq_tombstone_table) kv.1, kv.2)) <$> zip key_idents key_literals).

Definition upsert_stmts : list (Stmt V) :=
  let t := str "t" in
  let s := str "s" in
  let cols := column_idents ++ [ident d TOKEN] in
  [Merge (merge_keyword b) fq_table t
     (Values (zip (literals row ++ [token]) cols)
        (Some (NotExists fq_tombstone_table None (And tombstone_match (AtLeast (Col (Some fq_tombstone_table) token_ident) token)))))
     s (same_keys t s) (Or (IsNull (Col (Some t) token_ident)) (Below (Col (Some t) token_ident) token))
     (SetAll ((λ i, (i, Col (Some s) i)) <$> not_keys cols))
     (Some {| ins_cols := cols; ins_vals := Col (Some s) <$> cols |}) layout_upsert;
   DeleteFrom fq_tombstone_table (And tombstone_match (Below (Col (Some fq_tombstone_table) token_ident) token))].

Definition delete_stmts : list (Stmt V) :=
  let t := str "t" in
  let s := str "s" in
  [DeleteFrom fq_table (And (Match ((λ kv, (Col None kv.1, kv.2)) <$> zip key_idents key_literals))
     (Or (IsNull (Col (Some fq_table) token_ident)) (Below (Col (Some fq_table) token_ident) token)));
   Merge (merge_keyword b) fq_tombstone_table t (Values (zip key_literals key_idents ++ [(token, token_ident)]) None)
     s (same_keys t s) (Below (Col (Some t) token_ident) (Col (Some s) token_ident))
     (SetAll [(token_ident, Col (Some s) token_ident)])
     (Some {| ins_cols := key_idents ++ [token_ident]; ins_vals := Col (Some s) <$> key_idents ++ [token_ident] |}) layout_guarded].
End Guarded.

(** *** The set-based statements *)

Definition ordinal_ident : Ident := ident d (str "_skippr_cdc_ordinal").
Definition mutation_ident : Ident := ident d (str "_skippr_cdc_mutation").
Definition stage_token_ident : Ident := ident d (str "_skippr_cdc_order_token").
Definition rank_ident : Ident := ident d (str "_skippr_cdc_rank").

Definition mutation_number (m : CdcApplyMutation) : N := match m with ApplyUpsert => 0 | ApplyDelete => 1 end.
Definition mutation_literal (m : CdcApplyMutation) : Expr V := Lit (mutation_code m) (Some (v_number (mutation_number m))).

(** The expressions of a row of the stage. *)
Definition stage_exprs (r : CdcApplyRow) : list (Expr V) :=
  Lit (display_N (am_source_ordinal (ar_metadata r))) (Some (v_number (am_source_ordinal (ar_metadata r))))
  :: mutation_literal (am_mutation (ar_metadata r))
  :: Lit (binary_literal d (encode_hex_bytes (am_order_token (ar_metadata r)))) (Some (v_binary (am_order_token (ar_metadata r))))
  :: literals r.

Definition stage_idents : list Ident := [ordinal_ident; mutation_ident; stage_token_ident] ++ column_idents.

Section Bulk.
Context (stage winners : bytes).

Definition setup_stmts (create_text : bytes) (chunks : list (list CdcApplyRow)) : list (Stmt V) :=
  CreateTemp create_text stage
  :: ((λ chunk, InsertValues stage stage_idents (stage_exprs <$> chunk)) <$> chunks)
  ++ [CreateRanked (create_as_prefix d winners) winners (column_idents ++ [ordinal_ident; mutation_ident; stage_token_ident])
        key_idents stage_token_ident ordinal_ident rank_ident stage].

Let target_token := ident d TOKEN.
Let mutation_is (q : option bytes) (m : CdcApplyMutation) : Cond V := Match [(Col q mutation_ident, mutation_literal m)].

(** [... AND NOT EXISTS (tombstone with the key and a token that is not older)]. *)
Definition no_newer_tombstone (q : bytes) : Cond V :=
  NotExists fq_tombstone_table (Some (str "tombstone"))
    (And (same_keys (str "tombstone") q)
         (AtLeast (Col (Some (str "tombstone")) target_token) (Col (Some q) stage_token_ident))).

Definition older_target (q : bytes) : Cond V :=
  Or (IsNull (Col (Some (str "target")) target_token)) (Below (Col (Some (str "target")) target_token) (Col (Some q) stage_token_ident)).

Definition older_tombstone (q : bytes) : Cond V := Below (Col (Some (str "tombstone")) target_token) (Col (Some q) stage_token_ident).

Definition target_sets (q : bytes) : list (Ident * Expr V) :=
  ((λ i, (i, Col (Some q) i)) <$> not_keys column_idents) ++ [(target_token, Col (Some q) stage_token_ident)].

Definition target_insertion : Insertion V := {|
  ins_cols := column_idents ++ [target_token];
  ins_vals := (Col (Some (str "source")) <$> column_idents) ++ [Col (Some (str "source")) stage_token_ident] |}.
Definition tombstone_insertion : Insertion V := {|
  ins_cols := key_idents ++ [target_token];
  ins_vals := (Col (Some (str "source")) <$> key_idents) ++ [Col (Some (str "source")) stage_token_ident] |}.

Definition merge_stmts : list (Stmt V) :=
  let source := str "source" in
  let deletes := Rows winners None (mutation_is None ApplyDelete) in
  [Merge (str "MERGE INTO") fq_table (str "target")
     (Rows winners (Some (str "winner")) (And (mutation_is (Some (str "winner")) ApplyUpsert) (no_newer_tombstone (str "winner"))))
     source (same_keys (str "target") source) (older_target source) (SetAll (target_sets source)) (Some target_insertion) layout_upsert;
   Merge (str "MERGE INTO") fq_table (str "target") deletes source (same_keys (str "target") source) (older_target source) Remove None layout_upsert;
   Merge (str "MERGE INTO") fq_tombstone_table (str "tombstone") deletes source (same_keys (str "tombstone") source)
     (older_tombstone source) (SetAll [(target_token, Col (Some source) stage_token_ident)]) (Some tombstone_insertion) layout_tombstone;
   Merge (str "MERGE INTO") fq_tombstone_table (str "tombstone") (Rows winners None (mutation_is None ApplyUpsert)) source
     (same_keys (str "tombstone") source) (older_tombstone source) Remove None layout_tombstone].

Definition redshift_stmts : list (Stmt V) :=
  let winner := str "winner" in
  let source := str "source" in
  [UpdateFrom fq_table (str "target") (target_sets winner) winners winner
     (And (And (And (mutation_is (Some winner) ApplyUpsert) (same_keys (str "target") winner)) (older_target winner)) (no_newer_tombstone winner));
   InsertSelect fq_table target_insertion winners source
     (And (And (mutation_is (Some source) ApplyUpsert) (NotExists fq_table (Some (str "target")) (same_keys (str "target") source)))
          (no_newer_tombstone source));
   DeleteUsing fq_table (str "target") winners winner
     (And (And (mutation_is (Some winner) ApplyDelete) (same_keys (str "target") winner)) (older_target winner));
   UpdateFrom fq_tombstone_table (str "tombstone") [(target_token, Col (Some winner) stage_token_ident)] winners winner
     (And (And (mutation_is (Some winner) ApplyDelete) (same_keys (str "tombstone") winner)) (older_tombstone winner));
   InsertSelect fq_tombstone_table tombstone_insertion winners source
     (And (mutation_is (Some source) ApplyDelete) (NotExists fq_tombstone_table (Some (str "tombstone")) (same_keys (str "tombstone") source)));
   DeleteUsing fq_tombstone_table (str "tombstone") winners winner
     (And (And (mutation_is (Some winner) ApplyUpsert) (same_keys (str "tombstone") winner)) (older_tombstone winner))].

Definition apply_stmts : list (Stmt V) := match d with Redshift => redshift_stmts | _ => merge_stmts end.

Definition cleanup_stmts : list (Stmt V) := [DropIfExists winners; DropIfExists stage].
End Bulk.
End Trees.

(** ** Their text *)

Section Print.
Context {V : Type} {SO : SqlOrder V} {SV : SqlValues V}.
Context (d : CdcWarehouseDialect) (fq_table fq_tombstone_table : bytes) (columns : list CdcApplyColumn) (keys : list bytes).

Lemma print_same_keys a b : print_cond (same_keys (V := V) d keys a b) = key_match_aliases a b (quote_identifier d <$> keys).
Proof.
  unfold same_keys, key_match_aliases, key_idents. cbn [print_cond]. f_equal. rewrite <- !list_fmap_compose. apply list_fmap_ext. intros i k _.
  unfold compose, print_eq. cbn. by rewrite <- !app_assoc.
Qed.

Lemma column_texts : id_text <$> column_idents d columns = (λ c, quote_identifier d (ac_name c)) <$> columns.
Proof. unfold column_idents. by rewrite <- list_fmap_compose. Qed.

Lemma key_texts : id_text <$> key_idents d keys = quote_identifier d <$> keys.
Proof. unfold key_idents. by rewrite <- list_fmap_compose. Qed.

Lemma literal_texts r : print_expr <$> literals (V := V) d columns r
  = (λ vc : CdcApplyValue * CdcApplyColumn, value_literal d vc.1 (ac_target_type vc.2)) <$> zip (ar_values r) columns.
Proof. unfold literals. by rewrite <- list_fmap_compose. Qed.

Lemma print_zip_as (es : list (Expr V)) (cs : list Ident) :
  print_as <$> zip es cs = (λ nv : bytes * bytes, nv.2 ++ str " AS " ++ nv.1) <$> zip (id_text <$> cs) (print_expr <$> es).
Proof. revert cs. induction es as [|x es IH]; intros [|c cs]; cbn; [done..|]. by rewrite IH. Qed.

Lemma print_columns_of q (cs : list Ident) : print_expr (V := V) <$> (Col (Some q) <$> cs) = (λ c, q ++ x2e :: c) <$> (id_text <$> cs).
Proof. by rewrite <- !list_fmap_compose. Qed.

Lemma print_sets_of q (cs : list Ident) :
  print_set (V := V) <$> ((λ i, (i, Col (Some q) i)) <$> cs) = (λ c, c ++ str " = " ++ q ++ x2e :: c) <$> (id_text <$> cs).
Proof. by rewrite <- !list_fmap_compose. Qed.

Lemma filter_texts (P : bytes → Prop) `{∀ x, Decision (P x)} (cs : list Ident) : id_text <$> filter (λ i, P (id_text i)) cs = filter P (id_text <$> cs).
Proof. induction cs as [|c cs IH]; [done|]. cbn [fmap list_fmap]. rewrite !filter_cons. destruct (decide (P (id_text c))); cbn; by rewrite IH. Qed.

Lemma not_key_texts cs : id_text <$> not_keys d keys cs = filter (λ c, c ∉ quote_identifier d <$> keys) (id_text <$> cs).
Proof. unfold not_keys. rewrite key_texts. exact (filter_texts (λ t, t ∉ quote_identifier d <$> keys) cs). Qed.

Lemma print_literal_match q (kvs : list (Ident * Expr V)) :
  print_cond (Match ((λ kv, (Col (Some q) kv.1, kv.2)) <$> kvs)) =
  joins (str " AND ") ((λ nv : bytes * bytes, q ++ x2e :: nv.1 ++ str " = " ++ nv.2) <$> zip (id_text <$> kvs.*1) (print_expr <$> kvs.*2)).
Proof.
  cbn [print_cond]. f_equal. induction kvs as [|[i x] kvs IH]; [done|]. cbn. rewrite IH. unfold print_eq. cbn. by rewrite <- !app_assoc.
Qed.

Lemma print_bare_match (kvs : list (Ident * Expr V)) :
  print_cond (Match ((λ kv, (Col None kv.1, kv.2)) <$> kvs)) = qualified_matches (id_text <$> kvs.*1) (print_expr <$> kvs.*2) None.
Proof. cbn [print_cond]. unfold qualified_matches. f_equal. induction kvs as [|[i x] kvs IH]; [done|]. cbn. by rewrite IH. Qed.

Lemma tombstone_match_text names values ls vs : length ls = length vs →
  mapM (find_business_key_value names values) (id_text <$> ls) = Some (print_expr (V := V) <$> vs) →
  tombstone_match_with_row_values fq_tombstone_table names values (id_text <$> ls) =
  Some (print_cond (Match ((λ kv, (Col (Some fq_tombstone_table) kv.1, kv.2)) <$> zip ls vs))).
Proof.
  intros Hlen Hm. rewrite print_literal_match, fst_zip, snd_zip by lia. unfold tombstone_match_with_row_values.
  erewrite mapM_Some_2; [reflexivity|]. apply mapM_Some_1 in Hm.
  revert vs Hlen Hm. generalize (id_text <$> ls) as names'. intros names' vs _ Hm. remember (print_expr <$> vs) as texts. clear Heqtexts.
  induction Hm as [|n t ns ts Hf Hm IH]; cbn; [constructor|]. constructor; [|done]. by rewrite Hf.
Qed.

(** The guarded statements of a row, between the texts of the transaction. *)
Theorem upsert_text b row (ls : list (Expr V)) :
  length (key_idents d keys) = length ls →
  mapM (find_business_key_value (((λ c, quote_identifier d (ac_name c)) <$> columns) ++ [cdc_target_token d])
          ((print_expr <$> literals (V := V) d columns row) ++ [be_binary_literal b (encode_hex_bytes (am_order_token (ar_metadata row)))]))
       (quote_identifier d <$> keys) = Some (print_expr <$> ls) →
  default_upsert_if_newer_sql b fq_table fq_tombstone_table
    (((λ c, quote_identifier d (ac_name c)) <$> columns) ++ [cdc_target_token d])
    ((print_expr <$> literals (V := V) d columns row) ++ [be_binary_literal b (encode_hex_bytes (am_order_token (ar_metadata row)))])
    (quote_identifier d <$> keys) (encode_hex_bytes (am_order_token (ar_metadata row))) =
  Some (tx_begin b ++ joins nl (print_stmt <$> upsert_stmts d fq_table fq_tombstone_table columns keys b row ls) ++ tx_commit b).
Proof.
  intros Hlen Hm. rewrite <- key_texts in Hm |- *. unfold default_upsert_if_newer_sql.
  rewrite (tombstone_match_text _ _ _ _ Hlen Hm). cbn [mbind option_bind]. f_equal. f_equal.
  unfold upsert_stmts. cbn [fmap list_fmap joins print_stmt]. rewrite !print_same_keys.
  cbn [print_source print_cond print_expr print_action print_table id_text token_ident ident ins_cols ins_vals before_then after_not_matched before_values layout_upsert].
  unfold tombstone_match, print_table, paren. rewrite print_zip_as, print_sets_of, not_key_texts, print_columns_of, !fmap_app, column_texts.
  cbn [fmap list_fmap]. rewrite <- !app_assoc. rewrite key_texts. reflexivity.
Qed.

Theorem delete_text b row (ls : list (Expr V)) types :
  length (key_idents d keys) = length ls →
  default_delete_if_newer_sql b fq_table fq_tombstone_table (quote_identifier d <$> keys) (print_expr <$> ls) types
    (encode_hex_bytes (am_order_token (ar_metadata row))) =
  Some (tx_begin b ++ joins nl (print_stmt <$> delete_stmts d fq_table fq_tombstone_table keys b row ls) ++ tx_commit b).
Proof.
  intros Hlen. unfold default_delete_if_newer_sql. f_equal. f_equal.
  unfold delete_stmts. cbn [fmap list_fmap joins print_stmt]. rewrite !print_same_keys.
  cbn [print_cond]. change (joins (str " AND ") (print_eq <$> ((λ kv : Ident * Expr V, (Col None kv.1, kv.2)) <$> zip (key_idents d keys) ls)))
    with (print_cond (Match ((λ kv : Ident * Expr V, (Col None kv.1, kv.2)) <$> zip (key_idents d keys) ls))).
  rewrite print_bare_match, fst_zip, snd_zip by lia.
  cbn [print_source print_cond print_expr print_action print_table id_text token_ident ident ins_cols ins_vals before_then after_not_matched before_values layout_guarded].
  unfold paren. rewrite fmap_app, print_zip_as, print_columns_of, !fmap_app, key_texts. cbn [fmap list_fmap]. rewrite <- !app_assoc. reflexivity.
Qed.
End Print.

(** Texts that differ in how their parts are bracketed and cut. *)
Ltac print_norm :=
  cbn [joins fmap list_fmap]; unfold print_eq, print_set, print_table, mutation_literal;
  cbn [joins print_eq print_expr fst snd mutation_literal mutation_code print_table id_text before_then after_not_matched before_values
       layout_upsert layout_tombstone layout_guarded print_set fmap list_fmap ident token_ident];
  repeat rewrite <- app_assoc; reflexivity.

Section PrintBulk.
Context {V : Type} {SO : SqlOrder V} {SV : SqlValues V}.
Context (d : CdcWarehouseDialect) (fq_table fq_tombstone_table : bytes) (columns : list CdcApplyColumn) (keys : list bytes).
Context (stage winners : bytes).

Let target_columns := (λ c, quote_identifier d (ac_name c)) <$> columns.
Let business_keys := quote_identifier d <$> keys.

Lemma print_target_sets q : joins comma (print_set <$> target_sets (V := V) d columns keys q) = update_assignments d target_columns business_keys q.
Proof.
  unfold target_sets, update_assignments. rewrite fmap_app, print_sets_of, not_key_texts, column_texts. reflexivity.
Qed.

Lemma print_target_insertion :
  joins comma (id_text <$> ins_cols (target_insertion (V := V) d columns)) = target_insert_columns d target_columns ∧
  joins comma (print_expr <$> ins_vals (target_insertion (V := V) d columns)) = target_insert_values d target_columns.
Proof.
  unfold target_insertion, target_insert_columns, target_insert_values. cbn [ins_cols ins_vals].
  rewrite !fmap_app, print_columns_of, column_texts. done.
Qed.

Lemma print_tombstone_insertion :
  joins comma (id_text <$> ins_cols (tombstone_insertion (V := V) d keys)) = tombstone_columns d business_keys ∧
  joins comma (print_expr <$> ins_vals (tombstone_insertion (V := V) d keys)) = tombstone_values d business_keys.
Proof.
  unfold tombstone_insertion, tombstone_columns, tombstone_values. cbn [ins_cols ins_vals].
  rewrite !fmap_app, print_columns_of, key_texts. done.
Qed.

(** The texts of the statements after the setup. *)
Theorem apply_text :
  print_stmt <$> apply_stmts (V := V) d fq_table fq_tombstone_table columns keys winners
  = apply_statements d fq_table fq_tombstone_table winners target_columns business_keys.
Proof.
  unfold apply_stmts, apply_statements.
  assert (print_stmt <$> merge_stmts (V := V) d fq_table fq_tombstone_table columns keys winners =
    [apply_upserts d fq_table fq_tombstone_table winners target_columns business_keys; apply_deletes d fq_table winners business_keys;
     apply_tombstones d fq_tombstone_table winners business_keys; clear_stale_tombstones d fq_tombstone_table winners business_keys]) as Hm.
  { unfold merge_stmts, no_newer_tombstone, older_target, older_tombstone, paren. cbn [fmap list_fmap print_stmt print_source print_cond print_action].
    rewrite !print_same_keys, !print_target_sets. unfold paren. destruct print_target_insertion as [-> ->], print_tombstone_insertion as [-> ->].
    unfold apply_upserts, apply_deletes, apply_tombstones, clear_stale_tombstones, upsert_source, delete_source, upsert_winners. print_norm. }
  assert (print_stmt <$> redshift_stmts (V := V) d fq_table fq_tombstone_table columns keys winners =
    [update_upserts d fq_table fq_tombstone_table winners target_columns business_keys;
     insert_upserts d fq_table fq_tombstone_table winners target_columns business_keys; delete_targets d fq_table winners business_keys;
     update_tombstones d fq_tombstone_table winners business_keys; insert_tombstones d fq_tombstone_table winners business_keys;
     clear_tombstones d fq_tombstone_table winners business_keys]) as Hr.
  { unfold redshift_stmts, no_newer_tombstone, older_target, older_tombstone. cbn [fmap list_fmap print_stmt print_cond].
    rewrite !print_same_keys, !print_target_sets. unfold paren. destruct print_target_insertion as [-> ->], print_tombstone_insertion as [-> ->].
    unfold update_upserts, insert_upserts, delete_targets, update_tombstones, insert_tombstones, clear_tombstones. print_norm. }
  destruct d; done.
Qed.

Lemma print_stage_exprs r : paren (print_expr <$> stage_exprs (V := V) d columns r) = encoded_row d columns r.
Proof. unfold stage_exprs, encoded_row, paren. cbn [fmap list_fmap print_expr mutation_literal]. rewrite literal_texts. reflexivity. Qed.

Theorem setup_text create_text chunks :
  print_stmt <$> setup_stmts (V := V) d columns keys stage winners create_text chunks =
  create_text :: (load_statement (stage_load_prefix d stage target_columns) <$> (fmap (encoded_row d columns) <$> chunks))
  ++ [create_temp_table_as d winners (winner_select d stage target_columns business_keys)].
Proof.
  unfold setup_stmts. cbn [fmap list_fmap print_stmt]. f_equal. rewrite fmap_app. f_equal.
  - rewrite <- !list_fmap_compose. apply list_fmap_ext. intros i chunk _. unfold compose. cbn [print_stmt].
    assert ((λ vs, paren (print_expr (V := V) <$> vs)) <$> (stage_exprs d columns <$> chunk) = encoded_row d columns <$> chunk) as ->.
    { rewrite <- list_fmap_compose. apply list_fmap_ext. intros. apply print_stage_exprs. }
    unfold load_statement, stage_load_prefix, stage_idents, paren. rewrite fmap_app, column_texts. rewrite <- !app_assoc. reflexivity.
  - cbn [fmap list_fmap print_stmt]. f_equal. unfold print_ranked, winner_select, create_temp_table_as, create_as_prefix.
    rewrite (list_fmap_compose id_text (λ t, str "ranked." ++ t)), (list_fmap_compose id_text (λ t, str "stage." ++ t)), !fmap_app.
    rewrite column_texts, key_texts. destruct d; print_norm.
Qed.
End PrintBulk.
