(* ===== verification/CdcApplyRegister.v ===== *)
(** * CdcApplyRegister: a register per business key

    What the statements of [CdcApplyMeaning] do to the target and the tombstones of a sink: each business
    key is a register that holds the values or the deletion with the greatest order token.  The guarded
    statements take one event, the set-based statements the whole batch; both leave the same registers,
    and replays in any order and any grouping leave the same table. *)

From S2P Require Import Prelude Bytes Text Io Codec Cdc Lease Clients IcebergCatalog Sql CdcApply CdcApplyMeaning.

(** ** Quoting keeps names apart *)

(** A character is replaced by a text that ends in it and starts with a character that stands for itself
    or is the replaced one. *)
Lemma replace_byte_inj c e : Inj (=) (=) (replace_byte c [e; c]).
Proof.
  intros s. induction s as [|b s IH]; intros [|b' s']; cbn; [done|by destruct (Byte.eqb b' c)|by destruct (Byte.eqb b c)|].
  assert (∀ x, Byte.eqb x c = true → x = c) as Heq by (intros x; apply byte_dec_bl).
  assert (∀ t, head (replace_byte c [e; c] t) = Some c → e = c) as Hhead.
  { intros [|x t]; cbn; [done|]. destruct (Byte.eqb x c) eqn:E; cbn; [by intros [= ->]|]. intros [= ->]. by rewrite byte_dec_lb in E. }
  destruct (Byte.eqb b c) eqn:E1, (Byte.eqb b' c) eqn:E2; cbn; intros H.
  - injection H as H. apply Heq in E1, E2. subst. f_equal. by apply IH.
  - injection H as -> H. assert (b' = c) as -> by (apply Hhead with (t := s'); by rewrite <- H). by rewrite byte_dec_lb in E2.
  - injection H as <- H. assert (b = c) as -> by (apply Hhead with (t := s); by rewrite H). by rewrite byte_dec_lb in E1.
  - injection H as -> H. f_equal. by apply IH.
Qed.

Lemma quoted_inj q : Inj (=) (=) (quoted q).
Proof. intros s s'. unfold quoted. intros [= H]. by apply app_inj_tail in H as [? _]. Qed.

Lemma quote_identifier_inj d : Inj (=) (=) (quote_identifier d).
Proof.
  intros s s'. destruct d; cbn; unfold double_quoted, back_quoted, bracketed; intros H.
  1, 2, 3, 5: by apply quoted_inj, replace_byte_inj in H.
  injection H as H. apply app_inj_tail in H as [H _]. by apply replace_byte_inj in H.
Qed.

(** ** Registers *)

Section Register.
Context {V : Type} {SO : SqlOrder V} {SV : SqlValues V}.
Notation row := (gmap bytes V).
Context (columns : list CdcApplyColumn).

(** What a sink shows of a key: nothing, a row with its token (null in rows that were there before) and
    values, or a deletion. *)
Inductive Register : Type :=
| Absent
| Live (token : option V) (values : list (option V))
| Dead (token : V).

Record Event : Type := { ev_mutation : CdcApplyMutation; ev_token : bytes; ev_values : list (option V) }.

(** Whether an event is newer than what the register holds. *)
Definition takes (reg : Register) (token : bytes) : bool :=
  match reg with
  | Absent | Live None _ => true
  | Live (Some v) _ | Dead v => v_lt v (v_binary token)
  end.

Definition step (reg : Register) (e : Event) : Register :=
  if takes reg (ev_token e) then
    match ev_mutation e with
    | ApplyUpsert => Live (Some (v_binary (ev_token e))) (ev_values e)
    | ApplyDelete => Dead (v_binary (ev_token e))
    end
  else reg.

(** The tokens of a register are binary values. *)
Definition register_ok (reg : Register) : Prop :=
  match reg with
  | Absent | Live None _ => True
  | Live (Some v) _ | Dead v => ∃ t, v = v_binary t
  end.

Lemma step_ok reg e : register_ok reg → register_ok (step reg e).
Proof. unfold step. destruct (takes reg (ev_token e)); [|done]. destruct (ev_mutation e); cbn; eauto. Qed.

(** Of two events the one with the greater token, of equal ones the first. *)
Definition newer_of (o : option Event) (e : Event) : option Event :=
  match o with
  | Some w => if bool_decide (bytes_lt (ev_token w) (ev_token e)) then Some e else Some w
  | None => Some e
  end.

Definition winner (es : list Event) : option Event := foldl newer_of None es.

Lemma step_step reg w e : register_ok reg →
  step (step reg w) e = if bool_decide (bytes_lt (ev_token w) (ev_token e)) then step reg e else step reg w.
Proof.
  intros Hok. unfold step at 2 4. destruct (takes reg (ev_token w)) eqn:Hw.
  - assert (takes (match ev_mutation w with
                   | ApplyUpsert => Live (Some (v_binary (ev_token w))) (ev_values w)
                   | ApplyDelete => Dead (v_binary (ev_token w))
                   end) (ev_token e) = bool_decide (bytes_lt (ev_token w) (ev_token e))) as Ht.
    { destruct (ev_mutation w); cbn; apply v_binary_lt. }
    unfold step. rewrite Ht. case_bool_decide as Hlt; [|done].
    assert (takes reg (ev_token e) = true) as ->; [|done].
    destruct reg as [|[v|] vs|v]; cbn in *; [done| |done|]; destruct Hok as [t ->]; rewrite v_binary_lt in Hw |- *;
      apply bool_decide_eq_true in Hw; apply bool_decide_eq_true; apply bytes_lt_le_trans with (ev_token w); [done| |done|]; by apply bytes_lt_iff.
  - case_bool_decide as Hlt; [done|]. unfold step.
    assert (takes reg (ev_token e) = false) as ->; [|done].
    destruct reg as [|[v|] vs|v]; cbn in *; [done| |done|]; destruct Hok as [t ->]; rewrite v_binary_lt in Hw |- *;
      apply bool_decide_eq_false in Hw; apply bool_decide_eq_false; intros Hte; apply Hw;
      (eapply bytes_lt_le_trans; [exact Hte|]); destruct (total bytes_le (ev_token e) (ev_token w)) as [|Hle]; [done| |done|];
      destruct (decide (ev_token w = ev_token e)) as [->|Hne]; [done| |done|]; exfalso; apply Hlt; by apply bytes_lt_iff.
Qed.

(** Events one after the other leave what the winner alone leaves. *)
Lemma fold_steps reg es : register_ok reg → foldl step reg es = match winner es with Some w => step reg w | None => reg end.
Proof.
  intros Hok. unfold winner. induction es as [|e es IH] using rev_ind; [done|]. rewrite !foldl_app. cbn. rewrite IH.
  destruct (foldl newer_of None es) as [w|]; cbn; [|done]. rewrite step_step by done. by case_bool_decide.
Qed.

(** *** The rows behind a register *)

Definition values_of (r : row) : list (option V) := (λ c, r !! ac_name c) <$> columns.

Definition register_of (target tombstone : option row) : Register :=
  match target, tombstone with
  | Some r, _ => Live (r !! TOKEN) (values_of r)
  | None, Some x => match x !! TOKEN with Some v => Dead v | None => Absent end
  | None, None => Absent
  end.

(** Tokens are binary, and a tombstone beside a row is not newer than the row. *)
Definition key_ok (target tombstone : option row) : Prop :=
  match target with Some r => r !! TOKEN = None ∨ ∃ t, r !! TOKEN = Some (v_binary t) | None => True end ∧
  match tombstone with
  | Some x => ∃ t, x !! TOKEN = Some (v_binary t) ∧
      match target with Some r => ∃ t', r !! TOKEN = Some (v_binary t') ∧ bytes_le t t' | None => True end
  | None => True
  end.

Lemma key_ok_register target tombstone : key_ok target tombstone → register_ok (register_of target tombstone).
Proof.
  intros [H1 H2]. destruct target as [r|]; cbn in *.
  - destruct H1 as [-> |[t ->]]; cbn; eauto.
  - destruct tombstone as [x|]; cbn in *; [|done]. destruct H2 as (t & -> & _). cbn. eauto.
Qed.

Definition older (token : bytes) (r : row) : bool := match r !! TOKEN with Some v => v_lt v (v_binary token) | None => true end.
Definition below (token : bytes) (x : row) : bool := match x !! TOKEN with Some v => v_lt v (v_binary token) | None => false end.
Definition not_below (token : bytes) (x : row) : bool := match x !! TOKEN with Some v => negb (v_lt v (v_binary token)) | None => false end.
Definition blocked (token : bytes) (tombstone : option row) : bool :=
  match tombstone with Some x => not_below token x | None => false end.

(** What an upsert and a deletion do to the target and the tombstone of their key; [made] is the row they
    write, from the one that is there. *)
Definition upsert_target (token : bytes) (made : option row → row) (target tombstone : option row) : option row :=
  if blocked token tombstone then target
  else match target with
       | Some r => if older token r then Some (made (Some r)) else Some r
       | None => Some (made None)
       end.
Definition upsert_tombstone (token : bytes) (tombstone : option row) : option row :=
  match tombstone with Some x => if below token x then None else Some x | None => None end.
Definition delete_target (token : bytes) (target : option row) : option row :=
  match target with Some r => if older token r then None else Some r | None => None end.
Definition delete_tombstone (token : bytes) (made : option row → row) (tombstone : option row) : option row :=
  match tombstone with Some x => if below token x then Some (made (Some x)) else Some x | None => Some (made None) end.

Lemma not_lt_le x y : ¬ bytes_lt x y → bytes_le y x.
Proof.
  intros H. destruct (total bytes_le y x) as [?|Hle]; [done|]. destruct (decide (x = y)) as [->|Hne]; [done|].
  exfalso. apply H. by apply bytes_lt_iff.
Qed.

Lemma upsert_step e made target tombstone : key_ok target tombstone → ev_mutation e = ApplyUpsert →
  (∀ o, o = None ∨ o = target → made o !! TOKEN = Some (v_binary (ev_token e)) ∧ values_of (made o) = ev_values e) →
  let target' := upsert_target (ev_token e) made target tombstone in
  let tombstone' := upsert_tombstone (ev_token e) tombstone in
  key_ok target' tombstone' ∧ register_of target' tombstone' = step (register_of target tombstone) e.
Proof.
  intros [H1 H2] Hm Hmade. cbn zeta. unfold step. rewrite Hm.
  assert (∀ o, o = None ∨ o = target → key_ok (Some (made o)) None ∧
    register_of (Some (made o)) None = Live (Some (v_binary (ev_token e))) (ev_values e)) as Hnew.
  { intros o Ho. destruct (Hmade o Ho) as [Ht Hv]. unfold key_ok. cbn. rewrite Ht, Hv. eauto. }
  unfold upsert_target, upsert_tombstone, blocked, older, below, not_below. destruct target as [r|].
  - destruct tombstone as [x|].
    + destruct H2 as (t & Hx & t' & Hr & Hle). rewrite Hx, Hr. rewrite !v_binary_lt. cbn. rewrite Hr, v_binary_lt.
      destruct (decide (bytes_lt t' (ev_token e))) as [Hlt|Hlt].
      * rewrite (bool_decide_true _ Hlt). assert (bytes_lt t (ev_token e)) as Hlt' by (by eapply bytes_le_lt_trans).
        rewrite (bool_decide_true _ Hlt'). cbn. apply Hnew; by auto.
      * rewrite (bool_decide_false _ Hlt). unfold key_ok. case_bool_decide; cbn; rewrite Hr; (split; [|done]); (split; [eauto|]); [done|].
        rewrite Hx. eauto.
    + cbn. destruct H1 as [Hr|[t Hr]]; rewrite Hr; [apply Hnew; by auto|]. rewrite v_binary_lt. case_bool_decide; [apply Hnew; by auto|].
      unfold key_ok. cbn. rewrite Hr. eauto.
  - destruct tombstone as [x|]; [|apply Hnew; by auto]. destruct H2 as (t & Hx & _). cbn. rewrite Hx. cbn. rewrite v_binary_lt.
    case_bool_decide; cbn; [apply Hnew; by auto|]. unfold key_ok. cbn. rewrite Hx. eauto.
Qed.

Lemma delete_step e made target tombstone : key_ok target tombstone → ev_mutation e = ApplyDelete →
  (∀ o, made o !! TOKEN = Some (v_binary (ev_token e))) →
  let target' := delete_target (ev_token e) target in
  let tombstone' := delete_tombstone (ev_token e) made tombstone in
  key_ok target' tombstone' ∧ register_of target' tombstone' = step (register_of target tombstone) e.
Proof.
  intros [H1 H2] Hm Hmade. cbn zeta. unfold step. rewrite Hm.
  assert (∀ o, key_ok None (Some (made o)) ∧ register_of None (Some (made o)) = Dead (v_binary (ev_token e))) as Hnew.
  { intros o. unfold key_ok. cbn. rewrite Hmade. eauto. }
  unfold delete_target, delete_tombstone, older, below. destruct target as [r|].
  - destruct tombstone as [x|].
    + destruct H2 as (t & Hx & t' & Hr & Hle). rewrite Hx, Hr. rewrite !v_binary_lt. cbn. rewrite Hr, v_binary_lt.
      destruct (decide (bytes_lt t' (ev_token e))) as [Hlt|Hlt].
      * rewrite (bool_decide_true _ Hlt). assert (bytes_lt t (ev_token e)) as Hlt' by (by eapply bytes_le_lt_trans).
        rewrite (bool_decide_true _ Hlt'). apply Hnew.
      * rewrite (bool_decide_false _ Hlt). unfold key_ok. case_bool_decide; cbn; rewrite Hr; (split; [|done]); (split; [eauto|]).
        -- eexists. split; [apply Hmade|]. exists t'. split; [done|]. by apply not_lt_le.
        -- rewrite Hx. eauto.
    + destruct H1 as [Hr|[t Hr]]; cbn; rewrite Hr; [apply Hnew|]. rewrite v_binary_lt. case_bool_decide as Hlt; [apply Hnew|].
      unfold key_ok. cbn. rewrite Hr. split; [|done]. split; [eauto|]. eexists. split; [apply Hmade|]. exists t. split; [done|]. by apply not_lt_le.
  - destruct tombstone as [x|]; [|apply Hnew]. destruct H2 as (t & Hx & _). cbn. rewrite Hx. cbn. rewrite v_binary_lt.
    case_bool_decide; [apply Hnew|]. unfold key_ok. cbn. rewrite Hx. eauto.
Qed.
End Register.

(** ** The statements, key by key *)

Section Statements.
Context {V : Type} {SO : SqlOrder V} {SV : SqlValues V}.
Notation row := (gmap bytes V).
Notation table := (list row).
Notation db := (gmap bytes table).
Context (d : CdcWarehouseDialect) (keys : list bytes).

(** What a merge leaves at a key. *)
Definition merged (m : db) (alias src_alias : bytes) (when_ : Cond V) (act : Action V) (ins : option (Insertion V)) (ot os : option row) : option row :=
  match ot, os with
  | Some r, Some s => acted m alias src_alias when_ act r s
  | Some r, None => Some r
  | None, Some s => (λ i, new_row [(src_alias, s)] i) <$> ins
  | None, None => None
  end.

Lemma same_keys_env (m : db) (e : list (bytes * row)) (a b : bytes) (r s : row) :
  (∀ i, eval_expr e (Col (Some a) i) = r !! id_name i) → (∀ i, eval_expr e (Col (Some b) i) = s !! id_name i) →
  holds m e (same_keys d keys a b) = true ↔ is_Some (key_of keys r) ∧ key_of keys s = key_of keys r.
Proof. intros Ha Hb. apply holds_key_match; [done..|]. unfold key_idents. rewrite <- list_fmap_compose. by rewrite list_fmap_id. Qed.

Lemma same_keys_spec m a b r s : a ≠ b →
  holds m [(a, r); (b, s)] (same_keys d keys a b) = true ↔ is_Some (key_of keys r) ∧ key_of keys s = key_of keys r.
Proof. intros Hab. apply same_keys_env; intros i; [apply eval_first|by apply eval_second]. Qed.

Lemma exec_merge kw tbl a src b when_ act ins l m :
  Forall (λ t, is_Some (m !! t)) (stmt_tables (Merge kw tbl a src b (same_keys d keys a b) when_ act ins l)) → a ≠ b →
  unique keys (rows_of m tbl) → unique keys (source_rows m src) →
  (∀ r s r', is_Some (key_of keys r) → key_of keys s = key_of keys r → acted m a b when_ act r s = Some r' → key_of keys r' = key_of keys r) →
  (∀ i s, ins = Some i → key_of keys (new_row [(b, s)] i) = key_of keys s) →
  ∃ t', exec (Merge kw tbl a src b (same_keys d keys a b) when_ act ins l) m = Some (<[tbl := t']> m) ∧ unique keys t' ∧
    ∀ k, at_key keys k t' = merged m a b when_ act ins (at_key keys k (rows_of m tbl)) (at_key keys k (source_rows m src)).
Proof.
  intros Htbl Hab Ht Hs Hact Hins. unfold exec. rewrite bool_decide_true by done.
  set (pairs := λ r s, holds m [(a, r); (b, s)] (same_keys d keys a b)).
  assert (∀ r s, pairs r s = true ↔ is_Some (key_of keys r) ∧ key_of keys s = key_of keys r) as Hp by (intros; by apply same_keys_spec).
  assert (∀ r s, pairs r s = true → is_Some (key_of keys r) ∧ key_of keys s = key_of keys r) as Hp1 by (intros ?? H; by apply Hp).
  assert (∀ r s r', pairs r s = true → acted m a b when_ act r s = Some r' → key_of keys r' = key_of keys r) as Hc.
  { intros r s r' H. apply Hp in H as [??]. by apply Hact. }
  assert (∀ r s k, key_of keys r = Some k → key_of keys s = Some k → pairs r s = true) as Hall.
  { intros r s k Hr Hs'. apply Hp. rewrite Hr, Hs'. eauto. }
  rewrite (mapM_act_on keys pairs _ Hp1) by done. cbn [mbind option_bind].
  rewrite omap_id_fmap. destruct ins as [i|].
  - destruct (merge_at keys pairs _ Hp1 Hc (λ s, new_row [(b, s)] i) (λ s, Hins i s eq_refl) _ _ Ht Hs Hall) as [Hu Hk].
    eexists. split; [reflexivity|]. split; [exact Hu|]. intros k. rewrite Hk. unfold joined, merged.
    destruct (at_key keys k (rows_of m tbl)) as [r|] eqn:Er, (at_key keys k (source_rows m src)) as [s|] eqn:Es; try done.
    by rewrite (Hall r s k) by (by eapply at_key_key).
  - destruct (change_at keys pairs _ Hp1 Hc id _ _ Ht Hs) as [Hu Hk].
    eexists. split; [by rewrite app_nil_r|]. split; [exact Hu|]. intros k. rewrite (Hk k). unfold joined, merged.
    destruct (at_key keys k (rows_of m tbl)) as [r|] eqn:Er, (at_key keys k (source_rows m src)) as [s|] eqn:Es; try done.
    by rewrite (Hall r s k) by (by eapply at_key_key).
Qed.

Lemma exec_delete_from tbl c m : Forall (λ t, is_Some (m !! t)) (tbl :: cond_tables c) → unique keys (rows_of m tbl) →
  ∃ t', exec (DeleteFrom tbl c) m = Some (<[tbl := t']> m) ∧ unique keys t' ∧
    ∀ k, at_key keys k t' = r ← at_key keys k (rows_of m tbl); if holds m [(tbl, r)] c then None else Some r.
Proof.
  intros Htbl Hu. unfold exec. rewrite bool_decide_true by done. eexists. split; [reflexivity|]. split; [by apply unique_filter|].
  intros k. rewrite at_key_filter by done. destruct (at_key keys k (rows_of m tbl)) as [r|]; cbn; [|done]. by destruct (holds m [(tbl, r)] c).
Qed.

(** A condition of a statement with a second table that includes the equality of the keys. *)
Lemma exec_delete_using tbl a src b c m : Forall (λ t, is_Some (m !! t)) (tbl :: src :: cond_tables c) → unique keys (rows_of m tbl) →
  unique keys (rows_of m src) →
  (∀ r s, holds m [(a, r); (b, s)] c = true → is_Some (key_of keys r) ∧ key_of keys s = key_of keys r) →
  ∃ t', exec (DeleteUsing tbl a src b c) m = Some (<[tbl := t']> m) ∧ unique keys t' ∧
    ∀ k, at_key keys k t' = r ← at_key keys k (rows_of m tbl);
      match at_key keys k (rows_of m src) with
      | Some s => if holds m [(a, r); (b, s)] c then None else Some r
      | None => Some r
      end.
Proof.
  intros Htbl Hu Hus Hc. unfold exec. rewrite bool_decide_true by done. eexists. split; [reflexivity|]. split; [by apply unique_filter|].
  intros k. rewrite at_key_filter by done. destruct (at_key keys k (rows_of m tbl)) as [r|] eqn:Er; cbn; [|done].
  rewrite (exists_at keys k); [|done|].
  - destruct (at_key keys k (rows_of m src)) as [s|]; [|done]. by destruct (holds m [(a, r); (b, s)] c).
  - intros s Hs. destruct (Hc r s Hs) as [_ ->]. by eapply at_key_key.
Qed.

Lemma exec_update_from tbl a sets src b c m : Forall (λ t, is_Some (m !! t)) (tbl :: src :: cond_tables c) → unique keys (rows_of m tbl) →
  unique keys (rows_of m src) →
  (∀ r s, holds m [(a, r); (b, s)] c = true → is_Some (key_of keys r) ∧ key_of keys s = key_of keys r) →
  (∀ r s, holds m [(a, r); (b, s)] c = true → key_of keys (apply_sets [(a, r); (b, s)] sets r) = key_of keys r) →
  ∃ t', exec (UpdateFrom tbl a sets src b c) m = Some (<[tbl := t']> m) ∧ unique keys t' ∧
    ∀ k, at_key keys k t' = r ← at_key keys k (rows_of m tbl);
      match at_key keys k (rows_of m src) with
      | Some s => Some (if holds m [(a, r); (b, s)] c then apply_sets [(a, r); (b, s)] sets r else r)
      | None => Some r
      end.
Proof.
  intros Htbl Hu Hus Hc Hsets. unfold exec. rewrite bool_decide_true by done.
  set (pairs := λ r s, holds m [(a, r); (b, s)] c).
  assert (∀ r s, pairs r s = true → is_Some (key_of keys r) ∧ key_of keys s = key_of keys r) as Hp1 by exact Hc.
  rewrite (mapM_act_on keys pairs _ Hp1) by done. cbn [mbind option_bind]. rewrite omap_id_fmap.
  assert (∀ r s r', pairs r s = true → Some (apply_sets [(a, r); (b, s)] sets r) = Some r' → key_of keys r' = key_of keys r) as Hch.
  { intros r s r' H [= <-]. by apply Hsets. }
  destruct (change_at keys pairs _ Hp1 Hch id _ _ Hu Hus) as [Hu' Hk]. eexists. split; [reflexivity|]. split; [exact Hu'|].
  intros k. rewrite (Hk k). unfold joined, pairs.
  destruct (at_key keys k (rows_of m tbl)) as [r|], (at_key keys k (rows_of m src)) as [s|]; cbn; try done.
  by destruct (holds m [(a, r); (b, s)] c).
Qed.

Lemma exec_insert_select tbl i src b c m : Forall (λ t, is_Some (m !! t)) (tbl :: src :: cond_tables c) → unique keys (rows_of m tbl) →
  unique keys (rows_of m src) → (∀ s, key_of keys (new_row [(b, s)] i) = key_of keys s) →
  (∀ k s r, at_key keys k (rows_of m src) = Some s → at_key keys k (rows_of m tbl) = Some r → holds m [(b, s)] c = false) →
  ∃ t', exec (InsertSelect tbl i src b c) m = Some (<[tbl := t']> m) ∧ unique keys t' ∧
    ∀ k, at_key keys k t' = match at_key keys k (rows_of m tbl) with
      | Some r => Some r
      | None => s ← at_key keys k (rows_of m src); if holds m [(b, s)] c then Some (new_row [(b, s)] i) else None
      end.
Proof.
  intros Htbl Hu Hus Hi Hc. unfold exec. rewrite bool_decide_true by done. eexists. split; [reflexivity|]. apply unique_of.
  intros k. rewrite key_slice_app, (slice_at _ _ _ Hu), slice_fmap by (intros; apply Hi).
  rewrite (slice_at _ _ _ (unique_filter keys _ _ Hus)), at_key_filter by done.
  destruct (at_key keys k (rows_of m tbl)) as [r|] eqn:Er, (at_key keys k (rows_of m src)) as [s|] eqn:Es; cbn; try done.
  - by rewrite (Hc k s r Es Er).
  - by destruct (holds m [(b, s)] c).
Qed.
End Statements.

(** ** Events *)

(** The columns of a batch: distinct, the keys among them, none of them reserved. *)
Record schema_ok (columns : list CdcApplyColumn) (keys : list bytes) : Prop := {
  so_columns : NoDup (ac_name <$> columns);
  so_distinct : NoDup keys;
  so_keys k : k ∈ keys → k ∈ ac_name <$> columns;
  so_reserved n : n ∈ [TOKEN; str "_skippr_cdc_ordinal"; str "_skippr_cdc_mutation"; str "_skippr_cdc_order_token"] → n ∉ ac_name <$> columns
}.

Section Events.
Context {V : Type} {SO : SqlOrder V} {SV : SqlValues V}.
Notation row := (gmap bytes V).
Context (d : CdcWarehouseDialect) (columns : list CdcApplyColumn) (keys : list bytes) (Hschema : schema_ok columns keys).

Definition cells (r : CdcApplyRow) : list (bytes * option V) :=
  (λ vc, (ac_name vc.2, v_cast (ac_target_type vc.2) vc.1)) <$> zip (ar_values r) columns.
Definition event_row (r : CdcApplyRow) : row := assigns ∅ (cells r).
Definition event_key (r : CdcApplyRow) : option (list V) := key_of keys (event_row r).
Definition event_of (r : CdcApplyRow) : Event (V := V) := {|
  ev_mutation := am_mutation (ar_metadata r); ev_token := am_order_token (ar_metadata r);
  ev_values := (λ vc, v_cast (ac_target_type vc.2) vc.1) <$> zip (ar_values r) columns |}.

Lemma cells_names r : length (ar_values r) = length columns → (cells r).*1 = ac_name <$> columns.
Proof.
  intros Hlen. unfold cells. rewrite <- list_fmap_compose.
  rewrite (list_fmap_ext _ (ac_name ∘ snd)) by done. rewrite list_fmap_compose, snd_zip by lia. done.
Qed.

Lemma lookup_event_row r i c v : columns !! i = Some c → ar_values r !! i = Some v → length (ar_values r) = length columns →
  event_row r !! ac_name c = v_cast (ac_target_type c) v.
Proof.
  intros Hc Hv Hlen. apply lookup_assigns; [rewrite cells_names by done; apply Hschema|]. unfold cells.
  apply list_elem_of_fmap. exists (v, c). split; [done|]. apply list_elem_of_lookup. exists i. by rewrite lookup_zip_with, Hv, Hc.
Qed.

Lemma event_values r : length (ar_values r) = length columns → values_of columns (event_row r) = ev_values (event_of r).
Proof.
  intros Hlen. unfold values_of. cbn. apply list_eq. intros i. rewrite !list_lookup_fmap, lookup_zip_with.
  destruct (columns !! i) as [c|] eqn:Hc; cbn.
  - destruct (lookup_lt_is_Some_2 (ar_values r) i) as [v Hv]; [apply lookup_lt_Some in Hc; lia|]. rewrite Hv. cbn. f_equal. by eapply lookup_event_row.
  - by destruct (ar_values r !! i).
Qed.

(** Rows that agree on the columns. *)
Lemma values_of_agree (r r' : row) : (∀ n, n ∈ ac_name <$> columns → r !! n = r' !! n) → values_of columns r = values_of columns r'.
Proof. intros H. apply list_fmap_ext. intros i c Hc. apply H, list_elem_of_fmap. exists c. split; [done|]. by eapply list_elem_of_lookup_2. Qed.

Lemma key_of_ext (ks : list bytes) (r r' : row) : (∀ k, k ∈ ks → r !! k = r' !! k) → key_of ks r = key_of ks r'.
Proof. intros H. unfold key_of. apply Forall_mapM_ext, Forall_forall. exact H. Qed.

Lemma key_of_agree (r r' : row) : (∀ n, n ∈ ac_name <$> columns → r !! n = r' !! n) → key_of keys r = key_of keys r'.
Proof. intros H. apply key_of_ext. intros k Hk. by apply H, Hschema. Qed.

Lemma key_of_lookup (r s : row) n : is_Some (key_of keys r) → key_of keys s = key_of keys r → n ∈ keys → s !! n = r !! n.
Proof.
  intros [k Hr] Hs Hn. rewrite Hr in Hs. unfold key_of in *. apply mapM_Some_1 in Hr, Hs.
  apply list_elem_of_lookup in Hn as [i Hi].
  destruct (Forall2_lookup_l _ _ _ _ _ Hr Hi) as (v & Hv & ->). destruct (Forall2_lookup_l _ _ _ _ _ Hs Hi) as (v' & Hv' & ->). congruence.
Qed.

(** *** The literals of the keys *)

Lemma position_spec x l : x ∈ l → ∃ i, position x l = Some i ∧ l !! i = Some x.
Proof.
  induction l as [|y l IH]; intros Hx; [by apply elem_of_nil in Hx|]. cbn. case_decide as Hy; [subst; by exists 0|].
  apply elem_of_cons in Hx as [Hx|Hx]; [done|]. destruct (IH Hx) as (i & -> & Hi). by exists (Datatypes.S i).
Qed.

Definition key_literal (r : CdcApplyRow) (k : bytes) : Expr V :=
  default (Lit [] None) (i ← column_position columns k; literals d columns r !! i).
Definition key_literals (r : CdcApplyRow) : list (Expr V) := key_literal r <$> keys.

Lemma key_column k : k ∈ keys → ∃ i c, column_position columns k = Some i ∧ columns !! i = Some c ∧ ac_name c = k.
Proof.
  intros Hk. destruct (position_spec k (ac_name <$> columns)) as (i & Hp & Hi); [by apply Hschema|].
  rewrite list_lookup_fmap in Hi. destruct (columns !! i) as [c|] eqn:Hc; [|done]. injection Hi as Hi. by exists i, c.
Qed.

Lemma literals_lookup r i c v : columns !! i = Some c → ar_values r !! i = Some v → literals (V := V) d columns r !! i = Some (literal d (v, c)).
Proof. intros Hc Hv. unfold literals. by rewrite list_lookup_fmap, lookup_zip_with, Hv, Hc. Qed.

Lemma key_literal_spec r k : length (ar_values r) = length columns → k ∈ keys →
  ∃ i c v, column_position columns k = Some i ∧ columns !! i = Some c ∧ ac_name c = k ∧ ar_values r !! i = Some v ∧ key_literal r k = literal d (v, c).
Proof.
  intros Hlen Hk. destruct (key_column k Hk) as (i & c & Hp & Hc & Hn).
  destruct (lookup_lt_is_Some_2 (ar_values r) i) as [v Hv]; [apply lookup_lt_Some in Hc; lia|].
  exists i, c, v. split_and!; try done. unfold key_literal. rewrite Hp. cbn. by rewrite (literals_lookup _ _ _ _ Hc Hv).
Qed.

Lemma eval_key_literal e r k : length (ar_values r) = length columns → k ∈ keys → eval_expr e (key_literal r k) = event_row r !! k.
Proof.
  intros Hlen Hk. destruct (key_literal_spec r k Hlen Hk) as (i & c & v & _ & Hc & <- & Hv & ->). cbn. symmetry. by eapply lookup_event_row.
Qed.

Lemma eval_key_literals e r : length (ar_values r) = length columns →
  mapM (λ kv, eval_expr e kv.2) (zip (key_idents d keys) (key_literals r)) = event_key r.
Proof.
  intros Hlen. unfold key_idents, key_literals, event_key, key_of.
  assert (∀ k, k ∈ keys → eval_expr e (key_literal r k) = event_row r !! k) as Hev by (intros; by apply eval_key_literal).
  clear Hschema. induction keys as [|k ks IH]; [done|]. cbn. rewrite (Hev k) by left. rewrite IH by (intros; apply Hev; by right). done.
Qed.
End Events.

(** ** The guarded statements *)

Section Copies.
Context {V : Type} {SO : SqlOrder V}.
Notation row := (gmap bytes V).
Context (d : CdcWarehouseDialect) (keys : list bytes).

(** Columns of a row copied into another. *)
Definition copy (names : list bytes) (s r : row) : row := assigns r ((λ n, (n, s !! n)) <$> names).

Lemma lookup_copy (names : list bytes) (s r : row) n : NoDup names → n ∈ names → copy names s r !! n = s !! n.
Proof.
  intros Hnd Hn. apply lookup_assigns.
  - rewrite <- list_fmap_compose. by rewrite (list_fmap_id names : fst ∘ (λ n, (n, s !! n)) <$> names = names).
  - apply list_elem_of_fmap. by exists n.
Qed.

Lemma lookup_copy_out (names : list bytes) (s r : row) n : n ∉ names → copy names s r !! n = r !! n.
Proof. intros Hn. apply lookup_assigns_out. rewrite <- list_fmap_compose. by rewrite (list_fmap_id names : fst ∘ (λ n, (n, s !! n)) <$> names = names). Qed.

Lemma key_copy (names : list bytes) (s r : row) : (∀ k, k ∈ keys → k ∉ names) → key_of keys (copy names s r) = key_of keys r.
Proof. intros H. apply key_of_ext. intros k Hk. by apply lookup_copy_out, H. Qed.

Lemma not_keys_idents names : not_keys d keys (ident d <$> names) = ident d <$> filter (λ n, n ∉ keys) names.
Proof.
  unfold not_keys, key_idents. rewrite <- list_fmap_compose. cbn.
  induction names as [|n names IH]; [done|]. cbn [fmap list_fmap]. rewrite !filter_cons, IH. cbn [id_text ident].
  assert (quote_identifier d n ∉ (id_text ∘ ident d <$> keys) ↔ n ∉ keys) as Hiff.
  { rewrite (list_fmap_ext (id_text ∘ ident d) (quote_identifier d)) by done. split; intros H Hin; apply H.
    - by apply list_elem_of_fmap_2.
    - apply list_elem_of_fmap in Hin as (n' & Heq & Hn'). apply quote_identifier_inj in Heq. by subst. }
  destruct (decide (n ∉ keys)) as [Hn|Hn]; [rewrite decide_True by (by apply Hiff)|rewrite decide_False by (by rewrite Hiff)]; done.
Qed.

Lemma apply_copy (a b : bytes) (r s : row) (names : list bytes) : a ≠ b →
  apply_sets [(a, r); (b, s)] ((λ i, (i, Col (Some b) i)) <$> (ident d <$> names)) r = copy names s r.
Proof.
  intros Hab. rewrite apply_sets_assigns. unfold copy. f_equal. rewrite <- !list_fmap_compose. apply list_fmap_ext. intros i n _.
  unfold compose. cbn. by rewrite decide_False, decide_True by congruence.
Qed.

Lemma zip_same {A B} (f : A → B) (l : list A) : zip l (f <$> l) = (λ x, (x, f x)) <$> l.
Proof. induction l as [|x l IH]; [done|]. cbn. by rewrite IH. Qed.

Lemma insert_copies (b : bytes) (s : row) (cs : list Ident) :
  new_row [(b, s)] {| ins_cols := cs; ins_vals := Col (Some b) <$> cs |} = copy (id_name <$> cs) s ∅.
Proof.
  rewrite new_row_assigns. cbn [ins_cols ins_vals]. rewrite zip_same. unfold copy. f_equal. rewrite <- !list_fmap_compose.
  apply list_fmap_ext. intros i n _. unfold compose. cbn. by rewrite decide_True.
Qed.

Lemma ident_names (names : list bytes) : id_name <$> (ident d <$> names) = names.
Proof. rewrite <- list_fmap_compose. apply list_fmap_id. Qed.

Lemma insert_copy (b : bytes) (s : row) (names : list bytes) :
  new_row [(b, s)] {| ins_cols := ident d <$> names; ins_vals := Col (Some b) <$> (ident d <$> names) |} = copy names s ∅.
Proof. by rewrite insert_copies, ident_names. Qed.

Lemma at_key_one (k k0 : list V) (r : row) : key_of keys r = Some k0 → at_key keys k [r] = if decide (k = k0) then Some r else None.
Proof. intros Hr. unfold at_key, slice. rewrite filter_cons, Hr. destruct (decide (k = k0)) as [->|Hne]; [by rewrite decide_True|by rewrite decide_False by congruence]. Qed.

Lemma unique_one (r : row) : unique keys [r].
Proof. intros k. unfold slice. rewrite filter_cons. destruct (decide _); cbn; lia. Qed.
End Copies.

Section Guarded.
Context {V : Type} {SO : SqlOrder V} {SV : SqlValues V}.
Notation row := (gmap bytes V).
Notation table := (list row).
Notation db := (gmap bytes table).
Context (d : CdcWarehouseDialect) (fq_table fq_tombstone_table : bytes) (columns : list CdcApplyColumn) (keys : list bytes).
Context (Hschema : schema_ok columns keys) (Hft : fq_table ≠ fq_tombstone_table).

Definition target_at (m : db) (k : list V) : option row := at_key keys k (rows_of m fq_table).
Definition tombstone_at (m : db) (k : list V) : option row := at_key keys k (rows_of m fq_tombstone_table).
Definition register_at (m : db) (k : list V) : Register := register_of columns (target_at m k) (tombstone_at m k).

(** The two tables of a sink. *)
Record sink_ok (m : db) : Prop := {
  sk_target : is_Some (m !! fq_table);
  sk_tombstone : is_Some (m !! fq_tombstone_table);
  sk_unique_target : unique keys (rows_of m fq_table);
  sk_unique_tombstone : unique keys (rows_of m fq_tombstone_table);
  sk_keys k : key_ok (target_at m k) (tombstone_at m k)
}.

Definition others_kept (m m' : db) : Prop := ∀ t, t ≠ fq_table → t ≠ fq_tombstone_table → m' !! t = m !! t.

Lemma rows_insert_ne (m : db) (t t' : bytes) (x : table) : t ≠ t' → rows_of (<[t := x]> m) t' = rows_of m t'.
Proof. intros H. unfold rows_of. by rewrite lookup_insert_ne. Qed.

Lemma rows_insert_eq (m : db) (t : bytes) (x : table) : rows_of (<[t := x]> m) t = x.
Proof. unfold rows_of. by rewrite lookup_insert_eq. Qed.

(** A sink after its two tables have been replaced. *)
Lemma sink_replaced (m : db) t x : sink_ok m → unique keys t → unique keys x →
  (∀ k, key_ok (at_key keys k t) (at_key keys k x)) →
  sink_ok (<[fq_tombstone_table := x]> (<[fq_table := t]> m)) ∧ others_kept m (<[fq_tombstone_table := x]> (<[fq_table := t]> m)) ∧
  ∀ k, register_at (<[fq_tombstone_table := x]> (<[fq_table := t]> m)) k = register_of columns (at_key keys k t) (at_key keys k x).
Proof.
  intros Hm Ht Hx Hk. unfold register_at, target_at, tombstone_at.
  assert (rows_of (<[fq_tombstone_table := x]> (<[fq_table := t]> m)) fq_table = t) as E1 by (rewrite rows_insert_ne by done; apply rows_insert_eq).
  assert (rows_of (<[fq_tombstone_table := x]> (<[fq_table := t]> m)) fq_tombstone_table = x) as E2 by apply rows_insert_eq.
  rewrite E1, E2. split_and!; [|intros t' H1 H2; by rewrite !lookup_insert_ne by done|done].
  split; unfold target_at, tombstone_at; rewrite ?E1, ?E2; [| |done..].
  - rewrite lookup_insert_ne, lookup_insert_eq by done. eauto.
  - rewrite lookup_insert_eq. eauto.
Qed.

Context (b : BackendText) (r : CdcApplyRow) (k0 : list V).
Context (Hlen : length (ar_values r) = length columns) (Hkey : event_key columns keys r = Some k0).

Let token := am_order_token (ar_metadata r).

Definition guarded_stmts : list (Stmt V) :=
  match am_mutation (ar_metadata r) with
  | ApplyUpsert => upsert_stmts d fq_table fq_tombstone_table columns keys b r (key_literals d columns keys r)
  | ApplyDelete => delete_stmts d fq_table fq_tombstone_table keys b r (key_literals d columns keys r)
  end.

(** The row that a guarded upsert offers. *)
Definition offered : row := assigns ∅ (cells columns r ++ [(TOKEN, Some (v_binary token))]).

Lemma token_not_column : TOKEN ∉ ac_name <$> columns.
Proof. apply Hschema. left. Qed.

Lemma offered_names : (cells (V := V) columns r ++ [(TOKEN, Some (v_binary token))]).*1 = (ac_name <$> columns) ++ [TOKEN].
Proof. rewrite fmap_app, cells_names by done. done. Qed.

Lemma names_nodup : NoDup ((ac_name <$> columns) ++ [TOKEN]).
Proof.
  apply NoDup_app. split_and!; [apply Hschema| |apply NoDup_singleton]. intros n Hn. rewrite list_elem_of_singleton. intros ->. by apply token_not_column.
Qed.

Lemma lookup_offered n : n ∈ ac_name <$> columns → offered !! n = event_row columns r !! n.
Proof.
  intros Hn. unfold offered, event_row. rewrite <- (cells_names (V := V) columns r) in Hn by done.
  apply list_elem_of_fmap in Hn as ([n' v] & -> & Hin). cbn.
  rewrite (lookup_assigns _ _ n' v); [|rewrite offered_names; apply names_nodup|apply elem_of_app; by left].
  rewrite (lookup_assigns _ _ n' v); [done| |done]. rewrite (cells_names columns) by done. apply Hschema.
Qed.

Lemma offered_token : offered !! TOKEN = Some (v_binary token).
Proof. apply lookup_assigns; [rewrite offered_names; apply names_nodup|]. apply elem_of_app. right. by apply list_elem_of_singleton. Qed.

Lemma offered_key : key_of keys offered = Some k0.
Proof. rewrite <- Hkey. apply (key_of_agree columns keys Hschema). apply lookup_offered. Qed.

Lemma offered_row t : foldl (λ r s, assign r (id_name s.2) (eval_expr [] s.1)) ∅ (zip (literals d columns r ++ [Lit t (Some (v_binary token))]) (column_idents d columns ++ [ident d TOKEN])) = offered.
Proof.
  rewrite zip_with_app by (unfold literals, column_idents; rewrite !length_fmap, length_zip; lia).
  unfold offered, assigns. rewrite !foldl_app. cbn. f_equal. unfold cells, literals, column_idents. clear -Hlen.
  revert Hlen. generalize (ar_values r) as vs. generalize (∅ : row) as acc. induction columns as [|c cs IH]; intros acc [|v vs] Hl; cbn in *; try done.
  apply IH. lia.
Qed.

Lemma literal_key_match m e q x : (∀ i, eval_expr e (Col q i) = x !! id_name i) →
  holds m e (Match ((λ kv, (Col q kv.1, kv.2)) <$> zip (key_idents d keys) (key_literals d columns keys r))) = true ↔ key_of keys x = Some k0.
Proof.
  intros Hcol. apply holds_literal_match; [done| |].
  - rewrite list_fmap_compose, fst_zip by (unfold key_idents, key_literals; by rewrite !length_fmap).
    unfold key_idents. rewrite <- list_fmap_compose. by rewrite list_fmap_id.
  - by rewrite (eval_key_literals d columns keys Hschema).
Qed.

Lemma tombstone_guard m c x :
  holds m [(fq_tombstone_table, x)] (And (tombstone_match d fq_tombstone_table keys (key_literals d columns keys r)) c) =
  bool_decide (key_of keys x = Some k0) && holds m [(fq_tombstone_table, x)] c.
Proof.
  rewrite holds_and. f_equal. apply eq_bool_prop_intro. rewrite bool_decide_spec, Is_true_true.
  apply literal_key_match. intros i. cbn. by rewrite decide_True.
Qed.

Lemma no_newer m t : unique keys (rows_of m fq_tombstone_table) →
  holds m [] (NotExists fq_tombstone_table None (And (tombstone_match d fq_tombstone_table keys (key_literals d columns keys r))
    (AtLeast (Col (Some fq_tombstone_table) token_ident) (Lit t (Some (v_binary token)))))) = negb (blocked token (tombstone_at m k0)).
Proof.
  intros Hu. rewrite holds_not_exists. cbn [default]. f_equal. fold (rows_of m fq_tombstone_table). rewrite (exists_at keys k0); [|done|].
  - unfold tombstone_at. destruct (at_key keys k0 (rows_of m fq_tombstone_table)) as [x|] eqn:E; [|done].
    rewrite tombstone_guard, bool_decide_true by (by eapply at_key_key). rewrite holds_at_least. cbn. rewrite decide_True by done. done.
  - intros x. rewrite tombstone_guard, andb_true_iff, bool_decide_eq_true. by intros [? _].
Qed.

(** The row a guarded upsert leaves, inserted or updated. *)
Definition upserted (o : option row) : row :=
  match o with
  | Some r => copy (filter (λ n, n ∉ keys) ((ac_name <$> columns) ++ [TOKEN])) offered r
  | None => copy ((ac_name <$> columns) ++ [TOKEN]) offered ∅
  end.

Lemma column_idents_names : column_idents d columns ++ [ident d TOKEN] = ident d <$> (ac_name <$> columns) ++ [TOKEN].
Proof. unfold column_idents. rewrite fmap_app, <- list_fmap_compose. done. Qed.

Lemma token_not_key : TOKEN ∉ keys.
Proof. intros Hin. by apply token_not_column, Hschema. Qed.

Lemma lookup_upserted o n : n ∈ (ac_name <$> columns) ++ [TOKEN] → (∀ x, o = Some x → key_of keys x = Some k0) → upserted o !! n = offered !! n.
Proof.
  intros Hn Ho. destruct o as [x|]; cbn; [|by rewrite lookup_copy by (done || apply names_nodup)].
  destruct (decide (n ∈ keys)) as [Hk|Hk].
  - rewrite lookup_copy_out by (rewrite list_elem_of_filter; tauto). symmetry. apply (key_of_lookup keys); [| |done]; rewrite (Ho x) by done; [eauto|apply offered_key].
  - apply lookup_copy; [apply NoDup_filter, names_nodup|]. by apply list_elem_of_filter.
Qed.

Lemma upserted_spec o : (∀ x, o = Some x → key_of keys x = Some k0) →
  key_of keys (upserted o) = Some k0 ∧ upserted o !! TOKEN = Some (v_binary token) ∧
  values_of columns (upserted o) = ev_values (event_of columns r).
Proof.
  intros Ho. assert (∀ n, n ∈ ac_name <$> columns → upserted o !! n = event_row columns r !! n) as Hn.
  { intros n Hn. rewrite lookup_upserted by (done || (apply elem_of_app; by left)). by apply lookup_offered. }
  split_and!.
  - rewrite <- Hkey. by apply (key_of_agree columns keys Hschema).
  - rewrite lookup_upserted by (done || (apply elem_of_app; right; by apply list_elem_of_singleton)). apply offered_token.
  - rewrite <- (event_values columns keys Hschema) by done. by apply values_of_agree.
Qed.

Lemma older_holds m a c t x : holds m ((a, x) :: c) (Or (IsNull (Col (Some a) token_ident)) (Below (Col (Some a) token_ident) (Lit t (Some (v_binary token))))) = older token x.
Proof. rewrite holds_or, holds_is_null, holds_below. cbn. rewrite decide_True by done. cbn. unfold older. by destruct (x !! TOKEN). Qed.

Lemma upsert_exec m : sink_ok m →
  ∃ t x, exec_all (upsert_stmts d fq_table fq_tombstone_table columns keys b r (key_literals d columns keys r)) m
           = Some (<[fq_tombstone_table := x]> (<[fq_table := t]> m)) ∧ unique keys t ∧ unique keys x ∧
    (∀ k, at_key keys k t = if decide (k = k0) then upsert_target token upserted (target_at m k) (tombstone_at m k) else target_at m k) ∧
    (∀ k, at_key keys k x = if decide (k = k0) then upsert_tombstone token (tombstone_at m k) else tombstone_at m k).
Proof.
  intros Hm. unfold upsert_stmts. cbn [exec_all].
  edestruct (exec_merge d keys (merge_keyword b) fq_table (str "t")) as (t & Ht & Hut & Hat); [..|rewrite Ht; clear Ht].
  - cbn. repeat constructor; apply Hm.
  - done.
  - apply Hm.
  - cbn [source_rows]. rewrite no_newer by apply Hm. destruct (blocked _ _); cbn [negb]; [apply unique_nil|apply unique_one].
  - intros x s x' Hx Hs. unfold acted. rewrite older_holds. destruct (older token x); [|by intros [= ->]]. intros [= <-].
    rewrite column_idents_names, not_keys_idents, apply_copy by done.
    apply key_copy. intros k Hk. rewrite list_elem_of_filter. tauto.
  - intros i s [= <-]. rewrite column_idents_names, insert_copy. apply (key_of_agree columns keys Hschema). intros n Hn.
    apply lookup_copy; [apply names_nodup|]. apply elem_of_app. by left.
  - cbn [mbind option_bind exec_all].
    edestruct (exec_delete_from keys fq_tombstone_table) as (x & Hx & Hux & Hax); [| |rewrite Hx; clear Hx].
    + cbn. repeat constructor. rewrite lookup_insert_ne by done. apply Hm.
    + rewrite rows_insert_ne by done. apply Hm.
    + cbn [mbind option_bind exec_all]. exists t, x. split_and!; [done..| |].
      * intros k. rewrite Hat. fold (target_at m k). cbn [source_rows]. rewrite no_newer by apply Hm. rewrite offered_row.
        unfold upsert_target. destruct (decide (k = k0)) as [->|Hne].
        -- destruct (blocked token (tombstone_at m k0)); cbn [negb]; [by destruct (target_at m k0)|].
           rewrite (at_key_one keys k0 k0 offered offered_key), decide_True by done. rewrite column_idents_names, not_keys_idents. unfold merged.
           destruct (target_at m k0) as [y|]; [|cbn [fmap option_fmap option_map]; by rewrite insert_copy].
           unfold acted. by rewrite older_holds, apply_copy by done.
        -- assert (at_key keys k (if negb (blocked token (tombstone_at m k0)) then [offered] else []) = None) as ->.
           { destruct (blocked _ _); [done|]. cbn [negb]. by rewrite (at_key_one keys k k0 offered offered_key), decide_False. }
           by destruct (target_at m k).
      * intros k. rewrite Hax, rows_insert_ne by done. fold (tombstone_at m k).
        destruct (tombstone_at m k) as [y|] eqn:Ey; [|by destruct (decide (k = k0))].
        cbn [mbind option_bind upsert_tombstone]. rewrite tombstone_guard, holds_below. cbn. rewrite decide_True by done. cbn.
        apply at_key_key in Ey. rewrite Ey. unfold below.
        destruct (decide (k = k0)) as [->|Hne]; [by rewrite bool_decide_true|by rewrite bool_decide_false by congruence].
Qed.

(** *** Deletions *)

(** The tombstone that a guarded deletion offers, and the ones it leaves. *)
Definition offered_tombstone : row := assigns ∅ (((λ k, (k, event_row columns r !! k)) <$> keys) ++ [(TOKEN, Some (v_binary token))]).
Definition entombed (o : option row) : row :=
  match o with
  | Some x => assigns x [(TOKEN, Some (v_binary token))]
  | None => copy (keys ++ [TOKEN]) offered_tombstone ∅
  end.

Lemma key_names_nodup : NoDup (keys ++ [TOKEN]).
Proof. apply NoDup_app. split_and!; [apply Hschema| |apply NoDup_singleton]. intros n Hn. rewrite list_elem_of_singleton. intros ->. by apply token_not_key. Qed.

Lemma offered_tombstone_names : (((λ k, (k, event_row (V := V) columns r !! k)) <$> keys) ++ [(TOKEN, Some (v_binary token))]).*1 = keys ++ [TOKEN].
Proof. rewrite fmap_app, <- list_fmap_compose. by rewrite (list_fmap_id keys : fst ∘ (λ k, (k, event_row columns r !! k)) <$> keys = keys). Qed.

Lemma lookup_offered_tombstone k : k ∈ keys → offered_tombstone !! k = event_row columns r !! k.
Proof.
  intros Hk. apply lookup_assigns; [rewrite offered_tombstone_names; apply key_names_nodup|]. apply elem_of_app. left.
  apply list_elem_of_fmap. by exists k.
Qed.

Lemma offered_tombstone_token : offered_tombstone !! TOKEN = Some (v_binary token).
Proof. apply lookup_assigns; [rewrite offered_tombstone_names; apply key_names_nodup|]. apply elem_of_app. right. by apply list_elem_of_singleton. Qed.

Lemma offered_tombstone_key : key_of keys offered_tombstone = Some k0.
Proof. rewrite <- Hkey. apply key_of_ext. apply lookup_offered_tombstone. Qed.

Lemma offered_tombstone_row t :
  foldl (λ r s, assign r (id_name s.2) (eval_expr [] s.1)) ∅
    (zip (key_literals d columns keys r) (key_idents d keys) ++ [(Lit t (Some (v_binary token)), token_ident)]) = offered_tombstone.
Proof.
  unfold offered_tombstone, assigns. rewrite !foldl_app. cbn. f_equal. unfold key_literals, key_idents.
  assert (∀ k, k ∈ keys → eval_expr [] (key_literal d columns r k) = event_row columns r !! k) as Hev by (intros; by apply (eval_key_literal d columns keys Hschema)).
  clear -Hev. generalize (∅ : row) as acc. induction keys as [|k ks IH]; intros acc; [done|]. cbn. rewrite Hev by left.
  apply IH. intros; apply Hev; by right.
Qed.

Lemma entombed_token o : entombed o !! TOKEN = Some (v_binary token).
Proof.
  destruct o as [x|]; cbn; [by rewrite lookup_insert_eq|].
  rewrite lookup_copy; [apply offered_tombstone_token|apply key_names_nodup|]. apply elem_of_app. right. by apply list_elem_of_singleton.
Qed.

Lemma delete_exec m : sink_ok m →
  ∃ t x, exec_all (delete_stmts d fq_table fq_tombstone_table keys b r (key_literals d columns keys r)) m
           = Some (<[fq_tombstone_table := x]> (<[fq_table := t]> m)) ∧ unique keys t ∧ unique keys x ∧
    (∀ k, at_key keys k t = if decide (k = k0) then delete_target token (target_at m k) else target_at m k) ∧
    (∀ k, at_key keys k x = if decide (k = k0) then delete_tombstone token entombed (tombstone_at m k) else tombstone_at m k).
Proof.
  intros Hm. unfold delete_stmts. cbn [exec_all].
  edestruct (exec_delete_from keys fq_table) as (t & Ht & Hut & Hat); [| |rewrite Ht; clear Ht].
  { cbn. repeat constructor. apply Hm. }
  { apply Hm. }
  cbn [mbind option_bind].
  edestruct (exec_merge d keys (merge_keyword b) fq_tombstone_table (str "t")) as (x & Hx & Hux & Hax); [..|rewrite Hx; clear Hx].
  - cbn. repeat constructor. rewrite lookup_insert_ne by done. apply Hm.
  - done.
  - rewrite rows_insert_ne by done. apply Hm.
  - apply unique_one.
  - intros y s y' Hy Hs. unfold acted. destruct (holds _ _ _); [|by intros [= ->]]. intros [= <-].
    apply key_of_ext. intros k Hk. cbn. rewrite lookup_assign, decide_False; [done|]. intros <-. by apply token_not_key.
  - intros i s [= <-]. rewrite insert_copies. apply key_of_ext. intros k Hk. unfold key_idents. rewrite fmap_app, ident_names.
    apply lookup_copy; [apply key_names_nodup|]. apply elem_of_app. by left.
  - cbn [mbind option_bind exec_all]. exists t, x. split_and!; [done..| |].
    + intros k. rewrite Hat. fold (target_at m k). destruct (target_at m k) as [y|] eqn:Ey; cbn; [|by destruct (decide (k = k0))].
      rewrite holds_and, older_holds. apply at_key_key in Ey.
      assert (holds m [(fq_table, y)] (Match ((λ kv, (Col None kv.1, kv.2)) <$> zip (key_idents d keys) (key_literals d columns keys r))) = bool_decide (k = k0)) as ->.
      { apply eq_bool_prop_intro. rewrite bool_decide_spec, Is_true_true. rewrite (literal_key_match m _ None y) by done. rewrite Ey. naive_solver. }
      destruct (decide (k = k0)) as [->|Hne]; [by rewrite bool_decide_true|by rewrite bool_decide_false].
    + intros k. rewrite Hax, rows_insert_ne by done. fold (tombstone_at m k). cbn [source_rows]. rewrite offered_tombstone_row.
      rewrite (at_key_one keys k k0 _ offered_tombstone_key). destruct (decide (k = k0)) as [->|Hne]; [|by destruct (tombstone_at m k)].
      unfold delete_tombstone, merged. destruct (tombstone_at m k0) as [y|].
      * unfold acted, apply_sets. cbn [foldl fst snd]. rewrite holds_below, eval_first, eval_second by done. cbn [id_name token_ident].
        by rewrite offered_tombstone_token.
      * cbn [fmap option_fmap option_map]. rewrite insert_copies. unfold key_idents. by rewrite fmap_app, ident_names.
Qed.

(** The guarded statements of a row step the register of its key by its event, and change nothing else. *)
Theorem guarded_exec m : sink_ok m →
  ∃ m', exec_all guarded_stmts m = Some m' ∧ sink_ok m' ∧ others_kept m m' ∧
    ∀ k, register_at m' k = if decide (k = k0) then step (register_at m k) (event_of columns r) else register_at m k.
Proof.
  intros Hm. unfold guarded_stmts. destruct (am_mutation (ar_metadata r)) eqn:Hmut.
  - destruct (upsert_exec m Hm) as (t & x & -> & Ht & Hx & Hat & Hax). eexists. split; [reflexivity|].
    assert (∀ k, key_ok (at_key keys k t) (at_key keys k x) ∧ register_of columns (at_key keys k t) (at_key keys k x)
                 = if decide (k = k0) then step (register_at m k) (event_of columns r) else register_at m k) as Hk.
    { intros k. rewrite Hat, Hax. destruct (decide (k = k0)) as [->|_]; [|split; [apply Hm|done]].
      apply (upsert_step columns (event_of columns r)); [apply Hm|done|]. intros o Ho. apply upserted_spec. intros y Hy.
      destruct Ho as [-> | ->]; [done|]. by eapply at_key_key. }
    destruct (sink_replaced m t x Hm Ht Hx (λ k, proj1 (Hk k))) as (Hs & Ho & Hr). split_and!; [done..|]. intros k. rewrite Hr. apply Hk.
  - destruct (delete_exec m Hm) as (t & x & -> & Ht & Hx & Hat & Hax). eexists. split; [reflexivity|].
    assert (∀ k, key_ok (at_key keys k t) (at_key keys k x) ∧ register_of columns (at_key keys k t) (at_key keys k x)
                 = if decide (k = k0) then step (register_at m k) (event_of columns r) else register_at m k) as Hk.
    { intros k. rewrite Hat, Hax. destruct (decide (k = k0)) as [->|_]; [|split; [apply Hm|done]].
      apply (delete_step columns (event_of columns r)); [apply Hm|done|]. apply entombed_token. }
    destruct (sink_replaced m t x Hm Ht Hx (λ k, proj1 (Hk k))) as (Hs & Ho & Hr). split_and!; [done..|]. intros k. rewrite Hr. apply Hk.
Qed.
End Guarded.
