(* ===== verification/CdcApplyBulk.v ===== *)
(** * CdcApplyBulk: the set-based statements step every register by its winner

    The staging tables of a batch, the winners among its rows, and the statements that merge them into the
    target and the tombstones, for the dialects with [MERGE] and for Redshift. *)

From S2P Require Import Prelude Bytes Text Io Codec Cdc Lease Clients IcebergCatalog Sql CdcApply CdcApplyMeaning CdcApplyRegister.

Definition ORDINAL : bytes := str "_skippr_cdc_ordinal".
Definition MUTATION : bytes := str "_skippr_cdc_mutation".
Definition STAGE_TOKEN : bytes := str "_skippr_cdc_order_token".

Definition row_token (r : CdcApplyRow) : bytes := am_order_token (ar_metadata r).
Definition row_ordinal (r : CdcApplyRow) : N := am_source_ordinal (ar_metadata r).

(** The rows of a batch in the order of their ordinals. *)
Definition in_order (rows : list CdcApplyRow) : Prop := StronglySorted (λ r r', (row_ordinal r < row_ordinal r')%N) rows.

(** ** The winner among the rows of a key *)

Definition newer_row (o : option CdcApplyRow) (r : CdcApplyRow) : option CdcApplyRow :=
  match o with
  | Some w => if bool_decide (bytes_lt (row_token w) (row_token r)) then Some r else Some w
  | None => Some r
  end.
Definition best (rows : list CdcApplyRow) : option CdcApplyRow := foldl newer_row None rows.

Definition row_before (r r' : CdcApplyRow) : Prop :=
  bytes_lt (row_token r') (row_token r) ∨ (row_token r = row_token r' ∧ (row_ordinal r < row_ordinal r')%N).

Lemma row_before_asym r r' : row_before r r' → ¬ row_before r' r.
Proof.
  unfold row_before. intros [H|[H1 H2]] [H'|[H1' H2']].
  - apply (bytes_lt_irrefl (row_token r)). eapply bytes_lt_le_trans; [exact H'|]. by apply bytes_lt_iff.
  - rewrite H1' in H. by apply bytes_lt_irrefl in H.
  - rewrite H1 in H'. by apply bytes_lt_irrefl in H'.
  - lia.
Qed.

Lemma best_spec rows w : in_order rows → best rows = Some w → w ∈ rows ∧ ∀ r, r ∈ rows → r = w ∨ row_before w r.
Proof.
  unfold best, in_order. revert w. induction rows as [|x rows IH] using rev_ind; intros w Hs Hw; [done|].
  apply StronglySorted_app in Hs as (Hx & Hs & _).
  rewrite foldl_app in Hw. cbn in Hw. destruct (foldl newer_row None rows) as [w'|] eqn:E; cbn in Hw.
  - destruct (IH w' Hs eq_refl) as [Hin Hall]. case_bool_decide as Hlt; injection Hw as <-.
    + split; [apply elem_of_app; right; by apply list_elem_of_singleton|]. intros r. rewrite elem_of_app, list_elem_of_singleton.
      intros [Hr|Hr]; [|by left]. right. left. destruct (Hall r Hr) as [->|[Hb|[Hb _]]]; [done| |by rewrite <- Hb].
      eapply bytes_lt_le_trans; [exact Hb|]. by apply bytes_lt_iff.
    + split; [apply elem_of_app; by left|]. intros r. rewrite elem_of_app, list_elem_of_singleton. intros [Hr|Hr]; [by apply Hall|]. subst r.
      right. destruct (decide (row_token w' = row_token x)) as [Heq|Hne]; [right; split; [done|]; apply (Hx w' x Hin); by apply list_elem_of_singleton|].
      left. apply bytes_lt_iff. split; [by apply not_lt_le|done].
  - injection Hw as <-. assert (rows = []) as ->.
    { destruct rows as [|y rows] using rev_ind; [done|]. rewrite foldl_app in E. cbn in E. destruct (foldl newer_row None rows); cbn in E; [by case_bool_decide|done]. }
    split; [by apply list_elem_of_singleton|]. intros r Hr. apply list_elem_of_singleton in Hr. by left.
Qed.

Lemma best_None rows : best rows = None → rows = [].
Proof.
  unfold best. destruct rows as [|y rows] using rev_ind; [done|]. rewrite foldl_app. cbn.
  destruct (foldl newer_row None rows); cbn; [by case_bool_decide|done].
Qed.

Lemma in_order_nodup rows : in_order rows → NoDup rows.
Proof.
  induction 1 as [|r rows Hs IH Hall]; constructor; [|done]. intros Hin. rewrite Forall_forall in Hall. specialize (Hall r Hin). lia.
Qed.

Lemma row_order_filter (P : CdcApplyRow → Prop) `{∀ r, Decision (P r)} rows : in_order rows → in_order (filter P rows).
Proof.
  unfold in_order. induction 1 as [|r rows Hs IH Hall]; [constructor|]. rewrite filter_cons. destruct (decide (P r)); [|done]. constructor; [done|].
  rewrite Forall_forall in *. intros x Hx. apply list_elem_of_filter in Hx as [_ Hx]. by apply Hall.
Qed.

Lemma filter_one {A} (P : A → Prop) `{∀ x, Decision (P x)} (l : list A) w : NoDup l → w ∈ l → (∀ x, x ∈ l → P x ↔ x = w) → filter P l = [w].
Proof.
  induction 1 as [|x l Hx Hnd IH]; intros Hw HP; [by apply elem_of_nil in Hw|]. rewrite filter_cons.
  destruct (decide (P x)) as [Hp|Hp].
  - apply HP in Hp; [|left]. subst x. f_equal. assert (filter P l = []) as ->; [|done].
    clear IH Hw. induction l as [|y l IH]; [done|]. rewrite filter_cons, decide_False.
    + apply IH; [set_solver|by inversion Hnd|]. intros z Hz. apply HP. set_solver.
    + rewrite HP by set_solver. set_solver.
  - apply IH; [|intros y Hy; apply HP; by right]. apply elem_of_cons in Hw as [->|Hw]; [|done]. destruct Hp. apply HP; [left|done].
Qed.

(** ** The stage and the winners *)

Section Stage.
Context {V : Type} {SO : SqlOrder V} {SV : SqlValues V}.
Notation row := (gmap bytes V).
Notation table := (list row).
Notation db := (gmap bytes table).
Context (d : CdcWarehouseDialect) (columns : list CdcApplyColumn) (keys : list bytes) (Hschema : schema_ok columns keys).

Definition stage_cells (r : CdcApplyRow) : list (bytes * option V) :=
  [(ORDINAL, Some (v_number (row_ordinal r))); (MUTATION, Some (v_number (mutation_number (am_mutation (ar_metadata r)))));
   (STAGE_TOKEN, Some (v_binary (row_token r)))] ++ cells columns r.

Definition stage_row (r : CdcApplyRow) : row := assigns ∅ (stage_cells r).

Lemma stage_row_new r : length (ar_values r) = length columns →
  new_row [] {| ins_cols := stage_idents d columns; ins_vals := stage_exprs d columns r |} = stage_row r.
Proof.
  intros Hlen. rewrite new_row_assigns. unfold stage_row. f_equal. unfold stage_idents, stage_exprs, stage_cells. cbn. do 3 f_equal.
  unfold cells, literals, column_idents. revert Hlen. generalize (ar_values r) as vs.
  clear Hschema. induction columns as [|c cs IH]; intros [|v vs] Hl; cbn in *; try done. f_equal. apply IH. lia.
Qed.

Lemma stage_names r : length (ar_values r) = length columns → (stage_cells r).*1 = [ORDINAL; MUTATION; STAGE_TOKEN] ++ (ac_name <$> columns).
Proof. intros Hlen. unfold stage_cells. rewrite fmap_app, cells_names by done. done. Qed.

Lemma stage_names_nodup : NoDup ([ORDINAL; MUTATION; STAGE_TOKEN] ++ (ac_name <$> columns)).
Proof.
  apply NoDup_app. split_and!; [by apply (bool_decide_unpack _)| |apply Hschema].
  intros n Hn Hin. apply (so_reserved _ _ Hschema n); [by right|done].
Qed.

Lemma lookup_stage r n v : length (ar_values r) = length columns → (n, v) ∈ stage_cells r → stage_row r !! n = v.
Proof. intros Hlen Hin. apply lookup_assigns; [|done]. rewrite stage_names by done. apply stage_names_nodup. Qed.

Lemma lookup_stage_column r n : length (ar_values r) = length columns → n ∈ ac_name <$> columns → stage_row r !! n = event_row columns r !! n.
Proof.
  intros Hlen Hn. rewrite <- (cells_names (V := V) columns r) in Hn by done. apply list_elem_of_fmap in Hn as ([n' v] & -> & Hin). cbn [fst].
  rewrite (lookup_stage r n' v) by (done || (apply elem_of_app; by right)).
  symmetry. apply lookup_assigns; [|done]. rewrite cells_names by done. apply Hschema.
Qed.

(** What the statements read of a row of the winners. *)
Record staged (s : row) (r : CdcApplyRow) : Prop := {
  sg_columns n : n ∈ ac_name <$> columns → s !! n = event_row columns r !! n;
  sg_ordinal : s !! ORDINAL = Some (v_number (row_ordinal r));
  sg_mutation : s !! MUTATION = Some (v_number (mutation_number (am_mutation (ar_metadata r))));
  sg_token : s !! STAGE_TOKEN = Some (v_binary (row_token r))
}.

Lemma stage_staged r : length (ar_values r) = length columns → staged (stage_row r) r.
Proof.
  intros Hlen. split.
  - intros n Hn. by apply lookup_stage_column.
  - apply lookup_stage; [done|]. left.
  - apply lookup_stage; [done|]. right. left.
  - apply lookup_stage; [done|]. right. right. left.
Qed.

Definition winner_idents : list Ident := column_idents d columns ++ [ordinal_ident d; mutation_ident d; stage_token_ident d].

Lemma winner_names : id_name <$> winner_idents = (ac_name <$> columns) ++ [ORDINAL; MUTATION; STAGE_TOKEN].
Proof. unfold winner_idents, column_idents. rewrite fmap_app, <- list_fmap_compose. done. Qed.

Lemma project_copy (s : row) cs : project cs s = copy (id_name <$> cs) s ∅.
Proof. unfold project, copy, assigns. by rewrite !foldl_fmap. Qed.

Lemma project_staged s r : staged s r → staged (project winner_idents s) r.
Proof.
  intros Hs. rewrite project_copy, winner_names.
  assert (∀ n, n ∈ (ac_name <$> columns) ++ [ORDINAL; MUTATION; STAGE_TOKEN] → copy ((ac_name <$> columns) ++ [ORDINAL; MUTATION; STAGE_TOKEN]) s ∅ !! n = s !! n) as Hc.
  { intros n Hn. apply lookup_copy; [|done]. rewrite (Permutation_app_comm (ac_name <$> columns)). apply stage_names_nodup. }
  split.
  - intros n Hn. rewrite Hc by (apply elem_of_app; by left). by apply Hs.
  - rewrite Hc by (apply elem_of_app; right; left). apply Hs.
  - rewrite Hc by (apply elem_of_app; right; right; left). apply Hs.
  - rewrite Hc by (apply elem_of_app; right; right; right; left). apply Hs.
Qed.

Lemma staged_key s r : staged s r → key_of keys s = event_key columns keys r.
Proof. intros Hs. apply (key_of_agree columns keys Hschema), Hs. Qed.

(** *** Ranking *)

Lemma ranks_before_staged s r s' r' : staged s r → staged s' r' →
  ranks_before (stage_token_ident d) (ordinal_ident d) s s' = bool_decide (row_before r r').
Proof.
  intros Hs Hs'. unfold ranks_before. cbn [id_name stage_token_ident ordinal_ident ident].
  change (str "_skippr_cdc_order_token") with STAGE_TOKEN. change (str "_skippr_cdc_ordinal") with ORDINAL.
  rewrite (sg_token _ _ Hs), (sg_token _ _ Hs'), (sg_ordinal _ _ Hs), (sg_ordinal _ _ Hs'), !v_binary_lt. cbn. rewrite v_number_lt.
  unfold row_before. destruct (decide (bytes_lt (row_token r') (row_token r))) as [H1|H1].
  - rewrite bool_decide_true by done. symmetry. apply bool_decide_true. by left.
  - rewrite (bool_decide_false _ H1). destruct (decide (bytes_lt (row_token r) (row_token r'))) as [H2|H2].
    + rewrite bool_decide_true by done. symmetry. apply bool_decide_false. intros [H|[H _]]; [done|]. rewrite H in H2. by apply bytes_lt_irrefl in H2.
    + rewrite (bool_decide_false _ H2). assert (row_token r = row_token r') as Heq by (apply (anti_symm bytes_le); by apply not_lt_le).
      destruct (N.ltb_spec (row_ordinal r) (row_ordinal r')) as [H|H]; cbn; symmetry; [apply bool_decide_true; by right|apply bool_decide_false; intros [?|[_ ?]]; [done|lia]].
Qed.

Lemma partition_key (s s' : row) k : key_of keys s = Some k → partition_of (key_idents d keys) s' = partition_of (key_idents d keys) s ↔ key_of keys s' = Some k.
Proof.
  unfold partition_of, key_idents, key_of. rewrite <- !list_fmap_compose. clear Hschema. revert k.
  induction keys as [|n ks IH]; intros k Hk; cbn in *; [naive_solver|].
  destruct (s !! n) as [v|]; [|done]. cbn in Hk. destruct (mapM (λ c, s !! c) ks) as [l|] eqn:El; [|done]. injection Hk as <-.
  specialize (IH l eq_refl). split.
  - intros [= Hn Ht]. rewrite Hn. cbn. apply IH in Ht. by rewrite Ht.
  - destruct (s' !! n) as [v'|] eqn:En; cbn; [|done]. destruct (mapM (λ c, s' !! c) ks) as [l'|] eqn:El'; cbn; [|done]. intros [= -> ->]. f_equal.
    by apply IH.
Qed.

Context (rows : list CdcApplyRow).
Context (Hrows : ∀ r, r ∈ rows → length (ar_values r) = length columns ∧ is_Some (event_key (V := V) columns keys r)) (Hord : in_order rows).

(** The rows of a key, the table of the winners. *)
Definition rows_at (k : list V) : list CdcApplyRow := filter (λ r, event_key columns keys r = Some k) rows.
Definition winners_table : table := project winner_idents <$> ranked_first (key_idents d keys) (stage_token_ident d) (ordinal_ident d) (stage_row <$> rows).
Definition winner_row (r : CdcApplyRow) : row := project winner_idents (stage_row r).

Lemma winner_staged r : r ∈ rows → staged (winner_row r) r.
Proof. intros Hr. apply project_staged, stage_staged. by apply Hrows. Qed.

Lemma slice_winners k : slice keys k winners_table = option_list (winner_row <$> best (rows_at k)).
Proof.
  unfold winners_table. rewrite slice_fmap.
  2:{ intros s Hs. unfold ranked_first in Hs. apply list_elem_of_filter in Hs as [_ Hs]. apply list_elem_of_fmap in Hs as (r & -> & Hr).
      rewrite (staged_key _ r), (staged_key _ r); [done|by apply stage_staged, Hrows|by apply winner_staged]. }
  unfold ranked_first. rewrite slice_filter.
  assert (slice keys k (stage_row <$> rows) = stage_row <$> rows_at k) as ->.
  { unfold slice, rows_at. clear Hord. induction rows as [|r rs IH]; [done|]. rewrite fmap_cons, !filter_cons.
    rewrite (staged_key _ r) by (apply stage_staged, Hrows; left). rewrite IH by (intros; apply Hrows; by right). by destruct (decide _). }
  set (Q := λ s : row, forallb (λ s', negb (bool_decide (partition_of (key_idents d keys) s' = partition_of (key_idents d keys) s) &&
    ranks_before (stage_token_ident d) (ordinal_ident d) s' s)) (stage_row <$> rows) = true).
  assert (∀ r, r ∈ rows_at k → Q (stage_row r) ↔ ∀ r', r' ∈ rows_at k → ¬ row_before r' r) as HQ.
  { intros r Hr. apply list_elem_of_filter in Hr as [Hk Hr]. unfold Q. rewrite forallb_forall. split.
    - intros H r' Hr' Hb. apply list_elem_of_filter in Hr' as [Hk' Hr']. specialize (H (stage_row r')).
      rewrite <- list_elem_of_In in H. specialize (H (list_elem_of_fmap_2 _ _ _ Hr')).
      assert (staged (stage_row r) r) as S1 by (by apply stage_staged, Hrows). assert (staged (stage_row r') r') as S2 by (by apply stage_staged, Hrows).
      rewrite (ranks_before_staged _ _ _ _ S2 S1), (bool_decide_true _ Hb), bool_decide_true in H; [done|].
      apply (partition_key _ _ k); rewrite (staged_key _ _ S1) || rewrite (staged_key _ _ S2); done.
    - intros H s' Hs'. apply list_elem_of_In, list_elem_of_fmap in Hs' as (r' & -> & Hr').
      assert (staged (stage_row r) r) as S1 by (by apply stage_staged, Hrows). assert (staged (stage_row r') r') as S2 by (by apply stage_staged, Hrows).
      rewrite (ranks_before_staged _ _ _ _ S2 S1). destruct (decide (row_before r' r)) as [Hb|Hb]; [|rewrite (bool_decide_false _ Hb); by rewrite andb_false_r].
      rewrite bool_decide_false; [done|]. rewrite (partition_key _ _ k) by (by rewrite (staged_key _ _ S1)). rewrite (staged_key _ _ S2).
      intros Hk'. apply (H r'); [|done]. by apply list_elem_of_filter. }
  assert (filter Q (stage_row <$> rows_at k) = option_list (stage_row <$> best (rows_at k))) as ->; [|by destruct (best (rows_at k))].
  assert (filter Q (stage_row <$> rows_at k) = stage_row <$> filter (λ r, Q (stage_row r)) (rows_at k)) as ->.
  { clear. induction (rows_at k) as [|r l IH]; [done|]. rewrite fmap_cons, !filter_cons, IH. by destruct (decide (Q (stage_row r))). }
  destruct (best (rows_at k)) as [w|] eqn:Ew; [|by apply best_None in Ew as ->].
  assert (in_order (rows_at k)) as Hs by (by apply row_order_filter).
  destruct (best_spec _ _ Hs Ew) as [Hw Hall]. rewrite (filter_one _ _ w); [done|by apply in_order_nodup|done|].
  intros r Hr. rewrite HQ by done. split.
  - intros H. destruct (Hall r Hr) as [->|Hb]; [done|]. by apply H in Hb.
  - intros -> r' Hr' Hb. destruct (Hall r' Hr') as [->|Hb']; by apply (row_before_asym _ _ Hb).
Qed.

Lemma winners_spec : unique keys winners_table ∧ ∀ k, at_key keys k winners_table = winner_row <$> best (rows_at k).
Proof. apply unique_of. intros k. apply slice_winners. Qed.
End Stage.

(** ** The statements that apply the winners *)

Section Apply.
Context {V : Type} {SO : SqlOrder V} {SV : SqlValues V}.
Notation row := (gmap bytes V).
Notation table := (list row).
Notation db := (gmap bytes table).
Context (d : CdcWarehouseDialect) (fq_table fq_tombstone_table winners : bytes) (columns : list CdcApplyColumn) (keys : list bytes).
Context (Hschema : schema_ok columns keys) (Hft : fq_table ≠ fq_tombstone_table) (Hfw : fq_table ≠ winners) (Htw : fq_tombstone_table ≠ winners).
(** The winner of each key, and its row in the table of the winners. *)
Context (W : table) (HW : unique keys W) (win : list V → option CdcApplyRow).
Context (Hwin : ∀ k, match win k with
                     | Some r => ∃ s, at_key keys k W = Some s ∧ staged columns s r ∧ event_key columns keys r = Some k ∧ length (ar_values r) = length columns
                     | None => at_key keys k W = None
                     end).

(** Both tables of the sink are there with one row per key, and so are the winners. *)
Record tables_ok (m : db) : Prop := {
  tk_target : is_Some (m !! fq_table);
  tk_tombstone : is_Some (m !! fq_tombstone_table);
  tk_unique_target : unique keys (rows_of m fq_table);
  tk_unique_tombstone : unique keys (rows_of m fq_tombstone_table)
}.
Notation ready m := (tables_ok m ∧ m !! winners = Some W).

(** The winner of a key if it is a mutation of a kind. *)
Definition win_of (mu : CdcApplyMutation) (k : list V) : option CdcApplyRow :=
  r ← win k; match am_mutation (ar_metadata r), mu with ApplyUpsert, ApplyUpsert | ApplyDelete, ApplyDelete => Some r | _, _ => None end.

(** The columns and the token of a winner written to a row. *)
Definition written (names : list bytes) (s x : row) : row := assigns x (((λ n, (n, s !! n)) <$> names) ++ [(TOKEN, s !! STAGE_TOKEN)]).

Lemma written_copy names s x : written names s x = assign (copy names s x) TOKEN (s !! STAGE_TOKEN).
Proof. unfold written, copy, assigns. by rewrite foldl_app. Qed.

Lemma lookup_written_token names s x : written names s x !! TOKEN = s !! STAGE_TOKEN.
Proof. rewrite written_copy, lookup_assign. by rewrite decide_True. Qed.

Lemma lookup_written names s x n : n ≠ TOKEN → written names s x !! n = copy names s x !! n.
Proof. intros H. rewrite written_copy, lookup_assign. by rewrite decide_False. Qed.

Lemma sets_written (a b : bytes) (x s : row) (names : list bytes) : a ≠ b →
  apply_sets [(a, x); (b, s)] (((λ i, (i, Col (Some b) i)) <$> (ident d <$> names)) ++ [(ident d TOKEN, Col (Some b) (stage_token_ident d))]) x
  = written names s x.
Proof.
  intros Hab. rewrite written_copy. unfold apply_sets. rewrite foldl_app. cbn [foldl fst snd]. rewrite eval_second by done.
  f_equal. rewrite <- (apply_copy d a b x s names Hab). done.
Qed.

Lemma insert_written (b : bytes) (s : row) (cs : list Ident) :
  new_row [(b, s)] {| ins_cols := cs ++ [ident d TOKEN]; ins_vals := (Col (Some b) <$> cs) ++ [Col (Some b) (stage_token_ident d)] |}
  = written (id_name <$> cs) s ∅.
Proof.
  rewrite new_row_assigns, written_copy. cbn [ins_cols ins_vals]. rewrite zip_with_app by (by rewrite length_fmap). rewrite fmap_app.
  unfold assigns. rewrite foldl_app. cbn [foldl fmap list_fmap zip_with fst snd]. rewrite eval_first. f_equal.
  rewrite <- (insert_copies b s cs), new_row_assigns. done.
Qed.

(** *** Conditions *)

Lemma mutation_holds (m : db) (e : list (bytes * row)) (q : option bytes) (s : row) (r : CdcApplyRow) mu : (∀ i, eval_expr e (Col q i) = s !! id_name i) → staged columns s r →
  holds m e (Match [(Col q (mutation_ident d), mutation_literal mu)]) = match am_mutation (ar_metadata r), mu with ApplyUpsert, ApplyUpsert | ApplyDelete, ApplyDelete => true | _, _ => false end.
Proof.
  intros He Hs. apply eq_bool_prop_intro. rewrite !Is_true_true, holds_match, Forall_singleton. cbn [fst snd]. rewrite He.
  cbn [id_name mutation_ident ident eval_expr mutation_literal]. change (str "_skippr_cdc_mutation") with MUTATION. rewrite (sg_mutation _ _ _ Hs).
  split; [intros [_ H]; apply (inj Some), (inj v_number) in H|]; destruct (am_mutation (ar_metadata r)), mu; cbn in *; try done; (split; [eauto|done]).
Qed.

Lemma older_target_holds (m : db) (x s : row) (q : bytes) (r : CdcApplyRow) : str "target" ≠ q → staged columns s r →
  holds m [(str "target", x); (q, s)] (older_target d q) = older (row_token r) x.
Proof.
  intros Hq Hs. unfold older_target. rewrite holds_or, holds_is_null, holds_below, eval_first, eval_second by done.
  cbn [id_name ident stage_token_ident]. change (str "_skippr_cdc_order_token") with STAGE_TOKEN. rewrite (sg_token _ _ _ Hs). unfold older. by destruct (x !! TOKEN).
Qed.

Lemma older_tombstone_holds (m : db) (x s : row) (q : bytes) (r : CdcApplyRow) : str "tombstone" ≠ q → staged columns s r →
  holds m [(str "tombstone", x); (q, s)] (older_tombstone d q) = below (row_token r) x.
Proof.
  intros Hq Hs. unfold older_tombstone. rewrite holds_below, eval_first, eval_second by done.
  cbn [id_name ident stage_token_ident]. change (str "_skippr_cdc_order_token") with STAGE_TOKEN. by rewrite (sg_token _ _ _ Hs).
Qed.

Lemma no_newer_holds (m : db) (e : list (bytes * row)) (q : bytes) (s : row) (r : CdcApplyRow) (k : list V) : unique keys (rows_of m fq_tombstone_table) → str "tombstone" ≠ q →
  (∀ i, eval_expr e (Col (Some q) i) = s !! id_name i) → staged columns s r → event_key columns keys r = Some k →
  holds m e (no_newer_tombstone d fq_tombstone_table keys q) = negb (blocked (row_token r) (tombstone_at fq_tombstone_table keys m k)).
Proof.
  intros Hu Hq He Hs Hk. unfold no_newer_tombstone. rewrite holds_not_exists. f_equal. cbn [default]. fold (rows_of m fq_tombstone_table).
  assert (∀ x i, eval_expr ((str "tombstone", x) :: e) (Col (Some q) i) = s !! id_name i) as He'.
  { intros x i. rewrite <- He. cbn. by rewrite decide_False by congruence. }
  assert (∀ x, holds m ((str "tombstone", x) :: e) (And (same_keys d keys (str "tombstone") q)
    (AtLeast (Col (Some (str "tombstone")) (ident d TOKEN)) (Col (Some q) (stage_token_ident d)))) = bool_decide (key_of keys x = Some k) && not_below (row_token r) x) as Hx.
  { intros x. rewrite holds_and, holds_at_least, eval_first, He'. cbn [id_name ident stage_token_ident].
    change (str "_skippr_cdc_order_token") with STAGE_TOKEN. rewrite (sg_token _ _ _ Hs). f_equal.
    apply eq_bool_prop_intro. rewrite bool_decide_spec, Is_true_true, (same_keys_env d keys m _ _ _ x s) by (done || (intros; apply eval_first)).
    rewrite (staged_key columns keys Hschema _ _ Hs), Hk. split; [intros [[y Hy] <-]; done|intros ->; eauto]. }
  rewrite (exists_at keys k); [|done|].
  - unfold tombstone_at. destruct (at_key keys k (rows_of m fq_tombstone_table)) as [x|] eqn:E; [|done].
    rewrite Hx, bool_decide_true by (by eapply at_key_key). done.
  - intros x. rewrite Hx, andb_true_iff, bool_decide_eq_true. by intros [? _].
Qed.

(** *** The rows that are written *)

Definition bulk_upserted (s : row) (o : option row) : row :=
  match o with
  | Some x => written (filter (λ n, n ∉ keys) (ac_name <$> columns)) s x
  | None => written (ac_name <$> columns) s ∅
  end.
Definition bulk_entombed (s : row) (o : option row) : row :=
  match o with
  | Some x => written [] s x
  | None => written keys s ∅
  end.

Lemma token_no_key : TOKEN ∉ keys.
Proof. intros H. apply (so_reserved _ _ Hschema TOKEN); [left|by apply Hschema]. Qed.

Lemma column_not_token n : n ∈ ac_name <$> columns → n ≠ TOKEN.
Proof. intros H ->. by apply (so_reserved _ _ Hschema TOKEN); [left|]. Qed.

Lemma lookup_bulk_upserted (s : row) (o : option row) n : (∀ x, o = Some x → is_Some (key_of keys x) ∧ key_of keys s = key_of keys x) →
  n ∈ ac_name <$> columns → bulk_upserted s o !! n = s !! n.
Proof.
  intros Ho Hn. destruct o as [x|]; cbn.
  - rewrite lookup_written by (by apply column_not_token). destruct (Ho x eq_refl) as [Hx Hs]. destruct (decide (n ∈ keys)) as [Hk|Hk].
    + rewrite lookup_copy_out by (rewrite list_elem_of_filter; tauto). symmetry. by apply (key_of_lookup keys).
    + apply lookup_copy; [apply NoDup_filter, Hschema|]. by apply list_elem_of_filter.
  - rewrite lookup_written by (by apply column_not_token). apply lookup_copy; [apply Hschema|done].
Qed.

Lemma bulk_upserted_key (s : row) o : (∀ x, o = Some x → is_Some (key_of keys x) ∧ key_of keys s = key_of keys x) → key_of keys (bulk_upserted s o) = key_of keys s.
Proof. intros Ho. apply (key_of_agree columns keys Hschema). intros n Hn. by apply lookup_bulk_upserted. Qed.

Lemma bulk_upserted_token (s : row) o : bulk_upserted s o !! TOKEN = s !! STAGE_TOKEN.
Proof. destruct o; apply lookup_written_token. Qed.

Lemma bulk_entombed_token (s : row) o : bulk_entombed s o !! TOKEN = s !! STAGE_TOKEN.
Proof. destruct o; apply lookup_written_token. Qed.

Lemma bulk_entombed_key (s : row) o : (∀ x, o = Some x → key_of keys s = key_of keys x) → key_of keys (bulk_entombed s o) = key_of keys s.
Proof.
  intros Ho. destruct o as [x|]; unfold bulk_entombed.
  - rewrite (Ho x eq_refl). apply key_of_ext. intros k Hk. rewrite lookup_written; [done|]. intros ->. by apply token_no_key.
  - apply key_of_ext. intros k Hk. rewrite lookup_written by (intros ->; by apply token_no_key). apply lookup_copy; [apply Hschema|done].
Qed.

(** *** What a source of winners offers at a key *)

Lemma rows_winners m : m !! winners = Some W → rows_of m winners = W.
Proof. unfold rows_of. by intros ->. Qed.

Lemma source_at m alias c : m !! winners = Some W → unique keys (source_rows m (Rows winners alias c)) ∧
  ∀ k, at_key keys k (source_rows m (Rows winners alias c)) = s ← at_key keys k W; if holds m [(default winners alias, s)] c then Some s else None.
Proof.
  intros Hm. cbn [source_rows]. rewrite Hm. change (default [] (Some W)) with W. split; [apply unique_filter; exact HW|].
  intros k. rewrite at_key_filter by exact HW. destruct (at_key keys k W) as [s|]; cbn; [|done]. by destruct (holds m _ c).
Qed.

(** The winner of a key in a condition on the mutation. *)
Lemma of_mutation m alias mu k : m !! winners = Some W →
  at_key keys k (source_rows m (Rows winners alias (Match [(Col alias (mutation_ident d), mutation_literal mu)]))) =
  match win_of mu k with Some _ => at_key keys k W | None => None end.
Proof.
  intros Hm. rewrite (proj2 (source_at m alias _ Hm) k). unfold win_of. specialize (Hwin k). destruct (win k) as [r|]; cbn; [|by rewrite Hwin].
  destruct Hwin as (s & Hs & Hst & _). rewrite Hs. cbn. rewrite (mutation_holds m _ alias s r mu); [by destruct (am_mutation (ar_metadata r)), mu| |done].
  intros i. destruct alias; [apply eval_first|done].
Qed.

Lemma win_row k r : win k = Some r → ∃ s, at_key keys k W = Some s ∧ staged columns s r ∧ event_key columns keys r = Some k ∧ length (ar_values r) = length columns.
Proof. intros H. specialize (Hwin k). by rewrite H in Hwin. Qed.

Lemma win_of_Some mu k r : win_of mu k = Some r ↔ win k = Some r ∧ am_mutation (ar_metadata r) = mu.
Proof.
  unfold win_of. destruct (win k) as [r'|]; cbn; [|by split; [|intros [? _]]].
  destruct (am_mutation (ar_metadata r')) eqn:E, mu; (split; [by (intros [= <-]) || done|intros [[= <-] ?]; congruence]).
Qed.

(** *** The dialects with [MERGE] *)

Definition target_after (k : list V) (target tombstone : option row) : option row :=
  match win k with
  | Some r =>
      match am_mutation (ar_metadata r) with
      | ApplyUpsert => upsert_target (row_token r) (bulk_upserted (default ∅ (at_key keys k W))) target tombstone
      | ApplyDelete => delete_target (row_token r) target
      end
  | None => target
  end.
Definition tombstone_after (k : list V) (tombstone : option row) : option row :=
  match win k with
  | Some r =>
      match am_mutation (ar_metadata r) with
      | ApplyUpsert => upsert_tombstone (row_token r) tombstone
      | ApplyDelete => delete_tombstone (row_token r) (bulk_entombed (default ∅ (at_key keys k W))) tombstone
      end
  | None => tombstone
  end.

Notation target_at := (target_at fq_table keys).
Notation tombstone_at := (tombstone_at fq_tombstone_table keys).

Lemma target_set_names b : target_sets (V := V) d columns keys b =
  ((λ i, (i, Col (Some b) i)) <$> (ident d <$> filter (λ n, n ∉ keys) (ac_name <$> columns))) ++ [(ident d TOKEN, Col (Some b) (stage_token_ident d))].
Proof.
  unfold target_sets. f_equal. f_equal. rewrite <- not_keys_idents. unfold column_idents. by rewrite <- list_fmap_compose.
Qed.

Lemma target_insertion_row (s : row) : new_row [(str "source", s)] (target_insertion d columns) = bulk_upserted s None.
Proof.
  unfold target_insertion. rewrite insert_written. cbn. f_equal. unfold column_idents. by rewrite <- list_fmap_compose.
Qed.

Lemma tombstone_insertion_row (s : row) : new_row [(str "source", s)] (tombstone_insertion d keys) = bulk_entombed s None.
Proof. unfold tombstone_insertion. rewrite insert_written. cbn. f_equal. unfold key_idents. apply ident_names. Qed.

Lemma target_sets_row (a b : bytes) (x s : row) : a ≠ b → apply_sets [(a, x); (b, s)] (target_sets d columns keys b) x = bulk_upserted s (Some x).
Proof. intros Hab. rewrite target_set_names. by apply sets_written. Qed.

Lemma tombstone_sets_row (a b : bytes) (x s : row) : a ≠ b → apply_sets [(a, x); (b, s)] [(ident d TOKEN, Col (Some b) (stage_token_ident d))] x = bulk_entombed s (Some x).
Proof. intros Hab. exact (sets_written a b x s [] Hab). Qed.

(** Merging the upserts into the target. *)
Lemma merge_upserts (m : db) : ready m →
  ∃ t, exec (Merge (str "MERGE INTO") fq_table (str "target")
     (Rows winners (Some (str "winner")) (And (Match [(Col (Some (str "winner")) (mutation_ident d), mutation_literal ApplyUpsert)])
        (no_newer_tombstone d fq_tombstone_table keys (str "winner"))))
     (str "source") (same_keys d keys (str "target") (str "source")) (older_target d (str "source")) (SetAll (target_sets d columns keys (str "source")))
     (Some (target_insertion d columns)) layout_upsert) m = Some (<[fq_table := t]> m) ∧ unique keys t ∧
   ∀ k, at_key keys k t = match win_of ApplyUpsert k with
                          | Some r => upsert_target (row_token r) (bulk_upserted (default ∅ (at_key keys k W))) (target_at m k) (tombstone_at m k)
                          | None => target_at m k
                          end.
Proof.
  intros [Hm Hmw].
  edestruct (exec_merge d keys (str "MERGE INTO") fq_table (str "target")) as (t & Ht & Hut & Hat); [..|eexists; split; [exact Ht|]; split; [exact Hut|]].
  - cbn. repeat constructor; [apply Hm|by rewrite Hmw|apply Hm].
  - done.
  - apply Hm.
  - by apply source_at.
  - intros x s x' Hx Hs. unfold acted. destruct (holds m _ _); [|by intros [= ->]]. rewrite target_sets_row by done. intros Heq.
    assert (x' = bulk_upserted s (Some x)) as -> by congruence. rewrite bulk_upserted_key; [done|]. by intros ? [= ->].
  - intros i s [= <-]. rewrite target_insertion_row. by apply bulk_upserted_key.
  - intros k. rewrite Hat. fold (target_at m k). rewrite (proj2 (source_at m _ _ Hmw) k). cbn [default].
    destruct (win k) as [r|] eqn:Ew.
    + destruct (win_row k r Ew) as (s & Hs & Hst & Hk & _). rewrite Hs. cbn [mbind option_bind default].
      rewrite holds_and, (mutation_holds m _ _ s r) by (done || (intros; apply eval_first)).
      unfold win_of. rewrite Ew. cbn [mbind option_bind]. destruct (am_mutation (ar_metadata r)); [|by destruct (target_at m k)]. cbn [andb].
      rewrite (no_newer_holds m _ _ s r k) by (done || apply Hm || (intros; apply eval_first)). unfold upsert_target.
      destruct (blocked (row_token r) (tombstone_at m k)); cbn [negb]; [by destruct (target_at m k)|]. unfold merged.
      destruct (target_at m k) as [x|]; [|cbn [fmap option_fmap option_map]; by rewrite target_insertion_row].
      unfold acted. rewrite (older_target_holds m x s _ r) by done. by rewrite target_sets_row by done.
    + specialize (Hwin k). rewrite Ew in Hwin. rewrite Hwin. unfold win_of. rewrite Ew. cbn. by destruct (target_at m k).
Qed.

(** A merge of the winners of a kind that matches on the keys, its effect at each key. *)
Lemma merge_kind (m : db) tbl alias mu when_ act ins l : ready m → is_Some (m !! tbl) → unique keys (rows_of m tbl) → alias ≠ str "source" → cond_tables when_ = [] →
  (∀ x s x', is_Some (key_of keys x) → key_of keys s = key_of keys x → acted m alias (str "source") when_ act x s = Some x' → key_of keys x' = key_of keys x) →
  (∀ i s, ins = Some i → key_of keys (new_row [(str "source", s)] i) = key_of keys s) →
  ∃ t, exec (Merge (str "MERGE INTO") tbl alias (Rows winners None (Match [(Col None (mutation_ident d), mutation_literal mu)])) (str "source")
              (same_keys d keys alias (str "source")) when_ act ins l) m = Some (<[tbl := t]> m) ∧ unique keys t ∧
    ∀ k, at_key keys k t = match win_of mu k with
                           | Some r => merged m alias (str "source") when_ act ins (at_key keys k (rows_of m tbl)) (at_key keys k W)
                           | None => at_key keys k (rows_of m tbl)
                           end.
Proof.
  intros [Hm Hmw] Htbl Hu Ha Hct Hact Hins.
  edestruct (exec_merge d keys (str "MERGE INTO") tbl alias) as (t & Ht & Hut & Hat); [..|eexists; split; [exact Ht|]; split; [exact Hut|]].
  - cbn. rewrite Hct. repeat constructor; [done|by rewrite Hmw].
  - done.
  - done.
  - by apply source_at.
  - exact Hact.
  - exact Hins.
  - intros k. rewrite Hat, (of_mutation m None mu k Hmw). destruct (win_of mu k) as [r|]; [done|]. unfold merged. by destruct (at_key keys k (rows_of m tbl)).
Qed.

Lemma merge_deletes (m : db) : ready m →
  ∃ t, exec (Merge (str "MERGE INTO") fq_table (str "target") (Rows winners None (Match [(Col None (mutation_ident d), mutation_literal ApplyDelete)]))
     (str "source") (same_keys d keys (str "target") (str "source")) (older_target d (str "source")) Remove None layout_upsert) m
     = Some (<[fq_table := t]> m) ∧ unique keys t ∧
   ∀ k, at_key keys k t = match win_of ApplyDelete k with Some r => delete_target (row_token r) (target_at m k) | None => target_at m k end.
Proof.
  intros [Hm Hmw]. edestruct (merge_kind m fq_table (str "target") ApplyDelete) as (t & Ht & Hut & Hat); [..|eexists; split; [exact Ht|]; split; [exact Hut|]].
  - done.
  - apply Hm.
  - apply Hm.
  - done.
  - done.
  - intros x s x' _ _. unfold acted. destruct (holds m _ _); [done|by intros [= ->]].
  - done.
  - intros k. rewrite Hat. destruct (win_of ApplyDelete k) as [r|] eqn:Ew; [|done]. apply win_of_Some in Ew as [Ew _].
    destruct (win_row k r Ew) as (s & Hs & Hst & _). rewrite Hs. fold (target_at m k). unfold merged, delete_target.
    destruct (target_at m k) as [x|]; [|done]. unfold acted. by rewrite (older_target_holds m x s _ r).
Qed.

Lemma merge_tombstones (m : db) : ready m →
  ∃ t, exec (Merge (str "MERGE INTO") fq_tombstone_table (str "tombstone") (Rows winners None (Match [(Col None (mutation_ident d), mutation_literal ApplyDelete)]))
     (str "source") (same_keys d keys (str "tombstone") (str "source")) (older_tombstone d (str "source"))
     (SetAll [(ident d TOKEN, Col (Some (str "source")) (stage_token_ident d))]) (Some (tombstone_insertion d keys)) layout_tombstone) m
     = Some (<[fq_tombstone_table := t]> m) ∧ unique keys t ∧
   ∀ k, at_key keys k t = match win_of ApplyDelete k with
                          | Some r => delete_tombstone (row_token r) (bulk_entombed (default ∅ (at_key keys k W))) (tombstone_at m k)
                          | None => tombstone_at m k
                          end.
Proof.
  intros [Hm Hmw]. edestruct (merge_kind m fq_tombstone_table (str "tombstone") ApplyDelete) as (t & Ht & Hut & Hat); [..|eexists; split; [exact Ht|]; split; [exact Hut|]].
  - done.
  - apply Hm.
  - apply Hm.
  - done.
  - done.
  - intros x s x' Hx Hs. unfold acted. destruct (holds m _ _); [|by intros [= ->]]. rewrite tombstone_sets_row by done. intros Heq.
    assert (x' = bulk_entombed s (Some x)) as -> by congruence. rewrite bulk_entombed_key; [done|]. by intros ? [= ->].
  - intros i s [= <-]. rewrite tombstone_insertion_row. by apply bulk_entombed_key.
  - intros k. rewrite Hat. destruct (win_of ApplyDelete k) as [r|] eqn:Ew; [|done]. apply win_of_Some in Ew as [Ew _].
    destruct (win_row k r Ew) as (s & Hs & Hst & _). rewrite Hs. fold (tombstone_at m k). unfold merged, delete_tombstone.
    destruct (tombstone_at m k) as [x|]; [|cbn [fmap option_fmap option_map]; by rewrite tombstone_insertion_row].
    unfold acted. rewrite (older_tombstone_holds m x s _ r) by done. by rewrite tombstone_sets_row by done.
Qed.

Lemma merge_clear (m : db) : ready m →
  ∃ t, exec (Merge (str "MERGE INTO") fq_tombstone_table (str "tombstone") (Rows winners None (Match [(Col None (mutation_ident d), mutation_literal ApplyUpsert)]))
     (str "source") (same_keys d keys (str "tombstone") (str "source")) (older_tombstone d (str "source")) Remove None layout_tombstone) m
     = Some (<[fq_tombstone_table := t]> m) ∧ unique keys t ∧
   ∀ k, at_key keys k t = match win_of ApplyUpsert k with Some r => upsert_tombstone (row_token r) (tombstone_at m k) | None => tombstone_at m k end.
Proof.
  intros [Hm Hmw]. edestruct (merge_kind m fq_tombstone_table (str "tombstone") ApplyUpsert) as (t & Ht & Hut & Hat); [..|eexists; split; [exact Ht|]; split; [exact Hut|]].
  - done.
  - apply Hm.
  - apply Hm.
  - done.
  - done.
  - intros x s x' _ _. unfold acted. destruct (holds m _ _); [done|by intros [= ->]].
  - done.
  - intros k. rewrite Hat. destruct (win_of ApplyUpsert k) as [r|] eqn:Ew; [|done]. apply win_of_Some in Ew as [Ew _].
    destruct (win_row k r Ew) as (s & Hs & Hst & _). rewrite Hs. fold (tombstone_at m k). unfold merged, upsert_tombstone.
    destruct (tombstone_at m k) as [x|]; [|done]. unfold acted. by rewrite (older_tombstone_holds m x s _ r).
Qed.

Lemma ready_target (m : db) t : ready m → unique keys t → ready (<[fq_table := t]> m).
Proof.
  intros [Hm Hmw] Ht. split; [|by rewrite lookup_insert_ne]. split.
  - rewrite lookup_insert_eq. eauto.
  - rewrite lookup_insert_ne by done. apply Hm.
  - by rewrite rows_insert_eq.
  - rewrite rows_insert_ne by done. apply Hm.
Qed.

Lemma ready_tombstone (m : db) t : ready m → unique keys t → ready (<[fq_tombstone_table := t]> m).
Proof.
  intros [Hm Hmw] Ht. split; [|by rewrite lookup_insert_ne]. split.
  - rewrite lookup_insert_ne by done. apply Hm.
  - rewrite lookup_insert_eq. eauto.
  - rewrite rows_insert_ne by done. apply Hm.
  - by rewrite rows_insert_eq.
Qed.

Lemma target_at_insert (m : db) t k : target_at (<[fq_table := t]> m) k = at_key keys k t.
Proof. unfold CdcApplyRegister.target_at. by rewrite rows_insert_eq. Qed.
Lemma tombstone_at_insert (m : db) t k : tombstone_at (<[fq_tombstone_table := t]> m) k = at_key keys k t.
Proof. unfold CdcApplyRegister.tombstone_at. by rewrite rows_insert_eq. Qed.
Lemma target_at_insert_ne (m : db) tbl t k : tbl ≠ fq_table → target_at (<[tbl := t]> m) k = target_at m k.
Proof. intros H. unfold CdcApplyRegister.target_at. by rewrite rows_insert_ne. Qed.
Lemma tombstone_at_insert_ne (m : db) tbl t k : tbl ≠ fq_tombstone_table → tombstone_at (<[tbl := t]> m) k = tombstone_at m k.
Proof. intros H. unfold CdcApplyRegister.tombstone_at. by rewrite rows_insert_ne. Qed.

(** What the statements leave: new tables, each key changed by its winner. *)
Definition applied (m : db) (o : option db) : Prop :=
  ∃ t x, o = Some (<[fq_tombstone_table := x]> (<[fq_table := t]> m)) ∧ unique keys t ∧ unique keys x ∧
    ∀ k, at_key keys k t = target_after k (target_at m k) (tombstone_at m k) ∧ at_key keys k x = tombstone_after k (tombstone_at m k).

Lemma after_win k r : win k = Some r → ∀ mu, win_of mu k = match am_mutation (ar_metadata r), mu with ApplyUpsert, ApplyUpsert | ApplyDelete, ApplyDelete => Some r | _, _ => None end.
Proof. intros H mu. unfold win_of. by rewrite H. Qed.

Lemma merge_exec (m : db) : ready m → applied m (exec_all (merge_stmts d fq_table fq_tombstone_table columns keys winners) m).
Proof.
  intros Hm. unfold merge_stmts. cbn [exec_all].
  destruct (merge_upserts m Hm) as (t1 & -> & Hu1 & Hat1). cbn [mbind option_bind].
  destruct (merge_deletes _ (ready_target m t1 Hm Hu1)) as (t2 & -> & Hu2 & Hat2). cbn [mbind option_bind]. rewrite insert_insert_eq.
  destruct (merge_tombstones _ (ready_target m t2 Hm Hu2)) as (x1 & -> & Hx1 & Hax1). cbn [mbind option_bind].
  destruct (merge_clear _ (ready_tombstone _ x1 (ready_target m t2 Hm Hu2) Hx1)) as (x2 & -> & Hx2 & Hax2). cbn [mbind option_bind]. rewrite insert_insert_eq.
  exists t2, x2. split_and!; [done..|]. intros k. rewrite Hat2, Hax2, target_at_insert, tombstone_at_insert, Hat1, Hax1.
  rewrite tombstone_at_insert_ne by done. unfold target_after, tombstone_after.
  destruct (win k) as [r|] eqn:Ew; [|unfold win_of; by rewrite Ew]. rewrite !(after_win k r Ew). by destruct (am_mutation (ar_metadata r)).
Qed.

(** *** Redshift *)

(** A row of a table and the winner of its key meet when the winner is of the kind. *)
Lemma join_holds (m : db) (alias : bytes) (mu : CdcApplyMutation) (x s : row) (k : list V) : alias ≠ str "winner" → key_of keys x = Some k → at_key keys k W = Some s →
  holds m [(alias, x); (str "winner", s)] (And (Match [(Col (Some (str "winner")) (mutation_ident d), mutation_literal mu)]) (same_keys d keys alias (str "winner")))
  = match win_of mu k with Some _ => true | None => false end.
Proof.
  intros Ha Hx Hs. rewrite holds_and. unfold win_of. specialize (Hwin k). destruct (win k) as [r|]; [|congruence].
  destruct Hwin as (s' & Hs' & Hst & Hk & _). assert (s' = s) as -> by congruence. cbn [mbind option_bind].
  rewrite (mutation_holds m _ _ s r mu); [|intros; by apply eval_second|done].
  assert (holds m [(alias, x); (str "winner", s)] (same_keys d keys alias (str "winner")) = true) as ->.
  { apply same_keys_spec; [done|]. rewrite Hx, (staged_key columns keys Hschema _ _ Hst), Hk. eauto. }
  rewrite andb_true_r. by destruct (am_mutation (ar_metadata r)), mu.
Qed.

Lemma join_keys (m : db) (alias : bytes) (mu : CdcApplyMutation) (x s : row) : alias ≠ str "winner" →
  holds m [(alias, x); (str "winner", s)] (And (Match [(Col (Some (str "winner")) (mutation_ident d), mutation_literal mu)]) (same_keys d keys alias (str "winner"))) = true →
  is_Some (key_of keys x) ∧ key_of keys s = key_of keys x.
Proof. intros Ha. rewrite holds_and, andb_true_iff. intros [_ H]. by apply same_keys_spec in H. Qed.

(** No row of a table has the key of a winner. *)
Lemma absent_holds (m : db) (tbl alias : bytes) (s : row) (r : CdcApplyRow) (k : list V) : unique keys (rows_of m tbl) → alias ≠ str "source" →
  staged columns s r → event_key columns keys r = Some k →
  holds m [(str "source", s)] (NotExists tbl (Some alias) (same_keys d keys alias (str "source"))) = match at_key keys k (rows_of m tbl) with Some _ => false | None => true end.
Proof.
  intros Hu Ha Hst Hk. rewrite holds_not_exists. change (default tbl (Some alias)) with alias. fold (rows_of m tbl).
  assert (∀ x, holds m [(alias, x); (str "source", s)] (same_keys d keys alias (str "source")) = true ↔ key_of keys x = Some k) as Hx.
  { intros x. rewrite same_keys_spec by done. rewrite (staged_key columns keys Hschema _ _ Hst), Hk. split; [by intros [_ <-]|intros ->; eauto]. }
  rewrite (exists_at keys k); [|done|by intros x; rewrite Hx].
  destruct (at_key keys k (rows_of m tbl)) as [x|] eqn:E; [|done]. by rewrite (proj2 (Hx x)) by (by eapply at_key_key).
Qed.

(** Changing the rows of a table whose winners are of a kind. *)
Lemma update_kind (m : db) (tbl alias : bytes) (mu : CdcApplyMutation) (sets : list (Ident * Expr V)) (c rest : Cond V) : ready m → is_Some (m !! tbl) → unique keys (rows_of m tbl) → alias ≠ str "winner" →
  Forall (λ t, is_Some (m !! t)) (cond_tables c) →
  (∀ e : list (bytes * row), holds m e c = holds m e (And (Match [(Col (Some (str "winner")) (mutation_ident d), mutation_literal mu)]) (same_keys d keys alias (str "winner"))) && holds m e rest) →
  (∀ x s, is_Some (key_of keys x) → key_of keys s = key_of keys x → key_of keys (apply_sets [(alias, x); (str "winner", s)] sets x) = key_of keys x) →
  ∃ t, exec (UpdateFrom tbl alias sets winners (str "winner") c) m
         = Some (<[tbl := t]> m) ∧ unique keys t ∧
    ∀ k, at_key keys k t = x ← at_key keys k (rows_of m tbl);
      match win_of mu k with
      | Some r => let e := [(alias, x); (str "winner", default ∅ (at_key keys k W))] in Some (if holds m e rest then apply_sets e sets x else x)
      | None => Some x
      end.
Proof.
  intros [Hm Hmw] Htbl Hu Ha Hrest Hc Hsets.
  edestruct (exec_update_from keys tbl alias sets winners (str "winner")) as (t & Ht & Hut & Hat); [..|eexists; split; [exact Ht|]; split; [exact Hut|]].
  - cbn. repeat constructor; [done|by rewrite Hmw|done].
  - done.
  - by rewrite (rows_winners m Hmw).
  - intros x s. rewrite Hc, andb_true_iff. intros [H _]. by eapply join_keys.
  - intros x s. rewrite Hc, andb_true_iff. intros [H _]. apply join_keys in H as [H1 H2]; [|done]. by apply Hsets.
  - intros k. rewrite Hat. destruct (at_key keys k (rows_of m tbl)) as [x|] eqn:Ex; [|done]. cbn [mbind option_bind].
    rewrite (rows_winners m Hmw). destruct (at_key keys k W) as [s|] eqn:Es.
    + rewrite Hc, (join_holds m alias mu x s k) by (done || by eapply at_key_key). by destruct (win_of mu k).
    + unfold win_of. specialize (Hwin k). destruct (win k) as [r|]; [|done]. destruct Hwin as (s & Hs & _). congruence.
Qed.

Lemma delete_kind (m : db) (tbl alias : bytes) (mu : CdcApplyMutation) (rest : Cond V) : ready m → is_Some (m !! tbl) → unique keys (rows_of m tbl) → alias ≠ str "winner" → cond_tables rest = [] →
  ∃ t, exec (DeleteUsing tbl alias winners (str "winner") (And (And (Match [(Col (Some (str "winner")) (mutation_ident d), mutation_literal mu)]) (same_keys d keys alias (str "winner"))) rest)) m
         = Some (<[tbl := t]> m) ∧ unique keys t ∧
    ∀ k, at_key keys k t = x ← at_key keys k (rows_of m tbl);
      match win_of mu k with
      | Some r => if holds m [(alias, x); (str "winner", default ∅ (at_key keys k W))] rest then None else Some x
      | None => Some x
      end.
Proof.
  intros [Hm Hmw] Htbl Hu Ha Hrest.
  edestruct (exec_delete_using keys tbl alias winners (str "winner")) as (t & Ht & Hut & Hat); [..|eexists; split; [exact Ht|]; split; [exact Hut|]].
  - cbn. rewrite Hrest. repeat constructor; [done|by rewrite Hmw].
  - done.
  - by rewrite (rows_winners m Hmw).
  - intros x s. rewrite holds_and, andb_true_iff. intros [H _]. by eapply join_keys.
  - intros k. rewrite Hat. destruct (at_key keys k (rows_of m tbl)) as [x|] eqn:Ex; [|done]. cbn [mbind option_bind].
    rewrite (rows_winners m Hmw). destruct (at_key keys k W) as [s|] eqn:Es.
    + rewrite holds_and, (join_holds m alias mu x s k) by (done || by eapply at_key_key). by destruct (win_of mu k).
    + unfold win_of. specialize (Hwin k). destruct (win k) as [r|]; [|done]. destruct Hwin as (s & Hs & _). congruence.
Qed.

(** Inserting the winners of a kind whose keys a table does not have. *)
Lemma insert_kind (m : db) (tbl alias : bytes) (mu : CdcApplyMutation) (ins : Insertion V) (c : Cond V) (allowed : list V → bool) : ready m → is_Some (m !! tbl) → unique keys (rows_of m tbl) →
  Forall (λ t, is_Some (m !! t)) (cond_tables c) → (∀ s, key_of keys (new_row [(str "source", s)] ins) = key_of keys s) → alias ≠ str "source" →
  (∀ k s r, at_key keys k W = Some s → win k = Some r → staged columns s r → event_key columns keys r = Some k →
    holds m [(str "source", s)] c = holds m [(str "source", s)] (And (Match [(Col (Some (str "source")) (mutation_ident d), mutation_literal mu)])
      (NotExists tbl (Some alias) (same_keys d keys alias (str "source")))) && allowed k) →
  ∃ t, exec (InsertSelect tbl ins winners (str "source") c) m = Some (<[tbl := t]> m) ∧ unique keys t ∧
    ∀ k, at_key keys k t = match at_key keys k (rows_of m tbl) with
      | Some x => Some x
      | None => match win_of mu k with
                | Some r => if allowed k then Some (new_row [(str "source", default ∅ (at_key keys k W))] ins) else None
                | None => None
                end
      end.
Proof.
  intros [Hm Hmw] Htbl Hu Htc Hins Ha Hc.
  assert (∀ k s, at_key keys k W = Some s → holds m [(str "source", s)] c =
    match win_of mu k, at_key keys k (rows_of m tbl) with Some _, None => allowed k | _, _ => false end) as Hall.
  { intros k s Hs. pose proof (Hwin k) as Hwk. destruct (win k) as [r|] eqn:Ew; [|congruence]. destruct Hwk as (s' & Hs' & Hst & Hk & _).
    assert (s' = s) as -> by congruence. rewrite (Hc k s r Hs Ew Hst Hk), holds_and, (absent_holds m tbl alias s r k) by done.
    rewrite (mutation_holds m _ _ s r mu) by (done || (intros; apply eval_first)). unfold win_of. rewrite Ew. cbn [mbind option_bind].
    destruct (am_mutation (ar_metadata r)), mu, (at_key keys k (rows_of m tbl)); done. }
  edestruct (exec_insert_select keys tbl ins winners (str "source")) as (t & Ht & Hut & Hat); [..|eexists; split; [exact Ht|]; split; [exact Hut|]].
  - repeat constructor; [done|by rewrite Hmw|done].
  - done.
  - by rewrite (rows_winners m Hmw).
  - done.
  - intros k s r. rewrite (rows_winners m Hmw). intros Hs Hr. rewrite (Hall k s Hs), Hr. by destruct (win_of mu k).
  - intros k. rewrite Hat. destruct (at_key keys k (rows_of m tbl)) as [x|] eqn:Ex; [done|]. rewrite (rows_winners m Hmw).
    destruct (at_key keys k W) as [s|] eqn:Es; cbn [mbind option_bind].
    + rewrite (Hall k s Es), Ex. destruct (win_of mu k) as [r|]; [|done]. done.
    + unfold win_of. specialize (Hwin k). destruct (win k) as [r|]; [|done]. destruct Hwin as (s & Hs & _). congruence.
Qed.

(** The six statements, each with its effect at every key. *)
Lemma redshift_update (m : db) : ready m →
  ∃ t, exec (UpdateFrom fq_table (str "target") (target_sets d columns keys (str "winner")) winners (str "winner")
     (And (And (And (Match [(Col (Some (str "winner")) (mutation_ident d), mutation_literal ApplyUpsert)]) (same_keys d keys (str "target") (str "winner"))) (older_target d (str "winner")))
        (no_newer_tombstone d fq_tombstone_table keys (str "winner")))) m = Some (<[fq_table := t]> m) ∧ unique keys t ∧
   ∀ k, at_key keys k t = match target_at m k, win_of ApplyUpsert k with
                          | Some x, Some r => upsert_target (row_token r) (bulk_upserted (default ∅ (at_key keys k W))) (Some x) (tombstone_at m k)
                          | o, _ => o
                          end.
Proof.
  intros [Hm Hmw].
  edestruct (update_kind m fq_table (str "target") ApplyUpsert (target_sets d columns keys (str "winner")))
    with (rest := And (V := V) (older_target d (str "winner")) (no_newer_tombstone d fq_tombstone_table keys (str "winner"))) as (t & Ht & Hut & Hat);
    [..|eexists; split; [exact Ht|]; split; [exact Hut|]].
  - done.
  - apply Hm.
  - apply Hm.
  - done.
  - cbn. repeat constructor. apply Hm.
  - intros e. rewrite !holds_and. by rewrite !andb_assoc.
  - intros x s Hx Hs. rewrite target_sets_row by done. rewrite bulk_upserted_key; [done|]. by intros ? [= ->].
  - intros k. rewrite Hat. fold (target_at m k). destruct (target_at m k) as [x|]; [|done]. cbn [mbind option_bind].
    destruct (win_of ApplyUpsert k) as [r|] eqn:Ew; [|done]. apply win_of_Some in Ew as [Ew _].
    destruct (win_row k r Ew) as (s & Hs & Hst & Hk & _). rewrite Hs. change (default ∅ (Some s)) with s. cbv zeta.
    rewrite holds_and, (older_target_holds m x s _ r) by done.
    rewrite (no_newer_holds m _ _ s r k) by (done || apply Hm || (intros; by apply eval_second)).
    rewrite target_sets_row by done. unfold upsert_target. by destruct (older (row_token r) x), (blocked (row_token r) (tombstone_at m k)).
Qed.

Lemma redshift_insert (m : db) : ready m →
  ∃ t, exec (InsertSelect fq_table (target_insertion d columns) winners (str "source")
     (And (And (Match [(Col (Some (str "source")) (mutation_ident d), mutation_literal ApplyUpsert)])
        (NotExists fq_table (Some (str "target")) (same_keys d keys (str "target") (str "source"))))
        (no_newer_tombstone d fq_tombstone_table keys (str "source")))) m = Some (<[fq_table := t]> m) ∧ unique keys t ∧
   ∀ k, at_key keys k t = match target_at m k, win_of ApplyUpsert k with
                          | None, Some r => upsert_target (row_token r) (bulk_upserted (default ∅ (at_key keys k W))) None (tombstone_at m k)
                          | o, _ => o
                          end.
Proof.
  intros [Hm Hmw].
  edestruct (insert_kind m fq_table (str "target") ApplyUpsert (target_insertion d columns))
    with (allowed := λ k, match win k with Some r => negb (blocked (row_token r) (tombstone_at m k)) | None => false end) as (t & Ht & Hut & Hat);
    [..|eexists; split; [exact Ht|]; split; [exact Hut|]].
  - done.
  - apply Hm.
  - apply Hm.
  - cbn. repeat constructor; apply Hm.
  - intros s. rewrite target_insertion_row. by apply bulk_upserted_key.
  - done.
  - intros k s r Hs Hw Hst Hk. rewrite holds_and, Hw. f_equal. apply (no_newer_holds m _ _ s r k); (done || apply Hm || (intros; apply eval_first)).
  - intros k. rewrite Hat. fold (target_at m k). destruct (target_at m k) as [x|]; [by destruct (win_of ApplyUpsert k)|].
    destruct (win_of ApplyUpsert k) as [r|] eqn:Ew; [|done]. apply win_of_Some in Ew as [Ew _]. rewrite Ew, target_insertion_row. unfold upsert_target.
    by destruct (blocked (row_token r) (tombstone_at m k)).
Qed.

Lemma redshift_delete (m : db) : ready m →
  ∃ t, exec (DeleteUsing fq_table (str "target") winners (str "winner")
     (And (And (Match [(Col (Some (str "winner")) (mutation_ident d), mutation_literal ApplyDelete)]) (same_keys d keys (str "target") (str "winner"))) (older_target d (str "winner")))) m
     = Some (<[fq_table := t]> m) ∧ unique keys t ∧
   ∀ k, at_key keys k t = match win_of ApplyDelete k with Some r => delete_target (row_token r) (target_at m k) | None => target_at m k end.
Proof.
  intros [Hm Hmw].
  edestruct (delete_kind m fq_table (str "target") ApplyDelete (older_target d (str "winner"))) as (t & Ht & Hut & Hat);
    [done|apply Hm|apply Hm|done|done|eexists; split; [exact Ht|]; split; [exact Hut|]].
  intros k. rewrite Hat. fold (target_at m k). destruct (win_of ApplyDelete k) as [r|] eqn:Ew; [|by destruct (target_at m k)]. apply win_of_Some in Ew as [Ew _].
  destruct (win_row k r Ew) as (s & Hs & Hst & _). rewrite Hs. change (default ∅ (Some s)) with s. unfold delete_target.
  destruct (target_at m k) as [x|]; [|done]. cbn [mbind option_bind]. by rewrite (older_target_holds m x s _ r).
Qed.

Lemma redshift_entomb (m : db) : ready m →
  ∃ t, exec (UpdateFrom fq_tombstone_table (str "tombstone") [(ident d TOKEN, Col (Some (str "winner")) (stage_token_ident d))] winners (str "winner")
     (And (And (Match [(Col (Some (str "winner")) (mutation_ident d), mutation_literal ApplyDelete)]) (same_keys d keys (str "tombstone") (str "winner"))) (older_tombstone d (str "winner")))) m
     = Some (<[fq_tombstone_table := t]> m) ∧ unique keys t ∧
   ∀ k, at_key keys k t = match tombstone_at m k, win_of ApplyDelete k with
                          | Some x, Some r => delete_tombstone (row_token r) (bulk_entombed (default ∅ (at_key keys k W))) (Some x)
                          | o, _ => o
                          end.
Proof.
  intros [Hm Hmw].
  edestruct (update_kind m fq_tombstone_table (str "tombstone") ApplyDelete [(ident d TOKEN, Col (Some (str "winner")) (stage_token_ident d))])
    with (rest := older_tombstone (V := V) d (str "winner")) as (t & Ht & Hut & Hat); [..|eexists; split; [exact Ht|]; split; [exact Hut|]].
  - done.
  - apply Hm.
  - apply Hm.
  - done.
  - constructor.
  - intros e. by rewrite holds_and.
  - intros x s Hx Hs. rewrite tombstone_sets_row by done. rewrite bulk_entombed_key; [done|]. by intros ? [= ->].
  - intros k. rewrite Hat. fold (tombstone_at m k). destruct (tombstone_at m k) as [x|]; [|done]. cbn [mbind option_bind].
    destruct (win_of ApplyDelete k) as [r|] eqn:Ew; [|done]. apply win_of_Some in Ew as [Ew _].
    destruct (win_row k r Ew) as (s & Hs & Hst & _). rewrite Hs. change (default ∅ (Some s)) with s. cbv zeta.
    rewrite (older_tombstone_holds m x s _ r) by done. rewrite tombstone_sets_row by done. unfold delete_tombstone. by destruct (below (row_token r) x).
Qed.

Lemma redshift_bury (m : db) : ready m →
  ∃ t, exec (InsertSelect fq_tombstone_table (tombstone_insertion d keys) winners (str "source")
     (And (Match [(Col (Some (str "source")) (mutation_ident d), mutation_literal ApplyDelete)])
        (NotExists fq_tombstone_table (Some (str "tombstone")) (same_keys d keys (str "tombstone") (str "source"))))) m
     = Some (<[fq_tombstone_table := t]> m) ∧ unique keys t ∧
   ∀ k, at_key keys k t = match tombstone_at m k, win_of ApplyDelete k with
                          | None, Some r => delete_tombstone (row_token r) (bulk_entombed (default ∅ (at_key keys k W))) None
                          | o, _ => o
                          end.
Proof.
  intros [Hm Hmw].
  edestruct (insert_kind m fq_tombstone_table (str "tombstone") ApplyDelete (tombstone_insertion d keys)) with (allowed := λ _ : list V, true) as (t & Ht & Hut & Hat);
    [..|eexists; split; [exact Ht|]; split; [exact Hut|]].
  - done.
  - apply Hm.
  - apply Hm.
  - cbn. repeat constructor; apply Hm.
  - intros s. rewrite tombstone_insertion_row. by apply bulk_entombed_key.
  - done.
  - intros k s r _ _ _ _. by rewrite andb_true_r.
  - intros k. rewrite Hat. fold (tombstone_at m k). destruct (tombstone_at m k) as [x|]; [by destruct (win_of ApplyDelete k)|].
    destruct (win_of ApplyDelete k) as [r|]; [|done]. by rewrite tombstone_insertion_row.
Qed.

Lemma redshift_clear (m : db) : ready m →
  ∃ t, exec (DeleteUsing fq_tombstone_table (str "tombstone") winners (str "winner")
     (And (And (Match [(Col (Some (str "winner")) (mutation_ident d), mutation_literal ApplyUpsert)]) (same_keys d keys (str "tombstone") (str "winner"))) (older_tombstone d (str "winner")))) m
     = Some (<[fq_tombstone_table := t]> m) ∧ unique keys t ∧
   ∀ k, at_key keys k t = match win_of ApplyUpsert k with Some r => upsert_tombstone (row_token r) (tombstone_at m k) | None => tombstone_at m k end.
Proof.
  intros [Hm Hmw].
  edestruct (delete_kind m fq_tombstone_table (str "tombstone") ApplyUpsert (older_tombstone d (str "winner"))) as (t & Ht & Hut & Hat);
    [done|apply Hm|apply Hm|done|done|eexists; split; [exact Ht|]; split; [exact Hut|]].
  intros k. rewrite Hat. fold (tombstone_at m k). destruct (win_of ApplyUpsert k) as [r|] eqn:Ew; [|by destruct (tombstone_at m k)]. apply win_of_Some in Ew as [Ew _].
  destruct (win_row k r Ew) as (s & Hs & Hst & _). rewrite Hs. change (default ∅ (Some s)) with s. unfold upsert_tombstone.
  destruct (tombstone_at m k) as [x|]; [|done]. cbn [mbind option_bind]. by rewrite (older_tombstone_holds m x s _ r).
Qed.

Lemma redshift_exec (m : db) : ready m → applied m (exec_all (redshift_stmts d fq_table fq_tombstone_table columns keys winners) m).
Proof.
  intros Hm. unfold redshift_stmts. cbn [exec_all].
  destruct (redshift_update m Hm) as (t1 & -> & Hu1 & Hat1). cbn [mbind option_bind].
  destruct (redshift_insert _ (ready_target m t1 Hm Hu1)) as (t2 & -> & Hu2 & Hat2). cbn [mbind option_bind]. rewrite insert_insert_eq.
  destruct (redshift_delete _ (ready_target m t2 Hm Hu2)) as (t3 & -> & Hu3 & Hat3). cbn [mbind option_bind]. rewrite insert_insert_eq.
  pose proof (ready_target m t3 Hm Hu3) as Hm3. destruct (redshift_entomb _ Hm3) as (x1 & -> & Hx1 & Hax1). cbn [mbind option_bind].
  destruct (redshift_bury _ (ready_tombstone _ x1 Hm3 Hx1)) as (x2 & -> & Hx2 & Hax2). cbn [mbind option_bind]. rewrite insert_insert_eq.
  destruct (redshift_clear _ (ready_tombstone _ x2 Hm3 Hx2)) as (x3 & -> & Hx3 & Hax3). cbn [mbind option_bind]. rewrite insert_insert_eq.
  exists t3, x3. split_and!; [done..|]. intros k. rewrite Hat3, Hax3, target_at_insert, tombstone_at_insert, Hat2, Hax2, target_at_insert, tombstone_at_insert, Hat1, Hax1.
  rewrite !tombstone_at_insert_ne by done. unfold target_after, tombstone_after.
  destruct (win k) as [r|] eqn:Ew; [|unfold win_of; rewrite Ew; cbn; by destruct (target_at m k), (tombstone_at m k)].
  rewrite !(after_win k r Ew). destruct (am_mutation (ar_metadata r)).
  - unfold upsert_target. destruct (target_at m k) as [y|], (tombstone_at m k) as [x|]; cbn [blocked];
      repeat match goal with |- context[if ?b then _ else _] => destruct b end; done.
  - unfold delete_target, delete_tombstone. destruct (target_at m k) as [y|], (tombstone_at m k) as [x|];
      repeat match goal with |- context[if ?b then _ else _] => destruct b end; done.
Qed.

(** The statements of every dialect. *)
Lemma apply_exec (m : db) : ready m → applied m (exec_all (apply_stmts d fq_table fq_tombstone_table columns keys winners) m).
Proof. intros Hm. unfold apply_stmts. generalize (merge_exec m Hm), (redshift_exec m Hm). by destruct d. Qed.

(** They step the register of each key by its winner. *)
Lemma applied_registers (m : db) o : sink_ok fq_table fq_tombstone_table keys m → applied m o →
  ∃ m', o = Some m' ∧ sink_ok fq_table fq_tombstone_table keys m' ∧ others_kept fq_table fq_tombstone_table m m' ∧
    ∀ k, register_at fq_table fq_tombstone_table columns keys m' k =
      match win k with
      | Some r => step (register_at fq_table fq_tombstone_table columns keys m k) (event_of columns r)
      | None => register_at fq_table fq_tombstone_table columns keys m k
      end.
Proof.
  intros Hm (t & x & -> & Ht & Hx & Hat).
  assert (∀ k, key_ok (at_key keys k t) (at_key keys k x) ∧ register_of columns (at_key keys k t) (at_key keys k x)
     = match win k with
       | Some r => step (register_at fq_table fq_tombstone_table columns keys m k) (event_of columns r)
       | None => register_at fq_table fq_tombstone_table columns keys m k
       end) as Hk.
  { intros k. destruct (Hat k) as [-> ->]. unfold target_after, tombstone_after. destruct (win k) as [r|] eqn:Ew; [|split; [apply Hm|done]].
    destruct (win_row k r Ew) as (s & Hs & Hst & Hev & Hlen). rewrite Hs. change (default ∅ (Some s)) with s.
    destruct (am_mutation (ar_metadata r)) eqn:Hmu.
    - apply (upsert_step columns (event_of columns r)); [apply Hm|done|]. intros o Ho. rewrite bulk_upserted_token. split; [apply Hst|].
      rewrite <- (event_values columns keys Hschema) by done. apply values_of_agree. intros n Hn. rewrite <- (sg_columns _ _ _ Hst n Hn).
      apply lookup_bulk_upserted; [|done]. intros y ->. destruct Ho as [Ho|Ho]; [done|]. symmetry in Ho. apply at_key_key in Ho.
      rewrite Ho, (staged_key columns keys Hschema _ _ Hst). eauto.
    - apply (delete_step columns (event_of columns r)); [apply Hm|done|]. intros o. rewrite bulk_entombed_token. apply Hst. }
  destruct (sink_replaced fq_table fq_tombstone_table columns keys Hft m t x Hm Ht Hx (λ k, proj1 (Hk k))) as (Hs & Ho & Hr).
  eexists. split; [reflexivity|]. split_and!; [done..|]. intros k. rewrite Hr. apply Hk.
Qed.

Lemma sink_tables (m : db) : sink_ok fq_table fq_tombstone_table keys m → tables_ok m.
Proof. intros H. split; apply H. Qed.
End Apply.
