(* ===== verification/CdcApplyBatch.v ===== *)
(** * CdcApplyBatch: a batch of change events applied to a warehouse

    The texts that [warehouse_bulk_cdc_sql] and [guarded_warehouse_cdc_sql] return are statements of [Sql];
    the set-based ones leave every register where the guarded ones, row by row, leave it, and deliveries of
    the same events in any order, grouping and number leave the same registers. *)

From S2P Require Import Prelude Bytes Text Io Codec Cdc Lease Clients IcebergCatalog Sql CdcApply CdcApplyMeaning CdcApplyRegister CdcApplyBulk.

(** ** Chunks *)

Lemma joins_snoc sep x l : l ≠ [] → joins sep (l ++ [x]) = joins sep l ++ sep ++ x.
Proof.
  induction l as [|y l IH]; [done|]. intros _. destruct l as [|z l]; [done|]. cbn [app joins]. rewrite <- !app_assoc. do 2 f_equal. by apply IH.
Qed.

Definition statement_bytes (prefix : bytes) (chunk : list bytes) : N := blen (load_statement prefix chunk).

Lemma statement_bytes_nil prefix : statement_bytes prefix [] = (blen prefix + 1)%N.
Proof. unfold statement_bytes, load_statement. by rewrite !blen_app. Qed.

Lemma statement_bytes_snoc prefix chunk row : statement_bytes prefix (chunk ++ [row]) = (statement_bytes prefix chunk + (blen row + separator_bytes chunk))%N.
Proof.
  unfold statement_bytes, load_statement. destruct chunk as [|x chunk].
  - rewrite !blen_app. cbn. unfold blen. cbn. lia.
  - rewrite joins_snoc by done. rewrite !blen_app. cbn [separator_bytes]. assert (blen nl = 1%N) as -> by done. change (blen (str ",")) with 1%N. lia.
Qed.

(** What a chunk may be. *)
Definition chunk_fits (limits : WarehouseCdcLimits) (prefix : bytes) (chunk : list bytes) : Prop :=
  chunk ≠ [] ∧ (N.of_nat (length chunk) ≤ max_load_rows limits)%N ∧ (statement_bytes prefix chunk ≤ max_statement_bytes limits)%N.

Lemma load_chunks_spec limits prefix rows : (1 ≤ max_load_rows limits)%N →
  Forall (λ row, (statement_bytes prefix [row] ≤ max_statement_bytes limits)%N) rows →
  ∀ chunks chunk, Forall (chunk_fits limits prefix) chunks → (chunk = [] ∨ chunk_fits limits prefix chunk) →
  concat (load_chunks limits (blen prefix) chunks chunk (statement_bytes prefix chunk) rows) = concat chunks ++ chunk ++ rows ∧
  Forall (chunk_fits limits prefix) (load_chunks limits (blen prefix) chunks chunk (statement_bytes prefix chunk) rows).
Proof.
  intros Hl Hrows. induction Hrows as [|row rows Hrow Hrows IH]; intros chunks chunk Hcs Hc; cbn [load_chunks].
  - destruct chunk as [|x chunk]; [by rewrite !app_nil_r|]. destruct Hc as [Hc|Hc]; [done|]. rewrite concat_app. cbn [concat app]. rewrite !app_nil_r.
    split; [done|]. apply Forall_app. split; [done|]. by apply Forall_singleton.
  - assert (chunk_fits limits prefix [row]) as Hone by (split_and!; [done|cbn; lia|done]).
    destruct chunk as [|x chunk].
    + rewrite <- statement_bytes_snoc. destruct (IH chunks ([] ++ [row]) Hcs (or_intror Hone)) as [H1 H2]. split; [|done]. by rewrite H1.
    + destruct Hc as [Hc|Hc]; [done|].
      destruct ((max_load_rows limits <=? N.of_nat (length (x :: chunk)))%N || _) eqn:E.
      * assert (blen prefix + 1 + blen row = statement_bytes prefix [row])%N as ->.
        { change [row] with ([] ++ [row]). rewrite statement_bytes_snoc, statement_bytes_nil. cbn. lia. }
        destruct (IH (chunks ++ [x :: chunk]) [row]) as [H1 H2]; [apply Forall_app; split; [done|by apply Forall_singleton]|by right|].
        split; [|done]. rewrite H1, concat_app. cbn [concat]. rewrite app_nil_r, <- app_assoc. done.
      * apply orb_false_iff in E as [E1 E2]. rewrite <- statement_bytes_snoc in E2 |- *.
        destruct (IH chunks ((x :: chunk) ++ [row]) Hcs) as [H1 H2]; [|split; [|done]; rewrite H1; by rewrite <- app_assoc].
        right. split_and!; [by destruct chunk| |by apply N.ltb_ge in E2]. rewrite length_app. apply N.leb_gt in E1. cbn [length] in E1 |- *. lia.
Qed.

Lemma load_rows_spec d columns prefix_len rows : ∀ before n encoded, load_rows d columns prefix_len before n rows = Ok encoded →
  encoded = before ++ (encoded_row d columns <$> rows) ∧
  Forall (λ r, (blen (encoded_row d columns r) + prefix_len + 1 ≤ max_statement_bytes (staging_limits d))%N) rows.
Proof.
  induction rows as [|r rows IH]; intros before n encoded; cbn [load_rows]; [intros [= <-]; by rewrite app_nil_r|].
  destruct (max_statement_bytes (staging_limits d) <? _)%N eqn:E1; [done|]. destruct (max_total_encoded_bytes _ <? _)%N; [done|].
  intros H. apply IH in H as [-> Hall]. split; [by rewrite <- app_assoc|]. constructor; [by apply N.ltb_ge in E1|done].
Qed.

(** A list cut as the images of its elements are. *)
Lemma reshape_fmap {A B} (f : A → B) (ls : list (list B)) (l : list A) : concat ls = map f l →
  map (map f) (reshape (map length ls) l) = ls ∧ concat (reshape (map length ls) l) = l.
Proof.
  revert l. induction ls as [|x ls IH]; intros l; cbn; [by destruct l|]. intros H.
  assert (map f (take (length x) l) = x ∧ map f (drop (length x) l) = concat ls) as [H1 H2].
  { rewrite <- firstn_map, <- skipn_map, <- H. by rewrite take_app_length, drop_app_length. }
  destruct (IH (drop (length x) l)) as [H3 H4]; [done|]. rewrite H1, H3, H4. split; [done|apply take_drop].
Qed.

(** ** Validated batches *)

Lemma validate_columns_Ok cs : ∀ seen names, validate_columns seen cs = Ok names →
  NoDup (ac_name <$> cs) ∧ (∀ n, n ∈ ac_name <$> cs → n ∉ seen) ∧ ∀ n, n ∈ names ↔ n ∈ seen ∨ n ∈ ac_name <$> cs.
Proof.
  induction cs as [|c cs IH]; intros seen names; cbn [validate_columns].
  - intros [= <-]. split_and!; [constructor|by intros n Hn; apply elem_of_nil in Hn|]. intros n. cbn. rewrite elem_of_nil. tauto.
  - destruct (is_blank _); [done|]. destruct (decide _) as [|Hin]; [done|]. intros H. apply IH in H as (H1 & H2 & H3). cbn [fmap list_fmap]. split_and!.
    + constructor; [|done]. intros Hn. apply (H2 _ Hn). set_solver.
    + intros n Hn. apply elem_of_cons in Hn as [->|Hn]; [done|]. specialize (H2 n Hn). set_solver.
    + intros n. rewrite H3. set_solver.
Qed.

Lemma validate_keys_Ok names keys : validate_keys names keys = Ok tt → ∀ k, k ∈ keys → k ∈ names.
Proof.
  induction keys as [|k keys IH]; cbn; [by intros _ k Hk; apply elem_of_nil in Hk|]. destruct (decide _); [|done].
  intros H k' Hk. apply elem_of_cons in Hk as [->|Hk]; [done|]. by apply IH.
Qed.

Lemma validate_rows_Ok width rows : ∀ i seen, validate_rows width i seen rows = Ok tt → ∀ r, r ∈ rows → length (ar_values r) = width.
Proof.
  induction rows as [|r rows IH]; intros i seen; cbn [validate_rows]; [by intros _ r Hr; apply elem_of_nil in Hr|].
  destruct (Nat.eqb_spec (length (ar_values r)) width) as [Hw|Hw]; cbn [negb]; [|done]. destruct (bool_decide _); [done|]. destruct (decide _); [done|].
  intros H r' Hr. apply elem_of_cons in Hr as [->|Hr]; [done|]. by eapply IH.
Qed.

(** What the apply needs of a batch beyond what [validate] checks. *)
Record apply_ready (V : Type) {SO : SqlOrder V} {SV : SqlValues V} (batch : CdcApplyBatch) : Prop := {
  ry_distinct : NoDup (ab_business_key_columns batch);
  ry_reserved n : n ∈ [TOKEN; ORDINAL; MUTATION; STAGE_TOKEN] → n ∉ ac_name <$> ab_columns batch;
  ry_keys r : r ∈ ab_rows batch → is_Some (event_key (V := V) (ab_columns batch) (ab_business_key_columns batch) r);
  ry_order : in_order (ab_rows batch)
}.

Lemma validate_schema {V : Type} {SO : SqlOrder V} {SV : SqlValues V} batch : validate batch = Ok tt → apply_ready V batch →
  schema_ok (ab_columns batch) (ab_business_key_columns batch) ∧ ∀ r, r ∈ ab_rows batch → length (ar_values r) = length (ab_columns batch).
Proof.
  unfold validate. intros H Hr. destruct (bool_decide _); [done|]. destruct (bool_decide _); [done|].
  apply rbind_Ok in H as (names & Hc & H). apply rbind_Ok in H as ([] & Hk & H). apply validate_columns_Ok in Hc as (Hnd & _ & Hn). split.
  - split; [done|apply Hr| |apply Hr]. intros k Hin. apply (validate_keys_Ok _ _ Hk) in Hin. apply Hn in Hin as [Hin|Hin]; [set_solver|done].
  - by eapply validate_rows_Ok.
Qed.

(** The rows that [append_record_batch_to_cdc_apply] appends are in order after those of earlier batches. *)
Lemma in_order_snoc rows r : in_order rows → (∀ r', r' ∈ rows → (row_ordinal r' < row_ordinal r)%N) → in_order (rows ++ [r]).
Proof.
  unfold in_order. induction 1 as [|x rows Hs IH Hx]; intros Hr; cbn [app]; [repeat constructor|].
  constructor; [apply IH; intros; apply Hr; by right|]. apply Forall_app. split; [done|]. apply Forall_singleton, Hr. left.
Qed.

Theorem append_in_order {Array : Type} {AA : ApplyArrow Array} (columns : list Array) row_metadata source_offset num_rows batch out batch' :
  in_order (ab_rows batch) → (∀ r, r ∈ ab_rows batch → (row_ordinal r < N.of_nat source_offset)%N) →
  append_record_batch_to_cdc_apply batch columns num_rows row_metadata source_offset = Some (out, batch') →
  in_order (ab_rows batch') ∧ ∀ r, r ∈ ab_rows batch' → (row_ordinal r < N.of_nat (source_offset + num_rows))%N.
Proof.
  unfold append_record_batch_to_cdc_apply. intros Ho Hb.
  assert (∀ r, r ∈ ab_rows batch → (row_ordinal r < N.of_nat (source_offset + 0))%N) as Hb' by (intros r Hr; specialize (Hb r Hr); lia). clear Hb.
  replace (source_offset + num_rows) with (source_offset + (0 + num_rows)) by lia. revert batch Ho Hb'. generalize 0 as row.
  induction num_rows as [|n IH]; intros row batch Ho Hb; cbn [append_rows].
  - intros [= <- <-]. split; [done|]. intros r Hr. specialize (Hb r Hr). lia.
  - destruct (row_metadata !! (source_offset + row)) as [meta|].
    + destruct (mapM _ columns) as [values|]; cbn [mbind option_bind]; [|done]. intros H. apply IH in H as [H1 H2]; clear IH.
      * split; [done|]. intros r Hr. specialize (H2 r Hr). lia.
      * apply in_order_snoc; [done|]. intros r Hr. specialize (Hb r Hr). unfold row_ordinal at 2. cbn. lia.
      * intros r Hr. cbn in Hr. apply elem_of_app in Hr as [Hr|Hr]; [specialize (Hb r Hr); lia|]. apply list_elem_of_singleton in Hr as ->. unfold row_ordinal. cbn. lia.
    + intros [= <- <-]. split; [done|]. intros r Hr. specialize (Hb r Hr). lia.
Qed.

(** ** The statements behind the texts *)

(** The backend of each dialect. *)
Definition warehouse_backend (d : CdcWarehouseDialect) : CdcApplyBackend :=
  match d with
  | Snowflake => SnowflakeCdcBackend
  | BigQuery => BigqueryCdcBackend
  | Redshift => RedshiftCdcBackend
  | Synapse => SynapseCdcBackend
  | MotherDuck => MotherduckCdcBackend
  end.

Lemma warehouse_backend_default d :
  upsert_if_newer_sql (warehouse_backend d) = default_upsert_if_newer_sql (be_text (warehouse_backend d)) ∧
  delete_if_newer_sql (warehouse_backend d) = default_delete_if_newer_sql (be_text (warehouse_backend d)).
Proof. by destruct d. Qed.

Section Batch.
Context {V : Type} {SO : SqlOrder V} {SV : SqlValues V} {BH : BatchHasher}.
Notation row := (gmap bytes V).
Notation table := (list row).
Notation db := (gmap bytes table).
Context (d : CdcWarehouseDialect) (fq_table fq_tombstone_table : bytes) (batch : CdcApplyBatch).

Let columns := ab_columns batch.
Let keys := ab_business_key_columns batch.
Let rows := ab_rows batch.
Let b := be_text (warehouse_backend d).

Definition batch_suffix : bytes := take 12 (batch_hash d fq_table fq_tombstone_table batch).
Definition stage_table : bytes := temp_table_name d (str "_skippr_cdc_stage_" ++ batch_suffix).
Definition winners_name : bytes := temp_table_name d (str "_skippr_cdc_winners_" ++ batch_suffix).
Definition load_prefix : bytes := stage_load_prefix d stage_table ((λ c, quote_identifier d (ac_name c)) <$> columns).
Definition encoded_chunks : list (list bytes) :=
  load_chunks (staging_limits d) (blen load_prefix) [] [] (blen load_prefix + 1) (encoded_row d columns <$> rows).

(** The rows of each load. *)
Definition batch_chunks : list (list CdcApplyRow) := reshape (map length encoded_chunks) rows.

Definition bulk_stmts : list (Stmt V) :=
  setup_stmts d columns keys stage_table winners_name
    (create_temp_table d stage_table (stage_column_defs d ((λ c, quote_identifier d (ac_name c)) <$> columns) columns)) batch_chunks
  ++ apply_stmts d fq_table fq_tombstone_table columns keys winners_name
  ++ cleanup_stmts stage_table winners_name.

Lemma some_load_rows : (1 ≤ max_load_rows (staging_limits d))%N.
Proof. by destruct d. Qed.

(** The set-based apply of an accepted batch: its loads hold the rows of the batch in order, within the limits. *)
Lemma bulk_shape sql : warehouse_bulk_cdc_sql d fq_table fq_tombstone_table batch = Ok sql →
  concat encoded_chunks = encoded_row d columns <$> rows ∧
  (∀ chunk, chunk ∈ encoded_chunks → load_statement load_prefix chunk ∈ wb_setup_statements sql) ∧
  Forall (chunk_fits (staging_limits d) load_prefix) encoded_chunks ∧ check_envelope d sql = Ok tt ∧ validate batch = Ok tt ∧ rows ≠ [] ∧
  (N.of_nat (length rows) ≤ max_rows (staging_limits d))%N ∧
  atomic_statements sql =
    (create_temp_table d stage_table (stage_column_defs d ((λ c, quote_identifier d (ac_name c)) <$> columns) columns)
     :: (load_statement load_prefix <$> encoded_chunks)
     ++ [create_temp_table_as d winners_name (winner_select d stage_table ((λ c, quote_identifier d (ac_name c)) <$> columns) (quote_identifier d <$> keys))])
    ++ apply_statements d fq_table fq_tombstone_table winners_name ((λ c, quote_identifier d (ac_name c)) <$> columns) (quote_identifier d <$> keys)
    ++ [str "DROP TABLE IF EXISTS " ++ winners_name ++ str ";"; str "DROP TABLE IF EXISTS " ++ stage_table ++ str ";"].
Proof.
  unfold warehouse_bulk_cdc_sql. intros H. apply rbind_Ok in H as ([] & Hv & H). apply rbind_Ok in H as ([] & Hne & H). apply guard_or_Ok in Hne.
  apply rbind_Ok in H as ([] & Hc & H). cbv zeta in H. fold batch_suffix columns keys rows in H. fold stage_table winners_name in H. fold load_prefix in H.
  apply rbind_Ok in H as (encoded & Hl & H). apply rbind_Ok in H as ([] & He & H). injection H as <-.
  apply load_rows_spec in Hl as [Henc Hall]. cbn [app] in Henc. subst encoded.
  assert (concat encoded_chunks = encoded_row d columns <$> rows ∧ Forall (chunk_fits (staging_limits d) load_prefix) encoded_chunks) as [Hcat Hfit].
  { unfold encoded_chunks. rewrite <- statement_bytes_nil.
    refine (load_chunks_spec (staging_limits d) load_prefix (encoded_row d columns <$> rows) some_load_rows _ [] [] _ _); [|constructor|by left].
    apply Forall_fmap. eapply Forall_impl; [exact Hall|]. intros r Hr. unfold compose. change [encoded_row d columns r] with ([] ++ [encoded_row d columns r]).
    rewrite statement_bytes_snoc, statement_bytes_nil. cbn [separator_bytes]. cbn beta in Hr. lia. }
  split_and!; [done| |done..| | |done].
  - intros chunk Hin. cbn [wb_setup_statements]. right. apply elem_of_app. left. by apply list_elem_of_fmap_2.
  - intros Hnil. unfold rows in Hnil. by rewrite Hnil in Hne.
  - unfold validate_stage_row_count in Hc. fold rows in Hc. by destruct (N.ltb_spec (max_rows (staging_limits d)) (N.of_nat (length rows))).
Qed.

(** Its texts are those of the statements. *)
Lemma bulk_text sql : warehouse_bulk_cdc_sql d fq_table fq_tombstone_table batch = Ok sql →
  atomic_statements sql = print_stmt <$> bulk_stmts ∧ concat batch_chunks = rows ∧ validate batch = Ok tt.
Proof.
  intros H. apply bulk_shape in H as (Hcat & _ & _ & _ & Hv & _ & _ & ->). destruct (reshape_fmap _ _ _ Hcat) as [Hchunks Hrows]. split_and!; [|done..].
  unfold bulk_stmts. rewrite !fmap_app, setup_text, apply_text. cbn [cleanup_stmts fmap list_fmap print_stmt]. do 2 f_equal. unfold batch_chunks.
  change (fmap (encoded_row d columns) <$> reshape (map length encoded_chunks) rows) with (map (map (encoded_row d columns)) (reshape (map length encoded_chunks) rows)).
  by rewrite Hchunks.
Qed.

(** *** The guarded statements *)

Lemma position_app x l l' i : position x l = Some i → position x (l ++ l') = Some i.
Proof.
  revert i. induction l as [|y l IH]; intros i; [done|]. cbn. destruct (decide (y = x)); [done|].
  destruct (position x l) as [j|]; [|done]. cbn. intros [= <-]. by rewrite (IH j).
Qed.

Lemma position_quoted x l : position (quote_identifier d x) (quote_identifier d <$> l) = position x l.
Proof.
  induction l as [|y l IH]; [done|]. cbn. destruct (decide (y = x)) as [->|Hne]; [by rewrite decide_True|].
  rewrite decide_False by (intros H; by apply quote_identifier_inj in H). by rewrite IH.
Qed.

Context (Hschema : schema_ok columns keys) (Hwidth : ∀ r, r ∈ rows → length (ar_values r) = length columns).

Lemma find_key r k t : r ∈ rows → k ∈ keys →
  find_business_key_value (((λ c, quote_identifier d (ac_name c)) <$> columns) ++ [cdc_target_token d])
    ((print_expr <$> literals (V := V) d columns r) ++ [t]) (quote_identifier d k) = Some (print_expr (key_literal (V := V) d columns r k)).
Proof.
  intros Hr Hk. destruct (key_literal_spec (V := V) d columns keys Hschema r k (Hwidth r Hr) Hk) as (i & c & v & Hp & Hc & _ & Hv & ->).
  unfold find_business_key_value. rewrite (position_app _ _ _ i).
  - cbn [default]. apply lookup_app_l_Some. by rewrite list_lookup_fmap, (literals_lookup d columns r i c v Hc Hv).
  - change ((λ c0 : CdcApplyColumn, quote_identifier d (ac_name c0)) <$> columns) with (quote_identifier d ∘ ac_name <$> columns).
    by rewrite list_fmap_compose, position_quoted.
Qed.

Lemma mapM_fmap_Some {A B C} (f : B → option C) (g : A → B) (h : A → C) (l : list A) : (∀ x, x ∈ l → f (g x) = Some (h x)) → mapM f (map g l) = Some (map h l).
Proof.
  induction l as [|x l IH]; intros H; [done|]. cbn. rewrite (H x) by left. cbn. by rewrite IH by (intros; apply H; by right).
Qed.

(** The text of the guarded statements of a row. *)
Definition guarded_text (r : CdcApplyRow) : bytes :=
  tx_begin b ++ joins nl (print_stmt <$> guarded_stmts (V := V) d fq_table fq_tombstone_table columns keys b r) ++ tx_commit b.

Definition key_index (k : bytes) : nat := default 0 (column_position columns k).
Definition key_type (k : bytes) : bytes := default [] (ac_target_type <$> columns !! key_index k).

Lemma key_index_spec k : k ∈ keys → ∃ c, column_position columns k = Some (key_index k) ∧ columns !! key_index k = Some c ∧ ac_name c = k.
Proof.
  intros Hk. destruct (key_column columns keys Hschema k Hk) as (i & c & Hp & Hc & Hn). exists c. unfold key_index. by rewrite Hp.
Qed.

Lemma guarded_row_text r : r ∈ rows →
  guarded_row (warehouse_backend d) d fq_table fq_tombstone_table columns keys (map key_index keys) (map key_type keys) r = Some (guarded_text r).
Proof.
  intros Hr. unfold guarded_row, guarded_text, guarded_stmts. destruct (warehouse_backend_default d) as [-> ->]. fold b.
  assert (length (key_idents d keys) = length (key_literals (V := V) d columns keys r)) as Hlen.
  { unfold key_idents, key_literals. by rewrite !length_fmap. }
  destruct (am_mutation (ar_metadata r)).
  - rewrite <- (literal_texts (V := V) d columns r). apply upsert_text; [done|].
    unfold key_literals. rewrite <- list_fmap_compose.
    apply (mapM_fmap_Some _ (quote_identifier d) (print_expr ∘ key_literal d columns r)). intros k Hk. by apply find_key.
  - rewrite (mapM_fmap_Some _ key_index (λ k, print_expr (key_literal (V := V) d columns r k))).
    + cbn [mbind option_bind]. rewrite <- (delete_text (V := V) d fq_table fq_tombstone_table keys b r (key_literals d columns keys r) (map key_type keys) Hlen).
      unfold key_literals. by rewrite <- list_fmap_compose.
    + intros k Hk. destruct (key_literal_spec (V := V) d columns keys Hschema r k (Hwidth r Hr) Hk) as (i & c & v & Hp & Hc & _ & Hv & ->).
      unfold key_index. rewrite Hp. change (default 0 (Some i)) with i. rewrite Hv. cbn [mbind option_bind]. by rewrite Hc.
Qed.

(** The guarded apply of a validated batch does not panic, and its texts are those of the statements of its rows. *)
Lemma guarded_texts : validate batch = Ok tt →
  guarded_warehouse_cdc_sql (warehouse_backend d) d fq_table fq_tombstone_table batch = Some (Ok (guarded_text <$> rows)).
Proof.
  intros Hv. unfold guarded_warehouse_cdc_sql. rewrite Hv. fold columns keys rows.
  assert (mapM (column_position columns) keys = Some (map key_index keys)) as ->.
  { rewrite <- (map_id keys) at 1. apply mapM_fmap_Some. intros k Hk. by destruct (key_index_spec k Hk) as (c & Hp & _). }
  cbn [mbind option_bind].
  rewrite (mapM_fmap_Some _ key_index key_type).
  2:{ intros k Hk. destruct (key_index_spec k Hk) as (c & _ & Hc & _). unfold key_type. by rewrite Hc. }
  cbn [mbind option_bind]. erewrite mapM_Some_2; [reflexivity|]. apply Forall2_fmap_r, Forall_Forall2_diag, Forall_forall. intros r Hr.
  by apply guarded_row_text.
Qed.

(** *** Execution *)

Lemma exec_all_app (ss ss' : list (Stmt V)) (m : db) : exec_all (ss ++ ss') m = exec_all ss m ≫= exec_all ss'.
Proof. revert m. induction ss as [|s ss IH]; intros m; [done|]. cbn. destruct (exec s m) as [m'|]; [|done]. cbn. apply IH. Qed.

Lemma names_differ : stage_table ≠ winners_name.
Proof. unfold stage_table, winners_name, temp_table_name. intros H. destruct d; by apply quote_identifier_inj in H. Qed.

Lemma exec_loads (chunks : list (list CdcApplyRow)) (m : db) (t : table) : m !! stage_table = Some t → (∀ r, r ∈ concat chunks → length (ar_values r) = length columns) →
  exec_all ((λ chunk, InsertValues stage_table (stage_idents d columns) (stage_exprs d columns <$> chunk)) <$> chunks) m
  = Some (<[stage_table := t ++ (stage_row columns <$> concat chunks)]> m).
Proof.
  revert m t. induction chunks as [|chunk chunks IH]; intros m t Hm Hw.
  - cbn. by rewrite app_nil_r, insert_id.
  - cbn [fmap list_fmap exec_all]. unfold exec at 1. rewrite bool_decide_true by (repeat constructor; by rewrite Hm). cbn [mbind option_bind].
    unfold rows_of. rewrite Hm. cbn [default concat].
    assert ((λ vs, new_row (V := V) [] {| ins_cols := stage_idents d columns; ins_vals := vs |}) <$> (stage_exprs d columns <$> chunk) = stage_row columns <$> chunk) as ->.
    { rewrite <- list_fmap_compose. apply list_fmap_ext. intros i r Hr. apply stage_row_new, Hw. apply elem_of_app. left. by eapply list_elem_of_lookup_2. }
    rewrite (IH _ (t ++ (stage_row columns <$> chunk))); [|by rewrite lookup_insert_eq|intros r Hr; apply Hw, elem_of_app; by right].
    by rewrite insert_insert_eq, fmap_app, app_assoc.
Qed.

Context (Hready : apply_ready V batch) (Hft : fq_table ≠ fq_tombstone_table).
Notation register_at := (register_at fq_table fq_tombstone_table columns keys).
Notation sink_ok := (sink_ok fq_table fq_tombstone_table keys).
Notation others_kept := (others_kept fq_table fq_tombstone_table).

(** The events of a key. *)
Definition events_at (rows : list CdcApplyRow) (k : list V) : list Event := event_of columns <$> rows_at columns keys rows k.

Lemma winner_events (rs : list CdcApplyRow) : winner (event_of (V := V) columns <$> rs) = event_of columns <$> best rs.
Proof.
  unfold winner, best. induction rs as [|r rs IH] using rev_ind; [done|]. rewrite fmap_app, !foldl_app, IH. cbn [fmap list_fmap foldl].
  destruct (foldl newer_row None rs) as [w|]; [|done].
  cbn [newer_row newer_of fmap option_fmap option_map]. change (ev_token (event_of columns ?x)) with (row_token x). by destruct (bool_decide _).
Qed.

Lemma register_ok_at (m : db) (k : list V) : sink_ok m → register_ok (register_at m k).
Proof. intros Hm. apply key_ok_register, Hm. Qed.

Lemma setup_exec (create_text : bytes) (m : db) : m !! stage_table = None → m !! winners_name = None → concat batch_chunks = rows →
  exec_all (setup_stmts d columns keys stage_table winners_name create_text batch_chunks) m
  = Some (<[winners_name := winners_table d columns keys rows]> (<[stage_table := stage_row columns <$> rows]> m)).
Proof.
  intros Hs Hw Hrows. pose proof names_differ as Hne. unfold setup_stmts. cbn [exec_all]. unfold exec at 1. cbn [stmt_tables]. rewrite bool_decide_true by constructor.
  rewrite Hs. cbn [mbind option_bind]. rewrite exec_all_app, (exec_loads _ _ []); [|by rewrite lookup_insert_eq|by rewrite Hrows].
  rewrite Hrows, insert_insert_eq. cbn [app mbind option_bind exec_all]. unfold exec. cbn [stmt_tables].
  rewrite bool_decide_true by (repeat constructor; by rewrite lookup_insert_eq).
  rewrite lookup_insert_ne, Hw by done. cbn [mbind option_bind]. by rewrite rows_insert_eq.
Qed.

(** A sink whose two tables are those of another. *)
Lemma sink_agree (m m' : db) : m' !! fq_table = m !! fq_table → m' !! fq_tombstone_table = m !! fq_tombstone_table → sink_ok m →
  sink_ok m' ∧ ∀ k, register_at m' k = register_at m k.
Proof.
  intros H1 H2 Hm.
  assert (∀ k, target_at fq_table keys m' k = target_at fq_table keys m k ∧ tombstone_at fq_tombstone_table keys m' k = tombstone_at fq_tombstone_table keys m k) as Hat.
  { intros k. unfold target_at, tombstone_at, rows_of. by rewrite H1, H2. }
  split; [split|]; unfold rows_of; rewrite ?H1, ?H2; try apply Hm.
  - intros k. destruct (Hat k) as [-> ->]. apply Hm.
  - intros k. unfold CdcApplyRegister.register_at. by destruct (Hat k) as [-> ->].
Qed.

Lemma rows_ready r : r ∈ rows → length (ar_values r) = length columns ∧ is_Some (event_key (V := V) columns keys r).
Proof. intros Hr. split; [by apply Hwidth|by apply Hready]. Qed.

Lemma best_winner (k : list V) :
  match best (rows_at columns keys rows k) with
  | Some r => ∃ s, at_key keys k (winners_table d columns keys rows) = Some s ∧ staged columns s r ∧ event_key columns keys r = Some k ∧ length (ar_values r) = length columns
  | None => at_key keys k (winners_table d columns keys rows) = None
  end.
Proof.
  destruct (winners_spec (V := V) d columns keys Hschema rows rows_ready (ry_order _ _ Hready)) as [_ Hat]. rewrite Hat.
  destruct (best (rows_at columns keys rows k)) as [r|] eqn:Eb; [|done].
  destruct (best_spec _ r (row_order_filter _ rows (ry_order _ _ Hready)) Eb) as [Hin _]. apply list_elem_of_filter in Hin as [Hk Hin].
  eexists. split; [done|]. split_and!; [|done|by apply rows_ready]. by apply (winner_staged d columns keys Hschema rows rows_ready).
Qed.

(** The set-based statements step the register of every key by the events of its rows, in order, drop the tables
    they create and change nothing else. *)
Lemma bulk_exec (m : db) : concat batch_chunks = rows → sink_ok m → m !! stage_table = None → m !! winners_name = None →
  ∃ m', exec_all bulk_stmts m = Some m' ∧ sink_ok m' ∧ others_kept m m' ∧ ∀ k, register_at m' k = foldl step (register_at m k) (events_at rows k).
Proof.
  intros Hrows Hm Hs Hw. pose proof names_differ as Hne.
  assert (fq_table ≠ stage_table ∧ fq_table ≠ winners_name ∧ fq_tombstone_table ≠ stage_table ∧ fq_tombstone_table ≠ winners_name) as (Hn1 & Hn2 & Hn3 & Hn4).
  { destruct (sk_target _ _ _ _ Hm) as [? H1], (sk_tombstone _ _ _ _ Hm) as [? H2]. split_and!; congruence. }
  unfold bulk_stmts. rewrite exec_all_app, setup_exec by done. cbn [mbind option_bind]. rewrite exec_all_app.
  set (m1 := <[winners_name := winners_table d columns keys rows]> (<[stage_table := stage_row columns <$> rows]> m)).
  assert (∀ t, t ≠ stage_table → t ≠ winners_name → m1 !! t = m !! t) as Hm1 by (intros t H1 H2; unfold m1; by rewrite !lookup_insert_ne).
  destruct (sink_agree m m1 (Hm1 _ Hn1 Hn2) (Hm1 _ Hn3 Hn4) Hm) as [Hok1 Hreg].
  destruct (winners_spec (V := V) d columns keys Hschema rows rows_ready (ry_order _ _ Hready)) as [HW _].
  pose proof (apply_exec d fq_table fq_tombstone_table winners_name columns keys Hschema Hft Hn2 Hn4 _ HW _ best_winner m1
    (conj (sink_tables _ _ _ _ Hok1) (lookup_insert_eq _ _ _))) as Happ.
  apply applied_registers in Happ as (m2 & -> & Hok2 & Hkept & Hr2); [|done|done|apply best_winner|done].
  cbn [mbind option_bind cleanup_stmts exec_all]. unfold exec. cbn [stmt_tables]. rewrite !bool_decide_true by constructor. cbn [mbind option_bind].
  eexists. split; [reflexivity|].
  assert (∀ t, t ≠ stage_table → t ≠ winners_name → delete stage_table (delete winners_name m2) !! t = m2 !! t) as Hdel by (intros t H1 H2; by rewrite !lookup_delete_ne).
  destruct (sink_agree m2 _ (Hdel _ Hn1 Hn2) (Hdel _ Hn3 Hn4) Hok2) as [Hok3 Hreg3]. split_and!; [done| |].
  - intros t H1 H2. destruct (decide (t = stage_table)) as [->|H3]; [by rewrite lookup_delete_eq, Hs|].
    destruct (decide (t = winners_name)) as [->|H4]; [by rewrite lookup_delete_ne, lookup_delete_eq, Hw|].
    by rewrite Hdel, (Hkept t), Hm1.
  - intros k. rewrite Hreg3, Hr2, Hreg. unfold events_at. rewrite fold_steps by (by apply register_ok_at). rewrite winner_events.
    by destruct (best (rows_at columns keys rows k)).
Qed.

(** Statements that succeed found no table by the names they create. *)
Lemma bulk_fresh (m m' : db) : concat batch_chunks = rows → exec_all bulk_stmts m = Some m' → m !! stage_table = None ∧ m !! winners_name = None.
Proof.
  intros Hrows. unfold bulk_stmts, setup_stmts. cbn [app exec_all]. unfold exec at 1. cbn [stmt_tables]. rewrite bool_decide_true by constructor.
  destruct (m !! stage_table) as [?|]; [done|]. cbn [mbind option_bind]. rewrite <- app_assoc, exec_all_app, (exec_loads _ _ []); [|by rewrite lookup_insert_eq|by rewrite Hrows].
  cbn [app mbind option_bind exec_all]. unfold exec at 1. case_bool_decide; [|done]. rewrite insert_insert_eq, lookup_insert_ne by apply names_differ.
  by destruct (m !! winners_name).
Qed.

Lemma event_key_of r : r ∈ rows → ∃ k, event_key (V := V) columns keys r = Some k.
Proof. intros Hr. by apply Hready. Qed.

(** The guarded statements of rows, one after the other. *)
Lemma guarded_rows_exec (rs : list CdcApplyRow) (m : db) : (∀ r, r ∈ rs → r ∈ rows) → sink_ok m →
  ∃ m', exec_all (concat (guarded_stmts (V := V) d fq_table fq_tombstone_table columns keys b <$> rs)) m = Some m' ∧ sink_ok m' ∧ others_kept m m' ∧
    ∀ k, register_at m' k = foldl step (register_at m k) (events_at rs k).
Proof.
  revert m. induction rs as [|r rs IH]; intros m Hrs Hm; [by exists m|]. destruct (event_key_of r) as [k0 Hk0]; [apply Hrs; left|].
  destruct (guarded_exec (V := V) d fq_table fq_tombstone_table columns keys Hschema Hft b r k0 (Hwidth r (Hrs r (list_elem_of_here _ _))) Hk0 m Hm) as (m1 & H1 & Hok1 & Hkept1 & Hr1).
  destruct (IH m1 (λ r' Hr', Hrs r' (list_elem_of_further _ _ _ Hr')) Hok1) as (m2 & H2 & Hok2 & Hkept2 & Hr2).
  exists m2. cbn [fmap list_fmap concat]. rewrite exec_all_app, H1. cbn [mbind option_bind]. split_and!; [done|done| |].
  - intros t Ht1 Ht2. by rewrite (Hkept2 t), (Hkept1 t).
  - intros k. rewrite Hr2, Hr1. unfold events_at, rows_at. rewrite filter_cons, Hk0.
    destruct (decide (k = k0)) as [->|Hne]; [by rewrite decide_True|by rewrite decide_False by congruence].
Qed.
End Batch.

(** ** The two ways leave the same registers *)

Lemma check_envelope_Ok d sql : check_envelope d sql = Ok tt →
  Forall (λ s, (blen s ≤ max_statement_bytes (staging_limits d))%N) (atomic_statements sql) ∧
  (N.of_nat (length (atomic_statements sql)) ≤ max_statements (staging_limits d))%N ∧
  (match d with Redshift => foldr N.add 0%N (blen <$> atomic_statements sql) | _ => blen (transactional_script d sql) end ≤ max_total_encoded_bytes (staging_limits d))%N.
Proof.
  unfold check_envelope. destruct (head _) as [n|] eqn:Eh; [done|].
  destruct (N.ltb_spec (max_statements (staging_limits d)) (N.of_nat (length (atomic_statements sql)))); [done|].
  destruct (N.ltb_spec (max_total_encoded_bytes (staging_limits d)) (match d with Redshift => foldr N.add 0%N (blen <$> atomic_statements sql) | _ => blen (transactional_script d sql) end)); [done|].
  intros _. split_and!; [|done..]. apply Forall_forall. intros s Hs. apply N.le_ngt. intros Hlt.
  apply head_None in Eh. assert (blen s ∈ filter (λ n, (max_statement_bytes (staging_limits d) < n)%N) (blen <$> atomic_statements sql)) as Hin.
  { apply list_elem_of_filter. split; [done|]. by apply list_elem_of_fmap_2. }
  rewrite Eh in Hin. by apply elem_of_nil in Hin.
Qed.

Section Theorems.
Context {V : Type} {SO : SqlOrder V} {SV : SqlValues V} {BH : BatchHasher}.
Notation row := (gmap bytes V).
Notation table := (list row).
Notation db := (gmap bytes table).

(** How a dialect reads a name: between its own quotes, and but for BigQuery between double quotes. *)
Definition names_column (d : CdcWarehouseDialect) (i : Ident) : Prop :=
  id_text i = quote_identifier d (id_name i) ∨ (d ≠ BigQuery ∧ id_text i = double_quoted (id_name i)).


(** C34: limits of the set-based apply.  A batch that [warehouse_bulk_cdc_sql] accepts has rows, not more than
    the dialect stages; the loads hold all of them in their order, none is empty or has more rows than a load
    may have; no statement and no sum of statements is longer than the dialect allows. *)
Theorem bulk_within_limits (d : CdcWarehouseDialect) (fq_table fq_tombstone_table : bytes) (batch : CdcApplyBatch) (sql : WarehouseBulkCdcSql) :
  warehouse_bulk_cdc_sql d fq_table fq_tombstone_table batch = Ok sql →
  let limits := staging_limits d in
  (0 < length (ab_rows batch))%nat ∧ (N.of_nat (length (ab_rows batch)) ≤ max_rows limits)%N ∧
  concat (encoded_chunks d fq_table fq_tombstone_table batch) = encoded_row d (ab_columns batch) <$> ab_rows batch ∧
  Forall (λ chunk, chunk ≠ [] ∧ (N.of_nat (length chunk) ≤ max_load_rows limits)%N ∧
    load_statement (load_prefix d fq_table fq_tombstone_table batch) chunk ∈ wb_setup_statements sql) (encoded_chunks d fq_table fq_tombstone_table batch) ∧
  Forall (λ s, (blen s ≤ max_statement_bytes limits)%N) (atomic_statements sql) ∧
  (N.of_nat (length (atomic_statements sql)) ≤ max_statements limits)%N ∧
  (match d with Redshift => foldr N.add 0%N (blen <$> atomic_statements sql) | _ => blen (transactional_script d sql) end ≤ max_total_encoded_bytes limits)%N.
Proof.
  intros Hsql limits. destruct (bulk_shape _ _ _ _ _ Hsql) as (Hcat & Hin & Hfit & He & _ & Hne & Hmax & _).
  apply check_envelope_Ok in He as (H1 & H2 & H3). split_and!; [by destruct (ab_rows batch); [|cbn; lia]|done|done| |done..].
  rewrite Forall_forall in Hfit |- *. intros chunk Hc. destruct (Hfit chunk Hc) as (? & ? & _). split_and!; [done..|]. by apply Hin.
Qed.

(** ** Deliveries *)

Lemma rows_at_app columns (keys : list bytes) rows rows' (k : list V) : rows_at columns keys (rows ++ rows') k = rows_at columns keys rows k ++ rows_at columns keys rows' k.
Proof. apply filter_app. Qed.

Section Deliveries.
Context (d : CdcWarehouseDialect) (fq_table fq_tombstone_table : bytes) (columns : list CdcApplyColumn) (keys : list bytes).

(** Batches of the columns of a table applied one after the other, each by the set-based statements or row by row,
    with the rows that have been applied; a statement that fails rolls its transaction back. *)
Inductive delivery : db → list CdcApplyRow → db → Prop :=
| delivery_nothing m : delivery m [] m
| delivery_bulk m batch sql m' rest m'' :
    ab_columns batch = columns → ab_business_key_columns batch = keys → warehouse_bulk_cdc_sql d fq_table fq_tombstone_table batch = Ok sql → apply_ready V batch →
    exec_all (bulk_stmts d fq_table fq_tombstone_table batch) m = Some m' → delivery m' rest m'' → delivery m (ab_rows batch ++ rest) m''
| delivery_guarded m batch r statement m' rest m'' :
    ab_columns batch = columns → ab_business_key_columns batch = keys → ab_rows batch = [r] →
    guarded_warehouse_cdc_row_sql (warehouse_backend d) d fq_table fq_tombstone_table batch r = Some (Ok statement) → apply_ready V batch →
    exec_all (guarded_stmts d fq_table fq_tombstone_table columns keys (be_text (warehouse_backend d)) r) m = Some m' →
    delivery m' rest m'' → delivery m (r :: rest) m''
| delivery_rolled_back m batch rest m'' :
    exec_all (bulk_stmts d fq_table fq_tombstone_table batch) m = None →
    delivery (transact (bulk_stmts d fq_table fq_tombstone_table batch) m) rest m'' → delivery m rest m''.

Notation register_at := (register_at fq_table fq_tombstone_table columns keys).
Notation sink_ok := (sink_ok fq_table fq_tombstone_table keys).
Notation events_at rows k := (event_of (V := V) columns <$> rows_at columns keys rows k).

(** What a delivery leaves: the events of each key in the order of the delivery. *)
Lemma delivery_registers m rows m' : fq_table ≠ fq_tombstone_table → delivery m rows m' → sink_ok m →
  sink_ok m' ∧ ∀ k, register_at m' k = foldl step (register_at m k) (events_at rows k).
Proof.
  intros Hft. induction 1 as [m|m batch sql m' rest m'' <- <- Hsql Hready Hexec _ IH|m batch r statement m' rest m'' <- <- Hrows Hsql Hready Hexec _ IH|m batch rest m'' Hexec _ IH]; intros Hm.
  - done.
  - destruct (bulk_text (V := V) _ _ _ _ _ Hsql) as (_ & Hrows & Hv). destruct (validate_schema batch Hv Hready) as [Hschema Hwidth].
    destruct (bulk_fresh d fq_table fq_tombstone_table batch Hwidth m m' Hrows Hexec) as [Hs Hw].
    destruct (bulk_exec d fq_table fq_tombstone_table batch Hschema Hwidth Hready Hft m Hrows Hm Hs Hw) as (m1 & H1 & Hok & _ & Hr).
    assert (m1 = m') as -> by congruence. destruct (IH Hok) as [Hok' Hr']. split; [done|]. intros k. rewrite Hr', Hr, rows_at_app, fmap_app, foldl_app. done.
  - unfold guarded_warehouse_cdc_row_sql in Hsql. rewrite <- Hrows in Hsql. destruct batch as [cs ks rs]. cbn [ab_columns ab_business_key_columns ab_rows] in *.
    assert (validate {| ab_columns := cs; ab_business_key_columns := ks; ab_rows := rs |} = Ok tt) as Hv.
    { unfold guarded_warehouse_cdc_sql in Hsql. by destruct (validate _) as [[]|]. }
    destruct (validate_schema _ Hv Hready) as [Hschema Hwidth]. cbn in Hschema, Hwidth. subst rs.
    destruct (guarded_rows_exec d fq_table fq_tombstone_table {| ab_columns := cs; ab_business_key_columns := ks; ab_rows := [r] |} Hschema Hwidth Hready Hft [r] m (λ r H, H) Hm) as (m1 & H1 & Hok & _ & Hr).
    cbn [fmap list_fmap concat] in H1. rewrite app_nil_r in H1. assert (m1 = m') as -> by (cbn in *; congruence).
    destruct (IH Hok) as [Hok' Hr']. split; [done|]. intros k. rewrite Hr', Hr. change (r :: rest) with ([r] ++ rest).
    rewrite rows_at_app, fmap_app, foldl_app. done.
  - assert (transact (bulk_stmts d fq_table fq_tombstone_table batch) m = m) as Ht by (unfold transact; by rewrite Hexec). rewrite Ht in IH. by apply IH.
Qed.

(** *** The winner is one of the set of events *)

Lemma winner_spec (es : list (Event (V := V))) w : winner es = Some w → w ∈ es ∧ ∀ e, e ∈ es → bytes_le (ev_token e) (ev_token w).
Proof.
  unfold winner. revert w. induction es as [|e es IH] using rev_ind; intros w; [done|]. rewrite foldl_app. cbn [foldl].
  destruct (foldl newer_of None es) as [w'|] eqn:E; cbn [newer_of].
  - destruct (IH w' eq_refl) as [Hin Hall]. case_bool_decide as Hlt; intros [= <-].
    + split; [apply elem_of_app; right; by apply list_elem_of_singleton|]. intros x Hx. apply elem_of_app in Hx as [Hx|Hx].
      * apply bytes_lt_iff in Hlt as [Hle _]. by trans (ev_token w'); [apply Hall|].
      * by apply list_elem_of_singleton in Hx as ->.
    + split; [apply elem_of_app; by left|]. intros x Hx. apply elem_of_app in Hx as [Hx|Hx]; [by apply Hall|]. apply list_elem_of_singleton in Hx as ->.
      by apply not_lt_le.
  - intros [= <-]. destruct es as [|x es] using rev_ind; [|clear IHes; rewrite foldl_app in E; cbn in E; unfold newer_of in E; destruct (foldl _ None es); [by case_bool_decide|done]].
    split; [by apply list_elem_of_singleton|]. intros x Hx. by apply list_elem_of_singleton in Hx as ->.
Qed.

Lemma winner_None (es : list (Event (V := V))) : winner es = None → es = [].
Proof.
  unfold winner. destruct es as [|x es] using rev_ind; [done|]. rewrite foldl_app. cbn. unfold newer_of at 1. destruct (foldl _ None es); [by case_bool_decide|done].
Qed.

Lemma winner_set (es es' : list (Event (V := V))) : (∀ e, e ∈ es ↔ e ∈ es') → (∀ e e', e ∈ es → e' ∈ es → ev_token e = ev_token e' → e = e') → winner es = winner es'.
Proof.
  intros Hset Htok. destruct (winner es) as [w|] eqn:E, (winner es') as [w'|] eqn:E'.
  - apply winner_spec in E as [Hw Hall], E' as [Hw' Hall']. f_equal. apply Htok; [done|by apply Hset|].
    apply (anti_symm bytes_le); [apply Hall'; by apply Hset|apply Hall; by apply Hset].
  - apply winner_None in E' as ->. apply winner_spec in E as [Hw _]. apply Hset, elem_of_nil in Hw. done.
  - apply winner_None in E as ->. apply winner_spec in E' as [Hw _]. apply Hset, elem_of_nil in Hw. done.
  - done.
Qed.

Lemma events_at_set rows rows' (k : list V) : (∀ r, r ∈ rows ↔ r ∈ rows') → ∀ e, e ∈ events_at rows k ↔ e ∈ events_at rows' k.
Proof.
  intros H e. rewrite !list_elem_of_fmap. split; intros (r & -> & Hr); exists r; (split; [done|]); apply list_elem_of_filter in Hr as [Hk Hr]; apply list_elem_of_filter;
    (split; [done|]); by apply H.
Qed.

End Deliveries.
End Theorems.

(** ** An example *)

Module ApplyExample.
Inductive Value : Type :=
| VBinary (b : bytes)
| VNumber (n : N)
| VText (s : bytes).
#[global] Instance Value_eq_dec : EqDecision Value.
Proof. solve_decision. Defined.

Definition value_lt (x y : Value) : bool :=
  match x, y with
  | VBinary a, VBinary b => bool_decide (bytes_lt a b)
  | VNumber a, VNumber b => (a <? b)%N
  | _, _ => false
  end.

Definition value_cast (ty : bytes) (v : CdcApplyValue) : option Value :=
  match v with
  | CvNull => None
  | CvBoolean b => Some (VNumber (if b then 1 else 0)%N)
  | CvSigned z => Some (VText (display_i64 z))
  | CvUnsigned n => Some (VNumber n)
  | CvFloat s | CvText s | CvDate s | CvTimestamp s => Some (VText s)
  | CvBinary b => Some (VBinary b)
  end.

#[global] Instance example_order : SqlOrder Value := { v_lt := value_lt }.
#[global] Program Instance example_values : SqlValues Value := { v_binary := VBinary; v_number := VNumber; v_cast := value_cast }.
Next Obligation. done. Qed.
Next Obligation. done. Qed.
Next Obligation. by intros ?? [= ->]. Qed.
Next Obligation. done. Qed.
Next Obligation. by intros ?? [= ->]. Qed.

#[global] Program Instance example_hasher : BatchHasher := { batch_hash _ _ _ _ := str "0123456789abcdef" }.
Next Obligation. done. Qed.
Next Obligation.
  intros ? ? ? ? c Hc. assert (Forall (λ c, in_range 48 57 c || in_range 97 102 c = true) (str "0123456789abcdef")) as Hall by (by repeat constructor).
  rewrite Forall_forall in Hall. by apply Hall.
Qed.

Definition users : bytes := str "users".
Definition users_tombstones : bytes := str "users_tombstones".
Definition id_column : CdcApplyColumn := {| ac_name := str "id"; ac_target_type := str "BIGINT" |}.
Definition name_column : CdcApplyColumn := {| ac_name := str "name"; ac_target_type := str "TEXT" |}.

Definition a_row (mu : CdcApplyMutation) (token : bytes) (ordinal : N) (values : list CdcApplyValue) : CdcApplyRow := {|
  ar_metadata := {| am_mutation := mu; am_event_id := []; am_order_token := token; am_source_ordinal := ordinal |}; ar_values := values |}.

Definition inserted : CdcApplyRow := a_row ApplyUpsert [x01] 0 [CvUnsigned 7; CvText (str "Ada")].
Definition renamed : CdcApplyRow := a_row ApplyUpsert [x02] 1 [CvUnsigned 7; CvText (str "Ada L.")].
Definition removed : CdcApplyRow := a_row ApplyDelete [x03] 2 [CvUnsigned 7; CvNull].

Definition batch_of (rows : list CdcApplyRow) : CdcApplyBatch := {|
  ab_columns := [id_column; name_column]; ab_business_key_columns := [str "id"]; ab_rows := rows |}.
Definition a_batch : CdcApplyBatch := batch_of [inserted; renamed; removed].

Definition empty_sink : gmap bytes (list (gmap bytes Value)) := {[ users := []; users_tombstones := [] ]}.

Lemma tables_apart : users ≠ users_tombstones.
Proof. done. Qed.

Lemma empty_sink_target : empty_sink !! users = Some [].
Proof. apply lookup_insert_eq. Qed.
Lemma empty_sink_tombstones : empty_sink !! users_tombstones = Some [].
Proof. unfold empty_sink. rewrite lookup_insert_ne by apply tables_apart. apply lookup_singleton_eq. Qed.
Lemma empty_sink_fresh t : t ∉ [users; users_tombstones] → empty_sink !! t = None.
Proof. rewrite !not_elem_of_cons. intros (H1 & H2 & _). unfold empty_sink. by rewrite lookup_insert_ne, lookup_singleton_ne by done. Qed.

Lemma empty_sink_ok : sink_ok users users_tombstones [str "id"] empty_sink.
Proof.
  assert (rows_of empty_sink users = [] ∧ rows_of empty_sink users_tombstones = []) as [E1 E2].
  { unfold rows_of. by rewrite empty_sink_target, empty_sink_tombstones. }
  split; rewrite ?E1, ?E2, ?empty_sink_target, ?empty_sink_tombstones; [eauto..|apply unique_nil|apply unique_nil|].
  intros k. unfold target_at, tombstone_at. by rewrite E1, E2.
Qed.

Lemma batch_of_ready rows : in_order rows → (∀ r, r ∈ rows → is_Some (event_key (V := Value) [id_column; name_column] [str "id"] r)) → apply_ready Value (batch_of rows).
Proof.
  intros Ho Hk. split; [by apply NoDup_singleton| |done|done]. cbn. intros n Hn Hin.
  assert (bool_decide (Forall (λ n, n ∉ [str "id"; str "name"]) [TOKEN; ORDINAL; MUTATION; STAGE_TOKEN]) = true) as Hall by (by vm_compute).
  apply bool_decide_eq_true in Hall. rewrite Forall_forall in Hall. by apply (Hall n).
Qed.

Lemma a_batch_ready : apply_ready Value a_batch.
Proof.
  apply batch_of_ready; [repeat constructor|]. intros r Hr. repeat (apply elem_of_cons in Hr as [->|Hr]; [by vm_compute; eexists|]). by apply elem_of_nil in Hr.
Qed.

Definition a_sql : WarehouseBulkCdcSql :=
  match warehouse_bulk_cdc_sql Snowflake users users_tombstones a_batch with
  | Ok sql => sql
  | Err _ => {| wb_stage_table := []; wb_winners_table := []; wb_idempotency_key := []; wb_setup_statements := []; wb_apply_statements := []; wb_cleanup_statements := [] |}
  end.

Lemma a_sql_Ok : warehouse_bulk_cdc_sql Snowflake users users_tombstones a_batch = Ok a_sql.
Proof. by vm_compute. Qed.


Lemma bulk_within_limits_witness : (N.of_nat (length (ab_rows a_batch)) ≤ 10000)%N.
Proof. exact (proj1 (proj2 (bulk_within_limits Snowflake users users_tombstones a_batch a_sql a_sql_Ok))). Defined.

(** Rows applied one at a time, in any order. *)
Lemma deliver_rows rows m : Forall (λ r, validate (batch_of [r]) = Ok tt ∧ is_Some (event_key (V := Value) [id_column; name_column] [str "id"] r)) rows →
  sink_ok users users_tombstones [str "id"] m → ∃ m', delivery Snowflake users users_tombstones [id_column; name_column] [str "id"] m rows m'.
Proof.
  intros Hrows. revert m. induction Hrows as [|r rows [Hv Hk] Hrows IH]; intros m Hm; [eexists; constructor|].
  assert (apply_ready Value (batch_of [r])) as Hready by (apply batch_of_ready; [repeat constructor|intros r' Hr'; by apply list_elem_of_singleton in Hr' as ->]).
  destruct (validate_schema _ Hv Hready) as [Hschema Hwidth].
  destruct (guarded_rows_exec Snowflake users users_tombstones (batch_of [r]) Hschema Hwidth Hready tables_apart [r] m (λ r H, H) Hm) as (m1 & H1 & Hok & _ & _).
  cbn [fmap list_fmap concat] in H1. rewrite app_nil_r in H1. destruct (IH m1 Hok) as [m' Hd]. exists m'.
  eapply (delivery_guarded _ _ _ _ _ _ (batch_of [r])); [done..| |done|exact H1|exact Hd].
  unfold guarded_warehouse_cdc_row_sql. cbn [ab_columns ab_business_key_columns batch_of]. fold (batch_of [r]).
  by rewrite (guarded_texts (V := Value) Snowflake users users_tombstones (batch_of [r]) Hschema Hwidth Hv).
Qed.

Lemma deliver_batch : ∃ m', delivery Snowflake users users_tombstones [id_column; name_column] [str "id"] empty_sink (ab_rows a_batch ++ []) m'.
Proof.
  destruct (bulk_text (V := Value) _ _ _ _ _ a_sql_Ok) as (_ & Hrows & Hv). destruct (validate_schema _ Hv a_batch_ready) as [Hschema Hwidth].
  destruct (bulk_exec Snowflake users users_tombstones a_batch Hschema Hwidth a_batch_ready tables_apart empty_sink Hrows empty_sink_ok) as (m1 & H1 & _).
  - apply empty_sink_fresh, (bool_decide_unpack _). by vm_compute.
  - apply empty_sink_fresh, (bool_decide_unpack _). by vm_compute.
  - exists m1. by eapply (delivery_bulk _ _ _ _ _ _ a_batch); [..|exact a_sql_Ok|exact a_batch_ready|exact H1|constructor].
Qed.


Definition null_keyed : CdcApplyRow := a_row ApplyUpsert [x01] 0 [CvNull; CvText (str "Ada")].

(** The rows of the table after a delivery of statements [n] times. *)
Definition copies (ss : list (Stmt Value)) (n : nat) : nat := length (rows_of (Nat.iter n (transact ss) empty_sink) users).


(** BigQuery and the token column.  The guarded statements that the BigQuery sink falls back to when a batch exceeds
    its limits name the token column between double quotes, while they create it, and name every other column, between back
    quotes; what is between double quotes is a string in BigQuery. *)
Theorem bigquery_guarded_quotes_token :
  ¬ names_column BigQuery token_ident ∧
  ddl_add_order_token_column BigqueryCdcBackend users = str "ALTER TABLE users ADD COLUMN IF NOT EXISTS `_skippr_order_token` BYTES" ∧
  guarded_warehouse_cdc_sql BigqueryCdcBackend BigQuery users users_tombstones (batch_of [removed]) = Some (Ok [
    str "BEGIN TRANSACTION;" ++ nl ++
    str "DELETE FROM users" ++ nl ++ str "WHERE `id` = 7" ++ nl ++ str "AND (" ++ nl ++
    str "users." ++ QUOTED_TOKEN ++ str " IS NULL" ++ nl ++
    str "OR users." ++ QUOTED_TOKEN ++ str " < FROM_HEX('03')" ++ nl ++ str ");" ++ nl ++
    str "MERGE users_tombstones AS t" ++ nl ++
    str "USING (SELECT 7 AS `id`, FROM_HEX('03') AS " ++ QUOTED_TOKEN ++ str ") AS s" ++ nl ++
    str "ON t.`id` = s.`id`" ++ nl ++
    str "WHEN MATCHED AND t." ++ QUOTED_TOKEN ++ str " < s." ++ QUOTED_TOKEN ++ nl ++
    str "THEN UPDATE SET " ++ QUOTED_TOKEN ++ str " = s." ++ QUOTED_TOKEN ++ nl ++
    str "WHEN NOT MATCHED" ++ nl ++
    str "THEN INSERT (`id`, " ++ QUOTED_TOKEN ++ str ") VALUES (s.`id`, s." ++ QUOTED_TOKEN ++ str ");" ++ nl ++
    str "COMMIT TRANSACTION;"]).
Proof.
  split_and!; [|by vm_compute..]. intros [H|[H _]]; [|done]. by vm_compute in H.
Qed.
End ApplyExample.
