(* ===== verification/Tuner.v ===== *)
(** * Tuner: the limits of the flush pipeline, tuned from what is measured (src/ingest/tuner.rs)

    One sample a second is turned into limits for the jobs of the scheduler, decoding, sink sessions,
    uploads, parts and catalog operations: they are halved when something is saturated, grow by small
    steps when there is work and room, and never leave the caps of the machine and the environment.
    Limits, counters and times (nanoseconds) are [N]; floating-point numbers are a parameter. *)

From Stdlib Require QArith_base Qround.
From S2P Require Import Prelude Bytes Text Io.

(** ** Numbers *)

Definition saturating_mul (x y : N) : N := N.min U64_MAX (x * y).

(** [Ord::clamp], for bounds in order. *)
Definition clamp (x lo hi : N) : N := if (x <? lo)%N then lo else if (hi <? x)%N then hi else x.

(** What is used of [f64] and [f32]: casts, literals as a numerator and a denominator, arithmetic,
    comparisons and the saturating cast back. *)
Class Float (F : Type) : Type := {
  f_of_N : N → F;
  f_lit : N → N → F;
  f_secs : N → F;
  f_sub : F → F → F;
  f_mul : F → F → F;
  f_div : F → F → F;
  f_le : F → F → bool;
  f_lt : F → F → bool;
  f_max : F → F → F;
  f_round : F → F;
  f_to_u64 : F → N
}.

Definition MILLISECOND : N := 1000000.
Definition SECOND : N := 1000000000.

Definition MIN_THROUGHPUT_RATE_WINDOW : N := 100 * MILLISECOND.

Section Rates.
Context {F : Type} {FL : Float F}.

Definition rolling_rate_bytes_per_sec_for_elapsed (elapsed total_bytes min_elapsed : N) : N :=
  if (elapsed <? min_elapsed)%N then 0%N
  else
    let secs := f_secs elapsed in
    if f_le secs (f_lit 0 1) then 0%N else f_to_u64 (f_div (f_of_N total_bytes) secs).

Definition rolling_rate_bytes_per_sec (oldest now total_bytes min_elapsed : N) : N :=
  rolling_rate_bytes_per_sec_for_elapsed (saturating_sub now oldest) total_bytes min_elapsed.

Definition throughput_trend_per_sec_for_span (span oldest_bps newest_bps min_span : N) : F :=
  if (span <? min_span)%N then f_lit 0 1
  else
    let time_diff := f_secs span in
    if f_le time_diff (f_lit 0 1) then f_lit 0 1 else f_div (f_sub (f_of_N newest_bps) (f_of_N oldest_bps)) time_diff.

Definition throughput_trend_per_sec (oldest_time newest_time oldest_bps newest_bps min_span : N) : F :=
  throughput_trend_per_sec_for_span (saturating_sub newest_time oldest_time) oldest_bps newest_bps min_span.
End Rates.

Definition TUNE_INTERVAL : N := SECOND.
Definition RETRY_BACKOFF_X100 : N := 50.
Definition HIGH_UPLOAD_LATENCY_MS : N := 30000.
Definition HIGH_SINK_COMMIT_MS : N := 60000.
Definition HIGH_SINK_WAIT_MS : N := 1000.
Definition HIGH_SINK_WRITE_AGE_MS : N := 120000.
Definition HIGH_WAL_ACK_MS : N := 250.
Definition HIGH_WAL_PERSIST_MS : N := 500.
Definition QUIET_SAMPLES_BEFORE_GROWTH : N := 5.
Definition GROWTH_COOLDOWN_SAMPLES : N := 10.
Definition BACKLOG_GRACE_SAMPLES : N := 15.

Inductive FlushMode : Type := ModeIngest | ModePaused | ModeDrain.

Inductive BudgetReason : Type :=
| Initial | EnvironmentCaps | IngestReserve | Idle | HealthyDrain | HighRss | LowAvailableMemory | HighRunQueue | CpuSaturated
| S3Retry | GlueThrottle | UploadLatency | SinkContention | OpportunisticHeadroom | IngestPressure | BacklogGrace | SinkWriteAge.
#[global] Instance BudgetReason_eq_dec : EqDecision BudgetReason.
Proof. solve_decision. Defined.

Definition reason_str (r : BudgetReason) : bytes :=
  match r with
  | Initial => str "initial"
  | EnvironmentCaps => str "environment_caps"
  | IngestReserve => str "ingest_reserve"
  | Idle => str "idle"
  | HealthyDrain => str "healthy_drain"
  | HighRss => str "high_rss"
  | LowAvailableMemory => str "low_available_memory"
  | HighRunQueue => str "high_run_queue"
  | CpuSaturated => str "cpu_saturated"
  | S3Retry => str "s3_retry"
  | GlueThrottle => str "glue_throttle"
  | UploadLatency => str "upload_latency"
  | SinkContention => str "sink_contention"
  | OpportunisticHeadroom => str "opportunistic_headroom"
  | IngestPressure => str "ingest_pressure"
  | BacklogGrace => str "backlog_grace"
  | SinkWriteAge => str "sink_write_age"
  end.

Definition reason_code (r : BudgetReason) : N :=
  match r with
  | Initial => 0 | EnvironmentCaps => 1 | IngestReserve => 2 | Idle => 3 | HealthyDrain => 4 | HighRss => 5
  | LowAvailableMemory => 6 | HighRunQueue => 7 | CpuSaturated => 8 | S3Retry => 9 | GlueThrottle => 10
  | UploadLatency => 11 | SinkContention => 12 | OpportunisticHeadroom => 13 | IngestPressure => 14
  | BacklogGrace => 15 | SinkWriteAge => 16
  end.

Inductive IngestPressureClass : Type := Quiet | Neutral | Pressured.
#[global] Instance IngestPressureClass_eq_dec : EqDecision IngestPressureClass.
Proof. solve_decision. Defined.

Definition pressure_str (p : IngestPressureClass) : bytes :=
  match p with Quiet => str "quiet" | Neutral => str "neutral" | Pressured => str "pressured" end.
Definition pressure_code (p : IngestPressureClass) : N := match p with Quiet => 0 | Neutral => 1 | Pressured => 2 end.

Record FlushBudgetPolicyState : Type := {
  quiet_streak : N;
  growth_cooldown_remaining : N;
  backlog_grace_remaining : N
}.
Definition default_policy : FlushBudgetPolicyState :=
  {| quiet_streak := 0; growth_cooldown_remaining := 0; backlog_grace_remaining := 0 |}.
Definition primed_for_growth : FlushBudgetPolicyState :=
  {| quiet_streak := QUIET_SAMPLES_BEFORE_GROWTH; growth_cooldown_remaining := 0; backlog_grace_remaining := 0 |}.

Record FlushBudgetSnapshot : Type := {
  scheduler_jobs : N;
  decode_jobs : N;
  sink_sessions : N;
  upload_sessions : N;
  multipart_parts : N;
  catalog_operations : N;
  ingest_reserved_cores : N;
  generation : N;
  reason : BudgetReason
}.
Definition default_snapshot : FlushBudgetSnapshot := {|
  scheduler_jobs := 1; decode_jobs := 1; sink_sessions := 1; upload_sessions := 1; multipart_parts := 1; catalog_operations := 1;
  ingest_reserved_cores := 1; generation := 0; reason := Initial |}.

Record FlushBudgetCaps : Type := {
  num_cpus : N;
  cap_scheduler_jobs : N;
  cap_decode_jobs : N;
  cap_sink_sessions : N;
  cap_upload_sessions : N;
  cap_multipart_parts : N;
  cap_catalog_operations : N;
  cap_ingest_reserved_cores : N;
  ingest_safe_scheduler_jobs : N
}.

Definition for_machine (cpus : N) (total_memory_bytes : option N) : FlushBudgetCaps :=
  let num_cpus := N.max cpus 2 in
  let memory_gib := (λ bytes, N.min (N.max (bytes / (1024 * 1024 * 1024)) 1) U64_MAX) <$> total_memory_bytes in
  let scheduler := clamp (saturating_mul num_cpus 2) 2 128 in
  let decode := clamp (default num_cpus ((λ gib, N.min num_cpus (saturating_mul gib 2)) <$> memory_gib)) 1 128 in
  let sink := N.min (default 2%N ((λ gib, N.max (gib / 4) 1) <$> memory_gib)) (clamp (num_cpus / 4) 2 16) in
  let upload := N.min (default 4%N ((λ gib, saturating_mul gib 2) <$> memory_gib)) (clamp (saturating_mul num_cpus 2) 4 256) in
  let parts := N.min (default 2%N ((λ gib, clamp (gib / 16) 1 8) <$> memory_gib)) (clamp (num_cpus / 8) 2 8) in
  let catalog := clamp (num_cpus / 8) 2 16 in
  let reserved := N.max (num_cpus / 4) 1 in
  {| num_cpus := num_cpus; cap_scheduler_jobs := scheduler; cap_decode_jobs := decode; cap_sink_sessions := N.max sink 1;
     cap_upload_sessions := N.max upload 1; cap_multipart_parts := N.max parts 1; cap_catalog_operations := catalog;
     cap_ingest_reserved_cores := reserved; ingest_safe_scheduler_jobs := N.min 2 scheduler |}.

Record FlushBudgetSignals (F : Type) : Type := {
  mode_signal : option FlushMode;
  has_backlog : bool;
  active_ingest : N;
  queued_ingest : N;
  scheduler_ready_depth : N;
  cpu_active_tasks : N;
  run_queue : option F;
  process_rss_bytes : option N;
  total_memory_bytes : option N;
  available_memory_bytes : option N;
  decode_permit_wait_ms : option N;
  sink_permit_wait_ms : option N;
  runtime_sink_waiters : N;
  uploads_in_flight : N;
  upload_latency_ms : option N;
  sink_commit_ms : option N;
  oldest_sink_write_ms : option N;
  s3_retries : N;
  s3_retry_ema_x100 : N;
  glue_retries : N;
  glue_retry_ema_x100 : N;
  wal_writer_pending : N;
  wal_writer_capacity : N;
  wal_persist_avg_ms : option N;
  wal_ack_avg_ms : option N;
  source_bytes_per_sec : N;
  wal_write_bytes_per_sec : N
}.
Arguments mode_signal {F}.
Arguments has_backlog {F}.
Arguments active_ingest {F}.
Arguments queued_ingest {F}.
Arguments scheduler_ready_depth {F}.
Arguments cpu_active_tasks {F}.
Arguments run_queue {F}.
Arguments process_rss_bytes {F}.
Arguments total_memory_bytes {F}.
Arguments available_memory_bytes {F}.
Arguments decode_permit_wait_ms {F}.
Arguments sink_permit_wait_ms {F}.
Arguments runtime_sink_waiters {F}.
Arguments uploads_in_flight {F}.
Arguments upload_latency_ms {F}.
Arguments sink_commit_ms {F}.
Arguments oldest_sink_write_ms {F}.
Arguments s3_retries {F}.
Arguments s3_retry_ema_x100 {F}.
Arguments glue_retries {F}.
Arguments glue_retry_ema_x100 {F}.
Arguments wal_writer_pending {F}.
Arguments wal_writer_capacity {F}.
Arguments wal_persist_avg_ms {F}.
Arguments wal_ack_avg_ms {F}.
Arguments source_bytes_per_sec {F}.
Arguments wal_write_bytes_per_sec {F}.

Definition signal_mode {F} (s : FlushBudgetSignals F) : FlushMode := default ModeIngest (mode_signal s).

Definition scheduler_additive_step (cpus : N) : N := clamp (cpus / 32) 1 4.

Definition cap_snapshot (snapshot : FlushBudgetSnapshot) (caps : FlushBudgetCaps) (ingest_busy : bool) : FlushBudgetSnapshot :=
  let reserved_scheduler_cap := N.max (saturating_sub (num_cpus caps) (cap_ingest_reserved_cores caps)) 1 in
  let scheduler_cap :=
    if ingest_busy then N.min (N.min (cap_scheduler_jobs caps) (ingest_safe_scheduler_jobs caps)) reserved_scheduler_cap
    else cap_scheduler_jobs caps in
  {| scheduler_jobs := clamp (scheduler_jobs snapshot) 1 (N.max scheduler_cap 1);
     decode_jobs := clamp (decode_jobs snapshot) 1 (N.max (N.min (cap_decode_jobs caps) scheduler_cap) 1);
     sink_sessions := clamp (sink_sessions snapshot) 1 (N.max (cap_sink_sessions caps) 1);
     upload_sessions := clamp (upload_sessions snapshot) 1 (N.max (cap_upload_sessions caps) 1);
     multipart_parts := clamp (multipart_parts snapshot) 1 (N.max (cap_multipart_parts caps) 1);
     catalog_operations := clamp (catalog_operations snapshot) 1 (N.max (cap_catalog_operations caps) 1);
     ingest_reserved_cores := cap_ingest_reserved_cores caps;
     generation := generation snapshot; reason := reason snapshot |}.

Definition same_limits (a b : FlushBudgetSnapshot) : bool :=
  (scheduler_jobs a =? scheduler_jobs b)%N && (decode_jobs a =? decode_jobs b)%N && (sink_sessions a =? sink_sessions b)%N
  && (upload_sessions a =? upload_sessions b)%N && (multipart_parts a =? multipart_parts b)%N
  && (catalog_operations a =? catalog_operations b)%N && (ingest_reserved_cores a =? ingest_reserved_cores b)%N.

Definition with_generation (s : FlushBudgetSnapshot) (g : N) (r : BudgetReason) : FlushBudgetSnapshot := {|
  scheduler_jobs := scheduler_jobs s; decode_jobs := decode_jobs s; sink_sessions := sink_sessions s; upload_sessions := upload_sessions s;
  multipart_parts := multipart_parts s; catalog_operations := catalog_operations s; ingest_reserved_cores := ingest_reserved_cores s;
  generation := g; reason := r |}.

Definition finish_decision (current next : FlushBudgetSnapshot) (why : BudgetReason) : FlushBudgetSnapshot :=
  if same_limits current next then current else with_generation next (saturating_add U64_MAX (generation current) 1) why.

Definition halved (n : N) : N := N.max (n / 2) 1.

Definition multiplicative_backoff (s : FlushBudgetSnapshot) : FlushBudgetSnapshot := {|
  scheduler_jobs := halved (scheduler_jobs s); decode_jobs := halved (decode_jobs s); sink_sessions := halved (sink_sessions s);
  upload_sessions := halved (upload_sessions s); multipart_parts := halved (multipart_parts s); catalog_operations := halved (catalog_operations s);
  ingest_reserved_cores := ingest_reserved_cores s; generation := generation s; reason := reason s |}.

Definition multiplicative_sink_upload_backoff (s : FlushBudgetSnapshot) : FlushBudgetSnapshot := {|
  scheduler_jobs := scheduler_jobs s; decode_jobs := decode_jobs s; sink_sessions := halved (sink_sessions s);
  upload_sessions := halved (upload_sessions s); multipart_parts := halved (multipart_parts s); catalog_operations := halved (catalog_operations s);
  ingest_reserved_cores := ingest_reserved_cores s; generation := generation s; reason := reason s |}.

Definition one_less (n : N) : N := N.max (saturating_sub n 1) 1.

Definition additive_idle_decrease (s : FlushBudgetSnapshot) : FlushBudgetSnapshot := {|
  scheduler_jobs := one_less (scheduler_jobs s); decode_jobs := one_less (decode_jobs s); sink_sessions := one_less (sink_sessions s);
  upload_sessions := one_less (upload_sessions s); multipart_parts := one_less (multipart_parts s); catalog_operations := one_less (catalog_operations s);
  ingest_reserved_cores := ingest_reserved_cores s; generation := generation s; reason := reason s |}.

Definition ratio_at_least (value total percent : N) : bool :=
  (0 <? total)%N && (saturating_mul total percent <=? saturating_mul value 100)%N.
Definition ratio_at_most (value total percent : N) : bool :=
  (0 <? total)%N && (saturating_mul value 100 <=? saturating_mul total percent)%N.

Definition is_some_and (o : option N) (p : N → bool) : bool := match o with Some n => p n | None => false end.

(** ** One sample *)

Section Policy.
Context {F : Type} {FL : Float F}.
Notation signals := (FlushBudgetSignals F).

Definition memory_healthy (s : signals) : bool :=
  match available_memory_bytes s, process_rss_bytes s, total_memory_bytes s with
  | Some available, Some rss, Some total => ratio_at_least available total 25 && ratio_at_most rss total 60
  | Some available, _, None => (2 * 1024 * 1024 * 1024 <=? available)%N
  | _, Some rss, Some total => ratio_at_most rss total 60
  | _, _, _ => false
  end.

Definition load_healthy (s : signals) (caps : FlushBudgetCaps) : bool :=
  match run_queue s with
  | Some load => f_le load (f_mul (f_of_N (num_cpus caps)) (f_lit 90 100))
  | None => (cpu_active_tasks s <? saturating_mul (num_cpus caps) 3 / 4)%N
  end.

Definition retries_healthy (s : signals) : bool :=
  (s3_retries s =? 0)%N && (glue_retries s =? 0)%N && (s3_retry_ema_x100 s <? RETRY_BACKOFF_X100)%N && (glue_retry_ema_x100 s <? RETRY_BACKOFF_X100)%N.

Definition wal_writer_pressured (s : signals) : bool :=
  let queue_saturated := (0 <? wal_writer_capacity s)%N && (wal_writer_capacity s <=? saturating_mul (wal_writer_pending s) 2)%N in
  let latency_pressured := (0 <? wal_writer_pending s)%N &&
    (is_some_and (wal_ack_avg_ms s) (λ latency, HIGH_WAL_ACK_MS <=? latency)%N || is_some_and (wal_persist_avg_ms s) (λ latency, HIGH_WAL_PERSIST_MS <=? latency)%N) in
  queue_saturated || latency_pressured.

Definition ingest_pressured (s : signals) (caps : FlushBudgetCaps) : bool :=
  (0 <? queued_ingest s)%N || (cap_ingest_reserved_cores caps <=? active_ingest s)%N || wal_writer_pressured s.

Definition classify_pressure (s : signals) (caps : FlushBudgetCaps) : IngestPressureClass :=
  if ingest_pressured s caps then Pressured
  else if memory_healthy s && load_healthy s caps && retries_healthy s then Quiet else Neutral.

Definition mark_backoff_cooldown (p : FlushBudgetPolicyState) : FlushBudgetPolicyState :=
  {| quiet_streak := 0; growth_cooldown_remaining := GROWTH_COOLDOWN_SAMPLES; backlog_grace_remaining := backlog_grace_remaining p |}.

Definition finish_with_policy (current next : FlushBudgetSnapshot) (why : BudgetReason) (p : FlushBudgetPolicyState)
    : FlushBudgetSnapshot * FlushBudgetPolicyState := (finish_decision current next why, p).

Definition additive_growth (current : FlushBudgetSnapshot) (caps : FlushBudgetCaps) (s : signals) : FlushBudgetSnapshot :=
  let scheduler_step := scheduler_additive_step (num_cpus caps) in
  let positive := λ wait, (0 <? wait)%N in
  let scheduler_demand := (scheduler_jobs current <? scheduler_ready_depth s)%N || is_some_and (decode_permit_wait_ms s) positive in
  let sink_demand := (sink_sessions current <? scheduler_ready_depth s)%N || is_some_and (sink_permit_wait_ms s) positive || (0 <? runtime_sink_waiters s)%N in
  let upload_demand := (upload_sessions current <? scheduler_ready_depth s)%N || (upload_sessions current <=? uploads_in_flight s)%N || bool_decide (is_Some (upload_latency_ms s)) in
  let catalog_demand := (catalog_operations current <? scheduler_ready_depth s)%N || (0 <? runtime_sink_waiters s)%N in
  let grown := λ (demand : bool) (n step cap : N), if demand then N.min (saturating_add U64_MAX n step) cap else n in
  {| scheduler_jobs := grown scheduler_demand (scheduler_jobs current) scheduler_step (cap_scheduler_jobs caps);
     decode_jobs := grown scheduler_demand (decode_jobs current) scheduler_step (cap_decode_jobs caps);
     sink_sessions := grown sink_demand (sink_sessions current) 1%N (cap_sink_sessions caps);
     upload_sessions := grown upload_demand (upload_sessions current) scheduler_step (cap_upload_sessions caps);
     multipart_parts := grown upload_demand (multipart_parts current) 1%N (cap_multipart_parts caps);
     catalog_operations := grown catalog_demand (catalog_operations current) 1%N (cap_catalog_operations caps);
     ingest_reserved_cores := ingest_reserved_cores current; generation := generation current; reason := reason current |}.

(** The hysteresis before the decision. *)
Definition next_grace (s : signals) (p : FlushBudgetPolicyState) : N :=
  if has_backlog s then BACKLOG_GRACE_SAMPLES else saturating_sub (backlog_grace_remaining p) 1.
Definition next_streak (s : signals) (caps : FlushBudgetCaps) (p : FlushBudgetPolicyState) : N :=
  match classify_pressure s caps with
  | Quiet => N.min (saturating_add U32_MAX (quiet_streak p) 1) QUIET_SAMPLES_BEFORE_GROWTH
  | Neutral | Pressured => 0%N
  end.
Definition sampled (s : signals) (caps : FlushBudgetCaps) (p : FlushBudgetPolicyState) : FlushBudgetPolicyState :=
  {| quiet_streak := next_streak s caps p; growth_cooldown_remaining := growth_cooldown_remaining p; backlog_grace_remaining := next_grace s p |}.

(** The safeguards in the order they are tried: the reason and the limits of the first that holds. *)
Definition safeguard (current : FlushBudgetSnapshot) (caps : FlushBudgetCaps) (s : signals) : option (BudgetReason * FlushBudgetSnapshot) :=
  let halve := λ why, Some (why, multiplicative_backoff current) in
  let high_rss := match process_rss_bytes s, total_memory_bytes s with Some rss, Some total => ratio_at_least rss total 75 | _, _ => false end in
  let low_memory := match available_memory_bytes s, total_memory_bytes s with Some available, Some total => ratio_at_most available total 15 | _, _ => false end in
  let high_run_queue := match run_queue s with Some load => f_lt (f_mul (f_of_N (num_cpus caps)) (f_lit 125 100)) load | None => false end in
  let cpu_saturated := match run_queue s with None => (num_cpus caps <=? cpu_active_tasks s)%N | Some _ => false end in
  if high_rss then halve HighRss
  else if low_memory then halve LowAvailableMemory
  else if high_run_queue then halve HighRunQueue
  else if cpu_saturated then halve CpuSaturated
  else if (0 <? s3_retries s)%N || (RETRY_BACKOFF_X100 <=? s3_retry_ema_x100 s)%N then halve S3Retry
  else if (0 <? glue_retries s)%N || (RETRY_BACKOFF_X100 <=? glue_retry_ema_x100 s)%N then halve GlueThrottle
  else if is_some_and (upload_latency_ms s) (λ latency, HIGH_UPLOAD_LATENCY_MS <=? latency)%N then halve UploadLatency
  else if is_some_and (sink_commit_ms s) (λ latency, HIGH_SINK_COMMIT_MS <=? latency)%N
          && (is_some_and (sink_permit_wait_ms s) (λ wait, HIGH_SINK_WAIT_MS <=? wait)%N || (0 <? runtime_sink_waiters s)%N) then halve SinkContention
  else if is_some_and (oldest_sink_write_ms s) (λ age, HIGH_SINK_WRITE_AGE_MS <=? age)%N then Some (SinkWriteAge, multiplicative_sink_upload_backoff current)
  else None.

Definition with_reason (s : FlushBudgetSnapshot) (r : BudgetReason) : FlushBudgetSnapshot := with_generation s (generation s) r.

(** A sample that changes nothing notes when only the grace keeps the backlog. *)
Definition held (current : FlushBudgetSnapshot) (using_backlog_grace : bool) : FlushBudgetSnapshot :=
  if using_backlog_grace && negb (bool_decide (reason current = BacklogGrace)) then with_reason current BacklogGrace else current.

Definition cooled (p : FlushBudgetPolicyState) : FlushBudgetPolicyState :=
  {| quiet_streak := quiet_streak p; growth_cooldown_remaining := saturating_sub (growth_cooldown_remaining p) 1; backlog_grace_remaining := backlog_grace_remaining p |}.

Definition drain_mode (s : signals) : bool := match signal_mode s with ModeDrain | ModePaused => true | ModeIngest => false end.

Definition compute_flush_budget (current : FlushBudgetSnapshot) (caps : FlushBudgetCaps) (s : signals) (policy : FlushBudgetPolicyState)
    : FlushBudgetSnapshot * FlushBudgetPolicyState :=
  let policy := sampled s caps policy in
  let effective_backlog := has_backlog s || (0 <? backlog_grace_remaining policy)%N in
  let using_backlog_grace := negb (has_backlog s) && (0 <? backlog_grace_remaining policy)%N in
  let pressure := classify_pressure s caps in
  let env_capped := cap_snapshot current caps false in
  if negb (same_limits current env_capped) then finish_with_policy current env_capped EnvironmentCaps policy
  else if bool_decide (pressure = Pressured) then
    finish_with_policy current (multiplicative_sink_upload_backoff (cap_snapshot current caps true)) IngestPressure (mark_backoff_cooldown policy)
  else match safeguard current caps s with
  | Some (why, next) => finish_with_policy current next why (mark_backoff_cooldown policy)
  | None =>
      if negb effective_backlog then finish_with_policy current (additive_idle_decrease current) Idle policy
      else if (0 <? growth_cooldown_remaining policy)%N then (held current using_backlog_grace, cooled policy)
      else
        let may_grow := drain_mode s || (bool_decide (pressure = Quiet) && (QUIET_SAMPLES_BEFORE_GROWTH <=? quiet_streak policy)%N) in
        if negb may_grow then (held current using_backlog_grace, policy)
        else if negb (memory_healthy s && load_healthy s caps && retries_healthy s) then (current, policy)
        else finish_with_policy current (additive_growth current caps s) (if drain_mode s then HealthyDrain else OpportunisticHeadroom) policy
  end.
End Policy.

(** ** The tuner *)

Record TelemetryTotals : Type := {
  tt_s3_retries : N; tt_glue_retries : N; tt_uploads : N; tt_upload_latency_ns : N; tt_decode_acquires : N; tt_decode_wait_ns : N;
  tt_sink_acquires : N; tt_sink_wait_ns : N; tt_runtime_sink_acquires : N; tt_runtime_sink_wait_ns : N; tt_sink_commits : N;
  tt_sink_commit_ns : N; tt_source_bytes : N; tt_wal_write_bytes : N }.
Definition no_totals : TelemetryTotals := {|
  tt_s3_retries := 0; tt_glue_retries := 0; tt_uploads := 0; tt_upload_latency_ns := 0; tt_decode_acquires := 0; tt_decode_wait_ns := 0;
  tt_sink_acquires := 0; tt_sink_wait_ns := 0; tt_runtime_sink_acquires := 0; tt_runtime_sink_wait_ns := 0; tt_sink_commits := 0;
  tt_sink_commit_ns := 0; tt_source_bytes := 0; tt_wal_write_bytes := 0 |}.

Record FlushTunerState : Type := {
  initialized : bool;
  ts_current : FlushBudgetSnapshot;
  ts_caps : FlushBudgetCaps;
  ts_previous : TelemetryTotals;
  last_tuned : option N;
  ts_s3_retry_ema_x100 : N;
  ts_glue_retry_ema_x100 : N;
  ts_policy : FlushBudgetPolicyState;
  last_pressure : IngestPressureClass
}.
Definition default_tuner : FlushTunerState := {|
  initialized := false; ts_current := default_snapshot; ts_caps := for_machine 2 None; ts_previous := no_totals; last_tuned := None;
  ts_s3_retry_ema_x100 := 0; ts_glue_retry_ema_x100 := 0; ts_policy := default_policy; last_pressure := Neutral |}.

(** The process environment as [Config::getenv] reads it; a variable that is not set is empty. *)
Notation environment := (bytes → bytes).

Definition env_cap (env : environment) (name : bytes) : option N :=
  value ← parse_N U64_MAX (env name);
  if (0 <? value)%N then Some value else None.

Definition min_env_caps (env : environment) (dflt : N) (names : list bytes) : N :=
  N.max (foldl N.min dflt (omap (env_cap env) names)) 1.

Definition caps_from_env (env : environment) (cpus : N) (total_memory_bytes : option N) : FlushBudgetCaps :=
  let caps := for_machine cpus total_memory_bytes in
  let wal_cap := min_env_caps env (cap_scheduler_jobs caps) [str "WAL_COMPACTION_CONCURRENCY_MAX"; str "WAL_COMPACTION_CONCURRENCY"] in
  let scheduler := N.min (cap_scheduler_jobs caps) wal_cap in
  let decode := N.min (cap_decode_jobs caps) wal_cap in
  let safe := N.max (N.min (default (ingest_safe_scheduler_jobs caps) (env_cap env (str "WAL_COMPACTION_INGEST_SAFE_CAP"))) scheduler) 1 in
  let per_sink_cap := min_env_caps env (cap_sink_sessions caps) [str "WAL_COMPACTIONS_PER_SINK_MAX"; str "WAL_COMPACTIONS_PER_SINK"] in
  let runtime_session_cap := min_env_caps env (cap_sink_sessions caps) [str "RUNTIME_SINK_SESSION_TARGET"; str "RUNTIME_SINK_SESSION_BUDGET"] in
  let upload_cap := min_env_caps env (cap_upload_sessions caps) [str "UPLOAD_CONCURRENCY_MAX"; str "UPLOAD_CONCURRENCY"] in
  {| num_cpus := num_cpus caps; cap_scheduler_jobs := scheduler; cap_decode_jobs := decode;
     cap_sink_sessions := N.min (N.min (cap_sink_sessions caps) per_sink_cap) runtime_session_cap;
     cap_upload_sessions := N.min (cap_upload_sessions caps) upload_cap;
     cap_multipart_parts := N.min (cap_multipart_parts caps) upload_cap;
     cap_catalog_operations :=
       N.min (min_env_caps env (cap_catalog_operations caps) [str "ATHENA_GLUE_CP_MAX"; str "ATHENA_GLUE_CONTROL_PLANE_CONCURRENCY"]) 32;
     cap_ingest_reserved_cores := cap_ingest_reserved_cores caps; ingest_safe_scheduler_jobs := safe |}.

Definition seed_budget (caps : FlushBudgetCaps) : FlushBudgetSnapshot :=
  cap_snapshot {| scheduler_jobs := 2; decode_jobs := 2; sink_sessions := 2; upload_sessions := 4; multipart_parts := 2; catalog_operations := 2;
                  ingest_reserved_cores := cap_ingest_reserved_cores caps; generation := 1; reason := EnvironmentCaps |} caps false.

(** The counters that sinks and plugins read. *)
Record Mirrors : Type := {
  WAL_COMPACTION_CONCURRENCY_TARGET : N;
  WAL_COMPACTIONS_PER_SINK_TARGET : N;
  RUNTIME_SINK_POOL_TARGET : N;
  UPLOAD_CONCURRENCY_TARGET : N;
  MULTIPART_PART_CONCURRENCY_TARGET : N;
  ATHENA_GLUE_CP_TARGET : N;
  FLUSH_BUDGET_GENERATION : N;
  FLUSH_BUDGET_REASON_CODE : N;
  FLUSH_BUDGET_INGEST_RESERVED_CORES : N;
  FLUSH_BUDGET_PRESSURE_CLASS : N;
  FLUSH_BUDGET_QUIET_STREAK : N;
  FLUSH_BUDGET_GROWTH_COOLDOWN : N;
  FLUSH_BUDGET_BACKLOG_GRACE : N;
  FLUSH_BUDGET_SOURCE_BYTES_PER_SEC : N;
  FLUSH_BUDGET_WAL_WRITE_BYTES_PER_SEC : N;
  S3_WAL_RETRY_EMA_X100 : N;
  GLUE_RETRY_EMA_X100 : N;
  S3_DOWNLOAD_CONCURRENCY_TARGET : N
}.

Definition publish_compatibility_mirrors (m : Mirrors) (snapshot : FlushBudgetSnapshot) (policy : FlushBudgetPolicyState) (pressure : IngestPressureClass)
    (source_bps wal_bps : N) : Mirrors := {|
  WAL_COMPACTION_CONCURRENCY_TARGET := scheduler_jobs snapshot;
  WAL_COMPACTIONS_PER_SINK_TARGET := sink_sessions snapshot;
  RUNTIME_SINK_POOL_TARGET := sink_sessions snapshot;
  UPLOAD_CONCURRENCY_TARGET := upload_sessions snapshot;
  MULTIPART_PART_CONCURRENCY_TARGET := multipart_parts snapshot;
  ATHENA_GLUE_CP_TARGET := catalog_operations snapshot;
  FLUSH_BUDGET_GENERATION := generation snapshot;
  FLUSH_BUDGET_REASON_CODE := reason_code (reason snapshot);
  FLUSH_BUDGET_INGEST_RESERVED_CORES := ingest_reserved_cores snapshot;
  FLUSH_BUDGET_PRESSURE_CLASS := pressure_code pressure;
  FLUSH_BUDGET_QUIET_STREAK := quiet_streak policy;
  FLUSH_BUDGET_GROWTH_COOLDOWN := growth_cooldown_remaining policy;
  FLUSH_BUDGET_BACKLOG_GRACE := backlog_grace_remaining policy;
  FLUSH_BUDGET_SOURCE_BYTES_PER_SEC := source_bps;
  FLUSH_BUDGET_WAL_WRITE_BYTES_PER_SEC := wal_bps;
  S3_WAL_RETRY_EMA_X100 := S3_WAL_RETRY_EMA_X100 m;
  GLUE_RETRY_EMA_X100 := GLUE_RETRY_EMA_X100 m;
  S3_DOWNLOAD_CONCURRENCY_TARGET := S3_DOWNLOAD_CONCURRENCY_TARGET m |}.

(** The hysteresis alone, with the code and the generation when the reason has changed. *)
Definition publish_hysteresis (m : Mirrors) (changed : option FlushBudgetSnapshot) (policy : FlushBudgetPolicyState) (pressure : IngestPressureClass)
    (source_bps wal_bps : N) : Mirrors := {|
  WAL_COMPACTION_CONCURRENCY_TARGET := WAL_COMPACTION_CONCURRENCY_TARGET m;
  WAL_COMPACTIONS_PER_SINK_TARGET := WAL_COMPACTIONS_PER_SINK_TARGET m;
  RUNTIME_SINK_POOL_TARGET := RUNTIME_SINK_POOL_TARGET m;
  UPLOAD_CONCURRENCY_TARGET := UPLOAD_CONCURRENCY_TARGET m;
  MULTIPART_PART_CONCURRENCY_TARGET := MULTIPART_PART_CONCURRENCY_TARGET m;
  ATHENA_GLUE_CP_TARGET := ATHENA_GLUE_CP_TARGET m;
  FLUSH_BUDGET_GENERATION := match changed with Some s => generation s | None => FLUSH_BUDGET_GENERATION m end;
  FLUSH_BUDGET_REASON_CODE := match changed with Some s => reason_code (reason s) | None => FLUSH_BUDGET_REASON_CODE m end;
  FLUSH_BUDGET_INGEST_RESERVED_CORES := FLUSH_BUDGET_INGEST_RESERVED_CORES m;
  FLUSH_BUDGET_PRESSURE_CLASS := pressure_code pressure;
  FLUSH_BUDGET_QUIET_STREAK := quiet_streak policy;
  FLUSH_BUDGET_GROWTH_COOLDOWN := growth_cooldown_remaining policy;
  FLUSH_BUDGET_BACKLOG_GRACE := backlog_grace_remaining policy;
  FLUSH_BUDGET_SOURCE_BYTES_PER_SEC := source_bps;
  FLUSH_BUDGET_WAL_WRITE_BYTES_PER_SEC := wal_bps;
  S3_WAL_RETRY_EMA_X100 := S3_WAL_RETRY_EMA_X100 m;
  GLUE_RETRY_EMA_X100 := GLUE_RETRY_EMA_X100 m;
  S3_DOWNLOAD_CONCURRENCY_TARGET := S3_DOWNLOAD_CONCURRENCY_TARGET m |}.

Definition set_retry_emas (m : Mirrors) (s3 glue : N) : Mirrors := {|
  WAL_COMPACTION_CONCURRENCY_TARGET := WAL_COMPACTION_CONCURRENCY_TARGET m;
  WAL_COMPACTIONS_PER_SINK_TARGET := WAL_COMPACTIONS_PER_SINK_TARGET m;
  RUNTIME_SINK_POOL_TARGET := RUNTIME_SINK_POOL_TARGET m;
  UPLOAD_CONCURRENCY_TARGET := UPLOAD_CONCURRENCY_TARGET m;
  MULTIPART_PART_CONCURRENCY_TARGET := MULTIPART_PART_CONCURRENCY_TARGET m;
  ATHENA_GLUE_CP_TARGET := ATHENA_GLUE_CP_TARGET m;
  FLUSH_BUDGET_GENERATION := FLUSH_BUDGET_GENERATION m;
  FLUSH_BUDGET_REASON_CODE := FLUSH_BUDGET_REASON_CODE m;
  FLUSH_BUDGET_INGEST_RESERVED_CORES := FLUSH_BUDGET_INGEST_RESERVED_CORES m;
  FLUSH_BUDGET_PRESSURE_CLASS := FLUSH_BUDGET_PRESSURE_CLASS m;
  FLUSH_BUDGET_QUIET_STREAK := FLUSH_BUDGET_QUIET_STREAK m;
  FLUSH_BUDGET_GROWTH_COOLDOWN := FLUSH_BUDGET_GROWTH_COOLDOWN m;
  FLUSH_BUDGET_BACKLOG_GRACE := FLUSH_BUDGET_BACKLOG_GRACE m;
  FLUSH_BUDGET_SOURCE_BYTES_PER_SEC := FLUSH_BUDGET_SOURCE_BYTES_PER_SEC m;
  FLUSH_BUDGET_WAL_WRITE_BYTES_PER_SEC := FLUSH_BUDGET_WAL_WRITE_BYTES_PER_SEC m;
  S3_WAL_RETRY_EMA_X100 := s3;
  GLUE_RETRY_EMA_X100 := glue;
  S3_DOWNLOAD_CONCURRENCY_TARGET := S3_DOWNLOAD_CONCURRENCY_TARGET m |}.

Definition set_s3_download (m : Mirrors) (v : N) : Mirrors := {|
  WAL_COMPACTION_CONCURRENCY_TARGET := WAL_COMPACTION_CONCURRENCY_TARGET m;
  WAL_COMPACTIONS_PER_SINK_TARGET := WAL_COMPACTIONS_PER_SINK_TARGET m;
  RUNTIME_SINK_POOL_TARGET := RUNTIME_SINK_POOL_TARGET m;
  UPLOAD_CONCURRENCY_TARGET := UPLOAD_CONCURRENCY_TARGET m;
  MULTIPART_PART_CONCURRENCY_TARGET := MULTIPART_PART_CONCURRENCY_TARGET m;
  ATHENA_GLUE_CP_TARGET := ATHENA_GLUE_CP_TARGET m;
  FLUSH_BUDGET_GENERATION := FLUSH_BUDGET_GENERATION m;
  FLUSH_BUDGET_REASON_CODE := FLUSH_BUDGET_REASON_CODE m;
  FLUSH_BUDGET_INGEST_RESERVED_CORES := FLUSH_BUDGET_INGEST_RESERVED_CORES m;
  FLUSH_BUDGET_PRESSURE_CLASS := FLUSH_BUDGET_PRESSURE_CLASS m;
  FLUSH_BUDGET_QUIET_STREAK := FLUSH_BUDGET_QUIET_STREAK m;
  FLUSH_BUDGET_GROWTH_COOLDOWN := FLUSH_BUDGET_GROWTH_COOLDOWN m;
  FLUSH_BUDGET_BACKLOG_GRACE := FLUSH_BUDGET_BACKLOG_GRACE m;
  FLUSH_BUDGET_SOURCE_BYTES_PER_SEC := FLUSH_BUDGET_SOURCE_BYTES_PER_SEC m;
  FLUSH_BUDGET_WAL_WRITE_BYTES_PER_SEC := FLUSH_BUDGET_WAL_WRITE_BYTES_PER_SEC m;
  S3_WAL_RETRY_EMA_X100 := S3_WAL_RETRY_EMA_X100 m;
  GLUE_RETRY_EMA_X100 := GLUE_RETRY_EMA_X100 m;
  S3_DOWNLOAD_CONCURRENCY_TARGET := v |}.

Definition ema_x100 (previous delta : N) : N :=
  (saturating_add U64_MAX (saturating_mul previous 80) (saturating_mul (saturating_mul delta 100) 20) / 100)%N.

Definition delta_average_ms (total_count previous_count total_ns previous_ns : N) : option N :=
  let count := saturating_sub total_count previous_count in
  if (0 <? count)%N then Some (saturating_sub total_ns previous_ns / count / 1000000)%N else None.

Section Update.
Context {F : Type} {FL : Float F}.

(** What a call finds: the clock, the machine, the counters of the process and the measurements of
    other components. *)
Record Sample : Type := {
  sm_now : N;
  sm_env : environment;
  sm_num_cpus : N;
  sm_rss : option N;
  sm_total_memory : option N;
  sm_available_memory : option N;
  sm_run_queue : option F;
  sm_totals : TelemetryTotals;
  sm_active_threads : N;
  sm_queue_length : N;
  sm_compaction_active : N;
  sm_ready_work : N;
  sm_sink_waiters : N;
  sm_uploads_in_flight : N;
  sm_oldest_sink_write_ns : option N;
  sm_wal_pending : N;
  sm_wal_capacity : N;
  sm_persist_avg_ms : F;
  sm_ack_avg_ms : F
}.

(** The tuner and the counters it writes. *)
Notation world := (FlushTunerState * Mirrors)%type.

Definition apply_env_caps (x : Sample) (w : world) : world :=
  let '(st, m) := w in
  if initialized st then w
  else
    let caps := caps_from_env (sm_env x) (N.max (sm_num_cpus x) 2) (sm_total_memory x) in
    let st' := {| initialized := true; ts_current := seed_budget caps; ts_caps := caps; ts_previous := sm_totals x; last_tuned := Some (sm_now x);
                  ts_s3_retry_ema_x100 := S3_WAL_RETRY_EMA_X100 m; ts_glue_retry_ema_x100 := GLUE_RETRY_EMA_X100 m;
                  ts_policy := ts_policy st; last_pressure := last_pressure st |} in
    let m' := publish_compatibility_mirrors m (ts_current st') (ts_policy st') (last_pressure st') 0 0 in
    (st', match parse_N U64_MAX (sm_env x (str "S3_DOWNLOAD_CONCURRENCY")) with
          | Some v => if (0 <? v)%N then set_s3_download m' (clamp v 8 512) else m'
          | None => m'
          end).

Definition current_flush_budget (w : world) : FlushBudgetSnapshot := ts_current w.1.

Definition rounded (avg : F) : option N := if f_lt (f_lit 0 1) avg then Some (f_to_u64 (f_round avg)) else None.

Definition interval_secs (x : Sample) (st : FlushTunerState) : F :=
  match last_tuned st with
  | Some last => f_max (f_secs (saturating_sub (sm_now x) last)) (f_lit 1 1)
  | None => f_lit 1 1
  end.

(** The signals of a sample; [s3] and [glue] are the retries since the last one. *)
Definition measure (x : Sample) (st : FlushTunerState) (mode : FlushMode) (backlog : bool) (ingest_sample : option (N * N)) (s3 s3_ema glue glue_ema : N)
    : FlushBudgetSignals F :=
  let t := sm_totals x in
  let p := ts_previous st in
  let '(active, queued) := default (sm_active_threads x, sm_queue_length x) ingest_sample in
  let compaction_sink_wait := delta_average_ms (tt_sink_acquires t) (tt_sink_acquires p) (tt_sink_wait_ns t) (tt_sink_wait_ns p) in
  let runtime_sink_wait := delta_average_ms (tt_runtime_sink_acquires t) (tt_runtime_sink_acquires p) (tt_runtime_sink_wait_ns t) (tt_runtime_sink_wait_ns p) in
  {| mode_signal := Some mode; has_backlog := backlog; active_ingest := active; queued_ingest := queued; scheduler_ready_depth := sm_ready_work x;
     cpu_active_tasks := saturating_add U64_MAX active (sm_compaction_active x); run_queue := sm_run_queue x; process_rss_bytes := sm_rss x;
     total_memory_bytes := sm_total_memory x; available_memory_bytes := sm_available_memory x;
     decode_permit_wait_ms := delta_average_ms (tt_decode_acquires t) (tt_decode_acquires p) (tt_decode_wait_ns t) (tt_decode_wait_ns p);
     sink_permit_wait_ms := match compaction_sink_wait, runtime_sink_wait with Some a, Some b => Some (N.max a b) | Some a, None => Some a | None, b => b end;
     runtime_sink_waiters := sm_sink_waiters x; uploads_in_flight := sm_uploads_in_flight x;
     upload_latency_ms := delta_average_ms (tt_uploads t) (tt_uploads p) (tt_upload_latency_ns t) (tt_upload_latency_ns p);
     sink_commit_ms := delta_average_ms (tt_sink_commits t) (tt_sink_commits p) (tt_sink_commit_ns t) (tt_sink_commit_ns p);
     oldest_sink_write_ms := (λ age, N.min (age / MILLISECOND) U64_MAX) <$> sm_oldest_sink_write_ns x;
     s3_retries := s3; s3_retry_ema_x100 := s3_ema; glue_retries := glue; glue_retry_ema_x100 := glue_ema;
     wal_writer_pending := sm_wal_pending x; wal_writer_capacity := sm_wal_capacity x;
     wal_persist_avg_ms := rounded (sm_persist_avg_ms x); wal_ack_avg_ms := rounded (sm_ack_avg_ms x);
     source_bytes_per_sec := f_to_u64 (f_div (f_of_N (saturating_sub (tt_source_bytes t) (tt_source_bytes p))) (interval_secs x st));
     wal_write_bytes_per_sec := f_to_u64 (f_div (f_of_N (saturating_sub (tt_wal_write_bytes t) (tt_wal_write_bytes p))) (interval_secs x st)) |}.

Definition update_flush_budget (mode : FlushMode) (backlog : bool) (ingest_sample : option (N * N)) (x : Sample) (w : world) : FlushBudgetSnapshot * world :=
  let '(st, m) := apply_env_caps x w in
  let s3 := saturating_sub (tt_s3_retries (sm_totals x)) (tt_s3_retries (ts_previous st)) in
  let glue := saturating_sub (tt_glue_retries (sm_totals x)) (tt_glue_retries (ts_previous st)) in
  let urgent_retry := (0 <? s3)%N || (0 <? glue)%N in
  if negb urgent_retry && match last_tuned st with Some last => (saturating_sub (sm_now x) last <? TUNE_INTERVAL)%N | None => false end
  then (ts_current st, (st, m))
  else
    let s3_ema := ema_x100 (ts_s3_retry_ema_x100 st) s3 in
    let glue_ema := ema_x100 (ts_glue_retry_ema_x100 st) glue in
    let m := set_retry_emas m s3_ema glue_ema in
    let signals := measure x st mode backlog ingest_sample s3 s3_ema glue glue_ema in
    let pressure := classify_pressure signals (ts_caps st) in
    let previous := ts_current st in
    let '(next, next_policy) := compute_flush_budget previous (ts_caps st) signals (ts_policy st) in
    let limits_changed := negb (same_limits previous next) in
    let reason_changed := negb (bool_decide (reason previous = reason next)) in
    let current := if limits_changed || reason_changed then next else previous in
    let st' := {| initialized := initialized st; ts_current := current; ts_caps := ts_caps st; ts_previous := sm_totals x; last_tuned := Some (sm_now x);
                  ts_s3_retry_ema_x100 := s3_ema; ts_glue_retry_ema_x100 := glue_ema; ts_policy := next_policy; last_pressure := pressure |} in
    let m' :=
      if limits_changed then publish_compatibility_mirrors m next next_policy pressure (source_bytes_per_sec signals) (wal_write_bytes_per_sec signals)
      else publish_hysteresis m (if reason_changed then Some next else None) next_policy pressure (source_bytes_per_sec signals) (wal_write_bytes_per_sec signals) in
    (current, (st', m')).
End Update.
Arguments Sample : clear implicits.

(** ** Chunk sizes *)

Record ChunkSizeInputs : Type := {
  ci_current_chunk_size : N;
  ci_active_cores : N;
  ci_num_cpus : N;
  ci_queue_length : N;
  ci_max_queue_length : N;
  ci_avail_mem_mib_opt : option N;
  ci_max_chunk_size : N
}.

Definition OPTIMAL_CHUNK_SIZE_MIN : N := 4000000.

Section Chunks.
Context {F F32 : Type} {FL : Float F} {FL32 : Float F32}.

(** The factor is 1.1, 0.9 or 1, as a numerator and a denominator. *)
Definition adjustment_factor (i : ChunkSizeInputs) : F :=
  let occupancy := if (ci_max_queue_length i =? 0)%N then f_lit (F := F32) 0 1
                   else f_div (f_of_N (F := F32) (ci_queue_length i)) (f_of_N (ci_max_queue_length i)) in
  if (ci_num_cpus i <=? ci_active_cores i)%N && f_le (f_lit 9 10) occupancy then f_lit 11 10
  else if (ci_active_cores i <? ci_num_cpus i)%N && f_lt occupancy (f_lit 8 10) then f_lit 9 10
  else f_lit 1 1.

Definition compute_optimal_chunk_size (i : ChunkSizeInputs) : N :=
  let next := f_to_u64 (f_mul (f_of_N (ci_current_chunk_size i)) (adjustment_factor i)) in
  let next := if (next <? OPTIMAL_CHUNK_SIZE_MIN)%N then OPTIMAL_CHUNK_SIZE_MIN else next in
  let denom := N.max (ci_num_cpus i * 2) 2 in
  match ci_avail_mem_mib_opt i with
  | Some avail_mib =>
      let budget_bytes := (saturating_mul avail_mib (1024 * 1024) / 5)%N in
      let dyn_cap := N.min (N.max (budget_bytes / denom) OPTIMAL_CHUNK_SIZE_MIN) (ci_max_chunk_size i) in
      if (dyn_cap <? next)%N then dyn_cap else next
  | None => if (ci_max_chunk_size i <? next)%N then ci_max_chunk_size i else next
  end.

(** The history after a sample, the size and the trend. *)
Definition tune_chunk_size (now : N) (i : ChunkSizeInputs) (current_throughput : N) (history : list (N * N)) : (N * F) * list (N * N) :=
  let history := history ++ [(now, current_throughput)] in
  let history := drop (length history - 10) history in
  let trend := if length history <? 2 then f_lit 0 1
               else match head history, last history with
                    | Some oldest, Some newest => throughput_trend_per_sec oldest.1 newest.1 oldest.2 newest.2 MIN_THROUGHPUT_RATE_WINDOW
                    | _, _ => f_lit 0 1
                    end in
  ((compute_optimal_chunk_size i, trend), history).
End Chunks.

(** ** Caps and limits *)

Definition limits (s : FlushBudgetSnapshot) : list N :=
  [scheduler_jobs s; decode_jobs s; sink_sessions s; upload_sessions s; multipart_parts s; catalog_operations s].
Definition cap_limits (c : FlushBudgetCaps) : list N :=
  [cap_scheduler_jobs c; cap_decode_jobs c; cap_sink_sessions c; cap_upload_sessions c; cap_multipart_parts c; cap_catalog_operations c].

(** Caps of a machine: at least one of everything, at most [MAX_CAP]; decoding has no more than the scheduler. *)
Definition MAX_CAP : N := 256.
Record caps_ok (c : FlushBudgetCaps) : Prop := {
  ck_limits : Forall (λ n, 1 ≤ n ≤ MAX_CAP)%N (cap_limits c);
  ck_decode : (cap_decode_jobs c ≤ cap_scheduler_jobs c)%N;
  ck_safe : (1 ≤ ingest_safe_scheduler_jobs c ≤ cap_scheduler_jobs c)%N;
  ck_reserved : (1 ≤ cap_ingest_reserved_cores c)%N
}.

Definition within (c : FlushBudgetCaps) (s : FlushBudgetSnapshot) : Prop :=
  Forall2 (λ n cap, 1 ≤ n ≤ cap)%N (limits s) (cap_limits c) ∧ ingest_reserved_cores s = cap_ingest_reserved_cores c.

Lemma clamp_bounds x lo hi : (lo ≤ hi)%N → (lo ≤ clamp x lo hi ≤ hi)%N.
Proof. unfold clamp. destruct (N.ltb_spec x lo), (N.ltb_spec hi x); lia. Qed.
Lemma clamp_id x lo hi : (lo ≤ x ≤ hi)%N → clamp x lo hi = x.
Proof. unfold clamp. destruct (N.ltb_spec x lo), (N.ltb_spec hi x); lia. Qed.
Lemma clamp_le x lo hi : (lo ≤ x)%N → (clamp x lo hi ≤ x)%N.
Proof. unfold clamp. destruct (N.ltb_spec x lo), (N.ltb_spec hi x); lia. Qed.

Lemma min_env_caps_bounds env n names : (1 ≤ n)%N → (1 ≤ min_env_caps env n names ≤ n)%N.
Proof.
  intros Hn. unfold min_env_caps. assert (∀ l m, foldl N.min m l ≤ m)%N as Hle.
  { intros l. induction l as [|x l IH]; intros m; cbn; [lia|]. specialize (IH (N.min m x)). lia. }
  specialize (Hle (omap (env_cap env) names) n). lia.
Qed.

(** Destructs the comparisons of [clamp] terms by their bounds. *)
Ltac clamp_facts :=
  repeat match goal with
  | |- context[clamp ?x ?lo ?hi] =>
      lazymatch goal with
      | _ : (lo ≤ clamp x lo hi ≤ hi)%N |- _ => fail
      | _ => pose proof (clamp_bounds x lo hi ltac:(lia))
      end
  end.

Lemma for_machine_ok cpus mem : caps_ok (for_machine cpus mem).
Proof.
  assert (∀ o : option N, (1 ≤ default 2 ((λ gib, N.max (gib / 4) 1) <$> o))%N) as H1 by (intros [?|]; cbn; lia).
  assert (∀ o : option N, (1 ≤ default 2 ((λ gib, clamp (gib / 16) 1 8) <$> o))%N) as H2.
  { intros [g|]; cbn; [|lia]. pose proof (clamp_bounds (g / 16) 1 8 ltac:(lia)). lia. }
  split; unfold for_machine, cap_limits, MAX_CAP; cbn.
  - repeat apply Forall_cons_2; [..|constructor]; clamp_facts; lia.
  - unfold clamp at 2. destruct (N.ltb_spec (saturating_mul (N.max cpus 2) 2) 2) as [H|H].
    { unfold saturating_mul in H. change U64_MAX with 18446744073709551615%N in H. lia. }
    destruct (N.ltb_spec 128 (saturating_mul (N.max cpus 2) 2)) as [H'|H']; [clamp_facts; lia|].
    unfold saturating_mul in H' |- *. change U64_MAX with 18446744073709551615%N in *.
    assert (∀ x, x ≤ N.max cpus 2 → clamp x 1 128 ≤ N.min 18446744073709551615 (N.max cpus 2 * 2))%N as Hc.
    { intros x Hx. unfold clamp. destruct (N.ltb_spec x 1), (N.ltb_spec 128 x); lia. }
    apply Hc. destruct mem as [b|]; cbn; lia.
  - clamp_facts. lia.
  - lia.
Qed.

Lemma caps_ok_limits c : caps_ok c → (1 ≤ cap_scheduler_jobs c ≤ MAX_CAP ∧ 1 ≤ cap_decode_jobs c ≤ MAX_CAP ∧ 1 ≤ cap_sink_sessions c ≤ MAX_CAP ∧
  1 ≤ cap_upload_sessions c ≤ MAX_CAP ∧ 1 ≤ cap_multipart_parts c ≤ MAX_CAP ∧ 1 ≤ cap_catalog_operations c ≤ MAX_CAP)%N.
Proof. intros [H _ _ _]. unfold cap_limits in H. rewrite !Forall_cons in H. tauto. Qed.

Lemma caps_from_env_ok env cpus mem : caps_ok (caps_from_env env cpus mem).
Proof.
  pose proof (for_machine_ok cpus mem) as Hm. pose proof (caps_ok_limits _ Hm) as (H1 & H2 & H3 & H4 & H5 & H6). destruct Hm as [_ Hd Hs Hr].
  unfold caps_from_env. set (c := for_machine cpus mem) in *. clearbody c.
  set (names1 := [str "WAL_COMPACTION_CONCURRENCY_MAX"; _]). set (names2 := [str "WAL_COMPACTIONS_PER_SINK_MAX"; _]).
  set (names3 := [str "RUNTIME_SINK_SESSION_TARGET"; _]). set (names4 := [str "UPLOAD_CONCURRENCY_MAX"; _]). set (names5 := [str "ATHENA_GLUE_CP_MAX"; _]).
  pose proof (min_env_caps_bounds env (cap_scheduler_jobs c) names1 ltac:(lia)). pose proof (min_env_caps_bounds env (cap_sink_sessions c) names2 ltac:(lia)).
  pose proof (min_env_caps_bounds env (cap_sink_sessions c) names3 ltac:(lia)). pose proof (min_env_caps_bounds env (cap_upload_sessions c) names4 ltac:(lia)).
  pose proof (min_env_caps_bounds env (cap_catalog_operations c) names5 ltac:(lia)).
  split; cbn.
  - unfold cap_limits. cbn. repeat apply Forall_cons_2; [lia..|constructor].
  - lia.
  - lia.
  - done.
Qed.

Lemma within_limits c s : within c s ↔
  (1 ≤ scheduler_jobs s ≤ cap_scheduler_jobs c ∧ 1 ≤ decode_jobs s ≤ cap_decode_jobs c ∧ 1 ≤ sink_sessions s ≤ cap_sink_sessions c ∧
   1 ≤ upload_sessions s ≤ cap_upload_sessions c ∧ 1 ≤ multipart_parts s ≤ cap_multipart_parts c ∧ 1 ≤ catalog_operations s ≤ cap_catalog_operations c)%N ∧
  ingest_reserved_cores s = cap_ingest_reserved_cores c.
Proof. unfold within, limits, cap_limits. rewrite !Forall2_cons, Forall2_nil. tauto. Qed.

Lemma cap_snapshot_within c s : caps_ok c → within c (cap_snapshot s c false).
Proof.
  intros Hc. pose proof (caps_ok_limits c Hc) as (H1 & H2 & H3 & H4 & H5 & H6). pose proof (ck_decode c Hc). apply within_limits. cbn. split; [|done].
  clamp_facts. lia.
Qed.

Lemma same_limits_iff a b : same_limits a b = true ↔ limits a = limits b ∧ ingest_reserved_cores a = ingest_reserved_cores b.
Proof.
  unfold same_limits, limits. rewrite !andb_true_iff, !N.eqb_eq. split; [|intros [[= -> -> -> -> -> ->] ->]; tauto]. intros ((((((-> & ->) & ->) & ->) & ->) & ->) & ->). done.
Qed.

Lemma within_capped c s : caps_ok c → within c s → same_limits s (cap_snapshot s c false) = true.
Proof.
  intros Hc Hs. apply within_limits in Hs as (Hl & Hr). pose proof (ck_decode c Hc). apply same_limits_iff. unfold limits. cbn. split; [|done].
  rewrite !clamp_id by lia. done.
Qed.

Lemma finish_limits current next why : limits (finish_decision current next why) = limits next.
Proof. unfold finish_decision. destruct (same_limits current next) eqn:E; [|done]. by apply same_limits_iff in E as [-> _]. Qed.

Lemma finish_within c current next why : within c next → within c (finish_decision current next why).
Proof.
  intros Hn. unfold finish_decision. destruct (same_limits current next) eqn:E; [|done]. apply same_limits_iff in E as [E1 E2]. unfold within. by rewrite E1, E2.
Qed.

(** ** What a sample does *)

Section Steps.
Context {F : Type} {FL : Float F} (caps : FlushBudgetCaps) (Hcaps : caps_ok caps).
Notation signals := (FlushBudgetSignals F).

Notation step sp s := (compute_flush_budget sp.1 caps s sp.2).

(** Whether a sample asks for less: pressure of the ingest or a safeguard. *)
Definition backs_off (s : signals) : bool :=
  bool_decide (classify_pressure s caps = Pressured) || bool_decide (is_Some (safeguard default_snapshot caps s)).
Definition healthy (s : signals) : bool := memory_healthy s && load_healthy s caps && retries_healthy s.

Lemma safeguard_fires c s : is_Some (safeguard c caps s) ↔ is_Some (safeguard default_snapshot caps s).
Proof. unfold safeguard. cbv zeta. repeat match goal with |- is_Some (if ?b then _ else _) ↔ _ => destruct b; [by split; eexists|] end. split; by intros []. Qed.

Lemma safeguard_limits c s why next : safeguard c caps s = Some (why, next) →
  next = multiplicative_backoff c ∨ next = multiplicative_sink_upload_backoff c.
Proof. unfold safeguard. cbv zeta. repeat match goal with |- (if ?b then _ else _) = _ → _ => destruct b; [intros [= <- <-]; by auto|] end. done. Qed.

(** The decision, for limits within the caps. *)
Inductive decision (c : FlushBudgetSnapshot) (p : FlushBudgetPolicyState) (s : signals) : FlushBudgetSnapshot → FlushBudgetPolicyState → Prop :=
| decide_pressure : classify_pressure s caps = Pressured →
    decision c p s (finish_decision c (multiplicative_sink_upload_backoff (cap_snapshot c caps true)) IngestPressure) (mark_backoff_cooldown (sampled s caps p))
| decide_safeguard why next : classify_pressure s caps ≠ Pressured → safeguard c caps s = Some (why, next) →
    decision c p s (finish_decision c next why) (mark_backoff_cooldown (sampled s caps p))
| decide_idle : backs_off s = false → has_backlog s = false → next_grace s p = 0%N →
    decision c p s (finish_decision c (additive_idle_decrease c) Idle) (sampled s caps p)
| decide_cooling b : backs_off s = false → (has_backlog s = true ∨ (0 < next_grace s p)%N) → (0 < growth_cooldown_remaining p)%N →
    decision c p s (held c b) (cooled (sampled s caps p))
| decide_hold b : backs_off s = false → (has_backlog s = true ∨ (0 < next_grace s p)%N) → growth_cooldown_remaining p = 0%N → drain_mode s && healthy s = false →
    decision c p s (held c b) (sampled s caps p)
| decide_grow why : backs_off s = false → (has_backlog s = true ∨ (0 < next_grace s p)%N) → growth_cooldown_remaining p = 0%N → healthy s = true →
    (drain_mode s = true ∨ (classify_pressure s caps = Quiet ∧ (QUIET_SAMPLES_BEFORE_GROWTH ≤ next_streak s caps p)%N)) →
    decision c p s (finish_decision c (additive_growth c caps s) why) (sampled s caps p).

Lemma compute_decision c p s : within caps c → decision c p s (compute_flush_budget c caps s p).1 (compute_flush_budget c caps s p).2.
Proof.
  intros Hc. unfold compute_flush_budget. rewrite (within_capped caps c Hcaps Hc). cbn [negb]. unfold finish_with_policy.
  case_bool_decide as Hp; [by constructor|]. destruct (safeguard c caps s) as [[why next]|] eqn:Hs; [by apply decide_safeguard|].
  assert (backs_off s = false) as Hb.
  { unfold backs_off. rewrite bool_decide_false by done. apply bool_decide_false. rewrite <- (safeguard_fires c), Hs. by intros []. }
  cbn [sampled backlog_grace_remaining growth_cooldown_remaining quiet_streak].
  destruct (has_backlog s || (0 <? next_grace s p)%N) eqn:He; cbn [negb].
  2:{ apply orb_false_iff in He as [H1 H2]. cbn. apply decide_idle; [done..|]. apply N.ltb_ge in H2. lia. }
  assert (has_backlog s = true ∨ (0 < next_grace s p)%N) as He' by (apply orb_true_iff in He as [?|?]; [by left|right; by apply N.ltb_lt]).
  destruct (N.ltb_spec 0 (growth_cooldown_remaining p)) as [Hg|Hg]; [by apply decide_cooling|].
  assert (growth_cooldown_remaining p = 0%N) as Hg' by lia.
  destruct (drain_mode s || _) eqn:Hm; cbn [negb].
  - fold (healthy s). destruct (healthy s) eqn:Hh; cbn [negb].
    + apply decide_grow; [done..|]. apply orb_true_iff in Hm as [Hm|Hm]; [by left|]. apply andb_true_iff in Hm as [Hq Hn].
      right. split; [by apply bool_decide_eq_true in Hq|by apply N.leb_le].
    + refine (decide_hold c p s false Hb He' Hg' _). by rewrite Hh, andb_false_r.
  - apply orb_false_iff in Hm as [Hd _]. apply decide_hold; [done..|by rewrite Hd].
Qed.

(** *** Limits *)

Lemma held_limits c b : limits (held c b) = limits c ∧ ingest_reserved_cores (held c b) = ingest_reserved_cores c ∧ generation (held c b) = generation c.
Proof. unfold held. by destruct (b && _). Qed.

Lemma halved_bounds n cap : (1 ≤ n ≤ cap)%N → (1 ≤ halved n ≤ cap)%N ∧ (halved n ≤ n)%N.
Proof. intros H. unfold halved. pose proof (N.div_le_upper_bound n 2 n). lia. Qed.

(** A limit after growth: at least what it was, at most a step more. *)
Definition grown (demand : bool) (n st cap : N) : N := if demand then N.min (saturating_add U64_MAX n st) cap else n.

Lemma grown_bounds b n st cap : (1 ≤ n ≤ cap)%N → (cap ≤ MAX_CAP)%N → (1 ≤ st)%N → (1 ≤ grown b n st cap ≤ cap)%N ∧ (n ≤ grown b n st cap ≤ n + st)%N.
Proof. intros H Hc Hs. unfold grown, saturating_add, U64_MAX, MAX_CAP in *. destruct b; lia. Qed.

Lemma step_positive : (1 ≤ scheduler_additive_step (num_cpus caps) ≤ 4)%N.
Proof. apply clamp_bounds. lia. Qed.

Lemma additive_growth_limits c (s : signals) : within caps c →
  Forall2 (λ n n', n ≤ n' ≤ n + 4)%N (limits c) (limits (additive_growth c caps s)) ∧ within caps (additive_growth c caps s).
Proof.
  intros Hc. apply within_limits in Hc as (Hl & Hr). pose proof (caps_ok_limits caps Hcaps) as Hb. pose proof step_positive as Hst. destruct Hst as [Hst1 Hst2].
  unfold within, limits, cap_limits, additive_growth. cbn [scheduler_jobs decode_jobs sink_sessions upload_sessions multipart_parts catalog_operations ingest_reserved_cores].
  repeat match goal with |- context[if ?b then N.min (saturating_add U64_MAX ?n ?st) ?cap else ?n] =>
    change (if b then N.min (saturating_add U64_MAX n st) cap else n) with (grown b n st cap);
    pose proof (grown_bounds b n st cap ltac:(lia) ltac:(lia) ltac:(lia)); generalize dependent (grown b n st cap); intros
  end.
  split; [repeat constructor; lia|]. split; [repeat constructor; lia|done].
Qed.

Lemma compute_within c p s : within caps c → within caps (compute_flush_budget c caps s p).1.
Proof.
  intros Hc. pose proof Hc as Hc'. apply within_limits in Hc' as (Hl & Hr). destruct (compute_decision c p s Hc) as [Hp|why next Hp Hs| | | |].
  - apply finish_within, within_limits. cbn. split; [|done].
    pose proof (clamp_le (scheduler_jobs c) 1 (N.max (N.min (N.min (cap_scheduler_jobs caps) (ingest_safe_scheduler_jobs caps)) (N.max (saturating_sub (num_cpus caps) (cap_ingest_reserved_cores caps)) 1)) 1)).
    pose proof (clamp_le (decode_jobs c) 1 (N.max (N.min (cap_decode_jobs caps) (N.min (N.min (cap_scheduler_jobs caps) (ingest_safe_scheduler_jobs caps)) (N.max (saturating_sub (num_cpus caps) (cap_ingest_reserved_cores caps)) 1))) 1)).
    rewrite !(clamp_id (sink_sessions c)), !(clamp_id (upload_sessions c)), !(clamp_id (multipart_parts c)), !(clamp_id (catalog_operations c)) by lia.
    pose proof (halved_bounds (sink_sessions c) (cap_sink_sessions caps)). pose proof (halved_bounds (upload_sessions c) (cap_upload_sessions caps)).
    pose proof (halved_bounds (multipart_parts c) (cap_multipart_parts caps)). pose proof (halved_bounds (catalog_operations c) (cap_catalog_operations caps)).
    clamp_facts. lia.
  - pose proof (halved_bounds (scheduler_jobs c) (cap_scheduler_jobs caps)). pose proof (halved_bounds (decode_jobs c) (cap_decode_jobs caps)).
    pose proof (halved_bounds (sink_sessions c) (cap_sink_sessions caps)). pose proof (halved_bounds (upload_sessions c) (cap_upload_sessions caps)).
    pose proof (halved_bounds (multipart_parts c) (cap_multipart_parts caps)). pose proof (halved_bounds (catalog_operations c) (cap_catalog_operations caps)).
    apply finish_within, within_limits. destruct (safeguard_limits _ _ _ _ Hs) as [-> | ->]; cbn; (split; [lia|done]).
  - apply finish_within, within_limits. cbn. unfold one_less, saturating_sub. split; [lia|done].
  - destruct (held_limits c b) as (E1 & E2 & _). unfold within. by rewrite E1, E2.
  - destruct (held_limits c b) as (E1 & E2 & _). unfold within. by rewrite E1, E2.
  - apply finish_within. by apply additive_growth_limits.
Qed.

(** *** Histories *)

(** The tuner after a history of samples, the latest first. *)
Fixpoint run (sp : FlushBudgetSnapshot * FlushBudgetPolicyState) (h : list signals) : FlushBudgetSnapshot * FlushBudgetPolicyState :=
  match h with
  | [] => sp
  | s :: h => step (run sp h) s
  end.

Definition some_limit_grows (s s' : FlushBudgetSnapshot) : Prop := ¬ Forall2 N.le (limits s') (limits s).

Lemma run_within sp h : within caps sp.1 → within caps (run sp h).1.
Proof. intros H. induction h as [|s h IH]; [done|]. by apply compute_within. Qed.

(** *** No growth without the conditions *)

(** A goal about the limits, one goal for each. *)
Ltac limits_each := unfold limits; repeat apply Forall2_cons_2; [..|apply Forall2_nil_2].

Lemma halved_le n : (1 ≤ n)%N → (halved n ≤ n)%N.
Proof. intros H. by eapply (halved_bounds n n). Qed.

Lemma le_refl_limits s : Forall2 N.le (limits s) (limits s).
Proof. limits_each; lia. Qed.

Lemma shrinks_pressure c : within caps c → Forall2 N.le (limits (multiplicative_sink_upload_backoff (cap_snapshot c caps true))) (limits c).
Proof.
  intros Hc. apply within_limits in Hc as (Hl & _). unfold limits. cbn.
  rewrite !(clamp_id (sink_sessions c)), !(clamp_id (upload_sessions c)), !(clamp_id (multipart_parts c)), !(clamp_id (catalog_operations c)) by lia.
  limits_each; try (apply clamp_le; lia); apply halved_le; lia.
Qed.

Lemma growth_conditions c p s : within caps c → some_limit_grows c (compute_flush_budget c caps s p).1 →
  backs_off s = false ∧ healthy s = true ∧ growth_cooldown_remaining p = 0%N ∧ (has_backlog s = true ∨ (0 < next_grace s p)%N) ∧
  (drain_mode s = true ∨ (classify_pressure s caps = Quiet ∧ (QUIET_SAMPLES_BEFORE_GROWTH ≤ next_streak s caps p)%N)).
Proof.
  intros Hc Hg. unfold some_limit_grows in Hg. pose proof Hc as Hl. apply within_limits in Hl as (Hl & _).
  destruct (compute_decision c p s Hc) as [Hp|why next Hp Hs| | | |why Hb He Hcd Hh Hm]; [..|by rewrite finish_limits in Hg].
  - destruct Hg. rewrite finish_limits. by apply shrinks_pressure.
  - destruct Hg. rewrite finish_limits. destruct (safeguard_limits _ _ _ _ Hs) as [-> | ->]; limits_each; cbn; try lia; apply halved_le; lia.
  - destruct Hg. rewrite finish_limits. limits_each; cbn; unfold one_less, saturating_sub; lia.
  - destruct Hg. destruct (held_limits c b) as [-> _]. apply le_refl_limits.
  - destruct Hg. destruct (held_limits c b) as [-> _]. apply le_refl_limits.
Qed.

Lemma backs_off_cooldown c p s : within caps c → backs_off s = true → growth_cooldown_remaining (compute_flush_budget c caps s p).2 = GROWTH_COOLDOWN_SAMPLES.
Proof.
  intros Hc Hb. destruct (compute_decision c p s Hc) as [Hp|why next Hp Hs|H|b H|b H|why H]; try done; congruence.
Qed.

Lemma cooldown_step c p s : within caps c → (growth_cooldown_remaining p ≤ growth_cooldown_remaining (compute_flush_budget c caps s p).2 + 1)%N ∨ backs_off s = true.
Proof.
  intros Hc. destruct (compute_decision c p s Hc) as [Hp|why next Hp Hs| |b _ _ H| |]; cbn; try (left; lia).
  - right. unfold backs_off. by rewrite bool_decide_true.
  - right. unfold backs_off. rewrite (bool_decide_true (is_Some _)); [by rewrite orb_true_r|]. rewrite <- (safeguard_fires c), Hs. eauto.
  - left. unfold saturating_sub. lia.
Qed.

Lemma streak_step c p s : within caps c → (quiet_streak (compute_flush_budget c caps s p).2 ≤ next_streak s caps p)%N.
Proof. intros Hc. destruct (compute_decision c p s Hc); cbn; lia. Qed.

Lemma grace_step c p s : within caps c → backlog_grace_remaining (compute_flush_budget c caps s p).2 = next_grace s p.
Proof. intros Hc. by destruct (compute_decision c p s Hc). Qed.

(** *** Invariants of histories *)

Lemma cooldown_history sp h i s : within caps sp.1 → h !! i = Some s → backs_off s = true →
  (GROWTH_COOLDOWN_SAMPLES ≤ growth_cooldown_remaining (run sp h).2 + N.of_nat i)%N.
Proof.
  intros Hw. revert i s. induction h as [|s h IH]; intros i s' Hi Hb; [done|]. destruct i as [|i].
  - injection Hi as ->. cbn [run]. rewrite backs_off_cooldown by (done || by apply run_within). lia.
  - cbn in Hi. specialize (IH i s' Hi Hb). cbn [run]. pose proof (run_within sp h Hw) as Hwr.
    destruct (cooldown_step (run sp h).1 (run sp h).2 s Hwr) as [H|H]; [lia|]. rewrite (backs_off_cooldown _ _ _ Hwr H). lia.
Qed.

Lemma streak_history sp h i : within caps sp.1 → quiet_streak sp.2 = 0%N → (N.of_nat i < quiet_streak (run sp h).2)%N →
  ∃ s, h !! i = Some s ∧ classify_pressure s caps = Quiet.
Proof.
  intros Hw H0. revert i. induction h as [|s h IH]; intros i Hi; cbn [run] in Hi; [lia|].
  pose proof (streak_step (run sp h).1 (run sp h).2 s (run_within sp h Hw)) as Hst. unfold next_streak in Hst.
  destruct (classify_pressure s caps) eqn:Hq; [|lia..]. destruct i as [|i]; [by exists s|]. cbn. apply IH. unfold saturating_add in Hst. lia.
Qed.

Lemma grace_history sp h : within caps sp.1 → backlog_grace_remaining sp.2 = 0%N → (0 < backlog_grace_remaining (run sp h).2)%N →
  ∃ i s, h !! i = Some s ∧ has_backlog s = true ∧ (backlog_grace_remaining (run sp h).2 + N.of_nat i ≤ BACKLOG_GRACE_SAMPLES)%N.
Proof.
  intros Hw H0. induction h as [|s h IH]; cbn [run]; [lia|]. rewrite grace_step by (by apply run_within). unfold next_grace.
  destruct (has_backlog s) eqn:Hb; [intros _; exists 0, s; by rewrite N.add_0_r|]. unfold saturating_sub. intros Hg.
  destruct IH as (i & s' & Hi & Hb' & Hle); [lia|]. exists (S i), s'. split_and!; [done..|lia].
Qed.

(** C15: growth is earned.  After any history of samples that starts within the caps with the default hysteresis, a sample makes a limit
    greater only if none of the ten samples before it and not itself asked for less (pressure of the ingest or a safeguard), memory, load and
    retries are healthy, there was backlog within the last fifteen samples, and either the mode is draining or paused, or this sample and
    the four before it were quiet; and then no limit grows by more than four. *)
Theorem growth_is_earned (start : FlushBudgetSnapshot) (h : list signals) (s : signals) : within caps start →
  let before := run (start, default_policy) h in
  let after := (step before s).1 in
  some_limit_grows before.1 after →
  Forall (λ x, backs_off x = false) (take 11 (s :: h)) ∧ healthy s = true ∧ Exists (λ x, has_backlog x = true) (take 15 (s :: h)) ∧
  (drain_mode s = true ∨ (4 ≤ length h ∧ Forall (λ x, classify_pressure x caps = Quiet) (take 5 (s :: h)))) ∧
  Forall2 (λ n n', n' ≤ n + 4)%N (limits before.1) (limits after).
Proof.
  intros Hw before after Hg. pose proof (run_within (start, default_policy) h Hw) as Hwb. fold before in Hwb.
  destruct (growth_conditions before.1 before.2 s Hwb Hg) as (Hb & Hh & Hcd & He & Hm). split_and!.
  - apply Forall_forall. intros x Hx. apply list_elem_of_lookup in Hx as [i Hi]. apply lookup_take_Some in Hi as [Hi Hlt].
    destruct i as [|i]; [by injection Hi as <-|]. cbn in Hi. destruct (backs_off x) eqn:Hx; [|done]. exfalso.
    pose proof (cooldown_history (start, default_policy) h i x Hw Hi Hx) as Hc. fold before in Hc. unfold GROWTH_COOLDOWN_SAMPLES in Hc. lia.
  - done.
  - apply Exists_exists. destruct (has_backlog s) eqn:Hbs; [exists s; split; [apply list_elem_of_here|done]|]. destruct He as [He|He]; [done|].
    unfold next_grace, saturating_sub in He. rewrite Hbs in He. destruct (grace_history (start, default_policy) h Hw eq_refl) as (i & x & Hi & Hx & Hle); [fold before; lia|].
    fold before in Hle. unfold BACKLOG_GRACE_SAMPLES in Hle. exists x. split; [|done]. apply list_elem_of_lookup. exists (S i). apply lookup_take_Some. split; [done|lia].
  - destruct Hm as [Hm|[Hq Hs]]; [by left|right]. unfold next_streak in Hs. rewrite Hq in Hs. unfold saturating_add, QUIET_SAMPLES_BEFORE_GROWTH in Hs.
    assert (∀ i, (i < 4)%nat → ∃ x, h !! i = Some x ∧ classify_pressure x caps = Quiet) as Hall.
    { intros i Hi. apply (streak_history (start, default_policy) h i Hw eq_refl). fold before. lia. }
    split.
    + destruct (Hall 3 ltac:(lia)) as (x & Hx & _). apply lookup_lt_Some in Hx. lia.
    + apply Forall_forall. intros x Hx. apply list_elem_of_lookup in Hx as [i Hi]. apply lookup_take_Some in Hi as [Hi Hlt].
      destruct i as [|i]; [by injection Hi as <-|]. cbn in Hi. destruct (Hall i ltac:(lia)) as (y & Hy & Hq'). assert (x = y) as -> by (apply (inj Some); by rewrite <- Hi, <- Hy). done.
  - unfold after. destruct (compute_decision before.1 before.2 s Hwb) as [Hp|why next Hp Hs'| | | |why].
    + rewrite finish_limits. eapply Forall2_impl; [apply Forall2_flip, shrinks_pressure; exact Hwb|]. cbn. lia.
    + exfalso. unfold backs_off in Hb. apply orb_false_iff in Hb as [_ Hb]. apply bool_decide_eq_false in Hb. apply Hb, (safeguard_fires before.1). rewrite Hs'. eauto.
    + rewrite finish_limits. limits_each; cbn; unfold one_less, saturating_sub; lia.
    + destruct (held_limits before.1 b) as [-> _]. limits_each; lia.
    + destruct (held_limits before.1 b) as [-> _]. limits_each; lia.
    + rewrite finish_limits. eapply Forall2_impl; [apply additive_growth_limits; exact Hwb|]. cbn. lia.
Qed.

(** *** Back-off, draining and idling *)

Lemma backs_off_reason c s : backs_off s = true → classify_pressure s caps = Pressured ∨ (classify_pressure s caps ≠ Pressured ∧ is_Some (safeguard c caps s)).
Proof.
  unfold backs_off. intros H. destruct (decide (classify_pressure s caps = Pressured)) as [Hp|Hp]; [by left|right]. split; [done|].
  rewrite (bool_decide_false _ Hp) in H. apply bool_decide_eq_true in H. by apply safeguard_fires.
Qed.

(** Back-off is prompt.  A sample that asks for less halves the sink sessions, the uploads, the parts and the catalog operations (down to
    one) at once; no other limit grows, and when the ingest presses the scheduler is left the cores that are not reserved and its safe
    number of jobs. *)
Theorem backoff_is_prompt (c : FlushBudgetSnapshot) (p : FlushBudgetPolicyState) (s : signals) : within caps c → backs_off s = true →
  let next := (compute_flush_budget c caps s p).1 in
  sink_sessions next = halved (sink_sessions c) ∧ upload_sessions next = halved (upload_sessions c) ∧
  multipart_parts next = halved (multipart_parts c) ∧ catalog_operations next = halved (catalog_operations c) ∧
  (scheduler_jobs next ≤ scheduler_jobs c)%N ∧ (decode_jobs next ≤ decode_jobs c)%N ∧
  (classify_pressure s caps = Pressured →
     (scheduler_jobs next ≤ N.min (ingest_safe_scheduler_jobs caps) (N.max (num_cpus caps - cap_ingest_reserved_cores caps) 1))%N ∧
     (decode_jobs next ≤ N.min (ingest_safe_scheduler_jobs caps) (N.max (num_cpus caps - cap_ingest_reserved_cores caps) 1))%N).
Proof.
  intros Hc Hb next. assert (limits next = limits (multiplicative_sink_upload_backoff (cap_snapshot c caps true)) ∧ classify_pressure s caps = Pressured ∨
    (classify_pressure s caps ≠ Pressured ∧ (limits next = limits (multiplicative_backoff c) ∨ limits next = limits (multiplicative_sink_upload_backoff c)))) as Hn.
  { unfold next. destruct (compute_decision c p s Hc) as [Hp|why nx Hp Hs|H|b H|b H|why H]; try congruence.
    - left. by rewrite finish_limits.
    - right. split; [done|]. rewrite finish_limits. destruct (safeguard_limits _ _ _ _ Hs) as [-> | ->]; by auto. }
  pose proof Hc as Hl. apply within_limits in Hl as (Hl & _). pose proof (ck_safe caps Hcaps) as Hsafe. pose proof (caps_ok_limits caps Hcaps) as Hcl.
  destruct Hn as [[Hn Hp]|[Hp Hn]].
  - unfold limits in Hn. cbn in Hn.
    rewrite !(clamp_id (sink_sessions c)), !(clamp_id (upload_sessions c)), !(clamp_id (multipart_parts c)), !(clamp_id (catalog_operations c)) in Hn by lia.
    injection Hn as -> -> -> -> -> ->. unfold saturating_sub.
    set (cap := N.min (N.min (cap_scheduler_jobs caps) (ingest_safe_scheduler_jobs caps)) (N.max (num_cpus caps - cap_ingest_reserved_cores caps) 1)).
    pose proof (clamp_le (scheduler_jobs c) 1 (N.max cap 1)). pose proof (clamp_le (decode_jobs c) 1 (N.max (N.min (cap_decode_jobs caps) cap) 1)).
    pose proof (clamp_bounds (scheduler_jobs c) 1 (N.max cap 1)). pose proof (clamp_bounds (decode_jobs c) 1 (N.max (N.min (cap_decode_jobs caps) cap) 1)).
    subst cap. split_and!; try done; lia.
  - pose proof (halved_le (scheduler_jobs c)). pose proof (halved_le (decode_jobs c)).
    destruct Hn as [Hn|Hn]; unfold limits in Hn; cbn in Hn; injection Hn as -> -> -> -> -> ->; split_and!; try done; lia.
Qed.

(** A sample of a draining pipeline with work for every limit. *)
Definition draining (s : signals) : Prop :=
  backs_off s = false ∧ healthy s = true ∧ drain_mode s = true ∧ has_backlog s = true ∧ (MAX_CAP < scheduler_ready_depth s)%N.

Lemma draining_grows c p s : within caps c → draining s → growth_cooldown_remaining p = 0%N →
  limits (compute_flush_budget c caps s p).1 = limits (additive_growth c caps s) ∧ growth_cooldown_remaining (compute_flush_budget c caps s p).2 = 0%N.
Proof.
  intros Hc (Hb & Hh & Hd & Hbl & _) Hp. destruct (compute_decision c p s Hc) as [H|why nx H Hs|_ H|b _ _ H|b _ _ _ H|why].
  - unfold backs_off in Hb. by rewrite bool_decide_true in Hb.
  - unfold backs_off in Hb. apply orb_false_iff in Hb as [_ Hb]. apply bool_decide_eq_false in Hb. destruct Hb. apply (safeguard_fires c). rewrite Hs. eauto.
  - congruence.
  - lia.
  - by rewrite Hd, Hh in H.
  - split; [apply finish_limits|done].
Qed.

Lemma draining_cools c p s : within caps c → draining s → (0 < growth_cooldown_remaining p)%N →
  limits (compute_flush_budget c caps s p).1 = limits c ∧ growth_cooldown_remaining (compute_flush_budget c caps s p).2 = (growth_cooldown_remaining p - 1)%N.
Proof.
  intros Hc (Hb & Hh & Hd & Hbl & _) Hp. destruct (compute_decision c p s Hc) as [H|why nx H Hs|_ H|b _ _ H|b _ _ H|why _ _ H]; try lia.
  - unfold backs_off in Hb. by rewrite bool_decide_true in Hb.
  - unfold backs_off in Hb. apply orb_false_iff in Hb as [_ Hb]. apply bool_decide_eq_false in Hb. destruct Hb. apply (safeguard_fires c). rewrite Hs. eauto.
  - congruence.
  - split; [apply held_limits|done].
Qed.

Lemma draining_one_more c s : within caps c → draining s →
  Forall2 (λ (nc : N * N) n', (N.min nc.2 (nc.1 + 1) ≤ n')%N) (zip (limits c) (cap_limits caps)) (limits (additive_growth c caps s)).
Proof.
  intros Hc (_ & _ & _ & _ & Hr). apply within_limits in Hc as (Hl & _). pose proof (caps_ok_limits caps Hcaps) as Hcl. pose proof step_positive as [Hst1 Hst2].
  unfold limits, cap_limits, additive_growth. cbn [scheduler_jobs decode_jobs sink_sessions upload_sessions multipart_parts catalog_operations zip_with].
  assert ((scheduler_jobs c <? scheduler_ready_depth s)%N = true ∧ (sink_sessions c <? scheduler_ready_depth s)%N = true ∧ (upload_sessions c <? scheduler_ready_depth s)%N = true ∧
    (catalog_operations c <? scheduler_ready_depth s)%N = true) as (-> & -> & -> & ->) by (split_and!; apply N.ltb_lt; lia).
  cbn [orb]. unfold saturating_add, U64_MAX, MAX_CAP in *. repeat apply Forall2_cons_2; [..|apply Forall2_nil_2]; cbn [fst snd]; lia.
Qed.

Lemma draining_limits sp h : within caps sp.1 → Forall draining h →
  (growth_cooldown_remaining (run sp h).2 ≤ growth_cooldown_remaining sp.2 - N.of_nat (length h))%N ∧
  Forall2 (λ n c, N.min c (N.of_nat (length h) - growth_cooldown_remaining sp.2) ≤ n)%N (limits (run sp h).1) (cap_limits caps).
Proof.
  intros Hw Hh. induction Hh as [|s h Hs Hh [IH1 IH2]]; cbn [run length].
  - split; [lia|]. unfold limits, cap_limits. repeat apply Forall2_cons_2; [..|apply Forall2_nil_2]; lia.
  - pose proof (run_within sp h Hw) as Hwr. destruct (N.eq_0_gt_0_cases (growth_cooldown_remaining (run sp h).2)) as [H0|H0].
    + destruct (draining_grows _ _ s Hwr Hs H0) as [-> ->]. split; [lia|]. pose proof (draining_one_more _ s Hwr Hs) as Hm.
      revert IH2 Hm. generalize (limits (run sp h).1) as l, (cap_limits caps) as k, (limits (additive_growth (run sp h).1 caps s)) as l'.
      intros l k l' IH2. revert l'. induction IH2 as [|n c l k Hn Hl IH]; intros l' Hm; cbn in Hm; [by apply Forall2_nil_inv_l in Hm as ->|].
      apply Forall2_cons_inv_l in Hm as (n' & l'' & Hn' & Hm & ->). cbn in Hn'. constructor; [lia|by apply IH].
    + destruct (draining_cools _ _ s Hwr Hs H0) as [-> ->]. split; [lia|]. eapply Forall2_impl; [exact IH2|]. cbn. intros n c Hn. lia.
Qed.

End Steps.

(** ** The tuner over its calls *)

Section Calls.
Context {F : Type} {FL : Float F}.
Notation world := (FlushTunerState * Mirrors)%type.

Record mirrors_ok (s : FlushBudgetSnapshot) (m : Mirrors) : Prop := {
  mo_scheduler : WAL_COMPACTION_CONCURRENCY_TARGET m = scheduler_jobs s;
  mo_per_sink : WAL_COMPACTIONS_PER_SINK_TARGET m = sink_sessions s;
  mo_pool : RUNTIME_SINK_POOL_TARGET m = sink_sessions s;
  mo_upload : UPLOAD_CONCURRENCY_TARGET m = upload_sessions s;
  mo_parts : MULTIPART_PART_CONCURRENCY_TARGET m = multipart_parts s;
  mo_catalog : ATHENA_GLUE_CP_TARGET m = catalog_operations s;
  mo_generation : FLUSH_BUDGET_GENERATION m = generation s;
  mo_reason : FLUSH_BUDGET_REASON_CODE m = reason_code (reason s);
  mo_reserved : FLUSH_BUDGET_INGEST_RESERVED_CORES m = ingest_reserved_cores s
}.

Record policy_ok (p : FlushBudgetPolicyState) : Prop := {
  po_streak : (quiet_streak p ≤ QUIET_SAMPLES_BEFORE_GROWTH)%N;
  po_cooldown : (growth_cooldown_remaining p ≤ GROWTH_COOLDOWN_SAMPLES)%N;
  po_grace : (backlog_grace_remaining p ≤ BACKLOG_GRACE_SAMPLES)%N
}.

Record tuner_ok (w : world) : Prop := {
  to_caps : caps_ok (ts_caps w.1);
  to_within : within (ts_caps w.1) (ts_current w.1);
  to_mirrors : mirrors_ok (ts_current w.1) w.2;
  to_policy : policy_ok (ts_policy w.1)
}.

(** The states of the tuner: the calls of the process in any order, whatever they find; nothing else writes its counters.
    A call holds the lock while it reads and writes the tuner, so that calls of several tasks are one sequence; seeding by a first
    update with readings of its own is [reach_caps] before [reach_update]. *)
Inductive reachable : world → Prop :=
| reach_start m : reachable (default_tuner, m)
| reach_caps x w : reachable w → reachable (apply_env_caps (F := F) x w)
| reach_update mode backlog ingest x w : reachable w → reachable (update_flush_budget (F := F) mode backlog ingest x w).2.

Lemma compute_policy caps c (s : FlushBudgetSignals F) p : caps_ok caps → within caps c → policy_ok p → policy_ok (compute_flush_budget c caps s p).2.
Proof.
  intros Hk Hc [H1 H2 H3].
  assert (quiet_streak (sampled s caps p) ≤ QUIET_SAMPLES_BEFORE_GROWTH ∧ backlog_grace_remaining (sampled s caps p) ≤ BACKLOG_GRACE_SAMPLES)%N as [Hq Hg].
  { cbn. unfold next_streak, next_grace, saturating_sub. split; [destruct (classify_pressure s caps); lia|destruct (has_backlog s); lia]. }
  destruct (compute_decision caps Hk c p s Hc); split; try done; cbn in *; unfold saturating_sub; lia.
Qed.

(** The limits and the reason of the next snapshot. *)
Lemma compute_generation caps c (s : FlushBudgetSignals F) p : caps_ok caps → within caps c → let next := (compute_flush_budget c caps s p).1 in
  (limits next = limits c ∧ generation next = generation c) ∨ (limits next ≠ limits c ∧ generation next = saturating_add U64_MAX (generation c) 1).
Proof.
  intros Hk Hc next. assert (∀ nx why, within caps nx → let r := finish_decision c nx why in
    (limits r = limits c ∧ generation r = generation c) ∨ (limits r ≠ limits c ∧ generation r = saturating_add U64_MAX (generation c) 1)) as Hf.
  { intros nx why [_ Hr] r. unfold r, finish_decision. destruct (same_limits c nx) eqn:E; [by left|right]. split; [|done]. intros Heq.
    apply not_true_iff_false in E. apply E, same_limits_iff. split; [done|]. destruct Hc as [_ ->]. done. }
  pose proof (compute_within caps Hk c p s Hc) as Hw. unfold next in *.
  destruct (compute_decision caps Hk c p s Hc) as [Hp|why nx Hp Hs| |b|b|why]; try (left; split; apply held_limits);
    apply Hf; unfold within in *; rewrite finish_limits in Hw; (split; [apply Hw|]).
  - done.
  - destruct (safeguard_limits _ _ _ _ _ Hs) as [-> | ->]; apply Hc.
  - apply Hc.
  - apply Hc.
Qed.

Lemma apply_env_caps_ok (x : Sample F) w : (initialized w.1 = true → tuner_ok w) → policy_ok (ts_policy w.1) →
  initialized (apply_env_caps x w).1 = true ∧ tuner_ok (apply_env_caps x w).
Proof.
  destruct w as [st m]. cbn. intros Hok Hp. unfold apply_env_caps. destruct (initialized st) eqn:Hi; [by auto|]. split; [done|].
  pose proof (caps_from_env_ok (sm_env x) (N.max (sm_num_cpus x) 2) (sm_total_memory x)) as Hk. set (caps := caps_from_env _ _ _) in *.
  split; cbn [fst snd ts_caps ts_current ts_policy]; [done|by apply cap_snapshot_within| |done].
  destruct (parse_N _ _) as [v|]; [|done]. by destruct (0 <? v)%N.
Qed.

Lemma within_same c s s' : within c s → within c s' → limits s' = limits s → same_limits s s' = true.
Proof. intros [_ H1] [_ H2] Hl. apply same_limits_iff. split; [done|congruence]. Qed.

Lemma update_ok mode backlog ingest (x : Sample F) w : (initialized w.1 = true → tuner_ok w) → policy_ok (ts_policy w.1) →
  let out := update_flush_budget mode backlog ingest x w in initialized out.2.1 = true ∧ tuner_ok out.2 ∧ out.1 = ts_current out.2.1.
Proof.
  intros Hok Hp. destruct (apply_env_caps_ok x w Hok Hp) as [Hi Ht]. unfold update_flush_budget. destruct (apply_env_caps x w) as [st m]. cbn in Hi.
  destruct Ht as [Hk Hw Hm Hpol]. cbn in Hk, Hw, Hm, Hpol. destruct (negb _ && _); [done|].
  set (s := measure _ _ _ _ _ _ _ _ _). pose proof (compute_within (ts_caps st) Hk (ts_current st) (ts_policy st) s Hw) as Hw'.
  pose proof (compute_policy (ts_caps st) (ts_current st) s (ts_policy st) Hk Hw Hpol) as Hpol'.
  pose proof (compute_generation (ts_caps st) (ts_current st) s (ts_policy st) Hk Hw) as Hg. cbv zeta in Hg.
  destruct (compute_flush_budget _ _ _ _) as [next policy]. cbn in Hw', Hpol', Hg. cbn [initialized fst snd ts_current]. split; [done|]. split; [|done].
  destruct (same_limits (ts_current st) next) eqn:Hs; cbn [negb orb].
  - apply same_limits_iff in Hs as [Hl Hr]. destruct Hg as [[_ Hg]|[Hne _]]; [|congruence]. destruct (bool_decide (reason (ts_current st) = reason next)) eqn:Hb; cbn [negb].
    + split; cbn [fst snd ts_caps ts_current ts_policy]; [done|done| |done]. destruct Hm. by split.
    + split; cbn [fst snd ts_caps ts_current ts_policy]; [done|done| |done]. destruct Hm. unfold limits in Hl. injection Hl as L1 L2 L3 L4 L5 L6. split; cbn; congruence.
  - split; cbn [fst snd ts_caps ts_current ts_policy]; [done|done|by split|done].
Qed.

(** C14: the budget stays within its caps.  In every state the tuner reaches, through any calls and whatever they measure, once it is
    seeded: every limit is at least one and at most its cap of the machine and the environment, which are at least one each; the counters that
    sinks and plugins read are those of one snapshot, the current one, generation and reason included; and the hysteresis is bounded. *)
Theorem tuner_within_caps (w : world) : reachable w → initialized w.1 = true → tuner_ok w.
Proof.
  intros Hr. assert ((initialized w.1 = true → tuner_ok w) ∧ policy_ok (ts_policy w.1)) as [H _]; [|done].
  induction Hr as [m|x w Hr [IH1 IH2]|mode backlog ingest x w Hr [IH1 IH2]].
  - split; [done|]. split; cbn; unfold QUIET_SAMPLES_BEFORE_GROWTH, GROWTH_COOLDOWN_SAMPLES, BACKLOG_GRACE_SAMPLES; lia.
  - destruct (apply_env_caps_ok x w IH1 IH2) as [_ Hok]. split; [done|apply Hok].
  - destruct (update_ok mode backlog ingest x w IH1 IH2) as (_ & Hok & _). split; [done|apply Hok].
Qed.

(** A call returns the snapshot it leaves, and between two samples within a second without retries nothing changes. *)
Theorem update_returns_current (w : world) mode backlog ingest (x : Sample F) : reachable w →
  (update_flush_budget mode backlog ingest x w).1 = ts_current (update_flush_budget mode backlog ingest x w).2.1.
Proof.
  intros Hr. unfold update_flush_budget. destruct (apply_env_caps x w) as [st m]. destruct (negb _ && _); [done|]. by destruct (compute_flush_budget _ _ _ _).
Qed.
End Calls.

(** ** Chunk sizes *)

(** Chunk sizes are bounded.  The next chunk size is at most the configured maximum, at least four million bytes or the maximum when that
    is less, and with known memory the chunks of all queues take at most a fifth of it unless the minimum does. *)
Theorem chunk_size_bounds {F F32 : Type} {FL : Float F} {FL32 : Float F32} (i : ChunkSizeInputs) :
  let n := compute_optimal_chunk_size (F := F) (F32 := F32) i in
  (N.min OPTIMAL_CHUNK_SIZE_MIN (ci_max_chunk_size i) ≤ n ≤ ci_max_chunk_size i)%N ∧
  (∀ mib, ci_avail_mem_mib_opt i = Some mib → (n ≤ OPTIMAL_CHUNK_SIZE_MIN)%N ∨ (n * (ci_num_cpus i * 2) ≤ saturating_mul mib (1024 * 1024) / 5)%N).
Proof.
  cbv zeta. unfold compute_optimal_chunk_size. set (next := f_to_u64 _). cbv zeta.
  assert (OPTIMAL_CHUNK_SIZE_MIN ≤ if (next <? OPTIMAL_CHUNK_SIZE_MIN)%N then OPTIMAL_CHUNK_SIZE_MIN else next)%N as Hlow.
  { destruct (N.ltb_spec next OPTIMAL_CHUNK_SIZE_MIN); lia. }
  revert Hlow. generalize (if (next <? OPTIMAL_CHUNK_SIZE_MIN)%N then OPTIMAL_CHUNK_SIZE_MIN else next). intros m Hlow.
  destruct (ci_avail_mem_mib_opt i) as [mib|].
  - set (budget := (saturating_mul mib (1024 * 1024) / 5)%N). set (denom := N.max (ci_num_cpus i * 2) 2).
    pose proof (N.Div0.mul_div_le budget denom) as Hd. set (q := (budget / denom)%N) in *.
    set (cap := N.min (N.max q OPTIMAL_CHUNK_SIZE_MIN) (ci_max_chunk_size i)).
    assert (∀ n, (n ≤ cap)%N → (n ≤ OPTIMAL_CHUNK_SIZE_MIN)%N ∨ (n * (ci_num_cpus i * 2) ≤ budget)%N) as Hb.
    { intros n Hn. destruct (N.le_gt_cases n OPTIMAL_CHUNK_SIZE_MIN) as [?|Hgt]; [by left|right]. assert (n ≤ q)%N by lia. unfold denom in Hd. nia. }
    destruct (N.ltb_spec cap m) as [Hlt|Hge]; (split; [subst cap; lia|]); intros mib' [= <-]; fold budget; apply Hb; lia.
  - destruct (N.ltb_spec (ci_max_chunk_size i) m); (split; [lia|done]).
Qed.

(** ** Small machines *)

(** One task is pressure.  On a machine with fewer than eight cores a single active ingest task counts as pressure of the ingest, whatever
    else is measured, so that the limits never grow while one runs ([TunerExample.one_task_of_eight_cores]: with eight cores it need not be). *)
Theorem single_task_is_pressure {F : Type} {FL : Float F} (env : environment) (cpus : N) (mem : option N) (s : FlushBudgetSignals F) :
  (cpus < 8)%N → (1 ≤ active_ingest s)%N → classify_pressure s (caps_from_env env cpus mem) = Pressured ∧
  ∀ c p, within (caps_from_env env cpus mem) c → ¬ some_limit_grows c (compute_flush_budget c (caps_from_env env cpus mem) s p).1.
Proof.
  intros Hc Ha. assert (classify_pressure s (caps_from_env env cpus mem) = Pressured) as Hp.
  { unfold classify_pressure, ingest_pressured. assert (cap_ingest_reserved_cores (caps_from_env env cpus mem) = 1%N) as ->.
    { cbn. assert (N.max cpus 2 / 4 ≤ 1)%N by (assert (N.max cpus 2 / 4 < 2)%N by (apply N.Div0.div_lt_upper_bound; lia); lia). lia. }
    rewrite (proj2 (N.leb_le _ _) Ha), orb_true_r. done. }
  split; [done|]. intros c p Hw Hg. pose proof (caps_from_env_ok env cpus mem) as Hk.
  destruct (growth_conditions _ Hk c p s Hw Hg) as [Hb _]. unfold backs_off in Hb. by rewrite bool_decide_true in Hb.
Qed.

(** ** An example *)

Module TunerExample.

(** Rational numbers in place of floating-point ones. *)
#[local] Instance rationals : Float QArith_base.Q := {|
  f_of_N := λ n, QArith_base.Qmake (Z.of_N n) 1;
  f_lit := λ n d, QArith_base.Qmake (Z.of_N n) (N.succ_pos (N.pred d));
  f_secs := λ n, QArith_base.Qmake (Z.of_N n) 1000000000;
  f_sub := QArith_base.Qminus;
  f_mul := QArith_base.Qmult;
  f_div := QArith_base.Qdiv;
  f_le := QArith_base.Qle_bool;
  f_lt := λ x y, negb (QArith_base.Qle_bool y x);
  f_max := λ x y, if QArith_base.Qle_bool x y then y else x;
  f_round := λ x, QArith_base.Qmake (Qround.Qfloor (QArith_base.Qplus x (QArith_base.Qmake 1 2))) 1;
  f_to_u64 := λ x, N.min U64_MAX (Z.to_N (Qround.Qfloor x))
|}.

Definition GIB : N := 1024 * 1024 * 1024.

(** A machine of sixteen cores and 64 GiB, no variable set, a pipeline that drains with work for every limit. *)
Definition no_env : environment := λ _, [].
Definition caps : FlushBudgetCaps := caps_from_env no_env 16 (Some (64 * GIB)%N).
Definition signals (active : N) : FlushBudgetSignals QArith_base.Q := {|
  mode_signal := Some ModeDrain; has_backlog := true; active_ingest := active; queued_ingest := 0; scheduler_ready_depth := 1000; cpu_active_tasks := 2;
  run_queue := Some (QArith_base.Qmake 3 2); process_rss_bytes := Some GIB; total_memory_bytes := Some (64 * GIB)%N; available_memory_bytes := Some (40 * GIB)%N;
  decode_permit_wait_ms := None; sink_permit_wait_ms := None; runtime_sink_waiters := 0; uploads_in_flight := 0; upload_latency_ms := None;
  sink_commit_ms := None; oldest_sink_write_ms := None; s3_retries := 0; s3_retry_ema_x100 := 0; glue_retries := 0; glue_retry_ema_x100 := 0;
  wal_writer_pending := 0; wal_writer_capacity := 64; wal_persist_avg_ms := None; wal_ack_avg_ms := None; source_bytes_per_sec := 0; wal_write_bytes_per_sec := 0 |}.

Definition mirrors : Mirrors := {|
  WAL_COMPACTION_CONCURRENCY_TARGET := 0; WAL_COMPACTIONS_PER_SINK_TARGET := 0; RUNTIME_SINK_POOL_TARGET := 0; UPLOAD_CONCURRENCY_TARGET := 0;
  MULTIPART_PART_CONCURRENCY_TARGET := 0; ATHENA_GLUE_CP_TARGET := 0; FLUSH_BUDGET_GENERATION := 0; FLUSH_BUDGET_REASON_CODE := 0;
  FLUSH_BUDGET_INGEST_RESERVED_CORES := 0; FLUSH_BUDGET_PRESSURE_CLASS := 0; FLUSH_BUDGET_QUIET_STREAK := 0; FLUSH_BUDGET_GROWTH_COOLDOWN := 0;
  FLUSH_BUDGET_BACKLOG_GRACE := 0; FLUSH_BUDGET_SOURCE_BYTES_PER_SEC := 0; FLUSH_BUDGET_WAL_WRITE_BYTES_PER_SEC := 0; S3_WAL_RETRY_EMA_X100 := 0;
  GLUE_RETRY_EMA_X100 := 0; S3_DOWNLOAD_CONCURRENCY_TARGET := 0 |}.

Definition sample (now : N) : Sample QArith_base.Q := {|
  sm_now := now; sm_env := no_env; sm_num_cpus := 16; sm_rss := Some GIB; sm_total_memory := Some (64 * GIB)%N; sm_available_memory := Some (40 * GIB)%N;
  sm_run_queue := None; sm_totals := no_totals; sm_active_threads := 0; sm_queue_length := 0; sm_compaction_active := 1; sm_ready_work := 1000;
  sm_sink_waiters := 0; sm_uploads_in_flight := 0; sm_oldest_sink_write_ns := None; sm_wal_pending := 0; sm_wal_capacity := 64;
  sm_persist_avg_ms := QArith_base.Qmake 3 2; sm_ack_avg_ms := QArith_base.Qmake 0 1 |}.

(** A seeded tuner after a sample: one more job, and the counters follow. *)
Definition drained : FlushTunerState * Mirrors :=
  (update_flush_budget ModeDrain true None (sample (2 * SECOND)) (apply_env_caps (sample 0) (default_tuner, mirrors))).2.

Lemma start_within : within caps (seed_budget caps).
Proof. apply cap_snapshot_within, caps_from_env_ok. Qed.

Lemma draining_signals : draining caps (signals 0).
Proof. unfold draining. vm_compute. done. Qed.

Lemma tuner_within_caps_witness : limits (ts_current drained.1) = [3; 3; 3; 5; 2; 2]%N ∧ UPLOAD_CONCURRENCY_TARGET drained.2 = 5%N ∧ tuner_ok drained.
Proof. split_and!; [by vm_compute..|]. apply (tuner_within_caps (F := QArith_base.Q)); [apply reach_update, reach_caps, reach_start|by vm_compute]. Defined.

Lemma growth_is_earned_witness : healthy caps (signals 0) = true.
Proof.
  apply (growth_is_earned caps (caps_from_env_ok no_env 16 (Some (64 * GIB)%N)) (seed_budget caps) [] (signals 0)); [apply start_within|].
  unfold some_limit_grows. intros H. apply Forall2_cons in H as [H _]. by vm_compute in H.
Defined.

Lemma backoff_is_prompt_witness : sink_sessions (compute_flush_budget (seed_budget caps) caps (signals 4) default_policy).1 = halved 2.
Proof.
  apply (backoff_is_prompt caps (caps_from_env_ok no_env 16 (Some (64 * GIB)%N)) (seed_budget caps) default_policy (signals 4)); [apply start_within|by vm_compute].
Defined.


Lemma single_task_is_pressure_witness : classify_pressure (signals 1) (caps_from_env no_env 7 (Some (16 * GIB)%N)) = Pressured.
Proof. apply (single_task_is_pressure no_env 7 (Some (16 * GIB)%N) (signals 1)); by vm_compute. Defined.

(** With eight cores one active task is no pressure. *)
Example one_task_of_eight_cores : classify_pressure (signals 1) (caps_from_env no_env 8 (Some (16 * GIB)%N)) = Quiet.
Proof. by vm_compute. Qed.
End TunerExample.
